(* ===== verification/_CoqProject ===== *)
-Q . S2P
Prelude.v
Effects.v
Bytes.v
Consensus.v
BTree.v
Files.v
Float.v
KernelBreaker.v
KernelIdentity.v
KernelLease.v
KernelRetry.v
KernelLimiter.v
VaultField.v
VaultShamir.v
VaultTokens.v
VaultPolicy.v
LedgerChain.v
StreamsLog.v
StreamsEnsemble.v
StreamsGroup.v
NetTypes.v
NetMaglev.v
NetNat.v
NetConntrack.v
NetIpam.v
NetPolicy.v
ApiAuthz.v
ApiApply.v
ApiWatchCache.v
ApiStore.v
ApiSelectors.v
SchedCache.v
SchedPreempt.v
DocValue.v
DocBson.v
DocWire.v
DocQuery.v
DocEngine.v
DocCommands.v
KernelCodec.v
DocServer.v
RespCodec.v
RespReader.v
RaftTypes.v
RaftLog.v
HaWal.v
RaftSnapshot.v
HaRecovery.v
RaftMembership.v
RaftStateMachine.v
RaftReadOnly.v
RaftNode.v
RaftExample.v
RaftBridge.v
RaftApply.v
RaftFollower.v
RaftFindings.v
RaftQuiet.v
RaftVotes.v
RaftCluster.v
EtcdQuorum.v
EtcdTypes.v
EtcdStore.v
EtcdMvcc.v
EtcdHistory.v
EtcdKv.v
EtcdWatch.v
EtcdLease.v
EtcdQuota.v
EtcdWal.v
EtcdMutex.v
EtcdLockManager.v
EtcdStm.v
EtcdAuth.v
EtcdRbac.v
EtcdCluster.v
EtcdSha256.v
EtcdSnapshot.v
EtcdWire.v
EtcdFindings.v
