(* ===== verification/Prelude.v ===== *)
(** * cave-runtime: verification of the consensus, storage, network and security core

    cave-runtime is a workspace of Rust crates that rebuilds a cloud platform.  Two of them
    carry its state: [cave-ha] (crates/compute/cave-ha), a Raft implementation written as an
    actor with a durable log beside it, and [cave-etcd] (crates/compute/cave-etcd), a
    key-value store with the interface of etcd v3, its log, snapshots, locks and elections.
    They meet in the consensus traits of [cave-kernel] (crates/core/cave-kernel), which also
    holds what every service of the platform uses: frame codecs, circuit breakers, leases,
    retries, rate limiters, tenant and workload identities.  The servers [cave-cache],
    [cave-docdb] and [cave-rdbms] (crates/data) speak their protocols through those codecs;
    [cave-docdb] is followed from the bytes of a connection down to its documents.
    [cave-streams] (crates/data) keeps partition logs and coordinates their consumers,
    [cave-ledger] (crates/data) is a hash-chained audit log, and [cave-vault]
    (crates/security) keeps secrets behind shared keys, tokens and policies.  [cave-apiserver]
    and [cave-scheduler] (crates/compute) are the store of a Kubernetes cluster with the checks
    before it, and the placement of pods; [cave-net] (crates/networking) decides which packets
    pass and where they go.
    This library models these parts by a shallow embedding, one definition per method, and
    proves what makes them correct.

    ** How the code is represented

    - [u64], [usize] and [u8] are [N] and [i64] is [Z]; additions and subtractions that may
      overflow are written with the wrapping operations of this file ([+w], [-w], [wrap_i64]).
      A theorem that needs the absence of overflow says so, with a bound on the initial
      counters or on the length of the run.
    - [Vec<u8>] and [String] are lists of bytes, a [HashMap] or [DashMap] is a [gmap] iterated
      in the order of [map_to_list], a [BTreeMap] is a [gmap] read in key order
      or, where its order drives the code, a sorted association list ([BTree.v]).  An [f64] is
      a [spec_float], the IEEE 754 numbers of the standard library ([Float.v]); instants and
      durations are nanoseconds.
    - An [async fn (&mut self)] or a store method with interior mutability is a computation of
      the monad of [Effects.v]: a state, a result, and the effects in the order they happen
      (messages, answers on response channels, metrics, watch events).
    - Errors are values of [result]; early returns with [?] are [let?].
    - The clock, random numbers, fresh identifiers and salts are arguments.  The libraries
      that are not in the workspace ([serde_json], [bcrypt], [rand]) and the user's state
      machine are type classes; what is assumed of them is a separate class of laws, with an
      instance that shows that the laws can hold.

    ** The files

    - [Prelude.v]: results, machine integers, lemmas on lists, maps and sums shared below.
      [Effects.v]: the monad, its loops, and the [Frame] principle: a relation closed under
      sequencing holds of a method when it holds of its steps.
    - [Consensus.v]: the types of consensus.rs; the traits [LogStore] and [StateMachine] as
      classes, the first with its laws.
    - cave-ha, directory raft/: [RaftTypes.v] (types.rs, messages.rs, config.rs, error.rs),
      [RaftLog.v] (log.rs), [RaftSnapshot.v] (snapshot.rs), [RaftMembership.v]
      (membership.rs), [RaftStateMachine.v] (state_machine.rs), [RaftReadOnly.v]
      (read_only.rs), [RaftNode.v] (node.rs: the actor, every handler whole),
      [RaftBridge.v] (kernel_bridge.rs), [RaftExample.v] (concrete instances).
    - Theorems on the node: [RaftApply.v] (commit and apply), [RaftFollower.v] (votes, log
      replication, stepping down), [RaftFindings.v] (departures from Raft), [RaftQuiet.v] and
      [RaftVotes.v] (what each handler does to term, vote and role), [RaftCluster.v]
      (a cluster over an unreliable network).
    - cave-etcd: [EtcdTypes.v] (models.rs, error.rs), and the parts of store.rs:
      [EtcdStore.v] (the state of [KvStore]; key-value operations, transactions, watches,
      leases, compaction), [EtcdAuth.v] (users, roles, tokens), [EtcdCluster.v] (members,
      joint configuration, the Raft surface, alarms), [EtcdSha256.v], [EtcdSnapshot.v].
    - Shared: [Bytes.v] (encodings of integers, text, the hex crate as a class), [BTree.v]
      (ordered maps, runs of calls and their simulation), [Files.v] (a file with a cursor, the
      scan of a log), [Float.v].
    - cave-ha, directories storage/ and dr/: [HaWal.v] (wal.rs, log_store.rs),
      [HaRecovery.v] (snapshot_store.rs, recovery.rs).
    - cave-kernel: [KernelBreaker.v] (circuitbreaker.rs), [KernelLease.v] (lease.rs),
      [KernelRetry.v] (backoff.rs, retrypolicy.rs, the worker of reconcile.rs),
      [KernelLimiter.v] (ratelimiter.rs), [KernelIdentity.v] (ns.rs, identity.rs),
      [KernelCodec.v] (codec/, and its users: the PostgreSQL frames of cave-rdbms, the
      OP_MSG frames and the connection loop of cave-docdb).
    - cave-docdb: [DocValue.v] (values and documents), [DocBson.v] (bson.rs), [DocWire.v]
      (wire.rs), [DocQuery.v] (query.rs, update.rs, projection.rs), [DocEngine.v] (engine.rs,
      index.rs, cursor.rs), [DocCommands.v] (commands/), [DocServer.v] (server.rs).
    - cave-vault: [VaultField.v] (the field of shamir.rs and core/seal.rs), [VaultShamir.v]
      (secret sharing and the seal), [VaultTokens.v] (token.rs, auth/token.rs),
      [VaultPolicy.v] (core/policy.rs, capabilities-self of api/sys.rs).
    - cave-ledger: [LedgerChain.v] (entry.rs, chain.rs, store.rs).
    - cave-streams: [StreamsLog.v] (segment_log.rs, log_compaction.rs), [StreamsEnsemble.v]
      (the ensemble of segment_log.rs), [StreamsGroup.v] (consumer_group.rs).
    - cave-net, directory cilium/: [NetTypes.v] (addresses, the ipnet crate as a class),
      [NetMaglev.v] (maglev.rs), [NetNat.v] (nat.rs, identity.rs, ipcache.rs),
      [NetConntrack.v] (conntrack.rs), [NetIpam.v] (ipam.rs), [NetPolicy.v] (policy.rs).
    - cave-apiserver: [ApiAuthz.v] (rbac.rs, priority_fairness.rs), [ApiApply.v]
      (server_side_apply.rs), [ApiWatchCache.v] (watch_cache.rs), [ApiStore.v] (store.rs, and
      of resources.rs the kinds and the metadata), [ApiSelectors.v] (selectors.rs).
    - cave-scheduler: [SchedCache.v] (cache.rs, of models.rs the resources),
      [SchedPreempt.v] (preempt.rs, default_preemption.rs).
    - cave-cache: [RespCodec.v] (codec.rs, the values of resp.rs), [RespReader.v] (the
      reader of resp.rs).
    - cave-etcd beside store.rs: [EtcdWal.v] (wal.rs), [EtcdMutex.v] (concurrency.rs),
      [EtcdLockManager.v] (lock_manager.rs), [EtcdStm.v] (concurrency_extras.rs),
      [EtcdQuorum.v] (raft_joint_quorum.rs, membership_v2.rs), [EtcdQuota.v] (quota.rs,
      cindex.rs, lease_id_gen.rs, watch_filters.rs), [EtcdRbac.v] (rbac_deeper.rs),
      [EtcdWire.v] (snapshot_wire.rs, snap_db.rs).
    - Theorems on the store: [EtcdMvcc.v] (the refinement of an abstract versioned map),
      [EtcdHistory.v] (runs of commands), [EtcdKv.v], [EtcdWatch.v], [EtcdLease.v],
      [EtcdFindings.v].

    ** What is proved

    - Raft, cluster level: at most one leader per term ([election_safety]), for every
      sequence of ticks, client commands and deliveries, with messages lost, repeated and
      reordered.  Membership is fixed, terms stay below [u64::MAX], and a node that stops
      does not return under its identifier, since the code keeps term and vote in memory.
    - Raft, node level: which index a leader commits ([leader_commit_rule]), the exact
      condition of a vote, the log of a follower after an accepted AppendEntries and that a
      rejected one changes no entry, that stepping down answers every pending proposal, the
      intersection of joint quorums, the read-only queue, snapshot transfer in chunks.
    - Kernel bridge: [KernelLogStore] meets the laws of the trait [LogStore], so what is
      proved of every lawful store (staged entries roll back) holds of it; the bundled
      key-value machine restores what it snapshots.
    - Store: a read at a past revision returns what a plain read returned then
      ([time_travel_range]); the reads a compaction preserves; a comparison on the
      modification revision detects every write in between; the exact result of [range],
      [put] and [delete_range]; a watch receives every event it covers once and in order;
      revocation and expiry delete exactly the keys attached to the leases concerned.
    - Store, administration: the exact condition under which a token or a password opens a
      key, the invariant of the access tables, the majority rule of
      [commit_via_match_index], entering and leaving a joint configuration, linearizable
      reads; SHA-256 against its definition in FIPS 180-4; the round trip of a snapshot
      through its stream into another store.
    - Durability: wherever a crash cuts the file of the Raft log, reopening gives the log
      after some number of the writes, none on disk being lost ([crash_recovers_prefix]);
      the same for the log of cave-etcd, replayed into a store ([wal_recovers_store]);
      snapshots are replaced atomically, and recovery to a point in time applies exactly
      the entries it should ([recover_replays_log]).
    - Locks: the mutex of cave-etcd refines a first-in first-out queue, writers of the
      read-write lock exclude everybody, elections follow the queue, epochs fence leaders,
      transactions of the software transactional memory that commit between the steps of
      others are serializable.  The lock theorems speak of calls one after the other; where a call is not atomic in the code, a lemma
      next to the theorem shows what an overlap does.
    - Membership, quotas, index: joint commitment, the overlap of majorities across simple
      changes, the monotonicity of the consistent index under every interleaving of its
      atomic steps.
    - Wire formats: round trips of RESP, of PostgreSQL and OP_MSG frames, of snapshot frames
      and of [snap.db] files into another store; a connection behaves the same however the
      network cuts the stream; the two RESP parsers agree.
    - Kernel services: the circuit breaker never panics and rations its trials, at most one
      holder of a lease, the retry executor returns and answers with its last call, grants
      of a rate limiter stay within its capacity, tenant ids are DNS labels.
    - Documents: BSON documents and OP_MSG messages come back from their bytes, decoding ends
      on every input; queries, updates and projections operator by operator; a collection
      against a map; what is inserted is found; a connection answers its requests in order
      however the network cuts them ([requests_served]); and no message makes the server
      store anything ([nothing_stored]).
    - Vault: GF(256) is a field, shares of the threshold give the secret back and fewer say
      nothing about it ([shamir_secrecy]), different shares of the vault's own key open it;
      revoking a token takes every descendant with it ([revoked_with_descendants]); exactly
      whom a policy check lets through ([check_spec]).
    - Ledger: a valid chain is tamper evident as long as no two hashed texts collide.
    - Streams: the segmented log refines the list of records, compaction keeps the last value
      of each key, acknowledged entries of the ensemble stay readable; every partition goes
      to exactly one member of a group, in even shares ([assignment_complete]); two members
      never share a generation ([one_member_per_generation]).
    - Network: the policy map of an endpoint decides as the rules say, read one by one
      ([policy_verdict]); the Maglev table is built for every prime size up to 2^32, full
      and in even shares ([maglev_balanced]); source translation is a bijection and gives up only when
      every port is taken ([snat_bijection]); connection tracking keeps the flows used last
      ([conntrack_lru]); no two owners of a pool hold one address ([addresses_exclusive]).
    - API server: a tenant is reviewed and admitted as if it were alone ([tenants_apart]), and
      a priority level stays within its seats ([in_flight_bounded]); the field managers
      implement a map from fields to managers ([ownership_refines]); a replay of the watch
      cache is the part of what was published that was asked for ([replay_exact]); replaying
      the events of the store gives the store ([watch_replays_store]); selectors are read back
      from their text ([selector_roundtrip]).
    - Scheduler: the tally of a node is the sum over its pods ([tally_exact]); preemption finds
      a node whenever admissible victims make room on one, and evicts only such pods
      ([preempt_spec]); no eviction is lost ([evictions_conserved]).
    - [RaftFindings.v], [EtcdFindings.v] and lemmas of the other files prove behaviour that
      contradicts a comment of the code or the protocol it implements.

    ** Bounds and fuel

    Loops over data are structural.  These loops of the code are given fuel: absorbing
    64-byte blocks in [sha_update] (the length of the buffer; each round removes 64 bytes),
    the padding loop of [sha_finalize] (64 rounds; fewer than 64 zeros are ever added),
    the wait of [linearizable_read] (2 rounds: the first marks the read index as applied,
    so the second ends), the RESP decoder (one more than the length of the buffer) and reader
    (twice the bytes to come and two), the scan of a log file (one more than its length; each
    record has a header), [retry] ([max_attempts] rounds), the worker of the reconcile loop
    (one more than [max_attempts]), the BSON decoder (one more than the bytes for the nesting,
    the bytes for one document), the OP_MSG loops (the length of the message), the Merkle
    root (as many levels as hashes), [revoke_tree] (one more than the tokens with children:
    each call takes one of them away), the Maglev table (a probe looks at as many slots as the
    table has, and there are one more passes than slots, each filling at least one), and the
    primality test (as many divisors as the square root of the number).  Each is proved enough by the theorem on the function.
    The multiplication, power and inverse of GF(256) make 8 rounds, one per bit of a byte;
    trimming white space makes as many rounds as the text has bytes.
    The printer of hexadecimal keys makes 16 digits, which hold any 64-bit number.  The
    theorems on runs of the store bound the commands ([fits]) so that the revision counter,
    a [u64], does not wrap; the theorems on leases speak of disciplined runs, in which
    leases are granted under free identifiers and puts name leases that exist
    ([EtcdFindings.v] shows what happens otherwise).

    ** What is not modelled

    Transport, HTTP and gRPC routes, metrics and background tasks are input and output
    around the modelled core: the delivery of messages is a choice of the environment, the
    periodic expiry of leases is the call [expire_leases] at any time.  The methods of the
    store run one at a time; [txn_not_atomic_with_put] is the exception.  Disks do not fail:
    a file operation succeeds or a crash leaves a prefix of what was written.  Memory is
    unbounded.  Of cave-ha the failover, health and replication modules, of cave-etcd the
    token formats, key management, maintenance reports and clients, of cave-kernel the event
    bus, the semaphore and the parity scores, of cave-cache and cave-rdbms what they do with
    a command, of cave-docdb the SQL back end, the oplog, change streams and GridFS, of
    cave-vault the secret engines, the other login methods and the parser of policies (it
    uses a regular expression engine), of cave-streams the broker, transactions, connectors
    and schemas, of cave-net the proxies, BGP, observability, cluster mesh and program loaders,
    of cave-apiserver admission, discovery, audit, conversion and encryption at rest, of
    cave-scheduler the other plugins, the queue, volumes and topology, and the other crates of the workspace are left out. *)

From stdpp Require Export sorting strings numbers relations tactics.
From stdpp Require Export base list fin_maps fin_sets gmap.
From Stdlib Require Export Lia.

#[global] Open Scope N_scope.

(** ** Results

    Rust's [Result<T, E>], with the [?] operator as a notation. *)

Inductive result (E A : Type) : Type :=
| Ok (a : A)
| Err (e : E).
Arguments Ok {E A} a.
Arguments Err {E A} e.

Definition is_ok {E A} (r : result E A) : bool :=
  match r with Ok _ => true | Err _ => false end.

(** [Result::ok] *)
Definition ok {E A} (r : result E A) : option A :=
  match r with Ok a => Some a | Err _ => None end.

(** [Result::unwrap_or] *)
Definition unwrap_or {E A} (r : result E A) (d : A) : A :=
  match r with Ok a => a | Err _ => d end.

(** [Option::ok_or] *)
Definition ok_or {E A} (o : option A) (e : E) : result E A :=
  match o with Some a => Ok a | None => Err e end.

Declare Scope cave_scope.
Delimit Scope cave_scope with cave.
Notation "'let?' x := r 'in' k" :=
  (match r with Ok x => k | Err e => Err e end)
  (at level 10, x name, r at level 100, k at level 200) : cave_scope.
#[global] Open Scope cave_scope.

(** ** Machine integers

    [u64] and [usize] values are naturals; the operators that can leave the
    range are written out: plain [+] and [-] wrap modulo 2^64, as they do in the
    release profile of the workspace (Cargo.toml sets no overflow checks there),
    [saturating_add] and [saturating_sub] clamp. *)

Abbreviation u64 := N (only parsing).
Abbreviation usize := N (only parsing).
Abbreviation u8 := N (only parsing).
Abbreviation bytes := (list N) (only parsing).

Definition u64_modulus : N := 18446744073709551616.
Definition u64_max : N := 18446744073709551615.
(** Two's complement of 64 bits. *)
Definition wrap_i64 (z : Z) : Z := ((z + 9223372036854775808) mod 18446744073709551616 - 9223372036854775808)%Z.
Definition u64_add (a b : N) : N := (a + b) mod u64_modulus.
Definition u64_sub (a b : N) : N := (a + u64_modulus - b) mod u64_modulus.
Definition u64_mul (a b : N) : N := (a * b) mod u64_modulus.
Definition saturating_add (a b : N) : N := N.min (a + b) u64_max.
Definition saturating_sub (a b : N) : N := a - b.

#[global] Arguments u64_add : simpl never.
#[global] Arguments u64_sub : simpl never.
#[global] Arguments u64_mul : simpl never.
#[global] Arguments saturating_add : simpl never.
#[global] Arguments saturating_sub : simpl never.

Infix "+w" := u64_add (at level 50, left associativity) : cave_scope.
Infix "-w" := u64_sub (at level 50, left associativity) : cave_scope.

Lemma u64_add_small (a b : N) : a + b < u64_modulus → a +w b = a + b.
Proof. intros H. apply N.mod_small. exact H. Qed.

Lemma u64_add_range (a b : N) : a +w b < u64_modulus.
Proof. apply N.mod_lt. discriminate. Qed.

Lemma u64_sub_range (a b : N) : a -w b < u64_modulus.
Proof. apply N.mod_lt. discriminate. Qed.

Lemma u64_sub_small (a b : N) : b ≤ a → a < u64_modulus → a -w b = a - b.
Proof.
  intros Hle Ha. unfold u64_sub.
  replace (a + u64_modulus - b) with ((a - b) + 1 * u64_modulus) by lia.
  rewrite N.Div0.mod_add. apply N.mod_small. lia.
Qed.

(** A subtraction that goes below zero lands far above any in-memory length. *)
Lemma u64_sub_wraps (a b : N) :
  a < b → b < u64_modulus → a -w b = u64_modulus - (b - a).
Proof.
  intros Hlt Hb. unfold u64_sub.
  replace (a + u64_modulus - b) with (u64_modulus - (b - a)) by lia.
  apply N.mod_small. lia.
Qed.

Lemma u64_add_1 (a : N) : a < u64_max → a +w 1 = a + 1.
Proof. intros H. apply u64_add_small. unfold u64_max, u64_modulus in *. lia. Qed.

(** Normalises machine arithmetic whose operands are in range, then [lia]. *)
Ltac u64_norm :=
  repeat first
    [ rewrite u64_add_1 by (unfold u64_max, u64_modulus in *; lia)
    | rewrite u64_add_small by (unfold u64_max, u64_modulus in *; lia)
    | rewrite u64_sub_small by (unfold u64_max, u64_modulus in *; lia) ].
Ltac u64_lia := u64_norm; unfold u64_max, u64_modulus in *; lia.

(** Case analysis on the first comparison of machine integers in the goal,
    closing the impossible branch. *)
Ltac case_N1 :=
  match goal with
  | |- context [?a <=? ?b] => destruct (N.leb_spec a b); try lia
  | |- context [?a <? ?b] => destruct (N.ltb_spec a b); try lia
  | |- context [?a =? ?b] => destruct (N.eqb_spec a b); try lia
  end.
Ltac case_N := repeat case_N1.

(** ** Vectors indexed by machine integers *)

Definition vlen {A} (l : list A) : N := N.of_nat (length l).

(** [slice::get] *)
Definition vget {A} (l : list A) (i : N) : option A :=
  if i <? vlen l then l !! N.to_nat i else None.

(** [Vec::truncate] *)
Definition vtruncate {A} (l : list A) (n : N) : list A :=
  if n <? vlen l then take (N.to_nat n) l else l.

(** [v[a..b].to_vec()] for [a <= b <= v.len()] *)
Definition vslice {A} (l : list A) (a b : N) : list A :=
  take (N.to_nat (b - a)) (drop (N.to_nat a) l).

(** The inclusive range [lo..=hi] in increasing order; empty when [hi < lo]. *)
Definition range_incl (lo hi : N) : list N :=
  (λ k, lo + N.of_nat k) <$> seq 0 (N.to_nat (hi + 1 - lo)).

(** A [BTreeSet<u64>] is iterated in increasing order. *)
Definition btree_iter (s : gset N) : list N := merge_sort (≤) (elements s).

Lemma elem_of_range_incl (lo hi i : N) : i ∈ range_incl lo hi ↔ lo ≤ i ≤ hi.
Proof.
  unfold range_incl. rewrite list_elem_of_fmap. split.
  - intros (k & -> & Hk%elem_of_seq). lia.
  - intros Hi. exists (N.to_nat (i - lo)). split; [lia|].
    apply elem_of_seq. lia.
Qed.

(** A loop over a range that keeps the last index satisfying [P]. *)
Lemma foldl_range_last (P : N → bool) (f : N → N → N) (a lo hi : N) :
  (∀ acc x, f acc x = if P x then x else acc) →
  let r := foldl f a (range_incl lo hi) in
  (r = a ∧ ∀ x, lo ≤ x ≤ hi → P x = false) ∨
  (lo ≤ r ≤ hi ∧ P r = true ∧ ∀ x, r < x ≤ hi → P x = false).
Proof.
  intros Hf. unfold range_incl. set (k := N.to_nat (hi + 1 - lo)).
  assert (Hk : ∀ n, let r := foldl f a ((λ k, lo + N.of_nat k) <$> seq 0 n) in
    ((r = a ∧ ∀ x, lo ≤ x < lo + N.of_nat n → P x = false) ∨
     (lo ≤ r < lo + N.of_nat n ∧ P r = true ∧ ∀ x, r < x < lo + N.of_nat n → P x = false))).
  { induction n as [|n IH]; [left; split; [done|lia]|].
    rewrite seq_S, fmap_app, foldl_app. simpl in *. rewrite Hf.
    set (r := foldl f a _) in *. destruct (P (lo + N.of_nat n)) eqn:HP.
    - right. split_and!; [lia|lia|done|]. lia.
    - assert (Hlast : ∀ x, lo + N.of_nat n ≤ x < lo + N.of_nat (S n) → P x = false)
        by (intros x Hx; by replace x with (lo + N.of_nat n) by lia).
      destruct IH as [[Hr Hn]|(Hr & HPr & Hn)]; [left|right].
      + split; [done|]. intros x Hx. destruct (decide (x < lo + N.of_nat n)); [apply Hn|apply Hlast]; lia.
      + split_and!; [lia|lia|done|]. intros x Hx.
        destruct (decide (x < lo + N.of_nat n)); [apply Hn|apply Hlast]; lia. }
  specialize (Hk k). simpl in Hk. destruct Hk as [[Hr Hn]|(Hr & HPr & Hn)]; [left|right].
  - split; [done|]. intros x Hx. apply Hn. lia.
  - split_and!; [lia|lia|done|]. intros x Hx. apply Hn. lia.
Qed.

Lemma elem_of_btree_iter (s : gset N) (i : N) : i ∈ btree_iter s ↔ i ∈ s.
Proof. unfold btree_iter. by rewrite merge_sort_Permutation, elem_of_elements. Qed.

Lemma vlen_cons {A} (x : A) (l : list A) : vlen (x :: l) = vlen l + 1.
Proof. unfold vlen. simpl. lia. Qed.

Lemma vlen_app {A} (l k : list A) : vlen (l ++ k) = vlen l + vlen k.
Proof. unfold vlen. rewrite length_app. lia. Qed.

Lemma vget_lookup {A} (l : list A) (i : N) : vget l i = l !! N.to_nat i.
Proof.
  unfold vget, vlen. destruct (N.ltb_spec i (N.of_nat (length l))) as [|Hge]; [done|].
  symmetry. apply lookup_ge_None. lia.
Qed.

Lemma vtruncate_take {A} (l : list A) (n : N) : vtruncate l n = take (N.to_nat n) l.
Proof.
  unfold vtruncate, vlen. destruct (N.ltb_spec n (N.of_nat (length l))) as [|Hge]; [done|].
  symmetry. apply take_ge. lia.
Qed.

Lemma filter_none {A} (P : A → Prop) `{∀ x, Decision (P x)} (l : list A) :
  Forall (λ x, ¬ P x) l → filter P l = [].
Proof. induction 1; [done|]. by rewrite filter_cons_False. Qed.

Lemma filter_all {A} (P : A → Prop) `{∀ x, Decision (P x)} (l : list A) : Forall P l → filter P l = l.
Proof. induction 1 as [|x l Hx _ IH]; [done|]. by rewrite filter_cons_True, IH. Qed.

Lemma omap_ext_in {A B} (f g : A → option B) (l : list A) :
  (∀ x, x ∈ l → f x = g x) → omap f l = omap g l.
Proof. intros H. apply list_omap_ext, Forall_Forall2_diag, Forall_forall. exact H. Qed.

Lemma omap_cons_app {A B} (f : A → option B) (x : A) (l : list A) :
  omap f (x :: l) = option_list (f x) ++ omap f l.
Proof. simpl. by destruct (f x). Qed.

Lemma list_filter_iff_in {A} (P Q : A → Prop) `{∀ x, Decision (P x)} `{∀ x, Decision (Q x)} (l : list A) :
  (∀ x, x ∈ l → P x ↔ Q x) → filter P l = filter Q l.
Proof.
  intros Hl. induction l as [|x l IH]; [done|]. rewrite !filter_cons.
  assert (Hx := Hl x ltac:(set_solver)). rewrite IH by set_solver. repeat case_decide; tauto || done.
Qed.

Lemma NoDup_fmap_inj_elem {A B} (f : A → B) (l : list A) x y :
  NoDup (f <$> l) → x ∈ l → y ∈ l → f x = f y → x = y.
Proof.
  intros Hnd [i Hi]%list_elem_of_lookup [j Hj]%list_elem_of_lookup Hf.
  assert (i = j) as ->; [|congruence]. eapply NoDup_lookup; [exact Hnd| |].
  - by rewrite list_lookup_fmap, Hi.
  - by rewrite list_lookup_fmap, Hj, Hf.
Qed.

(** ** Dealing in turn *)

(** How many of [n] the [j]th of [k] gets when they are dealt in turn *)
Lemma turns_S n k j : (j < k)%nat → ((S n + (k - 1 - j)) / k = (n + (k - 1 - j)) / k + if decide (n mod k = j) then 1 else 0)%nat.
Proof.
  intros J. pose proof (Nat.div_mod_eq n k) as E. pose proof (Nat.mod_upper_bound n k). set (q := (n / k)%nat) in *. set (r := (n mod k)%nat) in *.
  destruct (decide (r = j)) as [R|R]; [|destruct (decide (r < j)%nat)].
  - rewrite <- (Nat.div_unique (S n + (k - 1 - j)) k (S q) 0), <- (Nat.div_unique (n + (k - 1 - j)) k q (k - 1)) by lia. lia.
  - rewrite <- (Nat.div_unique (S n + (k - 1 - j)) k q (k - (j - r))), <- (Nat.div_unique (n + (k - 1 - j)) k q (k - 1 - (j - r))) by lia. lia.
  - rewrite <- (Nat.div_unique (S n + (k - 1 - j)) k (S q) (r - j)), <- (Nat.div_unique (n + (k - 1 - j)) k (S q) (r - j - 1)) by lia. lia.
Qed.
Lemma turns_bounds n k j : (j < k)%nat → (n / k ≤ (n + (k - 1 - j)) / k ≤ S (n / k))%nat.
Proof.
  intros J. split; [apply Nat.Div0.div_le_mono; lia|]. transitivity ((n + 1 * k) / k)%nat; [apply Nat.Div0.div_le_mono; lia|].
  rewrite Nat.div_add by lia. lia.
Qed.

(** ** Sorted lists *)

Lemma sorted_filter {A} (R : relation A) P `{∀ x, Decision (P x)} (l : list A) : StronglySorted R l → StronglySorted R (filter P l).
Proof.
  induction 1 as [|x l _ IH Hx]; [constructor|]. rewrite filter_cons. destruct (decide (P x)); [|done]. constructor; [done|].
  rewrite Forall_forall in *. intros y [_ Hy]%list_elem_of_filter. by apply Hx.
Qed.
(** [sort_by]: the stable sort, by insertion from the right. *)
Fixpoint insert_by {A} (le : A → A → bool) (x : A) (l : list A) : list A :=
  match l with
  | [] => [x]
  | y :: l => if le x y then x :: y :: l else y :: insert_by le x l
  end.
Definition sort_by {A} (le : A → A → bool) (l : list A) : list A := foldr (insert_by le) [] l.
Definition sort_by_key {A} (key : A → N) (l : list A) : list A := sort_by (λ a b, key a <=? key b) l.
Section SortBy.
Context {A : Type} (le : A → A → bool).
Lemma insert_by_perm x l : insert_by le x l ≡ₚ x :: l.
Proof. induction l as [|y l IH]; cbn [insert_by]; [done|]. destruct (le x y); [done|]. rewrite IH. constructor. Qed.
Lemma sort_by_perm l : sort_by le l ≡ₚ l.
Proof. induction l as [|x l IH]; [done|]. cbn. by rewrite insert_by_perm, IH. Qed.
Lemma insert_by_front x l : Forall (λ y, le x y = true) l → insert_by le x l = x :: l.
Proof. destruct 1 as [|y l L F]; [done|]. cbn [insert_by]. by rewrite L. Qed.
Lemma sort_by_id l : StronglySorted (λ a b, le a b = true) l → sort_by le l = l.
Proof.
  induction 1 as [|x l S IH F]; [done|]. cbn [sort_by foldr]. change (foldr (insert_by le) [] l) with (sort_by le l). rewrite IH. by apply insert_by_front.
Qed.
(** For a total order the list is sorted, and what is kept is not mixed with what is left out. *)
Context (total : ∀ a b, le a b = false → le b a = true) (trans : ∀ a b c, le a b = true → le b c = true → le a c = true).
Lemma insert_by_sorted x l : StronglySorted (λ a b, le a b = true) l → StronglySorted (λ a b, le a b = true) (insert_by le x l).
Proof.
  induction 1 as [|y l S IH F]; cbn [insert_by]; [by repeat constructor|]. destruct (le x y) eqn:E.
  - constructor; [by constructor|]. constructor; [done|]. eapply Forall_impl; [exact F|]. cbn. eauto.
  - constructor; [done|]. rewrite insert_by_perm. constructor; [auto|done].
Qed.
Lemma sort_by_sorted l : StronglySorted (λ a b, le a b = true) (sort_by le l).
Proof. induction l as [|x l IH]; [constructor|]. by apply insert_by_sorted. Qed.
Lemma filter_insert_by (P : A → Prop) `{!∀ x, Decision (P x)} x l : StronglySorted (λ a b, le a b = true) l →
  filter P (insert_by le x l) = if decide (P x) then insert_by le x (filter P l) else filter P l.
Proof.
  induction 1 as [|y l S IH F]; cbn [insert_by]; [by rewrite filter_cons|]. destruct (le x y) eqn:L.
  - rewrite filter_cons. destruct (decide (P x)); [|done]. rewrite insert_by_front; [done|].
    apply Forall_forall. intros z [_ [->|Z]%elem_of_cons]%list_elem_of_filter; [done|]. rewrite Forall_forall in F. specialize (F z Z). cbn in F. eauto.
  - rewrite !filter_cons, IH. destruct (decide (P y)), (decide (P x)); try done. cbn [insert_by]. by rewrite L.
Qed.
Lemma filter_sort_by (P : A → Prop) `{!∀ x, Decision (P x)} l : filter P (sort_by le l) = sort_by le (filter P l).
Proof.
  induction l as [|x l IH]; [done|]. cbn [sort_by foldr]. rewrite filter_insert_by by apply sort_by_sorted.
  rewrite filter_cons. change (foldr (insert_by le) [] l) with (sort_by le l). rewrite IH. by destruct (decide (P x)).
Qed.
End SortBy.
Section SortByKey.
Context {A : Type} (key : A → N).
Lemma key_total a b : (key a <=? key b) = false → (key b <=? key a) = true.
Proof. rewrite N.leb_gt, N.leb_le. lia. Qed.
Lemma key_trans a b c : (key a <=? key b) = true → (key b <=? key c) = true → (key a <=? key c) = true.
Proof. rewrite !N.leb_le. lia. Qed.
Lemma sort_by_key_sorted l : StronglySorted (λ a b, (key a <=? key b) = true) (sort_by_key key l).
Proof. apply sort_by_sorted; [apply key_total|apply key_trans]. Qed.
Lemma filter_sort_by_key (P : A → Prop) `{!∀ x, Decision (P x)} l : filter P (sort_by_key key l) = sort_by_key key (filter P l).
Proof. apply filter_sort_by; [apply key_total|apply key_trans]. Qed.
End SortByKey.

(** ** A byte encoding for concrete instances

    The bits of a positive, one per byte; with stdpp's [encode] it serves as a concrete
    serializer where the program uses [serde_json]. *)

Fixpoint bits (p : positive) : bytes :=
  match p with xH => [] | xO p => 0 :: bits p | xI p => 1 :: bits p end.
Fixpoint unbits (l : bytes) : positive :=
  match l with [] => xH | b :: l => if b =? 0 then xO (unbits l) else xI (unbits l) end.

Lemma unbits_bits p : unbits (bits p) = p.
Proof. by induction p as [p IH|p IH|]; simpl; rewrite ?IH. Qed.
