(* ===== verification/Effects.v ===== *)
(** * A state-and-effects monad

    The nodes of cave-runtime are actors: an [async fn (&mut self)] mutates the
    actor, sends messages and answers callers.  Such a method is translated to a
    function from the actor's state to a result, the new state and the list of
    effects it produced, in order.  The file holds the monad, the loops the
    translations use, and the proof principle the components share: a relation
    between the state before, the state after and the effects produced, closed
    under sequencing ([Frame]), holds of a method when it holds of its steps. *)

From S2P Require Import Prelude.

Section Monad.
Context {S E : Type}.

Definition M (A : Type) : Type := S → A * S * list E.

#[global] Instance M_ret : MRet M := λ A a s, (a, s, []).
#[global] Instance M_bind : MBind M := λ A B k m s,
  let '(a, s1, o1) := m s in
  let '(b, s2, o2) := k a s1 in
  (b, s2, o1 ++ o2).

Definition get : M S := λ s, (s, s, []).
Definition gets {A} (f : S → A) : M A := λ s, (f s, s, []).
Definition modify (f : S → S) : M unit := λ s, (tt, f s, []).
Definition emit (e : E) : M unit := λ s, (tt, s, [e]).
Definition skip : M unit := mret tt.
Definition when (b : bool) (m : M unit) : M unit := if b then m else skip.

(** [for x in l { body }] *)
Fixpoint for_each {A} (l : list A) (body : A → M unit) : M unit :=
  match l with
  | [] => skip
  | x :: l => body x ;; for_each l body
  end.

Definition res {A} (m : M A) (s : S) : A := (m s).1.1.
Definition final {A} (m : M A) (s : S) : S := (m s).1.2.
Definition outs {A} (m : M A) (s : S) : list E := (m s).2.

Lemma res_bind {A B} (m : M A) (k : A → M B) s :
  res (m ≫= k) s = res (k (res m s)) (final m s).
Proof.
  unfold res, final, mbind, M_bind. destruct (m s) as [[a s1] o1]. simpl.
  by destruct (k a s1) as [[b s2] o2].
Qed.

Lemma final_bind {A B} (m : M A) (k : A → M B) s :
  final (m ≫= k) s = final (k (res m s)) (final m s).
Proof.
  unfold res, final, mbind, M_bind. destruct (m s) as [[a s1] o1]. simpl.
  by destruct (k a s1) as [[b s2] o2].
Qed.

Lemma outs_bind {A B} (m : M A) (k : A → M B) s :
  outs (m ≫= k) s = outs m s ++ outs (k (res m s)) (final m s).
Proof.
  unfold outs, res, final, mbind, M_bind. destruct (m s) as [[a s1] o1]. simpl.
  by destruct (k a s1) as [[b s2] o2].
Qed.

(** ** Relations over a run of a method *)

Class Frame (R : S → S → list E → Prop) : Prop := {
  frame_refl s : R s s [];
  frame_trans s1 s2 s3 o1 o2 : R s1 s2 o1 → R s2 s3 o2 → R s1 s3 (o1 ++ o2)
}.

(** Preorders on states. *)
#[global] Instance frame_preorder (R : S → S → Prop) `{!Reflexive R} `{!Transitive R} :
  Frame (λ s s' _, R s s').
Proof. split; intros; [reflexivity | by etrans]. Qed.

(** State invariants, with a predicate on the effects. *)
#[global] Instance frame_invariant (I : S → Prop) (P : E → Prop) :
  Frame (λ s s' o, I s → I s' ∧ Forall P o).
Proof.
  split; [intros; split; [done | constructor]|].
  intros s1 s2 s3 o1 o2 H1 H2 Hs. destruct (H1 Hs) as [Hs2 Ho1].
  destruct (H2 Hs2) as [Hs3 Ho2]. split; [done | by apply Forall_app].
Qed.

#[global] Instance frame_and (R1 R2 : S → S → list E → Prop) `{!Frame R1} `{!Frame R2} :
  Frame (λ s s' o, R1 s s' o ∧ R2 s s' o).
Proof.
  split; [intros; split; apply frame_refl|].
  intros s1 s2 s3 o1 o2 [] []. split; by eapply frame_trans.
Qed.

Definition holds_at {A} (R : S → S → list E → Prop) (m : M A) (s : S) : Prop :=
  R s (final m s) (outs m s).

Section Holds.
Context (R : S → S → list E → Prop) `{!Frame R}.

Lemma holds_ret {A} (a : A) s : holds_at R (mret a) s.
Proof. apply frame_refl. Qed.
Lemma holds_skip s : holds_at R skip s.
Proof. apply frame_refl. Qed.
Lemma holds_get s : holds_at R get s.
Proof. apply frame_refl. Qed.
Lemma holds_gets {A} (f : S → A) s : holds_at R (gets f) s.
Proof. apply frame_refl. Qed.
Lemma holds_modify (f : S → S) s : R s (f s) [] → holds_at R (modify f) s.
Proof. done. Qed.
Lemma holds_emit (e : E) s : R s s [e] → holds_at R (emit e) s.
Proof. done. Qed.
Lemma holds_bind {A B} (m : M A) (k : A → M B) s :
  holds_at R m s → holds_at R (k (res m s)) (final m s) → holds_at R (m ≫= k) s.
Proof.
  intros Hm Hk. unfold holds_at. rewrite final_bind, outs_bind.
  eapply frame_trans; [apply Hm | apply Hk].
Qed.
(** Reading the state leaves it in place and produces nothing. *)
Lemma holds_get_bind {B} (k : S → M B) s : holds_at R (k s) s → holds_at R (get ≫= k) s.
Proof. intros Hk. by apply holds_bind; [apply holds_get|]. Qed.
Lemma holds_gets_bind {A B} (f : S → A) (k : A → M B) s :
  holds_at R (k (f s)) s → holds_at R (gets f ≫= k) s.
Proof. intros Hk. by apply holds_bind; [apply holds_gets|]. Qed.
Lemma holds_when (b : bool) (m : M unit) s :
  (b = true → holds_at R m s) → holds_at R (when b m) s.
Proof. intros H. destruct b; [by apply H|]. apply holds_skip. Qed.
Lemma holds_for_each {A} (l : list A) (body : A → M unit) s :
  (∀ x s, x ∈ l → holds_at R (body x) s) → holds_at R (for_each l body) s.
Proof.
  revert s. induction l as [|x l IH]; intros s H; [apply holds_skip|].
  apply holds_bind; [apply H, list_elem_of_here|].
  apply IH. intros y s' Hy. apply H. by apply list_elem_of_further.
Qed.
End Holds.
End Monad.

Arguments M : clear implicits.

Lemma when_true {S E} (m : M S E unit) : when true m = m.
Proof. done. Qed.
Lemma when_false {S E} (m : M S E unit) : when false m = skip.
Proof. done. Qed.

Lemma final_get_bind {S E B} (k : S → M S E B) s : final (get ≫= k) s = final (k s) s.
Proof. apply final_bind. Qed.
Lemma final_then_skip {S E A} (m : M S E A) s : final (m ;; skip) s = final m s.
Proof. by rewrite final_bind. Qed.
Lemma outs_then_skip {S E A} (m : M S E A) s : outs (m ;; skip) s = outs m s.
Proof. rewrite outs_bind. apply app_nil_r. Qed.
Lemma final_gets_bind {S E A B} (f : S → A) (k : A → M S E B) s :
  final (gets f ≫= k) s = final (k (f s)) s.
Proof. apply final_bind. Qed.
Lemma outs_get_bind {S E B} (k : S → M S E B) s : outs (get ≫= k) s = outs (k s) s.
Proof. by rewrite outs_bind. Qed.
Lemma outs_gets_bind {S E A B} (f : S → A) (k : A → M S E B) s :
  outs (gets f ≫= k) s = outs (k (f s)) s.
Proof. by rewrite outs_bind. Qed.

(** Running a method step by step. *)
Lemma bind_step {S E A B} (m : M S E A) (k : A → M S E B) s a s1 o1 b s2 o2 :
  m s = (a, s1, o1) → k a s1 = (b, s2, o2) → (m ≫= k) s = (b, s2, o1 ++ o2).
Proof. intros Hm Hk. unfold mbind, M_bind. by rewrite Hm, Hk. Qed.

Lemma run_eq {S E A} (m : M S E A) s : m s = (res m s, final m s, outs m s).
Proof. unfold res, final, outs. by destruct (m s) as [[??]?]. Qed.
Lemma final_run {S E A} (m : M S E A) s a s1 o : m s = (a, s1, o) → final m s = s1.
Proof. unfold final. by intros ->. Qed.
Lemma res_run {S E A} (m : M S E A) s a s1 o : m s = (a, s1, o) → res m s = a.
Proof. unfold res. by intros ->. Qed.
Lemma outs_run {S E A} (m : M S E A) s a s1 o : m s = (a, s1, o) → outs m s = o.
Proof. unfold outs. by intros ->. Qed.

(** One elementary step. *)
Ltac run1 := eapply bind_step; [reflexivity|cbv beta].

Create HintDb effects discriminated.
#[export] Hint Resolve holds_ret holds_skip holds_get holds_gets : effects.

(** Walks through the structure of a method whose runs are to satisfy a frame
    relation, leaving the goals about assignments, effects and the methods called
    (those a hint of the database [effects] does not solve). *)
Ltac walk_step :=
  match goal with
  | |- holds_at _ (mret _) _ => apply holds_ret; apply _
  | |- holds_at _ skip _ => apply holds_skip; apply _
  | |- holds_at _ (get ≫= _) _ => apply holds_get_bind; [apply _|]
  | |- holds_at _ (gets _ ≫= _) _ => apply holds_gets_bind; [apply _|]
  | |- holds_at _ (when _ _) _ => apply holds_when; [apply _|intro]
  | |- holds_at _ (for_each _ _) _ => apply holds_for_each; [apply _|intros]
  | |- holds_at _ (_ ≫= _) _ => apply holds_bind; [apply _|..]
  | |- holds_at _ (modify _) _ => apply holds_modify
  | |- holds_at _ (emit _) _ => apply holds_emit
  | |- holds_at _ (match ?x with _ => _ end) _ => destruct x eqn:?
  | |- holds_at _ _ _ => solve [auto with effects]
  end.
(** Evaluates the states left by the elementary steps. *)
Ltac finals :=
  repeat match goal with
  | |- context [final (modify ?f) ?s] => change (final (modify f) s) with (f s)
  | |- context [final (emit ?e) ?s] => change (final (emit e) s) with s
  | |- context [final skip ?s] => change (final skip s) with s
  | |- context [final get ?s] => change (final get s) with s
  | |- context [res get ?s] => change (res get s) with s
  end.
(** Evaluates the effects of the elementary steps. *)
Ltac effs :=
  repeat match goal with
  | |- context [outs (modify ?f) ?s] => change (outs (modify f) s) with (nil : list _)
  | |- context [outs (emit ?e) ?s] => change (outs (emit e) s) with [e]
  | |- context [outs skip ?s] => change (outs skip s) with (nil : list _)
  | |- context [outs get ?s] => change (outs get s) with (nil : list _)
  end; rewrite ?app_nil_l.
Ltac walk := repeat (finals; simpl; walk_step).
