(* ===== verification/Bytes.v ===== *)
(** * Bytes and strings

    What the components take from the standard library on byte vectors: the lexicographic
    order, [String::from_utf8_lossy], the conversions of integers to and from big-endian and
    little-endian bytes, hexadecimal digits; and the hex crate as a class with its laws.  A
    [Vec<u8>] and a [String] are both lists of bytes, a [String] being one that satisfies
    [valid_utf8]. *)

From stdpp Require Import pretty.
From S2P Require Import Prelude.

Definition str (s : string) : bytes := Ascii.N_of_ascii <$> String.list_ascii_of_string s.

(** [format!("{}", n)] for an unsigned [n] *)
Definition decimal (n : N) : bytes := str (pretty n).

(** [Ord for [u8]]: lexicographic *)
Fixpoint bytes_cmp (a b : bytes) : comparison :=
  match a, b with
  | [], [] => Eq
  | [], _ :: _ => Lt
  | _ :: _, [] => Gt
  | x :: a, y :: b => match x ?= y with Eq => bytes_cmp a b | c => c end
  end.
Definition bytes_ltb (a b : bytes) : bool := match bytes_cmp a b with Lt => true | _ => false end.
Definition bytes_leb (a b : bytes) : bool := match bytes_cmp a b with Gt => false | _ => true end.
Definition bytes_le (a b : bytes) : Prop := bytes_leb a b = true.
#[export] Instance bytes_le_dec a b : Decision (bytes_le a b).
Proof. unfold bytes_le. apply _. Defined.

(** [start <= k && k < end] *)
Definition in_range (lo hi k : bytes) : bool := bytes_leb lo k && bytes_ltb k hi.

(** *** UTF-8, as [core::str::lossy] decodes it *)

Definition is_cont (l : bytes) : bool :=
  match l with b :: _ => (128 <=? b) && (b <=? 191) | [] => false end.
(** The second byte of a three or four byte character. *)
Definition second_ok (b0 : N) (l : bytes) : bool :=
  match l with
  | [] => false
  | b1 :: _ =>
      if b0 =? 224 then (160 <=? b1) && (b1 <=? 191)
      else if b0 =? 237 then (128 <=? b1) && (b1 <=? 159)
      else if b0 =? 240 then (144 <=? b1) && (b1 <=? 191)
      else if b0 =? 244 then (128 <=? b1) && (b1 <=? 143)
      else (128 <=? b1) && (b1 <=? 191)
  end.

(** The bytes inspected after the first byte [b0], and whether they complete a
    character. *)
Definition utf8_step (b0 : N) (l : bytes) : nat * bool :=
  if b0 <? 128 then (0%nat, true)
  else if (194 <=? b0) && (b0 <=? 223) then
    if is_cont l then (1%nat, true) else (0%nat, false)
  else if (224 <=? b0) && (b0 <=? 239) then
    if second_ok b0 l then
      if is_cont (drop 1 l) then (2%nat, true) else (1%nat, false)
    else (0%nat, false)
  else if (240 <=? b0) && (b0 <=? 244) then
    if second_ok b0 l then
      if is_cont (drop 1 l) then
        if is_cont (drop 2 l) then (3%nat, true) else (2%nat, false)
      else (1%nat, false)
    else (0%nat, false)
  else (0%nat, false).

(** U+FFFD *)
Definition replacement : bytes := [239; 191; 189].

Fixpoint lossy (fuel : nat) (l : bytes) : bytes :=
  match fuel, l with
  | S fuel, b :: l =>
      let '(n, good) := utf8_step b l in
      (if good then b :: take n l else replacement) ++ lossy fuel (drop n l)
  | _, _ => []
  end.
(** [String::from_utf8_lossy]: every step consumes at least one byte. *)
Definition from_utf8_lossy (l : bytes) : bytes := lossy (length l) l.

Fixpoint utf8_chars (fuel : nat) (l : bytes) : bool :=
  match fuel, l with
  | S fuel, b :: l => let '(n, good) := utf8_step b l in good && utf8_chars fuel (drop n l)
  | _, l => match l with [] => true | _ => false end
  end.
Definition valid_utf8 (l : bytes) : bool := utf8_chars (length l) l.

(** ** White space *)

(** The bytes of the white space character at the front, 0 if there is none. *)
Definition white_space (l : bytes) : nat :=
  match l with
  | b :: _ =>
      if ((9 <=? b) && (b <=? 13)) || (b =? 32) then 1%nat
      else
        match l with
        | 194 :: c :: _ => if (c =? 133) || (c =? 160) then 2%nat else O
        | 225 :: 154 :: 128 :: _ => 3%nat
        | 226 :: 128 :: c :: _ =>
            if ((128 <=? c) && (c <=? 138)) || (c =? 168) || (c =? 169) || (c =? 175) then 3%nat else O
        | 226 :: 129 :: 159 :: _ => 3%nat
        | 227 :: 128 :: 128 :: _ => 3%nat
        | _ => O
        end
  | [] => O
  end.
(** [str::split_whitespace]: [word] is the word begun; [skip] counts the bytes of a white
    space character still to pass. *)
Fixpoint split_whitespace (word : bytes) (skip : nat) (l : bytes) : list bytes :=
  let close := match word with [] => [] | _ => [word] end in
  match l with
  | [] => close
  | b :: rest =>
      match skip with
      | S skip => split_whitespace word skip rest
      | O =>
          match white_space l with
          | O => split_whitespace (word ++ [b]) O rest
          | S n => close ++ split_whitespace [] n rest
          end
      end
  end.
(** [s.trim().is_empty()] *)
Definition is_blank (l : bytes) : bool := bool_decide (split_whitespace [] 0 l = []).

(** [format!("{:?}", s)] of a string *)
Class StrDebug : Type := debug_str (s : bytes) : bytes.

(** ** Integers as bytes *)

(** [u32::from_be_bytes], [u64::from_be_bytes] *)
Definition from_be (l : bytes) : N := foldl (λ acc b, acc * 256 + b) 0 l.
(** [to_be_bytes] of an integer of [n] bytes *)
Definition to_be (n : nat) (x : N) : bytes :=
  (λ i, N.shiftr x (8 * N.of_nat (n - 1 - i)) mod 256) <$> seq 0 n.
(** [from_le_bytes] and [to_le_bytes] *)
Definition from_le (l : bytes) : N := foldr (λ b acc, b + 256 * acc) 0 l.
Fixpoint to_le (n : nat) (x : N) : bytes :=
  match n with O => [] | S n => x mod 256 :: to_le n (x / 256) end.

(** ** Decimal numbers *)

(** [format!("{}", z)] for a signed [z] *)
Definition decimal_i64 (z : Z) : bytes :=
  if (z <? 0)%Z then 45 :: decimal (Z.to_N (- z)) else decimal (Z.to_N z).

Definition is_digit (b : N) : bool := (48 <=? b) && (b <=? 57).
Fixpoint parse_digits (acc : N) (l : bytes) : option N :=
  match l with
  | [] => Some acc
  | b :: l => if is_digit b then parse_digits (acc * 10 + (b - 48)) l else None
  end.
(** At least one digit, and a value that fits. *)
Definition parse_below (bound : N) (l : bytes) : option N :=
  match l with
  | [] => None
  | _ => n ← parse_digits 0 l; if n <=? bound then Some n else None
  end.
(** [str::parse::<u64>] and [str::parse::<i64>] *)
Definition parse_u64 (l : bytes) : option N :=
  match l with
  | b :: ds => if b =? 43 then parse_below u64_max ds else parse_below u64_max l
  | [] => None
  end.
Definition parse_i64 (l : bytes) : option Z :=
  match l with
  | b :: ds =>
      if b =? 43 then Z.of_N <$> parse_below 9223372036854775807 ds
      else if b =? 45 then (λ n, (- Z.of_N n)%Z) <$> parse_below 9223372036854775808 ds
      else Z.of_N <$> parse_below 9223372036854775807 l
  | [] => None
  end.

#[global] Arguments str : simpl never.
#[global] Arguments decimal_i64 : simpl never.
#[global] Arguments decimal : simpl never.
#[global] Arguments from_be : simpl never.
#[global] Arguments to_be : simpl never.
#[global] Arguments from_le : simpl never.
#[global] Arguments to_le : simpl never.

(** [format!("{:02x}", b)] *)
Definition hex_digit (n : N) : N := if n <? 10 then 48 + n else 87 + n.
Definition hex_byte (b : N) : bytes := [hex_digit (b / 16); hex_digit (b mod 16)].

(** A byte vector proper. *)
Definition is_bytes (l : bytes) : Prop := Forall (λ b, b < 256) l.
#[export] Instance is_bytes_dec l : Decision (is_bytes l).
Proof. unfold is_bytes. apply _. Defined.

(** ** The order of byte vectors is total *)

Lemma bytes_cmp_refl a : bytes_cmp a a = Eq.
Proof. induction a as [|x a IH]; simpl; [done|]. by rewrite N.compare_refl. Qed.
Lemma bytes_cmp_eq a b : bytes_cmp a b = Eq → a = b.
Proof.
  revert b. induction a as [|x a IH]; intros [|y b]; simpl; try done.
  destruct (N.compare_spec x y) as [->| |]; [|done..]. intros H. f_equal. by apply IH.
Qed.
Lemma bytes_cmp_antisym a b : bytes_cmp b a = CompOpp (bytes_cmp a b).
Proof.
  revert b. induction a as [|x a IH]; intros [|y b]; simpl; try done.
  rewrite (N.compare_antisym x y). destruct (x ?= y); [apply IH|done..].
Qed.
Lemma bytes_leb_cons x y a b :
  bytes_leb (x :: a) (y :: b) = (x <? y) || ((x =? y) && bytes_leb a b).
Proof.
  unfold bytes_leb. simpl.
  destruct (N.compare_spec x y), (N.ltb_spec x y), (N.eqb_spec x y); try lia; done.
Qed.

#[export] Instance bytes_le_trans : Transitive bytes_le.
Proof.
  intros a. unfold bytes_le. induction a as [|x a IH]; [by intros [] []|].
  intros [|y b] [|z c]; try done. rewrite !bytes_leb_cons.
  intros H1 H2. destruct (N.ltb_spec x y), (N.ltb_spec y z), (N.ltb_spec x z), (N.eqb_spec x y),
    (N.eqb_spec y z), (N.eqb_spec x z); simpl in *; try lia; try done. by eapply IH.
Qed.
#[export] Instance bytes_le_total : Total bytes_le.
Proof.
  intros a b. unfold bytes_le, bytes_leb. rewrite (bytes_cmp_antisym a b).
  destruct (bytes_cmp a b); auto.
Qed.
#[export] Instance bytes_le_antisym : AntiSymm (=) bytes_le.
Proof.
  intros a b. unfold bytes_le, bytes_leb. rewrite (bytes_cmp_antisym a b).
  destruct (bytes_cmp a b) eqn:H; try done. intros _ _. by apply bytes_cmp_eq.
Qed.

(** ** Lossy decoding leaves strings alone *)

Lemma lossy_valid fuel l : (length l ≤ fuel)%nat → utf8_chars fuel l = true → lossy fuel l = l.
Proof.
  revert l. induction fuel as [|fuel IH]; intros [|b l] Hf Hv; simpl in *; try done.
  destruct (utf8_step b l) as [n good] eqn:Hs. destruct good; [|done]. simpl in Hv.
  rewrite IH; [by rewrite <- app_comm_cons, take_drop| |done]. rewrite length_drop. lia.
Qed.

Lemma from_utf8_lossy_valid l : valid_utf8 l = true → from_utf8_lossy l = l.
Proof. intros H. by apply lossy_valid. Qed.

Lemma utf8_step_app b l t n : utf8_step b l = (n, true) → utf8_step b (l ++ t) = (n, true) ∧ (n ≤ length l)%nat.
Proof.
  destruct l as [|b1 [|b2 [|b3 l]]]; unfold utf8_step; simpl;
    repeat (case_match; try done); intros [= <-]; split; try done; lia.
Qed.
(** Fuel beyond what was enough changes nothing. *)
Lemma utf8_chars_mono n m l : utf8_chars n l = true → (n ≤ m)%nat → utf8_chars m l = true.
Proof.
  revert m l. induction n as [|n IH]; intros [|m] [|b l] Hv Hm; try done; try lia. simpl in *.
  destruct (utf8_step b l) as [k []]; [|done]. simpl in *. apply IH; [done|lia].
Qed.
Lemma utf8_chars_app n m l t :
  utf8_chars n l = true → utf8_chars m t = true → utf8_chars (n + m) (l ++ t) = true.
Proof.
  revert l. induction n as [|n IH]; intros [|b l] Hl Ht; try done.
  { eapply utf8_chars_mono; [done|]. lia. }
  simpl in *. destruct (utf8_step b l) as [k []] eqn:Hs; [|done]. simpl in Hl.
  destruct (utf8_step_app b l t k Hs) as [-> Hk]. simpl. rewrite drop_app_le by done. by apply IH.
Qed.
Lemma valid_utf8_app l t : valid_utf8 l = true → valid_utf8 t = true → valid_utf8 (l ++ t) = true.
Proof. intros Hl Ht. unfold valid_utf8. rewrite length_app. by apply utf8_chars_app. Qed.

(** ** Integers survive the conversion *)

Lemma length_to_be n x : length (to_be n x) = n.
Proof. unfold to_be. by rewrite length_fmap, length_seq. Qed.
Lemma length_to_le n x : length (to_le n x) = n.
Proof. revert x. induction n as [|n IH]; intros x; simpl; by rewrite ?IH. Qed.

Lemma vlen_to_be n x : vlen (to_be n x) = N.of_nat n.
Proof. unfold vlen. by rewrite length_to_be. Qed.
Lemma vlen_to_le n x : vlen (to_le n x) = N.of_nat n.
Proof. unfold vlen. by rewrite length_to_le. Qed.

Lemma to_be_S n x : to_be (S n) x = (N.shiftr x (8 * N.of_nat n) mod 256) :: to_be n x.
Proof.
  unfold to_be. cbn [seq]. rewrite fmap_cons. f_equal; [do 3 f_equal; lia|].
  rewrite <- fmap_S_seq, <- list_fmap_compose. apply list_fmap_ext. intros i k _. simpl.
  do 3 f_equal. lia.
Qed.

Lemma from_be_acc l a :
  foldl (λ acc b, acc * 256 + b) a l = a * 256 ^ vlen l + foldl (λ acc b, acc * 256 + b) 0 l.
Proof.
  revert a. induction l as [|c l IH]; intros a; [change (vlen []) with 0; simpl; lia|]. cbn [foldl].
  rewrite IH, (IH (0 * 256 + c)), vlen_cons, N.add_1_r, N.pow_succ_r'. lia.
Qed.
Lemma from_be_cons b l : from_be (b :: l) = b * 256 ^ vlen l + from_be l.
Proof. change (from_be (b :: l)) with (foldl (λ acc b, acc * 256 + b) (0 * 256 + b) l). by rewrite from_be_acc. Qed.

Lemma from_be_to_be_mod n x : from_be (to_be n x) = x mod 256 ^ N.of_nat n.
Proof.
  induction n as [|n IH]; [symmetry; apply N.mod_1_r|].
  rewrite to_be_S, from_be_cons, IH. unfold vlen. rewrite length_to_be, N.shiftr_div_pow2.
  rewrite N.pow_mul_r. change (2 ^ 8) with 256. set (m := 256 ^ N.of_nat n).
  assert (Hm : m ≠ 0) by (apply N.pow_nonzero; lia).
  rewrite Nat2N.inj_succ, N.pow_succ_r'. fold m.
  rewrite (N.mul_comm 256 m), N.Div0.mod_mul_r. lia.
Qed.
Lemma from_be_to_be n x : x < 256 ^ N.of_nat n → from_be (to_be n x) = x.
Proof. intros H. rewrite from_be_to_be_mod. by apply N.mod_small. Qed.

Lemma from_le_to_le n x : x < 256 ^ N.of_nat n → from_le (to_le n x) = x.
Proof.
  revert x. induction n as [|n IH]; intros x Hx; [unfold from_le; simpl in *; lia|].
  change (from_le (to_le (S n) x)) with (x mod 256 + 256 * from_le (to_le n (x / 256))). rewrite IH.
  - pose proof (N.div_mod x 256). lia.
  - rewrite Nat2N.inj_succ, N.pow_succ_r' in Hx. apply N.Div0.div_lt_upper_bound. lia.
Qed.

Lemma is_bytes_to_be n x : is_bytes (to_be n x).
Proof.
  apply Forall_forall. intros b. unfold to_be. rewrite list_elem_of_fmap.
  intros (i & -> & _). by apply N.mod_lt.
Qed.
Lemma is_bytes_to_le n x : is_bytes (to_le n x).
Proof. revert x. induction n as [|n IH]; intros x; constructor; [by apply N.mod_lt|apply IH]. Qed.
Lemma from_le_bound l : is_bytes l → from_le l < 256 ^ vlen l.
Proof.
  induction 1 as [|b l Hb _ IH]; [done|]. rewrite vlen_cons, N.add_1_r, N.pow_succ_r'.
  change (from_le (b :: l)) with (b + 256 * from_le l). lia.
Qed.
Lemma from_be_bound l : is_bytes l → from_be l < 256 ^ vlen l.
Proof.
  induction 1 as [|b l Hb _ IH]; [done|]. rewrite from_be_cons, vlen_cons, N.add_1_r, N.pow_succ_r'.
  nia.
Qed.

(** ** Printed numbers are read back *)

Lemma str_cons a s : str (String a s) = Ascii.N_of_ascii a :: str s.
Proof. done. Qed.

Lemma pretty_char_digit d : d < 10 → Ascii.N_of_ascii (pretty_N_char d) = 48 + d.
Proof.
  intros Hd. assert (d = 0 ∨ d = 1 ∨ d = 2 ∨ d = 3 ∨ d = 4 ∨ d = 5 ∨ d = 6 ∨ d = 7 ∨ d = 8 ∨ d = 9) by lia.
  by destruct_or!; subst d.
Qed.

Lemma is_digit_add d : d < 10 → is_digit (48 + d) = true.
Proof. intros Hd. unfold is_digit. rewrite andb_true_iff, !N.leb_le. lia. Qed.

Lemma pretty_go_digits x s :
  ∃ ds, str (pretty_N_go x s) = ds ++ str s ∧ Forall (λ b, is_digit b = true) ds ∧
    (0 < x → ds ≠ []) ∧ ∀ acc, parse_digits acc ds = Some (acc * 10 ^ vlen ds + x).
Proof.
  revert s. induction (N.lt_wf_0 x) as [x _ IH]. intros s. destruct (decide (x = 0)) as [->|Hx].
  { exists []. split_and!; [done|constructor|lia|]. intros acc. simpl. change (vlen []) with 0. f_equal. lia. }
  rewrite pretty_N_go_step by lia.
  destruct (IH (x / 10) ltac:(apply N.div_lt; lia) (String (pretty_N_char (x mod 10)) s)) as (ds & Hs & Hd & _ & Hp).
  assert (Hm : x mod 10 < 10) by (apply N.mod_lt; lia).
  pose proof (N.div_mod x 10 ltac:(lia)) as Hx'. rewrite Hs, str_cons, pretty_char_digit by done. clear IH Hs.
  revert Hx' Hm Hp. generalize (x / 10) as q, (x mod 10) as m. intros q m Hx' Hm Hp.
  exists (ds ++ [48 + m]). rewrite <- app_assoc. pose proof (is_digit_add m Hm) as Hdig.
  split_and!; [done| |by intros _ [? ?]%app_eq_nil|].
  - apply Forall_app. split; [done|]. by constructor.
  - intros acc. assert (Happ : ∀ l a, parse_digits a (l ++ [48 + m]) = (λ n, n * 10 + m) <$> parse_digits a l).
    { induction l as [|b l IHl]; intros a; simpl; [rewrite Hdig; simpl; f_equal; lia|]. by destruct (is_digit b). }
    rewrite Happ, Hp. simpl. f_equal. rewrite vlen_app. change (vlen [48 + m]) with 1.
    rewrite N.add_1_r, N.pow_succ_r'. lia.
Qed.

Lemma decimal_digits n : Forall (λ b, is_digit b = true) (decimal n) ∧ decimal n ≠ [] ∧ parse_digits 0 (decimal n) = Some n.
Proof.
  unfold decimal, pretty, pretty_N. destruct (decide (n = 0)) as [->|Hn]; [vm_compute; split_and!; by repeat constructor|].
  destruct (pretty_go_digits n "") as (ds & -> & Hd & Hne & Hp). change (str "") with (@nil N).
  rewrite app_nil_r. split_and!; [done|apply Hne; lia|]. by rewrite Hp.
Qed.

Lemma parse_digits_digits l acc n : parse_digits acc l = Some n → Forall (λ b, is_digit b = true) l.
Proof.
  revert acc. induction l as [|b l IH]; intros acc; [constructor|]. simpl.
  destruct (is_digit b) eqn:Hb; [|done]. intros Hp. constructor; [done|]. by eapply IH.
Qed.
Lemma digits_ascii l : Forall (λ b, is_digit b = true) l → Forall (λ b, 32 ≤ b < 127) l.
Proof.
  intros Hl. eapply Forall_impl; [done|]. intros c Hc. unfold is_digit in Hc.
  apply andb_true_iff in Hc as [?%N.leb_le ?%N.leb_le]. lia.
Qed.
Lemma parse_below_decimal bound n : n ≤ bound → parse_below bound (decimal n) = Some n.
Proof.
  intros Hn. destruct (decimal_digits n) as (_ & Hne & Hp). unfold parse_below.
  destruct (decimal n); [done|]. rewrite Hp. simpl. by case_N1.
Qed.

Lemma decimal_head n : ∃ b l, decimal n = b :: l ∧ b ≠ 43 ∧ b ≠ 45.
Proof.
  destruct (decimal_digits n) as (Hd & Hne & _). destruct (decimal n) as [|b l]; [done|].
  exists b, l. apply Forall_cons in Hd as [Hb _]. unfold is_digit in Hb.
  split_and!; [done|..]; intros ->; vm_compute in Hb; done.
Qed.

Lemma parse_u64_decimal n : n < u64_modulus → parse_u64 (decimal n) = Some n.
Proof.
  intros Hn. destruct (decimal_head n) as (b & l & Hl & H1 & _). unfold parse_u64.
  rewrite Hl. destruct (N.eqb_spec b 43); [done|]. rewrite <- Hl. apply parse_below_decimal.
  unfold u64_max, u64_modulus in *. lia.
Qed.

Lemma parse_i64_decimal z : (- 9223372036854775808 ≤ z < 9223372036854775808)%Z → parse_i64 (decimal_i64 z) = Some z.
Proof.
  intros Hz. unfold decimal_i64, parse_i64. destruct (Z.ltb_spec z 0).
  - simpl. rewrite parse_below_decimal by lia. simpl. f_equal. lia.
  - destruct (decimal_head (Z.to_N z)) as (b & l & Hl & H1 & H2). rewrite Hl.
    destruct (N.eqb_spec b 43); [done|]. destruct (N.eqb_spec b 45); [done|]. rewrite <- Hl, parse_below_decimal by lia.
    simpl. f_equal. lia.
Qed.

(** ** The hex crate

    [hex::encode] and [hex::decode], which several components call, as a class with what they
    rely on: what is encoded is decoded again, and any text of pairs of hexadecimal digits is
    decoded to bytes whose text is the same in lower case.  [PlainHex] is an instance, for
    evaluation. *)

(** [char::is_ascii_hexdigit] and [char::to_ascii_lowercase] *)
Definition is_hexdigit (b : N) : bool := is_digit b || ((97 <=? b) && (b <=? 102)) || ((65 <=? b) && (b <=? 70)).
Definition ascii_lower (b : N) : N := if (65 <=? b) && (b <=? 90) then b + 32 else b.

Class Hex : Type := { hex_encode : bytes → bytes; hex_decode : bytes → option bytes }.
Class HexLaws `{!Hex} : Prop := {
  hex_roundtrip l : is_bytes l → hex_decode (hex_encode l) = Some l;
  hex_decode_digits s n : Forall (λ b, is_hexdigit b = true) s → length s = (n + n)%nat →
    ∃ l, hex_decode s = Some l ∧ is_bytes l ∧ length l = n ∧ hex_encode l = ascii_lower <$> s }.

Module PlainHex.
Definition unhex_digit (c : N) : option N :=
  if (48 <=? c) && (c <=? 57) then Some (c - 48)
  else if (97 <=? c) && (c <=? 102) then Some (c - 87)
  else if (65 <=? c) && (c <=? 70) then Some (c - 55) else None.
Fixpoint unhex (l : bytes) : option bytes :=
  match l with
  | [] => Some []
  | a :: b :: l => x ← unhex_digit a; y ← unhex_digit b; r ← unhex l; Some (16 * x + y :: r)
  | _ => None
  end.
#[export] Instance PlainHex : Hex := {| hex_encode := λ l, mjoin (hex_byte <$> l); hex_decode := unhex |}.
Lemma unhex_digit_hex d : d < 16 → unhex_digit (hex_digit d) = Some d.
Proof. intros Hd. unfold unhex_digit, hex_digit. case_N; cbn [andb]; f_equal; try lia; done. Qed.
Lemma unhex_digit_lower c : is_hexdigit c = true → ∃ d, unhex_digit c = Some d ∧ d < 16 ∧ hex_digit d = ascii_lower c.
Proof.
  unfold is_hexdigit, is_digit, unhex_digit, ascii_lower. intros Hc. case_N; cbn [andb orb] in *; try done; eexists; (split; [reflexivity|]);
    unfold hex_digit; case_N; lia.
Qed.
Lemma mjoin_hex b l : mjoin (hex_byte <$> b :: l) = hex_digit (b / 16) :: hex_digit (b mod 16) :: mjoin (hex_byte <$> l).
Proof. done. Qed.
#[export] Instance PlainHex_laws : HexLaws.
Proof.
  split; cbn [hex_encode hex_decode PlainHex].
  - intros l Hl. induction Hl as [|b l Hb _ IH]; [done|]. rewrite mjoin_hex.
    cbn [unhex]. rewrite !unhex_digit_hex by (apply N.mod_lt || apply N.Div0.div_lt_upper_bound; lia).
    rewrite IH. cbn [mbind option_bind]. do 2 f_equal. pose proof (N.div_mod' b 16). lia.
  - intros s n Hs. revert s Hs. induction n as [|n IH]; intros [|a [|b s]] Hs Hlen; cbn in Hlen; try lia; [exists []; split_and!; [done|constructor|done|done]|].
    apply Forall_cons in Hs as [Ha [Hb Hs]%Forall_cons]. destruct (IH s Hs) as (l & Hl & Hbl & Hn & He); [lia|].
    destruct (unhex_digit_lower a Ha) as (x & Hx & Hx16 & Hxl), (unhex_digit_lower b Hb) as (y & Hy & Hy16 & Hyl).
    exists (16 * x + y :: l). cbn [unhex]. rewrite Hx, Hy, Hl. cbn [mbind option_bind]. split_and!; [done| |cbn; lia|].
    + constructor; [lia|done].
    + rewrite mjoin_hex, He, !fmap_cons, <- Hxl, <- Hyl. assert (Hd : (16 * x + y) / 16 = x ∧ (16 * x + y) mod 16 = y).
      { split; symmetry; [apply (N.div_unique _ _ _ y)|apply (N.mod_unique _ _ x)]; lia. }
      by destruct Hd as [-> ->].
Qed.
End PlainHex.
