(* ===== verification/Consensus.v ===== *)
(** * The consensus contract of cave-kernel

    [crates/core/cave-kernel/src/consensus.rs]: the data types and the traits
    through which the crates of the workspace talk to a replicated log.  The
    traits [LogStore] and [StateMachine] are type classes; cave-ha supplies the
    instances ([RaftBridge.v] for the log store, [RaftStateMachine.v] for the state machines). *)

From stdpp Require Import pretty.
From S2P Require Import Prelude.

Module Kernel.

Inductive Role : Set := Follower | Candidate | Leader.
#[export] Instance Role_eq_dec : EqDecision Role.
Proof. solve_decision. Defined.

Record LogEntry : Type := mkLogEntry {
  index : u64;
  term : u64;
  data : bytes
}.
#[export] Instance LogEntry_eq_dec : EqDecision LogEntry.
Proof. solve_decision. Defined.

Record LeaderInfo : Type := mkLeaderInfo {
  leader : option string;
  li_term : u64;
  role : Role
}.

(** A formatted message: the template and its numeric arguments. *)
Definition message : Type := string * list N.

Inductive ConsensusError : Type :=
| NotLeader (leader : option string)
| LogNotFound (index : u64)
| Transport (m : message)
| Storage (m : message)
| Aborted (m : message).

Definition ConsensusResult (A : Type) : Type := result ConsensusError A.

(** The trait [LogStore], on an explicit store state. *)
Class LogStore (L : Type) : Type := {
  ls_append : list LogEntry → L → ConsensusResult unit * L;
  ls_get : u64 → L → ConsensusResult (option LogEntry);
  ls_last_index : L → ConsensusResult u64;
  ls_truncate_after : u64 → L → ConsensusResult unit * L
}.

(** The trait [StateMachine], on an explicit machine state. *)
Class StateMachine (SM : Type) : Type := {
  sm_apply : LogEntry → SM → ConsensusResult bytes * SM;
  sm_snapshot : SM → ConsensusResult bytes;
  sm_restore : bytes → SM → ConsensusResult unit * SM
}.

End Kernel.

(** What a log store promises its clients: [ls_wf] is the implementation's
    invariant, [ls_view] the entry stored at an index, [ls_last] the last index. *)
Class LogStoreLaws (L : Type) `{!Kernel.LogStore L} : Type := {
  ls_wf : L → Prop;
  ls_view : L → N → option Kernel.LogEntry;
  ls_last : L → N;
  ls_get_view l i : ls_wf l → i < u64_modulus → Kernel.ls_get i l = Ok (ls_view l i);
  ls_last_index_last l : ls_wf l → Kernel.ls_last_index l = Ok (ls_last l);
  ls_view_above l i : ls_wf l → ls_last l < i → ls_view l i = None;
  ls_append_next l e : ls_wf l → Kernel.index e = ls_last l + 1 → ls_last l + 1 < u64_max →
    (Kernel.ls_append [e] l).1 = Ok tt ∧ ls_wf (Kernel.ls_append [e] l).2 ∧
    ls_last (Kernel.ls_append [e] l).2 = ls_last l + 1 ∧
    (∀ i, ls_view (Kernel.ls_append [e] l).2 i =
          if decide (i = ls_last l + 1) then Some e else ls_view l i);
  ls_truncate l k : ls_wf l → k < u64_max →
    (Kernel.ls_truncate_after k l).1 = Ok tt ∧ ls_wf (Kernel.ls_truncate_after k l).2 ∧
    (∀ i, ls_view (Kernel.ls_truncate_after k l).2 i =
          if decide (i ≤ k) then ls_view l i else None)
}.

(** ** A client of the trait

    Staging entries one by one, as the users of [LogStore] do. *)
Section Client.
Context {L : Type} `{LS : !Kernel.LogStore L} `{Laws : !LogStoreLaws L}.

Definition stage (es : list Kernel.LogEntry) (l : L) : L :=
  foldl (λ l e, (Kernel.ls_append [e] l).2) l es.

Definition numbered (k : N) (es : list Kernel.LogEntry) : Prop :=
  ∀ n e, es !! n = Some e → Kernel.index e = k + N.of_nat n.

Lemma numbered_cons k e es : numbered k (e :: es) → Kernel.index e = k ∧ numbered (k + 1) es.
Proof.
  intros H. split; [specialize (H 0%nat e eq_refl); lia|].
  intros n x Hx. specialize (H (S n) x Hx). lia.
Qed.

Lemma stage_view l es : ls_wf l → numbered (ls_last l + 1) es → ls_last l + vlen es < u64_max →
  ls_wf (stage es l) ∧
  ∀ i, ls_view (stage es l) i =
       if i <=? ls_last l then ls_view l i else es !! N.to_nat (i - ls_last l - 1).
Proof.
  unfold stage. revert l. induction es as [|e es IH]; intros l Hwf Hn Hmax.
  - split; [done|]. intros i. simpl. rewrite lookup_nil.
    destruct (N.leb_spec i (ls_last l)); [done|]. by apply ls_view_above.
  - apply numbered_cons in Hn as [He Hn]. rewrite vlen_cons in Hmax.
    destruct (ls_append_next l e) as (_ & Hwf1 & Hlast & Hview); [done..|lia|].
    simpl. destruct (IH (Kernel.ls_append [e] l).2) as [Hwf' Hv'].
    { done. } { by rewrite Hlast. } { rewrite Hlast. lia. }
    split; [done|]. intros i. rewrite Hv', Hlast, Hview.
    destruct (N.leb_spec i (ls_last l + 1)), (N.leb_spec i (ls_last l)); try lia.
    + case_decide; [lia|done].
    + case_decide; [|lia]. subst i. by replace (N.to_nat _) with 0%nat by lia.
    + replace (N.to_nat (i - ls_last l - 1)) with (S (N.to_nat (i - (ls_last l + 1) - 1))) by lia. done.
Qed.

(** Staged entries read back by index, and truncating to the old end undoes it. *)
Lemma stage_get_rollback l es : ls_wf l → numbered (ls_last l + 1) es → ls_last l + vlen es < u64_max →
  (∀ n e, es !! n = Some e → Kernel.ls_get (Kernel.index e) (stage es l) = Ok (Some e)) ∧
  (∀ i, i < u64_modulus →
     Kernel.ls_get i (Kernel.ls_truncate_after (ls_last l) (stage es l)).2 = Kernel.ls_get i l).
Proof.
  intros Hwf Hn Hmax. destruct (stage_view l es Hwf Hn Hmax) as [Hwf' Hv]. split.
  - intros n e He. pose proof (lookup_lt_Some _ _ _ He). rewrite (Hn n e He). unfold vlen in Hmax.
    rewrite ls_get_view, Hv by (done || unfold u64_max, u64_modulus in *; lia).
    destruct (N.leb_spec (ls_last l + 1 + N.of_nat n) (ls_last l)); [lia|].
    replace (N.to_nat _) with n by lia. by rewrite He.
  - intros i Hi. destruct (ls_truncate (stage es l) (ls_last l)) as (_ & Hwft & Ht); [done|lia|].
    rewrite !ls_get_view, Ht, Hv by done. f_equal.
    destruct (N.leb_spec i (ls_last l)); case_decide; try lia; [done|].
    symmetry. by apply ls_view_above.
Qed.
End Client.
