(* ===== verification/BTree.v ===== *)
(** * Ordered maps

    A [BTreeMap] whose order of iteration the code relies on (the queues of waiters of
    cave-etcd) is the list of its entries in increasing order of their keys.  The file holds
    the operations the code uses and their laws, for any strict total order on the keys, with
    the orders on [u64] and on pairs of [u64], and the sequences of calls the components are
    subjected to. *)

From S2P Require Import Prelude.

(** The order of the keys, decided by [key_lt]. *)
Class KeyOrder (K : Type) := {
  key_lt : K → K → bool;
  key_lt_irrefl k : key_lt k k = false;
  key_lt_trans a b c : key_lt a b = true → key_lt b c = true → key_lt a c = true;
  key_lt_total a b : key_lt a b = true ∨ a = b ∨ key_lt b a = true
}.

#[export] Program Instance u64_order : KeyOrder u64 := {| key_lt := N.ltb |}.
Next Obligation. apply N.ltb_irrefl. Qed.
Next Obligation. intros a b c. rewrite !N.ltb_lt. lia. Qed.
Next Obligation. intros a b. rewrite !N.ltb_lt. lia. Qed.

#[export] Program Instance pair_order : KeyOrder (u64 * u64) :=
  {| key_lt a b := (a.1 <? b.1) || ((a.1 =? b.1) && (a.2 <? b.2)) |}.
Next Obligation. intros [x y]. simpl. rewrite !N.ltb_irrefl. by rewrite andb_false_r. Qed.
Next Obligation. intros [x y] [x' y'] [x'' y'']. simpl. rewrite !orb_true_iff, !andb_true_iff, !N.ltb_lt, !N.eqb_eq. lia. Qed.
Next Obligation.
  intros [x y] [x' y']. simpl. rewrite !orb_true_iff, !andb_true_iff, !N.ltb_lt, !N.eqb_eq.
  destruct (decide (x = x')) as [->|]; [|lia]. destruct (decide (y = y')) as [->|]; [tauto|lia].
Qed.

Module BTreeMap.
Section Ops.
Context {K V : Type} `{!KeyOrder K} `{!EqDecision K}.

Fixpoint insert (k : K) (v : V) (m : list (K * V)) : list (K * V) :=
  match m with
  | [] => [(k, v)]
  | (k', v') :: m' =>
      if key_lt k k' then (k, v) :: m
      else if decide (k = k') then (k, v) :: m'
      else (k', v') :: insert k v m'
  end.
Definition remove (k : K) (m : list (K * V)) : list (K * V) := filter (λ e, e.1 ≠ k) m.
Fixpoint get (k : K) (m : list (K * V)) : option V :=
  match m with
  | [] => None
  | (k', v) :: m => if decide (k = k') then Some v else get k m
  end.
(** [iter().next()] *)
Definition first (m : list (K * V)) : option (K * V) := head m.
(** [iter().find(p)] *)
Definition find (p : V → bool) (m : list (K * V)) : option (K * V) := head (filter (λ e, p e.2 = true) m).
(** Collect the keys of the entries [p] selects, then remove them one by one. *)
Definition remove_where (p : V → bool) (m : list (K * V)) : list (K * V) :=
  foldl (λ m k, remove k m) m (fst <$> filter (λ e, p e.2 = true) m).
End Ops.
End BTreeMap.

Section Laws.
Context {K V : Type} `{!KeyOrder K} `{!EqDecision K}.
Implicit Types (m : list (K * V)).

(** The entries are in strictly increasing order. *)
Definition ordered (m : list (K * V)) : Prop := StronglySorted (λ a b, key_lt a.1 b.1 = true) m.
Definition below (m : list (K * V)) (k : K) : Prop := Forall (λ e, key_lt e.1 k = true) m.

Lemma key_lt_ne (a b : K) : key_lt a b = true → a ≠ b.
Proof. intros H ->. by rewrite key_lt_irrefl in H. Qed.
Lemma key_lt_asym (a b : K) : key_lt a b = true → key_lt b a = false.
Proof.
  intros H. destruct (key_lt b a) eqn:E; [|done]. pose proof (key_lt_trans _ _ _ H E) as Hc.
  by rewrite key_lt_irrefl in Hc.
Qed.

Lemma insert_above k v m : below m k → BTreeMap.insert k v m = m ++ [(k, v)].
Proof.
  induction 1 as [|[k' v'] m Hk _ IH]; [done|]. simpl in *. rewrite (key_lt_asym _ _ Hk), decide_False, IH; [done|].
  intros ->. by apply key_lt_ne in Hk.
Qed.

Lemma elem_of_insert k v m e : e ∈ BTreeMap.insert k v m → e = (k, v) ∨ e ∈ m.
Proof.
  induction m as [|[k' v'] m IH]; simpl; [set_solver|]. destruct (key_lt k k'); [set_solver|].
  case_decide; set_solver.
Qed.

Lemma ordered_insert k v m : ordered m → ordered (BTreeMap.insert k v m).
Proof.
  unfold ordered. induction 1 as [|[k' v'] m Hs IH Hf]; simpl; [by repeat constructor|].
  destruct (key_lt k k') eqn:Hk.
  - constructor; [by constructor|]. constructor; [done|]. eapply Forall_impl; [exact Hf|]. simpl. intros e He. by eapply key_lt_trans.
  - case_decide as Hd; [subst k'; by constructor|]. constructor; [done|]. apply Forall_forall. intros e He.
    apply elem_of_insert in He as [->|He]; [|by eapply Forall_forall in Hf]. simpl. destruct (key_lt_total k' k) as [?|[?|?]]; congruence.
Qed.
Lemma Forall_filter (Q : K * V → Prop) (P : K * V → Prop) `{∀ e, Decision (P e)} m : Forall Q m → Forall Q (filter P m).
Proof. rewrite !Forall_forall. intros HQ e [_ He]%list_elem_of_filter. by apply HQ. Qed.
Lemma ordered_filter (P : K * V → Prop) `{∀ e, Decision (P e)} m : ordered m → ordered (filter P m).
Proof.
  unfold ordered. induction 1 as [|e m Hs IH Hf]; [constructor|]. rewrite filter_cons. case_decide; [|done].
  constructor; [done|]. by apply Forall_filter.
Qed.
Lemma ordered_remove k m : ordered m → ordered (BTreeMap.remove k m).
Proof. apply ordered_filter. Qed.
Lemma below_filter (P : K * V → Prop) `{∀ e, Decision (P e)} m k : below m k → below (filter P m) k.
Proof. apply Forall_filter. Qed.
Lemma below_snoc m k v k' : below m k → key_lt k k' = true → below (m ++ [(k, v)]) k'.
Proof.
  intros Hb Hk. apply Forall_app. split; [|by constructor]. eapply Forall_impl; [exact Hb|]. simpl. intros e He. by eapply key_lt_trans.
Qed.
Lemma below_weaken m k k' : below m k → key_lt k k' = true → below m k'.
Proof. intros Hb Hk. eapply Forall_impl; [exact Hb|]. simpl. intros e He. by eapply key_lt_trans. Qed.

(** Keys are unique: removing a key removes one entry. *)
Lemma remove_mid k v m1 m2 : ordered (m1 ++ (k, v) :: m2) → BTreeMap.remove k (m1 ++ (k, v) :: m2) = m1 ++ m2.
Proof.
  intros Ho. unfold BTreeMap.remove. rewrite filter_app, filter_cons_False by (simpl; tauto). f_equal; apply filter_all.
  - apply Forall_forall. intros e He Hk. eapply (StronglySorted_app_1_elem_of _ _ _ _ (k, v)) in Ho; [|exact He|left].
    by apply key_lt_ne in Ho.
  - apply StronglySorted_app_1_r in Ho. inversion Ho as [|? ? _ Hf]; subst. eapply Forall_impl; [exact Hf|].
    simpl. intros e He Hk. apply key_lt_ne in He. congruence.
Qed.
Lemma remove_first k v m : ordered ((k, v) :: m) → BTreeMap.remove k ((k, v) :: m) = m.
Proof. apply (remove_mid k v []). Qed.

(** Entries of equal keys are equal. *)
Lemma ordered_unique m k v v' : ordered m → (k, v) ∈ m → (k, v') ∈ m → v = v'.
Proof.
  unfold ordered. induction 1 as [|e m Hs IH Hf]; [set_solver|]. rewrite Forall_forall in Hf.
  rewrite !elem_of_cons. intros [<-|H1] [E|H2]; [congruence| | |by apply IH].
  - apply Hf, key_lt_ne in H2. done.
  - subst e. apply Hf, key_lt_ne in H1. done.
Qed.
Lemma get_Some m k v : ordered m → BTreeMap.get k m = Some v ↔ (k, v) ∈ m.
Proof.
  intros Ho. split.
  - clear Ho. induction m as [|[k' v'] m IH]; simpl; [done|]. case_decide; [subst; intros [= ->]; left|]. intros H'. right. by apply IH.
  - intros Hin. destruct (BTreeMap.get k m) as [v'|] eqn:E.
    + f_equal. apply (ordered_unique m k); [done| |done]. clear Ho Hin. revert E. induction m as [|[k' v''] m IH]; simpl; [done|].
      case_decide; [subst; intros [= ->]; left|]. intros H'. right. by apply IH.
    + clear Ho. exfalso. revert E. induction m as [|[k' v''] m IH]; simpl; [by apply elem_of_nil in Hin|].
      case_decide; [done|]. apply IH. apply elem_of_cons in Hin as [[= -> ->]|?]; [done|done].
Qed.

(** The entry [find] returns is the first of its kind. *)
Lemma find_split p m k v : BTreeMap.find p m = Some (k, v) →
  ∃ m1 m2, m = m1 ++ (k, v) :: m2 ∧ Forall (λ e, p e.2 = false) m1 ∧ p v = true.
Proof.
  unfold BTreeMap.find. induction m as [|[k' v'] m IH]; [done|]. destruct (p v') eqn:Hp.
  - rewrite filter_cons_True by done. intros [= -> ->]. by exists [], m.
  - rewrite filter_cons_False by (simpl; congruence). intros (m1 & m2 & -> & Hf & Hv)%IH. exists ((k', v') :: m1), m2. by repeat constructor.
Qed.
Lemma find_none p m : BTreeMap.find p m = None ↔ Forall (λ e, p e.2 = false) m.
Proof.
  unfold BTreeMap.find. induction m as [|[k' v'] m IH]; [done|]. rewrite Forall_cons. destruct (p v') eqn:Hp.
  - rewrite filter_cons_True by done. simpl. intuition congruence.
  - rewrite filter_cons_False by (simpl; congruence). rewrite IH. intuition.
Qed.

Lemma remove_list ks m : foldl (λ m k, BTreeMap.remove k m) m ks = filter (λ e, e.1 ∉ ks) m.
Proof.
  revert m. induction ks as [|k ks IH]; intros m; simpl; [symmetry; apply filter_all, Forall_true; set_solver|].
  rewrite IH. unfold BTreeMap.remove. rewrite list_filter_filter. apply list_filter_iff. set_solver.
Qed.
Lemma remove_where_filter p m : ordered m → BTreeMap.remove_where p m = filter (λ e, p e.2 = false) m.
Proof.
  intros Ho. unfold BTreeMap.remove_where. rewrite remove_list. apply list_filter_iff_in. intros [k v] He. simpl.
  rewrite list_elem_of_fmap. split.
  - intros Hn. destruct (p v) eqn:Hp; [|done]. destruct Hn. exists (k, v). split; [done|]. by apply list_elem_of_filter.
  - intros Hp ([k' v'] & Hk & [Hp' He']%list_elem_of_filter). simpl in *. subst k'.
    rewrite (ordered_unique m k v v') in Hp by done. congruence.
Qed.
End Laws.

(** ** Sequences of calls *)

(** Calls made one after the other: their answers and the final state. *)
Fixpoint run_calls {S C A : Type} (step : S → C → A * S) (s : S) (cs : list C) : list A * S :=
  match cs with
  | [] => ([], s)
  | c :: cs => let '(a, s) := step s c in let '(l, s) := run_calls step s cs in (a :: l, s)
  end.

(** A simulation of every step is one of every sequence. *)
Lemma run_calls_refines {S T C A} (step : S → C → A * S) (spec : T → C → A * T) (R : nat → S → T → Prop) cs n s t :
  (∀ n s t c, R (Datatypes.S n) s t → (step s c).1 = (spec t c).1 ∧ R n (step s c).2 (spec t c).2) →
  R (length cs + n)%nat s t →
  (run_calls step s cs).1 = (run_calls spec t cs).1 ∧ R n (run_calls step s cs).2 (run_calls spec t cs).2.
Proof.
  intros Hstep. revert s t. induction cs as [|c cs IH]; intros s t HR; [done|]. simpl in *.
  destruct (Hstep _ _ _ c HR) as [Ha HR']. destruct (step s c) as [a s'], (spec t c) as [a' t']. simpl in *.
  destruct (IH _ _ HR') as [Hl HR'']. destruct (run_calls step s' cs), (run_calls spec t' cs). simpl in *. by subst.
Qed.
Lemma run_calls_inv {S C A} (step : S → C → A * S) (I : nat → S → Prop) cs n s :
  (∀ n s c, I (Datatypes.S n) s → I n (step s c).2) → I (length cs + n)%nat s → I n (run_calls step s cs).2.
Proof.
  intros Hstep. revert s. induction cs as [|c cs IH]; intros s HI; [done|]. simpl in *. apply (Hstep _ _ c) in HI.
  destruct (step s c) as [a s']. simpl in HI. specialize (IH _ HI). by destruct (run_calls step s' cs).
Qed.
