(* ===== verification/Files.v ===== *)
(** * Files and logs of records

    A file as the durable components see it: its bytes and the position of the handle, with
    the operations of [std::fs::File] and [tokio::fs::File] they use.  A write beyond the
    end fills the gap with zeros.  Input and output errors are not modelled; a crash is the
    loss of everything behind some byte.

    The second part is shared by the write-ahead logs of cave-ha and cave-etcd: a log is a
    sequence of self-delimiting records, and a scan of a log cut at any byte finds exactly
    the records that are complete ([scan_cut]). *)

From S2P Require Import Prelude Bytes.

Record File : Type := mkFile { content : bytes; cursor : N }.
Definition fsize (f : File) : N := vlen (content f).

Definition seek_start (f : File) : File := mkFile (content f) 0.
Definition seek_end (f : File) : File := mkFile (content f) (fsize f).
(** [read_to_end] *)
Definition read_to_end (f : File) : bytes * File :=
  (drop (N.to_nat (cursor f)) (content f), mkFile (content f) (N.max (cursor f) (fsize f))).
(** [set_len] moves no handle. *)
Definition set_len (f : File) (n : N) : File :=
  mkFile (take (N.to_nat n) (content f ++ replicate (N.to_nat (n - fsize f)) 0)) (cursor f).
Definition write_all (f : File) (data : bytes) : File :=
  let padded := content f ++ replicate (N.to_nat (cursor f - fsize f)) 0 in
  mkFile (take (N.to_nat (cursor f)) padded ++ data ++ drop (N.to_nat (cursor f + vlen data)) padded)
    (cursor f + vlen data).

(** Writes at the end append. *)
Lemma write_at_end f data : cursor f = fsize f →
  write_all f data = mkFile (content f ++ data) (vlen (content f ++ data)).
Proof.
  intros Hc. unfold write_all. rewrite Hc, N.sub_diag. change (N.to_nat 0) with 0%nat. simpl replicate.
  rewrite app_nil_r. unfold fsize, vlen in *. rewrite Nat2N.id, firstn_all, drop_ge, app_nil_r by lia.
  f_equal. rewrite length_app. lia.
Qed.

(** [serde_json::to_vec] and [from_slice] at a type. *)
Class Json (A : Type) : Type := {
  to_json : A → bytes;
  from_json : bytes → option A
}.
Class JsonLaws (A : Type) `{!Json A} : Prop := {
  from_to_json a : from_json (to_json a) = Some a
}.
(** A serializer that meets the law, for evaluation: the bits of stdpp's encoding. *)
Definition BitsJson (A : Type) `{Countable A} : Json A :=
  {| to_json a := bits (encode a); from_json d := decode (unbits d) |}.
Lemma BitsJsonLaws (A : Type) `{Countable A} : @JsonLaws A (BitsJson A).
Proof. split. intros a. simpl. by rewrite unbits_bits, decode_encode. Qed.

(** ** Logs of records *)

(** What a loop finds at the front of the bytes left: a record of some size, an end (nothing,
    or less than a record), or an error. *)
Inductive Step (R E : Type) : Type :=
| Got (r : R) (size : N)
| Stop
| Fail (e : E).
Arguments Got {R E} _ _.
Arguments Stop {R E}.
Arguments Fail {R E} _.

Section Scan.
Context {R E : Type}.
(** The body of the loop, given the offset in the file and the bytes from there on. *)
Context (next : N → bytes → Step R E).

(** The loop; a record is not empty, so the bytes bound the number of rounds. *)
Fixpoint scan (fuel : nat) (offset : N) (buf : bytes) : result E (list R) :=
  match fuel with
  | O => Ok []
  | S fuel =>
      match next offset buf with
      | Got r size => let? rs := scan fuel (offset + size) (drop (N.to_nat size) buf) in Ok (r :: rs)
      | Stop => Ok []
      | Fail e => Err e
      end
  end.
Definition scan_all (buf : bytes) : result E (list R) := scan (S (length buf)) 0 buf.
End Scan.

Section Log.
Context {R : Type}.
(** The bytes of a record. *)
Context (frame : R → bytes).
Definition log_bytes (rs : list R) : bytes := mjoin (frame <$> rs).

Lemma log_bytes_cons r rs : log_bytes (r :: rs) = frame r ++ log_bytes rs.
Proof. done. Qed.
Lemma log_bytes_app rs rs' : log_bytes (rs ++ rs') = log_bytes rs ++ log_bytes rs'.
Proof. unfold log_bytes. rewrite fmap_app. by rewrite join_app. Qed.

(** The records of the log that end within its first [n] bytes. *)
Fixpoint complete (rs : list R) (n : nat) : list R :=
  match rs with
  | [] => []
  | r :: rs => if decide (length (frame r) ≤ n)%nat then r :: complete rs (n - length (frame r)) else []
  end.

Lemma complete_prefix rs n : complete rs n `prefix_of` rs.
Proof.
  revert n. induction rs as [|r rs IH]; intros n; [done|]. simpl. case_decide; [|apply prefix_nil].
  by apply prefix_cons.
Qed.
Lemma complete_all rs n : (length (log_bytes rs) ≤ n)%nat → complete rs n = rs.
Proof.
  revert n. induction rs as [|r rs IH]; intros n; [done|]. rewrite log_bytes_cons, length_app. simpl. intros Hn.
  rewrite decide_True by lia. by rewrite IH by lia.
Qed.
(** Records appended behind those that are complete. *)
Lemma complete_keeps rs rs' n :
  (length (log_bytes rs) ≤ n)%nat → rs `prefix_of` complete (rs ++ rs') n.
Proof.
  revert n. induction rs as [|r rs IH]; intros n; [intros _; apply prefix_nil|].
  rewrite log_bytes_cons, length_app. intros Hn. simpl. rewrite decide_True by lia.
  apply prefix_cons, IH. lia.
Qed.
(** All but the record cut by the crash are complete. *)
Lemma complete_bytes rs n : (length (log_bytes (complete rs n)) ≤ n)%nat.
Proof.
  revert n. induction rs as [|r rs IH]; intros n; [simpl; lia|]. simpl. case_decide; [|simpl; lia].
  rewrite log_bytes_cons, length_app. specialize (IH (n - length (frame r))%nat). lia.
Qed.
Lemma complete_take rs n : take (length (log_bytes (complete rs n))) (take n (log_bytes rs)) = log_bytes (complete rs n).
Proof.
  revert n. induction rs as [|r rs IH]; intros n; [done|]. simpl. case_decide as Hd; [|done].
  rewrite !log_bytes_cons, length_app, take_app. rewrite (take_ge (frame r)) by lia.
  rewrite take_app. rewrite (take_ge (frame r)) by lia. f_equal.
  rewrite Nat.add_comm, Nat.add_sub. apply IH.
Qed.

(** What the body of a scan is to do: take a whole record off the front, and stop at the
    torn beginning of one. *)
Context {E Q : Type} (next : N → bytes → Step Q E) (view : R → Q) (fits : R → Prop).
Context (next_frame : ∀ off r rest, fits r → next off (frame r ++ rest) = Got (view r) (vlen (frame r))).
Context (next_torn : ∀ off r n, fits r → (n < length (frame r))%nat → next off (take n (frame r)) = Stop).
Context (next_nil : ∀ off, next off [] = Stop).

Lemma scan_cut rs n off fuel :
  Forall fits rs → (length (take n (log_bytes rs)) < fuel)%nat →
  scan next fuel off (take n (log_bytes rs)) = Ok (view <$> complete rs n).
Proof.
  intros Hf. revert n off fuel. induction Hf as [|r rs Hr _ IH]; intros n off [|fuel] Hl; try lia.
  - unfold log_bytes. simpl mjoin. rewrite take_nil. cbn [scan]. by rewrite next_nil.
  - rewrite log_bytes_cons in *. cbn [scan complete].
    assert (Hpos : (0 < length (frame r))%nat).
    { destruct (frame r) eqn:Hfr; [|simpl; lia]. pose proof (next_frame off r [] Hr) as Hn.
      rewrite Hfr in Hn. simpl in Hn. by rewrite next_nil in Hn. }
    case_decide as Hd.
    + rewrite take_app, (take_ge (frame r)) in Hl |- * by lia. rewrite next_frame by done.
      unfold vlen. rewrite Nat2N.id, drop_app_length. rewrite length_app in Hl. rewrite IH by lia. done.
    + rewrite take_app_le, next_torn by (done || lia). done.
Qed.

Lemma scan_all_cut rs n : Forall fits rs → scan_all next (take n (log_bytes rs)) = Ok (view <$> complete rs n).
Proof. intros Hf. apply scan_cut; [done|lia]. Qed.
Lemma scan_all_log rs : Forall fits rs → scan_all next (log_bytes rs) = Ok (view <$> rs).
Proof.
  intros Hf. rewrite <- (firstn_all (log_bytes rs)), scan_all_cut by done. by rewrite complete_all.
Qed.
End Log.
