(* ===== verification/Float.v ===== *)
(** * Floating point

    [f64] as the binary64 numbers of the standard library's executable specification of
    IEEE 754 ([SpecFloat], precision 53, exponents below 1024, rounding to nearest even).
    The decimal text of a number, which the standard library of Rust computes, is a
    parameter. *)

From Stdlib Require Import ZArith SpecFloat.
From S2P Require Import Prelude Bytes.

Abbreviation f64 := spec_float (only parsing).
#[export] Instance f64_eq_dec : EqDecision spec_float.
Proof. solve_decision. Defined.

(** [n as f64] *)
Definition f64_of_N (n : N) : f64 := binary_normalize 53 1024 (Z.of_N n) 0 false.
Definition f64_add : f64 → f64 → f64 := SFadd 53 1024.
Definition f64_sub : f64 → f64 → f64 := SFsub 53 1024.
Definition f64_mul : f64 → f64 → f64 := SFmul 53 1024.
Definition f64_div : f64 → f64 → f64 := SFdiv 53 1024.
(** [a <= b] and [a < b]; false when one of them is not a number *)
Definition f64_le (a b : f64) : bool := SFleb a b.
Definition f64_lt (a b : f64) : bool := SFltb a b.
(** [a >= b] *)
Definition f64_ge (a b : f64) : bool := SFleb b a.

Definition f64_is_nan (a : f64) : bool := match a with S754_nan => true | _ => false end.
(** [f64::min] and [f64::max]: a number is preferred to NaN. *)
Definition f64_min (a b : f64) : f64 :=
  if f64_is_nan a then b else if f64_is_nan b then a else if f64_le a b then a else b.
Definition f64_max (a b : f64) : f64 :=
  if f64_is_nan a then b else if f64_is_nan b then a else if f64_le b a then a else b.

Definition f64_zero : f64 := S754_zero false.
Definition f64_infinity : f64 := S754_infinity false.
Definition f64_neg_infinity : f64 := S754_infinity true.
Definition f64_is_infinite (a : f64) : bool := match a with S754_infinity _ => true | _ => false end.

#[global] Arguments f64_of_N : simpl never.
#[global] Arguments f64_add : simpl never.
#[global] Arguments f64_sub : simpl never.
#[global] Arguments f64_mul : simpl never.
#[global] Arguments f64_div : simpl never.
#[global] Arguments f64_le : simpl never.
#[global] Arguments f64_lt : simpl never.
#[global] Arguments f64_ge : simpl never.

(** [Display for f64] and [str::parse::<f64>]. *)
Class F64Text : Type := {
  f64_display (x : f64) : bytes;
  f64_parse (s : bytes) : option f64
}.
(** The values of the type: mantissas of at most 53 digits, normalised. *)
Definition f64_valid (x : f64) : bool := valid_binary 53 1024 x.
(** What is printed is read back; what is printed or read is printable ASCII. *)
Class F64TextLaws `{!F64Text} : Prop := {
  f64_parse_display x : f64_valid x = true → f64_is_infinite x = false → f64_parse (f64_display x) = Some x;
  f64_parse_ascii s x : f64_parse s = Some x → Forall (λ b, 32 ≤ b < 127) s;
  f64_display_ascii x : Forall (λ b, 32 ≤ b < 127) (f64_display x);
  f64_display_finite x : f64_is_infinite x = false →
    f64_display x ≠ [105; 110; 102] ∧ f64_display x ≠ [43; 105; 110; 102] ∧ f64_display x ≠ [45; 105; 110; 102]
}.

(** ** A text that meets the laws

    Mantissa and binary exponent in decimal digits: an instance of the two classes, for
    evaluation. *)

Module ExactText.

Definition strip_minus (l : bytes) : bool * bytes :=
  match l with
  | b :: rest => if b =? 45 then (true, rest) else (false, l)
  | [] => (false, [])
  end.
Fixpoint split_e (l : bytes) : bytes * bytes :=
  match l with
  | [] => ([], [])
  | b :: l => if b =? 101 then ([], l) else let '(m, e) := split_e l in (b :: m, e)
  end.
Definition sign (s : bool) : bytes := if s then [45] else [].

Definition display (x : f64) : bytes :=
  match x with
  | S754_nan => [78; 97; 78]
  | S754_zero s => sign s ++ [48]
  | S754_infinity s => sign s ++ [105; 110; 102]
  | S754_finite s m e => sign s ++ decimal (Npos m) ++ 101 :: sign (e <? 0)%Z ++ decimal (Z.to_N (Z.abs e))
  end.
Definition parse (l : bytes) : option f64 :=
  if bool_decide (l = [78; 97; 78]) then Some S754_nan
  else
    let '(s, l) := strip_minus l in
    if bool_decide (l = [48]) then Some (S754_zero s)
    else
      let '(m, e) := split_e l in
      let '(es, e) := strip_minus e in
      m ← parse_digits 0 m; e ← parse_digits 0 e;
      match m with
      | N0 => None
      | Npos m => Some (S754_finite s m (if es then - Z.of_N e else Z.of_N e)%Z)
      end.

Lemma split_e_digits ds l : Forall (λ b, is_digit b = true) ds → split_e (ds ++ 101 :: l) = (ds, l).
Proof.
  induction 1 as [|b ds Hb _ IH]; [done|]. simpl. rewrite IH.
  unfold is_digit in Hb. apply andb_true_iff in Hb as [_ ?%N.leb_le]. by destruct (N.eqb_spec b 101); [lia|].
Qed.
Lemma strip_sign s n l : strip_minus (sign s ++ decimal n ++ l) = (s, decimal n ++ l).
Proof.
  destruct s; [done|]. destruct (decimal_head n) as (b & ds & -> & _ & ?). simpl. by destruct (N.eqb_spec b 45).
Qed.
Lemma sign_decimal_head s n l : ∃ b rest, sign s ++ decimal n ++ l = b :: rest ∧ b < 58.
Proof.
  destruct s; [by exists 45, (decimal n ++ l)|]. destruct (decimal_digits n) as (Hd & Hne & _).
  destruct (decimal n) as [|b ds]; [done|]. exists b, (ds ++ l). split; [done|].
  inversion Hd as [|? ? Hb]; subst. unfold is_digit in Hb. apply andb_true_iff in Hb as [_ ?%N.leb_le]. lia.
Qed.

Lemma strip_minus_ascii l s l' : strip_minus l = (s, l') → Forall (λ b, 32 ≤ b < 127) l' → Forall (λ b, 32 ≤ b < 127) l.
Proof.
  destruct l as [|b l]; simpl; [by intros [= _ <-]|]. destruct (N.eqb_spec b 45) as [->|]; intros [= _ <-]; [|done].
  intros Hl. constructor; [lia|done].
Qed.
Lemma split_e_ascii l m e : split_e l = (m, e) →
  Forall (λ b, 32 ≤ b < 127) m → Forall (λ b, 32 ≤ b < 127) e → Forall (λ b, 32 ≤ b < 127) l.
Proof.
  revert m. induction l as [|b l IH]; simpl; intros m; [by intros [= <- <-]|].
  destruct (N.eqb_spec b 101) as [->|]; [intros [= <- <-] _ He; constructor; [lia|done]|].
  destruct (split_e l) as [m' e']. intros [= <- <-] [Hb Hm]%Forall_cons He. constructor; [done|]. by eapply IH.
Qed.
Lemma parse_ascii l x : parse l = Some x → Forall (λ b, 32 ≤ b < 127) l.
Proof.
  unfold parse. destruct (bool_decide_reflect (l = [78; 97; 78])) as [->|_]; [intros _; repeat constructor; lia|].
  destruct (strip_minus l) as [s l'] eqn:Hs. intros H. eapply strip_minus_ascii; [done|]. revert H.
  destruct (bool_decide_reflect (l' = [48])) as [->|_]; [intros _; repeat constructor; lia|].
  destruct (split_e l') as [m e] eqn:He, (strip_minus e) as [es e'] eqn:Hs'.
  destruct (parse_digits 0 m) eqn:Hm; [|done]. simpl. destruct (parse_digits 0 e') eqn:Hd; [|done]. intros _.
  eapply split_e_ascii; [done|eapply digits_ascii, parse_digits_digits, Hm|].
  eapply strip_minus_ascii; [done|]. eapply digits_ascii, parse_digits_digits, Hd.
Qed.

#[export] Instance exact_text : F64Text := {| f64_display := display; f64_parse := parse |}.
#[export] Instance exact_text_laws : F64TextLaws.
Proof.
  split; simpl.
  - intros [[]|s| |s m e] _; try done. intros _. unfold display, parse.
    destruct (sign_decimal_head s (Npos m) (101 :: sign (e <? 0)%Z ++ decimal (Z.to_N (Z.abs e)))) as (b & rest & Heq & Hb).
    rewrite bool_decide_eq_false_2 by (rewrite Heq; intros [= -> _]; lia). rewrite strip_sign.
    destruct (decimal_digits (Npos m)) as (Hd & Hne & Hm). destruct (decimal_digits (Z.to_N (Z.abs e))) as (_ & _ & He).
    rewrite bool_decide_eq_false_2 by (destruct (decimal (Npos m)) as [|? [|]]; done).
    rewrite split_e_digits by done. pose proof (strip_sign (e <? 0)%Z (Z.to_N (Z.abs e)) []) as Hs.
    rewrite app_nil_r in Hs. rewrite Hs, Hm. simpl. rewrite He. simpl. do 2 f_equal.
    destruct (Z.ltb_spec e 0); lia.
  - apply parse_ascii.
  - assert (Hn : ∀ n, Forall (λ b, 32 ≤ b < 127) (decimal n)) by (intros n; apply digits_ascii, decimal_digits).
    assert (Hs : ∀ s, Forall (λ b, 32 ≤ b < 127) (sign s)) by (intros []; repeat constructor; lia).
    intros [s|s| |s m e]; unfold display; repeat (apply Forall_app; split); auto; repeat constructor; try lia.
    apply Forall_app; split; auto.
  - intros [[]|s| |s m e] Hi; try done. unfold display.
    destruct s; simpl; destruct (decimal_digits (Npos m)) as (Hd & Hne & _);
      (destruct (decimal (Npos m)) as [|b ds]; [done|]); inversion Hd as [|? ? Hb]; subst; unfold is_digit in Hb;
      apply andb_true_iff in Hb as [?%N.leb_le ?%N.leb_le]; split_and!; simpl; try done; intros [= ? _]; lia.
Qed.

End ExactText.

(** ** Order *)

Lemma f64_compare_nan a b : SFcompare a b = None ↔ f64_is_nan a = true ∨ f64_is_nan b = true.
Proof. destruct a, b; simpl; naive_solver. Qed.

Lemma f64_le_refl a : f64_is_nan a = false → f64_le a a = true.
Proof.
  unfold f64_le, SFleb. destruct a as [s|s| |s m e]; simpl; try done; try by destruct s.
  intros _. rewrite Z.compare_refl. change (Pos.compare_cont Eq m m) with (Pos.compare m m).
  rewrite Pos.compare_refl. by destruct s.
Qed.

Lemma f64_le_total a b : f64_is_nan a = false → f64_is_nan b = false → f64_le a b = false → f64_le b a = true.
Proof.
  unfold f64_le, SFleb. destruct a as [s|s| |s m e], b as [s'|s'| |s' m' e']; simpl; try done;
    try (destruct s, s'; done); try (destruct s; done); try (destruct s'; done).
  intros _ _. rewrite (Z.compare_antisym e e').
  change (Pos.compare_cont Eq m m') with (Pos.compare m m'). change (Pos.compare_cont Eq m' m) with (Pos.compare m' m).
  rewrite (Pos.compare_antisym m m'). destruct s, s', (e ?= e')%Z, (m ?= m')%positive; simpl; done.
Qed.

Lemma f64_min_le a b : f64_is_nan b = false → f64_le (f64_min a b) b = true.
Proof.
  intros Hb. unfold f64_min. destruct (f64_is_nan a); [by apply f64_le_refl|]. rewrite Hb.
  destruct (f64_le a b) eqn:Hab; [done|]. by apply f64_le_refl.
Qed.
Lemma f64_min_number a b : f64_is_nan b = false → f64_is_nan (f64_min a b) = false.
Proof. intros Hb. unfold f64_min. destruct (f64_is_nan a) eqn:Ha; [done|]. rewrite Hb. by destruct (f64_le a b). Qed.

Lemma f64_le_trans a b c : f64_le a b = true → f64_le b c = true → f64_le a c = true.
Proof.
  unfold f64_le, SFleb.
  destruct a as [s1|s1| |s1 m1 e1], b as [s2|s2| |s2 m2 e2], c as [s3|s3| |s3 m3 e3]; simpl; try done;
    try (destruct s1, s2, s3; done); try (destruct s1, s2; done); try (destruct s2, s3; done); try (destruct s1, s3; done).
  change (Pos.compare_cont Eq m1 m2) with (Pos.compare m1 m2). change (Pos.compare_cont Eq m2 m3) with (Pos.compare m2 m3).
  change (Pos.compare_cont Eq m1 m3) with (Pos.compare m1 m3).
  destruct s1, s2, s3; try done;
    destruct (Z.compare_spec e1 e2), (Z.compare_spec e2 e3), (Z.compare_spec e1 e3); try done; try lia;
    destruct (Pos.compare_spec m1 m2), (Pos.compare_spec m2 m3), (Pos.compare_spec m1 m3); simpl; try done; lia.
Qed.
