(* ===== verification/KernelBreaker.v ===== *)
(** * The circuit breaker of cave-kernel

    [crates/core/cave-kernel/src/circuitbreaker.rs]: the state machine
    Closed → Open → HalfOpen, its sliding window, and the registry of one breaker per key.

    An [Instant] is a number of nanoseconds and [saturating_duration_since] the truncated
    difference.  A method that takes [&self] and locks the inner state is a function of that
    state; [None] is a panic of its [expect].  Failure rates are [f64] divisions (Float.v).
    The methods without [_at] pass the present instant to the ones with it. *)

From S2P Require Import Prelude Bytes Float.

Inductive BreakerState : Set := Closed | Open | HalfOpen.
Inductive WindowKind : Set := Count (n : usize) | Time (d : N).
Inductive TripCondition : Set :=
| WindowedRate (failure_rate_threshold : f64) (minimum_calls : usize)
| Consecutive (failure_count success_count : N).
Record BreakerConfig : Set := mkBreakerConfig {
  window : WindowKind;
  trip : TripCondition;
  reset_timeout : N;
  half_open_permitted : usize
}.
#[export] Instance BreakerState_eq_dec : EqDecision BreakerState.
Proof. solve_decision. Defined.

Module BreakerConfig.

Definition f64_one : f64 := f64_of_N 1.
(** [None]: an assertion fails. *)
Definition new (w : WindowKind) (threshold : f64) (minimum_calls : usize) (reset : N) : option BreakerConfig :=
  if negb (f64_le f64_zero threshold && f64_le threshold f64_one) then None
  else if minimum_calls =? 0 then None
  else Some (mkBreakerConfig w (WindowedRate threshold minimum_calls) reset 1).
Definition consecutive (failure_count success_count reset : N) : option BreakerConfig :=
  if failure_count =? 0 then None
  else if success_count =? 0 then None
  else Some (mkBreakerConfig (Count failure_count) (Consecutive failure_count success_count) reset success_count).
Definition with_half_open_permitted (c : BreakerConfig) (n : usize) : option BreakerConfig :=
  if n =? 0 then None else Some (mkBreakerConfig (window c) (trip c) (reset_timeout c) n).
Definition failure_rate_threshold (c : BreakerConfig) : f64 :=
  match trip c with WindowedRate t _ => t | Consecutive _ _ => f64_one end.
Definition minimum_calls (c : BreakerConfig) : usize :=
  match trip c with WindowedRate _ n => n | Consecutive n _ => n end.

End BreakerConfig.

Inductive Outcome : Set := Success | Failure.
#[export] Instance Outcome_eq_dec : EqDecision Outcome.
Proof. solve_decision. Defined.
Record Sample : Set := mkSample { at_ : N; outcome : Outcome }.
Record BreakerInner : Set := mkBreakerInner {
  cfg : BreakerConfig;
  state : BreakerState;
  samples : list Sample;
  opened_at : option N;
  half_open_attempts : usize;
  half_open_successes : usize
}.

Definition is_failure (s : Sample) : bool := bool_decide (outcome s = Failure).
Definition saturating_duration_since (now earlier : N) : N := now - earlier.

(** [while samples.len() > cap { pop_front }] *)
Definition trim_count (cap : usize) (l : list Sample) : list Sample := drop (length l - N.to_nat cap) l.
Fixpoint trim_time (now d : N) (l : list Sample) : list Sample :=
  match l with
  | front :: rest => if d <? saturating_duration_since now (at_ front) then trim_time now d rest else l
  | [] => []
  end.
Fixpoint take_while {A} (f : A → bool) (l : list A) : list A :=
  match l with x :: l => if f x then x :: take_while f l else [] | [] => [] end.

Definition failures (l : list Sample) : N := vlen (filter (λ s, is_failure s = true) l).

Module CircuitBreaker.

Definition new (c : BreakerConfig) : BreakerInner := mkBreakerInner c Closed [] None 0 0.

(** Both branches on an open breaker answer [Open]. *)
Definition state_at (b : BreakerInner) (now : N) : option BreakerState :=
  match state b with
  | Open => match opened_at b with Some _ => Some Open | None => None end
  | other => Some other
  end.

Definition can_proceed_at (b : BreakerInner) (now : N) : option (bool * BreakerInner) :=
  match state b with
  | Closed => Some (true, b)
  | Open =>
      match opened_at b with
      | None => None
      | Some opened_at =>
          if reset_timeout (cfg b) <=? saturating_duration_since now opened_at
          then Some (true, mkBreakerInner (cfg b) HalfOpen (samples b) (Some opened_at) 1 0)
          else Some (false, b)
      end
  | HalfOpen =>
      if half_open_attempts b <? half_open_permitted (cfg b)
      then Some (true, mkBreakerInner (cfg b) HalfOpen (samples b) (opened_at b) (half_open_attempts b +w 1) (half_open_successes b))
      else Some (false, b)
  end.

Definition should_open (c : BreakerConfig) (l : list Sample) : bool :=
  match trip c with
  | WindowedRate failure_rate_threshold minimum_calls =>
      if vlen l <? minimum_calls then false
      else f64_ge (f64_div (f64_of_N (failures l)) (f64_of_N (vlen l))) failure_rate_threshold
  | Consecutive failure_count _ =>
      failure_count <=? vlen (take_while is_failure (reverse l)) mod 4294967296
  end.

Definition record_at (b : BreakerInner) (now : N) (o : Outcome) : BreakerInner :=
  match state b with
  | HalfOpen =>
      if bool_decide (o = Failure) then mkBreakerInner (cfg b) Open (samples b) (Some now) 0 0
      else
        let successes := half_open_successes b +w 1 in
        if half_open_permitted (cfg b) <=? successes
        then mkBreakerInner (cfg b) Closed [] None 0 0
        else mkBreakerInner (cfg b) HalfOpen (samples b) (opened_at b) (half_open_attempts b) successes
  | Open => b
  | Closed =>
      let l := samples b ++ [mkSample now o] in
      let l := match window (cfg b) with Count cap => trim_count cap l | Time d => trim_time now d l end in
      if should_open (cfg b) l
      then mkBreakerInner (cfg b) Open l (Some now) (half_open_attempts b) (half_open_successes b)
      else mkBreakerInner (cfg b) Closed l (opened_at b) (half_open_attempts b) (half_open_successes b)
  end.

Definition current_failure_rate (b : BreakerInner) : f64 :=
  if vlen (samples b) =? 0 then f64_zero
  else f64_div (f64_of_N (failures (samples b))) (f64_of_N (vlen (samples b))).

End CircuitBreaker.

(** ** One breaker per key

    The map holds handles on shared breakers; [heap] is what they point to. *)

Record PerKeyBreakers : Type := mkPerKeyBreakers {
  pk_cfg : BreakerConfig;
  pk_map : gmap bytes nat;
  pk_heap : gmap nat BreakerInner
}.
Module PerKeyBreakers.

Definition new (c : BreakerConfig) : PerKeyBreakers := mkPerKeyBreakers c ∅ ∅.
(** The handle is a fresh one when the key is new. *)
Definition for_key (p : PerKeyBreakers) (key : bytes) : nat * PerKeyBreakers :=
  match pk_map p !! key with
  | Some h => (h, p)
  | None =>
      let h := fresh (dom (pk_heap p)) in
      (h, mkPerKeyBreakers (pk_cfg p) (<[key := h]> (pk_map p)) (<[h := CircuitBreaker.new (pk_cfg p)]> (pk_heap p)))
  end.
Definition known_keys (p : PerKeyBreakers) : list bytes := merge_sort bytes_le (elements (dom (pk_map p))).
Definition remove (p : PerKeyBreakers) (key : bytes) : bool * PerKeyBreakers :=
  (bool_decide (is_Some (pk_map p !! key)), mkPerKeyBreakers (pk_cfg p) (delete key (pk_map p)) (pk_heap p)).

End PerKeyBreakers.

(** ** Runs *)

Inductive Event : Set := Proceed (now : N) | Done (now : N) (o : Outcome).
Definition event_time (e : Event) : N := match e with Proceed now => now | Done now _ => now end.

(** The answers to the calls of [can_proceed_at], and the breaker left; [None] after a
    panic. *)
Fixpoint run (b : BreakerInner) (es : list Event) : option (list bool * BreakerInner) :=
  match es with
  | [] => Some ([], b)
  | Proceed now :: es =>
      match CircuitBreaker.can_proceed_at b now with
      | None => None
      | Some (ok, b) => (λ r, (ok :: r.1, r.2)) <$> run b es
      end
  | Done now o :: es => run (CircuitBreaker.record_at b now o) es
  end.

(** ** The invariant *)

(** What every constructor of a configuration asserts. *)
Definition config_ok (c : BreakerConfig) : Prop := 0 < half_open_permitted c < u64_max.
Definition wf (b : BreakerInner) : Prop :=
  config_ok (cfg b) ∧
  match state b with
  | Closed => True
  | Open => is_Some (opened_at b)
  | HalfOpen =>
      1 ≤ half_open_attempts b ≤ half_open_permitted (cfg b) ∧ half_open_successes b < half_open_permitted (cfg b)
  end.

Lemma consecutive_ok f s r c : BreakerConfig.consecutive f s r = Some c → s < u64_max → config_ok c.
Proof.
  unfold BreakerConfig.consecutive, config_ok. destruct (f =? 0); [done|]. destruct (N.eqb_spec s 0); [done|].
  intros [= <-] Hs. simpl. lia.
Qed.

Lemma breaker_wf_new c : config_ok c → wf (CircuitBreaker.new c).
Proof. done. Qed.
Lemma can_proceed_wf b now : wf b →
  ∃ ok b', CircuitBreaker.can_proceed_at b now = Some (ok, b') ∧ wf b' ∧ cfg b' = cfg b.
Proof.
  intros [Hc Hs]. unfold CircuitBreaker.can_proceed_at, wf. destruct (state b) eqn:Hst.
  - eexists _, _. split_and!; [done..|by rewrite Hst|done].
  - destruct Hs as [t Ht]. rewrite Ht. destruct (_ <=? _).
    + eexists _, _. split_and!; [done|done| |done]. simpl. unfold config_ok in Hc. lia.
    + eexists _, _. split_and!; [done|done|by rewrite Hst|done].
  - destruct (N.ltb_spec (half_open_attempts b) (half_open_permitted (cfg b))).
    + eexists _, _. split_and!; [done|done| |done]. simpl. unfold config_ok in Hc. rewrite u64_add_1 by lia. lia.
    + eexists _, _. split_and!; [done|done|by rewrite Hst|done].
Qed.
Lemma record_wf b now o : wf b → wf (CircuitBreaker.record_at b now o) ∧ cfg (CircuitBreaker.record_at b now o) = cfg b.
Proof.
  intros [Hc Hs]. unfold CircuitBreaker.record_at, wf. destruct (state b) eqn:Hst.
  - destruct (CircuitBreaker.should_open _ _); simpl; split_and!; try done; by eexists.
  - by rewrite Hst.
  - case_bool_decide; [simpl; split_and!; try done; by eexists|]. unfold config_ok in Hc. destruct (N.leb_spec (half_open_permitted (cfg b)) (half_open_successes b +w 1)); [done|].
    simpl. unfold config_ok. tauto.
Qed.

(** C37: the breaker never panics.  Whatever calls and outcomes reach it, in any order and
    with any instants, the [expect] on the time of opening holds, and the counters of the
    half-open state stay within the number of trials permitted. *)
Theorem breaker_run_wf c es :
  config_ok c → ∃ answers b, run (CircuitBreaker.new c) es = Some (answers, b) ∧ wf b ∧ cfg b = c.
Proof.
  intros Hc. pose proof (breaker_wf_new c Hc) as Hw. change c with (cfg (CircuitBreaker.new c)) at 2. revert Hw.
  generalize (CircuitBreaker.new c) as b. induction es as [|[now|now o] es IH]; intros b Hw; cbn [run].
  - by eexists _, _.
  - destruct (can_proceed_wf b now Hw) as (ok & b' & -> & Hw' & Hcfg).
    destruct (IH b' Hw') as (l & b'' & -> & ? & ?). eexists _, _. split_and!; [reflexivity|done|simpl; congruence].
  - destruct (record_wf b now o Hw) as [Hw' Hcfg]. destruct (IH _ Hw') as (l & b'' & -> & ? & ?).
    eexists _, _. split_and!; [reflexivity|done|simpl; congruence].
Qed.
Lemma breaker_run_wf_witness :
  let c := mkBreakerConfig (Count 4) (WindowedRate (f64_div (f64_of_N 1) (f64_of_N 2)) 2) 10 1 in
  ∃ answers b, run (CircuitBreaker.new c) [Done 0 Failure; Proceed 1; Done 2 Failure; Proceed 3; Proceed 12; Proceed 13] = Some (answers, b) ∧
    wf b ∧ cfg b = c.
Proof. intros c. apply (breaker_run_wf c). by vm_compute. Defined.

(** ** Open *)

(** An open breaker rejects.  Until the reset timeout has passed since it opened, every
    call is rejected and nothing, late outcomes of earlier calls included, changes the
    breaker. *)
Theorem open_rejects b t es :
  state b = Open → opened_at b = Some t → Forall (λ e, saturating_duration_since (event_time e) t < reset_timeout (cfg b)) es →
  ∃ answers, run b es = Some (answers, b) ∧ Forall (λ ok, ok = false) answers.
Proof.
  intros Hs Ht Hes. induction Hes as [|[now|now o] es He _ IH]; cbn [run].
  - by eexists.
  - unfold CircuitBreaker.can_proceed_at. rewrite Hs, Ht. simpl in He.
    destruct (N.leb_spec (reset_timeout (cfg b)) (saturating_duration_since now t)); [lia|]. destruct IH as (l & -> & Hl).
    eexists. split; [reflexivity|]. by constructor.
  - unfold CircuitBreaker.record_at. rewrite Hs. apply IH.
Qed.
Lemma open_rejects_witness :
  let c := mkBreakerConfig (Count 1) (Consecutive 1 1) 10 1 in
  let b := CircuitBreaker.record_at (CircuitBreaker.new c) 5 Failure in
  ∃ answers, run b [Proceed 6; Done 7 Success; Proceed 14] = Some (answers, b) ∧ Forall (λ ok, ok = false) answers.
Proof.
  intros c b. apply (open_rejects b 5).
  - reflexivity.
  - reflexivity.
  - repeat constructor.
Defined.

(** ** Half open *)

Definition granted (answers : list bool) : N := vlen (filter (λ ok, ok = true) answers).

(** The breaker stays half open through all of the events. *)
Fixpoint stays_half_open (b : BreakerInner) (es : list Event) : Prop :=
  state b = HalfOpen ∧
  match es with
  | [] => True
  | Proceed now :: es =>
      match CircuitBreaker.can_proceed_at b now with Some (_, b) => stays_half_open b es | None => False end
  | Done now o :: es => stays_half_open (CircuitBreaker.record_at b now o) es
  end.

Lemma half_open_counts b es : wf b → stays_half_open b es →
  ∃ answers b', run b es = Some (answers, b') ∧ wf b' ∧ cfg b' = cfg b ∧ state b' = HalfOpen ∧
    half_open_attempts b' = half_open_attempts b + granted answers.
Proof.
  revert b. induction es as [|[now|now o] es IH]; intros b Hw [Hs Hes]; cbn [run].
  - eexists _, _. split_and!; [done..|]. change (granted []) with 0. lia.
  - destruct (can_proceed_wf b now Hw) as (ok & b' & Hp & Hw' & Hcfg). rewrite Hp in Hes |- *.
    destruct (IH b' Hw' Hes) as (l & b'' & -> & ? & ? & ? & Hn). eexists _, _. split_and!; [reflexivity|done|simpl; congruence|done|].
    simpl. rewrite Hn. destruct Hw as [Hc Hw]. rewrite Hs in Hw. unfold CircuitBreaker.can_proceed_at in Hp. rewrite Hs in Hp.
    destruct (half_open_attempts b <? _); simplify_eq; unfold granted; rewrite filter_cons; simpl.
    + rewrite u64_add_1 by (unfold config_ok in Hc; lia). rewrite vlen_cons. lia.
    + lia.
  - destruct (record_wf b now o Hw) as [Hw' Hcfg]. destruct (IH _ Hw' Hes) as (l & b'' & -> & ? & ? & ? & Hn).
    eexists _, _. split_and!; [reflexivity|done|simpl; congruence|done|]. simpl. rewrite Hn. f_equal.
    assert (Hst : state (CircuitBreaker.record_at b now o) = HalfOpen) by (destruct es; apply Hes).
    unfold CircuitBreaker.record_at in *. rewrite Hs in *. case_bool_decide; [done|]. by destruct (_ <=? _).
Qed.

(** Trial calls are rationed.  From the call that finds the reset timeout passed until
    the breaker closes or opens again, at most [half_open_permitted] calls are let
    through, that call included. *)
Theorem half_open_budget b now es :
  wf b → state b = Open → 
  match CircuitBreaker.can_proceed_at b now with
  | Some (true, b') =>
      stays_half_open b' es → ∃ answers b'', run b' es = Some (answers, b'') ∧
        1 + granted answers ≤ half_open_permitted (cfg b)
  | _ => True
  end.
Proof.
  intros Hw Hs. destruct (can_proceed_wf b now Hw) as (ok & b' & Hp & Hw' & Hcfg). rewrite Hp. destruct ok; [|done].
  intros Hes. destruct (half_open_counts b' es Hw' Hes) as (l & b'' & Hr & [_ Hw''] & Hcfg' & Hst & Hn).
  eexists _, _. split; [done|]. rewrite Hst in Hw''. unfold CircuitBreaker.can_proceed_at in Hp. rewrite Hs in Hp.
  destruct (opened_at b); [|done]. destruct (_ <=? _); simplify_eq. simpl in *. rewrite Hcfg' in Hw''. simpl in Hw''. lia.
Qed.

Lemma half_open_budget_witness :
  let c := mkBreakerConfig (Count 1) (Consecutive 1 2) 10 2 in
  let b := CircuitBreaker.record_at (CircuitBreaker.new c) 5 Failure in
  match CircuitBreaker.can_proceed_at b 15 with
  | Some (true, b') =>
      ∃ answers b'', run b' [Proceed 16; Proceed 17; Done 18 Success; Proceed 19] = Some (answers, b'') ∧
        1 + granted answers ≤ half_open_permitted (cfg b)
  | _ => False
  end.
Proof.
  intros c b. assert (Hw : wf b) by (split; [by vm_compute|by eexists]).
  apply (half_open_budget b 15 [Proceed 16; Proceed 17; Done 18 Success; Proceed 19] Hw eq_refl).
  by vm_compute.
Defined.

(** Trials that never report back are not replaced: with the permits used up, calls are
    rejected for ever. *)
Lemma half_open_stuck b nows :
  state b = HalfOpen → half_open_attempts b = half_open_permitted (cfg b) →
  run b (Proceed <$> nows) = Some (replicate (length nows) false, b).
Proof.
  intros Hs Ha. induction nows as [|now nows IH]; [done|]. rewrite fmap_cons. cbn [run length replicate].
  unfold CircuitBreaker.can_proceed_at. rewrite Hs. destruct (N.ltb_spec (half_open_attempts b) (half_open_permitted (cfg b))); [lia|].
  by rewrite IH.
Qed.

(** ** Tripping on consecutive failures *)

(** The outcomes of calls, recorded one after the other. *)
Definition record_all (b : BreakerInner) (os : list (N * Outcome)) : BreakerInner :=
  foldl (λ b x, CircuitBreaker.record_at b x.1 x.2) b os.

Lemma take_while_all {A} (g : A → bool) (l : list A) n :
  (n ≤ length (take_while g l))%nat ↔ (n ≤ length l)%nat ∧ Forall (λ x, g x = true) (take n l).
Proof.
  revert n. induction l as [|x l IH]; intros [|n]; cbn [take_while].
  - split; [intros _; split; [lia|constructor]|simpl; lia].
  - simpl. split; [lia|intros [? _]; lia].
  - split; [intros _; split; [lia|constructor]|intros _; lia].
  - rewrite firstn_cons, Forall_cons. destruct (g x) eqn:Hx; simpl.
    + rewrite <- !Nat.succ_le_mono, IH. tauto.
    + split; [lia|]. intros [_ [? _]]. done.
Qed.

Section Streak.
Context (f s r : N) (Hf : 0 < f < 4294967296).
Abbreviation c := (mkBreakerConfig (Count f) (Consecutive f s) r s).

(** The outcomes end in [f] failures. *)
Definition streak (os : list Outcome) : Prop := ∃ before, os = before ++ replicate (N.to_nat f) Failure.

(** The window holds the last [f] outcomes. *)
Definition last_outcomes (os : list Outcome) : list Outcome := drop (length os - N.to_nat f) os.

Lemma streak_last os : streak os ↔ (N.to_nat f ≤ length os)%nat ∧ Forall (λ o, o = Failure) (last_outcomes os).
Proof.
  unfold streak, last_outcomes. split.
  - intros [before ->]. rewrite length_app, length_replicate. split; [lia|].
    rewrite Nat.add_sub, drop_app_length. by apply Forall_replicate.
  - intros [Hl Hall]. exists (take (length os - N.to_nat f) os). rewrite <- (take_drop (length os - N.to_nat f) os) at 1. f_equal.
    symmetry. apply replicate_as_Forall_2; [rewrite length_drop; lia|]. eapply Forall_impl; [done|]. by intros ? ->.
Qed.

Lemma should_open_streak l os : outcome <$> l = last_outcomes os → CircuitBreaker.should_open c l = true ↔ streak os.
Proof.
  intros Hl. assert (Hlen : (length l ≤ N.to_nat f)%nat).
  { rewrite <- (length_fmap outcome), Hl. unfold last_outcomes. rewrite length_drop. lia. }
  cbn [CircuitBreaker.should_open trip]. rewrite N.leb_le.
  assert (Htw : (length (take_while is_failure (reverse l)) ≤ length l)%nat).
  { pose proof (take_while_all is_failure (reverse l) (length (take_while is_failure (reverse l)))) as [Ht _].
    rewrite length_reverse in Ht. by apply Ht. }
  unfold vlen at 1. rewrite N.mod_small by lia. rewrite streak_last, <- Hl.
  pose proof (take_while_all is_failure (reverse l) (N.to_nat f)) as Hw. rewrite length_reverse in Hw.
  assert (Hos : (N.to_nat f ≤ length os)%nat ↔ (N.to_nat f ≤ length l)%nat).
  { rewrite <- (length_fmap outcome l), Hl. unfold last_outcomes. rewrite length_drop. lia. }
  rewrite Hos. transitivity (N.to_nat f ≤ length (take_while is_failure (reverse l)))%nat; [lia|]. rewrite Hw.
  split; intros [Hn Hall]; split; try done.
  - rewrite take_ge in Hall by (rewrite length_reverse; lia). rewrite Forall_reverse in Hall. rewrite Forall_fmap.
    eapply Forall_impl; [done|]. intros x Hx. simpl. unfold is_failure in Hx. by apply bool_decide_eq_true in Hx.
  - rewrite take_ge by (rewrite length_reverse; lia). rewrite Forall_reverse. rewrite Forall_fmap in Hall.
    eapply Forall_impl; [done|]. intros x Hx. unfold is_failure. by apply bool_decide_eq_true.
Qed.

Lemma trim_last l os o x : outcome <$> l = last_outcomes os → outcome x = o →
  outcome <$> trim_count f (l ++ [x]) = last_outcomes (os ++ [o]).
Proof.
  intros Hl Hx. unfold trim_count, last_outcomes in *. rewrite fmap_drop, fmap_app, Hl. cbn [fmap list_fmap]. rewrite Hx.
  assert (Hlen : length l = (length os - (length os - N.to_nat f))%nat) by (by rewrite <- (length_fmap outcome), Hl, length_drop).
  rewrite !length_app, Hlen. simpl. destruct (Nat.le_gt_cases (N.to_nat f) (length os)).
  - rewrite (drop_app_le os) by lia.
    assert (1 ≤ length (drop (length os - N.to_nat f) os))%nat by (rewrite length_drop; lia).
    rewrite drop_app_le by (rewrite length_drop; lia). f_equal. rewrite drop_drop. f_equal. lia.
  - replace (length os - N.to_nat f)%nat with 0%nat by lia. rewrite drop_0. do 2 f_equal. lia.
Qed.

(** The breaker trips on the streak.  Configured for consecutive failures, a closed
    breaker is open exactly when at some point the last [failure_count] outcomes recorded
    were all failures; a single success anywhere in the window keeps it closed. *)
Theorem consecutive_trips_iff os :
  let b := record_all (CircuitBreaker.new c) os in
  (state b = Open ↔ ∃ n, streak (take n os.*2)) ∧ (state b ≠ Open → state b = Closed).
Proof.
  intros b. cut (cfg b = c ∧
    ((state b = Open ∧ ∃ n, streak (take n os.*2)) ∨
     (state b = Closed ∧ ¬ (∃ n, streak (take n os.*2)) ∧ outcome <$> samples b = last_outcomes os.*2))).
  { intros (_ & [[-> H]|(-> & H & _)]); split; try done; naive_solver. }
  unfold b. clear b. induction os as [|[now o] os IH] using rev_ind.
  { split; [done|]. right. split_and!; [done| |done]. intros (n & before & Hb).
    apply (f_equal length) in Hb. rewrite length_app, length_replicate, length_take in Hb. simpl in Hb. lia. }
  unfold record_all. rewrite foldl_app. fold (record_all (CircuitBreaker.new c) os). cbn [foldl fst snd].
  rewrite fmap_app. cbn [fmap list_fmap snd]. set (b := record_all (CircuitBreaker.new c) os) in *.
  assert (Hpre : (∃ n, streak (take n (os.*2 ++ [o]))) ↔ (∃ n, streak (take n os.*2)) ∨ streak (os.*2 ++ [o])).
  { split.
    - intros [n Hn]. destruct (Nat.le_gt_cases n (length os.*2)).
      + left. exists n. by rewrite take_app_le in Hn.
      + right. by rewrite take_ge in Hn by (rewrite length_app; simpl; lia).
    - intros [[n Hn]|Hs]; [|exists (length (os.*2 ++ [o])); by rewrite firstn_all].
      exists (n `min` length os.*2)%nat. rewrite take_app_le by lia.
      destruct (Nat.le_gt_cases n (length os.*2)).
      + by rewrite Nat.min_l by lia.
      + rewrite Nat.min_r, firstn_all by lia. by rewrite take_ge in Hn by lia. }
  destruct IH as (Hcfg & [[Hs Hn]|(Hs & Hn & Hl)]); unfold CircuitBreaker.record_at; rewrite Hs.
  - split; [done|]. left. split; [done|]. apply Hpre. by left.
  - rewrite Hcfg. cbn [window]. pose proof (trim_last _ _ o (mkSample now o) Hl eq_refl) as Hl'.
    pose proof (should_open_streak _ _ Hl') as Hso. destruct (CircuitBreaker.should_open c _) eqn:Ho.
    + split; [done|]. left. split; [done|]. apply Hpre. right. by apply Hso.
    + split; [done|]. right. split_and!; [done| |done]. rewrite Hpre. intros [?|?%Hso]; done.
Qed.
End Streak.

(** Two failures in a row, the second time round. *)
Lemma consecutive_trips_iff_witness :
  let os := [(1, Failure); (2, Success); (3, Failure); (4, Failure)] in
  let b := record_all (CircuitBreaker.new (mkBreakerConfig (Count 2) (Consecutive 2 1) 10 1)) os in
  (state b = Open ↔ ∃ n, streak 2 (take n os.*2)) ∧ (state b ≠ Open → state b = Closed).
Proof. intros os. apply (consecutive_trips_iff 2 1 10). lia. Defined.
