(* ===== verification/KernelIdentity.v ===== *)
(** * Tenants and workload identities of cave-kernel

    [crates/core/cave-kernel/src/ns.rs], the tenant ids and scopes, and [identity.rs], the
    SPIFFE ids and the validity of an SVID.  Strings are their UTF-8 bytes; a [char] is the
    bytes of its encoding.

    A tenant id is accepted exactly when it is a DNS-1123 label ([tenant_id_dns_label]); a
    SPIFFE id prints to the text it was parsed from, up to the slash of an empty path, and its
    text parses back to it unless its path has a [%] ([spiffe_parse_print],
    [spiffe_print_parse]). *)

From S2P Require Import Prelude Bytes.

Definition is_ascii_lowercase (b : N) : bool := (97 <=? b) && (b <=? 122).
Definition is_ascii_digit (b : N) : bool := (48 <=? b) && (b <=? 57).

(** The first [char] that is not [ok]; the [ok] ones are all ASCII. *)
Fixpoint first_bad (ok : N → bool) (s : bytes) : option bytes :=
  match s with
  | [] => None
  | b :: s' => if ok b then first_bad ok s' else Some (b :: take (utf8_step b s').1 s')
  end.

(** ** Tenants *)

Inductive TenantError : Type := BadLength (n : usize) | BadChar (c : bytes) | BadEdge.

Definition label_char (b : N) : bool := is_ascii_lowercase b || is_ascii_digit b || (b =? 45).
Definition edge_ok (b : N) : bool := is_ascii_lowercase b || is_ascii_digit b.

Definition validate (s : bytes) : result TenantError unit :=
  let len := vlen s in
  if negb ((1 <=? len) && (len <=? 63)) then Err (BadLength len)
  else
    match first_bad label_char s with
    | Some c => Err (BadChar c)
    | None =>
        if negb (edge_ok (default 0 (vget s 0))) || negb (edge_ok (default 0 (vget s (len - 1)))) then Err BadEdge
        else Ok tt
    end.

Module TenantId.
Definition HEADER : bytes := str "X-Scope-OrgID".
Definition system : bytes := str "system".
Definition new (s : bytes) : result TenantError bytes := let? _ := validate s in Ok s.
(** [from_str] *)
Definition from_str (s : bytes) : result TenantError bytes := new s.
Definition to_string (t : bytes) : bytes := t.
End TenantId.

Record TenantScope : Type := mkTenantScope { ts_tenant : bytes; ts_namespace : option bytes }.
Module TenantScope.
Definition new (t : bytes) : TenantScope := mkTenantScope t None.
Definition with_namespace (s : TenantScope) (ns : bytes) : TenantScope := mkTenantScope (ts_tenant s) (Some ns).
End TenantScope.

(** ** SPIFFE ids *)

Inductive SpiffeError : Type :=
| MissingScheme
| EmptyTrustDomain
| InvalidTrustDomain (c : bytes)
| TrustDomainTooLong
| InvalidPathSegment (s : bytes)
| PercentEncoded.

Record SpiffeId : Type := mkSpiffeId { trust_domain : bytes; spiffe_path : bytes }.

Definition domain_char (b : N) : bool :=
  is_ascii_lowercase b || is_ascii_digit b || (b =? 46) || (b =? 45) || (b =? 95).
Definition validate_trust_domain (td : bytes) : result SpiffeError unit :=
  match td with
  | [] => Err EmptyTrustDomain
  | _ :: _ =>
      if 255 <? vlen td then Err TrustDomainTooLong
      else match first_bad domain_char td with Some c => Err (InvalidTrustDomain c) | None => Ok tt end
  end.

(** [str::split] at an ASCII character *)
Fixpoint split (sep : N) (s : bytes) : list bytes :=
  match s with
  | [] => [[]]
  | b :: s' =>
      if b =? sep then [] :: split sep s'
      else match split sep s' with seg :: segs => (b :: seg) :: segs | [] => [[b]] end
  end.
Fixpoint check_segments (segs : list bytes) : result SpiffeError unit :=
  match segs with
  | [] => Ok tt
  | seg :: segs =>
      if bool_decide (seg = []) || bool_decide (seg = str ".") || bool_decide (seg = str "..") then Err (InvalidPathSegment seg)
      else check_segments segs
  end.
Definition validate_path (path : bytes) : result SpiffeError unit :=
  match path with [] => Ok tt | _ :: _ => check_segments (split 47 path) end.

(** [str::split_once] at an ASCII character *)
Fixpoint split_once (sep : N) (s : bytes) : option (bytes * bytes) :=
  match s with
  | [] => None
  | b :: s' => if b =? sep then Some ([], s') else prod_map (cons b) id <$> split_once sep s'
  end.
(** [str::strip_prefix] *)
Fixpoint strip_prefix (p s : bytes) : option bytes :=
  match p, s with
  | [], _ => Some s
  | a :: p, b :: s => if a =? b then strip_prefix p s else None
  | _ :: _, [] => None
  end.

Module SpiffeId.
Definition new (trust_domain path : bytes) : result SpiffeError SpiffeId :=
  let? _ := validate_trust_domain trust_domain in
  let? _ := validate_path path in
  Ok (mkSpiffeId trust_domain path).
Definition is_member_of (i : SpiffeId) (td : bytes) : bool := bool_decide (trust_domain i = td).
Definition to_string (i : SpiffeId) : bytes :=
  match spiffe_path i with
  | [] => str "spiffe://" ++ trust_domain i
  | _ :: _ => str "spiffe://" ++ trust_domain i ++ str "/" ++ spiffe_path i
  end.
Definition from_str (s : bytes) : result SpiffeError SpiffeId :=
  match strip_prefix (str "spiffe://") s with
  | None => Err MissingScheme
  | Some rest =>
      if bool_decide (37 ∈ rest) then Err PercentEncoded
      else
        let '(td, path) := match split_once 47 rest with Some p => p | None => (rest, []) end in
        new td path
  end.
End SpiffeId.

Record SvidMetadata : Type := mkSvidMetadata { svid_id : SpiffeId; not_before : Z; not_after : Z }.
Definition is_valid_at (m : SvidMetadata) (unix_secs : Z) : bool :=
  ((not_before m <=? unix_secs) && (unix_secs <? not_after m))%Z.

(** ** Tenant ids are DNS-1123 labels *)

(** The grammar of RFC 1123: a letter or digit, or letters, digits and hyphens between two
    letters or digits *)
Inductive dns_label : bytes → Prop :=
| label_one b : edge_ok b = true → dns_label [b]
| label_long a m z : edge_ok a = true → Forall (λ b, label_char b = true) m → edge_ok z = true → dns_label (a :: m ++ [z]).

Lemma first_bad_none ok s : first_bad ok s = None ↔ Forall (λ b, ok b = true) s.
Proof.
  induction s as [|b s IH]; simpl; [done|]. rewrite Forall_cons, <- IH. destruct (ok b); [intuition|]. split; [done|]. by intros [? _].
Qed.
Lemma edge_label b : edge_ok b = true → label_char b = true.
Proof. unfold label_char. unfold edge_ok. intros ->. done. Qed.
Lemma vget_ends (a : N) m z : vget (a :: m ++ [z]) 0 = Some a ∧ vget (a :: m ++ [z]) (vlen (a :: m ++ [z]) - 1) = Some z.
Proof.
  rewrite !vget_lookup. split; [done|]. rewrite vlen_cons, vlen_app. change (vlen [z]) with 1.
  replace (N.to_nat (vlen m + 1 + 1 - 1)) with (S (length m)) by (unfold vlen; lia). simpl. by rewrite list_lookup_middle.
Qed.

Lemma dns_label_ends a m z : dns_label (a :: m ++ [z]) → edge_ok a = true ∧ edge_ok z = true.
Proof.
  intros H. remember (a :: m ++ [z]) as s eqn:E. destruct H as [b Hb|a' m' z' Ha Hm Hz]; [by destruct m|].
  injection E as -> E. by apply app_inj_tail in E as [-> ->].
Qed.

(** Tenant ids.  A string is accepted as a tenant id exactly when it is a DNS-1123 label of
    at most 63 characters; what is accepted is kept and printed unchanged. *)
Theorem tenant_id_dns_label s t :
  TenantId.from_str s = Ok t ↔ dns_label s ∧ vlen s ≤ 63 ∧ TenantId.to_string t = s.
Proof.
  unfold TenantId.from_str, TenantId.new, TenantId.to_string, validate. destruct s as [|a l].
  { split; [done|]. intros [H _]. inversion H. }
  rewrite (proj2 (N.leb_le 1 _)) by (rewrite vlen_cons; lia). simpl andb. destruct (N.leb_spec (vlen (a :: l)) 63) as [Hlen|Hlen]; simpl negb; cbn match.
  2:{ split; [done|lia]. }
  destruct (first_bad label_char (a :: l)) eqn:Hb.
  { split; [done|]. intros [H _]. exfalso. assert (Hn : first_bad label_char (a :: l) = None); [|congruence]. apply first_bad_none.
    inversion H as [b Hb'|a' m z Ha Hm Hz]; subst; [by constructor; [apply edge_label|]|]. constructor; [by apply edge_label|].
    apply Forall_app. split; [done|]. constructor; [by apply edge_label|done]. }
  apply first_bad_none in Hb. apply Forall_cons in Hb as [Ha Hl]. destruct (list_eq_nil_dec l) as [->|Hne]; [|apply exists_last in Hne as (m & z & ->)].
  - change (vget [a] 0) with (Some a). change (vget [a] (vlen [a] - 1)) with (Some a). simpl. destruct (edge_ok a) eqn:He; simpl.
    + split; [intros [= <-]; by split; [constructor|]|]. intros (_ & _ & <-). done.
    + split; [done|]. intros [H _]. inversion H as [b Hb'|a' m z Ha' Hm Hz E]; subst; [congruence|by destruct m].
  - destruct (vget_ends a m z) as [_ ->]. simpl. apply Forall_app in Hl as [Hm _].
    destruct (edge_ok a) eqn:Hea, (edge_ok z) eqn:Hez; simpl;
      try (split; [done|]; intros [[? ?]%dns_label_ends _]; congruence).
    split; [intros [= <-]; split; [by constructor|done]|]. intros (_ & _ & <-). done.
Qed.

(** ** SPIFFE ids print and parse *)

Lemma strip_prefix_some p s r : strip_prefix p s = Some r ↔ s = p ++ r.
Proof.
  revert s. induction p as [|a p IH]; intros s; simpl; [naive_solver|]. destruct s as [|b s]; [naive_solver|].
  destruct (N.eqb_spec a b) as [->|Hne]; [rewrite IH; naive_solver|naive_solver].
Qed.
Lemma split_once_some sep s a b : split_once sep s = Some (a, b) ↔ s = a ++ sep :: b ∧ sep ∉ a.
Proof.
  revert a. induction s as [|x s IH]; intros a; simpl; [destruct a; naive_solver|]. destruct (N.eqb_spec x sep) as [->|Hne].
  - split; [intros [= <- <-]; split; [done|set_solver]|]. destruct a as [|y a]; simpl; [naive_solver|]. intros [[= <- _] Hn]. set_solver.
  - destruct (split_once sep s) as [[a' b']|] eqn:E; simpl.
    + split; [intros [= <- <-]; destruct (proj1 (IH a')) as [-> Hn]; [done|]; split; [done|set_solver]|].
      destruct a as [|y a]; simpl; [naive_solver|]. intros [[= <- Hs] Hn]. assert (Hx : Some (a', b') = Some (a, b)) by (apply IH; split; [done|set_solver]). congruence.
    + split; [done|]. destruct a as [|y a]; simpl; [naive_solver|]. intros [[= <- Hs] Hn]. assert (Hx : None = Some (a, b)) by (apply IH; split; [done|set_solver]). done.
Qed.
Lemma split_once_none sep s : split_once sep s = None ↔ sep ∉ s.
Proof.
  induction s as [|x s IH]; simpl; [set_solver|]. destruct (N.eqb_spec x sep) as [->|Hne]; [split; [done|set_solver]|].
  rewrite fmap_None, IH. set_solver.
Qed.

Lemma new_fields td p i : SpiffeId.new td p = Ok i →
  i = mkSpiffeId td p ∧ Forall (λ b, domain_char b = true) td.
Proof.
  unfold SpiffeId.new, validate_trust_domain. destruct td as [|b td]; [done|]. destruct (255 <? _); [done|].
  destruct (first_bad _ _) eqn:Hb; [done|]. apply first_bad_none in Hb. destruct (validate_path p); [|done]. by intros [= <-].
Qed.

(** A SPIFFE id is its text.  A text that parses is the text of the id it parses to, except
    that a slash after the trust domain with nothing behind it is dropped. *)
Theorem spiffe_parse_print s i :
  SpiffeId.from_str s = Ok i → SpiffeId.to_string i = s ∨ (spiffe_path i = [] ∧ SpiffeId.to_string i ++ str "/" = s).
Proof.
  unfold SpiffeId.from_str, SpiffeId.to_string. destruct (strip_prefix _ s) as [rest|] eqn:Hs; [|done]. apply strip_prefix_some in Hs as ->.
  destruct (bool_decide _); [done|]. destruct (split_once 47 rest) as [[td p]|] eqn:Hr; intros H; apply new_fields in H as [-> _]; cbn [spiffe_path trust_domain].
  - apply split_once_some in Hr as [-> _]. destruct p as [|x p]; [right|left; done]. split; [done|]. by rewrite <- app_assoc.
  - by left.
Qed.
Lemma spiffe_parse_print_witness :
  match SpiffeId.from_str (str "spiffe://prod.cave/ns/default") with
  | Ok i => SpiffeId.to_string i = str "spiffe://prod.cave/ns/default" ∨
      (spiffe_path i = [] ∧ SpiffeId.to_string i ++ str "/" = str "spiffe://prod.cave/ns/default")
  | Err _ => False
  end.
Proof.
  destruct (SpiffeId.from_str (str "spiffe://prod.cave/ns/default")) as [i|e] eqn:E; [|vm_compute in E; discriminate E].
  exact (spiffe_parse_print _ i E).
Defined.

(** Ids round trip.  The text of an id made by [new] parses back to the id, unless its path
    contains a percent sign. *)
Theorem spiffe_print_parse td p i :
  SpiffeId.new td p = Ok i → 37 ∉ p → SpiffeId.from_str (SpiffeId.to_string i) = Ok i.
Proof.
  intros Hnew Hp. pose proof (new_fields _ _ _ Hnew) as [-> Htd].
  assert (Hno : ∀ c, domain_char c = false → c ∉ td).
  { intros c Hc Hin. rewrite Forall_forall in Htd. apply Htd in Hin. congruence. }
  pose proof (Hno 47 eq_refl) as H47. pose proof (Hno 37 eq_refl) as H37. unfold SpiffeId.from_str, SpiffeId.to_string. cbn [spiffe_path trust_domain].
  destruct p as [|x p].
  - rewrite (proj2 (strip_prefix_some _ _ td)) by done. rewrite bool_decide_false by done. by rewrite (proj2 (split_once_none 47 td)).
  - rewrite (proj2 (strip_prefix_some _ _ (td ++ str "/" ++ x :: p))) by done.
    rewrite bool_decide_false by (change (str "/") with [47]; set_solver).
    by rewrite (proj2 (split_once_some 47 _ td (x :: p))).
Qed.
Lemma spiffe_print_parse_witness :
  match SpiffeId.new (str "prod.cave") (str "ns/default") with
  | Ok i => SpiffeId.from_str (SpiffeId.to_string i) = Ok i
  | Err _ => False
  end.
Proof.
  destruct (SpiffeId.new (str "prod.cave") (str "ns/default")) as [i|e] eqn:E; [|vm_compute in E; discriminate E].
  apply (spiffe_print_parse (str "prod.cave") (str "ns/default") i E). refine (proj1 (bool_decide_eq_true _) _). vm_compute. reflexivity.
Defined.

(** [new] accepts a percent sign, which [from_str] refuses: the id's own text does not parse. *)
Lemma percent_id_unparsable :
  match SpiffeId.new (str "prod.cave") (str "a%20b") with
  | Ok i => is_ok (SpiffeId.from_str (SpiffeId.to_string i)) = false
  | Err _ => False
  end.
Proof. vm_compute. reflexivity. Qed.
