(* ===== verification/KernelLease.v ===== *)
(** * Leader leases of cave-kernel

    [crates/core/cave-kernel/src/lease.rs]: [LeaseManager], through which controllers elect
    one active leader.  Times and durations are in nanoseconds, a time before the epoch being
    0; the lease arithmetic is in whole seconds.  Every method runs under the one lock and is
    one step.

    The theorem on exclusion is about what the holders were told: a trace of calls carries
    the map [told] of the last expiry each holder received and has not given up. *)

From S2P Require Import Prelude Bytes.

Record LeaseInfo : Type := mkLeaseInfo {
  name : bytes;
  holder : bytes;
  expires_at_unix : u64;
  revision : u64
}.
Inductive LeaseError : Type :=
| Held (name holder : bytes) (expires_at : u64)
| NotFound (name : bytes)
| InvalidTtl.
Record LeaseManager : Type := mkLeaseManager { leases : gmap bytes LeaseInfo; next_revision : u64 }.

Definition as_secs (d : N) : u64 := d / 1000000000.
Definition unix_seconds (t : N) : u64 := t / 1000000000.

Module LeaseManager.

Definition new : LeaseManager := mkLeaseManager ∅ 0.

Definition acquire (m : LeaseManager) (n h : bytes) (ttl now : N) : result LeaseError LeaseInfo * LeaseManager :=
  if ttl =? 0 then (Err InvalidTtl, m)
  else
    let now_unix := unix_seconds now in
    let held :=
      match leases m !! n with
      | Some existing =>
          if (now_unix <? expires_at_unix existing) && negb (bool_decide (holder existing = h))
          then Some existing else None
      | None => None
      end in
    match held with
    | Some existing => (Err (Held n (holder existing) (expires_at_unix existing)), m)
    | None =>
        let rev := next_revision m +w 1 in
        let info := mkLeaseInfo n h (saturating_add now_unix (as_secs ttl)) rev in
        (Ok info, mkLeaseManager (<[n := info]> (leases m)) rev)
    end.

Definition renew (m : LeaseManager) (n h : bytes) (ttl now : N) : result LeaseError LeaseInfo * LeaseManager :=
  if ttl =? 0 then (Err InvalidTtl, m)
  else
    match leases m !! n with
    | None => (Err (NotFound n), m)
    | Some info =>
        if negb (bool_decide (holder info = h)) then (Err (Held n (holder info) (expires_at_unix info)), m)
        else
          let info := mkLeaseInfo (name info) (holder info) (saturating_add (unix_seconds now) (as_secs ttl)) (revision info) in
          (Ok info, mkLeaseManager (<[n := info]> (leases m)) (next_revision m))
    end.

Definition revoke (m : LeaseManager) (n h : bytes) : result LeaseError unit * LeaseManager :=
  match leases m !! n with
  | None => (Err (NotFound n), m)
  | Some info =>
      if negb (bool_decide (holder info = h)) then (Err (Held n (holder info) (expires_at_unix info)), m)
      else (Ok tt, mkLeaseManager (delete n (leases m)) (next_revision m))
  end.

Definition get (m : LeaseManager) (n : bytes) : option LeaseInfo := leases m !! n.
Definition list (m : LeaseManager) : list LeaseInfo := snd <$> map_to_list (leases m).

Definition sweep_expired (m : LeaseManager) (now : N) : usize * LeaseManager :=
  let now_unix := unix_seconds now in
  let kept := filter (λ x, now_unix < expires_at_unix x.2) (leases m) in
  (N.of_nat (size (leases m) - size kept), mkLeaseManager kept (next_revision m)).

End LeaseManager.

(** ** Traces *)

Inductive Call : Type :=
| Acquire (n h : bytes) (ttl : N)
| Renew (n h : bytes) (ttl : N)
| Revoke (n h : bytes)
| Sweep.
(** What the holders were told: the expiry of the last grant not revoked. *)
Abbreviation Told := (gmap (bytes * bytes) u64).

Definition learn (told : Told) (n h : bytes) (r : result LeaseError LeaseInfo) : Told :=
  match r with Ok info => <[(n, h) := expires_at_unix info]> told | Err _ => told end.
Definition step (st : LeaseManager * Told) (now : N) (c : Call) : LeaseManager * Told :=
  let '(m, told) := st in
  match c with
  | Acquire n h ttl => let '(r, m) := LeaseManager.acquire m n h ttl now in (m, learn told n h r)
  | Renew n h ttl => let '(r, m) := LeaseManager.renew m n h ttl now in (m, learn told n h r)
  | Revoke n h =>
      let '(r, m) := LeaseManager.revoke m n h in
      (m, match r with Ok _ => delete (n, h) told | Err _ => told end)
  | Sweep => ((LeaseManager.sweep_expired m now).2, told)
  end.

(** The states reached at an instant by calls whose clocks do not run backwards. *)
Inductive reached : LeaseManager * Told → N → Prop :=
| reached_new : reached (LeaseManager.new, ∅) 0
| reached_step st t now c : reached st t → t ≤ now → reached (step st now c) now.

(** Whoever was told of an expiry still to come is the holder on record. *)
Definition recorded (st : LeaseManager * Told) (now : N) : Prop :=
  ∀ n h e, st.2 !! (n, h) = Some e → unix_seconds now < e →
    ∃ info, leases st.1 !! n = Some info ∧ holder info = h ∧ expires_at_unix info = e.

Lemma unix_seconds_mono t now : t ≤ now → unix_seconds t ≤ unix_seconds now.
Proof. intros H. by apply N.Div0.div_le_mono. Qed.

Lemma reached_recorded st now : reached st now → recorded st now.
Proof.
  induction 1 as [|[m told] t now c Hr IH Ht]; [by intros ? ? ?|].
  assert (IH' : recorded (m, told) now).
  { intros n h e He Hlt. apply IH; [done|]. pose proof (unix_seconds_mono _ _ Ht). lia. }
  clear IH. unfold recorded in *. simpl in IH'. intros n h e. destruct c as [n' h' ttl|n' h' ttl|n' h'|]; simpl.
  - unfold LeaseManager.acquire. destruct (ttl =? 0); [apply IH'|].
    set (held := match leases m !! n' with Some _ => _ | None => None end). destruct held as [ex|] eqn:Hh; [apply IH'|].
    simpl. intros [([= <- <-] & <-)|[Hne He]]%lookup_insert_Some Hlt.
    { eexists. by rewrite lookup_insert_eq. }
    destruct (IH' n h e He Hlt) as (info & Hi & Hho & Hex). destruct (decide (n' = n)) as [->|Hn].
    + unfold held in Hh. rewrite Hi, Hex in Hh. destruct (N.ltb_spec (unix_seconds now) e); [|lia].
      case_bool_decide as Hd; [|done]. exfalso. apply Hne. congruence.
    + exists info. by rewrite lookup_insert_ne.
  - unfold LeaseManager.renew. destruct (ttl =? 0); [apply IH'|]. destruct (leases m !! n') as [info'|] eqn:Hi'; [|apply IH'].
    case_bool_decide as Hd; [|apply IH']. simpl. intros [([= <- <-] & <-)|[Hne He]]%lookup_insert_Some Hlt.
    { eexists. by rewrite lookup_insert_eq. }
    destruct (IH' n h e He Hlt) as (info & Hi & Hho & Hex). destruct (decide (n' = n)) as [->|Hn].
    + exfalso. apply Hne. congruence.
    + exists info. by rewrite lookup_insert_ne.
  - unfold LeaseManager.revoke. destruct (leases m !! n') as [info'|] eqn:Hi'; [|apply IH'].
    case_bool_decide as Hd; [|apply IH']. simpl. intros [Hne He]%lookup_delete_Some Hlt.
    destruct (IH' n h e He Hlt) as (info & Hi & Hho & Hex). destruct (decide (n' = n)) as [->|Hn].
    + exfalso. apply Hne. congruence.
    + exists info. by rewrite lookup_delete_ne.
  - intros He Hlt. destruct (IH' n h e He Hlt) as (info & Hi & Hho & Hex). exists info. split_and!; [|done..].
    apply map_lookup_filter_Some. split; [done|]. simpl. lia.
Qed.

(** At most one leader.  As long as clocks do not run backwards, no two holders can at
    the same time both have been told that they hold the same lease until a second still to
    come. *)
Theorem lease_exclusive st now n h1 h2 e1 e2 :
  reached st now → st.2 !! (n, h1) = Some e1 → st.2 !! (n, h2) = Some e2 →
  unix_seconds now < e1 → unix_seconds now < e2 → h1 = h2.
Proof.
  intros Hr%reached_recorded H1 H2 Hl1 Hl2. destruct (Hr _ _ _ H1 Hl1) as (i1 & Hi1 & <- & _).
  destruct (Hr _ _ _ H2 Hl2) as (i2 & Hi2 & <- & _). congruence.
Qed.
(** The lease of [a] has run out when [b] takes it. *)
Lemma lease_exclusive_witness :
  let st := step (step (LeaseManager.new, ∅) 5000000000 (Acquire (str "l") (str "a") 3000000000)) 9000000000
              (Acquire (str "l") (str "b") 3000000000) in
  st.2 !! (str "l", str "a") = Some 8 ∧ st.2 !! (str "l", str "b") = Some 12 ∧
  ∀ h, st.2 !! (str "l", h) = Some 12 → h = str "b".
Proof.
  intros st. split_and!; [vm_compute; reflexivity..|]. intros h Hh.
  apply (lease_exclusive st 9000000000 (str "l") h (str "b") 12 12).
  - apply (reached_step _ 5000000000); [|vm_compute; discriminate]. apply (reached_step _ 0); [apply reached_new|vm_compute; discriminate].
  - exact Hh.
  - vm_compute. reflexivity.
  - vm_compute. reflexivity.
  - vm_compute. reflexivity.
Defined.

(** ** Revisions *)

Definition run (st : LeaseManager * Told) (cs : list (N * Call)) : LeaseManager * Told :=
  foldl (λ st x, step st x.1 x.2) st cs.

Definition revisions_below (m : LeaseManager) : Prop := ∀ n i, leases m !! n = Some i → revision i ≤ next_revision m.

(** A step leaves a lease under its revision with its holder, or gives it a new one. *)
Lemma step_revisions st now c : revisions_below st.1 → next_revision st.1 < u64_max →
  revisions_below (step st now c).1 ∧ next_revision st.1 ≤ next_revision (step st now c).1 ≤ next_revision st.1 + 1 ∧
  ∀ n i', leases (step st now c).1 !! n = Some i' →
    next_revision st.1 < revision i' ∨
    ∃ i, leases st.1 !! n = Some i ∧ holder i = holder i' ∧ revision i = revision i'.
Proof.
  destruct st as [m told]. unfold revisions_below. simpl. intros Hb Hm.
  assert (Hsame : (∀ n i, leases m !! n = Some i → revision i ≤ next_revision m) ∧ next_revision m ≤ next_revision m ≤ next_revision m + 1 ∧
    ∀ n i', leases m !! n = Some i' → next_revision m < revision i' ∨
      ∃ i, leases m !! n = Some i ∧ holder i = holder i' ∧ revision i = revision i')
    by (split_and!; [done|lia|lia|intros n i' Hi; right; by exists i']).
  destruct c as [n' h' ttl|n' h' ttl|n' h'|]; simpl.
  - unfold LeaseManager.acquire. destruct (ttl =? 0); [done|]. destruct (match leases m !! n' with Some _ => _ | None => None end); [done|].
    simpl. rewrite u64_add_1 by done. split_and!; [|lia|lia|].
    + intros n i [[-> <-]|[_ Hi]]%lookup_insert_Some; simpl; [lia|]. specialize (Hb _ _ Hi). lia.
    + intros n i' [[-> <-]|[_ Hi]]%lookup_insert_Some; simpl; [left; lia|]. right. by exists i'.
  - unfold LeaseManager.renew. destruct (ttl =? 0); [done|]. destruct (leases m !! n') as [info|] eqn:Hi; [|done].
    case_bool_decide; [|done]. simpl. split_and!; [|lia|lia|].
    + intros n i [[-> <-]|[_ Hi']]%lookup_insert_Some; simpl; [by eapply Hb|by eapply Hb].
    + intros n i' [[-> <-]|[_ Hi']]%lookup_insert_Some; simpl; right; [by exists info|by exists i'].
  - unfold LeaseManager.revoke. destruct (leases m !! n') as [info|] eqn:Hi; [|done].
    case_bool_decide; [|done]. simpl. split_and!; [|lia|lia|].
    + intros n i [_ Hi']%lookup_delete_Some. by eapply Hb.
    + intros n i' [_ Hi']%lookup_delete_Some. right. by exists i'.
  - split_and!; [|lia|lia|].
    + intros n i [Hi' _]%map_lookup_filter_Some. by eapply Hb.
    + intros n i' [Hi' _]%map_lookup_filter_Some. right. by exists i'.
Qed.

Lemma run_revisions st cs : revisions_below st.1 → next_revision st.1 + vlen cs < u64_max →
  ∀ n i', leases (run st cs).1 !! n = Some i' →
    next_revision st.1 < revision i' ∨
    ∃ i, leases st.1 !! n = Some i ∧ holder i = holder i' ∧ revision i = revision i'.
Proof.
  revert st. induction cs as [|[now c] cs IH]; intros st Hb Hn n i' Hi'; [right; by exists i'|].
  rewrite vlen_cons in Hn. destruct (step_revisions st now c Hb) as (Hb' & Hle & Hstep); [lia|].
  destruct (IH (step st now c) Hb' ltac:(lia) n i' Hi') as [?|(i & Hi & Hh & Hr)]; [left; lia|].
  destruct (Hstep n i Hi) as [?|(i0 & Hi0 & Hh0 & Hr0)]; [left; lia|]. right. exists i0. split_and!; congruence.
Qed.

(** Takeovers show.  Whatever happens to a lease in between, if it is found again under
    the revision it had, its holder is still the same: a takeover always changes the
    revision. *)
Theorem revision_fences cs1 cs2 n i i' :
  let st := run (LeaseManager.new, ∅) cs1 in
  vlen cs1 + vlen cs2 < u64_max → leases st.1 !! n = Some i → leases (run st cs2).1 !! n = Some i' →
  revision i' = revision i → holder i' = holder i.
Proof.
  intros st Hn Hi Hi' Hr.
  assert (Hst : revisions_below st.1 ∧ next_revision st.1 ≤ vlen cs1).
  { unfold st. clear st Hi Hi' Hr. assert (Hn1 : vlen cs1 < u64_max) by lia. clear Hn. revert Hn1.
    induction cs1 as [|[now c] cs1 IH] using rev_ind; [done|]. rewrite vlen_app. intros Hn1. unfold run. rewrite foldl_app.
    fold (run (LeaseManager.new, ∅) cs1). simpl. change (vlen [_]) with 1 in *. destruct IH as [Hb Hle]; [lia|].
    destruct (step_revisions (run (LeaseManager.new, ∅) cs1) now c Hb) as (? & ? & _); [lia|]. split; [done|lia]. }
  destruct Hst as [Hb Hle]. destruct (run_revisions st cs2 Hb ltac:(lia) n i' Hi') as [Hlt|(i0 & Hi0 & Hh & _)].
  - specialize (Hb _ _ Hi). lia.
  - congruence.
Qed.
Lemma revision_fences_witness :
  let cs1 := [(1, Acquire (str "l") (str "a") 9000000000)] in
  let cs2 := [(2, Renew (str "l") (str "a") 9000000000); (3, Acquire (str "l") (str "b") 9000000000)] in
  let st := run (LeaseManager.new, ∅) cs1 in
  ∃ i i', leases st.1 !! str "l" = Some i ∧ leases (run st cs2).1 !! str "l" = Some i' ∧ holder i' = holder i.
Proof.
  intros cs1 cs2 st. eexists _, _. split_and!; [vm_compute; reflexivity..|].
  apply (revision_fences cs1 cs2 (str "l")); vm_compute; reflexivity.
Defined.

(** A lease of less than a second is over when it begins: two holders are granted it at
    the same instant. *)
Lemma subsecond_ttl_shared :
  let '(r1, m) := LeaseManager.acquire LeaseManager.new (str "l") (str "a") 500000000 7000000000 in
  let '(r2, _) := LeaseManager.acquire m (str "l") (str "b") 500000000 7000000000 in
  is_ok r1 = true ∧ is_ok r2 = true.
Proof. split; vm_compute; reflexivity. Qed.
