(* ===== verification/KernelRetry.v ===== *)
(** * Backoff and retry of cave-kernel

    [crates/core/cave-kernel/src/backoff.rs] (delay schedules), [retrypolicy.rs] (strategies
    with jitter and the executor [retry]) and the worker of [reconcile.rs].

    A [Duration] is its nanoseconds, at most [DURATION_MAX].  The random generator is a
    parameter ([Rng]) that answers within the range asked for.  What the executors call (the
    operation, the clock, the reconciler) is a function of a state they do not look into; a
    sleep is noted in the list of delays slept. *)

From S2P Require Import Prelude.

(** ** Durations *)

Definition DURATION_MAX : N := 18446744073709551616 * 1000000000 - 1.
Definition u32_max : N := 4294967295.
Definition checked_mul (d : N) (k : N) : option N := if d * k <=? DURATION_MAX then Some (d * k) else None.
Definition saturating_mul (d : N) (k : N) : N := N.min (d * k) DURATION_MAX.
Definition as_millis (d : N) : N := d / 1000000.
Definition from_millis (ms : u64) : N := ms * 1000000.
(** [as u64] *)
Definition as_u64 (x : N) : u64 := x mod u64_modulus.

(** ** Schedules without jitter *)

Inductive Backoff : Set :=
| Constant (d : N)
| Linear (base cap : N)
| Exponential (base cap : N)
| Fibonacci (base cap : N).

Fixpoint fib_loop (n : nat) (a b : u64) : u64 :=
  match n with O => a | S n => fib_loop n b (saturating_add a b) end.
Definition fib (n : N) : u64 := fib_loop (N.to_nat n) 0 1.

(** [try_into().unwrap_or(u32::MAX)] *)
Definition to_u32 (x : u64) : N := if x <=? u32_max then x else u32_max.

Module Backoff.

Definition delay_for (b : Backoff) (n : N) : N :=
  match b with
  | Constant d => d
  | Linear base cap =>
      let mult := saturating_add n 1 in
      N.min (default cap (checked_mul base (to_u32 mult))) cap
  | Exponential base cap =>
      let shift := N.min n 63 in
      let mult := N.shiftl 1 shift in
      N.min (default cap (checked_mul base (to_u32 mult))) cap
  | Fibonacci base cap =>
      let f := fib ((n + 1) mod 4294967296) in
      N.min (default cap (checked_mul base (to_u32 f))) cap
  end.
Definition schedule (b : Backoff) (n : N) : list N := (λ i, delay_for b (N.of_nat i)) <$> seq 0 (N.to_nat n).

End Backoff.

(** ** Strategies with jitter *)

Class Rng (G : Type) : Type := gen_range (g : G) (lo hi : u64) : u64 * G.
Class RngLaws (G : Type) `{!Rng G} : Prop := gen_range_in g lo hi : lo ≤ hi → lo ≤ (gen_range g lo hi).1 ≤ hi.

Inductive BackoffStrategy : Set :=
| SConstant (d : N)
| SExponential (base cap : N)
| SFullJitter (base cap : N)
| SEqualJitter (base cap : N)
| SDecorrelatedJitter (base cap : N).

Module BackoffStrategy.
Section WithRng.
Context {G : Type} `{R : !Rng G}.

(** [base.saturating_mul(1u32 << attempt.min(20))] *)
Definition scaled (base attempt : N) : N := saturating_mul base (N.shiftl 1 (N.min attempt 20)).

Definition delay_for (s : BackoffStrategy) (attempt prev : N) (rng : G) : N * G :=
  match s with
  | SConstant d => (d, rng)
  | SExponential base cap => (N.min (scaled base attempt) cap, rng)
  | SFullJitter base cap =>
      let exp := N.min (scaled base attempt) cap in
      let exp_ms := as_u64 (N.max (as_millis exp) 1) in
      let '(x, rng) := gen_range rng 0 exp_ms in (from_millis x, rng)
  | SEqualJitter base cap =>
      let exp := N.min (scaled base attempt) cap in
      let half := exp / 2 in
      let half_ms := as_u64 (N.max (as_millis half) 1) in
      let '(x, rng) := gen_range rng 0 half_ms in (half + from_millis x, rng)
  | SDecorrelatedJitter base cap =>
      let prev_ms := as_u64 (N.max (as_millis prev) (as_millis base)) in
      let upper := N.max (u64_mul prev_ms 3) (as_u64 (as_millis base)) in
      let '(x, rng) := gen_range rng (as_u64 (as_millis base)) upper in
      (N.min (from_millis x) cap, rng)
  end.
End WithRng.
End BackoffStrategy.

Record RetryPolicy : Set := mkRetryPolicy {
  max_attempts : N;
  max_elapsed : option N;
  strategy : BackoffStrategy
}.
Inductive ErrorClass : Set := Transient | Permanent.
#[export] Instance ErrorClass_eq_dec : EqDecision ErrorClass.
Proof. solve_decision. Defined.
Inductive RetryError (E : Type) : Type :=
| LastError (attempt : N) (source : E)
| PermanentError (attempt : N) (source : E)
| Deadline (attempt elapsed_ms : N) (source : E).
Arguments LastError {E} _ _.
Arguments PermanentError {E} _ _.
Arguments Deadline {E} _ _ _.
Definition into_source {E} (e : RetryError E) : E :=
  match e with LastError _ s | PermanentError _ s | Deadline _ _ s => s end.

Module RetryPolicy.

Definition new (max_attempts : N) (s : BackoffStrategy) : option RetryPolicy :=
  if 1 <=? max_attempts then Some (mkRetryPolicy max_attempts None s) else None.
Definition with_max_elapsed (p : RetryPolicy) (d : N) : RetryPolicy := mkRetryPolicy (max_attempts p) (Some d) (strategy p).

Definition should_retry (p : RetryPolicy) (next_attempt elapsed : N) : bool :=
  if max_attempts p <=? next_attempt then false
  else match max_elapsed p with
       | Some max => negb (max <=? elapsed)
       | None => true
       end.

Section WithRng.
Context {G : Type} `{R : !Rng G}.
Fixpoint schedule_loop (s : BackoffStrategy) (k : nat) (i prev : N) (rng : G) : list N * G :=
  match k with
  | O => ([], rng)
  | S k =>
      let '(d, rng) := BackoffStrategy.delay_for s i prev rng in
      let '(ds, rng) := schedule_loop s k (i + 1) d rng in (d :: ds, rng)
  end.
Definition schedule (p : RetryPolicy) (rng : G) : list N * G :=
  schedule_loop (strategy p) (N.to_nat (saturating_sub (max_attempts p) 1)) 0 0 rng.
End WithRng.
End RetryPolicy.

Section Retry.
Context {G : Type} `{R : !Rng G}.
(** The state of everything outside, the operation tried, the clock since the start, and
    the passing of a delay. *)
Context {W T E : Type}.
Context (policy : RetryPolicy) (classify : E → ErrorClass).
Context (f : N → W → result E T * W) (elapsed : W → N) (sleep : N → W → W).

(** The loop, with fuel; [attempts] and [slept] record what it did. *)
Fixpoint retry_loop (fuel : nat) (attempt prev_delay : N) (rng : G) (w : W) (slept : list N) :
    option (result (RetryError E) T * list N * W) :=
  match fuel with
  | O => None
  | S fuel =>
      match f attempt w with
      | (Ok v, w) => Some (Ok v, slept, w)
      | (Err e, w) =>
          if bool_decide (classify e = Permanent) then Some (Err (PermanentError (attempt + 1) e), slept, w)
          else
            let el := elapsed w in
            let next_attempt := attempt + 1 in
            if negb (RetryPolicy.should_retry policy next_attempt el) then
              Some (Err (match max_elapsed policy with
                         | Some max => if max <=? el then Deadline next_attempt (as_millis el) e else LastError next_attempt e
                         | None => LastError next_attempt e
                         end), slept, w)
            else
              let '(delay, rng) := BackoffStrategy.delay_for (strategy policy) attempt prev_delay rng in
              retry_loop fuel next_attempt delay rng (sleep delay w) (slept ++ [delay])
      end
  end.
(** [max_attempts] rounds are enough ([retry_total]). *)
Definition retry (rng : G) (w : W) : option (result (RetryError E) T * list N * W) :=
  retry_loop (N.to_nat (max_attempts policy)) 0 0 rng w [].
End Retry.

(** ** The reconcile worker *)

Inductive ReconcileOutcome : Set := RDone | RRequeue (delay : N) | RRetry.
Record ReconcileLoopConfig : Set := mkReconcileLoopConfig { queue_capacity : usize; backoff : BackoffStrategy; rl_max_attempts : N }.
Definition reconcile_default : ReconcileLoopConfig :=
  mkReconcileLoopConfig 256 (SExponential 100000000 60000000000) 5.

Section Reconcile.
Context {G : Type} `{R : !Rng G} {W K E : Type}.
Context (config : ReconcileLoopConfig) (reconcile : K → W → result E ReconcileOutcome * W) (sleep : N → W → W).

(** How the work on a key ends: reached, to be sent again after a delay, or given up. *)
Inductive WorkEnd : Set := Settled | Resend (delay : N) | GivenUp.
(** The loop of [process_one]; [calls] counts the calls of the reconciler. *)
Fixpoint process_loop (fuel : nat) (key : K) (attempt prev : N) (rng : G) (w : W) (calls : N) : option (WorkEnd * N * G * W) :=
  match fuel with
  | O => None
  | S fuel =>
      match reconcile key w with
      | (Ok RDone, w) => Some (Settled, calls + 1, rng, w)
      | (Ok (RRequeue delay), w) => Some (Resend delay, calls + 1, rng, w)
      | (Ok RRetry, w) | (Err _, w) =>
          let attempt := N.min (attempt + 1) u32_max in
          if rl_max_attempts config <=? attempt then Some (GivenUp, calls + 1, rng, w)
          else
            let '(delay, rng) := BackoffStrategy.delay_for (backoff config) (attempt - 1) prev rng in
            process_loop fuel key attempt delay rng (sleep delay w) (calls + 1)
      end
  end.
Definition process_one (key : K) (rng : G) (w : W) : option (WorkEnd * N * G * W) :=
  process_loop (S (N.to_nat (rl_max_attempts config))) key 0 0 rng w 0.
End Reconcile.

(** ** Schedules grow and are capped *)

Lemma to_u32_mono x y : x ≤ y → to_u32 x ≤ to_u32 y.
Proof. unfold to_u32. intros. repeat case_N1; lia. Qed.
Lemma capped_mono base cap k k' : k ≤ k' →
  N.min (default cap (checked_mul base k)) cap ≤ N.min (default cap (checked_mul base k')) cap.
Proof.
  intros Hk. assert (base * k ≤ base * k') by (by apply N.mul_le_mono_l). unfold checked_mul.
  destruct (N.leb_spec (base * k) DURATION_MAX), (N.leb_spec (base * k') DURATION_MAX); simpl; lia.
Qed.

(** The loop of [fib] from two consecutive numbers. *)
Lemma fib_loop_mono n m a b : a ≤ b → b ≤ u64_max → (n ≤ m)%nat → fib_loop n a b ≤ fib_loop m a b.
Proof.
  revert m a b. induction n as [|n IH]; intros [|m] a b Hab Hb Hnm; cbn [fib_loop]; try lia.
  - clear Hnm. revert a b Hab Hb. induction m as [|m IH]; intros a b Hab Hb; cbn [fib_loop]; [done|].
    etrans; [apply Hab|]. apply IH; unfold saturating_add; lia.
  - apply IH; unfold saturating_add; lia.
Qed.
(** While nothing saturates, the numbers of Fibonacci. *)
Fixpoint fibonacci (n : nat) : N :=
  match n with O => 0 | S n => match n with O => 1 | S n' => fibonacci n + fibonacci n' end end.
Lemma fibonacci_SS n : fibonacci (S (S n)) = fibonacci (S n) + fibonacci n.
Proof. done. Qed.
Lemma fibonacci_mono n m : (n ≤ m)%nat → fibonacci n ≤ fibonacci m.
Proof.
  induction 1 as [|m Hm IH]; [done|]. etrans; [apply IH|]. destruct m as [|m]; [done|]. rewrite fibonacci_SS. lia.
Qed.
Lemma fib_loop_fibonacci n k : fibonacci (n + k) ≤ u64_max → fib_loop n (fibonacci k) (fibonacci (S k)) = fibonacci (n + k).
Proof.
  revert k. induction n as [|n IH]; intros k Hn; cbn [fib_loop]; [done|].
  replace (S n + k)%nat with (n + S k)%nat in * by lia.
  destruct n as [|n]; [done|]. assert (Hk : fibonacci (S (S k)) ≤ u64_max).
  { etrans; [|exact Hn]. apply fibonacci_mono. lia. }
  rewrite <- IH by done. f_equal. unfold saturating_add. rewrite fibonacci_SS in *. lia.
Qed.

Definition backoff_cap (b : Backoff) : option N :=
  match b with Constant _ => None | Linear _ cap | Exponential _ cap | Fibonacci _ cap => Some cap end.

(** Backoff schedules.  Within the range of attempts every schedule with a cap is
    monotone in the attempt and never exceeds its cap, overflow of the multiplication
    included; the Fibonacci schedule uses the true Fibonacci numbers as long as they are
    64 bit numbers. *)
Theorem backoff_monotone b n m cap :
  backoff_cap b = Some cap → n ≤ m → m < u32_max →
  Backoff.delay_for b n ≤ Backoff.delay_for b m ≤ cap ∧
  (fibonacci (S (N.to_nat m)) ≤ u64_max → fib (m + 1) = fibonacci (S (N.to_nat m))).
Proof.
  intros Hb Hnm Hm. split; [split|].
  - destruct b; simplify_eq/=; apply capped_mono, to_u32_mono.
    + unfold saturating_add. lia.
    + rewrite !N.shiftl_1_l. apply N.pow_le_mono_r; lia.
    + unfold u32_max in Hm. rewrite !N.mod_small by lia. apply fib_loop_mono; unfold u64_max; lia.
  - destruct b; simplify_eq/=; apply N.le_min_r.
  - intros Hf. unfold fib. replace (N.to_nat (m + 1)) with (S (N.to_nat m)) by lia.
    pose proof (fib_loop_fibonacci (S (N.to_nat m)) 0) as H. rewrite Nat.add_0_r in H. by apply H.
Qed.
Lemma backoff_monotone_witness :
  Backoff.delay_for (Fibonacci 10 1000) 5 ≤ Backoff.delay_for (Fibonacci 10 1000) 7 ≤ 1000 ∧
  (fibonacci (S (N.to_nat 7)) ≤ u64_max → fib (7 + 1) = fibonacci (S (N.to_nat 7))).
Proof.
  apply (backoff_monotone (Fibonacci 10 1000) 5 7 1000).
  - reflexivity.
  - lia.
  - unfold u32_max. lia.
Defined.

(** At the last attempt number the index wraps around and the delay is none. *)
Lemma fibonacci_wraps base cap : Backoff.delay_for (Fibonacci base cap) u32_max = 0.
Proof. cbn [Backoff.delay_for]. change (fib _) with 0. change (to_u32 0) with 0. unfold checked_mul. rewrite N.mul_0_r. apply N.min_0_l. Qed.

(** ** Jitter stays in its bounds *)

Section Jitter.
Context {G : Type} `{R : !Rng G} `{L : !RngLaws G}.

Definition cap_of (s : BackoffStrategy) : N :=
  match s with SConstant d => d | SExponential _ c | SFullJitter _ c | SEqualJitter _ c | SDecorrelatedJitter _ c => c end.

Lemma as_u64_le x : as_u64 x ≤ x.
Proof. unfold as_u64. by apply N.Div0.mod_le. Qed.
Lemma millis_le d : from_millis (as_millis d) ≤ d.
Proof. unfold from_millis, as_millis. pose proof (N.Div0.mul_div_le d 1000000). lia. Qed.
Lemma gen_millis g d : from_millis (gen_range g 0 (as_u64 (N.max (as_millis d) 1))).1 ≤ N.max d 1000000.
Proof.
  destruct (gen_range_in g 0 (as_u64 (N.max (as_millis d) 1))) as [_ Hx]; [lia|].
  pose proof (as_u64_le (N.max (as_millis d) 1)). pose proof (millis_le d). unfold from_millis in *. lia.
Qed.

(** Jittered delays.  Whatever the random generator answers, a delay exceeds the cap of
    its strategy by at most a millisecond, equal jitter waits at least half of the
    exponential delay, and decorrelated jitter at least the base up to the cap. *)
Theorem delay_bounds s attempt prev g :
  (BackoffStrategy.delay_for s attempt prev g).1 ≤ cap_of s + 1000000 ∧
  match s with
  | SExponential base cap => (BackoffStrategy.delay_for s attempt prev g).1 = N.min (base * 2 ^ N.min attempt 20) (N.min DURATION_MAX cap)
  | SEqualJitter base cap => N.min (base * 2 ^ N.min attempt 20) (N.min DURATION_MAX cap) / 2 ≤ (BackoffStrategy.delay_for s attempt prev g).1
  | SDecorrelatedJitter base cap => N.min (from_millis (as_u64 (as_millis base))) cap ≤ (BackoffStrategy.delay_for s attempt prev g).1
  | _ => True
  end.
Proof.
  destruct s as [d|base cap|base cap|base cap|base cap]; cbn [BackoffStrategy.delay_for cap_of];
    unfold BackoffStrategy.scaled, saturating_mul; rewrite ?N.shiftl_1_l.
  - simpl. split; [lia|done].
  - simpl. split; lia.
  - set (exp := N.min _ cap). pose proof (gen_millis g exp) as H. destruct (gen_range g 0 _) as [x g']. simpl in *. split; [lia|done].
  - set (exp := N.min (N.min _ _) cap). assert (N.min (base * 2 ^ N.min attempt 20) (N.min DURATION_MAX cap) = exp) as -> by lia.
    pose proof (gen_millis g (exp / 2)) as H. pose proof (N.Div0.mul_div_le exp 2). assert (exp ≤ cap) by lia. clearbody exp.
    destruct (gen_range g 0 _) as [x g']. simpl in *. split; lia.
  - set (lo := as_u64 (as_millis base)). set (hi := N.max _ lo). destruct (gen_range_in g lo hi) as [Hlo Hhi]; [lia|].
    destruct (gen_range g lo hi) as [x g']. simpl in *. unfold from_millis. split; lia.
Qed.
End Jitter.

(** A generator that counts, for evaluation. *)
Module CountRng.
#[export] Instance count_rng : Rng N := λ g lo hi, (lo + g mod (hi - lo + 1), g + 1).
#[export] Instance count_rng_laws : RngLaws N.
Proof.
  intros g lo hi Hle. unfold gen_range, count_rng. cbn [fst].
  pose proof (N.mod_lt g (hi - lo + 1) ltac:(lia)) as Hm. revert Hm. generalize (g mod (hi - lo + 1)). lia.
Qed.
End CountRng.
Import CountRng.

Lemma delay_bounds_witness :
  (BackoffStrategy.delay_for (SEqualJitter 3000000 5000000) 1 0 7).1 ≤ 5000000 + 1000000 ∧
  N.min (3000000 * 2 ^ N.min 1 20) (N.min DURATION_MAX 5000000) / 2 ≤
    (BackoffStrategy.delay_for (SEqualJitter 3000000 5000000) 1 0 7).1.
Proof. apply (delay_bounds (SEqualJitter 3000000 5000000) 1 0 7). Defined.

(** ** The executor *)

Section RetrySpec.
Context {G : Type} `{R : !Rng G} {W T E : Type}.
Context (policy : RetryPolicy) (classify : E → ErrorClass).
Context (f : N → W → result E T * W) (elapsed : W → N) (sleep : N → W → W).

(** What a run that tried attempts 0 to [k - 1], slept [slept] and ended in [w] may answer. *)
Definition answers (k : N) (w : W) (r : result (RetryError E) T) (last : result E T) : Prop :=
  match r with
  | Ok v => last = Ok v
  | Err (PermanentError a e) => last = Err e ∧ a = k ∧ classify e = Permanent
  | Err (LastError a e) => last = Err e ∧ a = k ∧ classify e = Transient ∧ k = max_attempts policy
  | Err (Deadline a ms e) =>
      last = Err e ∧ a = k ∧ classify e = Transient ∧
      ∃ max, max_elapsed policy = Some max ∧ max ≤ elapsed w ∧ ms = as_millis (elapsed w)
  end.

(** The attempts, each with the world it began in: every one but the last failed with a
    transient error before the deadline. *)
Inductive tried : N → W → list N → N → W → Prop :=
| tried_nil k w : tried k w [] k w
| tried_cons k w d ds k' w' e w1 :
    f k w = (Err e, w1) → classify e = Transient →
    (∀ max, max_elapsed policy = Some max → elapsed w1 < max) →
    tried (k + 1) (sleep d w1) ds k' w' → tried k w (d :: ds) k' w'.

Lemma retry_loop_spec fuel attempt prev rng w slept :
  attempt + N.of_nat fuel = max_attempts policy → (0 < fuel)%nat →
  ∃ r ds w' k wk, retry_loop policy classify f elapsed sleep fuel attempt prev rng w slept = Some (r, slept ++ ds, w') ∧
    tried attempt w ds k wk ∧ k = attempt + vlen ds ∧ k < max_attempts policy ∧
    (f k wk).2 = w' ∧ answers (k + 1) w' r (f k wk).1.
Proof.
  revert attempt prev rng w slept. induction fuel as [|fuel IH]; intros attempt prev rng w slept Hm Hf; [lia|]. cbn [retry_loop].
  assert (Hend : ∀ r w', f attempt w = (r, w') → ∀ ans, answers (attempt + 1) w' ans r →
    ∃ r' ds w'' k wk, Some (ans, slept, w') = Some (r', slept ++ ds, w'') ∧ tried attempt w ds k wk ∧
      k = attempt + vlen ds ∧ k < max_attempts policy ∧ (f k wk).2 = w'' ∧ answers (k + 1) w'' r' (f k wk).1).
  { intros r w' Hr ans Ha. exists ans, [], w', attempt, w. rewrite app_nil_r, Hr. change (vlen []) with 0.
    split_and!; [done|constructor|lia|lia|done|done]. }
  destruct (f attempt w) as [[v|e] w1] eqn:Hfa; [by eapply Hend|].
  case_bool_decide as Hcl; [by eapply Hend|].
  assert (Ht : classify e = Transient) by (destruct (classify e); done).
  unfold RetryPolicy.should_retry. destruct (N.leb_spec (max_attempts policy) (attempt + 1)) as [Hlast|Hmore].
  { eapply Hend; [done|]. destruct (max_elapsed policy) as [max|] eqn:Hmax; [destruct (N.leb_spec max (elapsed w1))|];
      simpl; split_and!; try done; try lia. by exists max. }
  assert (Hgo : negb (match max_elapsed policy with Some max => negb (max <=? elapsed w1) | None => true end) = false →
    ∀ max, max_elapsed policy = Some max → elapsed w1 < max).
  { intros Hn max Hmax. rewrite Hmax, negb_involutive in Hn. by apply N.leb_gt. }
  destruct (negb (match max_elapsed policy with Some max => _ | None => true end)) eqn:Hd.
  { eapply Hend; [done|]. destruct (max_elapsed policy) as [max|] eqn:Hmax; [|done]. rewrite negb_involutive in Hd. rewrite Hd.
    apply N.leb_le in Hd. simpl. split_and!; try done. by exists max. }
  destruct (BackoffStrategy.delay_for _ attempt prev rng) as [d rng']. specialize (Hgo eq_refl).
  destruct (IH (attempt + 1) d rng' (sleep d w1) (slept ++ [d])) as (r & ds & w' & k & wk & Hr & Htr & Hk & Hlt & Hw & Ha); [lia|lia|].
  exists r, (d :: ds), w', k, wk. rewrite Hr, <- app_assoc, vlen_cons. split_and!; [done|by econstructor|lia|done..].
Qed.

(** The retry executor.  It always returns, after at most [max_attempts] calls numbered
    from 0; every call but the last failed with a transient error before the deadline, with
    one sleep after each; and its answer is the last call's: its value, its permanent error,
    or its transient error when the attempts or the time allowed are used up. *)
Theorem retry_spec rng w :
  1 ≤ max_attempts policy →
  ∃ r slept w' k wk, retry policy classify f elapsed sleep rng w = Some (r, slept, w') ∧
    tried 0 w slept k wk ∧ k = vlen slept ∧ k < max_attempts policy ∧
    (f k wk).2 = w' ∧ answers (k + 1) w' r (f k wk).1.
Proof.
  intros Hm. destruct (retry_loop_spec (N.to_nat (max_attempts policy)) 0 0 rng w []) as (r & ds & w' & k & wk & H); [lia|lia|].
  exists r, ds, w', k, wk. by rewrite N.add_0_l in H.
Qed.
End RetrySpec.

(** An operation that fails twice and then succeeds. *)
Lemma retry_spec_witness :
  let policy := mkRetryPolicy 5 (Some 100000000) (SExponential 1000000 8000000) in
  let f := λ (k w : N), (if k <? 2 then Err tt else Ok k, w + 500) in
  ∃ r slept w' k wk, retry policy (λ _, Transient) f (λ w, w) N.add 0 0 = Some (r, slept, w') ∧
    tried policy (λ _, Transient) f (λ w, w) N.add 0 0 slept k wk ∧ k = vlen slept ∧ k < max_attempts policy ∧
    (f k wk).2 = w' ∧ answers policy (λ _, Transient) (λ w, w) (k + 1) w' r (f k wk).1.
Proof.
  intros policy f. apply (retry_spec policy (λ _, Transient) f (λ w, w) N.add 0 0). vm_compute. discriminate.
Defined.

(** ** The reconcile worker gives up *)

Section ReconcileSpec.
Context {G : Type} `{R : !Rng G} {W K E : Type}.
Context (config : ReconcileLoopConfig) (reconcile : K → W → result E ReconcileOutcome * W) (sleep : N → W → W).

Lemma process_loop_total fuel key attempt prev rng w calls :
  rl_max_attempts config ≤ u32_max → attempt = 0 ∨ attempt < rl_max_attempts config →
  N.max 1 (rl_max_attempts config - attempt) ≤ N.of_nat fuel →
  ∃ e n rng' w', process_loop config reconcile sleep fuel key attempt prev rng w calls = Some (e, n, rng', w') ∧
    n ≤ calls + N.max 1 (rl_max_attempts config - attempt) ∧
    (e = GivenUp → n = calls + N.max 1 (rl_max_attempts config - attempt)).
Proof.
  intros Hmax. revert attempt prev rng w calls. induction fuel as [|fuel IH]; intros attempt prev rng w calls Ha Hf; [lia|].
  cbn [process_loop].
  assert (Hfail : ∀ w1, ∃ e n rng' w',
    (let attempt := N.min (attempt + 1) u32_max in
     if rl_max_attempts config <=? attempt then Some (GivenUp, calls + 1, rng, w1)
     else
       let '(delay, rng) := BackoffStrategy.delay_for (backoff config) (attempt - 1) prev rng in
       process_loop config reconcile sleep fuel key attempt delay rng (sleep delay w1) (calls + 1)) = Some (e, n, rng', w') ∧
    n ≤ calls + N.max 1 (rl_max_attempts config - attempt) ∧
    (e = GivenUp → n = calls + N.max 1 (rl_max_attempts config - attempt))).
  { intros w1. cbv zeta. rewrite N.min_l by (unfold u32_max in *; lia).
    destruct (N.leb_spec (rl_max_attempts config) (attempt + 1)) as [Hle|Hgt].
    - eexists _, _, _, _. split_and!; [done|lia|intros _; lia].
    - destruct (BackoffStrategy.delay_for _ _ prev rng) as [d rng'].
      destruct (IH (attempt + 1) d rng' (sleep d w1) (calls + 1)) as (e & n & r & w' & -> & Hn & Hg); [lia|lia|].
      eexists _, _, _, _. split_and!; [done|lia|]. intros ->. rewrite Hg by done. lia. }
  destruct (reconcile key w) as [[[|delay|]|e] w1]; [| |apply Hfail|apply Hfail]; eexists _, _, _, _; split_and!; (done || lia).
Qed.

(** The reconcile worker.  The work on a key always ends, after at most [max_attempts]
    calls of the reconciler (one when that is 0); it is given up only when all of them
    failed. *)
Theorem process_one_bounded key rng w :
  rl_max_attempts config ≤ u32_max →
  ∃ e n rng' w', process_one config reconcile sleep key rng w = Some (e, n, rng', w') ∧
    n ≤ N.max 1 (rl_max_attempts config) ∧ (e = GivenUp → n = N.max 1 (rl_max_attempts config)).
Proof.
  intros Hm. destruct (process_loop_total (S (N.to_nat (rl_max_attempts config))) key 0 0 rng w 0 Hm) as (e & n & r & w' & H);
    [by left|lia|]. exists e, n, r, w'. by rewrite N.sub_0_r, N.add_0_l in H.
Qed.
End ReconcileSpec.

Lemma process_one_bounded_witness :
  let config := mkReconcileLoopConfig 16 (SConstant 5) 3 in
  let reconcile := λ (key w : N), (Err tt, w + 1) in
  ∃ e n rng' w', process_one config reconcile N.add 9 0 0 = Some (e, n, rng', w') ∧
    n ≤ N.max 1 (rl_max_attempts config) ∧ (e = GivenUp → n = N.max 1 (rl_max_attempts config)).
Proof. intros config reconcile. apply (process_one_bounded config reconcile N.add 9 0 0). vm_compute. discriminate. Defined.
