(* ===== verification/KernelLimiter.v ===== *)
(** * Rate limiters of cave-kernel

    [crates/core/cave-kernel/src/ratelimiter.rs]: the token bucket, the leaky bucket and the
    buckets per tenant.  Levels are [f64] (Float.v), instants and durations nanoseconds.  The
    methods without [_at] pass the present instant; [acquire] sleeps between rounds of
    [acquire_round]. *)

From Stdlib Require Import ZArith SpecFloat.
From S2P Require Import Prelude Bytes Float.

Definition nanos_per_sec : N := 1000000000.
Definition f64_1e9 : f64 := f64_of_N 1000000000.
(** [Duration::as_secs_f64] *)
Definition as_secs_f64 (d : N) : f64 :=
  f64_add (f64_of_N (d / nanos_per_sec)) (f64_div (f64_of_N (d mod nanos_per_sec)) f64_1e9).
(** [m * 2^e * 10^9], rounded to nearest, ties to even *)
Definition to_nanos (m : positive) (e : Z) : N :=
  let p := Npos m * nanos_per_sec in
  if (0 <=? e)%Z then N.shiftl p (Z.to_N e)
  else
    let q := 2 ^ Z.to_N (- e) in
    let lo := p / q in
    let r := 2 * (p mod q) in
    if r <? q then lo else if q <? r then lo + 1 else if N.even lo then lo else lo + 1.
(** [Duration::from_secs_f64]; [None] is its panic on negative numbers, overflow and NaN. *)
Definition from_secs_f64 (x : f64) : option N :=
  match x with
  | S754_zero _ => Some 0
  | S754_finite false m e =>
      let n := to_nanos m e in if n <? u64_modulus * nanos_per_sec then Some n else None
  | _ => None
  end.
Definition saturating_duration_since (now earlier : N) : N := now - earlier.
Definition f64_one : f64 := f64_of_N 1.
(** [f64::EPSILON] *)
Definition f64_epsilon : f64 := S754_finite false 4503599627370496 (-104).

(** ** Token bucket *)

Record TokenBucketConfig : Set := mkTokenBucketConfig { capacity : f64; refill_per_sec : f64 }.
Record TokenBucket : Set := mkTokenBucket { tb_cfg : TokenBucketConfig; tokens : f64; last_refill : N }.

Module TokenBucketConfig.
(** [None]: an assertion fails. *)
Definition new (cap refill : f64) : option TokenBucketConfig :=
  if negb (f64_lt f64_zero cap) then None
  else if negb (f64_lt f64_zero refill) then None
  else Some (mkTokenBucketConfig cap refill).
End TokenBucketConfig.

Module TokenBucket.

Definition new (c : TokenBucketConfig) (now : N) : TokenBucket := mkTokenBucket c (capacity c) now.

Definition refill_locked (b : TokenBucket) (now : N) : TokenBucket :=
  let elapsed := saturating_duration_since now (last_refill b) in
  let added := f64_mul (as_secs_f64 elapsed) (refill_per_sec (tb_cfg b)) in
  mkTokenBucket (tb_cfg b) (f64_min (f64_add (tokens b) added) (capacity (tb_cfg b))) now.

Definition spend (b : TokenBucket) (n : f64) : TokenBucket :=
  mkTokenBucket (tb_cfg b) (f64_sub (tokens b) n) (last_refill b).

Definition try_consume_at (b : TokenBucket) (n : f64) (now : N) : bool * TokenBucket :=
  if f64_le n f64_zero then (true, b)
  else
    let b := refill_locked b now in
    if f64_ge (tokens b) n then (true, spend b n) else (false, b).

(** [Err] is the time to wait; [None] a panic. *)
Definition try_consume_or_retry_at (b : TokenBucket) (n : f64) (now : N) : option (result N unit) * TokenBucket :=
  if f64_le n f64_zero then (Some (Ok tt), b)
  else
    let b := refill_locked b now in
    if f64_ge (tokens b) n then (Some (Ok tt), spend b n)
    else
      let deficit := f64_sub n (tokens b) in
      let wait_secs := f64_div deficit (refill_per_sec (tb_cfg b)) in
      ((λ wait, Err (N.max wait 1000000)) <$> from_secs_f64 wait_secs, b).

Definition available_at (b : TokenBucket) (now : N) : f64 * TokenBucket :=
  let b := refill_locked b now in (tokens b, b).

(** One round of [acquire]: the tokens are taken, or a sleep is due ([None]: the duration
    cannot be made). *)
Inductive Round : Set := Taken | SleepFor (d : option N).
Definition acquire_round (b : TokenBucket) (n : f64) (now : N) : Round * TokenBucket :=
  let b := refill_locked b now in
  if f64_ge (tokens b) n then (Taken, spend b n)
  else
    let needed := f64_div (f64_sub n (tokens b)) (refill_per_sec (tb_cfg b)) in
    let milli := f64_div f64_one (f64_of_N 1000) in
    (SleepFor (from_secs_f64 (f64_min (f64_max needed milli) f64_one)), b).

End TokenBucket.

(** ** Leaky bucket *)

Record LeakyBucketConfig : Set := mkLeakyBucketConfig { queue_size : usize; leak_per_sec : f64 }.
Record LeakyBucket : Set := mkLeakyBucket { lb_cfg : LeakyBucketConfig; level : f64; last_leak : N }.

Module LeakyBucketConfig.
Definition new (size : usize) (leak : f64) : option LeakyBucketConfig :=
  if size =? 0 then None
  else if negb (f64_lt f64_zero leak) then None
  else Some (mkLeakyBucketConfig size leak).
End LeakyBucketConfig.

Module LeakyBucket.

Definition new (c : LeakyBucketConfig) (now : N) : LeakyBucket := mkLeakyBucket c f64_zero now.

Definition drain_locked (b : LeakyBucket) (now : N) : LeakyBucket :=
  let elapsed := as_secs_f64 (saturating_duration_since now (last_leak b)) in
  mkLeakyBucket (lb_cfg b) (f64_max (f64_sub (level b) (f64_mul elapsed (leak_per_sec (lb_cfg b)))) f64_zero) now.

Definition try_offer_at (b : LeakyBucket) (now : N) : bool * LeakyBucket :=
  let b := drain_locked b now in
  if f64_le (f64_add (level b) f64_one) (f64_add (f64_of_N (queue_size (lb_cfg b))) f64_epsilon)
  then (true, mkLeakyBucket (lb_cfg b) (f64_add (level b) f64_one) (last_leak b))
  else (false, b).

Definition level_at (b : LeakyBucket) (now : N) : f64 * LeakyBucket :=
  let b := drain_locked b now in (level b, b).

End LeakyBucket.

(** ** One bucket per tenant *)

(** The map holds handles on shared buckets; [pt_heap] is what they point to. *)
Record PerTenant (B : Type) : Type := mkPerTenant { pt_map : gmap bytes nat; pt_heap : gmap nat B }.
Arguments mkPerTenant {B} _ _.
Arguments pt_map {B} _.
Arguments pt_heap {B} _.

Module PerTenant.
Section Factory.
Context {B : Type} (make : bytes → B).

Definition new : PerTenant B := mkPerTenant ∅ ∅.
Definition for_tenant (p : PerTenant B) (tenant_id : bytes) : nat * PerTenant B :=
  match pt_map p !! tenant_id with
  | Some h => (h, p)
  | None =>
      let h := fresh (dom (pt_heap p)) in
      (h, mkPerTenant (<[tenant_id := h]> (pt_map p)) (<[h := make tenant_id]> (pt_heap p)))
  end.
Definition known_tenants (p : PerTenant B) : list bytes := merge_sort bytes_le (elements (dom (pt_map p))).
End Factory.
End PerTenant.

(** ** A grant is at most the capacity *)

Definition config_ok (c : TokenBucketConfig) : Prop := f64_is_nan (capacity c) = false.

Lemma refill_within b now : config_ok (tb_cfg b) →
  f64_le (tokens (TokenBucket.refill_locked b now)) (capacity (tb_cfg b)) = true.
Proof. intros Hc. by apply f64_min_le. Qed.

(** Bursts are bounded.  No call, at whatever instants and after whatever history, is
    granted more tokens at once than the bucket's capacity; what is available never exceeds
    the capacity either. *)
Theorem grant_within_capacity b n now :
  config_ok (tb_cfg b) →
  ((TokenBucket.try_consume_at b n now).1 = true → f64_le n f64_zero = true ∨ f64_le n (capacity (tb_cfg b)) = true) ∧
  ((TokenBucket.acquire_round b n now).1 = TokenBucket.Taken → f64_le n (capacity (tb_cfg b)) = true) ∧
  f64_le (TokenBucket.available_at b now).1 (capacity (tb_cfg b)) = true.
Proof.
  intros Hc. pose proof (refill_within b now Hc) as Hr. split_and!; [| |exact Hr].
  - unfold TokenBucket.try_consume_at. destruct (f64_le n f64_zero); [by left|]. cbv zeta.
    destruct (f64_ge (tokens (TokenBucket.refill_locked b now)) n) eqn:Hg; [|done]. intros _. right. by eapply f64_le_trans.
  - unfold TokenBucket.acquire_round. cbv zeta.
    destruct (f64_ge (tokens (TokenBucket.refill_locked b now)) n) eqn:Hg; [|done]. intros _. by eapply f64_le_trans.
Qed.
Lemma grant_within_capacity_witness :
  let b := TokenBucket.new (mkTokenBucketConfig (f64_of_N 10) (f64_of_N 5)) 0 in
  (TokenBucket.try_consume_at b (f64_of_N 7) 3).1 = true ∧ f64_le (f64_of_N 7) (capacity (tb_cfg b)) = true.
Proof.
  intros b. destruct (grant_within_capacity b (f64_of_N 7) 3) as [H _]; [vm_compute; reflexivity|].
  split; [vm_compute; reflexivity|]. destruct H as [H|H]; [vm_compute; reflexivity|vm_compute in H; discriminate H|exact H].
Defined.

(** An instant taken before another thread's refill turns the clock of the bucket back: the
    five seconds between are paid out twice. *)
Lemma late_instant_refills_twice :
  let b := mkTokenBucket (mkTokenBucketConfig (f64_of_N 10) (f64_of_N 1)) f64_zero 0 in
  let '(g1, b) := TokenBucket.try_consume_at b (f64_of_N 5) 5000000000 in
  let '(g2, b) := TokenBucket.try_consume_at b (f64_of_N 1) 0 in
  let '(g3, b) := TokenBucket.try_consume_at b (f64_of_N 5) 5000000000 in
  (g1, g2, g3) = (true, false, true).
Proof. vm_compute. reflexivity. Qed.

(** ** Tenants are isolated *)

Section Isolation.
Context {B : Type} (make : bytes → B).

(** Every tenant has a handle of its own on a bucket that exists. *)
Definition isolated (p : PerTenant B) : Prop :=
  (∀ t h, pt_map p !! t = Some h → h ∈ dom (pt_heap p)) ∧
  (∀ t t' h, pt_map p !! t = Some h → pt_map p !! t' = Some h → t = t').

(** A call for a tenant: its bucket is looked up (or made) and changed by [f]. *)
Definition on_tenant (p : PerTenant B) (t : bytes) (f : B → B) : PerTenant B :=
  let '(h, p) := PerTenant.for_tenant make p t in mkPerTenant (pt_map p) (alter f h (pt_heap p)).
Definition bucket (p : PerTenant B) (t : bytes) : option B := pt_map p !! t ≫= λ h, pt_heap p !! h.

Lemma for_tenant_spec p t : isolated p →
  let '(h, p') := PerTenant.for_tenant make p t in
  isolated p' ∧ pt_map p' !! t = Some h ∧ bucket p' t = Some (default (make t) (bucket p t)) ∧
  (∀ t', t' ≠ t → bucket p' t' = bucket p t').
Proof.
  intros [Hin Hinj]. unfold PerTenant.for_tenant, bucket. destruct (pt_map p !! t) as [h|] eqn:Ht.
  - simpl. destruct (pt_heap p !! h) as [b|] eqn:Hb; [|apply Hin, elem_of_dom in Ht as [? ?]; congruence].
    split_and!; [done|done|by rewrite Ht; simpl; rewrite Hb|done].
  - assert (Hf : fresh (dom (pt_heap p)) ∉ dom (pt_heap p)) by apply is_fresh. revert Hf. generalize (fresh (dom (pt_heap p))) as h.
    intros h Hf. split_and!; simpl.
    + split; simpl.
      * intros t' h' [[_ <-]|[_ Hh]]%lookup_insert_Some; rewrite dom_insert; [set_solver|]. apply Hin in Hh. set_solver.
      * intros t1 t2 h' [[<- <-]|[H1 Hh1]]%lookup_insert_Some [[<- E]|[H2 Hh2]]%lookup_insert_Some; try done.
        -- by apply Hin in Hh2.
        -- subst h'. by apply Hin in Hh1.
        -- by eapply Hinj.
    + apply lookup_insert_eq.
    + rewrite lookup_insert_eq. simpl. apply lookup_insert_eq.
    + intros t' Hne. rewrite lookup_insert_ne by done. destruct (pt_map p !! t') as [h'|] eqn:Ht'; [|done]. simpl.
      rewrite lookup_insert_ne; [done|]. intros <-. by apply Hin in Ht'.
Qed.

(** Tenants do not interfere.  A call for one tenant changes that tenant's bucket only,
    starting from a fresh one the first time, whatever the calls before it were. *)
Theorem tenants_isolated (calls : list (bytes * (B → B))) t f :
  let p := foldl (λ p c, on_tenant p c.1 c.2) PerTenant.new calls in
  bucket (on_tenant p t f) t = Some (f (default (make t) (bucket p t))) ∧
  ∀ t', t' ≠ t → bucket (on_tenant p t f) t' = bucket p t'.
Proof.
  assert (Hstep : ∀ p t f, isolated p →
    isolated (on_tenant p t f) ∧ bucket (on_tenant p t f) t = Some (f (default (make t) (bucket p t))) ∧
    ∀ t', t' ≠ t → bucket (on_tenant p t f) t' = bucket p t').
  { clear. intros p t f Hp. unfold on_tenant. pose proof (for_tenant_spec p t Hp) as H. destruct (PerTenant.for_tenant make p t) as [h p'].
    destruct H as ([Hin Hinj] & Hm & Hb & Ho). split_and!.
    - split; simpl; [|done]. intros t' h' Hh. rewrite dom_alter. eauto.
    - unfold bucket in *. simpl. rewrite Hm in *. simpl in *. by rewrite lookup_alter_eq, Hb.
    - intros t' Hne. rewrite <- Ho by done. unfold bucket. simpl. destruct (pt_map p' !! t') as [h'|] eqn:Ht'; [|done]. simpl.
      apply lookup_alter_ne. intros <-. apply Hne. by eapply Hinj. }
  intros p. cut (isolated p); [intros Hp; by destruct (Hstep p t f Hp) as (_ & ? & ?)|].
  unfold p. induction calls as [|[t' f'] calls IH] using rev_ind; [by split; simpl; intros *; rewrite lookup_empty|].
  rewrite foldl_app. simpl. by apply Hstep.
Qed.
End Isolation.
