(* ===== verification/VaultField.v ===== *)
(** * The field GF(256) of cave-vault

    The byte arithmetic of crates/security/cave-vault/src/shamir.rs ([gf_mul], [gf_pow],
    [gf_inv]) and of core/seal.rs (Module [Seal]), and the algebra the secret sharing needs:
    bytes with [lxor] and [gf_mul] are a field, the two multiplications are one, a polynomial
    with as many roots as coefficients is zero, and interpolation reaches every value.

    Commutativity and the inverse are checked on all bytes; the other laws follow from the
    linearity of doubling ([xtime]).  The field is then the type [gf] of bytes with their
    bound, a commutative ring for [ring]. *)

From S2P Require Import Prelude Bytes.
From Stdlib Require Import Ring Eqdep_dec.

(** ** The code *)

(** [carry = a & 0x80; a <<= 1; if carry != 0 { a ^= 0x1b }] *)
Definition xtime (a : u8) : u8 :=
  let carry := N.land a 128 in
  let a := N.land (N.shiftl a 1) 255 in
  if carry =? 0 then a else N.lxor a 27.

(** [while b != 0]; a byte is 0 after eight shifts. *)
Fixpoint gf_mul_loop (fuel : nat) (a b result : u8) : u8 :=
  match fuel with
  | O => result
  | S fuel =>
      if b =? 0 then result
      else gf_mul_loop fuel (xtime a) (N.shiftr b 1) (if N.land b 1 =? 0 then result else N.lxor result a)
  end.
Definition gf_mul (a b : u8) : u8 := gf_mul_loop 8 a b 0.

Fixpoint gf_pow_loop (fuel : nat) (base exp result : u8) : u8 :=
  match fuel with
  | O => result
  | S fuel =>
      if exp =? 0 then result
      else gf_pow_loop fuel (gf_mul base base) (N.shiftr exp 1) (if N.land exp 1 =? 0 then result else gf_mul result base)
  end.
Definition gf_pow (base exp : u8) : u8 := gf_pow_loop 8 base exp 1.

(** [None]: the assertion fails. *)
Definition gf_inv (x : u8) : option u8 := if x =? 0 then None else Some (gf_pow x 254).

(** The same operations as core/seal.rs writes them. *)
Module Seal.

(** [for _ in 0..8] *)
Fixpoint gf_mul_loop (rounds : nat) (a b result : u8) : u8 :=
  match rounds with
  | O => result
  | S rounds =>
      let result := if N.land b 1 =? 0 then result else N.lxor result a in
      gf_mul_loop rounds (xtime a) (N.shiftr b 1) result
  end.
Definition gf_mul (a b : u8) : u8 := gf_mul_loop 8 a b 0.

Fixpoint gf_inv_loop (fuel : nat) (base exp r : u8) : u8 :=
  match fuel with
  | O => r
  | S fuel =>
      if exp =? 0 then r
      else gf_inv_loop fuel (gf_mul base base) (N.shiftr exp 1) (if N.land exp 1 =? 0 then r else gf_mul r base)
  end.
Definition gf_inv (a : u8) : u8 := if a =? 0 then 0 else gf_inv_loop 8 a 254 1.

(** [None]: the explicit panic. *)
Definition gf_div (a b : u8) : option u8 :=
  if b =? 0 then None else if a =? 0 then Some 0 else Some (gf_mul a (gf_inv b)).
End Seal.

(** ** Bytes *)

Definition all_bytes : list N := N.of_nat <$> seq 0 256.

Lemma elem_of_all_bytes b : b < 256 → b ∈ all_bytes.
Proof. intros Hb. apply list_elem_of_fmap. exists (N.to_nat b). rewrite N2Nat.id, elem_of_seq. split; [done|lia]. Qed.
Lemma check_bytes (P : N → bool) : forallb P all_bytes = true → ∀ b, b < 256 → P b = true.
Proof. intros H b Hb. apply (proj1 (forallb_forall P all_bytes) H), list_elem_of_In, elem_of_all_bytes, Hb. Qed.
Lemma check_pairs (P : N → N → bool) :
  forallb (λ a, forallb (P a) all_bytes) all_bytes = true → ∀ a b, a < 256 → b < 256 → P a b = true.
Proof. intros H a b Ha. by apply check_bytes, (check_bytes (λ a, forallb (P a) all_bytes)). Qed.

Lemma lxor_byte a b : a < 256 → b < 256 → N.lxor a b < 256.
Proof.
  intros Ha Hb. apply (N.ltb_lt). revert a b Ha Hb. apply check_pairs. vm_compute. reflexivity.
Qed.
Lemma xtime_byte a : a < 256 → xtime a < 256.
Proof. intros Ha. apply N.ltb_lt. revert a Ha. apply check_bytes. vm_compute. reflexivity. Qed.
Lemma xtime_lxor a b : a < 256 → b < 256 → xtime (N.lxor a b) = N.lxor (xtime a) (xtime b).
Proof. intros Ha Hb. apply N.eqb_eq. revert a b Ha Hb. apply check_pairs. vm_compute. reflexivity. Qed.
Lemma gf_mul_comm_byte a b : a < 256 → b < 256 → gf_mul a b = gf_mul b a.
Proof. intros Ha Hb. apply N.eqb_eq. revert a b Ha Hb. apply check_pairs. vm_compute. reflexivity. Qed.
Lemma gf_inv_byte a : a < 256 → a ≠ 0 → gf_mul a (gf_pow a 254) = 1.
Proof.
  intros Ha Hz. assert (H : (a =? 0) || (gf_mul a (gf_pow a 254) =? 1) = true).
  { revert a Ha Hz. assert (H := check_bytes (λ a, (a =? 0) || (gf_mul a (gf_pow a 254) =? 1))).
    intros a Ha _. apply H; [vm_compute; reflexivity|done]. }
  apply orb_true_iff in H as [H|H]; by apply N.eqb_eq in H.
Qed.

(** ** Multiplication, as a sum of doublings *)

Lemma mul_loop_byte n a b r : a < 256 → r < 256 → gf_mul_loop n a b r < 256.
Proof.
  revert a b r. induction n as [|n IH]; intros a b r Ha Hr; [done|]. cbn [gf_mul_loop]. destruct (b =? 0); [done|].
  apply IH; [by apply xtime_byte|]. destruct (_ =? 0); [done|by apply lxor_byte].
Qed.
Lemma gf_mul_byte a b : a < 256 → gf_mul a b < 256.
Proof. intros. by apply mul_loop_byte. Qed.
Lemma gf_pow_loop_byte n a e r : a < 256 → r < 256 → gf_pow_loop n a e r < 256.
Proof.
  revert a e r. induction n as [|n IH]; intros a e r Ha Hr; [done|]. cbn [gf_pow_loop]. destruct (e =? 0); [done|].
  apply IH; [by apply gf_mul_byte|]. destruct (_ =? 0); [done|by apply gf_mul_byte].
Qed.

Lemma mul_loop_acc n a b r : gf_mul_loop n a b r = N.lxor r (gf_mul_loop n a b 0).
Proof.
  revert a b r. induction n as [|n IH]; intros a b r; cbn [gf_mul_loop]; [by rewrite N.lxor_0_r|].
  destruct (b =? 0); [by rewrite N.lxor_0_r|]. destruct (_ =? 0); [apply IH|]. rewrite IH, (IH _ _ (N.lxor 0 a)). by rewrite N.lxor_0_l, N.lxor_assoc.
Qed.
Lemma lxor_swap a b c d : N.lxor (N.lxor a b) (N.lxor c d) = N.lxor (N.lxor a c) (N.lxor b d).
Proof. rewrite !N.lxor_assoc. f_equal. by rewrite <- !N.lxor_assoc, (N.lxor_comm b c). Qed.
Lemma mul_loop_lxor n a a' b r r' : a < 256 → a' < 256 →
  gf_mul_loop n (N.lxor a a') b (N.lxor r r') = N.lxor (gf_mul_loop n a b r) (gf_mul_loop n a' b r').
Proof.
  revert a a' b r r'. induction n as [|n IH]; intros a a' b r r' Ha Ha'; [done|]. cbn [gf_mul_loop].
  destruct (b =? 0); [done|]. rewrite xtime_lxor by done.
  rewrite <- IH by (by apply xtime_byte). f_equal. destruct (_ =? 0); [done|apply lxor_swap].
Qed.
Lemma gf_mul_lxor_l a a' b : a < 256 → a' < 256 → gf_mul (N.lxor a a') b = N.lxor (gf_mul a b) (gf_mul a' b).
Proof. intros Ha Ha'. unfold gf_mul. by rewrite <- (mul_loop_lxor 8 a a' b 0 0). Qed.
Lemma gf_mul_lxor_r a b b' : a < 256 → b < 256 → b' < 256 → gf_mul a (N.lxor b b') = N.lxor (gf_mul a b) (gf_mul a b').
Proof.
  intros Ha Hb Hb'. rewrite (gf_mul_comm_byte a), gf_mul_lxor_l, (gf_mul_comm_byte b), (gf_mul_comm_byte b') by (done || by apply lxor_byte).
  done.
Qed.
Lemma mul_loop_xtime n a b r : a < 256 → r < 256 → gf_mul_loop n (xtime a) b (xtime r) = xtime (gf_mul_loop n a b r).
Proof.
  revert a b r. induction n as [|n IH]; intros a b r Ha Hr; [done|]. cbn [gf_mul_loop]. destruct (b =? 0); [done|].
  rewrite <- IH; [|by apply xtime_byte|by destruct (_ =? 0); [|apply lxor_byte]]. f_equal.
  destruct (_ =? 0); [done|by rewrite xtime_lxor].
Qed.
Lemma gf_mul_xtime_r a b : a < 256 → b < 256 → gf_mul a (xtime b) = xtime (gf_mul a b).
Proof.
  intros Ha Hb. rewrite (gf_mul_comm_byte a b), (gf_mul_comm_byte a) by (done || by apply xtime_byte).
  exact (mul_loop_xtime 8 b a 0 Hb eq_refl).
Qed.
(** [a * (b * c)] doubles [a * b] where [b * c] doubles [b]. *)
Lemma gf_mul_loop_assoc n a b c r : a < 256 → b < 256 → r < 256 →
  gf_mul a (gf_mul_loop n b c r) = gf_mul_loop n (gf_mul a b) c (gf_mul a r).
Proof.
  revert b c r. induction n as [|n IH]; intros b c r Ha Hb Hr; [done|]. cbn [gf_mul_loop]. destruct (c =? 0); [done|].
  rewrite IH; [|done|by apply xtime_byte|by destruct (_ =? 0); [|apply lxor_byte]]. rewrite gf_mul_xtime_r by done.
  f_equal. destruct (_ =? 0); [done|by apply gf_mul_lxor_r].
Qed.
Lemma gf_mul_0_l b : gf_mul 0 b = 0.
Proof. unfold gf_mul. cbn [gf_mul_loop]. repeat (destruct (_ =? 0); try done). Qed.
Lemma gf_mul_assoc_byte a b c : a < 256 → b < 256 → c < 256 → gf_mul a (gf_mul b c) = gf_mul (gf_mul a b) c.
Proof.
  intros Ha Hb Hc. unfold gf_mul at 2. rewrite gf_mul_loop_assoc by done.
  rewrite (gf_mul_comm_byte a 0), gf_mul_0_l by done. reflexivity.
Qed.

(** ** The loops agree *)

Lemma mul_loop_done n a r : Seal.gf_mul_loop n a 0 r = r.
Proof. revert a. induction n as [|n IH]; intros a; [done|]. apply IH. Qed.
Lemma gf_mul_loops n a b r : gf_mul_loop n a b r = Seal.gf_mul_loop n a b r.
Proof.
  revert a b r. induction n as [|n IH]; intros a b r; [done|]. cbn [gf_mul_loop].
  destruct (N.eqb_spec b 0) as [->|]; [symmetry; apply (mul_loop_done (S n))|]. cbn [Seal.gf_mul_loop]. apply IH.
Qed.
(** The two multiplications of the crate are one. *)
Lemma gf_mul_agree a b : Seal.gf_mul a b = gf_mul a b.
Proof. symmetry. apply gf_mul_loops. Qed.
Lemma gf_pow_loops n a e r : Seal.gf_inv_loop n a e r = gf_pow_loop n a e r.
Proof.
  revert a e r. induction n as [|n IH]; intros a e r; [done|]. cbn [gf_pow_loop Seal.gf_inv_loop].
  destruct (e =? 0); [done|]. rewrite IH, gf_mul_agree. f_equal. destruct (_ =? 0); [done|apply gf_mul_agree].
Qed.
Lemma gf_inv_agree a : a ≠ 0 → Seal.gf_inv a = gf_pow a 254.
Proof. intros Ha%N.eqb_neq. unfold Seal.gf_inv. rewrite Ha. apply gf_pow_loops. Qed.

(** ** The field *)

Record gf : Set := mk_gf { gv : N; gv_ltb : (gv <? 256) = true }.

Lemma gf_eq (x y : gf) : gv x = gv y → x = y.
Proof.
  destruct x as [x Hx], y as [y Hy]. cbn. intros ->. f_equal. apply UIP_dec, bool_dec.
Qed.
Lemma gv_byte x : gv x < 256.
Proof. apply N.ltb_lt, gv_ltb. Qed.
#[export] Instance gf_eq_dec : EqDecision gf.
Proof. intros x y. destruct (decide (gv x = gv y)) as [H|H]; [left; by apply gf_eq|right; congruence]. Defined.

Definition to_gf (n : N) : gf := mk_gf (n mod 256) (proj2 (N.ltb_lt _ _) (N.mod_lt n 256 ltac:(discriminate))).
Lemma gv_to_gf n : n < 256 → gv (to_gf n) = n.
Proof. apply N.mod_small. Qed.
Lemma to_gf_gv x : to_gf (gv x) = x.
Proof. apply gf_eq, gv_to_gf, gv_byte. Qed.

Definition gadd (x y : gf) : gf := mk_gf (N.lxor (gv x) (gv y)) (proj2 (N.ltb_lt _ _) (lxor_byte _ _ (gv_byte x) (gv_byte y))).
Definition gmul (x y : gf) : gf := mk_gf (gf_mul (gv x) (gv y)) (proj2 (N.ltb_lt _ _) (gf_mul_byte _ _ (gv_byte x))).
Definition ginv (x : gf) : gf := to_gf (gf_pow (gv x) 254).
Definition g0 : gf := to_gf 0.
Definition g1 : gf := to_gf 1.

Declare Scope gf_scope.
Delimit Scope gf_scope with gf.
Bind Scope gf_scope with gf.
Infix "+" := gadd : gf_scope.
Infix "*" := gmul : gf_scope.

Lemma gv_add x y : gv (x + y)%gf = N.lxor (gv x) (gv y).
Proof. done. Qed.
Lemma gv_mul x y : gv (x * y)%gf = gf_mul (gv x) (gv y).
Proof. done. Qed.
Lemma gadd_self x : (x + x)%gf = g0.
Proof. apply gf_eq. apply N.lxor_nilpotent. Qed.
Lemma gf_mul_1_l b : b < 256 → gf_mul 1 b = b.
Proof. intros Hb. apply N.eqb_eq. revert b Hb. apply check_bytes. vm_compute. reflexivity. Qed.

Lemma gf_ring : ring_theory g0 g1 gadd gmul gadd id eq.
Proof.
  split; intros; apply gf_eq; cbn [gv gadd gmul]; try pose proof (gv_byte x); try pose proof (gv_byte y); try pose proof (gv_byte z).
  - apply N.lxor_0_l.
  - apply N.lxor_comm.
  - by rewrite N.lxor_assoc.
  - by apply gf_mul_1_l.
  - by apply gf_mul_comm_byte.
  - by apply gf_mul_assoc_byte.
  - by apply gf_mul_lxor_l.
  - done.
  - by rewrite N.lxor_nilpotent.
Qed.
Add Ring gf_as_ring : gf_ring.

Lemma gmul_inv x : x ≠ g0 → (x * ginv x)%gf = g1.
Proof.
  intros Hx. apply gf_eq. change (gf_mul (gv x) (gv (to_gf (gf_pow (gv x) 254))) = 1).
  rewrite gv_to_gf by (apply gf_pow_loop_byte; [apply gv_byte|done]).
  apply gf_inv_byte; [apply gv_byte|]. intros H. apply Hx, gf_eq. by rewrite H.
Qed.
Lemma gmul_integral x y : (x * y)%gf = g0 → x = g0 ∨ y = g0.
Proof.
  intros H. destruct (decide (x = g0)) as [|Hx]; [by left|right].
  transitivity (ginv x * (x * y))%gf; [|rewrite H; ring].
  transitivity (x * ginv x * y)%gf; [rewrite gmul_inv by done; ring|ring].
Qed.
Lemma gadd_eq_0 x y : (x + y)%gf = g0 → x = y.
Proof. intros H. transitivity (x + y + y)%gf; [|rewrite H; ring]. transitivity (x + (y + y))%gf; [rewrite gadd_self|]; ring. Qed.

(** ** Polynomials, by their coefficients, the constant one first *)

Open Scope gf_scope.
Definition peval (p : list gf) (x : gf) : gf := foldr (λ c acc, acc * x + c) g0 p.

Fixpoint padd (p q : list gf) : list gf :=
  match p, q with
  | [], _ => q
  | _, [] => p
  | a :: p, b :: q => a + b :: padd p q
  end.
Definition pscale (c : gf) (p : list gf) : list gf := (λ a, c * a) <$> p.
(** [(X + r) * p] *)
Definition pmul_lin (r : gf) (p : list gf) : list gf := padd (pscale r p) (g0 :: p).

Lemma peval_add p q x : peval (padd p q) x = peval p x + peval q x.
Proof. revert q. induction p as [|a p IH]; intros [|b q]; cbn; [ring..|]. fold (peval (padd p q) x) (peval p x) (peval q x). rewrite IH. ring. Qed.
Lemma peval_scale c p x : peval (pscale c p) x = c * peval p x.
Proof. induction p as [|a p IH]; cbn; [ring|]. fold (peval p x) (pscale c p) (peval (pscale c p) x). rewrite IH. ring. Qed.
Lemma peval_mul_lin r p x : peval (pmul_lin r p) x = (x + r) * peval p x.
Proof. unfold pmul_lin. rewrite peval_add, peval_scale. cbn. fold (peval p x). ring. Qed.
Lemma length_padd p q : length (padd p q) = Nat.max (length p) (length q).
Proof. revert q. induction p as [|a p IH]; intros [|b q]; cbn; [done..|]. by rewrite IH. Qed.
Lemma length_pmul_lin r p : length (pmul_lin r p) = S (length p).
Proof. unfold pmul_lin, pscale. rewrite length_padd, length_fmap. cbn. lia. Qed.

(** Synthetic division by [X + r]: quotient and value at [r] *)
Fixpoint pdiv (r : gf) (p : list gf) : list gf :=
  match p with
  | [] => []
  | a :: p => match p with [] => [] | _ => peval p r :: pdiv r p end
  end.
Lemma length_pdiv r p : length (pdiv r p) = pred (length p).
Proof. induction p as [|a [|b p] IH]; [done..|]. cbn [pdiv length] in *. by rewrite IH. Qed.
Lemma peval_pdiv r p x : peval p x = (x + r) * peval (pdiv r p) x + peval p r.
Proof.
  induction p as [|a [|b p] IH]; [cbn; ring..|].
  change (peval (a :: b :: p) x) with (peval (b :: p) x * x + a).
  change (peval (pdiv r (a :: b :: p)) x) with (peval (pdiv r (b :: p)) x * x + peval (b :: p) r).
  change (peval (a :: b :: p) r) with (peval (b :: p) r * r + a). rewrite IH at 1.
  set (P := peval (b :: p) r). set (Q := peval (pdiv r (b :: p)) x).
  transitivity (((x + r) * Q + P) * x + a + (P * r + P * r)); [rewrite gadd_self|]; ring.
Qed.
Lemma zero_of_pdiv r p : peval p r = g0 → Forall (λ a, a = g0) (pdiv r p) → Forall (λ a, a = g0) p.
Proof.
  destruct p as [|a p]; [done|]. revert a. induction p as [|b p IH]; intros a Hr Hd.
  - cbn in Hr. constructor; [|done]. transitivity (g0 * r + a); [ring|exact Hr].
  - cbn [pdiv] in Hd. inversion Hd as [|? ? Hb Hd']; subst. specialize (IH b Hb Hd').
    constructor; [|done]. change (peval (b :: p) r * r + a = g0) in Hr. change (peval (b :: p) r = g0) in Hb. rewrite Hb in Hr.
    transitivity (g0 * r + a); [ring|exact Hr].
Qed.

(** A polynomial with as many roots as coefficients is zero. *)
Lemma roots_zero rs p : NoDup rs → (length p ≤ length rs)%nat → (∀ r, r ∈ rs → peval p r = g0) → Forall (λ a, a = g0) p.
Proof.
  intros Hnd. revert p. induction Hnd as [|r rs Hr _ IH]; intros p Hl Hz; [by destruct p; [|cbn in Hl; lia]|].
  apply (zero_of_pdiv r); [apply Hz; left|]. apply IH; [rewrite length_pdiv; cbn in Hl; lia|].
  intros s Hs. pose proof (peval_pdiv r p s) as He. rewrite (Hz r), (Hz s) in He by (by left || by right).
  destruct (gmul_integral (s + r) (peval (pdiv r p) s)) as [H|H]; [rewrite He; ring| |done].
  apply gadd_eq_0 in H as ->. done.
Qed.
Lemma peval_zero p x : Forall (λ a, a = g0) p → peval p x = g0.
Proof. induction 1 as [|a p -> _ IH]; [done|]. cbn. fold (peval p x). rewrite IH. ring. Qed.

(** Two polynomials that agree on as many points as they have coefficients are equal. *)
Lemma poly_unique rs p q : NoDup rs → length p = length q → (length p ≤ length rs)%nat →
  (∀ r, r ∈ rs → peval p r = peval q r) → p = q.
Proof.
  intros Hnd Hl Hn He. assert (H : Forall (λ a, a = g0) (padd p q)).
  { apply (roots_zero rs); [done|rewrite length_padd; lia|]. intros r Hr. rewrite peval_add, He by done. apply gadd_self. }
  clear Hn He. revert q Hl H. induction p as [|a p IH]; intros [|b q] Hl H; [done..|].
  cbn in Hl, H. inversion H as [|? ? Hab H']; subst. f_equal; [by apply gadd_eq_0|]. apply IH; [lia|done].
Qed.

(** ** Interpolation *)

Definition prod (l : list gf) : gf := foldr gmul g1 l.
Definition others (x : gf) (xs : list gf) : list gf := filter (λ a, a ≠ x) xs.
Definition basis (x : gf) (xs : list gf) : list gf := foldr pmul_lin [g1] (others x xs).
Definition weight (x : gf) (xs : list gf) : gf := ginv (prod ((λ a, x + a) <$> others x xs)).
Definition interp (xs : list gf) (pts : list (gf * gf)) : list gf :=
  foldr (λ pt acc, padd (pscale (pt.2 * weight pt.1 xs) (basis pt.1 xs)) acc) [] pts.
(** The sum that [combine] computes *)
Definition lagrange (xs : list gf) (pts : list (gf * gf)) : gf :=
  foldr (λ pt acc, pt.2 * prod (others pt.1 xs) * weight pt.1 xs + acc) g0 pts.

Lemma peval_basis x xs z : peval (basis x xs) z = prod ((λ a, z + a) <$> others x xs).
Proof.
  unfold basis. induction (others x xs) as [|a l IH]; [cbn; ring|]. cbn [foldr fmap list_fmap prod].
  rewrite peval_mul_lin, IH. done.
Qed.
Lemma prod_cons a l : prod (a :: l) = a * prod l.
Proof. done. Qed.
Lemma prod_zero l : g0 ∈ l → prod l = g0.
Proof.
  induction l as [|a l IH]; [by intros ?%elem_of_nil|]. cbn. fold (prod l).
  intros [<-|H%IH]%elem_of_cons; [ring|]. rewrite H. ring.
Qed.
Lemma prod_nonzero l : g0 ∉ l → prod l ≠ g0.
Proof.
  induction l as [|a l IH]; [intros _ H; by apply (f_equal gv) in H|]. rewrite not_elem_of_cons. intros [Ha Hl] H.
  destruct (gmul_integral a (prod l) H) as [E|Hp]; [congruence|by apply IH].
Qed.
Lemma others_nonzero x xs : g0 ∉ (λ a, x + a) <$> others x xs.
Proof. intros (a & Ha & [Hx _]%list_elem_of_filter)%list_elem_of_fmap. apply Hx. symmetry. by apply gadd_eq_0. Qed.
Lemma basis_self x xs : peval (basis x xs) x * weight x xs = g1.
Proof. rewrite peval_basis. apply gmul_inv, prod_nonzero, others_nonzero. Qed.
Lemma basis_other x z xs : z ∈ xs → z ≠ x → peval (basis x xs) z = g0.
Proof.
  intros Hz Hne. rewrite peval_basis. apply prod_zero, list_elem_of_fmap. exists z. split; [symmetry; apply gadd_self|].
  by apply list_elem_of_filter.
Qed.
Lemma peval_interp xs pts z :
  peval (interp xs pts) z = foldr (λ pt acc, pt.2 * weight pt.1 xs * peval (basis pt.1 xs) z + acc) g0 pts.
Proof. induction pts as [|pt pts IH]; [done|]. cbn [interp foldr]. by rewrite peval_add, peval_scale, <- IH. Qed.
Lemma interp_zero xs pts : peval (interp xs pts) g0 = lagrange xs pts.
Proof.
  rewrite peval_interp. unfold lagrange. induction pts as [|pt pts IH]; [done|]. cbn [foldr]. rewrite IH, peval_basis.
  replace ((λ a, g0 + a) <$> others pt.1 xs) with (others pt.1 xs); [ring|].
  rewrite <- list_fmap_id at 1. apply list_fmap_ext. intros i a _. cbn. ring.
Qed.
Lemma interp_absent xs pts x : x ∈ xs → x ∉ pts.*1 → peval (interp xs pts) x = g0.
Proof.
  rewrite peval_interp. intros Hx. induction pts as [|pt pts IH]; [done|]. rewrite fmap_cons, not_elem_of_cons.
  intros [Hne Hn]. cbn [foldr]. rewrite IH, basis_other by done. ring.
Qed.
Lemma interp_value xs pts x y : x ∈ xs → NoDup (pts.*1) → (x, y) ∈ pts → peval (interp xs pts) x = y.
Proof.
  intros Hx. induction pts as [|[x' y'] pts IH]; [by intros _ ?%elem_of_nil|]. rewrite fmap_cons, NoDup_cons, elem_of_cons.
  cbn [fst]. intros [Hn Hnd] [[= <- <-]|Hin].
  - cbn [interp foldr fst snd]. rewrite peval_add, peval_scale. fold (interp xs pts). rewrite interp_absent by done.
    transitivity (y * (peval (basis x xs) x * weight x xs)); [ring|]. rewrite basis_self. ring.
  - cbn [interp foldr fst snd]. rewrite peval_add, peval_scale. fold (interp xs pts). rewrite IH, basis_other; [ring|done| |done..].
    intros ->. apply Hn, list_elem_of_fmap. by exists (x', y).
Qed.
Lemma length_basis x xs : NoDup xs → x ∈ xs → length (basis x xs) = length xs.
Proof.
  intros Hnd Hx. transitivity (S (length (others x xs))).
  { unfold basis. induction (others x xs) as [|a l IH]; [done|]. cbn [foldr length]. by rewrite length_pmul_lin, IH. }
  unfold others. induction Hnd as [|a xs Ha Hnd IH]; [by apply elem_of_nil in Hx|]. rewrite filter_cons.
  apply elem_of_cons in Hx as [->|Hx].
  - rewrite decide_False by (intros H; by apply H). cbn [length]. f_equal. rewrite filter_all; [done|].
    apply Forall_forall. by intros b Hb ->.
  - rewrite decide_True by (by intros ->). cbn [length]. f_equal. by apply IH.
Qed.
Lemma length_interp xs pts : NoDup xs → (∀ pt, pt ∈ pts → pt.1 ∈ xs) → pts ≠ [] → length (interp xs pts) = length xs.
Proof.
  intros Hnd. induction pts as [|pt pts IH]; [done|]. intros Hin _.
  change (interp xs (pt :: pts)) with (padd (pscale (pt.2 * weight pt.1 xs) (basis pt.1 xs)) (interp xs pts)).
  rewrite length_padd. unfold pscale. rewrite length_fmap, length_basis by (done || apply Hin; left).
  destruct pts as [|pt' pts]; [cbn; lia|]. rewrite IH; [lia| |done]. intros p Hp. apply Hin. by right.
Qed.

(** Interpolation at 0 from enough points of a polynomial gives its constant. *)
Lemma lagrange_constant p xs : NoDup xs → (length p ≤ length xs)%nat →
  lagrange xs ((λ x, (x, peval p x)) <$> xs) = peval p g0.
Proof.
  intros Hnd Hl. set (pts := (λ x, (x, peval p x)) <$> xs). rewrite <- interp_zero. symmetry. apply gadd_eq_0. rewrite <- peval_add.
  assert (Hk : pts.*1 = xs) by (unfold pts; rewrite <- list_fmap_compose; apply list_fmap_id).
  apply peval_zero, (roots_zero xs); [done| |].
  - rewrite length_padd. destruct xs as [|x xs]; [subst pts; cbn in *; lia|]. rewrite length_interp; [lia|done| |done].
    intros pt Hpt. rewrite <- Hk. apply list_elem_of_fmap. by exists pt.
  - intros x Hx. rewrite peval_add, (interp_value xs pts x (peval p x)); [apply gadd_self|done|by rewrite Hk|].
    apply list_elem_of_fmap. by exists x.
Qed.
Close Scope gf_scope.
