(* ===== verification/VaultShamir.v ===== *)
(** * Secret sharing and the seal of cave-vault

    [split] and [combine] of crates/security/cave-vault/src/shamir.rs, and core/seal.rs:
    [split_secret], [combine_shares] and the state machine [SealState] behind the handlers
    init, unseal and seal.

    The random bytes are an argument, in the order they are drawn.  A panic is [None].  The
    [hex] crate is a parameter with its round trip as law; the random master key, the text of
    the root token and the nonces are arguments.

    Any [threshold] different shares give the secret back ([shamir_roundtrip]); fewer say
    nothing about it: whatever the secret, each view of [threshold - 1] shares comes from
    exactly one choice of the random bytes ([shamir_secrecy]).  The two implementations of the
    crate agree, and a sealed vault fed with different shares of its own opens with its master
    key at the last of [threshold] ([unseal_quorum]). *)

From S2P Require Import Prelude Bytes VaultField.

(** ** shamir.rs *)

(** [y = 0; for &c in coeffs.iter().rev() { y = gf_mul(y, x) ^ c }] *)
Definition horner (coeffs : bytes) (x : u8) : u8 := foldl (λ y c, N.lxor (gf_mul y x) c) 0 (rev coeffs).

(** [i as u8 + 1] *)
Definition share_x (i : nat) : u8 := (N.of_nat i mod 256 + 1) mod 256.

(** One byte of the secret: a value is pushed to every share. *)
Definition push_byte (eval : bytes → u8 → u8) (coeffs : bytes) (result : list bytes) : list bytes :=
  imap (λ i share, share ++ [eval coeffs (share_x i)]) result.

(** The loop over the secret; a byte takes [n] draws. *)
Fixpoint push_bytes (eval : bytes → u8 → u8) (n : nat) (secret : bytes) (draws : bytes) (result : list bytes) : list bytes :=
  match secret with
  | [] => result
  | byte :: secret => push_bytes eval n secret (drop n draws) (push_byte eval (byte :: take n draws) result)
  end.

Definition split (secret : bytes) (threshold shares : u8) (draws : bytes) : option (list bytes) :=
  if threshold <? 2 then None
  else if shares <? threshold then None
  else if 255 <? shares then None
  else if bool_decide (secret = []) then None
  else
    let result := (λ i, [share_x i]) <$> seq 0 (N.to_nat shares) in
    Some (push_bytes horner (N.to_nat threshold - 1) secret draws result).

(** The inner loop of [combine]: numerator and denominator of one term, over the points
    [xs] from position [k] on. *)
Fixpoint term (xj : u8) (j k : nat) (xs : bytes) (num den : u8) : u8 * u8 :=
  match xs with
  | [] => (num, den)
  | xk :: xs =>
      if decide (k = j) then term xj j (S k) xs num den
      else term xj j (S k) xs (gf_mul num xk) (gf_mul den (N.lxor xj xk))
  end.

(** The terms of the values [ys] from position [j] on; [xs_j] are the points from there on. *)
Fixpoint terms (xs : bytes) (j : nat) (xs_j ys : bytes) (result : u8) : option u8 :=
  match xs_j, ys with
  | xj :: xs_j, yj :: ys =>
      let '(num, den) := term xj j 0 xs yj 1 in
      inv ← gf_inv den; terms xs (S j) xs_j ys (N.lxor result (gf_mul num inv))
  | _, _ => Some result
  end.

Definition combine (shares : list bytes) : option bytes :=
  first ← head shares;
  if bool_decide (first = []) then None
  else
    xs ← mapM head shares;
    mapM (λ byte_idx, ys ← mapM (λ s, s !! S byte_idx) shares; terms xs 0 xs ys 0) (seq 0 (length first - 1)).

(** ** seal.rs *)

Inductive VaultError : Type :=
| AlreadyInitialized
| NotInitialized
| InvalidRequest (msg : bytes)
| BadToken
| TokenNotFound
| Crypto (msg : bytes).

Module SealCode.

(** [y = coeffs[len - 1]; for &c in coeffs[..len - 1].iter().rev()] *)
Definition horner (coeffs : bytes) (x : u8) : u8 :=
  foldl (λ y c, N.lxor (Seal.gf_mul y x) c) (default 0 (last coeffs)) (rev (removelast coeffs)).

Definition split_secret (secret : bytes) (n k : u8) (draws : bytes) : result VaultError (list bytes) :=
  if (k <? 2) || (n <? k) then Err (InvalidRequest (str "invalid share parameters"))
  else
    let shares := (λ i, [i]) <$> range_incl 1 n in
    Ok (push_bytes horner (N.to_nat k - 1) secret draws shares).

(** [num] and [denom] of one term. *)
Fixpoint term (xi : u8) (i j : nat) (xs : bytes) (num denom : u8) : u8 * u8 :=
  match xs with
  | [] => (num, denom)
  | xj :: xs =>
      if decide (i = j) then term xi i (S j) xs num denom
      else term xi i (S j) xs (Seal.gf_mul num xj) (Seal.gf_mul denom (N.lxor xi xj))
  end.
Fixpoint terms (xs : bytes) (i : nat) (xs_i ys : bytes) (result : u8) : option u8 :=
  match xs_i, ys with
  | xi :: xs_i, yi :: ys =>
      let '(num, denom) := term xi i 0 xs 1 1 in
      q ← Seal.gf_div num denom; terms xs (S i) xs_i ys (N.lxor result (Seal.gf_mul yi q))
  | _, _ => Some result
  end.

(** [None]: a panic. *)
Definition combine_shares (shares : list bytes) : option (result VaultError bytes) :=
  match shares with
  | [] => Some (Err (InvalidRequest (str "no shares provided")))
  | first :: _ =>
      let secret_len := vlen first -w 1 in
      if existsb (λ s, negb (vlen s -w 1 =? secret_len)) shares then
        Some (Err (InvalidRequest (str "shares have inconsistent length")))
      else
        xs ← mapM head shares;
        Ok <$> mapM (λ byte_idx, ys ← mapM (λ s, s !! S byte_idx) shares; terms xs 0 xs ys 0) (seq 0 (N.to_nat secret_len))
  end.
End SealCode.

Inductive SealStatus : Set := Sealed | Unsealed.
#[export] Instance SealStatus_eq_dec : EqDecision SealStatus.
Proof. solve_decision. Defined.

Record SealState : Type := mkSealState {
  ss_status : SealStatus; ss_initialized : bool; ss_threshold : u8; ss_shares : u8; unseal_progress : u8;
  unseal_nonce : bytes; pending_shares : list bytes; master_key : option bytes; root_token : option bytes;
  key_shares : list bytes }.

Module SealState.
Section WithHex.
Context `{HX : !Hex}.

Definition default (nonce : bytes) : SealState := mkSealState Sealed false 0 0 0 nonce [] None None [].
Definition is_sealed (s : SealState) : bool := bool_decide (ss_status s = Sealed).

Definition validate_threshold (shares threshold : u8) : result VaultError unit :=
  if shares =? 0 then Err (InvalidRequest (str "shares must be >= 1"))
  else if threshold <? 2 then Err (InvalidRequest (str "threshold must be >= 2"))
  else if shares <? threshold then Err (InvalidRequest (str "threshold cannot exceed shares"))
  else Ok tt.

(** [key], [draws] and [token]: the master key, the coefficients and the text of the root
    token that the generator yields. *)
Definition initialize (s : SealState) (shares threshold : u8) (key draws token : bytes) :
    result VaultError (bytes * list bytes) * SealState :=
  if ss_initialized s then (Err AlreadyInitialized, s)
  else
    match validate_threshold shares threshold with
    | Err e => (Err e, s)
    | Ok _ =>
        match SealCode.split_secret key shares threshold draws with
        | Err e => (Err e, s)
        | Ok share_bytes =>
            let hex_shares := hex_encode <$> share_bytes in
            (Ok (token, hex_shares),
             mkSealState (ss_status s) true threshold shares (unseal_progress s) (unseal_nonce s) (pending_shares s)
               (master_key s) (Some token) hex_shares)
        end
    end.

Definition set_pending (p : list bytes) (s : SealState) : SealState :=
  mkSealState (ss_status s) (ss_initialized s) (ss_threshold s) (ss_shares s) (vlen p mod 256) (unseal_nonce s) p
    (master_key s) (root_token s) (key_shares s).

Definition unseal (s : SealState) (share_hex : bytes) : option (result VaultError bool * SealState) :=
  if negb (ss_initialized s) then Some (Err NotInitialized, s)
  else if negb (is_sealed s) then Some (Ok false, s)
  else
    match hex_decode share_hex with
    | None => Some (Err (InvalidRequest (str "invalid share encoding")), s)
    | Some share =>
        let s := set_pending (pending_shares s ++ [share]) s in
        if ss_threshold s <=? unseal_progress s then
          r ← SealCode.combine_shares (pending_shares s);
          Some match r with
               | Err e => (Err e, s)
               | Ok key =>
                   (Ok true, mkSealState Unsealed (ss_initialized s) (ss_threshold s) (ss_shares s) 0 (unseal_nonce s) []
                      (Some key) (root_token s) (key_shares s))
               end
        else Some (Ok false, s)
    end.

Definition seal (s : SealState) (nonce : bytes) : SealState :=
  mkSealState Sealed (ss_initialized s) (ss_threshold s) (ss_shares s) 0 nonce [] None (root_token s) (key_shares s).

(** The branch [reset] of the unseal handler of api/sys.rs *)
Definition reset (s : SealState) : SealState := set_pending [] s.
End WithHex.
End SealState.

(** ** Shares are values of polynomials *)

Definition gfs (l : bytes) : list gf := to_gf <$> l.
Lemma gv_gfs l : is_bytes l → gv <$> gfs l = l.
Proof.
  intros Hl. unfold gfs. rewrite <- list_fmap_compose. rewrite <- (list_fmap_id l) at 2. apply list_fmap_ext.
  intros i b Hb. apply gv_to_gf. by eapply Forall_lookup_1 in Hl.
Qed.
Lemma gfs_gv l : gfs (gv <$> l) = l.
Proof. unfold gfs. rewrite <- list_fmap_compose. rewrite <- (list_fmap_id l) at 2. apply list_fmap_ext. intros i b _. apply to_gf_gv. Qed.
Lemma is_bytes_gv l : is_bytes (gv <$> l).
Proof. apply Forall_fmap, Forall_true. intros x. apply gv_byte. Qed.
Lemma gfs_inj l l' : is_bytes l → is_bytes l' → gfs l = gfs l' → l = l'.
Proof. intros Hl Hl' H. by rewrite <- (gv_gfs l), <- (gv_gfs l'), H. Qed.

Lemma NoDup_gfs l : is_bytes l → NoDup l → NoDup (gfs l).
Proof.
  intros Hl Hnd. apply NoDup_fmap_2_strong; [|done]. intros x y Hx Hy H%(f_equal gv).
  rewrite !gv_to_gf in H by (by eapply Forall_forall in Hl). done.
Qed.

Lemma horner_cons c cs x : horner (c :: cs) x = N.lxor (gf_mul (horner cs x) x) c.
Proof. unfold horner. cbn [rev]. by rewrite foldl_app. Qed.
Lemma horner_peval cs x : horner (gv <$> cs) (gv x) = gv (peval cs x).
Proof. induction cs as [|c cs IH]; [done|]. rewrite fmap_cons, horner_cons, IH. done. Qed.
Lemma horner_bytes cs x : is_bytes cs → x < 256 → horner cs x = gv (peval (gfs cs) (to_gf x)).
Proof. intros Hc Hx. rewrite <- horner_peval, gv_gfs, gv_to_gf by done. done. Qed.
Lemma horner_agree cs x : SealCode.horner cs x = horner cs x.
Proof.
  unfold SealCode.horner, horner. destruct cs as [|c cs _] using rev_ind; [done|].
  rewrite last_snoc, removelast_last, rev_app_distr. cbn [rev app foldl default id]. rewrite gf_mul_0_l, N.lxor_0_l.
  generalize (rev cs) as l. generalize c. clear. intros c l. revert c. induction l as [|a l IH]; intros c; [done|].
  cbn [foldl]. by rewrite IH, gf_mul_agree.
Qed.

(** The coefficients of the bytes of the secret. *)
Fixpoint rows (n : nat) (secret draws : bytes) : list bytes :=
  match secret with
  | [] => []
  | byte :: secret => (byte :: take n draws) :: rows n secret (drop n draws)
  end.
Definition share_of (rs : list bytes) (x : u8) : bytes := x :: ((λ cs, horner cs x) <$> rs).

Lemma rows_bytes n secret draws : is_bytes secret → is_bytes draws → Forall is_bytes (rows n secret draws).
Proof.
  intros Hs. revert draws. induction Hs as [|b secret Hb _ IH]; intros draws Hd; [done|]. cbn [rows]. constructor.
  - constructor; [done|]. by apply Forall_take.
  - apply IH. by apply Forall_drop.
Qed.
Lemma rows_heads n secret draws : (λ cs, default 0 (head cs)) <$> rows n secret draws = secret.
Proof. revert draws. induction secret as [|b secret IH]; intros draws; [done|]. cbn. by rewrite IH. Qed.
Lemma rows_length n secret draws : Forall (λ cs, (length cs ≤ S n)%nat) (rows n secret draws).
Proof.
  revert draws. induction secret as [|b secret IH]; intros draws; [done|]. cbn [rows]. constructor; [|done].
  cbn [length]. rewrite length_take. lia.
Qed.

Lemma push_bytes_rows eval n secret draws result : (∀ cs x, eval cs x = horner cs x) →
  push_bytes eval n secret draws result =
  imap (λ i share, share ++ ((λ cs, horner cs (share_x i)) <$> rows n secret draws)) result.
Proof.
  intros He. revert draws result. induction secret as [|b secret IH]; intros draws result; cbn [push_bytes rows].
  - apply list_eq. intros i. rewrite list_lookup_imap. destruct (result !! i); [|done]. cbn. by rewrite app_nil_r.
  - rewrite IH. unfold push_byte. apply list_eq. intros i. rewrite !list_lookup_imap.
    destruct (result !! i) as [s|]; [|done]. cbn. by rewrite He, <- app_assoc.
Qed.

Lemma share_x_small i : (i < 255)%nat → share_x i = N.of_nat i + 1.
Proof. intros Hi. unfold share_x. rewrite (N.mod_small (N.of_nat i)) by lia. apply N.mod_small. lia. Qed.
Definition points (n : u8) : bytes := share_x <$> seq 0 (N.to_nat n).
Lemma points_range n : n < 256 → points n = range_incl 1 n.
Proof.
  intros Hn. unfold points, range_incl. replace (N.to_nat (n + 1 - 1)) with (N.to_nat n) by lia. apply list_fmap_ext.
  intros i j [-> Hj]%lookup_seq. rewrite share_x_small by lia. lia.
Qed.
Lemma elem_of_points n x : n < 256 → x ∈ points n ↔ 1 ≤ x ≤ n.
Proof. intros Hn. rewrite points_range by done. apply elem_of_range_incl. Qed.

Lemma split_shares secret t n draws shares : split secret t n draws = Some shares →
  2 ≤ t ≤ n ∧ n < 256 ∧ secret ≠ [] ∧ shares = share_of (rows (N.to_nat t - 1) secret draws) <$> points n.
Proof.
  unfold split. case_N; [done..|]. case_bool_decide; [done|]. intros [= <-]. split_and!; [lia..|done|].
  rewrite push_bytes_rows by done. unfold points. apply list_eq. intros i.
  rewrite !list_lookup_imap, !list_lookup_fmap. destruct (seq 0 (N.to_nat n) !! i) as [j|] eqn:Hj; [|done].
  apply lookup_seq in Hj as [-> _]. done.
Qed.

(** ** Interpolation by the code *)

Lemma term_past xj j k xs num den : (j < k)%nat →
  term (gv xj) j k (gv <$> xs) (gv num) (gv den) =
  (gv (num * prod xs)%gf, gv (den * prod ((λ a, xj + a) <$> xs))%gf).
Proof.
  revert k num den. induction xs as [|x xs IH]; intros k num den Hk; cbn [fmap list_fmap term].
  - f_equal; f_equal; apply gf_eq; cbn [gv gmul prod foldr]; rewrite gf_mul_comm_byte, gf_mul_1_l by (apply gv_byte || done); done.
  - rewrite decide_False, <- gv_add, <- !gv_mul, IH, !prod_cons by lia. f_equal; f_equal; ring.
Qed.
Lemma term_spec pre xj post k num den :
  term (gv xj) (k + length pre) k (gv <$> pre ++ xj :: post) (gv num) (gv den) =
  (gv (num * prod (pre ++ post))%gf, gv (den * prod ((λ a, xj + a) <$> pre ++ post))%gf).
Proof.
  revert k num den. induction pre as [|x pre IH]; intros k num den; cbn [app fmap list_fmap term length].
  - rewrite decide_True by lia. apply term_past. lia.
  - rewrite decide_False by lia. rewrite <- gv_add, <- !gv_mul.
    replace (k + S (length pre))%nat with (S k + length pre)%nat by lia. rewrite IH, !prod_cons. f_equal; f_equal; ring.
Qed.
Lemma others_split pre x post : NoDup (pre ++ x :: post) → others x (pre ++ x :: post) = pre ++ post.
Proof.
  intros Hnd%NoDup_app. destruct Hnd as (_ & Hx & Hnd%NoDup_cons). unfold others. rewrite filter_app, filter_cons_False by (intros H; by apply H).
  f_equal; apply filter_all, Forall_forall; intros y Hy ->; [eapply Hx; [done|left]|by destruct Hnd].
Qed.
Lemma gf_inv_gv d : d ≠ g0 → gf_inv (gv d) = Some (gv (ginv d)).
Proof.
  intros Hd. unfold gf_inv. destruct (N.eqb_spec (gv d) 0) as [H|H]; [by destruct Hd; apply gf_eq|].
  unfold ginv. rewrite gv_to_gf by (apply gf_pow_loop_byte; [apply gv_byte|done]). done.
Qed.
Lemma terms_lagrange pre xs ys r : NoDup (pre ++ xs) → length ys = length xs →
  terms (gv <$> pre ++ xs) (length pre) (gv <$> xs) (gv <$> ys) (gv r) =
  Some (gv (r + lagrange (pre ++ xs) (zip xs ys))%gf).
Proof.
  revert pre ys r. induction xs as [|x xs IH]; intros pre [|y ys] r Hnd Hl; try done.
  - change (Some (gv r) = Some (gv (r + g0)%gf)). do 2 f_equal. ring.
  - cbn [fmap list_fmap terms]. pose proof (term_spec pre x xs 0 y g1) as Ht. cbn [Nat.add] in Ht.
    change (gv g1) with 1 in Ht. change (list_fmap _ _ gv) with (fmap (M := list) gv). rewrite Ht.
    assert (Ho := others_split _ _ _ Hnd).
    assert (Hd : (g1 * prod ((λ a, x + a) <$> pre ++ xs))%gf ≠ g0).
    { rewrite <- Ho. intros H. destruct (gmul_integral _ _ H) as [H'|H']; [by apply (f_equal gv) in H'|].
      revert H'. apply prod_nonzero, others_nonzero. }
    rewrite gf_inv_gv by done. cbn [mbind option_bind].
    replace (g1 * prod ((λ a, x + a) <$> pre ++ xs))%gf with (prod ((λ a, x + a) <$> pre ++ xs))%gf by ring.
    set (num := (y * prod (pre ++ xs))%gf). set (w := ginv (prod ((λ a, x + a) <$> pre ++ xs))%gf).
    rewrite <- gv_mul, <- gv_add.
    pose proof (IH (pre ++ [x]) ys (r + num * w)%gf) as H.
    rewrite <- app_assoc, length_app, Nat.add_comm in H. cbn [app length Nat.add] in H. cbn [length] in Hl.
    rewrite H by (done || lia). do 2 f_equal.
    change (lagrange (pre ++ x :: xs) (zip (x :: xs) (y :: ys))) with
      (y * prod (others x (pre ++ x :: xs)) * weight x (pre ++ x :: xs) + lagrange (pre ++ x :: xs) (zip xs ys))%gf.
    unfold weight. rewrite Ho. fold w. subst num. ring.
Qed.

Lemma horner_0 b cs : is_bytes (b :: cs) → horner (b :: cs) 0 = b.
Proof.
  intros Hb. rewrite horner_bytes by done. cbn [gfs fmap list_fmap peval foldr]. inversion Hb; subst.
  transitivity (gv (to_gf b)); [|by apply gv_to_gf]. by f_equal.
Qed.

Lemma mapM_fmap_ok {A B C} (f : A → B) (g : B → option C) (h : A → C) (l : list A) :
  (∀ a, a ∈ l → g (f a) = Some (h a)) → mapM g (f <$> l) = Some (h <$> l).
Proof.
  intros H. apply mapM_Some_2, Forall2_fmap, Forall_Forall2_diag, Forall_forall. done.
Qed.
Lemma combine_spec rs sel : Forall is_bytes rs → is_bytes sel → NoDup sel → sel ≠ [] →
  Forall (λ cs, (length cs ≤ length sel)%nat) rs →
  combine (share_of rs <$> sel) = Some ((λ cs, horner cs 0) <$> rs).
Proof.
  intros Hrs Hsel Hnd Hne Hlen. unfold combine.
  assert (head (share_of rs <$> sel) = Some (share_of rs (default 0 (head sel)))) as -> by (by destruct sel).
  cbn [mbind option_bind]. rewrite bool_decide_false by done.
  rewrite (mapM_fmap_ok _ _ id) by done. rewrite list_fmap_id. cbn [mbind option_bind].
  replace (length (share_of rs (default 0%N (head sel))) - 1)%nat with (length rs) by (cbn; rewrite length_fmap; lia).
  apply mapM_Some_2, Forall2_same_length_lookup_2; [by rewrite length_seq, length_fmap|].
  intros i j y [-> Hi]%lookup_seq (cs & -> & Hcs)%list_lookup_fmap_Some. cbn [Nat.add].
  rewrite (mapM_fmap_ok _ _ (λ x, horner cs x)).
  2:{ intros x _. change (share_of rs x !! S i) with (((λ cs, horner cs x) <$> rs) !! i). by rewrite list_lookup_fmap, Hcs. }
  cbn [mbind option_bind].
  pose proof (Forall_lookup_1 _ _ _ _ Hrs Hcs) as Hb. pose proof (Forall_lookup_1 _ _ _ _ Hlen Hcs) as Hl.
  pose proof (terms_lagrange [] (gfs sel) ((λ x, peval (gfs cs) x) <$> gfs sel) g0) as Ht. cbn [app length] in Ht.
  rewrite gv_gfs, length_fmap in Ht by done. change (gv g0) with 0 in Ht.
  replace (gv <$> ((λ x, peval (gfs cs) x) <$> gfs sel)) with ((λ x, horner cs x) <$> sel) in Ht.
  2:{ unfold gfs. rewrite <- !list_fmap_compose. apply list_fmap_ext. intros k x Hx. cbn. apply horner_bytes; [done|].
      by eapply Forall_lookup_1 in Hsel. }
  rewrite Ht; [|by apply NoDup_gfs|done]. rewrite horner_bytes by done. do 2 f_equal.
  change (to_gf 0) with g0. rewrite <- (lagrange_constant (gfs cs) (gfs sel)); [|by apply NoDup_gfs|unfold gfs; by rewrite !length_fmap].
  rewrite zip_with_fmap_r, zip_with_diag. change (λ x, (x, peval (gfs cs) x)) with (λ x : gf, (x, peval (gfs cs) x)). ring.
Qed.

(** ** Enough shares *)

(** Different shares of one secret are shares at different points. *)
Lemma selected_shares rs n sub : n < 256 → NoDup sub → (∀ s, s ∈ sub → s ∈ share_of rs <$> points n) →
  ∃ sel, sub = share_of rs <$> sel ∧ NoDup sel ∧ is_bytes sel ∧ ∀ x, x ∈ sel → 1 ≤ x ≤ n.
Proof.
  intros Hn Hnd Hin. exists ((λ s, default 0 (head s)) <$> sub).
  assert (Hs : ∀ s, s ∈ sub → ∃ x, s = share_of rs x ∧ 1 ≤ x ≤ n).
  { intros s (x & -> & Hx)%Hin%list_elem_of_fmap. exists x. by rewrite <- elem_of_points. }
  assert (Hx : ∀ x, x ∈ (λ s, default 0 (head s)) <$> sub → 1 ≤ x ≤ n).
  { intros x (s & -> & (y & -> & Hy)%Hs)%list_elem_of_fmap. done. }
  split_and!; [| |apply Forall_forall; intros x ?%Hx; lia|done].
  - rewrite <- list_fmap_compose. rewrite <- (list_fmap_id sub) at 1. apply list_fmap_ext. intros i s Hi.
    apply list_elem_of_lookup_2, Hs in Hi as (x & -> & _). done.
  - apply NoDup_fmap_2_strong; [|done]. intros s s' (x & -> & _)%Hs (x' & -> & _)%Hs. cbn. by intros ->.
Qed.

Lemma combine_rows m n secret draws sub : n < 256 → is_bytes secret → is_bytes draws →
  NoDup sub → (∀ s, s ∈ sub → s ∈ share_of (rows m secret draws) <$> points n) → (m < length sub)%nat → combine sub = Some secret.
Proof.
  intros Hn Hs Hd Hnd Hin Hl. destruct (selected_shares _ _ _ Hn Hnd Hin) as (sel & -> & Hnd' & Hb & _).
  rewrite length_fmap in Hl. rewrite combine_spec; [|by apply rows_bytes|done|done| |].
  - f_equal. rewrite <- (rows_heads m secret draws) at 2. apply list_fmap_ext. intros i cs Hi.
    pose proof (Forall_lookup_1 _ _ _ _ (rows_bytes m _ _ Hs Hd) Hi) as Hcs. destruct cs as [|b cs]; [done|]. by apply horner_0.
  - intros ->. cbn in Hl. lia.
  - eapply Forall_impl; [apply rows_length|]. cbn. intros cs Hc. lia.
Qed.

(** C12: secret sharing is correct.  Any [threshold] or more different shares of a secret,
    in any order, combine to the secret, whatever was drawn at random. *)
Theorem shamir_roundtrip secret threshold n draws shares sub :
  is_bytes secret → is_bytes draws → split secret threshold n draws = Some shares →
  NoDup sub → (∀ s, s ∈ sub → s ∈ shares) → threshold ≤ vlen sub → combine sub = Some secret.
Proof.
  intros Hs Hd (Ht & Hn & _ & ->)%split_shares Hnd Hin Hl.
  apply (combine_rows (N.to_nat threshold - 1) n secret draws); try done. unfold vlen in Hl. lia.
Qed.

Lemma shamir_roundtrip_witness :
  let draws := [17; 99; 3; 250] in
  ∃ shares, split [83; 202] 3 5 draws = Some shares ∧
    combine (default [] <$> [shares !! 4%nat; shares !! 0%nat; shares !! 2%nat]) = Some [83; 202].
Proof.
  intros draws. exists (default [] (split [83; 202] 3 5 draws)). split; [reflexivity|].
  apply (shamir_roundtrip [83; 202] 3 5 draws (default [] (split [83; 202] 3 5 draws))); [apply (bool_decide_unpack _); vm_compute; exact I..|reflexivity| | |].
  - apply (bool_decide_unpack _). vm_compute. exact I.
  - apply Forall_forall. apply (bool_decide_unpack _). vm_compute. exact I.
  - vm_compute. discriminate.
Defined.

(** ** Too few shares *)

(** One byte: for every secret byte and every values at [n] points other than 0, exactly one
    choice of the [n] random coefficients. *)
Lemma row_unique b xs (ys : bytes) : b < 256 → is_bytes xs → is_bytes ys → NoDup xs → 0 ∉ xs → length ys = length xs →
  exists! cs, (is_bytes cs ∧ length cs = length xs) ∧ (λ x, horner (b :: cs) x) <$> xs = ys.
Proof.
  intros Hb Hxs Hys Hnd H0 Hl. set (zs := g0 :: gfs xs). set (pts := (g0, to_gf b) :: zip (gfs xs) (gfs ys)).
  assert (Hz : NoDup zs).
  { apply NoDup_cons. split; [|by apply NoDup_gfs]. intros (x & Hx & Hin)%list_elem_of_fmap. apply (f_equal gv) in Hx.
    rewrite gv_to_gf in Hx by (by eapply Forall_forall in Hxs). by rewrite <- Hx in Hin. }
  assert (Hk : pts.*1 = zs) by (cbn; f_equal; apply fst_zip; unfold gfs; rewrite !length_fmap; lia).
  assert (Hp : length (interp zs pts) = S (length xs)).
  { rewrite length_interp; [cbn; unfold gfs; by rewrite length_fmap|done| |done]. intros pt Hpt. rewrite <- Hk. by apply list_elem_of_fmap_2. }
  destruct (interp zs pts) as [|c cs] eqn:Hi; [done|]. cbn in Hp.
  assert (Hv : ∀ x y, (x, y) ∈ pts → peval (c :: cs) x = y).
  { intros x y Hxy. rewrite <- Hi. apply interp_value; [|by rewrite Hk|done]. rewrite <- Hk. by apply (list_elem_of_fmap_2 fst _ (x, y)). }
  assert (c = to_gf b) as ->.
  { rewrite <- (Hv g0 (to_gf b)) by left. cbn [peval foldr]. ring. }
  exists (gv <$> cs). split; [split_and!; [apply is_bytes_gv|rewrite length_fmap; lia|]|].
  - apply list_eq. intros i. rewrite list_lookup_fmap. destruct (xs !! i) as [x|] eqn:Hx; cbn [fmap option_fmap option_map].
    + pose proof (Forall_lookup_1 _ _ _ _ Hxs Hx) as Hxb. destruct (lookup_lt_is_Some_2 ys i) as [y Hy].
      { rewrite Hl. by apply lookup_lt_is_Some; exists x. }
      pose proof (Forall_lookup_1 _ _ _ _ Hys Hy) as Hyb. rewrite Hy. f_equal.
      rewrite horner_bytes by (done || (constructor; [done|apply is_bytes_gv])). cbn [gfs fmap list_fmap].
      change (to_gf <$> (gv <$> cs)) with (gfs (gv <$> cs)). rewrite gfs_gv, (Hv _ (to_gf y)); [by apply gv_to_gf|].
      right. apply list_elem_of_lookup. exists i. unfold gfs. by rewrite lookup_zip_with, !list_lookup_fmap, Hx, Hy.
    + symmetry. apply lookup_ge_None. rewrite Hl. by apply lookup_ge_None.
  - intros cs' [[Hb' Hl'] Hys']. apply gfs_inj; [apply is_bytes_gv|done|]. rewrite gfs_gv.
    assert (He : to_gf b :: cs = to_gf b :: gfs cs'); [|congruence].
    apply (poly_unique zs); [done|cbn; unfold gfs; rewrite length_fmap; lia|cbn; unfold gfs; rewrite length_fmap; lia|].
    intros z [->|(x & -> & Hx)%list_elem_of_fmap]%elem_of_cons; [cbn [peval foldr]; ring|].
    pose proof (proj1 (Forall_forall _ _) Hxs _ Hx) as Hxb. apply list_elem_of_lookup in Hx as [i Hx].
    assert (Hy : ys !! i = Some (horner (b :: cs') x)) by (by rewrite <- Hys', list_lookup_fmap, Hx).
    rewrite (Hv _ (to_gf (horner (b :: cs') x))).
    + rewrite horner_bytes by (done || by constructor). by rewrite to_gf_gv.
    + right. apply list_elem_of_lookup. exists i. unfold gfs. by rewrite lookup_zip_with, !list_lookup_fmap, Hx, Hy.
Qed.

(** The coefficients [rs] and [rs'] have the same values at the points [xs]. *)
Definition same_values (xs : bytes) (rs rs' : list bytes) : Prop :=
  Forall2 (λ cs cs', (λ x, horner cs x) <$> xs = (λ x, horner cs' x) <$> xs) rs rs'.

Lemma horner_byte cs x : is_bytes cs → x < 256 → horner cs x < 256.
Proof. intros Hc Hx. rewrite horner_bytes by done. apply gv_byte. Qed.
Lemma rows_unique m xs secret secret' draws : length secret' = length secret →
  is_bytes secret → is_bytes secret' → is_bytes draws → length draws = (length secret * m)%nat →
  is_bytes xs → NoDup xs → 0 ∉ xs → length xs = m →
  exists! draws', (is_bytes draws' ∧ length draws' = (length secret * m)%nat) ∧
    same_values xs (rows m secret' draws') (rows m secret draws).
Proof.
  intros Hl Hs. revert secret' draws Hl. induction Hs as [|b secret Hb Hs IH]; intros secret' draws Hl Hs' Hd Hn Hxs Hnd H0 Hm.
  { destruct secret'; [|done]. exists []. split; [by repeat split; constructor|]. intros d [[_ Hd'] _]. by destruct d. }
  destruct secret' as [|b' secret']; [done|]. apply Forall_cons in Hs' as [Hb' Hs']. cbn [length Nat.mul] in *.
  destruct (row_unique b' xs ((λ x, horner (b :: take m draws) x) <$> xs)) as (cs & [[Hcs Hlc] Hv] & Hu); [done..| |done|done|by rewrite length_fmap|].
  { apply Forall_fmap. eapply Forall_impl; [exact Hxs|]. intros x Hx. apply horner_byte; [|done]. constructor; [done|by apply Forall_take]. }
  destruct (IH secret' (drop m draws)) as (rest & [[Hr Hlr] Hvr] & Hur); [lia|done|by apply Forall_drop|rewrite length_drop; lia|done..|].
  exists (cs ++ rest). split; [split; [split; [by apply Forall_app|rewrite length_app; lia]|]|].
  - cbn [rows]. rewrite take_app_length', drop_app_length' by lia. by constructor.
  - intros d [[Hdb Hdl] Hdv]. cbn [rows] in Hdv. apply Forall2_cons in Hdv as [Hd1 Hd2].
    rewrite <- (take_drop m d). f_equal.
    + apply Hu. split; [|done]. split; [by apply Forall_take|rewrite length_take; lia].
    + apply Hur. split; [|done]. split; [by apply Forall_drop|rewrite length_drop; lia].
Qed.

(** What the holders of the shares at the positions [idxs] see. *)
Definition view (secret : bytes) (threshold n : u8) (draws : bytes) (idxs : list nat) : option (list (option bytes)) :=
  (λ shares, (λ i, shares !! i) <$> idxs) <$> split secret threshold n draws.

Lemma shares_values xs rs rs' : length rs = length rs' →
  share_of rs <$> xs = share_of rs' <$> xs ↔ xs = [] ∨ same_values xs rs rs'.
Proof.
  intros Hl. split.
  - intros H. right. apply Forall2_same_length_lookup_2; [done|]. intros i cs cs' Hi Hi'. apply list_fmap_ext. intros j x Hx.
    apply (f_equal (.!! j)) in H. rewrite !list_lookup_fmap, Hx in H. cbn in H. injection H as H.
    apply (f_equal (.!! i)) in H. change (list_fmap _ _ ?f rs) with (f <$> rs) in H. rewrite !list_lookup_fmap, Hi, Hi' in H. by injection H.
  - intros [->|H]; [done|]. apply list_fmap_ext. intros j x Hx. unfold share_of. f_equal. apply list_eq_Forall2, Forall2_fmap.
    eapply Forall2_impl; [exact H|]. cbn. intros cs cs' Hv. apply (f_equal (.!! j)) in Hv. rewrite !list_lookup_fmap, Hx in Hv. by injection Hv.
Qed.

Lemma split_ok secret t n draws : secret ≠ [] → 2 ≤ t ≤ n → n < 256 →
  split secret t n draws = Some (share_of (rows (N.to_nat t - 1) secret draws) <$> points n).
Proof.
  intros Hs Ht Hn. assert (Hsome : is_Some (split secret t n draws)).
  { unfold split. case_N; try lia. rewrite bool_decide_false by done. by eexists. }
  destruct Hsome as [shares Hsh]. rewrite Hsh. by apply split_shares in Hsh as (_ & _ & _ & ->).
Qed.
Lemma length_rows m secret draws : length (rows m secret draws) = length secret.
Proof. revert draws. induction secret as [|b secret IH]; intros draws; [done|]. cbn. by rewrite IH. Qed.
Lemma view_shares secret t n draws idxs : secret ≠ [] → 2 ≤ t ≤ n → n < 256 → Forall (λ i, (i < N.to_nat n)%nat) idxs →
  view secret t n draws idxs = Some (Some <$> (share_of (rows (N.to_nat t - 1) secret draws) <$> (share_x <$> idxs))).
Proof.
  intros Hs Ht Hn Hi. unfold view. rewrite split_ok by done. cbn. f_equal. rewrite <- !list_fmap_compose.
  apply list_fmap_ext. intros j i Hj. pose proof (Forall_lookup_1 _ _ _ _ Hi Hj) as Hlt. cbn in *.
  unfold points. change (list_fmap _ _ ?f (list_fmap _ _ ?g ?l)) with (f <$> (g <$> l)).
  by rewrite !list_lookup_fmap, lookup_seq_lt.
Qed.

(** C9: secret sharing is secret.  [threshold - 1] shares say nothing about the secret:
    whatever they show, for every secret of the same length there is exactly one choice of
    the random bytes with which it would have shown the same. *)
Theorem shamir_secrecy secret secret' threshold n draws idxs :
  is_bytes secret → is_bytes secret' → length secret' = length secret → secret ≠ [] →
  2 ≤ threshold ≤ n → n < 256 →
  NoDup idxs → Forall (λ i, (i < N.to_nat n)%nat) idxs → length idxs = (N.to_nat threshold - 1)%nat →
  is_bytes draws → length draws = (length secret * (N.to_nat threshold - 1))%nat →
  exists! draws', (is_bytes draws' ∧ length draws' = length draws) ∧
    view secret' threshold n draws' idxs = view secret threshold n draws idxs.
Proof.
  intros Hs Hs' Hl Hne Ht Hn Hnd Hi Hli Hd Hld. set (xs := share_x <$> idxs).
  assert (Hne' : secret' ≠ []) by (by intros ->; destruct secret).
  assert (Hx : ∀ x, x ∈ xs → 1 ≤ x < 256).
  { intros x (i & -> & Hin)%list_elem_of_fmap. rewrite Forall_forall in Hi. specialize (Hi _ Hin). rewrite share_x_small; lia. }
  assert (Hv : ∀ d, view secret' threshold n d idxs = view secret threshold n draws idxs ↔
                    same_values xs (rows (N.to_nat threshold - 1) secret' d) (rows (N.to_nat threshold - 1) secret draws)).
  { intros d. rewrite !view_shares by done. fold xs. rewrite (inj_iff Some), (inj_iff (fmap (M := list) Some)), shares_values by by rewrite !length_rows.
    split; [|by right]. intros [Hnil|]; [|done]. apply fmap_nil_inv in Hnil. subst idxs. cbn in Hli. lia. }
  destruct (rows_unique (N.to_nat threshold - 1) xs secret secret' draws) as (d & [[Hdb Hdl] Hdv] & Hu); [done..|apply Forall_forall; intros x ?%Hx; lia| | |unfold xs; by rewrite length_fmap|].
  { apply NoDup_fmap_2_strong; [|done]. intros i j Hii Hjj. rewrite Forall_forall in Hi. rewrite !share_x_small by (pose proof (Hi _ Hii); pose proof (Hi _ Hjj); lia). lia. }
  { intros ?%Hx. lia. }
  exists d. split; [split; [split; [done|lia]|by apply Hv]|]. intros d' [[Hb' Hl'] Hv']. apply Hu. split; [split; [done|lia]|by apply Hv].
Qed.

Lemma shamir_secrecy_witness :
  exists! draws', (is_bytes draws' ∧ length draws' = 4%nat) ∧
    view [1; 2] 3 5 draws' [4%nat; 1%nat] = view [83; 202] 3 5 [17; 99; 3; 250] [4%nat; 1%nat].
Proof.
  apply (shamir_secrecy [83; 202] [1; 2] 3 5 [17; 99; 3; 250] [4%nat; 1%nat]); try done;
    apply (bool_decide_unpack _); vm_compute; exact I.
Defined.

(** ** The two implementations *)

Lemma term_factors xj j k xs : ∃ p q, ∀ num den,
  term (gv xj) j k (gv <$> xs) (gv num) (gv den) = (gv (num * p)%gf, gv (den * q)%gf) ∧
  SealCode.term (gv xj) j k (gv <$> xs) (gv num) (gv den) = (gv (num * p)%gf, gv (den * q)%gf).
Proof.
  revert k. induction xs as [|x xs IH]; intros k.
  - exists g1, g1. intros num den. cbn [fmap list_fmap term SealCode.term]. by replace (num * g1)%gf with num by ring; replace (den * g1)%gf with den by ring.
  - destruct (IH (S k)) as (p & q & H). destruct (decide (k = j)) as [<-|Hne].
    + exists p, q. intros num den. cbn [fmap list_fmap term SealCode.term]. rewrite !decide_True by done. apply H.
    + exists (x * p)%gf, ((xj + x) * q)%gf. intros num den. cbn [fmap list_fmap term SealCode.term]. rewrite !decide_False by congruence.
      rewrite !gf_mul_agree, <- gv_add, <- !gv_mul. destruct (H (num * x)%gf (den * (xj + x))%gf) as [-> ->].
      by replace (num * x * p)%gf with (num * (x * p))%gf by ring; replace (den * (xj + x) * q)%gf with (den * ((xj + x) * q))%gf by ring.
Qed.
Lemma quotient_agree y p q :
  (inv ← gf_inv (gv q); Some (gf_mul (gv (y * p)%gf) inv)) = (d ← Seal.gf_div (gv p) (gv q); Some (Seal.gf_mul (gv y) d)).
Proof.
  unfold Seal.gf_div. destruct (decide (q = g0)) as [->|Hq]; [done|]. rewrite gf_inv_gv by done.
  destruct (N.eqb_spec (gv q) 0) as [H|H]; [by destruct Hq; apply gf_eq|]. rewrite gf_inv_agree by done.
  assert (gf_pow (gv q) 254 = gv (ginv q)) as -> by (symmetry; apply gv_to_gf, gf_pow_loop_byte; [apply gv_byte|done]).
  cbn [mbind option_bind]. destruct (N.eqb_spec (gv p) 0) as [Hp|Hp]; cbn [mbind option_bind]; f_equal.
  - assert (p = g0) as -> by (by apply gf_eq). rewrite gf_mul_agree. change 0 with (gv g0). rewrite <- !gv_mul. f_equal. ring.
  - rewrite !gf_mul_agree, <- !gv_mul. f_equal. ring.
Qed.
Lemma terms_agree all j xs ys r : terms (gv <$> all) j (gv <$> xs) (gv <$> ys) r = SealCode.terms (gv <$> all) j (gv <$> xs) (gv <$> ys) r.
Proof.
  revert j ys r. induction xs as [|x xs IH]; intros j [|y ys] r; [done..|]. cbn [fmap list_fmap terms SealCode.terms].
  destruct (term_factors x j 0 all) as (p & q & H). pose proof (proj1 (H y g1)) as Ht. pose proof (proj2 (H g1 g1)) as Ht'.
  change (gv g1) with 1 in Ht, Ht'. change (list_fmap _ _ gv) with (fmap (M := list) gv). rewrite Ht, Ht'.
  replace (g1 * q)%gf with q by ring. replace (g1 * p)%gf with p by ring.
  pose proof (quotient_agree y p q) as Hq. destruct (gf_inv (gv q)) as [i|], (Seal.gf_div (gv p) (gv q)) as [d|]; cbn [mbind option_bind] in Hq |- *; try done.
  apply (inj Some) in Hq. rewrite Hq. apply IH.
Qed.

Definition uniform (l : nat) (shares : list bytes) : Prop := Forall (λ s, is_bytes s ∧ length s = S l) shares.

(** Shares of one length: seal.rs combines them as shamir.rs does, also when that panics. *)
Lemma combine_agree l shares : shares ≠ [] → uniform l shares → N.of_nat l < u64_max →
  SealCode.combine_shares shares = Ok <$> combine shares.
Proof.
  unfold uniform. intros Hne Hu Hl. destruct shares as [|first shares]; [done|]. unfold SealCode.combine_shares.
  assert (Hlen : ∀ s, s ∈ first :: shares → vlen s -w 1 = N.of_nat l).
  { intros s Hs. rewrite Forall_forall in Hu. destruct (Hu _ Hs) as [_ H]. unfold vlen. rewrite H, u64_sub_small; unfold u64_max, u64_modulus in *; lia. }
  rewrite (Hlen first) by left.
  assert (existsb (λ s, negb (vlen s -w 1 =? N.of_nat l)) (first :: shares) = false) as ->.
  { apply not_true_iff_false. intros (s & Hs%list_elem_of_In & H)%existsb_exists. rewrite (Hlen s Hs), N.eqb_refl in H. done. }
  unfold combine. cbn [head mbind option_bind]. inversion Hu as [|? ? [Hfb Hfl] _]; subst. rewrite bool_decide_false by (by intros ->).
  destruct (mapM head (first :: shares)) as [xs|] eqn:Hxs; [|done]. cbn [mbind option_bind].
  rewrite Nat2N.id, Hfl, Nat.sub_succ, Nat.sub_0_r. f_equal. apply mapM_ext. intros i.
  destruct (mapM (λ s, s !! S i) (first :: shares)) as [ys|] eqn:Hys; [|done]. cbn [mbind option_bind].
  assert (Hb : ∀ f zs, (∀ s z, f s = Some z → s ∈ first :: shares → z ∈ s) → mapM f (first :: shares) = Some zs → is_bytes zs).
  { intros f zs Hf Hz%mapM_Some. apply Forall_forall. intros z Hin. apply list_elem_of_lookup in Hin as [k Hk].
    destruct (Forall2_lookup_r _ _ _ _ _ Hz Hk) as (s & Hs & Hsz). apply list_elem_of_lookup_2 in Hs. rewrite Forall_forall in Hu.
    destruct (Hu _ Hs) as [Hsb _]. unfold is_bytes in Hsb. rewrite Forall_forall in Hsb. by apply Hsb, Hf. }
  rewrite <- (gv_gfs xs), <- (gv_gfs ys); [symmetry; apply terms_agree| |].
  - eapply Hb; [|exact Hys]. intros s z H%list_elem_of_lookup_2 _. done.
  - eapply Hb; [|exact Hxs]. intros [|a s] z [= <-] _. left.
Qed.

(** seal.rs splits as shamir.rs does. *)
Lemma split_secret_ok secret n k draws : 2 ≤ k ≤ n → n < 256 →
  SealCode.split_secret secret n k draws = Ok (share_of (rows (N.to_nat k - 1) secret draws) <$> points n).
Proof.
  intros Hk Hn. unfold SealCode.split_secret. rewrite (proj2 (N.ltb_ge _ _)), (proj2 (N.ltb_ge _ _)) by lia. cbn [orb].
  f_equal. rewrite push_bytes_rows by apply horner_agree. rewrite <- points_range by done. unfold points.
  apply list_eq. intros i. rewrite list_lookup_imap, !list_lookup_fmap. destruct (seq 0 (N.to_nat n) !! i) as [j|] eqn:Hj; [|done].
  apply lookup_seq in Hj as [-> _]. done.
Qed.

(** ** The seal *)

Section Quorum.
Context `{HX : !Hex} `{HL : !HexLaws}.

Fixpoint unseal_all (s : SealState) (hs : list bytes) : option (list (result VaultError bool) * SealState) :=
  match hs with
  | [] => Some ([], s)
  | h :: hs =>
      '(r, s) ← SealState.unseal s h;
      '(rs, s) ← unseal_all s hs; Some (r :: rs, s)
  end.

Lemma unseal_all_app s hs h :
  unseal_all s (hs ++ [h]) = '(rs, s) ← unseal_all s hs; '(r, s) ← SealState.unseal s h; Some (rs ++ [r], s).
Proof.
  revert s. induction hs as [|h' hs IH]; intros s; cbn [app unseal_all mbind option_bind].
  - destruct (SealState.unseal s h) as [[r s']|]; done.
  - destruct (SealState.unseal s h') as [[r s']|]; [|done]. cbn [mbind option_bind]. rewrite IH.
    destruct (unseal_all s' hs) as [[rs s2]|]; [|done]. cbn [mbind option_bind]. by destruct (SealState.unseal s2 h) as [[]|].
Qed.
Lemma unseal_waits s h share : ss_initialized s = true → ss_status s = Sealed → hex_decode h = Some share →
  vlen (pending_shares s) + 1 < ss_threshold s → ss_threshold s < 256 →
  SealState.unseal s h = Some (Ok false, SealState.set_pending (pending_shares s ++ [share]) s).
Proof.
  intros Hi Hs Hd Hp Ht. unfold SealState.unseal, SealState.is_sealed. rewrite Hi, Hs, Hd. cbn [negb]. rewrite bool_decide_true by done. cbn [negb].
  assert (Hle : (ss_threshold s <=? (vlen (pending_shares s ++ [share])) mod 256) = false).
  { rewrite vlen_app. change (vlen [share]) with 1. rewrite N.mod_small by lia. apply N.leb_gt. lia. }
  cbn [SealState.set_pending ss_threshold unseal_progress]. by rewrite Hle.
Qed.
Lemma unseal_opens s h share key : ss_initialized s = true → ss_status s = Sealed → hex_decode h = Some share →
  vlen (pending_shares s) + 1 = ss_threshold s → ss_threshold s < 256 →
  SealCode.combine_shares (pending_shares s ++ [share]) = Some (Ok key) →
  ∃ s', SealState.unseal s h = Some (Ok true, s') ∧ ss_status s' = Unsealed ∧ master_key s' = Some key ∧ pending_shares s' = [].
Proof.
  intros Hi Hs Hd Hp Ht Hc. unfold SealState.unseal, SealState.is_sealed. rewrite Hi, Hs, Hd. cbn [negb]. rewrite bool_decide_true by done. cbn [negb].
  assert (Hle : (ss_threshold s <=? (vlen (pending_shares s ++ [share])) mod 256) = true).
  { rewrite vlen_app. change (vlen [share]) with 1. rewrite N.mod_small by lia. apply N.leb_le. lia. }
  cbn [SealState.set_pending ss_threshold unseal_progress pending_shares]. rewrite Hle, Hc. by eexists.
Qed.

(** Shares below the threshold are kept and the vault stays sealed. *)
Lemma unseal_all_waits s hs shares : ss_initialized s = true → ss_status s = Sealed → Forall2 (λ h share, hex_decode h = Some share) hs shares →
  vlen (pending_shares s) + vlen hs < ss_threshold s → ss_threshold s < 256 →
  ∃ s1, unseal_all s hs = Some (replicate (length hs) (Ok false), s1) ∧ ss_initialized s1 = true ∧ ss_status s1 = Sealed ∧
    pending_shares s1 = pending_shares s ++ shares ∧ ss_threshold s1 = ss_threshold s ∧ master_key s1 = master_key s.
Proof.
  intros Hi Hs HF. revert s Hi Hs. induction HF as [|h share hs shares Hd HF IH]; intros s Hi Hs Hp Ht.
  { exists s. by rewrite app_nil_r. }
  rewrite vlen_cons in Hp. cbn [unseal_all]. rewrite (unseal_waits s h share) by (done || lia). cbn [mbind option_bind].
  destruct (IH (SealState.set_pending (pending_shares s ++ [share]) s)) as (s1 & H1 & H2 & H3 & H4 & H5 & H6); [done|done| |done|].
  { cbn [SealState.set_pending pending_shares ss_threshold]. rewrite vlen_app. change (vlen [share]) with 1. lia. }
  exists s1. rewrite H1. cbn [mbind option_bind length replicate]. split_and!; try done. rewrite H4. cbn. by rewrite <- app_assoc.
Qed.

Lemma initialize_ok nonce n t key draws token hexes s :
  n < 256 → SealState.initialize (SealState.default nonce) n t key draws token = (Ok (token, hexes), s) →
  2 ≤ t ≤ n ∧ hexes = hex_encode <$> (share_of (rows (N.to_nat t - 1) key draws) <$> points n) ∧
  s = mkSealState Sealed true t n 0 nonce [] None (Some token) hexes.
Proof.
  intros Hn. unfold SealState.initialize. cbn [ss_initialized SealState.default]. unfold SealState.validate_threshold.
  case_N; try done. rewrite split_secret_ok by lia. intros [= <- <-]. split_and!; [lia..|done|done].
Qed.
(** The shares behind their texts. *)
Lemma decode_shares all hs : Forall is_bytes all → NoDup hs → (∀ h, h ∈ hs → h ∈ hex_encode <$> all) →
  ∃ sub, Forall2 (λ h share, hex_decode h = Some share) hs sub ∧ NoDup sub ∧ ∀ share, share ∈ sub → share ∈ all.
Proof.
  intros Hall Hnd. induction Hnd as [|h hs Hh _ IH]; intros Hin; [exists []; split_and!; [done|apply NoDup_nil_2|by intros ? ?%elem_of_nil]|].
  destruct IH as (sub & HF & Hnd & Hsub); [intros h' Hh'; apply Hin; by right|].
  destruct (proj1 (list_elem_of_fmap _ _ _) (Hin h ltac:(left))) as (share & -> & Hs).
  assert (Hd : hex_decode (hex_encode share) = Some share) by (apply hex_roundtrip; by eapply Forall_forall in Hall).
  exists (share :: sub). split_and!; [by constructor| |intros x [->|Hx]%elem_of_cons; [done|by apply Hsub]].
  apply NoDup_cons. split; [|done]. intros Hsh. apply list_elem_of_lookup in Hsh as [i Hi].
  destruct (Forall2_lookup_r _ _ _ _ _ HF Hi) as (h & Hhi & Hdh). apply Hh.
  apply list_elem_of_lookup_2 in Hhi as Hhin. destruct (proj1 (list_elem_of_fmap _ _ _) (Hin h ltac:(by right))) as (share' & -> & Hs').
  assert (Hd' : hex_decode (hex_encode share') = Some share') by (apply hex_roundtrip; by eapply Forall_forall in Hall).
  congruence.
Qed.
Lemma shares_uniform rs n : n < 256 → Forall is_bytes rs → uniform (length rs) (share_of rs <$> points n).
Proof.
  intros Hn Hrs. apply Forall_fmap, Forall_forall. intros x Hx%elem_of_points; [|done]. cbn. rewrite length_fmap. split; [|done].
  constructor; [lia|]. apply Forall_fmap. eapply Forall_impl; [exact Hrs|]. cbn. intros cs Hcs. apply horner_byte; [done|lia].
Qed.

(** Unsealing by quorum.  A vault initialised with a threshold and given, one by one and
    in any order, that many different ones of the key shares it handed out, stays sealed
    without a key until the last of them, and then opens with exactly its master key. *)
Theorem unseal_quorum nonce n threshold key draws token hexes s hs :
  n < 256 → is_bytes key → length key = 32%nat → is_bytes draws →
  SealState.initialize (SealState.default nonce) n threshold key draws token = (Ok (token, hexes), s) →
  NoDup hs → (∀ h, h ∈ hs → h ∈ hexes) → vlen hs = threshold →
  (∀ hs1 hs2, hs = hs1 ++ hs2 → hs2 ≠ [] →
     ∃ s1, unseal_all s hs1 = Some (replicate (length hs1) (Ok false), s1) ∧ ss_status s1 = Sealed ∧ master_key s1 = None) ∧
  ∃ s', unseal_all s hs = Some (replicate (length hs - 1) (Ok false) ++ [Ok true], s') ∧
    ss_status s' = Unsealed ∧ master_key s' = Some key ∧ pending_shares s' = [].
Proof.
  intros Hn Hk Hlk Hd Hinit Hnd Hin Hlen. apply initialize_ok in Hinit as (Ht & -> & ->); [|done].
  pose proof (shares_uniform _ n Hn (rows_bytes (N.to_nat threshold - 1) _ _ Hk Hd)) as Hu. rewrite length_rows, Hlk in Hu.
  destruct (decode_shares _ hs ltac:(eapply Forall_impl; [exact Hu|]; by intros ? []) Hnd Hin) as (sub & HF & Hnds & Hsub).
  pose proof (Forall2_length _ _ _ HF) as Hl. split.
  - intros hs1 hs2 -> Hne. apply Forall2_app_inv_l in HF as (sub1 & sub2 & HF & _ & ->).
    match goal with |- ∃ s1, unseal_all ?s0 _ = _ ∧ _ => destruct (unseal_all_waits s0 hs1 sub1) as (s1 & H1 & _ & H3 & _ & _ & H6) end;
      [done|done|done| |cbn; lia|].
    { cbn [pending_shares ss_threshold]. change (vlen (@nil bytes)) with 0. rewrite vlen_app in Hlen. destruct hs2; [done|]. rewrite vlen_cons in Hlen. lia. }
    by exists s1.
  - destruct hs as [|h hs _] using rev_ind; [change (vlen (@nil bytes)) with 0 in Hlen; lia|]. apply Forall2_app_inv_l in HF as (sub1 & sub2 & HF & HF2 & ->).
    inversion HF2 as [|? share ? ? Hh HF3]; subst. inversion HF3; subst. rewrite vlen_app in Ht. change (vlen [h]) with 1 in Ht.
    match goal with |- ∃ s', unseal_all ?s0 _ = _ ∧ _ => destruct (unseal_all_waits s0 hs sub1) as (s1 & H1 & H2 & H3 & H4 & H5 & _) end;
      [done|done|done|cbn [pending_shares ss_threshold]; rewrite vlen_app; change (vlen [h]) with 1; change (vlen (@nil bytes)) with 0; lia..|].
    destruct (unseal_opens s1 h share key) as (s' & H6 & H7); [done|done|done|..].
    + rewrite H4, H5. cbn [pending_shares ss_threshold app]. rewrite vlen_app. unfold vlen. rewrite (Forall2_length _ _ _ HF). done.
    + rewrite H5. cbn [ss_threshold]. rewrite vlen_app. change (vlen [h]) with 1. lia.
    + rewrite H4. cbn [pending_shares app]. rewrite (combine_agree 32); [|by destruct sub1| |done].
      * erewrite combine_rows; [reflexivity|exact Hn|done|exact Hd|done|exact Hsub|].
        rewrite <- Hl, length_app. unfold vlen. rewrite length_app. cbn. lia.
      * apply Forall_forall. intros x Hx%Hsub. by eapply Forall_forall in Hu.
    + exists s'. rewrite unseal_all_app, H1. cbn [mbind option_bind]. rewrite H6. cbn [mbind option_bind].
      rewrite length_app. cbn [length]. by rewrite Nat.add_sub.
Qed.
End Quorum.

(** ** Concrete shares *)

#[local] Existing Instances PlainHex.PlainHex PlainHex.PlainHex_laws.
Module Sample.
Definition key : bytes := N.of_nat <$> seq 1 32.
Definition draws : bytes := (λ i, (N.of_nat i * 37 + 11) mod 256) <$> seq 0 32.
Definition started := SealState.initialize (SealState.default []) 3 2 key draws (str "hvs.t").
Definition vault : SealState := started.2.
Definition share (i : nat) : bytes := default [] (key_shares vault !! i).
End Sample.

Lemma unseal_quorum_witness :
  ∃ s', unseal_all Sample.vault [Sample.share 2; Sample.share 0] = Some ([Ok false; Ok true], s') ∧ master_key s' = Some Sample.key.
Proof.
  destruct (unseal_quorum [] 3 2 Sample.key Sample.draws (str "hvs.t") (key_shares Sample.vault) Sample.vault
    [Sample.share 2; Sample.share 0]) as [_ (s' & H1 & _ & H2 & _)];
    [reflexivity|apply (bool_decide_unpack _); vm_compute; exact I|reflexivity|apply (bool_decide_unpack _); vm_compute; exact I|vm_compute; reflexivity
    |apply (bool_decide_unpack _); vm_compute; exact I|apply Forall_forall; apply (bool_decide_unpack _); vm_compute; exact I|reflexivity|].
  by exists s'.
Defined.

(** The same share twice: the interpolation divides by zero and panics. *)
Lemma duplicate_share_panics : unseal_all Sample.vault [Sample.share 0; Sample.share 0] = None.
Proof. vm_compute. reflexivity. Qed.
(** One text of another length, and no later share opens the vault: it stays pending. *)
Lemma short_share_blocks :
  let refused := Err (InvalidRequest (str "shares have inconsistent length")) in
  fst <$> unseal_all Sample.vault [str "00"; Sample.share 0; Sample.share 1; Sample.share 2] = Some [Ok false; refused; refused; refused].
Proof. vm_compute. reflexivity. Qed.
(** Two invented shares open the vault, with a key of their own. *)
Lemma forged_shares_open :
  let forged i := hex_encode (i :: replicate 32 0) in
  match unseal_all Sample.vault [forged 1; forged 2] with
  | Some (answers, s) => answers = [Ok false; Ok true] ∧ ss_status s = Unsealed ∧ master_key s = Some (replicate 32 0)
  | None => False
  end.
Proof. vm_compute. done. Qed.
