(* ===== verification/VaultTokens.v ===== *)
(** * Tokens of the vault

    crates/security/cave-vault/src/token.rs, and the handlers of auth/token.rs that change the
    store.

    Instants are nanoseconds, the clock is an argument, and so are the texts made of random
    bytes; [None] in their place is a failure of the random source.  The date arithmetic of
    chrono is a class: it panics out of its range, which makes a method [None].  A method runs
    under the lock of the store; a handler that takes the lock twice is two steps.

    Revoking a token with its tree removes exactly what can be reached through the lists of
    children, whatever cycles custom ids have made ([revoke_tree_spec]), so that no token is
    left whose line of parents leads to it ([revoked_with_descendants]).  At the end: a child
    of a revoked token, and a token with more rights than its creator. *)

From S2P Require Import Prelude Bytes VaultShamir.

(** [t + Duration::seconds(n)] *)
Class Chrono : Type := { after : Z → Z → option Z }.
Class ChronoLaws `{!Chrono} : Prop := { after_seconds t n t' : after t n = Some t' → t' = (t + n * 1000000000)%Z }.

Inductive TokenType : Type := Service | Batch | Default.
Record VaultToken : Type := mkToken {
  id : bytes; accessor : bytes; policies : list bytes; metadata : gmap bytes bytes; ttl : Z; max_ttl : Z; created_at : Z;
  expires_at : option Z; renewable : bool; orphan : bool; display_name : bytes; num_uses : Z; uses_remaining : Z;
  token_type : TokenType; parent : option bytes; entity_id : bytes; is_root : bool; period : option Z; explicit_max_ttl : Z;
  bound_cidrs : list bytes; role_name : option bytes }.
Module VaultToken.
Definition is_expired (now : Z) (t : VaultToken) : bool := match expires_at t with Some exp => (exp <? now)%Z | None => false end.
(** [num_seconds] of a positive difference *)
Definition remaining_ttl (now : Z) (t : VaultToken) : Z :=
  match expires_at t with Some exp => Z.max (Z.quot (exp - now) 1000000000) 0 | None => 0 end.
End VaultToken.

Record CreateTokenParams : Type := mkParams {
  p_id : option bytes; p_policies : option (list bytes); p_metadata : option (gmap bytes bytes); p_no_parent : option bool;
  p_no_default_policy : option bool; p_renewable : option bool; p_ttl : option bytes; p_explicit_max_ttl : option bytes;
  p_display_name : option bytes; p_num_uses : option Z; p_period : option bytes; p_role_name : option bytes;
  p_token_type : option bytes; p_entity_alias : option bytes; p_bound_cidrs : option (list bytes) }.

(** ** Durations *)

(** White space of Unicode, in UTF-8 *)
Definition WHITE_SPACE : list bytes :=
  ((λ c, [c]) <$> [9; 10; 11; 12; 13; 32]) ++ [[194; 133]; [194; 160]; [225; 154; 128]]
  ++ ((λ c, [226; 128; c]) <$> [128; 129; 130; 131; 132; 133; 134; 135; 136; 137; 138; 168; 169; 175]) ++ [[226; 129; 159]; [227; 128; 128]].
Fixpoint starts (w l : bytes) : option bytes :=
  match w, l with
  | [], l => Some l
  | a :: w, b :: l => if a =? b then starts w l else None
  | _, [] => None
  end.
Fixpoint strip (fuel : nat) (spaces : list bytes) (l : bytes) : bytes :=
  match fuel with
  | O => l
  | S fuel => match head (omap (λ w, starts w l) spaces) with Some l => strip fuel spaces l | None => l end
  end.
Definition trim (l : bytes) : bytes :=
  let l := strip (length l) WHITE_SPACE l in
  rev (strip (length l) ((λ w, rev w) <$> WHITE_SPACE) (rev l)).
(** Letters beyond ASCII give the same answer, 0, whether or not they end the number. *)
Definition is_alphabetic (b : N) : bool := ((65 <=? b) && (b <=? 90)) || ((97 <=? b) && (b <=? 122)).
Fixpoint split_alpha (l : bytes) : option (bytes * bytes) :=
  match l with
  | [] => None
  | b :: l' => if is_alphabetic b then Some ([], l) else (λ r, (b :: r.1, r.2)) <$> split_alpha l'
  end.
Definition parse_duration (s : bytes) : Z :=
  if bool_decide (s = []) then 0%Z
  else
    let s := trim s in
    match parse_i64 s with
    | Some n => n
    | None =>
        match split_alpha s with
        | None => 0%Z
        | Some (num_str, unit) =>
            let num := default 0%Z (parse_i64 num_str) in
            if bool_decide (unit = str "s") then num
            else if bool_decide (unit = str "m") then wrap_i64 (num * 60)
            else if bool_decide (unit = str "h") then wrap_i64 (num * 3600)
            else if bool_decide (unit = str "d") then wrap_i64 (num * 86400)
            else 0%Z
        end
    end.
(** [.as_deref().map(parse_duration).filter(|&t| t > 0)] *)
Definition positive_duration (o : option bytes) : option Z := s ← o; let t := parse_duration s in if (0 <? t)%Z then Some t else None.

(** ** The store *)

Record TokenStore : Type := mkStore { tokens : gmap bytes VaultToken; accessors : gmap bytes bytes; children : gmap bytes (list bytes) }.
Module TokenStore.
Section Ops.
Context `{CH : !Chrono}.
Definition new : TokenStore := mkStore ∅ ∅ ∅.
Definition gen_text (random : option bytes) : result VaultError bytes := ok_or random (Crypto (str "rng failure")).
(** The policies of a new token *)
Definition policies_of (params : CreateTokenParams) (parent : option VaultToken) : list bytes :=
  let policies := default [] (p_policies params) in
  let policies := if negb (default false (p_no_default_policy params)) && negb (bool_decide (str "default" ∈ policies)) then policies ++ [str "default"] else policies in
  match policies, parent with [], Some p => VaultTokens.policies p | _, _ => policies end.
Definition create (s : TokenStore) (params : CreateTokenParams) (parent : option VaultToken) (new_id new_accessor : option bytes) (now : Z) :
    option (result VaultError VaultToken * TokenStore) :=
  match match p_id params with Some custom_id => Ok custom_id | None => gen_text new_id end, gen_text new_accessor with
  | Err e, _ | Ok _, Err e => Some (Err e, s)
  | Ok id, Ok accessor =>
      let policies := policies_of params parent in
      let ttl_secs := default 3600%Z (positive_duration (p_ttl params)) in
      let max_ttl_secs := default (wrap_i64 (ttl_secs * 8)) (positive_duration (p_explicit_max_ttl params)) in
      expires_at ← if (0 <? ttl_secs)%Z then Some <$> after now ttl_secs else Some None;
      let orphan := default false (p_no_parent params) || bool_decide (parent = None) in
      let parent_id := if orphan then None else VaultTokens.id <$> parent in
      let token := mkToken id accessor policies (default ∅ (p_metadata params)) ttl_secs max_ttl_secs now expires_at
        (default true (p_renewable params)) orphan (default (str "token") (p_display_name params))
        (default 0%Z (p_num_uses params)) (default 0%Z (p_num_uses params))
        (if bool_decide (p_token_type params = Some (str "batch")) then Batch else Service) parent_id [] false
        (positive_duration (p_period params)) max_ttl_secs (default [] (p_bound_cidrs params)) (p_role_name params) in
      let children := match parent_id with Some pid => <[pid := default [] (children s !! pid) ++ [id]]> (children s) | None => children s end in
      Some (Ok token, mkStore (<[id := token]> (tokens s)) (<[accessor := id]> (accessors s)) children)
  end.
Definition create_root (s : TokenStore) (root_token_id : bytes) (now : Z) : VaultToken * TokenStore :=
  let token := mkToken root_token_id (str "root-accessor") [str "root"] ∅ 0 0 now None false true (str "root") 0 0 Service None [] true None 0 [] None in
  (token, mkStore (<[root_token_id := token]> (tokens s)) (<[str "root-accessor" := root_token_id]> (accessors s)) (children s)).
Definition lookup (s : TokenStore) (now : Z) (id : bytes) : option VaultToken :=
  t ← tokens s !! id; if VaultToken.is_expired now t then None else Some t.
Definition lookup_by_accessor (s : TokenStore) (now : Z) (accessor : bytes) : option VaultToken :=
  id ← accessors s !! accessor; lookup s now id.
Definition renew (s : TokenStore) (id : bytes) (increment_secs : Z) (now : Z) : option (result VaultError VaultToken * TokenStore) :=
  match tokens s !! id with
  | None => Some (Err TokenNotFound, s)
  | Some t =>
      if negb (renewable t) then Some (Err (InvalidRequest (str "token is not renewable")), s)
      else
        let increment := if (0 <? max_ttl t)%Z then Z.min increment_secs (max_ttl t) else increment_secs in
        exp ← after now increment;
        let t := mkToken (VaultTokens.id t) (accessor t) (policies t) (metadata t) increment (max_ttl t) (created_at t) (Some exp) (renewable t)
          (orphan t) (display_name t) (num_uses t) (uses_remaining t) (token_type t) (parent t) (entity_id t) (is_root t) (period t)
          (explicit_max_ttl t) (bound_cidrs t) (role_name t) in
        Some (Ok t, mkStore (<[id := t]> (tokens s)) (accessors s) (children s))
  end.
Definition revoke (s : TokenStore) (id : bytes) : bool * TokenStore :=
  match tokens s !! id with
  | Some t => (true, mkStore (delete id (tokens s)) (delete (accessor t) (accessors s)) (children s))
  | None => (false, s)
  end.
(** A call removes the list of children it goes through. *)
Fixpoint revoke_tree (fuel : nat) (s : TokenStore) (id : bytes) : option TokenStore :=
  match fuel with
  | O => None
  | S fuel =>
      let kids := default [] (children s !! id) in
      s ← foldl (λ acc child, s ← acc; revoke_tree fuel s child) (Some (mkStore (tokens s) (accessors s) (delete id (children s)))) kids;
      Some (revoke s id).2
  end.
Definition revoke_all (s : TokenStore) (id : bytes) : option TokenStore := revoke_tree (S (size (children s))) s id.
Definition insert_direct (s : TokenStore) (token : VaultToken) : TokenStore :=
  mkStore (<[VaultTokens.id token := token]> (tokens s)) (<[accessor token := VaultTokens.id token]> (accessors s)) (children s).
End Ops.
End TokenStore.

(** ** Revoking a tree *)

Definition edge (m : gmap bytes (list bytes)) (x y : bytes) : Prop := ∃ l, m !! x = Some l ∧ y ∈ l.
Definition reach (m : gmap bytes (list bytes)) : bytes → bytes → Prop := rtc (edge m).

Lemma reach_mono m m' x y : m ⊆ m' → reach m x y → reach m' x y.
Proof.
  intros Hm. induction 1 as [|x y z (l & Hl & Hy) _ IH]; [done|]. eapply rtc_l; [|exact IH]. exists l. split; [|done]. by eapply lookup_weaken.
Qed.
(** A path either stays where nothing was taken away or goes through what was. *)
Lemma reach_split m m' x y : reach m x y → reach m' x y ∨ ∃ k, reach m x k ∧ m' !! k ≠ m !! k ∧ reach m k y.
Proof.
  induction 1 as [x|x y z (l & Hl & Hy) Hr IH]; [by left; constructor|]. assert (He : edge m x y) by by exists l.
  destruct (decide (m' !! x = m !! x)) as [Hx|Hx].
  - destruct IH as [IH|(k & H1 & H2 & H3)]; [left; eapply rtc_l; [exists l; by rewrite Hx|done]|]. right. exists k. split_and!; [by eapply rtc_l|done..].
  - right. exists x. split_and!; [constructor|done|by eapply rtc_l].
Qed.
Lemma reach_first m x k : reach m x k → k = x ∨ ∃ c, c ∈ default [] (m !! x) ∧ reach (delete x m) c k.
Proof.
  revert k. apply (rtc_ind_r (λ k, k = x ∨ ∃ c, c ∈ default [] (m !! x) ∧ reach (delete x m) c k)); [by left|].
  intros y z _ (l & Hl & Hz) IH. destruct (decide (y = x)) as [->|Hne].
  - right. exists z. rewrite Hl. split; [done|constructor].
  - destruct IH as [?|(c & Hc & Hr)]; [done|]. right. exists c. split; [done|]. eapply rtc_r; [exact Hr|]. exists l. by rewrite lookup_delete_ne.
Qed.

(** What goes away between two stores is what is reached from [from]. *)
Record removed (s s' : TokenStore) (from : list bytes) : Prop := {
  rm_sub : children s' ⊆ children s;
  rm_gone k x : x ∈ from → reach (children s) x k → tokens s' !! k = None ∧ children s' !! k = None;
  rm_kept k : (tokens s' !! k = tokens s !! k ∧ children s' !! k = children s !! k) ∨ ∃ x, x ∈ from ∧ reach (children s) x k }.
Lemma removed_none s s' from k : removed s s' from → tokens s !! k = None → children s !! k = None → tokens s' !! k = None ∧ children s' !! k = None.
Proof. intros H Ht Hc. destruct (rm_kept _ _ _ H k) as [[-> ->]|(x & Hx & Hr)]; [done|]. by eapply rm_gone. Qed.
Lemma removed_cons s s1 s2 c l : removed s s1 [c] → removed s1 s2 l → removed s s2 (c :: l).
Proof.
  intros H1 H2. split.
  - etrans; [apply H2|apply H1].
  - intros k x Hx Hr. assert (Hc : reach (children s) c k → tokens s2 !! k = None ∧ children s2 !! k = None).
    { intros Hck. destruct (rm_gone _ _ _ H1 k c ltac:(left) Hck). by eapply removed_none. }
    apply elem_of_cons in Hx as [->|Hx]; [by apply Hc|]. destruct (reach_split _ (children s1) _ _ Hr) as [Hr1|(k' & _ & Hd & Hk)]; [by eapply (rm_gone _ _ _ H2)|].
    apply Hc. destruct (rm_kept _ _ _ H1 k') as [[_ He]|(x' & Hx' & Hr')]; [done|]. apply list_elem_of_singleton in Hx' as ->. by etrans.
  - intros k. destruct (rm_kept _ _ _ H2 k) as [[-> ->]|(x & Hx & Hr)].
    + destruct (rm_kept _ _ _ H1 k) as [H|(x & Hx & Hr)]; [by left|]. right. exists x. split; [|done]. apply list_elem_of_singleton in Hx as ->. left.
    + right. exists x. split; [by right|]. eapply reach_mono; [apply H1|done].
Qed.
Lemma removed_nil s : removed s s [].
Proof. split; [done|by intros ? ? ?%elem_of_nil|by left]. Qed.
Lemma revoke_lookup s x k : tokens (TokenStore.revoke s x).2 !! k = (if decide (k = x) then None else tokens s !! k) ∧ children (TokenStore.revoke s x).2 = children s.
Proof.
  unfold TokenStore.revoke. destruct (tokens s !! x) eqn:Hx; cbn [snd tokens children]; (split; [|done]); destruct (decide (k = x)) as [->|];
    [by rewrite lookup_delete_eq|by rewrite lookup_delete_ne|done..].
Qed.
Lemma removed_node s s1 x : removed (mkStore (tokens s) (accessors s) (delete x (children s))) s1 (default [] (children s !! x)) →
  removed s (TokenStore.revoke s1 x).2 [x].
Proof.
  intros H. pose proof (rm_sub _ _ _ H) as Hsub. cbn [children] in Hsub. split.
  - destruct (revoke_lookup s1 x x) as [_ ->]. etrans; [exact Hsub|apply delete_subseteq].
  - intros k ? ->%list_elem_of_singleton Hr. destruct (revoke_lookup s1 x k) as [-> ->]. apply reach_first in Hr as [->|(c & Hc & Hr)].
    + rewrite decide_True by done. split; [done|]. destruct (children s1 !! x) as [l|] eqn:Hl; [|done]. eapply lookup_weaken in Hl; [|exact Hsub]. by rewrite lookup_delete_eq in Hl.
    + destruct (rm_gone _ _ _ H k c Hc Hr) as [-> ->]. by destruct (decide _).
  - intros k. destruct (revoke_lookup s1 x k) as [-> ->]. destruct (decide (k = x)) as [->|Hne].
    + right. exists x. split; [left|constructor].
    + destruct (rm_kept _ _ _ H k) as [[-> ->]|(c & Hc & Hr)]; cbn [tokens children] in *; [left; by rewrite lookup_delete_ne|]. right. exists x. split; [left|].
      destruct (children s !! x) as [l|] eqn:Hl; [|by apply elem_of_nil in Hc]. eapply rtc_l; [by exists l|]. eapply reach_mono; [apply delete_subseteq|done].
Qed.

Lemma revoke_tree_removes fuel s x : (size (children s) < fuel)%nat → ∃ s', TokenStore.revoke_tree fuel s x = Some s' ∧ removed s s' [x].
Proof.
  revert s x. induction fuel as [|fuel IH]; intros s x Hf; [lia|]. cbn [TokenStore.revoke_tree].
  set (s0 := mkStore (tokens s) (accessors s) (delete x (children s))).
  assert (Hl : ∃ s1, foldl (λ acc child, s ← acc; TokenStore.revoke_tree fuel s child) (Some s0) (default [] (children s !! x)) = Some s1 ∧ removed s0 s1 (default [] (children s !! x))).
  { destruct (children s !! x) as [kids|] eqn:Hk; cbn; [|exists s0; split; [done|apply removed_nil]].
    assert (Hs : (size (children s0) < fuel)%nat) .
    { unfold s0. cbn [children]. rewrite map_size_delete_Some by by eexists. assert (size (children s) ≠ 0%nat) by (apply (map_size_ne_0_lookup_2 _ x); by exists kids). destruct (size (children s)) as [|n] eqn:Hn in Hf |- *; [done|]. cbn. lia. }
    clear Hk. generalize dependent s0. intros s0 Hs. induction kids as [|c kids IHk] in s0, Hs |- *; [exists s0; split; [done|apply removed_nil]|].
    cbn [foldl mbind option_bind]. destruct (IH s0 c Hs) as (s1 & -> & H1). destruct (IHk s1) as (s2 & -> & H2); [|exists s2; split; [done|by eapply removed_cons]].
    eapply Nat.le_lt_trans; [apply map_subseteq_size, H1|done]. }
  destruct Hl as (s1 & -> & H1). cbn [mbind option_bind]. eexists. split; [done|by apply removed_node].
Qed.
(** Revoking a tree ends and removes exactly the tokens reached through the lists of children. *)
Lemma revoke_tree_spec s x : ∃ s', TokenStore.revoke_all s x = Some s' ∧
  (∀ k, reach (children s) x k → tokens s' !! k = None) ∧ ∀ k, ¬ reach (children s) x k → tokens s' !! k = tokens s !! k.
Proof.
  destruct (revoke_tree_removes (S (size (children s))) s x) as (s' & Hr & H); [lia|]. exists s'. split_and!; [done| |].
  - intros k Hk. by eapply (rm_gone _ _ _ H k x ltac:(left)).
  - intros k Hk. destruct (rm_kept _ _ _ H k) as [[-> _]|(x' & Hx' & Hr')]; [done|]. apply list_elem_of_singleton in Hx' as ->. done.
Qed.

(** ** Runs *)

(** The caller of a create is a token as it was looked up at some time before. *)
Inductive TokenCall : Type :=
| CCreate (params : CreateTokenParams) (caller : option VaultToken) (new_id new_accessor : option bytes) (now : Z)
| CCreateRoot (root : bytes) (now : Z)
| CRenew (token : bytes) (increment now : Z)
| CRevoke (token : bytes)
| CRevokeTree (token : bytes).

Section Runs.
Context `{CH : !Chrono}.
Implicit Types s : TokenStore.

Definition token_step s (c : TokenCall) : option TokenStore :=
  match c with
  | CCreate params caller i a now => snd <$> TokenStore.create s params caller i a now
  | CCreateRoot root now => Some (TokenStore.create_root s root now).2
  | CRenew token increment now => snd <$> TokenStore.renew s token increment now
  | CRevoke token => Some (TokenStore.revoke s token).2
  | CRevokeTree token => TokenStore.revoke_all s token
  end.
Fixpoint token_run s (cs : list TokenCall) : option TokenStore :=
  match cs with [] => Some s | c :: cs => s ← token_step s c; token_run s cs end.

(** A token is filed under its id, and its parent knows of it. *)
Definition family s : Prop := (∀ k t, tokens s !! k = Some t → id t = k) ∧
  ∀ k t p, tokens s !! k = Some t → parent t = Some p → edge (children s) p k.

Lemma family_create s params caller i a now s' : family s → token_step s (CCreate params caller i a now) = Some s' → family s'.
Proof.
  intros [Hid Hpar]. cbn [token_step]. unfold TokenStore.create.
  set (new_id := match p_id params with Some custom_id => Ok custom_id | None => TokenStore.gen_text i end).
  destruct new_id as [k0|]; [|by intros [= <-]]. destruct (TokenStore.gen_text a) as [acc|]; [|by intros [= <-]].
  destruct (if (0 <? default 3600 (positive_duration (p_ttl params)))%Z then _ else _) as [e|]; [|done]. cbn [mbind option_bind fmap option_fmap option_map snd]. intros [= <-].
  set (parent_id := if default false (p_no_parent params) || bool_decide (caller = None) then None else id <$> caller). split.
  - intros k t. cbn [tokens]. rewrite lookup_insert_Some. intros [[<- <-]|[_ Ht]]; [done|by apply Hid].
  - intros k t p. cbn [tokens children]. rewrite lookup_insert_Some. intros [[<- <-]|[Hne Ht]] Hp; cbn [parent] in Hp.
    + rewrite Hp. eexists. split; [by rewrite lookup_insert_eq|]. apply elem_of_app. right. left.
    + destruct (Hpar k t p Ht Hp) as (l & Hl & Hin). destruct parent_id as [q|]; [|by exists l]. destruct (decide (q = p)) as [->|].
      * eexists. split; [by rewrite lookup_insert_eq|]. rewrite Hl. cbn. apply elem_of_app. by left.
      * exists l. by rewrite lookup_insert_ne.
Qed.
Lemma family_renew s token inc now s' : family s → token_step s (CRenew token inc now) = Some s' → family s'.
Proof.
  intros [Hid Hpar]. cbn [token_step]. unfold TokenStore.renew. destruct (tokens s !! token) as [t0|] eqn:Ht0; [|by intros [= <-]].
  destruct (negb (renewable t0)); [by intros [= <-]|]. destruct (after now _) as [e|]; [|done]. intros [= <-]. split.
  - intros k t. cbn [tokens]. rewrite lookup_insert_Some. intros [[<- <-]|[_ Ht]]; [by apply Hid in Ht0|by apply Hid].
  - intros k t p. cbn [tokens children]. rewrite lookup_insert_Some. intros [[<- <-]|[_ Ht]] Hp; [by eapply Hpar|by eapply Hpar].
Qed.
Lemma family_step s c s' : family s → token_step s c = Some s' → family s'.
Proof.
  destruct c as [params caller i a now|root now|token inc now|token|token]; [apply family_create| |apply family_renew| |].
  - intros [Hid Hpar] [= <-]. split; [intros k t|intros k t p]; cbn [tokens children TokenStore.create_root snd]; rewrite lookup_insert_Some.
    + intros [[<- <-]|[_ Ht]]; [done|by apply Hid].
    + intros [[<- <-]|[_ Ht]] Hp; [done|by eapply Hpar].
  - intros [Hid Hpar] [= <-]. split; intros k t; destruct (revoke_lookup s token k) as [-> Hc].
    + destruct (decide _); [done|]. apply Hid.
    + intros p. rewrite Hc. destruct (decide _); [done|]. apply Hpar.
  - intros [Hid Hpar] Hr. cbn [token_step] in Hr. destruct (revoke_tree_removes (S (size (children s))) s token) as (s1 & Hr' & H); [lia|].
    unfold TokenStore.revoke_all in Hr. rewrite Hr' in Hr. injection Hr as <-.
    assert (Hk : ∀ k t, tokens s1 !! k = Some t → tokens s !! k = Some t ∧ ¬ reach (children s) token k).
    { intros k t Ht. assert (¬ reach (children s) token k) by (intros Hk; by destruct (rm_gone _ _ _ H k token ltac:(left) Hk) as [? _]; simplify_eq).
      split; [|done]. destruct (rm_kept _ _ _ H k) as [[<- _]|(x & ->%list_elem_of_singleton & ?)]; done. }
    split; [intros k t Ht; apply (Hid k t), Hk, Ht|]. intros k t p Ht Hp. apply Hk in Ht as [Ht Hnr]. destruct (Hpar k t p Ht Hp) as (l & Hl & Hin).
    exists l. split; [|done]. destruct (rm_kept _ _ _ H p) as [[_ ->]|(x & ->%list_elem_of_singleton & Hx)]; [done|].
    destruct Hnr. eapply rtc_r; [exact Hx|by exists l].
Qed.
Lemma family_run s cs s' : family s → token_run s cs = Some s' → family s'.
Proof.
  revert s. induction cs as [|c cs IH]; intros s Hf; [by intros [= <-]|]. cbn [token_run]. destruct (token_step s c) as [s1|] eqn:Hs; [|done].
  apply IH. by eapply family_step.
Qed.

(** The line of parents of a token. *)
Definition lineage s : bytes → bytes → Prop := rtc (λ k p, ∃ t, tokens s !! k = Some t ∧ parent t = Some p).
Lemma lineage_reach s k x : family s → lineage s k x → reach (children s) x k.
Proof. intros [_ Hf]. induction 1 as [|k p x (t & Ht & Hp) _ IH]; [constructor|]. eapply rtc_r; [exact IH|by eapply Hf]. Qed.

Lemma lineage_mono s s' k x : tokens s ⊆ tokens s' → lineage s k x → lineage s' k x.
Proof.
  intros Hs. induction 1 as [|k p x (t & Ht & Hp) _ IH]; [constructor|]. eapply rtc_l; [|exact IH]. exists t. split; [by eapply lookup_weaken|done].
Qed.

End Runs.

(** ** auth/token.rs *)

Section Handlers.
Context `{CH : !Chrono}.
Implicit Types s : TokenStore.

(** The header [x-vault-token] *)
Definition extract_token (header : option bytes) : result VaultError bytes := ok_or header BadToken.
(** [create_token] and [create_orphan_token] take the lock to look the caller up and again to create. *)
Definition create_token_lookup s (now : Z) (header : option bytes) : result VaultError VaultToken :=
  let? token_str := extract_token header in ok_or (TokenStore.lookup s now token_str) BadToken.
Definition create_token s (params : CreateTokenParams) (caller : VaultToken) (i a : option bytes) (now : Z) : option (result VaultError VaultToken * TokenStore) :=
  TokenStore.create s params (Some caller) i a now.
Definition orphaned (p : CreateTokenParams) : CreateTokenParams :=
  mkParams (p_id p) (p_policies p) (p_metadata p) (Some true) (p_no_default_policy p) (p_renewable p) (p_ttl p) (p_explicit_max_ttl p) (p_display_name p)
    (p_num_uses p) (p_period p) (p_role_name p) (p_token_type p) (p_entity_alias p) (p_bound_cidrs p).
Definition create_orphan_token s (params : CreateTokenParams) (i a : option bytes) (now : Z) : option (result VaultError VaultToken * TokenStore) :=
  TokenStore.create s (orphaned params) None i a now.
Definition lookup_self s (now : Z) (header : option bytes) : result VaultError VaultToken :=
  let? token_str := extract_token header in ok_or (TokenStore.lookup s now token_str) BadToken.
Definition lookup_token s (now : Z) (header token : option bytes) : result VaultError VaultToken :=
  let? _ := extract_token header in
  let? target := ok_or token (InvalidRequest (str "token required")) in ok_or (TokenStore.lookup s now target) TokenNotFound.
Definition lookup_accessor s (now : Z) (header accessor : option bytes) : result VaultError VaultToken :=
  let? _ := extract_token header in
  let? accessor := ok_or accessor (InvalidRequest (str "accessor required")) in ok_or (TokenStore.lookup_by_accessor s now accessor) TokenNotFound.
Definition renew_token s (header token increment : option bytes) (now : Z) : option (result VaultError VaultToken * TokenStore) :=
  match extract_token header, token with
  | Err e, _ => Some (Err e, s)
  | Ok _, None => Some (Err (InvalidRequest (str "token required")), s)
  | Ok _, Some target => TokenStore.renew s target (default 3600%Z (parse_duration <$> increment)) now
  end.
Definition renew_self s (header increment : option bytes) (now : Z) : option (result VaultError VaultToken * TokenStore) :=
  match extract_token header with
  | Err e => Some (Err e, s)
  | Ok token_str => TokenStore.renew s token_str (default 3600%Z (parse_duration <$> increment)) now
  end.
Definition revoke_token s (header token : option bytes) : option (result VaultError unit * TokenStore) :=
  match extract_token header, token with
  | Err e, _ => Some (Err e, s)
  | Ok _, None => Some (Err (InvalidRequest (str "token required")), s)
  | Ok _, Some target => s ← TokenStore.revoke_all s target; Some (Ok tt, s)
  end.
Definition revoke_self s (header : option bytes) : result VaultError unit * TokenStore :=
  match extract_token header with Err e => (Err e, s) | Ok token_str => (Ok tt, (TokenStore.revoke s token_str).2) end.
Definition revoke_accessor s (header accessor : option bytes) (now : Z) : option (result VaultError unit * TokenStore) :=
  match extract_token header, accessor with
  | Err e, _ => Some (Err e, s)
  | Ok _, None => Some (Err (InvalidRequest (str "accessor required")), s)
  | Ok _, Some accessor =>
      match TokenStore.lookup_by_accessor s now accessor with
      | None => Some (Err TokenNotFound, s)
      | Some t => s ← TokenStore.revoke_all s (id t); Some (Ok tt, s)
      end
  end.
Definition revoke_orphan s (header token : option bytes) : result VaultError unit * TokenStore :=
  match extract_token header, token with
  | Err e, _ => (Err e, s)
  | Ok _, None => (Err (InvalidRequest (str "token required")), s)
  | Ok _, Some target => (Ok tt, (TokenStore.revoke s target).2)
  end.
(** The accessors of the map, in its order *)
Definition list_accessors s (header : option bytes) : result VaultError (list bytes) :=
  let? _ := extract_token header in Ok (map_to_list (accessors s)).*1.
End Handlers.

(** ** Concrete stores *)

Module PlainChrono.
#[export] Instance Plain : Chrono := {| after t n := Some (t + n * 1000000000)%Z |}.
#[export] Instance Plain_laws : ChronoLaws.
Proof. split. by intros t n t' [= <-]. Qed.
End PlainChrono.
#[local] Existing Instances PlainChrono.Plain.
Definition no_params : CreateTokenParams := mkParams None None None None None None None None None None None None None None None.
Definition with_policies (l : list bytes) : CreateTokenParams := mkParams None (Some l) None None None None None None None None None None None None None.
Definition token_of (s : TokenStore) (k : bytes) : option VaultToken := tokens s !! k.
(** A token under another one. *)
Definition child (k parent_key : bytes) (cs : list TokenCall) : list TokenCall :=
  cs ++ [CCreate no_params (s ← token_run TokenStore.new cs; token_of s parent_key) (Some k) (Some (65 :: k)) 0].
Definition three_tokens : list TokenCall := child [3] [2] (child [2] [1] [CCreate no_params None (Some [1]) (Some [65; 1]) 0]).


(** ** What goes wrong *)

(** Between the two locks of [create_token] the caller can be revoked with its tree: it then
    has a live child. *)
Lemma child_of_revoked : ∃ s caller s1 t s2, token_run TokenStore.new [CCreate no_params None (Some [1]) (Some [65; 1]) 0] = Some s ∧
  create_token_lookup s 0 (Some [1]) = Ok caller ∧ TokenStore.revoke_all s [1] = Some s1 ∧
  create_token s1 no_params caller (Some [2]) (Some [65; 2]) 0 = Some (Ok t, s2) ∧ TokenStore.lookup s2 0 [2] = Some t ∧ parent t = Some [1] ∧ tokens s2 !! [1] = None.
Proof. eexists _, _, _, _, _. do 4 (split; [vm_compute; reflexivity|]). by vm_compute. Qed.
(** Any token can create one with the policy [root]. *)
Lemma child_with_root : ∃ s caller t s2, token_run TokenStore.new [CCreate no_params None (Some [1]) (Some [65; 1]) 0] = Some s ∧
  create_token_lookup s 0 (Some [1]) = Ok caller ∧ policies caller = [str "default"] ∧
  create_token s (with_policies [str "root"]) caller (Some [2]) (Some [65; 2]) 0 = Some (Ok t, s2) ∧ policies t = [str "root"; str "default"].
Proof. eexists _, _, _, _. do 2 (split; [vm_compute; reflexivity|]). split; [done|]. split; [vm_compute; reflexivity|]. by vm_compute. Qed.
(** A token that revokes itself leaves its children behind. *)
Lemma revoke_self_keeps_children : ∃ s, token_run TokenStore.new three_tokens = Some s ∧
  is_Some (TokenStore.lookup (revoke_self s (Some [1])).2 0 [2]).
Proof. eexists. split; [vm_compute; reflexivity|]. vm_compute. by eexists. Qed.
(** Renewing takes the maximum for the length of one extension, so a token can live for ever:
    here one with a maximum of eight hours is alive after sixteen. *)
Lemma renewed_beyond_max : ∃ s, token_run TokenStore.new [CCreate no_params None (Some [1]) (Some [65; 1]) 0; CRenew [1] 28800 3600000000000; CRenew [1] 28800 28800000000000] = Some s ∧
  (max_ttl <$> tokens s !! [1]) = Some 28800%Z ∧ is_Some (TokenStore.lookup s (57600 * 1000000000) [1]).
Proof. eexists. split; [vm_compute; reflexivity|]. split; [done|]. vm_compute. by eexists. Qed.
