(* ===== verification/VaultPolicy.v ===== *)
(** * Policies of the vault

    crates/security/cave-vault/src/core/policy.rs (rules, policies, the store; the parser, which
    works by regular expressions, is left out), and [capabilities_self] of api/sys.rs, which
    joins it with the tokens.

    What a rule matches and grants, which rule decides ([policy_allows_spec]), who is let
    through ([check_spec]), which parameters a request may carry ([check_parameters_spec]), and
    what a token is told of its rights ([capabilities_spec]).  At the end, what the longest-match
    rule does to wildcards and to denials. *)

From S2P Require Import Prelude Bytes VaultShamir VaultTokens.

Inductive Capability : Type := Create | Read | Update | Delete | List | Sudo | Deny | Patch.
#[export] Instance Capability_eq_dec : EqDecision Capability.
Proof. solve_decision. Defined.
Module Capability.
Definition from_str (s : bytes) : option Capability :=
  if bool_decide (s = str "create") then Some Create
  else if bool_decide (s = str "read") then Some Read
  else if bool_decide (s = str "update") then Some Update
  else if bool_decide (s = str "delete") then Some Delete
  else if bool_decide (s = str "list") then Some List
  else if bool_decide (s = str "sudo") then Some Sudo
  else if bool_decide (s = str "deny") then Some Deny
  else if bool_decide (s = str "patch") then Some Patch
  else None.
End Capability.

Record PolicyRule : Type := mkRule {
  path : bytes; capabilities : list Capability; allowed_parameters : list bytes; denied_parameters : list bytes;
  required_parameters : list bytes; min_wrapping_ttl_seconds : Z }.
Record Policy : Type := mkPolicy { name : bytes; rules : list PolicyRule; raw : bytes }.

Definition star : N := 42.
Definition plus : N := 43.
Definition slash : N := 47.
(** [trim_end_matches(c)] *)
Definition trim_end (c : N) (l : bytes) : bytes :=
  rev ((fix go l := match l with x :: l' => if x =? c then go l' else l | [] => [] end) (rev l)).

Module PolicyRule.
Definition matches (r : PolicyRule) (p : bytes) : bool :=
  match last (path r) with
  | Some c =>
      if c =? star then bool_decide (removelast (path r) `prefix_of` p)
      else if c =? plus then
        match starts (removelast (path r)) p with Some rest => negb (existsb (N.eqb slash) rest) | None => false end
      else bool_decide (path r = p)
  | None => bool_decide (path r = p)
  end.
Definition allows (r : PolicyRule) (cap : Capability) : bool :=
  if bool_decide (Deny ∈ capabilities r) then false else bool_decide (cap ∈ capabilities r).
Definition check_parameters (r : PolicyRule) (keys : list bytes) : result bytes unit :=
  match List.find (λ req, negb (existsb (λ k, bool_decide (k = req)) keys)) (required_parameters r) with
  | Some req => Err (str "missing required parameter: " ++ req)
  | None =>
      match List.find (λ k, existsb (λ d, bool_decide (d = k) || bool_decide (d = str "*")) (denied_parameters r)) keys with
      | Some k => Err (str "parameter '" ++ k ++ str "' is denied")
      | None =>
          if negb (bool_decide (allowed_parameters r = [])) && negb (existsb (λ a, bool_decide (a = str "*")) (allowed_parameters r)) then
            match List.find (λ k, negb (existsb (λ a, bool_decide (a = k)) (allowed_parameters r))) keys with
            | Some k => Err (str "parameter '" ++ k ++ str "' is not in allowed_parameters")
            | None => Ok tt
            end
          else Ok tt
      end
  end.
End PolicyRule.

Module Policy.
(** [rule.path.trim_end_matches('*').trim_end_matches('+').len()] *)
Definition rule_len (r : PolicyRule) : usize := vlen (trim_end plus (trim_end star (path r))).
(** The loop over the rules: [best] and [best_len] *)
Fixpoint best_rule (p : bytes) (best : option PolicyRule) (best_len : usize) (rs : list PolicyRule) : option PolicyRule :=
  match rs with
  | [] => best
  | rule :: rs =>
      if PolicyRule.matches rule p && (best_len <? rule_len rule) then best_rule p (Some rule) (rule_len rule) rs
      else best_rule p best best_len rs
  end.
Definition allows (pol : Policy) (p : bytes) (cap : Capability) : bool :=
  match best_rule p None 0 (rules pol) with Some r => PolicyRule.allows r cap | None => false end.
End Policy.

Definition PolicyStore : Type := gmap bytes Policy.
Module PolicyStore.
Definition rule (p : string) (caps : list Capability) : PolicyRule := mkRule (str p) caps [] [] [] 0.
Definition root_policy : Policy :=
  mkPolicy (str "root") [rule "*" [Create; Read; Update; Delete; List; Sudo]]
    (str "path " ++ [34; 42; 34] ++ str " { capabilities = [" ++ mjoin (imap (λ i c, (if decide (i = O) then [] else str ", ") ++ [34] ++ str c ++ [34]) ["create"; "read"; "update"; "delete"; "list"; "sudo"]%string) ++ str "] }").
Definition default_policy : Policy :=
  mkPolicy (str "default")
    [rule "auth/token/lookup-self" [Read]; rule "auth/token/renew-self" [Update]; rule "auth/token/revoke-self" [Update];
     rule "sys/capabilities-self" [Update]; rule "sys/leases/lookup" [Update]; rule "sys/leases/renew" [Update]; rule "sys/renew" [Update];
     rule "sys/tools/hash" [Update]; rule "sys/tools/random/*" [Update]; rule "identity/oidc/provider/+/userinfo" [Read; Update]] [].
Definition new : PolicyStore := <[str "default" := default_policy]> (<[str "root" := root_policy]> ∅).
Definition get (s : PolicyStore) (n : bytes) : option Policy := s !! n.
Definition put (s : PolicyStore) (pol : Policy) : PolicyStore := <[name pol := pol]> s.
Definition delete (s : PolicyStore) (n : bytes) : bool * PolicyStore :=
  if bool_decide (n = str "root") || bool_decide (n = str "default") then (false, s)
  else (bool_decide (is_Some (s !! n)), base.delete n s).
(** The loop over the names returns at the first policy that allows. *)
Definition check (s : PolicyStore) (policy_names : list bytes) (p : bytes) (cap : Capability) : bool :=
  if bool_decide (str "root" ∈ policy_names) then true
  else existsb (λ n, match s !! n with Some pol => Policy.allows pol p cap | None => false end) policy_names.
End PolicyStore.

(** [capabilities_self]: the policies of the caller, and a list of names for every path *)
Definition CAPABILITIES : list bytes := str <$> ["create"; "read"; "update"; "delete"; "list"; "sudo"]%string.
Definition path_caps (s : PolicyStore) (policies : list bytes) (p : bytes) : list bytes :=
  let caps := List.filter (λ c, match Capability.from_str c with Some cap => PolicyStore.check s policies p cap | None => false end) CAPABILITIES in
  match caps with [] => [str "deny"] | _ => caps end.
Definition capabilities_self (ts : TokenStore) (ps : PolicyStore) (now : Z) (header : option bytes) (paths : list bytes) : result VaultError (gmap bytes (list bytes)) :=
  let? token_str := extract_token header in
  let? token := ok_or (TokenStore.lookup ts now token_str) BadToken in
  Ok (foldl (λ m p, <[p := path_caps ps (policies token) p]> m) ∅ paths).

(** ** The rule that decides *)

(** [r] matches, is the first of its length and no matching rule is longer. *)
Definition decides (pol : Policy) (p : bytes) (r : PolicyRule) : Prop := ∃ pre post, rules pol = pre ++ r :: post ∧
  PolicyRule.matches r p = true ∧ 0 < Policy.rule_len r ∧
  (∀ r', r' ∈ pre → PolicyRule.matches r' p = true → Policy.rule_len r' < Policy.rule_len r) ∧
  (∀ r', r' ∈ post → PolicyRule.matches r' p = true → Policy.rule_len r' ≤ Policy.rule_len r).

Lemma best_rule_spec p rs best n :
  (Policy.best_rule p best n rs = best ∧ ∀ r', r' ∈ rs → PolicyRule.matches r' p = true → Policy.rule_len r' ≤ n) ∨
  ∃ pre r post, rs = pre ++ r :: post ∧ Policy.best_rule p best n rs = Some r ∧ PolicyRule.matches r p = true ∧ n < Policy.rule_len r ∧
    (∀ r', r' ∈ pre → PolicyRule.matches r' p = true → Policy.rule_len r' < Policy.rule_len r) ∧
    (∀ r', r' ∈ post → PolicyRule.matches r' p = true → Policy.rule_len r' ≤ Policy.rule_len r).
Proof.
  revert best n. induction rs as [|x rs IH]; intros best n; [by left; split; [|intros r' ?%elem_of_nil]|]. cbn [Policy.best_rule].
  destruct (PolicyRule.matches x p && (n <? Policy.rule_len x)) eqn:Hx.
  - apply andb_prop in Hx as [Hm Hl%N.ltb_lt]. right. destruct (IH (Some x) (Policy.rule_len x)) as [[-> Hall]|(pre & r & post & -> & Hb & H1 & H2 & H3 & H4)].
    + exists [], x, rs. split_and!; try done. by intros r' ?%elem_of_nil.
    + exists (x :: pre), r, post. split_and!; try done; [lia|]. intros r' [->|Hr']%elem_of_cons; auto.
  - assert (Hn : PolicyRule.matches x p = true → Policy.rule_len x ≤ n) by (intros Hm; rewrite Hm in Hx; by apply N.ltb_ge).
    destruct (IH best n) as [[-> Hall]|(pre & r & post & -> & Hb & H1 & H2 & H3 & H4)].
    + left. split; [done|]. intros r' [->|Hr']%elem_of_cons; auto.
    + right. exists (x :: pre), r, post. split_and!; try done. intros r' [->|Hr']%elem_of_cons Hm'; [specialize (Hn Hm'); lia|auto].
Qed.
Lemma best_rule_decides p pre r post best n :
  PolicyRule.matches r p = true → n < Policy.rule_len r → (∀ r', r' ∈ pre → PolicyRule.matches r' p = true → Policy.rule_len r' < Policy.rule_len r) →
  (∀ r', r' ∈ post → PolicyRule.matches r' p = true → Policy.rule_len r' ≤ Policy.rule_len r) → Policy.best_rule p best n (pre ++ r :: post) = Some r.
Proof.
  intros Hm Hn Hpre Hpost. revert best n Hn. induction pre as [|x pre IH]; intros best n Hn; cbn [app Policy.best_rule].
  - rewrite Hm. assert ((n <? Policy.rule_len r) = true) as -> by by apply N.ltb_lt. cbn [andb].
    destruct (best_rule_spec p post (Some r) (Policy.rule_len r)) as [[-> _]|(pre' & r' & post' & -> & _ & H1 & H2 & _)]; [done|].
    specialize (Hpost r' ltac:(apply elem_of_app; right; left) H1). lia.
  - destruct (PolicyRule.matches x p && (n <? Policy.rule_len x)) eqn:Hx; apply IH; try done; try (intros r' Hr'; apply Hpre; by right).
    apply andb_prop in Hx as [Hx _]. apply Hpre; [left|done].
Qed.
(** What a policy says of a path is what its deciding rule says. *)
Lemma policy_allows_spec pol p cap : Policy.allows pol p cap = true ↔ ∃ r, decides pol p r ∧ cap ∈ capabilities r ∧ Deny ∉ capabilities r.
Proof.
  unfold Policy.allows. split.
  - destruct (best_rule_spec p (rules pol) None 0) as [[-> _]|(pre & r & post & Hr & -> & H1 & H2 & H3 & H4)]; [done|]. unfold PolicyRule.allows.
    case_bool_decide as Hd; [done|]. intros Hc%bool_decide_eq_true. exists r. split; [by exists pre, post|done].
  - intros (r & (pre & post & -> & H1 & H2 & H3 & H4) & Hc & Hd). rewrite (best_rule_decides p pre r post None 0) by done. unfold PolicyRule.allows.
    by rewrite bool_decide_false, bool_decide_true.
Qed.

(** Who is let through.  [check] says yes exactly for callers with the policy [root] and
    for those one of whose policies has a deciding rule for the path that lists the capability
    and does not deny: the first of the longest rules that match it. *)
Theorem check_spec s names p cap : PolicyStore.check s names p cap = true ↔ str "root" ∈ names ∨
  ∃ n pol r, n ∈ names ∧ s !! n = Some pol ∧ decides pol p r ∧ cap ∈ capabilities r ∧ Deny ∉ capabilities r.
Proof.
  unfold PolicyStore.check. case_bool_decide as Hroot; [by split; [left|]|]. rewrite existsb_exists. split.
  - intros (n & Hn%list_elem_of_In & Ha). right. destruct (s !! n) as [pol|] eqn:Hp; [|done]. apply policy_allows_spec in Ha as (r & Hr). by exists n, pol, r.
  - intros [?|(n & pol & r & Hn & Hp & Hr)]; [done|]. exists n. split; [by apply list_elem_of_In|]. rewrite Hp. apply policy_allows_spec. by exists r.
Qed.

(** ** Parameters *)

Lemma find_none_iff {A} (f : A → bool) l : List.find f l = None ↔ ∀ x, x ∈ l → f x = false.
Proof.
  split; [intros H x Hx%list_elem_of_In; by eapply List.find_none|]. intros H. destruct (List.find f l) eqn:Hf; [|done].
  apply List.find_some in Hf as [Hin%list_elem_of_In Ht]. rewrite H in Ht; done.
Qed.
Lemma existsb_bytes (b : bytes) l : existsb (λ a, bool_decide (a = b)) l = bool_decide (b ∈ l).
Proof.
  apply eq_bool_prop_intro. rewrite !Is_true_true, existsb_exists, bool_decide_eq_true. split.
  - intros (x & Hx%list_elem_of_In & ->%bool_decide_eq_true). done.
  - intros Hb. exists b. split; [by apply list_elem_of_In|by apply bool_decide_eq_true].
Qed.
Lemma check_parameters_spec r keys : PolicyRule.check_parameters r keys = Ok tt ↔
  (∀ k, k ∈ required_parameters r → k ∈ keys) ∧ (∀ k, k ∈ keys → (k ∉ denied_parameters r) ∧ (str "*" ∉ denied_parameters r)) ∧
  (allowed_parameters r = [] ∨ (str "*") ∈ allowed_parameters r ∨ ∀ k, k ∈ keys → k ∈ allowed_parameters r).
Proof.
  unfold PolicyRule.check_parameters.
  assert (Hd : ∀ k, existsb (λ d, bool_decide (d = k) || bool_decide (d = str "*")) (denied_parameters r) = false ↔ (k ∉ denied_parameters r) ∧ (str "*" ∉ denied_parameters r)).
  { intros k. rewrite <- not_true_iff_false, existsb_exists. split.
    - intros H. split; intros Hin; apply H; eexists; (split; [by apply list_elem_of_In|]); apply orb_true_iff; rewrite !bool_decide_eq_true; auto.
    - intros [H1 H2] (x & Hx%list_elem_of_In & [->%bool_decide_eq_true| ->%bool_decide_eq_true]%orb_true_iff); done. }
  destruct (List.find _ (required_parameters r)) as [req|] eqn:H1.
  { split; [done|]. intros (H & _). apply List.find_some in H1 as [Hin%list_elem_of_In Hn]. rewrite existsb_bytes, bool_decide_true in Hn by auto. done. }
  rewrite find_none_iff in H1. destruct (List.find _ keys) as [k|] eqn:H2.
  { split; [done|]. intros (_ & H & _). apply List.find_some in H2 as [Hin%list_elem_of_In Hk]. apply H, Hd in Hin. congruence. }
  rewrite find_none_iff in H2. assert (Hreq : ∀ k, k ∈ required_parameters r → k ∈ keys).
  { intros k Hk. specialize (H1 k Hk). rewrite existsb_bytes in H1. apply negb_false_iff, bool_decide_eq_true in H1. done. }
  assert (Hden : ∀ k, k ∈ keys → (k ∉ denied_parameters r) ∧ (str "*" ∉ denied_parameters r)) by (intros k Hk; by apply Hd, H2).
  rewrite existsb_bytes. case_bool_decide as Ha; cbn [negb andb]; [split; [intros _; split_and!; auto|done]|].
  case_bool_decide as Hs; cbn [negb andb]; [split; [intros _; split_and!; auto|done]|]. destruct (List.find _ keys) as [k|] eqn:H3.
  - split; [done|]. intros (_ & _ & [?|[?|H]]); [done..|]. apply List.find_some in H3 as [Hin%list_elem_of_In Hk]. rewrite existsb_bytes, bool_decide_true in Hk by auto. done.
  - split; [|done]. intros _. split_and!; [done..|]. right; right. intros k Hk. rewrite find_none_iff in H3. specialize (H3 k Hk). rewrite existsb_bytes in H3.
    apply negb_false_iff, bool_decide_eq_true in H3. done.
Qed.

(** ** What a token is told *)

Lemma capabilities_spec ts ps now k t paths p : TokenStore.lookup ts now k = Some t → p ∈ paths → ∃ m l,
  capabilities_self ts ps now (Some k) paths = Ok m ∧ m !! p = Some l ∧
  (∀ c cap, c ∈ CAPABILITIES → Capability.from_str c = Some cap → c ∈ l ↔ PolicyStore.check ps (policies t) p cap = true).
Proof.
  intros Ht Hp. unfold capabilities_self. cbn [extract_token ok_or]. rewrite Ht. cbn [ok_or].
  set (f := λ (m : gmap bytes (list bytes)) p, <[p := path_caps ps (policies t) p]> m).
  assert (Hm : ∀ l m, (m !! p = Some (path_caps ps (policies t) p) ∨ p ∈ l) → foldl f m l !! p = Some (path_caps ps (policies t) p)).
  { intros l. induction l as [|q l IH]; intros m [Hin|Hin]; [done|by apply elem_of_nil in Hin|..]; cbn [foldl]; apply IH.
    - left. unfold f. destruct (decide (q = p)) as [->|]; [by rewrite lookup_insert_eq|by rewrite lookup_insert_ne].
    - apply elem_of_cons in Hin as [->|Hin]; [left; unfold f; by rewrite lookup_insert_eq|by right]. }
  exists (foldl f ∅ paths), (path_caps ps (policies t) p). split; [done|]. split; [apply Hm; by right|]. intros c cap Hc Hcap. unfold path_caps.
  set (g := λ c, match Capability.from_str c with Some cap => PolicyStore.check ps (policies t) p cap | None => false end).
  assert (Hg : c ∈ List.filter g CAPABILITIES ↔ PolicyStore.check ps (policies t) p cap = true).
  { rewrite list_elem_of_In, List.filter_In, <- list_elem_of_In. unfold g. rewrite Hcap. naive_solver. }
  destruct (List.filter g CAPABILITIES) as [|x l]; [|exact Hg]. rewrite <- Hg, elem_of_nil. split; [|done]. intros ->%list_elem_of_singleton.
  assert (Hd : bool_decide (str "deny" ∈ CAPABILITIES) = false) by done. by apply bool_decide_eq_false in Hd.
Qed.

(** ** What goes wrong *)

Definition policy_of (rs : list PolicyRule) : Policy := mkPolicy [] rs [].
(** A rule for every path has length 0 and never decides: neither its grants nor its denials
    take effect, and the policy [root] works only because [check] looks for its name. *)
Lemma star_never_decides caps p cap : Policy.allows (policy_of [PolicyStore.rule "*" caps]) p cap = false.
Proof. unfold Policy.allows, policy_of. cbn [rules Policy.best_rule]. by destruct (PolicyRule.matches _ p). Qed.
(** A denial in one policy does not count against a grant in another. *)
Lemma denial_overruled : let s := <[[1] := policy_of [PolicyStore.rule "secret/a" [Deny]]]> (<[[2] := policy_of [PolicyStore.rule "secret/*" [Read]]]> PolicyStore.new) in
  PolicyStore.check s [[1]; [2]] (str "secret/a") Read = true.
Proof. by vm_compute. Qed.
(** A plus inside a path stands for itself, so a rule of the default policy matches nothing. *)
Lemma inner_plus_literal : Policy.allows PolicyStore.default_policy (str "identity/oidc/provider/acme/userinfo") Read = false ∧
  Policy.allows PolicyStore.default_policy (str "identity/oidc/provider/+/userinfo") Read = true.
Proof. by vm_compute. Qed.
(** Of an exact rule and a wildcard of the same length the first decides. *)
Lemma order_decides : let a := PolicyStore.rule "secret/a" [Deny] in let b := PolicyStore.rule "secret/a*" [Read] in
  Policy.allows (policy_of [a; b]) (str "secret/a") Read = false ∧ Policy.allows (policy_of [b; a]) (str "secret/a") Read = true.
Proof. by vm_compute. Qed.
