(* ===== verification/LedgerChain.v ===== *)
(** * The audit ledger of cave-ledger

    crates/data/cave-ledger/src: the entries (entry.rs), the hash chain with its
    verification and Merkle root (chain.rs), and the stores (store.rs).

    Parameters, for what comes from other crates: the type and the text of a
    [serde_json::Value], of a [DateTime<Utc>] in RFC 3339, and [hex::encode] of a SHA-256
    digest.  The time of an entry is an argument.

    Verification accepts exactly the well-linked chains, appending keeps them so, and the
    chain is tamper evident: as long as no two of the texts hashed collide, two valid chains
    that end in the same hash have hashed the same texts throughout ([tamper_evident]).  The
    Merkle root binds the hashes of a chain of known length ([merkle_binding]).  What the
    texts leave out or confuse is not protected: see the end of the file. *)

From S2P Require Import Prelude Bytes Files.

(** ** entry.rs *)

Inductive LedgerEntryKind : Type :=
| Deployment | ConfigChange | SelfHealed | Compliance | Security | Identity | TenantLifecycle | FinOps | Chaos
| ApolDecision | Emergency | BackupRestore | Certificate | ResurrectionDrill | PlatformUpgrade
| Custom (name : bytes).
#[export] Instance LedgerEntryKind_eq_dec : EqDecision LedgerEntryKind.
Proof. solve_decision. Defined.

(** [format!("{kind:?}")] *)
Definition kind_text `{!StrDebug} (k : LedgerEntryKind) : bytes :=
  match k with
  | Deployment => str "Deployment" | ConfigChange => str "ConfigChange" | SelfHealed => str "SelfHealed"
  | Compliance => str "Compliance" | Security => str "Security" | Identity => str "Identity"
  | TenantLifecycle => str "TenantLifecycle" | FinOps => str "FinOps" | Chaos => str "Chaos"
  | ApolDecision => str "ApolDecision" | Emergency => str "Emergency" | BackupRestore => str "BackupRestore"
  | Certificate => str "Certificate" | ResurrectionDrill => str "ResurrectionDrill"
  | PlatformUpgrade => str "PlatformUpgrade"
  | Custom name => str "Custom(" ++ debug_str name ++ str ")"
  end.

Record LedgerEntry (Value Time : Type) : Type := mkLedgerEntry {
  sequence : u64; hash : bytes; previous_hash : bytes; kind : LedgerEntryKind; actor : bytes; action : bytes;
  metadata : Value; timestamp : Time; signature : option bytes; tenant_id : option bytes }.
Arguments mkLedgerEntry {Value Time} _ _ _ _ _ _ _ _ _ _.
Arguments sequence {Value Time} _.
Arguments hash {Value Time} _.
Arguments previous_hash {Value Time} _.
Arguments kind {Value Time} _.
Arguments actor {Value Time} _.
Arguments action {Value Time} _.
Arguments metadata {Value Time} _.
Arguments timestamp {Value Time} _.
Arguments signature {Value Time} _.
Arguments tenant_id {Value Time} _.

Record VerifyResult : Type := mkVerifyResult { is_valid : bool; entries_checked : u64; error : option bytes }.

(** What the crate takes from others. *)
Class LedgerEnv (Value Time : Type) : Type := {
  value_text : Value → bytes;
  to_rfc3339 : Time → bytes;
  hex_sha256 : bytes → bytes }.
Arguments value_text {Value Time _} _.
Arguments to_rfc3339 {Value Time _} _.
Class LedgerEnvLaws (Value Time : Type) `{!LedgerEnv Value Time} : Prop :=
  hex_sha256_length text : length (hex_sha256 text) = 64%nat.

Section Ledger.
Context {Value Time : Type} `{SD : !StrDebug} `{LE : !LedgerEnv Value Time}.
Abbreviation LedgerEntry := (LedgerEntry Value Time).
Abbreviation hex_sha256 := (hex_sha256 (Value := Value) (Time := Time)).

(** [format!("{}|{}|{:?}|{}|{}|{}|{}", ...)] *)
Definition content (sequence : u64) (previous_hash : bytes) (kind : LedgerEntryKind) (actor action : bytes)
    (metadata : Value) (timestamp : Time) : bytes :=
  decimal sequence ++ [124] ++ previous_hash ++ [124] ++ kind_text kind ++ [124] ++ actor ++ [124] ++ action ++ [124] ++
  value_text metadata ++ [124] ++ to_rfc3339 timestamp.

Definition new (now : Time) (sequence : u64) (previous_hash : bytes) (kind : LedgerEntryKind) (actor action : bytes)
    (metadata : Value) : LedgerEntry :=
  let content := content sequence previous_hash kind actor action metadata now in
  mkLedgerEntry sequence (hex_sha256 content) previous_hash kind actor action metadata now None None.

Definition entry_content (e : LedgerEntry) : bytes :=
  content (sequence e) (previous_hash e) (kind e) (actor e) (action e) (metadata e) (timestamp e).
Definition verify_hash (e : LedgerEntry) : bool := bool_decide (hex_sha256 (entry_content e) = hash e).

(** ** chain.rs *)

Definition append (entries : list LedgerEntry) (now : Time) (kind : LedgerEntryKind) (actor action : bytes)
    (metadata : Value) : LedgerEntry * list LedgerEntry :=
  let sequence := vlen entries in
  let previous_hash := default [] (hash <$> last entries) in
  let entry := new now sequence previous_hash kind actor action metadata in
  (entry, entries ++ [entry]).

(** The body of the loop, at position [i] behind the entry [prev]: an error ends it. *)
Definition check_entry (i : u64) (prev : option LedgerEntry) (entry : LedgerEntry) : option bytes :=
  if negb (sequence entry =? i) then
    Some (str "Sequence mismatch at index " ++ decimal i ++ str ": expected " ++ decimal i ++ str ", got " ++ decimal (sequence entry))
  else if negb (verify_hash entry) then Some (str "Hash verification failed at sequence " ++ decimal (sequence entry))
  else
    match prev with
    | None =>
        if bool_decide (previous_hash entry = []) then None else Some (str "Genesis entry has non-empty previous_hash")
    | Some prev =>
        if bool_decide (previous_hash entry = hash prev) then None
        else Some (str "Chain broken at sequence " ++ decimal (sequence entry)
                   ++ str ": previous_hash doesn't match entry " ++ decimal (sequence prev))
    end.
Fixpoint verify_from (i : u64) (prev : option LedgerEntry) (entries : list LedgerEntry) : VerifyResult :=
  match entries with
  | [] => mkVerifyResult true i None
  | entry :: entries =>
      match check_entry i prev entry with
      | Some error => mkVerifyResult false i (Some error)
      | None => verify_from (i + 1) (Some entry) entries
      end
  end.
Definition verify (entries : list LedgerEntry) : VerifyResult :=
  match entries with
  | [] => mkVerifyResult true 0 None
  | _ => verify_from 0 None entries
  end.

(** One level: the hashes of [chunks(2)], an odd leaf paired with itself. *)
Fixpoint next_level (hashes : list bytes) : list bytes :=
  match hashes with
  | [] => []
  | [h] => [hex_sha256 (h ++ h)]
  | h1 :: h2 :: hashes => hex_sha256 (h1 ++ h2) :: next_level hashes
  end.
(** [while hashes.len() > 1]; a level is shorter than the one below it. *)
Fixpoint levels (fuel : nat) (hashes : list bytes) : list bytes :=
  match fuel with
  | O => hashes
  | S fuel => if (1 <? length hashes)%nat then levels fuel (next_level hashes) else hashes
  end.
Definition merkle_root (entries : list LedgerEntry) : bytes :=
  match entries with
  | [] => []
  | _ => default [] (head (levels (length entries) (hash <$> entries)))
  end.

Definition find_by_kind (entries : list LedgerEntry) (k : LedgerEntryKind) : list LedgerEntry :=
  filter (λ e, kind_text (kind e) = kind_text k) entries.
Definition find_by_actor (entries : list LedgerEntry) (a : bytes) : list LedgerEntry := filter (λ e, actor e = a) entries.
Definition find_by_tenant (entries : list LedgerEntry) (t : bytes) : list LedgerEntry := filter (λ e, tenant_id e = Some t) entries.

(** ** What verification accepts *)

Definition good (i : u64) (prev : option LedgerEntry) (e : LedgerEntry) : Prop :=
  sequence e = i ∧ hash e = hex_sha256 (entry_content e) ∧ previous_hash e = default [] (hash <$> prev).
Fixpoint linked (i : u64) (prev : option LedgerEntry) (es : list LedgerEntry) : Prop :=
  match es with
  | [] => True
  | e :: es => good i prev e ∧ linked (i + 1) (Some e) es
  end.

Lemma check_entry_good i prev e : check_entry i prev e = None ↔ good i prev e.
Proof.
  unfold check_entry, good, verify_hash. destruct (N.eqb_spec (sequence e) i); cbn [negb]; [|naive_solver].
  case_bool_decide; cbn [negb]; [|naive_solver]. destruct prev; cbn; case_bool_decide; naive_solver.
Qed.
Lemma verify_from_spec i prev es :
  let r := verify_from i prev es in
  (is_valid r = true ↔ linked i prev es) ∧
  (is_valid r = false → ∃ pre e post, es = pre ++ e :: post ∧ linked i prev pre ∧ ¬ linked i prev (pre ++ [e]) ∧ entries_checked r = i + vlen pre).
Proof.
  revert i prev. induction es as [|e es IH]; intros i prev; [done|]. cbn [verify_from linked].
  pose proof (check_entry_good i prev e) as Hc. destruct (check_entry i prev e) as [err|].
  - cbn. split; [naive_solver|]. intros _. exists [], e, es. split_and!; [done|done|naive_solver|by rewrite N.add_0_r].
  - destruct (IH (i + 1) (Some e)) as [H1 H2]. split; [naive_solver|]. intros (pre & e' & post & -> & Hl & Hn & He)%H2.
    exists (e :: pre), e', post. split_and!; [done|naive_solver|cbn; naive_solver|]. rewrite He, vlen_cons. lia.
Qed.

(** What verification says.  A chain is accepted exactly if every entry has its position
    as sequence number, the hash of its own text, and the hash of its predecessor; a chain
    that is refused is sound up to the entry reported, and not with it. *)
Theorem verify_spec es :
  (is_valid (verify es) = true ↔ linked 0 None es) ∧
  (is_valid (verify es) = false → ∃ pre e post, es = pre ++ e :: post ∧ linked 0 None pre ∧ ¬ linked 0 None (pre ++ [e]) ∧
     entries_checked (verify es) = vlen pre).
Proof. destruct es as [|e es]; [done|]. exact (verify_from_spec 0 None (e :: es)). Qed.

Lemma verify_linked es : is_valid (verify es) = true ↔ linked 0 None es.
Proof. destruct es as [|e es]; [done|]. apply (verify_from_spec 0 None (e :: es)). Qed.
Lemma linked_snoc i prev es e :
  linked i prev (es ++ [e]) ↔ linked i prev es ∧ good (i + vlen es) (match last es with Some p => Some p | None => prev end) e.
Proof.
  revert i prev. induction es as [|e' es IH]; intros i prev; cbn [app linked].
  - rewrite N.add_0_r. cbn. naive_solver.
  - rewrite IH, vlen_cons, last_cons. replace (i + 1 + vlen es) with (i + (vlen es + 1)) by lia. destruct (last es); naive_solver.
Qed.

(** Appending keeps the chain valid and the entries it had. *)
Lemma append_linked es now k a act m :
  linked 0 None es → let '(e, es') := append es now k a act m in linked 0 None es' ∧ es' = es ++ [e] ∧ good (vlen es) (last es) e.
Proof.
  intros Hl. cbn [append]. set (e := new _ _ _ _ _ _ _). assert (Hg : good (vlen es) (last es) e) by by split_and!.
  split_and!; [|done|done]. apply linked_snoc. split; [done|]. rewrite N.add_0_l. by destruct (last es).
Qed.

(** ** Tampering *)

(** No two of the texts collide. *)
Definition no_collision (texts : list bytes) : Prop :=
  ∀ a b, a ∈ texts → b ∈ texts → hex_sha256 a = hex_sha256 b → a = b.

Lemma no_collision_weaken texts texts' : texts' ⊆ texts → no_collision texts → no_collision texts'.
Proof. intros Hs Hn a b Ha Hb. apply Hn; by apply Hs. Qed.
Lemma no_collision_check texts : Forall (λ a, Forall (λ b, hex_sha256 a = hex_sha256 b → a = b) texts) texts → no_collision texts.
Proof. intros H a b Ha Hb. rewrite Forall_forall in H. specialize (H a Ha). rewrite Forall_forall in H. by apply H. Qed.
Lemma decimal_bar a b (x y : bytes) : decimal a ++ 124 :: x = decimal b ++ 124 :: y → a = b ∧ x = y.
Proof.
  destruct (decimal_digits a) as (Ha & _ & Hpa), (decimal_digits b) as (Hb & _ & Hpb). intros H.
  enough (decimal a = decimal b ∧ x = y) as [He ->] by (rewrite He in Hpa; naive_solver).
  clear Hpa Hpb. revert H Hb. generalize (decimal b). induction Ha as [|c l Hc _ IH]; intros [|c' l'] H Hb; cbn in H.
  - by injection H.
  - injection H as <- _. by inversion Hb.
  - by injection H as -> _.
  - injection H as -> H. inversion Hb; subst. destruct (IH l') as [-> ->]; done.
Qed.
Lemma linked_hashes i prev es e : linked i prev es → e ∈ es → hash e = hex_sha256 (entry_content e).
Proof.
  revert i prev. induction es as [|e' es IH]; intros i prev; [by intros _ ?%elem_of_nil|]. intros [(_ & Hh & _) Hl] [->|Hin]%elem_of_cons; [done|by eapply IH].
Qed.
Context `{LL : !LedgerEnvLaws Value Time}.

(** Equal texts at the ends: equal positions and equal hashes before them. *)
Lemma content_prev es1 e1 es2 e2 : linked 0 None (es1 ++ [e1]) → linked 0 None (es2 ++ [e2]) → entry_content e1 = entry_content e2 →
  length es1 = length es2 ∧ hash <$> last es1 = hash <$> last es2.
Proof.
  rewrite !linked_snoc, !N.add_0_l. intros [Hl1 (Hs1 & _ & Hp1)] [Hl2 (Hs2 & _ & Hp2)] He.
  unfold entry_content, content in He. cbn [app] in He. apply decimal_bar in He as [Hs He]. rewrite Hs1, Hs2 in Hs.
  assert (Hlen : length es1 = length es2) by (unfold vlen in Hs; lia). split; [done|].
  destruct es1 as [|a1 l1 _] using rev_ind; [by destruct es2|]. destruct es2 as [|a2 l2 _] using rev_ind; [rewrite length_app in Hlen; cbn in Hlen; lia|].
  rewrite !last_snoc in *. cbn [fmap option_fmap option_map default id] in *. f_equal. rewrite Hp1, Hp2 in He.
  apply app_inj_1 in He as [He _]; [done|]. rewrite (linked_hashes _ _ _ a1 Hl1), (linked_hashes _ _ _ a2 Hl2) by (apply elem_of_app; right; left).
  by rewrite !hex_sha256_length.
Qed.

(** C14: the ledger is tamper evident.  As long as no two of the texts that verification hashes
    in two chains collide, two valid chains that end in the same hash have the same number of
    entries and have hashed the same text at each. *)
Theorem tamper_evident es1 es2 :
  is_valid (verify es1) = true → is_valid (verify es2) = true → no_collision (entry_content <$> es1 ++ es2) →
  hash <$> last es1 = hash <$> last es2 →
  entry_content <$> es1 = entry_content <$> es2 ∧ hash <$> es1 = hash <$> es2.
Proof.
  rewrite !verify_linked. revert es2. induction es1 as [|e1 es1 IH] using rev_ind; intros es2 H1 H2 Hn Hh.
  { destruct es2 as [|e2 es2 _] using rev_ind; [done|]. by rewrite last_snoc in Hh. }
  destruct es2 as [|e2 es2 _] using rev_ind; [by rewrite last_snoc in Hh|]. rewrite !last_snoc in Hh. injection Hh as Hh.
  assert (He : entry_content e1 = entry_content e2).
  { apply Hn; [apply list_elem_of_fmap_2; set_solver..|].
    rewrite <- (linked_hashes _ _ _ _ H1), <- (linked_hashes _ _ _ _ H2) by (apply elem_of_app; right; left). done. }
  destruct (content_prev _ _ _ _ H1 H2 He) as [_ Hp]. apply linked_snoc in H1 as [H1 _], H2 as [H2 _].
  destruct (IH es2 H1 H2) as [IH1 IH2]; [|done|by rewrite !fmap_app, IH1, IH2; cbn; rewrite He, Hh].
  eapply no_collision_weaken; [|exact Hn]. rewrite !fmap_app. set_solver.
Qed.

(** ** The Merkle root *)

(** The texts hashed on a level, and on all levels. *)
Fixpoint level_texts (hashes : list bytes) : list bytes :=
  match hashes with
  | [] => []
  | [h] => [h ++ h]
  | h1 :: h2 :: hashes => (h1 ++ h2) :: level_texts hashes
  end.
Fixpoint tree_texts (fuel : nat) (hashes : list bytes) : list bytes :=
  match fuel with
  | O => []
  | S fuel => if (1 <? length hashes)%nat then level_texts hashes ++ tree_texts fuel (next_level hashes) else []
  end.

Lemma next_level_texts hashes : next_level hashes = hex_sha256 <$> level_texts hashes.
Proof.
  induction hashes as [hashes IH] using (induction_ltof1 _ length).
  destruct hashes as [|h1 [|h2 hashes]]; [done..|]. cbn. f_equal. apply IH. unfold ltof. cbn. lia.
Qed.
Lemma length_level_texts hashes : length (level_texts hashes) = Nat.div2 (S (length hashes)).
Proof.
  induction hashes as [hashes IH] using (induction_ltof1 _ length).
  destruct hashes as [|h1 [|h2 hashes]]; [done..|]. cbn [level_texts length Nat.div2]. rewrite IH by (unfold ltof; cbn; lia). done.
Qed.
Lemma length_next_level hashes : length (next_level hashes) = Nat.div2 (S (length hashes)).
Proof. by rewrite next_level_texts, length_fmap, length_level_texts. Qed.
Definition digests (hashes : list bytes) : Prop := Forall (λ h, length h = 64%nat) hashes.
Lemma digests_next hashes : digests (next_level hashes).
Proof. rewrite next_level_texts. apply Forall_fmap, Forall_true. apply hex_sha256_length. Qed.
Lemma level_texts_inj hs1 hs2 : length hs1 = length hs2 → digests hs1 → digests hs2 → level_texts hs1 = level_texts hs2 → hs1 = hs2.
Proof.
  revert hs2. induction hs1 as [hs1 IH] using (induction_ltof1 _ length).
  destruct hs1 as [|a1 [|b1 hs1]], hs2 as [|a2 [|b2 hs2]]; try done; cbn [level_texts length]; intros Hl H1 H2 He; try lia.
  - injection He as He. apply Forall_cons in H1 as [H1 _], H2 as [H2 _]. apply app_inj_1 in He as [-> _]; [done|congruence].
  - injection He as He Ht. apply Forall_cons in H1 as [Ha1 [Hb1 H1]%Forall_cons], H2 as [Ha2 [Hb2 H2]%Forall_cons].
    apply app_inj_1 in He as [-> ->]; [|congruence]. do 2 f_equal. apply IH; [unfold ltof; cbn; lia|lia|done..].
Qed.
Lemma fmap_hash_inj l1 l2 : no_collision (l1 ++ l2) → hex_sha256 <$> l1 = hex_sha256 <$> l2 → l1 = l2.
Proof.
  revert l2. induction l1 as [|a l1 IH]; intros [|b l2] Hn H; try done. injection H as H Ht. f_equal.
  - apply Hn; [set_solver..|done].
  - apply IH; [|done]. eapply no_collision_weaken; [|exact Hn]. set_solver.
Qed.
Lemma levels_inj fuel hs1 hs2 : length hs1 = length hs2 → digests hs1 → digests hs2 →
  no_collision (tree_texts fuel hs1 ++ tree_texts fuel hs2) → levels fuel hs1 = levels fuel hs2 → hs1 = hs2.
Proof.
  revert hs1 hs2. induction fuel as [|fuel IH]; intros hs1 hs2 Hl H1 H2 Hn He; [done|]. cbn [levels tree_texts] in *. rewrite Hl in *.
  destruct (1 <? length hs2)%nat; [|done]. apply IH in He; [|by rewrite !length_next_level, Hl|apply digests_next..|].
  - rewrite !next_level_texts in He. apply level_texts_inj; [done..|]. apply fmap_hash_inj; [|done].
    eapply no_collision_weaken; [|exact Hn]. set_solver.
  - eapply no_collision_weaken; [|exact Hn]. set_solver.
Qed.
(** The loop ends with one hash. *)
Lemma levels_one fuel hs : hs ≠ [] → (length hs ≤ fuel)%nat → ∃ h, levels fuel hs = [h].
Proof.
  revert hs. induction fuel as [|fuel IH]; intros hs Hne Hf; [by destruct hs; [|cbn in Hf; lia]|]. cbn [levels].
  destruct (Nat.ltb_spec 1 (length hs)) as [H|H].
  - pose proof (length_next_level hs) as Hn. rewrite Nat.div2_div in Hn.
    pose proof (Nat.Div0.div_lt_upper_bound (S (length hs)) 2 (length hs) ltac:(lia)).
    pose proof (Nat.div_le_lower_bound (S (length hs)) 2 1 ltac:(lia) ltac:(lia)).
    apply IH; [|lia]. intros Hnil. rewrite Hnil in Hn. cbn [length] in Hn. lia.
  - destruct hs as [|h [|]]; cbn in H; [done|by eexists|lia].
Qed.

(** The Merkle root binds the entries.  For two chains of the same length whose hashes are
    digests, equal roots mean equal hashes throughout, as long as no two of the texts hashed
    in the two trees collide. *)
Theorem merkle_binding es1 es2 :
  length es1 = length es2 → digests (hash <$> es1) → digests (hash <$> es2) →
  no_collision (tree_texts (length es1) (hash <$> es1) ++ tree_texts (length es2) (hash <$> es2)) →
  merkle_root es1 = merkle_root es2 → hash <$> es1 = hash <$> es2.
Proof.
  intros Hl H1 H2 Hn Hr. destruct es1 as [|a1 es1], es2 as [|a2 es2]; try done. unfold merkle_root in Hr. rewrite Hl in *.
  destruct (levels_one (length (a2 :: es2)) (hash <$> a1 :: es1)) as [h1 E1]; [done|by rewrite length_fmap, Hl|].
  destruct (levels_one (length (a2 :: es2)) (hash <$> a2 :: es2)) as [h2 E2]; [done|by rewrite length_fmap|].
  rewrite E1, E2 in Hr. cbn in Hr. subst h2. apply (levels_inj (length (a2 :: es2))); [by rewrite !length_fmap|done..|congruence].
Qed.
End Ledger.

(** ** store.rs

    A store is what it holds: the entries in memory, or the bytes of the file. *)

Module InMemoryStore.
Definition persist {E} (entries : list E) (entry : E) : list E := entries ++ [entry].
Definition load_all {E} (entries : list E) : list E := entries.
End InMemoryStore.

(** [str::lines]: split at line feeds, a carriage return before one dropped; no empty last
    line. *)
Definition strip_cr (line : bytes) : bytes :=
  if bool_decide (last line = Some 13) then take (length line - 1) line else line.
Fixpoint lines (line : bytes) (l : bytes) : list bytes :=
  match l with
  | [] => match line with [] => [] | _ => [line] end
  | b :: l => if b =? 10 then strip_cr line :: lines [] l else lines (line ++ [b]) l
  end.

Module FileStore.
Section WithJson.
Context {E : Type} `{JE : !Json E}.

(** [writeln!(file, "{json}")] on a file opened for appending *)
Definition persist (file : bytes) (entry : E) : bytes := file ++ to_json entry ++ [10].

Fixpoint parse_lines (i : N) (ls : list bytes) (entries : list E) : result bytes (list E) :=
  match ls with
  | [] => Ok entries
  | line :: ls =>
      if is_blank line then parse_lines (i + 1) ls entries
      else
        match from_json line with
        | Some entry => parse_lines (i + 1) ls (entries ++ [entry])
        | None => Err (str "Parse error at line " ++ decimal (i + 1))
        end
  end.
(** [None]: no file at the path *)
Definition load_all (file : option bytes) : result bytes (list E) :=
  match file with
  | None => Ok []
  | Some content => parse_lines 0 (lines [] content) []
  end.
End WithJson.
End FileStore.

(** The texts of [serde_json]: one line, and not blank. *)
Class JsonLine (E : Type) `{!Json E} : Prop := {
  json_printable (e : E) : Forall (λ b, 32 ≤ b) (to_json e);
  json_brace (e : E) : head (to_json e) = Some 123
}.

Section Files.
Context {E : Type} `{JE : !Json E} `{JL : !JsonLaws E} `{JO : !JsonLine E}.

Lemma lines_line line l rest : Forall (λ b, 32 ≤ b) (line ++ l) → lines line (l ++ 10 :: rest) = (line ++ l) :: lines [] rest.
Proof.
  revert line. induction l as [|b l IH]; intros line Hl; cbn [app lines].
  - rewrite app_nil_r in *. change (10 =? 10) with true. cbn. f_equal. unfold strip_cr. rewrite bool_decide_false; [done|].
    intros H%last_Some_elem_of. rewrite Forall_forall in Hl. specialize (Hl _ H). lia.
  - pose proof (proj2 (proj1 (Forall_app _ _ _) Hl)) as [Hb _]%Forall_cons. destruct (N.eqb_spec b 10); [lia|]. rewrite IH; by rewrite <- app_assoc.
Qed.
Lemma split_whitespace_word w s l : w ≠ [] → split_whitespace w s l ≠ [].
Proof.
  revert w s. induction l as [|b l IH]; intros w s Hw; [by destruct w|]. cbn [split_whitespace]. destruct s; [|by apply IH].
  destruct (white_space (b :: l)); [apply IH; by destruct w|by destruct w].
Qed.
Lemma json_not_blank (e : E) : is_blank (to_json e) = false.
Proof.
  pose proof (json_brace e) as Hh. destruct (to_json e) as [|b l]; [done|]. injection Hh as ->. unfold is_blank. apply bool_decide_false.
  cbn [split_whitespace white_space]. cbn. by apply split_whitespace_word.
Qed.

Lemma persist_all file (es : list E) : foldl FileStore.persist file es = file ++ mjoin ((λ e, to_json e ++ [10]) <$> es).
Proof.
  revert file. induction es as [|e es IH]; intros file; [by rewrite app_nil_r|]. cbn [foldl]. rewrite IH. unfold FileStore.persist.
  by rewrite <- app_assoc.
Qed.
Lemma load_lines (es : list E) rest i acc :
  FileStore.parse_lines i (lines [] (mjoin ((λ e, to_json e ++ [10]) <$> es) ++ rest)) acc =
  FileStore.parse_lines (i + vlen es) (lines [] rest) (acc ++ es).
Proof.
  revert i acc. induction es as [|e es IH]; intros i acc; [by rewrite app_nil_r, N.add_0_r|]. rewrite fmap_cons.
  change (mjoin ((to_json e ++ [10]) :: ?l)) with ((to_json e ++ [10]) ++ mjoin l). rewrite <- !app_assoc. cbn [app].
  rewrite lines_line by apply json_printable. cbn [FileStore.parse_lines app]. rewrite json_not_blank, from_to_json, IH, <- app_assoc, vlen_cons.
  f_equal. lia.
Qed.

(** The file keeps the ledger.  Whatever entries are persisted one after the other, loading
    the file returns them all, in order. *)
Theorem ledger_file_roundtrip (es : list E) : FileStore.load_all (Some (foldl FileStore.persist [] es)) = Ok es.
Proof. rewrite persist_all. cbn [FileStore.load_all app]. rewrite <- (app_nil_r (mjoin _)), load_lines. done. Qed.

(** A line cut short by a crash makes the whole ledger unreadable. *)
Lemma torn_line_unreadable (es : list E) torn : torn ≠ [] → Forall (λ b, 32 ≤ b) torn → is_blank torn = false → from_json (A := E) torn = None →
  FileStore.load_all (E := E) (Some (foldl FileStore.persist [] es ++ torn)) = Err (str "Parse error at line " ++ decimal (vlen es + 1)).
Proof.
  intros Hne Hp Hb Hj. rewrite persist_all. cbn [FileStore.load_all app]. rewrite load_lines. assert (lines [] torn = [torn]) as ->.
  { clear Hb Hj. enough (H : ∀ w, w ++ torn ≠ [] → lines w torn = [w ++ torn]) by by apply H. clear Hne.
    induction Hp as [|b l Hl _ IH]; intros w Hw; [rewrite app_nil_r in *; by destruct w|]. cbn [lines].
    destruct (N.eqb_spec b 10); [lia|]. rewrite IH, <- app_assoc; [done|by rewrite <- app_assoc]. }
  cbn [FileStore.parse_lines]. rewrite Hb, Hj. by rewrite N.add_0_l.
Qed.
End Files.

(** ** A concrete environment *)

Module LedgerExample.
#[export] Instance quote : StrDebug := λ s, 34 :: s ++ [34].
(** A digest of 64 digits, for evaluation *)
#[export] Instance env : LedgerEnv bytes bytes :=
  {| value_text v := v; to_rfc3339 t := t; hex_sha256 text := mjoin (hex_byte <$> to_be 32 (from_be text)) |}.
#[export] Instance env_laws : LedgerEnvLaws bytes bytes.
Proof. intros text. cbn [hex_sha256 env]. generalize (length_to_be 32 (from_be text)). generalize (to_be 32 (from_be text)). intros l Hl. do 33 (destruct l as [|? l]; try done). Qed.
(** A text of digits behind a brace *)
#[export] Instance number_json : Json N := {|
  to_json n := 123 :: (N.add 48 <$> bits (encode n));
  from_json l := decode (unbits ((λ b, b - 48) <$> tail l)) |}.
#[export] Instance number_json_laws : JsonLaws N.
Proof.
  split. intros n. cbn [to_json from_json number_json tail]. rewrite <- list_fmap_compose.
  rewrite (list_fmap_ext _ id), list_fmap_id, unbits_bits, decode_encode; [done|]. intros i b _. cbn. lia.
Qed.
#[export] Instance number_json_line : JsonLine N.
Proof. split; intros n; [|done]. constructor; [lia|]. apply Forall_fmap, Forall_true. intros b. cbn. lia. Qed.

Definition e0 := (append [] (str "t0") Deployment (str "alice") (str "deploy") (str "{}")).1.
Definition chain := (append [e0] (str "t1") Security (str "bob|ops") (str "rotate") (str "{}")).2.
(** The second entry with the bar moved from the actor to the action. *)
Definition confused := match chain with
  | [a; b] => [a; mkLedgerEntry (sequence b) (hash b) (previous_hash b) (kind b) (str "bob") (str "ops|rotate") (metadata b) (timestamp b) None None]
  | es => es
  end.
Definition retenanted := match chain with
  | [a; b] => [a; mkLedgerEntry (sequence b) (hash b) (previous_hash b) (kind b) (actor b) (action b) (metadata b) (timestamp b) None (Some (str "other"))]
  | es => es
  end.
End LedgerExample.
Import LedgerExample.

Lemma tamper_evident_witness :
  entry_content <$> LedgerExample.chain = entry_content <$> LedgerExample.confused ∧ hash <$> LedgerExample.chain = hash <$> LedgerExample.confused.
Proof.
  apply (tamper_evident LedgerExample.chain LedgerExample.confused); [vm_compute; reflexivity..| |vm_compute; reflexivity].
  apply no_collision_check, (bool_decide_unpack _). vm_compute. exact I.
Defined.

Lemma merkle_binding_witness : hash <$> LedgerExample.chain = hash <$> LedgerExample.retenanted.
Proof.
  apply (merkle_binding LedgerExample.chain LedgerExample.retenanted); [reflexivity|apply (bool_decide_unpack _); vm_compute; exact I..| |vm_compute; reflexivity].
  apply no_collision_check, (bool_decide_unpack _). vm_compute. exact I.
Defined.

Lemma ledger_file_roundtrip_witness : FileStore.load_all (Some (foldl FileStore.persist [] [7; 0; 12])) = Ok [7; 0; 12].
Proof. apply (ledger_file_roundtrip [7; 0; 12]). Defined.

(** ** What the chain does not protect *)

(** The fields are joined with bars and may contain bars: another actor and another action
    with the same text. *)
Lemma fields_confused :
  is_valid (verify LedgerExample.confused) = true ∧ merkle_root LedgerExample.confused = merkle_root LedgerExample.chain ∧
  actor <$> LedgerExample.confused ≠ actor <$> LedgerExample.chain.
Proof. split_and!; [vm_compute; reflexivity..|vm_compute; discriminate]. Qed.
(** The tenant is not in the text. *)
Lemma tenant_not_hashed :
  is_valid (verify LedgerExample.retenanted) = true ∧ find_by_tenant LedgerExample.retenanted (str "other") ≠ find_by_tenant LedgerExample.chain (str "other").
Proof. split; [vm_compute; reflexivity|vm_compute; discriminate]. Qed.
(** An odd hash is paired with itself: a level of three hashes and the one with the third
    repeated have the same root, whatever the digest. *)
Lemma merkle_repeats `{LE : !LedgerEnv Value Time} (a b c : bytes) :
  levels (Value := Value) (Time := Time) 4 [a; b; c] = levels (Value := Value) (Time := Time) 4 [a; b; c; c].
Proof. done. Qed.
