(* ===== verification/StreamsLog.v ===== *)
(** * The partition log of cave-streams

    crates/data/cave-streams/src/segment_log.rs (the segmented log) and log_compaction.rs
    (compaction and retention over the log).

    The atomics and the mutex are one state: every method holds the lock of the segments while
    it changes them.  A [None] is a panic.  A [HashMap] is a [gmap].

    The log refines the list of all records ever appended, of which a growing prefix has been
    given up ([segment_log_refines]); compaction keeps the last value of every key and nothing
    else ([compaction_keeps_view]); a retention sweep drops exactly the entries its policy
    names ([retention_exact]).  What the code does otherwise than its comments say is at the
    end. *)

From S2P Require Import Prelude Bytes.

(** ** segment_log.rs: the log *)

Record LogEntry : Type := mkLogEntry { offset : u64; timestamp_ms : Z; payload : bytes }.
#[export] Instance LogEntry_eq_dec : EqDecision LogEntry.
Proof. solve_decision. Defined.
Record Segment : Type := mkSegment { base_offset : u64; byte_size : u64; entries : list LogEntry; closed : bool }.
Record SegmentLog : Type := mkSegmentLog {
  max_segment_bytes : u64; retention_bytes : u64; segments : list Segment; next_offset : u64; log_start : u64 }.

(** The variants of [StreamsError] these files construct; the topic and the partition of an
    offset error are always empty. *)
Inductive StreamsError : Type :=
| OffsetOutOfRange (offset : Z)
| NotEnoughReplicas (required available : Z)
| Internal (msg : bytes).

Module Segment.
Definition new (base_offset : u64) : Segment := mkSegment base_offset 0 [] false.
Definition close (s : Segment) : Segment := mkSegment (base_offset s) (byte_size s) (entries s) true.
Definition push (s : Segment) (e : LogEntry) : Segment :=
  mkSegment (base_offset s) (byte_size s +w vlen (payload e)) (entries s ++ [e]) (closed s).
End Segment.

(** [iter().sum()] of sizes *)
Definition sum_bytes (sizes : list u64) : u64 := foldl u64_add 0 sizes.

Module SegmentLog.
Definition new (max_segment_bytes : u64) : SegmentLog := mkSegmentLog max_segment_bytes 0 [Segment.new 0] 0 0.
Definition set_retention_bytes (l : SegmentLog) (b : u64) : SegmentLog :=
  mkSegmentLog (max_segment_bytes l) b (segments l) (next_offset l) (log_start l).
Definition with_retention (max_segment_bytes retention_bytes : u64) : SegmentLog :=
  set_retention_bytes (new max_segment_bytes) retention_bytes.

Definition total_bytes (l : SegmentLog) : u64 := sum_bytes (byte_size <$> segments l).

(** [while segs.len() > 1 && total > retention]: drops closed segments from the front. *)
Fixpoint evict (retention total start : u64) (segs : list Segment) : u64 * list Segment :=
  match segs with
  | head :: (_ :: _) as rest =>
      if retention <? total then
        if closed head then
          evict retention (saturating_sub total (byte_size head))
            (default (base_offset head) ((λ e, offset e +w 1) <$> last (entries head))) rest
        else (start, segs)
      else (start, segs)
  | _ => (start, segs)
  end.

Definition append (l : SegmentLog) (data : bytes) (ts : Z) : option (u64 * SegmentLog) :=
  active ← last (segments l);
  let front := removelast (segments l) in
  let needed := vlen data in
  let segs :=
    if (0 <? byte_size active) && (max_segment_bytes l <? byte_size active +w needed)
    then front ++ [Segment.close active; Segment.new (next_offset l)] else segments l in
  let off := next_offset l in
  active ← last segs;
  let segs := removelast segs ++ [Segment.push active (mkLogEntry off ts data)] in
  let '(start, segs) :=
    if 0 <? retention_bytes l then
      let total := sum_bytes (byte_size <$> segs) in
      if retention_bytes l <? total then evict (retention_bytes l) total (log_start l) segs else (log_start l, segs)
    else (log_start l, segs) in
  Some (off, mkSegmentLog (max_segment_bytes l) (retention_bytes l) segs (off +w 1) start).

(** The two loops of [read], over the entries of all segments. *)
Fixpoint read_loop (from_offset : u64) (max_bytes : usize) (es : list LogEntry) (out : list LogEntry) (bytes : usize) : list LogEntry :=
  match es with
  | [] => out
  | e :: es =>
      if offset e <? from_offset then read_loop from_offset max_bytes es out bytes
      else
        let n := vlen (payload e) in
        if negb (bool_decide (out = [])) && (max_bytes <? bytes +w n) then out
        else read_loop from_offset max_bytes es (out ++ [e]) (bytes +w n)
  end.
(** [offset as i64] *)
Definition as_i64 (n : u64) : Z := if n <? 9223372036854775808 then Z.of_N n else (Z.of_N n - 18446744073709551616)%Z.
Definition read (l : SegmentLog) (from_offset : u64) (max_bytes : usize) : result StreamsError (list LogEntry) :=
  if from_offset <? log_start l then Err (OffsetOutOfRange (as_i64 from_offset))
  else Ok (read_loop from_offset max_bytes (mjoin (entries <$> segments l)) [] 0).

Fixpoint drop_below (low : u64) (segs : list Segment) : list Segment :=
  match segs with
  | s :: (_ :: _) as rest => if default (base_offset s) (offset <$> last (entries s)) <? low then drop_below low rest else segs
  | _ => segs
  end.
Definition trim_first (low : u64) (segs : list Segment) : list Segment :=
  match segs with
  | [] => []
  | s :: rest =>
      let es := filter (λ e, low ≤ offset e) (entries s) in
      mkSegment (base_offset s) (sum_bytes ((λ e, vlen (payload e)) <$> es)) es (closed s) :: rest
  end.
Definition truncate_before (l : SegmentLog) (low : u64) : SegmentLog :=
  if low <=? log_start l then l
  else mkSegmentLog (max_segment_bytes l) (retention_bytes l) (trim_first low (drop_below low (segments l))) (next_offset l) low.
End SegmentLog.

(** ** log_compaction.rs *)

Record KeyedRecord : Type := mkKeyedRecord { rkey : bytes; rvalue : option bytes }.

Definition u32_modulus : N := 4294967296.
Module KeyedRecord.
Definition encode (r : KeyedRecord) : bytes :=
  to_be 4 (vlen (rkey r) mod u32_modulus) ++ rkey r ++
  match rvalue r with
  | None => to_be 4 4294967295
  | Some v => to_be 4 (vlen v mod u32_modulus) ++ v
  end.
(** [i32::from_be_bytes(..) < 0] and the value itself *)
Definition decode (p : bytes) : option KeyedRecord :=
  if vlen p <? 8 then None
  else
    let key_len := from_be (take 4 p) in
    if vlen p <? 4 + key_len + 4 then None
    else
      let key := take (N.to_nat key_len) (drop 4 p) in
      let rest := drop (N.to_nat key_len) (drop 4 p) in
      let value_len := from_be (take 4 rest) in
      if 2147483648 <=? value_len then Some (mkKeyedRecord key None)
      else
        let body := drop 4 rest in
        if vlen body <? value_len then None
        else Some (mkKeyedRecord key (Some (take (N.to_nat value_len) body))).
Definition is_tombstone (r : KeyedRecord) : bool := bool_decide (rvalue r = None).
End KeyedRecord.

Record CompactionStats : Type := mkCompactionStats {
  entries_before : usize; entries_after : usize; bytes_before : u64; bytes_after : u64; tombstones_removed : usize }.

(** The loop over the entries: the last entry of each key, and the tombstones seen. *)
Definition keep_latest (acc : gmap bytes LogEntry * usize) (e : LogEntry) : gmap bytes LogEntry * usize :=
  match KeyedRecord.decode (payload e) with
  | None => (<[payload e := e]> acc.1, acc.2)
  | Some rec =>
      if KeyedRecord.is_tombstone rec then (delete (rkey rec) acc.1, acc.2 +w 1)
      else (<[rkey rec := e]> acc.1, acc.2)
  end.
Definition by_offset (a b : LogEntry) : Prop := offset a ≤ offset b.
#[export] Instance by_offset_dec a b : Decision (by_offset a b).
Proof. unfold by_offset. apply _. Defined.

Definition append_all (l : SegmentLog) (es : list LogEntry) : option SegmentLog :=
  foldl (λ ol e, l ← ol; snd <$> SegmentLog.append l (payload e) (timestamp_ms e)) (Some l) es.

Definition compact_log (l : SegmentLog) : option (result StreamsError CompactionStats * SegmentLog) :=
  match SegmentLog.read l (log_start l) u64_max with
  | Err e => Some (Err e, l)
  | Ok es =>
      let '(latest, tombstones) := foldl keep_latest (∅, 0) es in
      let high := next_offset l in
      let l := SegmentLog.truncate_before l high in
      let surviving := merge_sort by_offset (snd <$> map_to_list latest) in
      l ← append_all l surviving;
      Some (Ok (mkCompactionStats (vlen es) (vlen surviving) (sum_bytes ((λ e, vlen (payload e)) <$> es))
                  (sum_bytes ((λ e, vlen (payload e)) <$> surviving)) tombstones), l)
  end.

Record RetentionPolicy : Type := mkRetentionPolicy { time_ms : u64; pbytes : u64 }.
Record RetentionStats : Type := mkRetentionStats { entries_dropped : usize; bytes_dropped : u64; low_watermark : u64 }.

(** [(now_ms - e.timestamp_ms) as u64] *)
Definition age_ms (now_ms ts : Z) : u64 := Z.to_N ((now_ms - ts) mod 18446744073709551616).

Fixpoint retention_loop (p : RetentionPolicy) (now_ms : Z) (es : list LogEntry) (new_low : u64) (dropped : usize) (bytes : u64)
    (current : u64) : u64 * usize * u64 :=
  match es with
  | [] => (new_low, dropped, bytes)
  | e :: es =>
      let n := vlen (payload e) in
      let too_old := (0 <? time_ms p) && (time_ms p <? age_ms now_ms (timestamp_ms e)) in
      let too_big := (0 <? pbytes p) && (pbytes p <? current) in
      if too_old || too_big then
        retention_loop p now_ms es (offset e +w 1) (dropped +w 1) (bytes +w n) (saturating_sub current n)
      else (new_low, dropped, bytes)
  end.
Definition apply_retention (l : SegmentLog) (p : RetentionPolicy) (now_ms : Z) : result StreamsError RetentionStats * SegmentLog :=
  match SegmentLog.read l (log_start l) u64_max with
  | Err e => (Err e, l)
  | Ok es =>
      let total := sum_bytes ((λ e, vlen (payload e)) <$> es) in
      let '(low, dropped, bytes) := retention_loop p now_ms es (log_start l) 0 0 total in
      let l := if 0 <? dropped then SegmentLog.truncate_before l low else l in
      (Ok (mkRetentionStats dropped bytes low), l)
  end.

(** ** The log refines the list of all records *)

(** The records of a history under their offsets. *)
Definition numbered (h : list (Z * bytes)) : list LogEntry := imap (λ i r, mkLogEntry (N.of_nat i) r.1 r.2) h.
Definition sizes (es : list LogEntry) : list u64 := (λ e, vlen (payload e)) <$> es.

Record refines (h : list (Z * bytes)) (l : SegmentLog) : Prop := {
  rf_next : next_offset l = vlen h;
  rf_start : log_start l ≤ vlen h;
  rf_entries : mjoin (entries <$> segments l) = drop (N.to_nat (log_start l)) (numbered h);
  rf_shape : ∃ front active, segments l = front ++ [active] ∧ Forall (λ s, closed s = true ∧ entries s ≠ []) front;
  rf_sizes : Forall (λ s, byte_size s = sum_bytes (sizes (entries s))) (segments l) }.

Lemma numbered_lookup h i e : numbered h !! i = Some e → offset e = N.of_nat i ∧ (i < length h)%nat.
Proof. unfold numbered. rewrite list_lookup_imap_Some. intros (r & Hr & ->). split; [done|by eapply lookup_lt_Some]. Qed.
Lemma numbered_snoc h ts d : numbered (h ++ [(ts, d)]) = numbered h ++ [mkLogEntry (vlen h) ts d].
Proof. unfold numbered. rewrite imap_app. cbn. by rewrite Nat.add_0_r. Qed.
Lemma length_numbered h : length (numbered h) = length h.
Proof. apply length_imap. Qed.
Lemma sum_bytes_snoc l x : sum_bytes (l ++ [x]) = sum_bytes l +w x.
Proof. unfold sum_bytes. by rewrite foldl_app. Qed.
Lemma mjoin_cons {A} (x : list A) l : mjoin (x :: l) = x ++ mjoin l.
Proof. done. Qed.
Lemma mjoin_snoc {A} (l : list (list A)) x : mjoin (l ++ [x]) = mjoin l ++ x.
Proof. by rewrite join_app, mjoin_cons, app_nil_r. Qed.

(** The last entry of a piece of the log: where the piece ends. *)
Lemma piece_end h start (es rest : list LogEntry) e : es ++ rest = drop (N.to_nat start) (numbered h) → last es = Some e →
  start ≤ vlen h → offset e + 1 = start + vlen es ∧ rest = drop (N.to_nat (start + vlen es)) (numbered h) ∧ start + vlen es ≤ vlen h.
Proof.
  intros He Hl Hs. assert (Hlen : (length es + length rest = length h - N.to_nat start)%nat).
  { apply (f_equal length) in He. by rewrite length_app, length_drop, length_numbered in He. }
  rewrite last_lookup in Hl. assert (Hi : (numbered h) !! (N.to_nat start + pred (length es))%nat = Some e).
  { rewrite <- lookup_drop, <- He, lookup_app_l; [done|]. by eapply lookup_lt_Some. }
  apply lookup_lt_Some in Hl. apply numbered_lookup in Hi as [Ho Hb]. unfold vlen in *. split_and!; [lia| |lia].
  replace (N.to_nat (start + N.of_nat (length es))) with (N.to_nat start + length es)%nat by lia.
  by rewrite <- drop_drop, <- He, drop_app_length.
Qed.

Lemma evict_spec h r total start front active : vlen h < u64_modulus → start ≤ vlen h →
  mjoin (entries <$> front ++ [active]) = drop (N.to_nat start) (numbered h) →
  Forall (λ s, closed s = true ∧ entries s ≠ []) front →
  ∃ start' front', SegmentLog.evict r total start (front ++ [active]) = (start', front' ++ [active]) ∧
    start ≤ start' ≤ vlen h ∧ mjoin (entries <$> front' ++ [active]) = drop (N.to_nat start') (numbered h) ∧ suffix front' front.
Proof.
  intros Hh. revert total start. induction front as [|s front IH]; intros total start Hs He Hf.
  { exists start, []. split_and!; [done|lia|lia|done|done]. }
  apply Forall_cons in Hf as [[Hc Hne] Hf].
  assert (Hev : SegmentLog.evict r total start ((s :: front) ++ [active]) =
    if r <? total then SegmentLog.evict r (saturating_sub total (byte_size s)) (default (base_offset s) ((λ e, offset e +w 1) <$> last (entries s))) (front ++ [active])
    else (start, (s :: front) ++ [active])).
  { cbn [app SegmentLog.evict]. rewrite Hc. by destruct front. }
  rewrite Hev. destruct (r <? total); [|exists start, (s :: front); by split_and!].
  cbn [app fmap list_fmap] in He. rewrite mjoin_cons in He. destruct (last (entries s)) as [e|] eqn:Hl; [|by apply last_None in Hl].
  destruct (piece_end _ _ _ _ _ He Hl Hs) as (Ho & Hr & Hb). cbn [fmap option_fmap option_map default id].
  assert (offset e +w 1 = start + vlen (entries s)) as -> by (rewrite u64_add_small; lia).
  destruct (IH (saturating_sub total (byte_size s)) (start + vlen (entries s)) Hb Hr Hf) as (start' & front' & H1 & H2 & H3 & H4).
  exists start', front'. split_and!; [done|lia|lia|done|by apply suffix_cons_r].
Qed.

Lemma mjoin_entries front (s : Segment) : mjoin (entries <$> front ++ [s]) = mjoin (entries <$> front) ++ entries s.
Proof. rewrite fmap_app. apply mjoin_snoc. Qed.
Lemma last_removelast {A} (l : list A) x : last (l ++ [x]) = Some x ∧ removelast (l ++ [x]) = l.
Proof. split; [apply last_snoc|apply removelast_last]. Qed.

(** Rolling: a new active segment, the old one closed; or nothing. *)
Lemma roll_spec l front active needed : segments l = front ++ [active] →
  Forall (λ s, closed s = true ∧ entries s ≠ []) front → Forall (λ s, byte_size s = sum_bytes (sizes (entries s))) (front ++ [active]) →
  ∃ front' active',
    (if (0 <? byte_size active) && (max_segment_bytes l <? byte_size active +w needed)
     then front ++ [Segment.close active; Segment.new (next_offset l)] else segments l) = front' ++ [active'] ∧
    Forall (λ s, closed s = true ∧ entries s ≠ []) front' ∧ Forall (λ s, byte_size s = sum_bytes (sizes (entries s))) (front' ++ [active']) ∧
    mjoin (entries <$> front' ++ [active']) = mjoin (entries <$> front ++ [active]).
Proof.
  intros Hseg Hf Hsz. pose proof Hsz as [Hsf [Ha _]%Forall_cons]%Forall_app. destruct (N.ltb_spec 0 (byte_size active)) as [Hpos|]; cbn [andb].
  2:{ by exists front, active. }
  destruct (max_segment_bytes l <? _); [|by exists front, active].
  exists (front ++ [Segment.close active]), (Segment.new (next_offset l)). rewrite <- app_assoc. split_and!; [done| | |].
  - apply Forall_app. split; [done|]. constructor; [|done]. split; [done|]. cbn. intros He. rewrite Ha, He in Hpos. cbn in Hpos. lia.
  - apply Forall_app. split; [done|]. by repeat constructor.
  - rewrite app_assoc, !mjoin_entries. cbn. by rewrite app_nil_r.
Qed.

(** Retention: some segments at the front go, if any. *)
Lemma retain_spec h r start front active : vlen h < u64_modulus → start ≤ vlen h →
  mjoin (entries <$> front ++ [active]) = drop (N.to_nat start) (numbered h) →
  Forall (λ s, closed s = true ∧ entries s ≠ []) front →
  ∃ start' front',
    (if 0 <? r then
       if r <? sum_bytes (byte_size <$> front ++ [active])
       then SegmentLog.evict r (sum_bytes (byte_size <$> front ++ [active])) start (front ++ [active])
       else (start, front ++ [active])
     else (start, front ++ [active])) = (start', front' ++ [active]) ∧
    start ≤ start' ≤ vlen h ∧ mjoin (entries <$> front' ++ [active]) = drop (N.to_nat start') (numbered h) ∧ suffix front' front ∧
    (r = 0 → start' = start).
Proof.
  intros Hh Hs He Hf. destruct (N.ltb_spec 0 r) as [Hr|]; [destruct (_ <? _)|].
  - destruct (evict_spec h r (sum_bytes (byte_size <$> front ++ [active])) start front active) as (start' & front' & -> & H1 & H2 & H3); [done..|].
    exists start', front'. split_and!; [done|lia|lia|done|done|lia].
  - exists start, front. split_and!; try done; lia.
  - exists start, front. split_and!; try done; lia.
Qed.

Lemma append_refines h l d ts : refines h l → vlen h + 1 < u64_modulus →
  ∃ l', SegmentLog.append l d ts = Some (vlen h, l') ∧ refines (h ++ [(ts, d)]) l' ∧ log_start l ≤ log_start l' ∧
    (retention_bytes l = 0 → log_start l' = log_start l) ∧ retention_bytes l' = retention_bytes l.
Proof.
  intros [Hn Hs He (front & active & Hseg & Hf) Hsz] Hb. unfold SegmentLog.append. rewrite Hseg in Hsz, He.
  destruct (roll_spec l front active (vlen d) Hseg Hf Hsz) as (front' & active' & Hr & Hf' & Hsz' & He').
  assert (last (segments l) = Some active ∧ removelast (segments l) = front) as [-> ->] by (rewrite Hseg; apply last_removelast).
  cbn [mbind option_bind]. rewrite Hr. destruct (last_removelast front' active') as [-> ->]. cbn [mbind option_bind]. rewrite Hn.
  set (active2 := Segment.push active' _). set (h' := h ++ [(ts, d)]).
  assert (Hh' : vlen h' = vlen h + 1) by (unfold h'; by rewrite vlen_app).
  assert (He2 : mjoin (entries <$> front' ++ [active2]) = drop (N.to_nat (log_start l)) (numbered h')).
  { rewrite mjoin_entries. cbn [active2 Segment.push entries]. rewrite app_assoc, <- mjoin_entries, He', He. unfold h'. rewrite numbered_snoc.
    rewrite drop_app_le; [done|]. rewrite length_numbered. unfold vlen in *. lia. }
  assert (Hsz2 : Forall (λ s, byte_size s = sum_bytes (sizes (entries s))) (front' ++ [active2])).
  { apply Forall_app in Hsz' as [Hsz1 [Ha _]%Forall_cons]. apply Forall_app. split; [done|]. constructor; [|done]. cbn.
    unfold sizes. rewrite fmap_app. cbn [fmap list_fmap]. rewrite sum_bytes_snoc. by rewrite Ha. }
  destruct (retain_spec h' (retention_bytes l) (log_start l) front' active2) as (start & front2 & -> & H1 & H2 & (k & ->) & H4); [lia|lia|done|done|].
  eexists. split; [reflexivity|]. cbn. split_and!; [split; cbn|lia|done|done].
  - rewrite u64_add_small; lia.
  - lia.
  - done.
  - exists front2, active2. split; [done|]. by apply Forall_app in Hf' as [_ ?].
  - rewrite <- app_assoc in Hsz2. by apply Forall_app in Hsz2 as [_ ?].
Qed.

Lemma filter_numbered h s low : s ≤ low →
  filter (λ e, low ≤ offset e) (drop (N.to_nat s) (numbered h)) = drop (N.to_nat low) (numbered h).
Proof.
  intros Hs. rewrite <- (take_drop (N.to_nat (low - s)) (drop (N.to_nat s) (numbered h))), filter_app, drop_drop.
  replace (N.to_nat s + N.to_nat (low - s))%nat with (N.to_nat low) by lia. rewrite filter_none, filter_all; [done| |].
  - apply Forall_lookup. intros i e Hi. rewrite lookup_drop in Hi. apply numbered_lookup in Hi as [-> _]. lia.
  - apply Forall_lookup. intros i e Hi. apply lookup_take_Some in Hi as [Hi Hlt]. rewrite lookup_drop in Hi.
    apply numbered_lookup in Hi as [-> _]. lia.
Qed.

Lemma drop_below_spec h low start front active : start ≤ low → start ≤ vlen h →
  mjoin (entries <$> front ++ [active]) = drop (N.to_nat start) (numbered h) → Forall (λ s, closed s = true ∧ entries s ≠ []) front →
  ∃ front' start', SegmentLog.drop_below low (front ++ [active]) = front' ++ [active] ∧ suffix front' front ∧ start' ≤ low ∧ start' ≤ vlen h ∧
    mjoin (entries <$> front' ++ [active]) = drop (N.to_nat start') (numbered h) ∧
    (∀ s, head front' = Some s → ∃ e, last (entries s) = Some e ∧ low ≤ offset e).
Proof.
  revert start. induction front as [|s front IH]; intros start Hs Hb He Hf; [by exists [], start|].
  apply Forall_cons in Hf as [[Hc Hne] Hf].
  assert (Hd : SegmentLog.drop_below low ((s :: front) ++ [active]) =
    if default (base_offset s) (offset <$> last (entries s)) <? low then SegmentLog.drop_below low (front ++ [active]) else (s :: front) ++ [active]).
  { cbn [app SegmentLog.drop_below]. by destruct front. }
  rewrite Hd. destruct (last (entries s)) as [e|] eqn:Hl; [|by apply last_None in Hl]. cbn [fmap option_fmap option_map default id].
  pose proof He as He'. cbn [app fmap list_fmap] in He'. rewrite mjoin_cons in He'. destruct (piece_end _ _ _ _ _ He' Hl Hb) as (Ho & Hr & Hb').
  destruct (N.ltb_spec (offset e) low) as [Hlt|Hge].
  - destruct (IH (start + vlen (entries s))) as (front' & start' & H1 & H2 & H3); [lia|done|done|done|]. exists front', start'.
    split_and!; [done|by apply suffix_cons_r|apply H3..].
  - exists (s :: front), start. split_and!; try done. intros s' [= <-]. by exists e.
Qed.

Lemma trim_first_spec h low start front active : start ≤ low → start ≤ vlen h →
  mjoin (entries <$> front ++ [active]) = drop (N.to_nat start) (numbered h) →
  (∀ s, head front = Some s → ∃ e, last (entries s) = Some e ∧ low ≤ offset e) →
  mjoin (entries <$> SegmentLog.trim_first low (front ++ [active])) = drop (N.to_nat low) (numbered h).
Proof.
  intros Hs Hb He Hh. rewrite <- (filter_numbered h start low Hs), <- He. destruct front as [|s front].
  - cbn. by rewrite !app_nil_r.
  - cbn [app fmap list_fmap SegmentLog.trim_first] in *. rewrite !mjoin_cons in *. cbn [entries]. rewrite filter_app. f_equal. symmetry. apply filter_all.
    destruct (Hh s eq_refl) as (e & Hl & Hle). destruct (piece_end _ _ _ _ _ He Hl Hb) as (Ho & -> & _). apply Forall_lookup. intros i x Hi.
    rewrite lookup_drop in Hi. apply numbered_lookup in Hi as [-> _]. lia.
Qed.

Lemma truncate_refines h l low : refines h l → low ≤ vlen h →
  refines h (SegmentLog.truncate_before l low) ∧ log_start (SegmentLog.truncate_before l low) = N.max (log_start l) low ∧
  retention_bytes (SegmentLog.truncate_before l low) = retention_bytes l.
Proof.
  intros Hrf Hlow. unfold SegmentLog.truncate_before. destruct (N.leb_spec low (log_start l)); [split_and!; [done|lia|done]|].
  destruct Hrf as [Hn Hs He (front & active & Hseg & Hf) Hsz]. rewrite Hseg in *.
  destruct (drop_below_spec h low (log_start l) front active) as (front' & start' & -> & [k ->] & H1 & H2 & H3 & H4); [lia|done|done|done|].
  split_and!; [|cbn; lia|done]. apply Forall_app in Hf as [_ Hf]. rewrite <- app_assoc in Hsz. apply Forall_app in Hsz as [_ Hsz].
  split; cbn [next_offset log_start segments]; [done|done|by eapply trim_first_spec| |].
  - destruct front' as [|s front']; cbn [app SegmentLog.trim_first].
    + by eexists [], _.
    + eexists (_ :: front'), active. split; [done|]. apply Forall_cons in Hf as [[Hc Hne] Hf]. constructor; [|done]. split; [done|]. cbn [entries].
      destruct (H4 s eq_refl) as (e & Hl & Hle). intros Hnil. apply last_Some_elem_of in Hl.
      assert (Hin : e ∈ filter (λ e, low ≤ offset e) (entries s)) by by apply list_elem_of_filter. rewrite Hnil in Hin. by apply elem_of_nil in Hin.
  - destruct front' as [|s front']; cbn [app SegmentLog.trim_first]; [by repeat constructor|]. by apply Forall_cons in Hsz as [_ Hsz]; constructor.
Qed.

(** What a read returns: the first entry whatever its size, and then as many as fit. *)
Fixpoint fitting (max_bytes used : usize) (es : list LogEntry) : list LogEntry :=
  match es with
  | [] => []
  | e :: es => if max_bytes <? used +w vlen (payload e) then [] else e :: fitting max_bytes (used +w vlen (payload e)) es
  end.
Definition batch (max_bytes : usize) (es : list LogEntry) : list LogEntry :=
  match es with
  | [] => []
  | e :: es => e :: fitting max_bytes (0 +w vlen (payload e)) es
  end.

Lemma read_loop_skip from max es1 es2 : Forall (λ e, offset e < from) es1 →
  SegmentLog.read_loop from max (es1 ++ es2) [] 0 = SegmentLog.read_loop from max es2 [] 0.
Proof. induction 1 as [|e es1 He _ IH]; [done|]. cbn [app SegmentLog.read_loop]. destruct (N.ltb_spec (offset e) from); [done|lia]. Qed.
Lemma read_loop_fitting from max es out used : Forall (λ e, from ≤ offset e) es → out ≠ [] →
  SegmentLog.read_loop from max es out used = out ++ fitting max used es.
Proof.
  intros Hes. revert out used. induction Hes as [|e es He _ IH]; intros out used Ho; cbn [SegmentLog.read_loop fitting]; [by rewrite app_nil_r|].
  destruct (N.ltb_spec (offset e) from); [lia|]. rewrite bool_decide_false by done. cbn [negb andb].
  destruct (max <? _); [by rewrite app_nil_r|]. rewrite IH by (by destruct out). by rewrite <- app_assoc.
Qed.
Lemma read_loop_batch from max es : Forall (λ e, from ≤ offset e) es → SegmentLog.read_loop from max es [] 0 = batch max es.
Proof.
  intros Hes. destruct Hes as [|e es He Hes]; [done|]. cbn [SegmentLog.read_loop batch]. destruct (N.ltb_spec (offset e) from); [lia|].
  cbn [andb negb]. rewrite bool_decide_true by done. cbn [andb negb app]. by rewrite read_loop_fitting.
Qed.
Lemma read_refines h l from max : refines h l →
  SegmentLog.read l from max = if from <? log_start l then Err (OffsetOutOfRange (SegmentLog.as_i64 from)) else Ok (batch max (drop (N.to_nat from) (numbered h))).
Proof.
  intros [_ _ He _ _]. unfold SegmentLog.read. destruct (N.ltb_spec from (log_start l)) as [|Hge]; [done|]. f_equal. rewrite He.
  rewrite <- (take_drop (N.to_nat (from - log_start l)) (drop (N.to_nat (log_start l)) (numbered h))), read_loop_skip, drop_drop.
  - replace (N.to_nat (log_start l) + N.to_nat (from - log_start l))%nat with (N.to_nat from) by lia. apply read_loop_batch, Forall_lookup.
    intros i e Hi. rewrite lookup_drop in Hi. apply numbered_lookup in Hi as [-> _]. lia.
  - apply Forall_lookup. intros i e Hi. apply lookup_take_Some in Hi as [Hi Hlt]. rewrite lookup_drop in Hi.
    apply numbered_lookup in Hi as [-> _]. lia.
Qed.

(** Calls that change the log, and the records they append. *)
Inductive LogCall : Type := CAppend (d : bytes) (ts : Z) | CTruncate (low : u64) | CRetain (b : u64).
Definition log_step (l : SegmentLog) (c : LogCall) : option SegmentLog :=
  match c with
  | CAppend d ts => snd <$> SegmentLog.append l d ts
  | CTruncate low => Some (SegmentLog.truncate_before l low)
  | CRetain b => Some (SegmentLog.set_retention_bytes l b)
  end.
Fixpoint log_run (l : SegmentLog) (cs : list LogCall) : option SegmentLog :=
  match cs with [] => Some l | c :: cs => l ← log_step l c; log_run l cs end.
Definition appended (cs : list LogCall) : list (Z * bytes) := omap (λ c, match c with CAppend d ts => Some (ts, d) | _ => None end) cs.
(** Truncations stay within what has been appended. *)
Fixpoint within (n : u64) (cs : list LogCall) : Prop :=
  match cs with
  | [] => True
  | CAppend _ _ :: cs => within (n + 1) cs
  | CTruncate low :: cs => low ≤ n ∧ within n cs
  | CRetain _ :: cs => within n cs
  end.

Lemma log_run_refines h l cs : refines h l → within (vlen h) cs → vlen h + vlen cs < u64_modulus →
  ∃ l', log_run l cs = Some l' ∧ refines (h ++ appended cs) l' ∧ log_start l ≤ log_start l'.
Proof.
  revert h l. induction cs as [|c cs IH]; intros h l Hrf Hw Hb; [exists l; by rewrite app_nil_r|]. rewrite vlen_cons in Hb.
  destruct c as [d ts|low|b]; cbn [log_run log_step within appended omap list_omap mbind option_bind] in *.
  - destruct (append_refines h l d ts Hrf) as (l1 & -> & Hrf1 & Hle & _); [lia|]. cbn [fmap option_fmap option_map mbind option_bind snd].
    destruct (IH (h ++ [(ts, d)]) l1) as (l' & H1 & H2 & H3); [done|by rewrite vlen_app|rewrite vlen_app; change (vlen [(ts, d)]) with 1; lia|].
    exists l'. rewrite <- app_assoc in H2. split_and!; [done|done|lia].
  - destruct Hw as [Hlow Hw]. destruct (truncate_refines h l low Hrf Hlow) as (Hrf1 & Hs & _).
    destruct (IH h _ Hrf1 Hw) as (l' & H1 & H2 & H3); [lia|]. exists l'. split_and!; [done|done|lia].
  - destruct (IH h (SegmentLog.set_retention_bytes l b)) as (l' & H1 & H2 & H3); [by destruct Hrf; split|done|lia|]. by exists l'.
Qed.
Lemma appended_length cs : vlen (appended cs) ≤ vlen cs.
Proof. unfold appended, vlen. induction cs as [|[] cs IH]; cbn in *; lia. Qed.
Lemma within_app n cs1 cs2 : within n (cs1 ++ cs2) → within n cs1 ∧ within (n + vlen (appended cs1)) cs2.
Proof.
  revert n. induction cs1 as [|[d ts|low|b] cs1 IH]; intros n; cbn [app within].
  - by rewrite N.add_0_r.
  - intros [? H]%IH. split; [done|]. cbn [appended omap list_omap]. rewrite vlen_cons. by rewrite (N.add_comm _ 1), N.add_assoc.
  - intros [? [? ?]%IH]. done.
  - apply IH.
Qed.
Lemma refines_new m : refines [] (SegmentLog.new m).
Proof. split; [done|done|done|by exists [], (Segment.new 0)|by repeat constructor]. Qed.

(** C15: the partition log.  Whatever is appended, truncated and retained, the n-th record is at
    offset n for good: reading from an offset that has not been given up returns the records
    appended from there on, in order, as far as the byte budget goes; reading below fails; and
    what is given up is a prefix that only grows and never exceeds what was appended. *)
Theorem segment_log_refines max_segment cs1 cs2 :
  within 0 (cs1 ++ cs2) → vlen (cs1 ++ cs2) < u64_modulus →
  ∃ l1 l2, log_run (SegmentLog.new max_segment) cs1 = Some l1 ∧ log_run l1 cs2 = Some l2 ∧
    log_start l1 ≤ log_start l2 ≤ vlen (appended (cs1 ++ cs2)) ∧ next_offset l2 = vlen (appended (cs1 ++ cs2)) ∧
    ∀ from max, SegmentLog.read l2 from max =
      if from <? log_start l2 then Err (OffsetOutOfRange (SegmentLog.as_i64 from))
      else Ok (batch max (drop (N.to_nat from) (numbered (appended (cs1 ++ cs2))))).
Proof.
  intros [Hw1 Hw2]%within_app Hb.
  rewrite vlen_app in Hb.
  destruct (log_run_refines [] (SegmentLog.new max_segment) cs1 (refines_new _) Hw1) as (l1 & H1 & Hrf1 & _); [change (vlen (@nil (Z * bytes))) with 0; lia|].
  destruct (log_run_refines (appended cs1) l1 cs2 Hrf1 Hw2) as (l2 & H2 & Hrf2 & Hle).
  { pose proof (appended_length cs1). lia. }
  assert (Ha : appended (cs1 ++ cs2) = appended cs1 ++ appended cs2) by apply omap_app.
  exists l1, l2. rewrite Ha. split_and!; [done|done|done|apply Hrf2|apply Hrf2|]. intros from max. by apply read_refines.
Qed.

(** Segments of 4 bytes and 6 bytes of retention: the first segment goes. *)
Lemma segment_log_refines_witness : ∃ l1 l2,
  log_run (SegmentLog.new 4) [CRetain 6; CAppend [1; 2; 3] 0] = Some l1 ∧
  log_run l1 [CAppend [4; 5; 6] 1; CAppend [7] 2; CAppend [8; 9] 3] = Some l2 ∧
  log_start l1 = 0 ∧ log_start l2 = 1 ∧ SegmentLog.read l2 1 4 = Ok [mkLogEntry 1 1 [4; 5; 6]; mkLogEntry 2 2 [7]] ∧
  SegmentLog.read l2 0 4 = Err (OffsetOutOfRange 0).
Proof.
  destruct (segment_log_refines 4 [CRetain 6; CAppend [1; 2; 3] 0] [CAppend [4; 5; 6] 1; CAppend [7] 2; CAppend [8; 9] 3]) as (l1 & l2 & H1 & H2 & _ & _ & Hr);
    [done|done|]. exists l1, l2. split; [done|]. split; [done|].
  vm_compute in H1. injection H1 as <-. vm_compute in H2. injection H2 as <-. by rewrite !Hr.
Defined.

(** ** Compaction keeps the last value of every key *)

(** The key compaction files a payload under, and whether it deletes it. *)
Definition key_of (p : bytes) : bytes := match KeyedRecord.decode p with Some r => rkey r | None => p end.
Definition tombstone (p : bytes) : bool := match KeyedRecord.decode p with Some r => KeyedRecord.is_tombstone r | None => false end.

(** What a compacted list of records is: without tombstones, and without the records a later
    one of the same key supersedes. *)
Fixpoint compacted (rs : list (Z * bytes)) : list (Z * bytes) :=
  match rs with
  | [] => []
  | r :: rs => if tombstone r.2 || existsb (λ r', bool_decide (key_of r'.2 = key_of r.2)) rs then compacted rs else r :: compacted rs
  end.
(** The records of a key. *)
Definition of_key (k : bytes) (rs : list (Z * bytes)) : list (Z * bytes) := filter (λ r, key_of r.2 = k) rs.
(** The record a reader of the whole log holds for a key. *)
Definition last_value (k : bytes) (rs : list (Z * bytes)) : option (Z * bytes) :=
  r ← last (of_key k rs); if tombstone r.2 then None else Some r.

Lemma last_cons_default {A} (x : A) l : last (x :: l) = Some (default x (last l)).
Proof. rewrite last_cons. by destruct (last l). Qed.
Lemma last_filter_cons k r rs : last (of_key k (r :: rs)) =
  match last (of_key k rs) with Some r' => Some r' | None => if decide (key_of r.2 = k) then Some r else None end.
Proof. unfold of_key. rewrite filter_cons. destruct (decide _); [rewrite last_cons_default|]; by destruct (last (filter _ rs)). Qed.
Lemma superseded k (rs : list (Z * bytes)) : existsb (λ r', bool_decide (key_of r'.2 = k)) rs = bool_decide (last (of_key k rs) ≠ None).
Proof.
  induction rs as [|r rs IH]; [done|]. cbn [existsb]. rewrite last_filter_cons, IH.
  destruct (last (of_key _ rs)); [by rewrite orb_true_r|]. rewrite orb_false_r. by destruct (decide _); [rewrite bool_decide_true|rewrite bool_decide_false].
Qed.
Lemma last_value_cons k r rs : last_value k (r :: rs) =
  match last (of_key k rs) with
  | Some r' => last_value k rs
  | None => if decide (key_of r.2 = k) then if tombstone r.2 then None else Some r else None
  end.
Proof. unfold last_value. rewrite last_filter_cons. by destruct (last (of_key _ rs)) as [r'|] eqn:E; [|destruct (decide _)]. Qed.
Lemma compacted_last_value k rs : last_value k (compacted rs) = last_value k rs ∧ last (of_key k (compacted rs)) = last_value k rs.
Proof.
  induction rs as [|r rs [IH1 IH2]]; [done|]. cbn [compacted]. rewrite superseded, last_value_cons.
  destruct (last (of_key (key_of r.2) rs)) as [r'|] eqn:E.
  - rewrite orb_true_r. rewrite IH1, IH2. destruct (decide (key_of r.2 = k)) as [<-|]; [by rewrite E|].
    destruct (last (of_key k rs)) eqn:E'; [done|]. unfold last_value. by rewrite E'.
  - rewrite orb_false_r. destruct (tombstone r.2) eqn:Ht.
    + rewrite IH1, IH2. unfold last_value. destruct (decide (key_of r.2 = k)) as [<-|]; [by rewrite E|]. by destruct (last (of_key k rs)).
    + rewrite last_value_cons, last_filter_cons, IH1, IH2, Ht. destruct (decide (key_of r.2 = k)) as [<-|].
      * unfold last_value. by rewrite E.
      * unfold last_value. destruct (last (of_key k rs)) as [p|]; cbn [mbind option_bind]; [|done]. by destruct (tombstone p.2).
Qed.
Lemma compacted_keys rs : NoDup (key_of ∘ snd <$> compacted rs) ∧ (∀ r, r ∈ compacted rs → r ∈ rs ∧ tombstone r.2 = false).
Proof.
  induction rs as [|r rs [IH1 IH2]]; [split; [constructor|by intros r ?%elem_of_nil]|]. cbn [compacted].
  destruct (tombstone r.2) eqn:Ht; [split; [done|]; intros r' H; split; [right|]; by apply IH2|]. cbn [orb].
  destruct (existsb _ rs) eqn:He; [split; [done|]; intros r' H; split; [right|]; by apply IH2|]. split.
  - constructor; [|done]. intros (r' & Hk & Hr')%list_elem_of_fmap. apply not_true_iff_false in He. apply He, existsb_exists.
    exists r'. split; [by apply list_elem_of_In, IH2|]. by rewrite bool_decide_true.
  - intros r' [->|H]%elem_of_cons; [split; [left|done]|]. split; [right|]; by apply IH2.
Qed.

(** The loop of [compact_log], in terms of the entries. *)
Definition content (e : LogEntry) : Z * bytes := (timestamp_ms e, payload e).
Definition latest_entry (k : bytes) (es : list LogEntry) : option LogEntry :=
  e ← last (filter (λ e, key_of (payload e) = k) es); if tombstone (payload e) then None else Some e.

Lemma keep_latest_spec es k : (foldl keep_latest (∅, 0) es).1 !! k = latest_entry k es.
Proof.
  induction es as [|e es IH] using rev_ind; [apply lookup_empty|]. rewrite foldl_app. cbn [foldl]. unfold latest_entry. rewrite filter_app, filter_cons, filter_nil.
  unfold keep_latest, key_of, tombstone. destruct (KeyedRecord.decode (payload e)) as [r|] eqn:Ed; [destruct (KeyedRecord.is_tombstone r) eqn:Et|];
    cbn [fst]; destruct (decide (_ = k)) as [<-|]; rewrite ?app_nil_r, ?last_snoc; cbn [mbind option_bind]; rewrite ?Ed, ?Et;
    rewrite ?lookup_delete_eq, ?lookup_delete_ne, ?lookup_insert_eq, ?lookup_insert_ne by done; try done; apply IH.
Qed.
Lemma latest_entry_key k es e : latest_entry k es = Some e → key_of (payload e) = k ∧ e ∈ es.
Proof.
  unfold latest_entry. destruct (last (filter _ es)) as [e'|] eqn:El; [|done]. cbn [mbind option_bind]. destruct (tombstone _); intros [= <-].
  by apply last_Some_elem_of, list_elem_of_filter in El.
Qed.

Definition survivors (es : list LogEntry) : list LogEntry := filter (λ e, latest_entry (key_of (payload e)) es = Some e) es.
Lemma surviving_perm es : NoDup es → snd <$> map_to_list (foldl keep_latest (∅, 0) es).1 ≡ₚ survivors es.
Proof.
  intros Hnd. apply NoDup_Permutation; [|by apply NoDup_filter|].
  - apply NoDup_fmap_2_strong; [|apply NoDup_map_to_list]. intros [k1 e1] [k2 e2] H1%elem_of_map_to_list H2%elem_of_map_to_list Heq. cbn in Heq. subst e2.
    rewrite keep_latest_spec in H1, H2. by apply latest_entry_key in H1 as [<- _], H2 as [<- _].
  - intros e. unfold survivors. rewrite list_elem_of_fmap, list_elem_of_filter. split.
    + intros ([k e'] & -> & H%elem_of_map_to_list). rewrite keep_latest_spec in H. cbn [snd]. by destruct (latest_entry_key _ _ _ H) as [<- ?].
    + intros [H _]. exists (key_of (payload e), e). split; [done|]. apply elem_of_map_to_list. by rewrite keep_latest_spec.
Qed.

Lemma sorted_by_lookup {A} (R : relation A) l :
  (∀ i j a b, l !! i = Some a → l !! j = Some b → (i < j)%nat → R a b) → StronglySorted R l.
Proof.
  induction l as [|x l IH]; intros H; constructor.
  - apply IH. intros i j a b Hi Hj Hlt. apply (H (S i) (S j) a b); [done|done|lia].
  - apply Forall_lookup. intros i b Hi. apply (H 0%nat (S i) x b); [done|done|lia].
Qed.
Definition offsets_sorted : list LogEntry → Prop := StronglySorted (λ a b, offset a < offset b).
Lemma numbered_sorted h n : offsets_sorted (drop n (numbered h)).
Proof.
  apply sorted_by_lookup. intros i j a b Hi Hj Hlt. rewrite lookup_drop in Hi, Hj. apply numbered_lookup in Hi as [-> _], Hj as [-> _]. lia.
Qed.
Lemma offsets_sorted_NoDup es : offsets_sorted es → NoDup es.
Proof.
  induction 1 as [|e es _ IH He]; constructor; [|done]. intros Hin. rewrite Forall_forall in He. specialize (He e Hin). lia.
Qed.
Lemma offset_inj es a b : offsets_sorted es → a ∈ es → b ∈ es → offset a = offset b → a = b.
Proof.
  induction 1 as [|e es _ IH He]; [by intros ?%elem_of_nil|]. rewrite Forall_forall in He.
  intros [->|Ha]%elem_of_cons [->|Hb]%elem_of_cons Heq; [done|specialize (He b Hb); lia|specialize (He a Ha); lia|by apply IH].
Qed.
Lemma sorted_weaken {A} (R R' : relation A) l : (∀ a b, R a b → R' a b) → StronglySorted R l → StronglySorted R' l.
Proof. intros HR. induction 1 as [|x l _ IH Hx]; constructor; [done|]. eapply Forall_impl; [exact Hx|]. intros b. apply HR. Qed.
Lemma filter_agree {A} (P Q : A → Prop) `{∀ x, Decision (P x), ∀ x, Decision (Q x)} (l : list A) :
  (∀ x, x ∈ l → P x ↔ Q x) → filter P l = filter Q l.
Proof.
  induction l as [|x l IH]; intros HPQ; [done|]. rewrite !filter_cons, IH by (intros y Hy; apply HPQ; by right).
  pose proof (HPQ x ltac:(left)). destruct (decide (P x)), (decide (Q x)); tauto.
Qed.
Lemma surviving_sorted es : offsets_sorted es →
  merge_sort by_offset (snd <$> map_to_list (foldl keep_latest (∅, 0) es).1) = survivors es.
Proof.
  intros Hs. pose proof (surviving_perm es (offsets_sorted_NoDup es Hs)) as Hp.
  assert (Total by_offset) by (intros a b; unfold by_offset; lia). assert (Transitive by_offset) by (intros a b c; unfold by_offset; lia).
  apply (StronglySorted_unique_strong by_offset); [|by apply StronglySorted_merge_sort; apply _| |by rewrite merge_sort_Permutation].
  - intros a b Ha [_ Hb]%list_elem_of_filter Hab Hba. rewrite merge_sort_Permutation, Hp in Ha. apply list_elem_of_filter in Ha as [_ Ha].
    apply (offset_inj es); [done..|]. unfold by_offset in *. lia.
  - apply sorted_filter. eapply sorted_weaken, Hs. intros a b. unfold by_offset. lia.
Qed.

Lemma latest_entry_tail e es x : x ∈ es → latest_entry (key_of (payload x)) (e :: es) = latest_entry (key_of (payload x)) es.
Proof.
  intros Hx. unfold latest_entry. rewrite filter_cons. destruct (decide _); [|done]. rewrite last_cons_default.
  destruct (last (filter _ es)) eqn:El; [done|]. apply last_None in El.
  assert (Hin : x ∈ filter (λ e, key_of (payload e) = key_of (payload x)) es) by by apply list_elem_of_filter. rewrite El in Hin. by apply elem_of_nil in Hin.
Qed.
Lemma latest_entry_head e es : e ∉ es →
  latest_entry (key_of (payload e)) (e :: es) = Some e ↔
  tombstone (payload e) || existsb (λ r, bool_decide (key_of r.2 = key_of (payload e))) (content <$> es) = false.
Proof.
  intros Hn. unfold latest_entry. rewrite filter_cons_True, last_cons_default by done. cbn [mbind option_bind]. rewrite orb_false_iff.
  destruct (last (filter _ es)) as [x|] eqn:El; cbn [default id].
  - pose proof El as [Hk Hx]%last_Some_elem_of%list_elem_of_filter. split.
    + destruct (tombstone _); intros [= ->]. done.
    + intros [_ He]. apply not_true_iff_false in He. destruct He. apply existsb_exists. exists (content x). split; [|by rewrite bool_decide_true].
      apply list_elem_of_In, list_elem_of_fmap. by exists x.
  - assert (existsb (λ r, bool_decide (key_of r.2 = key_of (payload e))) (content <$> es) = false) as ->.
    { apply not_true_iff_false. intros ([t p] & Hin & Hb%bool_decide_eq_true)%existsb_exists. apply list_elem_of_In, list_elem_of_fmap in Hin as (x & [= -> ->] & Hx).
      apply last_None in El. assert (Hf : x ∈ filter (λ y, key_of (payload y) = key_of (payload e)) es) by by apply list_elem_of_filter.
      rewrite El in Hf. by apply elem_of_nil in Hf. }
    destruct (tombstone _); naive_solver.
Qed.
Lemma survivors_compacted es : NoDup es → content <$> survivors es = compacted (content <$> es).
Proof.
  induction 1 as [|e es Hn _ IH]; [done|]. cbn [fmap list_fmap compacted]. unfold survivors. rewrite filter_cons.
  assert (Ht : filter (λ x, latest_entry (key_of (payload x)) (e :: es) = Some x) es = survivors es).
  { apply filter_agree. intros x Hx. by rewrite latest_entry_tail. }
  rewrite Ht. change (content e).2 with (payload e). destruct (decide _) as [Hd|Hd]; rewrite (latest_entry_head e es Hn) in Hd.
  - rewrite Hd. cbn [fmap list_fmap]. by f_equal.
  - apply not_false_iff_true in Hd. by rewrite Hd.
Qed.

Lemma append_all_refines h l es : refines h l → retention_bytes l = 0 → vlen h + vlen es < u64_modulus →
  ∃ l', append_all l es = Some l' ∧ refines (h ++ (content <$> es)) l' ∧ log_start l' = log_start l.
Proof.
  unfold append_all. revert h l. induction es as [|e es IH]; intros h l Hrf Hr Hb; [exists l; by rewrite app_nil_r|]. rewrite vlen_cons in Hb.
  destruct (append_refines h l (payload e) (timestamp_ms e) Hrf) as (l1 & Ha & Hrf1 & _ & Hs & Hr1); [lia|]. cbn [foldl mbind option_bind]. rewrite Ha.
  cbn [fmap option_fmap option_map snd]. destruct (IH (h ++ [content e]) l1 Hrf1) as (l' & H1 & H2 & H3);
    [congruence|rewrite vlen_app; change (vlen [content e]) with 1; lia|].
  exists l'. rewrite <- app_assoc in H2. split_and!; [done|done|]. rewrite H3. by apply Hs.
Qed.

Lemma batch_all es : batch u64_max es = es.
Proof.
  assert (Hf : ∀ used, fitting u64_max used es = es).
  { induction es as [|e es IH]; intros used; [done|]. cbn [fitting]. destruct (N.ltb_spec u64_max (used +w vlen (payload e))) as [Hlt|]; [|by rewrite IH].
    pose proof (u64_add_range used (vlen (payload e))). unfold u64_max in Hlt. unfold u64_modulus in *. lia. }
  destruct es as [|e es]; [done|]. cbn [batch]. f_equal. specialize (Hf 0). cbn [fitting] in Hf. destruct (u64_max <? _); congruence.
Qed.
Lemma read_all h l : refines h l → SegmentLog.read l (log_start l) u64_max = Ok (drop (N.to_nat (log_start l)) (numbered h)).
Proof. intros Hrf. rewrite (read_refines h) by done. rewrite N.ltb_irrefl. by rewrite batch_all. Qed.
Lemma content_numbered h n : content <$> drop n (numbered h) = drop n h.
Proof.
  rewrite fmap_drop. f_equal. unfold numbered. rewrite fmap_imap. apply list_eq. intros i. rewrite list_lookup_imap. by destruct (h !! i) as [[]|].
Qed.
Lemma compacted_length rs : vlen (compacted rs) ≤ vlen rs.
Proof. unfold vlen. induction rs as [|r rs IH]; [done|]. cbn [compacted]. destruct (_ || _); cbn [length]; lia. Qed.

Lemma compact_refines h l : refines h l → retention_bytes l = 0 → vlen h + vlen h < u64_modulus →
  ∃ st l', compact_log l = Some (Ok st, l') ∧ refines (h ++ compacted (drop (N.to_nat (log_start l)) h)) l' ∧ log_start l' = vlen h ∧
    entries_before st = vlen h - log_start l ∧ entries_after st = vlen (compacted (drop (N.to_nat (log_start l)) h)).
Proof.
  intros Hrf Hr Hb. unfold compact_log. rewrite (read_all h) by done. set (es := drop _ (numbered h)).
  destruct (foldl keep_latest (∅, 0) es) as [latest tombs] eqn:Ef. pose proof (surviving_sorted es (numbered_sorted _ _)) as Hs. rewrite Ef in Hs. cbn [fst] in Hs.
  rewrite Hs. assert (Hc : content <$> survivors es = compacted (drop (N.to_nat (log_start l)) h)).
  { rewrite survivors_compacted by apply offsets_sorted_NoDup, numbered_sorted. unfold es. by rewrite content_numbered. }
  assert (Hlen : vlen (survivors es) = vlen (compacted (drop (N.to_nat (log_start l)) h))) by (rewrite <- Hc; unfold vlen; by rewrite length_fmap).
  destruct (truncate_refines h l (next_offset l) Hrf) as (Hrf1 & Hs1 & Hr1); [rewrite (rf_next h l Hrf); lia|].
  destruct (append_all_refines h _ (survivors es) Hrf1) as (l' & -> & Hrf2 & Hs2); [congruence| |].
  { rewrite Hlen. pose proof (compacted_length (drop (N.to_nat (log_start l)) h)). unfold vlen in *. rewrite length_drop in *. lia. }
  cbn [mbind option_bind]. eexists _, l'. split; [reflexivity|]. cbn [entries_before entries_after]. rewrite Hc in Hrf2. split_and!; [done| | |done].
  - rewrite Hs2, Hs1, (rf_next h l Hrf). pose proof (rf_start h l Hrf). lia.
  - unfold es, vlen. rewrite length_drop, length_numbered. lia.
Qed.


(** A keyed record comes back from its payload, as long as its lengths fit the frame. *)
Lemma keyed_roundtrip r : vlen (rkey r) < u32_modulus → (∀ v, rvalue r = Some v → vlen v < 2147483648) →
  KeyedRecord.decode (KeyedRecord.encode r) = Some r.
Proof.
  intros Hk Hv. destruct r as [k v]. cbn [rkey rvalue] in *. unfold KeyedRecord.encode, KeyedRecord.decode. cbn [rkey rvalue].
  set (tl := match v with None => _ | Some v => _ end). assert (Htl : 4 ≤ vlen tl) by (unfold tl; destruct v; rewrite ?vlen_app, vlen_to_be; lia).
  rewrite N.mod_small, !vlen_app, vlen_to_be by done. change (N.of_nat 4) with 4. destruct (N.ltb_spec (4 + (vlen k + vlen tl)) 8); [lia|].
  assert (take 4 (to_be 4 (vlen k) ++ k ++ tl) = to_be 4 (vlen k)) as -> by (apply take_app_length'; by rewrite length_to_be).
  assert (drop 4 (to_be 4 (vlen k) ++ k ++ tl) = k ++ tl) as -> by (apply drop_app_length'; by rewrite length_to_be).
  rewrite from_be_to_be by done. destruct (N.ltb_spec (4 + (vlen k + vlen tl)) (4 + vlen k + 4)); [lia|].
  assert (Hn : N.to_nat (vlen k) = length k) by (unfold vlen; lia). rewrite Hn, take_app_length, drop_app_length. unfold tl.
  destruct v as [v|]; [|rewrite (take_ge _ 4) by (by rewrite length_to_be); by rewrite from_be_to_be].
  specialize (Hv v eq_refl). rewrite N.mod_small by (unfold u32_modulus; lia).
  assert (take 4 (to_be 4 (vlen v) ++ v) = to_be 4 (vlen v)) as -> by (apply take_app_length'; by rewrite length_to_be).
  assert (drop 4 (to_be 4 (vlen v) ++ v) = v) as -> by (apply drop_app_length'; by rewrite length_to_be).
  rewrite from_be_to_be by (change (256 ^ N.of_nat 4) with 4294967296; lia). destruct (N.leb_spec 2147483648 (vlen v)); [lia|]. rewrite N.ltb_irrefl.
  assert (N.to_nat (vlen v) = length v) as -> by (unfold vlen; lia). by rewrite firstn_all.
Qed.


(** ** Retention sweeps *)

Definition bytes_of (es : list LogEntry) : N := foldr (λ e n, vlen (payload e) + n) 0 es.
(** The reasons to drop an entry, [es] being what is left of the log from it on. *)
Definition expired (p : RetentionPolicy) (now_ms : Z) (e : LogEntry) (es : list LogEntry) : Prop :=
  (0 < time_ms p ∧ time_ms p < age_ms now_ms (timestamp_ms e)) ∨ (0 < pbytes p ∧ pbytes p < bytes_of es).

Lemma sum_bytes_of es : bytes_of es < u64_modulus → sum_bytes (sizes es) = bytes_of es.
Proof.
  unfold sum_bytes, sizes. assert (Hg : ∀ a, a + bytes_of es < u64_modulus → foldl u64_add a ((λ e, vlen (payload e)) <$> es) = a + bytes_of es).
  { induction es as [|e es IH]; intros a Ha; cbn [fmap list_fmap foldl bytes_of foldr] in *; [lia|]. fold (bytes_of es) in *. rewrite u64_add_small, IH; lia. }
  intros H. by rewrite Hg.
Qed.

Lemma retention_loop_spec p now_ms es low dropped bytes : bytes_of es < u64_modulus → dropped + vlen es < u64_modulus →
  ∃ es1 es2 b, es = es1 ++ es2 ∧
    retention_loop p now_ms es low dropped bytes (bytes_of es) = (default low ((λ e, offset e +w 1) <$> last es1), dropped + vlen es1, b) ∧
    (∀ k1 e k2, es1 = k1 ++ e :: k2 → expired p now_ms e (e :: k2 ++ es2)) ∧
    (∀ e, head es2 = Some e → ¬ expired p now_ms e es2).
Proof.
  revert low dropped bytes. induction es as [|e es IH]; intros low dropped bytes Hb Hd.
  { exists [], [], bytes. rewrite N.add_0_r. split_and!; [done|done| |done]. intros [] ? ? [=]. }
  rewrite vlen_cons in Hd. cbn [retention_loop]. set (c := _ || _).
  assert (Hc : c = true ↔ expired p now_ms e (e :: es)) by (unfold c, expired; rewrite orb_true_iff, !andb_true_iff, !N.ltb_lt; tauto).
  cbn [bytes_of foldr] in Hb. fold (bytes_of es) in Hb. destruct c.
  - assert (saturating_sub (bytes_of (e :: es)) (vlen (payload e)) = bytes_of es) as ->
      by (unfold saturating_sub; cbn [bytes_of foldr]; fold (bytes_of es); lia).
    rewrite (u64_add_small dropped 1) by lia. destruct (IH (offset e +w 1) (dropped + 1) (bytes +w vlen (payload e))) as (es1 & es2 & b & -> & -> & H1 & H2); [lia|lia|].
    exists (e :: es1), es2, b. split_and!; [done| | |done].
    + rewrite last_cons_default, vlen_cons. cbn [fmap option_fmap option_map default id]. f_equal. f_equal; [by destruct (last es1)|lia].
    + intros [|x k1] e' k2 [= <- He]; [rewrite <- He; by apply Hc|by eapply H1].
  - exists [], (e :: es), bytes. rewrite N.add_0_r. split_and!; [done|done| |].
    + intros [] ? ? [=].
    + intros e' [= <-]. rewrite <- Hc. done.
Qed.

(** A sweep drops exactly the entries at the front that are too old or too many bytes before
    the end, stops at the first that is neither, and changes no offset. *)
Lemma retention_exact h l p now_ms : refines h l → vlen h < u64_modulus → bytes_of (drop (N.to_nat (log_start l)) (numbered h)) < u64_modulus →
  ∃ st l' es1 es2, apply_retention l p now_ms = (Ok st, l') ∧ refines h l' ∧ low_watermark st = log_start l' ∧ entries_dropped st = vlen es1 ∧
    SegmentLog.read l (log_start l) u64_max = Ok (es1 ++ es2) ∧ SegmentLog.read l' (log_start l') u64_max = Ok es2 ∧
    (∀ k1 e k2, es1 = k1 ++ e :: k2 → expired p now_ms e (e :: k2 ++ es2)) ∧ (∀ e, head es2 = Some e → ¬ expired p now_ms e es2).
Proof.
  intros Hrf Hh Hb. unfold apply_retention. rewrite (read_all h) by done. set (es := drop _ _) in *. pose proof (rf_start h l Hrf) as Hs.
  assert (Hlen : log_start l + vlen es = vlen h) by (unfold es, vlen in *; rewrite length_drop, length_numbered; lia).
  change ((λ e, vlen (payload e)) <$> es) with (sizes es). rewrite sum_bytes_of by done.
  destruct (retention_loop_spec p now_ms es (log_start l) 0 0) as (es1 & es2 & b & He & -> & H1 & H2); [done|lia|]. rewrite N.add_0_l.
  assert (Hrest : es2 = drop (N.to_nat (log_start l + vlen es1)) (numbered h) ∧ log_start l + vlen es1 ≤ vlen h ∧
    default (log_start l) ((λ e, offset e +w 1) <$> last es1) = log_start l + vlen es1).
  { destruct (last es1) as [e|] eqn:El.
    - destruct (piece_end h (log_start l) es1 es2 e) as (Ho & Hr & Hle); [done|done|done|]. split_and!; [done|done|]. cbn. rewrite u64_add_small; lia.
    - apply last_None in El as ->. cbn in *. rewrite N.add_0_r. by rewrite <- He. }
  destruct Hrest as (Hr & Hle & ->). eexists _, _, es1, es2. split; [reflexivity|]. cbn [low_watermark entries_dropped].
  destruct (truncate_refines h l (log_start l + vlen es1) Hrf Hle) as (Hrf' & Hs' & _).
  destruct (N.ltb_spec 0 (vlen es1)).
  - rewrite (read_all h) by done. rewrite Hs', <- He. replace (N.max _ _) with (log_start l + vlen es1) by lia. rewrite <- Hr. by split_and!.
  - destruct es1 as [|x es1]; [|rewrite vlen_cons in *; lia]. rewrite (read_all h) by done. fold es. rewrite He. change (vlen (@nil LogEntry)) with 0.
    rewrite N.add_0_r. by split_and!.
Qed.

(** ** What the comments say otherwise *)

(** [compact_log]: "so old offsets are preserved"; the record at offset 1 is at offset 2
    afterwards, and offset 1 can no longer be read. *)
Lemma compaction_renumbers :
  let r := KeyedRecord.encode (mkKeyedRecord [1] (Some [2])) in
  ∃ l l' st, append_all (SegmentLog.new 64) [mkLogEntry 0 0 r; mkLogEntry 1 5 r] = Some l ∧ compact_log l = Some (Ok st, l') ∧
    SegmentLog.read l 1 u64_max = Ok [mkLogEntry 1 5 r] ∧ SegmentLog.read l' 1 u64_max = Err (OffsetOutOfRange 1) ∧
    SegmentLog.read l' 2 u64_max = Ok [mkLogEntry 2 5 r].
Proof. intros r. eexists _, _, _. split; [vm_compute; reflexivity|]. split; [vm_compute; reflexivity|]. by vm_compute. Qed.

(** [KeyedRecord]: "keyless records are never compacted"; of two equal ones one is lost, and
    so is one whose bytes are the key of a later record. *)
Lemma keyless_compacted :
  let r := KeyedRecord.encode (mkKeyedRecord [7] (Some [2])) in
  compacted [(0%Z, [9]); (1%Z, [9])] = [(1%Z, [9])] ∧ compacted [(0%Z, [7]); (1%Z, r)] = [(1%Z, r)].
Proof. by vm_compute. Qed.

(** A truncation beyond the end is taken: the next append is acknowledged with an offset that
    can never be read. *)
Lemma truncate_beyond_end :
  let l := SegmentLog.truncate_before (SegmentLog.new 64) 5 in
  ∃ l', SegmentLog.append l [1] 0 = Some (0, l') ∧ SegmentLog.read l' 0 u64_max = Err (OffsetOutOfRange 0) ∧ SegmentLog.read l' 5 u64_max = Ok [].
Proof. intros l. eexists. split; [vm_compute; reflexivity|]. by vm_compute. Qed.

(** The age of a record from the future is huge: retention by time drops it first. *)
Lemma future_record_expires ts now_ms : (now_ms < ts)%Z → (ts - now_ms < 1000000000)%Z → 18446744072709551616 < age_ms now_ms ts.
Proof.
  intros H1 H2. unfold age_ms. replace ((now_ms - ts) mod 18446744073709551616)%Z with (18446744073709551616 + (now_ms - ts))%Z; [lia|].
  rewrite <- (Z_mod_plus_full _ 1), Z.mod_small; lia.
Qed.
