(* ===== verification/StreamsEnsemble.v ===== *)
(** * The replicated ensemble of cave-streams

    crates/data/cave-streams/src/segment_log.rs, from [InMemoryBookie] on: entries written to
    the first [write_quorum] bookies, committed with [ack_quorum] acknowledgements, read from
    the first bookie that is up and has them.

    A bookie is its id, its entries and whether it is up; the mutexes are held for one access
    each, and a run is a sequence of writes, fences and unfences.

    Entries of different writes never mix, and an acknowledged entry is read back as written
    while fewer bookies than the ack quorum are down ([acked_entry_readable]).  The last part
    is what the code does otherwise than its comments say. *)

From S2P Require Import Prelude Bytes StreamsLog.

Record InMemoryBookie : Type := mkBookie { bookie_id : bytes; bentries : gmap u64 bytes; up : bool }.
Record EnsembleWriteResult : Type := mkWriteResult { entry_id : u64; acked : gset bytes; failed : gset bytes }.
Record Ensemble : Type := mkEnsemble {
  ensemble_size : usize; write_quorum : usize; ack_quorum : usize; bookies : list InMemoryBookie; next_entry_id : u64 }.

Module InMemoryBookie.
Definition new (id : bytes) : InMemoryBookie := mkBookie id ∅ true.
Definition fence (b : InMemoryBookie) : InMemoryBookie := mkBookie (bookie_id b) (bentries b) false.
Definition unfence (b : InMemoryBookie) : InMemoryBookie := mkBookie (bookie_id b) (bentries b) true.
Definition put (b : InMemoryBookie) (id : u64) (p : bytes) : InMemoryBookie := mkBookie (bookie_id b) (<[id := p]> (bentries b)) (up b).
End InMemoryBookie.

(** [x as i16] *)
Definition as_i16 (n : usize) : Z :=
  let m := Z.of_N (n mod 65536) in if (m <? 32768)%Z then m else (m - 65536)%Z.

Module Ensemble.
Definition new (ensemble_size write_quorum ack_quorum : usize) (bookies : list InMemoryBookie) : result StreamsError Ensemble :=
  if negb (vlen bookies =? ensemble_size) then
    Err (Internal (str "bookies.len() (" ++ decimal (vlen bookies) ++ str ") != ensemble_size (" ++ decimal ensemble_size ++ str ")"))
  else if negb ((ack_quorum <=? write_quorum) && (write_quorum <=? ensemble_size)) then
    Err (Internal (str "must have ack_quorum ≤ write_quorum ≤ ensemble_size, got (" ++ decimal ack_quorum ++ str ", " ++
                   decimal write_quorum ++ str ", " ++ decimal ensemble_size ++ str ")"))
  else Ok (mkEnsemble ensemble_size write_quorum ack_quorum bookies 0).

(** The loop over the bookies, [written] counting down from [write_quorum]. *)
Fixpoint write_loop (todo : nat) (id : u64) (payload : bytes) (acked failed : gset bytes) (bs : list InMemoryBookie) :
    gset bytes * gset bytes * list InMemoryBookie :=
  match todo, bs with
  | O, _ | _, [] => (acked, failed, bs)
  | S todo, b :: bs =>
      let '(b, acked, failed) :=
        if up b then (InMemoryBookie.put b id payload, {[bookie_id b]} ∪ acked, failed)
        else (b, acked, {[bookie_id b]} ∪ failed) in
      let '(acked, failed, bs) := write_loop todo id payload acked failed bs in
      (acked, failed, b :: bs)
  end.
Definition write_entry (e : Ensemble) (payload : bytes) : result StreamsError EnsembleWriteResult * Ensemble :=
  let id := next_entry_id e in
  let '(acked, failed, bs) := write_loop (N.to_nat (write_quorum e)) id payload ∅ ∅ (bookies e) in
  let e := mkEnsemble (ensemble_size e) (write_quorum e) (ack_quorum e) bs (id +w 1) in
  if N.of_nat (size acked) <? ack_quorum e
  then (Err (NotEnoughReplicas (as_i16 (ack_quorum e)) (as_i16 (N.of_nat (size acked)))), e)
  else (Ok (mkWriteResult id acked failed), e).

Fixpoint read_loop (id : u64) (bs : list InMemoryBookie) : option bytes :=
  match bs with
  | [] => None
  | b :: bs => if up b then match bentries b !! id with Some p => Some p | None => read_loop id bs end else read_loop id bs
  end.
Definition read_entry (e : Ensemble) (id : u64) : result StreamsError bytes :=
  match read_loop id (bookies e) with
  | Some p => Ok p
  | None => Err (Internal (str "entry " ++ decimal id ++ str " not found in any up bookie"))
  end.
Definition quorum_available (e : Ensemble) : bool := ack_quorum e <=? vlen (filter (λ b, up b = true) (bookies e)).

(** A bookie of the shared vector is fenced or unfenced, by its index. *)
Definition at_bookie (e : Ensemble) (i : nat) (f : InMemoryBookie → InMemoryBookie) : Ensemble :=
  mkEnsemble (ensemble_size e) (write_quorum e) (ack_quorum e) (alter f i (bookies e)) (next_entry_id e).
End Ensemble.

(** ** Runs *)

Inductive EnsembleCall : Type := CWrite (payload : bytes) | CFence (i : nat) | CUnfence (i : nat).
Definition ens_step (e : Ensemble) (c : EnsembleCall) : Ensemble :=
  match c with
  | CWrite p => (Ensemble.write_entry e p).2
  | CFence i => Ensemble.at_bookie e i InMemoryBookie.fence
  | CUnfence i => Ensemble.at_bookie e i InMemoryBookie.unfence
  end.
Definition ens_run (e : Ensemble) (cs : list EnsembleCall) : Ensemble := foldl ens_step e cs.
(** The payloads a run tries to write, by entry id. *)
Definition payloads (cs : list EnsembleCall) : list bytes := omap (λ c, match c with CWrite p => Some p | _ => None end) cs.

(** ** Writes *)

Definition put_if_up (id : u64) (p : bytes) (b : InMemoryBookie) : InMemoryBookie := if up b then InMemoryBookie.put b id p else b.

Lemma write_loop_spec n id p A F bs : Ensemble.write_loop n id p A F bs =
  (list_to_set (bookie_id <$> filter (λ b, up b = true) (take n bs)) ∪ A,
   list_to_set (bookie_id <$> filter (λ b, up b = false) (take n bs)) ∪ F,
   (put_if_up id p <$> take n bs) ++ drop n bs).
Proof.
  revert A F bs. induction n as [|n IH]; intros A F [|b bs]; cbn [Ensemble.write_loop take drop]; try (by rewrite !filter_nil; cbn; rewrite !(left_id_L ∅ (∪))).
  rewrite !filter_cons. destruct (up b) eqn:Hu; rewrite IH; repeat case_decide; try done.
  all: cbn [fmap list_fmap list_to_set app]; assert (put_if_up id p b = if up b then InMemoryBookie.put b id p else b) as -> by done; rewrite Hu.
  all: f_equal; f_equal; clear; set_solver.
Qed.

(** What each bookie holds is what was written under that id. *)
Record sound (W : list bytes) (e : Ensemble) : Prop := {
  so_next : next_entry_id e = vlen W;
  so_holds : ∀ b id p, b ∈ bookies e → bentries b !! id = Some p → W !! (N.to_nat id) = Some p }.
(** From one state to a later one, no bookie forgets an entry. *)
Definition keeps (n : u64) (b b' : InMemoryBookie) : Prop := ∀ id p, bentries b !! id = Some p → id < n → bentries b' !! id = Some p.

Lemma keeps_refl n bs : Forall2 (keeps n) bs bs.
Proof. induction bs; constructor; [by intros ? ?|done]. Qed.

Definition holding (id : u64) (bs : list InMemoryBookie) : list InMemoryBookie := filter (λ b, is_Some (bentries b !! id)) bs.
Lemma holding_keeps n id bs bs' : Forall2 (keeps n) bs bs' → id < n → (length (holding id bs) ≤ length (holding id bs'))%nat.
Proof.
  intros Hk Hid. unfold holding. induction Hk as [|b b' bs bs' Hb _ IH]; [done|]. rewrite !filter_cons.
  destruct (decide (is_Some (bentries b !! id))) as [[p Hp]|]; [|destruct (decide _); cbn; lia].
  rewrite decide_True by (exists p; by apply Hb). cbn. lia.
Qed.

(** Fencing changes no entries. *)
Lemma at_bookie_sound W e i f : sound W e → (∀ b, bentries (f b) = bentries b) →
  sound W (Ensemble.at_bookie e i f) ∧ Forall2 (keeps (vlen W)) (bookies e) (bookies (Ensemble.at_bookie e i f)).
Proof.
  intros [Hn Hh] Hf. split; [split; [done|]|].
  - intros b id p [j Hj]%list_elem_of_lookup_1. cbn in Hj. destruct (decide (i = j)) as [->|].
    + rewrite list_lookup_alter_eq in Hj. apply fmap_Some in Hj as (b0 & Hb0 & ->). rewrite Hf. apply Hh. by eapply list_elem_of_lookup_2.
    + rewrite list_lookup_alter_ne in Hj by done. apply Hh. by eapply list_elem_of_lookup_2.
  - cbn. apply Forall2_same_length_lookup. split; [by rewrite length_alter|]. intros j x y Hx Hy. destruct (decide (i = j)) as [->|].
    + rewrite list_lookup_alter_eq, Hx in Hy. injection Hy as <-. intros id p. by rewrite Hf.
    + rewrite list_lookup_alter_ne, Hx in Hy by done. injection Hy as <-. by intros ? ?.
Qed.

(** A write: it leaves its entry on every up bookie among the first [write_quorum]. *)
Lemma write_bookies e p : bookies (Ensemble.write_entry e p).2 =
  (put_if_up (next_entry_id e) p <$> take (N.to_nat (write_quorum e)) (bookies e)) ++ drop (N.to_nat (write_quorum e)) (bookies e) ∧
  next_entry_id (Ensemble.write_entry e p).2 = next_entry_id e +w 1.
Proof. unfold Ensemble.write_entry. rewrite write_loop_spec. by destruct (_ <? _). Qed.
Lemma write_sound W e p : sound W e → vlen W + 1 < u64_modulus →
  sound (W ++ [p]) (Ensemble.write_entry e p).2 ∧ Forall2 (keeps (vlen W)) (bookies e) (bookies (Ensemble.write_entry e p).2).
Proof.
  intros [Hn Hh] Hb. destruct (write_bookies e p) as [Hbs Hid]. split; [split|].
  - rewrite Hid, Hn, vlen_app. rewrite u64_add_small by lia. done.
  - assert (Hold : ∀ b id q, b ∈ bookies e → bentries b !! id = Some q → (W ++ [p]) !! N.to_nat id = Some q).
    { intros b id q Hin Hq. apply lookup_app_l_Some. by eapply Hh. }
    rewrite Hbs, Hn. intros b' id q [(b & -> & Hin)%list_elem_of_fmap|Hin]%elem_of_app; [|apply Hold; by eapply subseteq_drop].
    assert (b ∈ bookies e) by by eapply subseteq_take. unfold put_if_up. destruct (up b); [|by apply Hold]. cbn.
    destruct (decide (vlen W = id)) as [<-|]; [|rewrite lookup_insert_ne by done; by apply Hold].
    rewrite lookup_insert_eq. intros [= <-]. rewrite lookup_app_r by (unfold vlen; lia). replace (_ - _)%nat with 0%nat by (unfold vlen; lia). done.
  - rewrite Hbs, Hn. rewrite <- (take_drop (N.to_nat (write_quorum e)) (bookies e)) at 1. apply Forall2_app; [|apply keeps_refl].
    apply Forall2_fmap_r. apply Forall2_same_length_lookup. split; [done|]. intros i x y Hx Hy. rewrite Hx in Hy. injection Hy as <-.
    intros id q Hq Hlt. unfold put_if_up. destruct (up x); [|done]. cbn. rewrite lookup_insert_ne by lia. done.
Qed.

Lemma payloads_length cs : vlen (payloads cs) ≤ vlen cs.
Proof. unfold payloads, vlen. induction cs as [|[] cs IH]; cbn in *; lia. Qed.
Lemma run_sound W e cs : sound W e → vlen W + vlen cs < u64_modulus →
  sound (W ++ payloads cs) (ens_run e cs) ∧ Forall2 (keeps (vlen W)) (bookies e) (bookies (ens_run e cs)).
Proof.
  revert W e. induction cs as [|c cs IH]; intros W e Hs Hb; [rewrite app_nil_r; split; [done|apply keeps_refl]|]. rewrite vlen_cons in Hb.
  assert (H1 : sound (W ++ payloads [c]) (ens_step e c) ∧ Forall2 (keeps (vlen W)) (bookies e) (bookies (ens_step e c))).
  { destruct c as [p|i|i]; cbn [payloads omap list_omap ens_step]; rewrite ?app_nil_r; [apply write_sound; [done|lia]|by apply at_bookie_sound..]. }
  assert (Hc : vlen W ≤ vlen (W ++ payloads [c]) ≤ vlen W + 1) by (unfold vlen; rewrite length_app; destruct c; cbn; lia).
  destruct H1 as [Hs1 Hk1]. destruct (IH _ _ Hs1) as [Hs2 Hk2]; [lia|]. split.
  - rewrite <- app_assoc in Hs2. by destruct c.
  - eapply Forall2_trans; [|exact Hk1|exact Hk2]. intros b1 b2 b3 H12 H23 id q Hq Hlt. apply H23; [by apply H12|lia].
Qed.

(** ** Reads *)

Lemma read_loop_None id bs : Ensemble.read_loop id bs = None → ∀ b, b ∈ bs → up b = true → bentries b !! id = None.
Proof.
  induction bs as [|b0 bs IH]; cbn [Ensemble.read_loop]; [by intros _ b ?%elem_of_nil|]. intros Hr b [->|Hin]%elem_of_cons Hu.
  - rewrite Hu in Hr. by destruct (bentries b0 !! id).
  - apply IH; [|done|done]. destruct (up b0); [|done]. by destruct (bentries b0 !! id).
Qed.
Lemma read_loop_Some id bs p : Ensemble.read_loop id bs = Some p → ∃ b, b ∈ bs ∧ bentries b !! id = Some p.
Proof.
  induction bs as [|b0 bs IH]; cbn [Ensemble.read_loop]; [done|]. assert (Hrec : Ensemble.read_loop id bs = Some p → ∃ b, b ∈ b0 :: bs ∧ bentries b !! id = Some p).
  { intros (b & ? & ?)%IH. exists b. split; [by right|done]. }
  destruct (up b0); [|done]. destruct (bentries b0 !! id) as [q|] eqn:Hq; [|done]. intros [= <-]. exists b0. split; [left|done].
Qed.

Lemma run_ack_quorum e cs : ack_quorum (ens_run e cs) = ack_quorum e.
Proof.
  revert e. induction cs as [|c cs IH]; intros e; [done|]. cbn [ens_run foldl]. fold (ens_run (ens_step e c) cs). rewrite IH.
  destruct c; cbn [ens_step]; [|done..]. unfold Ensemble.write_entry. rewrite write_loop_spec. by destruct (_ <? _).
Qed.
(** While some bookie that holds the entry is up, it is read. *)
Lemma read_holding W e id p : sound W e → W !! N.to_nat id = Some p →
  (∀ q, Ensemble.read_entry e id = Ok q → q = p) ∧
  (vlen (filter (λ b, up b = false) (bookies e)) < vlen (holding id (bookies e)) → Ensemble.read_entry e id = Ok p).
Proof.
  intros [_ Hh] Hp. unfold Ensemble.read_entry. destruct (Ensemble.read_loop id (bookies e)) as [q|] eqn:Hr.
  - apply read_loop_Some in Hr as (b & Hin & Hq). apply Hh in Hq; [|done]. rewrite Hp in Hq. injection Hq as <-. split; [by intros q [= ->]|done].
  - split; [done|]. intros Hlt. exfalso. pose proof (read_loop_None _ _ Hr) as Hn. clear Hh Hr. revert Hlt. unfold holding, vlen.
    enough (length (filter (λ b, is_Some (bentries b !! id)) (bookies e)) ≤ length (filter (λ b, up b = false) (bookies e)))%nat by lia.
    induction (bookies e) as [|b bs IH]; [done|]. rewrite !filter_cons. specialize (IH (λ b' H, Hn b' (list_elem_of_further _ _ _ H))).
    destruct (decide (is_Some (bentries b !! id))) as [Hs|]; destruct (decide (up b = false)) as [|Hu]; cbn [length]; try lia.
    apply not_false_iff_true in Hu. rewrite (Hn b) in Hs; [by destruct Hs|left|done].
Qed.

(** An acknowledged entry is on as many bookies as acknowledged it. *)
Lemma write_holding e p r e' : Ensemble.write_entry e p = (Ok r, e') →
  entry_id r = next_entry_id e ∧ ack_quorum e ≤ vlen (holding (entry_id r) (bookies e')).
Proof.
  intros Hw. destruct (write_bookies e p) as [Hbs _]. rewrite Hw in Hbs. unfold Ensemble.write_entry in Hw. rewrite write_loop_spec in Hw.
  destruct (_ <? _) eqn:Hq; [done|]. apply N.ltb_ge in Hq. injection Hw as <- <-. cbn [entry_id bookies ack_quorum snd] in *.
  split; [done|]. etrans; [exact Hq|]. unfold holding. rewrite filter_app, vlen_app.
  set (bs := take _ _). rewrite (right_id_L ∅ (∪)). unfold vlen. enough (size (list_to_set (bookie_id <$> filter (λ b, up b = true) bs) : gset bytes) ≤
    length (filter (λ b, is_Some (bentries b !! next_entry_id e)) (put_if_up (next_entry_id e) p <$> bs)))%nat by lia.
  clear. induction bs as [|b bs IH]; [done|]. rewrite fmap_cons, !filter_cons. destruct (decide (up b = true)) as [Hu|].
  - rewrite decide_True by (unfold put_if_up; rewrite Hu; eexists; apply lookup_insert_eq). cbn [fmap list_fmap list_to_set length].
    set (X := list_to_set _) in *. rewrite size_union_alt, size_singleton. assert (X ∖ {[bookie_id b]} ⊆ X) as ?%subseteq_size by set_solver. lia.
  - destruct (decide (is_Some _)); cbn [length]; lia.
Qed.

(** The ensemble.  An entry acknowledged by a write is read back as written, whatever is
    written, fenced and unfenced afterwards, while fewer bookies than the ack quorum are down;
    and what is read under its id is never anything else. *)
Theorem acked_entry_readable n w a ids e0 cs1 cs2 p r e2 :
  Ensemble.new n w a (InMemoryBookie.new <$> ids) = Ok e0 → vlen (cs1 ++ CWrite p :: cs2) < u64_modulus →
  Ensemble.write_entry (ens_run e0 cs1) p = (Ok r, e2) →
  let e3 := ens_run e2 cs2 in
  entry_id r = vlen (payloads cs1) ∧
  (∀ q, Ensemble.read_entry e3 (entry_id r) = Ok q → q = p) ∧
  (vlen (filter (λ b, up b = false) (bookies e3)) < a → Ensemble.read_entry e3 (entry_id r) = Ok p).
Proof.
  intros Hnew Hb Hw e3. rewrite vlen_app, vlen_cons in Hb.
  assert (He0 : sound [] e0 ∧ ack_quorum e0 = a).
  { unfold Ensemble.new in Hnew. destruct (negb _); [done|]. destruct (negb _); [done|]. injection Hnew as <-. split; [|done]. split; [done|].
    intros b id q (i & -> & _)%list_elem_of_fmap. cbn. by rewrite lookup_empty. }
  destruct He0 as [Hs0 Ha]. destruct (run_sound [] e0 cs1 Hs0) as [Hs1 _]; [change (vlen (@nil bytes)) with 0; lia|]. cbn [app] in Hs1.
  pose proof (payloads_length cs1). destruct (write_sound _ _ p Hs1) as [Hs2 _]; [lia|].
  rewrite Hw in Hs2. cbn [snd] in Hs2. destruct (write_holding _ _ _ _ Hw) as [Hid Hq]. rewrite run_ack_quorum, Ha in Hq. rewrite (so_next _ _ Hs1) in Hid.
  split; [done|]. assert (Hlen : vlen (payloads cs1 ++ [p]) = vlen (payloads cs1) + 1) by by rewrite vlen_app.
  destruct (run_sound _ e2 cs2 Hs2) as [Hs3 Hk]; [lia|]. fold e3 in Hs3, Hk.
  pose proof (holding_keeps _ (entry_id r) _ _ Hk) as Hmore. destruct (read_holding _ e3 (entry_id r) p Hs3) as [H1 H2].
  { rewrite Hid. apply lookup_app_l_Some. unfold vlen. rewrite Nat2N.id. by apply list_lookup_middle. }
  split; [done|]. intros Hdown. apply H2. unfold vlen in *. lia.
Qed.

(** Three bookies, two acknowledgements: the entry outlives one of the bookies that took it. *)
Lemma acked_entry_readable_witness : ∃ e0 r e2,
  Ensemble.new 3 3 2 (InMemoryBookie.new <$> [[65]; [66]; [67]]) = Ok e0 ∧
  Ensemble.write_entry (ens_run e0 [CWrite [1]; CFence 2]) [2] = (Ok r, e2) ∧
  Ensemble.read_entry (ens_run e2 [CUnfence 2; CFence 0; CWrite [3]]) (entry_id r) = Ok [2].
Proof.
  eexists _, _, _. split; [reflexivity|]. split; [vm_compute; reflexivity|].
  refine (proj2 (proj2 (acked_entry_readable 3 3 2 [[65]; [66]; [67]] _ [CWrite [1]; CFence 2] [CUnfence 2; CFence 0; CWrite [3]] [2] _ _ eq_refl eq_refl _)) _);
    by vm_compute.
Defined.

(** ** What the comments say otherwise *)

(** [write_entry]: "Write to the first write_quorum *up* bookies"; the first [write_quorum]
    bookies are tried whether up or not: with one of three down and two to write to, a write
    that needs two fails although two bookies are up. *)
Lemma down_bookies_count : ∃ e0 e1,
  Ensemble.new 3 2 2 (InMemoryBookie.new <$> [[65]; [66]; [67]]) = Ok e0 ∧ Ensemble.quorum_available (ens_run e0 [CFence 0]) = true ∧
  Ensemble.write_entry (ens_run e0 [CFence 0]) [1] = (Err (NotEnoughReplicas 2 1), e1).
Proof. eexists _, _. split; [reflexivity|]. split; [reflexivity|]. vm_compute. reflexivity. Qed.

(** An entry whose write failed is there all the same, and is read. *)
Lemma failed_write_readable : ∃ e0 e1,
  Ensemble.new 3 2 2 (InMemoryBookie.new <$> [[65]; [66]; [67]]) = Ok e0 ∧
  Ensemble.write_entry (ens_run e0 [CFence 0]) [1] = (Err (NotEnoughReplicas 2 1), e1) ∧ Ensemble.read_entry e1 0 = Ok [1].
Proof. eexists _, _. split; [reflexivity|]. split; [vm_compute; reflexivity|]. vm_compute. reflexivity. Qed.
