(* ===== verification/StreamsGroup.v ===== *)
(** * Consumer groups of cave-streams

    crates/data/cave-streams/src/consumer_group.rs: the assignment of partitions to members and
    the coordinator of the groups.

    A call holds the entry of its group to its end, except [delete_group], which looks at the
    entry, lets it go and then removes whatever is there.  Instants are nanoseconds; a call reads
    the clock once; the instant and the text of a fresh UUID are arguments.  A group has fewer
    than 2^31 members.  The topics of an assignment come as the list of the entries of
    their map, in the order the map yields them.

    Whatever the protocol, every partition goes to exactly one member ([assignment_complete]),
    round robin and range deal them out evenly ([roundrobin_even], [range_even]).  A call with
    another generation than the current one is refused and changes nothing
    ([stale_generation_refused]); one with the current generation hands every member its
    assignment ([sync_spec]); a group with members has one of them as its leader, as long as
    nobody is expired ([leader_is_member]).  And two members never meet: every join starts a
    generation of its own, so at any time at most one member of a group knows the current one
    ([one_member_per_generation]). *)

From S2P Require Import Prelude Bytes.

(** ** Assignments *)

Inductive RebalanceProtocol : Type := Range | RoundRobin | Sticky | CooperativeSticky.
Abbreviation Assignments := (gmap bytes (list (bytes * Z))) (only parsing).
(** [sort] on pairs *)
Definition tp_le (a b : bytes * Z) : Prop := bytes_ltb a.1 b.1 = true ∨ a.1 = b.1 ∧ (a.2 ≤ b.2)%Z.
#[export] Instance tp_le_dec a b : Decision (tp_le a b).
Proof. apply _. Defined.

Module RebalanceProtocol.
(** [to_lowercase().replace('_', "-")].  Besides the capitals only U+212A, the Kelvin sign, has an
    ASCII letter as its lower case; the others stay outside ASCII, and no name has such a
    character. *)
Fixpoint lower_dashed (s : bytes) : bytes :=
  match s with
  | 226 :: 132 :: 170 :: s => 107 :: lower_dashed s
  | c :: s => (if c =? 95 then 45 else if (65 <=? c) && (c <=? 90) then c + 32 else c) :: lower_dashed s
  | [] => []
  end.
Definition from_str (s : bytes) : RebalanceProtocol :=
  let s := lower_dashed s in
  if bool_decide (s = str "range") then Range
  else if bool_decide (s = str "roundrobin") || bool_decide (s = str "round-robin") then RoundRobin
  else if bool_decide (s = str "sticky") then Sticky
  else if bool_decide (s = str "cooperative-sticky") then CooperativeSticky
  else Range.
Definition no_assignments (members : list bytes) : Assignments := list_to_map ((λ m, (m, [])) <$> members).
(** [assignments.entry(member).or_default().push(tp)] *)
Definition push (m : Assignments) (member : bytes) (tp : bytes * Z) : Assignments := <[member := default [] (m !! member) ++ [tp]]> m.
(** [for p in start..stop] *)
Definition range (start stop : Z) : list Z := (λ i, start + Z.of_nat i)%Z <$> seq 0 (Z.to_nat (stop - start)).
(** The loop over the members for one topic *)
Fixpoint range_members (topic : bytes) (per_member extra : Z) (i : nat) (start : Z) (members : list bytes) (m : Assignments) : Assignments :=
  match members with
  | [] => m
  | member :: members =>
      let count := (per_member + if (Z.of_nat i <? extra)%Z then 1 else 0)%Z in
      let m := foldl (λ m p, push m member (topic, p)) m (range start (start + count)) in
      range_members topic per_member extra (S i) (start + count) members m
  end.
Definition assign_range (members : list bytes) (topic_partitions : list (bytes * Z)) : Assignments :=
  let sorted_members := merge_sort bytes_le members in
  if bool_decide (members = []) then no_assignments members
  else
    foldl (λ m e, range_members e.1 (Z.quot e.2 (Z.of_nat (length members))) (Z.rem e.2 (Z.of_nat (length members))) 0 0 sorted_members m)
      (no_assignments members) topic_partitions.
Definition all_partitions (topic_partitions : list (bytes * Z)) : list (bytes * Z) :=
  e ← topic_partitions; (λ p, (e.1, p)) <$> range 0 e.2.
Definition deal (sorted_members : list bytes) (acc : Assignments * nat) (tp : bytes * Z) : Assignments * nat :=
  (push acc.1 (default [] (sorted_members !! (acc.2 mod length sorted_members)%nat)) tp, S acc.2).
Definition assign_roundrobin (members : list bytes) (topic_partitions : list (bytes * Z)) : Assignments :=
  let sorted_members := merge_sort bytes_le members in
  if bool_decide (members = []) then no_assignments members
  else (foldl (deal sorted_members) (no_assignments members, 0%nat) (merge_sort tp_le (all_partitions topic_partitions))).1.
Definition assign (p : RebalanceProtocol) (members : list bytes) (topic_partitions : list (bytes * Z)) : Assignments :=
  match p with
  | Range => assign_range members topic_partitions
  | RoundRobin | Sticky | CooperativeSticky => assign_roundrobin members topic_partitions
  end.
End RebalanceProtocol.

(** ** The coordinator *)

Record GroupMember : Type := mkMember {
  member_id : bytes; client_id : bytes; client_host : bytes; session_timeout_ms : Z; rebalance_timeout_ms : Z; m_protocol_type : bytes;
  protocols : gmap bytes bytes; assignment : bytes; last_heartbeat : Z; joined_at : Z }.
(** [num_milliseconds] truncates. *)
Definition is_expired (now : Z) (m : GroupMember) : bool := (session_timeout_ms m <? Z.quot (now - last_heartbeat m) 1000000)%Z.
Inductive GroupState : Type := Empty | PreparingRebalance | CompletingRebalance | Stable | Dead.
#[export] Instance GroupState_eq_dec : EqDecision GroupState.
Proof. solve_decision. Defined.
Record ConsumerGroup : Type := mkGroup {
  group_id : bytes; state : GroupState; generation_id : Z; protocol_type : bytes; protocol_name : bytes; leader_id : bytes;
  members : gmap bytes GroupMember; created_at : Z; updated_at : Z }.
(** The variants of [StreamsError] the coordinator constructs. *)
Inductive GroupError : Type :=
| GroupNotFound (group : bytes)
| MemberNotFound (group member : bytes)
| IllegalGeneration (group : bytes) (expected got : Z)
| Internal (msg : bytes).
Record JoinGroupResult : Type := mkJoined {
  j_error_code : Z; j_generation_id : Z; j_protocol_name : bytes; j_leader_id : bytes; j_member_id : bytes; j_members : list (bytes * bytes) }.
Record MemberDescription : Type := mkMemberDescription { md_member_id : bytes; md_client_id : bytes; md_client_host : bytes }.
Record GroupDescription : Type := mkDescription {
  d_group_id : bytes; d_state : bytes; d_protocol_type : bytes; d_protocol : bytes; d_members : list MemberDescription }.
Record GroupSummary : Type := mkSummary { s_group_id : bytes; s_protocol_type : bytes; s_state : bytes }.
(** [format!("{:?}", state)] *)
Definition state_name (s : GroupState) : bytes :=
  match s with
  | Empty => str "Empty" | PreparingRebalance => str "PreparingRebalance" | CompletingRebalance => str "CompletingRebalance"
  | Stable => str "Stable" | Dead => str "Dead"
  end.
Abbreviation Groups := (gmap bytes ConsumerGroup) (only parsing).

(** [generation_id += 1] on [i32] *)
Definition next_generation (g : Z) : Z := ((g + 1 + 2147483648) mod 4294967296 - 2147483648)%Z.
(** [keys().min()] *)
Definition min_key (m : gmap bytes GroupMember) : option bytes := head (merge_sort bytes_le (map_to_list m).*1).

Module ConsumerGroup.
Definition new (now : Z) (id : bytes) : ConsumerGroup := mkGroup id Empty 0 [] [] [] ∅ now now.
Definition is_empty_group (g : ConsumerGroup) : bool := bool_decide (members g = ∅) || bool_decide (state g = Empty).
End ConsumerGroup.

Module GroupCoordinator.
Definition join_group (gs : Groups) (gid : bytes) (mid : option bytes) (client host : bytes) (session_timeout rebalance_timeout : Z)
    (ptype : bytes) (protos : gmap bytes bytes) (uuid : bytes) (now : Z) : JoinGroupResult * Groups :=
  let assigned := match mid with Some (c :: id) => c :: id | _ => client ++ str "-" ++ uuid end in
  let g := default (ConsumerGroup.new now gid) (gs !! gid) in
  let member := mkMember assigned client host session_timeout rebalance_timeout ptype protos [] now now in
  let ms := <[assigned := member]> (members g) in
  let leader := if bool_decide (leader_id g = []) || bool_decide (ms !! leader_id g = None) then default [] (min_key ms) else leader_id g in
  let g := mkGroup (group_id g) PreparingRebalance (next_generation (generation_id g)) ptype (protocol_name g) leader ms (created_at g) now in
  let metadata := if bool_decide (assigned = leader) then (λ e, (member_id e.2, default [] (protocols e.2 !! protocol_name g))) <$> map_to_list ms else [] in
  (mkJoined 0 (generation_id g) (protocol_name g) leader assigned metadata, <[gid := g]> gs).
(** The guards that [sync_group] and [heartbeat] share *)
Definition guarded (gs : Groups) (gid : bytes) (generation : Z) (mid : bytes) : result GroupError (ConsumerGroup * GroupMember) :=
  let? g := ok_or (gs !! gid) (GroupNotFound gid) in
  if negb (generation_id g =? generation)%Z then Err (IllegalGeneration gid (generation_id g) generation)
  else let? m := ok_or (members g !! mid) (MemberNotFound gid mid) in Ok (g, m).
Definition set_assignment (a : bytes) (m : GroupMember) : GroupMember :=
  mkMember (member_id m) (client_id m) (client_host m) (session_timeout_ms m) (rebalance_timeout_ms m) (m_protocol_type m) (protocols m) a (last_heartbeat m) (joined_at m).
Definition set_heartbeat (now : Z) (m : GroupMember) : GroupMember :=
  mkMember (member_id m) (client_id m) (client_host m) (session_timeout_ms m) (rebalance_timeout_ms m) (m_protocol_type m) (protocols m) (assignment m) now (joined_at m).
Definition set_members (s : GroupState) (gen : Z) (leader : bytes) (ms : gmap bytes GroupMember) (now : Z) (g : ConsumerGroup) : ConsumerGroup :=
  mkGroup (group_id g) s gen (protocol_type g) (protocol_name g) leader ms (created_at g) now.
Definition sync_group (gs : Groups) (gid : bytes) (generation : Z) (mid : bytes) (assignments : gmap bytes bytes) (now : Z) : result GroupError bytes * Groups :=
  match guarded gs gid generation mid with
  | Err e => (Err e, gs)
  | Ok (g, _) =>
      let ms := foldl (λ ms e, alter (set_assignment e.2) e.1 ms) (members g) (map_to_list assignments) in
      (Ok (default [] (assignment <$> ms !! mid)), <[gid := set_members Stable (generation_id g) (leader_id g) ms now g]> gs)
  end.
Definition heartbeat (gs : Groups) (gid : bytes) (generation : Z) (mid : bytes) (now : Z) : result GroupError Z * Groups :=
  match guarded gs gid generation mid with
  | Err e => (Err e, gs)
  | Ok (g, m) =>
      (Ok (if bool_decide (state g = PreparingRebalance) then 27 else 0)%Z,
       <[gid := set_members (state g) (generation_id g) (leader_id g) (<[mid := set_heartbeat now m]> (members g)) (updated_at g) g]> gs)
  end.
Definition leave_group (gs : Groups) (gid mid : bytes) (now : Z) : result GroupError unit * Groups :=
  match gs !! gid with
  | None => (Err (GroupNotFound gid), gs)
  | Some g =>
      let ms := base.delete mid (members g) in
      let g := if bool_decide (ms = ∅) then set_members Empty (generation_id g) (leader_id g) ms now g
               else set_members PreparingRebalance (next_generation (generation_id g)) (if bool_decide (leader_id g = mid) then default [] (min_key ms) else leader_id g) ms now g in
      (Ok tt, <[gid := g]> gs)
  end.
Definition describe_group (gs : Groups) (gid : bytes) : option GroupDescription :=
  g ← gs !! gid;
  Some (mkDescription (group_id g) (state_name (state g)) (protocol_type g) (protocol_name g)
    ((λ e, mkMemberDescription (member_id e.2) (client_id e.2) (client_host e.2)) <$> map_to_list (members g))).
Definition list_groups (gs : Groups) : list GroupSummary :=
  (λ e, mkSummary e.1 (protocol_type e.2) (state_name (state e.2))) <$> map_to_list gs.
(** [delete_group] up to [drop(group)] *)
Definition delete_check (gs : Groups) (gid : bytes) : result GroupError unit :=
  let? g := ok_or (gs !! gid) (GroupNotFound gid) in
  if negb (ConsumerGroup.is_empty_group g) then Err (Internal (str "group " ++ gid ++ str " has active members")) else Ok tt.
(** [between]: what the other calls do once the entry is let go *)
Definition delete_group (between : Groups → Groups) (gs : Groups) (gid : bytes) : result GroupError unit * Groups :=
  match delete_check gs gid with
  | Err e => (Err e, gs)
  | Ok _ => (Ok tt, base.delete gid (between gs))
  end.
Definition expire_group (now : Z) (g : ConsumerGroup) : ConsumerGroup :=
  let ms := filter (λ e, is_expired now e.2 = false) (members g) in
  set_members (if bool_decide (ms = ∅) then Empty else state g) (generation_id g) (leader_id g) ms (updated_at g) g.
Definition expire_stale_members (gs : Groups) (now : Z) : Groups := expire_group now <$> gs.
End GroupCoordinator.

(** ** Every partition goes to one member *)

Section Assign.
Import RebalanceProtocol.
(** Everything that is assigned *)
Definition spread (m : Assignments) : list (bytes * Z) := concat (map_to_list m).*2.

Lemma spread_insert m k l : m !! k = None → spread (<[k := l]> m) ≡ₚ l ++ spread m.
Proof. intros H. unfold spread. by rewrite map_to_list_insert. Qed.
Lemma spread_push m k tp : spread (push m k tp) ≡ₚ tp :: spread m.
Proof.
  unfold push. destruct (m !! k) as [l|] eqn:E; simpl.
  - rewrite <- (insert_delete_id m k l E) at 2. rewrite <- insert_delete_eq.
    rewrite !spread_insert by apply lookup_delete_eq. rewrite <- (assoc_L (++)). simpl. by rewrite Permutation_middle.
  - by rewrite spread_insert.
Qed.
Lemma dom_push m k tp : k ∈ dom m → dom (push m k tp) = dom m.
Proof. unfold push. set_solver. Qed.
Lemma spread_none ms : spread (no_assignments ms) = [].
Proof.
  unfold spread. apply concat_nil_Forall, Forall_fmap, Forall_forall. intros [k l] H. simpl.
  apply elem_of_map_to_list in H. unfold no_assignments in H. apply elem_of_list_to_map_2 in H.
  apply list_elem_of_fmap in H as (? & [= -> ->] & _). done.
Qed.
Lemma dom_none ms : dom (no_assignments ms) = list_to_set ms.
Proof. unfold no_assignments. rewrite dom_list_to_map_L. f_equal. induction ms as [|m ms IH]; [done|]. cbn. by f_equal. Qed.
Lemma length_range a b : length (range a b) = Z.to_nat (b - a).
Proof. unfold range. by rewrite length_fmap, length_seq. Qed.
Lemma elem_of_range a b x : x ∈ range a b ↔ (a ≤ x < b)%Z.
Proof.
  unfold range. rewrite list_elem_of_fmap. setoid_rewrite elem_of_seq. split.
  - intros (i & -> & ?). lia.
  - intros H. exists (Z.to_nat (x - a)). lia.
Qed.
Lemma range_app a b c : (a ≤ b ≤ c)%Z → range a c = range a b ++ range b c.
Proof.
  intros H. unfold range. replace (Z.to_nat (c - a)) with (Z.to_nat (b - a) + Z.to_nat (c - b))%nat by lia.
  rewrite seq_app, fmap_app. f_equal. simpl. rewrite <- (Nat.add_0_r (Z.to_nat (b - a))) at 1.
  rewrite <- fmap_add_seq, <- list_fmap_compose. apply list_fmap_ext. intros i x _. simpl. lia.
Qed.
Lemma push_all t ps k m : k ∈ dom m →
  spread (foldl (λ m p, push m k (t, p)) m ps) ≡ₚ ((λ p, (t, p)) <$> ps) ++ spread m ∧ dom (foldl (λ m p, push m k (t, p)) m ps) = dom m.
Proof.
  revert m. induction ps as [|p ps IH]; intros m H; simpl; [done|].
  destruct (IH (push m k (t, p))) as [E D]; [by rewrite dom_push|]. split.
  - rewrite E, spread_push. by rewrite <- Permutation_middle.
  - by rewrite D, dom_push.
Qed.
(** The first partition of the [i]th member *)
Definition bound (per extra : Z) (i : nat) : Z := (Z.of_nat i * per + Z.min (Z.of_nat i) extra)%Z.
Lemma bound_S per extra i : bound per extra (S i) = (bound per extra i + (per + if (Z.of_nat i <? extra)%Z then 1 else 0))%Z.
Proof. unfold bound. destruct (Z.ltb_spec (Z.of_nat i) extra); lia. Qed.
Lemma bound_mono per extra i n : (0 ≤ per)%Z → (bound per extra i ≤ bound per extra (i + n))%Z.
Proof. unfold bound. intros H. rewrite Nat2Z.inj_add, Z.mul_add_distr_r. assert (0 ≤ Z.of_nat n * per)%Z by (apply Z.mul_nonneg_nonneg; lia). lia. Qed.
Lemma range_members_spread t per extra ms : (0 ≤ per)%Z → ∀ i m, list_to_set ms ⊆ dom m →
  let m' := range_members t per extra i (bound per extra i) ms m in
  spread m' ≡ₚ ((λ p, (t, p)) <$> range (bound per extra i) (bound per extra (i + length ms))) ++ spread m ∧ dom m' = dom m.
Proof.
  intros P. induction ms as [|k ms IH]; intros i m D; cbn [range_members length].
  - rewrite Nat.add_0_r. unfold range. by rewrite Z.sub_diag.
  - rewrite <- bound_S. destruct (push_all t (range (bound per extra i) (bound per extra (S i))) k m) as [E1 E2]; [set_solver|].
    edestruct (IH (S i)) as [E D']; [rewrite E2; set_solver|]. split; [|by rewrite D', E2].
    rewrite E, E1. rewrite (range_app (bound per extra i) (bound per extra (S i)) (bound per extra (i + S (length ms)))).
    + rewrite fmap_app, Nat.add_succ_r. cbn [Nat.add]. rewrite <- !(assoc_L (++)). apply Permutation_app_swap_app.
    + split; [rewrite <- (Nat.add_1_r i)|replace (i + S (length ms))%nat with (S i + length ms)%nat by lia]; by apply bound_mono.
Qed.
(** No partitions: nothing is given *)
Lemma range_members_none t per extra ms : (per ≤ 0)%Z → (extra ≤ 0)%Z → ∀ i start m, range_members t per extra i start ms m = m.
Proof.
  intros P X. induction ms as [|k ms IH]; intros i start m; cbn [range_members]; [done|].
  destruct (Z.ltb_spec (Z.of_nat i) extra); [lia|]. rewrite IH. unfold range.
  by replace (Z.to_nat (start + (per + 0) - start)) with 0%nat by lia.
Qed.
Lemma quot_rem_bound n k : (0 < k)%nat → (0 ≤ n)%Z →
  (0 ≤ Z.quot n (Z.of_nat k))%Z ∧ bound (Z.quot n (Z.of_nat k)) (Z.rem n (Z.of_nat k)) k = n.
Proof.
  intros K N. pose proof (Z.quot_rem' n (Z.of_nat k)). pose proof (Z.rem_bound_pos n (Z.of_nat k)).
  split; [apply Z.quot_pos; lia|]. unfold bound. lia.
Qed.
Lemma range_step_spread ms n t m : ms ≠ [] → list_to_set ms ⊆ dom m →
  let m' := range_members t (Z.quot n (Z.of_nat (length ms))) (Z.rem n (Z.of_nat (length ms))) 0 0 (merge_sort bytes_le ms) m in
  spread m' ≡ₚ ((λ p, (t, p)) <$> range 0 n) ++ spread m ∧ dom m' = dom m.
Proof.
  intros M D. assert (0 < length ms)%nat as K by (destruct ms; simpl; [done|lia]).
  destruct (Z_lt_le_dec n 0) as [N|N].
  - rewrite range_members_none; [|pose proof (Z.quot_opp_l (- n) (Z.of_nat (length ms))); pose proof (Z.quot_pos (- n) (Z.of_nat (length ms))); rewrite Z.opp_involutive in *; lia|pose proof (Z.rem_nonpos n (Z.of_nat (length ms))); lia].
    unfold range. by replace (Z.to_nat (n - 0)) with 0%nat by lia.
  - destruct (quot_rem_bound n (length ms) K N) as [Q B].
    destruct (range_members_spread t _ (Z.rem n (Z.of_nat (length ms))) (merge_sort bytes_le ms) Q 0 m) as [E D'].
    { intros x. rewrite elem_of_list_to_set, (merge_sort_Permutation bytes_le ms). set_solver. }
    rewrite (Permutation_length (merge_sort_Permutation bytes_le ms)) in E. cbn [Nat.add] in E. rewrite B in E.
    assert (bound (Z.quot n (Z.of_nat (length ms))) (Z.rem n (Z.of_nat (length ms))) 0 = 0%Z) as B0.
    { unfold bound. pose proof (Z.rem_bound_pos n (Z.of_nat (length ms))). lia. }
    by rewrite B0 in E, D'.
Qed.
Lemma assign_range_spread ms tps : ms ≠ [] → spread (assign_range ms tps) ≡ₚ all_partitions tps ∧ dom (assign_range ms tps) = list_to_set ms.
Proof.
  intros M. unfold assign_range. rewrite bool_decide_false by done. rewrite <- (app_nil_r (all_partitions tps)), <- (spread_none ms), <- (dom_none ms).
  assert (list_to_set ms ⊆ dom (no_assignments ms)) as D by (by rewrite dom_none).
  revert D. generalize (no_assignments ms). induction tps as [|[t n] tps IH]; intros m D; simpl; [done|].
  edestruct (range_step_spread ms n t m) as [E D']; [done..|].
  edestruct IH as [E2 D2]; [rewrite D'; exact D|]. split; [|by rewrite D2, D'].
  rewrite E2, E. unfold all_partitions. cbn. rewrite <- (assoc_L (++)). apply Permutation_app_swap_app.
Qed.
Lemma deal_spread s l : s ≠ [] → ∀ m i, list_to_set s ⊆ dom m →
  spread (foldl (deal s) (m, i) l).1 ≡ₚ l ++ spread m ∧ dom (foldl (deal s) (m, i) l).1 = dom m ∧ (foldl (deal s) (m, i) l).2 = (i + length l)%nat.
Proof.
  intros S0. assert (0 < length s)%nat by (destruct s; simpl; [done|lia]).
  induction l as [|tp l IH]; intros m i D; [simpl; auto with lia|]. cbn [foldl length].
  destruct (lookup_lt_is_Some_2 s (i mod length s)) as [k Hk]; [apply Nat.mod_upper_bound; lia|].
  assert (deal s (m, i) tp = (push m k tp, S i)) as -> by (unfold deal; cbn [fst snd]; by rewrite Hk).
  assert (k ∈ dom m) as Hd by (apply D, elem_of_list_to_set, (list_elem_of_lookup_2 _ _ _ Hk)).
  destruct (IH (push m k tp) (S i)) as (E1 & E2 & E3); [by rewrite dom_push|]. rewrite E2, E3, dom_push by done. split_and!; [|done|lia].
  rewrite E1, spread_push. by rewrite <- Permutation_middle.
Qed.
Lemma sort_nonempty (ms : list bytes) : ms ≠ [] → merge_sort bytes_le ms ≠ [].
Proof. intros H E. pose proof (merge_sort_Permutation bytes_le ms) as P. rewrite E in P. by apply Permutation_nil_l in P. Qed.
Lemma assign_roundrobin_spread ms tps : ms ≠ [] → spread (assign_roundrobin ms tps) ≡ₚ all_partitions tps ∧ dom (assign_roundrobin ms tps) = list_to_set ms.
Proof.
  intros M. unfold assign_roundrobin. rewrite bool_decide_false by done.
  destruct (deal_spread (merge_sort bytes_le ms) (merge_sort tp_le (all_partitions tps)) (sort_nonempty ms M) (no_assignments ms) 0) as (E & D & _).
  { rewrite dom_none. by rewrite (merge_sort_Permutation bytes_le ms). }
  rewrite E, D, dom_none, spread_none, app_nil_r. split; [apply merge_sort_Permutation|done].
Qed.
Lemma assign_spread pr ms tps : ms ≠ [] → spread (assign pr ms tps) ≡ₚ all_partitions tps ∧ dom (assign pr ms tps) = list_to_set ms.
Proof. intros M. destruct pr; cbn [assign]; auto using assign_range_spread, assign_roundrobin_spread. Qed.
Lemma elem_of_all_partitions tps t p : (t, p) ∈ all_partitions tps ↔ ∃ n, (t, n) ∈ tps ∧ (0 ≤ p < n)%Z.
Proof.
  unfold all_partitions. rewrite list_elem_of_bind. split.
  - intros ([t' n] & H & Hin). apply list_elem_of_fmap in H as (p' & [= -> ->] & H). apply elem_of_range in H. eauto.
  - intros (n & Hin & H). exists (t, n). split; [|done]. apply list_elem_of_fmap. exists p. by rewrite elem_of_range.
Qed.
Lemma NoDup_range a b : NoDup (range a b).
Proof. unfold range. apply NoDup_fmap_2; [intros x y H; lia|apply NoDup_seq]. Qed.
Lemma NoDup_all_partitions tps : NoDup tps.*1 → NoDup (all_partitions tps).
Proof.
  induction tps as [|[t n] tps IH]; intros H; [apply NoDup_nil_2|]. apply NoDup_cons in H as [H1 H2]. cbn. apply NoDup_app. split_and!.
  - apply NoDup_fmap_2; [intros x y [=]; done|apply NoDup_range].
  - intros [t' p] (? & [= -> ->] & _)%list_elem_of_fmap (n' & Hin & _)%elem_of_all_partitions. apply H1.
    apply list_elem_of_fmap. by exists (t, n').
  - by apply IH.
Qed.
Lemma elem_of_spread m x : x ∈ spread m ↔ ∃ k l, m !! k = Some l ∧ x ∈ l.
Proof.
  unfold spread. rewrite list_elem_of_In, in_concat. split.
  - intros (l & (e & -> & He)%list_elem_of_In%list_elem_of_fmap & Hx%list_elem_of_In). destruct e as [k l]. apply elem_of_map_to_list in He. eauto.
  - intros (k & l & H & Hx). exists l. rewrite <- !list_elem_of_In. split; [|done]. apply list_elem_of_fmap. exists (k, l). by rewrite elem_of_map_to_list.
Qed.
Lemma spread_once m x k1 k2 l1 l2 : NoDup (spread m) → m !! k1 = Some l1 → m !! k2 = Some l2 → x ∈ l1 → x ∈ l2 → k1 = k2.
Proof.
  intros N H1 H2 X1 X2. destruct (decide (k1 = k2)) as [|D]; [done|exfalso].
  rewrite <- (insert_delete_id m k1 l1 H1), spread_insert in N by apply lookup_delete_eq.
  apply NoDup_app in N as (_ & N & _). apply (N x X1), elem_of_spread. exists k2, l2. by rewrite lookup_delete_ne.
Qed.
End Assign.

(** C33: Whatever the protocol, an assignment names exactly the members, and every partition of
    every topic goes to exactly one of them; nothing else is given to anybody. *)
Theorem assignment_complete pr ms tps : ms ≠ [] → NoDup tps.*1 →
  let a := RebalanceProtocol.assign pr ms tps in
  dom a = list_to_set ms ∧
  (∀ t n p, (t, n) ∈ tps → (0 ≤ p < n)%Z → exists! k, ∃ l, a !! k = Some l ∧ (t, p) ∈ l) ∧
  (∀ k l t p, a !! k = Some l → (t, p) ∈ l → k ∈ ms ∧ ∃ n, (t, n) ∈ tps ∧ (0 ≤ p < n)%Z).
Proof.
  intros M N a. destruct (assign_spread pr ms tps M) as [E D]. fold a in E, D. split_and!; [done| |].
  - intros t n p Ht Hp. assert ((t, p) ∈ spread a) as (k & l & H & Hx)%elem_of_spread.
    { rewrite E. apply elem_of_all_partitions. eauto. }
    exists k. split; [eauto|]. intros k' (l' & H' & Hx'). eapply spread_once; [|exact H|exact H'|exact Hx|exact Hx'].
    rewrite E. by apply NoDup_all_partitions.
  - intros k l t p H Hx. split.
    + apply elem_of_dom_2 in H. rewrite D in H. by apply elem_of_list_to_set in H.
    + apply elem_of_all_partitions. rewrite <- E. apply elem_of_spread. eauto.
Qed.
Lemma assignment_complete_witness : exists! k, ∃ l, RebalanceProtocol.assign Range [str "b"; str "a"] [(str "t", 3%Z); (str "u", 1%Z)] !! k = Some l ∧ (str "t", 2%Z) ∈ l.
Proof.
  destruct (assignment_complete Range [str "b"; str "a"] [(str "t", 3%Z); (str "u", 1%Z)]) as (_ & H & _); [done| |].
  - apply (bool_decide_unpack _). by vm_compute.
  - apply (H _ 3%Z); [apply (bool_decide_unpack _); by vm_compute|lia].
Defined.

(** ** The shares are even *)

Section Even.
Import RebalanceProtocol.
Abbreviation got m k := (default [] (m !! k)).
Lemma got_push (m : Assignments) (k k' : bytes) tp : got (push m k tp) k' = got m k' ++ if decide (k = k') then [tp] else [].
Proof. unfold push. destruct (decide (k = k')) as [->|D]; [by rewrite lookup_insert_eq|by rewrite lookup_insert_ne, app_nil_r]. Qed.
Lemma got_none ms k : got (no_assignments ms) k = [].
Proof.
  destruct (no_assignments ms !! k) as [l|] eqn:E; [|done]. unfold no_assignments in E. apply elem_of_list_to_map_2 in E.
  by apply list_elem_of_fmap in E as (? & [= -> ->] & _).
Qed.

Lemma deal_got s ms l j k : NoDup s → s !! j = Some k →
  let r := foldl (deal s) (no_assignments ms, 0%nat) l in
  r.2 = length l ∧ length (got r.1 k) = ((length l + (length s - 1 - j)) / length s)%nat.
Proof.
  intros N J. pose proof (lookup_lt_Some _ _ _ J) as L. induction l as [|tp l IH] using rev_ind.
  - cbn [foldl fst snd length]. rewrite got_none. split; [done|]. symmetry. apply Nat.div_small. lia.
  - cbn zeta in *. rewrite foldl_app, length_app, Nat.add_1_r. destruct (foldl _ _ l) as [m i]. cbn [fst snd] in IH. destruct IH as [-> IH].
    cbn [foldl]. unfold deal. cbn [fst snd]. split; [done|]. rewrite got_push, length_app, IH, turns_S by done. f_equal.
    destruct (lookup_lt_is_Some_2 s (length l mod length s)) as [k' Hk']; [apply Nat.mod_upper_bound; lia|]. rewrite Hk'. change (default [] (Some k')) with k'.
    destruct (decide (k' = k)) as [->|D], (decide (length l mod length s = j)%nat) as [E|E]; [done| | |done].
    + destruct E. by apply (NoDup_lookup s _ _ k).
    + destruct D. rewrite E in Hk'. cbn in *. congruence.
Qed.

(** The partitions of one topic *)
Definition of_topic (t : bytes) (l : list (bytes * Z)) : nat := length (filter (λ tp, tp.1 = t) l).
Lemma of_topic_app t l l' : of_topic t (l ++ l') = (of_topic t l + of_topic t l')%nat.
Proof. unfold of_topic. by rewrite filter_app, length_app. Qed.
Lemma of_topic_block t t' ps : of_topic t ((λ p, (t', p)) <$> ps) = if decide (t' = t) then length ps else 0%nat.
Proof.
  unfold of_topic. induction ps as [|p ps IH]; cbn [fmap list_fmap]; [by destruct decide|].
  rewrite filter_cons. cbn [fst]. destruct (decide (t' = t)); cbn [length]; by rewrite IH.
Qed.
Lemma got_push_all (t : bytes) (ps : list Z) (k k' : bytes) (m : Assignments) :
  got (foldl (λ m p, push m k (t, p)) m ps) k' = got m k' ++ if decide (k = k') then (λ p, (t, p)) <$> ps else [].
Proof.
  revert m. induction ps as [|p ps IH]; intros m; cbn [foldl]; [destruct decide; by rewrite app_nil_r|].
  rewrite IH, got_push, <- (assoc_L (++)). by destruct (decide (k = k')).
Qed.
Lemma range_members_other t per extra ms k : k ∉ ms → ∀ i start m, got (range_members t per extra i start ms m) k = got m k.
Proof.
  induction ms as [|k' ms IH]; intros H i start m; cbn [range_members]; [done|]. apply not_elem_of_cons in H as [H1 H2].
  rewrite IH, got_push_all by done. rewrite decide_False by done. apply app_nil_r.
Qed.
Lemma range_members_got t t' per extra ms j k : NoDup ms → ms !! j = Some k → ∀ i start m,
  of_topic t (got (range_members t' per extra i start ms m) k) =
  (of_topic t (got m k) + if decide (t' = t) then Z.to_nat (per + if (Z.of_nat (i + j) <? extra)%Z then 1 else 0) else 0)%nat.
Proof.
  revert j. induction ms as [|k' ms IH]; intros j N J i start m; [done|]. apply NoDup_cons in N as [N1 N2]. cbn [range_members].
  destruct j as [|j].
  - injection J as ->. rewrite range_members_other, got_push_all, of_topic_app, decide_True, of_topic_block, length_range by done.
    rewrite Nat.add_0_r. f_equal. destruct (decide (t' = t)); [f_equal; lia|done].
  - rewrite (IH j) by done. rewrite got_push_all, decide_False, app_nil_r; [by rewrite Nat.add_succ_r|].
    intros ->. apply N1, (list_elem_of_lookup_2 ms j k J).
Qed.
End Even.

Definition all_partitions_sorted (tps : list (bytes * Z)) : list (bytes * Z) := merge_sort tp_le (RebalanceProtocol.all_partitions tps).
(** Round robin: with distinct members, no member gets two partitions more than another. *)
Lemma roundrobin_even ms tps k1 k2 l1 l2 : NoDup ms → let a := RebalanceProtocol.assign RoundRobin ms tps in
  a !! k1 = Some l1 → a !! k2 = Some l2 → (length l1 ≤ S (length l2))%nat.
Proof.
  intros N a H1 H2. destruct (decide (ms = [])) as [->|M]; [by vm_compute in H1|].
  destruct (assign_spread RoundRobin ms tps M) as [_ D]. fold a in D.
  assert (∀ k l, a !! k = Some l → (length (all_partitions_sorted tps) / length ms ≤ length l ≤ S (length (all_partitions_sorted tps) / length ms))%nat) as B.
  { intros k l H. pose proof (elem_of_dom_2 _ _ _ H) as K. rewrite D in K. apply elem_of_list_to_set in K.
    rewrite <- (merge_sort_Permutation bytes_le ms) in K. apply list_elem_of_lookup in K as [j J].
    destruct (deal_got (merge_sort bytes_le ms) ms (all_partitions_sorted tps) j k) as [_ G]; [by rewrite (merge_sort_Permutation bytes_le ms)|done|].
    rewrite (Permutation_length (merge_sort_Permutation bytes_le ms)) in G.
    assert (length l = length (default [] ((foldl (RebalanceProtocol.deal (merge_sort bytes_le ms)) (RebalanceProtocol.no_assignments ms, 0%nat) (all_partitions_sorted tps)).1 !! k))) as ->.
    { unfold a in H. cbn [RebalanceProtocol.assign] in H. unfold RebalanceProtocol.assign_roundrobin in H. rewrite bool_decide_false in H by done.
      unfold all_partitions_sorted. by rewrite H. }
    rewrite G. apply turns_bounds. apply lookup_lt_Some in J. by rewrite (Permutation_length (merge_sort_Permutation bytes_le ms)) in J. }
  pose proof (B _ _ H1). pose proof (B _ _ H2). lia.
Qed.

(** The members of a topic's turn share its partitions evenly: the [j]th in order gets one more when [j] is below the remainder. *)
Lemma range_share ms tps t j k : NoDup ms → merge_sort bytes_le ms !! j = Some k → NoDup tps.*1 →
  of_topic t (default [] (RebalanceProtocol.assign Range ms tps !! k)) =
  match (list_to_map tps : gmap bytes Z) !! t with
  | Some n => Z.to_nat (Z.quot n (Z.of_nat (length ms)) + if (Z.of_nat j <? Z.rem n (Z.of_nat (length ms)))%Z then 1 else 0)
  | None => 0%nat
  end.
Proof.
  intros N J T. cbn [RebalanceProtocol.assign]. unfold RebalanceProtocol.assign_range. rewrite bool_decide_false by (intros ->; done).
  assert (NoDup (merge_sort bytes_le ms)) as N' by (by rewrite (merge_sort_Permutation bytes_le ms)).
  transitivity (of_topic t (default [] (RebalanceProtocol.no_assignments ms !! k)) + match (list_to_map tps : gmap bytes Z) !! t with
    | Some n => Z.to_nat (Z.quot n (Z.of_nat (length ms)) + if (Z.of_nat j <? Z.rem n (Z.of_nat (length ms)))%Z then 1 else 0) | None => 0 end)%nat; [|by rewrite got_none].
  generalize (RebalanceProtocol.no_assignments ms). induction tps as [|[t' n] tps IH]; intros m; cbn [foldl]; [rewrite list_to_map_nil, lookup_empty; lia|].
  apply NoDup_cons in T as [T1 T2]. rewrite IH by done. cbn [fst snd]. rewrite (range_members_got t t' _ _ _ j k) by done.
  rewrite list_to_map_cons.
  destruct (decide (t' = t)) as [->|D]; [|by rewrite lookup_insert_ne, Nat.add_0_r].
  rewrite lookup_insert_eq, (not_elem_of_list_to_map_1 tps t T1). cbn [Nat.add]. lia.
Qed.
(** Range: with distinct members, no member gets two partitions of a topic more than another. *)
Lemma range_even ms tps t k1 k2 l1 l2 : NoDup ms → NoDup tps.*1 → let a := RebalanceProtocol.assign Range ms tps in
  a !! k1 = Some l1 → a !! k2 = Some l2 → (of_topic t l1 ≤ S (of_topic t l2))%nat.
Proof.
  intros N T a H1 H2. destruct (decide (ms = [])) as [->|M]; [by vm_compute in H1|].
  destruct (assign_spread Range ms tps M) as [_ D]. fold a in D.
  assert (∀ k l, a !! k = Some l → ∃ j, merge_sort bytes_le ms !! j = Some k ∧ l = default [] (a !! k)) as B.
  { intros k l H. pose proof (elem_of_dom_2 _ _ _ H) as K. rewrite D in K. apply elem_of_list_to_set in K.
    rewrite <- (merge_sort_Permutation bytes_le ms) in K. apply list_elem_of_lookup in K as [j J]. exists j. by rewrite H. }
  destruct (B _ _ H1) as (j1 & J1 & ->), (B _ _ H2) as (j2 & J2 & ->). unfold a.
  rewrite (range_share ms tps t j1 k1), (range_share ms tps t j2 k2) by done.
  destruct (_ !! t) as [n|]; [|lia]. destruct (_ <? _)%Z, (_ <? _)%Z; lia.
Qed.

(** ** Generations *)

(** The calls, and the second half of a deletion, which may come at any time after the first. *)
Inductive Request : Type :=
| Join (gid : bytes) (mid : option bytes) (client host : bytes) (session_timeout rebalance_timeout : Z) (ptype : bytes) (protos : gmap bytes bytes) (uuid : bytes) (now : Z)
| Sync (gid : bytes) (generation : Z) (mid : bytes) (assignments : gmap bytes bytes) (now : Z)
| Heartbeat (gid : bytes) (generation : Z) (mid : bytes) (now : Z)
| Leave (gid mid : bytes) (now : Z)
| Remove (gid : bytes)
| Expire (now : Z).
(** What the members have been told: the generation in the answer to the last join of each *)
Abbreviation Told := (gmap (bytes * bytes) Z) (only parsing).
Definition handle (w : Groups * Told) (r : Request) : Groups * Told :=
  match r with
  | Join gid mid client host st rt ptype protos uuid now =>
      let (a, gs) := GroupCoordinator.join_group w.1 gid mid client host st rt ptype protos uuid now in
      (gs, <[(gid, j_member_id a) := j_generation_id a]> w.2)
  | Sync gid generation mid assignments now => ((GroupCoordinator.sync_group w.1 gid generation mid assignments now).2, w.2)
  | Heartbeat gid generation mid now => ((GroupCoordinator.heartbeat w.1 gid generation mid now).2, w.2)
  | Leave gid mid now => ((GroupCoordinator.leave_group w.1 gid mid now).2, w.2)
  | Remove gid => (base.delete gid w.1, w.2)
  | Expire now => (GroupCoordinator.expire_stale_members w.1 now, w.2)
  end.
Definition run (rs : list Request) : Groups * Told := foldl handle (∅, ∅) rs.

Section Generations.
Import GroupCoordinator.
Definition told_distinct (w : Groups * Told) (n : Z) : Prop := ∀ gid g, w.1 !! gid = Some g →
  (0 ≤ generation_id g ≤ n)%Z ∧
  (∀ m, m ∈ dom (members g) → ∃ v, w.2 !! (gid, m) = Some v ∧ (v ≤ generation_id g)%Z) ∧
  (∀ m1 m2 v, m1 ∈ dom (members g) → m2 ∈ dom (members g) → w.2 !! (gid, m1) = Some v → w.2 !! (gid, m2) = Some v → m1 = m2).
(** A group that comes from one by a step that admits nobody *)
Definition no_newcomer (g g' : ConsumerGroup) (n : Z) : Prop :=
  dom (members g') ⊆ dom (members g) ∧ ((0 ≤ generation_id g < n)%Z → (generation_id g ≤ generation_id g' ≤ generation_id g + 1)%Z).
Definition nobody_joins (gs gs' : Groups) (n : Z) : Prop := ∀ gid g', gs' !! gid = Some g' → ∃ g, gs !! gid = Some g ∧ no_newcomer g g' n.

Lemma next_generation_small g : (0 ≤ g < 2147483647)%Z → next_generation g = (g + 1)%Z.
Proof. intros H. unfold next_generation. rewrite Z.mod_small; lia. Qed.
Lemma no_newcomer_refl g n : no_newcomer g g n.
Proof. split; [done|lia]. Qed.
Lemma nobody_insert gs gid g g' n : gs !! gid = Some g → no_newcomer g g' n → nobody_joins gs (<[gid := g']> gs) n.
Proof.
  intros H N k h. destruct (decide (k = gid)) as [->|D]; [rewrite lookup_insert_eq; intros [= <-]; eauto|].
  rewrite lookup_insert_ne by done. eauto using no_newcomer_refl.
Qed.
Lemma nobody_refl gs n : nobody_joins gs gs n.
Proof. intros k h. eauto using no_newcomer_refl. Qed.
Lemma told_nobody gs gs' kn n : (n < 2147483647)%Z → nobody_joins gs gs' 2147483647 → told_distinct (gs, kn) n → told_distinct (gs', kn) (n + 1).
Proof.
  intros B N T gid g' H. cbn [fst snd] in *. destruct (N gid g' H) as (g & Hg & D & G). destruct (T gid g Hg) as (T1 & T2 & T3).
  specialize (G ltac:(lia)). split_and!; [lia..| |].
  - intros m Hm. destruct (T2 m) as (v & Hv & L); [set_solver|]. exists v. split; [done|lia].
  - intros m1 m2 v H1 H2. apply T3; set_solver.
Qed.

Lemma guarded_ok gs gid gen mid g m : guarded gs gid gen mid = Ok (g, m) → gs !! gid = Some g ∧ generation_id g = gen ∧ members g !! mid = Some m.
Proof.
  unfold guarded. destruct (gs !! gid) as [g0|]; cbn; [|done]. destruct (Z.eqb_spec (generation_id g0) gen); cbn; [|done].
  destruct (members g0 !! mid) as [m0|] eqn:E; cbn; [|done]. by intros [= -> ->].
Qed.
Lemma sync_nobody gs gid gen mid asg now n : nobody_joins gs (sync_group gs gid gen mid asg now).2 n.
Proof.
  unfold sync_group. destruct (guarded gs gid gen mid) as [[g m]|e] eqn:E; [|apply nobody_refl].
  apply guarded_ok in E as (E & _ & _). apply (nobody_insert _ _ _ _ _ E). split; [|cbn; lia]. cbn.
  generalize (members g). induction (map_to_list asg) as [|e l IH]; intros ms; cbn; [done|]. rewrite IH. by rewrite dom_alter_L.
Qed.
Lemma heartbeat_nobody gs gid gen mid now n : nobody_joins gs (heartbeat gs gid gen mid now).2 n.
Proof.
  unfold heartbeat. destruct (guarded gs gid gen mid) as [[g m]|e] eqn:E; [|apply nobody_refl].
  apply guarded_ok in E as (E & _ & M). apply (nobody_insert _ _ _ _ _ E). split; [|cbn; lia]. cbn. apply elem_of_dom_2 in M. set_solver.
Qed.
Lemma leave_nobody gs gid mid now : nobody_joins gs (leave_group gs gid mid now).2 2147483647.
Proof.
  unfold leave_group. destruct (gs !! gid) as [g|] eqn:E; [|apply nobody_refl]. apply (nobody_insert _ _ _ _ _ E).
  case_bool_decide; split; cbn; try set_solver; [lia|]. intros H'. rewrite next_generation_small; lia.
Qed.
Lemma remove_nobody gs gid n : nobody_joins gs (base.delete gid gs) n.
Proof. intros k h [_ H]%lookup_delete_Some. eauto using no_newcomer_refl. Qed.
Lemma expire_nobody gs now n : nobody_joins gs (expire_stale_members gs now) n.
Proof.
  intros k h. unfold expire_stale_members. rewrite lookup_fmap. intros (g & Hg & ->)%fmap_Some. exists g. split; [done|].
  split; [|cbn; lia]. cbn. apply dom_filter_subseteq.
Qed.
Lemma told_join w n gid mid client host st rt ptype protos uuid now : (0 ≤ n < 2147483647)%Z → told_distinct w n →
  told_distinct (handle w (Join gid mid client host st rt ptype protos uuid now)) (n + 1).
Proof.
  intros B T. destruct w as [gs kn]. cbn [handle fst snd]. unfold join_group. cbn [fst snd j_member_id j_generation_id generation_id].
  set (a := match mid with Some (c :: id) => c :: id | _ => client ++ str "-" ++ uuid end). set (g0 := default _ _).
  assert ((0 ≤ generation_id g0 ≤ n)%Z ∧ ∀ m, m ∈ dom (members g0) → gs !! gid = Some g0) as [G M].
  { unfold g0. destruct (gs !! gid) as [g|] eqn:E; cbn; [split; [apply (T gid g E)|done]|]. split; [lia|set_solver]. }
  rewrite next_generation_small by lia. intros k h. cbn [fst snd].
  destruct (decide (k = gid)) as [->|D].
  - rewrite lookup_insert_eq. intros [= <-]. cbn [members generation_id]. split; [lia|].
    assert (∀ m, m ∈ dom (<[a := mkMember a client host st rt ptype protos [] now now]> (members g0)) → m ≠ a →
      m ∈ dom (members g0) ∧ ∃ v, kn !! (gid, m) = Some v ∧ (v ≤ generation_id g0)%Z) as O.
    { intros m Hm Ha. assert (m ∈ dom (members g0)) as Hd by set_solver. split; [done|]. by apply (T gid g0 (M m Hd)). }
    split.
    + intros m Hm. destruct (decide (m = a)) as [->|Ha]; [rewrite lookup_insert_eq; eexists; split; [done|lia]|].
      destruct (O m Hm Ha) as (_ & v & Hv & L). rewrite lookup_insert_ne by congruence. exists v. split; [done|lia].
    + intros m1 m2 v H1 H2. destruct (decide (m1 = a)) as [->|A1], (decide (m2 = a)) as [->|A2]; [done|..].
      * destruct (O m2 H2 A2) as (_ & u & Hu & L). rewrite lookup_insert_eq, lookup_insert_ne by congruence. intros [= <-] ?. simplify_eq. lia.
      * destruct (O m1 H1 A1) as (_ & u & Hu & L). rewrite lookup_insert_eq, lookup_insert_ne by congruence. intros ? [= <-]. simplify_eq. lia.
      * destruct (O m1 H1 A1) as (D1 & _), (O m2 H2 A2) as (D2 & _). rewrite !lookup_insert_ne by congruence. by apply (T gid g0 (M m1 D1)).
  - rewrite lookup_insert_ne by done. intros H. destruct (T k h H) as (T1 & T2 & T3). split_and!; [lia..| |].
    + intros m Hm. rewrite lookup_insert_ne by congruence. auto.
    + intros m1 m2 v. rewrite !lookup_insert_ne by congruence. apply T3.
Qed.
Lemma told_handle w r n : (0 ≤ n < 2147483647)%Z → told_distinct w n → told_distinct (handle w r) (n + 1).
Proof.
  intros B T. destruct r; [by apply told_join|..]; destruct w as [gs kn]; cbn [handle fst snd]; eapply told_nobody; try exact T; try lia;
    auto using sync_nobody, heartbeat_nobody, leave_nobody, remove_nobody, expire_nobody.
Qed.
Lemma told_run rs : (Z.of_nat (length rs) ≤ 2147483647)%Z → told_distinct (run rs) (Z.of_nat (length rs)).
Proof.
  unfold run. induction rs as [|r rs IH] using rev_ind; intros B; [intros gid g H; cbn [foldl fst] in H; by rewrite lookup_empty in H|].
  rewrite length_app in *. cbn [length] in *. rewrite foldl_app. cbn [foldl].
  replace (Z.of_nat (length rs + 1)) with (Z.of_nat (length rs) + 1)%Z by lia. apply told_handle; [lia|]. apply IH. lia.
Qed.
End Generations.

(** C40: After any sequence of joins, syncs, heartbeats, departures, deletions and expiries, of two
    members of a group that each use the generation their own last join was answered with, one
    has its heartbeat refused: every join starts a generation that only the joining member knows,
    so two members never share one and a group of two never settles. *)
Theorem one_member_per_generation rs gid m1 m2 v1 v2 t1 t2 : (Z.of_nat (length rs) ≤ 2147483647)%Z → m1 ≠ m2 →
  (run rs).2 !! (gid, m1) = Some v1 → (run rs).2 !! (gid, m2) = Some v2 →
  (∃ e, (GroupCoordinator.heartbeat (run rs).1 gid v1 m1 t1).1 = Err e) ∨ (∃ e, (GroupCoordinator.heartbeat (run rs).1 gid v2 m2 t2).1 = Err e).
Proof.
  intros B D K1 K2. pose proof (told_run rs B) as T. unfold GroupCoordinator.heartbeat.
  destruct (GroupCoordinator.guarded _ gid v1 m1) as [[g1 x1]|e] eqn:E1; [|left; eauto].
  destruct (GroupCoordinator.guarded _ gid v2 m2) as [[g2 x2]|e] eqn:E2; [|right; eauto].
  apply guarded_ok in E1 as (G1 & <- & M1). apply guarded_ok in E2 as (G2 & <- & M2). rewrite G1 in G2. injection G2 as ->.
  destruct D. destruct (T gid g2 G1) as (_ & _ & T3). apply (T3 m1 m2 (generation_id g2)); [by eapply elem_of_dom_2|by eapply elem_of_dom_2|done|done].
Qed.
(** Two members join, and the first syncs and beats with what it was told. *)
Definition two_join : list Request :=
  let join m := Join (str "g") (Some m) (str "c") (str "h") 10000 10000 (str "consumer") ∅ (str "u") 0 in
  [join (str "a"); join (str "b"); Sync (str "g") 1 (str "a") ∅ 1].
Lemma one_member_per_generation_witness :
  (∃ e, (GroupCoordinator.heartbeat (run two_join).1 (str "g") 1 (str "a") 2).1 = Err e) ∨ (∃ e, (GroupCoordinator.heartbeat (run two_join).1 (str "g") 2 (str "b") 2).1 = Err e).
Proof. apply one_member_per_generation; [vm_compute; discriminate|discriminate|by vm_compute|by vm_compute]. Defined.

(** ** Syncing, leaders and deletion *)

Section Calls.
Import GroupCoordinator.
Lemma stale_generation_refused gs gid g gen mid asg now : gs !! gid = Some g → generation_id g ≠ gen →
  sync_group gs gid gen mid asg now = (Err (IllegalGeneration gid (generation_id g) gen), gs) ∧
  heartbeat gs gid gen mid now = (Err (IllegalGeneration gid (generation_id g) gen), gs).
Proof. intros H N. unfold sync_group, heartbeat, guarded. rewrite H. cbn. by rewrite (proj2 (Z.eqb_neq _ _) N). Qed.
Lemma assigned_lookup (l : list (bytes * bytes)) k : NoDup l.*1 → ∀ ms : gmap bytes GroupMember,
  foldl (λ ms e, alter (set_assignment e.2) e.1 ms) ms l !! k =
  match (list_to_map l : gmap bytes bytes) !! k with Some a => set_assignment a <$> ms !! k | None => ms !! k end.
Proof.
  induction l as [|[k' a] l IH]; intros N ms; cbn [foldl]; [by rewrite list_to_map_nil, lookup_empty|]. apply NoDup_cons in N as [N1 N2].
  rewrite IH, list_to_map_cons by done. cbn [fst snd]. destruct (decide (k' = k)) as [->|D].
  - by rewrite lookup_insert_eq, (not_elem_of_list_to_map_1 l k N1), lookup_alter_eq.
  - by rewrite lookup_insert_ne, lookup_alter_ne.
Qed.
Lemma sync_spec gs gid g m gen mid asg now : guarded gs gid gen mid = Ok (g, m) →
  (sync_group gs gid gen mid asg now).1 = Ok (default (assignment m) (asg !! mid)) ∧
  ∃ g', (sync_group gs gid gen mid asg now).2 = <[gid := g']> gs ∧ state g' = Stable ∧ generation_id g' = gen ∧ leader_id g' = leader_id g ∧
    ∀ k, members g' !! k = (λ x, set_assignment (default (assignment x) (asg !! k)) x) <$> members g !! k.
Proof.
  intros H. pose proof (guarded_ok _ _ _ _ _ _ H) as (_ & G & M). unfold sync_group. rewrite H. cbn [fst snd].
  pose proof (NoDup_fst_map_to_list asg) as N.
  split; [|eexists; split_and!; [done..|]; intros k; cbn [members set_members]]; rewrite assigned_lookup, list_to_map_to_list by done.
  - rewrite M. by destruct (asg !! mid).
  - destruct (asg !! k), (members g !! k) as [[]|]; done.
Qed.

Definition leader_in (g : ConsumerGroup) : Prop := members g = ∅ ∨ leader_id g ∈ dom (members g).
Lemma min_key_in m : m ≠ ∅ → default [] (min_key m) ∈ dom m.
Proof.
  intros H. unfold min_key. pose proof (merge_sort_Permutation bytes_le (map_to_list m).*1) as P.
  destruct (merge_sort _ _) as [|k l]; cbn.
  - apply Permutation_nil_l in P. symmetry in P. by apply fmap_nil_inv, map_to_list_empty_iff in P.
  - assert (k ∈ (map_to_list m).*1) as ([k' x] & -> & Hx)%list_elem_of_fmap by (rewrite <- P; set_solver).
    apply elem_of_map_to_list in Hx. by apply elem_of_dom_2 in Hx.
Qed.
Lemma leaders_insert (gs : Groups) (gid : bytes) g : map_Forall (λ _, leader_in) gs → leader_in g → map_Forall (λ _, leader_in) (<[gid := g]> gs).
Proof. intros. by apply map_Forall_insert_2. Qed.
Lemma leader_is_member rs : (∀ now, Expire now ∉ rs) → map_Forall (λ _, leader_in) (run rs).1.
Proof.
  unfold run. induction rs as [|r rs IH] using rev_ind; intros E; [apply map_Forall_empty|]. rewrite foldl_app. cbn [foldl].
  specialize (IH ltac:(set_solver)). destruct (foldl _ _ rs) as [gs kn]. cbn [fst] in IH. destruct r; cbn [handle fst snd].
  - unfold join_group. cbn. apply leaders_insert; [done|]. right. cbn. case_bool_decide as A; cbn.
    { apply min_key_in, insert_non_empty. }
    case_bool_decide as C; cbn; [apply min_key_in, insert_non_empty|]. by apply elem_of_dom, not_eq_None_Some.
  - unfold sync_group. destruct (guarded _ _ _ _) as [[g m]|e] eqn:G; [|done]. apply guarded_ok in G as (G & _ & M).
    apply leaders_insert; [done|]. right. cbn. specialize (IH _ _ G) as [C|C]; [by rewrite C in M|].
    revert C. generalize (members g). induction (map_to_list assignments) as [|e l IHl]; intros ms C; cbn; [done|]. apply IHl. by rewrite dom_alter_L.
  - unfold heartbeat. destruct (guarded _ _ _ _) as [[g m]|e] eqn:G; [|done]. apply guarded_ok in G as (G & _ & M).
    apply leaders_insert; [done|]. right. cbn. specialize (IH _ _ G) as [C|C]; [by rewrite C in M|]. set_solver.
  - unfold leave_group. destruct (gs !! gid) as [g|] eqn:G; [|done]. apply leaders_insert; [done|].
    case_bool_decide as C; [by left|right]. cbn. case_bool_decide as L; [by apply min_key_in|].
    specialize (IH _ _ G) as [C'|C']; [by rewrite C', delete_empty in C|]. set_solver.
  - by apply map_Forall_delete.
  - destruct (E now). set_solver.
Qed.
End Calls.

(** ** What the coordinator does not do *)

Section Gaps.
Import GroupCoordinator.
Definition joining (m : bytes) (now : Z) : Request := Join (str "g") (Some m) (str "c") (str "h") 10 10 (str "consumer") {[str "range" := [1; 2]]} (str "u") now.
Definition group_of (rs : list Request) : ConsumerGroup := default (ConsumerGroup.new 0 []) ((run rs).1 !! str "g").

(** No call chooses a protocol, so the leader is told the members without their metadata
    (unless a member lists the protocol with the empty name). *)
Lemma protocol_never_chosen rs : map_Forall (λ _ g, protocol_name g = []) (run rs).1.
Proof.
  unfold run. induction rs as [|r rs IH] using rev_ind; [apply map_Forall_empty|]. rewrite foldl_app. cbn [foldl].
  destruct (foldl _ _ rs) as [gs kn]. cbn [fst] in IH. destruct r; cbn [handle fst snd].
  - unfold join_group. cbn. apply map_Forall_insert_2; [|done]. cbn. destruct (gs !! gid) as [g|] eqn:G; [exact (IH gid g G)|done].
  - unfold sync_group. destruct (guarded _ _ _ _) as [[g m]|e] eqn:G; [|done]. apply guarded_ok in G as (G & _). apply map_Forall_insert_2; [exact (IH gid g G)|done].
  - unfold heartbeat. destruct (guarded _ _ _ _) as [[g m]|e] eqn:G; [|done]. apply guarded_ok in G as (G & _). apply map_Forall_insert_2; [exact (IH gid g G)|done].
  - unfold leave_group. destruct (gs !! gid) as [g|] eqn:G; [|done]. apply map_Forall_insert_2; [|done]. case_bool_decide; exact (IH gid g G).
  - by apply map_Forall_delete.
  - intros k g. unfold expire_stale_members. rewrite lookup_fmap. intros (g0 & H & ->)%fmap_Some. exact (IH k g0 H).
Qed.
(** A member that is not the leader settles the group, and its assignment is the one that counts. *)
Lemma follower_assigns :
  let gs := (run [joining (str "a") 0; joining (str "b") 0]).1 in
  leader_id (group_of [joining (str "a") 0; joining (str "b") 0]) = str "a" ∧
  (sync_group gs (str "g") 2 (str "b") {[str "b" := [7]]} 1).1 = Ok [7] ∧
  state <$> (sync_group gs (str "g") 2 (str "b") ∅ 1).2 !! str "g" = Some Stable ∧
  (sync_group gs (str "g") 2 (str "b") ∅ 1).1 = Ok [].
Proof. cbn zeta. split_and!; by vm_compute. Qed.
(** Expiring the leader leaves the group Stable, in its generation, led by nobody. *)
Lemma expired_leader_stays :
  let g := group_of [joining (str "a") 0; joining (str "b") 1000000000; Sync (str "g") 2 (str "b") ∅ 1000000000; Expire 1000000001] in
  state g = Stable ∧ generation_id g = 2%Z ∧ leader_id g = str "a" ∧ (map_to_list (members g)).*1 = [str "b"].
Proof. cbn zeta. split_and!; by vm_compute. Qed.
(** A member that joins once a deletion has seen the group empty loses the group. *)
Lemma delete_loses_join :
  let gs := (run [joining (str "a") 0; Leave (str "g") (str "a") 1]).1 in
  let (r, gs') := delete_group (λ gs, (handle (gs, ∅) (joining (str "b") 2)).1) gs (str "g") in
  r = Ok tt ∧ heartbeat gs' (str "g") 2 (str "b") 3 = (Err (GroupNotFound (str "g")), gs').
Proof. by vm_compute. Qed.
End Gaps.
