(* ===== verification/NetTypes.v ===== *)
(** * Addresses and protocols of cave-net

    What the tables of crates/networking/cave-net/src/cilium share: [std::net::IpAddr], the
    protocols of policy.rs, and the crate ipnet, which parses networks in CIDR notation, as a
    class with the documented relation between [hosts] and [contains].  [PlainNet] is an
    instance, for evaluation. *)

From S2P Require Import Prelude Bytes.

Abbreviation u16 := N (only parsing).
Abbreviation u32 := N (only parsing).

Inductive IpAddr : Type := V4 (a : N) | V6 (a : N).
#[export] Instance IpAddr_eq_dec : EqDecision IpAddr.
Proof. solve_decision. Defined.
#[export] Instance IpAddr_countable : Countable IpAddr.
Proof. apply (inj_countable' (λ i, match i with V4 a => inl a | V6 a => inr a end) (λ s, match s with inl a => V4 a | inr a => V6 a end)). by intros []. Defined.
Definition is_v4 (i : IpAddr) : bool := match i with V4 _ => true | V6 _ => false end.

Inductive L4Protocol : Type := TCP | UDP | SCTP | ICMP | Any.
#[export] Instance L4Protocol_eq_dec : EqDecision L4Protocol.
Proof. solve_decision. Defined.
#[export] Instance L4Protocol_countable : Countable L4Protocol.
Proof.
  apply (inj_countable (λ p, match p with TCP => 0 | UDP => 1 | SCTP => 2 | ICMP => 3 | Any => 4 end)
    (λ n, match n with 0 => Some TCP | 1 => Some UDP | 2 => Some SCTP | 3 => Some ICMP | 4 => Some Any | _ => None end)). by intros [].
Defined.

(** [ipnet::IpNet]: parsing, the family with the length of the prefix, membership, and the
    addresses that can be given to hosts, in order *)
Class Ipnet : Type := {
  IpNet : Type;
  net_from_str : bytes → option IpNet;
  net_prefix : IpNet → N + N;
  net_contains : IpNet → IpAddr → bool;
  net_hosts : IpNet → list IpAddr }.
Class IpnetLaws `{!Ipnet} : Prop := {
  hosts_contained n i : i ∈ net_hosts n → net_contains n i = true;
  hosts_once n : NoDup (net_hosts n);
  contains_family n i : net_contains n i = true → is_v4 i = (if net_prefix n is inl _ then true else false) }.

(** Networks of sixteen addresses, written as the number of the network, in either family:
    the first and the last are not for hosts. *)
Module PlainNet.
Definition range_hosts (f : N → IpAddr) (n : N) : list IpAddr := (λ k, f (16 * n + N.of_nat k)) <$> seq 1 14.
#[export] Instance Plain : Ipnet := {|
  IpNet := N + N;
  net_from_str s := match s with [52; n] => Some (inl n) | [54; n] => Some (inr n) | _ => None end;
  net_prefix n := match n with inl _ => inl 28 | inr _ => inr 124 end;
  net_contains n i := match n, i with inl n, V4 a => a / 16 =? n | inr n, V6 a => a / 16 =? n | _, _ => false end;
  net_hosts n := match n with inl n => range_hosts V4 n | inr n => range_hosts V6 n end |}.
#[export] Instance PlainLaws : IpnetLaws.
Proof.
  assert (∀ n k, k ∈ seq 1 14 → (16 * n + N.of_nat k) / 16 = n) as D.
  { intros n k Hk%elem_of_seq. symmetry. apply (N.div_unique _ 16 n (N.of_nat k)); lia. }
  split.
  - intros [n|n] i; cbn -[seq range_hosts]; unfold range_hosts; rewrite list_elem_of_fmap; intros (k & -> & Hk); by rewrite D, N.eqb_refl.
  - intros [n|n]; cbn -[seq range_hosts]; unfold range_hosts; (apply NoDup_fmap_2; [|apply NoDup_seq]); intros x y [=]; lia.
  - by intros [n|n] [a|a].
Qed.
End PlainNet.
