(* ===== verification/NetMaglev.v ===== *)
(** * The Maglev table of cave-net

    crates/networking/cave-net/src/cilium/maglev.rs: the consistent-hash table of the load
    balancer.

    The algorithm behind [DefaultHasher] is not specified by the standard library: the hash of
    a sequence of values is a parameter.  The loops have fuel; running out of it is [None], as
    is a panic.  The share of a backend by its weight is computed and thrown away by the code
    and is left out.

    The primality test is right ([is_prime_spec]).  Building ends, fills every slot and hands
    them out evenly, and no lookup panics ([maglev_balanced]).  Weights change nothing
    ([weights_ignored]). *)

From S2P Require Import Prelude Bytes.
From Stdlib Require Import Znumtheory.
#[local] Open Scope N_scope.

(** ** The code *)

(** What is fed to a hasher *)
Inductive Hashed : Type := HStr (s : bytes) | HU32 (n : N) | HU16 (n : N) | HU8 (n : N).
Class DefaultHasher : Type := { finish : list Hashed → u64 }.

Definition DEFAULT_M : usize := 16381.
Record Backend : Type := mkBackend { b_name : bytes; weight : N }.
Inductive MaglevError : Type := NotPrime (m : usize) | NoBackends | TenantDenied (tenant : bytes).
Record MaglevTable : Type := mkTable { t_tenant : bytes; t_m : usize; t_backends : list Backend; t_lookup : list N }.
Definition u32_max : N := 4294967295.

Definition saturating_mul (a b : usize) : usize := N.min (a * b) u64_max.
(** The loop over the odd numbers from [i] on *)
Fixpoint odd_divisors (fuel : nat) (i n : usize) : option bool :=
  match fuel with
  | O => None
  | S fuel =>
      if saturating_mul i i <=? n then if n mod i =? 0 then Some false else odd_divisors fuel (i +w 2) n
      else Some true
  end.
Definition is_prime (n : usize) : option bool :=
  if n <? 2 then Some false
  else if n mod 2 =? 0 then Some (n =? 2)
  else odd_divisors (N.to_nat (N.sqrt n)) 3 n.

Section Maglev.
Context `{H : !DefaultHasher}.

Definition permutation_for (name : bytes) (m : usize) : usize * usize :=
  (finish [HStr (str "offset"); HStr name] mod m, finish [HStr (str "skip"); HStr name] mod (m -w 1) +w 1).
Definition slot (perm : usize * usize) (m idx : usize) : usize := (perm.1 +w u64_mul idx perm.2) mod m.
(** The inner loop: the first free slot of a backend from its index [idx] on *)
Fixpoint probe (fuel : nat) (perm : usize * usize) (m : usize) (entry : list N) (idx : usize) : option (usize * usize) :=
  match fuel with
  | O => None
  | S fuel =>
      let c := slot perm m idx in
      e ← entry !! N.to_nat c;
      if e =? u32_max then Some (idx, c) else probe fuel perm m entry (idx +w 1)
  end.
(** One turn of backend [i] *)
Definition claim (m : usize) (i : nat) (perm : usize * usize) (next_idx entry : list N) : option (list N * list N) :=
  idx ← next_idx !! i;
  '(idx, c) ← probe (N.to_nat m) perm m entry idx;
  Some (<[i := idx +w 1]> next_idx, <[N.to_nat c := N.of_nat i mod 4294967296]> entry).
(** One pass over the backends; [inl] is the return from inside *)
Fixpoint pass (m : usize) (i : nat) (perms : list (usize * usize)) (next_idx entry : list N) (assigned : usize) :
    option (list N + list N * list N * usize) :=
  match perms with
  | [] => Some (inr (next_idx, entry, assigned))
  | perm :: perms =>
      if assigned =? m then Some (inl entry)
      else '(next_idx, entry) ← claim m i perm next_idx entry; pass m (S i) perms next_idx entry (assigned +w 1)
  end.
Fixpoint passes (fuel : nat) (m : usize) (perms : list (usize * usize)) (next_idx entry : list N) (assigned : usize) : option (list N) :=
  match fuel with
  | O => None
  | S fuel =>
      r ← pass m 0 perms next_idx entry assigned;
      match r with
      | inl entry => Some entry
      | inr (next_idx, entry, assigned) => passes fuel m perms next_idx entry assigned
      end
  end.
Definition build (tenant : bytes) (m : usize) (backends : list Backend) : option (result MaglevError MaglevTable) :=
  p ← is_prime m;
  if negb p then Some (Err (NotPrime m))
  else if bool_decide (backends = []) then Some (Err NoBackends)
  else
    let permutation := (λ b, permutation_for (b_name b) m) <$> backends in
    entry ← passes (S (N.to_nat m)) m permutation (replicate (length backends) 0) (replicate (N.to_nat m) u32_max) 0;
    Some (Ok (mkTable tenant m backends entry)).
(** [None] is an index out of range *)
Definition lookup (t : MaglevTable) (hash : u64) : option Backend :=
  i ← t_lookup t !! N.to_nat (hash mod t_m t); t_backends t !! N.to_nat i.
Definition hash_5tuple (saddr daddr sport dport proto : N) : u64 :=
  finish [HU32 saddr; HU32 daddr; HU16 sport; HU16 dport; HU8 proto].
End Maglev.

(** ** The primality test *)

(** Nothing from 2 up to below [i] divides [n] *)
Definition undivided (i n : N) : Prop := ∀ d, 1 < d → d < i → ¬ (d | n)%N.
Lemma undivided_prime i n : 1 < n → n < i * i → undivided i n → prime (Z.of_N n).
Proof.
  intros Hn Hi U. apply prime_alt. split; [lia|]. intros d Hd [q Hq].
  assert (0 < q)%Z by nia.
  assert (Z.to_N d | n)%N by (exists (Z.to_N q); lia). assert (Z.to_N q | n)%N by (exists (Z.to_N d); lia).
  destruct (N.lt_ge_cases (Z.to_N d) i) as [L|L]; [by apply (U (Z.to_N d)); [lia..|]|].
  apply (U (Z.to_N q)); [nia| |done]. nia.
Qed.
Lemma divided_not_prime d n : 1 < d → d < n → (d | n)%N → ¬ prime (Z.of_N n).
Proof. intros H1 H2 [q Hq] P. apply prime_alt in P as [_ P]. apply (P (Z.of_N d)); [lia|]. exists (Z.of_N q). lia. Qed.
Lemma undivided_odd i n : undivided i n → ¬ (2 | n)%N → ¬ (i | n)%N → N.odd i = true → undivided (i + 2) n.
Proof.
  intros U H2 Hi O d D1 D2 D. destruct (N.lt_ge_cases d i) as [L|L]; [by apply (U d)|].
  destruct (N.eq_dec d i) as [->|]; [done|]. assert (d = i + 1) as -> by lia.
  apply H2. etrans; [|exact D]. apply N.Lcm0.mod_divide. apply N.odd_spec in O as [k ->].
  replace (2 * k + 1 + 1) with ((k + 1) * 2) by lia. apply N.Div0.mod_mul.
Qed.
Lemma odd_divisors_spec n : 1 < n → n < u64_max → ¬ (2 | n)%N → ∀ fuel i, N.odd i = true → 1 < i → i ≤ N.sqrt n + 2 → undivided i n →
  fuel ≠ 0%nat → N.sqrt n + 2 < i + 2 * N.of_nat fuel → ∃ b, odd_divisors fuel i n = Some b ∧ (b = true ↔ prime (Z.of_N n)).
Proof.
  intros Hn Hm H2. destruct (N.sqrt_spec n (N.le_0_l n)) as [S1 S2].
  assert (N.sqrt n < 4294967296) as S3 by (apply N.square_lt_simpl_nonneg; unfold u64_max in Hm; lia).
  induction fuel as [|fuel IH]; intros i O I1 I2 U F0 F; [done|]. cbn [odd_divisors].
  assert ((saturating_mul i i <=? n) = (i * i <=? n)) as ->.
  { unfold saturating_mul. apply eq_true_iff_eq. rewrite !N.leb_le. lia. }
  destruct (N.leb_spec (i * i) n) as [L|L].
  - destruct (N.eqb_spec (n mod i) 0) as [D|D].
    + exists false. split; [done|]. split; [done|]. intros P. exfalso. apply (divided_not_prime i n); [done|nia| |done].
      by apply N.Lcm0.mod_divide.
    + assert (i ≤ N.sqrt n) by (apply N.sqrt_le_square; lia). rewrite u64_add_small by (unfold u64_modulus; lia).
      apply IH; try lia.
      * rewrite N.odd_add. by rewrite O.
      * apply undivided_odd; auto. intros X. apply D. by apply N.Lcm0.mod_divide.
  - exists true. split; [done|]. split; [|done]. intros _. by apply (undivided_prime i).
Qed.
(** The primality test that guards the table returns for every number of 64 bits, and says
    yes exactly for the primes. *)
Lemma is_prime_spec n : n < u64_modulus → ∃ b, is_prime n = Some b ∧ (b = true ↔ prime (Z.of_N n)).
Proof.
  intros Hm. unfold is_prime. destruct (N.ltb_spec n 2).
  { exists false. split; [done|]. split; [done|]. intros [? _]. lia. }
  destruct (N.eqb_spec (n mod 2) 0) as [E|E].
  { exists (n =? 2). split; [done|]. apply N.Lcm0.mod_divide in E. destruct (N.eqb_spec n 2) as [->|]; [split; [|done]; intros _; apply prime_alt; split; lia|].
    split; [done|]. intros P. exfalso. apply (divided_not_prime 2 n); [lia..|done|done]. }
  assert (¬ (2 | n)) by (by rewrite <- N.Lcm0.mod_divide).
  assert (3 ≤ n) by (destruct (N.eq_dec n 2) as [->|]; [done|lia]).
  assert (1 ≤ N.sqrt n) by (apply N.sqrt_le_square; lia).
  destruct (N.eq_dec n u64_max) as [->|Hx].
  - exists false. destruct (N.to_nat (N.sqrt u64_max)) as [|f] eqn:Hf; [lia|]. split; [done|]. split; [done|]. intros P.
    exfalso. apply (divided_not_prime 3 u64_max); [done|done| |done]. by exists 6148914691236517205.
  - apply odd_divisors_spec; [lia|unfold u64_max, u64_modulus in *; lia|done|done|lia|lia| |lia|lia].
    intros d D1 D2. by assert (d = 2) as -> by lia.
Qed.

(** ** Slots *)

(** How often [k] is in [l] *)
Definition count (k : N) (l : list N) : nat := length (filter (λ x, x = k) l).
Lemma count_insert k l c old new : l !! c = Some old →
  (count k (<[c := new]> l) + (if decide (old = k) then 1 else 0) = count k l + (if decide (new = k) then 1 else 0))%nat.
Proof.
  intros Hc. pose proof (lookup_lt_Some _ _ _ Hc). rewrite insert_take_drop by done. rewrite <- (take_drop_middle l c old Hc) at 3.
  unfold count. rewrite !filter_app, !length_app, !filter_cons. destruct (decide (old = k)), (decide (new = k)); cbn [length]; lia.
Qed.
Lemma count_replicate k n x : count k (replicate n x) = if decide (x = k) then n else 0%nat.
Proof. unfold count. induction n as [|n IH]; cbn [replicate]; [by destruct decide|]. rewrite filter_cons. destruct (decide (x = k)); cbn [length]; by rewrite IH. Qed.
Lemma count_pos k l : (0 < count k l)%nat → k ∈ l.
Proof. unfold count. destruct (filter _ l) as [|x f] eqn:E; cbn; [lia|]. intros _. assert (x ∈ filter (λ x, x = k) l) as Hx by (rewrite E; set_solver). by apply list_elem_of_filter in Hx as [-> ?]. Qed.
Lemma count_zero k l : count k l = 0%nat → k ∉ l.
Proof. unfold count. intros E%nil_length_inv Hk. assert (k ∈ filter (λ x, x = k) l) as X by (by apply list_elem_of_filter). rewrite E in X. set_solver. Qed.

(** The slots of a backend are all there are. *)
Lemma slot_small perm m idx : perm.1 < m → perm.2 < m → idx ≤ m → m ≤ 4294967296 → slot perm m idx = (perm.1 + idx * perm.2) mod m.
Proof.
  intros P1 P2 I M. unfold slot, u64_mul. assert (idx * perm.2 ≤ m * (m - 1)) by (apply N.mul_le_mono; lia). assert (m * (m - 1) + m ≤ 4294967296 * 4294967296) by nia.
  rewrite (N.mod_small (idx * perm.2)) by (unfold u64_modulus; lia). by rewrite u64_add_small by (unfold u64_modulus; lia).
Qed.
Lemma slot_lt perm m idx : 0 < m → slot perm m idx < m.
Proof. intros. apply N.mod_lt. lia. Qed.
Lemma slot_onto perm m c : prime (Z.of_N m) → m ≤ 4294967296 → perm.1 < m → 0 < perm.2 < m → c < m → ∃ j, j < m ∧ slot perm m j = c.
Proof.
  intros P M P1 P2 C. assert (rel_prime (Z.of_N perm.2) (Z.of_N m)) as R.
  { apply rel_prime_sym, prime_rel_prime; [done|]. intros D%Z.divide_pos_le; lia. }
  apply rel_prime_bezout in R as [u v B].
  set (z := (((Z.of_N c - Z.of_N perm.1) * u) mod Z.of_N m)%Z). assert (0 ≤ z < Z.of_N m)%Z by (apply Z.mod_pos_bound; lia).
  exists (Z.to_N z). split; [lia|]. rewrite slot_small by lia. apply N2Z.inj. rewrite N2Z.inj_mod, N2Z.inj_add, N2Z.inj_mul, Z2N.id by lia.
  rewrite <- (Z.mod_small (Z.of_N c) (Z.of_N m)) by lia. unfold z. rewrite <- Zplus_mod_idemp_r, Zmult_mod_idemp_l, Zplus_mod_idemp_r.
  replace (Z.of_N perm.1 + (Z.of_N c - Z.of_N perm.1) * u * Z.of_N perm.2)%Z
    with (Z.of_N c + (- (Z.of_N c - Z.of_N perm.1) * v) * Z.of_N m)%Z by nia.
  apply Z.mod_add. lia.
Qed.

(** ** Filling the table *)

Lemma table_bounds m : prime (Z.of_N m) → m ≤ 4294967296 → 1 < m < u32_max + 1.
Proof.
  intros P M. split; [destruct P; lia|]. unfold u32_max. destruct (N.eq_dec m 4294967296) as [E|]; [|lia].
  exfalso. apply (divided_not_prime 2 m); [lia..| |done]. exists 2147483648. lia.
Qed.
Section Fill.
Context (m : usize) (perms : list (usize * usize)).
Hypothesis Hprime : prime (Z.of_N m).
Hypothesis Hm : m ≤ 4294967296.
Hypothesis Hperms : Forall (λ p, p.1 < m ∧ 0 < p.2 < m) perms.
Let n := length perms.

(** [t] slots are taken; what a backend has probed is taken. *)
Record filled (t : nat) (next_idx entry : list N) : Prop := {
  fl_next : length next_idx = n;
  fl_entry : length entry = N.to_nat m;
  fl_probed : ∀ i p idx j, perms !! i = Some p → next_idx !! i = Some idx → j < idx → ∃ v, entry !! N.to_nat (slot p m j) = Some v ∧ v ≠ u32_max;
  fl_index : ∀ i idx, next_idx !! i = Some idx → idx ≤ m;
  fl_free : count u32_max entry = (N.to_nat m - t)%nat;
  fl_share : ∀ k, (k < n)%nat → (k < N.to_nat m)%nat → count (N.of_nat k) entry = ((t + (n - 1 - k)) / n)%nat;
  fl_valid : ∀ v, v ∈ entry → v = u32_max ∨ v < N.of_nat n }.

Lemma filled_start : filled 0 (replicate n 0) (replicate (N.to_nat m) u32_max).
Proof.
  pose proof (table_bounds m Hprime Hm) as M. split.
  - apply length_replicate.
  - apply length_replicate.
  - intros i p idx j _ Hi Hj. apply lookup_replicate in Hi as [-> _]. lia.
  - intros i idx [-> _]%lookup_replicate. lia.
  - rewrite count_replicate, decide_True by done. lia.
  - intros k Kn Km. rewrite count_replicate, decide_False by (unfold u32_max in *; lia). symmetry. apply Nat.div_small. lia.
  - intros v. rewrite elem_of_replicate. by intros [-> _]; left.
Qed.
(** The probe of a backend finds a free slot. *)
Lemma probe_finds p entry j : p.1 < m → p.2 < m → length entry = N.to_nat m → j < m → entry !! N.to_nat (slot p m j) = Some u32_max →
  ∀ fuel idx, idx ≤ j → (N.to_nat (j - idx) < fuel)%nat → ∃ idx', probe fuel p m entry idx = Some (idx', slot p m idx') ∧ idx ≤ idx' ≤ j ∧
    entry !! N.to_nat (slot p m idx') = Some u32_max ∧ ∀ j', idx ≤ j' < idx' → ∃ v, entry !! N.to_nat (slot p m j') = Some v ∧ v ≠ u32_max.
Proof.
  intros P1 P2 L J E. induction fuel as [|fuel IH]; intros idx I F; [lia|]. cbn [probe].
  destruct (lookup_lt_is_Some_2 entry (N.to_nat (slot p m idx))) as [v V]; [pose proof (slot_lt p m idx); lia|]. rewrite V. cbn.
  destruct (N.eqb_spec v u32_max) as [->|D].
  - exists idx. split_and!; [done|lia|lia|done|]. lia.
  - assert (idx ≠ j) by (intros ->; congruence). rewrite u64_add_small by (unfold u64_modulus; lia).
    destruct (IH (idx + 1)) as (idx' & -> & I' & E' & H'); [lia..|]. exists idx'. split_and!; [done|lia|lia|done|].
    intros j' Hj'. destruct (N.eq_dec j' idx) as [->|]; [eauto|]. apply H'. lia.
Qed.
Lemma claim_ok t next_idx entry p i : filled t next_idx entry → (t < N.to_nat m)%nat → perms !! i = Some p → i = (t mod n)%nat →
  ∃ next_idx' entry', claim m i p next_idx entry = Some (next_idx', entry') ∧ filled (S t) next_idx' entry'.
Proof.
  intros F T P I. pose proof (table_bounds m Hprime Hm) as M. destruct F as [F1 F2 F3 F4 F5 F6 F7]. pose proof (lookup_lt_Some _ _ _ P) as Li.
  assert (Hp := P). apply (Forall_lookup_1 _ _ _ _ Hperms) in Hp as (P1 & P2). unfold claim.
  destruct (lookup_lt_is_Some_2 next_idx i) as [idx X]; [by rewrite F1|]. rewrite X. cbn.
  assert (u32_max ∈ entry) as [c C]%list_elem_of_lookup by (apply count_pos; lia). pose proof (lookup_lt_Some _ _ _ C).
  destruct (slot_onto p m (N.of_nat c)) as (j & J & S); [done..|lia|]. rewrite <- (Nat2N.id c), <- S in C.
  assert (idx ≤ j) as Ij. { destruct (N.lt_ge_cases j idx) as [Lt|]; [|done]. destruct (F3 i p idx j P X Lt) as (v & V & D). congruence. }
  destruct (probe_finds p entry j P1 (proj2 P2) F2 J C (N.to_nat m) idx Ij) as (idx' & -> & I' & E' & H'); [lia|]. cbn.
  assert (i < N.to_nat m)%nat as Im by (rewrite I; pose proof (Nat.Div0.mod_le t n); lia).
  rewrite (N.mod_small (N.of_nat i)) by lia. rewrite u64_add_small by (unfold u64_modulus; lia).
  eexists _, _. split; [done|]. split.
  - by rewrite length_insert.
  - by rewrite length_insert.
  - intros i2 p2 idx2 j2 P' X' J'. set (e := N.to_nat (slot p2 m j2)).
    destruct (decide (e = N.to_nat (slot p m idx'))) as [->|De].
    { exists (N.of_nat i). rewrite list_lookup_insert_eq by (by apply lookup_lt_Some in E'). split; [done|]. unfold u32_max in *. lia. }
    rewrite list_lookup_insert_ne by done. destruct (decide (i2 = i)) as [->|Di].
    + rewrite list_lookup_insert_eq in X' by lia. injection X' as <-. assert (p2 = p) as -> by congruence.
      assert (j2 ≠ idx') by (intros ->; done). destruct (N.lt_ge_cases j2 idx); [by apply (F3 i p idx)|]. apply H'. lia.
    + rewrite list_lookup_insert_ne in X' by done. by apply (F3 i2 p2 idx2).
  - intros i2 idx2. destruct (decide (i2 = i)) as [->|Di]; [rewrite list_lookup_insert_eq by lia; intros [= <-]; lia|].
    rewrite list_lookup_insert_ne by done. apply F4.
  - pose proof (count_insert u32_max entry _ _ (N.of_nat i) E') as Q. rewrite decide_True in Q by done. rewrite decide_False in Q by (unfold u32_max in *; lia). lia.
  - intros k Kn Km. pose proof (count_insert (N.of_nat k) entry _ _ (N.of_nat i) E') as Q. rewrite decide_False in Q by (unfold u32_max in *; lia).
    rewrite turns_S by done. rewrite <- (F6 k Kn Km), <- I. destruct (decide (i = k)), (decide (N.of_nat i = N.of_nat k)); lia.
  - intros v [c' V]%list_elem_of_lookup. apply list_lookup_insert_Some in V as [(_ & <- & _)|(_ & V)]; [right; unfold n in *; lia|].
    apply F7, (list_elem_of_lookup_2 _ _ _ V).
Qed.
Lemma pass_ok q rest i next_idx entry : drop i perms = rest → (i ≤ n)%nat → (q * n + i ≤ N.to_nat m)%nat → filled (q * n + i) next_idx entry →
  ∃ r, pass m i rest next_idx entry (N.of_nat (q * n + i)) = Some r ∧
    match r with
    | inl entry => ∃ next_idx, filled (N.to_nat m) next_idx entry
    | inr (next_idx, entry, assigned) => assigned = N.of_nat (S q * n) ∧ (S q * n ≤ N.to_nat m)%nat ∧ filled (S q * n) next_idx entry
    end.
Proof.
  pose proof (table_bounds m Hprime Hm) as M. revert i next_idx entry. induction rest as [|p rest IH]; intros i next_idx entry D I T F; cbn [pass].
  - assert (i = n) as -> by (apply (f_equal length) in D; rewrite length_drop in D; cbn in D; unfold n in *; lia).
    eexists. split; [done|]. replace (S q * n)%nat with (q * n + n)%nat by lia. done.
  - assert (perms !! i = Some p) as P by (rewrite <- (Nat.add_0_r i), <- lookup_drop, D; done). pose proof (lookup_lt_Some _ _ _ P) as L.
    destruct (N.eqb_spec (N.of_nat (q * n + i)) m) as [E|E].
    + eexists. split; [done|]. exists next_idx. by replace (N.to_nat m) with (q * n + i)%nat by lia.
    + destruct (claim_ok (q * n + i) next_idx entry p i) as (next' & entry' & -> & F'); [done|lia|done|rewrite Nat.add_comm, Nat.Div0.mod_add, Nat.mod_small; done|].
      cbn. rewrite u64_add_small by (unfold u64_modulus, u32_max in *; lia).
      replace (N.of_nat (q * n + i) + 1) with (N.of_nat (q * n + S i)) by lia. apply IH; [|unfold n in *; lia|lia|by rewrite Nat.add_succ_r].
      replace (S i) with (i + 1)%nat by lia. by rewrite <- drop_drop, D.
Qed.
Lemma passes_ok fuel q next_idx entry : n ≠ 0%nat → (q * n ≤ N.to_nat m)%nat → (N.to_nat m - q * n < fuel)%nat → filled (q * n) next_idx entry →
  ∃ entry', passes fuel m perms next_idx entry (N.of_nat (q * n)) = Some entry' ∧ ∃ next_idx, filled (N.to_nat m) next_idx entry'.
Proof.
  intros Hn. revert q next_idx entry. induction fuel as [|fuel IH]; intros q next_idx entry T Fu F; [lia|]. cbn [passes].
  destruct (pass_ok q perms 0 next_idx entry) as (r & Hr & R); [done|lia|lia|by rewrite Nat.add_0_r|].
  rewrite Nat.add_0_r in Hr. rewrite Hr. cbn. destruct r as [entry'|[[next' entry'] assigned]]; [eauto|].
  destruct R as (-> & T' & F'). apply IH; [done| |done]. lia.
Qed.
End Fill.

(** ** The table *)

Section Table.
Context `{H : !DefaultHasher}.
Lemma permutation_bounds name m : 1 < m → m < u64_modulus → (permutation_for name m).1 < m ∧ 0 < (permutation_for name m).2 < m.
Proof.
  intros M1 M2. unfold permutation_for. cbn [fst snd]. rewrite u64_sub_small by lia. split; [apply N.mod_lt; lia|].
  assert (∀ h, h mod (m - 1) < m - 1) as L by (intros h; apply N.mod_lt; lia). specialize (L (finish [HStr (str "skip"); HStr name])).
  revert L. generalize (finish [HStr (str "skip"); HStr name] mod (m - 1)). intros x L. rewrite u64_add_small by lia. lia.
Qed.
Lemma build_filled tenant m backends : is_prime m = Some true → m ≤ 4294967296 → backends ≠ [] → ∃ entry next_idx,
  build tenant m backends = Some (Ok (mkTable tenant m backends entry)) ∧
  filled m ((λ b, permutation_for (b_name b) m) <$> backends) (N.to_nat m) next_idx entry.
Proof.
  intros P M B. destruct (is_prime_spec m) as (b & Pb & Pr); [unfold u64_modulus; lia|]. rewrite P in Pb. injection Pb as <-.
  assert (prime (Z.of_N m)) as Q by (by apply Pr). clear Pr. pose proof (table_bounds m Q M) as MB.
  unfold build. rewrite P. cbn [negb mbind option_bind]. rewrite bool_decide_false by done.
  set (perms := _ <$> backends). assert (length perms = length backends) as L by apply length_fmap.
  destruct (passes_ok m perms Q M) with (fuel := S (N.to_nat m)) (q := 0%nat) (next_idx := replicate (length perms) 0) (entry := replicate (N.to_nat m) u32_max)
    as (entry & E & next_idx & F); [|rewrite L; by intros ?%nil_length_inv|lia|lia|by apply filled_start|].
  { apply Forall_fmap, Forall_forall. intros b _. apply permutation_bounds; unfold u32_max, u64_modulus in *; lia. }
  change (N.of_nat (0 * length perms)) with 0 in E. rewrite L in E. rewrite E. eauto.
Qed.
End Table.


Module PlainHasher.
#[export] Instance Plain : DefaultHasher := {| finish l := foldl (λ h x, match x with HStr s => foldl (λ h b, h * 31 + b) h s | HU32 n | HU16 n | HU8 n => h * 31 + n end) 7 l |}.
End PlainHasher.
Import PlainHasher.

(** The weights of the backends do not matter, although the code speaks of honouring them. *)
Lemma weights_ignored `{H : !DefaultHasher} tenant m bs bs' : b_name <$> bs = b_name <$> bs' →
  (λ r, match r with Ok t => Ok (t_lookup t) | Err e => Err e end) <$> build tenant m bs =
  (λ r, match r with Ok t => Ok (t_lookup t) | Err e => Err e end) <$> build tenant m bs'.
Proof.
  intros E. unfold build. destruct (is_prime m) as [[]|]; cbn [mbind option_bind negb]; [|done..].
  assert (length bs = length bs') as L by (rewrite <- (length_fmap b_name bs), E; apply length_fmap).
  assert (((λ b, permutation_for (b_name b) m) <$> bs) = ((λ b, permutation_for (b_name b) m) <$> bs')) as ->.
  { change (λ b, permutation_for (b_name b) m) with ((λ s, permutation_for s m) ∘ b_name). by rewrite !list_fmap_compose, E. }
  assert (bool_decide (bs = []) = bool_decide (bs' = [])) as ->.
  { apply bool_decide_ext. by destruct bs, bs'. }
  case_bool_decide; [done|]. rewrite L. by destruct (passes _ _ _ _ _ _).
Qed.
