(* ===== verification/NetNat.v ===== *)
(** * Translation tables and identities of cave-net

    crates/networking/cave-net/src/cilium: nat.rs (source and destination translation),
    identity.rs (numeric identities of label sets) and ipcache.rs (what is known of an
    address).

    The tables are owned: a method has them to itself.  A [HashMap] is a [gmap].

    Source translation is a bijection between the flows it knows and the reply tuples it has
    given out, and gives up only when every port towards the destination is taken
    ([snat_bijection]).  Identities stand for one label set each, for good
    ([identities_injective]); the address cache keeps the newest entry of the strongest source
    ([strongest_source_wins]). *)

From S2P Require Import Prelude Bytes NetTypes.

(** ** nat.rs *)

Definition EPHEMERAL_PORT_MIN : u16 := 32768.
Definition EPHEMERAL_PORT_MAX : u16 := 65535.
Record SnatKey : Type := mkSnatKey { src_ip : IpAddr; src_port : u16; dst_ip : IpAddr; dst_port : u16 }.
#[export] Instance SnatKey_eq_dec : EqDecision SnatKey.
Proof. solve_decision. Defined.
#[export] Instance SnatKey_countable : Countable SnatKey.
Proof. apply (inj_countable' (λ k, (src_ip k, src_port k, dst_ip k, dst_port k)) (λ '(a, b, c, d), mkSnatKey a b c d)). by intros []. Defined.
Record SnatEntry : Type := mkSnatEntry { new_src_ip : IpAddr; new_src_port : u16; snat_created : u64 }.
Record DnatEntry : Type := mkDnatEntry { backend_ip : IpAddr; backend_port : u16 }.
#[export] Instance DnatEntry_eq_dec : EqDecision DnatEntry.
Proof. solve_decision. Defined.
#[export] Instance DnatEntry_countable : Countable DnatEntry.
Proof. apply (inj_countable' (λ k, (backend_ip k, backend_port k)) (λ '(a, b), mkDnatEntry a b)). by intros []. Defined.
Inductive NatError : Type := PortExhausted (src : IpAddr) | NatTenantDenied (tenant : bytes) | RevNatExhausted (n : N).

Record SnatTable : Type := mkSnat { snat_tenant : bytes; node_ip : IpAddr; forward : gmap SnatKey SnatEntry; reverse : gmap SnatKey SnatKey }.
Module SnatTable.
Definition new (tenant : bytes) (node : IpAddr) : SnatTable := mkSnat tenant node ∅ ∅.
Definition rev_key (t : SnatTable) (key : SnatKey) (candidate : u16) : SnatKey := mkSnatKey (node_ip t) candidate (dst_ip key) (dst_port key).
(** The ports in the order they are tried *)
Definition candidates (key : SnatKey) : list u16 :=
  let start := (EPHEMERAL_PORT_MIN + src_port key mod (EPHEMERAL_PORT_MAX - EPHEMERAL_PORT_MIN + 1)) mod 65536 in
  let span := (EPHEMERAL_PORT_MAX - EPHEMERAL_PORT_MIN + 1) mod 65536 in
  (λ off, EPHEMERAL_PORT_MIN + ((start - EPHEMERAL_PORT_MIN) + N.of_nat off) mod span) <$> seq 0 (N.to_nat span).
Definition allocate (t : SnatTable) (key : SnatKey) (now : u64) : result NatError SnatEntry * SnatTable :=
  match forward t !! key with
  | Some entry => (Ok entry, t)
  | None =>
      match List.find (λ c, bool_decide (reverse t !! rev_key t key c = None)) (candidates key) with
      | Some candidate =>
          let entry := mkSnatEntry (node_ip t) candidate now in
          (Ok entry, mkSnat (snat_tenant t) (node_ip t) (<[key := entry]> (forward t)) (<[rev_key t key candidate := key]> (reverse t)))
      | None => (Err (PortExhausted (src_ip key)), t)
      end
  end.
Definition lookup (t : SnatTable) (key : SnatKey) : option SnatEntry := forward t !! key.
Definition lookup_reverse (t : SnatTable) (key : SnatKey) : option SnatKey := reverse t !! key.
Definition release (t : SnatTable) (key : SnatKey) : bool * SnatTable :=
  match forward t !! key with
  | Some entry =>
      let rev := mkSnatKey (new_src_ip entry) (new_src_port entry) (dst_ip key) (dst_port key) in
      (true, mkSnat (snat_tenant t) (node_ip t) (delete key (forward t)) (delete rev (reverse t)))
  | None => (false, t)
  end.
End SnatTable.

Record DnatTable : Type := mkDnat { dnat_tenant : bytes; next_index : u32; by_index : gmap N DnatEntry; by_backend : gmap DnatEntry N }.
Module DnatTable.
Definition new (tenant : bytes) : DnatTable := mkDnat tenant 1 ∅ ∅.
Definition install (t : DnatTable) (entry : DnatEntry) : result NatError u16 * DnatTable :=
  match by_backend t !! entry with
  | Some idx => (Ok idx, t)
  | None =>
      if 65535 <? next_index t then (Err (RevNatExhausted (next_index t - 1)), t)
      else
        let idx := next_index t mod 65536 in
        (Ok idx, mkDnat (dnat_tenant t) (next_index t + 1) (<[idx := entry]> (by_index t)) (<[entry := idx]> (by_backend t)))
  end.
Definition lookup (t : DnatTable) (idx : u16) : option DnatEntry := by_index t !! idx.
Definition remove (t : DnatTable) (idx : u16) : bool * DnatTable :=
  match by_index t !! idx with
  | Some entry => (true, mkDnat (dnat_tenant t) (next_index t) (delete idx (by_index t)) (delete entry (by_backend t)))
  | None => (false, t)
  end.
End DnatTable.

(** ** identity.rs *)

Definition MIN_LOCAL_IDENTITY : u32 := 256.
Definition MAX_LOCAL_IDENTITY : u32 := 16777215.
Abbreviation LabelSet := (list (bytes * bytes)) (only parsing).
Definition pair_le (a b : bytes * bytes) : Prop := bytes_ltb a.1 b.1 = true ∨ a.1 = b.1 ∧ bytes_le a.2 b.2.
#[export] Instance pair_le_dec a b : Decision (pair_le a b).
Proof. apply _. Defined.
(** [dedup_by(|a, b| a.0 == b.0)]: an element goes when its key is that of the last one kept *)
Fixpoint dedup_after (k : bytes) (l : LabelSet) : LabelSet :=
  match l with [] => [] | q :: l => if bool_decide (q.1 = k) then dedup_after k l else q :: dedup_after q.1 l end.
Definition dedup_keys (l : LabelSet) : LabelSet := match l with [] => [] | p :: l => p :: dedup_after p.1 l end.
Definition from_iter (it : list (bytes * bytes)) : LabelSet := dedup_keys (merge_sort pair_le it).
Inductive IdentityError : Type :=
| EmptyLabels | Exhausted (n : u32) | IdentityTenantDenied (tenant : bytes) | ReservedIdentity (n : u32) | MissingReservedLabel (name : bytes).
Definition ID_HOST : u32 := 1.
Definition ID_WORLD : u32 := 2.
Definition ID_UNMANAGED : u32 := 3.
Definition ID_HEALTH : u32 := 4.
Definition ID_INIT : u32 := 5.
Definition ID_REMOTE_NODE : u32 := 6.
Definition reserved_identity_for (labels : LabelSet) : option u32 :=
  match filter (λ p, p.1 = str "reserved") labels with
  | [(_, v)] =>
      if bool_decide (v = str "host") then Some ID_HOST
      else if bool_decide (v = str "world") then Some ID_WORLD
      else if bool_decide (v = str "unmanaged") then Some ID_UNMANAGED
      else if bool_decide (v = str "health") then Some ID_HEALTH
      else if bool_decide (v = str "init") then Some ID_INIT
      else if bool_decide (v = str "remote-node") then Some ID_REMOTE_NODE
      else None
  | _ => None
  end.
Record LocalIdentityCache : Type := mkIdentities { li_tenant : bytes; next_id : u32; by_labels : gmap (list (bytes * bytes)) u32; by_id : gmap u32 (list (bytes * bytes)) }.
Module LocalIdentityCache.
Definition new (tenant : bytes) : LocalIdentityCache := mkIdentities tenant MIN_LOCAL_IDENTITY ∅ ∅.
Definition lookup_or_allocate (c : LocalIdentityCache) (labels : LabelSet) : result IdentityError u32 * LocalIdentityCache :=
  if bool_decide (labels = []) then (Err EmptyLabels, c)
  else match reserved_identity_for labels with
  | Some rid => (Ok rid, c)
  | None =>
      match by_labels c !! labels with
      | Some id => (Ok id, c)
      | None =>
          if MAX_LOCAL_IDENTITY <? next_id c then (Err (Exhausted (next_id c - 1)), c)
          else (Ok (next_id c), mkIdentities (li_tenant c) (next_id c + 1) (<[labels := next_id c]> (by_labels c)) (<[next_id c := labels]> (by_id c)))
      end
  end.
Definition lookup_by_id (c : LocalIdentityCache) (id : u32) : option LabelSet := by_id c !! id.
Definition release (c : LocalIdentityCache) (id : u32) : bool * LocalIdentityCache :=
  match by_id c !! id with
  | Some labels => (true, mkIdentities (li_tenant c) (next_id c) (delete labels (by_labels c)) (delete id (by_id c)))
  | None => (false, c)
  end.
End LocalIdentityCache.

(** ** ipcache.rs *)

Inductive IpcacheSource : Type := Restored | Kvstore | ClusterMesh | Generated | Local_.
#[export] Instance IpcacheSource_eq_dec : EqDecision IpcacheSource.
Proof. solve_decision. Defined.
(** The order of the variants *)
Definition priority (s : IpcacheSource) : N := match s with Restored => 0 | Kvstore => 1 | ClusterMesh => 2 | Generated => 3 | Local_ => 4 end.
Record IpcacheEntry : Type := mkIpcacheEntry { identity : u32; source : IpcacheSource; encryption_key : u8; tunnel_endpoint : option IpAddr }.
Inductive IpcacheError : Type :=
| IpNotFound (ip : IpAddr) | LowerPriority (existing incoming : IpcacheSource) | IpcacheTenantDenied (tenant : bytes).
Abbreviation Ipcache := (gmap IpAddr IpcacheEntry) (only parsing).
Module Ipcache.
Definition upsert (c : Ipcache) (ip : IpAddr) (entry : IpcacheEntry) : result IpcacheError unit * Ipcache :=
  match c !! ip with
  | Some existing =>
      if priority (source entry) <? priority (source existing) then (Err (LowerPriority (source existing) (source entry)), c)
      else (Ok tt, <[ip := entry]> c)
  | None => (Ok tt, <[ip := entry]> c)
  end.
Definition force_set (c : Ipcache) (ip : IpAddr) (entry : IpcacheEntry) : Ipcache := <[ip := entry]> c.
Definition remove_if_source (c : Ipcache) (ip : IpAddr) (expected : IpcacheSource) : bool * Ipcache :=
  match c !! ip with
  | Some e => if bool_decide (source e = expected) then (true, delete ip c) else (false, c)
  | None => (false, c)
  end.
Definition remove_force (c : Ipcache) (ip : IpAddr) : option IpcacheEntry * Ipcache := (c !! ip, delete ip c).
Definition identity_of (c : Ipcache) (ip : IpAddr) : option u32 := identity <$> c !! ip.
Definition list_by_source (c : Ipcache) (s : IpcacheSource) : list (IpAddr * IpcacheEntry) := filter (λ e, source e.2 = s) (map_to_list c).
Definition purge_source (c : Ipcache) (s : IpcacheSource) : usize * Ipcache :=
  let c' := filter (λ e, source e.2 ≠ s) c in (N.of_nat (size c) - N.of_nat (size c'), c').
End Ipcache.

(** ** Source translation *)

Inductive SnatCall : Type := Allocate (key : SnatKey) (now : u64) | Release (key : SnatKey).
Definition snat_step (t : SnatTable) (c : SnatCall) : SnatTable :=
  match c with Allocate key now => (SnatTable.allocate t key now).2 | Release key => (SnatTable.release t key).2 end.
Definition snat_run (tenant : bytes) (node : IpAddr) (cs : list SnatCall) : SnatTable := foldl snat_step (SnatTable.new tenant node) cs.
(** The tuple of a reply to the translated flow *)
Definition reply_key (k : SnatKey) (e : SnatEntry) : SnatKey := mkSnatKey (new_src_ip e) (new_src_port e) (dst_ip k) (dst_port k).
Record snat_wf (t : SnatTable) : Prop := {
  sw_forward k e : forward t !! k = Some e → reverse t !! reply_key k e = Some k ∧ new_src_ip e = node_ip t ∧ EPHEMERAL_PORT_MIN ≤ new_src_port e ≤ EPHEMERAL_PORT_MAX;
  sw_reverse r k : reverse t !! r = Some k → ∃ e, forward t !! k = Some e ∧ r = reply_key k e }.

Lemma elem_of_candidates key c : c ∈ SnatTable.candidates key ↔ EPHEMERAL_PORT_MIN ≤ c ≤ EPHEMERAL_PORT_MAX.
Proof.
  unfold SnatTable.candidates, EPHEMERAL_PORT_MIN, EPHEMERAL_PORT_MAX. cbn zeta.
  change ((65535 - 32768 + 1) mod 65536) with 32768. change (65535 - 32768 + 1) with 32768.
  pose proof (N.mod_lt (src_port key) 32768 ltac:(done)) as B. revert B. generalize (src_port key mod 32768). intros x B.
  rewrite (N.mod_small (32768 + x)) by lia. replace (32768 + x - 32768) with x by lia. rewrite list_elem_of_fmap. split.
  - intros (off & -> & _). pose proof (N.mod_lt (x + N.of_nat off) 32768 ltac:(done)) as L. revert L. generalize ((x + N.of_nat off) mod 32768). lia.
  - intros H. exists (N.to_nat ((c - 32768 + (32768 - x)) mod 32768)). pose proof (N.mod_lt (c - 32768 + (32768 - x)) 32768 ltac:(done)) as L. split.
    + rewrite N2Nat.id, N.Div0.add_mod_idemp_r. replace (x + (c - 32768 + (32768 - x))) with (c - 32768 + 1 * 32768) by lia.
      rewrite N.Div0.mod_add, N.mod_small; lia.
    + apply elem_of_seq. revert L. generalize ((c - 32768 + (32768 - x)) mod 32768). lia.
Qed.
Lemma free_port t key : match List.find (λ c, bool_decide (reverse t !! SnatTable.rev_key t key c = None)) (SnatTable.candidates key) with
  | Some c => EPHEMERAL_PORT_MIN ≤ c ≤ EPHEMERAL_PORT_MAX ∧ reverse t !! SnatTable.rev_key t key c = None
  | None => ∀ c, EPHEMERAL_PORT_MIN ≤ c ≤ EPHEMERAL_PORT_MAX → reverse t !! SnatTable.rev_key t key c ≠ None
  end.
Proof.
  destruct (List.find _ _) as [c|] eqn:E.
  - apply List.find_some in E as [E%list_elem_of_In%elem_of_candidates F]. by apply bool_decide_eq_true in F.
  - intros c Hc%(elem_of_candidates key)%list_elem_of_In. pose proof (List.find_none _ _ E c Hc) as F. by apply bool_decide_eq_false in F.
Qed.
Lemma snat_step_wf t c : snat_wf t → snat_wf (snat_step t c) ∧ node_ip (snat_step t c) = node_ip t.
Proof.
  intros [F R]. destruct c as [key now|key]; cbn [snat_step].
  - unfold SnatTable.allocate. destruct (forward t !! key) as [e|] eqn:E; [by split|]. pose proof (free_port t key) as P.
    destruct (List.find _ _) as [c|]; [|by split]. destruct P as [Pr Pf]. split; [|done]. split; cbn.
    + intros k e. destruct (decide (k = key)) as [->|D].
      * rewrite lookup_insert_eq. intros [= <-]. cbn. split; [by rewrite lookup_insert_eq|done].
      * rewrite lookup_insert_ne by done. intros H. destruct (F k e H) as (H1 & H2). split; [|done].
        rewrite lookup_insert_ne; [done|]. intros X. rewrite X in Pf. congruence.
    + intros r k. destruct (decide (r = SnatTable.rev_key t key c)) as [->|D].
      * rewrite lookup_insert_eq. intros [= <-]. eexists. split; [by rewrite lookup_insert_eq|done].
      * rewrite lookup_insert_ne by done. intros H. destruct (R r k H) as (e & He & ->). exists e. split; [|done].
        rewrite lookup_insert_ne; [done|]. intros ->. congruence.
  - unfold SnatTable.release. destruct (forward t !! key) as [e|] eqn:E; [|by split]. split; [|done]. split; cbn.
    + intros k e' [D H]%lookup_delete_Some. destruct (F k e' H) as (H1 & H2). split; [|done].
      apply lookup_delete_Some. split; [|done]. intros X. destruct (F key e E) as (H3 & _). unfold reply_key in *. rewrite X in H3. congruence.
    + intros r k [D H]%lookup_delete_Some. destruct (R r k H) as (e' & He & ->). exists e'. split; [|done].
      apply lookup_delete_Some. split; [|done]. intros ->. rewrite E in He. injection He as ->. done.
Qed.
Lemma snat_run_wf tenant node cs : snat_wf (snat_run tenant node cs) ∧ node_ip (snat_run tenant node cs) = node.
Proof.
  unfold snat_run. induction cs as [|c cs [IH1 IH2]] using rev_ind; [by split|]. rewrite foldl_app. cbn [foldl].
  destruct (snat_step_wf _ c IH1) as [H1 H2]. split; [done|congruence].
Qed.
(** C22: after any sequence of allocations and releases, reply tuples and known flows are in one
    to one correspondence (so no two flows to a destination share a source port, and a reply
    finds its flow), ports are ephemeral, and an allocation fails exactly for an unknown flow
    to a destination towards which all of the 32768 ports are taken. *)
Theorem snat_bijection tenant node cs : let t := snat_run tenant node cs in
  (∀ k r, SnatTable.lookup_reverse t r = Some k ↔ ∃ e, SnatTable.lookup t k = Some e ∧ r = reply_key k e) ∧
  (∀ k e, SnatTable.lookup t k = Some e → new_src_ip e = node ∧ EPHEMERAL_PORT_MIN ≤ new_src_port e ≤ EPHEMERAL_PORT_MAX) ∧
  (∀ k now, is_ok (SnatTable.allocate t k now).1 = false ↔ SnatTable.lookup t k = None ∧
    ∀ p, EPHEMERAL_PORT_MIN ≤ p ≤ EPHEMERAL_PORT_MAX → SnatTable.lookup_reverse t (mkSnatKey node p (dst_ip k) (dst_port k)) ≠ None).
Proof.
  intros t. destruct (snat_run_wf tenant node cs) as [[F R] N]. fold t in F, R, N. unfold SnatTable.lookup, SnatTable.lookup_reverse. split_and!.
  - intros k r. split; [apply R|]. intros (e & He & ->). by apply F.
  - intros k e H. rewrite <- N. apply (F k e H).
  - intros k now. unfold SnatTable.allocate. destruct (forward t !! k) as [e|] eqn:E; cbn; [split; [done|by intros [? _]]|].
    pose proof (free_port t k) as P. unfold SnatTable.rev_key in *. rewrite N in *. destruct (List.find _ _) as [c|]; cbn; [|by split].
    split; [done|]. intros [_ H]. destruct P as [P1 P2]. by apply H in P1.
Qed.

(** ** Destination translation *)

Record dnat_wf (t : DnatTable) : Prop := {
  dw_inverse i e : by_index t !! i = Some e ↔ by_backend t !! e = Some i;
  dw_used i e : by_index t !! i = Some e → 1 ≤ i < next_index t;
  dw_next : 1 ≤ next_index t ≤ 65536 }.
Lemma dnat_new_wf tenant : dnat_wf (DnatTable.new tenant).
Proof. split; cbn; [intros; by rewrite !lookup_empty|intros i e; by rewrite lookup_empty|lia]. Qed.
(** Installing is idempotent, indexes are never reused, and a backend has one index. *)
Lemma dnat_install_wf t entry : dnat_wf t → dnat_wf (DnatTable.install t entry).2 ∧
  ∀ i, (DnatTable.install t entry).1 = Ok i → DnatTable.lookup (DnatTable.install t entry).2 i = Some entry ∧ (by_backend t !! entry = Some i ∨ i = next_index t).
Proof.
  intros [I U B]. unfold DnatTable.install, DnatTable.lookup. destruct (by_backend t !! entry) as [idx|] eqn:E; cbn.
  { split; [done|]. intros i [= <-]. split; [by apply I|by left]. }
  destruct (N.ltb_spec 65535 (next_index t)) as [L|L]; cbn; [done|]. rewrite N.mod_small by lia.
  assert (by_index t !! next_index t = None) as F. { destruct (by_index t !! next_index t) eqn:X; [|done]. apply U in X. lia. }
  split; [split; cbn|].
  - intros i e. destruct (decide (i = next_index t)) as [->|D].
    + rewrite lookup_insert_eq. split; [intros [= <-]; apply lookup_insert_eq|]. destruct (decide (e = entry)) as [->|De]; [done|].
      rewrite lookup_insert_ne by done. intros X%I. congruence.
    + rewrite lookup_insert_ne by done. destruct (decide (e = entry)) as [->|De]; [|rewrite lookup_insert_ne by done; apply I].
      rewrite lookup_insert_eq. split; [intros X%I; congruence|intros [= X]; congruence].
  - intros i e. destruct (decide (i = next_index t)) as [->|D]; [lia|]. rewrite lookup_insert_ne by done. intros X%U. lia.
  - lia.
  - intros i [= <-]. split; [apply lookup_insert_eq|by right].
Qed.
Lemma dnat_remove_wf t idx : dnat_wf t → dnat_wf (DnatTable.remove t idx).2.
Proof.
  intros [I U B]. unfold DnatTable.remove. destruct (by_index t !! idx) as [e|] eqn:E; [|done]. split; cbn; [|intros i e' [_ X]%lookup_delete_Some; by apply U in X|done].
  intros i e'. rewrite !lookup_delete_Some, I. split; intros [D X]; (split; [|done]); intros ->; [apply I in E; congruence|apply I in X; congruence].
Qed.

(** ** Identities *)

Inductive IdentityCall : Type := Identify (labels : LabelSet) | Forget (id : u32).
(** The answers given, newest first *)
Definition identity_step (s : LocalIdentityCache * list (list (bytes * bytes) * u32)) (c : IdentityCall) : LocalIdentityCache * list (list (bytes * bytes) * u32) :=
  match c with
  | Identify labels =>
      let (r, c) := LocalIdentityCache.lookup_or_allocate s.1 labels in (c, match r with Ok id => (labels, id) :: s.2 | Err _ => s.2 end)
  | Forget id => ((LocalIdentityCache.release s.1 id).2, s.2)
  end.
Definition identity_run (tenant : bytes) (cs : list IdentityCall) : LocalIdentityCache * list (list (bytes * bytes) * u32) :=
  foldl identity_step (LocalIdentityCache.new tenant, []) cs.
Record identities_ok (s : LocalIdentityCache * list (list (bytes * bytes) * u32)) : Prop := {
  io_next : MIN_LOCAL_IDENTITY ≤ next_id s.1 ≤ MAX_LOCAL_IDENTITY + 1;
  io_known l id : by_labels s.1 !! l = Some id → (l, id) ∈ s.2 ∧ MIN_LOCAL_IDENTITY ≤ id;
  io_issued l id : (l, id) ∈ s.2 → id < MIN_LOCAL_IDENTITY ∧ reserved_identity_for l = Some id ∨ MIN_LOCAL_IDENTITY ≤ id < next_id s.1;
  io_once l1 l2 id : (l1, id) ∈ s.2 → (l2, id) ∈ s.2 → MIN_LOCAL_IDENTITY ≤ id → l1 = l2 }.
Lemma reserved_small labels id : reserved_identity_for labels = Some id → id < MIN_LOCAL_IDENTITY.
Proof. unfold reserved_identity_for. destruct (filter _ labels) as [|[k v] [|]]; try done. repeat case_bool_decide; by intros [= <-]. Qed.
Lemma identity_step_ok s c : identities_ok s → identities_ok (identity_step s c).
Proof.
  intros [N K I O]. destruct s as [c0 h]. cbn [fst snd] in *. destruct c as [labels|id]; cbn [identity_step fst snd].
  - unfold LocalIdentityCache.lookup_or_allocate. case_bool_decide; [done|].
    destruct (reserved_identity_for labels) as [rid|] eqn:R; [|destruct (by_labels c0 !! labels) as [id|] eqn:B; [|destruct (N.ltb_spec MAX_LOCAL_IDENTITY (next_id c0)) as [L|L]; [done|]]].
    + pose proof (reserved_small _ _ R). split; cbn; [done|intros l i X%K; set_solver| |].
      * intros l i [[= -> ->]|X]%elem_of_cons; [by left|by apply I].
      * intros l1 l2 i X Y G. apply elem_of_cons in X as [X|X], Y as [Y|Y]; simplify_eq; [done|lia|lia|by apply (O l1 l2 i)].
    + destruct (K _ _ B) as [K1 K2]. split; cbn; [done|intros l i X%K; set_solver| |].
      * intros l i [[= -> ->]|X]%elem_of_cons; by apply I.
      * intros l1 l2 i X Y. apply O; set_solver.
    + split; cbn; [lia| | |].
      * intros l i. destruct (decide (l = labels)) as [->|D]; [rewrite lookup_insert_eq; intros [= <-]; split; [set_solver|lia]|].
        rewrite lookup_insert_ne by done. intros X%K. set_solver.
      * intros l i [[= -> ->]|X]%elem_of_cons; [right; lia|]. apply I in X. destruct X; [by left|right; lia].
      * intros l1 l2 i X Y G. apply elem_of_cons in X as [X|X], Y as [Y|Y]; simplify_eq; [done| | |by apply (O l1 l2 i)].
        -- apply I in Y as [[? _]|?]; lia.
        -- apply I in X as [[? _]|?]; lia.
  - unfold LocalIdentityCache.release. destruct (by_id c0 !! id) as [l|]; [|done]. split; cbn; [done| |done|done].
    intros l' i [_ X]%lookup_delete_Some. by apply K.
Qed.
(** Over any sequence of requests and releases, a numeric identity above the reserved ones
    is never given to two different label sets, not even after its release, and identities
    below are only given to the label sets they are reserved for. *)
Theorem identities_injective tenant cs : let answers := (identity_run tenant cs).2 in
  (∀ l1 l2 id, (l1, id) ∈ answers → (l2, id) ∈ answers → MIN_LOCAL_IDENTITY ≤ id → l1 = l2) ∧
  (∀ l id, (l, id) ∈ answers → id ≤ MAX_LOCAL_IDENTITY ∧ (id < MIN_LOCAL_IDENTITY → reserved_identity_for l = Some id)).
Proof.
  cbn zeta. assert (identities_ok (identity_run tenant cs)) as [N K I O].
  { unfold identity_run. induction cs as [|c cs IH] using rev_ind; [split; cbn; [done|intros l id; by rewrite lookup_empty|set_solver|set_solver]|].
    rewrite foldl_app. by apply identity_step_ok. }
  split; [exact O|]. intros l id H. apply I in H as [[H1 H2]|H]; [by split; [unfold MIN_LOCAL_IDENTITY, MAX_LOCAL_IDENTITY in *; lia|]|]. split; lia.
Qed.

(** ** The address cache *)

Definition upserts (ip : IpAddr) (es : list IpcacheEntry) (c : Ipcache) : Ipcache := foldl (λ c e, (Ipcache.upsert c ip e).2) c es.
(** Of the entries written for an address, the last of those from the strongest source is kept. *)
Lemma strongest_source_wins ip es : es ≠ [] → ∃ pre e post, es = pre ++ e :: post ∧ upserts ip es ∅ !! ip = Some e ∧
  Forall (λ x, priority (source x) ≤ priority (source e)) pre ∧ Forall (λ x, priority (source x) < priority (source e)) post.
Proof.
  induction es as [|x es IH] using rev_ind; intros H; [done|]. unfold upserts. rewrite foldl_app. cbn [foldl]. fold (upserts ip es ∅).
  destruct (decide (es = [])) as [->|D].
  - exists [], x, []. split_and!; [done| |constructor|constructor]. cbn. apply lookup_insert_eq.
  - destruct (IH D) as (pre & e & post & E & L & P & Q). unfold Ipcache.upsert. rewrite L. destruct (N.ltb_spec (priority (source x)) (priority (source e))).
    + exists pre, e, (post ++ [x]). split_and!; [by rewrite E, <- (assoc_L (++))|done|done|]. apply Forall_app. split; [done|]. by constructor.
    + exists es, x, []. split_and!; [done|apply lookup_insert_eq| |constructor]. rewrite E. apply Forall_app. split; [|constructor; [done|]].
      * eapply Forall_impl; [exact P|]. cbn. lia.
      * eapply Forall_impl; [exact Q|]. cbn. lia.
Qed.
(** Of two values for one label the smaller is kept, whichever comes first. *)
Lemma first_does_not_win : from_iter [(str "app", str "web"); (str "app", str "db")] = [(str "app", str "db")].
Proof. by vm_compute. Qed.
