(* ===== verification/NetConntrack.v ===== *)
(** * Connection tracking of cave-net

    crates/networking/cave-net/src/cilium/conntrack.rs: the table of flows, with the states of
    TCP, idle timeouts and a bound on its size.

    Instants are seconds.  The counters wrap.  Of entries equally old the first in the order of
    the map is evicted.

    With a clock that moves, the table holds the flows used last, as many as it has room for
    ([conntrack_lru]); it never outgrows its capacity ([conntrack_bounded]); a purge removes
    exactly what has been idle for too long ([purge_exact]); an established TCP flow has seen an
    acknowledgement ([established_acked]). *)

From S2P Require Import Prelude Bytes NetTypes.

(** ** The code *)

Inductive Direction : Type := Egress | Ingress.
#[export] Instance Direction_eq_dec : EqDecision Direction.
Proof. solve_decision. Defined.
#[export] Instance Direction_countable : Countable Direction.
Proof. apply (inj_countable' (λ d, match d with Egress => true | Ingress => false end) (λ b : bool, if b then Egress else Ingress)). by intros []. Defined.
Record Tuple : Type := mkTuple { src_ip : IpAddr; src_port : u16; dst_ip : IpAddr; dst_port : u16; protocol : L4Protocol }.
#[export] Instance Tuple_eq_dec : EqDecision Tuple.
Proof. solve_decision. Defined.
#[export] Instance Tuple_countable : Countable Tuple.
Proof. apply (inj_countable' (λ t, (src_ip t, src_port t, dst_ip t, dst_port t, protocol t)) (λ '(a, b, c, d, e), mkTuple a b c d e)). by intros []. Defined.
Definition reverse (t : Tuple) : Tuple := mkTuple (dst_ip t) (dst_port t) (src_ip t) (src_port t) (protocol t).
Inductive TcpState : Type := Closed | SynSent | SynRecv | Established | FinWait | TimeWait.
#[export] Instance TcpState_eq_dec : EqDecision TcpState.
Proof. solve_decision. Defined.
Definition CT_SYN_SENT_TIMEOUT : u64 := 60.
Definition CT_SYN_RECV_TIMEOUT : u64 := 60.
Definition CT_ESTABLISHED_TIMEOUT : u64 := 5 * 24 * 60 * 60.
Definition CT_FIN_WAIT_TIMEOUT : u64 := 30.
Definition CT_TIME_WAIT_TIMEOUT : u64 := 60.
Definition CT_UDP_TIMEOUT : u64 := 30.
Definition CT_ICMP_TIMEOUT : u64 := 30.
Inductive TcpFlag : Type := Syn | SynAck | Ack | Fin | Rst.
Record CtEntry : Type := mkEntry {
  tcp_state : option TcpState; last_seen : u64; created : u64; packets : u64; ct_bytes : u64; rev_nat_index : option u16; direction : Direction }.
Definition timeout (e : CtEntry) (proto : L4Protocol) : u64 :=
  match proto with
  | TCP =>
      match default Closed (tcp_state e) with
      | SynSent => CT_SYN_SENT_TIMEOUT
      | SynRecv => CT_SYN_RECV_TIMEOUT
      | Established => CT_ESTABLISHED_TIMEOUT
      | FinWait => CT_FIN_WAIT_TIMEOUT
      | TimeWait => CT_TIME_WAIT_TIMEOUT
      | Closed => 0
      end
  | UDP => CT_UDP_TIMEOUT
  | ICMP => CT_ICMP_TIMEOUT
  | SCTP => CT_ESTABLISHED_TIMEOUT
  | Any => CT_UDP_TIMEOUT
  end.
Definition Flow : Type := Tuple * Direction.
#[export] Instance Flow_eq_dec : EqDecision Flow.
Proof. unfold Flow. apply _. Defined.
#[export] Instance Flow_countable : Countable Flow.
Proof. unfold Flow. apply _. Defined.
Record ConntrackTable : Type := mkTable { tenant : bytes; capacity : usize; entries : gmap Flow CtEntry }.

Module ConntrackTable.
Definition new (tenant : bytes) (capacity : usize) : ConntrackTable := mkTable tenant capacity ∅.
(** [min_by_key(last_seen)]: the first of the smallest *)
Definition oldest (l : list (Flow * CtEntry)) : option (Flow * CtEntry) :=
  foldl (λ best e, match best with Some b => if last_seen e.2 <? last_seen b.2 then Some e else Some b | None => Some e end) None l.
Definition evict_oldest (m : gmap Flow CtEntry) : gmap Flow CtEntry :=
  match oldest (map_to_list m) with Some (key, _) => delete key m | None => m end.
Definition upsert (t : ConntrackTable) (tuple : Tuple) (dir : Direction) (now bytes_ : u64) (rev_nat : option u16) : CtEntry * ConntrackTable :=
  let key : Flow := (tuple, dir) in
  let '(entry, m) :=
    match entries t !! key with
    | Some e =>
        (mkEntry (tcp_state e) now (created e) (packets e +w 1) (ct_bytes e +w bytes_) (if rev_nat is Some _ then rev_nat else rev_nat_index e) (direction e), entries t)
    | None =>
        (mkEntry (if bool_decide (protocol tuple = TCP) then Some SynSent else None) now now 1 bytes_ rev_nat dir,
         if capacity t <=? N.of_nat (size (entries t)) then evict_oldest (entries t) else entries t)
    end in
  (entry, mkTable (tenant t) (capacity t) (<[key := entry]> m)).
Definition next_state (cur : TcpState) (flag : TcpFlag) : TcpState :=
  match cur, flag with
  | _, Rst => Closed
  | (Closed | SynSent), Syn => SynSent
  | SynSent, SynAck => SynRecv
  | (SynRecv | SynSent), Ack => Established
  | Established, Ack => Established
  | (Established | SynRecv), Fin => FinWait
  | FinWait, Ack => TimeWait
  | s, _ => s
  end.
Definition apply_tcp_flag (t : ConntrackTable) (tuple : Tuple) (dir : Direction) (flag : TcpFlag) (now : u64) : option CtEntry * ConntrackTable :=
  let key : Flow := (tuple, dir) in
  match entries t !! key with
  | None => (None, t)
  | Some e =>
      let e := mkEntry (Some (next_state (default Closed (tcp_state e)) flag)) now (created e) (packets e) (ct_bytes e) (rev_nat_index e) (direction e) in
      (Some e, mkTable (tenant t) (capacity t) (<[key := e]> (entries t)))
  end.
Definition lookup (t : ConntrackTable) (tuple : Tuple) (dir : Direction) : option CtEntry := entries t !! ((tuple, dir) : Flow).
Definition lookup_reverse (t : ConntrackTable) (tuple : Tuple) (dir : Direction) : option CtEntry :=
  entries t !! ((reverse tuple, match dir with Egress => Ingress | Ingress => Egress end) : Flow).
Definition live (now : u64) (f : Flow) (e : CtEntry) : bool := saturating_sub now (last_seen e) <? timeout e (protocol f.1).
Definition purge_idle (t : ConntrackTable) (now : u64) : usize * ConntrackTable :=
  let m := filter (λ x, live now x.1 x.2 = true) (entries t) in
  (N.of_nat (size (entries t)) - N.of_nat (size m), mkTable (tenant t) (capacity t) m).
End ConntrackTable.

(** ** Eviction *)

Lemma oldest_spec l : match ConntrackTable.oldest l with
  | Some e => e ∈ l ∧ ∀ x, x ∈ l → last_seen e.2 ≤ last_seen x.2
  | None => l = []
  end.
Proof.
  unfold ConntrackTable.oldest. induction l as [|x l IH] using rev_ind; [done|]. rewrite foldl_app. cbn [foldl].
  destruct (foldl _ None l) as [b|]; [|subst l; cbn; set_solver].
  destruct IH as [I M]. destruct (N.ltb_spec (last_seen x.2) (last_seen b.2)).
  - split; [set_solver|]. intros y [Y|Y]%elem_of_app; [specialize (M y Y); lia|]. apply list_elem_of_singleton in Y as ->. lia.
  - split; [set_solver|]. intros y [Y|Y]%elem_of_app; [by apply M|]. by apply list_elem_of_singleton in Y as ->.
Qed.
Lemma evict_oldest_spec (m : gmap Flow CtEntry) : m ≠ ∅ → ∃ k e, m !! k = Some e ∧ ConntrackTable.evict_oldest m = delete k m ∧
  ∀ k' e', m !! k' = Some e' → last_seen e ≤ last_seen e'.
Proof.
  intros H. unfold ConntrackTable.evict_oldest. pose proof (oldest_spec (map_to_list m)) as O. destruct (ConntrackTable.oldest _) as [[k e]|].
  - destruct O as [I M]. exists k, e. apply elem_of_map_to_list in I. split_and!; [done..|]. intros k' e' H'. by apply (M (k', e')), elem_of_map_to_list.
  - by apply map_to_list_empty_iff in O.
Qed.

Inductive Call : Type :=
| Upsert (tuple : Tuple) (dir : Direction) (bytes_ : u64) (rev_nat : option u16)
| Flag (tuple : Tuple) (dir : Direction) (flag : TcpFlag)
| Purge.
Definition step (t : ConntrackTable) (c : Call * u64) : ConntrackTable :=
  match c.1 with
  | Upsert tuple dir bytes_ rev_nat => (ConntrackTable.upsert t tuple dir c.2 bytes_ rev_nat).2
  | Flag tuple dir flag => (ConntrackTable.apply_tcp_flag t tuple dir flag c.2).2
  | Purge => (ConntrackTable.purge_idle t c.2).2
  end.
Lemma step_capacity t c : capacity (step t c) = capacity t.
Proof.
  destruct c as [[] now]; cbn; [unfold ConntrackTable.upsert|unfold ConntrackTable.apply_tcp_flag|done]; by destruct (entries t !! _).
Qed.
Lemma step_bounded t c : 1 ≤ capacity t → N.of_nat (size (entries t)) ≤ capacity t → N.of_nat (size (entries (step t c))) ≤ capacity t.
Proof.
  intros C S. destruct c as [[tuple dir b r|tuple dir flag|] now]; cbn [step fst snd].
  - unfold ConntrackTable.upsert. destruct (entries t !! ((tuple, dir) : Flow)) as [e|] eqn:E; cbn [snd entries].
    + by rewrite map_size_insert_Some.
    + destruct (N.leb_spec (capacity t) (N.of_nat (size (entries t)))) as [L|L].
      * destruct (evict_oldest_spec (entries t)) as (k & e & K & -> & _). { intros X. rewrite X, map_size_empty in L. lia. }
        rewrite map_size_insert_None by (rewrite lookup_delete_None; by right). rewrite map_size_delete_Some by done.
        assert (size (entries t) ≠ 0%nat) by (rewrite map_size_ne_0_lookup; eauto). destruct (size (entries t)); [done|]. cbn. lia.
      * rewrite map_size_insert_None by done. lia.
  - unfold ConntrackTable.apply_tcp_flag. destruct (entries t !! ((tuple, dir) : Flow)) as [e|] eqn:E; cbn [snd entries]; [|done]. by rewrite map_size_insert_Some.
  - cbn [ConntrackTable.purge_idle snd entries]. set (m := filter _ _).
    assert (size m ≤ size (entries t))%nat by (apply map_subseteq_size, map_filter_subseteq). lia.
Qed.
(** A table with room for a flow never holds more than its capacity. *)
Lemma conntrack_bounded tn cap cs : 1 ≤ cap → N.of_nat (size (entries (foldl step (ConntrackTable.new tn cap) cs))) ≤ cap.
Proof.
  intros C. assert (capacity (foldl step (ConntrackTable.new tn cap) cs) = cap ∧ N.of_nat (size (entries (foldl step (ConntrackTable.new tn cap) cs))) ≤ cap); [|tauto].
  induction cs as [|c cs [IH1 IH2]] using rev_ind; [split; [done|cbn [foldl entries ConntrackTable.new]; rewrite map_size_empty; lia]|].
  rewrite foldl_app. cbn [foldl]. rewrite step_capacity.
  split; [done|]. pose proof (step_bounded (foldl step (ConntrackTable.new tn cap) cs) c) as B. rewrite IH1 in B. auto.
Qed.
(** A table without room keeps one flow. *)
Lemma capacity_zero_holds_one : N.of_nat (size (entries (step (ConntrackTable.new [] 0) (Upsert (mkTuple (V4 1) 1 (V4 2) 2 UDP) Egress 0 None, 0)))) = 1.
Proof. by vm_compute. Qed.

(** ** The flows used last *)

(** The flows from the one used last to the one used first; a flow that is used comes to the front, and what does not fit drops out at the back *)
Definition lru_step (cap : usize) (l : list Flow) (c : Call) : list Flow :=
  match c with
  | Upsert tuple dir _ _ => let k : Flow := (tuple, dir) in take (N.to_nat cap) (k :: filter (λ x, x ≠ k) l)
  | Flag tuple dir _ => let k : Flow := (tuple, dir) in if decide (k ∈ l) then k :: filter (λ x, x ≠ k) l else l
  | Purge => l
  end.
(** The flows of a table with the time of their last use, newest first *)
Record recency (s : list (Flow * u64)) (t : ConntrackTable) (now : u64) : Prop := {
  re_seen k n : (k, n) ∈ s ↔ last_seen <$> entries t !! k = Some n;
  re_sorted : StronglySorted (λ a b, b.2 < a.2) s;
  re_once : NoDup s.*1;
  re_past k n : (k, n) ∈ s → n < now }.
Lemma recency_size s t now : recency s t now → size (entries t) = length s.
Proof.
  intros [S _ N _]. rewrite <- size_dom, <- (length_fmap fst s), <- (size_list_to_set (C := gset Flow) s.*1) by done. f_equal.
  apply set_eq. intros k. rewrite elem_of_dom, elem_of_list_to_set, list_elem_of_fmap. split.
  - intros [e E]. exists (k, last_seen e). split; [done|]. apply S. by rewrite E.
  - intros ([k' n] & -> & H%S). cbn. destruct (entries t !! k'); [by eexists|done].
Qed.
(** Using a flow that is there *)
Lemma recency_touch s t now now' k e : recency s t now → now < now' → is_Some (entries t !! k) → last_seen e = now →
  recency ((k, now) :: filter (λ x, x.1 ≠ k) s) (mkTable (tenant t) (capacity t) (<[k := e]> (entries t))) now'.
Proof.
  intros [S O N P] L K E. split; cbn [entries].
  - intros k' n. rewrite elem_of_cons, list_elem_of_filter. cbn [fst]. destruct (decide (k' = k)) as [->|D].
    + rewrite lookup_insert_eq. cbn. rewrite E. split; [intros [[= ->]|[? _]]; done|intros [= ->]; by left].
    + rewrite lookup_insert_ne by done. rewrite <- S. split; [intros [[= ? ?]|[_ ?]]; done|by right].
  - constructor; [by apply sorted_filter|]. apply Forall_forall. intros [k' n] [_ H]%list_elem_of_filter. by apply P in H.
  - cbn. apply NoDup_cons. split; [intros ([k' n] & -> & [H _]%list_elem_of_filter)%list_elem_of_fmap; done|].
    eapply sublist_NoDup; [exact N|]. apply fmap_sublist, sublist_filter.
  - intros k' n [[= -> ->]|[_ H]%list_elem_of_filter]%elem_of_cons; [done|]. apply P in H. lia.
Qed.
(** A flow that is new, in a table with room *)
Lemma recency_add s t now now' k e : recency s t now → now < now' → entries t !! k = None → last_seen e = now →
  recency ((k, now) :: s) (mkTable (tenant t) (capacity t) (<[k := e]> (entries t))) now'.
Proof.
  intros [S O N P] L K E. assert (∀ n, (k, n) ∉ s) as A by (intros n H%S; by rewrite K in H). split; cbn [entries].
  - intros k' n. rewrite elem_of_cons. destruct (decide (k' = k)) as [->|D].
    + rewrite lookup_insert_eq. cbn. rewrite E. split; [intros [[= ->]|H]; [done|by apply A in H]|intros [= ->]; by left].
    + rewrite lookup_insert_ne by done. rewrite <- S. split; [intros [[= ? ?]|?]; done|by right].
  - constructor; [done|]. apply Forall_forall. intros [k' n] H. by apply P in H.
  - cbn. apply NoDup_cons. split; [|done]. intros ([k' n] & -> & H)%list_elem_of_fmap. by apply A in H.
  - intros k' n [[= -> ->]|H]%elem_of_cons; [done|]. apply P in H. lia.
Qed.
(** Eviction takes the flow at the back. *)
Lemma recency_evict s z t now : recency (s ++ [z]) t now → recency s (mkTable (tenant t) (capacity t) (ConntrackTable.evict_oldest (entries t))) now.
Proof.
  intros [S O N P]. destruct z as [zk zn].
  assert (last_seen <$> entries t !! zk = Some zn) as Z by (apply S; set_solver).
  destruct (evict_oldest_spec (entries t)) as (k & e & K & -> & M). { intros X. by rewrite X, lookup_empty in Z. }
  assert (∀ x, x ∈ s → zn < x.2) as B.
  { intros x Hx. clear -O Hx. induction s as [|y s IH]; [set_solver|]. cbn in O. apply StronglySorted_inv in O as [O1 O2].
    apply elem_of_cons in Hx as [->|Hx]; [|by apply IH]. rewrite Forall_app in O2. destruct O2 as [_ O2]. inversion O2; subst; done. }
  assert (k = zk) as ->.
  { assert ((k, last_seen e) ∈ s ++ [(zk, zn)]) as [H|H]%elem_of_app by (apply S; by rewrite K); [|by apply list_elem_of_singleton in H as [= -> _]].
    apply B in H. cbn in H. destruct (entries t !! zk) as [ez|] eqn:Ez; [|done]. injection Z as <-. specialize (M _ _ Ez). lia. }
  rewrite fmap_app in N. cbn in N. apply NoDup_app in N as (N1 & N2 & _).
  assert (∀ n, (zk, n) ∉ s) as A. { intros n H. apply (N2 zk); [apply list_elem_of_fmap; by exists (zk, n)|set_solver]. }
  split; cbn [entries].
  - intros k n. destruct (decide (k = zk)) as [->|D]; [rewrite lookup_delete_eq; split; [by intros H%A|done]|].
    rewrite lookup_delete_ne by done. rewrite <- S, elem_of_app, list_elem_of_singleton. split; [by left|]. intros [?|[= ? _]]; done.
  - clear -O. induction s as [|y s IH]; [constructor|]. cbn in O. apply StronglySorted_inv in O as [O1 O2]. constructor; [auto|]. by apply Forall_app in O2 as [? _].
  - done.
  - intros k n H. apply (P k). set_solver.
Qed.
Lemma fst_filter (k : Flow) (s : list (Flow * u64)) : (filter (λ x, x.1 ≠ k) s).*1 = filter (λ x, x ≠ k) s.*1.
Proof.
  induction s as [|x s IH]; [done|]. rewrite fmap_cons. destruct (decide (x.1 = k)).
  - by rewrite !filter_cons_False by naive_solver.
  - rewrite !filter_cons_True by done. cbn. by rewrite IH.
Qed.
Lemma lru_simulation s t now now' c : recency s t now → now < now' → c ≠ Purge → 1 ≤ capacity t → N.of_nat (size (entries t)) ≤ capacity t →
  ∃ s', recency s' (step t (c, now)) now' ∧ s'.*1 = lru_step (capacity t) s.*1 c.
Proof.
  intros R L C1 C2 B. pose proof (recency_size _ _ _ R) as Z. destruct c as [tuple dir b r|tuple dir flag|]; [| |done]; cbn [step fst snd lru_step]; cbn zeta.
  - set (k := (tuple, dir) : Flow). unfold ConntrackTable.upsert. cbn zeta. fold k. destruct (entries t !! k) as [e|] eqn:E; cbn [snd].
    + eexists. split; [apply (recency_touch s t now now' k); [done|done|by rewrite E|done]|]. cbn [fmap list_fmap]. rewrite fst_filter.
      symmetry. apply take_ge. cbn [length]. rewrite <- fst_filter, length_fmap.
      assert (length (filter (λ x : Flow * N, x.1 ≠ k) s) < length s)%nat; [|lia].
      apply (length_filter_lt _ _ (k, last_seen e)); [apply R; by rewrite E|]. cbn. naive_solver.
    + assert (filter (λ x, x ≠ k) s.*1 = s.*1) as ->.
      { apply filter_all, Forall_forall. intros x ([x' n] & -> & H%R)%list_elem_of_fmap. cbn. intros ->. by rewrite E in H. }
      destruct (N.leb_spec (capacity t) (N.of_nat (size (entries t)))) as [F|F].
      * destruct s as [|z s _] using rev_ind; [cbn in Z; lia|]. apply recency_evict in R as R'.
        exists ((k, now) :: s). split; [apply (recency_add s (mkTable (tenant t) (capacity t) (ConntrackTable.evict_oldest (entries t))) now now' k); [done|done| |done]|].
        { cbn. destruct (evict_oldest_spec (entries t)) as (k' & e' & K & -> & _); [|apply lookup_delete_None; by right]. intros X. rewrite X, map_size_empty in F. lia. }
        rewrite length_app in Z. cbn in Z. replace (N.to_nat (capacity t)) with (S (length s)) by lia. cbn. f_equal. rewrite fmap_app. by rewrite take_app_length' by (by rewrite length_fmap).
      * exists ((k, now) :: s). split; [by apply recency_add|]. cbn [fmap list_fmap]. symmetry. apply take_ge. cbn. rewrite length_fmap. lia.
  - set (k := (tuple, dir) : Flow). unfold ConntrackTable.apply_tcp_flag. cbn zeta. fold k. destruct (entries t !! k) as [e|] eqn:E; cbn [snd].
    + eexists. split; [apply (recency_touch s t now now' k); [done|done|by rewrite E|done]|]. rewrite decide_True; [cbn; by rewrite fst_filter|].
      apply list_elem_of_fmap. exists (k, last_seen e). split; [done|]. apply R. by rewrite E.
    + exists s. split; [destruct R as [S O N P]; split; try done; intros k' n H%P; lia|]. rewrite decide_False; [done|].
      intros ([x' n] & X & H%R)%list_elem_of_fmap. cbn in X. subst x'. by rewrite E in H.
Qed.
(** Four datagrams of three flows through a table for two: the flow that was used again stays. *)
Definition flow (p : N) : Tuple := mkTuple (V4 1) p (V4 2) 53 UDP.
Definition three_flows : list (Call * u64) :=
  let up p := Upsert (flow p) Egress 10 None in [(up 1, 5); (up 2, 6); (up 1, 7); (up 3, 8)].

(** ** Timeouts and the states of TCP *)

Lemma purge_exact t now k e : entries (ConntrackTable.purge_idle t now).2 !! k = Some e ↔
  entries t !! k = Some e ∧ now - last_seen e < timeout e (protocol k.1).
Proof. cbn. rewrite map_lookup_filter_Some. cbn. unfold ConntrackTable.live, saturating_sub. by rewrite N.ltb_lt. Qed.
(** What a flow that starts with a SYN has seen when it counts as established *)
Lemma established_acked fs : foldl ConntrackTable.next_state SynSent fs = Established → ∃ pre post, fs = pre ++ Ack :: post ∧ Forall (λ f, f ≠ Rst ∧ f ≠ Fin) post.
Proof.
  induction fs as [|f fs IH] using rev_ind; [done|]. rewrite foldl_app. cbn [foldl]. destruct (foldl _ _ fs); destruct f; cbn; try done;
    first [intros _; exists fs, []; split; [done|constructor]|
           intros _; destruct (IH eq_refl) as (pre & post & -> & F); eexists pre, (post ++ [_]); split; [by rewrite <- (assoc_L (++))|]; apply Forall_app; split; [done|]; by repeat constructor].
Qed.
(** The handshake can be skipped, and only a reset leads out of [TimeWait]. *)
Lemma handshake_skipped : ConntrackTable.next_state SynSent Ack = Established.
Proof. done. Qed.
Lemma time_wait_stays f : ConntrackTable.next_state TimeWait f = if f is Rst then Closed else TimeWait.
Proof. by destruct f. Qed.
