(* ===== verification/NetIpam.v ===== *)
(** * Address management of cave-net

    crates/networking/cave-net/src/cilium/ipam.rs: pools of pod addresses, their allocation and
    release, and the pools made from the networks of a node.

    Networks are those of the crate ipnet (NetTypes.v); a [BTreeSet] that is only asked for its
    members is a [gset].

    No two owners of a pool hold one address ([addresses_exclusive]); an allocation gives the
    first host address that is free and not the gateway, and fails only when there is none
    ([allocate_first_free]).  At the end: addresses that are lost, and free addresses that are
    never found. *)

From S2P Require Import Prelude Bytes NetTypes.

(** ** The code *)

Inductive IpamMode : Type := ClusterPool | Kubernetes | MultiPool.
Inductive IpamError : Type :=
| PoolNotFound (name : bytes)
| PoolExhausted (name : bytes)
| BadCidr (cidr : bytes)
| AddressInUse (ip : IpAddr)
| AddressOutOfPool (ip : IpAddr) (pool : bytes)
| NodeMissingPodCidr (node : bytes)
| TenantDenied (tenant_ : bytes).
Record PodIpPool : Type := mkPool {
  name : bytes; tenant : bytes; cidr_v4 : option bytes; cidr_v6 : option bytes; gateway_v4 : option IpAddr; gateway_v6 : option IpAddr;
  low_watermark : u32; high_watermark : u32 }.
Module PodIpPool.
Definition ipv4 (name tenant cidr : bytes) : PodIpPool := mkPool name tenant (Some cidr) None None None 8 16.
Definition dual_stack (name tenant cidr4 cidr6 : bytes) : PodIpPool := mkPool name tenant (Some cidr4) (Some cidr6) None None 8 16.
End PodIpPool.
Record PoolState : Type := mkState {
  pool : PodIpPool; allocated_v4 : gset IpAddr; allocated_v6 : gset IpAddr; owners_v4 : gmap bytes IpAddr; owners_v6 : gmap bytes IpAddr }.
Record PoolStatus : Type := mkStatus {
  n_allocated_v4 : u64; n_capacity_v4 : u64; n_allocated_v6 : u64; n_capacity_v6 : u64; low_watermark_breached : bool; high_watermark_breached : bool }.
Record Ipam : Type := mkIpam { mode : IpamMode; pools : gmap bytes PoolState; node_cidrs : gmap bytes (option bytes * option bytes) }.

Module PoolState.
Section Ops.
Context `{I : !Ipnet}.
Implicit Types s : PoolState.
Definition new (p : PodIpPool) : PoolState := mkState p ∅ ∅ ∅ ∅.
Definition capacity_v4 s : u64 :=
  default 0 (c ← cidr_v4 (pool s); n ← net_from_str c; Some (match net_prefix n with inl p => N.shiftl 1 (32 - p) | inr _ => 0 end)).
Definition capacity_v6 s : u64 :=
  default 0 (c ← cidr_v6 (pool s); n ← net_from_str c;
    Some (match net_prefix n with inr p => let bits := 128 - p in if 64 <=? bits then u64_max else N.shiftl 1 bits | inl _ => 0 end)).
(** The first of the addresses that is neither the gateway nor taken *)
Definition first_free (hosts : list IpAddr) (gateway : option IpAddr) (allocated : gset IpAddr) : option IpAddr :=
  List.find (λ ip, negb (bool_decide (Some ip = gateway)) && negb (bool_decide (ip ∈ allocated))) hosts.
Definition allocate_v4 s (owner : bytes) : result IpamError IpAddr * PoolState :=
  match owners_v4 s !! owner with
  | Some ip => (Ok ip, s)
  | None =>
      match (let? cidr := ok_or (cidr_v4 (pool s)) (PoolNotFound (name (pool s))) in
             let? net := ok_or (net_from_str cidr) (BadCidr cidr) in
             ok_or (first_free (net_hosts net) (gateway_v4 (pool s)) (allocated_v4 s)) (PoolExhausted (name (pool s)))) with
      | Ok ip => (Ok ip, mkState (pool s) ({[ip]} ∪ allocated_v4 s) (allocated_v6 s) (<[owner := ip]> (owners_v4 s)) (owners_v6 s))
      | Err e => (Err e, s)
      end
  end.
Definition allocate_v6 s (owner : bytes) : result IpamError IpAddr * PoolState :=
  match owners_v6 s !! owner with
  | Some ip => (Ok ip, s)
  | None =>
      match (let? cidr := ok_or (cidr_v6 (pool s)) (PoolNotFound (name (pool s))) in
             let? net := ok_or (net_from_str cidr) (BadCidr cidr) in
             ok_or (first_free (take 2048 (net_hosts net)) (gateway_v6 (pool s)) (allocated_v6 s)) (PoolExhausted (name (pool s)))) with
      | Ok ip => (Ok ip, mkState (pool s) (allocated_v4 s) ({[ip]} ∪ allocated_v6 s) (owners_v4 s) (<[owner := ip]> (owners_v6 s)))
      | Err e => (Err e, s)
      end
  end.
Definition allocate_specific s (owner : bytes) (ip : IpAddr) : result IpamError unit * PoolState :=
  let '(set, cidr_str) := if is_v4 ip then (allocated_v4 s, cidr_v4 (pool s)) else (allocated_v6 s, cidr_v6 (pool s)) in
  match (let? cidr := ok_or cidr_str (AddressOutOfPool ip (name (pool s))) in
         let? net := ok_or (net_from_str cidr) (BadCidr cidr) in
         if negb (net_contains net ip) then Err (AddressOutOfPool ip (name (pool s)))
         else if bool_decide (ip ∈ set) then Err (AddressInUse ip) else Ok tt) with
  | Ok _ =>
      (Ok tt, if is_v4 ip then mkState (pool s) ({[ip]} ∪ allocated_v4 s) (allocated_v6 s) (<[owner := ip]> (owners_v4 s)) (owners_v6 s)
              else mkState (pool s) (allocated_v4 s) ({[ip]} ∪ allocated_v6 s) (owners_v4 s) (<[owner := ip]> (owners_v6 s)))
  | Err e => (Err e, s)
  end.
Definition release_owner s (owner : bytes) : usize * PoolState :=
  let '(n, s) :=
    match owners_v4 s !! owner with
    | Some ip => (1, mkState (pool s) (allocated_v4 s ∖ {[ip]}) (allocated_v6 s) (delete owner (owners_v4 s)) (owners_v6 s))
    | None => (0, s)
    end in
  match owners_v6 s !! owner with
  | Some ip => (n + 1, mkState (pool s) (allocated_v4 s) (allocated_v6 s ∖ {[ip]}) (owners_v4 s) (delete owner (owners_v6 s)))
  | None => (n, s)
  end.
Definition release_specific s (ip : IpAddr) : bool * PoolState :=
  if is_v4 ip then
    if bool_decide (ip ∈ allocated_v4 s) then
      (true, mkState (pool s) (allocated_v4 s ∖ {[ip]}) (allocated_v6 s) (filter (λ e, e.2 ≠ ip) (owners_v4 s)) (owners_v6 s))
    else (false, s)
  else
    if bool_decide (ip ∈ allocated_v6 s) then
      (true, mkState (pool s) (allocated_v4 s) (allocated_v6 s ∖ {[ip]}) (owners_v4 s) (filter (λ e, e.2 ≠ ip) (owners_v6 s)))
    else (false, s).
End Ops.
End PoolState.

Module Ipam.
Section Ops.
Context `{I : !Ipnet}.
Implicit Types i : Ipam.
Definition new (m : IpamMode) : Ipam := mkIpam m ∅ ∅.
Definition set_pool i (p : bytes) s : Ipam := mkIpam (mode i) (<[p := s]> (pools i)) (node_cidrs i).
Definition bad_cidr (c : option bytes) : option bytes := c ← c; match net_from_str c with Some _ => None | None => Some c end.
Definition upsert_pool i (p : PodIpPool) : result IpamError unit * Ipam :=
  match bad_cidr (cidr_v4 p), bad_cidr (cidr_v6 p) with
  | Some c, _ | None, Some c => (Err (BadCidr c), i)
  | None, None =>
      let s := match pools i !! name p with
               | Some s => mkState p (allocated_v4 s) (allocated_v6 s) (owners_v4 s) (owners_v6 s)
               | None => PoolState.new p
               end in
      (Ok tt, set_pool i (name p) s)
  end.
Definition pool_status i (p : bytes) : result IpamError PoolStatus :=
  let? s := ok_or (pools i !! p) (PoolNotFound p) in
  let cap_v4 := PoolState.capacity_v4 s in
  let alloc_v4 := N.of_nat (size (allocated_v4 s)) in
  let free_v4 := saturating_sub cap_v4 alloc_v4 in
  let low := low_watermark (pool s) in
  let high := high_watermark (pool s) in
  Ok (mkStatus alloc_v4 cap_v4 (N.of_nat (size (allocated_v6 s))) (PoolState.capacity_v6 s) (free_v4 <? low) ((high <? free_v4) && (high <? cap_v4))).
(** A method of the named pool *)
Definition on_pool {A} i (p : bytes) (f : PoolState → result IpamError A * PoolState) : result IpamError A * Ipam :=
  match pools i !! p with
  | Some s => let (r, s) := f s in (r, set_pool i p s)
  | None => (Err (PoolNotFound p), i)
  end.
Definition allocate_v4 i (p owner : bytes) : result IpamError IpAddr * Ipam := on_pool i p (λ s, PoolState.allocate_v4 s owner).
Definition allocate_v6 i (p owner : bytes) : result IpamError IpAddr * Ipam := on_pool i p (λ s, PoolState.allocate_v6 s owner).
Definition allocate_dual_stack i (p owner : bytes) : result IpamError (IpAddr * IpAddr) * Ipam :=
  match allocate_v4 i p owner with
  | (Err e, i) => (Err e, i)
  | (Ok v4, i) => match allocate_v6 i p owner with (Err e, i) => (Err e, i) | (Ok v6, i) => (Ok (v4, v6), i) end
  end.
Definition allocate_specific i (p owner : bytes) (ip : IpAddr) : result IpamError unit * Ipam := on_pool i p (λ s, PoolState.allocate_specific s owner ip).
Definition release_owner i (owner : bytes) : usize * Ipam :=
  (foldr (λ e n, (PoolState.release_owner e.2 owner).1 + n) 0 (map_to_list (pools i)),
   mkIpam (mode i) ((λ s, (PoolState.release_owner s owner).2) <$> pools i) (node_cidrs i)).
Definition release_specific i (p : bytes) (ip : IpAddr) : result IpamError bool * Ipam :=
  on_pool i p (λ s, let (b, s) := PoolState.release_specific s ip in (Ok b, s)).
Definition set_node_pod_cidrs i (node : bytes) (v4 v6 : option bytes) : Ipam := mkIpam (mode i) (pools i) (<[node := (v4, v6)]> (node_cidrs i)).
Definition allocate_from_node i (tn node owner : bytes) : result IpamError (option IpAddr * option IpAddr) * Ipam :=
  match node_cidrs i !! node with
  | None => (Err (NodeMissingPodCidr node), i)
  | Some (v4_cidr, v6_cidr) =>
      let pool_name := str "node:" ++ node in
      let '(r, i) :=
        match pools i !! pool_name with
        | Some _ => (Ok tt, i)
        | None => upsert_pool i (mkPool pool_name tn v4_cidr v6_cidr None None 4 8)
        end in
      match r with
      | Err e => (Err e, i)
      | Ok _ =>
          let '(r4, i) := if v4_cidr is Some _ then let (r, i) := allocate_v4 i pool_name owner in (let? ip := r in Ok (Some ip), i) else (Ok None, i) in
          match r4 with
          | Err e => (Err e, i)
          | Ok v4 =>
              let '(r6, i) := if v6_cidr is Some _ then let (r, i) := allocate_v6 i pool_name owner in (let? ip := r in Ok (Some ip), i) else (Ok None, i) in
              match r6 with Err e => (Err e, i) | Ok v6 => (Ok (v4, v6), i) end
          end
      end
  end.
End Ops.
End Ipam.

(** ** Addresses have one owner *)

Record family_ok (allocated : gset IpAddr) (owners : gmap bytes IpAddr) : Prop := {
  fo_allocated o ip : owners !! o = Some ip → ip ∈ allocated;
  fo_once o1 o2 ip : owners !! o1 = Some ip → owners !! o2 = Some ip → o1 = o2 }.
Lemma family_give al ow o ip : family_ok al ow → ip ∉ al → family_ok ({[ip]} ∪ al) (<[o := ip]> ow).
Proof.
  intros [A B] F. split.
  - intros o' ip' [[_ <-]|[_ H]]%lookup_insert_Some; [set_solver|]. apply A in H. set_solver.
  - intros o1 o2 ip' [[<- <-]|[D1 H1]]%lookup_insert_Some [[<- E]|[D2 H2]]%lookup_insert_Some; try done.
    + by apply A in H2.
    + subst ip'. by apply A in H1.
    + by apply (B o1 o2 ip').
Qed.
Lemma family_release al ow o ip : family_ok al ow → ow !! o = Some ip → family_ok (al ∖ {[ip]}) (delete o ow).
Proof.
  intros [A B] E. split.
  - intros o' ip' [D H]%lookup_delete_Some. apply elem_of_difference. split; [by apply (A o')|]. intros X%elem_of_singleton. subst ip'. by apply D, (B o o' ip).
  - intros o1 o2 ip' [_ H1]%lookup_delete_Some [_ H2]%lookup_delete_Some. by apply (B o1 o2 ip').
Qed.
Lemma family_take_back al ow ip : family_ok al ow → family_ok (al ∖ {[ip]}) (filter (λ e, e.2 ≠ ip) ow).
Proof.
  intros [A B]. split.
  - intros o ip' [H D]%map_lookup_filter_Some. cbn in D. apply A in H. set_solver.
  - intros o1 o2 ip' [H1 _]%map_lookup_filter_Some [H2 _]%map_lookup_filter_Some. by apply (B o1 o2 ip').
Qed.

Section Exclusive.
Context `{I : !Ipnet}.
Definition pool_ok (s : PoolState) : Prop := family_ok (allocated_v4 s) (owners_v4 s) ∧ family_ok (allocated_v6 s) (owners_v6 s).
Lemma first_free_spec hosts gw (al : gset IpAddr) : match PoolState.first_free hosts gw al with
  | Some ip => ∃ pre post, hosts = pre ++ ip :: post ∧ Some ip ≠ gw ∧ (ip ∉ al) ∧ Forall (λ x, Some x = gw ∨ x ∈ al) pre
  | None => Forall (λ x, Some x = gw ∨ x ∈ al) hosts
  end.
Proof.
  unfold PoolState.first_free. induction hosts as [|h hosts IH]; cbn [List.find]; [constructor|].
  destruct (decide (Some h = gw)) as [G|G]; [rewrite (bool_decide_true (Some h = gw)) by done|rewrite (bool_decide_false (Some h = gw)) by done; destruct (decide (h ∈ al)) as [A|A]];
    cbn [negb andb]; [|rewrite (bool_decide_true (h ∈ al)) by done; cbn [negb]|rewrite (bool_decide_false (h ∈ al)) by done; cbn [negb]; by exists [], hosts].
  all: destruct (List.find _ hosts) as [ip|]; [|by constructor; [auto|]].
  all: destruct IH as (pre & post & -> & D & F & P); exists (h :: pre), post; split_and!; [done..|]; constructor; auto.
Qed.
Lemma first_free_fresh hosts gw al ip : PoolState.first_free hosts gw al = Some ip → ip ∉ al.
Proof. intros E. pose proof (first_free_spec hosts gw al) as S. rewrite E in S. by destruct S as (? & ? & _ & _ & ? & _). Qed.
Lemma allocate_v4_ok s o : pool_ok s → pool_ok (PoolState.allocate_v4 s o).2.
Proof.
  intros [A B]. unfold PoolState.allocate_v4. destruct (owners_v4 s !! o); [done|]. destruct (cidr_v4 (pool s)) as [c|]; [|done]. cbn.
  destruct (net_from_str c) as [n|]; [|done]. cbn. destruct (PoolState.first_free _ _ _) as [ip|] eqn:E; [|done]. cbn. split; [|done].
  apply family_give; [done|]. by apply first_free_fresh in E.
Qed.
Lemma allocate_v6_ok s o : pool_ok s → pool_ok (PoolState.allocate_v6 s o).2.
Proof.
  intros [A B]. unfold PoolState.allocate_v6. destruct (owners_v6 s !! o); [done|]. destruct (cidr_v6 (pool s)) as [c|]; [|done]. cbn -[take].
  destruct (net_from_str c) as [n|]; [|done]. cbn -[take]. destruct (PoolState.first_free _ _ _) as [ip|] eqn:E; [|done]. cbn. split; [done|].
  apply family_give; [done|]. by apply first_free_fresh in E.
Qed.
Lemma allocate_specific_ok s o ip : pool_ok s → pool_ok (PoolState.allocate_specific s o ip).2.
Proof.
  intros [A B]. unfold PoolState.allocate_specific. destruct (is_v4 ip); [destruct (cidr_v4 (pool s)) as [c|]|destruct (cidr_v6 (pool s)) as [c|]]; cbn; try done;
    (destruct (net_from_str c) as [n|]; [|done]); cbn; (destruct (net_contains n ip); [|done]); cbn; (case_bool_decide; [done|]); cbn; split; cbn; try done; by apply family_give.
Qed.
Lemma release_owner_ok s o : pool_ok s → pool_ok (PoolState.release_owner s o).2.
Proof.
  intros [A B]. unfold PoolState.release_owner. destruct (owners_v4 s !! o) as [ip|] eqn:E; cbn; destruct (owners_v6 s !! o) as [ip'|] eqn:E'; cbn; split; cbn; auto using family_release.
Qed.
Lemma release_specific_ok s ip : pool_ok s → pool_ok (PoolState.release_specific s ip).2.
Proof. intros [A B]. unfold PoolState.release_specific. destruct (is_v4 ip); case_bool_decide; cbn; split; cbn; auto using family_take_back. Qed.
End Exclusive.

Inductive Call : Type :=
| UpsertPool (p : PodIpPool)
| AllocateV4 (p owner : bytes)
| AllocateV6 (p owner : bytes)
| AllocateDual (p owner : bytes)
| AllocateSpecific (p owner : bytes) (ip : IpAddr)
| ReleaseOwner (owner : bytes)
| ReleaseSpecific (p : bytes) (ip : IpAddr)
| SetNode (node : bytes) (v4 v6 : option bytes)
| AllocateNode (tn node owner : bytes).
Section Runs.
Context `{I : !Ipnet}.
Definition step (i : Ipam) (c : Call) : Ipam :=
  match c with
  | UpsertPool p => (Ipam.upsert_pool i p).2
  | AllocateV4 p o => (Ipam.allocate_v4 i p o).2
  | AllocateV6 p o => (Ipam.allocate_v6 i p o).2
  | AllocateDual p o => (Ipam.allocate_dual_stack i p o).2
  | AllocateSpecific p o ip => (Ipam.allocate_specific i p o ip).2
  | ReleaseOwner o => (Ipam.release_owner i o).2
  | ReleaseSpecific p ip => (Ipam.release_specific i p ip).2
  | SetNode n v4 v6 => Ipam.set_node_pod_cidrs i n v4 v6
  | AllocateNode tn n o => (Ipam.allocate_from_node i tn n o).2
  end.
Definition ipam_ok (i : Ipam) : Prop := map_Forall (λ _, pool_ok) (pools i).
Lemma set_pool_ok i p s : ipam_ok i → pool_ok s → ipam_ok (Ipam.set_pool i p s).
Proof. intros A B. unfold ipam_ok, Ipam.set_pool. cbn. by apply map_Forall_insert_2. Qed.
Lemma on_pool_ok {A} i p (f : PoolState → result IpamError A * PoolState) : ipam_ok i → (∀ s, pool_ok s → pool_ok (f s).2) → ipam_ok (Ipam.on_pool i p f).2.
Proof.
  intros H F. unfold Ipam.on_pool. destruct (pools i !! p) as [s|] eqn:E; [|done]. specialize (F s (H _ _ E)). destruct (f s) as [r s']. by apply set_pool_ok.
Qed.
Lemma upsert_pool_ok i p : ipam_ok i → ipam_ok (Ipam.upsert_pool i p).2.
Proof.
  intros H. unfold Ipam.upsert_pool. destruct (Ipam.bad_cidr (cidr_v4 p)), (Ipam.bad_cidr (cidr_v6 p)); [done..|]. cbn. apply set_pool_ok; [done|].
  destruct (pools i !! name p) as [s|] eqn:E; [apply (H _ _ E)|]. split; split; cbn; intros *; by rewrite lookup_empty.
Qed.
Lemma allocate_v4_keeps i p o : ipam_ok i → ipam_ok (Ipam.allocate_v4 i p o).2.
Proof. intros H. apply on_pool_ok; auto using allocate_v4_ok. Qed.
Lemma allocate_v6_keeps i p o : ipam_ok i → ipam_ok (Ipam.allocate_v6 i p o).2.
Proof. intros H. apply on_pool_ok; auto using allocate_v6_ok. Qed.
Lemma allocate_dual_keeps i p o : ipam_ok i → ipam_ok (Ipam.allocate_dual_stack i p o).2.
Proof.
  intros H. unfold Ipam.allocate_dual_stack. pose proof (allocate_v4_keeps i p o H) as H1. destruct (Ipam.allocate_v4 i p o) as [[v4|e] i1]; [|done].
  pose proof (allocate_v6_keeps i1 p o H1) as H2. by destruct (Ipam.allocate_v6 i1 p o) as [[v6|e] i2].
Qed.
Lemma allocate_node_keeps i tn n o : ipam_ok i → ipam_ok (Ipam.allocate_from_node i tn n o).2.
Proof.
  intros H. unfold Ipam.allocate_from_node. destruct (node_cidrs i !! n) as [[c4 c6]|]; [|done]. set (pn := str "node:" ++ n).
  set (start := match pools i !! pn with Some _ => _ | None => _ end).
  assert (ipam_ok start.2) as S by (unfold start; destruct (pools i !! pn); [done|by apply upsert_pool_ok]). destruct start as [[u|e] i1]; [|done]. cbn [snd] in S.
  set (r4 := if c4 is Some _ then _ else _).
  assert (ipam_ok r4.2) as S4 by (unfold r4; destruct c4; [|done]; pose proof (allocate_v4_keeps i1 pn o S) as H1; by destruct (Ipam.allocate_v4 i1 pn o)).
  destruct r4 as [[v4|e] i2]; [|done]. cbn [snd] in S4. set (r6 := if c6 is Some _ then _ else _).
  assert (ipam_ok r6.2) as S6 by (unfold r6; destruct c6; [|done]; pose proof (allocate_v6_keeps i2 pn o S4) as H1; by destruct (Ipam.allocate_v6 i2 pn o)).
  by destruct r6 as [[v6|e] i3].
Qed.
Lemma step_ok i c : ipam_ok i → ipam_ok (step i c).
Proof.
  intros H. destruct c; cbn [step]; auto using upsert_pool_ok, allocate_v4_keeps, allocate_v6_keeps, allocate_dual_keeps, allocate_node_keeps.
  - apply on_pool_ok; auto using allocate_specific_ok.
  - intros p s. cbn. rewrite lookup_fmap. intros (s0 & E & ->)%fmap_Some. apply release_owner_ok, (H _ _ E).
  - apply on_pool_ok; [done|]. intros s S. pose proof (release_specific_ok s ip S) as R. by destruct (PoolState.release_specific s ip).
Qed.
End Runs.

(** C30: whatever the calls, no two owners of a pool hold the same address, in either family, and
    an address that is held counts as allocated. *)
Theorem addresses_exclusive `{I : !Ipnet} m cs p s : pools (foldl step (Ipam.new m) cs) !! p = Some s →
  (∀ o1 o2 ip, owners_v4 s !! o1 = Some ip → owners_v4 s !! o2 = Some ip → o1 = o2) ∧
  (∀ o1 o2 ip, owners_v6 s !! o1 = Some ip → owners_v6 s !! o2 = Some ip → o1 = o2) ∧
  (∀ o ip, owners_v4 s !! o = Some ip → ip ∈ allocated_v4 s) ∧ (∀ o ip, owners_v6 s !! o = Some ip → ip ∈ allocated_v6 s).
Proof.
  intros E. assert (ipam_ok (foldl step (Ipam.new m) cs)) as H.
  { clear. induction cs as [|c cs IH] using rev_ind; [apply map_Forall_empty|]. rewrite foldl_app. by apply step_ok. }
  destruct (H _ _ E) as [[A4 B4] [A6 B6]]. split_and!; assumption.
Qed.
Import PlainNet.
(** A pool of fourteen hosts with two owners *)
Definition two_owners : list Call := [UpsertPool (PodIpPool.ipv4 (str "p") (str "t") [52; 3]); AllocateV4 (str "p") (str "a"); AllocateV4 (str "p") (str "b")].
Lemma addresses_exclusive_witness : ∃ s, pools (foldl step (Ipam.new MultiPool) two_owners) !! str "p" = Some s ∧ owners_v4 s !! str "a" = Some (V4 49) ∧
  (∀ o, owners_v4 s !! o = Some (V4 49) → o = str "a").
Proof.
  destruct (pools (foldl step (Ipam.new MultiPool) two_owners) !! str "p") as [s|] eqn:E; [|by vm_compute in E].
  destruct (addresses_exclusive MultiPool two_owners (str "p") s E) as (H & _). exists s. split; [done|].
  assert (owners_v4 s !! str "a" = Some (V4 49)) as O by (vm_compute in E; injection E as <-; by vm_compute). split; [done|]. intros o X. by apply (H o (str "a") (V4 49)).
Defined.

(** ** Allocation *)

(** A new owner gets the first host address that is neither the gateway nor taken; there is none
    when the pool is exhausted. *)
Lemma allocate_first_free `{I : !Ipnet} s o c n : owners_v4 s !! o = None → cidr_v4 (pool s) = Some c → net_from_str c = Some n →
  let taken x := Some x = gateway_v4 (pool s) ∨ x ∈ allocated_v4 s in
  match (PoolState.allocate_v4 s o).1 with
  | Ok ip => ∃ pre post, net_hosts n = pre ++ ip :: post ∧ ¬ taken ip ∧ Forall taken pre
  | Err e => e = PoolExhausted (name (pool s)) ∧ Forall taken (net_hosts n)
  end.
Proof.
  intros O C N. unfold PoolState.allocate_v4. rewrite O, C. cbn. rewrite N. cbn. pose proof (first_free_spec (net_hosts n) (gateway_v4 (pool s)) (allocated_v4 s)) as F.
  destruct (PoolState.first_free _ _ _) as [ip|]; cbn; [|done]. destruct F as (pre & post & E & G & A & P). exists pre, post. split_and!; [done| |done]. tauto.
Qed.
(** An owner that asks for an address it names loses track of the one it had: when it leaves,
    that one stays taken and belongs to nobody. *)
Lemma specific_address_leaks : let i := foldl step (Ipam.new MultiPool) (two_owners ++ [AllocateSpecific (str "p") (str "a") (V4 60); ReleaseOwner (str "a")]) in
  (λ s, (bool_decide (V4 49 ∈ allocated_v4 s), filter (λ e, e.2 = V4 49) (map_to_list (owners_v4 s)))) <$> pools i !! str "p" = Some (true, []).
Proof. by vm_compute. Qed.
(** The gateway is kept back from the automatic allocation, not from one that names it. *)
Lemma gateway_given_away : let p := mkPool (str "p") (str "t") (Some [52; 3]) None (Some (V4 49)) None 8 16 in
  (PoolState.allocate_v4 (PoolState.new p) (str "a")).1 = Ok (V4 50) ∧ (PoolState.allocate_specific (PoolState.new p) (str "a") (V4 49)).1 = Ok tt.
Proof. by vm_compute. Qed.
