(* ===== verification/NetPolicy.v ===== *)
(** * Network policies of cave-net

    crates/networking/cave-net/src/cilium/policy.rs: selectors, rules, their distillation into
    the policy map of an endpoint, and the lookup of a packet in it.

    The resolver of identities is a record of its two functions, with the one in memory as an
    instance; networks are those of the crate ipnet.  A [HashMap] is a [gmap]; one collected
    from pairs keeps the last value of a key.

    The distilled map decides as the rules say, read one by one ([policy_verdict]).  What the
    rules say then differs from the comments in four places, shown at the end. *)

From S2P Require Import Prelude Bytes NetTypes NetNat.

(** ** Entities and selectors *)

Definition ID_ALL : u32 := 0.
Definition ID_KUBE_APISERVER : u32 := 7.
Definition ID_INGRESS : u32 := 8.
Definition ID_WORLD_IPV4 : u32 := 9.
Definition ID_WORLD_IPV6 : u32 := 10.
Inductive Entity : Type :=
| EAll | EWorld | EWorldIPv4 | EWorldIPv6 | EHost | ERemoteNode | ECluster | EInit | EUnmanaged | EHealth | EKubeApiServer | EIngress.
Definition to_identity (e : Entity) : option u32 :=
  match e with
  | EAll => Some ID_ALL
  | EWorld => Some ID_WORLD
  | EWorldIPv4 => Some ID_WORLD_IPV4
  | EWorldIPv6 => Some ID_WORLD_IPV6
  | EHost => Some ID_HOST
  | ERemoteNode => Some ID_REMOTE_NODE
  | EInit => Some ID_INIT
  | EUnmanaged => Some ID_UNMANAGED
  | EHealth => Some ID_HEALTH
  | EKubeApiServer => Some ID_KUBE_APISERVER
  | EIngress => Some ID_INGRESS
  | ECluster => None
  end.
Inductive SelectorOp : Type := In | NotIn | Exists_ | DoesNotExist.
Record MatchExpression : Type := mkExpression { me_key : bytes; me_op : SelectorOp; me_values : list bytes }.
Record EndpointSelector : Type := mkSelector { match_labels : gmap bytes bytes; match_expressions : list MatchExpression }.
Definition label_map (labels : LabelSet) : gmap bytes bytes := foldl (λ m p, <[p.1 := p.2]> m) ∅ labels.
Definition expression_ok (m : gmap bytes bytes) (me : MatchExpression) : bool :=
  match me_op me, m !! me_key me with
  | In, Some v => bool_decide (v ∈ me_values me)
  | In, None => false
  | NotIn, Some v => negb (bool_decide (v ∈ me_values me))
  | NotIn, None => true
  | Exists_, o => bool_decide (is_Some o)
  | DoesNotExist, o => bool_decide (o = None)
  end.
Module EndpointSelector.
Definition matches (s : EndpointSelector) (labels : LabelSet) : bool :=
  let m := label_map labels in
  forallb (λ e, bool_decide (m !! e.1 = Some e.2)) (map_to_list (match_labels s)) && forallb (expression_ok m) (match_expressions s).
End EndpointSelector.

(** ** Networks, ports and rules *)

Inductive PolicyError : Type := BadCidr (c : bytes) | TenantDenied (tenant : bytes) | UnknownIdentity (id : u32).
Record CidrRule : Type := mkCidr { cidr : bytes; except_ : list bytes }.
Module CidrRule.
Section Ops.
Context `{I : !Ipnet}.
Fixpoint excepted (ex : list bytes) (ip : IpAddr) : result PolicyError bool :=
  match ex with
  | [] => Ok true
  | e :: ex => let? n := ok_or (net_from_str e) (BadCidr e) in if net_contains n ip then Ok false else excepted ex ip
  end.
Definition contains (r : CidrRule) (ip : IpAddr) : result PolicyError bool :=
  let? n := ok_or (net_from_str (cidr r)) (BadCidr (cidr r)) in
  if negb (net_contains n ip) then Ok false else excepted (except_ r) ip.
End Ops.
End CidrRule.
Module L4Protocol.
Definition covers (rule wire : L4Protocol) : bool :=
  match rule, wire with
  | Any, (TCP | UDP | SCTP) => true
  | _, _ => bool_decide (rule = wire)
  end.
End L4Protocol.
Record PortProtocol : Type := mkPort { port : u16; protocol : L4Protocol }.
Module PortProtocol.
Definition covers (p : PortProtocol) (wire_port : u16) (wire_proto : L4Protocol) : bool :=
  L4Protocol.covers (protocol p) wire_proto && ((port p =? 0) || (port p =? wire_port)).
End PortProtocol.
Inductive IcmpFamily : Type := IcmpV4 | IcmpV6.
#[export] Instance IcmpFamily_eq_dec : EqDecision IcmpFamily.
Proof. solve_decision. Defined.
Record IcmpRule : Type := mkIcmp { family : IcmpFamily; icmp_type : u8 }.
Module IcmpRule.
Definition matches (r : IcmpRule) (fam : IcmpFamily) (ty : u8) : bool := bool_decide (family r = fam) && (icmp_type r =? ty).
End IcmpRule.
Record PortRule : Type := mkPortRule { ports : list PortProtocol; l7_redirect_port : option u16 }.
Record IngressRule : Type := mkIngress {
  from_endpoints : list EndpointSelector; from_cidr : list CidrRule; from_entities : list Entity; from_requires : list EndpointSelector;
  in_ports : list PortRule; in_icmps : list IcmpRule }.
Record EgressRule : Type := mkEgress {
  to_endpoints : list EndpointSelector; to_cidr : list CidrRule; to_entities : list Entity; to_requires : list EndpointSelector;
  eg_ports : list PortRule; eg_icmps : list IcmpRule }.
Record Rule : Type := mkRule {
  r_name : bytes; r_tenant : bytes; endpoint_selector : EndpointSelector; ingress : list IngressRule; egress : list EgressRule; r_labels : gmap bytes bytes }.
Definition applies_to (r : Rule) (labels : LabelSet) : bool := EndpointSelector.matches (endpoint_selector r) labels.
Inductive PolicyEnforcementMode : Type := Default | Always | Never.
#[export] Instance PolicyEnforcementMode_eq_dec : EqDecision PolicyEnforcementMode.
Proof. solve_decision. Defined.
Inductive Direction : Type := Ingress | Egress.
#[export] Instance Direction_eq_dec : EqDecision Direction.
Proof. solve_decision. Defined.
#[export] Instance Direction_countable : Countable Direction.
Proof. apply (inj_countable' (λ d, match d with Ingress => true | Egress => false end) (λ b : bool, if b then Ingress else Egress)). by intros []. Defined.

(** ** The policy map *)

Record PolicyKey : Type := mkKey { peer_identity : u32; k_port : u16; k_protocol : L4Protocol; k_direction : Direction }.
#[export] Instance PolicyKey_eq_dec : EqDecision PolicyKey.
Proof. solve_decision. Defined.
#[export] Instance PolicyKey_countable : Countable PolicyKey.
Proof. apply (inj_countable' (λ k, (peer_identity k, k_port k, k_protocol k, k_direction k)) (λ '(a, b, c, d), mkKey a b c d)). by intros []. Defined.
Inductive Verdict : Type := Allow | Deny.
Record PolicyEntry : Type := mkEntry { verdict : Verdict; e_redirect : option u16; audit : bool }.
Record PolicyMap : Type := mkMap { ingress_enforced : bool; egress_enforced : bool; p_entries : gmap PolicyKey PolicyEntry }.
Module PolicyMap.
Definition new : PolicyMap := mkMap false false ∅.
Definition allow (m : PolicyMap) (k : PolicyKey) (l7 : option u16) : PolicyMap := mkMap (ingress_enforced m) (egress_enforced m) (<[k := mkEntry Allow l7 false]> (p_entries m)).
Definition deny (m : PolicyMap) (k : PolicyKey) : PolicyMap := mkMap (ingress_enforced m) (egress_enforced m) (<[k := mkEntry Deny None false]> (p_entries m)).
Definition lookup (m : PolicyMap) (peer : u32) (port : u16) (proto : L4Protocol) (dir : Direction) : PolicyEntry :=
  match p_entries m !! mkKey peer port proto dir with
  | Some e => e
  | None =>
  match p_entries m !! mkKey peer 0 proto dir with
  | Some e => e
  | None =>
  match p_entries m !! mkKey peer port Any dir with
  | Some e => e
  | None =>
  match p_entries m !! mkKey peer 0 Any dir with
  | Some e => e
  | None =>
  match p_entries m !! mkKey ID_ALL 0 Any dir with
  | Some e => e
  | None =>
      let enforced := match dir with Ingress => ingress_enforced m | Egress => egress_enforced m end in
      mkEntry (if enforced then Deny else Allow) None false
  end end end end end.
End PolicyMap.
Module PolicyRepository.
Definition add (rules : list Rule) (r : Rule) : list Rule := rules ++ [r].
Definition remove (rules : list Rule) (name : bytes) : bool * list Rule :=
  let rules' := filter (λ r, r_name r ≠ name) rules in (negb (length rules =? length rules')%nat, rules').
End PolicyRepository.

(** ** Distillation *)

Record IdentityResolver : Type := mkResolver { labels_for : u32 → option (list (bytes * bytes)); all_identities : list u32 }.
(** [InMemoryIdentityResolver] *)
Definition insert_identity (m : gmap u32 (list (bytes * bytes))) (identity : u32) (labels : LabelSet) : gmap u32 (list (bytes * bytes)) := <[identity := labels]> m.
Definition in_memory (m : gmap u32 (list (bytes * bytes))) : IdentityResolver := mkResolver (λ i, m !! i) (merge_sort N.le (map_to_list m).*1).
Definition expand_entities (entities : list Entity) (r : IdentityResolver) (out : list u32) : list u32 :=
  foldl (λ out e, match e with ECluster => out ++ all_identities r | other => out ++ option_list (to_identity other) end) out entities.
Definition peer_selected (selectors requires : list EndpointSelector) (r : IdentityResolver) (id : u32) : bool :=
  match labels_for r id with
  | Some labels => existsb (λ s, EndpointSelector.matches s labels) selectors && forallb (λ s, EndpointSelector.matches s labels) requires
  | None => false
  end.
Definition expand_endpoint_selectors (selectors requires : list EndpointSelector) (r : IdentityResolver) (out : list u32) : list u32 :=
  if bool_decide (selectors = []) then out
  else foldl (λ out id, if peer_selected selectors requires r id then out ++ [id] else out) out (all_identities r).
(** [dedup] *)
Fixpoint dedup_from (x : u32) (l : list u32) : list u32 :=
  match l with [] => [] | y :: l => if y =? x then dedup_from x l else y :: dedup_from y l end.
Definition dedup (l : list u32) : list u32 := match l with [] => [] | x :: l => x :: dedup_from x l end.
Definition collect_peers_ingress (rule : IngressRule) (r : IdentityResolver) : list u32 :=
  let peers := expand_entities (from_entities rule) r [] in
  let peers := expand_endpoint_selectors (from_endpoints rule) (from_requires rule) r peers in
  let peers := if bool_decide (from_cidr rule = []) then peers else peers ++ [ID_WORLD] in
  dedup (merge_sort N.le peers).
Definition collect_peers_egress (rule : EgressRule) (r : IdentityResolver) : list u32 :=
  let peers := expand_entities (to_entities rule) r [] in
  let peers := expand_endpoint_selectors (to_endpoints rule) (to_requires rule) r peers in
  let peers := if bool_decide (to_cidr rule = []) then peers else peers ++ [ID_WORLD] in
  dedup (merge_sort N.le peers).
Definition allow_all (peers : list u32) (port : u16) (proto : L4Protocol) (dir : Direction) (l7 : option u16) (m : PolicyMap) : PolicyMap :=
  foldl (λ m peer, PolicyMap.allow m (mkKey peer port proto dir) l7) m peers.
Definition write_port_entries (peers : list u32) (to_ports : list PortRule) (icmps : list IcmpRule) (dir : Direction) (m : PolicyMap) : PolicyMap :=
  if bool_decide (to_ports = []) && bool_decide (icmps = []) then allow_all peers 0 Any dir None m
  else
    let m := foldl (λ m pr,
      if bool_decide (ports pr = []) then allow_all peers 0 Any dir (l7_redirect_port pr) m
      else foldl (λ m pp, allow_all peers (port pp) (protocol pp) dir (l7_redirect_port pr) m) m (ports pr)) m to_ports in
    foldl (λ m ic, allow_all peers (icmp_type ic) ICMP dir None m) m icmps.
Definition distill_ingress (rule : IngressRule) (r : IdentityResolver) (m : PolicyMap) : PolicyMap :=
  write_port_entries (collect_peers_ingress rule r) (in_ports rule) (in_icmps rule) Ingress m.
Definition distill_egress (rule : EgressRule) (r : IdentityResolver) (m : PolicyMap) : PolicyMap :=
  write_port_entries (collect_peers_egress rule r) (eg_ports rule) (eg_icmps rule) Egress m.
(** A rule that applies *)
Definition distill_rule (mode : PolicyEnforcementMode) (r : IdentityResolver) (m : PolicyMap) (rule : Rule) : PolicyMap :=
  let default_ := bool_decide (mode = Default) in
  let m := mkMap (ingress_enforced m || negb (bool_decide (length (ingress rule) = 0%nat)) && default_)
                 (egress_enforced m || negb (bool_decide (length (egress rule) = 0%nat)) && default_) (p_entries m) in
  let m := foldl (λ m ig, distill_ingress ig r m) m (ingress rule) in
  foldl (λ m eg, distill_egress eg r m) m (egress rule).
Fixpoint distill_rules (rules : list Rule) (tenant : bytes) (labels : LabelSet) (mode : PolicyEnforcementMode) (r : IdentityResolver) (m : PolicyMap) : result PolicyError PolicyMap :=
  match rules with
  | [] => Ok m
  | rule :: rules =>
      if negb (bool_decide (r_tenant rule = tenant)) then Err (TenantDenied tenant)
      else distill_rules rules tenant labels mode r (if applies_to rule labels then distill_rule mode r m rule else m)
  end.
Definition distill (rules : list Rule) (tenant : bytes) (labels : LabelSet) (mode : PolicyEnforcementMode) (r : IdentityResolver) : result PolicyError PolicyMap :=
  match mode with
  | Never => Ok PolicyMap.new
  | Always => distill_rules rules tenant labels mode r (mkMap true true ∅)
  | Default => distill_rules rules tenant labels mode r PolicyMap.new
  end.

(** ** What the rules say *)

(** The peers of a block: its entities, the known identities its selectors choose, and the
    world if the block names a network. *)
Definition is_peer (entities : list Entity) (selectors requires : list EndpointSelector) (cidrs : list CidrRule) (r : IdentityResolver) (peer : u32) : Prop :=
  (ECluster ∈ entities ∧ peer ∈ all_identities r) ∨ (∃ e, e ∈ entities ∧ to_identity e = Some peer)
  ∨ (peer ∈ all_identities r ∧ peer_selected selectors requires r peer = true)
  ∨ (cidrs ≠ [] ∧ peer = ID_WORLD).
(** The traffic a block speaks of. *)
Definition admits (to_ports : list PortRule) (icmps : list IcmpRule) (port_ : u16) (proto : L4Protocol) : Prop :=
  (to_ports = [] ∧ icmps = [])
  ∨ (∃ pr, pr ∈ to_ports ∧ (ports pr = [] ∨ ∃ pp, pp ∈ ports pr ∧ (port pp = 0 ∨ port pp = port_) ∧ (protocol pp = Any ∨ protocol pp = proto)))
  ∨ (∃ ic, ic ∈ icmps ∧ proto = ICMP ∧ (icmp_type ic = 0 ∨ icmp_type ic = port_)).
Definition admits_everything (to_ports : list PortRule) (icmps : list IcmpRule) : Prop :=
  (to_ports = [] ∧ icmps = []) ∨ ∃ pr, pr ∈ to_ports ∧ (ports pr = [] ∨ mkPort 0 Any ∈ ports pr).
(** A block admits the traffic of its peers, and of everyone when its peers are [All] and it
    restricts nothing. *)
Definition permits (peers : u32 → Prop) (to_ports : list PortRule) (icmps : list IcmpRule) (peer : u32) (port_ : u16) (proto : L4Protocol) : Prop :=
  (peers peer ∧ admits to_ports icmps port_ proto) ∨ (peers ID_ALL ∧ admits_everything to_ports icmps).
Definition rule_permits (r : IdentityResolver) (rule : Rule) (peer : u32) (port_ : u16) (proto : L4Protocol) (dir : Direction) : Prop :=
  match dir with
  | Ingress => ∃ ig, ig ∈ ingress rule ∧
      permits (is_peer (from_entities ig) (from_endpoints ig) (from_requires ig) (from_cidr ig) r) (in_ports ig) (in_icmps ig) peer port_ proto
  | Egress => ∃ eg, eg ∈ egress rule ∧
      permits (is_peer (to_entities eg) (to_endpoints eg) (to_requires eg) (to_cidr eg) r) (eg_ports eg) (eg_icmps eg) peer port_ proto
  end.
(** Whether traffic is refused unless a rule permits it. *)
Definition enforced (rules : list Rule) (labels : LabelSet) (mode : PolicyEnforcementMode) (dir : Direction) : Prop :=
  match mode with
  | Never => False
  | Always => True
  | Default => ∃ rule, rule ∈ rules ∧ applies_to rule labels = true ∧ match dir with Ingress => ingress rule ≠ [] | Egress => egress rule ≠ [] end
  end.

(** ** The peers of a block *)

Lemma elem_of_dedup_from x l y : y = x ∨ y ∈ dedup_from x l ↔ y = x ∨ y ∈ l.
Proof.
  revert x. induction l as [|z l IH]; intros x; cbn [dedup_from]; [done|].
  rewrite elem_of_cons. destruct (N.eqb_spec z x) as [->|H].
  - rewrite IH. tauto.
  - rewrite elem_of_cons, IH. tauto.
Qed.
Lemma elem_of_dedup l y : y ∈ dedup l ↔ y ∈ l.
Proof. destruct l as [|x l]; [done|]. cbn [dedup]. rewrite !elem_of_cons. apply elem_of_dedup_from. Qed.
Lemma elem_of_sorted_dedup l y : y ∈ dedup (merge_sort N.le l) ↔ y ∈ l.
Proof. by rewrite elem_of_dedup, (merge_sort_Permutation N.le l). Qed.
Lemma elem_of_expand_entity e r out peer :
  peer ∈ match e with ECluster => out ++ all_identities r | other => out ++ option_list (to_identity other) end
  ↔ peer ∈ out ∨ (e = ECluster ∧ peer ∈ all_identities r) ∨ to_identity e = Some peer.
Proof.
  destruct e; rewrite elem_of_app; cbn; rewrite ?list_elem_of_singleton;
    (split; [intros [?|?]; subst; auto|intros [?|[[? ?]|?]]; simplify_eq; auto]).
Qed.
Lemma elem_of_expand_entities es r out peer :
  peer ∈ expand_entities es r out ↔ peer ∈ out ∨ (ECluster ∈ es ∧ peer ∈ all_identities r) ∨ ∃ e, e ∈ es ∧ to_identity e = Some peer.
Proof.
  unfold expand_entities. revert out. induction es as [|e es IH]; intros out; cbn [foldl]; [set_solver|].
  rewrite IH, elem_of_expand_entity. setoid_rewrite elem_of_cons. clear IH. naive_solver.
Qed.
Lemma elem_of_selected sel req r ids out peer :
  peer ∈ foldl (λ out id, if peer_selected sel req r id then out ++ [id] else out) out ids ↔ peer ∈ out ∨ (peer ∈ ids ∧ peer_selected sel req r peer = true).
Proof.
  revert out. induction ids as [|i ids IH]; intros out; cbn [foldl]; [set_solver|].
  rewrite IH, elem_of_cons. destruct (decide (peer = i)) as [->|N].
  - destruct (peer_selected sel req r i); [rewrite elem_of_app, list_elem_of_singleton|]; intuition congruence.
  - destruct (peer_selected sel req r i); [rewrite elem_of_app, list_elem_of_singleton|]; tauto.
Qed.
Lemma peer_selected_nil req r peer : peer_selected [] req r peer = false.
Proof. unfold peer_selected. by destruct (labels_for r peer). Qed.
Lemma elem_of_expand_selectors sel req r out peer :
  peer ∈ expand_endpoint_selectors sel req r out ↔ peer ∈ out ∨ (peer ∈ all_identities r ∧ peer_selected sel req r peer = true).
Proof.
  unfold expand_endpoint_selectors. case_bool_decide as E; [|apply elem_of_selected].
  subst. rewrite peer_selected_nil. naive_solver.
Qed.
Lemma elem_of_with_world (cidrs : list CidrRule) (l : list u32) peer :
  peer ∈ (if bool_decide (cidrs = []) then l else l ++ [ID_WORLD]) ↔ peer ∈ l ∨ (cidrs ≠ [] ∧ peer = ID_WORLD).
Proof. case_bool_decide; [|rewrite elem_of_app, list_elem_of_singleton]; naive_solver. Qed.
Lemma collect_peers_ingress_spec ig r peer :
  peer ∈ collect_peers_ingress ig r ↔ is_peer (from_entities ig) (from_endpoints ig) (from_requires ig) (from_cidr ig) r peer.
Proof.
  unfold collect_peers_ingress, is_peer.
  rewrite elem_of_sorted_dedup, elem_of_with_world, elem_of_expand_selectors, elem_of_expand_entities, elem_of_nil. tauto.
Qed.
Lemma collect_peers_egress_spec eg r peer :
  peer ∈ collect_peers_egress eg r ↔ is_peer (to_entities eg) (to_endpoints eg) (to_requires eg) (to_cidr eg) r peer.
Proof.
  unfold collect_peers_egress, is_peer.
  rewrite elem_of_sorted_dedup, elem_of_with_world, elem_of_expand_selectors, elem_of_expand_entities, elem_of_nil. tauto.
Qed.

(** ** The keys of the map *)

(** The map after a step: its flags, its keys, and that it only allows. *)
Definition allows_only (m : PolicyMap) : Prop := map_Forall (λ _ e, verdict e = Allow) (p_entries m).
Definition has (m : PolicyMap) (k : PolicyKey) : Prop := is_Some (p_entries m !! k).
Definition extends (m m' : PolicyMap) (P : PolicyKey → Prop) : Prop :=
  ingress_enforced m' = ingress_enforced m ∧ egress_enforced m' = egress_enforced m
  ∧ (allows_only m → allows_only m') ∧ (∀ k, has m' k ↔ has m k ∨ P k).
Lemma map_extends_refl m (P : PolicyKey → Prop) : (∀ k, ¬ P k) → extends m m P.
Proof. unfold extends. naive_solver. Qed.
Lemma map_extends_trans m m' m'' P Q R : extends m' m'' Q → extends m m' P → (∀ k, R k ↔ P k ∨ Q k) → extends m m'' R.
Proof.
  intros (A' & B' & C' & D') (A & B & C & D) E. repeat split; [congruence|congruence|auto| |].
  - rewrite D', D, E. tauto.
  - rewrite D', D, E. tauto.
Qed.
Lemma extends_foldl {A} (f : PolicyMap → A → PolicyMap) (P : A → PolicyKey → Prop) l m :
  (∀ m x, extends m (f m x) (P x)) → extends m (foldl f m l) (λ k, ∃ x, x ∈ l ∧ P x k).
Proof.
  intros S. revert m. induction l as [|x l IH]; intros m; cbn [foldl]; [apply map_extends_refl; set_solver|].
  eapply map_extends_trans; [apply IH|apply (S m x)|]. set_solver.
Qed.
Lemma extends_iff m m' P Q : (∀ k, P k ↔ Q k) → extends m m' P → extends m m' Q.
Proof. unfold extends. intros E (A & B & C & D). repeat split; auto; rewrite D, E; tauto. Qed.
Lemma allow_extends m k l7 : extends m (PolicyMap.allow m k l7) (λ k', k' = k).
Proof.
  repeat split; [|unfold has; cbn [PolicyMap.allow p_entries]; rewrite lookup_insert_is_Some; destruct (decide (k = k0)); naive_solver..].
  intros H. by apply map_Forall_insert_2.
Qed.
Lemma allow_all_extends peers p proto dir l7 m :
  extends m (allow_all peers p proto dir l7 m) (λ k, ∃ peer, peer ∈ peers ∧ k = mkKey peer p proto dir).
Proof. apply (extends_foldl _ (λ peer k, k = mkKey peer p proto dir)). intros m' x. apply allow_extends. Qed.

Definition written (to_ports : list PortRule) (icmps : list IcmpRule) (p : u16) (proto : L4Protocol) : Prop :=
  (p = 0 ∧ proto = Any ∧ to_ports = [] ∧ icmps = [])
  ∨ (∃ pr, pr ∈ to_ports ∧ ((ports pr = [] ∧ p = 0 ∧ proto = Any) ∨ mkPort p proto ∈ ports pr))
  ∨ (∃ ic, ic ∈ icmps ∧ p = icmp_type ic ∧ proto = ICMP).
Definition block_keys (peers : u32 → Prop) (to_ports : list PortRule) (icmps : list IcmpRule) (dir : Direction) (k : PolicyKey) : Prop :=
  peers (peer_identity k) ∧ k_direction k = dir ∧ written to_ports icmps (k_port k) (k_protocol k).
Definition port_rule_keys (peers : list u32) (dir : Direction) (pr : PortRule) (k : PolicyKey) : Prop :=
  peer_identity k ∈ peers ∧ k_direction k = dir ∧ ((ports pr = [] ∧ k_port k = 0 ∧ k_protocol k = Any) ∨ mkPort (k_port k) (k_protocol k) ∈ ports pr).
Lemma port_rule_extends peers dir pr m :
  extends m (if bool_decide (ports pr = []) then allow_all peers 0 Any dir (l7_redirect_port pr) m
             else foldl (λ m pp, allow_all peers (port pp) (protocol pp) dir (l7_redirect_port pr) m) m (ports pr)) (port_rule_keys peers dir pr).
Proof.
  unfold port_rule_keys. case_bool_decide as E.
  - eapply extends_iff; [|apply allow_all_extends]. intros [a b c d]; cbn [peer_identity k_port k_protocol k_direction]. rewrite E. set_solver.
  - eapply extends_iff; [|apply (extends_foldl _ (λ pp k, ∃ peer, peer ∈ peers ∧ k = mkKey peer (port pp) (protocol pp) dir)); intros; apply allow_all_extends].
    intros [a b c d]; cbn [peer_identity k_port k_protocol k_direction]. split.
    + intros (pp & I & peer & J & [= -> -> -> ->]). destruct pp. auto.
    + intros (I & -> & [(? & _)|J]); [done|]. eauto 6.
Qed.
Lemma icmp_extends peers icmps dir m :
  extends m (foldl (λ m ic, allow_all peers (icmp_type ic) ICMP dir None m) m icmps)
    (λ k, peer_identity k ∈ peers ∧ k_direction k = dir ∧ ∃ ic, ic ∈ icmps ∧ k_port k = icmp_type ic ∧ k_protocol k = ICMP).
Proof.
  eapply extends_iff; [|apply (extends_foldl _ (λ ic k, ∃ peer, peer ∈ peers ∧ k = mkKey peer (icmp_type ic) ICMP dir)); intros; apply allow_all_extends].
  intros [a b c d]; cbn [peer_identity k_port k_protocol k_direction]. naive_solver.
Qed.
Lemma write_extends peers to_ports icmps dir m :
  extends m (write_port_entries peers to_ports icmps dir m) (block_keys (λ p, p ∈ peers) to_ports icmps dir).
Proof.
  unfold write_port_entries. destruct (_ && _) eqn:E.
  - apply andb_true_iff in E as [->%bool_decide_eq_true ->%bool_decide_eq_true].
    eapply extends_iff; [|apply allow_all_extends]. intros [a b c d]; unfold block_keys, written; cbn [peer_identity k_port k_protocol k_direction]. set_solver.
  - eapply map_extends_trans; [apply icmp_extends|apply (extends_foldl _ (port_rule_keys peers dir)); intros; apply port_rule_extends|].
    intros k. unfold block_keys, written, port_rule_keys. split; [|naive_solver].
    intros (I & J & [(_ & _ & -> & ->)|[H|H]]); [done|naive_solver..].
Qed.
Definition rule_keys (r : IdentityResolver) (rule : Rule) (k : PolicyKey) : Prop :=
  (∃ ig, ig ∈ ingress rule ∧ block_keys (is_peer (from_entities ig) (from_endpoints ig) (from_requires ig) (from_cidr ig) r) (in_ports ig) (in_icmps ig) Ingress k)
  ∨ (∃ eg, eg ∈ egress rule ∧ block_keys (is_peer (to_entities eg) (to_endpoints eg) (to_requires eg) (to_cidr eg) r) (eg_ports eg) (eg_icmps eg) Egress k).
Definition enforce (mode : PolicyEnforcementMode) (rule : Rule) (m : PolicyMap) : PolicyMap :=
  mkMap (ingress_enforced m || negb (bool_decide (length (ingress rule) = 0%nat)) && bool_decide (mode = Default))
        (egress_enforced m || negb (bool_decide (length (egress rule) = 0%nat)) && bool_decide (mode = Default)) (p_entries m).
Lemma distill_rule_extends mode r m rule : extends (enforce mode rule m) (distill_rule mode r m rule) (rule_keys r rule).
Proof.
  unfold distill_rule. eapply map_extends_trans;
    [apply (extends_foldl _ (λ eg, block_keys (λ p, p ∈ collect_peers_egress eg r) (eg_ports eg) (eg_icmps eg) Egress)); intros; apply write_extends
    |apply (extends_foldl _ (λ ig, block_keys (λ p, p ∈ collect_peers_ingress ig r) (in_ports ig) (in_icmps ig) Ingress)); intros; apply write_extends|].
  intros k. unfold rule_keys, block_keys. setoid_rewrite collect_peers_ingress_spec. setoid_rewrite collect_peers_egress_spec. tauto.
Qed.

(** ** The whole distillation *)

Lemma nonempty_length {A} (l : list A) : negb (bool_decide (length l = 0%nat)) = true ↔ l ≠ [].
Proof. destruct l; [by cbn|]. rewrite bool_decide_eq_false_2 by done. done. Qed.
Definition flag (m : PolicyMap) (dir : Direction) : bool := match dir with Ingress => ingress_enforced m | Egress => egress_enforced m end.
Definition speaks (rule : Rule) (dir : Direction) : Prop := match dir with Ingress => ingress rule ≠ [] | Egress => egress rule ≠ [] end.
Lemma enforce_flag mode rule m dir : flag (enforce mode rule m) dir = true ↔ flag m dir = true ∨ (mode = Default ∧ speaks rule dir).
Proof. destruct dir; cbn [flag enforce ingress_enforced egress_enforced speaks]; rewrite orb_true_iff, andb_true_iff, nonempty_length, bool_decide_eq_true; tauto. Qed.
Lemma distill_rule_flag mode r rule m dir : flag (distill_rule mode r m rule) dir = true ↔ flag m dir = true ∨ (mode = Default ∧ speaks rule dir).
Proof.
  destruct (distill_rule_extends mode r m rule) as (A & B & _). rewrite <- enforce_flag.
  destruct dir; cbn [flag]; by rewrite ?A, ?B.
Qed.
Lemma ex_cons {A} (P : A → Prop) a l : (∃ x, x ∈ a :: l ∧ P x) ↔ P a ∨ ∃ x, x ∈ l ∧ P x.
Proof. set_solver. Qed.
Lemma distill_rules_spec rules tenant labels mode r m m' :
  distill_rules rules tenant labels mode r m = Ok m' →
  (∀ dir, flag m' dir = true ↔ flag m dir = true ∨ (mode = Default ∧ ∃ rule, rule ∈ rules ∧ applies_to rule labels = true ∧ speaks rule dir))
  ∧ (allows_only m → allows_only m')
  ∧ (∀ k, has m' k ↔ has m k ∨ ∃ rule, rule ∈ rules ∧ applies_to rule labels = true ∧ rule_keys r rule k).
Proof.
  revert m. induction rules as [|rule rules IH]; intros m; cbn [distill_rules].
  - intros [= <-]. set_solver.
  - case_bool_decide; cbn [negb]; [|discriminate]. intros D. apply IH in D as (F & O & K).
    destruct (distill_rule_extends mode r m rule) as (_ & _ & O' & K'). pose proof (λ dir, distill_rule_flag mode r rule m dir) as F'.
    split; [intros dir; rewrite F, (ex_cons (λ rule, applies_to rule labels = true ∧ speaks rule dir))|split; [destruct (applies_to rule labels); auto|]].
    + destruct (applies_to rule labels); [rewrite F'|]; intuition congruence.
    + intros k. rewrite K, (ex_cons (λ rule, applies_to rule labels = true ∧ rule_keys r rule k)).
      destruct (applies_to rule labels); [rewrite K'; unfold has; cbn [enforce p_entries]|]; intuition congruence.
Qed.

(** ** The verdict *)

(** The keys a lookup tries, in turn. *)
Definition probes (peer : u32) (p : u16) (proto : L4Protocol) (dir : Direction) : list PolicyKey :=
  [mkKey peer p proto dir; mkKey peer 0 proto dir; mkKey peer p Any dir; mkKey peer 0 Any dir; mkKey ID_ALL 0 Any dir].
Lemma ex_probes (Q : PolicyKey → Prop) peer p proto dir :
  (∃ k, k ∈ probes peer p proto dir ∧ Q k) ↔
  Q (mkKey peer p proto dir) ∨ Q (mkKey peer 0 proto dir) ∨ Q (mkKey peer p Any dir) ∨ Q (mkKey peer 0 Any dir) ∨ Q (mkKey ID_ALL 0 Any dir).
Proof.
  unfold probes. do 5 rewrite (ex_cons Q). assert (N : ¬ ∃ k, k ∈ [] ∧ Q k) by (intros (k & I & _); by apply elem_of_nil in I). tauto.
Qed.
Lemma lookup_verdict m peer p proto dir : allows_only m →
  verdict (PolicyMap.lookup m peer p proto dir) = Allow ↔ flag m dir = false ∨ ∃ k, k ∈ probes peer p proto dir ∧ has m k.
Proof.
  intros O. rewrite ex_probes. unfold PolicyMap.lookup, has.
  repeat match goal with |- context [match p_entries m !! ?k with _ => _ end] =>
    let H := fresh "H" in destruct (p_entries m !! k) eqn:H; [apply O in H; rewrite H; split; [eauto 8|done]|] end.
  cbn [verdict]. split.
  - intros V. left. destruct dir; cbn [flag]; [destruct (ingress_enforced m)|destruct (egress_enforced m)]; done.
  - intros [V|V]; [destruct dir; cbn [flag] in V; by rewrite V|].
    exfalso. by destruct V as [[? [=]]|[[? [=]]|[[? [=]]|[[? [=]]|[? [=]]]]]].
Qed.
Lemma written_everything to_ports icmps : written to_ports icmps 0 Any ↔ admits_everything to_ports icmps.
Proof. unfold written, admits_everything. split; [intros [H|[H|(ic & _ & _ & [=])]]; naive_solver|naive_solver]. Qed.
Lemma written_admits to_ports icmps p proto :
  written to_ports icmps p proto ∨ written to_ports icmps 0 proto ∨ written to_ports icmps p Any ∨ written to_ports icmps 0 Any ↔ admits to_ports icmps p proto.
Proof.
  unfold admits. split.
  - assert (W : ∀ q pr, q = 0 ∨ q = p → pr = Any ∨ pr = proto → written to_ports icmps q pr → admits to_ports icmps p proto).
    { intros q pr Q R [(_ & _ & A & B)|[(x & I & [(A & _)|J])|(ic & I & -> & ->)]].
      - by left.
      - right; left. eauto.
      - right; left. exists x. split; [done|]. right. exists (mkPort q pr). auto.
      - right; right. exists ic. destruct R as [|<-]; [done|]. auto. }
    intros [H|[H|[H|H]]]; eapply W, H; auto.
  - intros [[A B]|[(pr & I & [A|([q t] & J & [Q|Q] & [R|R])])|(ic & I & -> & [Q|Q])]]; cbn [port protocol] in *; subst; unfold written; eauto 10.
    all: do 2 right; eauto 10.
Qed.
Lemma block_permits (peers : u32 → Prop) to_ports icmps dir peer p proto :
  (∃ k, k ∈ probes peer p proto dir ∧ block_keys peers to_ports icmps dir k) ↔ permits peers to_ports icmps peer p proto.
Proof.
  rewrite ex_probes. unfold permits, block_keys; cbn [peer_identity k_port k_protocol k_direction].
  rewrite <- written_everything, <- written_admits. tauto.
Qed.
Lemma probes_dir peer p proto dir k : k ∈ probes peer p proto dir → k_direction k = dir.
Proof. unfold probes. rewrite !elem_of_cons, elem_of_nil. naive_solver. Qed.
Lemma rule_permits_keys r rule peer p proto dir :
  (∃ k, k ∈ probes peer p proto dir ∧ rule_keys r rule k) ↔ rule_permits r rule peer p proto dir.
Proof.
  unfold rule_permits, rule_keys. split.
  - intros (k & I & K). pose proof (probes_dir _ _ _ _ _ I) as D. destruct dir.
    + destruct K as [(x & J & K)|(x & J & K)]; [|pose proof (proj1 (proj2 K)); congruence].
      exists x. split; [done|]. eapply block_permits; eauto.
    + destruct K as [(x & J & K)|(x & J & K)]; [pose proof (proj1 (proj2 K)); congruence|].
      exists x. split; [done|]. eapply block_permits; eauto.
  - intros H. destruct dir; destruct H as (x & I & P); [eapply (block_permits _ _ _ Ingress) in P|eapply (block_permits _ _ _ Egress) in P];
      destruct P as (k & J & K); exists k; (split; [done|]); [left|right]; eauto.
Qed.
Lemma has_permits (rules : list Rule) labels r peer p proto dir m :
  (∀ k, has m k ↔ ∃ rule, rule ∈ rules ∧ applies_to rule labels = true ∧ rule_keys r rule k) →
  (∃ k, k ∈ probes peer p proto dir ∧ has m k) ↔ ∃ rule, rule ∈ rules ∧ applies_to rule labels = true ∧ rule_permits r rule peer p proto dir.
Proof.
  intros K. setoid_rewrite <- rule_permits_keys. setoid_rewrite K. split.
  - intros (k & I & rule & J & A & R). exists rule. eauto 6.
  - intros (rule & J & A & k & I & R). exists k. eauto 6.
Qed.
Lemma new_has m k : p_entries m = ∅ → ¬ has m k.
Proof. unfold has. intros ->. rewrite lookup_empty. by intros []. Qed.
Lemma new_allows m : p_entries m = ∅ → allows_only m.
Proof. unfold allows_only. intros ->. apply map_Forall_empty. Qed.

Lemma distill_rules_tenants rules tenant labels mode r m :
  match distill_rules rules tenant labels mode r m with
  | Ok _ => Forall (λ rule, r_tenant rule = tenant) rules
  | Err e => e = TenantDenied tenant ∧ ∃ rule, rule ∈ rules ∧ r_tenant rule ≠ tenant
  end.
Proof.
  revert m. induction rules as [|rule rules IH]; intros m; cbn [distill_rules]; [constructor|].
  case_bool_decide as T; cbn [negb]; [|split; [done|exists rule; set_solver]].
  specialize (IH (if applies_to rule labels then distill_rule mode r m rule else m)).
  destruct (distill_rules _ _ _ _ _ _); [by constructor|]. set_solver.
Qed.
Lemma enforcing_verdict rules tenant labels mode r m m' :
  mode ≠ Never → p_entries m = ∅ → (∀ dir, flag m dir = bool_decide (mode = Always)) → distill_rules rules tenant labels mode r m = Ok m' →
  ∀ peer p proto dir, verdict (PolicyMap.lookup m' peer p proto dir) = Allow ↔
    ¬ enforced rules labels mode dir ∨ ∃ rule, rule ∈ rules ∧ applies_to rule labels = true ∧ rule_permits r rule peer p proto dir.
Proof.
  intros N E G (F & O & K)%distill_rules_spec peer p proto dir.
  rewrite lookup_verdict by by apply O, new_allows.
  rewrite <- not_true_iff_false, F, G, bool_decide_eq_true, (has_permits rules labels r).
  - destruct mode; cbn [enforced]; [|intuition congruence|done].
    unfold speaks. intuition congruence.
  - intros k. rewrite K. pose proof (new_has m k E). tauto.
Qed.


(** ** Where the rules and their comments part *)

Module PolicyWitness.
Definition anyone : EndpointSelector := mkSelector ∅ [].
Definition app (v : bytes) : EndpointSelector := mkSelector {[str "app" := v]} [].
Definition resolver : IdentityResolver := in_memory {[256 := [(str "app", str "web")]; 257 := [(str "app", str "db"); (str "env", str "prod")]]}.
Definition only (ig : IngressRule) : list Rule := [mkRule (str "r") (str "acme") anyone [ig] [] ∅].
Definition ask (ig : IngressRule) (peer : u32) (p : u16) (proto : L4Protocol) : option Verdict :=
  match distill (only ig) (str "acme") [] Default resolver with Ok m => Some (verdict (PolicyMap.lookup m peer p proto Ingress)) | Err _ => None end.
Definition block (eps : list EndpointSelector) (cidrs : list CidrRule) (es : list Entity) (reqs : list EndpointSelector) (ps : list PortRule) (ics : list IcmpRule) : IngressRule := mkIngress eps cidrs es reqs ps ics.
End PolicyWitness.
Import PolicyWitness.

(** A rule for the peers labelled [app=web] on port 80 of TCP admits them there only; with a
    requirement the peers must meet it as well. *)
Lemma selected_peers_only :
  let ig := block [app (str "web")] [] [] [] [mkPortRule [mkPort 80 TCP] None] [] in
  (ask ig 256 80 TCP, ask ig 256 81 TCP, ask ig 257 80 TCP, ask (block [anyone] [] [] [app (str "db")] [] []) 256 80 TCP, ask (block [anyone] [] [] [app (str "db")] [] []) 257 80 TCP)
  = (Some Allow, Some Deny, Some Deny, Some Deny, Some Allow).
Proof. vm_compute. reflexivity. Qed.
(** [from_entities = [All]] "allows from every identity including world", but together with a
    port it allows no identity but 0: the lookup tries the identity of [All] without ports
    only. *)
Lemma all_on_a_port_is_nobody :
  let ig := block [] [] [EAll] [] [mkPortRule [mkPort 80 TCP] None] [] in
  (ask ig 256 80 TCP, ask ig ID_WORLD 80 TCP, ask (block [] [] [EAll] [] [] []) 256 80 TCP) = (Some Deny, Some Deny, Some Allow).
Proof. vm_compute. reflexivity. Qed.
(** Echo replies are ICMP messages of type 0.  A rule for them admits every ICMP message,
    since 0 is also the port that stands for any, and so of either family. *)
Lemma echo_reply_is_any_icmp :
  let ig := block [anyone] [] [] [] [] [mkIcmp IcmpV4 0] in
  (ask ig 256 0 ICMP, ask ig 256 5 ICMP, ask (block [anyone] [] [] [] [] [mkIcmp IcmpV4 8]) 256 5 ICMP) = (Some Allow, Some Allow, Some Deny).
Proof. vm_compute. reflexivity. Qed.
(** [Any] does not cover ICMP, but a lookup takes an entry for it. *)
Lemma any_takes_icmp :
  (L4Protocol.covers Any ICMP, ask (block [anyone] [] [] [] [mkPortRule [mkPort 0 Any] None] []) 256 8 ICMP) = (false, Some Allow).
Proof. vm_compute. reflexivity. Qed.
(** A rule for a network admits the whole world, whatever the network, its exceptions and
    whether it can be read. *)
Lemma network_is_world c eps es reqs ps ics r : ID_WORLD ∈ collect_peers_ingress (block eps [c] es reqs ps ics) r.
Proof. apply collect_peers_ingress_spec. do 3 right. done. Qed.
(** The requirements on peers do not bind those named by an entity. *)
Lemma requirements_skip_entities : ask (block [] [] [ECluster] [app (str "db")] [] []) 256 80 TCP = Some Allow.
Proof. vm_compute. reflexivity. Qed.
