(* ===== verification/ApiAuthz.v ===== *)
(** * Authorization and flow control of cave-apiserver

    crates/compute/cave-apiserver/src/rbac.rs, the reviews of access by roles and bindings, and
    crates/compute/cave-apiserver/src/priority_fairness.rs, which admits requests by flow
    schemas and priority levels.

    A call holds the lock of its registry to its end.  Numbers of requests in flight are cast to
    32 bits where the code does.

    A review allows exactly what some binding of the subject's tenant grants ([review_spec]).
    Both registries keep tenants apart: what a tenant sees is what it would see were it alone
    ([tenants_apart]).  A limited level never has more requests in flight than it was ever
    allowed ([in_flight_bounded]). *)

From S2P Require Import Prelude Bytes NetTypes.

(** ** rbac.rs *)

Record ResourceAttributes : Type := mkAttrs { a_namespace : bytes; a_verb : bytes; a_group : bytes; a_resource : bytes; a_name : bytes; a_subresource : bytes }.
Record NonResourceAttributes : Type := mkNonResource { path : bytes; n_verb : bytes }.
Record SubjectAccessReviewSpec : Type := mkSpec {
  user : bytes; groups : list bytes; s_tenant : bytes; resource_attributes : option ResourceAttributes; non_resource_attributes : option NonResourceAttributes }.
Record SubjectAccessReviewStatus : Type := mkStatus { allowed : bool; denied : bool; reason : bytes; evaluation_error : bytes }.
Record SubjectAccessReview : Type := mkReview { spec : SubjectAccessReviewSpec; status : SubjectAccessReviewStatus }.
Record PolicyRule : Type := mkPolicyRule {
  api_groups : list bytes; resources : list bytes; verbs : list bytes; resource_names : list bytes; subresources : list bytes; non_resource_urls : list bytes }.
Record Subject : Type := mkSubject { su_kind : bytes; su_name : bytes; su_namespace : bytes }.
Record Role : Type := mkRole { ro_tenant : bytes; ro_namespace : bytes; ro_name : bytes; rules : list PolicyRule }.
Record Binding : Type := mkBinding { b_tenant : bytes; b_namespace : bytes; b_name : bytes; subjects : list Subject; role_kind : bytes; role_name : bytes }.
Record RbacInner : Type := mkRbac { roles : gmap (bytes * bytes * bytes) Role; cluster_roles : gmap (bytes * bytes) Role; bindings : list Binding }.

(** [iter().any(|x| x == "*" || x == s)] *)
Definition any_or (l : list bytes) (s : bytes) : bool := existsb (λ x, bool_decide (x = str "*") || bool_decide (x = s)) l.
Definition subject_matches_one (user : bytes) (groups : list bytes) (s : Subject) : bool :=
  if bool_decide (su_kind s = str "User") then bool_decide (su_name s = user)
  else if bool_decide (su_kind s = str "Group") then existsb (λ g, bool_decide (g = su_name s)) groups
  else if bool_decide (su_kind s = str "ServiceAccount") then bool_decide (user = str "system:serviceaccount:" ++ su_namespace s ++ str ":" ++ su_name s)
  else false.
Definition subject_matches (subjects : list Subject) (user : bytes) (groups : list bytes) : bool := existsb (subject_matches_one user groups) subjects.
Definition rule_allows_one (attrs : ResourceAttributes) (r : PolicyRule) : bool :=
  let group_ok := any_or (api_groups r) (a_group attrs) in
  let res_ok :=
    if bool_decide (a_subresource attrs = []) then any_or (resources r) (a_resource attrs)
    else let combined := a_resource attrs ++ str "/" ++ a_subresource attrs in
         existsb (λ x, bool_decide (x = str "*") || bool_decide (x = combined) || bool_decide (x = a_resource attrs ++ str "/*")) (resources r)
         || any_or (subresources r) (a_subresource attrs) in
  let verb_ok := any_or (verbs r) (a_verb attrs) in
  let name_ok := bool_decide (resource_names r = []) || existsb (λ n, bool_decide (n = a_name attrs)) (resource_names r) in
  group_ok && res_ok && verb_ok && name_ok.
Definition rule_allows (rules : list PolicyRule) (attrs : ResourceAttributes) : bool := existsb (rule_allows_one attrs) rules.
(** [strip_suffix('*')] *)
Definition strip_star (url : bytes) : option bytes := match last url with Some 42 => Some (take (length url - 1) url) | _ => None end.
Definition url_covers (path url : bytes) : bool :=
  bool_decide (url = str "*") || bool_decide (url = path) || match strip_star url with Some prefix => bool_decide (prefix `prefix_of` path) | None => false end.
Definition non_resource_rule_allows_one (nra : NonResourceAttributes) (r : PolicyRule) : bool :=
  if bool_decide (non_resource_urls r = []) then false
  else if negb (any_or (verbs r) (n_verb nra)) then false
  else existsb (url_covers (path nra)) (non_resource_urls r).
Definition non_resource_rule_allows (rules : list PolicyRule) (nra : NonResourceAttributes) : bool := existsb (non_resource_rule_allows_one nra) rules.

Module RbacAuthorizer.
Definition new : RbacInner := mkRbac ∅ ∅ [].
Definition upsert_role (role : Role) (s : RbacInner) : RbacInner :=
  if bool_decide (ro_namespace role = []) then mkRbac (roles s) (<[(ro_tenant role, ro_name role) := role]> (cluster_roles s)) (bindings s)
  else mkRbac (<[(ro_tenant role, ro_namespace role, ro_name role) := role]> (roles s)) (cluster_roles s) (bindings s).
Definition upsert_binding (b : Binding) (s : RbacInner) : RbacInner := mkRbac (roles s) (cluster_roles s) (bindings s ++ [b]).
Definition resolve (s : RbacInner) (b : Binding) : option Role :=
  if bool_decide (role_kind b = str "ClusterRole") then cluster_roles s !! (b_tenant b, role_name b)
  else if bool_decide (role_kind b = str "Role") then roles s !! (b_tenant b, b_namespace b, role_name b)
  else None.
Fixpoint walk (s : RbacInner) (sp : SubjectAccessReviewSpec) (attrs : ResourceAttributes) (bs : list Binding) : SubjectAccessReviewStatus :=
  match bs with
  | [] => mkStatus false false (str "no matching policy rule") []
  | b :: bs =>
      if negb (bool_decide (b_tenant b = s_tenant sp)) then walk s sp attrs bs
      else if negb (bool_decide (b_namespace b = [])) && negb (bool_decide (b_namespace b = a_namespace attrs)) then walk s sp attrs bs
      else if negb (subject_matches (subjects b) (user sp) (groups sp)) then walk s sp attrs bs
      else match resolve s b with
           | None => walk s sp attrs bs
           | Some role =>
               if rule_allows (rules role) attrs
               then mkStatus true false (str "RBAC: allowed by binding " ++ b_namespace b ++ str "/" ++ b_name b) []
               else walk s sp attrs bs
           end
  end.
Fixpoint walk_non_resource (s : RbacInner) (sp : SubjectAccessReviewSpec) (nra : NonResourceAttributes) (bs : list Binding) : SubjectAccessReviewStatus :=
  match bs with
  | [] => mkStatus false false (str "no matching non-resource policy rule") []
  | b :: bs =>
      if negb (bool_decide (b_tenant b = s_tenant sp)) then walk_non_resource s sp nra bs
      else if negb (bool_decide (role_kind b = str "ClusterRole")) then walk_non_resource s sp nra bs
      else if negb (subject_matches (subjects b) (user sp) (groups sp)) then walk_non_resource s sp nra bs
      else match cluster_roles s !! (b_tenant b, role_name b) with
           | None => walk_non_resource s sp nra bs
           | Some role =>
               if non_resource_rule_allows (rules role) nra
               then mkStatus true false (str "RBAC: allowed (non-resource) by ClusterRoleBinding " ++ b_name b) []
               else walk_non_resource s sp nra bs
           end
  end.
Definition review_non_resource (s : RbacInner) (sar : SubjectAccessReview) (nra : NonResourceAttributes) : SubjectAccessReview :=
  mkReview (spec sar) (walk_non_resource s (spec sar) nra (bindings s)).
Definition review (s : RbacInner) (sar : SubjectAccessReview) : SubjectAccessReview :=
  match non_resource_attributes (spec sar) with
  | Some nra =>
      if bool_decide (is_Some (resource_attributes (spec sar)))
      then mkReview (spec sar) (mkStatus false true (str "exactly one of resource_attributes / non_resource_attributes required") [])
      else review_non_resource s sar nra
  | None =>
      match resource_attributes (spec sar) with
      | None => mkReview (spec sar) (mkStatus false true (str "no resource attributes") [])
      | Some attrs => mkReview (spec sar) (walk s (spec sar) attrs (bindings s))
      end
  end.
End RbacAuthorizer.

(** ** priority_fairness.rs *)

Inductive PriorityLevelType : Type := Exempt | Limited.
#[export] Instance PriorityLevelType_eq_dec : EqDecision PriorityLevelType.
Proof. solve_decision. Defined.
Record PriorityLevelConfiguration : Type := mkLevel { l_tenant : bytes; l_name : bytes; l_kind : PriorityLevelType; nominal_concurrency_shares : u32; allowed_concurrency : u32 }.
Inductive FlowDistinguisher : Type := ByUser | ByNamespace.
Record MatchRule : Type := mkMatch { m_users : list bytes; m_verbs : list bytes; m_resources : list bytes; m_namespaces : list bytes }.
Record FlowSchema : Type := mkSchema { f_tenant : bytes; f_name : bytes; matching_precedence : u32; priority_level_name : bytes; f_matches : list MatchRule; distinguisher : FlowDistinguisher }.
Record RequestDigest : Type := mkDigest { d_tenant : bytes; d_user : bytes; d_namespace : bytes; d_verb : bytes; d_resource : bytes }.
Inductive DispatchOutcome : Type :=
| Admitted_ (level_name flow_key : bytes)
| Rejected (level_name reason : bytes)
| NoMatch.
Record ApfInner : Type := mkApf { schemas : list FlowSchema; levels : gmap (bytes * bytes) PriorityLevelConfiguration; in_flight : gmap (bytes * bytes) (list bytes) }.
Definition match_rule_ok (d : RequestDigest) (m : MatchRule) : bool :=
  let user_ok := bool_decide (m_users m = []) || any_or (m_users m) (d_user d) in
  let verb_ok := any_or (m_verbs m) (d_verb d) in
  let res_ok := any_or (m_resources m) (d_resource d) in
  let ns_ok := bool_decide (m_namespaces m = []) || any_or (m_namespaces m) (d_namespace d) in
  user_ok && verb_ok && res_ok && ns_ok.
Definition schema_matches (schema : FlowSchema) (d : RequestDigest) : bool := existsb (match_rule_ok d) (f_matches schema).
Definition compute_flow_key (d : FlowDistinguisher) (req : RequestDigest) : bytes :=
  match d with ByUser => str "u:" ++ d_user req | ByNamespace => str "n:" ++ d_namespace req end.
Module ApfRegistry.
Definition new : ApfInner := mkApf [] ∅ ∅.
Definition upsert_level (l : PriorityLevelConfiguration) (s : ApfInner) : ApfInner := mkApf (schemas s) (<[(l_tenant l, l_name l) := l]> (levels s)) (in_flight s).
Definition upsert_schema (schema : FlowSchema) (s : ApfInner) : ApfInner :=
  let kept := filter (λ f, ¬ (f_tenant f = f_tenant schema ∧ f_name f = f_name schema)) (schemas s) in
  mkApf (sort_by_key matching_precedence (kept ++ [schema])) (levels s) (in_flight s).
Fixpoint walk (s : ApfInner) (digest : RequestDigest) (fs : list FlowSchema) : DispatchOutcome * ApfInner :=
  match fs with
  | [] => (NoMatch, s)
  | schema :: fs =>
      if negb (bool_decide (f_tenant schema = d_tenant digest)) then walk s digest fs
      else if negb (schema_matches schema digest) then walk s digest fs
      else
        let key := (f_tenant schema, priority_level_name schema) in
        match levels s !! key with
        | None => walk s digest fs
        | Some level =>
            let flow_key := compute_flow_key (distinguisher schema) digest in
            if bool_decide (l_kind level = Exempt) then (Admitted_ (l_name level) flow_key, s)
            else
              let q := default [] (in_flight s !! key) in
              if allowed_concurrency level <=? vlen q mod 2 ^ 32
              then (Rejected (l_name level) (str "queue full"), mkApf (schemas s) (levels s) (<[key := q]> (in_flight s)))
              else (Admitted_ (l_name level) flow_key, mkApf (schemas s) (levels s) (<[key := q ++ [flow_key]]> (in_flight s)))
        end
  end.
Definition dispatch (digest : RequestDigest) (s : ApfInner) : DispatchOutcome * ApfInner := walk s digest (schemas s).
(** [q.iter().position(|k| k == flow_key)], and [q.remove(pos)] *)
Fixpoint remove_first (k : bytes) (q : list bytes) : option (list bytes) :=
  match q with
  | [] => None
  | x :: q => if bool_decide (x = k) then Some q else (x ::.) <$> remove_first k q
  end.
Definition release (tenant level flow_key : bytes) (s : ApfInner) : bool * ApfInner :=
  match in_flight s !! (tenant, level) with
  | Some q => match remove_first flow_key q with
              | Some q' => (true, mkApf (schemas s) (levels s) (<[(tenant, level) := q']> (in_flight s)))
              | None => (false, s)
              end
  | None => (false, s)
  end.
Definition in_flight_for (s : ApfInner) (tenant level : bytes) : N := from_option vlen 0 (in_flight s !! (tenant, level)).
End ApfRegistry.

(** ** What a review allows *)

Definition grants (s : RbacInner) (sp : SubjectAccessReviewSpec) (attrs : ResourceAttributes) (b : Binding) : Prop :=
  b_tenant b = s_tenant sp ∧ (b_namespace b = [] ∨ b_namespace b = a_namespace attrs) ∧ subject_matches (subjects b) (user sp) (groups sp) = true
  ∧ ∃ role, RbacAuthorizer.resolve s b = Some role ∧ rule_allows (rules role) attrs = true.
Definition grants_path (s : RbacInner) (sp : SubjectAccessReviewSpec) (nra : NonResourceAttributes) (b : Binding) : Prop :=
  b_tenant b = s_tenant sp ∧ role_kind b = str "ClusterRole" ∧ subject_matches (subjects b) (user sp) (groups sp) = true
  ∧ ∃ role, cluster_roles s !! (b_tenant b, role_name b) = Some role ∧ non_resource_rule_allows (rules role) nra = true.
Definition grantsb (s : RbacInner) (sp : SubjectAccessReviewSpec) (attrs : ResourceAttributes) (b : Binding) : bool :=
  bool_decide (b_tenant b = s_tenant sp) && (bool_decide (b_namespace b = []) || bool_decide (b_namespace b = a_namespace attrs))
  && subject_matches (subjects b) (user sp) (groups sp) && from_option (λ role, rule_allows (rules role) attrs) false (RbacAuthorizer.resolve s b).
Definition grants_pathb (s : RbacInner) (sp : SubjectAccessReviewSpec) (nra : NonResourceAttributes) (b : Binding) : bool :=
  bool_decide (b_tenant b = s_tenant sp) && bool_decide (role_kind b = str "ClusterRole")
  && subject_matches (subjects b) (user sp) (groups sp) && from_option (λ role, non_resource_rule_allows (rules role) nra) false (cluster_roles s !! (b_tenant b, role_name b)).
Lemma from_option_true {A} (f : A → bool) (o : option A) : from_option f false o = true ↔ ∃ x, o = Some x ∧ f x = true.
Proof. destruct o; cbn; naive_solver. Qed.
Lemma grantsb_spec s sp attrs b : grantsb s sp attrs b = true ↔ grants s sp attrs b.
Proof. unfold grantsb, grants. rewrite !andb_true_iff, orb_true_iff, !bool_decide_eq_true, from_option_true. tauto. Qed.
Lemma grants_pathb_spec s sp nra b : grants_pathb s sp nra b = true ↔ grants_path s sp nra b.
Proof. unfold grants_pathb, grants_path. rewrite !andb_true_iff, !bool_decide_eq_true, from_option_true. tauto. Qed.
Lemma walk_cons s sp attrs b bs : RbacAuthorizer.walk s sp attrs (b :: bs) =
  if grantsb s sp attrs b then mkStatus true false (str "RBAC: allowed by binding " ++ b_namespace b ++ str "/" ++ b_name b) [] else RbacAuthorizer.walk s sp attrs bs.
Proof.
  cbn [RbacAuthorizer.walk]. unfold grantsb. destruct (bool_decide (b_tenant b = _)); [|done]. destruct (bool_decide (b_namespace b = [])), (bool_decide (b_namespace b = _)), (subject_matches _ _ _);
    try done; by destruct (RbacAuthorizer.resolve s b).
Qed.
Lemma walk_non_resource_cons s sp nra b bs : RbacAuthorizer.walk_non_resource s sp nra (b :: bs) =
  if grants_pathb s sp nra b then mkStatus true false (str "RBAC: allowed (non-resource) by ClusterRoleBinding " ++ b_name b) []
  else RbacAuthorizer.walk_non_resource s sp nra bs.
Proof.
  cbn [RbacAuthorizer.walk_non_resource]. unfold grants_pathb. destruct (bool_decide (b_tenant b = _)), (bool_decide (role_kind b = _)), (subject_matches _ _ _);
    try done; by destruct (cluster_roles s !! _).
Qed.
Lemma walk_spec s sp attrs bs :
  let st := RbacAuthorizer.walk s sp attrs bs in (allowed st = true ↔ Exists (grants s sp attrs) bs) ∧ denied st = false.
Proof.
  induction bs as [|b bs [IH D]]; [split; [|done]; by rewrite Exists_nil|].
  cbn zeta. rewrite walk_cons, Exists_cons, <- grantsb_spec. destruct (grantsb s sp attrs b); [cbn; tauto|]. rewrite IH. intuition congruence.
Qed.
Lemma walk_non_resource_spec s sp nra bs :
  let st := RbacAuthorizer.walk_non_resource s sp nra bs in (allowed st = true ↔ Exists (grants_path s sp nra) bs) ∧ denied st = false.
Proof.
  induction bs as [|b bs [IH D]]; [split; [|done]; by rewrite Exists_nil|].
  cbn zeta. rewrite walk_non_resource_cons, Exists_cons, <- grants_pathb_spec. destruct (grants_pathb s sp nra b); [cbn; tauto|]. rewrite IH. intuition congruence.
Qed.

(** A review keeps its question; it is denied exactly when it does not ask for one of a
    resource and a path; and it is allowed exactly when some binding of the subject's own
    tenant grants what is asked: one that names the subject, for the resource's namespace or
    for all, and whose role has a rule for it, or for a path, a cluster role with such a rule. *)
Theorem review_spec s sar :
  let r := RbacAuthorizer.review s sar in
  spec r = spec sar
  ∧ (denied (status r) = true ↔ (is_Some (resource_attributes (spec sar)) ↔ is_Some (non_resource_attributes (spec sar))))
  ∧ (allowed (status r) = true ↔
      (∃ attrs, resource_attributes (spec sar) = Some attrs ∧ non_resource_attributes (spec sar) = None ∧ Exists (grants s (spec sar) attrs) (bindings s))
      ∨ (∃ nra, non_resource_attributes (spec sar) = Some nra ∧ resource_attributes (spec sar) = None ∧ Exists (grants_path s (spec sar) nra) (bindings s))).
Proof.
  unfold RbacAuthorizer.review, RbacAuthorizer.review_non_resource.
  destruct (non_resource_attributes (spec sar)) as [nra|], (resource_attributes (spec sar)) as [attrs|]; cbn [spec status].
  - rewrite bool_decide_eq_true_2 by done. cbn. naive_solver.
  - rewrite bool_decide_eq_false_2 by by intros []. cbn [spec status]. destruct (walk_non_resource_spec s (spec sar) nra (bindings s)) as [A ->].
    split; [done|]. rewrite A. split; [split; [done|intros H; by destruct (proj2 H (ex_intro _ nra eq_refl))]|naive_solver].
  - destruct (walk_spec s (spec sar) attrs (bindings s)) as [A ->].
    split; [done|]. rewrite A. split; [split; [done|intros H; by destruct (proj1 H (ex_intro _ attrs eq_refl))]|naive_solver].
  - cbn. naive_solver.
Qed.

(** ** Tenants apart *)

Record Server : Type := mkServer { rbac : RbacInner; apf : ApfInner }.
Definition fresh_server : Server := mkServer RbacAuthorizer.new ApfRegistry.new.
Inductive Call : Type :=
| UpsertRole (role : Role) | UpsertBinding (b : Binding) | Review (sar : SubjectAccessReview)
| UpsertLevel (l : PriorityLevelConfiguration) | UpsertSchema (f : FlowSchema) | Dispatch (d : RequestDigest)
| Release (tenant level flow_key : bytes) | InFlightFor (tenant level : bytes).
Inductive Answer : Type := Done | Reviewed (st : SubjectAccessReviewStatus) | Dispatched (o : DispatchOutcome) | Released (b : bool) | Count (n : N).
Definition tenant_of (c : Call) : bytes :=
  match c with
  | UpsertRole role => ro_tenant role
  | UpsertBinding b => b_tenant b
  | Review sar => s_tenant (spec sar)
  | UpsertLevel l => l_tenant l
  | UpsertSchema f => f_tenant f
  | Dispatch d => d_tenant d
  | Release t _ _ => t
  | InFlightFor t _ => t
  end.
Definition serve (s : Server) (c : Call) : Answer * Server :=
  match c with
  | UpsertRole role => (Done, mkServer (RbacAuthorizer.upsert_role role (rbac s)) (apf s))
  | UpsertBinding b => (Done, mkServer (RbacAuthorizer.upsert_binding b (rbac s)) (apf s))
  | Review sar => (Reviewed (status (RbacAuthorizer.review (rbac s) sar)), s)
  | UpsertLevel l => (Done, mkServer (rbac s) (ApfRegistry.upsert_level l (apf s)))
  | UpsertSchema f => (Done, mkServer (rbac s) (ApfRegistry.upsert_schema f (apf s)))
  | Dispatch d => let '(o, a) := ApfRegistry.dispatch d (apf s) in (Dispatched o, mkServer (rbac s) a)
  | Release t l k => let '(b, a) := ApfRegistry.release t l k (apf s) in (Released b, mkServer (rbac s) a)
  | InFlightFor t l => (Count (ApfRegistry.in_flight_for (apf s) t l), s)
  end.
Fixpoint run (s : Server) (cs : list Call) : list (Call * Answer) :=
  match cs with
  | [] => []
  | c :: cs => let '(a, s') := serve s c in (c, a) :: run s' cs
  end.
(** What a tenant can see of a registry *)
Definition same_rbac (t : bytes) (s s' : RbacInner) : Prop :=
  (∀ ns n, roles s !! (t, ns, n) = roles s' !! (t, ns, n)) ∧ (∀ n, cluster_roles s !! (t, n) = cluster_roles s' !! (t, n))
  ∧ filter (λ b, b_tenant b = t) (bindings s) = filter (λ b, b_tenant b = t) (bindings s').
Definition same_apf (t : bytes) (s s' : ApfInner) : Prop :=
  filter (λ f, f_tenant f = t) (schemas s) = filter (λ f, f_tenant f = t) (schemas s')
  ∧ (∀ n, levels s !! (t, n) = levels s' !! (t, n)) ∧ (∀ n, in_flight s !! (t, n) = in_flight s' !! (t, n)).
Definition same (t : bytes) (s s' : Server) : Prop := same_rbac t (rbac s) (rbac s') ∧ same_apf t (apf s) (apf s').
#[local] Instance same_rbac_equiv t : Equivalence (same_rbac t).
Proof. split; unfold same_rbac; [by intros s|intros s s' (?&?&?); by repeat split|intros a b c (A&B&C) (A'&B'&C'); repeat split; intros; etrans; eauto]. Qed.
#[local] Instance same_apf_equiv t : Equivalence (same_apf t).
Proof. split; unfold same_apf; [by intros s|intros s s' (?&?&?); by repeat split|intros a b c (A&B&C) (A'&B'&C'); repeat split; intros; etrans; eauto]. Qed.

Lemma walk_same s s' sp attrs bs : same_rbac (s_tenant sp) s s' →
  RbacAuthorizer.walk s sp attrs bs = RbacAuthorizer.walk s' sp attrs (filter (λ b, b_tenant b = s_tenant sp) bs).
Proof.
  intros (R & C & _). induction bs as [|b bs IH]; [done|]. rewrite filter_cons, walk_cons, IH. case_decide as T.
  - rewrite walk_cons. unfold grantsb, RbacAuthorizer.resolve. by rewrite T, R, C.
  - unfold grantsb. by rewrite bool_decide_eq_false_2.
Qed.
Lemma walk_non_resource_same s s' sp nra bs : same_rbac (s_tenant sp) s s' →
  RbacAuthorizer.walk_non_resource s sp nra bs = RbacAuthorizer.walk_non_resource s' sp nra (filter (λ b, b_tenant b = s_tenant sp) bs).
Proof.
  intros (_ & C & _). induction bs as [|b bs IH]; [done|]. rewrite filter_cons, walk_non_resource_cons, IH. case_decide as T.
  - rewrite walk_non_resource_cons. unfold grants_pathb. by rewrite T, C.
  - unfold grants_pathb. by rewrite bool_decide_eq_false_2.
Qed.
Lemma review_same s s' sar : same_rbac (s_tenant (spec sar)) s s' → RbacAuthorizer.review s sar = RbacAuthorizer.review s' sar.
Proof.
  intros E. pose proof (proj2 (proj2 E)) as B. assert (R : same_rbac (s_tenant (spec sar)) s' s') by reflexivity.
  unfold RbacAuthorizer.review, RbacAuthorizer.review_non_resource. destruct (non_resource_attributes (spec sar)), (resource_attributes (spec sar)); try done.
  - by rewrite (walk_non_resource_same s s'), (walk_non_resource_same s' s' _ _ (bindings s')), B by done.
  - by rewrite (walk_same s s'), (walk_same s' s' _ _ (bindings s')), B by done.
Qed.
Lemma upsert_role_other t role s : ro_tenant role ≠ t → same_rbac t s (RbacAuthorizer.upsert_role role s).
Proof.
  intros N. unfold RbacAuthorizer.upsert_role. case_bool_decide; (split; [|split]); cbn [roles cluster_roles bindings]; try done;
    intros; symmetry; apply lookup_insert_ne; congruence.
Qed.
Lemma upsert_role_same t role s s' : same_rbac t s s' → same_rbac t (RbacAuthorizer.upsert_role role s) (RbacAuthorizer.upsert_role role s').
Proof.
  intros (R & C & B). unfold RbacAuthorizer.upsert_role. case_bool_decide; (split; [|split]); cbn [roles cluster_roles bindings]; try done; intros.
  - destruct (decide ((ro_tenant role, ro_name role) = (t, n))) as [E|E]; [by rewrite E, !lookup_insert_eq|by rewrite !lookup_insert_ne].
  - destruct (decide ((ro_tenant role, ro_namespace role, ro_name role) = (t, ns, n))) as [E|E]; [by rewrite E, !lookup_insert_eq|by rewrite !lookup_insert_ne].
Qed.
Definition ordered (s : ApfInner) : Prop := StronglySorted (λ f g, (matching_precedence f <=? matching_precedence g) = true) (schemas s).
Lemma upsert_schema_ordered f s : ordered (ApfRegistry.upsert_schema f s).
Proof. apply sort_by_key_sorted. Qed.
Lemma upsert_schema_filter t f s :
  filter (λ f, f_tenant f = t) (schemas (ApfRegistry.upsert_schema f s)) =
  sort_by_key matching_precedence (filter (λ g, ¬ (f_tenant g = f_tenant f ∧ f_name g = f_name f)) (filter (λ f, f_tenant f = t) (schemas s))
                                   ++ filter (λ f, f_tenant f = t) [f]).
Proof.
  cbn [ApfRegistry.upsert_schema schemas]. rewrite filter_sort_by_key, filter_app. do 2 f_equal.
  rewrite !list_filter_filter. apply list_filter_iff. tauto.
Qed.
Lemma upsert_schema_other t f s : ordered s → f_tenant f ≠ t → same_apf t s (ApfRegistry.upsert_schema f s).
Proof.
  intros O N. split; [|done]. rewrite upsert_schema_filter, (filter_cons_False _ f []), filter_nil, app_nil_r by done.
  symmetry. etrans; [|apply (sort_by_id (λ a b, matching_precedence a <=? matching_precedence b)), sorted_filter, O]. f_equal. rewrite list_filter_filter. apply list_filter_iff. naive_solver.
Qed.
Lemma upsert_schema_same t f s s' : same_apf t s s' → same_apf t (ApfRegistry.upsert_schema f s) (ApfRegistry.upsert_schema f s').
Proof. intros (F & L & Q). split; [|done]. by rewrite !upsert_schema_filter, F. Qed.
Lemma apf_walk_same d s s' fs : same_apf (d_tenant d) s s' →
  (ApfRegistry.walk s d fs).1 = (ApfRegistry.walk s' d (filter (λ f, f_tenant f = d_tenant d) fs)).1
  ∧ same_apf (d_tenant d) (ApfRegistry.walk s d fs).2 (ApfRegistry.walk s' d (filter (λ f, f_tenant f = d_tenant d) fs)).2.
Proof.
  intros E. pose proof E as (F & L & Q). induction fs as [|f fs IH]; [done|]. rewrite filter_cons. cbn [ApfRegistry.walk].
  case_decide as T; [|by rewrite bool_decide_eq_false_2]. cbn [ApfRegistry.walk]. rewrite bool_decide_eq_true_2 by done. cbn [negb].
  destruct (schema_matches f d); cbn [negb]; [|done]. rewrite T, <- L, <- Q. destruct (levels s !! _) as [l|]; [|done].
  case_bool_decide; [done|]. destruct (_ <=? _); (split; [done|]); (split; [done|]; split; [done|]); cbn [in_flight snd]; intros n;
    (destruct (decide ((d_tenant d, priority_level_name f) = (d_tenant d, n))) as [X|X]; [by rewrite X, !lookup_insert_eq|by rewrite !lookup_insert_ne]).
Qed.
Lemma apf_walk_other t d s fs : d_tenant d ≠ t → same_apf t s (ApfRegistry.walk s d fs).2.
Proof.
  intros N. induction fs as [|f fs IH]; [reflexivity|]. cbn [ApfRegistry.walk]. case_bool_decide as T; [|done]. destruct (schema_matches f d); cbn [negb]; [|done].
  destruct (levels s !! _) as [l|]; [|done]. case_bool_decide; [reflexivity|].
  destruct (_ <=? _); (split; [done|]; split; [done|]); cbn [in_flight snd]; intros n; symmetry; apply lookup_insert_ne; congruence.
Qed.
Lemma apf_walk_schemas d s fs : schemas (ApfRegistry.walk s d fs).2 = schemas s.
Proof.
  induction fs as [|f fs IH]; [done|]. cbn [ApfRegistry.walk]. case_bool_decide; [|done]. destruct (schema_matches f d); cbn [negb]; [|done].
  destruct (levels s !! _) as [l|]; [|done]. case_bool_decide; [done|]. by destruct (_ <=? _).
Qed.
Lemma dispatch_same d s s' : same_apf (d_tenant d) s s' →
  (ApfRegistry.dispatch d s).1 = (ApfRegistry.dispatch d s').1 ∧ same_apf (d_tenant d) (ApfRegistry.dispatch d s).2 (ApfRegistry.dispatch d s').2.
Proof.
  intros E. unfold ApfRegistry.dispatch. destruct (apf_walk_same d s s' (schemas s) E) as [-> A]. destruct (apf_walk_same d s' s' (schemas s') (reflexivity _)) as [-> B].
  rewrite (proj1 E) in *. split; [done|]. by rewrite A, B.
Qed.
Lemma release_same t l k s s' : same_apf t s s' →
  (ApfRegistry.release t l k s).1 = (ApfRegistry.release t l k s').1 ∧ same_apf t (ApfRegistry.release t l k s).2 (ApfRegistry.release t l k s').2.
Proof.
  intros E. pose proof E as (F & L & Q). unfold ApfRegistry.release. rewrite <- Q. destruct (in_flight s !! (t, l)) as [q|]; [|done].
  destruct (ApfRegistry.remove_first k q); [|done]. split; [done|]. split; [done|]. split; [done|]. cbn [in_flight snd]. intros n.
  destruct (decide ((t, l) = (t, n))) as [X|X]; [by rewrite X, !lookup_insert_eq|by rewrite !lookup_insert_ne].
Qed.
Lemma release_other t t' l k s : t' ≠ t → same_apf t s (ApfRegistry.release t' l k s).2.
Proof.
  intros N. unfold ApfRegistry.release. destruct (in_flight s !! (t', l)) as [q|]; [|reflexivity]. destruct (ApfRegistry.remove_first k q); [|reflexivity].
  split; [done|]. split; [done|]. cbn [in_flight snd]. intros n. symmetry. apply lookup_insert_ne. congruence.
Qed.
Lemma serve_ordered s c : ordered (apf s) → ordered (apf (serve s c).2).
Proof.
  intros O. destruct c; cbn [serve snd apf]; try done.
  - apply upsert_schema_ordered.
  - destruct (ApfRegistry.dispatch d (apf s)) as [o a] eqn:E. cbn [snd apf]. unfold ordered. change a with (o, a).2. rewrite <- E. unfold ApfRegistry.dispatch. by rewrite apf_walk_schemas.
  - unfold ApfRegistry.release. destruct (in_flight (apf s) !! _) as [q|]; [|done]. by destruct (ApfRegistry.remove_first flow_key q).
Qed.
(** A call of another tenant changes nothing a tenant can see. *)
Lemma serve_other t s c : ordered (apf s) → tenant_of c ≠ t → same t s (serve s c).2.
Proof.
  intros O N. destruct c; cbn [serve tenant_of snd] in *; try (split; reflexivity).
  - split; [|reflexivity]. by apply upsert_role_other.
  - split; [|reflexivity]. split; [done|]. split; [done|]. cbn [rbac RbacAuthorizer.upsert_binding bindings]. by rewrite filter_app, filter_cons_False, filter_nil, app_nil_r.
  - split; [reflexivity|]. split; [done|]. split; [|done]. cbn [apf ApfRegistry.upsert_level levels]. intros n. symmetry. apply lookup_insert_ne. congruence.
  - split; [reflexivity|]. by apply upsert_schema_other.
  - pose proof (apf_walk_other t d (apf s) (schemas (apf s)) N) as E. unfold ApfRegistry.dispatch. destruct (ApfRegistry.walk _ _ _). by split.
  - pose proof (release_other t tenant level flow_key (apf s) N) as E. destruct (ApfRegistry.release _ _ _ _). by split.
Qed.
(** A call of the tenant itself is answered by what it can see. *)
Lemma serve_same s s' c : same (tenant_of c) s s' → (serve s c).1 = (serve s' c).1 ∧ same (tenant_of c) (serve s c).2 (serve s' c).2.
Proof.
  intros [R A]. destruct c; cbn [serve tenant_of fst snd] in *.
  - split; [done|]. split; [by apply upsert_role_same|done].
  - split; [done|]. split; [|done]. destruct R as (R & C & B). split; [done|]. split; [done|]. cbn [rbac RbacAuthorizer.upsert_binding bindings]. by rewrite !filter_app, B.
  - split; [by rewrite (review_same _ _ _ R)|done].
  - split; [done|]. split; [done|]. destruct A as (F & L & Q). split; [done|]. split; [|done]. cbn [apf ApfRegistry.upsert_level levels]. intros n.
    destruct (decide ((l_tenant l, l_name l) = (l_tenant l, n))) as [X|X]; [by rewrite X, !lookup_insert_eq|by rewrite !lookup_insert_ne].
  - split; [done|]. split; [done|]. by apply upsert_schema_same.
  - destruct (dispatch_same d _ _ A) as [O S]. destruct (ApfRegistry.dispatch d (apf s)), (ApfRegistry.dispatch d (apf s')). cbn in *. by rewrite O.
  - destruct (release_same tenant level flow_key _ _ A) as [O S]. destruct (ApfRegistry.release _ _ _ (apf s)), (ApfRegistry.release _ _ _ (apf s')). cbn in *. by rewrite O.
  - unfold ApfRegistry.in_flight_for. pose proof (proj2 (proj2 A)) as Q. by rewrite Q.
Qed.
Lemma run_apart t s s' cs : ordered (apf s) → same t s s' →
  filter (λ p, tenant_of p.1 = t) (run s cs) = run s' (filter (λ c, tenant_of c = t) cs).
Proof.
  revert s s'. induction cs as [|c cs IH]; intros s s' O E; [done|]. cbn [run]. rewrite (filter_cons _ c cs).
  pose proof (serve_ordered s c O) as O'. pose proof (serve_other t s c O) as N. pose proof (serve_same s s' c) as S.
  destruct (serve s c) as [a s1] eqn:C. rewrite filter_cons. cbn [fst snd] in *. case_decide as T.
  - subst t. cbn [run]. destruct (serve s' c) as [a' s1']. cbn [fst snd] in *. destruct (S E) as [-> E']. f_equal. by apply IH.
  - apply IH; [done|]. destruct (N T) as [R A], E as [R' A']. split; [exact (transitivity (symmetry R) R')|exact (transitivity (symmetry A) A')].
Qed.

(** C10: tenants never see each other: in any sequence of calls, the answers a tenant gets, from
    reviews, dispatches, releases and counts, are those it would get were the calls of all
    other tenants left out. *)
Theorem tenants_apart t cs :
  filter (λ p, tenant_of p.1 = t) (run fresh_server cs) = run fresh_server (filter (λ c, tenant_of c = t) cs).
Proof. apply run_apart; [constructor|split; reflexivity]. Qed.

(** ** Requests in flight *)

Fixpoint final (s : Server) (cs : list Call) : Server := match cs with [] => s | c :: cs => final (serve s c).2 cs end.
(** The most a level was ever allowed *)
Fixpoint ever_allowed (key : bytes * bytes) (cs : list Call) : N :=
  match cs with
  | [] => 0
  | UpsertLevel l :: cs => N.max (if bool_decide ((l_tenant l, l_name l) = key) then allowed_concurrency l else 0) (ever_allowed key cs)
  | _ :: cs => ever_allowed key cs
  end.
Definition within (n : N) (key : bytes * bytes) (s : ApfInner) : Prop :=
  from_option allowed_concurrency 0 (levels s !! key) ≤ n ∧ from_option vlen 0 (in_flight s !! key) ≤ n.
Lemma within_mono n n' key s : n ≤ n' → within n key s → within n' key s.
Proof. unfold within. lia. Qed.
Lemma apf_walk_within n key d s fs : n < 2 ^ 32 → within n key s → within n key (ApfRegistry.walk s d fs).2.
Proof.
  intros B W. induction fs as [|f fs IH]; [done|]. cbn [ApfRegistry.walk]. case_bool_decide; [|done]. destruct (schema_matches f d); cbn [negb]; [|done].
  destruct (levels s !! _) as [l|] eqn:L; [|done]. case_bool_decide; [done|]. destruct W as [W1 W2].
  destruct (decide (key = (f_tenant f, priority_level_name f))) as [->|N].
  - rewrite L in W1. cbn [from_option] in W1. assert (Q : vlen (default [] (in_flight s !! (f_tenant f, priority_level_name f))) ≤ n) by by destruct (in_flight s !! _).
    rewrite N.mod_small by lia. destruct (N.leb_spec (allowed_concurrency l) (vlen (default [] (in_flight s !! (f_tenant f, priority_level_name f)))));
      (split; cbn [levels in_flight snd]; [by rewrite L|]); rewrite lookup_insert_eq; cbn [from_option]; [done|].
    unfold vlen in *. rewrite length_app. cbn [length]. lia.
  - destruct (_ <=? _); (split; cbn [levels in_flight snd]; [done|]); by rewrite lookup_insert_ne.
Qed.
Lemma remove_first_length k q q' : ApfRegistry.remove_first k q = Some q' → length q = S (length q').
Proof.
  revert q'. induction q as [|x q IH]; intros q'; cbn [ApfRegistry.remove_first]; [done|]. case_bool_decide; [by intros [= ->]|].
  destruct (ApfRegistry.remove_first k q) as [r|]; [|done]. intros [= <-]. cbn [length]. by rewrite (IH r).
Qed.
Lemma release_within n key t l k s : within n key s → within n key (ApfRegistry.release t l k s).2.
Proof.
  intros [W1 W2]. unfold ApfRegistry.release. destruct (in_flight s !! (t, l)) as [q|] eqn:Q; [|done]. destruct (ApfRegistry.remove_first k q) as [q'|] eqn:E; [|done].
  split; [done|]. cbn [in_flight snd]. destruct (decide (key = (t, l))) as [->|N]; [|by rewrite lookup_insert_ne].
  rewrite lookup_insert_eq. rewrite Q in W2. apply remove_first_length in E. cbn [from_option] in *. unfold vlen in *. lia.
Qed.
Lemma serve_within n key s c : n < 2 ^ 32 → ever_allowed key [c] ≤ n → within n key (apf s) → within n key (apf (serve s c).2).
Proof.
  intros B P W. destruct c; cbn [serve snd apf]; try done.
  - destruct W as [W1 W2]. split; [|done]. cbn [ApfRegistry.upsert_level levels]. cbn [ever_allowed] in P.
    destruct (decide ((l_tenant l, l_name l) = key)) as [<-|N]; [|by rewrite lookup_insert_ne].
    rewrite bool_decide_eq_true_2 in P by done. rewrite lookup_insert_eq. cbn [from_option]. lia.
  - pose proof (apf_walk_within n key d (apf s) (schemas (apf s)) B W) as H. unfold ApfRegistry.dispatch. by destruct (ApfRegistry.walk _ _ _).
  - pose proof (release_within n key tenant level flow_key (apf s) W) as H. by destruct (ApfRegistry.release _ _ _ _).
Qed.
Lemma ever_allowed_cons key c cs : ever_allowed key (c :: cs) = N.max (ever_allowed key [c]) (ever_allowed key cs).
Proof. destruct c; cbn [ever_allowed]; lia. Qed.
Lemma ever_allowed_bound key cs b : 0 < b → (∀ l, UpsertLevel l ∈ cs → allowed_concurrency l < b) → ever_allowed key cs < b.
Proof.
  intros B. induction cs as [|c cs IH]; intros H; [done|]. rewrite ever_allowed_cons.
  assert (ever_allowed key cs < b) by (apply IH; intros; apply H; by right).
  enough (ever_allowed key [c] < b) by lia. destruct c as [| | |l| | | |]; try done. cbn [ever_allowed].
  specialize (H l (list_elem_of_here _ _)). case_bool_decide; lia.
Qed.
Lemma final_within n key s cs : n < 2 ^ 32 → ever_allowed key cs ≤ n → within n key (apf s) → within n key (apf (final s cs)).
Proof.
  intros B. revert s. induction cs as [|c cs IH]; intros s P W; [done|]. rewrite ever_allowed_cons in P. cbn [final]. apply IH; [lia|]. apply serve_within; [done|lia|done].
Qed.

(** C35: after any sequence of calls a level has at most as many requests in flight as it was
    ever allowed, the counts being cast to 32 bits along the way. *)
Theorem in_flight_bounded cs t l :
  (∀ c, UpsertLevel c ∈ cs → allowed_concurrency c < 2 ^ 32) →
  ApfRegistry.in_flight_for (apf (final fresh_server cs)) t l ≤ ever_allowed (t, l) cs.
Proof.
  intros U. apply final_within; [by apply ever_allowed_bound|done|].
  unfold within. cbn [fresh_server apf ApfRegistry.new levels in_flight]. rewrite !lookup_empty. cbn. lia.
Qed.
Module AuthzWitness.
Definition level : PriorityLevelConfiguration := mkLevel (str "t") (str "gold") Limited 10 1.
Definition schema : FlowSchema := mkSchema (str "t") (str "all") 5 (str "gold") [mkMatch [] [str "*"] [str "*"] []] ByUser.
Definition ask (u : bytes) : Call := Dispatch (mkDigest (str "t") u (str "ns") (str "get") (str "pods")).
Definition calls : list Call := [UpsertLevel level; UpsertSchema schema; ask (str "ann"); ask (str "bob"); InFlightFor (str "t") (str "gold")].
Definition attrs (verb resource sub : bytes) : ResourceAttributes := mkAttrs (str "ns") verb [] resource (str "x") sub.
Definition sar (u verb resource sub : bytes) : SubjectAccessReview :=
  mkReview (mkSpec u [] (str "t") (Some (attrs verb resource sub)) None) (mkStatus false false [] []).
Definition path_sar (u p : bytes) : SubjectAccessReview :=
  mkReview (mkSpec u [] (str "t") None (Some (mkNonResource p (str "get")))) (mkStatus false false [] []).
Definition person (u : bytes) : Subject := mkSubject (str "User") u [].
Definition binding (ns : bytes) (us : list Subject) : Binding := mkBinding (str "t") ns (str "b") us (str "ClusterRole") (str "r").
Definition with_rule (r : PolicyRule) (bs : list Binding) : RbacInner :=
  foldl (λ s b, RbacAuthorizer.upsert_binding b s) (RbacAuthorizer.upsert_role (mkRole (str "t") [] (str "r") [r]) RbacAuthorizer.new) bs.
Definition allows (s : RbacInner) (r : SubjectAccessReview) : bool := allowed (status (RbacAuthorizer.review s r)).
End AuthzWitness.
Lemma in_flight_bounded_witness :
  (snd <$> run fresh_server AuthzWitness.calls)
    = [Done; Done; Dispatched (Admitted_ (str "gold") (str "u:ann")); Dispatched (Rejected (str "gold") (str "queue full")); Count 1]
  ∧ ApfRegistry.in_flight_for (apf (final fresh_server AuthzWitness.calls)) (str "t") (str "gold") ≤ 1.
Proof.
  split; [vm_compute; reflexivity|]. apply (in_flight_bounded AuthzWitness.calls).
  intros c H. repeat (apply elem_of_cons in H as [H|H]; [first [discriminate H|by injection H as ->]|]). by apply elem_of_nil in H.
Defined.

(** ** Three grants nobody made *)

Import AuthzWitness.
(** [upsert_binding] only adds: the subject a new version of a binding leaves out keeps its
    access. *)
Lemma binding_is_never_replaced :
  let r := mkPolicyRule [str "*"] [str "pods"] [str "get"] [] [] [] in
  let s := with_rule r [binding [] [person (str "ann")]; binding [] [person (str "bob")]] in
  (allows s (sar (str "bob") (str "get") (str "pods") []), allows s (sar (str "ann") (str "get") (str "pods") [])) = (true, true).
Proof. vm_compute. reflexivity. Qed.
(** A rule that names a subresource grants it of every resource of the group. *)
Lemma subresource_of_any_resource :
  let s := with_rule (mkPolicyRule [str "*"] [str "pods"] [str "get"] [] [str "status"] []) [binding [] [person (str "ann")]] in
  (allows s (sar (str "ann") (str "get") (str "nodes") (str "status")), allows s (sar (str "ann") (str "get") (str "nodes") [])) = (true, false).
Proof. vm_compute. reflexivity. Qed.
(** A binding of one namespace grants paths, which belong to none. *)
Lemma namespaced_binding_grants_paths :
  let s := with_rule (mkPolicyRule [] [] [str "get"] [] [] [str "/metrics*"]) [binding (str "ns") [person (str "ann")]] in
  (allows s (path_sar (str "ann") (str "/metrics/cpu")), allows s (path_sar (str "ann") (str "/healthz"))) = (true, false).
Proof. vm_compute. reflexivity. Qed.
