(* ===== verification/ApiApply.v ===== *)
(** * Field managers of cave-apiserver

    crates/compute/cave-apiserver/src/server_side_apply.rs: who manages which field of an object.

    A call holds the lock of the registry to its end.  The instants a call reads from the clock
    are arguments of it: [now_log] for the log of transfers, [now] for the entry.

    The registry keeps a list of entries, each with the fields of one manager, and implements a
    map from fields to managers ([ownership_refines]): every field has at most one manager, an
    apply either reports every field another manager holds and changes nothing, or takes all its
    fields, and no call touches another object.  A forced apply logs the fields it took
    ([forced_apply_logs]). *)

From S2P Require Import Prelude Bytes.

Inductive ManagerOperation : Type := Apply | Update.
Record ManagedFieldsEntry : Type := mkEntry { manager : bytes; operation : ManagerOperation; api_version : bytes; time : Z; fields_owned : list bytes }.
Inductive ConflictReason : Type := AppliedBy | UpdatedBy | ControllerSubresource.
Record ApplyConflict : Type := mkConflict { c_field : bytes; current_manager : bytes; c_reason : ConflictReason }.
Inductive ApplyOutcome : Type := Applied (manager : bytes) (fields : list bytes) | Conflicts (cs : list ApplyConflict).
Record OwnershipTransfer : Type := mkTransfer { t_field : bytes; from : bytes; to : bytes; at_ : Z }.
Definition ObjectKey : Type := bytes * bytes.
#[export] Instance ObjectKey_eq_dec : EqDecision ObjectKey := _.
#[export] Instance ObjectKey_countable : Countable ObjectKey := _.
Record FieldManagerRegistry : Type := mkRegistry { inner : gmap ObjectKey (list ManagedFieldsEntry); transfers : gmap ObjectKey (list OwnershipTransfer) }.

Definition owns_field (f : bytes) (e : ManagedFieldsEntry) : bool := bool_decide (f ∈ fields_owned e).
(** [iter().find(|e| e.manager != manager && …)] *)
Definition other_owner (m f : bytes) (es : list ManagedFieldsEntry) : option ManagedFieldsEntry :=
  snd <$> list_find (λ e, manager e ≠ m ∧ owns_field f e = true) es.
Definition conflicts_of (m : bytes) (fields : list bytes) (es : list ManagedFieldsEntry) : list ApplyConflict :=
  omap (λ f, (λ o, mkConflict f (manager o) (match operation o with Apply => AppliedBy | Update => UpdatedBy end)) <$> other_owner m f es) fields.
(** [fields_owned.retain(…)] on the entries of other managers *)
Definition strip (m : bytes) (P : bytes → bool) (e : ManagedFieldsEntry) : ManagedFieldsEntry :=
  if bool_decide (manager e = m) then e else mkEntry (manager e) (operation e) (api_version e) (time e) (filter (λ x, P x = true) (fields_owned e)).
Definition to_record (m : bytes) (fields : list bytes) (es : list ManagedFieldsEntry) : list (bytes * bytes) :=
  f ← fields; (λ e, (f, manager e)) <$> filter (λ e, manager e ≠ m ∧ owns_field f e = true) es.
Definition drop_empty (m : bytes) (es : list ManagedFieldsEntry) : list ManagedFieldsEntry := filter (λ e, fields_owned e ≠ [] ∨ manager e = m) es.
Definition add_fields (owned fields : list bytes) : list bytes := foldl (λ o f, if bool_decide (f ∈ o) then o else o ++ [f]) owned fields.
(** The entry of the manager: changed, or added at the end *)
Fixpoint upsert (m : bytes) (set : ManagedFieldsEntry → ManagedFieldsEntry) (fresh : ManagedFieldsEntry) (es : list ManagedFieldsEntry) : list ManagedFieldsEntry :=
  match es with
  | [] => [fresh]
  | e :: es => if bool_decide (manager e = m) then set e :: es else e :: upsert m set fresh es
  end.
Module FieldManagerRegistry.
Definition new : FieldManagerRegistry := mkRegistry ∅ ∅.
Definition entries (s : FieldManagerRegistry) (key : ObjectKey) : list ManagedFieldsEntry := default [] (inner s !! key).
Definition transfer_log (s : FieldManagerRegistry) (key : ObjectKey) : list OwnershipTransfer := default [] (transfers s !! key).
Definition owner (es : list ManagedFieldsEntry) (f : bytes) : option bytes := (λ p, manager p.2) <$> list_find (λ e, owns_field f e = true) es.
Definition owner_of (s : FieldManagerRegistry) (key : ObjectKey) (f : bytes) : option bytes := es ← inner s !! key; owner es f.
Definition apply (s : FieldManagerRegistry) (key : ObjectKey) (m version : bytes) (fields : list bytes) (force : bool) (now_log now : Z) : ApplyOutcome * FieldManagerRegistry :=
  let es := entries s key in
  let conflicts := conflicts_of m fields es in
  if negb (bool_decide (length conflicts = 0%nat)) && negb force then (Conflicts conflicts, mkRegistry (<[key := es]> (inner s)) (transfers s))
  else
    let record := if force then to_record m fields es else [] in
    let es := if force then foldl (λ es f, strip m (λ x, negb (bool_decide (x = f))) <$> es) es fields else es in
    let log := if bool_decide (record = []) then transfers s
               else <[key := transfer_log s key ++ ((λ p, mkTransfer p.1 p.2 m now_log) <$> record)]> (transfers s) in
    let es := upsert m (λ e, mkEntry (manager e) (operation e) version now (add_fields (fields_owned e) fields)) (mkEntry m Apply version now fields) (drop_empty m es) in
    (Applied m fields, mkRegistry (<[key := es]> (inner s)) log).
Definition remove (s : FieldManagerRegistry) (key : ObjectKey) (m : bytes) : FieldManagerRegistry :=
  match inner s !! key with
  | Some es => mkRegistry (<[key := filter (λ e, manager e ≠ m) es]> (inner s)) (transfers s)
  | None => s
  end.
Definition record_update (s : FieldManagerRegistry) (key : ObjectKey) (m version : bytes) (fields : list bytes) (now : Z) : FieldManagerRegistry :=
  let es := strip m (λ x, negb (bool_decide (x ∈ fields))) <$> entries s key in
  let es := upsert m (λ e, mkEntry (manager e) Update version now (add_fields (fields_owned e) fields)) (mkEntry m Update version now fields) (drop_empty m es) in
  mkRegistry (<[key := es]> (inner s)) (transfers s).
End FieldManagerRegistry.
Import FieldManagerRegistry.

(** ** The specification: a map from fields to managers *)

Module Ownership.
Abbreviation State := (gmap (ObjectKey * bytes) bytes) (only parsing).
(** The fields another manager holds, with it *)
Definition held (key : ObjectKey) (m : bytes) (fields : list bytes) (o : State) : list (bytes * bytes) :=
  omap (λ f, match o !! (key, f) with Some m' => if bool_decide (m' = m) then None else Some (f, m') | None => None end) fields.
Definition take_all (key : ObjectKey) (m : bytes) (fields : list bytes) (o : State) : State := foldl (λ o f, <[(key, f) := m]> o) o fields.
Definition relinquish (key : ObjectKey) (m : bytes) (o : State) : State := filter (λ p, ¬ (p.1.1 = key ∧ p.2 = m)) o.
End Ownership.

Inductive Call : Type :=
| CApply (key : ObjectKey) (m version : bytes) (fields : list bytes) (force : bool) (now_log now : Z)
| CUpdate (key : ObjectKey) (m version : bytes) (fields : list bytes) (now : Z)
| CRemove (key : ObjectKey) (m : bytes).
(** What a call answers: nothing, or for an apply the conflicts *)
Definition outcome_conflicts (o : ApplyOutcome) : list (bytes * bytes) :=
  match o with Applied _ _ => [] | Conflicts cs => (λ c, (c_field c, current_manager c)) <$> cs end.
Definition step (s : FieldManagerRegistry) (c : Call) : list (bytes * bytes) * FieldManagerRegistry :=
  match c with
  | CApply key m version fields force now_log now => let '(o, s') := apply s key m version fields force now_log now in (outcome_conflicts o, s')
  | CUpdate key m version fields now => ([], record_update s key m version fields now)
  | CRemove key m => ([], remove s key m)
  end.
Definition spec_step (o : gmap (ObjectKey * bytes) bytes) (c : Call) : list (bytes * bytes) * gmap (ObjectKey * bytes) bytes :=
  match c with
  | CApply key m _ fields force _ _ =>
      let held := Ownership.held key m fields o in
      if negb (bool_decide (held = [])) && negb force then (held, o) else ([], Ownership.take_all key m fields o)
  | CUpdate key m _ fields _ => ([], Ownership.take_all key m fields o)
  | CRemove key m => ([], Ownership.relinquish key m o)
  end.
Fixpoint run {S} (step : S → Call → list (bytes * bytes) * S) (s : S) (cs : list Call) : list (list (bytes * bytes)) * S :=
  match cs with
  | [] => ([], s)
  | c :: cs => let '(a, s) := step s c in let '(rest, s) := run step s cs in (a :: rest, s)
  end.

(** ** Who owns what *)

Definition owns (es : list ManagedFieldsEntry) (m f : bytes) : Prop := ∃ e, e ∈ es ∧ manager e = m ∧ f ∈ fields_owned e.
Definition exclusive (es : list ManagedFieldsEntry) : Prop := ∀ f m m', owns es m f → owns es m' f → m = m'.
Lemma owner_owns es f m : owner es f = Some m → owns es m f.
Proof.
  unfold owner. destruct (list_find _ es) as [[i e]|] eqn:E; [|done]. intros [= <-]. apply list_find_Some in E as (I & O & _).
  exists e. split; [by eapply list_elem_of_lookup_2|]. split; [done|]. by apply bool_decide_eq_true in O.
Qed.
Lemma owner_spec es f m : exclusive es → owner es f = Some m ↔ owns es m f.
Proof.
  intros X. split; [apply owner_owns|]. intros (e & I & M & O). destruct (owner es f) as [m'|] eqn:E.
  - f_equal. eapply X; [by apply owner_owns|]. by exists e.
  - unfold owner in E. destruct (list_find _ es) eqn:F; [done|]. apply list_find_None in F. rewrite Forall_forall in F. destruct (F e I). by apply bool_decide_eq_true.
Qed.
Lemma strip_manager m P e : manager (strip m P e) = manager e.
Proof. unfold strip. by case_bool_decide. Qed.
Lemma strip_fields m P e f : f ∈ fields_owned (strip m P e) ↔ f ∈ fields_owned e ∧ (manager e = m ∨ P f = true).
Proof. unfold strip. case_bool_decide; cbn [fields_owned]; rewrite ?list_elem_of_filter; tauto. Qed.
Lemma owns_strip m P es m' f : owns (strip m P <$> es) m' f ↔ owns es m' f ∧ (m' = m ∨ P f = true).
Proof.
  unfold owns. split.
  - intros (e & (e0 & -> & I)%list_elem_of_fmap & M & O). rewrite strip_manager in M. apply strip_fields in O as [O D]. subst m'. split; [by exists e0|done].
  - intros [(e & I & M & O) D]. exists (strip m P e). split; [by apply list_elem_of_fmap_2|]. rewrite strip_manager. split; [done|]. apply strip_fields. by subst.
Qed.
Lemma owns_strip_all m fields es m' f :
  owns (foldl (λ es f, strip m (λ x, negb (bool_decide (x = f))) <$> es) es fields) m' f ↔ owns es m' f ∧ (m' = m ∨ f ∉ fields).
Proof.
  revert es. induction fields as [|g fields IH]; intros es; cbn [foldl]; [set_solver|].
  rewrite IH, owns_strip, negb_true_iff, bool_decide_eq_false, not_elem_of_cons. tauto.
Qed.
Lemma owns_drop_empty m es m' f : owns (drop_empty m es) m' f ↔ owns es m' f.
Proof.
  unfold owns, drop_empty. setoid_rewrite list_elem_of_filter. split; [naive_solver|]. intros (e & I & M & O). exists e. split; [|done].
  split; [|done]. left. intros E. rewrite E in O. by apply elem_of_nil in O.
Qed.
Lemma elem_of_add_fields owned fields f : f ∈ add_fields owned fields ↔ f ∈ owned ∨ f ∈ fields.
Proof.
  unfold add_fields. revert owned. induction fields as [|g fields IH]; intros owned; cbn [foldl]; [set_solver|].
  rewrite IH. case_bool_decide; set_solver.
Qed.
Lemma owns_cons e es m f : owns (e :: es) m f ↔ (manager e = m ∧ f ∈ fields_owned e) ∨ owns es m f.
Proof. unfold owns. set_solver. Qed.
Lemma owns_upsert m set fresh fields es m' f :
  (∀ e, manager (set e) = manager e ∧ fields_owned (set e) = add_fields (fields_owned e) fields) → manager fresh = m → fields_owned fresh = fields →
  owns (upsert m set fresh es) m' f ↔ owns es m' f ∨ (m' = m ∧ f ∈ fields).
Proof.
  intros S M F. induction es as [|e es IH]; cbn [upsert].
  - rewrite owns_cons, M, F. intuition congruence.
  - case_bool_decide as E; rewrite !owns_cons; [|rewrite IH; tauto]. destruct (S e) as [-> ->]. rewrite elem_of_add_fields. intuition congruence.
Qed.
(** Taking fields *)
Definition takes (es es' : list ManagedFieldsEntry) (m : bytes) (fields : list bytes) : Prop :=
  ∀ m' f, owns es' m' f ↔ (owns es m' f ∧ (m' = m ∨ f ∉ fields)) ∨ (m' = m ∧ f ∈ fields).
Lemma takes_exclusive es es' m fields : takes es es' m fields → exclusive es → exclusive es'.
Proof. intros T X f m1 m2 [[A [->|N]]|[-> I]]%T [[B [->|N']]|[-> J]]%T; try done; by eapply X. Qed.
Lemma takes_owner es es' m fields f : takes es es' m fields → exclusive es → owner es' f = if bool_decide (f ∈ fields) then Some m else owner es f.
Proof.
  intros T X. apply option_eq. intros m'. rewrite (owner_spec _ _ _ (takes_exclusive _ _ _ _ T X)), (T m' f).
  case_bool_decide; [|rewrite owner_spec by done; tauto]. split; [|naive_solver]. intros [[O [->|]]|[-> _]]; done.
Qed.
Lemma other_owner_spec m f es : exclusive es →
  manager <$> other_owner m f es = m' ← owner es f; if bool_decide (m' = m) then None else Some m'.
Proof.
  intros X. unfold other_owner. destruct (list_find (λ e, manager e ≠ m ∧ _) es) as [[i e]|] eqn:E; cbn [fmap option_fmap option_map snd].
  - apply list_find_Some in E as (I & [N O] & _). assert (W : owns es (manager e) f).
    { exists e. split; [by eapply list_elem_of_lookup_2|]. split; [done|]. by apply bool_decide_eq_true in O. }
    apply (owner_spec _ _ _ X) in W. rewrite W. cbn. by rewrite bool_decide_eq_false_2.
  - destruct (owner es f) as [m'|] eqn:W; [|done]. cbn. case_bool_decide as N; [done|]. apply owner_owns in W as (e & I & M & O).
    apply list_find_None in E. rewrite Forall_forall in E. destruct (E e I). split; [congruence|]. by apply bool_decide_eq_true.
Qed.
Lemma owner_nil f : owner [] f = None.
Proof. done. Qed.
Lemma owner_of_entries s key f : owner_of s key f = owner (entries s key) f.
Proof. unfold owner_of, entries. by destruct (inner s !! key). Qed.
(** The registry holds the map *)
Definition holds (s : FieldManagerRegistry) (o : gmap (ObjectKey * bytes) bytes) : Prop :=
  (∀ key, exclusive (entries s key)) ∧ ∀ key f, owner (entries s key) f = o !! (key, f).
Lemma conflicts_held s o key m fields : holds s o →
  (λ c, (c_field c, current_manager c)) <$> conflicts_of m fields (entries s key) = Ownership.held key m fields o.
Proof.
  intros [X H]. unfold conflicts_of, Ownership.held. induction fields as [|f fields IH]; [done|]. cbn [omap list_omap].
  pose proof (other_owner_spec m f _ (X key)) as S. rewrite H in S. destruct (o !! (key, f)) as [m'|]; cbn in S.
  - case_bool_decide; destruct (other_owner m f (entries s key)) as [e|]; cbn in S; try done. injection S as <-. cbn. by rewrite <- IH.
  - by destruct (other_owner m f (entries s key)).
Qed.
Lemma lookup_take_all key m fields o k f :
  Ownership.take_all key m fields o !! (k, f) = if bool_decide (k = key ∧ f ∈ fields) then Some m else o !! (k, f).
Proof.
  unfold Ownership.take_all. revert o. induction fields as [|g fields IH]; intros o; cbn [foldl].
  - rewrite bool_decide_eq_false_2; [done|]. set_solver.
  - rewrite IH. destruct (decide ((key, g) = (k, f))) as [[= <- <-]|N].
    + rewrite lookup_insert_eq, (bool_decide_eq_true_2 (key = key ∧ g ∈ g :: fields)) by set_solver. by case_bool_decide.
    + rewrite lookup_insert_ne by done. erewrite bool_decide_ext; [done|]. rewrite elem_of_cons. naive_solver.
Qed.
Lemma entries_insert s key es log k : entries (mkRegistry (<[key := es]> (inner s)) log) k = if bool_decide (k = key) then es else entries s k.
Proof. unfold entries. cbn [inner]. case_bool_decide as E; [subst; by rewrite lookup_insert_eq|by rewrite lookup_insert_ne]. Qed.
Lemma holds_takes s o key m fields es log : holds s o → takes (entries s key) es m fields →
  holds (mkRegistry (<[key := es]> (inner s)) log) (Ownership.take_all key m fields o).
Proof.
  intros [X H] T. split; [intros k|intros k f; rewrite lookup_take_all]; rewrite entries_insert; case_bool_decide as E.
  - by apply (takes_exclusive _ _ _ _ T).
  - apply X.
  - subst k. rewrite (takes_owner _ _ _ _ f T (X key)), H. erewrite bool_decide_ext; [done|]. tauto.
  - rewrite bool_decide_eq_false_2 by tauto. apply H.
Qed.
Lemma apply_takes s key m version fields (force : bool) now :
  exclusive (entries s key) → (force = true ∨ ∀ m' f, owns (entries s key) m' f → f ∈ fields → m' = m) →
  takes (entries s key)
    (upsert m (λ e, mkEntry (manager e) (operation e) version now (add_fields (fields_owned e) fields)) (mkEntry m Apply version now fields)
      (drop_empty m (if force then foldl (λ es f, strip m (λ x, negb (bool_decide (x = f))) <$> es) (entries s key) fields else entries s key))) m fields.
Proof.
  intros X F m' f. rewrite (owns_upsert _ _ _ fields), owns_drop_empty by done. destruct force; [by rewrite owns_strip_all|].
  destruct F as [|F]; [done|]. specialize (F m' f). destruct (decide (f ∈ fields)); tauto.
Qed.
Lemma update_takes s key m version fields now :
  takes (entries s key)
    (upsert m (λ e, mkEntry (manager e) Update version now (add_fields (fields_owned e) fields)) (mkEntry m Update version now fields)
      (drop_empty m (strip m (λ x, negb (bool_decide (x ∈ fields))) <$> entries s key))) m fields.
Proof. intros m' f. by rewrite (owns_upsert _ _ _ fields), owns_drop_empty, owns_strip, negb_true_iff, bool_decide_eq_false by done. Qed.
Lemma held_nil key m fields o : Ownership.held key m fields o = [] → ∀ f m', f ∈ fields → o !! (key, f) = Some m' → m' = m.
Proof.
  unfold Ownership.held. induction fields as [|g fields IH]; cbn [omap list_omap]; intros E f m' I L; [by apply elem_of_nil in I|].
  apply elem_of_cons in I as [->|I].
  - rewrite L in E. by case_bool_decide.
  - destruct (o !! (key, g)) as [m0|]; [case_bool_decide|]; try done; by eapply IH.
Qed.
Lemma remove_holds s o key m : holds s o → holds (remove s key m) (Ownership.relinquish key m o).
Proof.
  intros [X H].
  assert (E : ∀ k, entries (remove s key m) k = if bool_decide (k = key) then filter (λ e, manager e ≠ m) (entries s key) else entries s k).
  { intros k. unfold remove. destruct (inner s !! key) as [es|] eqn:I; [rewrite entries_insert; unfold entries at 2; by rewrite I|].
    case_bool_decide as K; [|done]. subst. unfold entries. by rewrite I. }
  assert (O : ∀ m' f, owns (filter (λ e, manager e ≠ m) (entries s key)) m' f ↔ owns (entries s key) m' f ∧ m' ≠ m).
  { intros m' f. unfold owns. setoid_rewrite list_elem_of_filter. naive_solver. }
  assert (X' : exclusive (filter (λ e, manager e ≠ m) (entries s key))).
  { intros f m1 m2 [A _]%O [B _]%O. by eapply X. }
  split; [intros k|intros k f; unfold Ownership.relinquish]; rewrite E; case_bool_decide as K; [done|apply X| |].
  - subst k. apply option_eq. intros m'. rewrite (owner_spec _ _ _ X'), O, map_lookup_filter_Some, <- H, (owner_spec _ _ _ (X key)). cbn. naive_solver.
  - rewrite H. apply option_eq. intros m'. rewrite map_lookup_filter_Some. cbn. naive_solver.
Qed.
Lemma step_holds s o c : holds s o → (step s c).1 = (spec_step o c).1 ∧ holds (step s c).2 (spec_step o c).2.
Proof.
  intros H. pose proof H as [X L]. destruct c as [key m version fields force now_log now|key m version fields now|key m]; cbn [step spec_step].
  - unfold apply. pose proof (conflicts_held s o key m fields H) as C.
    assert (N : bool_decide (length (conflicts_of m fields (entries s key)) = 0%nat) = bool_decide (Ownership.held key m fields o = [])).
    { apply bool_decide_ext. rewrite <- C. by destruct (conflicts_of m fields (entries s key)). }
    rewrite N. destruct (negb (bool_decide (Ownership.held key m fields o = [])) && negb force) eqn:B; cbn [fst snd outcome_conflicts].
    + split; [done|]. split; [intros k|intros k f]; rewrite entries_insert; (destruct (bool_decide_reflect (k = key)); [subst|]); first [apply X|apply L].
    + split; [done|]. apply holds_takes; [done|]. apply apply_takes; [done|]. destruct force; [by left|right].
      rewrite andb_true_r in B. apply negb_false_iff, bool_decide_eq_true in B. intros m' f O I.
      eapply held_nil; [exact B|exact I|]. rewrite <- L. by apply owner_spec.
  - split; [done|]. apply holds_takes; [done|]. apply update_takes.
  - split; [done|]. by apply remove_holds.
Qed.
Lemma run_holds s o cs : holds s o → (run step s cs).1 = (run spec_step o cs).1 ∧ holds (run step s cs).2 (run spec_step o cs).2.
Proof.
  revert s o. induction cs as [|c cs IH]; intros s o H; [done|]. cbn [run]. destruct (step_holds s o c H) as [A H'].
  destruct (step s c) as [a s'], (spec_step o c) as [a' o']. cbn [fst snd] in *. destruct (IH s' o' H') as [B H''].
  destruct (run step s' cs), (run spec_step o' cs). cbn [fst snd] in *. by subst.
Qed.


(** A forced apply adds to the log exactly the fields it took from other managers. *)
Lemma to_record_spec m fields es f m' : (f, m') ∈ to_record m fields es ↔ f ∈ fields ∧ m' ≠ m ∧ owns es m' f.
Proof.
  unfold to_record, owns. rewrite list_elem_of_bind. setoid_rewrite list_elem_of_fmap. setoid_rewrite list_elem_of_filter. unfold owns_field.
  setoid_rewrite bool_decide_eq_true. naive_solver.
Qed.
Lemma forced_apply_logs s key m version fields now_log now :
  ∃ taken, transfer_log (apply s key m version fields true now_log now).2 key = transfer_log s key ++ ((λ p, mkTransfer p.1 p.2 m now_log) <$> taken)
  ∧ ∀ f m', (f, m') ∈ taken ↔ f ∈ fields ∧ m' ≠ m ∧ owns (entries s key) m' f.
Proof.
  exists (to_record m fields (entries s key)). split; [|intros; apply to_record_spec].
  unfold apply. rewrite andb_false_r. unfold transfer_log at 1. cbn [snd transfers]. case_bool_decide as E; [by rewrite E, app_nil_r|].
  by rewrite lookup_insert_eq.
Qed.

(** ** Where it parts from the comments *)

(** A manager that updated some fields and applied others is reported as having updated them
    all: an apply leaves the operation of its entry as it was. *)
Lemma applied_field_reported_as_updated :
  let s := record_update new (str "t", str "u") (str "ann") (str "v1") [str "spec.a"] 1 in
  let s := (apply s (str "t", str "u") (str "ann") (str "v1") [str "spec.b"] false 2 2).2 in
  (apply s (str "t", str "u") (str "bob") (str "v1") [str "spec.b"] false 3 3).1 = Conflicts [mkConflict (str "spec.b") (str "ann") UpdatedBy].
Proof. vm_compute. reflexivity. Qed.
(** A manager that applies fewer fields than before keeps the others. *)
Lemma apply_never_gives_up :
  let s := (apply new (str "t", str "u") (str "ann") (str "v1") [str "spec.a"; str "spec.b"] false 1 1).2 in
  let s := (apply s (str "t", str "u") (str "ann") (str "v1") [str "spec.a"] false 2 2).2 in
  owner_of s (str "t", str "u") (str "spec.b") = Some (str "ann").
Proof. vm_compute. reflexivity. Qed.
