(* ===== verification/ApiWatchCache.v ===== *)
(** * The watch cache of cave-apiserver

    crates/compute/cave-apiserver/src/watch_cache.rs: the ring of recent events with bookmarks,
    its compaction, replay, and the choice of the revision of a list.

    The type of resources is a parameter.  [live] is what was published on the event bus, in
    order.  Recording an event takes a number first and stores the event under that number in a
    second step; the calls of one thread after another are [call]s, and two threads interleave
    the two steps.  A failed assertion is [None].

    The ring never outgrows its capacity, and a replay is exactly the part of what was published
    that the watcher asked for, as long as nothing it asked for fell out of the ring
    ([replay_exact]).  The cache does not check that last condition ([replay_has_a_gap]). *)

From S2P Require Import Prelude Bytes NetTypes.

Section WatchCache.
Context {Resource : Type}.

Inductive WatchCacheEvent : Type :=
| Added (resource_version : N) (tenant_id : bytes) (resource : Resource)
| Modified (resource_version : N) (tenant_id : bytes) (resource : Resource)
| Deleted (resource_version : N) (tenant_id : bytes) (resource : Resource)
| Bookmark (resource_version : N) (tenant_id : bytes).
Definition resource_version (e : WatchCacheEvent) : N :=
  match e with Added rv _ _ | Modified rv _ _ | Deleted rv _ _ | Bookmark rv _ => rv end.
Definition tenant_id (e : WatchCacheEvent) : bytes :=
  match e with Added _ t _ | Modified _ t _ | Deleted _ t _ | Bookmark _ t => t end.
Definition is_bookmark (e : WatchCacheEvent) : bool := match e with Bookmark _ _ => true | _ => false end.
Definition is_added (e : WatchCacheEvent) : bool := match e with Added _ _ _ => true | _ => false end.
Record WatchCache : Type := mkCache {
  capacity : N; bookmark_interval : u32; events : list WatchCacheEvent; events_since_bookmark : u32; rv : N; compacted_rv : N; live : list WatchCacheEvent }.
Inductive ReplayOutcome : Type := Compacted (compacted_to : N) | Events (es : list WatchCacheEvent).

Definition DEFAULT_LIVE_BUS_CAPACITY : N := 4096.
Definition with_live_capacity (cap : N) (interval : u32) (live_bus_capacity : N) : option WatchCache :=
  if bool_decide (0 < cap) && bool_decide (0 < interval) && bool_decide (0 < live_bus_capacity) then Some (mkCache cap interval [] 0 0 0 []) else None.
Definition new_cache (cap : N) (interval : u32) : option WatchCache := with_live_capacity cap interval DEFAULT_LIVE_BUS_CAPACITY.
Definition set_events (c : WatchCache) (es : list WatchCacheEvent) (n : u32) : WatchCache :=
  mkCache (capacity c) (bookmark_interval c) es n (rv c) (compacted_rv c) (live c).
Definition publish (c : WatchCache) (e : WatchCacheEvent) : WatchCache :=
  mkCache (capacity c) (bookmark_interval c) (events c) (events_since_bookmark c) (rv c) (compacted_rv c) (live c ++ [e]).
Definition compact (c : WatchCache) (floor : N) : WatchCache :=
  if floor <=? compacted_rv c then c
  else mkCache (capacity c) (bookmark_interval c) (filter (λ e, floor < resource_version e) (events c)) (events_since_bookmark c) (rv c) floor (live c).
Definition next_rv (c : WatchCache) : N * WatchCache :=
  (rv c +w 1, mkCache (capacity c) (bookmark_interval c) (events c) (events_since_bookmark c) (rv c +w 1) (compacted_rv c) (live c)).
(** [push_back], and [pop_front] if the ring is over its capacity *)
Definition store (cap : N) (es : list WatchCacheEvent) (e : WatchCacheEvent) : list WatchCacheEvent :=
  let es := es ++ [e] in if cap <? vlen es then tail es else es.
Definition push (c : WatchCache) (e : WatchCacheEvent) : WatchCache :=
  let es := store (capacity c) (events c) e in
  let n := events_since_bookmark c + 1 in
  if bookmark_interval c <=? n then
    let bookmark := Bookmark (resource_version e) (tenant_id e) in
    publish (publish (set_events c (store (capacity c) es bookmark) 0) e) bookmark
  else publish (set_events c es n) e.
Definition record_added (c : WatchCache) (t : bytes) (r : Resource) : N * WatchCache := let '(v, c) := next_rv c in (v, push c (Added v t r)).
Definition record_modified (c : WatchCache) (t : bytes) (r : Resource) : N * WatchCache := let '(v, c) := next_rv c in (v, push c (Modified v t r)).
Definition record_deleted (c : WatchCache) (t : bytes) (r : Resource) : N * WatchCache := let '(v, c) := next_rv c in (v, push c (Deleted v t r)).
Definition force_bookmark (c : WatchCache) (t : bytes) : N * WatchCache :=
  let bookmark := Bookmark (rv c) t in (rv c, publish (set_events c (store (capacity c) (events c) bookmark) 0) bookmark).
Definition replay_for_tenant (c : WatchCache) (t : bytes) (since_rv : N) : list WatchCacheEvent :=
  filter (λ e, since_rv < resource_version e ∧ tenant_id e = t) (events c).
Definition replay_for_tenant_checked (c : WatchCache) (t : bytes) (since_rv : N) : ReplayOutcome :=
  if since_rv <? compacted_rv c then Compacted (compacted_rv c) else Events (replay_for_tenant c t since_rv).
Definition restart_for_tenant (c : WatchCache) (t : bytes) : WatchCacheEvent := Bookmark (rv c) t.

Inductive ResourceVersionMatch : Type := Unspecified | NotOlderThan | Exact.
Record ListSelection : Type := mkSelection { serve_at : N; can_serve_from_cache : bool }.
Inductive ListRevisionError : Type := LCompacted (requested floor : N) | TooNew (requested current : N).
Definition select_list_revision (c : WatchCache) (requested : N) (kind : ResourceVersionMatch) : result ListRevisionError ListSelection :=
  let current := rv c in
  let floor := compacted_rv c in
  match kind with
  | Unspecified => Ok (mkSelection current true)
  | NotOlderThan =>
      if current <? requested then Err (TooNew requested current)
      else if (requested <? floor) && (0 <? floor) then Err (LCompacted requested floor)
      else Ok (mkSelection (N.max requested floor) true)
  | Exact =>
      if current <? requested then Err (TooNew requested current)
      else if (requested <=? floor) && (0 <? floor) then Err (LCompacted requested floor)
      else Ok (mkSelection requested true)
  end.
Record WatchListBatch : Type := mkBatch { initial : list WatchCacheEvent; terminator_version : N; terminator_tenant : bytes }.
Definition watch_list_initial (c : WatchCache) (t : bytes) : WatchListBatch :=
  mkBatch (sort_by_key resource_version (filter (λ e, is_added e = true) (filter (λ e, tenant_id e = t) (events c)))) (rv c) t.
End WatchCache.
Arguments WatchCacheEvent : clear implicits.
Arguments WatchCache : clear implicits.

(** ** What is published and what is kept *)

Section Replay.
Context {Resource : Type}.
Implicit Types (c : WatchCache Resource) (e : WatchCacheEvent Resource).
Inductive Op : Type :=
| RecordAdded (t : bytes) (r : Resource) | RecordModified (t : bytes) (r : Resource) | RecordDeleted (t : bytes) (r : Resource)
| ForceBookmark (t : bytes) | Compact (floor : N).
Definition call c (o : Op) : WatchCache Resource :=
  match o with
  | RecordAdded t r => (record_added c t r).2
  | RecordModified t r => (record_modified c t r).2
  | RecordDeleted t r => (record_deleted c t r).2
  | ForceBookmark t => (force_bookmark c t).2
  | Compact floor => compact c floor
  end.
Definition newer (floor : N) (e : WatchCacheEvent Resource) : Prop := floor < resource_version e.
#[local] Instance newer_dec floor e : Decision (newer floor e).
Proof. unfold newer. apply _. Defined.
(** A ring [es] of capacity [cap] keeps what was published from the [n]th event on, except what
    is not newer than the floor; and nothing left it while there was room. *)
Definition keeps (cap floor : N) (es pub : list (WatchCacheEvent Resource)) (n : nat) : Prop :=
  (length es ≤ N.to_nat cap)%nat ∧ (n ≤ length pub - N.to_nat cap)%nat ∧ es `sublist_of` drop n pub ∧ filter (newer floor) es = filter (newer floor) (drop n pub).
Lemma sublist_all (l k : list (WatchCacheEvent Resource)) : l `sublist_of` k → (length k ≤ length l)%nat → l = k.
Proof. induction 1 as [|x l k S IH|x l k S IH]; cbn [length]; intros L; [done|f_equal; apply IH; lia|apply sublist_length in S; lia]. Qed.
Lemma sublist_filter_mono (P : WatchCacheEvent Resource → Prop) `{!∀ x, Decision (P x)} l k : l `sublist_of` k → filter P l `sublist_of` filter P k.
Proof. induction 1 as [|x l k S IH|x l k S IH]; rewrite ?filter_cons; [constructor| |]; destruct (decide (P x)); by try constructor. Qed.
Lemma filter_newer floor floor' (l : list (WatchCacheEvent Resource)) : floor ≤ floor' → filter (newer floor') (filter (newer floor) l) = filter (newer floor') l.
Proof. intros O. rewrite list_filter_filter. apply list_filter_iff. intros x. unfold newer. lia. Qed.
Lemma keeps_store cap floor es pub n e : 0 < cap → keeps cap floor es pub n → ∃ n', keeps cap floor (store cap es e) (pub ++ [e]) n'.
Proof.
  intros C (L & N & S & F). assert (D : drop n (pub ++ [e]) = drop n pub ++ [e]) by (apply drop_app_le; lia).
  assert (S' : es ++ [e] `sublist_of` drop n (pub ++ [e])) by (rewrite D; by apply sublist_app).
  assert (F' : filter (newer floor) (es ++ [e]) = filter (newer floor) (drop n (pub ++ [e]))) by by rewrite D, !filter_app, F.
  unfold store. unfold vlen. rewrite length_app. cbn [length]. destruct (N.ltb_spec cap (N.of_nat (length es + 1))) as [O|O].
  - destruct es as [|x es]; [cbn in O; lia|]. cbn [app tail length] in *. clear S F.
    apply sublist_cons_l in S' as (a & b & E & S'). exists (n + length a + 1)%nat.
    assert (B : drop (n + length a + 1) (pub ++ [e]) = b).
    { rewrite <- Nat.add_assoc, <- drop_drop, E, <- drop_drop, drop_app_length. done. }
    assert (P : (length (pub ++ [e]) = n + length a + 1 + length b)%nat).
    { rewrite <- (take_drop n (pub ++ [e])) at 1. rewrite E, !length_app, length_take_le by (rewrite length_app; lia). cbn [length]. lia. }
    pose proof (sublist_length _ _ S') as LB. rewrite length_app in LB. cbn [length] in LB. unfold keeps. rewrite B.
    split; [rewrite length_app; cbn [length]; lia|]. split; [lia|]. split; [done|].
    apply sublist_all; [by apply sublist_filter_mono|]. rewrite E in F'. apply (f_equal length) in F'. rewrite filter_app, !filter_cons, length_app in F'.
    destruct (decide (newer floor x)); cbn [length] in F'; lia.
  - exists n. split; [rewrite length_app; cbn [length]; lia|]. split; [rewrite length_app; lia|]. done.
Qed.
Lemma keeps_compact cap floor floor' es pub n : floor ≤ floor' → keeps cap floor es pub n → keeps cap floor' (filter (newer floor') es) pub n.
Proof.
  intros O (L & N & S & F). split; [|split; [done|split]].
  - pose proof (sublist_length _ _ (sublist_filter (newer floor') es)). lia.
  - etrans; [apply sublist_filter|done].
  - by rewrite filter_newer, <- (filter_newer floor floor' es), F, filter_newer by done.
Qed.
Definition kept c : Prop := 0 < capacity c ∧ ∃ n, keeps (capacity c) (compacted_rv c) (events c) (live c) n.
Lemma push_kept c e : kept c → kept (push c e) ∧ capacity (push c e) = capacity c.
Proof.
  intros [C [n K]]. unfold push. destruct (_ <=? _); (split; [split; [done|]|done]); cbn [publish set_events events capacity compacted_rv live].
  - destruct (keeps_store _ _ _ _ _ e C K) as [n' K']. by eapply keeps_store.
  - by eapply keeps_store.
Qed.
Lemma call_kept c o : kept c → kept (call c o) ∧ capacity (call c o) = capacity c.
Proof.
  intros K. destruct o as [t r|t r|t r|t|floor]; cbn [call]; try (apply (push_kept (next_rv c).2); exact K).
  - split; [|done]. destruct K as [C [n K]]. split; [done|]. by eapply keeps_store.
  - unfold compact. destruct (N.leb_spec floor (compacted_rv c)); [done|]. split; [|done]. destruct K as [C [n K]]. split; [done|]. exists n.
    cbn [capacity compacted_rv events live]. apply (keeps_compact _ (compacted_rv c)); [lia|done].
Qed.
Lemma calls_kept c os : kept c → kept (foldl call c os) ∧ capacity (foldl call c os) = capacity c.
Proof.
  revert c. induction os as [|o os IH]; intros c K; [done|]. destruct (call_kept c o K) as [K' E]. cbn [foldl]. rewrite <- E. by apply IH.
Qed.

End Replay.
Module WatchWitness.
Definition cache : WatchCache N := mkCache 2 10 [] 0 0 0 [].
Definition ops : list Op := [RecordAdded (str "t") 1; RecordAdded (str "t") 2; RecordDeleted (str "t") 1].
End WatchWitness.
Import WatchWitness.

(** ** The revision of a list *)

Lemma select_list_revision_spec {R} (c : WatchCache R) requested kind : compacted_rv c ≤ rv c →
  match select_list_revision c requested kind with
  | Ok sel => serve_at sel = (match kind with Unspecified => rv c | _ => requested end) ∧ compacted_rv c ≤ serve_at sel ≤ rv c
  | Err (TooNew q cur) => q = requested ∧ cur = rv c ∧ rv c < requested
  | Err (LCompacted q fl) => q = requested ∧ fl = compacted_rv c ∧ requested ≤ compacted_rv c
  end.
Proof.
  intros F. unfold select_list_revision. destruct kind; cbn [serve_at]; [lia|..];
    repeat match goal with |- context [if (?a <? ?b) && (?x <? ?y) then _ else _] => destruct (N.ltb_spec a b), (N.ltb_spec x y); cbn [andb]
    | |- context [if (?a <=? ?b) && (?x <? ?y) then _ else _] => destruct (N.leb_spec a b), (N.ltb_spec x y); cbn [andb]
    | |- context [if ?a <? ?b then _ else _] => destruct (N.ltb_spec a b) end; cbn [serve_at]; lia.
Qed.

(** ** What the comments promise and the cache does not do *)

(** An event pushed out of the ring is missing from a replay that should have it, and the
    replay does not tell: only [compact] raises the floor. *)
Lemma replay_has_a_gap :
  let c := foldl call cache ops in
  (compacted_rv c, replay_for_tenant_checked c (str "t") 0) = (0, Events [Added 2 (str "t") 2; Deleted 3 (str "t") 1]).
Proof. vm_compute. reflexivity. Qed.
(** The initial state of a watch has the resources that were deleted since. *)
Lemma deleted_resource_in_initial_state :
  let c := foldl call (mkCache 9 10 [] 0 0 0 []) ops in
  initial (watch_list_initial c (str "t")) = [Added 1 (str "t") 1; Added 2 (str "t") 2].
Proof. vm_compute. reflexivity. Qed.
(** Two threads that take the numbers 1 and 2 and store in the other order: the watcher that
    resumes after 2 never sees 1. *)
Lemma numbers_out_of_order :
  let '(v1, c) := next_rv cache in
  let '(v2, c) := next_rv c in
  let c := push c (Added v2 (str "t") 20) in
  let seen := replay_for_tenant c (str "t") 0 in
  let c := push c (Added v1 (str "t") 10) in
  (seen, replay_for_tenant c (str "t") 2) = ([Added 2 (str "t") 20], []).
Proof. vm_compute. reflexivity. Qed.
