(* ===== verification/ApiStore.v ===== *)
(** * The resource store of cave-apiserver

    crates/compute/cave-apiserver/src/store.rs, with the kinds and the metadata of resources from
    crates/compute/cave-apiserver/src/resources.rs.

    What a resource has besides its kind and its metadata is a parameter, as are identifiers and
    instants.  The map of the store is a [DashMap], each of whose operations is atomic; a call
    makes several, so calls of several threads interleave ([step]).  [bus] is what was published
    on the event bus, in order.

    However threads interleave, a resource is stored under its own kind, namespace and name
    ([stored_under_own_key]).  When one call runs after another, the published events are a
    legal history and replaying them gives the store ([watch_replays_store]).  Two interleaved
    calls break this ([two_creators], [watcher_left_behind]). *)

From S2P Require Import Prelude Bytes.

(** ** resources.rs *)

Inductive Kind : Type :=
| Pod | Service | ConfigMap | Secret | ServiceAccount | KubeEvent | Endpoints | ResourceQuota | LimitRange | PersistentVolumeClaim
| Namespace | Node | PersistentVolume | Deployment | StatefulSet | DaemonSet | ReplicaSet | Job | CronJob | Ingress | NetworkPolicy | StorageClass
| Role | ClusterRole | RoleBinding | ClusterRoleBinding.
Record OwnerReference : Type := mkOwner { o_api_version : bytes; o_kind : bytes; o_name : bytes; o_uid : N }.
Record ObjectMeta : Type := mkMeta {
  m_name : bytes; m_namespace : bytes; m_uid : N; m_resource_version : N; creation_timestamp : Z; labels : gmap bytes bytes; annotations : gmap bytes bytes;
  owner_references : list OwnerReference; finalizers : list bytes; deletion_timestamp : option Z }.
Definition meta_new (name namespace : bytes) (uid : N) (now : Z) : ObjectMeta := mkMeta name namespace uid 1 now ∅ ∅ [] [] None.

Section Store.
Context {Body : Type}.
(** The enumeration of the source, with the variant as a field *)
Record Resource : Type := mkResource { variant : Kind; metadata : ObjectMeta; body : Body }.
Definition kind (r : Resource) : bytes :=
  match variant r with
  | Pod => str "Pod" | Service => str "Service" | ConfigMap => str "ConfigMap" | Secret => str "Secret" | ServiceAccount => str "ServiceAccount"
  | KubeEvent => str "KubeEvent" | Endpoints => str "Endpoints" | ResourceQuota => str "ResourceQuota" | LimitRange => str "LimitRange"
  | PersistentVolumeClaim => str "PersistentVolumeClaim" | Namespace => str "Namespace" | Node => str "Node" | PersistentVolume => str "PersistentVolume"
  | Deployment => str "Deployment" | StatefulSet => str "StatefulSet" | DaemonSet => str "DaemonSet" | ReplicaSet => str "ReplicaSet" | Job => str "Job"
  | CronJob => str "CronJob" | Ingress => str "Ingress" | NetworkPolicy => str "NetworkPolicy" | StorageClass => str "StorageClass" | Role => str "Role"
  | ClusterRole => str "ClusterRole" | RoleBinding => str "RoleBinding" | ClusterRoleBinding => str "ClusterRoleBinding"
  end.
Definition name (r : Resource) : bytes := m_name (metadata r).
Definition namespace (r : Resource) : bytes := m_namespace (metadata r).

(** ** store.rs *)

Abbreviation ResourceKey := (bytes * bytes * bytes)%type (only parsing).
Definition key_of (r : Resource) : ResourceKey := (kind r, namespace r, name r).
Inductive WatchEventType : Type := Added | Modified | Deleted.
Record WatchEvent : Type := mkEvent { event_type : WatchEventType; resource : Resource }.
Inductive ApiError : Type :=
| NotFound (kind name : bytes) | AlreadyExists (kind name : bytes) | Conflict (m : bytes) | Invalid (m : bytes) | Forbidden (m : bytes) | Internal (m : bytes).
Record ResourceStore : Type := mkStore { resources : gmap ResourceKey Resource; revision : N; bus : list WatchEvent }.
Definition new : ResourceStore := mkStore ∅ 1 [].
Definition insert_resource (s : ResourceStore) (k : ResourceKey) (r : Resource) : ResourceStore := mkStore (<[k := r]> (resources s)) (revision s) (bus s).
Definition publish (s : ResourceStore) (t : WatchEventType) (r : Resource) : ResourceStore := mkStore (resources s) (revision s) (bus s ++ [mkEvent t r]).
Definition next_revision (s : ResourceStore) : N * ResourceStore := (revision s +w 1, mkStore (resources s) (revision s +w 1) (bus s)).
Definition create (s : ResourceStore) (r : Resource) : result ApiError Resource * ResourceStore :=
  let key := key_of r in
  if bool_decide (is_Some (resources s !! key)) then (Err (AlreadyExists key.1.1 key.2), s)
  else (Ok r, publish (insert_resource s key r) Added r).
Definition get (s : ResourceStore) (kind namespace name : bytes) : result ApiError Resource := ok_or (resources s !! (kind, namespace, name)) (NotFound kind name).
Definition list_resources (s : ResourceStore) (kind ns : bytes) : list Resource :=
  snd <$> filter (λ e, e.1.1.1 = kind ∧ (ns = [] ∨ e.1.1.2 = ns)) (map_to_list (resources s)).
Definition update (s : ResourceStore) (r : Resource) : result ApiError Resource * ResourceStore :=
  let key := key_of r in
  if negb (bool_decide (is_Some (resources s !! key))) then (Err (NotFound key.1.1 key.2), s)
  else (Ok r, publish (insert_resource s key r) Modified r).
Definition delete_resource (s : ResourceStore) (kind namespace name : bytes) : result ApiError Resource * ResourceStore :=
  match resources s !! (kind, namespace, name) with
  | Some r => (Ok r, publish (mkStore (delete (kind, namespace, name) (resources s)) (revision s) (bus s)) Deleted r)
  | None => (Err (NotFound kind name), s)
  end.
Definition count (s : ResourceStore) (kind : bytes) : nat := length (filter (λ e, e.1.1.1 = kind) (map_to_list (resources s))).
Definition list_all (s : ResourceStore) : list Resource := snd <$> map_to_list (resources s).
Definition upsert (s : ResourceStore) (r : Resource) : ResourceStore := insert_resource s (key_of r) r.

(** ** One call after another *)

Inductive Op : Type := Create (r : Resource) | Update (r : Resource) | Delete (kind namespace name : bytes).
Definition call (s : ResourceStore) (o : Op) : ResourceStore :=
  match o with
  | Create r => (create s r).2
  | Update r => (update s r).2
  | Delete k ns n => (delete_resource s k ns n).2
  end.
(** A watcher that applies the events it gets, as long as they make sense: something is added
    where nothing was, and modified or deleted where something was. *)
Definition watch (m : option (gmap ResourceKey Resource)) (e : WatchEvent) : option (gmap ResourceKey Resource) :=
  m ← m;
  let key := key_of (resource e) in
  match event_type e, m !! key with
  | Added, None => Some (<[key := resource e]> m)
  | Modified, Some _ => Some (<[key := resource e]> m)
  | Deleted, Some _ => Some (delete key m)
  | _, _ => None
  end.
Definition watcher (es : list WatchEvent) : option (gmap ResourceKey Resource) := foldl watch (Some ∅) es.
Definition own_keys (m : gmap ResourceKey Resource) : Prop := map_Forall (λ k r, key_of r = k) m.
Lemma own_keys_insert m r : own_keys m → own_keys (<[key_of r := r]> m).
Proof. intros H. by apply map_Forall_insert_2. Qed.
Lemma call_watch s o : own_keys (resources s) → watcher (bus s) = Some (resources s) → own_keys (resources (call s o)) ∧ watcher (bus (call s o)) = Some (resources (call s o)).
Proof.
  intros K W. assert (P : ∀ e, watcher (bus s ++ [e]) = watch (Some (resources s)) e) by (intros e; unfold watcher in *; by rewrite foldl_app, W).
  destruct o as [r|r|k ns n]; cbn [call].
  - unfold create. case_bool_decide as E; [done|]. cbn [snd publish insert_resource resources bus]. rewrite P. split; [by apply own_keys_insert|].
    cbn. apply eq_None_not_Some in E. by rewrite E.
  - unfold update. case_bool_decide as E; cbn [negb]; [|done]. cbn [snd publish insert_resource resources bus]. rewrite P. split; [by apply own_keys_insert|].
    cbn. by destruct E as [r' ->].
  - unfold delete_resource. destruct (resources s !! (k, ns, n)) as [r|] eqn:E; [|done]. cbn [snd publish resources bus]. rewrite P. split; [by apply map_Forall_delete|].
    unfold watch. cbn [mbind option_bind resource event_type]. cbv zeta. rewrite (K _ _ E). cbn [event_type]. by rewrite E.
Qed.
Lemma calls_watch s os : own_keys (resources s) → watcher (bus s) = Some (resources s) →
  own_keys (resources (foldl call s os)) ∧ watcher (bus (foldl call s os)) = Some (resources (foldl call s os)).
Proof. revert s. induction os as [|o os IH]; intros s K W; [done|]. destruct (call_watch s o K W). by apply IH. Qed.


(** ** Interleaved calls *)

(** Where a thread is in its call *)
Inductive Thread : Type :=
| Checking (r : Resource) (creating : bool)  (** before [contains_key] *)
| Inserting (r : Resource) (creating : bool)  (** before [insert] *)
| Removing (k : ResourceKey)  (** before [remove] *)
| Upserting (r : Resource)
| Publishing (t : WatchEventType) (r : Resource)
| Finished (ok : bool).
Inductive step : ResourceStore * list Thread → ResourceStore * list Thread → Prop :=
| step_check s ts i r creating : ts !! i = Some (Checking r creating) →
    step (s, ts) (s, <[i := if bool_decide (creating = bool_decide (is_Some (resources s !! key_of r))) then Finished false else Inserting r creating]> ts)
| step_insert s ts i r (creating : bool) : ts !! i = Some (Inserting r creating) →
    step (s, ts) (insert_resource s (key_of r) r, <[i := Publishing (if creating then Added else Modified) r]> ts)
| step_remove s ts i k : ts !! i = Some (Removing k) →
    step (s, ts) (mkStore (delete k (resources s)) (revision s) (bus s), <[i := match resources s !! k with Some r => Publishing Deleted r | None => Finished false end]> ts)
| step_upsert s ts i r : ts !! i = Some (Upserting r) → step (s, ts) (upsert s r, <[i := Finished true]> ts)
| step_publish s ts i t r : ts !! i = Some (Publishing t r) → step (s, ts) (publish s t r, <[i := Finished true]> ts).
Lemma stored_under_own_key ts c : rtc step (new, ts) c → own_keys (resources c.1).
Proof.
  enough (H : ∀ a b, rtc step a b → own_keys (resources a.1) → own_keys (resources b.1)) by (intros R; apply (H _ _ R), map_Forall_empty).
  intros a b. induction 1 as [|a b b' S R IH]; [done|]. intros K. apply IH. destruct S; cbn [fst resources insert_resource upsert publish] in *; try done.
  - by apply own_keys_insert.
  - by apply map_Forall_delete.
  - by apply own_keys_insert.
Qed.
End Store.
Arguments ResourceStore : clear implicits.
Arguments Resource : clear implicits.

(** ** What interleaving breaks *)

Module StoreWitness.
Definition cm (v : N) : Resource N := mkResource ConfigMap (meta_new (str "cm") (str "default") 7 0) v.
Definition k : bytes * bytes * bytes := (str "ConfigMap", str "default", str "cm").
End StoreWitness.
Import StoreWitness.
Ltac run_step tac i := eapply rtc_l; [eapply (tac _ _ i); reflexivity|].
(** Two threads create the same resource, and both succeed: each looked before the other
    inserted. *)
Lemma two_creators : ∃ s : ResourceStore N,
  rtc step (new, [Checking (cm 1) true; Checking (cm 2) true]) (s, [Finished true; Finished true])
  ∧ bus s = [mkEvent Added (cm 1); mkEvent Added (cm 2)] ∧ watcher (bus s) = None.
Proof.
  eexists. split.
  - run_step (@step_check N) 0%nat. run_step (@step_check N) 1%nat. run_step (@step_insert N) 0%nat. run_step (@step_publish N) 0%nat.
    run_step (@step_insert N) 1%nat. run_step (@step_publish N) 1%nat. cbn. apply rtc_refl.
  - split; vm_compute; reflexivity.
Qed.
(** Two threads update it, insert in one order and publish in the other: a watcher ends with
    the value the store does not have. *)
Lemma watcher_left_behind : ∃ s : ResourceStore N,
  rtc step ((create new (cm 0)).2, [Checking (cm 1) false; Checking (cm 2) false]) (s, [Finished true; Finished true])
  ∧ resources s !! k = Some (cm 2) ∧ (m ← watcher (bus s); m !! k) = Some (cm 1).
Proof.
  eexists. split.
  - run_step (@step_check N) 0%nat. run_step (@step_check N) 1%nat. run_step (@step_insert N) 0%nat. run_step (@step_insert N) 1%nat.
    run_step (@step_publish N) 1%nat. run_step (@step_publish N) 0%nat. cbn. apply rtc_refl.
  - split; vm_compute; reflexivity.
Qed.
(** The store counts no revisions: whatever is called, the counter stays where it began. *)
Lemma revision_never_moves {Body} (os : list (@Op Body)) s : revision (foldl call s os) = revision s.
Proof.
  revert s. induction os as [|o os IH]; intros s; [done|]. cbn [foldl]. rewrite IH. destruct o; cbn [call]; unfold create, update, delete_resource.
  - by case_bool_decide.
  - by case_bool_decide.
  - by destruct (resources s !! _).
Qed.
(** Kinds and their names correspond. *)
Lemma kind_inj {Body} (r r' : Resource Body) : kind r = kind r' → variant r = variant r'.
Proof. destruct r as [[] ? ?], r' as [[] ? ?]; intros H; first [reflexivity|vm_compute in H; discriminate H]. Qed.
