(* ===== verification/ApiSelectors.v ===== *)
(** * Selectors of cave-apiserver

    crates/compute/cave-apiserver/src/selectors.rs: label and field selectors, their syntax and
    their meaning.

    Text is bytes in UTF-8; the characters the parser looks for are ASCII, so it is the same on
    bytes.  A [BTreeMap] that is only looked up in is a [gmap].

    Every selector written the plain way is read back ([selector_roundtrip]).  Two spellings
    other tools use are read as something else ([double_equals], [set_without_space]). *)

From S2P Require Import Prelude Bytes VaultTokens KernelIdentity.

Inductive LabelOperator : Type := Equals (v : bytes) | NotEquals (v : bytes) | In (vs : list bytes) | NotIn (vs : list bytes) | Exists_ | DoesNotExist.
Record LabelRequirement : Type := mkLabelReq { l_key : bytes; l_op : LabelOperator }.
Inductive FieldOp : Type := FEquals (v : bytes) | FNotEquals (v : bytes).
Record FieldRequirement : Type := mkFieldReq { field : bytes; f_op : FieldOp }.

(** [find]: the text before the first occurrence, and the text after it *)
Fixpoint find_sub (pat s : bytes) : option (bytes * bytes) :=
  match starts pat s with
  | Some rest => Some ([], rest)
  | None => match s with [] => None | c :: s => (λ r, (c :: r.1, r.2)) <$> find_sub pat s end
  end.
Fixpoint split_commas (s : bytes) (depth : Z) (buf : bytes) : list bytes :=
  match s with
  | [] => if bool_decide (buf = []) then [] else [buf]
  | c :: s =>
      if c =? 40 then split_commas s (depth + 1) (buf ++ [c])
      else if c =? 41 then split_commas s (depth - 1) (buf ++ [c])
      else if (c =? 44) && bool_decide (depth = 0%Z) then buf :: split_commas s depth []
      else split_commas s depth (buf ++ [c])
  end.
Definition split_top_level_commas (s : bytes) : list bytes := split_commas s 0 [].
Definition ends_with_paren (s : bytes) : bool := bool_decide (last s = Some 41).
Definition parse_value_set (input : bytes) : result bytes (list bytes) :=
  let s := trim input in
  if negb (bool_decide (head s = Some 40)) || negb (ends_with_paren s)
  then Err (str "value set must be parenthesised, got `" ++ s ++ str "`")
  else Ok (filter (λ v, v ≠ []) (trim <$> split 44 (take (length s - 2) (drop 1 s)))).
Definition parse_label_part (raw : bytes) : result bytes (list LabelRequirement) :=
  let part := trim raw in
  match find_sub (str " notin ") part with
  | Some (k, v) => let? vs := parse_value_set (trim v) in Ok [mkLabelReq (trim k) (NotIn vs)]
  | None =>
  match find_sub (str " in ") part with
  | Some (k, v) => let? vs := parse_value_set (trim v) in Ok [mkLabelReq (trim k) (In vs)]
  | None =>
  match find_sub (str "!=") part with
  | Some (k, v) => Ok [mkLabelReq (trim k) (NotEquals (trim v))]
  | None =>
  match find_sub (str "=") part with
  | Some (k, v) => Ok [mkLabelReq (trim k) (Equals (trim v))]
  | None =>
  match starts (str "!") part with
  | Some k => Ok [mkLabelReq (trim k) DoesNotExist]
  | None => Ok (if bool_decide (part = []) then [] else [mkLabelReq part Exists_])
  end end end end end.
Fixpoint parse_parts {R} (parse : bytes → result bytes (list R)) (parts : list bytes) : result bytes (list R) :=
  match parts with
  | [] => Ok []
  | p :: parts => let? r := parse p in let? rs := parse_parts parse parts in Ok (r ++ rs)
  end.
Module LabelSelector.
Definition parse (input : bytes) : result bytes (list LabelRequirement) :=
  let trimmed := trim input in if bool_decide (trimmed = []) then Ok [] else parse_parts parse_label_part (split_top_level_commas trimmed).
Definition requirement_ok (labels : gmap bytes bytes) (r : LabelRequirement) : bool :=
  match l_op r, labels !! l_key r with
  | Equals want, Some v => bool_decide (v = want)
  | Equals _, None => false
  | NotEquals want, Some v => negb (bool_decide (v = want))
  | NotEquals _, None => true
  | In vs, Some v => existsb (λ s, bool_decide (s = v)) vs
  | In _, None => false
  | NotIn vs, Some v => negb (existsb (λ s, bool_decide (s = v)) vs)
  | NotIn _, None => true
  | Exists_, Some _ => true
  | Exists_, None => false
  | DoesNotExist, None => true
  | DoesNotExist, Some _ => false
  end.
Definition matches (reqs : list LabelRequirement) (labels : gmap bytes bytes) : bool := forallb (requirement_ok labels) reqs.
End LabelSelector.
Module FieldSelector.
Definition parse_part (raw : bytes) : result bytes (list FieldRequirement) :=
  let part := trim raw in
  match find_sub (str "!=") part with
  | Some (k, v) => Ok [mkFieldReq (trim k) (FNotEquals (trim v))]
  | None =>
  match find_sub (str "=") part with
  | Some (k, v) => Ok [mkFieldReq (trim k) (FEquals (trim v))]
  | None => if bool_decide (part = []) then Ok [] else Err (str "field selector requires `=` or `!=`, got `" ++ part ++ str "`")
  end end.
Definition parse (input : bytes) : result bytes (list FieldRequirement) :=
  let trimmed := trim input in if bool_decide (trimmed = []) then Ok [] else parse_parts parse_part (split_top_level_commas trimmed).
Definition requirement_ok (fields : gmap bytes bytes) (r : FieldRequirement) : bool :=
  match f_op r, fields !! field r with
  | FEquals want, Some v => bool_decide (v = want)
  | FEquals _, None => false
  | FNotEquals want, Some v => negb (bool_decide (v = want))
  | FNotEquals _, None => true
  end.
Definition matches (reqs : list FieldRequirement) (fields : gmap bytes bytes) : bool := forallb (requirement_ok fields) reqs.
End FieldSelector.

(** ** Printing *)

Fixpoint join (sep : bytes) (l : list bytes) : bytes := match l with [] => [] | [x] => x | x :: l => x ++ sep ++ join sep l end.
Definition print_set (vs : list bytes) : bytes := str "(" ++ join (str ",") vs ++ str ")".
Definition print_requirement (r : LabelRequirement) : bytes :=
  match l_op r with
  | Equals v => l_key r ++ str "=" ++ v
  | NotEquals v => l_key r ++ str "!=" ++ v
  | In vs => l_key r ++ str " in " ++ print_set vs
  | NotIn vs => l_key r ++ str " notin " ++ print_set vs
  | Exists_ => l_key r
  | DoesNotExist => str "!" ++ l_key r
  end.
Definition print_selector (reqs : list LabelRequirement) : bytes := join (str ",") (print_requirement <$> reqs).

(** ** Reading back *)

(** Characters of keys and values: visible ASCII without the marks of the syntax *)
Definition visible (c : N) : Prop := 33 ≤ c ∧ c < 128.
Definition plain (c : N) : Prop := visible c ∧ c ≠ 33 ∧ c ≠ 40 ∧ c ≠ 41 ∧ c ≠ 44 ∧ c ≠ 61.
Definition word (s : bytes) : Prop := Forall plain s.
Definition good_op (o : LabelOperator) : Prop :=
  match o with
  | Equals v | NotEquals v => word v
  | In vs | NotIn vs => Forall (λ v, word v ∧ v ≠ []) vs
  | Exists_ | DoesNotExist => True
  end.
Definition good (r : LabelRequirement) : Prop := word (l_key r) ∧ l_key r ≠ [] ∧ good_op (l_op r).
Lemma word_not_elem s c : word s → ¬ plain c → c ∉ s.
Proof. intros W N I. unfold word in W. rewrite Forall_forall in W. by apply N, W. Qed.
Ltac marks := unfold plain, visible; lia.

(** Trimming *)
Lemma starts_other a w c l : a ≠ c → starts (a :: w) (c :: l) = None.
Proof. intros N. cbn [starts]. by rewrite (proj2 (N.eqb_neq a c) N). Qed.
Lemma strip_id fuel spaces c l : Forall (λ w, ∃ a w', w = a :: w' ∧ ¬ visible a) spaces → visible c → strip fuel spaces (c :: l) = c :: l.
Proof.
  intros F V. destruct fuel as [|fuel]; [done|]. cbn [strip]. assert (E : omap (λ w, starts w (c :: l)) spaces = []); [|by rewrite E].
  induction F as [|w ws (a & w' & -> & N) F IH]; [done|]. cbn [omap list_omap]. rewrite starts_other; [done|]. by intros ->.
Qed.
Lemma white_heads : Forall (λ w, ∃ a w', w = a :: w' ∧ ¬ visible a) WHITE_SPACE ∧ Forall (λ w, ∃ a w', w = a :: w' ∧ ¬ visible a) ((λ w, rev w) <$> WHITE_SPACE).
Proof. split; repeat (first [apply Forall_nil_2|apply Forall_cons_2; [eexists _, _; split; [reflexivity|unfold visible; lia]|]]). Qed.
Definition edged (s : bytes) : Prop := (∃ a t, s = a :: t ∧ visible a) ∧ ∃ t z, s = t ++ [z] ∧ visible z.
Lemma trim_edged s : edged s → trim s = s.
Proof.
  intros [(a & t & -> & A) (t' & z & E & Z)]. unfold trim. rewrite strip_id; [|apply white_heads|done]. cbv zeta. rewrite E, rev_unit, strip_id; [|apply white_heads|done].
  cbn [rev]. by rewrite rev_involutive.
Qed.
Lemma word_edged s : word s → s ≠ [] → edged s.
Proof.
  intros W N. split.
  - destruct s as [|a t]; [done|]. inversion W as [|? ? P]. exists a, t. split; [done|apply P].
  - destruct s as [|z t _] using rev_ind; [done|]. apply Forall_app in W as [_ W]. inversion W as [|? ? P]. exists t, z. split; [done|apply P].
Qed.
Lemma trim_word s : word s → trim s = s.
Proof. intros W. destruct (decide (s = [])) as [->|N]; [done|]. by apply trim_edged, word_edged. Qed.
Lemma edged_mid s m t : edged s → edged t → edged (s ++ m ++ t).
Proof.
  intros [(a & u & -> & A) _] [_ (v & z & -> & Z)]. split; [exists a, (u ++ m ++ v ++ [z]); by rewrite app_comm_cons|].
  exists ((a :: u) ++ m ++ v), z. by rewrite <- !app_assoc.
Qed.
(** Finding *)
Lemma find_sub_none a p s : a ∉ s → find_sub (a :: p) s = None.
Proof.
  induction s as [|c s IH]; intros N; cbn [find_sub]; [done|]. rewrite starts_other by set_solver. rewrite IH by set_solver. done.
Qed.
Lemma starts_app p s : starts p (p ++ s) = Some s.
Proof. induction p as [|a p IH]; [done|]. cbn [app starts]. by rewrite N.eqb_refl. Qed.
Lemma find_sub_at a p k v : a ∉ k → find_sub (a :: p) (k ++ (a :: p) ++ v) = Some (k, v).
Proof.
  induction k as [|c k IH]; intros N; cbn [app].
  - cbn [find_sub]. change (a :: p ++ v) with ((a :: p) ++ v). by rewrite starts_app.
  - cbn [find_sub]. rewrite starts_other by set_solver. change (a :: p ++ v) with ((a :: p) ++ v). rewrite IH by set_solver. done.
Qed.
Lemma find_sub_past a p k rest : a ∉ k → starts p rest = None → find_sub (a :: p) rest = None → find_sub (a :: p) (k ++ a :: rest) = None.
Proof.
  intros N S R. induction k as [|c k IH]; cbn [app find_sub].
  - cbn [starts]. by rewrite N.eqb_refl, S, R.
  - rewrite starts_other by set_solver. rewrite IH by set_solver. done.
Qed.
(** Splitting *)
Lemma split_word v s : 44 ∉ v → split 44 (v ++ 44 :: s) = v :: split 44 s.
Proof.
  induction v as [|c v IH]; intros N; cbn [app split]; [done|]. rewrite (proj2 (N.eqb_neq c 44)) by set_solver. by rewrite IH by set_solver.
Qed.
Lemma split_last v : 44 ∉ v → split 44 v = [v].
Proof. induction v as [|c v IH]; intros N; cbn [split]; [done|]. rewrite (proj2 (N.eqb_neq c 44)) by set_solver. by rewrite IH by set_solver. Qed.
Lemma split_join vs : vs ≠ [] → Forall (λ v, 44 ∉ v) vs → split 44 (join (str ",") vs) = vs.
Proof.
  intros N F. induction F as [|v vs V F IH]; [done|]. destruct vs as [|w vs]; [by apply split_last|].
  change (join (str ",") (v :: w :: vs)) with (v ++ 44 :: join (str ",") (w :: vs)). rewrite split_word by done. by rewrite IH.
Qed.
Lemma join_not_elem c vs : c ≠ 44 → Forall (λ v, c ∉ v) vs → c ∉ join (str ",") vs.
Proof.
  intros N F. induction F as [|v vs V F IH]; [set_solver|]. destruct vs as [|w vs]; [done|].
  change (join (str ",") (v :: w :: vs)) with (v ++ 44 :: join (str ",") (w :: vs)). set_solver.
Qed.
Lemma words_not_elem c vs : ¬ plain c → Forall (λ v, word v ∧ v ≠ []) vs → Forall (λ v, c ∉ v) vs.
Proof. intros P F. eapply Forall_impl; [exact F|]. intros v [W _]. by apply word_not_elem. Qed.
Lemma parens j : let s := 40 :: j ++ [41] in head s = Some 40 ∧ last s = Some 41 ∧ take (length s - 2) (drop 1 s) = j.
Proof.
  cbn zeta. split; [done|]. split; [apply (last_snoc 41 (40 :: j))|]. cbn [length drop]. rewrite length_app. cbn [length].
  replace (S (length j + 1) - 2)%nat with (length j) by lia. by rewrite drop_0, take_app_length.
Qed.
Lemma trim_words vs : Forall (λ v, word v ∧ v ≠ []) vs → trim <$> vs = vs.
Proof. induction 1 as [|v vs [W _] F IH]; [done|]. rewrite fmap_cons, trim_word, IH by done. done. Qed.
Lemma parse_print_set vs : Forall (λ v, word v ∧ v ≠ []) vs → parse_value_set (trim (print_set vs)) = Ok vs.
Proof.
  intros F. change (print_set vs) with (40 :: join (str ",") vs ++ [41]). assert (E : edged (40 :: join (str ",") vs ++ [41])).
  { split; [exists 40, (join (str ",") vs ++ [41])|exists (40 :: join (str ",") vs), 41]; (split; [done|unfold visible; lia]). }
  unfold parse_value_set, ends_with_paren. rewrite !(trim_edged _ E). destruct (parens (join (str ",") vs)) as (H & L & T). cbv zeta in *.
  rewrite H, L, T, !bool_decide_eq_true_2 by done. cbn [negb orb]. f_equal.
  destruct (decide (vs = [])) as [->|N]; [done|]. rewrite split_join by first [done|apply words_not_elem; [marks|done]].
  rewrite trim_words by done. apply filter_all. eapply Forall_impl; [exact F|]. by intros v [].
Qed.
(** One requirement *)
Lemma key_edged r : good r → edged (l_key r).
Proof. intros (W & N & _). by apply word_edged. Qed.
Lemma print_edged r : good r → edged (print_requirement r).
Proof.
  intros G. pose proof (key_edged r G) as K. destruct G as (W & N & O). unfold print_requirement, good_op in *. destruct (l_op r) as [v|v|vs|vs| |].
  - destruct (decide (v = [])) as [->|V]; [|apply edged_mid; [done|by apply word_edged]]. destruct K as [(a & t & -> & A) _].
    split; [exists a, (t ++ str "="); done|exists (a :: t), 61; split; [done|unfold visible; lia]].
  - destruct (decide (v = [])) as [->|V]; [|apply edged_mid; [done|by apply word_edged]]. destruct K as [(a & t & -> & A) _].
    split; [exists a, (t ++ str "!="); done|exists ((a :: t) ++ str "!"), 61; split; [by rewrite <- app_assoc|unfold visible; lia]].
  - apply edged_mid; [done|]. split; [exists 40, (join (str ",") vs ++ [41])|exists (40 :: join (str ",") vs), 41]; (split; [done|unfold visible; lia]).
  - apply edged_mid; [done|]. split; [exists 40, (join (str ",") vs ++ [41])|exists (40 :: join (str ",") vs), 41]; (split; [done|unfold visible; lia]).
  - done.
  - destruct K as [_ (t & z & -> & Z)]. split; [exists 33, (t ++ [z]); split; [done|unfold visible; lia]|exists (33 :: t), z; done].
Qed.
Lemma set_no_space vs : Forall (λ v, word v ∧ v ≠ []) vs → 32 ∉ print_set vs.
Proof.
  intros F. assert (32 ∉ join (str ",") vs) by (apply join_not_elem; [done|apply words_not_elem; [marks|done]]).
  change (print_set vs) with (40 :: join (str ",") vs ++ [41]). rewrite not_elem_of_cons, not_elem_of_app, list_elem_of_singleton. auto.
Qed.
Lemma parse_printed r : good r → parse_label_part (print_requirement r) = Ok [r].
Proof.
  intros G. unfold parse_label_part. rewrite (trim_edged _ (print_edged r G)). destruct r as [k o]. destruct G as (W & N & O). cbn [l_key l_op] in *.
  assert (K : ∀ c, ¬ plain c → c ∉ k) by (intros c; by apply word_not_elem). pose proof (trim_word k W) as TK. unfold print_requirement, good_op in *. cbn [l_key l_op].
  change (str " notin ") with (32 :: str "notin "). change (str " in ") with (32 :: str "in "). change (str "!=") with [33; 61]. change (str "=") with [61].
  destruct o as [v|v|vs|vs| |].
  - assert (V : ∀ c, ¬ plain c → c ∉ v) by (intros c; by apply word_not_elem).
    assert (D : ∀ c, ¬ plain c → c ≠ 61 → c ∉ k ++ [61] ++ v) by (intros c P E; rewrite !not_elem_of_app, list_elem_of_singleton; auto).
    rewrite (find_sub_none 32), (find_sub_none 32), (find_sub_none 33) by (apply D; [marks|done]).
    rewrite (find_sub_at 61 [] k v) by (apply K; marks). by rewrite TK, (trim_word v).
  - assert (V : ∀ c, ¬ plain c → c ∉ v) by (intros c; by apply word_not_elem).
    assert (D : 32 ∉ k ++ [33; 61] ++ v) by (rewrite !not_elem_of_app; split; [apply K; marks|split; [set_solver|apply V; marks]]).
    rewrite !(find_sub_none 32) by done. rewrite (find_sub_at 33 [61] k v) by (apply K; marks). by rewrite TK, (trim_word v).
  - assert (P : find_sub (32 :: str "notin ") (k ++ (32 :: str "in ") ++ print_set vs) = None).
    { apply (find_sub_past 32 (str "notin ") k (str "in" ++ 32 :: print_set vs)); [apply K; marks|done|].
      apply find_sub_past; [set_solver|done|]. by apply find_sub_none, set_no_space. }
    rewrite P, (find_sub_at 32 (str "in ") k) by (apply K; marks). by rewrite parse_print_set, TK.
  - rewrite (find_sub_at 32 (str "notin ") k) by (apply K; marks). by rewrite parse_print_set, TK.
  - rewrite !(find_sub_none 32), (find_sub_none 33), (find_sub_none 61) by (apply K; marks). destruct k as [|c k]; [done|].
    change (str "!") with [33]. rewrite (starts_other 33); [done|]. intros <-. by apply (K 33); [marks|left].
  - change (str "!") with [33]. change ([33] ++ k) with (33 :: k).
    assert (D : ∀ c, ¬ plain c → c ≠ 33 → c ∉ 33 :: k) by (intros c P E; rewrite not_elem_of_cons; auto).
    rewrite (find_sub_none 32), (find_sub_none 32) by (apply D; [marks|done]).
    assert (P : find_sub [33; 61] (33 :: k) = None).
    { apply (find_sub_past 33 [61] [] k); [set_solver| |apply find_sub_none, K; marks].
      destruct k as [|c k]; [done|]. apply starts_other. intros <-. by apply (K 61); [marks|left]. }
    rewrite P, (find_sub_none 61) by (apply D; [marks|done]). change (starts [33] (33 :: k)) with (Some k). cbv iota. by rewrite TK.
Qed.
(** A list of them *)
Definition closed (p : bytes) : Prop := ∀ s buf, split_commas (p ++ s) 0 buf = split_commas s 0 (buf ++ p).
Lemma closed_app p q : closed p → closed q → closed (p ++ q).
Proof. intros P Q s buf. by rewrite <- app_assoc, P, Q, app_assoc. Qed.
Lemma split_quiet p d s buf : 40 ∉ p → 41 ∉ p → (44 ∉ p ∨ d ≠ 0%Z) → split_commas (p ++ s) d buf = split_commas s d (buf ++ p).
Proof.
  revert buf. induction p as [|c p IH]; intros buf A B C; [by rewrite app_nil_r|]. cbn [app split_commas].
  rewrite (proj2 (N.eqb_neq c 40)), (proj2 (N.eqb_neq c 41)) by set_solver.
  assert (E : (c =? 44) && bool_decide (d = 0%Z) = false).
  { apply andb_false_iff. destruct C as [C|C]; [left; apply N.eqb_neq; set_solver|right; by apply bool_decide_eq_false]. }
  rewrite E, IH by set_solver. by rewrite <- app_assoc.
Qed.
Lemma closed_quiet p : 40 ∉ p → 41 ∉ p → 44 ∉ p → closed p.
Proof. intros A B C s buf. apply split_quiet; auto. Qed.
Lemma closed_word p : word p → closed p.
Proof. intros W. apply closed_quiet; apply word_not_elem; [done|marks..|done|marks|done|marks]. Qed.
Lemma closed_set vs : Forall (λ v, word v ∧ v ≠ []) vs → closed (print_set vs).
Proof.
  intros F s buf. change (print_set vs) with (40 :: join (str ",") vs ++ [41]). rewrite <- app_comm_cons, <- app_assoc. cbn [split_commas N.eqb Pos.eqb].
  rewrite split_quiet; [|apply join_not_elem; [done|apply words_not_elem; [marks|done]]..|by right]. cbn [app split_commas N.eqb Pos.eqb].
  f_equal. by rewrite <- !app_assoc.
Qed.
Lemma closed_print r : good r → closed (print_requirement r).
Proof.
  intros (W & N & O). unfold print_requirement, good_op in *. destruct (l_op r) as [v|v|vs|vs| |]; repeat first [by apply closed_word|by apply closed_set|apply closed_app];
    apply closed_quiet; vm_compute; intros H; repeat (apply elem_of_cons in H as [H|H]; [discriminate H|]); by apply elem_of_nil in H.
Qed.
Lemma split_parts ps : Forall closed ps → Forall edged ps → split_top_level_commas (join (str ",") ps) = ps.
Proof.
  unfold split_top_level_commas. intros C E. induction C as [|p ps P C IH]; [done|]. inversion E as [|? ? [(a & t & -> & _) _] E']; subst. destruct ps as [|q ps].
  - cbn [join]. rewrite <- (app_nil_r (a :: t)) at 1. rewrite P. cbn [split_commas app]. done.
  - change (join (str ",") ((a :: t) :: q :: ps)) with ((a :: t) ++ 44 :: join (str ",") (q :: ps)). rewrite P. cbn [split_commas N.eqb Pos.eqb andb app].
    rewrite bool_decide_eq_true_2 by done. by rewrite IH.
Qed.
Lemma edged_join ps : ps ≠ [] → Forall edged ps → edged (join (str ",") ps).
Proof.
  intros N E. induction E as [|p ps P E IH]; [done|]. destruct ps as [|q ps]; [done|].
  change (join (str ",") (p :: q :: ps)) with (p ++ str "," ++ join (str ",") (q :: ps)). apply edged_mid; [done|]. by apply IH.
Qed.
Lemma parse_all rs : Forall good rs → parse_parts parse_label_part (print_requirement <$> rs) = Ok rs.
Proof. induction 1 as [|r rs G F IH]; [done|]. rewrite fmap_cons. cbn [parse_parts]. by rewrite parse_printed, IH. Qed.

(** C34: every list of requirements whose keys and values are of visible ASCII characters other
    than the marks [,], [(], [)], [!] and [=], keys and listed values not empty, is read back
    from its printed form. *)
Theorem selector_roundtrip rs : Forall good rs → LabelSelector.parse (print_selector rs) = Ok rs.
Proof.
  intros G. assert (E : Forall edged (print_requirement <$> rs)) by (apply Forall_fmap; eapply Forall_impl; [exact G|]; intros r; apply print_edged).
  assert (C : Forall closed (print_requirement <$> rs)) by (apply Forall_fmap; eapply Forall_impl; [exact G|]; intros r; apply closed_print).
  destruct (decide (rs = [])) as [->|N]; [done|]. unfold LabelSelector.parse, print_selector.
  assert (J : edged (join (str ",") (print_requirement <$> rs))) by (apply edged_join; [by destruct rs|done]).
  rewrite (trim_edged _ J), bool_decide_eq_false_2, split_parts by first [done|by destruct J as [(a & t & -> & _) _]]. by apply parse_all.
Qed.
Module SelectorWitness.
Definition reqs : list LabelRequirement :=
  [mkLabelReq (str "env") (Equals (str "prod")); mkLabelReq (str "tier") (NotIn [str "a"; str "b"]); mkLabelReq (str "x") DoesNotExist; mkLabelReq (str "y") (In [])].
End SelectorWitness.
Lemma selector_roundtrip_witness :
  print_selector SelectorWitness.reqs = str "env=prod,tier notin (a,b),!x,y in ()" ∧ LabelSelector.parse (print_selector SelectorWitness.reqs) = Ok SelectorWitness.reqs.
Proof.
  split; [vm_compute; reflexivity|]. apply selector_roundtrip. unfold SelectorWitness.reqs, good, good_op, word, plain, visible. cbn [l_key l_op].
  repeat first [apply Forall_nil_2|apply Forall_cons_2|split|discriminate|lia|exact I|vm_compute; discriminate].
Defined.

(** ** Spellings that are read as something else *)

Lemma double_equals : LabelSelector.parse (str "env==prod") = Ok [mkLabelReq (str "env") (Equals (str "=prod"))].
Proof. vm_compute. reflexivity. Qed.
Lemma set_without_space : LabelSelector.parse (str "env in(a,b)") = Ok [mkLabelReq (str "env in(a,b)") Exists_].
Proof. vm_compute. reflexivity. Qed.
