(* ===== verification/SchedCache.v ===== *)
(** * The cache of cave-scheduler

    crates/compute/cave-scheduler/src/cache.rs: the pods the scheduler has placed, assumed or
    bound, and the resources they take on each node; with the resources of
    crates/compute/cave-scheduler/src/models.rs.

    Instants and durations are in nanoseconds.  Sums wrap at 64 bits as in a release build,
    [saturating_sub] is subtraction on [N].  The stale pods of a cleanup are forgotten in the
    order of the map; that order does not matter for what is kept.

    As long as what was ever assumed fits 64 bits, the tally of a node is the sum over the pods
    on it, whatever was bound, forgotten or reclaimed ([tally_exact]). *)

From S2P Require Import Prelude Bytes.

(** ** models.rs *)

Record ResourceCapacity : Type := mkCapacity { cap_cpu : N; cap_mem : N; cap_pods : N; cap_ephemeral : N }.
Record ResourceRequest : Type := mkRequest { cpu_millicores : N; memory_bytes : N; ephemeral_storage_bytes : N; extended : gmap bytes N }.
Definition default_request : ResourceRequest := mkRequest 0 0 0 ∅.
Module ResourceCapacity.
Definition has_room_for (c : ResourceCapacity) (r : ResourceRequest) : bool := (cpu_millicores r <=? cap_cpu c) && (memory_bytes r <=? cap_mem c).
Definition subtract (c : ResourceCapacity) (r : ResourceRequest) : ResourceCapacity :=
  mkCapacity (cap_cpu c - cpu_millicores r) (cap_mem c - memory_bytes r) (cap_pods c - 1) (cap_ephemeral c).
Definition add (c : ResourceCapacity) (r : ResourceRequest) : ResourceCapacity :=
  mkCapacity (cap_cpu c +w cpu_millicores r) (cap_mem c +w memory_bytes r) (cap_pods c +w 1) (cap_ephemeral c).
End ResourceCapacity.

(** ** cache.rs *)

Abbreviation Uuid := N (only parsing).
Record CachedPod : Type := mkPod { uid : Uuid; p_name : bytes; p_namespace : bytes; node_name : bytes; resources : ResourceRequest; assumed_at : option Z }.
Definition is_assumed (p : CachedPod) : bool := bool_decide (is_Some (assumed_at p)).
Record CacheConfig : Type := mkConfig { assumed_ttl : Z }.
Definition config_defaults : CacheConfig := mkConfig (30 * 1000000000).
Inductive CacheError : Type := PodAlreadyKnown (u : Uuid) | PodNotFound (u : Uuid) | PodNotAssumed (u : Uuid) | NodeNotMatched (expected got : bytes).
Record SchedulerCache : Type := mkCache { pods : gmap Uuid CachedPod; reserved : gmap bytes ResourceRequest }.
Module SchedulerCache.
Definition new : SchedulerCache := mkCache ∅ ∅.
Definition add_to_node_reserved (node : bytes) (r : ResourceRequest) (m : gmap bytes ResourceRequest) : gmap bytes ResourceRequest :=
  let e := default default_request (m !! node) in
  <[node := mkRequest (cpu_millicores e +w cpu_millicores r) (memory_bytes e +w memory_bytes r) (ephemeral_storage_bytes e) (extended e)]> m.
Definition subtract_from_node_reserved (node : bytes) (r : ResourceRequest) (m : gmap bytes ResourceRequest) : gmap bytes ResourceRequest :=
  match m !! node with
  | Some e =>
      let cpu := cpu_millicores e - cpu_millicores r in
      let mem := memory_bytes e - memory_bytes r in
      if (cpu =? 0) && (mem =? 0) then delete node m else <[node := mkRequest cpu mem (ephemeral_storage_bytes e) (extended e)]> m
  | None => m
  end.
Definition assume_pod (c : SchedulerCache) (p : CachedPod) (now : Z) : result CacheError unit * SchedulerCache :=
  if bool_decide (is_Some (pods c !! uid p)) then (Err (PodAlreadyKnown (uid p)), c)
  else
    let p := mkPod (uid p) (p_name p) (p_namespace p) (node_name p) (resources p) (Some now) in
    (Ok tt, mkCache (<[uid p := p]> (pods c)) (add_to_node_reserved (node_name p) (resources p) (reserved c))).
Definition finish_binding (c : SchedulerCache) (u : Uuid) (node : bytes) : result CacheError unit * SchedulerCache :=
  match pods c !! u with
  | None => (Err (PodNotFound u), c)
  | Some p =>
      if negb (is_assumed p) then (Err (PodNotAssumed u), c)
      else if negb (bool_decide (node_name p = node)) then (Err (NodeNotMatched (node_name p) node), c)
      else (Ok tt, mkCache (<[u := mkPod (uid p) (p_name p) (p_namespace p) (node_name p) (resources p) None]> (pods c)) (reserved c))
  end.
Definition forget_pod (c : SchedulerCache) (u : Uuid) : result CacheError CachedPod * SchedulerCache :=
  match pods c !! u with
  | None => (Err (PodNotFound u), c)
  | Some p => (Ok p, mkCache (delete u (pods c)) (subtract_from_node_reserved (node_name p) (resources p) (reserved c)))
  end.
Definition remove_pod (c : SchedulerCache) (u : Uuid) : result CacheError CachedPod * SchedulerCache :=
  match pods c !! u with
  | None => (Err (PodNotFound u), c)
  | Some p => (Ok p, mkCache (delete u (pods c)) (subtract_from_node_reserved (node_name p) (resources p) (reserved c)))
  end.
Definition stale (now : Z) (cfg : CacheConfig) (p : CachedPod) : bool :=
  match assumed_at p with Some t => (assumed_ttl cfg <=? now - t)%Z | None => false end.
Definition cleanup_assumed_pods (c : SchedulerCache) (now : Z) (cfg : CacheConfig) : list Uuid * SchedulerCache :=
  let st := (filter (λ e, stale now cfg e.2 = true) (map_to_list (pods c))).*1 in
  (merge_sort N.le st, foldl (λ c u, (forget_pod c u).2) c st).
Definition node_reserved (c : SchedulerCache) (node : bytes) : ResourceRequest := default default_request (reserved c !! node).
Definition pod_count (c : SchedulerCache) : nat := size (pods c).
Definition assumed_count (c : SchedulerCache) : nat := length (filter (λ e, is_assumed e.2 = true) (map_to_list (pods c))).
Definition node_pod_count (c : SchedulerCache) (node : bytes) : nat := length (filter (λ e, node_name e.2 = node) (map_to_list (pods c))).
End SchedulerCache.
Import SchedulerCache.

(** ** The tally of a node *)

(** The sum of [f] over the pods of a node *)
Definition sum_on (f : ResourceRequest → N) (node : bytes) (m : gmap Uuid CachedPod) : N :=
  map_fold (λ _ p acc, if bool_decide (node_name p = node) then f (resources p) + acc else acc) 0 m.
Lemma sum_on_insert f node (m : gmap Uuid CachedPod) u p : m !! u = None →
  sum_on f node (<[u := p]> m) = (if bool_decide (node_name p = node) then f (resources p) else 0) + sum_on f node m.
Proof.
  intros N. unfold sum_on. rewrite map_fold_insert_L; [by case_bool_decide| |done]. intros. repeat case_bool_decide; lia.
Qed.
Lemma sum_on_delete f node (m : gmap Uuid CachedPod) u p : m !! u = Some p →
  sum_on f node m = (if bool_decide (node_name p = node) then f (resources p) else 0) + sum_on f node (delete u m).
Proof. intros L. rewrite <- (insert_delete_id m u p L) at 1. by rewrite sum_on_insert by apply lookup_delete_eq. Qed.
Inductive Op : Type :=
| Assume (p : CachedPod) (now : Z) | Finish (u : Uuid) (node : bytes) | Forget (u : Uuid) | Remove (u : Uuid) | Cleanup (now : Z) (cfg : CacheConfig).
Definition call (c : SchedulerCache) (o : Op) : SchedulerCache :=
  match o with
  | Assume p now => (assume_pod c p now).2
  | Finish u node => (finish_binding c u node).2
  | Forget u => (forget_pod c u).2
  | Remove u => (remove_pod c u).2
  | Cleanup now cfg => (cleanup_assumed_pods c now cfg).2
  end.
(** What was ever assumed *)
Fixpoint ever (f : ResourceRequest → N) (os : list Op) : N :=
  match os with [] => 0 | Assume p _ :: os => f (resources p) + ever f os | _ :: os => ever f os end.
Definition res_at (m : gmap bytes ResourceRequest) (node : bytes) : ResourceRequest := default default_request (m !! node).
Definition tallied (cpu mem : N) : ResourceRequest := mkRequest cpu mem 0 ∅.
Lemma res_add node r m n cpu mem : res_at m n = tallied cpu mem → cpu + cpu_millicores r < u64_modulus → mem + memory_bytes r < u64_modulus →
  res_at (add_to_node_reserved node r m) n = if bool_decide (node = n) then tallied (cpu_millicores r + cpu) (memory_bytes r + mem) else tallied cpu mem.
Proof.
  unfold res_at, add_to_node_reserved. intros E C M. case_bool_decide as D.
  - subst. rewrite lookup_insert_eq, E. cbn. by rewrite !u64_add_small, (N.add_comm cpu), (N.add_comm mem) by done.
  - by rewrite lookup_insert_ne.
Qed.
Lemma res_subtract node r m n cpu mem : res_at m n = tallied cpu mem →
  res_at (subtract_from_node_reserved node r m) n = if bool_decide (node = n) then tallied (cpu - cpu_millicores r) (mem - memory_bytes r) else tallied cpu mem.
Proof.
  unfold res_at, subtract_from_node_reserved. intros E. case_bool_decide as D.
  - subst. destruct (m !! n) as [e|] eqn:L.
    + change (e = tallied cpu mem) in E. subst e. cbn [tallied cpu_millicores memory_bytes ephemeral_storage_bytes extended].
      destruct (N.eqb_spec (cpu - cpu_millicores r) 0) as [Z1|], (N.eqb_spec (mem - memory_bytes r) 0) as [Z2|]; cbn [andb];
        rewrite ?lookup_insert_eq, ?lookup_delete_eq; try done. cbn. by rewrite Z1, Z2.
    + rewrite L. injection E as <- <-. by rewrite !N.sub_0_l.
  - destruct (m !! node); [|done]. destruct (_ && _); [by rewrite lookup_delete_ne|by rewrite lookup_insert_ne].
Qed.
(** The tally is exact, and [cpu] and [mem] more can be assumed. *)
Definition exact (cpu mem : N) (c : SchedulerCache) : Prop := ∀ n,
  node_reserved c n = tallied (sum_on cpu_millicores n (pods c)) (sum_on memory_bytes n (pods c))
  ∧ sum_on cpu_millicores n (pods c) + cpu < u64_modulus ∧ sum_on memory_bytes n (pods c) + mem < u64_modulus.
Lemma exact_weaken cpu mem cpu' mem' c : cpu' ≤ cpu → mem' ≤ mem → exact cpu mem c → exact cpu' mem' c.
Proof. intros A B E n. destruct (E n) as (? & ? & ?). repeat split; [done|lia..]. Qed.
Lemma forget_exact cpu mem c u : exact cpu mem c → exact cpu mem (forget_pod c u).2.
Proof.
  intros E n. unfold forget_pod. destruct (pods c !! u) as [p|] eqn:L; [|apply E]. destruct (E n) as (R & C & M). cbn [snd node_reserved pods reserved].
  rewrite (sum_on_delete cpu_millicores n _ _ _ L) in R, C. rewrite (sum_on_delete memory_bytes n _ _ _ L) in R, M.
  split; [|lia]. etrans; [exact (res_subtract (node_name p) (resources p) _ _ _ _ R)|]. case_bool_decide; [|by rewrite !N.add_0_l]. f_equal; lia.
Qed.
Lemma assume_exact cpu mem c p now : exact (cpu_millicores (resources p) + cpu) (memory_bytes (resources p) + mem) c → exact cpu mem (assume_pod c p now).2.
Proof.
  intros E. unfold assume_pod. case_bool_decide as K; [by eapply exact_weaken; [..|exact E]; lia|]. intros n. destruct (E n) as (R & C & M).
  apply eq_None_not_Some in K. cbn [snd node_reserved pods reserved uid node_name resources]. rewrite !sum_on_insert by done. cbn [node_name resources].
  split; [|case_bool_decide; lia].
  etrans; [apply (res_add (node_name p) (resources p) _ _ _ _ R); lia|]. by case_bool_decide.
Qed.
Lemma finish_exact cpu mem c u node : exact cpu mem c → exact cpu mem (finish_binding c u node).2.
Proof.
  intros E. unfold finish_binding. destruct (pods c !! u) as [p|] eqn:L; [|done]. destruct (is_assumed p); [|done]. cbn [negb].
  case_bool_decide; [|done]. intros n. destruct (E n) as (R & C & M). cbn [negb snd pods].
  assert (S : ∀ f, sum_on f n (<[u := mkPod (uid p) (p_name p) (p_namespace p) (node_name p) (resources p) None]> (pods c)) = sum_on f n (pods c)).
  { intros f. rewrite <- insert_delete_eq, sum_on_insert by apply lookup_delete_eq. by rewrite (sum_on_delete f n (pods c) u p L). }
  by rewrite !S.
Qed.
Lemma cleanup_exact cpu mem c us : exact cpu mem c → exact cpu mem (foldl (λ c u, (forget_pod c u).2) c us).
Proof. revert c. induction us as [|u us IH]; intros c E; [done|]. by apply IH, forget_exact. Qed.
Lemma calls_exact c os : exact (ever cpu_millicores os) (ever memory_bytes os) c → exact 0 0 (foldl call c os).
Proof.
  revert c. induction os as [|o os IH]; intros c E; [done|]. cbn [foldl]. apply IH.
  destruct o; cbn [call ever] in *; [by apply assume_exact|by apply finish_exact|by apply forget_exact|by apply forget_exact|by apply cleanup_exact].
Qed.

Module CacheWitness.
Definition pod (u : Uuid) (node : bytes) (cpu mem : N) : CachedPod := mkPod u (str "p") (str "ns") node (mkRequest cpu mem 7 ∅) None.
Definition ops : list Op :=
  [Assume (pod 1 (str "a") 100 10) 0; Assume (pod 2 (str "a") 50 5) 1; Assume (pod 3 (str "b") 8 8) 2; Finish 2 (str "a");
   Assume (pod 2 (str "b") 9 9) 3; Cleanup 30000000001 config_defaults; Forget 9].
End CacheWitness.

(** [forget_pod] is for assumed pods, but takes a bound one as well. *)
Lemma bound_pod_forgotten :
  let c := (finish_binding (assume_pod new (CacheWitness.pod 1 (str "a") 100 10) 0).2 1 (str "a")).2 in
  (is_assumed <$> pods c !! 1, node_reserved (forget_pod c 1).2 (str "a"), pod_count (forget_pod c 1).2) = (Some false, default_request, 0%nat).
Proof. vm_compute. reflexivity. Qed.
