(* ===== verification/SchedPreempt.v ===== *)
(** * Preemption in cave-scheduler

    crates/compute/cave-scheduler/src/preempt.rs, the choice of a node and of the pods to evict
    from it, and crates/compute/cave-scheduler/src/default_preemption.rs, the plugin around it
    with its queue of evictions and its recovery.

    Of pods and nodes the fields the code reads are modelled.  Sums wrap at 64 bits;
    [saturating_sub] is subtraction on [N]; the sorts are stable.  A call holds each lock it
    takes to its end.

    Preemption finds a node whenever some set of admissible victims makes room on one, evicts
    only admissible pods and no more than the order it tries them in needs, and prefers the node
    with the fewest victims ([preempt_spec]).  An eviction is never lost: each task is pending,
    completed, failed or handed back ([evictions_conserved]). *)

From S2P Require Import Prelude Bytes SchedCache.

(** ** preempt.rs *)

Record Pod : Type := mkPod { name : bytes; namespace : bytes; tenant_id : bytes; uid : bytes; resources : ResourceRequest; node_selector : gmap bytes bytes; priority : Z }.
Record Node : Type := mkNode { n_name : bytes; allocatable : ResourceCapacity; allocated : ResourceCapacity }.
Record ClusterSnapshot : Type := mkSnapshot { nodes : list Node; pods_by_node : gmap bytes (list Pod) }.
Definition pods_on (s : ClusterSnapshot) (node : bytes) : list Pod := default [] (pods_by_node s !! node).
Record PodDisruptionBudget : Type := mkPdb {
  b_name : bytes; b_namespace : bytes; b_tenant : bytes; selector : gmap bytes bytes; min_available : N; current_healthy : N }.
Definition would_violate (b : PodDisruptionBudget) (victims_to_evict : N) : bool := current_healthy b - victims_to_evict <? min_available b.
Definition pdb_matches (b : PodDisruptionBudget) (p : Pod) : bool :=
  if negb (bool_decide (namespace p = b_namespace b)) || negb (bool_decide (tenant_id p = b_tenant b)) then false
  else forallb (λ e, bool_decide (node_selector p !! e.1 = Some e.2)) (map_to_list (selector b)).
Record PreemptionResult : Type := mkResult { nominated_node_name : bytes; victims : list Pod; pdb_violations : N }.
Definition eligible (preemptor : Pod) (p : Pod) : bool := bool_decide (priority p < priority preemptor)%Z && bool_decide (tenant_id p = tenant_id preemptor).
(** Lowest priority first, then the larger share of the processor *)
Definition victim_le (a b : Pod) : bool :=
  bool_decide (priority a < priority b)%Z || bool_decide (priority a = priority b) && (cpu_millicores (resources b) <=? cpu_millicores (resources a)).
Definition candidates (preemptor : Pod) (s : ClusterSnapshot) (node : Node) : list Pod :=
  sort_by victim_le (filter (λ p, eligible preemptor p = true) (pods_on s (n_name node))).
Definition violates (pdbs : list PodDisruptionBudget) (v : Pod) : bool := existsb (λ b, would_violate b 1) (filter (λ b, pdb_matches b v = true) pdbs).
Definition avail_cpu (node : Node) : N := cap_cpu (allocatable node) - cap_cpu (allocated node).
Definition avail_mem (node : Node) : N := cap_mem (allocatable node) - cap_mem (allocated node).
Definition fits (need : ResourceRequest) (node : Node) (freed_cpu freed_mem : N) : bool :=
  (cpu_millicores need <=? avail_cpu node +w freed_cpu) && (memory_bytes need <=? avail_mem node +w freed_mem).
Fixpoint pick (pdbs : list PodDisruptionBudget) (need : ResourceRequest) (node : Node) (cs : list Pod) (freed_cpu freed_mem : N) (vs : list Pod) (viol : N) : N * N * list Pod * N :=
  match cs with
  | [] => (freed_cpu, freed_mem, vs, viol)
  | v :: cs =>
      if fits need node freed_cpu freed_mem then (freed_cpu, freed_mem, vs, viol)
      else if violates pdbs v then pick pdbs need node cs freed_cpu freed_mem vs (viol + 1)
      else pick pdbs need node cs (freed_cpu +w cpu_millicores (resources v)) (freed_mem +w memory_bytes (resources v)) (vs ++ [v]) viol
  end.
(** The body of the loop over the nodes *)
Definition plan_on (preemptor : Pod) (s : ClusterSnapshot) (pdbs : list PodDisruptionBudget) (node : Node) : option PreemptionResult :=
  let need := resources preemptor in
  let '(freed_cpu, freed_mem, vs, viol) := pick pdbs need node (candidates preemptor s node) 0 0 [] 0 in
  if fits need node freed_cpu freed_mem then Some (mkResult (n_name node) vs viol) else None.
Definition better (a b : PreemptionResult) : bool :=
  (vlen (victims a) <? vlen (victims b)) || (vlen (victims a) =? vlen (victims b)) && (pdb_violations a <? pdb_violations b).
Definition keep_best (best : option PreemptionResult) (candidate : option PreemptionResult) : option PreemptionResult :=
  match candidate with
  | None => best
  | Some c => Some (match best with None => c | Some prev => if better c prev then c else prev end)
  end.
Definition node_le (a b : Node) : bool := bool_decide (bytes_le (n_name a) (n_name b)).
Definition preempt (preemptor : Pod) (s : ClusterSnapshot) (pdbs : list PodDisruptionBudget) : option PreemptionResult :=
  foldl (λ best node, keep_best best (plan_on preemptor s pdbs node)) None (sort_by node_le (nodes s)).

(** ** default_preemption.rs *)

Record DefaultPreemptionArgs : Type := mkArgs { min_candidate_nodes_percentage : N; min_candidate_nodes_absolute : N; dry_run : bool; min_evictable_priority : option Z }.
Definition default_args : DefaultPreemptionArgs := mkArgs 10 100 false None.
Module NominatedNodeMap.
Definition nominate (m : gmap bytes bytes) (pod_uid node : bytes) : gmap bytes bytes := <[pod_uid := node]> m.
Definition clear (m : gmap bytes bytes) (pod_uid : bytes) : gmap bytes bytes := delete pod_uid m.
End NominatedNodeMap.
Record EvictionTask : Type := mkTask { victim_uid : bytes; victim_namespace : bytes; victim_name : bytes; t_node_name : bytes; preemptor_uid : bytes }.
Record AsyncPreemptHandle : Type := mkHandle { pending : list EvictionTask; completed : list EvictionTask; failed : list EvictionTask }.
Module AsyncPreemptHandle.
Definition new : AsyncPreemptHandle := mkHandle [] [] [].
Definition enqueue (h : AsyncPreemptHandle) (t : EvictionTask) : AsyncPreemptHandle := mkHandle (pending h ++ [t]) (completed h) (failed h).
Definition dequeue (h : AsyncPreemptHandle) : option EvictionTask * AsyncPreemptHandle :=
  match pending h with
  | [] => (None, h)
  | t :: rest => (Some t, mkHandle rest (completed h ++ [t]) (failed h))
  end.
(** [position] and [remove] *)
Fixpoint remove_victim (u : bytes) (ts : list EvictionTask) : option (EvictionTask * list EvictionTask) :=
  match ts with
  | [] => None
  | t :: ts => if bool_decide (victim_uid t = u) then Some (t, ts) else (λ p, (p.1, t :: p.2)) <$> remove_victim u ts
  end.
Definition mark_failed (h : AsyncPreemptHandle) (u : bytes) : AsyncPreemptHandle :=
  match remove_victim u (pending h) with
  | Some (t, rest) => mkHandle rest (completed h) (failed h ++ [t])
  | None => h
  end.
Definition take_failed (h : AsyncPreemptHandle) : list EvictionTask * AsyncPreemptHandle := (failed h, mkHandle (pending h) (completed h) []).
End AsyncPreemptHandle.
Record Plugin : Type := mkPlugin { nominated : gmap bytes bytes; async_handle : AsyncPreemptHandle }.
Definition drain_step (acc : gset bytes * gmap bytes bytes) (t : EvictionTask) : gset bytes * gmap bytes bytes :=
  let '(cleared, nominated) := acc in
  if bool_decide (preemptor_uid t ∈ cleared) then (cleared, nominated) else ({[preemptor_uid t]} ∪ cleared, NominatedNodeMap.clear nominated (preemptor_uid t)).
Definition drain_failed (p : Plugin) : list EvictionTask * Plugin :=
  let '(fs, h) := AsyncPreemptHandle.take_failed (async_handle p) in (fs, mkPlugin (foldl drain_step (∅, nominated p) fs).2 h).
Definition preempt_for (args : DefaultPreemptionArgs) (pdbs : list PodDisruptionBudget) (preemptor : Pod) (s : ClusterSnapshot) : option PreemptionResult :=
  raw ← preempt preemptor s pdbs;
  match min_evictable_priority args with
  | Some min_prio => if existsb (λ v, bool_decide (priority v < min_prio)%Z) (victims raw) then None else Some raw
  | None => Some raw
  end.
Definition task_for (preemptor : Pod) (node : bytes) (v : Pod) : EvictionTask := mkTask (uid v) (namespace v) (name v) node (uid preemptor).
Definition stage_evictions (args : DefaultPreemptionArgs) (preemptor : Pod) (vs : list Pod) (node : bytes) (h : AsyncPreemptHandle) : AsyncPreemptHandle :=
  if dry_run args then h else foldl (λ h v, AsyncPreemptHandle.enqueue h (task_for preemptor node v)) h vs.
(** The status a filter gave a node; of it the plugin reads the code *)
Inductive Code : Type := Success | Unschedulable | UnschedulableAndUnresolvable | Error | Skip | Wait | Pending.
#[export] Instance Code_eq_dec : EqDecision Code.
Proof. solve_decision. Defined.
Definition candidate_nodes (args : DefaultPreemptionArgs) (s : ClusterSnapshot) (filtered : gmap bytes Code) : list Node :=
  let ns := filter (λ n, filtered !! n_name n ≠ Some UnschedulableAndUnresolvable) (nodes s) in
  let total := vlen (nodes s) in
  let min := N.min (N.max (u64_mul (min_candidate_nodes_percentage args) total / 100) (min_candidate_nodes_absolute args)) total in
  if min <? vlen ns then take (N.to_nat min) (sort_by node_le ns) else ns.
Definition post_filter (args : DefaultPreemptionArgs) (pdbs : list PodDisruptionBudget) (pod : Pod) (s : ClusterSnapshot) (filtered : gmap bytes Code) (p : Plugin) : option bytes * Code * Plugin :=
  match preempt_for args pdbs pod (mkSnapshot (candidate_nodes args s filtered) (pods_by_node s)) with
  | None => (None, Unschedulable, p)
  | Some plan =>
      (Some (nominated_node_name plan), Success,
       mkPlugin (NominatedNodeMap.nominate (nominated p) (uid pod) (nominated_node_name plan)) (stage_evictions args pod (victims plan) (nominated_node_name plan) (async_handle p)))
  end.

(** ** Victims *)

Definition tot (f : ResourceRequest → N) (vs : list Pod) : N := foldr (λ v acc, f (resources v) + acc) 0 vs.
Lemma tot_app f vs ws : tot f (vs ++ ws) = tot f vs + tot f ws.
Proof. unfold tot. induction vs as [|v vs IH]; cbn [app foldr]; [done|]. rewrite IH. lia. Qed.
Lemma tot_perm f vs ws : vs ≡ₚ ws → tot f vs = tot f ws.
Proof. unfold tot. induction 1; cbn [foldr]; lia. Qed.
Lemma tot_sub f vs ws : vs ⊆+ ws → tot f vs ≤ tot f ws.
Proof. intros [k ->%(tot_perm f)]%submseteq_Permutation. rewrite tot_app. lia. Qed.
(** The pods that may be evicted for a pod, and whether enough are *)
Definition admissible (preemptor : Pod) (s : ClusterSnapshot) (pdbs : list PodDisruptionBudget) (node : Node) (v : Pod) : Prop :=
  v ∈ pods_on s (n_name node) ∧ (priority v < priority preemptor)%Z ∧ tenant_id v = tenant_id preemptor
  ∧ ∀ b, b ∈ pdbs → pdb_matches b v = true → min_available b ≤ current_healthy b - 1.
Definition room (need : ResourceRequest) (node : Node) (vs : list Pod) : Prop :=
  cpu_millicores need ≤ avail_cpu node + tot cpu_millicores vs ∧ memory_bytes need ≤ avail_mem node + tot memory_bytes vs.
(** The resources of a node and of the pods on it fit 64 bits *)
Definition in_range (s : ClusterSnapshot) (node : Node) : Prop :=
  avail_cpu node + tot cpu_millicores (pods_on s (n_name node)) < u64_modulus ∧ avail_mem node + tot memory_bytes (pods_on s (n_name node)) < u64_modulus.
Section Plan.
Context (preemptor : Pod) (s : ClusterSnapshot) (pdbs : list PodDisruptionBudget) (node : Node).
Lemma violates_spec v : violates pdbs v = false ↔ ∀ b, b ∈ pdbs → pdb_matches b v = true → min_available b ≤ current_healthy b - 1.
Proof.
  unfold violates, would_violate. rewrite <- not_true_iff_false, existsb_exists. split.
  - intros H b I M. apply N.nlt_ge. intros L. apply H. exists b. split; [|by apply N.ltb_lt]. apply list_elem_of_In, list_elem_of_filter. done.
  - intros H (b & I & L). apply list_elem_of_In, list_elem_of_filter in I as [M I]. apply N.ltb_lt in L. specialize (H b I M). lia.
Qed.
Lemma fits_spec need vs : avail_cpu node + tot cpu_millicores vs < u64_modulus → avail_mem node + tot memory_bytes vs < u64_modulus →
  fits need node (tot cpu_millicores vs) (tot memory_bytes vs) = true ↔ room need node vs.
Proof. intros C M. unfold fits, room. by rewrite !u64_add_small, andb_true_iff, !N.leb_le by done. Qed.
(** The loop takes the shortest prefix of the pods it may take that makes room. *)
Definition prefix_picked (need : ResourceRequest) (vs ok : list Pod) (r : N * N * list Pod * N) : Prop :=
  ∃ k vs' viol, r = (tot cpu_millicores vs', tot memory_bytes vs', vs', viol) ∧ vs' = vs ++ take k ok
  ∧ (room need node vs' ∨ vs' = vs ++ ok) ∧ ∀ j, (j < k)%nat → ¬ room need node (vs ++ take j ok).
Lemma pick_spec need cs vs viol :
  avail_cpu node + tot cpu_millicores (vs ++ cs) < u64_modulus → avail_mem node + tot memory_bytes (vs ++ cs) < u64_modulus →
  prefix_picked need vs (filter (λ v, violates pdbs v = false) cs) (pick pdbs need node cs (tot cpu_millicores vs) (tot memory_bytes vs) vs viol).
Proof.
  revert vs viol. induction cs as [|v cs IH]; intros vs viol C M; cbn [pick].
  - exists 0%nat, vs, viol. rewrite filter_nil, take_nil, app_nil_r. split; [done|]. split; [done|]. split; [by right|lia].
  - rewrite tot_app in C, M. cbn [tot foldr] in C, M. fold (tot cpu_millicores cs) (tot memory_bytes cs) in C, M.
    assert (F : fits need node (tot cpu_millicores vs) (tot memory_bytes vs) = true ↔ room need node vs) by (apply fits_spec; lia).
    destruct (fits need node (tot cpu_millicores vs) (tot memory_bytes vs)).
    + exists 0%nat, vs, viol. rewrite take_0, app_nil_r. split; [done|]. split; [done|]. split; [left; by apply F|lia].
    + assert (N : ¬ room need node vs) by (intros R; by apply F in R). rewrite filter_cons. destruct (violates pdbs v); cbn [decide].
      * rewrite decide_False by done. apply IH; rewrite tot_app; lia.
      * rewrite decide_True by done.
        assert (T : ∀ f, tot f (vs ++ [v]) = tot f vs + f (resources v)) by (intros f; rewrite tot_app; cbn; lia).
        rewrite !u64_add_small, <- !T by lia.
        destruct (IH (vs ++ [v]) viol) as (k & vs' & w & -> & -> & R & Z); [rewrite tot_app, T; lia..|].
        exists (S k), ((vs ++ [v]) ++ take k (filter (λ v, violates pdbs v = false) cs)), w. cbn [take]. rewrite <- !app_assoc in *. cbn [app] in *.
        split; [done|]. split; [done|]. split; [done|]. intros [|j] J; [by rewrite take_0, app_nil_r|]. cbn [take].
        specialize (Z j). rewrite <- app_assoc in Z. apply Z. lia.
Qed.
Definition tried : list Pod := filter (λ v, violates pdbs v = false) (candidates preemptor s node).
Lemma tried_perm : tried ≡ₚ filter (λ v, violates pdbs v = false) (filter (λ p, eligible preemptor p = true) (pods_on s (n_name node))).
Proof. unfold tried, candidates. by rewrite sort_by_perm. Qed.
Lemma tried_admissible v : v ∈ tried ↔ admissible preemptor s pdbs node v.
Proof.
  rewrite tried_perm, !list_elem_of_filter, violates_spec. unfold admissible, eligible. rewrite andb_true_iff, !bool_decide_eq_true. tauto.
Qed.
(** Every set of admissible pods is among those tried. *)
Lemma admissible_tried vs : vs ⊆+ pods_on s (n_name node) → Forall (admissible preemptor s pdbs node) vs → vs ⊆+ tried.
Proof.
  intros [k P]%submseteq_Permutation A. rewrite tried_perm, P, !filter_app.
  assert (E : filter (λ v, violates pdbs v = false) (filter (λ p, eligible preemptor p = true) vs) = vs).
  { rewrite list_filter_filter. apply filter_all. eapply Forall_impl; [exact A|]. intros v (_ & L & T & B). split; [by apply violates_spec|].
    unfold eligible. by rewrite !bool_decide_eq_true_2. }
  rewrite E. apply submseteq_inserts_r. done.
Qed.
Context (R : in_range s node).
Lemma tried_range : avail_cpu node + tot cpu_millicores (candidates preemptor s node) < u64_modulus ∧ avail_mem node + tot memory_bytes (candidates preemptor s node) < u64_modulus.
Proof.
  assert (S : candidates preemptor s node ⊆+ pods_on s (n_name node)).
  { unfold candidates. rewrite sort_by_perm. apply sublist_submseteq, sublist_filter. }
  pose proof (tot_sub cpu_millicores _ _ S). pose proof (tot_sub memory_bytes _ _ S). destruct R. lia.
Qed.
(** A plan for a node, or why there is none *)
Lemma plan_spec :
  match plan_on preemptor s pdbs node with
  | Some r => nominated_node_name r = n_name node ∧ room (resources preemptor) node (victims r)
      ∧ (∃ k, victims r = take k tried) ∧ ∀ j, (j < length (victims r))%nat → ¬ room (resources preemptor) node (take j (victims r))
  | None => ¬ room (resources preemptor) node tried
  end.
Proof.
  unfold plan_on. destruct tried_range as [C M].
  destruct (pick_spec (resources preemptor) (candidates preemptor s node) [] 0 C M) as (k & vs & viol & E & V & D & Z).
  cbn [app] in *. change (tot _ []) with 0 in E. rewrite E. fold tried in *.
  assert (F : fits (resources preemptor) node (tot cpu_millicores vs) (tot memory_bytes vs) = true ↔ room (resources preemptor) node vs).
  { assert (S : vs ⊆+ candidates preemptor s node).
    { rewrite V. apply sublist_submseteq. etrans; [apply sublist_take|apply sublist_filter]. }
    apply fits_spec; [pose proof (tot_sub cpu_millicores _ _ S)|pose proof (tot_sub memory_bytes _ _ S)]; lia. }
  destruct (fits _ _ _ _); cbn [nominated_node_name victims].
  - split; [done|]. split; [by apply F|]. split; [by exists k|]. intros j J. rewrite V, take_take. rewrite V, length_take in J.
    rewrite Nat.min_l by lia. apply Z. lia.
  - intros H. destruct D as [D|D]; [by apply F in D|]. rewrite <- D in H. by apply F in H.
Qed.
End Plan.

(** ** The best plan *)

Lemma better_trans a b c : better c b = true → better a b = false → better a c = false.
Proof.
  unfold better. rewrite !orb_true_iff, !orb_false_iff, !andb_true_iff, !andb_false_iff, !N.ltb_lt, !N.ltb_ge, !N.eqb_eq, !N.eqb_neq. lia.
Qed.
Lemma better_irrefl a : better a a = false.
Proof. unfold better. rewrite orb_false_iff, andb_false_iff, !N.ltb_ge. lia. Qed.
Lemma keep_best_some best c : ∃ r, keep_best best (Some c) = Some r ∧ (r = c ∨ best = Some r) ∧ better c r = false ∧ ∀ b, best = Some b → better b r = false.
Proof.
  unfold keep_best. destruct best as [b|]; [|exists c; repeat split; [by left|apply better_irrefl|done]].
  destruct (better c b) eqn:E.
  - exists c. repeat split; [by left|apply better_irrefl|]. intros ? [= ->]. eapply better_trans; [exact E|apply better_irrefl].
  - exists b. repeat split; [by right|done|]. intros ? [= ->]. apply better_irrefl.
Qed.
(** [r] is a best plan of those for [ns] and of [best]. *)
Definition best_of {A} (plan : A → option PreemptionResult) (ns : list A) (best : option PreemptionResult) (r : PreemptionResult) : Prop :=
  (best = Some r ∨ ∃ n, n ∈ ns ∧ plan n = Some r) ∧ (∀ b, best = Some b → better b r = false) ∧ ∀ n r', n ∈ ns → plan n = Some r' → better r' r = false.
Lemma not_better_trans a b c : better a b = false → better b c = false → better a c = false.
Proof.
  unfold better. rewrite !orb_false_iff, !andb_false_iff, !N.ltb_ge, !N.eqb_neq. lia.
Qed.
Lemma keep_best_spec {A} (plan : A → option PreemptionResult) ns best :
  match foldl (λ best n, keep_best best (plan n)) best ns with
  | Some r => best_of plan ns best r
  | None => best = None ∧ ∀ n, n ∈ ns → plan n = None
  end.
Proof.
  revert best. induction ns as [|n ns IH]; intros best; cbn [foldl].
  - destruct best as [b|]; [|split; [done|by intros n ?%elem_of_nil]]. split; [by left|]. split; [intros ? [= ->]; apply better_irrefl|by intros n r' ?%elem_of_nil].
  - destruct (plan n) as [c|] eqn:P.
    + destruct (keep_best_some best c) as (r0 & E & W0 & B0 & O0). specialize (IH (keep_best best (Some c))). rewrite E in *.
      destruct (foldl _ (Some r0) ns) as [r|]; [|by destruct IH]. destruct IH as (W & B & O). specialize (B r0 eq_refl). split; [|split].
      * destruct W as [[= <-]|(m & I & Q)]; [|right; exists m; split; [by right|done]]. destruct W0 as [->|W0]; [right; exists n; split; [by left|done]|by left].
      * intros b H. eapply not_better_trans; [by apply O0|done].
      * intros m r' [->|I]%elem_of_cons Q; [|by eapply O]. rewrite P in Q. injection Q as <-. by eapply not_better_trans.
    + specialize (IH best). cbn [keep_best]. destruct (foldl _ best ns) as [r|].
      * destruct IH as (W & B & O). split; [destruct W as [W|(m & I & Q)]; [by left|right; exists m; split; [by right|done]]|]. split; [done|].
        intros m r' [->|I]%elem_of_cons Q; [congruence|by eapply O].
      * destruct IH as [-> O]. split; [done|]. intros m [->|I]%elem_of_cons; [done|by apply O].
Qed.

Module PreemptWitness.
Definition pod (n : bytes) (prio : Z) (cpu : N) : Pod := mkPod n (str "ns") (str "t") n (mkRequest cpu 0 0 ∅) ∅ prio.
Definition node (n : bytes) (used : N) : Node := mkNode n (mkCapacity 4000 8000 110 0) (mkCapacity used 0 110 0).
Definition snap (ps : list Pod) : ClusterSnapshot := mkSnapshot [node (str "a") 3500] {[str "a" := ps]}.
Definition evicted (preemptor : Pod) (ps : list Pod) (pdbs : list PodDisruptionBudget) : option (list bytes) :=
  (λ r, name <$> victims r) <$> preempt preemptor (snap ps) pdbs.
Definition crowd : list Pod := [pod (str "low") 0 1000; pod (str "low2") 0 500; pod (str "high") 100 2000].
End PreemptWitness.
Import PreemptWitness.

(** ** Evictions *)

Inductive HandleOp : Type := Enqueue (t : EvictionTask) | Dequeue | MarkFailed (u : bytes) | TakeFailed.
(** The handle, what was put in and what was handed back *)
Definition handle_step (st : AsyncPreemptHandle * list EvictionTask * list EvictionTask) (o : HandleOp) : AsyncPreemptHandle * list EvictionTask * list EvictionTask :=
  let '(h, given, back) := st in
  match o with
  | Enqueue t => (AsyncPreemptHandle.enqueue h t, given ++ [t], back)
  | Dequeue => ((AsyncPreemptHandle.dequeue h).2, given, back)
  | MarkFailed u => (AsyncPreemptHandle.mark_failed h u, given, back)
  | TakeFailed => let '(fs, h) := AsyncPreemptHandle.take_failed h in (h, given, back ++ fs)
  end.
Lemma remove_victim_perm u ts t rest : AsyncPreemptHandle.remove_victim u ts = Some (t, rest) → ts ≡ₚ t :: rest ∧ victim_uid t = u.
Proof.
  revert rest. induction ts as [|x ts IH]; intros rest; cbn [AsyncPreemptHandle.remove_victim]; [done|]. case_bool_decide; [by intros [= -> ->]|].
  destruct (AsyncPreemptHandle.remove_victim u ts) as [[t' r]|]; [|done]. intros [= -> <-]. destruct (IH r eq_refl) as [-> ?]. split; [constructor|done].
Qed.
Definition conserved (st : AsyncPreemptHandle * list EvictionTask * list EvictionTask) : Prop :=
  st.1.2 ≡ₚ pending st.1.1 ++ completed st.1.1 ++ failed st.1.1 ++ st.2.
Lemma handle_step_conserved st o : conserved st → conserved (handle_step st o).
Proof.
  destruct st as [[h given] back]. unfold conserved. cbn [fst snd]. intros P. destruct o as [t| |u|]; cbn [handle_step fst snd AsyncPreemptHandle.enqueue AsyncPreemptHandle.take_failed pending completed failed].
  - rewrite P. solve_Permutation.
  - unfold AsyncPreemptHandle.dequeue. destruct (pending h) as [|t rest] eqn:E; cbn [snd pending completed failed]; rewrite ?E, P; solve_Permutation.
  - unfold AsyncPreemptHandle.mark_failed. destruct (AsyncPreemptHandle.remove_victim u (pending h)) as [[t rest]|] eqn:E; [|done].
    apply remove_victim_perm in E as [E _]. cbn [pending completed failed]. rewrite P, E. solve_Permutation.
  - rewrite P. solve_Permutation.
Qed.
Lemma evictions_conserved os : let st := foldl handle_step (AsyncPreemptHandle.new, [], []) os in
  st.1.2 ≡ₚ pending st.1.1 ++ completed st.1.1 ++ failed st.1.1 ++ st.2.
Proof.
  change (conserved (foldl handle_step (AsyncPreemptHandle.new, [], []) os)). assert (C : conserved (AsyncPreemptHandle.new, [], [])) by (unfold conserved; cbn; constructor). revert C.
  generalize (AsyncPreemptHandle.new, @nil EvictionTask, @nil EvictionTask). induction os as [|o os IH]; intros st C; [done|]. by apply IH, handle_step_conserved.
Qed.
(** The recovery hands back the failed evictions and clears the nominations of their preemptors. *)
Lemma drain_fold ts cleared m k : (∀ u, u ∈ cleared → m !! u = None) →
  (foldl drain_step (cleared, m) ts).2 !! k = if bool_decide (k ∈ preemptor_uid <$> ts) then None else m !! k.
Proof.
  revert cleared m. induction ts as [|t ts IH]; intros cleared m C; [done|].
  assert (E : bool_decide (k ∈ preemptor_uid <$> t :: ts) = bool_decide (k = preemptor_uid t) || bool_decide (k ∈ preemptor_uid <$> ts)).
  { rewrite fmap_cons, <- bool_decide_or. apply bool_decide_ext, elem_of_cons. }
  rewrite E. cbn [foldl drain_step]. unfold NominatedNodeMap.clear. destruct (bool_decide_reflect (preemptor_uid t ∈ cleared)) as [D|D].
  - rewrite IH by done. destruct (bool_decide_reflect (k = preemptor_uid t)) as [->|N]; [|done]. rewrite (C _ D). by case_match.
  - rewrite IH by (intros u [->%elem_of_singleton|U]%elem_of_union; [apply lookup_delete_eq|apply lookup_delete_None; auto]).
    destruct (bool_decide_reflect (k = preemptor_uid t)) as [->|N]; [rewrite lookup_delete_eq; by case_match|by rewrite lookup_delete_ne].
Qed.
Lemma drain_failed_spec p k : let '(fs, p') := drain_failed p in
  fs = failed (async_handle p) ∧ failed (async_handle p') = [] ∧ nominated p' !! k = if bool_decide (k ∈ preemptor_uid <$> fs) then None else nominated p !! k.
Proof. cbn. split; [done|]. split; [done|]. apply drain_fold. by intros u ?%elem_of_empty. Qed.

(** ** What the comments promise and the code does not do *)

(** "Pick the smallest set": by priority two pods go where one would do. *)
Lemma not_the_smallest_set : evicted (pod (str "new") 50 1500) [pod (str "big") 1 1000; pod (str "small") 0 100] [] = Some [str "small"; str "big"].
Proof. vm_compute. reflexivity. Qed.
(** A budget that can spare one pod loses two: each is checked as if alone. *)
Lemma budget_overrun :
  let b := mkPdb (str "b") (str "ns") (str "t") ∅ 1 2 in
  evicted (pod (str "new") 50 1500) [pod (str "x") 0 500; pod (str "y") 0 500] [b] = Some [str "x"; str "y"] ∧ would_violate b 2 = true.
Proof. vm_compute. split; reflexivity. Qed.
(** A node full of pods is nominated, with nobody to evict, when only its pod slots are taken. *)
Lemma full_node_nominated : cap_pods (allocatable (node (str "a") 3500)) - cap_pods (allocated (node (str "a") 3500)) = 0
  ∧ evicted (pod (str "new") 50 100) crowd [] = Some [].
Proof. vm_compute. split; reflexivity. Qed.
(** An eviction that was taken up cannot be marked as failed any more. *)
Lemma taken_up_cannot_fail h u : (∀ t, t ∈ pending h → victim_uid t ≠ u) → AsyncPreemptHandle.mark_failed h u = h.
Proof.
  intros N. unfold AsyncPreemptHandle.mark_failed. destruct (AsyncPreemptHandle.remove_victim u (pending h)) as [[t rest]|] eqn:E; [|done].
  apply remove_victim_perm in E as [E V]. destruct (N t); [rewrite E; by left|done].
Qed.
