(* ===== verification/DocValue.v ===== *)
(** * Documents of cave-docdb

    The data crates/data/cave-docdb handles: [serde_json::Value], whose maps are [BTreeMap]s
    (the workspace does not turn on [preserve_order]), and the document of bson.rs, a
    [BTreeMap<String, Value>].  A map is a list of pairs, increasing in the bytes of the keys.

    The numbers are those of serde_json: a parameter, with what its documentation says of the
    conversions the code calls ([NumberLaws]); [PlainNumber] is an instance.  The bits of an
    [f64] and its conversion to [i64] are those of the language. *)

From Stdlib Require Import ZArith SpecFloat.
From S2P Require Import Prelude Bytes BTree Float.

(** ** Bits of an [f64] *)

(** [f64::to_bits], of the quiet NaN for a NaN *)
Definition f64_to_bits (x : f64) : u64 :=
  let sign (s : bool) : N := if s then 9223372036854775808 else 0 in
  match x with
  | S754_zero s => sign s
  | S754_infinity s => sign s + 9218868437227405312
  | S754_nan => 9221120237041090560
  | S754_finite s m e =>
      if Npos m <? 4503599627370496 then sign s + Npos m else sign s + Z.to_N (e + 1075) * 4503599627370496 + (Npos m - 4503599627370496)
  end.
(** [f64::from_bits] *)
Definition f64_from_bits (n : u64) : f64 :=
  let s := N.testbit n 63 in
  let ex := (n / 4503599627370496) mod 2048 in
  let fr := n mod 4503599627370496 in
  if ex =? 0 then match fr with N0 => S754_zero s | Npos m => S754_finite s m (-1074) end
  else if ex =? 2047 then if fr =? 0 then S754_infinity s else S754_nan
  else match fr + 4503599627370496 with N0 => S754_zero s | Npos m => S754_finite s m (Z.of_N ex - 1075) end.
Definition f64_is_finite (x : f64) : bool := negb (f64_is_nan x) && negb (f64_is_infinite x).

(** [x as i64]: towards zero, saturating, zero for a NaN *)
Definition i64_min : Z := -9223372036854775808.
Definition i64_max : Z := 9223372036854775807.
Definition f64_to_i64 (x : f64) : Z :=
  match x with
  | S754_zero _ | S754_nan => 0
  | S754_infinity s => if s then i64_min else i64_max
  | S754_finite s m e =>
      let a := if (0 <=? e)%Z then Z.shiftl (Zpos m) e else Z.shiftr (Zpos m) (- e) in
      Z.max i64_min (Z.min i64_max (if s then - a else a))
  end.

Lemma digits2_size m : digits2_pos m = Pos.size m.
Proof. induction m as [m IH|m IH|]; cbn; by rewrite ?IH. Qed.

(** What a finite number of the type is: 53 digits, or the least exponent. *)
Lemma f64_valid_finite s m e : f64_valid (S754_finite s m e) = true →
  (Zpos m < 9007199254740992 ∧ -1074 ≤ e ≤ 971 ∧ (e = -1074 ∨ 4503599627370496 ≤ Zpos m))%Z.
Proof.
  unfold f64_valid, valid_binary, bounded, canonical_mantissa. intros [Hc%Z.eqb_eq He%Z.leb_le]%andb_true_iff.
  rewrite digits2_size in Hc. unfold fexp, emin in Hc. pose proof (Pos.size_gt m) as H1. pose proof (Pos.size_le m) as H2.
  assert (Hm1 : (Zpos m < 2 ^ Zpos (Pos.size m))%Z) by lia. assert (Hm2 : (2 ^ Zpos (Pos.size m) ≤ 2 * Zpos m)%Z) by lia.
  assert (Hs : (Zpos (Pos.size m) ≤ 53)%Z) by lia. split_and!; [|lia|lia|].
  - eapply Z.lt_le_trans; [exact Hm1|]. change 9007199254740992%Z with (2 ^ 53)%Z. apply Z.pow_le_mono_r; lia.
  - destruct (decide (e = -1074)%Z); [by left|]. right. assert (Zpos (Pos.size m) = 53)%Z as Hs53 by lia. rewrite Hs53 in Hm2.
    change (2 ^ 53)%Z with 9007199254740992%Z in Hm2. lia.
Qed.
Lemma f64_bits_bound x : f64_valid x = true → f64_to_bits x < u64_modulus.
Proof.
  destruct x as [[]|[]| |s m e]; try done. intros (H1 & H2 & H3)%f64_valid_finite. unfold f64_to_bits, u64_modulus.
  assert (Hm : Npos m < 9007199254740992) by lia. assert (He : Z.to_N (e + 1075) ≤ 2046) by lia. clear H1 H2 H3. revert Hm He.
  generalize (Z.to_N (e + 1075)) (Npos m). intros ex f Hm He. destruct (f <? _), s; lia.
Qed.
(** The three fields. *)
Lemma f64_fields (s : bool) ex fr : ex < 2048 → fr < 4503599627370496 →
  let n := (if s then 9223372036854775808 else 0) + ex * 4503599627370496 + fr in
  N.testbit n 63 = s ∧ (n / 4503599627370496) mod 2048 = ex ∧ n mod 4503599627370496 = fr.
Proof.
  intros Hex Hfr n. assert (Hd : n / 4503599627370496 = (if s then 2048 else 0) + ex).
  { symmetry. apply (N.div_unique _ _ _ fr); [done|]. unfold n. destruct s; lia. }
  split_and!.
  - assert (H63 : n / 2 ^ 63 = if s then 1 else 0).
    { change (2 ^ 63) with 9223372036854775808. symmetry. apply (N.div_unique _ _ _ (ex * 4503599627370496 + fr)); unfold n; destruct s; lia. }
    destruct s; [apply N.testbit_true|apply N.testbit_false]; by rewrite H63.
  - rewrite Hd. destruct s; [rewrite (N.add_comm 2048), <- (N.mul_1_l 2048) at 1; rewrite N.Div0.mod_add|]; by apply N.mod_small.
  - symmetry. apply (N.mod_unique _ _ ((if s then 2048 else 0) + ex)); [done|]. unfold n. destruct s; lia.
Qed.
Lemma f64_bits_roundtrip x : f64_valid x = true → f64_from_bits (f64_to_bits x) = x.
Proof.
  destruct x as [[]|[]| |s m e]; try done. intros (H1 & H2 & H3)%f64_valid_finite. unfold f64_to_bits.
  destruct (N.ltb_spec (Npos m) 4503599627370496) as [Hlt|Hge].
  - destruct (f64_fields s 0 (Npos m)) as (Hs & Hex & Hfr); [lia|lia|]. rewrite N.mul_0_l, N.add_0_r in *. unfold f64_from_bits.
    rewrite Hs, Hex, Hfr. cbn [N.eqb]. f_equal. lia.
  - destruct (f64_fields s (Z.to_N (e + 1075)) (Npos m - 4503599627370496)) as (Hs & Hex & Hfr); [lia|lia|]. unfold f64_from_bits.
    rewrite Hs, Hex, Hfr. destruct (N.eqb_spec (Z.to_N (e + 1075)) 0); [lia|]. destruct (N.eqb_spec (Z.to_N (e + 1075)) 2047); [lia|].
    replace (Npos m - 4503599627370496 + 4503599627370496) with (Npos m) by lia. f_equal. lia.
Qed.

(** ** Signed integers in little-endian bytes *)

Definition to_le_i (n : nat) (z : Z) : bytes := to_le n (Z.to_N (z mod 256 ^ Z.of_nat n)).
Definition from_le_i (n : nat) (l : bytes) : Z :=
  let x := Z.of_N (from_le l) in if (2 * x <? 256 ^ Z.of_nat n)%Z then x else (x - 256 ^ Z.of_nat n)%Z.
Lemma from_le_to_le_i n z : (- 256 ^ Z.of_nat n ≤ 2 * z < 256 ^ Z.of_nat n)%Z → from_le_i n (to_le_i n z) = z.
Proof.
  intros Hz. unfold from_le_i, to_le_i. assert (Hp : (0 < 256 ^ Z.of_nat n)%Z) by (apply Z.pow_pos_nonneg; lia).
  assert (Hm := Z.mod_pos_bound z (256 ^ Z.of_nat n) Hp).
  rewrite from_le_to_le, Z2N.id by (try apply N2Z.inj_lt; rewrite ?Z2N.id, ?N2Z.inj_pow by lia; rewrite ?nat_N_Z; lia).
  destruct (decide (0 ≤ z)%Z) as [Hpos|Hneg].
  - rewrite Z.mod_small by lia. destruct (Z.ltb_spec (2 * z) (256 ^ Z.of_nat n)); lia.
  - assert (z mod 256 ^ Z.of_nat n = z + 256 ^ Z.of_nat n)%Z as ->.
    { rewrite <- (Z_mod_plus_full z 1), Z.mul_1_l. apply Z.mod_small. lia. }
    destruct (Z.ltb_spec (2 * (z + 256 ^ Z.of_nat n)) (256 ^ Z.of_nat n)); lia.
Qed.
Lemma length_to_le_i n z : length (to_le_i n z) = n.
Proof. apply length_to_le. Qed.

(** ** The order of strings *)

Lemma bytes_cmp_trans a b c : bytes_cmp a b = Lt → bytes_cmp b c = Lt → bytes_cmp a c = Lt.
Proof.
  revert b c. induction a as [|x a IH]; intros [|y b] [|z c]; cbn; try done.
  destruct (N.compare_spec x y) as [<-|Hxy|]; [|intros _|done]; (destruct (N.compare_spec x z) as [<-|Hxz|Hzx]; [| |]); try done.
  - apply IH.
  - destruct (N.compare_spec y x); [lia|lia|done].
  - destruct (N.compare_spec y z); [lia|lia|done].
Qed.
#[export] Program Instance bytes_order : KeyOrder bytes := {| key_lt := bytes_ltb |}.
Next Obligation. intros a. unfold bytes_ltb. by rewrite bytes_cmp_refl. Qed.
Next Obligation.
  intros a b c. unfold bytes_ltb. destruct (bytes_cmp a b) eqn:H1; try done. destruct (bytes_cmp b c) eqn:H2; try done.
  by rewrite (bytes_cmp_trans a b c).
Qed.
Next Obligation.
  intros a b. unfold bytes_ltb. rewrite (bytes_cmp_antisym a b). destruct (bytes_cmp a b) eqn:H; [|by left|by right; right].
  apply bytes_cmp_eq in H. by right; left.
Qed.

(** ** Maps by key *)

Lemma elem_of_insert_iff {V} (m : list (bytes * V)) k v e : ordered m → e ∈ BTreeMap.insert k v m ↔ e = (k, v) ∨ (e ∈ m ∧ e.1 ≠ k).
Proof.
  induction 1 as [|[k' v'] m Ho IH Hall]; cbn [BTreeMap.insert]; [set_solver|]. rewrite Forall_forall in Hall.
  assert (Hgt : ∀ e, e ∈ m → key_lt k' e.1 = true) by (intros; by apply Hall).
  destruct (key_lt k k') eqn:Hlt.
  - split; [intros [->|Hin]%elem_of_cons; [by left|]|intros [->|[Hin _]]; [left|by right]]. right. split; [done|]. intros <-.
    apply elem_of_cons in Hin as [->|Hin]; [by rewrite key_lt_irrefl in Hlt|]. apply Hgt in Hin. rewrite (key_lt_asym _ _ Hlt) in Hin. done.
  - destruct (decide (k = k')) as [->|Hne].
    + rewrite !elem_of_cons. split; [intros [->|Hin]; [by left|]|intros [->|[[->|Hin] Hne]]; [by left|done|by right]].
      right. split; [by right|]. apply Hgt in Hin. intros Heq. rewrite Heq, key_lt_irrefl in Hin. done.
    + rewrite !elem_of_cons, IH. split; [intros [->|[->|[? ?]]]; [right; split; [by left|by apply not_eq_sym]|by left|right; split; [by right|done]]|].
      intros [->|[[->|?] ?]]; [by right; left|by left|by right; right].
Qed.
Lemma get_insert {V} (m : list (bytes * V)) k v k' : ordered m →
  BTreeMap.get k' (BTreeMap.insert k v m) = if decide (k' = k) then Some v else BTreeMap.get k' m.
Proof.
  intros Ho. apply option_eq. intros x. rewrite get_Some, elem_of_insert_iff by (done || by apply ordered_insert). destruct (decide (k' = k)) as [->|Hne].
  - split; [intros [[= ->]|[_ Hn]]; [done|by destruct Hn]|intros [= ->]; by left].
  - rewrite get_Some by done. split; [intros [[= ? ->]|[? _]]; done|by right].
Qed.
Lemma get_remove {V} (m : list (bytes * V)) k k' : ordered m →
  BTreeMap.get k' (BTreeMap.remove k m) = if decide (k' = k) then None else BTreeMap.get k' m.
Proof.
  intros Ho. apply option_eq. intros x. rewrite get_Some by by apply ordered_remove. unfold BTreeMap.remove. rewrite list_elem_of_filter.
  destruct (decide (k' = k)) as [->|Hne]; [naive_solver|]. rewrite get_Some by done. naive_solver.
Qed.
Lemma ordered_get_ext {V} (m1 m2 : list (bytes * V)) : ordered m1 → ordered m2 → (∀ k, BTreeMap.get k m1 = BTreeMap.get k m2) → m1 = m2.
Proof.
  intros H1 H2 Hg. apply (StronglySorted_unique_strong (λ a b, key_lt a.1 b.1 = true)); [|done|done|].
  - intros a b _ _ Hab Hba. by rewrite (key_lt_asym _ _ Hab) in Hba.
  - assert (Hnd : ∀ m : list (bytes * V), ordered m → NoDup m).
    { induction 1 as [|e m _ IH He]; constructor; [|done]. intros Hin. rewrite Forall_forall in He. specialize (He e Hin). by rewrite key_lt_irrefl in He. }
    apply NoDup_Permutation; [by apply Hnd..|]. intros [k v]. by rewrite <- !get_Some, Hg.
Qed.

(** ** Values *)

Unset Elimination Schemes.
Inductive Value (Num : Type) : Type :=
| Null
| Bool (b : bool)
| Number (n : Num)
| String (s : bytes)
| Array (items : list (Value Num))
| Object (fields : list (bytes * Value Num)).
Set Elimination Schemes.
Arguments Null {Num}. Arguments Bool {Num} b. Arguments Number {Num} n.
Arguments String {Num} s. Arguments Array {Num} items. Arguments Object {Num} fields.
Abbreviation Document Num := (list (bytes * Value Num)).

(** Induction with the hypothesis for every item and every field. *)
Section Induction.
Context {Num : Type} (P : Value Num → Prop).
Hypotheses (HNull : P Null) (HBool : ∀ b, P (Bool b)) (HNumber : ∀ n, P (Number n)) (HString : ∀ s, P (String s))
  (HArray : ∀ l, Forall P l → P (Array l)) (HObject : ∀ m, Forall (λ e, P e.2) m → P (Object m)).
Fixpoint Value_ind (v : Value Num) : P v :=
  match v with
  | Null => HNull
  | Bool b => HBool b
  | Number n => HNumber n
  | String s => HString s
  | Array l => HArray l ((fix go l : Forall P l := match l with [] => Forall_nil_2 _ | v :: l => Forall_cons_2 _ _ _ (Value_ind v) (go l) end) l)
  | Object m => HObject m ((fix go m : Forall (λ e, P e.2) m :=
      match m with [] => Forall_nil_2 _ | (k, v) :: m => Forall_cons_2 (λ e, P e.2) (k, v) _ (Value_ind v) (go m) end) m)
  end.
End Induction.

(** [serde_json::Number]: [as_i64], [as_f64], [From<i64>], [From<u64>], [from_f64], [==]. *)
Class NumberOps (Num : Type) : Type := {
  as_i64 : Num → option Z;
  as_f64 : Num → option f64;
  of_i64 : Z → Num;
  of_u64 : u64 → Num;
  of_f64 : f64 → option Num;
  num_eqb : Num → Num → bool }.
Definition is_i64 (z : Z) : Prop := (i64_min ≤ z ≤ i64_max)%Z.
Class NumberLaws (Num : Type) `{!NumberOps Num} : Prop := {
  as_i64_of_i64 z : is_i64 z → as_i64 (of_i64 z) = Some z;
  (** an integer in the range of [i64] has one representation *)
  as_i64_Some n z : as_i64 n = Some z → is_i64 z ∧ n = of_i64 z;
  as_i64_of_u64 n : n < u64_modulus → as_i64 (of_u64 n) = if (Z.of_N n <=? i64_max)%Z then Some (Z.of_N n) else None;
  as_f64_of_i64 z : is_i64 z → as_f64 (of_i64 z) = Some (binary_normalize 53 1024 z 0 false);
  (** [from_f64] refuses what is not finite, and keeps the rest apart from the integers *)
  of_f64_finite x : f64_is_finite x = true → ∃ n, of_f64 x = Some n ∧ as_i64 n = None ∧ as_f64 n = Some x;
  of_f64_other x : f64_is_finite x = false → of_f64 x = None;
  num_eqb_of_i64 a b : is_i64 a → is_i64 b → num_eqb (of_i64 a) (of_i64 b) = (a =? b)%Z }.

(** ** An instance *)

Module PlainNumber.
(** The three variants of the private enum of serde_json. *)
Inductive Num : Type := PosInt (n : u64) | NegInt (z : Z) | Float (x : f64).
#[export] Instance Ops : NumberOps Num := {|
  as_i64 n := match n with PosInt n => if (Z.of_N n <=? i64_max)%Z then Some (Z.of_N n) else None
                         | NegInt z => if (i64_min <=? z)%Z && (z <? 0)%Z then Some z else None | Float _ => None end;
  as_f64 n := match n with PosInt n => Some (f64_of_N n) | NegInt z => Some (binary_normalize 53 1024 z 0 false) | Float x => Some x end;
  of_i64 z := if (z <? 0)%Z then NegInt z else PosInt (Z.to_N z);
  of_u64 n := PosInt n;
  of_f64 x := if f64_is_finite x then Some (Float x) else None;
  num_eqb a b := match a, b with PosInt a, PosInt b => a =? b | NegInt a, NegInt b => (a =? b)%Z | Float a, Float b => SFeqb a b | _, _ => false end |}.
#[export] Instance Laws : NumberLaws Num.
Proof.
  split; cbn [as_i64 as_f64 of_i64 of_u64 of_f64 num_eqb Ops]; unfold is_i64, i64_min, i64_max.
  - intros z Hz. destruct (Z.ltb_spec z 0).
    + destruct (Z.leb_spec (-9223372036854775808) z); [|lia]. by destruct (Z.ltb_spec z 0); [|lia].
    + destruct (Z.leb_spec (Z.of_N (Z.to_N z)) 9223372036854775807); [f_equal; lia|lia].
  - intros [n|z'|x] z; [| |done].
    + destruct (Z.leb_spec (Z.of_N n) 9223372036854775807); [|done]. intros [= <-]. split; [lia|].
      destruct (Z.ltb_spec (Z.of_N n) 0); [lia|]. f_equal. lia.
    + destruct (Z.leb_spec (-9223372036854775808) z'), (Z.ltb_spec z' 0); try done. intros [= <-]. split; [lia|]. by destruct (Z.ltb_spec z' 0); [|lia].
  - done.
  - intros z Hz. destruct (Z.ltb_spec z 0); [done|]. cbn. unfold f64_of_N. by rewrite Z2N.id.
  - intros x ->. by eexists.
  - by intros x ->.
  - intros a b Ha Hb. destruct (Z.ltb_spec a 0), (Z.ltb_spec b 0); [done|destruct (Z.eqb_spec a b); [lia|done]..|].
    destruct (Z.eqb_spec a b), (N.eqb_spec (Z.to_N a) (Z.to_N b)); try done; lia.
Qed.
End PlainNumber.
