(* ===== verification/DocBson.v ===== *)
(** * The BSON codec of cave-docdb

    crates/data/cave-docdb/src/bson.rs: documents to bytes and back.

    The encoder threads the buffer, as the code does.  The decoder has fuel for the nesting of
    documents and for the loop over one document; a document of n bytes needs no more than
    n + 1 of the one and n of the other ([bson_decode_total]).  A slice or an index out of
    range is the failure [Panicked].  The texts of the errors of UTF-8 and of the hex crate and the text of a date
    (chrono) are parameters.

    A document whose numbers are integers of 64 bits or finite doubles, whose keys have no zero
    byte and whose object ids are in lower case comes back from its bytes, whatever follows
    them ([bson_roundtrip]). *)

From Stdlib Require Import ZArith SpecFloat.
From S2P Require Import Prelude Bytes BTree Float DocValue.

Inductive BsonError : Type :=
| InvalidType (t : u8)
| DecodeError (msg : bytes)
| EncodeError (msg : bytes).
Inductive Failure : Type :=
| Error (e : BsonError)
| Panicked
| OutOfFuel.

Definition TYPE_DOUBLE : u8 := 1.
Definition TYPE_STRING : u8 := 2.
Definition TYPE_DOCUMENT : u8 := 3.
Definition TYPE_ARRAY : u8 := 4.
Definition TYPE_BINARY : u8 := 5.
Definition TYPE_OBJECT_ID : u8 := 7.
Definition TYPE_BOOL : u8 := 8.
Definition TYPE_UTC_DATETIME : u8 := 9.
Definition TYPE_NULL : u8 := 10.
Definition TYPE_REGEX : u8 := 11.
Definition TYPE_INT32 : u8 := 16.
Definition TYPE_TIMESTAMP : u8 := 17.
Definition TYPE_INT64 : u8 := 18.
Definition u32_modulus : N := 4294967296.

(** The texts of [FromUtf8Error] and [FromHexError], and
    [DateTime::<Utc>::from_timestamp_millis(ms)] as its [to_rfc3339]. *)
Class BsonTexts : Type := {
  utf8_error : bytes → bytes;
  hex_error : bytes → bytes;
  rfc3339 : Z → option bytes }.

(** ** Encoding *)

Definition write_cstring (buf s : bytes) : bytes := buf ++ s ++ [0].
Definition write_string (buf s : bytes) : bytes := buf ++ to_le 4 ((vlen s + 1) mod u32_modulus) ++ s ++ [0].

Section Codec.
Context {Num : Type} `{NO : !NumberOps Num} `{HX : !Hex} `{BT : !BsonTexts}.

(** What the encoding of one element does to the buffer; the loop of [encode_doc] runs the
    encoders of a map in the order of its keys. *)
Definition Encoder : Type := bytes → result BsonError bytes.
Fixpoint encode_all (doc : list (bytes * Encoder)) (buf : bytes) : result BsonError bytes :=
  match doc with
  | [] => Ok buf
  | (_, enc) :: doc => let? buf := enc buf in encode_all doc buf
  end.
Definition encode_map (doc : list (bytes * Encoder)) : result BsonError bytes :=
  let? buf := encode_all doc [0; 0; 0; 0] in
  let buf := buf ++ [0] in
  Ok (to_le 4 (vlen buf mod u32_modulus) ++ drop 4 buf).

Fixpoint encode_element (key : bytes) (value : Value Num) (buf : bytes) : result BsonError bytes :=
  match value with
  | Null => Ok (write_cstring (buf ++ [TYPE_NULL]) key)
  | Bool b => Ok (write_cstring (buf ++ [TYPE_BOOL]) key ++ [if b then 1 else 0])
  | Number n =>
      match as_i64 n with
      | Some i =>
          if (-2147483648 <=? i)%Z && (i <=? 2147483647)%Z
          then Ok (write_cstring (buf ++ [TYPE_INT32]) key ++ to_le_i 4 i)
          else Ok (write_cstring (buf ++ [TYPE_INT64]) key ++ to_le_i 8 i)
      | None =>
          match as_f64 n with
          | Some f => Ok (write_cstring (buf ++ [TYPE_DOUBLE]) key ++ to_le 8 (f64_to_bits f))
          | None => Ok buf
          end
      end
  | String s =>
      if (vlen s =? 24) && forallb is_hexdigit s then
        let buf := write_cstring (buf ++ [TYPE_OBJECT_ID]) key in
        match hex_decode s with
        | None => Err (EncodeError (str "invalid objectid: " ++ hex_error s))
        | Some b => if vlen b =? 12 then Ok (buf ++ b) else Ok (write_string (write_cstring [TYPE_STRING] key) s)
        end
      else Ok (write_string (write_cstring (buf ++ [TYPE_STRING]) key) s)
  | Array items =>
      let arr_doc :=
        (fix insert_items (i : N) (items : list (Value Num)) (doc : list (bytes * Encoder)) :=
           match items with
           | [] => doc
           | item :: items => insert_items (i + 1) items (BTreeMap.insert (decimal i) (encode_element (decimal i) item) doc)
           end) 0 items [] in
      let buf := write_cstring (buf ++ [TYPE_ARRAY]) key in
      let? arr_bytes := encode_map arr_doc in Ok (buf ++ arr_bytes)
  | Object fields =>
      let inner_doc :=
        (fix insert_fields (fields : list (bytes * Value Num)) (doc : list (bytes * Encoder)) :=
           match fields with
           | [] => doc
           | (k, v) :: fields => insert_fields fields (BTreeMap.insert k (encode_element k v) doc)
           end) fields [] in
      let buf := write_cstring (buf ++ [TYPE_DOCUMENT]) key in
      let? doc_bytes := encode_map inner_doc in Ok (buf ++ doc_bytes)
  end.

Definition encoders (doc : Document Num) : list (bytes * Encoder) := (λ e, (e.1, encode_element e.1 e.2)) <$> doc.
Definition encode_doc (doc : Document Num) : result BsonError bytes := encode_map (encoders doc).

(** ** Decoding *)

Definition fail {A} (msg : bytes) : result Failure A := Err (Error (DecodeError msg)).
(** [&bytes[pos..]] and [bytes[pos]] *)
Definition slice_from (bytes : list N) (pos : usize) : result Failure (list N) :=
  if vlen bytes <? pos then Err Panicked else Ok (drop (N.to_nat pos) bytes).
Definition byte_at (bytes : list N) (pos : usize) : result Failure N := ok_or (bytes !! N.to_nat pos) Panicked.
(** The [n] bytes at [pos], of which the code has checked that they are there. *)
Definition field (bytes : list N) (pos : usize) (n : nat) : list N := take n (drop (N.to_nat pos) bytes).

Fixpoint position_zero (bytes : list N) : option nat :=
  match bytes with
  | [] => None
  | b :: bytes => if b =? 0 then Some O else S <$> position_zero bytes
  end.
Definition read_cstring (bytes : list N) : result Failure (list N * usize) :=
  match position_zero bytes with
  | Some i =>
      let s := take i bytes in
      if valid_utf8 s then Ok (s, N.of_nat i + 1) else fail (str "invalid utf8: " ++ utf8_error s)
  | None => fail (str "unterminated cstring")
  end.
Definition read_string (bytes : list N) : result Failure (list N * usize) :=
  if vlen bytes <? 4 then fail (str "string too short")
  else
    let len := from_le (take 4 bytes) in
    if vlen bytes <? 4 + len then fail (str "incomplete string")
    else if len =? 0 then Err Panicked
    else
      let s := field bytes 4 (N.to_nat (len - 1)) in
      if valid_utf8 s then Ok (s, 4 + len) else fail (str "invalid utf8: " ++ utf8_error s).

(** [for i in 0.. { match arr_doc.get(&i.to_string()) .. }]; see [array_items_enough]. *)
Fixpoint array_items (fuel : nat) (i : N) (arr_doc : Document Num) : list (Value Num) :=
  match fuel with
  | O => []
  | S fuel => match BTreeMap.get (decimal i) arr_doc with Some v => v :: array_items fuel (i + 1) arr_doc | None => [] end
  end.

(** An element, given how a document inside it is decoded. *)
Definition decode_element (decode_doc : list N → result Failure (Document Num)) (bytes : list N) : result Failure (list N * Value Num * usize) :=
  match bytes with
  | [] => fail (str "unexpected eof")
  | type_code :: rest =>
      let? k := read_cstring rest in
      let '(key, key_len) := k in
      let pos := 1 + key_len in
      (* [if pos + n > bytes.len() { return Err(..) }] *)
      let have (n : N) (msg : string) (k : result Failure (list N * Value Num * usize)) :=
        if vlen bytes <? pos + n then fail (str msg) else k in
      if type_code =? TYPE_NULL then Ok (key, Null, pos)
      else if type_code =? TYPE_BOOL then
        let? b := byte_at bytes pos in Ok (key, Bool (negb (b =? 0)), pos + 1)
      else if type_code =? TYPE_INT32 then
        have 4 "truncated int32"%string (Ok (key, Number (of_i64 (from_le_i 4 (field bytes pos 4))), pos + 4))
      else if type_code =? TYPE_INT64 then
        have 8 "truncated int64"%string (Ok (key, Number (of_i64 (from_le_i 8 (field bytes pos 8))), pos + 8))
      else if type_code =? TYPE_DOUBLE then
        have 8 "truncated double"%string
          (Ok (key, Number (default (of_i64 0) (of_f64 (f64_from_bits (from_le (field bytes pos 8))))), pos + 8))
      else if type_code =? TYPE_STRING then
        let? tail := slice_from bytes pos in
        let? r := read_string tail in
        let '(s, new_pos) := r in Ok (key, String s, pos + new_pos)
      else if type_code =? TYPE_DOCUMENT then
        have 4 "truncated document"%string
          (let doc_len := from_le (field bytes pos 4) in
           have doc_len "incomplete document"%string
             (let? doc := decode_doc (field bytes pos (N.to_nat doc_len)) in
              Ok (key, Object doc, pos + doc_len)))
      else if type_code =? TYPE_ARRAY then
        have 4 "truncated array"%string
          (let arr_len := from_le (field bytes pos 4) in
           have arr_len "incomplete array"%string
             (let? arr_doc := decode_doc (field bytes pos (N.to_nat arr_len)) in
              Ok (key, Array (array_items (S (length arr_doc)) 0 arr_doc), pos + arr_len)))
      else if type_code =? TYPE_OBJECT_ID then
        have 12 "truncated objectid"%string (Ok (key, String (hex_encode (field bytes pos 12)), pos + 12))
      else if type_code =? TYPE_UTC_DATETIME then
        have 8 "truncated datetime"%string
          (Ok (key, match rfc3339 (from_le_i 8 (field bytes pos 8)) with Some t => String t | None => Null end, pos + 8))
      else if type_code =? TYPE_BINARY then
        have 4 "truncated binary"%string
          (let len := from_le (field bytes pos 4) in
           have 5 "truncated binary subtype"%string
             (have (5 + len) "incomplete binary data"%string
               (Ok (key, String (str "Binary(" ++ hex_encode (field bytes (pos + 5) (N.to_nat len)) ++ str ")"), pos + 5 + len))))
      else if type_code =? TYPE_REGEX then
        let? tail := slice_from bytes pos in
        let? r := read_cstring tail in
        let '(pattern, new_pos) := r in
        let? tail := slice_from bytes (pos + new_pos) in
        let? r := read_cstring tail in
        let '(flags, new_pos2) := r in
        Ok (key, Object (BTreeMap.insert (str "flags") (String flags) (BTreeMap.insert (str "pattern") (String pattern) [])),
            pos + (new_pos + new_pos2))
      else if type_code =? TYPE_TIMESTAMP then
        have 8 "truncated timestamp"%string (Ok (key, Number (of_u64 (from_le (field bytes pos 8))), pos + 8))
      else Ok (key, Null, pos)
  end.

(** [while pos < len - 1]: a turn for every two bytes at most *)
Fixpoint decode_loop (decode_doc : list N → result Failure (Document Num)) (fuel : nat) (bytes : list N) (len pos : usize)
    (doc : Document Num) : result Failure (Document Num) :=
  match fuel with
  | O => Err OutOfFuel
  | S fuel =>
      if pos <? len -w 1 then
        let? rest := slice_from bytes pos in
        let? r := decode_element decode_doc rest in
        let '(key, value, consumed) := r in
        decode_loop decode_doc fuel bytes len (pos + consumed) (BTreeMap.insert key value doc)
      else Ok doc
  end.
Fixpoint decode_doc_fuel (fuel : nat) (bytes : list N) : result Failure (Document Num) :=
  match fuel with
  | O => Err OutOfFuel
  | S fuel =>
      if vlen bytes <? 5 then fail (str "document too short")
      else
        let len := from_le (take 4 bytes) in
        if vlen bytes <? len then fail (str "incomplete document")
        else decode_loop (decode_doc_fuel fuel) (length bytes) bytes len 4 []
  end.
Definition decode_doc (bytes : list N) : result Failure (Document Num) := decode_doc_fuel (S (length bytes)) bytes.
End Codec.

(** ** What is decoded is in key order *)

Section Order.
Context {Num : Type} `{NO : !NumberOps Num} `{HX : !Hex} `{BT : !BsonTexts}.
Lemma decode_loop_ordered (decode : list N → result Failure (Document Num)) fuel bytes len pos doc d :
  ordered doc → decode_loop decode fuel bytes len pos doc = Ok d → ordered d.
Proof.
  revert pos doc. induction fuel as [|fuel IH]; intros pos doc Ho; [done|]. cbn [decode_loop]. destruct (_ <? _); [|by intros [= <-]].
  destruct (slice_from bytes pos) as [rest|]; [|done]. destruct (decode_element decode rest) as [[[k v] n]|]; [|done]. by apply IH, ordered_insert.
Qed.
Lemma decode_doc_ordered bytes (d : Document Num) : decode_doc bytes = Ok d → ordered d.
Proof.
  unfold decode_doc. cbn [decode_doc_fuel]. destruct (_ <? 5); [done|]. destruct (_ <? _); [done|]. apply decode_loop_ordered. constructor.
Qed.
End Order.

(** ** Decoding ends *)

Section Total.
Context {Num : Type} `{NO : !NumberOps Num} `{HX : !Hex} `{BT : !BsonTexts}.
Implicit Types (bytes : list N).

Lemma position_zero_Some bytes i : position_zero bytes = Some i → (i < length bytes)%nat.
Proof.
  revert i. induction bytes as [|b bytes IH]; intros i; [done|]. cbn. destruct (b =? 0); [intros [= <-]; lia|].
  destruct (position_zero bytes); [|done]. intros [= <-]. specialize (IH _ eq_refl). lia.
Qed.
Lemma read_cstring_bound bytes s n : read_cstring bytes = Ok (s, n) → 1 ≤ n ≤ vlen bytes.
Proof.
  unfold read_cstring. destruct (position_zero bytes) as [i|] eqn:Hi; [|done]. destruct (valid_utf8 _); [|done]. intros [= _ <-].
  apply position_zero_Some in Hi. unfold vlen. lia.
Qed.
Lemma read_string_bound bytes s n : read_string bytes = Ok (s, n) → n ≤ vlen bytes.
Proof.
  unfold read_string. destruct (vlen bytes <? 4); [done|]. destruct (N.ltb_spec (vlen bytes) (4 + from_le (take 4 bytes))); [done|].
  destruct (_ =? 0); [done|]. destruct (valid_utf8 _); [|done]. by intros [= _ <-].
Qed.
Lemma slice_from_Ok bytes pos l : slice_from bytes pos = Ok l → pos ≤ vlen bytes ∧ vlen l = vlen bytes - pos.
Proof.
  unfold slice_from. destruct (N.ltb_spec (vlen bytes) pos); [done|]. intros [= <-]. split; [done|]. unfold vlen in *. rewrite length_drop. lia.
Qed.
Lemma byte_at_Ok bytes pos b : byte_at bytes pos = Ok b → pos < vlen bytes.
Proof. unfold byte_at. destruct (bytes !! N.to_nat pos) eqn:Hl; [|done]. intros _. apply lookup_lt_Some in Hl. unfold vlen. lia. Qed.

(** What the checks that succeeded say of the lengths. *)
Ltac read_bounds :=
  repeat match goal with
  | H : (_ <? _) = false |- _ => apply N.ltb_ge in H
  | H : read_cstring _ = Ok _ |- _ => apply read_cstring_bound in H
  | H : read_string _ = Ok _ |- _ => apply read_string_bound in H
  | H : slice_from _ _ = Ok _ |- _ => apply slice_from_Ok in H
  | H : byte_at _ _ = Ok _ |- _ => apply byte_at_Ok in H
  end; rewrite ?vlen_cons in *.

(** An element takes its type and its key at least, and no more than there is. *)
Lemma decode_element_consumed decode bytes k (v : Value Num) c : decode_element decode bytes = Ok (k, v, c) → 2 ≤ c ≤ vlen bytes.
Proof.
  unfold decode_element. destruct bytes as [|t rest]; [done|]. destruct (read_cstring rest) as [[key n]|] eqn:Hk; [|done].
  repeat (case_match; try done); intros; simplify_eq; read_bounds; lia.
Qed.

(** The fuel is used up only by that of the documents inside. *)
Lemma decode_element_fuel (decode : list N → result Failure (Document Num)) bytes :
  (∀ bytes', (length bytes' < length bytes)%nat → decode bytes' ≠ Err OutOfFuel) → decode_element decode bytes ≠ Err OutOfFuel.
Proof.
  intros Hd. unfold decode_element. destruct bytes as [|t rest]; [done|].
  destruct (read_cstring rest) as [[key n]|e] eqn:Hk; [|unfold read_cstring, fail in Hk; repeat case_match; by simplify_eq].
  assert (Hsub : ∀ m, decode (field (t :: rest) (1 + n) m) ≠ Err OutOfFuel).
  { intros m. apply Hd. unfold field. apply read_cstring_bound in Hk. rewrite length_take, length_drop. unfold vlen in Hk. cbn [length] in *. lia. }
  unfold byte_at, slice_from, read_cstring, read_string, fail, ok_or in *. repeat case_match; simplify_eq; try done; intros ?; simplify_eq; by eapply Hsub.
Qed.
Lemma decode_loop_fuel (decode : list N → result Failure (Document Num)) fuel bytes len pos doc :
  (∀ bytes', (length bytes' < length bytes)%nat → decode bytes' ≠ Err OutOfFuel) → 0 < pos ≤ vlen bytes → (length bytes - N.to_nat pos < fuel)%nat →
  decode_loop decode fuel bytes len pos doc ≠ Err OutOfFuel.
Proof.
  intros Hd. revert pos doc. induction fuel as [|fuel IH]; intros pos doc Hp Hf; [lia|]. cbn [decode_loop]. destruct (_ <? _); [|done].
  destruct (slice_from bytes pos) as [rest|e] eqn:Hs; [|unfold slice_from in Hs; case_match; by simplify_eq]. apply slice_from_Ok in Hs.
  destruct (decode_element decode rest) as [[[k v] c]|e] eqn:He.
  - apply decode_element_consumed in He. apply IH; unfold vlen in *; lia.
  - intros [= ->]. revert He. apply decode_element_fuel. intros bytes' Hlt. apply Hd. unfold vlen in *. lia.
Qed.
Lemma decode_doc_fuel_enough fuel bytes : (length bytes < fuel)%nat → decode_doc_fuel (Num := Num) fuel bytes ≠ Err OutOfFuel.
Proof.
  revert bytes. induction fuel as [|fuel IH]; intros bytes Hf; [lia|]. cbn [decode_doc_fuel]. destruct (N.ltb_spec (vlen bytes) 5); [done|].
  destruct (_ <? _); [done|]. apply decode_loop_fuel; [intros bytes' Hlt; apply IH; lia|unfold vlen in *; lia..].
Qed.
End Total.

(** C36: decoding ends on every input.  The loop over a document of n bytes takes fewer than n
    turns, and documents nest less than n deep. *)
Theorem bson_decode_total {Num : Type} `{!NumberOps Num} `{!Hex} `{!BsonTexts} (bytes : list N) :
  decode_doc (Num := Num) bytes ≠ Err OutOfFuel.
Proof. apply decode_doc_fuel_enough. lia. Qed.

(** ** What is encoded is decoded again *)

Section RoundTrip.
Context {Num : Type} `{NO : !NumberOps Num} `{NL : !NumberLaws Num} `{HX : !Hex} `{HL : !HexLaws} `{BT : !BsonTexts}.

Definition wf_key (k : bytes) : Prop := valid_utf8 k = true ∧ 0 ∉ k.
Definition is_object_id (s : bytes) : bool := (vlen s =? 24) && forallb is_hexdigit s.
(** The values BSON can hold as they are. *)
Unset Elimination Schemes.
Inductive wf_value : Value Num → Prop :=
| wf_null : wf_value Null
| wf_bool b : wf_value (Bool b)
| wf_int z : is_i64 z → wf_value (Number (of_i64 z))
| wf_float x n : f64_valid x = true → of_f64 x = Some n → wf_value (Number n)
| wf_string s : valid_utf8 s = true → (is_object_id s = true → ascii_lower <$> s = s) → wf_value (String s)
| wf_array l : Forall wf_value l → wf_value (Array l)
| wf_object m : ordered m → Forall (λ e, wf_key e.1 ∧ wf_value e.2) m → wf_value (Object m).
Set Elimination Schemes.
Definition wf_doc (m : Document Num) : Prop := ordered m ∧ Forall (λ e, wf_key e.1 ∧ wf_value e.2) m.

(** The document of an array: its items under their indices. *)
Fixpoint array_doc_from (i : N) (items : list (Value Num)) (doc : Document Num) : Document Num :=
  match items with
  | [] => doc
  | item :: items => array_doc_from (i + 1) items (BTreeMap.insert (decimal i) item doc)
  end.
Definition array_doc (items : list (Value Num)) : Document Num := array_doc_from 0 items [].

Lemma insert_encoders k v doc : BTreeMap.insert k (encode_element k v) (encoders doc) = encoders (BTreeMap.insert k v doc).
Proof.
  induction doc as [|[k' v'] doc IH]; [done|]. cbn [encoders fmap list_fmap BTreeMap.insert fst snd]. destruct (key_lt k k'); [done|].
  destruct (decide (k = k')) as [->|]; [done|]. cbn [fmap list_fmap fst snd]. f_equal. apply IH.
Qed.
Lemma encode_array key items buf :
  encode_element key (Array items) buf =
  let? b := encode_doc (array_doc items) in Ok (write_cstring (buf ++ [TYPE_ARRAY]) key ++ b).
Proof.
  cbn [encode_element]. unfold encode_doc, array_doc. change (@nil (bytes * Encoder)) with (encoders []). generalize (@nil (bytes * Value Num)) 0.
  induction items as [|x items IH]; intros doc i; [done|]. rewrite insert_encoders. apply IH.
Qed.
Lemma ordered_app_below (m1 m2 : Document Num) k v : ordered (m1 ++ (k, v) :: m2) → below m1 k.
Proof.
  intros Ho. apply Forall_forall. intros e He. apply (StronglySorted_app_1_elem_of _ _ _ e (k, v) Ho He). left.
Qed.
Lemma encode_object key fields buf : ordered fields →
  encode_element key (Object fields) buf =
  let? b := encode_doc fields in Ok (write_cstring (buf ++ [TYPE_DOCUMENT]) key ++ b).
Proof.
  intros Ho. cbn [encode_element]. unfold encode_doc. change (@nil (bytes * Encoder)) with (encoders []).
  assert (Hg : ∀ m1 m2, ordered (m1 ++ m2) → (fix insert_fields (fields : list (bytes * Value Num)) (doc : list (bytes * Encoder)) :=
           match fields with
           | [] => doc
           | (k, v) :: fields => insert_fields fields (BTreeMap.insert k (encode_element k v) doc)
           end) m2 (encoders m1) = encoders (m1 ++ m2)).
  { intros m1 m2. revert m1. induction m2 as [|[k v] m2 IH]; intros m1 Hm; [by rewrite app_nil_r|].
    rewrite insert_encoders, insert_above by by eapply ordered_app_below. rewrite IH, <- app_assoc; [done|]. by rewrite <- app_assoc. }
  by rewrite (Hg [] fields Ho).
Qed.

(** An element in bytes: type, key, payload. *)
Definition framed (t : u8) (key payload : bytes) : bytes := t :: key ++ 0 :: payload.
Lemma write_framed buf t key payload : write_cstring (buf ++ [t]) key ++ payload = buf ++ framed t key payload.
Proof. unfold write_cstring, framed. rewrite <- !app_assoc. done. Qed.
Lemma vlen_framed t key payload : vlen (framed t key payload) = vlen key + 2 + vlen payload.
Proof. unfold framed, vlen. cbn [length]. rewrite length_app. cbn [length]. lia. Qed.
Lemma framed_app t key payload rest : framed t key payload ++ rest = framed t key (payload ++ rest).
Proof. unfold framed. cbn [app]. by rewrite <- app_assoc. Qed.
Lemma read_key key rest : wf_key key → read_cstring (key ++ 0 :: rest) = Ok (key, vlen key + 1).
Proof.
  intros [Hu Hz]. unfold read_cstring. assert (position_zero (key ++ 0 :: rest) = Some (length key)) as ->.
  { clear Hu. induction key as [|b key IH]; [done|]. cbn. destruct (N.eqb_spec b 0) as [->|]; [by destruct Hz; left|].
    rewrite IH; [done|]. intros ?. destruct Hz. by right. }
  by rewrite take_app_length, Hu.
Qed.
Lemma framed_field t key payload rest n : (n = length payload)%nat →
  field (t :: key ++ 0 :: payload ++ rest) (1 + (vlen key + 1)) n = payload.
Proof.
  intros ->. unfold field. replace (N.to_nat (1 + (vlen key + 1))) with (S (length key + 1)) by (unfold vlen; lia). cbn [drop].
  rewrite <- drop_drop, drop_app_length. cbn [drop]. by rewrite drop_0, take_app_length.
Qed.
Lemma framed_tail t key payload : slice_from (t :: key ++ 0 :: payload) (1 + (vlen key + 1)) = Ok payload.
Proof.
  unfold slice_from. replace (N.to_nat (1 + (vlen key + 1))) with (S (length key + 1)) by (unfold vlen; lia). cbn [drop].
  rewrite <- drop_drop, drop_app_length. cbn [drop]. rewrite drop_0. destruct (N.ltb_spec (vlen (t :: key ++ 0 :: payload)) (1 + (vlen key + 1))); [|done].
  unfold vlen in *. cbn [length] in *. rewrite length_app in *. cbn [length] in *. lia.
Qed.
(** The check that [n] bytes are there succeeds. *)
Lemma framed_have t key payload rest n {A} (x y : A) : n ≤ vlen payload →
  (if vlen (t :: key ++ 0 :: payload ++ rest) <? 1 + (vlen key + 1) + n then x else y) = y.
Proof.
  intros Hn. destruct (N.ltb_spec (vlen (t :: key ++ 0 :: payload ++ rest)) (1 + (vlen key + 1) + n)); [|done].
  unfold vlen in *. cbn [length] in *. rewrite length_app in *. cbn [length] in *. rewrite length_app in *. lia.
Qed.

(** A value whose elements come back, and the bytes of one of its elements. *)
Definition element_ok (key : bytes) (v : Value Num) (enc : bytes) : Prop :=
  (∀ buf, encode_element key v buf = Ok (buf ++ enc)) ∧ (2 ≤ length enc)%nat ∧
  ∀ fuel rest, vlen enc < u32_modulus → (length enc ≤ fuel)%nat →
    decode_element (decode_doc_fuel fuel) (enc ++ rest) = Ok (key, v, vlen enc).
Definition comes_back (v : Value Num) : Prop := ∀ key, wf_key key → ∃ enc, element_ok key v enc.

(** It is enough to decode the frame. *)
Lemma element_framed key v t payload : wf_key key → (∀ buf, encode_element key v buf = Ok (buf ++ framed t key payload)) →
  (∀ fuel rest, vlen (framed t key payload) < u32_modulus → (length (framed t key payload) ≤ fuel)%nat →
    decode_element (decode_doc_fuel fuel) (t :: key ++ 0 :: payload ++ rest) = Ok (key, v, 1 + (vlen key + 1) + vlen payload)) →
  element_ok key v (framed t key payload).
Proof.
  intros Hk He Hd. split_and!; [done|unfold framed; cbn [length]; rewrite length_app; cbn; lia|].
  intros fuel rest Hb Hf. rewrite framed_app. unfold framed at 1. rewrite Hd by done. do 2 f_equal. rewrite vlen_framed. lia.
Qed.

Lemma null_back : comes_back Null.
Proof.
  intros key Hk. exists (framed TYPE_NULL key []). apply element_framed; [done|intros buf; cbn [encode_element]; by rewrite <- write_framed, app_nil_r|].
  intros fuel rest _ _. unfold decode_element. rewrite (read_key key _ Hk). cbn [N.eqb Pos.eqb TYPE_NULL]. change (vlen (@nil N)) with 0. by rewrite N.add_0_r.
Qed.
Lemma bool_back b : comes_back (Bool b).
Proof.
  intros key Hk. exists (framed TYPE_BOOL key [if b then 1 else 0]). apply element_framed; [done|intros buf; cbn [encode_element]; by rewrite write_framed|].
  intros fuel rest _ _. unfold decode_element. rewrite (read_key key _ Hk). cbn [N.eqb Pos.eqb TYPE_NULL TYPE_BOOL].
  unfold byte_at. replace (N.to_nat (1 + (vlen key + 1))) with (S (length key + 1)) by (unfold vlen; lia).
  change ((TYPE_BOOL :: key ++ 0 :: [if b then 1 else 0] ++ rest) !! S (length key + 1)) with ((key ++ 0 :: [if b then 1 else 0] ++ rest) !! (length key + 1)%nat).
  rewrite lookup_app_r by lia. replace (length key + 1 - length key)%nat with 1%nat by lia. by destruct b.
Qed.
Lemma int_back z : is_i64 z → comes_back (Number (of_i64 z)).
Proof.
  intros Hz key Hk. assert (Hn := as_i64_of_i64 z Hz). destruct ((-2147483648 <=? z)%Z && (z <=? 2147483647)%Z) eqn:Hr.
  - exists (framed TYPE_INT32 key (to_le_i 4 z)). apply element_framed; [done|intros buf; cbn [encode_element]; by rewrite Hn, Hr, write_framed|].
    intros fuel rest _ _. unfold decode_element. rewrite (read_key key _ Hk). cbn [N.eqb Pos.eqb TYPE_NULL TYPE_BOOL TYPE_INT32].
    assert (Hl : vlen (to_le_i 4 z) = 4) by (unfold vlen; by rewrite length_to_le_i). rewrite framed_have, framed_field by (rewrite ?Hl, ?length_to_le_i; done).
    rewrite from_le_to_le_i, Hl; [done|]. apply andb_true_iff in Hr as [?%Z.leb_le ?%Z.leb_le]. change (256 ^ Z.of_nat 4)%Z with 4294967296%Z. lia.
  - exists (framed TYPE_INT64 key (to_le_i 8 z)). apply element_framed; [done|intros buf; cbn [encode_element]; by rewrite Hn, Hr, write_framed|].
    intros fuel rest _ _. unfold decode_element. rewrite (read_key key _ Hk). cbn [N.eqb Pos.eqb TYPE_NULL TYPE_BOOL TYPE_INT32 TYPE_INT64].
    assert (Hl : vlen (to_le_i 8 z) = 8) by (unfold vlen; by rewrite length_to_le_i). rewrite framed_have, framed_field by (rewrite ?Hl, ?length_to_le_i; done).
    rewrite from_le_to_le_i, Hl; [done|]. unfold is_i64, i64_min, i64_max in Hz. change (256 ^ Z.of_nat 8)%Z with 18446744073709551616%Z. lia.
Qed.
Lemma float_back x n : f64_valid x = true → of_f64 x = Some n → comes_back (Number n).
Proof.
  intros Hx Hn key Hk. destruct (f64_is_finite x) eqn:Hf; [|by rewrite of_f64_other in Hn]. destruct (of_f64_finite x Hf) as (n' & Hn' & Hi & Hd).
  rewrite Hn in Hn'. injection Hn' as <-. exists (framed TYPE_DOUBLE key (to_le 8 (f64_to_bits x))).
  apply element_framed; [done|intros buf; cbn [encode_element]; by rewrite Hi, Hd, write_framed|].
  intros fuel rest _ _. unfold decode_element. rewrite (read_key key _ Hk). cbn [N.eqb Pos.eqb TYPE_NULL TYPE_BOOL TYPE_INT32 TYPE_INT64 TYPE_DOUBLE].
  rewrite framed_have, framed_field by (rewrite ?vlen_to_le, ?length_to_le; done). rewrite from_le_to_le, vlen_to_le by by apply f64_bits_bound.
  by rewrite f64_bits_roundtrip, Hn.
Qed.
Lemma string_back s : valid_utf8 s = true → (is_object_id s = true → ascii_lower <$> s = s) → comes_back (String s).
Proof.
  intros Hu Hlow key Hk. unfold is_object_id in Hlow. destruct ((vlen s =? 24) && forallb is_hexdigit s) eqn:Hid.
  - pose proof Hid as [H24%N.eqb_eq Hd]%andb_true_iff. destruct (hex_decode_digits s 12) as (l & Hl & _ & Hlen & He).
    { apply Forall_forall. intros b Hb%list_elem_of_In. by eapply forallb_forall in Hd. } { unfold vlen in H24. lia. }
    assert (Hv : vlen l = 12) by (unfold vlen; lia). exists (framed TYPE_OBJECT_ID key l).
    apply element_framed; [done|intros buf; cbn [encode_element]; by rewrite Hid, Hl, Hv, write_framed|].
    intros fuel rest _ _. unfold decode_element. rewrite (read_key key _ Hk).
    cbn [N.eqb Pos.eqb TYPE_NULL TYPE_BOOL TYPE_INT32 TYPE_INT64 TYPE_DOUBLE TYPE_STRING TYPE_DOCUMENT TYPE_ARRAY TYPE_OBJECT_ID].
    rewrite framed_have, framed_field by (rewrite ?Hv; done). rewrite He, Hv, Hlow; done.
  - exists (framed TYPE_STRING key (to_le 4 ((vlen s + 1) mod u32_modulus) ++ s ++ [0])).
    apply element_framed; [done|intros buf; cbn [encode_element]; rewrite Hid; unfold write_string; by rewrite write_framed|].
    intros fuel rest Hb _. rewrite vlen_framed, !vlen_app, vlen_to_le in Hb. unfold decode_element. rewrite (read_key key _ Hk).
    cbn [N.eqb Pos.eqb TYPE_NULL TYPE_BOOL TYPE_INT32 TYPE_INT64 TYPE_DOUBLE TYPE_STRING]. rewrite framed_tail.
    change (vlen [0]) with 1 in Hb. rewrite N.mod_small by lia. set (p := _ ++ rest).
    assert (Hp : p = to_le 4 (vlen s + 1) ++ s ++ 0 :: rest) by (unfold p; by rewrite <- !app_assoc).
    assert (Hpl : vlen p = 4 + (vlen s + 1) + vlen rest) by (rewrite Hp, !vlen_app, vlen_to_le, vlen_cons; lia).
    unfold read_string. destruct (N.ltb_spec (vlen p) 4); [lia|]. rewrite Hp, take_app_length' by by rewrite length_to_le. rewrite <- Hp.
    rewrite from_le_to_le by (change (256 ^ N.of_nat 4) with u32_modulus; lia). destruct (N.ltb_spec (vlen p) (4 + (vlen s + 1))); [lia|].
    destruct (N.eqb_spec (vlen s + 1) 0); [lia|]. assert (field p 4 (N.to_nat (vlen s + 1 - 1)) = s) as ->.
    { unfold field. rewrite Hp, drop_app_length' by by rewrite length_to_le. apply take_app_length'. unfold vlen. lia. }
    rewrite Hu. do 2 f_equal. rewrite !vlen_app, vlen_to_le. change (vlen [0]) with 1. lia.
Qed.

(** The elements of a document, one after the other. *)
Lemma encode_all_ok doc encs buf : Forall2 (λ e enc, element_ok e.1 e.2 enc) doc encs →
  encode_all (encoders doc) buf = Ok (buf ++ mjoin encs).
Proof.
  intros Hf. revert buf. induction Hf as [|[k v] enc doc encs (He & _) _ IH]; intros buf; [cbn; by rewrite app_nil_r|].
  cbn [encoders fmap list_fmap encode_all fst snd] in *. rewrite He. fold (encoders doc). rewrite IH.
  change (mjoin (enc :: encs)) with (enc ++ mjoin encs). by rewrite app_assoc.
Qed.
Lemma decode_loop_ok doc encs acc pre rest fuel turns :
  Forall2 (λ e enc, element_ok e.1 e.2 enc) doc encs → ordered (acc ++ doc) →
  vlen pre + vlen (mjoin encs) + 1 < u32_modulus → (length (mjoin encs) ≤ fuel)%nat → (length (mjoin encs) < turns)%nat →
  decode_loop (decode_doc_fuel fuel) turns (pre ++ mjoin encs ++ 0 :: rest) (vlen pre + vlen (mjoin encs) + 1) (vlen pre) acc = Ok (acc ++ doc).
Proof.
  intros Hf. revert acc pre turns. induction Hf as [|[k v] enc doc encs (_ & H2 & Hd) Hf IH]; intros acc pre turns Ho Hb Hfu Ht.
  all: destruct turns as [|turns]; [cbn in *; lia|]; cbn [decode_loop].
  - change (vlen (mjoin [])) with 0. rewrite N.add_0_r, u64_sub_small by (unfold u32_modulus, u64_modulus in *; lia). rewrite N.add_sub, N.ltb_irrefl. by rewrite app_nil_r.
  - change (mjoin (enc :: encs)) with (enc ++ mjoin encs) in *. rewrite vlen_app in *. rewrite length_app in *. cbn [fst snd] in Hd.
    rewrite u64_sub_small by (unfold u32_modulus, u64_modulus in *; lia). replace (vlen pre + (vlen enc + vlen (mjoin encs)) + 1 - 1) with (vlen pre + (vlen enc + vlen (mjoin encs))) by lia.
    destruct (N.ltb_spec (vlen pre) (vlen pre + (vlen enc + vlen (mjoin encs)))); [|unfold vlen in *; lia].
    unfold slice_from. destruct (N.ltb_spec (vlen (pre ++ (enc ++ mjoin encs) ++ 0 :: rest)) (vlen pre)); [rewrite vlen_app in *; lia|].
    assert (N.to_nat (vlen pre) = length pre) as -> by (unfold vlen; lia). rewrite drop_app_length, <- app_assoc.
    rewrite Hd by (unfold vlen in *; lia). rewrite insert_above by by eapply ordered_app_below.
    specialize (IH (acc ++ [(k, v)]) (pre ++ enc) turns). rewrite vlen_app, <- !app_assoc in IH.
    rewrite N.add_assoc. apply IH; [done|unfold vlen in *; lia..].
Qed.

(** A document whose values come back comes back itself. *)
Lemma doc_back doc : ordered doc → Forall (λ e, wf_key e.1 ∧ comes_back e.2) doc →
  ∃ b, encode_doc doc = Ok b ∧ 5 ≤ vlen b ∧ (vlen b < u32_modulus → from_le (take 4 b) = vlen b) ∧
    ∀ fuel rest, vlen b < u32_modulus → (length b < fuel)%nat → decode_doc_fuel fuel (b ++ rest) = Ok doc.
Proof.
  intros Ho Hf. assert (Hencs : ∃ encs, Forall2 (λ e enc, element_ok e.1 e.2 enc) doc encs).
  { clear Ho. induction Hf as [|[k v] doc [Hk Hv] _ (encs & IH)]; [by exists []|]. destruct (Hv k Hk) as [enc He]. exists (enc :: encs). by constructor. }
  destruct Hencs as [encs Hencs]. unfold encode_doc, encode_map. rewrite (encode_all_ok _ _ _ Hencs).
  eexists. split; [reflexivity|]. set (n := vlen (([0; 0; 0; 0] ++ mjoin encs) ++ [0])). assert (Hn : n = 4 + vlen (mjoin encs) + 1) by (unfold n; by rewrite !vlen_app).
  assert (drop 4 (([0; 0; 0; 0] ++ mjoin encs) ++ [0]) = mjoin encs ++ [0]) as -> by done.
  assert (Hvb : vlen (to_le 4 (n mod u32_modulus) ++ mjoin encs ++ [0]) = n) by (rewrite !vlen_app, vlen_to_le; change (vlen [0]) with 1; lia).
  rewrite Hvb. split; [lia|]. split.
  { intros Hb. rewrite N.mod_small, take_app_length' by (done || by rewrite length_to_le). by apply from_le_to_le. }
  intros fuel rest Hb Hfu. rewrite length_app, length_to_le, length_app in Hfu. cbn [length] in Hfu.
  rewrite N.mod_small by lia. destruct fuel as [|fuel]; [lia|]. cbn [decode_doc_fuel]. rewrite <- !app_assoc. cbn [app].
  set (bytes := to_le 4 n ++ mjoin encs ++ 0 :: rest).
  assert (Hv : vlen bytes = n + vlen rest) by (unfold bytes; rewrite !vlen_app, vlen_to_le, vlen_cons; lia).
  destruct (N.ltb_spec (vlen bytes) 5); [lia|]. assert (take 4 bytes = to_le 4 n) as -> by (apply take_app_length'; by rewrite length_to_le).
  rewrite from_le_to_le by (change (256 ^ N.of_nat 4) with u32_modulus; lia). destruct (N.ltb_spec (vlen bytes) n); [lia|]. 
  pose proof (decode_loop_ok doc encs [] (to_le 4 n) rest fuel (length bytes) Hencs Ho) as Hl. rewrite vlen_to_le in Hl. change (N.of_nat 4) with 4 in Hl.
  rewrite <- Hn in Hl. apply Hl; unfold vlen in *; lia.
Qed.

(** *** Arrays *)

Lemma decimal_inj m n : decimal m = decimal n → m = n.
Proof. intros H. pose proof (decimal_digits m) as (_ & _ & Hm). rewrite H in Hm. pose proof (decimal_digits n) as (_ & _ & Hn). congruence. Qed.
Lemma decimal_key n : wf_key (decimal n).
Proof.
  destruct (decimal_digits n) as (Hd & _ & _). split.
  - unfold valid_utf8. induction Hd as [|b l Hb _ IH]; [done|]. unfold is_digit in Hb. apply andb_true_iff in Hb as [H1%N.leb_le H2%N.leb_le].
    cbn [length utf8_chars]. assert (utf8_step b l = (0%nat, true)) as -> by (unfold utf8_step; destruct (N.ltb_spec b 128); [done|lia]). apply IH.
  - intros Hin. rewrite Forall_forall in Hd. by apply Hd in Hin.
Qed.
Lemma length_insert_fresh (m : Document Num) k v : (∀ e, e ∈ m → e.1 ≠ k) → length (BTreeMap.insert k v m) = S (length m).
Proof.
  induction m as [|[k' v'] m IH]; intros Hf; [done|]. cbn [BTreeMap.insert]. destruct (key_lt k k'); [done|].
  destruct (decide (k = k')) as [->|]; [by destruct (Hf (k', v') ltac:(left))|]. cbn [length]. f_equal. apply IH. intros e He. apply Hf. by right.
Qed.

Lemma array_doc_spec i items doc : ordered doc → (∀ e, e ∈ doc → ∃ j, j < i ∧ e.1 = decimal j) →
  let doc' := array_doc_from i items doc in
  ordered doc' ∧ length doc' = (length doc + length items)%nat ∧
  ∀ e, e ∈ doc' ↔ e ∈ doc ∨ ∃ (j : nat) v, items !! j = Some v ∧ e = (decimal (i + N.of_nat j), v).
Proof.
  revert i doc. induction items as [|x items IH]; intros i doc Ho Hk; cbn [array_doc_from].
  { split_and!; [done|cbn; lia|]. intros e. split; [by left|]. intros [?|(j & v & Hj & _)]; [done|]. by rewrite lookup_nil in Hj. }
  assert (Hfresh : ∀ e, e ∈ doc → e.1 ≠ decimal i). { intros e (j & Hj & ->)%Hk ->%decimal_inj. lia. }
  destruct (IH (i + 1) (BTreeMap.insert (decimal i) x doc)) as (H1 & H2 & H3).
  - by apply ordered_insert.
  - intros e [->|[He _]]%elem_of_insert_iff; [exists i; split; [lia|done]| |done]. destruct (Hk e He) as (j & Hj & ?). exists j. split; [lia|done].
  - split_and!; [done|rewrite H2, length_insert_fresh by done; cbn; lia|]. intros e. rewrite H3, elem_of_insert_iff by done. split.
    + intros [[->|[? _]]|(j & v & Hj & ->)]; [right|by left|right].
      * exists 0%nat, x. by rewrite N.add_0_r.
      * exists (S j), v. split; [done|]. do 2 f_equal. lia.
    + intros [He|([|j] & v & Hj & ->)].
      * left. right. split; [done|by apply Hfresh].
      * injection Hj as ->. left. left. by rewrite N.add_0_r.
      * right. exists j, v. split; [done|]. do 2 f_equal. lia.
Qed.
Lemma array_doc_get items j : BTreeMap.get (decimal (N.of_nat j)) (array_doc items) = items !! j.
Proof.
  destruct (array_doc_spec 0 items []) as (Ho & _ & Hin); [constructor|by intros e ?%elem_of_nil|]. apply option_eq. intros v.
  rewrite get_Some by done. unfold array_doc. rewrite Hin. split.
  - intros [?%elem_of_nil|(j' & v' & Hj & [= Hd <-])]; [done|]. apply decimal_inj in Hd. by replace j with j' by lia.
  - intros Hj. right. exists j, v. by rewrite N.add_0_l.
Qed.
Lemma array_items_back items : array_items (S (length (array_doc items))) 0 (array_doc items) = items.
Proof.
  destruct (array_doc_spec 0 items []) as (_ & Hlen & _); [constructor|by intros e ?%elem_of_nil|]. cbn [length] in Hlen.
  change (array_doc_from 0 items []) with (array_doc items) in Hlen. rewrite Hlen. pose proof (array_doc_get items) as Hget.
  assert (Hg : ∀ l k, drop k items = l → array_items (S (length l)) (N.of_nat k) (array_doc items) = l).
  { intros l. induction l as [|x l IH]; intros k Hk; cbn [array_items length]; rewrite Hget.
    - assert (items !! k = None) as ->; [|done]. apply lookup_ge_None. apply (f_equal length) in Hk. rewrite length_drop in Hk. cbn in Hk. lia.
    - assert (items !! k = Some x) as ->. { rewrite <- (Nat.add_0_r k), <- lookup_drop, Hk. done. }
      f_equal. replace (N.of_nat k + 1) with (N.of_nat (S k)) by lia. apply IH. rewrite <- Nat.add_1_r, <- drop_drop, Hk. done. }
  apply (Hg items 0%nat). apply drop_0.
Qed.
(** The loop over an array stops by itself, at the first index that is missing. *)
Lemma array_items_enough (doc : Document Num) : ordered doc → let l := array_items (S (length doc)) 0 doc in
  BTreeMap.get (decimal (vlen l)) doc = None ∧ ∀ j : nat, (j < length l)%nat → l !! j = BTreeMap.get (decimal (N.of_nat j)) doc.
Proof.
  intros Ho. assert (Hg : ∀ fuel i, let l := array_items fuel i doc in
    (length l = fuel ∨ BTreeMap.get (decimal (i + vlen l)) doc = None) ∧ ∀ j : nat, (j < length l)%nat → l !! j = BTreeMap.get (decimal (i + N.of_nat j)) doc).
  { induction fuel as [|fuel IH]; intros i; cbn [array_items]; [split; [by left|cbn; lia]|].
    destruct (BTreeMap.get (decimal i) doc) as [v|] eqn:Hv; [|change (vlen (@nil (Value Num))) with 0; rewrite N.add_0_r; split; [by right|cbn; lia]].
    destruct (IH (i + 1)) as [H1 H2]. rewrite vlen_cons. split.
    - destruct H1 as [H1|H1]; [left; cbn; lia|right]. rewrite <- H1. do 2 f_equal. lia.
    - intros [|j] Hj; [by rewrite N.add_0_r|]. cbn [length lookup list_lookup] in *. rewrite H2 by lia. do 2 f_equal. lia. }
  intros l. destruct (Hg (S (length doc)) 0) as [H1 H2]. fold l in H1, H2. split; [|intros j Hj; by rewrite H2]. destruct H1 as [Hl|H1]; [|by rewrite N.add_0_l in H1].
  exfalso. assert (Hsub : (λ j, decimal (N.of_nat j)) <$> seq 0 (length l) ⊆ doc.*1).
  { intros k (j & -> & Hj%elem_of_seq)%list_elem_of_fmap. destruct (l !! j) as [v|] eqn:Hv; [|apply lookup_ge_None in Hv; lia].
    rewrite H2, N.add_0_l in Hv by lia. apply get_Some in Hv; [|done]. apply list_elem_of_fmap. by exists (decimal (N.of_nat j), v). }
  apply NoDup_submseteq in Hsub; [|apply NoDup_fmap_2_strong; [intros a b _ _ ?%decimal_inj; lia|apply NoDup_seq]].
  apply submseteq_length in Hsub. rewrite !length_fmap, length_seq in Hsub. lia.
Qed.


(** A document in the payload of an element. *)
Lemma payload_doc key t b doc fuel rest : vlen (framed t key b) < u32_modulus → (length (framed t key b) ≤ fuel)%nat →
  5 ≤ vlen b → from_le (take 4 b) = vlen b →
  (∀ fuel rest, (length b < fuel)%nat → decode_doc_fuel fuel (b ++ rest) = Ok doc) →
  let bytes := t :: key ++ 0 :: b ++ rest in
  from_le (field bytes (1 + (vlen key + 1)) 4) = vlen b ∧ decode_doc_fuel fuel (field bytes (1 + (vlen key + 1)) (N.to_nat (vlen b))) = Ok doc.
Proof.
  intros Hb Hf H5 H4 Hd bytes. assert (Hsplit : bytes = t :: key ++ 0 :: take 4 b ++ drop 4 b ++ rest) by (unfold bytes; by rewrite (app_assoc (take 4 b)), take_drop).
  split.
  - rewrite Hsplit, framed_field; [done|]. rewrite length_take. unfold vlen in H5. lia.
  - unfold bytes. rewrite framed_field by (unfold vlen; lia). specialize (Hd fuel []). rewrite app_nil_r in Hd. apply Hd.
    unfold framed in Hf. cbn [length] in Hf. rewrite length_app in Hf. cbn [length] in Hf. lia.
Qed.
Lemma array_back items : Forall comes_back items → comes_back (Array items).
Proof.
  intros Hf key Hk. destruct (array_doc_spec 0 items []) as (Ho & _ & Hin); [constructor|by intros e ?%elem_of_nil|].
  destruct (doc_back (array_doc items) Ho) as (b & Hb & H5 & H4 & Hd).
  { apply Forall_forall. intros e [?%elem_of_nil|(j & v & Hj & ->)]%Hin; [done|]. split; [apply decimal_key|]. rewrite Forall_forall in Hf.
    apply Hf. by eapply list_elem_of_lookup_2. }
  exists (framed TYPE_ARRAY key b). apply element_framed; [done|intros buf; by rewrite encode_array, Hb, write_framed|].
  intros fuel rest Hlen Hfu. assert (vlen b < u32_modulus) by (rewrite vlen_framed in Hlen; lia).
  destruct (payload_doc key TYPE_ARRAY b (array_doc items) fuel rest) as [Hl Hdoc]; [done|done|done|by apply H4|intros; by apply Hd|].
  unfold decode_element. rewrite (read_key key _ Hk). cbn [N.eqb Pos.eqb TYPE_NULL TYPE_BOOL TYPE_INT32 TYPE_INT64 TYPE_DOUBLE TYPE_STRING TYPE_DOCUMENT TYPE_ARRAY].
  rewrite !framed_have by (rewrite ?Hl; lia). rewrite Hl, Hdoc. by rewrite array_items_back.
Qed.
Lemma object_back fields : ordered fields → Forall (λ e, wf_key e.1 ∧ comes_back e.2) fields → comes_back (Object fields).
Proof.
  intros Ho Hf key Hk. destruct (doc_back fields Ho Hf) as (b & Hb & H5 & H4 & Hd).
  exists (framed TYPE_DOCUMENT key b). apply element_framed; [done|intros buf; by rewrite encode_object, Hb, write_framed|].
  intros fuel rest Hlen Hfu. assert (vlen b < u32_modulus) by (rewrite vlen_framed in Hlen; lia).
  destruct (payload_doc key TYPE_DOCUMENT b fields fuel rest) as [Hl Hdoc]; [done|done|done|by apply H4|intros; by apply Hd|].
  unfold decode_element. rewrite (read_key key _ Hk). cbn [N.eqb Pos.eqb TYPE_NULL TYPE_BOOL TYPE_INT32 TYPE_INT64 TYPE_DOUBLE TYPE_STRING TYPE_DOCUMENT].
  rewrite !framed_have by (rewrite ?Hl; lia). by rewrite Hl, Hdoc.
Qed.

Lemma value_back v : wf_value v → comes_back v.
Proof.
  induction v as [|b|n|s|l IH|m IH] using Value_ind; intros Hw; inversion Hw; subst.
  - apply null_back.
  - apply bool_back.
  - by apply int_back.
  - by eapply float_back.
  - by apply string_back.
  - apply array_back. rewrite Forall_forall in *. auto.
  - apply object_back; [done|]. rewrite Forall_forall in *. intros e He. destruct (H1 e He). auto.
Qed.
Lemma wf_doc_back doc : wf_doc doc →
  ∃ b, encode_doc doc = Ok b ∧ 5 ≤ vlen b ∧ (vlen b < u32_modulus → from_le (take 4 b) = vlen b) ∧
    (vlen b < u32_modulus → ∀ rest, decode_doc (b ++ rest) = Ok doc).
Proof.
  intros [Ho Hf]. destruct (doc_back doc Ho) as (b & Hb & H5 & H4 & Hd).
  { eapply Forall_impl; [exact Hf|]. intros e [? ?]. split; [done|by apply value_back]. }
  exists b. split_and!; [done|done|done|]. intros Hlt rest. apply Hd; [done|]. rewrite length_app. lia.
Qed.

(** C23: what is encoded is decoded again, whatever follows it in the buffer. *)
Theorem bson_roundtrip doc b rest : wf_doc doc → encode_doc doc = Ok b → vlen b < u32_modulus → decode_doc (b ++ rest) = Ok doc.
Proof. intros Hw Hb Hlt. destruct (wf_doc_back doc Hw) as (b' & Hb' & _ & _ & Hd). rewrite Hb in Hb'. injection Hb' as <-. by apply Hd. Qed.
End RoundTrip.

(** ** Concrete documents *)

#[local] Existing Instances PlainHex.PlainHex PlainHex.PlainHex_laws PlainNumber.Ops PlainNumber.Laws.
Module Sample.
#[export] Instance Texts : BsonTexts := {| utf8_error := λ _, []; hex_error := λ _, []; rfc3339 := λ _, None |}.
Abbreviation Num := PlainNumber.Num.
Definition int (z : Z) : Value Num := Number (of_i64 z).
(** {"a": [true, 1, 70000000000], "b": {"c": 0.5, "id": "0123..."}, "n": null} *)
Definition oid : bytes := str "0123456789abcdef01234567".
Definition doc : Document Num :=
  [(str "a", Array [Bool true; int 1; int 70000000000]);
   (str "b", Object [(str "c", Number (PlainNumber.Float (S754_finite false 4503599627370496 (-53)))); (str "id", String oid)]);
   (str "n", Null)].
End Sample.
#[local] Existing Instance Sample.Texts.

Lemma wf_key_check k : valid_utf8 k && bool_decide (0 ∉ k) = true → wf_key k.
Proof. by intros [? ?%bool_decide_eq_true]%andb_true_iff. Qed.
Lemma sample_wf : wf_doc Sample.doc.
Proof.
  assert (Hi : ∀ z, (-1000000000000 ≤ z ≤ 1000000000000)%Z → wf_value (Sample.int z)) by (intros z Hz; apply wf_int; unfold is_i64, i64_min, i64_max; lia).
  split; [by repeat constructor|].
  repeat first [apply Forall_nil_2|apply Forall_cons_2|split; [by apply wf_key_check|]|apply wf_null|apply wf_bool|by apply Hi|
    apply wf_array|apply wf_object; [by repeat constructor|]|by apply wf_string|by apply (wf_float (S754_finite false 4503599627370496 (-53)))].
Qed.
Lemma bson_roundtrip_witness : ∃ b, encode_doc Sample.doc = Ok b ∧ vlen b = 73 ∧ decode_doc (b ++ [7; 7]) = Ok Sample.doc.
Proof.
  destruct (encode_doc Sample.doc) as [b|] eqn:Hb; [|by vm_compute in Hb]. exists b. assert (Hl : vlen b = 73) by (vm_compute in Hb; by injection Hb as <-).
  split; [done|]. split; [done|]. apply (bson_roundtrip Sample.doc b [7; 7]); [apply sample_wf|done|rewrite Hl; unfold u32_modulus; lia].
Defined.

(** ** What goes wrong *)

(** A boolean cut off at the end of the message, and a string of length zero, panic. *)
Lemma truncated_bool_panics : decode_doc (Num := Sample.Num) [6; 0; 0; 0; TYPE_BOOL; 0] = Err Panicked.
Proof. done. Qed.
Lemma empty_string_panics : decode_doc (Num := Sample.Num) [11; 0; 0; 0; TYPE_STRING; 0; 0; 0; 0; 0; 0] = Err Panicked.
Proof. done. Qed.
(** From eleven items on, an array is written out of order: "10" comes before "2". *)
Lemma array_written_out_of_order :
  fst <$> array_doc (Num := Sample.Num) (repeat Null 11) = str <$> ["0"; "1"; "10"; "2"; "3"; "4"; "5"; "6"; "7"; "8"; "9"]%string.
Proof. by vm_compute. Qed.
(** A string of 24 hexadecimal digits is taken for an object id: capitals are lost. *)
Lemma hex_text_lowered : ∃ b, encode_doc (Num := Sample.Num) [([97], String (str "ABCDEFABCDEFABCDEFABCDEF"))] = Ok b ∧
  decode_doc (Num := Sample.Num) b = Ok [([97], String (str "abcdefabcdefabcdefabcdef"))].
Proof. eexists. split; [vm_compute; reflexivity|]. by vm_compute. Qed.
(** The payload of a type that is not known is read as elements: here the last eight bytes of
    a 128-bit decimal (type 19) become a field that was never sent. *)
Lemma unknown_type_misread :
  decode_doc (Num := Sample.Num) ([24; 0; 0; 0; 19; 97; 0] ++ [10; 98; 0; 10; 99; 0; 10; 100; 0; 10; 101; 0; 10; 102; 103; 0] ++ [0]) =
  Ok [([97], Null); ([98], Null); ([99], Null); ([100], Null); ([101], Null); ([102; 103], Null)].
Proof. by vm_compute. Qed.
(** A small integer sent with 64 bits is written back with 32. *)
Lemma int64_shrinks : ∃ doc b,
  decode_doc (Num := Sample.Num) [16; 0; 0; 0; TYPE_INT64; 97; 0; 5; 0; 0; 0; 0; 0; 0; 0; 0] = Ok doc ∧ encode_doc doc = Ok b ∧ vlen b = 12.
Proof. eexists _, _. split; [vm_compute; reflexivity|]. split; [vm_compute; reflexivity|]. done. Qed.
