(* ===== verification/DocWire.v ===== *)
(** * The wire protocol of cave-docdb

    crates/data/cave-docdb/src/wire.rs: OP_MSG messages to bytes and back, and the decoder of
    the four older operations.

    The loops over sections and documents have fuel; they move on by at least one byte a turn,
    so the length of the message is enough ([decode_op_msg_total]).  A message whose documents
    come back from BSON comes back itself ([op_msg_roundtrip]), provided that no document of a
    sequence has a length of 0 or 1 modulo 256: the decoder takes the first byte of such a
    document for the kind of the next section ([sequence_cut_short]). *)

From S2P Require Import Prelude Bytes BTree Float DocValue DocBson.

Inductive WireError : Type :=
| BsonFailed (msg : bytes)
| WireFailed (msg : bytes).
Inductive WireFailure : Type :=
| WireErr (e : WireError)
| WirePanicked
| WireOutOfFuel.

(** [Display for BsonError] *)
Definition bson_text (e : BsonError) : bytes :=
  match e with
  | InvalidType t => str "invalid bson type: " ++ decimal t
  | DecodeError m => str "decode error: " ++ m
  | EncodeError m => str "encode error: " ++ m
  end.
Definition wire {A} (msg : bytes) : result WireFailure A := Err (WireErr (WireFailed msg)).
(** [map_err(|e| WireError::BsonError(e.to_string()))] *)
Definition of_decode {A} (r : result Failure A) : result WireFailure A :=
  match r with
  | Ok a => Ok a
  | Err (Error e) => Err (WireErr (BsonFailed (bson_text e)))
  | Err Panicked => Err WirePanicked
  | Err OutOfFuel => Err WireOutOfFuel
  end.
Definition of_encode {A} (r : result BsonError A) : result WireFailure A :=
  match r with Ok a => Ok a | Err e => Err (WireErr (BsonFailed (bson_text e))) end.

Definition OPCODE : Z := 2013.
Definition OP_UPDATE : Z := 2001.
Definition OP_INSERT : Z := 2002.
Definition OP_QUERY : Z := 2004.
Definition OP_DELETE : Z := 2006.

Section Wire.
Context {Num : Type} `{NO : !NumberOps Num} `{HX : !Hex} `{BT : !BsonTexts}.

Inductive Section_ : Type :=
| Body (doc : Document Num)
| DocumentSequence (name : bytes) (docs : list (Document Num)).
Record OpMsg : Type := mkOpMsg { flag_bits : N; sections : list Section_ }.

(** [OpMsg::new] and [OpMsg::body] *)
Definition new_msg (doc : Document Num) : OpMsg := mkOpMsg 0 [Body doc].
Definition body (m : OpMsg) : option (Document Num) :=
  head (omap (λ s, match s with Body d => Some d | _ => None end) (sections m)).

(** ** Encoding *)

Fixpoint encode_docs (docs : list (Document Num)) (buf : bytes) : result WireFailure bytes :=
  match docs with
  | [] => Ok buf
  | d :: docs => let? e := of_encode (encode_doc d) in encode_docs docs (buf ++ e)
  end.
Definition encode_section (s : Section_) (payload : bytes) : result WireFailure bytes :=
  match s with
  | Body d => let? e := of_encode (encode_doc d) in Ok (payload ++ [0] ++ e)
  | DocumentSequence name docs =>
      let seq_data := name ++ [0] in
      let? docs_payload := encode_docs docs [] in
      let seq_len := (4 + vlen seq_data + vlen docs_payload) mod u32_modulus in
      Ok (payload ++ [1] ++ to_le 4 seq_len ++ seq_data ++ docs_payload)
  end.
Fixpoint encode_sections (ss : list Section_) (payload : bytes) : result WireFailure bytes :=
  match ss with
  | [] => Ok payload
  | s :: ss => let? payload := encode_section s payload in encode_sections ss payload
  end.
Definition encode_op_msg (reply : OpMsg) (request_id response_to : Z) : result WireFailure bytes :=
  let? payload := encode_sections (sections reply) (to_le 4 (flag_bits reply)) in
  let message_length := (16 + vlen payload) mod u32_modulus in
  Ok (to_le 4 message_length ++ to_le_i 4 request_id ++ to_le_i 4 response_to ++ to_le_i 4 OPCODE ++ payload).

(** ** Decoding *)

Definition slice_at (bytes : list N) (pos : usize) : result WireFailure (list N) :=
  if vlen bytes <? pos then Err WirePanicked else Ok (drop (N.to_nat pos) bytes).
Definition index_at (bytes : list N) (pos : usize) : result WireFailure N := ok_or (bytes !! N.to_nat pos) WirePanicked.
Definition wire_cstring (bytes : list N) : result WireFailure (list N * usize) :=
  match position_zero bytes with
  | Some i =>
      let s := take i bytes in
      if valid_utf8 s then Ok (s, N.of_nat i + 1) else wire (str "invalid utf8: " ++ utf8_error s)
  | None => wire (str "unterminated cstring")
  end.
(** A document and the length of its encoding, as both decoders advance. *)
Definition read_document (bytes : list N) (pos : usize) : result WireFailure (Document Num * usize) :=
  let? tail := slice_at bytes pos in
  let? doc := of_decode (decode_doc tail) in
  let? e := of_encode (encode_doc doc) in
  Ok (doc, vlen e).

(** [while pos < message_length] over the documents of a sequence *)
Fixpoint decode_docs (fuel : nat) (bytes : list N) (message_length pos : usize) (docs : list (Document Num)) :
    result WireFailure (list (Document Num) * usize) :=
  match fuel with
  | O => Err WireOutOfFuel
  | S fuel =>
      if pos <? message_length then
        let? b := index_at bytes pos in
        if (b =? 0) || (b =? 1) then Ok (docs, pos)
        else
          let? r := read_document bytes pos in
          let '(doc, consumed) := r in
          decode_docs fuel bytes message_length (pos + consumed) (docs ++ [doc])
      else Ok (docs, pos)
  end.
Fixpoint decode_sections (fuel : nat) (bytes : list N) (message_length pos : usize) (ss : list Section_) :
    result WireFailure (list Section_) :=
  match fuel with
  | O => Err WireOutOfFuel
  | S fuel =>
      if pos <? message_length then
        let? section_type := index_at bytes pos in
        let pos := pos + 1 in
        if section_type =? 0 then
          let? r := read_document bytes pos in
          let '(doc, consumed) := r in
          decode_sections fuel bytes message_length (pos + consumed) (ss ++ [Body doc])
        else if section_type =? 1 then
          if message_length <? pos + 4 then Ok ss
          else
            let pos := pos + 4 in
            let? tail := slice_at bytes pos in
            let? r := wire_cstring tail in
            let '(seq_name, consumed) := r in
            let? r := decode_docs (S (length bytes)) bytes message_length (pos + consumed) [] in
            let '(docs, pos) := r in
            decode_sections fuel bytes message_length pos (ss ++ [DocumentSequence seq_name docs])
        else Ok ss
      else Ok ss
  end.
Definition decode_op_msg (bytes : list N) : result WireFailure (Z * OpMsg) :=
  if vlen bytes <? 16 then wire (str "header too short")
  else
    let message_length := from_le (field bytes 0 4) in
    if vlen bytes <? message_length then wire (str "incomplete message")
    else
      let request_id := from_le_i 4 (field bytes 4 4) in
      let opcode := from_le_i 4 (field bytes 12 4) in
      if negb (opcode =? OPCODE)%Z then wire (str "invalid opcode: " ++ decimal_i64 opcode)
      else if vlen bytes <? 20 then Err WirePanicked
      else
        let? ss := decode_sections (S (length bytes)) bytes message_length 20 [] in
        Ok (request_id, mkOpMsg (from_le (field bytes 16 4)) ss).

(** ** The older operations *)

Record OpInsert : Type := mkOpInsert { in_flags : Z; in_collection : bytes; in_documents : list (Document Num) }.
Record OpUpdate : Type := mkOpUpdate { up_collection : bytes; up_flags : Z; up_selector : Document Num; up_update : Document Num }.
Record OpDelete : Type := mkOpDelete { de_collection : bytes; de_flags : Z; de_selector : Document Num }.
Record OpQuery : Type := mkOpQuery { qu_flags : Z; qu_collection : bytes; number_to_skip : Z; number_to_return : Z; qu_query : Document Num }.
Inductive LegacyOp : Type :=
| LInsert (op : OpInsert)
| LUpdate (op : OpUpdate)
| LDelete (op : OpDelete)
| LQuery (op : OpQuery).

Definition read_i32 (bytes : list N) (pos : usize) : result WireFailure Z :=
  if vlen bytes <? pos + 4 then wire (str "truncated i32") else Ok (from_le_i 4 (field bytes pos 4)).
(** [while pos < bytes.len()] *)
Fixpoint read_documents (fuel : nat) (bytes : list N) (pos : usize) (docs : list (Document Num)) : result WireFailure (list (Document Num)) :=
  match fuel with
  | O => Err WireOutOfFuel
  | S fuel =>
      if pos <? vlen bytes then
        let? r := read_document bytes pos in
        let '(d, c) := r in
        read_documents fuel bytes (pos + c) (docs ++ [d])
      else Ok docs
  end.
(** [read_cstring(&bytes[pos..])] *)
Definition read_name (bytes : list N) (pos : usize) : result WireFailure (list N * usize) :=
  let? tail := slice_at bytes pos in wire_cstring tail.

Definition decode_legacy (bytes : list N) : result WireFailure LegacyOp :=
  if vlen bytes <? 16 then wire (str "header too short")
  else
    let? opcode := read_i32 bytes 12 in
    let pos := 16 in
    if (opcode =? OP_INSERT)%Z then
      let? flags := read_i32 bytes pos in
      let pos := pos + 4 in
      let? r := read_name bytes pos in
      let '(collection, consumed) := r in
      let pos := pos + consumed in
      let? documents := read_documents (S (length bytes)) bytes pos [] in
      Ok (LInsert (mkOpInsert flags collection documents))
    else if (opcode =? OP_UPDATE)%Z then
      let pos := pos + 4 in
      let? r := read_name bytes pos in
      let '(collection, consumed) := r in
      let pos := pos + consumed in
      let? flags := read_i32 bytes pos in
      let pos := pos + 4 in
      let? r := read_document bytes pos in
      let '(selector, c1) := r in
      let pos := pos + c1 in
      let? r := read_document bytes pos in
      let '(update, _) := r in
      Ok (LUpdate (mkOpUpdate collection flags selector update))
    else if (opcode =? OP_DELETE)%Z then
      let pos := pos + 4 in
      let? r := read_name bytes pos in
      let '(collection, consumed) := r in
      let pos := pos + consumed in
      let? flags := read_i32 bytes pos in
      let pos := pos + 4 in
      let? r := read_document bytes pos in
      let '(selector, _) := r in
      Ok (LDelete (mkOpDelete collection flags selector))
    else if (opcode =? OP_QUERY)%Z then
      let? flags := read_i32 bytes pos in
      let pos := pos + 4 in
      let? r := read_name bytes pos in
      let '(collection, consumed) := r in
      let pos := pos + consumed in
      let? number_to_skip := read_i32 bytes pos in
      let pos := pos + 4 in
      let? number_to_return := read_i32 bytes pos in
      let pos := pos + 4 in
      let? r := read_document bytes pos in
      let '(query, _) := r in
      Ok (LQuery (mkOpQuery flags collection number_to_skip number_to_return query))
    else wire (str "not a legacy write/query opcode: " ++ decimal_i64 opcode).

(** ** Decoding ends *)

Implicit Types (bytes : list N).
Lemma encode_doc_length (doc : Document Num) e : encode_doc doc = Ok e → 4 ≤ vlen e.
Proof.
  unfold encode_doc, encode_map. destruct (DocBson.encode_all _ _); [|done]. intros [= <-]. rewrite !vlen_cons. lia.
Qed.
Lemma read_document_spec bytes pos : read_document bytes pos ≠ Err WireOutOfFuel ∧
  ∀ doc c, read_document bytes pos = Ok (doc, c) → 4 ≤ c.
Proof.
  unfold read_document. destruct (slice_at bytes pos) as [tail|e] eqn:Hs.
  2:{ split; [|done]. unfold slice_at in Hs. case_match; by simplify_eq. }
  pose proof (decode_doc_fuel_enough (Num := Num) (S (length tail)) tail ltac:(lia)) as Hf. fold (decode_doc (Num := Num) tail) in Hf.
  destruct (decode_doc tail) as [doc|[e| |]]; cbn [of_decode]; [|done..]. destruct (encode_doc doc) as [e|e] eqn:He; [|done].
  apply encode_doc_length in He. split; [done|]. intros doc' c [= _ <-]. done.
Qed.
Lemma decode_docs_fuel fuel bytes m pos docs : (N.to_nat m - N.to_nat pos < fuel)%nat → decode_docs fuel bytes m pos docs ≠ Err WireOutOfFuel ∧
  ∀ docs' pos', decode_docs fuel bytes m pos docs = Ok (docs', pos') → pos ≤ pos'.
Proof.
  revert pos docs. induction fuel as [|fuel IH]; intros pos docs Hf; [lia|]. cbn [decode_docs]. destruct (N.ltb_spec pos m).
  2:{ split; [done|]. by intros ?? [= _ <-]. }
  destruct (index_at bytes pos) as [b|e] eqn:Hi; [|split; [unfold index_at, ok_or in Hi; case_match; by simplify_eq|done]].
  destruct (_ || _); [split; [done|]; by intros ?? [= _ <-]|]. destruct (read_document_spec bytes pos) as [H1 H2].
  destruct (read_document bytes pos) as [[d c]|e]; [|split; [congruence|done]]. specialize (H2 d c eq_refl).
  destruct (IH (pos + c) (docs ++ [d])) as [H3 H4]; [lia|]. split; [done|]. intros docs' pos' H5%H4. lia.
Qed.
Lemma decode_sections_fuel fuel bytes m pos ss : (N.to_nat m - N.to_nat pos < fuel)%nat → m ≤ vlen bytes →
  decode_sections fuel bytes m pos ss ≠ Err WireOutOfFuel.
Proof.
  intros Hf Hm. revert pos ss Hf. induction fuel as [|fuel IH]; intros pos ss Hf; [lia|]. cbn [decode_sections]. destruct (N.ltb_spec pos m); [|done].
  destruct (index_at bytes pos) as [b|e] eqn:Hi; [|unfold index_at, ok_or in Hi; case_match; by simplify_eq].
  destruct (b =? 0).
  - destruct (read_document_spec bytes (pos + 1)) as [H1 H2]. destruct (read_document bytes (pos + 1)) as [[d c]|e]; [|congruence]. apply IH. lia.
  - destruct (b =? 1); [|done]. destruct (_ <? _); [done|].
    destruct (slice_at bytes (pos + 1 + 4)) as [tail|e] eqn:Hs; [|unfold slice_at in Hs; case_match; by simplify_eq].
    destruct (wire_cstring tail) as [[name c]|e] eqn:Hn; [|unfold wire_cstring, wire in Hn; repeat case_match; by simplify_eq].
    destruct (decode_docs_fuel (S (length bytes)) bytes m (pos + 1 + 4 + c) []) as [H1 H2]; [unfold vlen in Hm; lia|].
    destruct (decode_docs _ bytes m _ []) as [[docs pos']|e]; [|congruence]. specialize (H2 _ _ eq_refl). apply IH. lia.
Qed.
(** Decoding a message ends, whatever the bytes. *)
Lemma decode_op_msg_total bytes : decode_op_msg bytes ≠ Err WireOutOfFuel.
Proof.
  unfold decode_op_msg. destruct (_ <? 16); [done|]. destruct (N.ltb_spec (vlen bytes) (from_le (field bytes 0 4))); [done|]. destruct (negb _); [done|].
  destruct (_ <? 20); [done|]. pose proof (decode_sections_fuel (S (length bytes)) bytes (from_le (field bytes 0 4)) 20 []) as Hf.
  destruct (decode_sections _ _ _ _ _); [done|]. intros [= ->]. apply Hf; [unfold vlen in *; lia|done|done].
Qed.
End Wire.

(** ** What is encoded is decoded again *)

Section RoundTrip.
Context {Num : Type} `{NO : !NumberOps Num} `{NL : !NumberLaws Num} `{HX : !Hex} `{HL : !HexLaws} `{BT : !BsonTexts}.

(** The first byte of a document of a sequence must not look like the kind of a section. *)
Definition plain_length (d : Document Num) : Prop := ∀ b, encode_doc d = Ok b → 2 ≤ vlen b mod 256.
Definition wf_section (s : @Section_ Num) : Prop :=
  match s with
  | Body d => wf_doc d
  | DocumentSequence name docs => wf_key name ∧ Forall (λ d, wf_doc d ∧ plain_length d) docs
  end.

(** A document in the middle of a message. *)
Definition document_ok (d : Document Num) (b : bytes) : Prop :=
  encode_doc d = Ok b ∧ 5 ≤ vlen b ∧
  ∀ pre rest, vlen b < u32_modulus → read_document (pre ++ b ++ rest) (vlen pre) = Ok (d, vlen b) ∧ b !! 0%nat = Some (vlen b mod 256).
Lemma to_le_head x l : (to_le 4 x ++ l) !! 0%nat = Some (x mod 256).
Proof. done. Qed.
Lemma encode_doc_head (d : Document Num) b : encode_doc d = Ok b → vlen b < u32_modulus → from_le (take 4 b) = vlen b → b !! 0%nat = Some (vlen b mod 256).
Proof.
  unfold encode_doc, encode_map. destruct (DocBson.encode_all _ _) as [buf|]; [|done]. set (x := vlen (buf ++ [0]) mod u32_modulus). intros Hb _ Hv.
  assert (Hx : b = to_le 4 x ++ drop 4 (buf ++ [0])) by congruence. clear Hb. rewrite <- Hv, Hx, take_app_length' by (by rewrite length_to_le).
  rewrite from_le_to_le; [by rewrite to_le_head|]. change (256 ^ N.of_nat 4) with u32_modulus. by apply N.mod_lt.
Qed.
Lemma slice_at_app pre rest : slice_at (pre ++ rest) (vlen pre) = Ok rest.
Proof.
  unfold slice_at. destruct (N.ltb_spec (vlen (pre ++ rest)) (vlen pre)); [rewrite vlen_app in *; lia|].
  assert (N.to_nat (vlen pre) = length pre) as -> by (unfold vlen; lia). by rewrite drop_app_length.
Qed.
Lemma index_at_app pre b rest : index_at (pre ++ b :: rest) (vlen pre) = Ok b.
Proof. unfold index_at. assert (N.to_nat (vlen pre) = length pre) as -> by (unfold vlen; lia). by rewrite list_lookup_middle. Qed.
Lemma document_back d : wf_doc d → ∃ b, document_ok d b.
Proof.
  intros Hw. destruct (wf_doc_back d Hw) as (b & Hb & H5 & H4 & Hd). exists b. split_and!; [done|done|]. intros pre rest Hlt.
  split; [|by apply (encode_doc_head d); auto]. unfold read_document. rewrite slice_at_app, Hd by done. cbn [of_decode]. by rewrite Hb.
Qed.

Lemma documents_back docs bs : Forall2 document_ok docs bs → Forall plain_length docs →
  (∀ buf, encode_docs docs buf = Ok (buf ++ mjoin bs)) ∧
  ∀ pre rest acc fuel, vlen (pre ++ mjoin bs ++ rest) < u32_modulus → (∀ b, rest !! 0%nat = Some b → b = 0 ∨ b = 1) → (length docs < fuel)%nat →
    decode_docs fuel (pre ++ mjoin bs ++ rest) (vlen (pre ++ mjoin bs ++ rest)) (vlen pre) acc = Ok (acc ++ docs, vlen (pre ++ mjoin bs)).
Proof.
  induction 1 as [|d b docs bs (Hb & H5 & Hd) _ IH]; intros Hp.
  - split; [intros buf; cbn; by rewrite app_nil_r|]. intros pre rest acc [|fuel] Hlt Hrest Hf; [cbn in Hf; lia|]. cbn [decode_docs].
    change (mjoin []) with (@nil N). rewrite !app_nil_r. cbn [app]. destruct rest as [|x rest].
    + rewrite app_nil_r, N.ltb_irrefl. done.
    + destruct (N.ltb_spec (vlen pre) (vlen (pre ++ x :: rest))); [|rewrite vlen_app, vlen_cons in *; lia]. rewrite index_at_app.
      by destruct (Hrest x eq_refl) as [-> | ->].
  - apply Forall_cons in Hp as [Hp Hps]. destruct (IH Hps) as [IH1 IH2]. change (mjoin (b :: bs)) with (b ++ mjoin bs). split.
    + intros buf. cbn [encode_docs]. rewrite Hb. cbn [of_encode]. by rewrite IH1, app_assoc.
    + intros pre rest acc [|fuel] Hlt Hrest Hf; [cbn in Hf; lia|]. cbn [decode_docs]. rewrite !vlen_app in Hlt. rewrite <- app_assoc.
      destruct (N.ltb_spec (vlen pre) (vlen (pre ++ b ++ mjoin bs ++ rest))); [|rewrite !vlen_app in *; lia].
      destruct (Hd pre (mjoin bs ++ rest)) as [Hread Hhead]; [lia|]. rewrite Hread. specialize (Hp b Hb).
      destruct b as [|x b]; [done|]. injection Hhead as Hx. cbn [app]. rewrite index_at_app.
      destruct (N.eqb_spec x 0); [lia|]. destruct (N.eqb_spec x 1); [lia|]. cbn [orb].
      specialize (IH2 (pre ++ x :: b) rest (acc ++ [d]) fuel). rewrite <- !app_assoc in IH2. cbn [app] in IH2. rewrite <- vlen_app.
      apply IH2; [rewrite vlen_cons in Hlt; rewrite vlen_app, vlen_cons, !vlen_app; lia|done|cbn in Hf; lia].
Qed.

(** A section in the middle of a message, which another section or nothing follows. *)
Definition section_ok (s : @Section_ Num) (b : bytes) : Prop :=
  (∀ payload, encode_section s payload = Ok (payload ++ b)) ∧ (∃ k b', b = k :: b' ∧ (k = 0 ∨ k = 1)) ∧
  ∀ pre rest ss fuel, vlen (pre ++ b ++ rest) < u32_modulus → (∀ x, rest !! 0%nat = Some x → x = 0 ∨ x = 1) →
    decode_sections (S fuel) (pre ++ b ++ rest) (vlen (pre ++ b ++ rest)) (vlen pre) ss =
    decode_sections fuel (pre ++ b ++ rest) (vlen (pre ++ b ++ rest)) (vlen (pre ++ b)) (ss ++ [s]).
Lemma body_back d : wf_doc d → ∃ b, section_ok (Body d) b.
Proof.
  intros Hw. destruct (document_back d Hw) as (b & Hb & H5 & Hd). exists (0 :: b). split_and!; [|by eexists _, _; split; [|left]|].
  { intros payload. cbn [encode_section]. by rewrite Hb. }
  intros pre rest ss fuel Hlt _. cbn [decode_sections]. destruct (N.ltb_spec (vlen pre) (vlen (pre ++ (0 :: b) ++ rest))); [|rewrite !vlen_app, vlen_cons in *; lia].
  cbn [app]. rewrite index_at_app. cbn [N.eqb]. assert (Hp : vlen pre + 1 = vlen (pre ++ [0])) by by rewrite vlen_app. rewrite Hp.
  destruct (Hd (pre ++ [0]) rest) as [Hread _]; [rewrite !vlen_app, vlen_cons in Hlt; lia|]. rewrite <- app_assoc in Hread. cbn [app] in Hread. rewrite Hread.
  rewrite <- vlen_app, <- app_assoc. done.
Qed.
Lemma wire_name name rest : wf_key name → wire_cstring (name ++ 0 :: rest) = Ok (name, vlen name + 1).
Proof.
  intros Hk. pose proof (read_key name rest Hk) as H. unfold read_cstring, wire_cstring in *. destruct (position_zero _); [|done]. destruct (valid_utf8 _); [|done].
  by injection H as -> ->.
Qed.
Lemma sequence_back name docs : wf_key name → Forall (λ d, wf_doc d ∧ plain_length d) docs → ∃ b, section_ok (DocumentSequence name docs) b.
Proof.
  intros Hk Hf. assert (Hbs : ∃ bs, Forall2 document_ok docs bs).
  { clear Hk. induction Hf as [|d docs [Hd _] _ (bs & IH)]; [by exists []|]. destruct (document_back d Hd) as [b Hb]. exists (b :: bs). by constructor. }
  destruct Hbs as [bs Hbs]. assert (Hp : Forall plain_length docs) by (eapply Forall_impl; [exact Hf|]; by intros d [_ ?]).
  destruct (documents_back docs bs Hbs Hp) as [He Hd]. set (len := (4 + vlen (name ++ [0]) + vlen (mjoin bs)) mod u32_modulus).
  exists (1 :: to_le 4 len ++ name ++ 0 :: mjoin bs). split_and!; [|by eexists _, _; split; [|right]|].
  { intros payload. cbn [encode_section]. rewrite He. cbn [app]. fold len. by rewrite <- !app_assoc. }
  intros pre rest ss fuel Hlt Hrest. cbn [decode_sections]. set (bytes := pre ++ _ ++ rest) in *. set (m := vlen bytes) in *.
  assert (Hm : m = vlen pre + 1 + 4 + (vlen name + 1) + vlen (mjoin bs) + vlen rest).
  { unfold m, bytes. rewrite !vlen_app, vlen_cons, vlen_app, vlen_to_le, vlen_app, vlen_cons. lia. }
  destruct (N.ltb_spec (vlen pre) m); [|lia]. unfold bytes at 1. cbn [app]. rewrite index_at_app. cbn [N.eqb Pos.eqb].
  destruct (N.ltb_spec m (vlen pre + 1 + 4)); [lia|].
  set (pre1 := pre ++ 1 :: to_le 4 len). assert (Hp1 : vlen pre + 1 + 4 = vlen pre1) by (unfold pre1; rewrite vlen_app, vlen_cons, vlen_to_le; lia).
  assert (Hb1 : bytes = pre1 ++ name ++ 0 :: (mjoin bs ++ rest)) by (unfold bytes, pre1; cbn [app]; rewrite <- !app_assoc; cbn [app]; by rewrite <- ?app_assoc).
  rewrite Hp1. rewrite Hb1 at 1. rewrite slice_at_app, wire_name by done.
  set (pre2 := pre1 ++ name ++ [0]). assert (Hp2 : vlen pre1 + (vlen name + 1) = vlen pre2) by (unfold pre2; by rewrite !vlen_app).
  assert (Hb2 : bytes = pre2 ++ mjoin bs ++ rest) by (rewrite Hb1; unfold pre2; by rewrite <- !app_assoc).
  rewrite Hp2. specialize (Hd pre2 rest [] (S (length bytes))). rewrite <- Hb2 in Hd. fold m in Hd. rewrite Hd; [|done|done|].
  - cbn [app]. do 2 f_equal. unfold pre2, pre1. rewrite <- !app_assoc. cbn [app]. by rewrite <- ?app_assoc.
  - apply Forall2_length in Hbs as Hl. clear -Hl Hbs Hb2. rewrite Hb2, !length_app. assert (length bs ≤ length (mjoin bs))%nat; [|lia]. clear -Hbs.
    induction Hbs as [|d b docs bs (_ & H5 & _) _ IH]; [done|]. change (mjoin (b :: bs)) with (b ++ mjoin bs). rewrite length_app. unfold vlen in H5. cbn [length]. lia.
Qed.
Lemma sections_back ss : Forall wf_section ss → ∃ bs, Forall2 section_ok ss bs.
Proof.
  induction 1 as [|s ss Hs _ (bs & IH)]; [by exists []|]. assert (∃ b, section_ok s b) as [b Hb].
  { destruct s as [d|name docs]; [by apply body_back|]. destruct Hs. by apply sequence_back. }
  exists (b :: bs). by constructor.
Qed.
Lemma sections_decoded ss bs : Forall2 section_ok ss bs →
  (∀ payload, encode_sections ss payload = Ok (payload ++ mjoin bs)) ∧
  ∀ pre acc fuel, vlen (pre ++ mjoin bs) < u32_modulus → (length ss < fuel)%nat →
    decode_sections fuel (pre ++ mjoin bs) (vlen (pre ++ mjoin bs)) (vlen pre) acc = Ok (acc ++ ss).
Proof.
  induction 1 as [|s b ss bs (He & Hk & Hd) Hf [IH1 IH2]].
  - split; [intros payload; cbn; by rewrite app_nil_r|]. intros pre acc [|fuel] _ Hl; [cbn in Hl; lia|]. cbn [decode_sections].
    change (mjoin []) with (@nil N). by rewrite !app_nil_r, N.ltb_irrefl.
  - change (mjoin (b :: bs)) with (b ++ mjoin bs). split; [intros payload; cbn [encode_sections]; by rewrite He, IH1, <- app_assoc|].
    intros pre acc [|fuel] Hlt Hl; [cbn in Hl; lia|]. rewrite Hd; [|done|].
    + specialize (IH2 (pre ++ b) (acc ++ [s]) fuel). rewrite <- !app_assoc in IH2. apply IH2; [done|cbn in Hl; lia].
    + intros x Hx. destruct Hf as [|s' b' ss bs (_ & (k & b'' & -> & Hk') & _) _]; [done|]. cbn in Hx. injection Hx as <-. done.
Qed.

(** What an encoded message is made of. *)
Lemma encode_op_msg_shape m rid rto : Forall wf_section (sections m) → ∃ bs payload,
  Forall2 section_ok (sections m) bs ∧ payload = to_le 4 (flag_bits m) ++ mjoin bs ∧
  encode_op_msg m rid rto = Ok (to_le 4 ((16 + vlen payload) mod u32_modulus) ++ to_le_i 4 rid ++ to_le_i 4 rto ++ to_le_i 4 OPCODE ++ payload).
Proof.
  intros [bs Hbs]%sections_back. exists bs, (to_le 4 (flag_bits m) ++ mjoin bs). destruct (sections_decoded _ _ Hbs) as [He _].
  split; [done|]. split; [done|]. unfold encode_op_msg. by rewrite He.
Qed.
Definition is_i32 (z : Z) : Prop := (-2147483648 ≤ z ≤ 2147483647)%Z.
Lemma field_app pre x rest n : length x = n → field (pre ++ x ++ rest) (vlen pre) n = x.
Proof. intros <-. unfold field. assert (N.to_nat (vlen pre) = length pre) as -> by (unfold vlen; lia). by rewrite drop_app_length, take_app_length. Qed.

Lemma op_msg_back m rid rto b : Forall wf_section (sections m) → flag_bits m < u32_modulus → is_i32 rid →
  encode_op_msg m rid rto = Ok b → vlen b < u32_modulus → decode_op_msg b = Ok (rid, m).
Proof.
  intros Hw Hfl Hr Hb Hlt. destruct (encode_op_msg_shape m rid rto Hw) as (bs & payload & Hbs & Hp & He). rewrite He in Hb. clear He.
  set (h := to_le 4 ((16 + vlen payload) mod u32_modulus)) in *. assert (b = h ++ to_le_i 4 rid ++ to_le_i 4 rto ++ to_le_i 4 OPCODE ++ payload) as -> by congruence.
  set (b := h ++ _) in *. clear Hb. set (r := to_le_i 4 rid) in *. set (t := to_le_i 4 rto) in *. set (o := to_le_i 4 OPCODE) in *.
  assert (Hlen : length h = 4%nat ∧ length r = 4%nat ∧ length t = 4%nat ∧ length o = 4%nat) by done. destruct Hlen as (Hh & Hlr & Ht & Ho).
  assert (Hvp : vlen b = 16 + vlen payload) by (unfold b, vlen in *; rewrite !length_app; lia).
  assert (Hvf : vlen payload = 4 + vlen (mjoin bs)) by (rewrite Hp, vlen_app, vlen_to_le; lia).
  assert (F0 : field b 0 4 = h) by (by apply (field_app [] h)). assert (F4 : field b 4 4 = r) by (apply (field_app h r); done).
  assert (F12 : field b 12 4 = o). { pose proof (field_app (h ++ r ++ t) o payload 4 Ho) as H. rewrite <- !app_assoc in H. exact H. }
  assert (F16 : field b 16 4 = to_le 4 (flag_bits m)).
  { pose proof (field_app (h ++ r ++ t ++ o) (to_le 4 (flag_bits m)) (mjoin bs) 4) as H. rewrite <- !app_assoc, <- Hp in H. apply H. done. }
  unfold decode_op_msg. rewrite F0, F4, F12, F16. destruct (N.ltb_spec (vlen b) 16); [lia|].
  assert (from_le h = vlen b) as ->. { unfold h. rewrite N.mod_small by lia. rewrite from_le_to_le; [lia|]. change (256 ^ N.of_nat 4) with u32_modulus. lia. }
  rewrite N.ltb_irrefl. assert (from_le_i 4 o = OPCODE) as -> by done. cbn [Z.eqb Pos.eqb OPCODE negb]. destruct (N.ltb_spec (vlen b) 20); [lia|].
  destruct (sections_decoded _ _ Hbs) as [_ Hd]. specialize (Hd (h ++ r ++ t ++ o ++ to_le 4 (flag_bits m)) [] (S (length b))).
  rewrite <- !app_assoc, <- Hp in Hd. fold b in Hd. cbn [app] in Hd.
  change (vlen (h ++ r ++ t ++ o ++ to_le 4 (flag_bits m))) with 20 in Hd. rewrite Hd; [|done|].
  - unfold r. rewrite from_le_to_le_i, from_le_to_le; [by destruct m|done|]. unfold is_i32 in Hr. change (256 ^ Z.of_nat 4)%Z with 4294967296%Z. lia.
  - apply Forall2_length in Hbs as Hl. assert (length bs ≤ length (mjoin bs))%nat; [|unfold vlen in *; lia]. clear -Hbs.
    induction Hbs as [|s x ss bs (_ & (k & x' & -> & _) & _) _ IH]; [done|]. change (mjoin ((k :: x') :: bs)) with ((k :: x') ++ mjoin bs). rewrite length_app. cbn [length]. lia.
Qed.
(** A message that is encoded is decoded again, with its request id, its flags and its
    sections in order. *)
Theorem op_msg_roundtrip m rid rto b : Forall wf_section (sections m) → flag_bits m < u32_modulus → is_i32 rid →
  encode_op_msg m rid rto = Ok b → vlen b < u32_modulus → decode_op_msg b = Ok (rid, m).
Proof. apply op_msg_back. Qed.
End RoundTrip.

(** ** Concrete messages *)

#[local] Existing Instances PlainHex.PlainHex PlainHex.PlainHex_laws PlainNumber.Ops PlainNumber.Laws Sample.Texts.
Abbreviation Num := PlainNumber.Num.
Definition small_doc : Document Num := [(str "x", Sample.int 1)].
Definition sample_msg : OpMsg := mkOpMsg 0 [Body Sample.doc; DocumentSequence (str "docs") [small_doc; small_doc]].

Lemma small_wf : wf_doc small_doc ∧ plain_length small_doc.
Proof.
  split; [split|].
  - by repeat constructor.
  - constructor; [|constructor]. split; [by apply wf_key_check|]. by apply wf_int.
  - intros b Hb. vm_compute in Hb. by injection Hb as <-.
Qed.
Lemma op_msg_roundtrip_witness : ∃ b, encode_op_msg sample_msg 7 0 = Ok b ∧ decode_op_msg b = Ok (7%Z, sample_msg).
Proof.
  destruct (encode_op_msg sample_msg 7 0) as [b|] eqn:Hb; [|by vm_compute in Hb]. exists b. split; [done|].
  apply (op_msg_roundtrip sample_msg 7 0 b); [|done|done|done|vm_compute in Hb; by injection Hb as <-].
  constructor; [apply sample_wf|]. constructor; [|constructor]. split; [by apply wf_key_check|]. do 2 (constructor; [apply small_wf|]). constructor.
Defined.

(** ** What goes wrong *)

Definition header (n : N) : bytes := to_le 4 n ++ to_le_i 4 1 ++ to_le_i 4 0 ++ to_le_i 4 OPCODE.
(** A message that is a header and nothing else panics. *)
Lemma header_only_panics : decode_op_msg (Num := Num) (header 16) = Err WirePanicked.
Proof. done. Qed.

(** The decoder steps over a document by the length it would itself have written: a body with
    a small integer in 64 bits, as drivers send them, is refused. *)
Definition int64_doc : bytes := [16; 0; 0; 0; TYPE_INT64; 97; 0; 5; 0; 0; 0; 0; 0; 0; 0; 0].
Lemma int64_body_refused :
  decode_doc (Num := Num) int64_doc = Ok [([97], Sample.int 5)] ∧
  decode_op_msg (Num := Num) (header 37 ++ to_le 4 0 ++ [0] ++ int64_doc) = Err (WireErr (BsonFailed (str "decode error: document too short"))).
Proof. by vm_compute. Qed.

(** A document of 256 bytes in a sequence is taken for the next section: the sequence is cut
    short before it, and what is left is read as something else. *)
Definition long_doc : Document Num := [(str "x", String (repeat 65 243))].
Lemma sequence_cut_short : ∃ b m, encode_op_msg (mkOpMsg 0 [DocumentSequence (str "docs") [small_doc; long_doc]]) 7 0 = Ok b ∧
  decode_op_msg b = m ∧ m = Err (WireErr (BsonFailed (str "decode error: incomplete document"))).
Proof. eexists _, _. split; [vm_compute; reflexivity|]. split; [reflexivity|]. by vm_compute. Qed.
