(* ===== verification/DocQuery.v ===== *)
(** * Queries, updates and projections of cave-docdb

    crates/data/cave-docdb/src/query.rs, update.rs and projection.rs.

    A query is a document whose fields all have to hold; the conditions of [$and] and [$or] are
    queries themselves, so the functions recurse on values.  Copying the fields of a map into a
    [Document] one by one gives the same pairs back and is left out.  The regular expressions
    are those of the regex crate, a parameter.

    The theorems: what a query accepts, operator by operator ([query_spec]); a replacement
    keeps the id and takes everything else from the update ([replacement_spec]); the effect of
    [$set] and [$unset], field by field ([set_unset_spec]); what a projection keeps
    ([projection_spec]). *)

From Stdlib Require Import ZArith SpecFloat.
From S2P Require Import Prelude Bytes BTree Float DocValue.

(** [Regex::new(pattern)] and [is_match]; [None] when the pattern is not one. *)
Class Regex : Type := { regex_match : bytes → bytes → option bool }.

(** [a + b] on [i64] *)
Definition i64_add (a b : Z) : Z := wrap_i64 (a + b).

Section Ops.
Context {Num : Type} `{NO : !NumberOps Num} `{RX : !Regex}.

(** ** Values *)

Definition value_i64 (v : Value Num) : option Z := match v with Number n => as_i64 n | _ => None end.
Definition value_f64 (v : Value Num) : option f64 := match v with Number n => as_f64 n | _ => None end.
Definition value_str (v : Value Num) : option bytes := match v with String s => Some s | _ => None end.
Definition value_bool (v : Value Num) : option bool := match v with Bool b => Some b | _ => None end.
Definition value_array (v : Value Num) : option (list (Value Num)) := match v with Array l => Some l | _ => None end.
Definition value_object (v : Value Num) : option (Document Num) := match v with Object m => Some m | _ => None end.
(** [PartialEq for Value] *)
Fixpoint value_eqb (a b : Value Num) : bool :=
  match a, b with
  | Null, Null => true
  | Bool a, Bool b => Bool.eqb a b
  | Number a, Number b => num_eqb a b
  | String a, String b => bool_decide (a = b)
  | Array a, Array b =>
      (fix go a b := match a, b with [], [] => true | x :: a, y :: b => value_eqb x y && go a b | _, _ => false end) a b
  | Object a, Object b =>
      (fix go a b := match a, b with [], [] => true | (k, x) :: a, (l, y) :: b => bool_decide (k = l) && value_eqb x y && go a b | _, _ => false end) a b
  | _, _ => false
  end.

(** ** query.rs *)

Definition compare_values (a b : Value Num) (cmp : Z → Z → bool) : bool :=
  match value_i64 a, value_i64 b with
  | Some av, Some bv => cmp av bv
  | _, _ =>
      match value_f64 a, value_f64 b with
      | Some av, Some bv => if f64_is_nan av || f64_is_nan bv then false else cmp (f64_to_i64 av) (f64_to_i64 bv)
      | _, _ => false
      end
  end.

(** One turn of the loop over the operators of a field; the loop stops at the first [false]. *)
Definition operator_holds (doc_value : Value Num) (op : bytes) (op_value : Value Num) : bool :=
  if bool_decide (op = str "$eq") then value_eqb doc_value op_value
  else if bool_decide (op = str "$ne") then negb (value_eqb doc_value op_value)
  else if bool_decide (op = str "$gt") then compare_values doc_value op_value (λ a b, (b <? a)%Z)
  else if bool_decide (op = str "$gte") then compare_values doc_value op_value (λ a b, (b <=? a)%Z)
  else if bool_decide (op = str "$lt") then compare_values doc_value op_value (λ a b, (a <? b)%Z)
  else if bool_decide (op = str "$lte") then compare_values doc_value op_value (λ a b, (a <=? b)%Z)
  else if bool_decide (op = str "$in") then
    match value_array op_value with Some arr => existsb (value_eqb doc_value) arr | None => false end
  else if bool_decide (op = str "$nin") then
    match value_array op_value with Some arr => negb (existsb (value_eqb doc_value) arr) | None => true end
  else if bool_decide (op = str "$exists") then
    let exists_ := default false (value_bool op_value) in
    negb (negb exists_ && negb (match doc_value with Null => true | _ => false end))
  else if bool_decide (op = str "$regex") then
    match value_str op_value with
    | Some pattern =>
        match value_str doc_value with
        | Some doc_str => match regex_match pattern doc_str with Some b => b | None => false end
        | None => false
        end
    | None => true
    end
  else true.
Definition matches_value (doc_value query_value : Value Num) : bool :=
  match query_value with
  | Object obj => forallb (λ e, operator_holds doc_value e.1 e.2) obj
  | _ => value_eqb doc_value query_value
  end.

(** A field that is not [$and] or [$or]. *)
Definition field_matches (doc : Document Num) (key : bytes) (query_value : Value Num) : bool :=
  match BTreeMap.get key doc with
  | Some doc_value => matches_value doc_value query_value
  | None =>
      match query_value with
      | Object obj => match BTreeMap.get (str "$exists") obj with Some (Bool false) => true | _ => false end
      | _ => false
      end
  end.
Fixpoint matches (doc : Document Num) (query : Value Num) : bool :=
  match query with
  | Object fields =>
      (fix go fields :=
         match fields with
         | [] => true
         | (key, query_value) :: fields =>
             (if bool_decide (key = str "$and") then
                match query_value with
                | Array conditions => (fix all cs := match cs with [] => true | c :: cs => matches doc c && all cs end) conditions
                | _ => true
                end
              else if bool_decide (key = str "$or") then
                match query_value with
                | Array conditions => (fix any cs := match cs with [] => false | c :: cs => matches doc c || any cs end) conditions
                | _ => true
                end
              else field_matches doc key query_value) && go fields
         end) fields
  | _ => false
  end.
Definition matches_query (doc query : Document Num) : bool := matches doc (Object query).

(** ** update.rs *)

Definition set_field (doc : Document Num) (e : bytes * Value Num) : Document Num := BTreeMap.insert e.1 e.2 doc.
Definition unset_field (doc : Document Num) (e : bytes * Value Num) : Document Num := BTreeMap.remove e.1 doc.
Definition inc_field (doc : Document Num) (e : bytes * Value Num) : Document Num :=
  match value_i64 e.2 with
  | Some inc_val =>
      let current := default 0%Z (v ← BTreeMap.get e.1 doc; value_i64 v) in
      BTreeMap.insert e.1 (Number (of_i64 (i64_add current inc_val))) doc
  | None => doc
  end.
Definition push_field (doc : Document Num) (e : bytes * Value Num) : Document Num :=
  let arr := default [] (v ← BTreeMap.get e.1 doc; value_array v) in
  BTreeMap.insert e.1 (Array (arr ++ [e.2])) doc.
Definition pull_field (doc : Document Num) (e : bytes * Value Num) : Document Num :=
  match v ← BTreeMap.get e.1 doc; value_array v with
  | Some arr => BTreeMap.insert e.1 (Array (List.filter (λ item, negb (value_eqb item e.2)) arr)) doc
  | None => doc
  end.
Definition add_to_set_field (doc : Document Num) (e : bytes * Value Num) : Document Num :=
  let arr := default [] (v ← BTreeMap.get e.1 doc; value_array v) in
  let arr := if existsb (λ x, value_eqb x e.2) arr then arr else arr ++ [e.2] in
  BTreeMap.insert e.1 (Array arr) doc.
Definition rename_field (doc : Document Num) (e : bytes * Value Num) : Document Num :=
  match value_str e.2 with
  | Some new_name =>
      match BTreeMap.get e.1 doc with
      | Some val => BTreeMap.insert new_name val (BTreeMap.remove e.1 doc)
      | None => doc
      end
  | None => doc
  end.
(** What an operator does to each field it names. *)
Definition operator (key : bytes) : option (Document Num → bytes * Value Num → Document Num) :=
  if bool_decide (key = str "$set") then Some set_field
  else if bool_decide (key = str "$unset") then Some unset_field
  else if bool_decide (key = str "$inc") then Some inc_field
  else if bool_decide (key = str "$push") then Some push_field
  else if bool_decide (key = str "$pull") then Some pull_field
  else if bool_decide (key = str "$addToSet") then Some add_to_set_field
  else if bool_decide (key = str "$rename") then Some rename_field
  else None.
(** [starts_with('$')] *)
Definition is_operator (key : bytes) : bool := match key with b :: _ => b =? 36 | [] => false end.
Definition apply_field (doc : Document Num) (e : bytes * Value Num) : Document Num :=
  if is_operator e.1 then
    match operator e.1, value_object e.2 with Some f, Some obj => foldl f doc obj | _, _ => doc end
  else doc.
Definition apply_update (doc update : Document Num) : Document Num :=
  let updated := foldl apply_field doc update in
  if existsb (λ e, is_operator e.1) update then updated
  else
    let id := BTreeMap.get (str "_id") updated in
    let replaced := foldl set_field [] update in
    match id with Some id_val => BTreeMap.insert (str "_id") id_val replaced | None => replaced end.

(** ** projection.rs *)

Definition includes (v : Value Num) : bool :=
  match value_i64 v with Some num => (num =? 1)%Z | None => match value_bool v with Some b => b | None => false end end.
Definition excludes (v : Value Num) : bool :=
  match value_i64 v with Some num => (num =? 0)%Z | None => match value_bool v with Some b => negb b | None => false end end.
Definition include_field (doc result : Document Num) (e : bytes * Value Num) : Document Num :=
  match value_i64 e.2 with
  | Some num => if (num =? 1)%Z then match BTreeMap.get e.1 doc with Some v => BTreeMap.insert e.1 v result | None => result end else result
  | None => result
  end.
Definition exclude_field (result : Document Num) (e : bytes * Value Num) : Document Num :=
  if excludes e.2 then BTreeMap.remove e.1 result else result.
Definition apply_projection (doc : Document Num) (projection : option (Document Num)) : Document Num :=
  match projection with
  | None => doc
  | Some proj =>
      if existsb (λ e, includes e.2) proj then
        let result := foldl (include_field doc) [] proj in
        let keep_id := match BTreeMap.get (str "_id") proj with Some v => negb (value_eqb v (Number (of_i64 0))) | None => true end in
        if keep_id then match BTreeMap.get (str "_id") doc with Some id => BTreeMap.insert (str "_id") id result | None => result end
        else result
      else foldl exclude_field doc proj
  end.
End Ops.

(** ** Queries *)

Section Spec.
Context {Num : Type} `{NO : !NumberOps Num} `{NL : !NumberLaws Num} `{RX : !Regex}.
Implicit Types (doc query update proj obj : Document Num).

(** What a query says: every field of it holds, a connective of all or one of its conditions. *)
Definition holds doc (key : bytes) (v : Value Num) : Prop :=
  if bool_decide (key = str "$and") then ∀ cs q, v = Array cs → q ∈ cs → matches doc q = true
  else if bool_decide (key = str "$or") then ∀ cs, v = Array cs → ∃ q, q ∈ cs ∧ matches doc q = true
  else field_matches doc key v = true.
Lemma query_spec doc query : matches_query doc query = true ↔ ∀ key v, (key, v) ∈ query → holds doc key v.
Proof.
  unfold matches_query. cbn [matches]. induction query as [|[k w] query IH]; [split; [by intros _ ? ? ?%elem_of_nil|done]|].
  rewrite andb_true_iff, IH. assert (Hh : ∀ b, b = true ↔ holds doc k w → (b = true ∧ (∀ key v, (key, v) ∈ query → holds doc key v) ↔
    ∀ key v, (key, v) ∈ (k, w) :: query → holds doc key v)).
  { intros b Hb. rewrite Hb. split; [intros [H1 H2] key v [[= -> ->]|Hin]%elem_of_cons; [done|by apply H2]|].
    intros H. split; [apply H; left|intros key v Hin; apply H; by right]. }
  apply Hh. unfold holds. destruct (bool_decide (k = str "$and")); [|destruct (bool_decide (k = str "$or")); [|done]].
  - destruct w as [| | | |cs|]; try by split. assert (Hall : ∀ cs, (fix all cs := match cs with [] => true | c :: cs => matches doc c && all cs end) cs = true ↔ ∀ q, q ∈ cs → matches doc q = true).
    { clear. induction cs as [|c cs IH]; [split; [by intros _ ? ?%elem_of_nil|done]|]. rewrite andb_true_iff, IH. set_solver. }
    rewrite Hall. split; [intros H cs' q [= <-]; apply H|intros H q; by apply H].
  - destruct w as [| | | |cs|]; try by split. assert (Hany : ∀ cs, (fix any cs := match cs with [] => false | c :: cs => matches doc c || any cs end) cs = true ↔ ∃ q, q ∈ cs ∧ matches doc q = true).
    { clear. induction cs as [|c cs IH]; [split; [done|by intros (q & ?%elem_of_nil & _)]|]. rewrite orb_true_iff, IH. set_solver. }
    rewrite Hany. split; [intros H cs' [= <-]; exact H|intros H; by apply H].
Qed.
(** On integers the comparisons are those of the numbers. *)
Lemma range_spec doc key a b z : is_i64 a → is_i64 b → is_i64 z → BTreeMap.get key doc = Some (Number (of_i64 z)) → is_operator key = false →
  matches_query doc [(key, Object [(str "$gte", Number (of_i64 a)); (str "$lt", Number (of_i64 b))])] = true ↔ (a ≤ z < b)%Z.
Proof.
  intros Ha Hb Hz Hg Hk. rewrite query_spec. assert (Hne : key ≠ str "$and" ∧ key ≠ str "$or") by (split; intros ->; done).
  assert (Hh : holds doc key (Object [(str "$gte", Number (of_i64 a)); (str "$lt", Number (of_i64 b))]) ↔ (a ≤ z < b)%Z).
  { unfold holds. rewrite !bool_decide_false by tauto. unfold field_matches. rewrite Hg. cbn [matches_value forallb fst snd].
    change (operator_holds (Number (of_i64 z)) (str "$gte") (Number (of_i64 a))) with (compare_values (Number (of_i64 z)) (Number (of_i64 a)) (λ a b, (b <=? a)%Z)).
    change (operator_holds (Number (of_i64 z)) (str "$lt") (Number (of_i64 b))) with (compare_values (Number (of_i64 z)) (Number (of_i64 b)) (λ a b, (a <? b)%Z)).
    unfold compare_values. cbn [value_i64]. rewrite !as_i64_of_i64 by done. rewrite !andb_true_iff, Z.leb_le, Z.ltb_lt. naive_solver. }
  rewrite <- Hh. split; [intros H; apply H; left|]. intros H k v [[= -> ->]|?%elem_of_nil]%elem_of_cons; done.
Qed.

(** ** Updates *)

Lemma fold_set_get doc obj k : ordered doc → ordered obj →
  ordered (foldl set_field doc obj) ∧ BTreeMap.get k (foldl set_field doc obj) = match BTreeMap.get k obj with Some v => Some v | None => BTreeMap.get k doc end.
Proof.
  intros Hd Ho. revert doc Hd. induction Ho as [|[k' v'] obj Ho IH Hall]; intros doc Hd; [done|]. cbn [foldl BTreeMap.get].
  destruct (IH (set_field doc (k', v'))) as [H1 H2]; [by apply ordered_insert|]. split; [done|]. rewrite H2. unfold set_field. cbn [fst snd].
  rewrite get_insert by done. destruct (decide (k = k')) as [->|]; [|done]. destruct (BTreeMap.get k' obj) as [v|] eqn:Hg; [|done].
  apply get_Some in Hg; [|done]. rewrite Forall_forall in Hall. specialize (Hall _ Hg). by apply (key_lt_ne (K := bytes)) in Hall.
Qed.
Lemma fold_unset_get doc obj k : ordered doc →
  ordered (foldl unset_field doc obj) ∧ BTreeMap.get k (foldl unset_field doc obj) = if decide (k ∈ obj.*1) then None else BTreeMap.get k doc.
Proof.
  revert doc. induction obj as [|[k' v'] obj IH]; intros doc Hd; [split; [done|]; rewrite decide_False; [done|by intros ?%elem_of_nil]|]. cbn [foldl].
  destruct (IH (unset_field doc (k', v'))) as [H1 H2]; [by apply ordered_remove|]. split; [done|]. rewrite H2. unfold unset_field. cbn [fst snd].
  rewrite get_remove by done. destruct (decide (k ∈ obj.*1)), (decide (k = k')), (decide (k ∈ ((k', v') :: obj).*1)); set_solver.
Qed.
(** [$set] and [$unset] together: what is unset is gone, what is set has its new value, and
    nothing else changes. *)
Lemma set_unset_spec doc a b k : ordered doc → ordered a →
  BTreeMap.get k (apply_update doc [(str "$set", Object a); (str "$unset", Object b)]) =
  if decide (k ∈ b.*1) then None else match BTreeMap.get k a with Some v => Some v | None => BTreeMap.get k doc end.
Proof.
  intros Hd Ha. change (apply_update doc [(str "$set", Object a); (str "$unset", Object b)]) with (foldl unset_field (foldl set_field doc a) b).
  destruct (fold_set_get doc a k Hd Ha) as [H1 H2]. destruct (fold_unset_get (foldl set_field doc a) b k H1) as [_ ->]. by rewrite H2.
Qed.
Lemma no_operators doc update : Forall (λ e, is_operator e.1 = false) update → foldl apply_field doc update = doc ∧ existsb (λ e, is_operator e.1) update = false.
Proof. intros Hf. revert doc. induction Hf as [|e update He _ IH]; intros doc; [done|]. cbn [foldl existsb]. unfold apply_field. rewrite He. apply IH. Qed.
(** A replacement keeps the id of the document and takes everything else from the update. *)
Lemma replacement_spec doc update k : ordered doc → ordered update → Forall (λ e, is_operator e.1 = false) update →
  BTreeMap.get k (apply_update doc update) =
  match BTreeMap.get (str "_id") doc with
  | Some id => if decide (k = str "_id") then Some id else BTreeMap.get k update
  | None => BTreeMap.get k update
  end.
Proof.
  intros Hd Hu Hf. unfold apply_update. destruct (no_operators doc update Hf) as [-> ->]. destruct (fold_set_get [] update k) as [H1 H2]; [constructor|done|].
  assert (Hk : BTreeMap.get k (foldl set_field [] update) = BTreeMap.get k update) by (rewrite H2; by destruct (BTreeMap.get k update)).
  destruct (BTreeMap.get (str "_id") doc); [|done]. by rewrite get_insert, Hk.
Qed.

(** ** Projections *)

Definition asks_for (v : Value Num) : bool := bool_decide (value_i64 v = Some 1%Z).
Lemma include_get doc proj k : ordered proj →
  ordered (foldl (include_field doc) [] proj) ∧
  BTreeMap.get k (foldl (include_field doc) [] proj) = match BTreeMap.get k proj with Some v => if asks_for v then BTreeMap.get k doc else None | None => None end.
Proof.
  intros Ho. assert (Hg : ∀ res, ordered res → ordered (foldl (include_field doc) res proj) ∧
    BTreeMap.get k (foldl (include_field doc) res proj) =
    match BTreeMap.get k proj with Some v => if asks_for v then match BTreeMap.get k doc with Some x => Some x | None => BTreeMap.get k res end else BTreeMap.get k res | None => BTreeMap.get k res end).
  { induction Ho as [|[k' v'] proj Ho IH Hall]; intros res Hr; [done|]. cbn [foldl BTreeMap.get].
    assert (Hstep : ordered (include_field doc res (k', v')) ∧ BTreeMap.get k (include_field doc res (k', v')) =
      if decide (k = k') then if asks_for v' then match BTreeMap.get k doc with Some x => Some x | None => BTreeMap.get k res end else BTreeMap.get k res else BTreeMap.get k res).
    { unfold include_field, asks_for. cbn [fst snd]. destruct (value_i64 v') as [z|]; [|split; [done|]; by destruct (decide (k = k'))].
      destruct (Z.eqb_spec z 1) as [->|]; [|split; [done|]; rewrite bool_decide_false by congruence; by destruct (decide (k = k'))].
      rewrite bool_decide_true by done. destruct (BTreeMap.get k' doc) as [x|] eqn:Hx.
      - split; [by apply ordered_insert|]. rewrite get_insert by done. destruct (decide (k = k')) as [->|]; [by rewrite Hx|done].
      - split; [done|]. destruct (decide (k = k')) as [->|]; [by rewrite Hx|done]. }
    destruct Hstep as [H1 H2]. destruct (IH _ H1) as [H3 H4]. split; [done|]. rewrite H4, H2. destruct (decide (k = k')) as [->|]; [|done].
    destruct (BTreeMap.get k' proj) as [w|] eqn:Hw; [|done]. apply get_Some in Hw; [|done]. rewrite Forall_forall in Hall. specialize (Hall _ Hw).
    by apply (key_lt_ne (K := bytes)) in Hall. }
  destruct (Hg [] ltac:(constructor)) as [H1 H2]. split; [done|]. rewrite H2. destruct (BTreeMap.get k proj) as [v|]; [|done]. cbn.
  destruct (asks_for v); [|done]. by destruct (BTreeMap.get k doc).
Qed.
Lemma exclude_get doc proj k : ordered doc → ordered proj →
  BTreeMap.get k (foldl exclude_field doc proj) = match BTreeMap.get k proj with Some v => if excludes v then None else BTreeMap.get k doc | None => BTreeMap.get k doc end.
Proof.
  intros Hd Ho. revert doc Hd. induction Ho as [|[k' v'] proj Ho IH Hall]; intros doc Hd; [done|]. cbn [foldl BTreeMap.get]. unfold exclude_field at 2. cbn [fst snd].
  rewrite IH by (destruct (excludes v'); [by apply ordered_remove|done]).
  assert (Hn : k = k' → BTreeMap.get k proj = None).
  { intros ->. destruct (BTreeMap.get k' proj) as [w|] eqn:Hw; [|done]. apply get_Some in Hw; [|done]. rewrite Forall_forall in Hall.
    specialize (Hall _ Hw). by apply (key_lt_ne (K := bytes)) in Hall. }
  destruct (decide (k = k')) as [He|Hne].
  - rewrite Hn by done. subst k'. destruct (excludes v'); [|done]. rewrite get_remove by done. by rewrite decide_True.
  - destruct (excludes v'); [|done]. rewrite get_remove, decide_False by done. done.
Qed.
(** What a projection keeps: the fields it asks for and the id, or all but those it excludes. *)
Lemma projection_spec doc proj k : ordered doc → ordered proj → k ≠ str "_id" →
  BTreeMap.get k (apply_projection doc (Some proj)) =
  if existsb (λ e, includes e.2) proj
  then match BTreeMap.get k proj with Some v => if asks_for v then BTreeMap.get k doc else None | None => None end
  else match BTreeMap.get k proj with Some v => if excludes v then None else BTreeMap.get k doc | None => BTreeMap.get k doc end.
Proof.
  intros Hd Ho Hk. unfold apply_projection. destruct (existsb _ proj); [|by apply exclude_get]. destruct (include_get doc proj k Ho) as [H1 H2].
  destruct (match BTreeMap.get (str "_id") proj with Some v => _ | None => _ end); [|done]. destruct (BTreeMap.get (str "_id") doc); [|done].
  by rewrite get_insert, decide_False.
Qed.
End Spec.

(** ** What goes wrong *)

#[local] Existing Instances PlainNumber.Ops PlainNumber.Laws.
#[local] Instance NoRegex : Regex := {| regex_match _ _ := None |}.
Abbreviation Num := PlainNumber.Num.
(** Doubles are compared by their whole parts: 1.5 is not greater than 1.25. *)
Lemma fractions_ignored :
  matches_query (Num := Num) [(str "x", Number (PlainNumber.Float (S754_finite false 6755399441055744 (-52))))]
    [(str "x", Object [(str "$gt", Number (PlainNumber.Float (S754_finite false 5629499534213120 (-52))))])] = false.
Proof. by vm_compute. Qed.
(** An operator that is not known holds of everything. *)
Lemma unknown_operator_holds : matches_query (Num := Num) [(str "x", Null)] [(str "x", Object [(str "$size", Null)])] = true.
Proof. by vm_compute. Qed.
(** A projection to [true] leaves out the field it asks for. *)
Lemma true_includes_nothing : apply_projection (Num := Num) [(str "_id", Null); (str "x", Null)] (Some [(str "x", Bool true)]) = [(str "_id", Null)].
Proof. by vm_compute. Qed.
(** [$set] changes the id of a document. *)
Lemma set_changes_id : apply_update (Num := Num) [(str "_id", String [97])] [(str "$set", Object [(str "_id", String [98])])] = [(str "_id", String [98])].
Proof. by vm_compute. Qed.
