(* ===== verification/DocEngine.v ===== *)
(** * The storage engine and the cursors of cave-docdb

    crates/data/cave-docdb/src/engine.rs, index.rs and cursor.rs.

    A collection is one record; every method holds the lock of what it changes while it does.
    A handle of a collection shares its state with the engine, so a command reads the
    collection, runs the method and writes the collection back.  A [None] is a panic.

    The theorems: the methods of a collection against the map from ids to documents
    ([collection_spec]); generated ids never repeat ([generated_ids_fresh]); a cursor hands out
    its documents in order, each of them once ([cursor_drains]). *)

From S2P Require Import Prelude Bytes BTree Float DocValue DocQuery.

Record Index : Type := mkIndex { iname : bytes; ikeys : list (bytes * Z); iunique : bool }.

Record Collection (Num : Type) : Type := mkCollection { documents : list (bytes * Document Num); indexes : list Index; doc_counter : u64 }.
Arguments mkCollection {Num}. Arguments documents {Num}. Arguments indexes {Num}. Arguments doc_counter {Num}.
(** What is selected by an optional filter. *)
Definition selected {Num : Type} `{!NumberOps Num} `{!Regex} (filter : option (Document Num)) (doc : Document Num) : bool :=
  match filter with Some f => matches_query doc f | None => true end.

(** [format!("{:024x}", n)] *)
Fixpoint hex_digits (digits : nat) (n : N) : bytes :=
  match digits with O => [] | S d => hex_digits d (n / 16) ++ [hex_digit (n mod 16)] end.
Definition hex24 (n : u64) : bytes := hex_digits 24 n.

Module Collection.
Section Ops.
Context {Num : Type} `{NO : !NumberOps Num} `{RX : !Regex}.
Definition new : Collection Num := mkCollection [] [] 0.
(** The document with an id, and the counter *)
Definition with_id (c : Collection Num) (doc : Document Num) : Document Num * u64 :=
  match BTreeMap.get (str "_id") doc with
  | Some _ => (doc, doc_counter c)
  | None =>
      let counter := doc_counter c +w 1 in
      (BTreeMap.insert (str "_id") (String (hex24 counter)) doc, counter)
  end.
Definition id_text (doc : Document Num) : option bytes :=
  match v ← BTreeMap.get (str "_id") doc; value_str v with
  | Some s => Some s
  | None => v ← BTreeMap.get (str "_id") doc; decimal_i64 <$> value_i64 v
  end.
Definition insert_one (c : Collection Num) (doc : Document Num) : result bytes bytes * Collection Num :=
  let '(doc, counter) := with_id c doc in
  match id_text doc with
  | Some id => (Ok id, mkCollection (BTreeMap.insert id doc (documents c)) (indexes c) counter)
  | None => (Err (str "missing _id"), mkCollection (documents c) (indexes c) counter)
  end.
Fixpoint insert_many (c : Collection Num) (docs : list (Document Num)) : result bytes (list bytes) * Collection Num :=
  match docs with
  | [] => (Ok [], c)
  | doc :: docs =>
      match insert_one c doc with
      | (Ok id, c) => match insert_many c docs with (Ok ids, c) => (Ok (id :: ids), c) | (Err e, c) => (Err e, c) end
      | (Err e, c) => (Err e, c)
      end
  end.
Definition find (c : Collection Num) (filter : option (Document Num)) : list (Document Num) :=
  snd <$> base.filter (λ e, selected filter e.2 = true) (documents c).
Definition find_one (c : Collection Num) (filter : option (Document Num)) : option (Document Num) :=
  snd <$> head (base.filter (λ e, selected filter e.2 = true) (documents c)).
Definition ids_of (c : Collection Num) (filter : option (Document Num)) : list bytes :=
  fst <$> base.filter (λ e, selected filter e.2 = true) (documents c).
(** [if let Some(doc) = docs.get_mut(&id)], the update of what it points to, and the count *)
Definition update_at (update : Document Num) (acc : list (bytes * Document Num) * u64) (id : bytes) : list (bytes * Document Num) * u64 :=
  match BTreeMap.get id acc.1 with
  | Some doc => (BTreeMap.insert id (apply_update doc update) acc.1, acc.2 +w 1)
  | None => acc
  end.
Definition update_many (c : Collection Num) (filter : option (Document Num)) (update : Document Num) : u64 * Collection Num :=
  let '(docs, count) := foldl (update_at update) (documents c, 0) (ids_of c filter) in
  (count, mkCollection docs (indexes c) (doc_counter c)).
Definition delete_many (c : Collection Num) (filter : option (Document Num)) : u64 * Collection Num :=
  let ids_to_delete := ids_of c filter in
  let docs := foldl (λ docs id, BTreeMap.remove id docs) (documents c) ids_to_delete in
  (vlen (documents c) -w vlen docs, mkCollection docs (indexes c) (doc_counter c)).
Definition count (c : Collection Num) (filter : option (Document Num)) : u64 :=
  vlen (base.filter (λ e, selected filter e.2 = true) (documents c)).
Definition drop_all (c : Collection Num) : Collection Num := mkCollection [] [] (doc_counter c).
Definition add_index (c : Collection Num) (i : Index) : Collection Num := mkCollection (documents c) (indexes c ++ [i]) (doc_counter c).
Definition list_indexes (c : Collection Num) : list Index := indexes c.
Definition drop_index (c : Collection Num) (name : bytes) : Collection Num :=
  mkCollection (documents c) (List.filter (λ i, negb (bool_decide (iname i = name))) (indexes c)) (doc_counter c).
End Ops.
End Collection.

Section Engine.
Context {Num : Type}.

(** Databases by name, collections by name. *)
Definition Database : Type := gmap bytes (Collection Num).
Definition Engine : Type := gmap bytes Database.
Definition get_or_create_database (e : Engine) (name : bytes) : Engine :=
  match e !! name with Some _ => e | None => <[name := ∅]> e end.
Definition get_or_create_collection (e : Engine) (db col : bytes) : Engine :=
  let e := get_or_create_database e db in
  alter (λ d : Database, match d !! col with Some _ => d | None => <[col := Collection.new]> d end) db e.
Definition get_collection (e : Engine) (db col : bytes) : option (Collection Num) := d ← e !! db; (d : Database) !! col.
Definition set_collection (e : Engine) (db col : bytes) (c : Collection Num) : Engine := alter (λ d : Database, <[col := c]> d) db e.
Definition drop_collection (e : Engine) (db col : bytes) : Engine := alter (λ d : Database, delete col d) db e.
Definition drop_database (e : Engine) (db : bytes) : Engine := delete db e.

End Engine.
Arguments Database : clear implicits.
Arguments Engine : clear implicits.

(** ** cursor.rs *)

Record Cursor (Num : Type) : Type := mkCursor { cid : Z; cns : bytes; cdocuments : list (Document Num); batch_size : Z; index : usize }.
Arguments mkCursor {Num}. Arguments cid {Num}. Arguments cns {Num}. Arguments cdocuments {Num}. Arguments batch_size {Num}. Arguments index {Num}.
(** [batch_size as usize] *)
Definition as_usize (z : Z) : usize := Z.to_N (z mod 18446744073709551616).
Module Cursor.
Section Ops.
Context {Num : Type}.
Definition new (id : Z) (ns : bytes) (docs : list (Document Num)) (batch_size : Z) : Cursor Num := mkCursor id ns docs batch_size 0.
Definition next_batch (c : Cursor Num) : option (list (Document Num) * Cursor Num) :=
  let end_ := N.min (index c +w as_usize (batch_size c)) (vlen (cdocuments c)) in
  if end_ <? index c then None
  else
    Some (take (N.to_nat (end_ - index c)) (drop (N.to_nat (index c)) (cdocuments c)),
          mkCursor (cid c) (cns c) (cdocuments c) (batch_size c) end_).
Definition has_more (c : Cursor Num) : bool := index c <? vlen (cdocuments c).
End Ops.
End Cursor.

Record CursorStore (Num : Type) : Type := mkCursorStore { cursors : gmap Z (Cursor Num); ccounter : Z }.
Arguments mkCursorStore {Num}. Arguments cursors {Num}. Arguments ccounter {Num}.
Module CursorStore.
Section Ops.
Context {Num : Type}.
Definition new : CursorStore Num := mkCursorStore ∅ 1.
Definition create (s : CursorStore Num) (ns : bytes) (docs : list (Document Num)) (batch_size : Z) : Z * CursorStore Num :=
  let id := ccounter s in
  (id, mkCursorStore (<[id := Cursor.new id ns docs batch_size]> (cursors s)) (i64_add id 1)).
Definition kill (s : CursorStore Num) (id : Z) : bool * CursorStore Num :=
  (bool_decide (is_Some (cursors s !! id)), mkCursorStore (delete id (cursors s)) (ccounter s)).
End Ops.
End CursorStore.

(** ** The methods of a collection *)

Section Spec.
Context {Num : Type} `{NO : !NumberOps Num} `{RX : !Regex}.
Implicit Types (c : Collection Num) (f g : option (Document Num)).

Lemma ordered_keys {V} (m : list (bytes * V)) : ordered m → NoDup m.*1.
Proof.
  induction 1 as [|[k v] m _ IH Hall]; constructor; [|done]. intros (e & Hk & Hin)%list_elem_of_fmap. cbn in Hk. rewrite Forall_forall in Hall.
  specialize (Hall e Hin). apply (key_lt_ne (K := bytes)) in Hall. by apply Hall.
Qed.
Lemma ids_of_spec c f : ordered (documents c) → NoDup (Collection.ids_of c f) ∧
  ∀ id, id ∈ Collection.ids_of c f ↔ ∃ d, BTreeMap.get id (documents c) = Some d ∧ selected f d = true.
Proof.
  intros Ho. split; [eapply sublist_NoDup; [apply (ordered_keys _ Ho)|]; apply fmap_sublist, sublist_filter|]. intros id. unfold Collection.ids_of.
  rewrite list_elem_of_fmap. split.
  - intros ([k d] & -> & [Hs Hin]%list_elem_of_filter). exists d. by rewrite get_Some.
  - intros (d & Hg%get_Some & Hs); [|done]. exists (id, d). split; [done|]. by apply list_elem_of_filter.
Qed.
Lemma update_fold update ids docs n : ordered docs → NoDup ids → (∀ id, id ∈ ids → is_Some (BTreeMap.get id docs)) → n + vlen ids < u64_modulus →
  let r := foldl (Collection.update_at update) (docs, n) ids in
  ordered r.1 ∧ r.2 = n + vlen ids ∧
  ∀ id, BTreeMap.get id r.1 = if decide (id ∈ ids) then (λ d, apply_update d update) <$> BTreeMap.get id docs else BTreeMap.get id docs.
Proof.
  revert docs n. induction ids as [|i ids IH]; intros docs n Ho Hnd Hin Hb.
  { cbn. split_and!; [done|by rewrite N.add_0_r|]. intros id. rewrite decide_False; [done|by intros ?%elem_of_nil]. }
  apply NoDup_cons in Hnd as [Hni Hnd]. rewrite vlen_cons in *. destruct (Hin i ltac:(left)) as [d Hd].
  cbn [foldl]. unfold Collection.update_at at 2 4 6. cbn [fst snd]. rewrite Hd, u64_add_small by lia.
  destruct (IH (BTreeMap.insert i (apply_update d update) docs) (n + 1)) as (H1 & H2 & H3); [by apply ordered_insert|done| |lia|].
  - intros id Hid. rewrite get_insert by done. destruct (decide (id = i)); [by eexists|]. apply Hin. by right.
  - split_and!; [done|lia|]. intros id. rewrite H3, get_insert by done. destruct (decide (id = i)) as [->|Hne].
    + rewrite decide_False, decide_True by (done || left). by rewrite Hd.
    + destruct (decide (id ∈ ids)) as [Hid|Hid]; [rewrite decide_True by by right|rewrite decide_False by (by intros [?|?]%elem_of_cons)]; done.
Qed.

Lemma delete_docs c f : ordered (documents c) →
  foldl (λ docs id, BTreeMap.remove id docs) (documents c) (Collection.ids_of c f) = base.filter (λ e, selected f e.2 = false) (documents c).
Proof. intros Ho. apply (remove_where_filter (selected f) (documents c) Ho). Qed.
Lemma filter_split {A} (p : A → bool) (l : list A) :
  (length (base.filter (λ x, p x = true) l) + length (base.filter (λ x, p x = false) l) = length l)%nat.
Proof. induction l as [|x l IH]; [done|]. rewrite !filter_cons. destruct (p x); cbn [decide decide_rel bool_eq_dec bool_rec bool_rect sumbool_rec sumbool_rect length]; repeat case_decide; cbn [length]; try done; lia. Qed.
Lemma filter_swap {A B} (p : A → bool) (q : B → bool) (h : A → B) (l : list A) :
  h <$> base.filter (λ x, p x = true) (base.filter (λ x, q (h x) = false) l) = base.filter (λ y, q y = false) (h <$> base.filter (λ x, p x = true) l).
Proof.
  induction l as [|x l IH]; [done|]. rewrite !filter_cons. destruct (decide (q (h x) = false)), (decide (p x = true)); rewrite ?fmap_cons, ?filter_cons, ?decide_True, ?decide_False by done;
    rewrite ?fmap_cons, ?IH; done.
Qed.
Lemma delete_many_spec c f : ordered (documents c) → vlen (documents c) < u64_modulus →
  let '(n, c') := Collection.delete_many c f in
  n = Collection.count c f ∧ ordered (documents c') ∧
  (∀ id, BTreeMap.get id (documents c') = d ← BTreeMap.get id (documents c); if selected f d then None else Some d) ∧
  ∀ g, Collection.find c' g = base.filter (λ d, selected f d = false) (Collection.find c g).
Proof.
  intros Ho Hb. unfold Collection.delete_many. rewrite delete_docs by done. cbn [documents]. split_and!.
  - unfold Collection.count. pose proof (filter_split (λ e, selected f e.2) (documents c)) as Hs. rewrite u64_sub_small; unfold vlen in *; lia.
  - by apply ordered_filter.
  - intros id. apply option_eq. intros d. rewrite get_Some by by apply ordered_filter. rewrite list_elem_of_filter. cbn [snd]. rewrite <- get_Some by done. split.
    + intros [Hs Hg]. rewrite Hg. cbn [mbind option_bind]. by rewrite Hs.
    + destruct (BTreeMap.get id (documents c)) as [d'|]; [|done]. cbn [mbind option_bind]. destruct (selected f d') eqn:Hs; [done|]. by intros [= ->].
  - intros g. unfold Collection.find. cbn [documents]. apply (filter_swap (λ e, selected g e.2) (selected f) snd).
Qed.
Lemma update_many_spec c f update : ordered (documents c) → vlen (documents c) < u64_modulus →
  let '(n, c') := Collection.update_many c f update in
  n = Collection.count c f ∧ ordered (documents c') ∧
  ∀ id, BTreeMap.get id (documents c') = (λ d, if selected f d then apply_update d update else d) <$> BTreeMap.get id (documents c).
Proof.
  intros Ho Hb. destruct (ids_of_spec c f Ho) as [Hnd Hids]. unfold Collection.update_many.
  assert (Hlen : vlen (Collection.ids_of c f) = Collection.count c f) by (unfold Collection.ids_of, Collection.count, vlen; by rewrite length_fmap).
  pose proof (filter_split (λ e, selected f e.2) (documents c)) as Hs.
  destruct (update_fold update (Collection.ids_of c f) (documents c) 0 Ho Hnd) as (H1 & H2 & H3).
  { intros id (d & Hd & _)%Hids. by exists d. } { rewrite Hlen. unfold Collection.count, vlen in *. lia. }
  destruct (foldl _ (documents c, 0) _) as [docs n]. cbn [fst snd documents] in *. split_and!; [by rewrite H2, Hlen|done|].
  intros id. rewrite H3. destruct (BTreeMap.get id (documents c)) as [d|] eqn:Hd; [|by destruct (decide _)]. cbn [fmap option_fmap option_map].
  destruct (decide (id ∈ _)) as [Hin|Hin]; rewrite Hids in Hin.
  - destruct Hin as (d' & Heq & Hsel). rewrite Hd in Heq. injection Heq as ->. by rewrite Hsel.
  - destruct (selected f d) eqn:Hsel; [|done]. destruct Hin. by exists d.
Qed.

(** A collection is a map from ids to documents.  Searching lists the documents a filter
    selects, by id, and counting counts them; deleting removes exactly those and updating
    changes exactly those, both returning their number; inserting adds one document. *)
Theorem collection_spec c f : ordered (documents c) → vlen (documents c) < u64_modulus →
  Collection.count c f = vlen (Collection.find c f) ∧
  (let '(n, c') := Collection.delete_many c f in
   n = Collection.count c f ∧ ordered (documents c') ∧
   (∀ id, BTreeMap.get id (documents c') = d ← BTreeMap.get id (documents c); if selected f d then None else Some d) ∧
   ∀ g, Collection.find c' g = base.filter (λ d, selected f d = false) (Collection.find c g)) ∧
  (∀ update, let '(n, c') := Collection.update_many c f update in
   n = Collection.count c f ∧ ordered (documents c') ∧
   ∀ id, BTreeMap.get id (documents c') = (λ d, if selected f d then apply_update d update else d) <$> BTreeMap.get id (documents c)) ∧
  (∀ doc id c', Collection.insert_one c doc = (Ok id, c') →
   ordered (documents c') ∧ ∀ id', BTreeMap.get id' (documents c') = if decide (id' = id) then Some (Collection.with_id c doc).1 else BTreeMap.get id' (documents c)).
Proof.
  intros Ho Hb. split_and!.
  - unfold Collection.count, Collection.find, vlen. by rewrite length_fmap.
  - by apply delete_many_spec.
  - intros update. by apply update_many_spec.
  - intros doc id c'. unfold Collection.insert_one. destruct (Collection.with_id c doc) as [doc' n]. destruct (Collection.id_text doc'); [|done].
    intros [= <- <-]. cbn [documents fst]. split; [by apply ordered_insert|]. intros id'. by apply get_insert.
Qed.
End Spec.

(** ** Generated ids *)

Lemma hex_digit_inj a b : a < 16 → b < 16 → hex_digit a = hex_digit b → a = b.
Proof. intros Ha Hb. unfold hex_digit. case_N; lia. Qed.
Lemma hex_digits_inj d m n : m < 16 ^ N.of_nat d → n < 16 ^ N.of_nat d → hex_digits d m = hex_digits d n → m = n.
Proof.
  revert m n. induction d as [|d IH]; intros m n Hm Hn; [cbn in *; lia|]. cbn [hex_digits]. intros [Hd [= Hl]]%app_inj_2; [|done].
  assert (Hpow : 16 ^ N.of_nat (S d) = 16 * 16 ^ N.of_nat d) by (rewrite Nat2N.inj_succ; apply N.pow_succ_r'). rewrite Hpow in *.
  apply IH in Hd; [|by apply N.Div0.div_lt_upper_bound..]. apply hex_digit_inj in Hl; [|by apply N.mod_lt..].
  rewrite (N.div_mod' m 16), (N.div_mod' n 16). congruence.
Qed.
Lemma generated_ids_fresh m n : m < u64_modulus → n < u64_modulus → hex24 m = hex24 n → m = n.
Proof. intros Hm Hn. apply hex_digits_inj; (eapply N.lt_trans; [eassumption|done]). Qed.

(** ** Cursors *)

Section Pages.
Context {Num : Type}.

(** The batches of [k] calls. *)
Fixpoint pages (k : nat) (c : Cursor Num) : option (list (list (Document Num)) * Cursor Num) :=
  match k with
  | O => Some ([], c)
  | S k => r ← Cursor.next_batch c; s ← pages k r.2; Some (r.1 :: s.1, s.2)
  end.

Lemma next_batch_spec (c : Cursor Num) b : batch_size c = Z.of_N b → 0 < b < 4294967296 → vlen (cdocuments c) < 9223372036854775808 → index c ≤ vlen (cdocuments c) →
  ∃ c', Cursor.next_batch c = Some (take (N.to_nat b) (drop (N.to_nat (index c)) (cdocuments c)), c') ∧
    cdocuments c' = cdocuments c ∧ batch_size c' = batch_size c ∧ index c' = N.min (index c + b) (vlen (cdocuments c)).
Proof.
  intros Hb Hr Hl Hi. unfold Cursor.next_batch. rewrite Hb. assert (as_usize (Z.of_N b) = b) as ->.
  { unfold as_usize. rewrite Z.mod_small by lia. apply N2Z.id. }
  rewrite u64_add_small by (unfold u64_modulus; lia). destruct (N.ltb_spec (N.min (index c + b) (vlen (cdocuments c))) (index c)); [lia|].
  eexists. split; [f_equal; f_equal|done]. destruct (N.min_spec (index c + b) (vlen (cdocuments c))) as [[? ->]|[? ->]].
  - f_equal. lia.
  - rewrite !take_ge; [done|rewrite length_drop; unfold vlen in *; lia..].
Qed.
Lemma pages_spec k (c : Cursor Num) b : batch_size c = Z.of_N b → 0 < b < 4294967296 → vlen (cdocuments c) < 9223372036854775808 → index c ≤ vlen (cdocuments c) →
  ∃ bs c', pages k c = Some (bs, c') ∧ length bs = k ∧ Forall (λ l, vlen l ≤ b) bs ∧ cdocuments c' = cdocuments c ∧
    mjoin bs = take (k * N.to_nat b) (drop (N.to_nat (index c)) (cdocuments c)) ∧ index c' = N.min (index c + N.of_nat k * b) (vlen (cdocuments c)).
Proof.
  revert c. induction k as [|k IH]; intros c Hb Hr Hl Hi.
  { exists [], c. split_and!; try done. cbn. lia. }
  destruct (next_batch_spec c b Hb Hr Hl Hi) as (c1 & Hn & Hd & Hbs & Hx). destruct (IH c1) as (bs & c' & Hp & Hk & Hf & Hd' & Hj & Hx'); [congruence|done|by rewrite Hd|rewrite Hx, Hd; lia|].
  exists (take (N.to_nat b) (drop (N.to_nat (index c)) (cdocuments c)) :: bs), c'. cbn [pages]. rewrite Hn. cbn [mbind option_bind snd fst]. rewrite Hp. cbn [mbind option_bind snd fst].
  split_and!; [done|cbn; lia| |congruence| |].
  - constructor; [|done]. unfold vlen. rewrite length_take. lia.
  - change (mjoin (?a :: bs)) with (a ++ mjoin bs). rewrite Hj, Hd, Hx.
    replace (S k * N.to_nat b)%nat with (N.to_nat b + k * N.to_nat b)%nat by lia. rewrite <- take_take_drop, drop_drop. f_equal.
    destruct (N.min_spec (index c + b) (vlen (cdocuments c))) as [[? ->]|[? ->]]; [do 2 f_equal; lia|].
    rewrite !drop_ge; [done|unfold vlen in *; lia..].
  - rewrite Hx', Hd, Hx. rewrite Nat2N.inj_succ. lia.
Qed.

(** A cursor hands out its documents in batches, in order and each of them once, and says
    that there are more until the last one is out. *)
Theorem cursor_drains id ns docs b k : 0 < b < 2147483648 → vlen docs < 9223372036854775808 →
  ∃ bs c', pages k (Cursor.new (Num := Num) id ns docs (Z.of_N b)) = Some (bs, c') ∧ Forall (λ l, vlen l ≤ b) bs ∧
    mjoin bs = take (k * N.to_nat b) docs ∧ (Cursor.has_more c' = true ↔ N.of_nat k * b < vlen docs).
Proof.
  intros Hb Hl. destruct (pages_spec k (Cursor.new id ns docs (Z.of_N b)) b) as (bs & c' & Hp & _ & Hf & Hd & Hj & Hx); [done|lia|done|cbn; lia|].
  exists bs, c'. split_and!; [done|done|by rewrite Hj, drop_0|]. unfold Cursor.has_more. rewrite Hx, Hd. cbn [index cdocuments Cursor.new]. rewrite N.ltb_lt. lia.
Qed.
End Pages.

(** ** Concrete collections *)

#[local] Existing Instances PlainNumber.Ops PlainNumber.Laws NoRegex.
Abbreviation Num := PlainNumber.Num.
Definition row (z : Z) : Document Num := [(str "x", Number (of_i64 z))].
Definition three : Collection Num := (Collection.insert_many Collection.new [row 1; row 2; row 3]).2.
Lemma collection_spec_witness :
  ordered (documents three) ∧ vlen (documents three) = 3 ∧
  Collection.count three (Some [(str "x", Object [(str "$gte", Number (of_i64 2))])]) = 2 ∧
  (Collection.delete_many three (Some [(str "x", Object [(str "$gte", Number (of_i64 2))])])).1 = 2.
Proof.
  assert (Ho : ordered (documents three)) by (vm_compute; repeat constructor).
  destruct (collection_spec three (Some [(str "x", Object [(str "$gte", Number (of_i64 2))])]) Ho) as (_ & Hd & _); [done|].
  split; [done|]. split; [done|]. split; [by vm_compute|]. destruct (Collection.delete_many three _) as [n c']. destruct Hd as [Hn _]. cbn [fst]. rewrite Hn. by vm_compute.
Defined.
Lemma cursor_drains_witness : ∃ bs c', pages 2 (Cursor.new (Num := Num) 1 [] [row 1; row 2; row 3] 2) = Some (bs, c') ∧
  mjoin bs = [row 1; row 2; row 3] ∧ Cursor.has_more c' = false.
Proof.
  destruct (cursor_drains (Num := Num) 1 [] [row 1; row 2; row 3] 2 2) as (bs & c' & Hp & _ & Hj & Hm); [lia|done|].
  exists bs, c'. split; [done|]. split; [done|]. apply not_true_iff_false. rewrite Hm. vm_compute. done.
Defined.

(** ** What goes wrong *)

(** An insert with an id that is taken replaces the document that has it. *)
Lemma insert_overwrites : let doc z := [(str "_id", String [97]); (str "x", Number (of_i64 z))] in
  ∃ c, (Collection.insert_many Collection.new [doc 1%Z; doc 2%Z]) = (Ok [[97]; [97]], c) ∧ Collection.find (Num := Num) c None = [doc 2%Z].
Proof. intros doc. eexists. split; [vm_compute; reflexivity|]. by vm_compute. Qed.
(** After an update of the id, a document is filed under an id it does not have. *)
Lemma id_out_of_step :
  let c := (Collection.insert_one (Num := Num) Collection.new [(str "_id", String [97])]).2 in
  let c := (Collection.update_many c None [(str "$set", Object [(str "_id", String [98])])]).2 in
  documents c = [([97], [(str "_id", String [98])])].
Proof. by vm_compute. Qed.
