(* ===== verification/DocCommands.v ===== *)
(** * The commands of cave-docdb

    crates/data/cave-docdb/src/commands: mod.rs (dispatch), crud.rs, cursor.rs, db.rs,
    index.rs, agg.rs, hello.rs, admin.rs.

    A command reads its arguments from the document it came in, works on the engine and the
    cursors, and answers with a document or with a message; [None] is a panic.  Objects are
    copied key by key into documents, which changes nothing: both are maps in key order.
    The iteration order of a HashMap, what [sort_by] leaves when the comparison is no order
    and the debug text of a value are parameters.

    The theorems: a page of a find is what [skip] and [limit] ask for ([find_loop_spec]); a
    find leaves documents alone and answers with the page of what its filter selects
    ([find_answer]); an ordered sort stage sorts ([sort_stage_sorts]); the groups of a group
    stage part the documents ([groups_part]); what a dispatched command does to the
    documents, by its name ([only_inserts_add]). *)

From Stdlib Require Import ZArith Sorting.Sorted.
From S2P Require Import Prelude Bytes BTree Float DocValue DocQuery DocEngine.

(** [format!("{:?}", value)] *)
Class DebugText (Num : Type) : Type := { debug_text : Value Num → bytes }.
(** The order in which a HashMap yields its keys. *)
Class HashOrder : Type := { hash_order : list bytes → list bytes }.
Class HashOrderLaws `{!HashOrder} : Prop := { hash_order_perm l : hash_order l ≡ₚ l }.
(** [slice::sort_by] with a comparison that is no total order: any order, or a panic. *)
Class Disorder (Num : Type) : Type := { disorder : list (Document Num) → option (list (Document Num)) }.

Record Server (Num : Type) : Type := mkServer { engine : Engine Num; store : CursorStore Num }.
Arguments mkServer {Num}. Arguments engine {Num}. Arguments store {Num}.

(** [z as i32] *)
Definition as_i32 (z : Z) : Z := ((z + 2147483648) mod 4294967296 - 2147483648)%Z.

Section Commands.
Context {Num : Type} `{NO : !NumberOps Num} `{RX : !Regex} `{DT : !DebugText Num} `{HO : !HashOrder} `{DO : !Disorder Num}.
Implicit Types (cmd_doc doc : Document Num) (s : Server Num).

Definition Answer : Type := option (result bytes (Document Num) * Server Num).
Definition int (z : Z) : Value Num := Number (of_i64 z).
(** [Document::new] or [Map::new] followed by inserts *)
Definition document (fields : list (bytes * Value Num)) : Document Num := foldl set_field [] fields.
Definition ok_doc (fields : list (bytes * Value Num)) : Document Num := document (fields ++ [(str "ok", int 1)]).

(** ** What the commands read of their document *)

Definition db_name cmd_doc : bytes := default (str "test") (v ← BTreeMap.get (str "$db") cmd_doc; value_str v).
(** [keys().find(|k| !k.starts_with('$') && …)] *)
Definition col_name (skipped : list bytes) cmd_doc : bytes :=
  default (str "collection") (head (List.filter (λ k, negb (is_operator k) && negb (bool_decide (k ∈ skipped))) cmd_doc.*1)).
Definition object_at (key : bytes) cmd_doc : option (Document Num) := v ← BTreeMap.get key cmd_doc; value_object v.
Definition array_at (key : bytes) cmd_doc : option (list (Value Num)) := v ← BTreeMap.get key cmd_doc; value_array v.
Definition usize_at (key : bytes) cmd_doc : usize := as_usize (default 0%Z (v ← BTreeMap.get key cmd_doc; value_i64 v)).
(** [get_or_create_database] and [get_or_create_collection], and the handle of the collection *)
Definition open (e : Engine Num) (db col : bytes) : Engine Num * Collection Num :=
  let e := get_or_create_collection e db col in
  (e, default Collection.new (get_collection e db col)).

(** ** crud.rs *)

Definition FIND_PARAMS : list bytes :=
  [str "filter"; str "projection"; str "sort"; str "limit"; str "skip"; str "hint"; str "batchSize"; str "singleBatch"; str "comment"; str "maxTimeMS"; str "readConcern"].
(** The loop over [docs.iter().enumerate()] *)
Fixpoint find_loop (projection : option (Document Num)) (skip limit : usize) (i : usize) (docs filtered : list (Document Num)) : list (Document Num) :=
  match docs with
  | [] => filtered
  | doc :: docs =>
      if i <? skip then find_loop projection skip limit (i + 1) docs filtered
      else if (0 <? limit) && (limit <=? vlen filtered) then filtered
      else find_loop projection skip limit (i + 1) docs (filtered ++ [apply_projection doc projection])
  end.
Definition namespace (db col : bytes) : bytes := db ++ str "." ++ col.
Definition find cmd_doc s : Answer :=
  let db_name := db_name cmd_doc in
  let col_name := col_name FIND_PARAMS cmd_doc in
  let filter := object_at (str "filter") cmd_doc in
  let projection := object_at (str "projection") cmd_doc in
  let limit := usize_at (str "limit") cmd_doc in
  let skip := usize_at (str "skip") cmd_doc in
  let '(e, col) := open (engine s) db_name col_name in
  let docs := Collection.find col filter in
  let filtered := find_loop projection skip limit 0 docs [] in
  let '(cursor_id, cs) := CursorStore.create (store s) (namespace db_name col_name) filtered 100 in
  let cursor := document [(str "id", int cursor_id); (str "ns", String (namespace db_name col_name)); (str "firstBatch", Array (Object <$> filtered))] in
  Some (Ok (ok_doc [(str "cursor", Object cursor)]), mkServer e cs).
(** [for doc_val in documents]; what is not an object is passed over *)
Fixpoint insert_loop (col : Collection Num) (documents : list (Value Num)) (ids : list bytes) : result bytes (list bytes) * Collection Num :=
  match documents with
  | [] => (Ok ids, col)
  | doc_val :: documents =>
      match value_object doc_val with
      | Some doc =>
          match Collection.insert_one col doc with
          | (Ok id, col) => insert_loop col documents (ids ++ [id])
          | (Err e, col) => (Err e, col)
          end
      | None => insert_loop col documents ids
      end
  end.
Definition insert cmd_doc s : Answer :=
  let db_name := db_name cmd_doc in
  let col_name := col_name [str "documents"] cmd_doc in
  match array_at (str "documents") cmd_doc with
  | None => Some (Err (str "missing documents"), s)
  | Some documents =>
      let '(e, col) := open (engine s) db_name col_name in
      let '(r, col) := insert_loop col documents [] in
      let s := mkServer (set_collection e db_name col_name col) (store s) in
      match r with
      | Ok ids => Some (Ok (ok_doc [(str "insertedIds", Array (String <$> ids))]), s)
      | Err e => Some (Err e, s)
      end
  end.
Definition update cmd_doc s : Answer :=
  let db_name := db_name cmd_doc in
  let col_name := col_name [] cmd_doc in
  let filter := object_at (str "filter") cmd_doc in
  match BTreeMap.get (str "update") cmd_doc with
  | None => Some (Err (str "missing update"), s)
  | Some update_spec =>
      let '(e, col) := open (engine s) db_name col_name in
      match value_object update_spec with
      | Some update =>
          let '(modified, col) := Collection.update_many col filter update in
          Some (Ok (ok_doc [(str "modifiedCount", Number (of_u64 modified))]), mkServer (set_collection e db_name col_name col) (store s))
      | None => Some (Err (str "invalid update spec"), mkServer e (store s))
      end
  end.
Definition delete cmd_doc s : Answer :=
  let db_name := db_name cmd_doc in
  let col_name := col_name [str "filter"] cmd_doc in
  let filter := object_at (str "filter") cmd_doc in
  let '(e, col) := open (engine s) db_name col_name in
  let '(deleted, col) := Collection.delete_many col filter in
  Some (Ok (ok_doc [(str "deletedCount", Number (of_u64 deleted))]), mkServer (set_collection e db_name col_name col) (store s)).
Definition count cmd_doc s : Answer :=
  let db_name := db_name cmd_doc in
  let col_name := col_name [str "filter"] cmd_doc in
  let filter := object_at (str "filter") cmd_doc in
  let '(e, col) := open (engine s) db_name col_name in
  Some (Ok (ok_doc [(str "n", Number (of_u64 (Collection.count col filter)))]), mkServer e (store s)).

(** ** cursor.rs *)

Definition get_more cmd_doc s : Answer :=
  match v ← BTreeMap.get (str "getMore") cmd_doc; value_i64 v with
  | None => Some (Err (str "missing cursor id"), s)
  | Some cursor_id =>
      match cursors (store s) !! cursor_id with
      | None => Some (Err (str "cursor not found"), s)
      | Some c =>
          r ← Cursor.next_batch c;
          let '(batch, c) := r in
          let cursor := document [(str "id", int (if Cursor.has_more c then cursor_id else 0)); (str "ns", String (cns c)); (str "nextBatch", Array (Object <$> batch))] in
          Some (Ok (ok_doc [(str "cursor", Object cursor)]),
                mkServer (engine s) (mkCursorStore (<[cursor_id := c]> (cursors (store s))) (ccounter (store s))))
      end
  end.
Definition kill_cursors cmd_doc s : Answer :=
  match array_at (str "killCursors") cmd_doc with
  | None => Some (Err (str "missing cursor ids"), s)
  | Some cursor_ids =>
      let ids := omap value_i64 cursor_ids in
      Some (Ok (ok_doc [(str "cursorsKilled", Array (int <$> ids)); (str "cursorsNotFound", Array [])]),
            mkServer (engine s) (foldl (λ cs id, (CursorStore.kill cs id).2) (store s) ids))
  end.

(** ** db.rs *)

Definition list_databases s : Answer :=
  let dbs := (λ db_name, Object (document [(str "name", String db_name); (str "sizeOnDisk", int 0); (str "empty", Bool false)])) <$> hash_order (map_to_list (engine s)).*1 in
  Some (Ok (ok_doc [(str "databases", Array dbs); (str "totalSize", int 0)]), s).
(** The database a command of [db.rs] is about: ["current_db"] when the argument is a number. *)
Definition named_db (key fallback : bytes) cmd_doc : bytes :=
  match BTreeMap.get key cmd_doc with
  | Some (Number _) => str "current_db"
  | _ => default fallback (v ← BTreeMap.get (str "$db") cmd_doc; value_str v)
  end.
Definition list_collections cmd_doc s : Answer :=
  let db_name := named_db (str "listCollections") (str "admin") cmd_doc in
  match engine s !! db_name with
  | None => Some (Ok (ok_doc [(str "cursor", Object [])]), s)
  | Some db =>
      let first_batch := (λ col_name, Object (document [(str "name", String col_name); (str "type", String (str "collection"))])) <$> hash_order (map_to_list (db : Database Num)).*1 in
      let cursor := document [(str "id", int 0); (str "ns", String (db_name ++ str ".$cmd.listCollections")); (str "firstBatch", Array first_batch)] in
      Some (Ok (ok_doc [(str "cursor", Object cursor)]), s)
  end.
Definition create_collection cmd_doc s : Answer :=
  Some (Ok (ok_doc []), mkServer (get_or_create_collection (engine s) (db_name cmd_doc) (col_name [] cmd_doc)) (store s)).
Definition drop_collection cmd_doc s : Answer :=
  let e := match engine s !! db_name cmd_doc with
           | Some _ => DocEngine.drop_collection (engine s) (db_name cmd_doc) (col_name [] cmd_doc)
           | None => engine s
           end in
  Some (Ok (ok_doc []), mkServer e (store s)).
Definition drop_database cmd_doc s : Answer :=
  Some (Ok (ok_doc []), mkServer (DocEngine.drop_database (engine s) (named_db (str "dropDatabase") (str "test") cmd_doc)) (store s)).

(** ** index.rs *)

(** The index an entry of [indexes] asks for. *)
Definition index_of (idx_obj : Document Num) : Index :=
  let keys := match v ← BTreeMap.get (str "key") idx_obj; value_object v with
              | Some key_spec => foldl (λ m e, match value_i64 e.2 with Some direction => BTreeMap.insert e.1 (as_i32 direction) m | None => m end) [] key_spec
              | None => []
              end in
  mkIndex (default (str "index") (v ← BTreeMap.get (str "name") idx_obj; value_str v)) keys
    (default false (v ← BTreeMap.get (str "unique") idx_obj; value_bool v)).
Definition create_indexes cmd_doc s : Answer :=
  let db_name := db_name cmd_doc in
  let col_name := col_name [] cmd_doc in
  match array_at (str "indexes") cmd_doc with
  | None => Some (Err (str "missing indexes"), s)
  | Some indexes =>
      let '(e, col) := open (engine s) db_name col_name in
      let col := foldl (λ col idx_spec, match value_object idx_spec with Some idx_obj => Collection.add_index col (index_of idx_obj) | None => col end) col indexes in
      Some (Ok (ok_doc [(str "numIndexesAfter", Number (of_u64 (vlen indexes)))]), mkServer (set_collection e db_name col_name col) (store s))
  end.
Definition drop_indexes cmd_doc s : Answer :=
  let db_name := db_name cmd_doc in
  let col_name := col_name [] cmd_doc in
  let '(e, col) := open (engine s) db_name col_name in
  let e := match v ← BTreeMap.get (str "index") cmd_doc; value_str v with
           | Some name => set_collection e db_name col_name (Collection.drop_index col name)
           | None => e
           end in
  Some (Ok (ok_doc [(str "nIndexesWas", int 1)]), mkServer e (store s)).
Definition index_doc (idx : Index) : Document Num :=
  document ([(str "key", Object (document ((λ e, (e.1, int e.2)) <$> ikeys idx))); (str "name", String (iname idx))]
            ++ if iunique idx then [(str "unique", Bool true)] else []).
Definition list_indexes cmd_doc s : Answer :=
  let db_name := db_name cmd_doc in
  let col_name := col_name [] cmd_doc in
  let '(e, col) := open (engine s) db_name col_name in
  let cursor := document [(str "id", int 0); (str "ns", String (namespace db_name col_name ++ str ".$cmd.listIndexes"));
                          (str "firstBatch", Array ((λ idx, Object (index_doc idx)) <$> Collection.list_indexes col))] in
  Some (Ok (ok_doc [(str "cursor", Object cursor)]), mkServer e (store s)).

(** ** agg.rs *)

Definition compare_values (a b : option (Value Num)) : comparison :=
  match a, b with
  | None, None => Eq
  | None, Some _ => Lt
  | Some _, None => Gt
  | Some av, Some bv =>
      match value_i64 av, value_i64 bv with
      | Some an, Some bn => Z.compare an bn
      | _, _ => match value_str av, value_str bv with Some as_, Some bs => bytes_cmp as_ bs | _, _ => Eq end
      end
  end.
(** The comparison a sort stage makes of its fields. *)
Fixpoint sort_cmp (sort_obj : Document Num) (a b : Document Num) : comparison :=
  match sort_obj with
  | [] => Eq
  | (key, direction) :: sort_obj =>
      let dir := default 1%Z (value_i64 direction) in
      match compare_values (BTreeMap.get key a) (BTreeMap.get key b) with
      | Eq => sort_cmp sort_obj a b
      | cmp => if (0 <? dir)%Z then cmp else CompOpp cmp
      end
  end.
(** The stable sort [slice::sort_by] is when the comparison is a total order on the slice. *)
Definition not_gt (c : comparison) : bool := match c with Gt => false | _ => true end.
Definition total_on (cmp : Document Num → Document Num → comparison) (l : list (Document Num)) : bool :=
  forallb (λ a, forallb (λ b, bool_decide (cmp a b = CompOpp (cmp b a)) &&
    forallb (λ c, implb (not_gt (cmp a b) && not_gt (cmp b c)) (not_gt (cmp a c))) l) l) l.
Fixpoint sort_insert (cmp : Document Num → Document Num → comparison) (x : Document Num) (l : list (Document Num)) : list (Document Num) :=
  match l with
  | [] => [x]
  | y :: l => if not_gt (cmp x y) then x :: y :: l else y :: sort_insert cmp x l
  end.
Definition sort_by (cmp : Document Num → Document Num → comparison) (l : list (Document Num)) : option (list (Document Num)) :=
  if total_on cmp l then Some (foldr (sort_insert cmp) [] l) else disorder l.

(** [trim_start_matches('$')] *)
Fixpoint trim_dollars (b : bytes) : bytes := match b with c :: b' => if c =? 36 then trim_dollars b' else b | [] => [] end.
(** The key a document is grouped by. *)
Definition group_key (group_spec doc : Document Num) : bytes :=
  match default (str "all") (v ← BTreeMap.get (str "_id") group_spec; value_str v) with
  | 36 :: key_field => match BTreeMap.get key_field doc with Some v => debug_text v | None => str "null" end
  | _ => str "all"
  end.
Definition group_push (group_spec : Document Num) (groups : gmap bytes (list (Document Num))) doc : gmap bytes (list (Document Num)) :=
  let key := group_key group_spec doc in
  <[key := default [] (groups !! key) ++ [doc]]> groups.
(** One turn of the loop over the fields of a group *)
Definition group_field (docs : list (Document Num)) (result : Document Num) (e : bytes * Value Num) : Document Num :=
  let '(field, spec) := e in
  if bool_decide (field = str "_id") then result
  else
    match o ← value_object spec; head o with
    | Some (op, op_field) =>
        if bool_decide (op = str "$sum") then
          match value_str op_field with
          | Some field_name =>
              let sum := foldl i64_add 0%Z (omap (λ d, v ← BTreeMap.get (trim_dollars field_name) d; value_i64 v) docs) in
              BTreeMap.insert field (int sum) result
          | None => if bool_decide (value_i64 op_field = Some 1%Z) then BTreeMap.insert field (int (Z.of_N (vlen docs))) result else result
          end
        else if bool_decide (op = str "$count") then BTreeMap.insert field (int (Z.of_N (vlen docs))) result
        else result
    | None => result
    end.
Definition groups_of (results : list (Document Num)) (group_spec : Document Num) : gmap bytes (list (Document Num)) :=
  foldl (group_push group_spec) ∅ results.
Definition group_stage (results : list (Document Num)) (group_spec : Document Num) : list (Document Num) :=
  let groups := groups_of results group_spec in
  (λ key, foldl (group_field (default [] (groups !! key))) (document [(str "_id", String key)]) group_spec) <$> hash_order (map_to_list groups).*1.

Definition project_stage (proj : Document Num) doc : Document Num := foldl (include_field doc) [] proj.
Definition run_stage (results : list (Document Num)) (stage : Value Num) : option (list (Document Num)) :=
  match o ← value_object stage; head o with
  | Some (stage_name, stage_spec) =>
      if bool_decide (stage_name = str "$match") then
        Some (match value_object stage_spec with Some f => base.filter (λ doc, matches_query doc f = true) results | None => results end)
      else if bool_decide (stage_name = str "$project") then
        Some (match value_object stage_spec with Some proj => project_stage proj <$> results | None => results end)
      else if bool_decide (stage_name = str "$limit") then
        Some (match value_i64 stage_spec with Some limit => take (N.to_nat (as_usize limit)) results | None => results end)
      else if bool_decide (stage_name = str "$skip") then
        Some (match value_i64 stage_spec with Some skip => drop (N.to_nat (as_usize skip)) results | None => results end)
      else if bool_decide (stage_name = str "$sort") then
        match value_object stage_spec with Some sort_obj => sort_by (sort_cmp sort_obj) results | None => Some results end
      else if bool_decide (stage_name = str "$group") then
        Some (match value_object stage_spec with Some group_obj => group_stage results group_obj | None => results end)
      else Some results
  | None => Some results
  end.
Fixpoint run_pipeline (results : list (Document Num)) (pipeline : list (Value Num)) : option (list (Document Num)) :=
  match pipeline with [] => Some results | stage :: pipeline => results ← run_stage results stage; run_pipeline results pipeline end.
Definition aggregate cmd_doc s : Answer :=
  let db_name := db_name cmd_doc in
  let col_name := match v ← BTreeMap.get (str "aggregate") cmd_doc; value_str v with
                  | Some name => name
                  | None => col_name [str "aggregate"; str "pipeline"; str "cursor"] cmd_doc
                  end in
  match array_at (str "pipeline") cmd_doc with
  | None => Some (Err (str "missing pipeline"), s)
  | Some pipeline =>
      let '(e, col) := open (engine s) db_name col_name in
      results ← run_pipeline (Collection.find col None) pipeline;
      let cursor := document [(str "id", int 0); (str "ns", String (namespace db_name col_name)); (str "firstBatch", Array (Object <$> results))] in
      Some (Ok (ok_doc [(str "cursor", Object cursor)]), mkServer e (store s))
  end.

(** ** hello.rs and admin.rs *)

Definition hello : Document Num :=
  ok_doc [(str "ismaster", Bool true); (str "maxBsonObjectSize", int 16777216); (str "maxMessageSizeBytes", int 48000000);
          (str "minWireVersion", int 0); (str "maxWireVersion", int 17); (str "logicalSessionTimeoutMinutes", int 30)].
Definition ping : Document Num := ok_doc [].
Definition build_info : Document Num := ok_doc [(str "version", String (str "6.0.0")); (str "gitVersion", String (str "cave")); (str "modules", Array [])].
Definition end_sessions : Document Num := ok_doc [].
Definition current_op : Document Num := ok_doc [(str "inprog", Array [])].
Definition server_status : Document Num :=
  ok_doc [(str "host", String (str "localhost")); (str "version", String (str "6.0.0")); (str "uptime", int 0);
          (str "connections", Object (document [(str "current", int 1); (str "available", int 1000)]))].

(** ** mod.rs *)

Definition error_doc (msg : bytes) : Document Num := document [(str "ok", int 0); (str "errmsg", String msg)].
Definition dispatch (cmd_name : bytes) cmd_doc s : Answer :=
  let named names := bool_decide (cmd_name ∈ (str <$> names)) in
  if named ["isMaster"; "hello"; "ismaster"]%string then Some (Ok hello, s)
  else if named ["ping"]%string then Some (Ok ping, s)
  else if named ["buildInfo"]%string then Some (Ok build_info, s)
  else if named ["listDatabases"]%string then list_databases s
  else if named ["listCollections"]%string then list_collections cmd_doc s
  else if named ["createCollection"]%string then create_collection cmd_doc s
  else if named ["drop"]%string then drop_collection cmd_doc s
  else if named ["dropDatabase"]%string then drop_database cmd_doc s
  else if named ["find"]%string then find cmd_doc s
  else if named ["insert"; "insertOne"; "insertMany"]%string then insert cmd_doc s
  else if named ["update"; "updateOne"; "updateMany"]%string then update cmd_doc s
  else if named ["delete"; "deleteOne"; "deleteMany"]%string then delete cmd_doc s
  else if named ["count"; "countDocuments"]%string then count cmd_doc s
  else if named ["aggregate"]%string then aggregate cmd_doc s
  else if named ["createIndexes"]%string then create_indexes cmd_doc s
  else if named ["dropIndexes"; "dropIndex"]%string then drop_indexes cmd_doc s
  else if named ["listIndexes"]%string then list_indexes cmd_doc s
  else if named ["getMore"]%string then get_more cmd_doc s
  else if named ["killCursors"]%string then kill_cursors cmd_doc s
  else if named ["endSessions"]%string then Some (Ok end_sessions, s)
  else if named ["currentOp"]%string then Some (Ok current_op, s)
  else if named ["serverStatus"]%string then Some (Ok server_status, s)
  else Some (Ok (error_doc (str "unknown command: " ++ cmd_name)), s).
End Commands.

(** ** Collections under the commands *)

Section Collections.
Context {Num : Type}.
Implicit Types (e : Engine Num) (c : Collection Num) (db col : bytes).

(** The collection a command gets to see under a name. *)
Definition coll e db col : Collection Num := default Collection.new (get_collection e db col).

Lemma get_create e db col db' col' : get_collection (get_or_create_collection e db col) db' col' =
  if bool_decide (db' = db ∧ col' = col) then Some (coll e db col) else get_collection e db' col'.
Proof.
  unfold coll, get_collection, get_or_create_collection, get_or_create_database, Engine, Database in *. case_bool_decide as H.
  - destruct H as [-> ->]. destruct (e !! db) as [d|] eqn:Hd.
    + rewrite lookup_alter_eq, Hd. cbn. destruct (d !! col) eqn:Hc; [by rewrite Hc|]. by rewrite lookup_insert_eq.
    + rewrite lookup_alter_eq, lookup_insert_eq. cbn. rewrite lookup_empty. by rewrite lookup_insert_eq.
  - destruct (decide (db' = db)) as [->|Hne].
    + assert (Hcol : col ≠ col') by naive_solver. destruct (e !! db) as [d|] eqn:Hd.
      * rewrite lookup_alter_eq, Hd. cbn. destruct (d !! col) eqn:Hc; [done|]. by rewrite lookup_insert_ne.
      * rewrite lookup_alter_eq, lookup_insert_eq. cbn. by rewrite lookup_empty, lookup_insert_ne.
    + rewrite lookup_alter_ne by done. destruct (e !! db) eqn:Hd; [done|]. by rewrite lookup_insert_ne.
Qed.
Lemma coll_create e db col db' col' : coll (get_or_create_collection e db col) db' col' = coll e db' col'.
Proof. unfold coll at 1. rewrite get_create. case_bool_decide as H; [by destruct H as [-> ->]|done]. Qed.
Lemma coll_set e db col c db' col' : is_Some (get_collection e db col) →
  coll (set_collection e db col c) db' col' = if bool_decide (db' = db ∧ col' = col) then c else coll e db' col'.
Proof.
  intros [x Hx]. unfold coll, get_collection, set_collection, Engine, Database in *. destruct (e !! db) as [d|] eqn:Hd; [|done]. case_bool_decide as H.
  - destruct H as [-> ->]. rewrite lookup_alter_eq, Hd. cbn. by rewrite lookup_insert_eq.
  - destruct (decide (db' = db)) as [->|Hne]; [|by rewrite lookup_alter_ne]. rewrite lookup_alter_eq, Hd. cbn. rewrite lookup_insert_ne; [done|naive_solver].
Qed.
Lemma coll_drop e db col db' col' :
  coll (DocEngine.drop_collection e db col) db' col' = if bool_decide (db' = db ∧ col' = col) then Collection.new else coll e db' col'.
Proof.
  unfold coll, get_collection, DocEngine.drop_collection, Engine, Database in *. case_bool_decide as H.
  - destruct H as [-> ->]. rewrite lookup_alter_eq. destruct (e !! db) as [d|]; [|done]. cbn. by rewrite lookup_delete_eq.
  - destruct (decide (db' = db)) as [->|Hne]; [|by rewrite lookup_alter_ne]. rewrite lookup_alter_eq. destruct (e !! db) as [d|]; [|done]. cbn. rewrite lookup_delete_ne; [done|naive_solver].
Qed.
Lemma coll_drop_database e db db' col' :
  coll (DocEngine.drop_database e db) db' col' = if bool_decide (db' = db) then Collection.new else coll e db' col'.
Proof. unfold coll, get_collection, DocEngine.drop_database, Engine, Database in *. case_bool_decide; [subst; by rewrite lookup_delete_eq|by rewrite lookup_delete_ne]. Qed.

Lemma open_spec e db col : open e db col = (get_or_create_collection e db col, coll e db col).
Proof. unfold open. f_equal. rewrite get_create. by rewrite bool_decide_true. Qed.
Lemma coll_open_set e db col c db' col' :
  coll (set_collection (get_or_create_collection e db col) db col c) db' col' = if bool_decide (db' = db ∧ col' = col) then c else coll e db' col'.
Proof. rewrite coll_set by (rewrite get_create, bool_decide_true; by eexists). case_bool_decide; [done|]. apply coll_create. Qed.
End Collections.

(** ** What the commands do to the documents *)

Section Effects.
Context {Num : Type} `{NO : !NumberOps Num} `{RX : !Regex} `{DT : !DebugText Num} `{HO : !HashOrder} `{DO : !Disorder Num}.
Implicit Types (cmd_doc : Document Num) (s : Server Num) (c : Collection Num).

(** A collection that has come from another without a new document. *)
Definition shrinks c c' : Prop := ordered (documents c) → ordered (documents c') ∧
  ∀ id, is_Some (BTreeMap.get id (documents c')) → is_Some (BTreeMap.get id (documents c)).
Definition server_ordered s : Prop := ∀ db col, ordered (documents (coll (engine s) db col)).
Definition server_shrinks s s' : Prop := ∀ db col, shrinks (coll (engine s) db col) (coll (engine s') db col).

Lemma shrinks_same c c' : documents c' = documents c → shrinks c c'.
Proof. by intros H; unfold shrinks; rewrite H. Qed.
Lemma shrinks_new c : shrinks c Collection.new.
Proof. intros _. split; [constructor|]. intros id [? ?]. done. Qed.
Lemma shrinks_update c f u : shrinks c (Collection.update_many c f u).2.
Proof.
  unfold shrinks, Collection.update_many. destruct (foldl _ _ _) as [docs n] eqn:Hf. cbn [snd documents]. intros Ho.
  assert (Hg : ∀ ids acc, ordered acc.1 → let r := foldl (Collection.update_at u) acc ids in
    ordered r.1 ∧ ∀ id, is_Some (BTreeMap.get id r.1) → is_Some (BTreeMap.get id acc.1)).
  { intros ids. induction ids as [|i ids IH]; intros acc Hacc; [done|]. cbn [foldl]. unfold Collection.update_at at 2 4.
    destruct (BTreeMap.get i acc.1) as [d|] eqn:Hi; [|by apply IH]. destruct (IH (BTreeMap.insert i (apply_update d u) acc.1, acc.2 +w 1)) as [H1 H2]; [by apply ordered_insert|].
    split; [done|]. intros id Hid. apply H2 in Hid. cbn [fst] in Hid. rewrite get_insert in Hid by done. destruct (decide (id = i)) as [->|]; [by eexists|done]. }
  specialize (Hg (Collection.ids_of c f) (documents c, 0) Ho). by rewrite Hf in Hg.
Qed.
Lemma shrinks_delete c f : shrinks c (Collection.delete_many c f).2.
Proof.
  intros Ho. unfold Collection.delete_many. cbn [snd documents]. rewrite delete_docs by done. split; [by apply ordered_filter|].
  intros id [d Hd]. rewrite get_Some in Hd by by apply ordered_filter. apply list_elem_of_filter in Hd as [_ Hd]. exists d. by apply get_Some.
Qed.

Lemma shrinks_refl s s' : engine s' = engine s → server_shrinks s s'.
Proof. intros He db col. unfold shrinks. by rewrite He. Qed.
Lemma shrinks_create s db col cs : server_shrinks s (mkServer (get_or_create_collection (engine s) db col) cs).
Proof. intros db' col'. cbn [engine]. by apply shrinks_same; rewrite coll_create. Qed.
Lemma shrinks_set s db col cs c : shrinks (coll (engine s) db col) c →
  server_shrinks s (mkServer (set_collection (get_or_create_collection (engine s) db col) db col c) cs).
Proof. intros Hc db' col'. cbn [engine]. rewrite coll_open_set. case_bool_decide as H; [by destruct H as [-> ->]|by apply shrinks_same]. Qed.
Create HintDb shrink.
#[local] Hint Resolve shrinks_refl shrinks_create shrinks_set shrinks_same shrinks_new shrinks_update shrinks_delete : shrink.

(** Every command but the inserts. *)
Lemma update_shrinks cmd_doc s r s' : update cmd_doc s = Some (r, s') → server_shrinks s s'.
Proof.
  unfold update. destruct (BTreeMap.get _ _) as [spec|]; [|intros [= <- <-]; auto with shrink]. rewrite open_spec.
  destruct (value_object spec); [|intros [= <- <-]; auto with shrink]. destruct (Collection.update_many _ _ _) as [n c] eqn:Hu. intros [= <- <-].
  apply shrinks_set. change c with (n, c).2. rewrite <- Hu. apply shrinks_update.
Qed.
Lemma delete_shrinks cmd_doc s r s' : delete cmd_doc s = Some (r, s') → server_shrinks s s'.
Proof.
  unfold delete. rewrite open_spec. destruct (Collection.delete_many _ _) as [n c] eqn:Hu. intros [= <- <-].
  apply shrinks_set. change c with (n, c).2. rewrite <- Hu. apply shrinks_delete.
Qed.
Lemma create_indexes_shrinks cmd_doc s r s' : create_indexes cmd_doc s = Some (r, s') → server_shrinks s s'.
Proof.
  unfold create_indexes. destruct (array_at _ _) as [l|]; [|intros [= <- <-]; auto with shrink]. rewrite open_spec. intros [= <- <-].
  apply shrinks_set, shrinks_same. generalize (coll (engine s) (db_name cmd_doc) (col_name [] cmd_doc)). induction l as [|v l IH]; intros c; [done|].
  cbn [foldl]. rewrite IH. by destruct (value_object v).
Qed.
Lemma drop_indexes_shrinks cmd_doc s r s' : drop_indexes cmd_doc s = Some (r, s') → server_shrinks s s'.
Proof. unfold drop_indexes. rewrite open_spec. destruct (v ← BTreeMap.get (str "index") cmd_doc; value_str v); intros [= <- <-]; auto with shrink. Qed.
Lemma drop_collection_shrinks cmd_doc s r s' : drop_collection cmd_doc s = Some (r, s') → server_shrinks s s'.
Proof.
  unfold drop_collection. destruct (engine s !! _); intros [= <- <-]; [|auto with shrink]. intros db col. cbn [engine]. rewrite coll_drop.
  case_bool_decide; auto with shrink.
Qed.
Lemma drop_database_shrinks cmd_doc s r s' : drop_database cmd_doc s = Some (r, s') → server_shrinks s s'.
Proof. intros [= <- <-] db col. cbn [engine]. rewrite coll_drop_database. case_bool_decide; auto with shrink. Qed.
Lemma aggregate_shrinks cmd_doc s r s' : aggregate cmd_doc s = Some (r, s') → server_shrinks s s'.
Proof.
  unfold aggregate. destruct (array_at _ _); [|intros [= <- <-]; auto with shrink]. rewrite open_spec. destruct (run_pipeline _ _); [|done].
  intros [= <- <-]. auto with shrink.
Qed.
Lemma get_more_shrinks cmd_doc s r s' : get_more cmd_doc s = Some (r, s') → server_shrinks s s'.
Proof.
  unfold get_more. destruct (v ← BTreeMap.get (str "getMore") cmd_doc; value_i64 v) as [id|]; [|intros [= <- <-]; auto with shrink]. destruct (cursors (store s) !! id) as [c|]; [|intros [= <- <-]; auto with shrink].
  destruct (Cursor.next_batch c) as [[? ?]|]; [|done]. intros [= <- <-]. auto with shrink.
Qed.
Lemma kill_cursors_shrinks cmd_doc s r s' : kill_cursors cmd_doc s = Some (r, s') → server_shrinks s s'.
Proof. unfold kill_cursors. destruct (array_at _ _); intros [= <- <-]; auto with shrink. Qed.
Lemma find_shrinks cmd_doc s r s' : find cmd_doc s = Some (r, s') → server_shrinks s s'.
Proof. unfold find. rewrite open_spec. intros [= <- <-]. auto with shrink. Qed.
Lemma count_shrinks cmd_doc s r s' : count cmd_doc s = Some (r, s') → server_shrinks s s'.
Proof. unfold count. rewrite open_spec. intros [= <- <-]. auto with shrink. Qed.
Lemma list_indexes_shrinks cmd_doc s r s' : list_indexes cmd_doc s = Some (r, s') → server_shrinks s s'.
Proof. unfold list_indexes. rewrite open_spec. intros [= <- <-]. auto with shrink. Qed.
Lemma list_collections_shrinks cmd_doc s r s' : list_collections cmd_doc s = Some (r, s') → server_shrinks s s'.
Proof. unfold list_collections. destruct (engine s !! _); intros [= <- <-]; auto with shrink. Qed.

Lemma list_databases_shrinks s r s' : list_databases s = Some (r, s') → server_shrinks s s'.
Proof. unfold list_databases. intros [= <- <-]. auto with shrink. Qed.
Lemma create_collection_shrinks cmd_doc s r s' : create_collection cmd_doc s = Some (r, s') → server_shrinks s s'.
Proof. unfold create_collection. intros [= <- <-]. auto with shrink. Qed.

Definition INSERTS : list bytes := [str "insert"; str "insertOne"; str "insertMany"].
Lemma dispatch_cases cmd_name cmd_doc s r s' : dispatch cmd_name cmd_doc s = Some (r, s') →
  (cmd_name ∈ INSERTS ∧ insert cmd_doc s = Some (r, s')) ∨ server_shrinks s s'.
Proof.
  unfold dispatch. repeat (case_bool_decide as Hn; [first
    [ intros [= <- <-]; right; by apply shrinks_refl
    | intros H; left; by split
    | intros H; right; clear Hn; eauto using update_shrinks, delete_shrinks, create_indexes_shrinks, drop_indexes_shrinks, drop_collection_shrinks, drop_database_shrinks, aggregate_shrinks,
        get_more_shrinks, kill_cursors_shrinks, find_shrinks, count_shrinks, list_indexes_shrinks, list_collections_shrinks, list_databases_shrinks, create_collection_shrinks]|clear Hn]).
  intros [= <- <-]. right. by apply shrinks_refl.
Qed.
(** No command but an insert adds a document. *)
Lemma only_inserts_add cmd_name cmd_doc s r s' : cmd_name ∉ INSERTS → dispatch cmd_name cmd_doc s = Some (r, s') → server_shrinks s s'.
Proof. intros Hn [[Hi _]|H]%dispatch_cases; [done|exact H]. Qed.

Lemma insert_loop_ordered c vals ids : ordered (documents c) → ordered (documents (insert_loop c vals ids).2).
Proof.
  revert c ids. induction vals as [|v vals IH]; intros c ids Ho; [done|]. cbn [insert_loop]. destruct (value_object v) as [doc|]; [|by apply IH].
  unfold Collection.insert_one. destruct (Collection.with_id c doc) as [doc' n]. destruct (Collection.id_text doc'); [|done]. apply IH. cbn [documents]. by apply ordered_insert.
Qed.
Lemma insert_ordered cmd_doc s r s' : insert cmd_doc s = Some (r, s') → server_ordered s → server_ordered s'.
Proof.
  unfold insert. destruct (array_at _ _) as [l|]; [|by intros [= <- <-]]. rewrite open_spec. destruct (insert_loop _ _ _) as [x c] eqn:Hl. intros Hr Ho db col.
  assert (Hs : s' = mkServer (set_collection (get_or_create_collection (engine s) (db_name cmd_doc) (col_name [str "documents"] cmd_doc)) (db_name cmd_doc) (col_name [str "documents"] cmd_doc) c) (store s))
    by (destruct x; congruence).
  rewrite Hs. cbn [engine]. rewrite coll_open_set. case_bool_decide; [|apply Ho]. change c with (x, c).2. rewrite <- Hl. apply insert_loop_ordered, Ho.
Qed.
(** The documents of every collection stay filed under their ids in order. *)
Lemma dispatch_ordered cmd_name cmd_doc s r s' : dispatch cmd_name cmd_doc s = Some (r, s') → server_ordered s → server_ordered s'.
Proof. intros [[_ Hi]|H]%dispatch_cases Ho; [by eapply insert_ordered|]. intros db col. by apply (H db col). Qed.
End Effects.

(** ** Finds *)

Section Finds.
Context {Num : Type} `{NO : !NumberOps Num} `{RX : !Regex}.
Implicit Types (cmd_doc doc : Document Num) (s : Server Num) (c : Collection Num).

(** What [skip] and [limit] mean; a limit of 0 is none. *)
Definition page {A} (skip limit : usize) (l : list A) : list A :=
  let l := drop (N.to_nat skip) l in if limit =? 0 then l else take (N.to_nat limit) l.

Lemma find_loop_from proj skip limit i docs acc : find_loop proj skip limit i docs acc =
  acc ++ ((λ d, apply_projection d proj) <$> let l := drop (N.to_nat (skip - i)) docs in if limit =? 0 then l else take (N.to_nat (limit - vlen acc)) l).
Proof.
  revert i acc. induction docs as [|d docs IH]; intros i acc; cbn [find_loop].
  { rewrite drop_nil. destruct (limit =? 0); rewrite ?take_nil, app_nil_r; done. }
  destruct (N.ltb_spec i skip) as [Hi|Hi].
  { rewrite IH. assert (N.to_nat (skip - i) = S (N.to_nat (skip - (i + 1)))) as -> by lia. done. }
  assert (skip - i = 0) as -> by lia. change (N.to_nat 0) with 0%nat. cbn [drop]. destruct (N.eqb_spec limit 0) as [->|Hl].
  - cbn [N.ltb N.compare andb]. rewrite IH. assert (skip - (i + 1) = 0) as -> by lia. cbn. by rewrite <- app_assoc.
  - assert ((0 <? limit) = true) as -> by (apply N.ltb_lt; lia). cbn [andb]. destruct (N.leb_spec limit (vlen acc)) as [Hle|Hlt].
    + assert (limit - vlen acc = 0) as -> by lia. cbn. by rewrite app_nil_r.
    + rewrite IH. destruct (N.eqb_spec limit 0); [done|]. assert (skip - (i + 1) = 0) as -> by lia. rewrite vlen_app. change (vlen [_]) with 1.
      assert (N.to_nat (limit - vlen acc) = S (N.to_nat (limit - (vlen acc + 1)))) as -> by lia. cbn. by rewrite <- app_assoc.
Qed.
Lemma find_loop_spec proj skip limit docs : find_loop proj skip limit 0 docs [] = (λ d, apply_projection d proj) <$> page skip limit docs.
Proof. rewrite find_loop_from. unfold page. change (vlen []) with 0. by rewrite !N.sub_0_r. Qed.

(** The documents of an answer. *)
Definition first_batch (resp : Document Num) : option (list (Value Num)) := o ← object_at (str "cursor") resp; array_at (str "firstBatch") o.
Lemma find_answer cmd_doc s : let c := coll (engine s) (db_name cmd_doc) (col_name FIND_PARAMS cmd_doc) in
  let docs := (λ d, apply_projection d (object_at (str "projection") cmd_doc)) <$>
    page (usize_at (str "skip") cmd_doc) (usize_at (str "limit") cmd_doc) (Collection.find c (object_at (str "filter") cmd_doc)) in
  ∃ resp s', find cmd_doc s = Some (Ok resp, s') ∧ first_batch resp = Some (Object <$> docs) ∧ ∀ db col, coll (engine s') db col = coll (engine s) db col.
Proof.
  intros c docs. unfold find. rewrite open_spec, find_loop_spec. eexists _, _. split; [reflexivity|]. split; [done|]. intros db col. apply coll_create.
Qed.

Lemma find_everything c : Collection.find c None = (documents c).*2.
Proof. unfold Collection.find. f_equal. induction (documents c) as [|e l IH]; [done|]. rewrite filter_cons_True by done. by rewrite IH. Qed.
(** Without arguments a find answers with the whole collection. *)
Lemma find_plain cmd_doc s : Forall (λ k, BTreeMap.get k cmd_doc = None) [str "filter"; str "projection"; str "skip"; str "limit"] → ∃ resp s',
  find cmd_doc s = Some (Ok resp, s') ∧
  first_batch resp = Some (Object <$> (documents (coll (engine s) (db_name cmd_doc) (col_name FIND_PARAMS cmd_doc))).*2).
Proof.
  rewrite !Forall_cons. intros (H1 & H2 & H3 & H4 & _). destruct (find_answer cmd_doc s) as (resp & s' & Hf & Hb & _). exists resp, s'. split; [done|].
  rewrite Hb. unfold object_at, usize_at. rewrite H1, H2, H3, H4. cbn [mbind option_bind default from_option id].
  unfold page. change (as_usize 0) with 0. change (N.to_nat 0) with 0%nat. cbn [N.eqb]. rewrite drop_0, find_everything.
  do 2 f_equal. by apply list_fmap_id.
Qed.

(** A chain of inserts: the ids it answers with, and what is filed in the end. *)
Lemma insert_loop_spec vals c ids0 ids c' : ordered (documents c) → insert_loop c vals ids0 = (Ok ids, c') → ∃ new,
  ids = ids0 ++ new ∧ length new = length (omap value_object vals) ∧
  (∀ id, id ∉ new → BTreeMap.get id (documents c') = BTreeMap.get id (documents c)) ∧
  ∀ i id, new !! i = Some id → (∀ j, (i < j)%nat → new !! j ≠ Some id) → ∃ doc obj n, omap value_object vals !! i = Some obj ∧
    BTreeMap.get id (documents c') = Some doc ∧ Collection.id_text doc = Some id ∧ doc = (Collection.with_id (mkCollection [] [] n) obj).1.
Proof.
  revert c ids0. induction vals as [|v vals IH]; intros c ids0 Ho.
  { intros [= <- <-]. exists []. rewrite app_nil_r. split_and!; try done. }
  cbn [insert_loop omap list_omap]. destruct (value_object v) as [obj|]; [|by apply IH]. unfold Collection.insert_one.
  destruct (Collection.with_id c obj) as [doc n] eqn:Hw. destruct (Collection.id_text doc) as [id|] eqn:Hid; [|done].
  intros Hl. set (c1 := mkCollection _ _ _) in Hl. assert (Ho1 : ordered (documents c1)) by by apply ordered_insert.
  destruct (IH c1 _ Ho1 Hl) as (new & -> & Hlen & Hout & Hin).
  assert (Hg : ∀ id', BTreeMap.get id' (documents c1) = if decide (id' = id) then Some doc else BTreeMap.get id' (documents c)) by (intros id'; by apply get_insert).
  exists (id :: new). split_and!; [by rewrite <- app_assoc|cbn [length]; by rewrite Hlen| |].
  - intros id' [Hne Hni]%not_elem_of_cons. rewrite Hout, Hg by done. by rewrite decide_False.
  - intros [|i] id' Hi Hlast.
    + injection Hi as <-. exists doc, obj, (doc_counter c). split; [done|]. split; [|split; [done|]].
      * rewrite Hout, Hg, decide_True; [done|done|]. intros [j Hj]%list_elem_of_lookup. by apply (Hlast (S j)); [lia|].
      * unfold Collection.with_id in *. cbn [doc_counter]. destruct (BTreeMap.get (str "_id") obj); cbn [fst]; congruence.
    + apply Hin; [done|]. intros j Hj. apply (Hlast (S j)). lia.
Qed.
(** Apart from its id, a document is filed as it came. *)
Lemma with_id_fields c obj key : ordered obj → key ≠ str "_id" → BTreeMap.get key (Collection.with_id c obj).1 = BTreeMap.get key obj.
Proof. intros Ho Hk. unfold Collection.with_id. destruct (BTreeMap.get (str "_id") obj); [done|]. cbn [fst]. rewrite get_insert by done. by rewrite decide_False. Qed.

(** C31: what an insert command has stored, a find command on the same collection returns: every
    id of the answer belongs to a document of the first batch which has, apart from its id, the
    fields of the object inserted (the last one, if an id came twice), and documents stored
    before under other ids are still in it. *)
Theorem insert_then_find ins fnd s vals resp s' :
  server_ordered s → array_at (str "documents") ins = Some vals → Forall (λ v, ∀ obj, value_object v = Some obj → ordered obj) vals →
  db_name fnd = db_name ins → col_name FIND_PARAMS fnd = col_name [str "documents"] ins →
  Forall (λ k, BTreeMap.get k fnd = None) [str "filter"; str "projection"; str "skip"; str "limit"] →
  insert ins s = Some (Ok resp, s') → ∃ ids batch resp' s'',
    array_at (str "insertedIds") resp = Some (String <$> ids) ∧ find fnd s' = Some (Ok resp', s'') ∧ first_batch resp' = Some (Object <$> batch) ∧
    length ids = length (omap value_object vals) ∧
    (∀ i id, ids !! i = Some id → (∀ j, (i < j)%nat → ids !! j ≠ Some id) → ∃ doc obj, omap value_object vals !! i = Some obj ∧ doc ∈ batch ∧
      Collection.id_text doc = Some id ∧ ∀ key, key ≠ str "_id" → BTreeMap.get key doc = BTreeMap.get key obj) ∧
    ∀ id doc, BTreeMap.get id (documents (coll (engine s) (db_name ins) (col_name [str "documents"] ins))) = Some doc → id ∉ ids → doc ∈ batch.
Proof.
  intros Hs Hv Hobj Hdb Hcol Hnone Hi. unfold insert in Hi. rewrite Hv, open_spec in Hi.
  set (db := db_name ins) in *. set (col := col_name [str "documents"] ins) in *. set (c := coll (engine s) db col) in *.
  destruct (insert_loop c vals []) as [[ids|] c'] eqn:Hl; [|done]. injection Hi as <- <-.
  pose proof (insert_loop_ordered c vals [] (Hs db col)) as Hoc. rewrite Hl in Hoc. cbn [snd] in Hoc.
  destruct (insert_loop_spec _ _ _ _ _ (Hs db col) Hl) as (new & -> & Hlen & Hout & Hin). clear Hl. cbn [app] in *.
  destruct (find_plain fnd (mkServer (set_collection (get_or_create_collection (engine s) db col) db col c') (store s)) Hnone) as (resp' & s'' & Hf & Hb).
  cbn [engine] in Hb. rewrite Hdb, Hcol, coll_open_set, bool_decide_true in Hb by done.
  assert (Hin' : ∀ id doc, BTreeMap.get id (documents c') = Some doc → doc ∈ (documents c').*2).
  { intros id doc Hg%get_Some; [|done]. apply list_elem_of_fmap. by exists (id, doc). }
  exists new, (documents c').*2, resp', s''. split; [done|]. split; [done|]. split; [done|]. split; [done|]. split.
  - intros i id Hid Hlast. destruct (Hin i id Hid Hlast) as (doc & obj & n & Ho & Hg & Hid' & Hdoc). exists doc, obj. split_and!; [done|by eapply Hin'|done|].
    intros key Hk. rewrite Hdoc. apply with_id_fields; [|done]. rewrite Forall_forall in Hobj. apply list_elem_of_lookup_2 in Ho.
    apply list_elem_of_omap in Ho as (v & Hvin & Hvo). by apply (Hobj v).
  - intros id doc Hg Hni. apply (Hin' id). by rewrite Hout.
Qed.
End Finds.

(** ** Aggregation *)

Section Aggregation.
Context {Num : Type} `{NO : !NumberOps Num} `{DT : !DebugText Num} `{HO : !HashOrder} `{DO : !Disorder Num}.
Implicit Types (cmp : Document Num → Document Num → comparison) (l : list (Document Num)).

Lemma total_on_spec cmp l : total_on cmp l = true → ∀ a b, a ∈ l → b ∈ l → cmp a b = CompOpp (cmp b a) ∧
  ∀ c, c ∈ l → cmp a b ≠ Gt → cmp b c ≠ Gt → cmp a c ≠ Gt.
Proof.
  unfold total_on. rewrite forallb_forall. intros H a b Ha Hb. specialize (H a ltac:(by apply list_elem_of_In)). rewrite forallb_forall in H.
  specialize (H b ltac:(by apply list_elem_of_In)). apply andb_prop in H as [H1 H2]. apply bool_decide_eq_true in H1. split; [done|].
  intros c Hc. rewrite forallb_forall in H2. specialize (H2 c ltac:(by apply list_elem_of_In)). by destruct (cmp a b), (cmp b c), (cmp a c).
Qed.
Lemma total_on_tail cmp x l : total_on cmp (x :: l) = true → total_on cmp l = true.
Proof.
  unfold total_on. rewrite !forallb_forall. intros H a Ha. specialize (H a ltac:(by right)). rewrite forallb_forall in H |- *. intros b Hb.
  specialize (H b ltac:(by right)). apply andb_prop in H as [-> H]. cbn [andb]. rewrite forallb_forall in H |- *. intros c Hc. apply H. by right.
Qed.
Lemma sort_insert_perm cmp x l : sort_insert cmp x l ≡ₚ x :: l.
Proof. induction l as [|y l IH]; [done|]. cbn [sort_insert]. destruct (not_gt _); [done|]. rewrite IH. constructor. Qed.
Lemma sort_perm cmp l : foldr (sort_insert cmp) [] l ≡ₚ l.
Proof. induction l as [|x l IH]; [done|]. cbn [foldr]. by rewrite sort_insert_perm, IH. Qed.
Lemma sort_insert_sorted cmp l0 x l : total_on cmp l0 = true → x ∈ l0 → (∀ y, y ∈ l → y ∈ l0) →
  StronglySorted (λ a b, cmp a b ≠ Gt) l → StronglySorted (λ a b, cmp a b ≠ Gt) (sort_insert cmp x l).
Proof.
  intros Ht Hx Hl Hs. induction Hs as [|y l Hs IH Hall]; cbn [sort_insert]; [repeat constructor|].
  destruct (total_on_spec cmp l0 Ht x y Hx (Hl y ltac:(left))) as [Ha Htr]. destruct (cmp x y) eqn:Hc; cbn [not_gt].
  1, 2: constructor; [by constructor|]; constructor; [by rewrite Hc|]; rewrite Forall_forall in Hall |- *; intros z Hz; apply Htr; [apply Hl; by right|done|by apply Hall].
  constructor; [apply IH; intros z Hz; apply Hl; by right|]. rewrite sort_insert_perm. constructor; [|done].
  rewrite Ha in Hc. destruct (cmp y x); done.
Qed.
Lemma sort_insert_stable cmp l0 a x l : total_on cmp l0 = true → a ∈ l0 → x ∈ l0 → (∀ y, y ∈ l → y ∈ l0) →
  base.filter (λ y, cmp a y = Eq) (sort_insert cmp x l) = base.filter (λ y, cmp a y = Eq) (x :: l).
Proof.
  intros Ht Ha Hx Hl. induction l as [|y l IH]; [done|]. cbn [sort_insert]. destruct (cmp x y) eqn:Hc; cbn [not_gt]; [done..|].
  rewrite filter_cons. rewrite IH by (intros z Hz; apply Hl; by right). rewrite !filter_cons.
  destruct (decide (cmp a x = Eq)) as [Hax|], (decide (cmp a y = Eq)) as [Hay|]; try done. exfalso.
  destruct (total_on_spec cmp l0 Ht x a Hx Ha) as [Hxa Htr]. rewrite Hax in Hxa. apply (Htr y (Hl y ltac:(left))); [by rewrite Hxa|by rewrite Hay|done].
Qed.
(** A sort stage whose comparison is an order on the documents sorts them, and leaves those
    it does not tell apart in their order. *)
Lemma sort_stage_sorts cmp l : total_on cmp l = true → ∃ l', sort_by cmp l = Some l' ∧ l' ≡ₚ l ∧ StronglySorted (λ a b, cmp a b ≠ Gt) l' ∧
  ∀ a, a ∈ l → base.filter (λ y, cmp a y = Eq) l' = base.filter (λ y, cmp a y = Eq) l.
Proof.
  intros Ht. unfold sort_by. rewrite Ht. eexists. split; [done|]. split; [apply sort_perm|].
  assert (Hg : ∀ k, (∀ y, y ∈ k → y ∈ l) → StronglySorted (λ a b, cmp a b ≠ Gt) (foldr (sort_insert cmp) [] k) ∧
    ∀ a, a ∈ l → base.filter (λ y, cmp a y = Eq) (foldr (sort_insert cmp) [] k) = base.filter (λ y, cmp a y = Eq) k).
  { intros k. induction k as [|x k IH]; intros Hk; [by split; [constructor|]|]. destruct IH as [IH1 IH2]; [intros y Hy; apply Hk; by right|].
    assert (Hin : ∀ y, y ∈ foldr (sort_insert cmp) [] k → y ∈ l) by (intros y; rewrite sort_perm; intros Hy; apply Hk; by right).
    cbn [foldr]. split; [apply (sort_insert_sorted cmp l); auto; apply Hk; left|]. intros a Ha. rewrite (sort_insert_stable cmp l) by (auto; apply Hk; left).
    rewrite !filter_cons. by rewrite IH2. }
  by apply Hg.
Qed.

(** A group is what has its key, in the order it came. *)
Lemma groups_part results spec key : groups_of results spec !! key =
  let docs := base.filter (λ d, group_key spec d = key) results in if bool_decide (docs = []) then None else Some docs.
Proof.
  cbn zeta. induction results as [|d l IH] using rev_ind; [done|]. unfold groups_of in *. rewrite foldl_app, filter_app. cbn [foldl]. unfold group_push at 1.
  rewrite filter_cons, filter_nil. destruct (decide (group_key spec d = key)) as [->|Hne].
  - rewrite lookup_insert_eq, IH. rewrite (bool_decide_false (_ ++ _ = [])) by (by intros [_ ?]%app_nil). f_equal. f_equal. by case_bool_decide as H.
  - by rewrite lookup_insert_ne, app_nil_r.
Qed.
End Aggregation.

(** ** Concrete commands *)

Module Plain.
#[export] Instance Debug : DebugText PlainNumber.Num := {| debug_text v := match v with String s => str "String(" ++ s ++ str ")" | _ => str "Null" end |}.
#[export] Instance Order : HashOrder := {| hash_order l := l |}.
#[export] Instance Order_laws : HashOrderLaws.
Proof. by split. Qed.
#[export] Instance Panics : Disorder PlainNumber.Num := {| disorder _ := None |}.
Definition empty : Server PlainNumber.Num := mkServer ∅ CursorStore.new.
End Plain.
#[local] Existing Instances PlainNumber.Ops PlainNumber.Laws NoRegex Plain.Debug Plain.Order Plain.Panics.
Abbreviation Num := PlainNumber.Num.
Definition put (docs : list (Document Num)) : Document Num := document [(str "items", int 1); (str "documents", Array (Object <$> docs))].
Definition get : Document Num := document [(str "items", int 1)].
Definition stocked : Server Num := match insert (put [row 1; row 2]) Plain.empty with Some (_, s) => s | None => Plain.empty end.

Lemma empty_ordered : server_ordered Plain.empty.
Proof. intros db col. constructor. Qed.
Lemma insert_then_find_witness : ∃ resp s' ids batch resp' s'', insert (put [row 1; row 2]) Plain.empty = Some (Ok resp, s') ∧
  array_at (str "insertedIds") resp = Some (String <$> ids) ∧ find get s' = Some (Ok resp', s'') ∧ first_batch resp' = Some (Object <$> batch) ∧ length ids = 2%nat.
Proof.
  destruct (insert (put [row 1; row 2]) Plain.empty) as [[[resp|] s']|] eqn:Hi; [|vm_compute in Hi; done..]. exists resp, s'.
  destruct (insert_then_find (put [row 1; row 2]) get Plain.empty [Object (row 1); Object (row 2)] resp s') as (ids & batch & resp' & s'' & H1 & H2 & H3 & H4 & _);
    [apply empty_ordered|done| |done|done|by repeat constructor|done|by exists ids, batch, resp', s''].
  repeat constructor; intros obj [= <-]; repeat constructor.
Defined.

(** ** What goes wrong *)

(** The cursor of a find starts over: [getMore] repeats the documents of the first batch. *)
Lemma get_more_repeats : ∃ r1 s1 r2 s2 o, find get stocked = Some (Ok r1, s1) ∧ get_more (document [(str "getMore", int 1)]) s1 = Some (Ok r2, s2) ∧
  object_at (str "cursor") r2 = Some o ∧ array_at (str "nextBatch") o = first_batch r1 ∧ length <$> first_batch r1 = Some 2%nat.
Proof. eexists _, _, _, _, _. split; [vm_compute; reflexivity|]. split; [vm_compute; reflexivity|]. split; [vm_compute; reflexivity|]. by vm_compute. Qed.
(** The collection is named by a key of the command, not by the value of its first one: a find
    in the form of the drivers reads the collection [find], an insert writes [insert]. *)
Lemma driver_form_splits : let name := String (str "items") in
  col_name (Num := Num) FIND_PARAMS (document [(str "find", name)]) = str "find" ∧
  col_name (Num := Num) [str "documents"] (document [(str "insert", name); (str "documents", Array [])]) = str "insert".
Proof. done. Qed.
(** Integers and strings in one field are no order to sort by. *)
Lemma mixed_sort_panics : let doc v : Document Num := [(str "x", v)] in
  run_stage [doc (int 2); doc (String [97]); doc (int 1)] (Object [(str "$sort", Object [(str "x", int 1)])]) = None.
Proof. by vm_compute. Qed.
(** A negative [skip] passes over everything. *)
Lemma negative_skip : ∃ r s, find (document [(str "items", int 1); (str "skip", int (-1))]) stocked = Some (Ok r, s) ∧ first_batch r = Some [].
Proof. eexists _, _. split; [vm_compute; reflexivity|]. by vm_compute. Qed.
