(* ===== verification/KernelCodec.v ===== *)
(** * Wire codecs

    [crates/core/cave-kernel/src/codec]: the trait [FrameCodec], its errors, and the
    length-prefix framing shared by the codecs of [cave-rdbms] (PostgreSQL v3,
    crates/data/cave-rdbms/src/protocol/codec.rs) and [cave-docdb] (MongoDB OP_MSG,
    crates/data/cave-docdb/src/codec.rs).

    The trait is the class [FrameCodec]; what its documentation asks of an implementation is
    the class [FrameCodecLaws].  Against these laws the read loop of cave-docdb's server
    ([handle_connection]) is shown to be independent of how the network cuts the stream;
    both codecs are instances.  A [BytesMut] is the list of its bytes. *)

From S2P Require Import Prelude Bytes.

(** ** The trait and its errors *)

Inductive FrameError : Type :=
| Incomplete (needed : usize)
| Invalid (msg : bytes)
| Limit (actual max : usize)
| Io (error : bytes).
#[export] Instance FrameError_eq_dec : EqDecision FrameError.
Proof. solve_decision. Defined.

(** [&mut self] and [&mut buf]: both methods return the codec and the buffer they leave. *)
Class FrameCodec (C F : Type) : Type := {
  encode (codec : C) (frame : F) (buf : bytes) : result FrameError unit * C * bytes;
  decode (codec : C) (buf : bytes) : result FrameError (option F) * C * bytes
}.

(** What the documentation of [decode] promises: [Ok(None)] consumes nothing, a frame is cut
    off the front of the buffer, and the answer depends on nothing behind it. *)
Class FrameCodecLaws (C F : Type) `{!FrameCodec C F} : Prop := {
  decode_none c buf c' buf' : decode c buf = (Ok None, c', buf') → c' = c ∧ buf' = buf;
  decode_frame c buf f c' buf' more :
    decode c buf = (Ok (Some f), c', buf') → decode c (buf ++ more) = (Ok (Some f), c', buf' ++ more);
  decode_error c buf e c' buf' more :
    decode c buf = (Err e, c', buf') → (decode c (buf ++ more)).1.1 = Err e;
  decode_progress c buf f c' buf' :
    decode c buf = (Ok (Some f), c', buf') → (length buf' < length buf)%nat
}.

(** ** Length-prefixed frames *)

Inductive Endian : Type := Big | Little.
Inductive LengthIncludes : Type := SelfAndPayload | Total.

Record LengthSpec : Type := mkLengthSpec {
  header_offset : usize;
  length_size : usize;
  endian : Endian;
  length_includes : LengthIncludes;
  max_frame_size : usize
}.

Definition postgres_v3 (max : usize) : LengthSpec := mkLengthSpec 1 4 Big SelfAndPayload max.
Definition postgres_startup (max : usize) : LengthSpec := mkLengthSpec 0 4 Big SelfAndPayload max.
Definition mongo_op_msg (max : usize) : LengthSpec := mkLengthSpec 0 4 Little Total max.

Definition total_frame_len (spec : LengthSpec) (length_value : usize) : usize :=
  match length_includes spec with
  | SelfAndPayload => header_offset spec +w length_value
  | Total => length_value
  end.

Definition read_length (b : bytes) (spec : LengthSpec) : result FrameError usize :=
  if vlen b <? length_size spec then Err (Incomplete (length_size spec - vlen b))
  else if length_size spec =? 4 then
    Ok (match endian spec with Big => from_be (take 4 b) | Little => from_le (take 4 b) end)
  else Err (Invalid (str "unsupported length_size " ++ decimal (length_size spec)
                     ++ str "; only 4 is implemented")).

Definition try_read_length_prefixed (src : bytes) (spec : LengthSpec) :
    result FrameError (option bytes) * bytes :=
  let header_total := header_offset spec +w length_size spec in
  if vlen src <? header_total then (Ok None, src)
  else
    match read_length (drop (N.to_nat (header_offset spec)) src) spec with
    | Err e => (Err e, src)
    | Ok length_value =>
        let frame_len := total_frame_len spec length_value in
        if frame_len <? header_total then
          (Err (Invalid (str "announced frame length " ++ decimal length_value
                         ++ str " is shorter than header (" ++ decimal header_total ++ str ")")), src)
        else if max_frame_size spec <? frame_len then (Err (Limit frame_len (max_frame_size spec)), src)
        else if vlen src <? frame_len then (Ok None, src)
        else (Ok (Some (take (N.to_nat frame_len) src)), drop (N.to_nat frame_len) src)
    end.

(** The specifications the code builds: the length field is four bytes wide and follows at
    most a few bytes. *)
Definition spec_ok (spec : LengthSpec) : Prop := length_size spec = 4 ∧ header_offset spec < 256.

(** ** PostgreSQL *)

Record PgFrame : Type := mkPgFrame { type_byte : option u8; body : bytes }.
#[export] Instance PgFrame_eq_dec : EqDecision PgFrame.
Proof. solve_decision. Defined.
Inductive PgPhase : Type := Startup | Regular.
Definition PG_DEFAULT_MAX_FRAME_SIZE : usize := 16777216.
Record PgWireCodec : Type := mkPgWireCodec { phase : PgPhase; pg_max_frame_size : usize }.

Module PgWireCodec.

Definition with_limit (max : usize) : PgWireCodec := mkPgWireCodec Startup max.
Definition new : PgWireCodec := with_limit PG_DEFAULT_MAX_FRAME_SIZE.
Definition advance_to_regular (c : PgWireCodec) : PgWireCodec := mkPgWireCodec Regular (pg_max_frame_size c).

Definition u32_max : N := 4294967295.

Definition encode (c : PgWireCodec) (frame : PgFrame) (buf : bytes) :
    result FrameError unit * PgWireCodec * bytes :=
  let buf := match type_byte frame with Some t => buf ++ [t] | None => buf end in
  let length_value := 4 +w vlen (body frame) in
  if u32_max <? length_value then (Err (Limit length_value u32_max), c, buf)
  else (Ok tt, c, buf ++ to_be 4 length_value ++ body frame).

Definition spec_of (c : PgWireCodec) : LengthSpec :=
  match phase c with
  | Startup => postgres_startup (pg_max_frame_size c)
  | Regular => postgres_v3 (pg_max_frame_size c)
  end.

Definition decode (c : PgWireCodec) (buf : bytes) :
    result FrameError (option PgFrame) * PgWireCodec * bytes :=
  match try_read_length_prefixed buf (spec_of c) with
  | (Err e, buf) => (Err e, c, buf)
  | (Ok None, buf) => (Ok None, c, buf)
  | (Ok (Some raw), buf) =>
      let frame := match phase c with
                   | Startup => mkPgFrame None (drop 4 raw)
                   | Regular => mkPgFrame (head raw) (drop 5 raw)
                   end in
      (Ok (Some frame), c, buf)
  end.

End PgWireCodec.

#[export] Instance pg_codec : FrameCodec PgWireCodec PgFrame :=
  {| encode := PgWireCodec.encode; decode := PgWireCodec.decode |}.

Definition SSL_REQUEST_CODE : N := 80877103.
Definition CANCEL_REQUEST_CODE : N := 80877102.
Inductive StartupKind : Type := StartupMessage | SslRequest | CancelRequest.
Definition classify_startup (body : bytes) : option StartupKind :=
  if vlen body <? 4 then None
  else
    let code := from_be (take 4 body) in
    Some (if code =? SSL_REQUEST_CODE then SslRequest
          else if code =? CANCEL_REQUEST_CODE then CancelRequest
          else StartupMessage).

(** ** MongoDB OP_MSG *)

Record RawWireFrame : Type := mkRawWireFrame { raw_bytes : bytes }.
Definition OP_MSG_DEFAULT_MAX_FRAME_SIZE : usize := 50331648.
Record OpMsgCodec : Type := mkOpMsgCodec { op_max_frame_size : usize }.

Module OpMsgCodec.

Definition with_limit (max : usize) : OpMsgCodec := mkOpMsgCodec max.
Definition new : OpMsgCodec := with_limit OP_MSG_DEFAULT_MAX_FRAME_SIZE.

Definition encode (c : OpMsgCodec) (frame : RawWireFrame) (buf : bytes) :
    result FrameError unit * OpMsgCodec * bytes :=
  let n := vlen (raw_bytes frame) in
  if op_max_frame_size c <? n then (Err (Limit n (op_max_frame_size c)), c, buf)
  else if n <? 16 then
    (Err (Invalid (str "encoded OP_MSG frame is " ++ decimal n ++ str " bytes; minimum is 16 (header)")), c, buf)
  else (Ok tt, c, buf ++ raw_bytes frame).

Definition decode (c : OpMsgCodec) (buf : bytes) :
    result FrameError (option RawWireFrame) * OpMsgCodec * bytes :=
  match try_read_length_prefixed buf (mongo_op_msg (op_max_frame_size c)) with
  | (Err e, buf) => (Err e, c, buf)
  | (Ok None, buf) => (Ok None, c, buf)
  | (Ok (Some b), buf) =>
      if vlen b <? 16 then
        (Err (Invalid (str "OP_MSG frame " ++ decimal (vlen b) ++ str " bytes is shorter than header (16)")), c, buf)
      else (Ok (Some (mkRawWireFrame b)), c, buf)
  end.

End OpMsgCodec.

#[export] Instance op_msg_codec : FrameCodec OpMsgCodec RawWireFrame :=
  {| encode := OpMsgCodec.encode; decode := OpMsgCodec.decode |}.

(** ** The read loop

    [handle_connection] of crates/data/cave-docdb/src/server.rs, for any codec: drain the
    buffer, then read more bytes, until the peer closes or a frame is in error.  The handler
    of a frame is a parameter with a state of its own; [None] is an error it propagates.
    [chunks] are the successive reads, none of them empty. *)

Section Loop.
Context {C F H : Type} `{FC : !FrameCodec C F}.
Context (handle_frame : H → F → option H).

(** How a drain ends: more bytes are needed, a frame was in error, or the handler failed. *)
Inductive Outcome : Type :=
| NeedMore (h : H) (codec : C) (buf : bytes)
| FrameFailed (h : H) (e : FrameError)
| HandlerFailed.

(** The inner loop; every frame is at least one byte, so the length of the buffer bounds the
    number of rounds. *)
Fixpoint drain (fuel : nat) (h : H) (codec : C) (buf : bytes) : Outcome :=
  match fuel with
  | O => NeedMore h codec buf
  | S fuel =>
      match decode codec buf with
      | (Ok (Some raw), codec, buf) =>
          match handle_frame h raw with
          | Some h => drain fuel h codec buf
          | None => HandlerFailed
          end
      | (Ok None, codec, buf) => NeedMore h codec buf
      | (Err e, _, _) => FrameFailed h e
      end
  end.
Definition drain_all (h : H) (codec : C) (buf : bytes) : Outcome := drain (S (length buf)) h codec buf.

Fixpoint handle_connection (h : H) (codec : C) (buf : bytes) (chunks : list bytes) : Outcome :=
  match drain_all h codec buf with
  | NeedMore h codec buf =>
      match chunks with
      | [] => NeedMore h codec buf
      | chunk :: chunks => handle_connection h codec (buf ++ chunk) chunks
      end
  | o => o
  end.

(** The writer: frames encoded one after the other into one buffer. *)
Fixpoint encode_all (codec : C) (frames : list F) (buf : bytes) : result FrameError unit * C * bytes :=
  match frames with
  | [] => (Ok tt, codec, buf)
  | f :: frames =>
      match encode codec f buf with
      | (Ok _, codec, buf) => encode_all codec frames buf
      | r => r
      end
  end.
End Loop.
Arguments Outcome : clear implicits.

(** ** Framing *)

Section Framing.
Context (spec : LengthSpec) (Hspec : spec_ok spec).

Lemma header_total : header_offset spec +w length_size spec = header_offset spec + 4.
Proof. destruct Hspec as [-> ?]. u64_lia. Qed.

Lemma read_length_app b more : 4 ≤ vlen b → read_length (b ++ more) spec = read_length b spec.
Proof.
  intros Hb. destruct Hspec as [Hs _]. unfold read_length. rewrite Hs, vlen_app.
  destruct (N.ltb_spec (vlen b + vlen more) 4), (N.ltb_spec (vlen b) 4); try lia.
  unfold vlen in Hb. rewrite !take_app_le by lia. done.
Qed.

(** The decision on a buffer that holds the header does not depend on what follows, except
    that a frame announced may become complete. *)
Lemma try_read_app src more :
  match try_read_length_prefixed src spec with
  | (Ok (Some f), rest) =>
      src = f ++ rest ∧ header_offset spec + 4 ≤ vlen f ≤ max_frame_size spec ∧
      try_read_length_prefixed (src ++ more) spec = (Ok (Some f), rest ++ more)
  | (Ok None, rest) => rest = src
  | (Err e, rest) => rest = src ∧ try_read_length_prefixed (src ++ more) spec = (Err e, src ++ more)
  end.
Proof.
  unfold try_read_length_prefixed. rewrite header_total, vlen_app.
  destruct (N.ltb_spec (vlen src) (header_offset spec + 4)) as [|Hh]; [done|].
  destruct (N.ltb_spec (vlen src + vlen more) (header_offset spec + 4)) as [|_]; [lia|].
  assert (Hd : 4 ≤ vlen (drop (N.to_nat (header_offset spec)) src))
    by (unfold vlen in *; rewrite length_drop; lia).
  rewrite drop_app_le by (unfold vlen in *; lia). rewrite read_length_app by done.
  destruct (read_length _ spec) as [v|e]; [|done]. set (n := total_frame_len spec v).
  destruct (N.ltb_spec n (header_offset spec + 4)) as [|Hlo]; [done|].
  destruct (N.ltb_spec (max_frame_size spec) n) as [|Hmax]; [done|].
  destruct (N.ltb_spec (vlen src) n) as [|Hn]; [done|].
  destruct (N.ltb_spec (vlen src + vlen more) n) as [|_]; [lia|]. unfold vlen in *.
  rewrite take_app_le, drop_app_le by lia. split_and!; [by rewrite take_drop| | |done];
    rewrite length_take; lia.
Qed.

(** A frame at the front of the buffer is cut off. *)
Lemma try_read_frame f more v :
  header_offset spec + 4 ≤ vlen f ≤ max_frame_size spec →
  read_length (drop (N.to_nat (header_offset spec)) f) spec = Ok v → total_frame_len spec v = vlen f →
  try_read_length_prefixed (f ++ more) spec = (Ok (Some f), more).
Proof.
  intros [Hlo Hhi] Hr Ht. unfold try_read_length_prefixed. rewrite header_total, vlen_app.
  rewrite drop_app_le by (unfold vlen in *; lia).
  rewrite read_length_app, Hr, Ht by (unfold vlen in *; rewrite length_drop; lia).
  repeat (case_N1; []). unfold vlen. by rewrite Nat2N.id, take_app_length, drop_app_length.
Qed.
End Framing.

Lemma spec_ok_pg c : spec_ok (PgWireCodec.spec_of c).
Proof. by unfold PgWireCodec.spec_of; destruct (phase c). Qed.
Lemma spec_ok_op max : spec_ok (mongo_op_msg max).
Proof. done. Qed.

#[export] Instance pg_codec_laws : FrameCodecLaws PgWireCodec PgFrame.
Proof.
  split; intros c buf; simpl; unfold PgWireCodec.decode; intros *;
    try (pose proof (try_read_app _ (spec_ok_pg c) buf more) as Ha);
    try (pose proof (try_read_app _ (spec_ok_pg c) buf []) as Ha);
    destruct (try_read_length_prefixed buf _) as [[[raw|]|e'] rest]; intros ?; simplify_eq; try done.
  - by destruct Ha as (_ & _ & ->).
  - by destruct Ha as (_ & ->).
  - destruct Ha as (-> & ? & _). rewrite length_app. unfold vlen in *. lia.
Qed.

#[export] Instance op_msg_codec_laws : FrameCodecLaws OpMsgCodec RawWireFrame.
Proof.
  split; intros c buf; simpl; unfold OpMsgCodec.decode; intros *;
    try (pose proof (try_read_app _ (spec_ok_op (op_max_frame_size c)) buf more) as Ha);
    try (pose proof (try_read_app _ (spec_ok_op (op_max_frame_size c)) buf []) as Ha);
    destruct (try_read_length_prefixed buf _) as [[[raw|]|e'] rest]; try case_N1; intros ?; simplify_eq; try done.
  - destruct Ha as (_ & _ & ->). by case_N1.
  - destruct Ha as (_ & _ & ->). by case_N1.
  - by destruct Ha as (_ & ->).
  - destruct Ha as (-> & ? & _). rewrite length_app. unfold vlen in *. simpl in *. lia.
Qed.

(** ** The stream does not depend on how it is cut *)

Section LoopTheorems.
Context {C F H : Type} `{FC : !FrameCodec C F} `{Laws : !FrameCodecLaws C F}.
Context (handle_frame : H → F → option H).

(** Fuel beyond the length of the buffer changes nothing. *)
Lemma drain_fuel n m h c buf :
  (length buf < n)%nat → (length buf < m)%nat → drain handle_frame n h c buf = drain handle_frame m h c buf.
Proof.
  revert m h c buf. induction n as [|n IH]; intros [|m] h c buf Hn Hm; [lia..|]. simpl.
  destruct (decode c buf) as [[[[raw|]|e] c'] buf'] eqn:Hd; [|done..].
  pose proof (decode_progress _ _ _ _ _ Hd). destruct (handle_frame h raw); [|done].
  apply IH; lia.
Qed.

Lemma drain_S n h c buf :
  drain handle_frame (S n) h c buf =
  match decode c buf with
  | (Ok (Some raw), c, buf) =>
      match handle_frame h raw with Some h => drain handle_frame n h c buf | None => HandlerFailed end
  | (Ok None, c, buf) => NeedMore h c buf
  | (Err e, _, _) => FrameFailed h e
  end.
Proof. done. Qed.

(** A drain can be suspended for want of bytes and taken up when they have come. *)
Lemma drain_resume h c buf more :
  drain_all handle_frame h c (buf ++ more) =
  match drain_all handle_frame h c buf with
  | NeedMore h c buf => drain_all handle_frame h c (buf ++ more)
  | o => o
  end.
Proof.
  unfold drain_all.
  assert (Hlt : (length buf < S (length buf))%nat) by lia. revert Hlt.
  generalize (S (length buf)) as n. intros n. revert h c buf.
  induction n as [|n IH]; intros h c buf Hn; [lia|].
  rewrite (drain_S n), (drain_S (length (buf ++ more))).
  destruct (decode c buf) as [[[[raw|]|e] c'] buf'] eqn:Hd.
  - rewrite (decode_frame _ _ _ _ _ more Hd). pose proof (decode_progress _ _ _ _ _ Hd).
    destruct (handle_frame h raw) as [h'|]; [|done]. rewrite <- (IH h' c' buf') by lia.
    apply drain_fuel; rewrite !length_app; lia.
  - by destruct (decode_none _ _ _ _ Hd) as [-> ->].
  - pose proof (decode_error _ _ _ _ _ more Hd) as He.
    destruct (decode c (buf ++ more)) as [[r ?] ?]. simpl in He. by subst r.
Qed.

Lemma drain_idle h c buf h' c' buf' :
  drain_all handle_frame h c buf = NeedMore h' c' buf' → drain_all handle_frame h' c' buf' = NeedMore h' c' buf'.
Proof. intros Hd. pose proof (drain_resume h c buf []) as Hr. rewrite !app_nil_r, Hd in Hr. by rewrite app_nil_r in Hr. Qed.

(** The outcome is that of draining the whole stream at once. *)
Lemma connection_drain h c buf chunks :
  handle_connection handle_frame h c buf chunks = drain_all handle_frame h c (buf ++ mjoin chunks).
Proof.
  revert h c buf. induction chunks as [|chunk chunks IH]; intros h c buf; simpl.
  - rewrite app_nil_r. by destruct (drain_all handle_frame h c buf).
  - rewrite (drain_resume h c buf). destruct (drain_all handle_frame h c buf); [|done..].
    by rewrite IH, <- app_assoc.
Qed.

(** C25: framing over a stream.  For every codec that meets the laws of the trait, the
    connection loop handles the same frames with the same result however the network cuts
    the byte stream into reads. *)
Theorem connection_chunking h c chunks1 chunks2 :
  mjoin chunks1 = mjoin chunks2 →
  handle_connection handle_frame h c [] chunks1 = handle_connection handle_frame h c [] chunks2.
Proof. intros Hc. by rewrite !connection_drain, Hc. Qed.
End LoopTheorems.

(** ** Round trips *)

(** Collects the frames. *)
Definition collect {F} (h : list F) (f : F) : option (list F) := Some (h ++ [f]).

(** A handler run over frames that have been cut out already. *)
Fixpoint run_frames {F H} (handle : H → F → option H) (h : H) (fs : list F) : option H :=
  match fs with [] => Some h | f :: fs => h ← handle h f; run_frames handle h fs end.

Section RoundTrip.
Context {C F : Type} `{FC : !FrameCodec C F} `{Laws : !FrameCodecLaws C F}.
Context (c : C) (fits : F → Prop) (wire : F → bytes).
Context (encode_wire : ∀ f buf, fits f → encode c f buf = (Ok tt, c, buf ++ wire f)).
Context (decode_wire : ∀ f more, fits f → decode c (wire f ++ more) = (Ok (Some f), c, more)).
Context (decode_empty : decode c ([] : bytes) = (Ok None, c, [])).

Lemma encode_all_wire fs buf : Forall fits fs → encode_all c fs buf = (Ok tt, c, buf ++ mjoin (wire <$> fs)).
Proof.
  intros Hfs. revert buf. induction Hfs as [|f fs Hf _ IH]; intros buf; simpl; [by rewrite app_nil_r|].
  by rewrite encode_wire, IH, <- app_assoc.
Qed.

Lemma drain_run {H} (handle : H → F → option H) fs h h' : Forall fits fs → run_frames handle h fs = Some h' →
  drain_all handle h c (mjoin (wire <$> fs)) = NeedMore h' c [].
Proof.
  intros Hfs. unfold drain_all. set (n := S _).
  assert (Hn : (length (mjoin (wire <$> fs)) < n)%nat) by lia. clearbody n. revert n h Hn.
  induction Hfs as [|f fs Hf _ IH]; intros [|n] h Hn Hr; try lia; rewrite drain_S.
  - simpl. rewrite decode_empty. cbn [run_frames] in Hr. congruence.
  - rewrite fmap_cons. change (mjoin (wire f :: ?l)) with (wire f ++ mjoin l) in Hn |- *.
    pose proof (decode_wire f (mjoin (wire <$> fs)) Hf) as Hd. rewrite Hd. cbn [run_frames] in Hr. destruct (handle h f) as [h1|]; [|done].
    apply decode_progress in Hd. rewrite fmap_cons in Hn. simpl in Hn. apply IH; [lia|done].
Qed.
Lemma drain_wire fs h : Forall fits fs → drain_all collect h c (mjoin (wire <$> fs)) = NeedMore (h ++ fs) c [].
Proof.
  intros Hfs. apply drain_run; [done|]. clear Hfs. revert h. induction fs as [|f fs IH]; intros h; cbn [run_frames collect mbind option_bind]; [by rewrite app_nil_r|].
  by rewrite IH, <- app_assoc.
Qed.

Lemma stream_delivered fs chunks :
  Forall fits fs → mjoin chunks = (encode_all c fs []).2 → handle_connection collect [] c [] chunks = NeedMore fs c [].
Proof. intros Hfs Hc. rewrite connection_drain, Hc, encode_all_wire by done. by apply drain_wire. Qed.
End RoundTrip.

Section PgRoundTrip.
(** The frames a codec can carry in its phase. *)
Definition pg_fits (c : PgWireCodec) (f : PgFrame) : Prop :=
  match phase c with Startup => type_byte f = None | Regular => is_Some (type_byte f) end ∧
  vlen (body f) + 5 ≤ pg_max_frame_size c ∧ pg_max_frame_size c ≤ 4294967295.

Definition pg_wire (f : PgFrame) : bytes :=
  option_list (type_byte f) ++ to_be 4 (4 + vlen (body f)) ++ body f.

Lemma pg_encode c f buf : pg_fits c f → PgWireCodec.encode c f buf = (Ok tt, c, buf ++ pg_wire f).
Proof.
  intros (_ & Hl & Hm). unfold PgWireCodec.encode, PgWireCodec.u32_max, pg_wire.
  rewrite u64_add_small by (unfold u64_modulus; lia).
  destruct (N.ltb_spec 4294967295 (4 + vlen (body f))); [lia|].
  destruct (type_byte f); simpl; by rewrite <- ?app_assoc.
Qed.

Lemma pg_decode c f more : pg_fits c f →
  PgWireCodec.decode c (pg_wire f ++ more) = (Ok (Some f), c, more).
Proof.
  intros (Hp & Hl & Hm). unfold PgWireCodec.decode.
  assert (Hf : from_be (to_be 4 (4 + vlen (body f))) = 4 + vlen (body f))
    by (apply from_be_to_be; change (256 ^ N.of_nat 4) with 4294967296; lia).
  pose proof (length_to_be 4 (4 + vlen (body f))) as Hw. pose proof (vlen_to_be 4 (4 + vlen (body f))) as Hvw.
  pose proof (try_read_frame _ (spec_ok_pg c) (pg_wire f) more (4 + vlen (body f))) as Ht.
  unfold PgWireCodec.spec_of, pg_wire, read_length, total_frame_len in *.
  revert Hw Hvw Hf Ht. generalize (to_be 4 (4 + vlen (body f))) as w. intros w Hw Hvw Hf.
  destruct f as [t b], (phase c); simpl in *; [subst t|destruct Hp as [t0 ->]]; simpl; intros Ht;
    try change (N.to_nat 0) with 0%nat in Ht; try change (Pos.to_nat 1) with 1%nat in Ht;
    rewrite ?skipn_cons, ?drop_0, ?vlen_cons, !vlen_app, !Hvw, take_app_length', Hf in Ht by done;
    destruct (N.ltb_spec (N.of_nat 4 + vlen b) 4); try lia.
  all: rewrite Ht; [by rewrite ?skipn_cons, drop_app_length'|lia|done|]; u64_norm; lia.
Qed.

(** PostgreSQL streams.  Any frames that fit the codec, encoded one after the other and
    delivered in any chunks, are decoded to the same frames in the same order, and the
    buffer is empty at the end. *)
Theorem pg_stream_roundtrip c fs chunks :
  Forall (pg_fits c) fs → mjoin chunks = (encode_all c fs []).2 →
  handle_connection collect [] c [] chunks = NeedMore fs c [].
Proof.
  apply (stream_delivered c (pg_fits c) pg_wire).
  - apply pg_encode.
  - apply pg_decode.
  - by destruct c as [[] max].
Qed.
Lemma pg_stream_roundtrip_witness :
  let c := PgWireCodec.advance_to_regular PgWireCodec.new in
  let fs := [mkPgFrame (Some 81) (str "select 1"); mkPgFrame (Some 88) []] in
  handle_connection collect [] c [] [take 3 (encode_all c fs []).2; drop 3 (encode_all c fs []).2] = NeedMore fs c [].
Proof.
  intros c fs. apply (pg_stream_roundtrip c fs); [|vm_compute; reflexivity].
  repeat constructor; vm_compute; try done; by eexists.
Defined.
End PgRoundTrip.

Section OpMsgRoundTrip.
(** A frame as the encoder wants it: the header is there and announces the length. *)
Definition op_fits (c : OpMsgCodec) (f : RawWireFrame) : Prop :=
  16 ≤ vlen (raw_bytes f) ≤ op_max_frame_size c ∧ from_le (take 4 (raw_bytes f)) = vlen (raw_bytes f).

Lemma op_decode c f more : op_fits c f → OpMsgCodec.decode c (raw_bytes f ++ more) = (Ok (Some f), c, more).
Proof.
  intros [Hl Hv]. unfold OpMsgCodec.decode.
  rewrite (try_read_frame _ (spec_ok_op _) (raw_bytes f) more (vlen (raw_bytes f))).
  - case_N1. by destruct f.
  - simpl. lia.
  - unfold read_length. simpl. change (N.to_nat 0) with 0%nat. rewrite drop_0. case_N1. by rewrite Hv.
  - done.
Qed.

Lemma op_stream_roundtrip c fs chunks :
  Forall (op_fits c) fs → mjoin chunks = (encode_all c fs []).2 →
  handle_connection collect [] c [] chunks = NeedMore fs c [].
Proof.
  apply (stream_delivered c (op_fits c) raw_bytes); [|apply op_decode|done].
  intros f buf [Hl _]. simpl. unfold OpMsgCodec.encode. by repeat (case_N1; []).
Qed.
End OpMsgRoundTrip.

(** Two OP_MSG frames, cut inside the second header. *)
Lemma connection_chunking_witness :
  let frame := to_le 4 16 ++ replicate 12 0 in
  handle_connection collect [] OpMsgCodec.new [] [frame ++ take 2 frame; drop 2 frame] =
  handle_connection collect [] OpMsgCodec.new [] [frame ++ frame] ∧
  handle_connection collect [] OpMsgCodec.new [] [frame ++ frame] =
  NeedMore [mkRawWireFrame frame; mkRawWireFrame frame] OpMsgCodec.new [].
Proof.
  intros frame. split; [|vm_compute; reflexivity].
  apply (connection_chunking collect [] OpMsgCodec.new). vm_compute. reflexivity.
Defined.
