(* ===== verification/DocServer.v ===== *)
(** * The wire server of cave-docdb

    crates/data/cave-docdb/src/server.rs: [handle_frame] and [encode_and_send], under the read
    loop of [handle_connection] (KernelCodec.v) with the codec of OP_MSG frames.

    A connection has the server and what was written to its socket; writing never fails here.
    A panic or an error of a handler ends the connection.  Commands run one after the other:
    one connection at a time.

    The theorems: however the network cuts a stream of well-formed requests, the answers are
    those of the commands run in order, one message each, with the id of its request
    ([requests_served]); and since a message gives its command by its first key in
    alphabetical order, no message can make the server insert a document
    ([nothing_stored]). *)

From S2P Require Import Prelude Bytes BTree Float DocValue DocBson DocWire DocQuery DocEngine DocCommands KernelCodec.

Record Connection (Num : Type) : Type := mkConnection { served : Server Num; sent : bytes }.
Arguments mkConnection {Num}. Arguments served {Num}. Arguments sent {Num}.
(** [Display] of the errors *)
Definition wire_text (e : WireError) : bytes := match e with BsonFailed m => str "bson error: " ++ m | WireFailed m => str "wire error: " ++ m end.
Definition frame_text (e : FrameError) : bytes :=
  match e with
  | Incomplete needed => str "incomplete frame: need " ++ decimal needed ++ str " more bytes"
  | Invalid m => str "invalid frame: " ++ m
  | Limit actual max => str "frame size " ++ decimal actual ++ str " exceeds limit " ++ decimal max
  | Io e => str "io error: " ++ e
  end.

Section Server.
Context {Num : Type} `{NO : !NumberOps Num} `{HX : !Hex} `{BT : !BsonTexts} `{RX : !Regex} `{DT : !DebugText Num} `{HO : !HashOrder} `{DO : !Disorder Num}.
Implicit Types (c : Connection Num) (s : Server Num).

Definition encode_and_send (response : Document Num) (request_id response_to : Z) c : result WireFailure (Connection Num) :=
  let? encoded := encode_op_msg (new_msg response) request_id response_to in
  Ok (mkConnection (served c) (sent c ++ encoded)).
Definition handle_frame c (frame_bytes : bytes) : result WireFailure (Connection Num) :=
  match decode_op_msg frame_bytes with
  | Ok (request_id, op_msg) =>
      match DocWire.body op_msg with
      | None => encode_and_send (error_doc (str "no command in OP_MSG body")) request_id request_id c
      | Some body =>
          let cmd_name := default [] (head body.*1) in
          match dispatch cmd_name body (served c) with
          | None => Err WirePanicked
          | Some (Ok response, s) => encode_and_send response request_id request_id (mkConnection s (sent c))
          | Some (Err e, s) => encode_and_send (error_doc e) request_id request_id (mkConnection s (sent c))
          end
      end
  | Err (WireErr e) => encode_and_send (error_doc (str "decode error: " ++ wire_text e)) 0 0 c
  | Err f => Err f
  end.

(** The loop of [handle_connection], and the message it sends when a frame is in error. *)
Definition on_frame c (raw : RawWireFrame) : option (Connection Num) :=
  match handle_frame c (raw_bytes raw) with Ok c => Some c | Err _ => None end.
Definition serve (c : Connection Num) (chunks : list bytes) : option (Connection Num) :=
  match handle_connection on_frame c OpMsgCodec.new [] chunks with
  | NeedMore c _ _ => Some c
  | FrameFailed c e => match encode_and_send (error_doc (str "frame error: " ++ frame_text e)) 0 0 c with Ok c => Some c | Err _ => None end
  | HandlerFailed => None
  end.
End Server.

(** ** Requests in order *)

Section Serving.
Context {Num : Type} `{NO : !NumberOps Num} `{NL : !NumberLaws Num} `{HX : !Hex} `{HL : !HexLaws} `{BT : !BsonTexts}.
Context `{RX : !Regex} `{DT : !DebugText Num} `{HO : !HashOrder} `{DO : !Disorder Num}.
Implicit Types (c : Connection Num) (s : Server Num) (m : @OpMsg Num).

(** A request: a message and the id it is sent under. *)
Definition Request : Type := Z * Document Num.
(** The answer to a command, an error as a document. *)
Definition response (r : result bytes (Document Num)) : Document Num := match r with Ok d => d | Err e => error_doc e end.
(** The commands run one after the other, and the message that answers each. *)
Fixpoint answers s (reqs : list Request) : option (Server Num * list bytes) :=
  match reqs with
  | [] => Some (s, [])
  | (rid, body) :: reqs =>
      r ← dispatch (default [] (head body.*1)) body s;
      match encode_op_msg (new_msg (response r.1)) rid rid with
      | Ok b => rest ← answers r.2 reqs; Some (rest.1, b :: rest.2)
      | Err _ => None
      end
  end.
(** A request as a client puts it on the wire. *)
Definition on_wire (r : Request) (b : bytes) : Prop :=
  wf_doc r.2 ∧ is_i32 r.1 ∧ encode_op_msg (new_msg r.2) r.1 0 = Ok b ∧ vlen b ≤ OP_MSG_DEFAULT_MAX_FRAME_SIZE.

Lemma on_wire_fits r b : on_wire r b → op_fits OpMsgCodec.new (mkRawWireFrame b) ∧ decode_op_msg b = Ok (r.1, new_msg r.2).
Proof.
  intros (Hw & Hr & He & Hmax). assert (Hs : Forall wf_section (sections (new_msg r.2))) by (constructor; [exact Hw|constructor]).
  assert (Hlt : vlen b < u32_modulus) by (unfold OP_MSG_DEFAULT_MAX_FRAME_SIZE, u32_modulus in *; lia). split.
  - destruct (encode_op_msg_shape (new_msg r.2) r.1 0 Hs) as (bs & payload & _ & _ & He'). rewrite He in He'. 
    set (h := to_le 4 ((16 + vlen payload) mod u32_modulus)) in *. assert (Hb : b = h ++ to_le_i 4 r.1 ++ to_le_i 4 0 ++ to_le_i 4 OPCODE ++ payload) by congruence.
    assert (Hv : vlen b = 16 + vlen payload) by (rewrite Hb; unfold vlen; rewrite !length_app; cbn [length to_le_i to_le h]; unfold h, to_le_i; rewrite !length_to_le; lia).
    split; [cbn [raw_bytes]; unfold OpMsgCodec.new, OpMsgCodec.with_limit; cbn [op_max_frame_size]; lia|]. cbn [raw_bytes].
    rewrite Hb at 1. rewrite take_app_length' by (unfold h; by rewrite length_to_le). unfold h. rewrite N.mod_small by lia. rewrite from_le_to_le; [lia|].
    change (256 ^ N.of_nat 4) with u32_modulus. lia.
  - eapply op_msg_back; [exact Hs|done|exact Hr|exact He|exact Hlt].
Qed.

Lemma handle_request c r b s' out : on_wire r b → answers (served c) [r] = Some (s', out) → handle_frame c b = Ok (mkConnection s' (sent c ++ mjoin out)).
Proof.
  destruct r as [rid body]. intros [_ Hd]%on_wire_fits. cbn [fst snd] in Hd. cbn [answers]. unfold handle_frame. rewrite Hd.
  change (DocWire.body (new_msg body)) with (Some body). cbn iota beta zeta. destruct (dispatch _ body (served c)) as [[r s]|]; [|done]. cbn [mbind option_bind fst snd].
  unfold encode_and_send. destruct r as [resp|e]; cbn [response]; destruct (encode_op_msg _ rid rid) as [x|]; try done; intros [= <- <-]; cbn [mjoin list_join sent served]; by rewrite app_nil_r.
Qed.
Lemma run_requests c reqs bs s' out : Forall2 on_wire reqs bs → answers (served c) reqs = Some (s', out) →
  run_frames on_frame c (mkRawWireFrame <$> bs) = Some (mkConnection s' (sent c ++ mjoin out)).
Proof.
  intros Hf. revert c out. induction Hf as [|[rid body] b reqs bs Hw _ IH]; intros c out Ha.
  { injection Ha as <- <-. cbn. rewrite app_nil_r. by destruct c. }
  cbn [answers] in Ha. destruct (dispatch _ body (served c)) as [[r s]|] eqn:Hdis; [|done]. cbn [mbind option_bind fst snd] in Ha.
  destruct (encode_op_msg (new_msg (response r)) rid rid) as [x|] eqn:He; [|done]. destruct (answers s reqs) as [[s1 out1]|] eqn:Hrest; [|done].
  injection Ha as <- <-. rewrite fmap_cons. cbn [run_frames].
  assert (Hx : handle_frame c b = Ok (mkConnection s (sent c ++ mjoin [x])))
    by (apply (handle_request c (rid, body)); [done|]; cbn [answers]; rewrite Hdis; cbn [mbind option_bind fst snd]; by rewrite He).
  assert (on_frame c (mkRawWireFrame b) = Some (mkConnection s (sent c ++ mjoin [x]))) as -> by (unfold on_frame; cbn [raw_bytes]; by rewrite Hx).
  cbn [mbind option_bind]. specialize (IH (mkConnection s (sent c ++ mjoin [x])) out1). cbn [served sent] in IH. rewrite IH by done.
  cbn. by rewrite app_nil_r, <- app_assoc.
Qed.

(** C13: however the network cuts a stream of requests, the server answers them in order: the
    commands run one after the other on the state the one before has left, and for each of them
    one message is sent that carries its id. *)
Theorem requests_served c reqs bs chunks s' out : Forall2 on_wire reqs bs → mjoin chunks = mjoin bs → answers (served c) reqs = Some (s', out) →
  serve c chunks = Some (mkConnection s' (sent c ++ mjoin out)).
Proof.
  intros Hf Hc Ha. unfold serve. rewrite connection_drain, Hc. cbn [app].
  pose proof (drain_run OpMsgCodec.new (op_fits OpMsgCodec.new) raw_bytes (op_decode OpMsgCodec.new) eq_refl on_frame (mkRawWireFrame <$> bs) c) as Hd.
  rewrite <- list_fmap_compose in Hd. change (raw_bytes ∘ mkRawWireFrame) with (@id bytes) in Hd. rewrite list_fmap_id in Hd.
  rewrite (Hd (mkConnection s' (sent c ++ mjoin out))); [done| |by eapply run_requests].
  apply Forall_fmap. clear -Hf HL NL. induction Hf as [|r b reqs bs Hw _ IH]; constructor; [|done]. by apply (on_wire_fits r).
Qed.
End Serving.

(** ** What a message can do *)

Section Messages.
Context {Num : Type} `{NO : !NumberOps Num} `{HX : !Hex} `{BT : !BsonTexts} `{RX : !Regex} `{DT : !DebugText Num} `{HO : !HashOrder} `{DO : !Disorder Num}.
Implicit Types (c : Connection Num) (s : Server Num).

Lemma decode_sections_ordered fuel bytes m pos (ss r : list (@Section_ Num)) :
  Forall (λ x, ∀ d, x = Body d → ordered d) ss → decode_sections fuel bytes m pos ss = Ok r → Forall (λ x, ∀ d, x = Body d → ordered d) r.
Proof.
  revert pos ss. induction fuel as [|fuel IH]; intros pos ss Hs; [done|]. cbn [decode_sections]. destruct (pos <? m); [|by intros [= <-]].
  destruct (index_at bytes pos) as [t|]; [|done]. destruct (t =? 0).
  - destruct (read_document bytes (pos + 1)) as [[d n]|] eqn:Hd; [|done]. apply IH. apply Forall_app. split; [done|]. constructor; [|constructor].
    intros d' [= <-]. unfold read_document in Hd. destruct (slice_at bytes (pos + 1)) as [tail|]; [|done].
    destruct (decode_doc tail) as [x|[]] eqn:Hx; cbn [of_decode] in Hd; try done. destruct (encode_doc x) as [y|]; cbn [of_encode] in Hd; [|done]. injection Hd as <- _.
    by eapply decode_doc_ordered.
  - destruct (t =? 1); [|by intros [= <-]]. destruct (_ <? _); [by intros [= <-]|]. destruct (slice_at bytes (pos + 1 + 4)) as [tail|]; [|done].
    destruct (wire_cstring tail) as [[name n]|]; [|done]. destruct (decode_docs _ _ _ _ _) as [[docs pos']|]; [|done]. apply IH. apply Forall_app.
    split; [done|]. by repeat constructor.
Qed.
Lemma decoded_body_ordered bytes rid m (d : Document Num) : decode_op_msg bytes = Ok (rid, m) → DocWire.body m = Some d → ordered d.
Proof.
  unfold decode_op_msg. destruct (_ <? 16); [done|]. destruct (_ <? _); [done|]. destruct (negb _); [done|]. destruct (_ <? 20); [done|].
  destruct (decode_sections _ _ _ _ _) as [ss|] eqn:Hs; [|done]. intros [= _ <-]. unfold DocWire.body. cbn [sections].
  apply decode_sections_ordered in Hs; [|constructor]. induction Hs as [|x ss Hx _ IH]; [done|]. cbn [omap list_omap]. destruct x as [d'|]; [|apply IH].
  intros [= <-]. by apply Hx.
Qed.
(** A document with a field [documents] does not have an insert as its first key. *)
Lemma first_key_no_insert (d : Document Num) v : ordered d → BTreeMap.get (str "documents") d = Some v → default [] (head d.*1) ∉ INSERTS.
Proof.
  intros Ho Hg Hin. destruct d as [|[k w] d]; [done|]. cbn [fmap list_fmap head default from_option id fst] in Hin. rewrite get_Some in Hg by done.
  assert (Hlt : key_lt (str "documents") k = true) by (unfold INSERTS in Hin; rewrite !elem_of_cons, elem_of_nil in Hin; destruct Hin as [->|[->|[->|[]]]]; done).
  apply elem_of_cons in Hg as [[= <- _]|Hg]; [by rewrite key_lt_irrefl in Hlt|]. inversion Ho as [|? ? _ Hall]; subst. rewrite Forall_forall in Hall.
  specialize (Hall _ Hg). cbn [fst] in Hall. apply key_lt_asym in Hall. congruence.
Qed.

(** The ids that are in use on a server do not become more. *)
Definition no_more s s' : Prop := server_ordered s → server_ordered s' ∧
  ∀ db col id, is_Some (BTreeMap.get id (documents (coll (engine s') db col))) → is_Some (BTreeMap.get id (documents (coll (engine s) db col))).
Lemma no_more_refl s : no_more s s.
Proof. by split. Qed.
Lemma no_more_trans s1 s2 s3 : no_more s1 s2 → no_more s2 s3 → no_more s1 s3.
Proof. intros H1 H2 Ho. destruct (H1 Ho) as [Ho2 Hi1]. destruct (H2 Ho2) as [Ho3 Hi2]. split; [done|]. auto. Qed.
Lemma shrinks_no_more s s' : server_shrinks s s' → no_more s s'.
Proof. intros H Ho. split; intros db col; [by apply (H db col)|]. intros id. by apply (H db col (Ho db col)). Qed.
Lemma dispatched_no_more (body : Document Num) s r s' : ordered body → dispatch (default [] (head body.*1)) body s = Some (r, s') → no_more s s'.
Proof.
  intros Ho [[Hin Hi]|H]%dispatch_cases; [|by apply shrinks_no_more]. unfold insert in Hi. destruct (array_at _ body) as [vals|] eqn:Ha; [|injection Hi as _ <-; apply no_more_refl].
  unfold array_at in Ha. destruct (BTreeMap.get (str "documents") body) as [v|] eqn:Hg; [|done]. by destruct (first_key_no_insert body v Ho Hg).
Qed.
Lemma send_served (d : Document Num) rid rto c c' : encode_and_send d rid rto c = Ok c' → served c' = served c.
Proof. unfold encode_and_send. destruct (encode_op_msg _ _ _); [|done]. by intros [= <-]. Qed.
Lemma frame_no_more c bytes c' : handle_frame c bytes = Ok c' → no_more (served c) (served c').
Proof.
  unfold handle_frame. destruct (decode_op_msg bytes) as [[rid m]|[]] eqn:Hd; [|intros ->%send_served; apply no_more_refl|done..].
  destruct (DocWire.body m) as [body|] eqn:Hb; [|intros ->%send_served; apply no_more_refl]. pose proof (decoded_body_ordered _ _ _ _ Hd Hb) as Ho.
  destruct (dispatch _ body (served c)) as [[[resp|e] s]|] eqn:Hdis; [| |done]; intros ->%send_served; cbn [served]; by eapply dispatched_no_more.
Qed.
Lemma drain_no_more fuel c codec buf : match drain on_frame fuel c codec buf with
  | NeedMore c' _ _ | FrameFailed c' _ => no_more (served c) (served c') | HandlerFailed => True end.
Proof.
  revert c codec buf. induction fuel as [|fuel IH]; intros c codec buf; [apply no_more_refl|]. cbn [drain].
  destruct (decode codec buf) as [[[[raw|]|e] codec'] buf']; [|apply no_more_refl..]. unfold on_frame at 1.
  destruct (handle_frame c (raw_bytes raw)) as [c1|] eqn:Hc; [|done]. apply frame_no_more in Hc. specialize (IH c1 codec' buf').
  destruct (drain on_frame fuel c1 codec' buf'); [..|done]; by eapply no_more_trans.
Qed.

(** C39: whatever bytes come in, the wire server never stores a document: the command is the
    first key of the message in alphabetical order, and an insert needs a field [documents],
    which comes before [insert], [insertMany] and [insertOne]. *)
Theorem nothing_stored c chunks c' : server_ordered (served c) → serve c chunks = Some c' →
  ∀ db col id, is_Some (BTreeMap.get id (documents (coll (engine (served c')) db col))) → is_Some (BTreeMap.get id (documents (coll (engine (served c)) db col))).
Proof.
  intros Ho Hs. assert (Hn : no_more (served c) (served c')); [|by apply Hn]. unfold serve in Hs. rewrite connection_drain in Hs. unfold drain_all in Hs.
  pose proof (drain_no_more (S (length ([] ++ mjoin chunks))) c OpMsgCodec.new ([] ++ mjoin chunks)) as Hd.
  destruct (drain on_frame _ c _ _) as [c1 codec buf|c1 e|]; [by injection Hs as <-| |done].
  destruct (encode_and_send _ 0 0 c1) as [c2|] eqn:He; [|done]. injection Hs as <-. apply send_served in He. by rewrite He.
Qed.
End Messages.

(** ** Concrete connections *)

#[local] Existing Instances PlainHex.PlainHex PlainHex.PlainHex_laws PlainNumber.Ops PlainNumber.Laws Sample.Texts NoRegex Plain.Debug Plain.Order Plain.Panics.
Abbreviation Num := PlainNumber.Num.
Definition fresh : Connection Num := mkConnection Plain.empty [].
Definition message (body : Document Num) : bytes := match encode_op_msg (new_msg body) 7 0 with Ok b => b | Err _ => [] end.
Definition ping_cmd : Document Num := [(str "ping", int 1)].
Definition insert_cmd : Document Num := document [(str "insert", String (str "items")); (str "documents", Array [Object (row 1)])].

Lemma ping_on_wire : on_wire (7%Z, ping_cmd) (message ping_cmd).
Proof.
  split; [|by vm_compute]. split; [by repeat constructor|]. constructor; [|constructor]. split; [by apply wf_key_check|]. by apply wf_int.
Qed.
(** Two pings, cut in the middle of the first. *)
Lemma requests_served_witness : ∃ s' out, answers (served fresh) [(7%Z, ping_cmd); (7%Z, ping_cmd)] = Some (s', out) ∧ length out = 2%nat ∧
  serve fresh [take 20 (message ping_cmd); drop 20 (message ping_cmd) ++ message ping_cmd] = Some (mkConnection s' (mjoin out)).
Proof.
  destruct (answers (served fresh) [(7%Z, ping_cmd); (7%Z, ping_cmd)]) as [[s' out]|] eqn:Ha; [|by vm_compute in Ha]. exists s', out.
  split; [done|]. split; [vm_compute in Ha; by injection Ha as <- <-|].
  apply (requests_served fresh [(7%Z, ping_cmd); (7%Z, ping_cmd)] [message ping_cmd; message ping_cmd]); [|by vm_compute|done].
  constructor; [apply ping_on_wire|]. constructor; [apply ping_on_wire|constructor].
Defined.
(** An insert is answered with an error. *)
Lemma nothing_stored_witness : ∃ c', serve fresh [message insert_cmd] = Some c' ∧
  sent c' = match encode_op_msg (new_msg (error_doc (str "unknown command: documents"))) 7 7 with Ok b => b | Err _ => [] end ∧
  ∀ db col id, is_Some (BTreeMap.get id (documents (coll (engine (served c')) db col))) → is_Some (BTreeMap.get id (documents (coll (engine (served fresh)) db col))).
Proof.
  destruct (serve fresh [message insert_cmd]) as [c'|] eqn:Hs; [|by vm_compute in Hs]. exists c'. split; [done|]. split; [vm_compute in Hs; injection Hs as <-; by vm_compute|].
  apply (nothing_stored fresh [message insert_cmd] c'); [apply empty_ordered|done].
Defined.
