(* ===== verification/RespCodec.v ===== *)
(** * The RESP protocol of cave-cache

    [crates/data/cave-cache/src/resp.rs] and [codec.rs]: the values of the Redis protocol,
    their serializer [encode_resp], and the incremental decoder [decode_resp] on a buffer
    behind [Resp3Codec].  The other parser of the crate, [parse_resp], is in RespReader.v.

    Positions in a slice are natural numbers.  The decoder recurses on what is left of the
    input; it is given fuel, [None] standing for its exhaustion, and is shown to need no
    more than the length of the input ([decode_resp_total]).  Two library functions are
    parameters: the text of an [f64] ([F64Text]) and the [Debug] text of a string
    ([StrDebug]).  Memory is unbounded: [Vec::with_capacity] of an announced count, which
    panics when the count is too large, always succeeds here. *)

From S2P Require Import Prelude Bytes Float KernelCodec.

Inductive Resp : Type :=
| SimpleString (s : bytes)
| Error (e : bytes)
| Integer (n : Z)
| BulkString (s : option bytes)
| Array (items : option (list Resp))
| Null
| Double (f : f64)
| Boolean (b : bool)
| BigNumber (n : bytes)
| BlobError (code msg : bytes)
| VerbatimString (enc data : bytes)
| RMap (pairs : list (Resp * Resp))
| RSet (items : list Resp)
| Push (items : list Resp).

Definition crlf : bytes := [13; 10].

(** ** The serializer *)

Section Encode.
Context `{FT : !F64Text}.

Definition encode_double (f : f64) : bytes :=
  if f64_is_infinite f && f64_lt f64_zero f then str "inf"
  else if f64_is_infinite f then str "-inf"
  else f64_display f.

(** The bytes [encode_resp] appends. *)
Fixpoint encode_resp (resp : Resp) : bytes :=
  match resp with
  | SimpleString s => 43 :: s ++ crlf
  | Error e => 45 :: e ++ crlf
  | Integer n => 58 :: decimal_i64 n ++ crlf
  | BulkString None => str "$-1" ++ crlf
  | BulkString (Some s) => 36 :: decimal (vlen s) ++ crlf ++ s ++ crlf
  | Array None => str "*-1" ++ crlf
  | Array (Some items) => 42 :: decimal (vlen items) ++ crlf ++ mjoin (encode_resp <$> items)
  | Null => 95 :: crlf
  | Boolean b => 35 :: (if b then 116 else 102) :: crlf
  | Double f => 44 :: encode_double f ++ crlf
  | BigNumber n => 40 :: n ++ crlf
  | BlobError code msg =>
      let content := code ++ [32] ++ msg in
      33 :: decimal (vlen content) ++ crlf ++ content ++ crlf
  | VerbatimString enc data =>
      61 :: decimal (3 + 1 + vlen data) ++ crlf ++ enc ++ [58] ++ data ++ crlf
  | RMap pairs => 37 :: decimal (vlen pairs) ++ crlf ++ mjoin ((λ p, encode_resp p.1 ++ encode_resp p.2) <$> pairs)
  | RSet items => 126 :: decimal (vlen items) ++ crlf ++ mjoin (encode_resp <$> items)
  | Push items => 62 :: decimal (vlen items) ++ crlf ++ mjoin (encode_resp <$> items)
  end.
End Encode.

(** ** The incremental decoder *)

(** [(parsed, bytes_consumed)] on success *)
Abbreviation DecodeStep T := (result FrameError (option (T * nat))).

Definition step_map {A B} (f : A → B) (skip : nat) (r : DecodeStep A) : DecodeStep B :=
  match r with
  | Ok (Some (a, c)) => Ok (Some (f a, (skip + c)%nat))
  | Ok None => Ok None
  | Err e => Err e
  end.

Fixpoint find_crlf (buf : bytes) : option nat :=
  match buf with
  | a :: (b :: _) as rest => if (a =? 13) && (b =? 10) then Some O else S <$> find_crlf rest
  | _ => None
  end.

Section Decode.
Context `{FT : !F64Text} `{SD : !StrDebug}.

(** A line: its text and the position behind its end. *)
Definition decode_simple_string (src : bytes) : DecodeStep bytes :=
  match find_crlf src with
  | Some idx => Ok (Some (take idx src, (idx + 2)%nat))
  | None => Ok None
  end.

(** A line that is to be UTF-8, parsed. *)
Definition decode_text {T} (src : bytes) (non_utf8 : bytes) (parse : bytes → result FrameError T) : DecodeStep T :=
  match find_crlf src with
  | Some idx =>
      let s := take idx src in
      if valid_utf8 s then let? n := parse s in Ok (Some (n, (idx + 2)%nat))
      else Err (Invalid non_utf8)
  | None => Ok None
  end.

Definition decode_simple_error (src : bytes) : DecodeStep bytes :=
  decode_text src (str "non-UTF-8 in simple error") Ok.

Definition decode_integer (src : bytes) : DecodeStep Z :=
  decode_text src (str "non-UTF-8 in integer")
    (λ s, ok_or (parse_i64 s) (Invalid (str "invalid integer: " ++ debug_str s))).

Definition decode_terminator (src : bytes) : DecodeStep unit :=
  if (length src <? 2)%nat then Ok None
  else if negb (bool_decide (take 2 src = crlf)) then Err (Invalid (str "RESP3 null missing CRLF"))
  else Ok (Some (tt, 2%nat)).

Definition decode_boolean (src : bytes) : DecodeStep bool :=
  match find_crlf src with
  | Some idx =>
      if bool_decide (take idx src = str "t") then Ok (Some (true, (idx + 2)%nat))
      else if bool_decide (take idx src = str "f") then Ok (Some (false, (idx + 2)%nat))
      else Err (Invalid (str "invalid boolean: " ++ debug_str (from_utf8_lossy (take idx src))))
  | None => Ok None
  end.

Definition parse_double (s : bytes) : option f64 :=
  if bool_decide (s = str "inf") || bool_decide (s = str "+inf") then Some f64_infinity
  else if bool_decide (s = str "-inf") then Some f64_neg_infinity
  else f64_parse s.

Definition decode_double (src : bytes) : DecodeStep f64 :=
  decode_text src (str "non-UTF-8 in double")
    (λ s, ok_or (parse_double s) (Invalid (str "invalid double: " ++ debug_str s))).

Definition decode_bulk_string (src : bytes) : DecodeStep (option bytes) :=
  match decode_text src (str "non-UTF-8 in bulk length")
          (λ s, ok_or (parse_i64 s) (Invalid (str "invalid bulk length: " ++ debug_str s))) with
  | Err e => Err e
  | Ok None => Ok None
  | Ok (Some (len, payload_start)) =>
      if (len =? -1)%Z then Ok (Some (None, payload_start))
      else if (len <? 0)%Z then Err (Invalid (str "negative bulk length: " ++ decimal_i64 len))
      else
        let payload_end := N.of_nat payload_start + Z.to_N len in
        let total := payload_end + 2 in
        if vlen src <? total then Ok None
        else if negb (bool_decide (vslice src payload_end (payload_end + 2) = crlf)) then
          Err (Invalid (str "bulk string missing trailing CRLF"))
        else Ok (Some (Some (vslice src (N.of_nat payload_start) payload_end), N.to_nat total))
  end.

(** The elements behind the count; [items] decodes [count] of them from a position on. *)
Definition decode_array (items : N → nat → option (DecodeStep (list Resp))) (src : bytes) :
    option (DecodeStep (option (list Resp))) :=
  match decode_text src (str "non-UTF-8 in array count")
          (λ s, ok_or (parse_i64 s) (Invalid (str "invalid array count: " ++ debug_str s))) with
  | Err e => Some (Err e)
  | Ok None => Some (Ok None)
  | Ok (Some (count, consumed)) =>
      if (count =? -1)%Z then Some (Ok (Some (None, consumed)))
      else if (count <? 0)%Z then Some (Err (Invalid (str "negative array count: " ++ decimal_i64 count)))
      else step_map Some 0 <$> items (Z.to_N count) consumed
  end.

Definition decode_array_payload (r : DecodeStep (option (list Resp))) : DecodeStep (list Resp) :=
  match r with
  | Ok (Some (Some items, c)) => Ok (Some (items, c))
  | Ok (Some (None, _)) => Err (Invalid (str "Set/Push cannot be null"))
  | Ok None => Ok None
  | Err e => Err e
  end.

Definition decode_map (pairs : N → nat → option (DecodeStep (list (Resp * Resp)))) (src : bytes) :
    option (DecodeStep (list (Resp * Resp))) :=
  match decode_text src (str "non-UTF-8 in map count")
          (λ s, ok_or (parse_u64 s) (Invalid (str "invalid map count: " ++ debug_str s))) with
  | Err e => Some (Err e)
  | Ok None => Some (Ok None)
  | Ok (Some (count, consumed)) => pairs count consumed
  end.

Fixpoint decode_resp (fuel : nat) (max_frame_size : usize) (src : bytes) {struct fuel} : option (DecodeStep Resp) :=
  match fuel, src with
  | O, _ => None
  | _, [] => Some (Ok None)
  | S fuel, prefix :: rest =>
      let items := λ n c, decode_items fuel max_frame_size n rest c [] in
      let pairs := λ n c, decode_pairs fuel max_frame_size n rest c [] in
      if max_frame_size <? vlen src then Some (Err (Limit (vlen src) max_frame_size))
      else if prefix =? 43 then Some (step_map SimpleString 1 (decode_simple_string rest))
      else if prefix =? 45 then Some (step_map Error 1 (decode_simple_error rest))
      else if prefix =? 58 then Some (step_map Integer 1 (decode_integer rest))
      else if prefix =? 36 then Some (step_map BulkString 1 (decode_bulk_string rest))
      else if prefix =? 42 then step_map Array 1 <$> decode_array items rest
      else if prefix =? 95 then Some (step_map (λ _, Null) 1 (decode_terminator rest))
      else if prefix =? 35 then Some (step_map Boolean 1 (decode_boolean rest))
      else if prefix =? 44 then Some (step_map Double 1 (decode_double rest))
      else if prefix =? 40 then Some (step_map BigNumber 1 (decode_simple_string rest))
      else if prefix =? 37 then step_map RMap 1 <$> decode_map pairs rest
      else if prefix =? 126 then (λ r, step_map RSet 1 (decode_array_payload r)) <$> decode_array items rest
      else if prefix =? 62 then (λ r, step_map Push 1 (decode_array_payload r)) <$> decode_array items rest
      else Some (Err (Invalid (str "unknown RESP prefix: 0x" ++ hex_byte prefix)))
  end
with decode_items (fuel : nat) (max_frame_size : usize) (count : N) (src : bytes) (consumed : nat)
    (items : list Resp) {struct fuel} : option (DecodeStep (list Resp)) :=
  match fuel with
  | O => None
  | S fuel =>
      if count =? 0 then Some (Ok (Some (items, consumed)))
      else
        match decode_resp fuel max_frame_size (drop consumed src) with
        | Some (Ok (Some (item, c))) =>
            decode_items fuel max_frame_size (count - 1) src (consumed + c) (items ++ [item])
        | Some (Ok None) => Some (Ok None)
        | Some (Err e) => Some (Err e)
        | None => None
        end
  end
with decode_pairs (fuel : nat) (max_frame_size : usize) (count : N) (src : bytes) (consumed : nat)
    (pairs : list (Resp * Resp)) {struct fuel} : option (DecodeStep (list (Resp * Resp))) :=
  match fuel with
  | O => None
  | S fuel =>
      if count =? 0 then Some (Ok (Some (pairs, consumed)))
      else
        match decode_resp fuel max_frame_size (drop consumed src) with
        | Some (Ok (Some (key, c))) =>
            let consumed := (consumed + c)%nat in
            match decode_resp fuel max_frame_size (drop consumed src) with
            | Some (Ok (Some (value, c))) =>
                decode_pairs fuel max_frame_size (count - 1) src (consumed + c) (pairs ++ [(key, value)])
            | Some (Ok None) => Some (Ok None)
            | Some (Err e) => Some (Err e)
            | None => None
            end
        | Some (Ok None) => Some (Ok None)
        | Some (Err e) => Some (Err e)
        | None => None
        end
  end.

(** With fuel for the whole input. *)
Definition decode_resp_all (max_frame_size : usize) (src : bytes) : DecodeStep Resp :=
  default (Ok None) (decode_resp (S (length src)) max_frame_size src).
End Decode.

Definition RESP_DEFAULT_MAX_FRAME_SIZE : usize := 67108864.
Record Resp3Codec : Type := mkResp3Codec { resp_max_frame_size : usize }.

Module Resp3Codec.
Section Codec.
Context `{FT : !F64Text} `{SD : !StrDebug}.

Definition with_limit (max : usize) : Resp3Codec := mkResp3Codec max.
Definition new : Resp3Codec := with_limit RESP_DEFAULT_MAX_FRAME_SIZE.

Definition encode (c : Resp3Codec) (frame : Resp) (buf : bytes) : result FrameError unit * Resp3Codec * bytes :=
  let tmp := encode_resp frame in
  if resp_max_frame_size c <? vlen tmp then (Err (Limit (vlen tmp) (resp_max_frame_size c)), c, buf)
  else (Ok tt, c, buf ++ tmp).

Definition decode (c : Resp3Codec) (buf : bytes) : result FrameError (option Resp) * Resp3Codec * bytes :=
  match decode_resp_all (resp_max_frame_size c) buf with
  | Ok (Some (resp, consumed)) => (Ok (Some resp), c, drop consumed buf)
  | Ok None => (Ok None, c, buf)
  | Err e => (Err e, c, buf)
  end.

#[export] Instance resp3_codec : FrameCodec Resp3Codec Resp := {| KernelCodec.encode := encode; KernelCodec.decode := decode |}.
End Codec.
End Resp3Codec.

(** ** Lines *)

#[local] Arguments find_crlf : simpl never.
Lemma find_crlf_cons a b l :
  find_crlf (a :: b :: l) = if (a =? 13) && (b =? 10) then Some O else S <$> find_crlf (b :: l).
Proof. done. Qed.

Lemma find_crlf_bound src i : find_crlf src = Some i → (i + 2 ≤ length src)%nat.
Proof.
  revert i. induction src as [|a [|b src] IH]; intros i; [done|done|]. rewrite find_crlf_cons.
  destruct ((a =? 13) && (b =? 10)); [intros [= <-]; simpl; lia|].
  destruct (find_crlf (b :: src)) as [j|]; simpl; [|done]. intros [= <-]. specialize (IH j eq_refl). simpl in IH. lia.
Qed.

Lemma find_crlf_app src more i : find_crlf src = Some i → find_crlf (src ++ more) = Some i.
Proof.
  revert i. induction src as [|a [|b src] IH]; intros i; [done|done|]. simpl. rewrite !find_crlf_cons.
  destruct ((a =? 13) && (b =? 10)); [done|]. simpl in IH.
  destruct (find_crlf (b :: src)) as [j|]; simpl; [|done]. intros [= <-]. by rewrite (IH j eq_refl).
Qed.

(** A text in which no end of line begins. *)
Definition line_ok (s : bytes) : bool := bool_decide (find_crlf (s ++ crlf) = Some (length s)).

Lemma find_crlf_line s rest : line_ok s = true → find_crlf (s ++ crlf ++ rest) = Some (length s).
Proof. intros H%bool_decide_eq_true. rewrite app_assoc. by apply find_crlf_app. Qed.

Lemma find_crlf_no_cr s : Forall (λ b, b ≠ 13) s → line_ok s = true.
Proof.
  intros Hs. apply bool_decide_eq_true. induction Hs as [|a s Ha Hs IH]; [done|]. simpl.
  destruct (s ++ crlf) eqn:E; [by destruct s|]. rewrite find_crlf_cons, IH.
  by destruct (N.eqb_spec a 13).
Qed.

Lemma valid_utf8_ascii s : Forall (λ b, b < 128) s → valid_utf8 s = true.
Proof.
  unfold valid_utf8. induction 1 as [|b s Hb _ IH]; [done|]. simpl. unfold utf8_step.
  destruct (N.ltb_spec b 128); [|lia]. simpl. by rewrite drop_0.
Qed.

Lemma digits_text ds : Forall (λ b, is_digit b = true) ds → line_ok ds = true ∧ valid_utf8 ds = true.
Proof.
  intros Hd. split; [apply find_crlf_no_cr|apply valid_utf8_ascii]; eapply Forall_impl; try exact Hd;
    intros b Hb; unfold is_digit in Hb; apply andb_true_iff in Hb as [?%N.leb_le ?%N.leb_le]; lia.
Qed.
Lemma decimal_text n : line_ok (decimal n) = true ∧ valid_utf8 (decimal n) = true.
Proof. apply digits_text, decimal_digits. Qed.
Lemma decimal_i64_text z : line_ok (decimal_i64 z) = true ∧ valid_utf8 (decimal_i64 z) = true.
Proof.
  unfold decimal_i64. destruct (z <? 0)%Z; [|apply decimal_text]. destruct (decimal_digits (Z.to_N (- z))) as (Hd & _).
  split; [apply find_crlf_no_cr|apply valid_utf8_ascii]; constructor; try lia; eapply Forall_impl; try exact Hd;
    intros b Hb; unfold is_digit in Hb; apply andb_true_iff in Hb as [?%N.leb_le ?%N.leb_le]; lia.
Qed.

(** ** What the decoders of one line share

    A decoder that has come to an answer keeps it when more bytes follow, and a value it
    returns lies within the input. *)

Section Decoders.
Context `{FT : !F64Text} `{SD : !StrDebug}.

Definition stable {T} (d : bytes → DecodeStep T) : Prop :=
  ∀ src more, d src ≠ Ok None → d (src ++ more) = d src.
Definition bounded {T} (d : bytes → DecodeStep T) : Prop :=
  ∀ src v c, d src = Ok (Some (v, c)) → (2 ≤ c ≤ length src)%nat.

Lemma simple_string_stable : stable decode_simple_string.
Proof.
  intros src more. unfold decode_simple_string. destruct (find_crlf src) as [i|] eqn:Hi; [|done]. intros _.
  pose proof (find_crlf_bound _ _ Hi). rewrite (find_crlf_app _ more _ Hi), take_app_le by lia. done.
Qed.
Lemma simple_string_bounded : bounded decode_simple_string.
Proof.
  intros src v c. unfold decode_simple_string. destruct (find_crlf src) as [i|] eqn:Hi; [|done].
  intros [= <- <-]. apply find_crlf_bound in Hi. lia.
Qed.

Lemma text_stable {T} m (p : bytes → result FrameError T) : stable (λ src, decode_text src m p).
Proof.
  intros src more. unfold decode_text. destruct (find_crlf src) as [i|] eqn:Hi; [|done]. intros _.
  pose proof (find_crlf_bound _ _ Hi). rewrite (find_crlf_app _ more _ Hi), take_app_le by lia. done.
Qed.
Lemma text_bounded {T} m (p : bytes → result FrameError T) : bounded (λ src, decode_text src m p).
Proof.
  intros src v c. unfold decode_text. destruct (find_crlf src) as [i|] eqn:Hi; [|done].
  destruct (valid_utf8 _); [|done]. destruct (p _); [|done]. intros [= <- <-]. apply find_crlf_bound in Hi. lia.
Qed.

Lemma terminator_stable : stable decode_terminator.
Proof.
  intros src more. unfold decode_terminator. rewrite length_app.
  destruct (Nat.ltb_spec (length src) 2); [done|]. destruct (Nat.ltb_spec (length src + length more) 2); [lia|].
  by rewrite take_app_le by lia.
Qed.
Lemma terminator_bounded : bounded decode_terminator.
Proof.
  intros src v c. unfold decode_terminator. destruct (Nat.ltb_spec (length src) 2); [done|].
  destruct (negb _); [done|]. intros [= <- <-]. lia.
Qed.

Lemma boolean_stable : stable decode_boolean.
Proof.
  intros src more. unfold decode_boolean. destruct (find_crlf src) as [i|] eqn:Hi; [|done]. intros _.
  pose proof (find_crlf_bound _ _ Hi). rewrite (find_crlf_app _ more _ Hi), take_app_le by lia. done.
Qed.
Lemma boolean_bounded : bounded decode_boolean.
Proof.
  intros src v c. unfold decode_boolean. destruct (find_crlf src) as [i|] eqn:Hi; [|done].
  apply find_crlf_bound in Hi. repeat case_bool_decide; intros [=]; lia.
Qed.

Lemma vslice_app_le {A} (l k : list A) a b : b ≤ vlen l → vslice (l ++ k) a b = vslice l a b.
Proof.
  intros Hb. unfold vslice, vlen in *. destruct (decide (N.to_nat a ≤ length l)%nat).
  - rewrite drop_app_le by lia. rewrite take_app_le; [done|]. rewrite length_drop. lia.
  - replace (N.to_nat (b - a)) with 0%nat by lia. by rewrite !take_0.
Qed.

Lemma bulk_string_stable : stable decode_bulk_string.
Proof.
  intros src more. unfold decode_bulk_string.
  match goal with |- context [decode_text src ?m ?p] => pose proof (text_stable m p src more) as Hs end. cbv beta in Hs.
  destruct (decode_text src _ _) as [[[len start]|]|e]; [|done|by rewrite Hs]. rewrite Hs by done.
  destruct (len =? -1)%Z; [done|]. destruct (len <? 0)%Z; [done|]. cbv zeta. rewrite vlen_app.
  destruct (N.ltb_spec (vlen src) (N.of_nat start + Z.to_N len + 2)) as [|Hl]; [done|]. intros _.
  destruct (N.ltb_spec (vlen src + vlen more) (N.of_nat start + Z.to_N len + 2)); [lia|].
  by rewrite !vslice_app_le by lia.
Qed.
Lemma bulk_string_bounded : bounded decode_bulk_string.
Proof.
  intros src v c. unfold decode_bulk_string.
  match goal with |- context [decode_text src ?m ?p] => pose proof (text_bounded m p src) as Hs end. cbv beta in Hs.
  destruct (decode_text src _ _) as [[[len start]|]|e]; [|done|done]. specialize (Hs _ _ eq_refl).
  destruct (len =? -1)%Z; [by intros [= <- <-]|]. destruct (len <? 0)%Z; [done|]. cbv zeta.
  destruct (N.ltb_spec (vlen src) (N.of_nat start + Z.to_N len + 2)) as [|Hl]; [done|].
  destruct (negb _); [done|]. intros [= <- <-]. unfold vlen in *. lia.
Qed.

Lemma step_map_none {A B} (f : A → B) n r : step_map f n r ≠ Ok None ↔ r ≠ Ok None.
Proof. destruct r as [[[]|]|]; naive_solver. Qed.

(** ** The decoder of a value: progress, termination, stability *)

Context (max : usize).

Definition resp_total (fuel : nat) : Prop := ∀ src, (length src < fuel)%nat →
  ∃ r, decode_resp fuel max src = Some r ∧ ∀ v c, r = Ok (Some (v, c)) → (1 ≤ c ≤ length src)%nat.
Definition items_total (fuel : nat) : Prop := ∀ n src pos acc,
  (pos ≤ length src)%nat → (length src - pos + 1 < fuel)%nat →
  ∃ r, decode_items fuel max n src pos acc = Some r ∧ ∀ v c, r = Ok (Some (v, c)) → (pos ≤ c ≤ length src)%nat.
Definition pairs_total (fuel : nat) : Prop := ∀ n src pos acc,
  (pos ≤ length src)%nat → (length src - pos + 1 < fuel)%nat →
  ∃ r, decode_pairs fuel max n src pos acc = Some r ∧ ∀ v c, r = Ok (Some (v, c)) → (pos ≤ c ≤ length src)%nat.

Lemma array_total fuel rest :
  items_total fuel → (length rest ≤ fuel)%nat →
  ∃ r, decode_array (λ n c, decode_items fuel max n rest c []) rest = Some r ∧
    ∀ v c, r = Ok (Some (v, c)) → (2 ≤ c ≤ length rest)%nat.
Proof.
  intros Hit Hf. unfold decode_array.
  match goal with |- context [decode_text rest ?m ?p] => pose proof (text_bounded m p rest) as Hs end. cbv beta in Hs.
  destruct (decode_text rest _ _) as [[[n pos]|]|e]; [|by eexists..]. specialize (Hs _ _ eq_refl).
  destruct (n =? -1)%Z; [eexists; split; [done|]; by intros v c [= <- <-]|].
  destruct (n <? 0)%Z; [by eexists|].
  destruct (Hit (Z.to_N n) rest pos []) as (r & -> & Hr); [lia|lia|]. simpl. eexists. split; [done|].
  intros v c. destruct r as [[[v' c']|]|]; simpl; [|done|done]. intros [= <- <-]. specialize (Hr _ _ eq_refl). lia.
Qed.

Lemma map_total fuel rest :
  pairs_total fuel → (length rest ≤ fuel)%nat →
  ∃ r, decode_map (λ n c, decode_pairs fuel max n rest c []) rest = Some r ∧
    ∀ v c, r = Ok (Some (v, c)) → (2 ≤ c ≤ length rest)%nat.
Proof.
  intros Hit Hf. unfold decode_map.
  match goal with |- context [decode_text rest ?m ?p] => pose proof (text_bounded m p rest) as Hs end. cbv beta in Hs.
  destruct (decode_text rest _ _) as [[[n pos]|]|e]; [|by eexists..]. specialize (Hs _ _ eq_refl).
  destruct (Hit n rest pos []) as (r & -> & Hr); [lia|lia|]. eexists. split; [done|].
  intros v c ->. specialize (Hr _ _ eq_refl). lia.
Qed.

Lemma line_total {T} (d : bytes → DecodeStep T) (f : T → Resp) rest :
  bounded d → ∃ r, Some (step_map f 1 (d rest)) = Some r ∧
    ∀ v c, r = Ok (Some (v, c)) → (1 ≤ c ≤ S (length rest))%nat.
Proof.
  intros Hb. eexists. split; [done|]. intros v c. destruct (d rest) as [[[v' c']|]|] eqn:Hd; simpl; [|done|done].
  intros [= <- <-]. specialize (Hb _ _ _ Hd). lia.
Qed.
Lemma nested_total {T} (d : option (DecodeStep T)) (g : DecodeStep T → DecodeStep Resp) (rest : bytes) :
  (∃ r, d = Some r ∧ ∀ v c, r = Ok (Some (v, c)) → (2 ≤ c ≤ length rest)%nat) →
  (∀ r v c, g r = Ok (Some (v, c)) → ∃ v' c', r = Ok (Some (v', c')) ∧ c = S c') →
  ∃ r, g <$> d = Some r ∧ ∀ v c, r = Ok (Some (v, c)) → (1 ≤ c ≤ S (length rest))%nat.
Proof.
  intros (r & -> & Hr) Hg. simpl. eexists. split; [done|]. intros v c (v' & c' & Hr' & ->)%Hg.
  specialize (Hr _ _ Hr'). lia.
Qed.

Hint Resolve simple_string_bounded text_bounded terminator_bounded boolean_bounded bulk_string_bounded : core.
Hint Resolve simple_string_stable text_stable terminator_stable boolean_stable bulk_string_stable : core.

Lemma resp_total_step fuel : items_total fuel → pairs_total fuel → resp_total (S fuel).
Proof.
  intros Hi Hp [|prefix rest] Hf; [by eexists|]. simpl in Hf. cbn [decode_resp length].
  destruct (max <? _); [by eexists|].
  destruct (prefix =? 43); [by apply line_total|].
  destruct (prefix =? 45); [by apply line_total, text_bounded|].
  destruct (prefix =? 58); [by apply line_total, text_bounded|].
  destruct (prefix =? 36); [by apply line_total|].
  destruct (prefix =? 42); [apply nested_total; [apply array_total; [done|lia]|]|].
  { intros r v c. destruct r as [[[]|]|]; naive_solver. }
  destruct (prefix =? 95); [by apply line_total|].
  destruct (prefix =? 35); [by apply line_total|].
  destruct (prefix =? 44); [by apply line_total, text_bounded|].
  destruct (prefix =? 40); [by apply line_total|].
  destruct (prefix =? 37); [apply nested_total; [apply map_total; [done|lia]|]|].
  { intros r v c. destruct r as [[[]|]|]; naive_solver. }
  destruct (prefix =? 126); [apply nested_total; [apply array_total; [done|lia]|]|].
  { intros r v c. destruct r as [[[[]]|]|]; naive_solver. }
  destruct (prefix =? 62); [apply nested_total; [apply array_total; [done|lia]|]|by eexists].
  intros r v c. destruct r as [[[[]]|]|]; naive_solver.
Qed.

Lemma decode_items_S fuel n src pos acc :
  decode_items (S fuel) max n src pos acc =
  if n =? 0 then Some (Ok (Some (acc, pos)))
  else match decode_resp fuel max (drop pos src) with
       | Some (Ok (Some (item, c))) => decode_items fuel max (n - 1) src (pos + c) (acc ++ [item])
       | Some (Ok None) => Some (Ok None)
       | Some (Err e) => Some (Err e)
       | None => None
       end.
Proof. done. Qed.
Lemma decode_pairs_S fuel n src pos acc :
  decode_pairs (S fuel) max n src pos acc =
  if n =? 0 then Some (Ok (Some (acc, pos)))
  else match decode_resp fuel max (drop pos src) with
       | Some (Ok (Some (key, c))) =>
           match decode_resp fuel max (drop (pos + c) src) with
           | Some (Ok (Some (value, c'))) => decode_pairs fuel max (n - 1) src (pos + c + c') (acc ++ [(key, value)])
           | Some (Ok None) => Some (Ok None)
           | Some (Err e) => Some (Err e)
           | None => None
           end
       | Some (Ok None) => Some (Ok None)
       | Some (Err e) => Some (Err e)
       | None => None
       end.
Proof. done. Qed.

Lemma decode_total fuel : resp_total fuel ∧ items_total fuel ∧ pairs_total fuel.
Proof.
  induction fuel as [|fuel (Hr & Hi & Hp)].
  { split_and!; intros; intros ?; lia. }
  split_and!; [by apply resp_total_step|..]; intros n src pos acc Hpos Hf; rewrite ?decode_items_S, ?decode_pairs_S.
  - destruct (n =? 0); [eexists; split; [done|]; intros v c [= <- <-]; lia|].
    destruct (Hr (drop pos src)) as (r & -> & Hr'); [rewrite length_drop; lia|].
    destruct r as [[[v c]|]|]; [|by eexists..]. specialize (Hr' _ _ eq_refl). rewrite length_drop in Hr'.
    destruct (Hi (n - 1) src (pos + c)%nat (acc ++ [v])) as (r & -> & Hr2); [lia|lia|].
    eexists. split; [done|]. intros v' c' ->. specialize (Hr2 _ _ eq_refl). lia.
  - destruct (n =? 0); [eexists; split; [done|]; intros v c [= <- <-]; lia|].
    destruct (Hr (drop pos src)) as (r & -> & Hr'); [rewrite length_drop; lia|].
    destruct r as [[[k c]|]|]; [|by eexists..]. specialize (Hr' _ _ eq_refl). rewrite length_drop in Hr'.
    destruct (Hr (drop (pos + c) src)) as (r & -> & Hr''); [rewrite length_drop; lia|].
    destruct r as [[[v c2]|]|]; [|by eexists..]. specialize (Hr'' _ _ eq_refl). rewrite length_drop in Hr''.
    destruct (Hp (n - 1) src (pos + c + c2)%nat (acc ++ [(k, v)])) as (r & -> & Hr2); [lia|lia|].
    eexists. split; [done|]. intros v' c' ->. specialize (Hr2 _ _ eq_refl). lia.
Qed.

(** The fuel given by [decode_resp_all] is enough. *)
Lemma decode_resp_total src :
  decode_resp (S (length src)) max src = Some (decode_resp_all max src) ∧
  ∀ v c, decode_resp_all max src = Ok (Some (v, c)) → (1 ≤ c ≤ length src)%nat.
Proof.
  destruct (decode_total (S (length src))) as (Hr & _). destruct (Hr src) as (r & Hd & Hb); [lia|].
  unfold decode_resp_all. by rewrite Hd.
Qed.

(** An answer that has been reached is kept when more bytes follow, also with more fuel. *)
Definition keeps {T} (src more : bytes) (r : DecodeStep T) (d d' : option (DecodeStep T)) : Prop :=
  d = Some r → r ≠ Ok None → d' = Some r ∧ ∀ v c, r = Ok (Some (v, c)) → (c ≤ length src)%nat.

Definition resp_keeps (fuel : nat) : Prop := ∀ fuel' src more r,
  (fuel ≤ fuel')%nat → vlen (src ++ more) ≤ max →
  keeps src more r (decode_resp fuel max src) (decode_resp fuel' max (src ++ more)).
Definition items_keeps (fuel : nat) : Prop := ∀ fuel' n src more pos acc r,
  (fuel ≤ fuel')%nat → vlen (src ++ more) ≤ max → (pos ≤ length src)%nat →
  keeps src more r (decode_items fuel max n src pos acc) (decode_items fuel' max n (src ++ more) pos acc).
Definition pairs_keeps (fuel : nat) : Prop := ∀ fuel' n src more pos acc r,
  (fuel ≤ fuel')%nat → vlen (src ++ more) ≤ max → (pos ≤ length src)%nat →
  keeps src more r (decode_pairs fuel max n src pos acc) (decode_pairs fuel' max n (src ++ more) pos acc).

Lemma line_keeps {T} (d : bytes → DecodeStep T) (f : T → Resp) prefix rest more r :
  stable d → bounded d →
  keeps (prefix :: rest) more r (Some (step_map f 1 (d rest))) (Some (step_map f 1 (d (rest ++ more)))).
Proof.
  intros Hs Hb [= <-] Hne%step_map_none. rewrite Hs by done. split; [done|]. intros v c.
  destruct (d rest) as [[[v' c']|]|] eqn:Hd; simpl; [|done|done]. intros [= <- <-].
  specialize (Hb _ _ _ Hd). lia.
Qed.
Lemma nested_keeps {T} (d d' : option (DecodeStep T)) (g : DecodeStep T → DecodeStep Resp) prefix rest more r :
  (∀ r', keeps rest more r' d d') → g (Ok None) = Ok None →
  (∀ r v c, g r = Ok (Some (v, c)) → ∃ v' c', r = Ok (Some (v', c')) ∧ c = S c') →
  keeps (prefix :: rest) more r (g <$> d) (g <$> d').
Proof.
  intros Hk Hg Hg' Hd Hne. destruct d as [r'|]; simpl in Hd; [|done]. injection Hd as <-.
  destruct (Hk r' eq_refl) as [-> Hc]; [intros ->; by apply Hne|]. split; [done|].
  intros v c (v' & c' & -> & ->)%Hg'. specialize (Hc _ _ eq_refl). simpl. lia.
Qed.

Lemma array_keeps fuel fuel' rest more r :
  items_keeps fuel → (fuel ≤ fuel')%nat → vlen (rest ++ more) ≤ max →
  keeps rest more r (decode_array (λ n c, decode_items fuel max n rest c []) rest)
    (decode_array (λ n c, decode_items fuel' max n (rest ++ more) c []) (rest ++ more)).
Proof.
  intros Hi Hf Hm. unfold decode_array.
  match goal with |- context [decode_text rest ?m ?p] =>
    pose proof (text_stable m p rest more) as Hs; pose proof (text_bounded m p rest) as Hb end.
  cbv beta in Hs, Hb. destruct (decode_text rest _ _) as [[[n pos]|]|e].
  - rewrite Hs by done. specialize (Hb _ _ eq_refl).
    destruct (n =? -1)%Z; [intros [= <-] _; split; [done|]; intros v c [= <- <-]; lia|].
    destruct (n <? 0)%Z; [by intros [= <-] _|]. intros Hd Hne.
    destruct (decode_items fuel max (Z.to_N n) rest pos []) as [r'|] eqn:Hit; simpl in Hd; [|done]. injection Hd as <-.
    destruct (Hi fuel' (Z.to_N n) rest more pos [] r' Hf Hm ltac:(lia) Hit) as [-> Hc]; [by apply step_map_none in Hne|].
    split; [done|]. intros v c. destruct r' as [[[v' c']|]|]; simpl; [|done|done]. intros [= <- <-]. eauto.
  - by intros [= <-].
  - rewrite Hs by done. by intros [= <-].
Qed.

Lemma map_keeps fuel fuel' rest more r :
  pairs_keeps fuel → (fuel ≤ fuel')%nat → vlen (rest ++ more) ≤ max →
  keeps rest more r (decode_map (λ n c, decode_pairs fuel max n rest c []) rest)
    (decode_map (λ n c, decode_pairs fuel' max n (rest ++ more) c []) (rest ++ more)).
Proof.
  intros Hi Hf Hm. unfold decode_map.
  match goal with |- context [decode_text rest ?m ?p] =>
    pose proof (text_stable m p rest more) as Hs; pose proof (text_bounded m p rest) as Hb end.
  cbv beta in Hs, Hb. destruct (decode_text rest _ _) as [[[n pos]|]|e].
  - rewrite Hs by done. specialize (Hb _ _ eq_refl). apply Hi; [done|done|lia].
  - by intros [= <-].
  - rewrite Hs by done. by intros [= <-].
Qed.

Lemma resp_keeps_step fuel : items_keeps fuel → pairs_keeps fuel → resp_keeps (S fuel).
Proof.
  intros Hi Hp [|fuel'] [|prefix rest] more r Hf Hm; [lia|lia|by intros [= <-]|].
  assert (Hm' : vlen (rest ++ more) ≤ max) by (simpl in Hm; rewrite vlen_cons in Hm; lia).
  cbn [decode_resp app]. assert (Hl : vlen (prefix :: rest) ≤ max) by (rewrite vlen_app in Hm; lia).
  simpl in Hm. destruct (N.ltb_spec max (vlen (prefix :: rest))); [lia|].
  destruct (N.ltb_spec max (vlen (prefix :: rest ++ more))); [lia|].
  destruct (prefix =? 43); [by apply line_keeps|].
  destruct (prefix =? 45); [by apply line_keeps; [apply text_stable|apply text_bounded]|].
  destruct (prefix =? 58); [by apply line_keeps; [apply text_stable|apply text_bounded]|].
  destruct (prefix =? 36); [by apply line_keeps|].
  destruct (prefix =? 42); [apply nested_keeps; [intros; apply array_keeps; [done|lia|done]|done|]|].
  { intros r' v c. destruct r' as [[[]|]|]; naive_solver. }
  destruct (prefix =? 95); [by apply line_keeps|].
  destruct (prefix =? 35); [by apply line_keeps|].
  destruct (prefix =? 44); [by apply line_keeps; [apply text_stable|apply text_bounded]|].
  destruct (prefix =? 40); [by apply line_keeps|].
  destruct (prefix =? 37); [apply nested_keeps; [intros; apply map_keeps; [done|lia|done]|done|]|].
  { intros r' v c. destruct r' as [[[]|]|]; naive_solver. }
  destruct (prefix =? 126); [apply nested_keeps; [intros; apply array_keeps; [done|lia|done]|done|]|].
  { intros r' v c. destruct r' as [[[[]]|]|]; naive_solver. }
  destruct (prefix =? 62); [apply nested_keeps; [intros; apply array_keeps; [done|lia|done]|done|]|by intros [= <-]].
  intros r' v c. destruct r' as [[[[]]|]|]; naive_solver.
Qed.

Lemma decode_keeps fuel : resp_keeps fuel ∧ items_keeps fuel ∧ pairs_keeps fuel.
Proof.
  induction fuel as [|fuel (Hr & Hi & Hp)]; [by split_and!; intros ????*|].
  split_and!; [by apply resp_keeps_step|..]; intros [|fuel'] n src more pos acc r Hf Hm Hpos; try lia;
    rewrite ?decode_items_S, ?decode_pairs_S, drop_app_le by lia;
    (destruct (n =? 0); [intros [= <-] _; split; [done|]; intros v c [= <- <-]; lia|]).
  all: assert (Hd : ∀ p, vlen (drop p src ++ more) ≤ max)
    by (intros p; unfold vlen in *; rewrite length_app in *; rewrite length_drop; lia).
  all: destruct (decode_resp fuel max (drop pos src)) as [[[[v c]|]|e]|] eqn:H1; intros Hres Hne; simplify_eq.
  all: destruct (Hr fuel' _ more _ ltac:(lia) (Hd pos) H1) as [-> Hc]; [done|].
  2, 4: by split.
  all: specialize (Hc _ _ eq_refl); rewrite length_drop in Hc.
  - apply (Hi fuel'); [lia|done|lia|done|done].
  - rewrite drop_app_le by lia. destruct (decode_resp fuel max (drop (pos + c) src)) as [[[[v2 c2]|]|e]|] eqn:H2; simplify_eq.
    all: destruct (Hr fuel' _ more _ ltac:(lia) (Hd (pos + c)%nat) H2) as [-> Hc2]; [done|].
    2: by split.
    specialize (Hc2 _ _ eq_refl). rewrite length_drop in Hc2. apply (Hp fuel'); [lia|done|lia|done|done].
Qed.

Lemma decode_resp_stable src more :
  vlen (src ++ more) ≤ max → decode_resp_all max src ≠ Ok None →
  decode_resp_all max (src ++ more) = decode_resp_all max src.
Proof.
  intros Hm Hne. destruct (decode_resp_total src) as [Hd _]. destruct (decode_keeps (S (length src))) as (Hk & _).
  destruct (Hk (S (length (src ++ more))) src more _ ltac:(rewrite length_app; lia) Hm Hd Hne) as [He _].
  unfold decode_resp_all at 1. by rewrite He.
Qed.
End Decoders.

(** ** Round trip *)

Section RoundTrip.
Context `{FT : !F64Text} `{SD : !StrDebug} `{FL : !F64TextLaws}.

(** The values the incremental decoder knows: lines without an end of line, numbers and
    lengths in range, no blob errors and no verbatim strings. *)
Fixpoint resp_ok (r : Resp) : bool :=
  match r with
  | SimpleString s | BigNumber s => line_ok s
  | Error e => line_ok e && valid_utf8 e
  | Integer n => (-9223372036854775808 <=? n)%Z && (n <? 9223372036854775808)%Z
  | BulkString None | Array None | Null | Boolean _ => true
  | Double f => f64_valid f
  | BulkString (Some s) => vlen s <? 9223372036854775808
  | Array (Some items) | RSet items | Push items => (vlen items <? 9223372036854775808) && forallb resp_ok items
  | RMap pairs => (vlen pairs <? 9223372036854775808) && forallb (λ p, resp_ok p.1 && resp_ok p.2) pairs
  | BlobError _ _ | VerbatimString _ _ => false
  end.

Lemma text_line {T} s rest m (p : bytes → result FrameError T) v :
  line_ok s = true ∧ valid_utf8 s = true → p s = Ok v →
  decode_text (s ++ crlf ++ rest) m p = Ok (Some (v, (length s + 2)%nat)).
Proof.
  intros [Hl Hu] Hp. unfold decode_text. by rewrite find_crlf_line, take_app_length, Hu, Hp.
Qed.
Lemma simple_line s rest :
  line_ok s = true → decode_simple_string (s ++ crlf ++ rest) = Ok (Some (s, (length s + 2)%nat)).
Proof. intros Hl. unfold decode_simple_string. by rewrite find_crlf_line, take_app_length. Qed.

Lemma parse_i64_count n : n < 9223372036854775808 → parse_i64 (decimal n) = Some (Z.of_N n).
Proof.
  intros Hn. rewrite <- (parse_i64_decimal (Z.of_N n)) by lia. unfold decimal_i64.
  destruct (Z.ltb_spec (Z.of_N n) 0); [lia|]. by rewrite N2Z.id.
Qed.
Lemma count_line n rest m (e : bytes → FrameError) : n < 9223372036854775808 →
  decode_text (decimal n ++ crlf ++ rest) m (λ s, ok_or (parse_i64 s) (e s)) = Ok (Some (Z.of_N n, (length (decimal n) + 2)%nat)).
Proof. intros Hn. apply text_line; [apply decimal_text|]. by rewrite parse_i64_count. Qed.

Lemma bulk_line s rest : vlen s < 9223372036854775808 →
  decode_bulk_string (decimal (vlen s) ++ crlf ++ s ++ crlf ++ rest) =
  Ok (Some (Some s, (length (decimal (vlen s)) + 2 + length s + 2)%nat)).
Proof.
  intros Hs. unfold decode_bulk_string.
  rewrite (count_line (vlen s) (s ++ crlf ++ rest) _ (λ s, Invalid (_ ++ debug_str s)) Hs).
  destruct (Z.eqb_spec (Z.of_N (vlen s)) (-1)); [lia|]. destruct (Z.ltb_spec (Z.of_N (vlen s)) 0); [lia|]. cbv zeta.
  rewrite N2Z.id. set (d := decimal (vlen s)).
  assert (Hlen : N.of_nat (length d + 2) + vlen s = vlen (d ++ crlf ++ s)) by (unfold vlen; rewrite !length_app; simpl; lia).
  rewrite !Hlen. replace (d ++ crlf ++ s ++ crlf ++ rest) with ((d ++ crlf ++ s) ++ crlf ++ rest) by by rewrite <- !app_assoc.
  destruct (N.ltb_spec (vlen ((d ++ crlf ++ s) ++ crlf ++ rest)) (vlen (d ++ crlf ++ s) + 2)) as [Hlt|_].
  { rewrite !vlen_app in Hlt. change (vlen crlf) with 2 in Hlt. lia. }
  assert (Hcr : vslice ((d ++ crlf ++ s) ++ crlf ++ rest) (vlen (d ++ crlf ++ s)) (vlen (d ++ crlf ++ s) + 2) = crlf).
  { unfold vslice, vlen. rewrite Nat2N.id, drop_app_length. replace (N.to_nat _) with (length crlf) by (simpl; lia).
    by rewrite take_app_length. }
  assert (Hpay : vslice ((d ++ crlf ++ s) ++ crlf ++ rest) (N.of_nat (length d + 2)) (vlen (d ++ crlf ++ s)) = s).
  { unfold vslice. replace ((d ++ crlf ++ s) ++ crlf ++ rest) with ((d ++ crlf) ++ s ++ crlf ++ rest) by by rewrite <- !app_assoc.
    rewrite drop_app_length' by (rewrite length_app; simpl; lia). apply take_app_length'. unfold vlen in *. lia. }
  rewrite Hcr, Hpay, bool_decide_eq_true_2 by done. cbn [negb]. do 3 f_equal. rewrite <- Hlen. unfold vlen. lia.
Qed.

Lemma double_text f : line_ok (encode_double f) = true ∧ valid_utf8 (encode_double f) = true.
Proof.
  assert (Ha : Forall (λ b, 32 ≤ b < 127) (encode_double f)).
  { unfold encode_double. destruct (f64_is_infinite f && _); [change (str "inf") with [105; 110; 102]; repeat constructor; lia|].
    destruct (f64_is_infinite f); [change (str "-inf") with [45; 105; 110; 102]; repeat constructor; lia|apply f64_display_ascii]. }
  split; [apply find_crlf_no_cr|apply valid_utf8_ascii]; eapply Forall_impl; try exact Ha; simpl; lia.
Qed.
Lemma double_parse f : f64_valid f = true → parse_double (encode_double f) = Some f.
Proof.
  intros Hv. unfold encode_double. destruct (f64_is_infinite f) eqn:Hi; simpl.
  - destruct f as [|[]| |]; try done.
  - destruct (f64_display_finite f Hi) as (H1 & H2 & H3). unfold parse_double.
    rewrite !bool_decide_eq_false_2 by done. by apply f64_parse_display.
Qed.

Context (max : usize).

(** A value at the front of a buffer is decoded. *)
Definition decodes (r : Resp) : Prop := ∀ fuel more,
  vlen (encode_resp r ++ more) ≤ max → (length (encode_resp r ++ more) < fuel)%nat →
  decode_resp fuel max (encode_resp r ++ more) = Some (Ok (Some (r, length (encode_resp r)))).

Lemma encode_resp_length r : (3 ≤ length (encode_resp r))%nat.
Proof. destruct r as [| | |[]|[]| | | | | | | | |]; simpl; rewrite ?length_app; simpl; rewrite ?length_app; simpl; lia. Qed.

Lemma items_decoded items pre fuel more acc :
  Forall decodes items → vlen (mjoin (encode_resp <$> items) ++ more) ≤ max →
  (length (mjoin (encode_resp <$> items) ++ more) + 1 < fuel)%nat →
  decode_items fuel max (vlen items) (pre ++ mjoin (encode_resp <$> items) ++ more) (length pre) acc =
  Some (Ok (Some (acc ++ items, (length pre + length (mjoin (encode_resp <$> items)))%nat))).
Proof.
  intros Hd. revert pre fuel acc. induction Hd as [|r items Hr _ IH]; intros pre [|fuel] acc Hm Hf; try lia;
    rewrite decode_items_S.
  { simpl. by rewrite app_nil_r, Nat.add_0_r. }
  rewrite vlen_cons. destruct (N.eqb_spec (vlen items + 1) 0); [lia|]. rewrite N.add_sub.
  rewrite fmap_cons in *. change (mjoin (?x :: ?l)) with (x ++ mjoin l) in *. rewrite <- app_assoc in Hm, Hf |- *.
  rewrite drop_app_length, Hr by (done || lia). pose proof (encode_resp_length r).
  specialize (IH (pre ++ encode_resp r) fuel (acc ++ [r])). rewrite <- !app_assoc, !length_app in IH. rewrite length_app in Hf.
  rewrite IH; [|rewrite vlen_app in Hm; lia|rewrite length_app in *; lia]. simpl. rewrite length_app. do 4 f_equal. lia.
Qed.

Definition encode_pair (p : Resp * Resp) : bytes := encode_resp p.1 ++ encode_resp p.2.
Lemma pairs_decoded pairs pre fuel more acc :
  Forall (λ p, decodes p.1 ∧ decodes p.2) pairs → vlen (mjoin (encode_pair <$> pairs) ++ more) ≤ max →
  (length (mjoin (encode_pair <$> pairs) ++ more) + 1 < fuel)%nat →
  decode_pairs fuel max (vlen pairs) (pre ++ mjoin (encode_pair <$> pairs) ++ more) (length pre) acc =
  Some (Ok (Some (acc ++ pairs, (length pre + length (mjoin (encode_pair <$> pairs)))%nat))).
Proof.
  intros Hd. revert pre fuel acc. induction Hd as [|[k v] pairs [Hk Hv] _ IH]; intros pre [|fuel] acc Hm Hf; try lia;
    rewrite decode_pairs_S.
  { simpl. by rewrite app_nil_r, Nat.add_0_r. }
  rewrite vlen_cons. destruct (N.eqb_spec (vlen pairs + 1) 0); [lia|]. rewrite N.add_sub.
  rewrite fmap_cons in *. change (mjoin (?x :: ?l)) with (x ++ mjoin l) in *.
  change (encode_pair (k, v)) with (encode_resp k ++ encode_resp v) in *. simpl in Hk, Hv.
  rewrite <- !app_assoc in Hm, Hf |- *. rewrite drop_app_length, Hk by (done || lia).
  pose proof (encode_resp_length k). pose proof (encode_resp_length v).
  rewrite (app_assoc pre), <- length_app, drop_app_length. rewrite vlen_app in Hm. rewrite length_app in Hf.
  rewrite Hv by lia. rewrite vlen_app in Hm. rewrite length_app in Hf.
  specialize (IH (pre ++ encode_resp k ++ encode_resp v) fuel (acc ++ [(k, v)])).
  rewrite <- !app_assoc, !length_app in IH. rewrite <- !app_assoc, !length_app, <- Nat.add_assoc in |- *.
  rewrite length_app in Hf. rewrite IH by lia. simpl. do 4 f_equal. lia.
Qed.

Lemma forallb_decodes (items : list Resp) (n : nat) :
  (∀ r, (length (encode_resp r) ≤ n)%nat → resp_ok r = true → decodes r) →
  (length (mjoin (encode_resp <$> items)) ≤ n)%nat → forallb resp_ok items = true → Forall decodes items.
Proof.
  intros IH. induction items as [|r items IHi]; [constructor|]. rewrite fmap_cons.
  change (mjoin (?x :: ?l)) with (x ++ mjoin l). rewrite length_app. simpl forallb.
  intros Hn [Hr Hi]%andb_true_iff. constructor; [apply IH; [lia|done]|]. apply IHi; [lia|done].
Qed.
Lemma forallb_decodes_pairs (pairs : list (Resp * Resp)) (n : nat) :
  (∀ r, (length (encode_resp r) ≤ n)%nat → resp_ok r = true → decodes r) →
  (length (mjoin (encode_pair <$> pairs)) ≤ n)%nat →
  forallb (λ p, resp_ok p.1 && resp_ok p.2) pairs = true → Forall (λ p, decodes p.1 ∧ decodes p.2) pairs.
Proof.
  intros IH. induction pairs as [|p pairs IHi]; [constructor|]. rewrite fmap_cons.
  change (mjoin (?x :: ?l)) with (x ++ mjoin l). unfold encode_pair at 1. rewrite !length_app. simpl forallb.
  intros Hn [[Hk Hv]%andb_true_iff Hi]%andb_true_iff. constructor; [split; apply IH; (lia || done)|]. apply IHi; [lia|done].
Qed.

(** The aggregates: a count, and that many values. *)
Lemma array_decoded items fuel more :
  Forall decodes items → vlen items < 9223372036854775808 →
  let src := decimal (vlen items) ++ crlf ++ mjoin (encode_resp <$> items) ++ more in
  vlen src ≤ max → (length src < fuel)%nat →
  decode_array (λ n c, decode_items fuel max n src c []) src =
  Some (Ok (Some (Some items, length (decimal (vlen items) ++ crlf ++ mjoin (encode_resp <$> items))))).
Proof.
  intros Hd Hn src Hm Hf. unfold decode_array.
  pose proof (λ l m, count_line (vlen items) (mjoin (encode_resp <$> items) ++ more) m (λ s, Invalid (l ++ debug_str s)) Hn) as Hc.
  fold src in Hc. cbv beta in Hc. rewrite Hc. clear Hc.
  destruct (Z.eqb_spec (Z.of_N (vlen items)) (-1)); [lia|]. destruct (Z.ltb_spec (Z.of_N (vlen items)) 0); [lia|].
  rewrite N2Z.id. pose proof (items_decoded items (decimal (vlen items) ++ crlf) fuel more [] Hd) as Hi.
  unfold src in *. rewrite vlen_app in Hm. rewrite !length_app in Hf. change (length crlf) with 2%nat in Hf.
  rewrite <- app_assoc, !length_app in Hi. change (length crlf) with 2%nat in Hi.
  rewrite (vlen_app crlf) in Hm. rewrite Hi by lia. simpl. rewrite !length_app. simpl. do 4 f_equal. lia.
Qed.
Lemma map_decoded pairs fuel more :
  Forall (λ p, decodes p.1 ∧ decodes p.2) pairs → vlen pairs < 9223372036854775808 →
  let src := decimal (vlen pairs) ++ crlf ++ mjoin (encode_pair <$> pairs) ++ more in
  vlen src ≤ max → (length src < fuel)%nat →
  decode_map (λ n c, decode_pairs fuel max n src c []) src =
  Some (Ok (Some (pairs, length (decimal (vlen pairs) ++ crlf ++ mjoin (encode_pair <$> pairs))))).
Proof.
  intros Hd Hn src Hm Hf. unfold decode_map.
  assert (Hc : ∀ l m, decode_text src m (λ s, ok_or (parse_u64 s) (Invalid (l ++ debug_str s))) =
                Ok (Some (vlen pairs, (length (decimal (vlen pairs)) + 2)%nat))).
  { intros l m. apply text_line; [apply decimal_text|]. rewrite parse_u64_decimal; [done|]. unfold u64_modulus. lia. }
  rewrite Hc. clear Hc.
  pose proof (pairs_decoded pairs (decimal (vlen pairs) ++ crlf) fuel more [] Hd) as Hi.
  unfold src in *. rewrite vlen_app in Hm. rewrite !length_app in Hf. change (length crlf) with 2%nat in Hf.
  rewrite <- app_assoc, !length_app in Hi. change (length crlf) with 2%nat in Hi.
  rewrite (vlen_app crlf) in Hm. rewrite Hi by lia. rewrite !length_app. simpl. do 4 f_equal. lia.
Qed.
Lemma decode_resp_S fuel prefix rest :
  vlen (prefix :: rest) ≤ max →
  decode_resp (S fuel) max (prefix :: rest) =
  let items := λ n c, decode_items fuel max n rest c [] in
  let pairs := λ n c, decode_pairs fuel max n rest c [] in
  if prefix =? 43 then Some (step_map SimpleString 1 (decode_simple_string rest))
  else if prefix =? 45 then Some (step_map Error 1 (decode_simple_error rest))
  else if prefix =? 58 then Some (step_map Integer 1 (decode_integer rest))
  else if prefix =? 36 then Some (step_map BulkString 1 (decode_bulk_string rest))
  else if prefix =? 42 then step_map Array 1 <$> decode_array items rest
  else if prefix =? 95 then Some (step_map (λ _, Null) 1 (decode_terminator rest))
  else if prefix =? 35 then Some (step_map Boolean 1 (decode_boolean rest))
  else if prefix =? 44 then Some (step_map Double 1 (decode_double rest))
  else if prefix =? 40 then Some (step_map BigNumber 1 (decode_simple_string rest))
  else if prefix =? 37 then step_map RMap 1 <$> decode_map pairs rest
  else if prefix =? 126 then (λ r, step_map RSet 1 (decode_array_payload r)) <$> decode_array items rest
  else if prefix =? 62 then (λ r, step_map Push 1 (decode_array_payload r)) <$> decode_array items rest
  else Some (Err (Invalid (str "unknown RESP prefix: 0x" ++ hex_byte prefix))).
Proof. intros Hm. cbn [decode_resp]. by destruct (N.ltb_spec max (vlen (prefix :: rest))); [lia|]. Qed.

Lemma decode_encode r : resp_ok r = true → decodes r.
Proof.
  remember (length (encode_resp r)) as n eqn:Hn. revert r Hn.
  induction n as [n IH] using lt_wf_ind. intros r Hn Hok [|fuel] more Hm Hf; [lia|].
  assert (IH' : ∀ k : nat, (k < n)%nat → ∀ r, (length (encode_resp r) ≤ k)%nat → resp_ok r = true → decodes r).
  { intros k Hk r' Hr'. apply (IH (length (encode_resp r'))); [lia|done]. }
  clear IH. destruct r as [s|e|z|[s|]|[items|]| |f|b|s| | |pairs|items|items]; try done;
    cbn [encode_resp] in *; try change (str "$-1" ++ crlf) with [36; 45; 49; 13; 10] in *;
    try change (str "*-1" ++ crlf) with [42; 45; 49; 13; 10] in *; try change (mjoin ((λ p, _) <$> pairs)) with (mjoin (encode_pair <$> pairs)) in *;
    cbn [app] in *; rewrite decode_resp_S by done; cbn [N.eqb Pos.eqb]; cbv zeta; rewrite <- ?app_assoc in *;
    cbn [length] in *; cbn [resp_ok] in Hok; rewrite ?andb_true_iff, ?N.ltb_lt in Hok.
  - rewrite simple_line by done. simpl. rewrite length_app. done.
  - unfold decode_simple_error. rewrite (text_line e more _ Ok e) by done. simpl. by rewrite length_app.
  - unfold decode_integer. rewrite (text_line (decimal_i64 z) more _ _ z (decimal_i64_text z)).
    + simpl. by rewrite length_app.
    + rewrite parse_i64_decimal; [done|lia].
  - rewrite bulk_line by done. cbn [step_map]. rewrite !length_app. change (length crlf) with 2%nat. do 4 f_equal. lia.
  - reflexivity.
  - destruct Hok. rewrite (array_decoded items fuel more); [done| |done|rewrite vlen_cons in Hm; lia|lia].
    apply (forallb_decodes items (length (mjoin (encode_resp <$> items)))); [apply IH'; rewrite Hn, !length_app; lia|done|done].
  - reflexivity.
  - reflexivity.
  - unfold decode_double. rewrite (text_line _ more _ _ f (double_text f)); [simpl; by rewrite length_app|].
    by rewrite double_parse.
  - by destruct b.
  - rewrite simple_line by done. simpl. by rewrite length_app.
  - destruct Hok. rewrite (map_decoded pairs fuel more); [done| |done|rewrite vlen_cons in Hm; lia|lia].
    apply (forallb_decodes_pairs pairs (length (mjoin (encode_pair <$> pairs)))); [apply IH'; rewrite Hn, !length_app; lia|done|done].
  - destruct Hok. rewrite (array_decoded items fuel more); [done| |done|rewrite vlen_cons in Hm; lia|lia].
    apply (forallb_decodes items (length (mjoin (encode_resp <$> items)))); [apply IH'; rewrite Hn, !length_app; lia|done|done].
  - destruct Hok. rewrite (array_decoded items fuel more); [done| |done|rewrite vlen_cons in Hm; lia|lia].
    apply (forallb_decodes items (length (mjoin (encode_resp <$> items)))); [apply IH'; rewrite Hn, !length_app; lia|done|done].
Qed.
End RoundTrip.

(** ** The codec *)

Section CodecRoundTrip.
Context `{FT : !F64Text} `{SD : !StrDebug} `{FL : !F64TextLaws}.

Lemma decode_resp_all_encode max r more :
  resp_ok r = true → vlen (encode_resp r ++ more) ≤ max →
  decode_resp_all max (encode_resp r ++ more) = Ok (Some (r, length (encode_resp r))).
Proof. intros Hok Hm. unfold decode_resp_all. by rewrite (decode_encode max r Hok) by (done || lia). Qed.

(** A proper prefix of an encoding is not yet a value: nothing is mistaken for the whole. *)
Lemma decode_resp_all_prefix max r n :
  resp_ok r = true → vlen (encode_resp r) ≤ max → (n < length (encode_resp r))%nat →
  decode_resp_all max (take n (encode_resp r)) = Ok None.
Proof.
  intros Hok Hm Hn. cut (decode_resp_all max (take n (encode_resp r)) ≠ Ok None → False).
  { destruct (decode_resp_all max (take n (encode_resp r))) as [[]|]; [intros []; done|done|intros []; done]. }
  intros Hne.
  pose proof (decode_resp_stable max (take n (encode_resp r)) (drop n (encode_resp r))) as Hs.
  rewrite take_drop in Hs. specialize (Hs Hm Hne). pose proof (decode_resp_all_encode max r [] Hok) as He.
  rewrite app_nil_r in He. rewrite He in Hs by done.
  destruct (decode_resp_total max (take n (encode_resp r))) as [_ Hb].
  specialize (Hb _ _ (eq_sym Hs)). rewrite length_take in Hb. lia.
Qed.

(** RESP values over a buffer.  What the encoder appends for a value the decoder knows
    is decoded to that value, whatever follows within the size limit and with exactly the
    value's bytes consumed; and before the last byte has come the decoder asks for more and
    leaves the buffer alone. *)
Theorem resp3_roundtrip c r more :
  resp_ok r = true → vlen (encode_resp r ++ more) ≤ resp_max_frame_size c →
  Resp3Codec.encode c r [] = (Ok tt, c, encode_resp r) ∧
  Resp3Codec.decode c (encode_resp r ++ more) = (Ok (Some r), c, more) ∧
  ∀ n, (n < length (encode_resp r))%nat →
    Resp3Codec.decode c (take n (encode_resp r)) = (Ok None, c, take n (encode_resp r)).
Proof.
  intros Hok Hm. assert (vlen (encode_resp r) ≤ resp_max_frame_size c) by (rewrite vlen_app in Hm; lia).
  unfold Resp3Codec.encode, Resp3Codec.decode. split_and!.
  - by destruct (N.ltb_spec (resp_max_frame_size c) (vlen (encode_resp r))); [lia|].
  - by rewrite decode_resp_all_encode, drop_app_length.
  - intros n Hn. by rewrite decode_resp_all_prefix.
Qed.
End CodecRoundTrip.

(** A nested reply with a map, a double and a null bulk string, followed by a half value. *)
Import ExactText.
Lemma resp3_roundtrip_witness :
  let r := Push [SimpleString (str "message"); RMap [(BulkString (Some (str "k")), Double (f64_of_N 7))];
                 BulkString None; Integer (-12); Array (Some [Boolean true; Null])] in
  Resp3Codec.decode (SD := id) Resp3Codec.new (encode_resp r ++ str "$5") = (Ok (Some r), Resp3Codec.new, str "$5") ∧
  Resp3Codec.decode (SD := id) Resp3Codec.new (take 20 (encode_resp r)) = (Ok None, Resp3Codec.new, take 20 (encode_resp r)).
Proof.
  intros r. pose proof (resp3_roundtrip (SD := id) Resp3Codec.new r (str "$5")) as H.
  destruct H as (_ & H1 & H2); [vm_compute; reflexivity|vm_compute; discriminate|]. split; [exact H1|].
  apply H2. vm_compute. lia.
Defined.
