(* ===== verification/RespReader.v ===== *)
(** * The command reader of the cave-cache server

    [parse_resp], [parse_command] and [parse_inline] of crates/data/cave-cache/src/resp.rs:
    the parser that drives the server from a buffered reader, next to the incremental
    decoder of RespCodec.v.

    A reader is the list of the bytes still to come before the peer closes.  A parser is a
    function of the reader to a result and the reader it leaves ([Parser]); [?] is the bind.
    A [panic!] (the slice [&line[1..]] inside a character) is a failure of its own.  The
    recursion is given fuel and shown to need no more than about twice the number of bytes to
    come ([parse_resp_total]).  The two parsers are shown to agree on every stream of encoded
    values both know ([decoders_agree]). *)

From S2P Require Import Prelude Bytes Float KernelCodec RespCodec.

(** The variants of [CacheError] these functions construct. *)
Inductive CacheError : Type :=
| Protocol (msg : bytes)
| CacheIo.
Inductive Failure : Type :=
| Cache (e : CacheError)
| Panicked
| OutOfFuel.

Definition Parser (A : Type) : Type := bytes → result Failure A * bytes.
#[export] Instance Parser_ret : MRet Parser := λ A a reader, (Ok a, reader).
#[export] Instance Parser_bind : MBind Parser := λ A B k m reader,
  match m reader with
  | (Ok a, reader) => k a reader
  | (Err e, reader) => (Err e, reader)
  end.
Definition fail {A} (e : Failure) : Parser A := λ reader, (Err e, reader).
Definition protocol {A} (msg : bytes) : Parser A := fail (Cache (Protocol msg)).
Definition or_protocol {A} (o : option A) (msg : bytes) : Parser A :=
  match o with Some a => mret a | None => protocol msg end.

(** ** Reading *)

(** Up to and with the next line feed, or to the end of the stream. *)
Fixpoint read_until_newline (reader : bytes) : bytes * bytes :=
  match reader with
  | [] => ([], [])
  | b :: reader =>
      if b =? 10 then ([b], reader)
      else let '(line, rest) := read_until_newline reader in (b :: line, rest)
  end.
(** [AsyncBufReadExt::read_line]: an error when the bytes are not UTF-8. *)
Definition read_line : Parser bytes := λ reader,
  let '(line, rest) := read_until_newline reader in
  if valid_utf8 line then (Ok line, rest) else (Err (Cache CacheIo), rest).
(** [AsyncReadExt::read_exact] into a buffer of [n] bytes *)
Definition read_exact (n : N) : Parser bytes := λ reader,
  if vlen reader <? n then (Err (Cache CacheIo), [])
  else (Ok (take (N.to_nat n) reader), drop (N.to_nat n) reader).

Definition is_crlf (b : N) : bool := (b =? 13) || (b =? 10).
(** [trim_end_matches(|c| c == '\r' || c == '\n')] *)
Fixpoint trim_end (line : bytes) : bytes :=
  match line with
  | [] => []
  | b :: line =>
      match trim_end line with
      | [] => if is_crlf b then [] else [b]
      | t => b :: t
      end
  end.

(** [vec![0u8; len + 2]] filled by [read_exact], then [truncate(len)] *)
Definition read_payload (len : usize) : Parser bytes :=
  buf ← read_exact (len +w 2); mret (vtruncate buf len).

Fixpoint position_space (l : bytes) : option nat :=
  match l with
  | [] => None
  | b :: l => if b =? 32 then Some O else S <$> position_space l
  end.

Section Parse.
Context `{FT : !F64Text}.
(** [format!("{:?}", prefix)] of a character *)
Context (debug_char : N → bytes).

(** The value behind a line [prefix :: rest]; the elements of an aggregate are read by the
    two parsers given. *)
Definition parse_value (parse_items : N → Parser (list Resp)) (parse_pairs : N → Parser (list (Resp * Resp)))
    (prefix : N) (rest : bytes) : Parser Resp :=
  if prefix =? 43 then mret (SimpleString rest)
  else if prefix =? 45 then mret (Error rest)
  else if prefix =? 58 then
    n ← or_protocol (parse_i64 rest) (str "Invalid integer"); mret (Integer n)
  else if prefix =? 36 then
    len ← or_protocol (parse_i64 rest) (str "Invalid bulk len");
    if (len =? -1)%Z then mret (BulkString None)
    else if (len <? 0)%Z then protocol (str "Invalid bulk length")
    else buf ← read_payload (Z.to_N len); mret (BulkString (Some buf))
  else if prefix =? 42 then
    count ← or_protocol (parse_i64 rest) (str "Invalid array len");
    if (count =? -1)%Z then mret (Array None)
    else if (count <? 0)%Z then protocol (str "Invalid array length")
    else items ← parse_items (Z.to_N count); mret (Array (Some items))
  else if prefix =? 95 then mret Null
  else if prefix =? 35 then
    if bool_decide (rest = str "t") then mret (Boolean true)
    else if bool_decide (rest = str "f") then mret (Boolean false)
    else protocol (str "Invalid boolean")
  else if prefix =? 44 then
    f ← or_protocol (parse_double rest) (str "Invalid double"); mret (Double f)
  else if prefix =? 40 then mret (BigNumber rest)
  else if prefix =? 33 then
    len ← or_protocol (parse_u64 rest) (str "Invalid blob error len");
    buf ← read_payload len;
    let sep := default (length buf) (position_space buf) in
    mret (BlobError (take sep buf) (drop sep buf))
  else if prefix =? 61 then
    len ← or_protocol (parse_u64 rest) (str "Invalid verbatim len");
    buf ← read_payload len;
    if vlen buf <? 4 then protocol (str "Verbatim too short")
    else mret (VerbatimString (take 3 buf) (drop 4 buf))
  else if prefix =? 37 then
    count ← or_protocol (parse_u64 rest) (str "Invalid map len");
    pairs ← parse_pairs count; mret (RMap pairs)
  else if prefix =? 126 then
    count ← or_protocol (parse_u64 rest) (str "Invalid set len");
    items ← parse_items count; mret (RSet items)
  else if prefix =? 62 then
    count ← or_protocol (parse_u64 rest) (str "Invalid push len");
    items ← parse_items count; mret (Push items)
  else protocol (str "Unknown RESP prefix: " ++ debug_char prefix).

Fixpoint parse_resp (fuel : nat) : Parser Resp :=
  match fuel with
  | O => fail OutOfFuel
  | S fuel =>
      line ← read_line;
      if bool_decide (line = []) then protocol (str "Connection closed")
      else
        match trim_end line with
        | [] => protocol (str "Empty line")
        | prefix :: rest =>
            if 128 <=? prefix then fail Panicked
            else parse_value (λ n, parse_items fuel n []) (λ n, parse_pairs fuel n []) prefix rest
        end
  end
with parse_items (fuel : nat) (count : N) (items : list Resp) : Parser (list Resp) :=
  match fuel with
  | O => fail OutOfFuel
  | S fuel =>
      if count =? 0 then mret items
      else item ← parse_resp fuel; parse_items fuel (count - 1) (items ++ [item])
  end
with parse_pairs (fuel : nat) (count : N) (pairs : list (Resp * Resp)) : Parser (list (Resp * Resp)) :=
  match fuel with
  | O => fail OutOfFuel
  | S fuel =>
      if count =? 0 then mret pairs
      else k ← parse_resp fuel; v ← parse_resp fuel; parse_pairs fuel (count - 1) (pairs ++ [(k, v)])
  end.

(** ** Commands *)

Definition parse_inline (line : bytes) : Parser (list bytes) :=
  if valid_utf8 line then
    match split_whitespace [] 0 line with
    | [] => protocol (str "Empty inline command")
    | args => mret args
    end
  else protocol (str "Non-UTF8 inline").

Fixpoint command_args (items : list Resp) : option (list bytes) :=
  match items with
  | [] => Some []
  | BulkString (Some b) :: items | SimpleString b :: items => cons b <$> command_args items
  | _ => None
  end.

Definition parse_command (fuel : nat) : Parser (list bytes) :=
  value ← parse_resp fuel;
  match value with
  | Array (Some items) =>
      args ← or_protocol (command_args items) (str "Expected bulk string in command array");
      match args with [] => protocol (str "Empty command") | _ => mret args end
  | SimpleString s => parse_inline s
  | _ => protocol (str "Expected array for command")
  end.
End Parse.

(** Twice the bytes to come are fuel for any value ([parse_resp_total]). *)
Definition parse_fuel (reader : bytes) : nat := 2 * length reader + 2.

(** ** Text lines *)

(** A text [read_line] returns whole: UTF-8, without a line feed, and not ending in a
    carriage return. *)
Definition reader_line (s : bytes) : bool :=
  valid_utf8 s && forallb (λ b, negb (b =? 10)) s && negb (bool_decide (last s = Some 13)).

Lemma read_until_line s rest : forallb (λ b, negb (b =? 10)) s = true →
  read_until_newline (s ++ crlf ++ rest) = (s ++ crlf, rest).
Proof.
  induction s as [|b s IH]; [done|]. cbn [forallb app read_until_newline]. intros [Hb Hs]%andb_true_iff.
  destruct (b =? 10); [done|]. by rewrite IH.
Qed.
Lemma trim_end_crlf l : trim_end (l ++ crlf) = trim_end l.
Proof. induction l as [|b l IH]; [done|]. cbn [app trim_end]. by rewrite IH. Qed.
Lemma trim_end_last l b : last l = Some b → is_crlf b = false → trim_end l = l.
Proof.
  intros Hl Hb. revert Hl. induction l as [|a [|c l] IH]; intros Hl; [done|simplify_eq/=; by rewrite Hb|].
  cbn [trim_end] in *. by rewrite IH.
Qed.
Lemma reader_line_last p s : is_crlf p = false → reader_line s = true → ∃ b, last (p :: s) = Some b ∧ is_crlf b = false.
Proof.
  intros Hp [[_ Hn]%andb_true_iff Hl]%andb_true_iff. apply negb_true_iff, bool_decide_eq_false in Hl.
  rewrite last_cons. destruct (last s) as [b|] eqn:Hs; [|by exists p]. exists b. split; [done|].
  apply last_Some in Hs as [l ->]. rewrite forallb_app in Hn. simpl in Hn. unfold is_crlf.
  destruct (N.eqb_spec b 13); [by subst|]. by destruct (b =? 10); rewrite ?andb_false_r in Hn.
Qed.

(** The line of a value: its type byte and its text. *)
Lemma read_value_line p s rest :
  p < 128 → is_crlf p = false → reader_line s = true →
  read_line (p :: s ++ crlf ++ rest) = (Ok (p :: s ++ crlf), rest) ∧ trim_end (p :: s ++ crlf) = p :: s.
Proof.
  intros Hp Hc Hs. split.
  - unfold read_line. pose proof Hs as Hs'. unfold reader_line in Hs'. rewrite !andb_true_iff in Hs'.
    destruct Hs' as [[Hv Hn] _].
    pose proof (read_until_line (p :: s) rest) as Hr. cbn [app forallb] in Hr. rewrite Hr.
    + assert (valid_utf8 (p :: s ++ crlf) = true) as ->; [|done]. apply (valid_utf8_app [p]).
      * apply valid_utf8_ascii. by constructor.
      * by apply valid_utf8_app.
    + rewrite Hn. unfold is_crlf in Hc. by destruct (p =? 10); rewrite ?orb_true_r in Hc.
  - change (p :: s ++ crlf) with ((p :: s) ++ crlf). rewrite trim_end_crlf. destruct (reader_line_last p s Hc Hs) as (b & Hb & Hbc). by eapply trim_end_last.
Qed.

(** What the number parsers accept is such a text. *)
Lemma reader_line_ascii s : Forall (λ b, 32 ≤ b < 127) s → reader_line s = true.
Proof.
  intros Hs. unfold reader_line. rewrite !andb_true_iff. split_and!.
  - apply valid_utf8_ascii. eapply Forall_impl; [done|]. simpl. lia.
  - apply Is_true_true, forallb_True, Forall_forall. intros b Hb. apply Is_true_true. rewrite Forall_forall in Hs. specialize (Hs b Hb).
    by destruct (N.eqb_spec b 10); [lia|].
  - apply negb_true_iff, bool_decide_eq_false. intros Hl%last_Some_elem_of. rewrite Forall_forall in Hs.
    specialize (Hs _ Hl). lia.
Qed.

Lemma parse_below_text bound l n : parse_below bound l = Some n → Forall (λ b, 32 ≤ b < 127) l.
Proof.
  unfold parse_below. destruct l as [|b l]; [done|].
  destruct (parse_digits 0 (b :: l)) eqn:Hp; [|done]. intros _. apply parse_digits_digits in Hp.
  by apply digits_ascii.
Qed.
Lemma parse_u64_text s n : parse_u64 s = Some n → reader_line s = true.
Proof.
  intros Hp. apply reader_line_ascii. revert Hp. unfold parse_u64. destruct s as [|b s]; [done|].
  destruct (N.eqb_spec b 43) as [->|]; intros Hp%parse_below_text; [constructor; [lia|done]|done].
Qed.
Lemma parse_i64_text s z : parse_i64 s = Some z → reader_line s = true.
Proof.
  intros Hp. apply reader_line_ascii. revert Hp. unfold parse_i64. destruct s as [|b s]; [done|].
  destruct (N.eqb_spec b 43) as [->|]; [|destruct (N.eqb_spec b 45) as [->|]];
    intros (? & Hp%parse_below_text & _)%fmap_Some; try (constructor; [lia|done]); done.
Qed.

(** ** The two parsers agree *)

Section Agree.
Context `{FT : !F64Text} `{SD : !StrDebug} `{FL : !F64TextLaws}.
Context (debug_char : N → bytes).

(** The values whose texts the reader returns whole.  An empty set is excluded: the decoder
    reads its length as a signed number and accepts [-0], the reader does not. *)
Fixpoint reader_ok (r : Resp) : bool :=
  match r with
  | SimpleString s | Error s | BigNumber s => reader_line s
  | Array (Some items) => forallb reader_ok items
  | RSet items | Push items => negb (bool_decide (items = [])) && forallb reader_ok items
  | RMap pairs => forallb (λ p, reader_ok p.1 && reader_ok p.2) pairs
  | _ => true
  end.

Lemma parse_resp_line fuel p s rest :
  p < 128 → is_crlf p = false → reader_line s = true →
  parse_resp debug_char (S fuel) (p :: s ++ crlf ++ rest) =
  parse_value debug_char (λ n, parse_items debug_char fuel n []) (λ n, parse_pairs debug_char fuel n []) p s rest.
Proof.
  intros Hp Hc Hs. destruct (read_value_line p s rest Hp Hc Hs) as [Hr Ht]. cbn [parse_resp].
  unfold mbind, Parser_bind at 1. rewrite Hr, Ht. rewrite bool_decide_eq_false_2 by done.
  by destruct (N.leb_spec 128 p); [lia|].
Qed.

Lemma find_crlf_split src i : find_crlf src = Some i → src = take i src ++ crlf ++ drop (i + 2) src.
Proof.
  revert i. induction src as [|a [|b src] IH]; intros i; [done|done|]. rewrite find_crlf_cons.
  destruct (N.eqb_spec a 13) as [->|]; [destruct (N.eqb_spec b 10) as [->|]|]; cbn [andb].
  1: by intros [= <-].
  all: intros (j & Hj & ->)%fmap_Some; simpl; f_equal; by apply IH.
Qed.

Lemma find_crlf_inv src i : find_crlf src = Some i →
  ∃ s rest, src = s ++ crlf ++ rest ∧ s = take i src ∧ length s = i ∧ drop (i + 2) src = rest.
Proof.
  intros Hi. exists (take i src), (drop (i + 2) src). pose proof (find_crlf_bound src i Hi).
  split_and!; [by apply find_crlf_split|done|rewrite length_take; lia|done].
Qed.
Lemma decode_text_inv {T} src m (p : bytes → result FrameError T) v c :
  decode_text src m p = Ok (Some (v, c)) →
  ∃ s rest, src = s ++ crlf ++ rest ∧ valid_utf8 s = true ∧ p s = Ok v ∧ c = (length s + 2)%nat ∧ drop c src = rest.
Proof.
  unfold decode_text. destruct (find_crlf src) as [i|] eqn:Hi; [|done].
  destruct (find_crlf_inv src i Hi) as (s & rest & Hsrc & <- & Hlen & Hdrop).
  destruct (valid_utf8 s) eqn:Hv; [|done]. destruct (p s) as [n|] eqn:Hp; [|done]. simpl. intros [= <- <-].
  exists s, rest. rewrite Hlen. done.
Qed.
Lemma decode_simple_string_inv src v c :
  decode_simple_string src = Ok (Some (v, c)) → ∃ rest, src = v ++ crlf ++ rest ∧ c = (length v + 2)%nat ∧ drop c src = rest.
Proof.
  unfold decode_simple_string. destruct (find_crlf src) as [i|] eqn:Hi; [|done].
  destruct (find_crlf_inv src i Hi) as (s & rest & Hsrc & <- & Hlen & Hdrop). intros [= <- <-].
  exists rest. by rewrite Hlen.
Qed.
Lemma step_map_inv {A B} (f : A → B) n (r : DecodeStep A) v c :
  step_map f n r = Ok (Some (v, c)) → ∃ a c', r = Ok (Some (a, c')) ∧ v = f a ∧ c = (n + c')%nat.
Proof. destruct r as [[[a c']|]|]; simpl; intros; simplify_eq. by eexists _, _. Qed.
Lemma ok_or_inv {E A} (o : option A) (e : E) a : ok_or o e = Ok a → o = Some a.
Proof. destruct o; simpl; congruence. Qed.

(** The lengths agree. *)
Lemma parse_i64_u64 s z : parse_i64 s = Some z → (0 < z)%Z → parse_u64 s = Some (Z.to_N z).
Proof.
  unfold parse_i64, parse_u64, parse_below. destruct s as [|b s]; [done|].
  destruct (b =? 43); [|destruct (b =? 45)].
  - destruct s as [|d s]; [done|]. destruct (parse_digits 0 (d :: s)) as [n|]; [|done]. simpl.
    destruct (N.leb_spec n 9223372036854775807); [|done]. intros [= <-] _. rewrite N2Z.id.
    by destruct (N.leb_spec n u64_max); [|unfold u64_max in *; lia].
  - intros (n & _ & ->)%fmap_Some. lia.
  - destruct (parse_digits 0 (b :: s)) as [n|]; [|done]. simpl.
    destruct (N.leb_spec n 9223372036854775807); [|done]. intros [= <-] _. rewrite N2Z.id.
    by destruct (N.leb_spec n u64_max); [|unfold u64_max in *; lia].
Qed.
Lemma parse_i64_below s z : parse_i64 s = Some z → (z < 9223372036854775808)%Z.
Proof.
  unfold parse_i64, parse_below. destruct s as [|b s]; [done|].
  destruct (b =? 43); [|destruct (b =? 45)]; intros (n & Hn & ->)%fmap_Some; [| |revert Hn].
  - destruct s as [|d s]; [done|]. destruct (parse_digits 0 (d :: s)) as [k|]; [|done]. simpl in Hn.
    destruct (N.leb_spec k 9223372036854775807); simplify_eq. lia.
  - lia.
  - destruct (parse_digits 0 (b :: s)) as [k|]; [|done]. simpl.
    destruct (N.leb_spec k 9223372036854775807); [|done]. intros [= <-]. lia.
Qed.

Context (max : usize).

(** The reader reads [r] in the first [n] bytes of [src]. *)
Definition reads (src : bytes) (r : Resp) (n : nat) : Prop :=
  (1 ≤ n)%nat ∧
  (reader_ok r = true → ∀ fuel, (2 * n + 1 < fuel)%nat → parse_resp debug_char fuel src = (Ok r, drop n src)).

Definition resp_sim (df : nat) : Prop := ∀ src r n,
  decode_resp df max src = Some (Ok (Some (r, n))) → reads src r n.
Definition items_sim (df : nat) : Prop := ∀ count src pos acc items n,
  decode_items df max count src pos acc = Some (Ok (Some (items, n))) →
  (pos ≤ n)%nat ∧ (∃ l, items = acc ++ l ∧ vlen l = count) ∧
  (forallb reader_ok items = true → ∀ fuel, (2 * (n - pos) + 2 < fuel)%nat →
   parse_items debug_char fuel count acc (drop pos src) = (Ok items, drop n src)).
Definition pairs_sim (df : nat) : Prop := ∀ count src pos acc pairs n,
  decode_pairs df max count src pos acc = Some (Ok (Some (pairs, n))) →
  (pos ≤ n)%nat ∧ acc `prefix_of` pairs ∧
  (forallb (λ p, reader_ok p.1 && reader_ok p.2) pairs = true → ∀ fuel, (2 * (n - pos) + 2 < fuel)%nat →
   parse_pairs debug_char fuel count acc (drop pos src) = (Ok pairs, drop n src)).

Lemma drop_line s rest : drop (length s + 2) (s ++ crlf ++ rest) = rest.
Proof. rewrite app_assoc. apply drop_app_length'. by rewrite length_app. Qed.

Lemma reads_line p s rest r :
  p < 128 → is_crlf p = false → (reader_ok r = true → reader_line s = true) →
  (∀ pi pp, parse_value debug_char pi pp p s rest = (Ok r, rest)) →
  reads (p :: s ++ crlf ++ rest) r (1 + (length s + 2)).
Proof.
  intros Hp Hc Hs Hv. split; [lia|]. intros Hok [|fuel] Hf; [lia|].
  rewrite parse_resp_line, Hv by auto. cbn [Nat.add drop]. by rewrite drop_line.
Qed.

Lemma reads_items df p s rest count items n (w : list Resp → Resp) :
  items_sim df → p < 128 → is_crlf p = false → reader_line s = true →
  (reader_ok (w items) = true → forallb reader_ok items = true ∧
   ∀ pi pp, parse_value debug_char pi pp p s = pi count ≫= λ items, mret (w items)) →
  decode_items df max count (s ++ crlf ++ rest) (length s + 2) [] = Some (Ok (Some (items, n))) →
  reads (p :: s ++ crlf ++ rest) (w items) (1 + n).
Proof.
  intros Hi Hp Hc Hs Hw (Hn & _ & Hd)%Hi. split; [lia|]. intros [Hok Hv]%Hw [|fuel] Hf; [lia|].
  rewrite parse_resp_line, Hv by auto. rewrite drop_line in Hd. unfold mbind, Parser_bind.
  rewrite Hd by (done || lia). done.
Qed.
Lemma reads_pairs df p s rest count pairs n (w : list (Resp * Resp) → Resp) :
  pairs_sim df → p < 128 → is_crlf p = false → reader_line s = true →
  (reader_ok (w pairs) = true → forallb (λ p, reader_ok p.1 && reader_ok p.2) pairs = true ∧
   ∀ pi pp, parse_value debug_char pi pp p s = pp count ≫= λ pairs, mret (w pairs)) →
  decode_pairs df max count (s ++ crlf ++ rest) (length s + 2) [] = Some (Ok (Some (pairs, n))) →
  reads (p :: s ++ crlf ++ rest) (w pairs) (1 + n).
Proof.
  intros Hi Hp Hc Hs Hw (Hn & _ & Hd)%Hi. split; [lia|]. intros [Hok Hv]%Hw [|fuel] Hf; [lia|].
  rewrite parse_resp_line, Hv by auto. rewrite drop_line in Hd. unfold mbind, Parser_bind.
  rewrite Hd by (done || lia). done.
Qed.

Lemma reads_bulk src r n :
  decode_bulk_string src = Ok (Some (r, n)) → reads (36 :: src) (BulkString r) (1 + n).
Proof.
  unfold decode_bulk_string. set (d := decode_text _ _ _). destruct d as [[[len c]|]|e] eqn:Hd; try done.
  apply decode_text_inv in Hd as (s & rest & -> & _ & Hp%ok_or_inv & -> & Hdrop).
  assert (Hs : reader_line s = true) by by eapply parse_i64_text.
  destruct (Z.eqb_spec len (-1)) as [->|Hne].
  { intros [= <- <-]. apply reads_line; try done. intros pi pp. unfold parse_value. cbn [N.eqb Pos.eqb].
    by rewrite Hp. }
  destruct (Z.ltb_spec len 0); [done|]. destruct (N.ltb_spec (vlen (s ++ crlf ++ rest)) (N.of_nat (length s + 2) + Z.to_N len + 2)) as [|Hlen]; [done|].
  destruct (negb _); [done|]. intros [= <- <-]. split; [lia|]. intros _ [|fuel] Hf; [lia|].
  rewrite parse_resp_line by done. unfold parse_value. cbn [N.eqb Pos.eqb]. rewrite Hp.
  unfold mbind, Parser_bind, or_protocol, mret, Parser_ret.
  destruct (Z.eqb_spec len (-1)); [done|]. destruct (Z.ltb_spec len 0); [lia|].
  apply parse_i64_below in Hp. unfold read_payload, read_exact, mbind, Parser_bind.
  rewrite u64_add_small by (unfold u64_modulus; lia).
  assert (Hl : Z.to_N len + 2 ≤ vlen rest).
  { rewrite !vlen_app in Hlen. change (vlen crlf) with 2 in Hlen. unfold vlen in *. lia. }
  destruct (N.ltb_spec (vlen rest) (Z.to_N len + 2)); [lia|]. unfold mret, Parser_ret.
  rewrite vtruncate_take, take_take. apply pair_equal_spec. split.
  - unfold vslice. change (13 :: 10 :: rest) with (crlf ++ rest). rewrite Nat2N.id, drop_line. do 4 f_equal. lia.
  - change (drop (1 + ?k) (36 :: ?l)) with (drop k l). rewrite <- (drop_line s rest) at 1.
    rewrite drop_drop. f_equal. lia.
Qed.

Lemma decode_array_inv (items : N → nat → option (DecodeStep (list Resp))) src a c :
  decode_array items src = Some (Ok (Some (a, c))) →
  ∃ s rest z, src = s ++ crlf ++ rest ∧ reader_line s = true ∧ parse_i64 s = Some z ∧
    ((z = -1)%Z ∧ a = None ∧ c = (length s + 2)%nat ∨
     (0 ≤ z)%Z ∧ ∃ l, a = Some l ∧ items (Z.to_N z) (length s + 2)%nat = Some (Ok (Some (l, c)))).
Proof.
  unfold decode_array. set (d := decode_text _ _ _). destruct d as [[[z k]|]|e] eqn:Hd; try done.
  apply decode_text_inv in Hd as (s & rest & -> & _ & Hp%ok_or_inv & -> & Hdrop). intros H.
  exists s, rest, z. split_and!; [done|by eapply parse_i64_text|done|]. revert H.
  destruct (Z.eqb_spec z (-1)) as [->|]; [intros [= <- <-]; by left|]. destruct (Z.ltb_spec z 0); [done|].
  intros (r & Hr & (l & c' & -> & -> & ->)%eq_sym%step_map_inv)%fmap_Some. right. eauto.
Qed.
Lemma decode_map_inv (pairs : N → nat → option (DecodeStep (list (Resp * Resp)))) src l c :
  decode_map pairs src = Some (Ok (Some (l, c))) →
  ∃ s rest z, src = s ++ crlf ++ rest ∧ reader_line s = true ∧ parse_u64 s = Some z ∧
    pairs z (length s + 2)%nat = Some (Ok (Some (l, c))).
Proof.
  unfold decode_map. set (d := decode_text _ _ _). destruct d as [[[z k]|]|e] eqn:Hd; try done.
  apply decode_text_inv in Hd as (s & rest & -> & _ & Hp%ok_or_inv & -> & Hdrop). intros H.
  exists s, rest, z. split_and!; [done|by eapply parse_u64_text|done|done].
Qed.
Lemma decode_payload_inv r l c :
  decode_array_payload r = Ok (Some (l, c)) → r = Ok (Some (Some l, c)).
Proof. destruct r as [[[[] ?]|]|]; naive_solver. Qed.

Lemma parse_double_text s f : parse_double s = Some f → reader_line s = true.
Proof.
  unfold parse_double. destruct (bool_decide_reflect (s = str "inf")) as [->|_]; [done|].
  destruct (bool_decide_reflect (s = str "+inf")) as [->|_]; [done|]. cbn [orb].
  destruct (bool_decide_reflect (s = str "-inf")) as [->|_]; [done|].
  intros H%f64_parse_ascii. by apply reader_line_ascii.
Qed.

Lemma forallb_middle {A} (f : A → bool) l x k : forallb f ((l ++ [x]) ++ k) = true → f x = true.
Proof. rewrite !forallb_app. simpl. rewrite !andb_true_iff. tauto. Qed.

Lemma items_sim_step df : resp_sim df → items_sim df → items_sim (S df).
Proof.
  intros Hr Hi count src pos acc items n. rewrite decode_items_S.
  destruct (N.eqb_spec count 0) as [->|Hc].
  { intros [= <- <-]. split_and!; [lia|exists []; by rewrite app_nil_r|]. intros _ [|fuel] Hf; [lia|]. done. }
  destruct (decode_resp df max (drop pos src)) as [[[[item c]|]|]|] eqn:Hd; try done.
  intros (Hn & (l & -> & Hl) & Hit)%Hi. destruct (Hr _ _ _ Hd) as [Hc1 Hitem]. split_and!; [lia| |].
  { exists (item :: l). rewrite <- app_assoc, vlen_cons. split; [done|lia]. }
  intros Hok [|fuel] Hf; [lia|]. cbn [parse_items]. destruct (N.eqb_spec count 0); [done|].
  unfold mbind, Parser_bind. rewrite Hitem; [|by apply (forallb_middle _ _ _ _ Hok)|lia].
  rewrite drop_drop. apply Hit; [done|lia].
Qed.
Lemma pairs_sim_step df : resp_sim df → pairs_sim df → pairs_sim (S df).
Proof.
  intros Hr Hi count src pos acc pairs n. rewrite decode_pairs_S.
  destruct (N.eqb_spec count 0) as [->|Hc].
  { intros [= <- <-]. split_and!; [lia|done|]. intros _ [|fuel] Hf; [lia|]. done. }
  destruct (decode_resp df max (drop pos src)) as [[[[k c]|]|]|] eqn:Hk; try done.
  destruct (decode_resp df max (drop (pos + c) src)) as [[[[v c2]|]|]|] eqn:Hv; try done.
  intros (Hn & [l ->] & Hit)%Hi. destruct (Hr _ _ _ Hk) as [Hc1 Hkey], (Hr _ _ _ Hv) as [Hc2 Hval]. split_and!; [lia| |].
  { rewrite <- app_assoc. by eexists. }
  intros Hok [|fuel] Hf; [lia|]. cbn [parse_pairs]. destruct (N.eqb_spec count 0); [done|].
  pose proof (forallb_middle _ _ _ _ Hok) as [Hok1 Hok2]%andb_true_iff. simpl in Hok1, Hok2.
  unfold mbind, Parser_bind. rewrite Hkey, drop_drop, Hval, drop_drop by (done || lia). apply Hit; [done|lia].
Qed.

(** A value that is one line: its text is [s], and [parse_value] makes it of that text. *)
Ltac one_line := apply reads_line; [lia|done|cbn [reader_ok]|].
Ltac value_of Hp := intros; unfold parse_value; cbn [N.eqb Pos.eqb]; rewrite ?Hp; reflexivity.

Lemma array_reads df src a n :
  items_sim df → decode_array (λ k c, decode_items df max k src c []) src = Some (Ok (Some (a, n))) →
  reads (42 :: src) (Array a) (1 + n).
Proof.
  intros Hi (s & rest & z & -> & Hs & Hp & [(-> & -> & ->)|(Hz & l & -> & Hl)])%decode_array_inv.
  - one_line; [done|]. value_of Hp.
  - eapply (reads_items df 42 s rest _ _ _ (λ l, Array (Some l))); try done. intros Hok. split; [done|].
    intros pi pp. unfold parse_value. cbn [N.eqb Pos.eqb]. rewrite Hp. unfold or_protocol, mbind, Parser_bind at 1, mret at 1, Parser_ret at 1.
    by destruct (Z.eqb_spec z (-1)), (Z.ltb_spec z 0); try lia.
Qed.
Lemma set_reads df src l n p w :
  items_sim df → (p = 126 ∧ w = RSet ∨ p = 62 ∧ w = Push) →
  decode_array (λ k c, decode_items df max k src c []) src = Some (Ok (Some (Some l, n))) →
  reads (p :: src) (w l) (1 + n).
Proof.
  intros Hi Hw (s & rest & z & -> & Hs & Hp & [(_ & ? & _)|(Hz & ? & [= <-] & Hl)])%decode_array_inv; [done|].
  pose proof (Hi _ _ _ _ _ _ Hl) as (_ & (l' & Hl' & Hv) & _). simpl in Hl'. subst l'.
  eapply (reads_items df p s rest _ _ _ w Hi); try done; [destruct Hw as [[-> _]|[-> _]]; done..|].
  intros Hok. assert (forallb reader_ok l = true ∧ l ≠ []) as [Hf Hne].
  { destruct Hw as [[_ ->]|[_ ->]]; simpl in Hok; apply andb_true_iff in Hok as [H1 H2];
      apply negb_true_iff, bool_decide_eq_false in H1; done. }
  split; [done|]. intros pi pp. apply parse_i64_u64 in Hp; [|destruct l; [done|rewrite vlen_cons in Hv; lia]].
  unfold parse_value. destruct Hw as [[-> ->]|[-> ->]]; cbn [N.eqb Pos.eqb]; by rewrite Hp.
Qed.
Lemma map_reads df src l n :
  pairs_sim df → decode_map (λ k c, decode_pairs df max k src c []) src = Some (Ok (Some (l, n))) →
  reads (37 :: src) (RMap l) (1 + n).
Proof.
  intros Hi (s & rest & z & -> & Hs & Hp & Hl)%decode_map_inv.
  eapply (reads_pairs df 37 s rest _ _ _ RMap); try done. intros Hok. split; [done|]. value_of Hp.
Qed.

Lemma null_reads src u n : decode_terminator src = Ok (Some (u, n)) → reads (95 :: src) Null (1 + n).
Proof.
  unfold decode_terminator. destruct (length src <? 2)%nat; [done|].
  destruct (bool_decide_reflect (take 2 src = crlf)) as [Ht|]; [|done]. intros [= _ <-].
  rewrite <- (take_drop 2 src), Ht. apply (reads_line 95 [] (drop 2 src)); [lia|done..].
Qed.
Lemma boolean_reads src b n : decode_boolean src = Ok (Some (b, n)) → reads (35 :: src) (Boolean b) (1 + n).
Proof.
  unfold decode_boolean. destruct (find_crlf src) as [i|] eqn:Hi; [|done].
  destruct (find_crlf_inv src i Hi) as (s & rest & -> & <- & <- & _).
  destruct (bool_decide_reflect (s = str "t")) as [->|]; [|destruct (bool_decide_reflect (s = str "f")) as [->|]; [|done]];
    intros [= <- <-]; by apply reads_line.
Qed.

Lemma resp_sim_step df : items_sim df → pairs_sim df → resp_sim (S df).
Proof.
  intros Hi Hp [|prefix src] r n; [done|]. destruct (N.le_gt_cases (vlen (prefix :: src)) max) as [Hm|Hm].
  2: { cbn [decode_resp]. by destruct (N.ltb_spec max (vlen (prefix :: src))); [|lia]. }
  rewrite decode_resp_S by done. cbv zeta.
  destruct (N.eqb_spec prefix 43) as [->|_].
  { intros [= (s & c & (rest & -> & -> & _)%decode_simple_string_inv & -> & ->)%step_map_inv]. one_line; by intros. }
  destruct (N.eqb_spec prefix 45) as [->|_].
  { intros [= (s & c & (s' & rest & -> & _ & [= <-] & -> & _)%decode_text_inv & -> & ->)%step_map_inv]. one_line; by intros. }
  destruct (N.eqb_spec prefix 58) as [->|_].
  { intros [= (z & c & (s & rest & -> & _ & Hz%ok_or_inv & -> & _)%decode_text_inv & -> & ->)%step_map_inv].
    one_line; [by intros; eapply parse_i64_text|]. value_of Hz. }
  destruct (N.eqb_spec prefix 36) as [->|_].
  { intros [= (s & c & Hb & -> & ->)%step_map_inv]. by apply reads_bulk. }
  destruct (N.eqb_spec prefix 42) as [->|_].
  { intros (d & Hd & (a & c & -> & -> & ->)%eq_sym%step_map_inv)%fmap_Some. by eapply array_reads. }
  destruct (N.eqb_spec prefix 95) as [->|_].
  { intros [= (u & c & Hb & -> & ->)%step_map_inv]. by eapply null_reads. }
  destruct (N.eqb_spec prefix 35) as [->|_].
  { intros [= (b & c & Hb & -> & ->)%step_map_inv]. by apply boolean_reads. }
  destruct (N.eqb_spec prefix 44) as [->|_].
  { intros [= (f & c & (s & rest & -> & _ & Hf%ok_or_inv & -> & _)%decode_text_inv & -> & ->)%step_map_inv].
    one_line; [by intros; eapply parse_double_text|]. value_of Hf. }
  destruct (N.eqb_spec prefix 40) as [->|_].
  { intros [= (s & c & (rest & -> & -> & _)%decode_simple_string_inv & -> & ->)%step_map_inv]. one_line; by intros. }
  destruct (N.eqb_spec prefix 37) as [->|_].
  { intros (d & Hd & (a & c & -> & -> & ->)%eq_sym%step_map_inv)%fmap_Some. by eapply map_reads. }
  destruct (N.eqb_spec prefix 126) as [->|_].
  { intros (d & Hd & (a & c & ->%decode_payload_inv & -> & ->)%eq_sym%step_map_inv)%fmap_Some. eapply set_reads; eauto. }
  destruct (N.eqb_spec prefix 62) as [->|_]; [|done].
  intros (d & Hd & (a & c & ->%decode_payload_inv & -> & ->)%eq_sym%step_map_inv)%fmap_Some. eapply set_reads; eauto.
Qed.

Lemma decode_sim df : resp_sim df ∧ items_sim df ∧ pairs_sim df.
Proof.
  induction df as [|df (Hr & Hi & Hp)]; [by split_and!; intros ?*|].
  split_and!; [by apply resp_sim_step|by apply items_sim_step|by apply pairs_sim_step].
Qed.

Lemma decoder_reader src r n :
  decode_resp_all max src = Ok (Some (r, n)) → reader_ok r = true →
  parse_resp debug_char (parse_fuel src) src = (Ok r, drop n src).
Proof.
  intros Hd Hok. destruct (decode_resp_total max src) as [Ht Hb]. destruct (Hb _ _ Hd) as [_ Hn].
  rewrite Hd in Ht. destruct (decode_sim (S (length src))) as (Hs & _).
  destruct (Hs _ _ _ Ht) as [_ Hr]. apply Hr; [done|]. unfold parse_fuel. lia.
Qed.

(** The two RESP parsers of the crate agree.  Whatever value the incremental decoder
    finds at the front of a buffer, the reader that serves the connections reads the same
    value from the same bytes and stops at the same place, for every value whose texts hold
    no line feed (and no empty set, whose length the decoder reads as a signed number). *)
Theorem decoders_agree src r n :
  decode_resp_all max src = Ok (Some (r, n)) → reader_ok r = true →
  parse_resp debug_char (parse_fuel src) src = (Ok r, drop n src).
Proof. apply decoder_reader. Qed.
End Agree.

Import ExactText.
Lemma decoders_agree_witness :
  let src := str "*2" ++ crlf ++ str "$3" ++ crlf ++ str "GET" ++ crlf ++ str "+k" ++ crlf ++ str ":1" in
  parse_resp (λ b, [39; b; 39]) (parse_fuel src) src =
  (Ok (Array (Some [BulkString (Some (str "GET")); SimpleString (str "k")])), str ":1").
Proof.
  intros src. rewrite (decoders_agree (SD := id) (λ b, [39; b; 39]) 100 src (Array (Some [BulkString (Some (str "GET")); SimpleString (str "k")])) 17).
  - vm_compute. reflexivity.
  - vm_compute. reflexivity.
  - vm_compute. reflexivity.
Defined.

(** ** The reader terminates *)

Section Total.
Context `{FT : !F64Text}.
Context (debug_char : N → bytes).

(** A parser that leaves at most [k] bytes, and has fuel. *)
Definition within {A} (k : nat) (r : result Failure A * bytes) : Prop :=
  match r with (Ok _, rest) => (length rest ≤ k)%nat | (Err e, _) => e ≠ OutOfFuel end.

Lemma within_bind {A B} (m : Parser A) (f : A → Parser B) reader k k' :
  within k' (m reader) → (∀ a rest, (length rest ≤ k')%nat → within k (f a rest)) → within k ((m ≫= f) reader).
Proof. unfold within, mbind, Parser_bind. destruct (m reader) as [[a|e] rest]; [|done]. intros Hm Hf. by apply Hf. Qed.
Lemma within_le {A} (r : result Failure A * bytes) k k' : within k r → (k ≤ k')%nat → within k' r.
Proof. unfold within. destruct r as [[] ?]; [lia|done]. Qed.
Lemma within_protocol {A} k m reader : within k (protocol (A := A) m reader).
Proof. done. Qed.
Lemma within_or {A} (o : option A) m reader k : (length reader ≤ k)%nat → within k (or_protocol o m reader).
Proof. by destruct o. Qed.
Lemma within_ret {A} (a : A) reader k : (length reader ≤ k)%nat → within k ((mret a : Parser A) reader).
Proof. done. Qed.
Lemma within_payload n reader k : (length reader ≤ k)%nat → within k (read_payload n reader).
Proof.
  intros Hk. apply (within_bind _ _ _ _ k); [|by intros]. unfold read_exact.
  destruct (vlen reader <? n +w 2); [done|]. simpl. rewrite length_drop. lia.
Qed.

Lemma read_until_length reader line rest :
  read_until_newline reader = (line, rest) → (length line + length rest = length reader)%nat.
Proof.
  revert line rest. induction reader as [|b reader IH]; intros line rest; simpl; [by intros [= <- <-]|].
  destruct (b =? 10); [by intros [= <- <-]|]. destruct (read_until_newline reader) as [l k] eqn:Hr.
  intros [= <- <-]. simpl. by rewrite (IH _ _ eq_refl).
Qed.

Lemma parse_value_within k (pi : N → Parser (list Resp)) (pp : N → Parser (list (Resp * Resp))) p s reader :
  (∀ n reader, (length reader ≤ k)%nat → within k (pi n reader)) →
  (∀ n reader, (length reader ≤ k)%nat → within k (pp n reader)) →
  (length reader ≤ k)%nat → within k (parse_value debug_char pi pp p s reader).
Proof.
  intros Hi Hp Hk. unfold parse_value.
  repeat first
    [ apply within_ret; lia | apply within_protocol | by apply within_or | by apply within_payload
    | by apply Hi | by apply Hp | apply (within_bind _ _ _ _ k) | progress intros | case_match | done ].
Qed.

Lemma parse_resp_S fuel :
  parse_resp debug_char (S fuel) =
  line ← read_line;
  if bool_decide (line = []) then protocol (str "Connection closed")
  else
    match trim_end line with
    | [] => protocol (str "Empty line")
    | prefix :: rest =>
        if 128 <=? prefix then fail Panicked
        else parse_value debug_char (λ n, parse_items debug_char fuel n []) (λ n, parse_pairs debug_char fuel n []) prefix rest
    end.
Proof. done. Qed.

Lemma parse_items_S fuel n acc :
  parse_items debug_char (S fuel) n acc =
  if n =? 0 then mret acc
  else item ← parse_resp debug_char fuel; parse_items debug_char fuel (n - 1) (acc ++ [item]).
Proof. done. Qed.
Lemma parse_pairs_S fuel n acc :
  parse_pairs debug_char (S fuel) n acc =
  if n =? 0 then mret acc
  else k ← parse_resp debug_char fuel; v ← parse_resp debug_char fuel; parse_pairs debug_char fuel (n - 1) (acc ++ [(k, v)]).
Proof. done. Qed.

(** Fuel of twice the bytes to come is enough, and every value read is at least a byte. *)
Lemma parse_total fuel :
  (∀ reader, (2 * length reader + 1 < fuel)%nat →
     match parse_resp debug_char fuel reader with (Ok _, rest) => (length rest < length reader)%nat | (Err e, _) => e ≠ OutOfFuel end) ∧
  (∀ n acc reader, (2 * length reader + 2 < fuel)%nat → within (length reader) (parse_items debug_char fuel n acc reader)) ∧
  (∀ n acc reader, (2 * length reader + 2 < fuel)%nat → within (length reader) (parse_pairs debug_char fuel n acc reader)).
Proof.
  induction fuel as [|fuel (Hr & Hi & Hp)]; [split_and!; intros; lia|]. split_and!.
  - intros reader Hf. rewrite parse_resp_S. unfold mbind, Parser_bind at 1, read_line.
    destruct (read_until_newline reader) as [line rest] eqn:Hl. apply read_until_length in Hl.
    destruct (valid_utf8 line); [|done]. destruct (bool_decide_reflect (line = [])) as [|Hne]; [done|].
    assert (length rest < length reader)%nat by (destruct line; [done|simpl in Hl; lia]).
    destruct (trim_end line) as [|p s]; [done|]. destruct (128 <=? p); [done|].
    match goal with |- context [parse_value ?d ?pi ?pp ?p ?s ?r] =>
      pose proof (parse_value_within (length rest) pi pp p s r) as Hv; destruct (parse_value d pi pp p s r) as [[v|e] rest'] end.
    + cut (length rest' ≤ length rest)%nat; [lia|]. apply Hv; [| |lia]; intros n k Hk;
        [pose proof (Hi n [] k ltac:(lia)) as H'|pose proof (Hp n [] k ltac:(lia)) as H']; eapply within_le; eauto.
    + apply Hv; [| |lia]; intros n k Hk;
        [pose proof (Hi n [] k ltac:(lia)) as H'|pose proof (Hp n [] k ltac:(lia)) as H']; eapply within_le; eauto.
  - intros n acc reader Hf. rewrite parse_items_S. destruct (n =? 0); [by apply within_ret|].
    pose proof (Hr reader ltac:(lia)) as H'. unfold mbind, Parser_bind. destruct (parse_resp debug_char fuel reader) as [[v|e] rest]; [|done].
    pose proof (Hi (n - 1) (acc ++ [v]) rest ltac:(lia)) as H2. eapply within_le; [done|lia].
  - intros n acc reader Hf. rewrite parse_pairs_S. destruct (n =? 0); [by apply within_ret|].
    pose proof (Hr reader ltac:(lia)) as H'. unfold mbind, Parser_bind. destruct (parse_resp debug_char fuel reader) as [[k|e] rest]; [|done].
    pose proof (Hr rest ltac:(lia)) as H3. destruct (parse_resp debug_char fuel rest) as [[v|e] rest']; [|done].
    pose proof (Hp (n - 1) (acc ++ [(k, v)]) rest' ltac:(lia)) as H2. eapply within_le; [done|lia].
Qed.

Lemma parse_resp_total reader :
  match parse_resp debug_char (parse_fuel reader) reader with
  | (Ok _, rest) => (length rest < length reader)%nat
  | (Err e, _) => e ≠ OutOfFuel
  end.
Proof. apply parse_total. unfold parse_fuel. lia. Qed.
End Total.

(** ** Commands *)

Section Commands.
Context `{FT : !F64Text} `{FL : !F64TextLaws}.
Context (debug_char : N → bytes).

(** A command as clients send it: an array of bulk strings. *)
Definition command_resp (args : list bytes) : Resp := Array (Some ((λ a, BulkString (Some a)) <$> args)).

Lemma command_args_bulk args : command_args ((λ a, BulkString (Some a)) <$> args) = Some args.
Proof. induction args as [|a args IH]; [done|]. rewrite fmap_cons. cbn [command_args]. by rewrite IH. Qed.

Lemma command_resp_ok args :
  vlen args < 9223372036854775808 → Forall (λ a, vlen a < 9223372036854775808) args →
  resp_ok (command_resp args) = true ∧ reader_ok (command_resp args) = true.
Proof.
  intros Hn Ha. cbn [resp_ok reader_ok command_resp]. rewrite andb_true_iff. split; [split|].
  - apply N.ltb_lt. unfold vlen in *. by rewrite length_fmap.
  - clear Hn. induction Ha as [|a args Ha _ IH]; [done|]. rewrite fmap_cons. cbn [forallb resp_ok].
    rewrite IH, andb_true_r. by apply N.ltb_lt.
  - clear. induction args as [|a args IH]; [done|]. rewrite fmap_cons. cbn [forallb reader_ok]. done.
Qed.

(** Commands arrive as sent.  A command of at least one argument, sent as an array of
    bulk strings, is read back argument by argument whatever bytes the arguments hold, and
    the reader is left at the first byte behind it, where the next command begins. *)
Theorem command_delivered args more :
  args ≠ [] → vlen args < 9223372036854775808 → Forall (λ a, vlen a < 9223372036854775808) args →
  let stream := encode_resp (command_resp args) ++ more in
  parse_command debug_char (parse_fuel stream) stream = (Ok args, more).
Proof.
  intros Hne Hn Ha stream. unfold parse_command, mbind, Parser_bind.
  pose proof (command_resp_ok args Hn Ha) as [Hok Hr].
  pose proof (decode_resp_all_encode (SD := id) (vlen stream) (command_resp args) more Hok (N.le_refl _)) as Hd.
  rewrite (decoder_reader (SD := id) debug_char (vlen stream) stream (command_resp args) _ Hd Hr).
  unfold stream. rewrite drop_app_length. unfold command_resp. pose proof (command_args_bulk args) as Hb.
  cbv beta iota. rewrite Hb. by destruct args.
Qed.
End Commands.

(** SET with a value that holds line ends, followed by the next command. *)
Lemma command_delivered_witness :
  let args := [str "SET"; str "k"; [13; 10; 42; 51; 13; 10]] in
  let next := encode_resp (command_resp [str "PING"]) in
  let stream := encode_resp (command_resp args) ++ next in
  parse_command (λ b, [39; b; 39]) (parse_fuel stream) stream = (Ok args, next).
Proof.
  intros args next. apply (command_delivered (λ b, [39; b; 39]) args next).
  - discriminate.
  - vm_compute. reflexivity.
  - repeat constructor.
Defined.
