(* ===== verification/RaftTypes.v ===== *)
(** * Types of the Raft crate

    [crates/compute/cave-ha/src/raft/types.rs], [raft/messages.rs], [error.rs],
    [config.rs] and the entry type of [raft/log.rs]: roles, membership
    configurations with their quorums, log entries, the wire messages, the
    configuration of a node. *)

From S2P Require Import Prelude Consensus.

Abbreviation Term := N (only parsing).
Abbreviation LogIndex := N (only parsing).
Abbreviation NodeId := N (only parsing).

Inductive Role : Set := Follower | PreCandidate | Candidate | Leader.
#[export] Instance Role_eq_dec : EqDecision Role.
Proof. solve_decision. Defined.

(** [impl Display for Role] *)
Definition role_to_string (r : Role) : string :=
  match r with
  | Follower => "Follower"
  | PreCandidate => "PreCandidate"
  | Candidate => "Candidate"
  | Leader => "Leader"
  end.

Record MembershipConfig : Type := mkMembershipConfig {
  voters : gset N;
  learners : gset N;
  voters_outgoing : option (gset N);
  auto_leave : bool
}.
#[export] Instance MembershipConfig_eq_dec : EqDecision MembershipConfig.
Proof. solve_decision. Defined.

(** [#[derive(Default)]] *)
Definition membership_default : MembershipConfig := mkMembershipConfig ∅ ∅ None false.

Record SnapshotMeta : Type := mkSnapshotMeta {
  sm_index : u64;
  sm_term : u64;
  sm_membership : MembershipConfig
}.
Definition snapshot_meta_default : SnapshotMeta := mkSnapshotMeta 0 0 membership_default.

Inductive EntryType : Set := Normal | MembershipChange | Barrier.
#[export] Instance EntryType_eq_dec : EqDecision EntryType.
Proof. solve_decision. Defined.

Record LogEntry : Type := mkLogEntry {
  e_index : u64;
  e_term : u64;
  e_type : EntryType;
  e_data : bytes
}.
#[export] Instance LogEntry_eq_dec : EqDecision LogEntry.
Proof. solve_decision. Defined.

Inductive HaError : Type :=
| NotLeader (leader_id : option N)
| NoQuorum
| LogCompacted (requested snapshot : u64)
| ProposalDropped
| TransferInProgress
| IsLearner
| MembershipChangePending
| NodeNotFound (id : N)
| Raft (m : Kernel.message)
| Storage (m : Kernel.message)
| Transport (m : Kernel.message)
| SnapshotErr (m : Kernel.message)
| Dr (m : Kernel.message)
| Timeout
| Shutdown
| Io (m : Kernel.message)
| Serialization (m : Kernel.message).

Definition HaResult (A : Type) : Type := result HaError A.

(** ** Quorums of a membership configuration *)

Module Membership.

Definition single (id : N) : MembershipConfig := mkMembershipConfig {[id]} ∅ None false.

Definition is_joint (c : MembershipConfig) : bool := bool_decide (is_Some (voters_outgoing c)).

Definition quorum (set_size : nat) : nat := (set_size / 2 + 1)%nat.

Definition votes_in (set votes : gset N) : nat :=
  length (filter (λ id, id ∈ votes) (btree_iter set)).

Definition has_quorum (c : MembershipConfig) (votes : gset N) : bool :=
  if (votes_in (voters c) votes <? quorum (size (voters c)))%nat then false
  else
    match voters_outgoing c with
    | Some old => negb (votes_in old votes <? quorum (size old))%nat
    | None => true
    end.

Definition all_nodes (c : MembershipConfig) : gset N :=
  voters c ∪ learners c ∪ default ∅ (voters_outgoing c).

Definition all_voters (c : MembershipConfig) : gset N :=
  voters c ∪ default ∅ (voters_outgoing c).

End Membership.

(** ** Messages *)

Record RequestVote : Type := mkRequestVote {
  rv_term : u64;
  rv_candidate_id : N;
  rv_last_log_index : u64;
  rv_last_log_term : u64;
  rv_pre_vote : bool
}.

Record RequestVoteReply : Type := mkRequestVoteReply {
  rvr_term : u64;
  rvr_vote_granted : bool;
  rvr_pre_vote : bool
}.

Record AppendEntries : Type := mkAppendEntries {
  ae_term : u64;
  ae_leader_id : N;
  ae_prev_log_index : u64;
  ae_prev_log_term : u64;
  ae_entries : list LogEntry;
  ae_leader_commit : u64;
  ae_seq : u64
}.

Record AppendEntriesReply : Type := mkAppendEntriesReply {
  aer_term : u64;
  aer_success : bool;
  aer_conflict_index : u64;
  aer_conflict_term : option N;
  aer_last_log_index : u64;
  aer_seq : u64
}.

Record InstallSnapshot : Type := mkInstallSnapshot {
  is_term : u64;
  is_leader_id : N;
  is_meta : SnapshotMeta;
  is_offset : u64;
  is_data : bytes;
  is_done : bool
}.

Record InstallSnapshotReply : Type := mkInstallSnapshotReply {
  isr_term : u64;
  isr_success : bool;
  isr_bytes_stored : u64
}.

Record TimeoutNow : Type := mkTimeoutNow {
  tn_term : u64;
  tn_from : N
}.

Record ReadIndexRequest : Type := mkReadIndexRequest {
  rir_term : u64;
  rir_from : N;
  rir_id : u64
}.

Record ReadIndexReply : Type := mkReadIndexReply {
  rip_term : u64;
  rip_id : u64;
  rip_read_index : u64;
  rip_success : bool
}.

Inductive RaftMessage : Type :=
| MRequestVote (m : RequestVote)
| MRequestVoteReply (m : RequestVoteReply)
| MAppendEntries (m : AppendEntries)
| MAppendEntriesReply (m : AppendEntriesReply)
| MInstallSnapshot (m : InstallSnapshot)
| MInstallSnapshotReply (m : InstallSnapshotReply)
| MTimeoutNow (m : TimeoutNow)
| MReadIndexRequest (m : ReadIndexRequest)
| MReadIndexReply (m : ReadIndexReply).

Definition msg_term (m : RaftMessage) : u64 :=
  match m with
  | MRequestVote m => rv_term m
  | MRequestVoteReply m => rvr_term m
  | MAppendEntries m => ae_term m
  | MAppendEntriesReply m => aer_term m
  | MInstallSnapshot m => is_term m
  | MInstallSnapshotReply m => isr_term m
  | MTimeoutNow m => tn_term m
  | MReadIndexRequest m => rir_term m
  | MReadIndexReply m => rip_term m
  end.

Record Envelope : Type := mkEnvelope {
  env_from : N;
  env_to : N;
  env_msg : RaftMessage
}.

Record NodeInfo : Type := mkNodeInfo {
  ni_id : N;
  ni_addr : string;
  ni_is_learner : bool
}.

Record NodeStatus : Type := mkNodeStatus {
  ns_id : N;
  ns_role : string;
  ns_term : u64;
  ns_commit_index : u64;
  ns_last_applied : u64;
  ns_leader_id : option N;
  ns_membership : MembershipConfig;
  ns_last_log_index : u64;
  ns_last_log_term : u64
}.

(** ** Configuration of a node ([config.rs]; addresses and the tick duration only
    matter to the transport and the timer) *)

Record NodeConfig : Type := mkNodeConfig {
  cfg_id : N;
  election_timeout_min : u64;
  election_timeout_max : u64;
  heartbeat_interval : u64;
  max_append_entries : usize;
  pipeline_depth : usize;
  check_quorum : bool;
  check_quorum_interval : u64;
  pre_vote : bool;
  log_compaction_threshold : u64;
  snapshot_chunk_size : usize;
  max_pending_proposals : usize;
  leadership_transfer_timeout : u64
}.

(** [impl Default for NodeConfig] *)
Definition node_config_default : NodeConfig :=
  mkNodeConfig 1 10 20 2 64 4 true 10 true 10000 (1024 * 1024) 1000 10.
