(* ===== verification/RaftLog.v ===== *)
(** * The in-memory Raft log

    [crates/compute/cave-ha/src/raft/log.rs]: [LogEntry]'s constructors and
    [MemLog], the entries above the last snapshot.  The invariant [wf] says that
    the stored entries carry consecutive indices from [snapshot_index + 1]; [view]
    is the log as a partial function from index to entry.  Every operation is
    specified by its effect on [view]. *)

From S2P Require Import Prelude Consensus RaftTypes.

(** [serde_json] on membership configurations: a parameter of the model. *)
Class MembershipJson : Type := {
  cfg_to_vec : MembershipConfig → result Kernel.message bytes;
  cfg_from_slice : bytes → result Kernel.message MembershipConfig
}.

Definition new_normal (index term : N) (data : bytes) : LogEntry :=
  mkLogEntry index term Normal data.

Definition new_barrier (index term : N) : LogEntry := mkLogEntry index term Barrier [].

Definition new_membership `{!MembershipJson} (index term : N) (cfg : MembershipConfig) :
    HaResult LogEntry :=
  match cfg_to_vec cfg with
  | Ok data => Ok (mkLogEntry index term MembershipChange data)
  | Err e => Err (Serialization e)
  end.

Definition decode_membership `{!MembershipJson} (e : LogEntry) : HaResult MembershipConfig :=
  match cfg_from_slice (e_data e) with
  | Ok cfg => Ok cfg
  | Err e => Err (Serialization e)
  end.

Record MemLog : Type := mkMemLog {
  entries : list LogEntry;
  snapshot_index : u64;
  snapshot_term : u64
}.

Module MemLog.

Definition new : MemLog := mkMemLog [] 0 0.

Definition last_index (l : MemLog) : u64 :=
  match last (entries l) with
  | None => snapshot_index l
  | Some e => e_index e
  end.

Definition last_term (l : MemLog) : u64 :=
  match last (entries l) with
  | None => snapshot_term l
  | Some e => e_term e
  end.

Definition first_index (l : MemLog) : u64 := snapshot_index l +w 1.

Definition entry (l : MemLog) (index : N) : HaResult LogEntry :=
  if index <=? snapshot_index l then Err (LogCompacted index (snapshot_index l))
  else
    let offset := index -w first_index l in
    ok_or (vget (entries l) offset)
      (Raft ("entry {index} not found (last={})"%string, [index; last_index l])).

Definition term (l : MemLog) (index : N) : HaResult N :=
  if index =? snapshot_index l then Ok (snapshot_term l)
  else let? e := entry l index in Ok (e_term e).

Definition slice (l : MemLog) (lo hi : N) : HaResult (list LogEntry) :=
  if lo <=? snapshot_index l then Err (LogCompacted lo (snapshot_index l))
  else
    let start := lo -w first_index l in
    let stop := N.min (hi -w first_index l) (vlen (entries l)) in
    if stop <? start then Ok [] else Ok (vslice (entries l) start stop).

(** One iteration of the loop of [append]: truncate when the offset falls inside
    the stored entries, then push. *)
Definition append_one (l : MemLog) (e : LogEntry) : MemLog :=
  let offset := e_index e -w first_index l in
  let kept := if offset <? vlen (entries l) then vtruncate (entries l) offset else entries l in
  mkMemLog (kept ++ [e]) (snapshot_index l) (snapshot_term l).

Definition append (l : MemLog) (es : list LogEntry) : MemLog := foldl append_one l es.
#[global] Arguments append : simpl never.

Definition truncate_to (l : MemLog) (last_index : N) : MemLog :=
  if last_index <? first_index l then mkMemLog [] (snapshot_index l) (snapshot_term l)
  else
    let keep := (last_index -w first_index l) +w 1 in
    mkMemLog (vtruncate (entries l) keep) (snapshot_index l) (snapshot_term l).

Definition compact (l : MemLog) (index term : N) : MemLog :=
  if index <=? snapshot_index l then l
  else
    let trim := if first_index l <=? index then (index -w first_index l) +w 1 else 0 in
    let rest := if trim <=? vlen (entries l) then drop (N.to_nat trim) (entries l) else [] in
    mkMemLog rest index term.

Definition len (l : MemLog) : usize := vlen (entries l).
Definition is_empty (l : MemLog) : bool := bool_decide (entries l = []).

(** The first membership entry from the end; [None] also when it does not decode. *)
Definition last_membership `{!MembershipJson} (l : MemLog) : option MembershipConfig :=
  match list_find (λ e, e_type e = MembershipChange) (reverse (entries l)) with
  | Some (_, e) => ok (decode_membership e)
  | None => None
  end.

(** ** The invariant and the view *)

Definition wf (l : MemLog) : Prop :=
  (∀ k e, entries l !! k = Some e → e_index e = snapshot_index l + 1 + N.of_nat k) ∧
  snapshot_index l + vlen (entries l) < u64_max.

Definition view (l : MemLog) (i : N) : option LogEntry :=
  if i <=? snapshot_index l then None else entries l !! N.to_nat (i - snapshot_index l - 1).

(** The last index as the invariant determines it. *)
Definition top (l : MemLog) : N := snapshot_index l + vlen (entries l).

Lemma wf_new : wf new.
Proof. split; [by intros [] e | done]. Qed.

Lemma wf_bound l : wf l → top l < u64_max.
Proof. by intros [_ H]. Qed.

Lemma last_index_top l : wf l → last_index l = top l.
Proof.
  intros [Hidx Hb]. unfold last_index, top, vlen.
  destruct (last (entries l)) as [e|] eqn:Hl.
  - rewrite last_lookup in Hl. apply Hidx in Hl as Hi. rewrite Hi.
    apply lookup_lt_Some in Hl. lia.
  - apply last_None in Hl. rewrite Hl. simpl. lia.
Qed.

Lemma first_index_next l : wf l → first_index l = snapshot_index l + 1.
Proof. intros [_ Hb]. unfold first_index, vlen in *. u64_lia. Qed.

Lemma view_None_below l i : i ≤ snapshot_index l → view l i = None.
Proof. intros H. unfold view. by rewrite (proj2 (N.leb_le _ _) H). Qed.

Lemma view_None_above l i : top l < i → view l i = None.
Proof.
  intros H. unfold view. destruct (N.leb_spec i (snapshot_index l)); [done|].
  apply lookup_ge_None. unfold top, vlen in H. lia.
Qed.

Lemma view_lookup l k : view l (snapshot_index l + 1 + N.of_nat k) = entries l !! k.
Proof.
  unfold view. destruct (N.leb_spec (snapshot_index l + 1 + N.of_nat k) (snapshot_index l)); [lia|].
  f_equal. lia.
Qed.

Lemma view_Some l i e :
  view l i = Some e → snapshot_index l < i ≤ top l ∧ entries l !! N.to_nat (i - snapshot_index l - 1) = Some e.
Proof.
  unfold view, top, vlen. destruct (N.leb_spec i (snapshot_index l)) as [|Hlt]; [done|].
  intros H. split; [|done]. apply lookup_lt_Some in H. lia.
Qed.

Lemma view_in_range l i : snapshot_index l < i ≤ top l → is_Some (view l i).
Proof.
  intros [H1 H2]. unfold view, top, vlen in *.
  destruct (N.leb_spec i (snapshot_index l)); [lia|]. apply lookup_lt_is_Some. lia.
Qed.

Lemma view_index l i e : wf l → view l i = Some e → e_index e = i.
Proof. intros [Hidx _] [Hr He]%view_Some. rewrite (Hidx _ _ He). lia. Qed.

(** [entry] reads the view, and tells a compacted index from a missing one. *)
Lemma entry_view l i : wf l → i < u64_modulus →
  entry l i = if i <=? snapshot_index l then Err (LogCompacted i (snapshot_index l))
              else match view l i with
                   | Some e => Ok e
                   | None => Err (Raft ("entry {index} not found (last={})"%string, [i; top l]))
                   end.
Proof.
  intros Hwf Hi. unfold entry, view. rewrite (first_index_next l Hwf), (last_index_top l Hwf).
  destruct (N.leb_spec i (snapshot_index l)) as [|Hlt]; [done|].
  rewrite vget_lookup, u64_sub_small by lia.
  replace (i - (snapshot_index l + 1)) with (i - snapshot_index l - 1) by lia.
  by destruct (entries l !! _).
Qed.

(** ** Appending *)

Lemma append_one_kept l e : wf l → snapshot_index l < e_index e ≤ top l + 1 →
  append_one l e = mkMemLog (take (N.to_nat (e_index e - snapshot_index l - 1)) (entries l) ++ [e])
                            (snapshot_index l) (snapshot_term l).
Proof.
  intros Hwf [Hlo Hhi]. unfold append_one. rewrite (first_index_next l Hwf).
  pose proof (wf_bound l Hwf) as Hb. unfold top, vlen in *.
  rewrite u64_sub_small by (unfold u64_max, u64_modulus in *; lia).
  replace (e_index e - (snapshot_index l + 1)) with (e_index e - snapshot_index l - 1) by lia.
  rewrite vtruncate_take.
  destruct (N.ltb_spec (e_index e - snapshot_index l - 1) (N.of_nat (length (entries l))))
    as [|Hge]; [done|].
  by rewrite take_ge by lia.
Qed.

Lemma append_one_spec l e : wf l → snapshot_index l < e_index e ≤ top l + 1 →
  e_index e < u64_max →
  wf (append_one l e) ∧ top (append_one l e) = e_index e ∧
  (∀ i, view (append_one l e) i =
        if i <? e_index e then view l i else if i =? e_index e then Some e else None).
Proof.
  intros Hwf Hr Hmax. rewrite (append_one_kept l e Hwf Hr).
  set (n := N.to_nat (e_index e - snapshot_index l - 1)).
  assert (Hn : (n ≤ length (entries l))%nat) by (unfold n, top, vlen in *; lia).
  assert (Htop : top (mkMemLog (take n (entries l) ++ [e]) (snapshot_index l) (snapshot_term l))
                 = e_index e).
  { unfold top, vlen. simpl. rewrite length_app, length_take. simpl. lia. }
  assert (Hview : ∀ i, view (mkMemLog (take n (entries l) ++ [e]) (snapshot_index l) (snapshot_term l)) i
     = if i <? e_index e then view l i else if i =? e_index e then Some e else None).
  { intros i. unfold view. simpl.
    destruct (N.leb_spec i (snapshot_index l)), (N.ltb_spec i (e_index e)),
      (N.eqb_spec i (e_index e)); try lia; [done|..].
    - rewrite lookup_app_l by (rewrite length_take; lia). apply lookup_take_lt. lia.
    - rewrite lookup_app_r by (rewrite length_take; lia).
      rewrite length_take. by replace (_ - _)%nat with 0%nat by lia.
    - apply lookup_ge_None. rewrite length_app, length_take. simpl. lia. }
  split; [split|by split].
  - intros k x Hk. rewrite <- view_lookup, Hview in Hk. cbn [entries snapshot_index] in Hk |- *.
    destruct (N.ltb_spec (snapshot_index l + 1 + N.of_nat k) (e_index e)).
    + by eapply view_index.
    + destruct (N.eqb_spec (snapshot_index l + 1 + N.of_nat k) (e_index e)); congruence.
  - fold (top (mkMemLog (take n (entries l) ++ [e]) (snapshot_index l) (snapshot_term l))).
    by rewrite Htop.
Qed.

Lemma append_one_snapshot l e :
  snapshot_index (append_one l e) = snapshot_index l ∧ snapshot_term (append_one l e) = snapshot_term l.
Proof. done. Qed.

(** Consecutive entries from index [k]. *)
Definition consecutive (k : N) (es : list LogEntry) : Prop :=
  ∀ n e, es !! n = Some e → e_index e = k + N.of_nat n.

Lemma consecutive_cons k e es : consecutive k (e :: es) ↔ e_index e = k ∧ consecutive (k + 1) es.
Proof.
  unfold consecutive. split.
  - intros H. split; [specialize (H 0%nat e eq_refl); lia|].
    intros n x Hx. specialize (H (S n) x Hx). lia.
  - intros [H1 H2] [|n] x Hx; simplify_eq/=; [lia|]. rewrite (H2 _ _ Hx). lia.
Qed.

Lemma append_spec l k es : wf l → consecutive k es → snapshot_index l < k ≤ top l + 1 →
  k + vlen es < u64_max → es ≠ [] →
  wf (append l es) ∧ top (append l es) = k + vlen es - 1 ∧
  snapshot_index (append l es) = snapshot_index l ∧
  (∀ i, view (append l es) i = if i <? k then view l i else es !! N.to_nat (i - k)).
Proof.
  intros Hwf Hc Hk Hmax Hne. revert l k Hwf Hc Hk Hmax Hne.
  induction es as [|e es IH]; intros l k Hwf Hc Hk Hmax Hne; [done|].
  apply consecutive_cons in Hc as [He Hc]. unfold append. simpl. fold (append (append_one l e) es).
  destruct (append_one_spec l e) as (Hwf' & Htop & Hview); [done|lia| |].
  { unfold vlen in Hmax. simpl in Hmax. lia. }
  destruct (decide (es = [])) as [->|Hes].
  - simpl. unfold append. simpl. split_and!; [done| |done|].
    + unfold vlen. simpl. lia.
    + intros i. rewrite Hview, He. destruct (N.ltb_spec i k); [done|].
      destruct (N.eqb_spec i k) as [->|]; [by rewrite N.sub_diag|].
      by destruct (N.to_nat (i - k)) eqn:Hd; [lia|].
  - destruct (IH (append_one l e) (k + 1)) as (H1 & H2 & H3 & H4); [done|done| | |done|].
    { rewrite Htop. simpl. lia. }
    { unfold vlen in *. simpl in *. lia. }
    split_and!; [done| |done|].
    + rewrite H2. unfold vlen. simpl. lia.
    + intros i. rewrite H4, Hview, He.
      destruct (N.ltb_spec i (k + 1)), (N.ltb_spec i k), (N.eqb_spec i k); try lia; [done|..].
      * subst i. by rewrite N.sub_diag.
      * replace (N.to_nat (i - k)) with (S (N.to_nat (i - (k + 1)))) by lia. done.
Qed.

(** ** Truncation, compaction and slices *)

Lemma truncate_to_spec l k : wf l → k < u64_max →
  wf (truncate_to l k) ∧ snapshot_index (truncate_to l k) = snapshot_index l ∧
  (∀ i, view (truncate_to l k) i = if i <=? k then view l i else None).
Proof.
  intros Hwf Hk. unfold truncate_to. rewrite (first_index_next l Hwf).
  pose proof (wf_bound l Hwf) as Hb. destruct Hwf as [Hidx _].
  destruct (N.ltb_spec k (snapshot_index l + 1)) as [Hlt|Hge].
  - split_and!; [split; [by intros [] |]|done|].
    + unfold top, vlen in *. simpl. lia.
    + intros i. unfold view. simpl. destruct (N.leb_spec i (snapshot_index l)),
        (N.leb_spec i k); try done; try lia; by rewrite lookup_nil.
  - rewrite u64_sub_small by (unfold u64_max, u64_modulus in *; lia).
    rewrite u64_add_small by (unfold u64_max, u64_modulus in *; lia).
    rewrite vtruncate_take. split_and!; [split|done|].
    + cbn [entries snapshot_index]. intros n e [Hn _]%lookup_take_Some. by apply Hidx.
    + unfold top, vlen in *. simpl. rewrite length_take. lia.
    + intros i. unfold view. simpl. destruct (N.leb_spec i (snapshot_index l)), (N.leb_spec i k);
        try done.
      * apply lookup_take_lt. lia.
      * apply lookup_take_ge. lia.
Qed.

Lemma compact_spec l k t : wf l → k < u64_max →
  wf (compact l k t) ∧ snapshot_index (compact l k t) = N.max (snapshot_index l) k ∧
  (∀ i, view (compact l k t) i = if i <=? k then None else view l i).
Proof.
  intros Hwf Hk. unfold compact. rewrite (first_index_next l Hwf).
  pose proof (wf_bound l Hwf) as Hb.
  destruct (N.leb_spec k (snapshot_index l)) as [Hle|Hlt].
  { split_and!; [done|lia|]. intros i. destruct (N.leb_spec i k); [|done].
    apply view_None_below. lia. }
  destruct Hwf as [Hidx _].
  destruct (N.leb_spec (snapshot_index l + 1) k); [|lia].
  rewrite u64_sub_small by (unfold u64_max, u64_modulus in *; lia).
  rewrite u64_add_small by (unfold u64_max, u64_modulus in *; lia).
  replace (k - (snapshot_index l + 1) + 1) with (k - snapshot_index l) by lia.
  assert (Hrest : (if k - snapshot_index l <=? vlen (entries l)
                   then drop (N.to_nat (k - snapshot_index l)) (entries l) else [])
                  = drop (N.to_nat (k - snapshot_index l)) (entries l)).
  { destruct (N.leb_spec (k - snapshot_index l) (vlen (entries l))); [done|].
    rewrite drop_ge; [done|]. unfold vlen in *. lia. }
  rewrite Hrest. split_and!; [split|simpl; lia|].
  - cbn [entries snapshot_index]. intros n e. rewrite lookup_drop. intros He%Hidx. lia.
  - unfold top, vlen in *. simpl. rewrite length_drop. lia.
  - intros i. unfold view. simpl. destruct (N.leb_spec i k), (N.leb_spec i (snapshot_index l));
      try done; [lia|]. rewrite lookup_drop. f_equal. lia.
Qed.

Lemma top_compact l k t : wf l → k ≤ top l → top (compact l k t) = top l.
Proof.
  intros Hwf Hk. pose proof (wf_bound l Hwf). unfold compact, top, vlen in *. rewrite (first_index_next l Hwf).
  destruct (N.leb_spec k (snapshot_index l)); [done|].
  destruct (N.leb_spec (snapshot_index l + 1) k); [|lia].
  rewrite u64_sub_small, u64_add_small by (unfold u64_max, u64_modulus in *; lia).
  destruct (N.leb_spec (k - (snapshot_index l + 1) + 1) (N.of_nat (length (entries l)))); [|lia].
  simpl. rewrite length_drop. lia.
Qed.

(** [slice lo hi] returns exactly the stored entries with index in [lo, hi). *)
Lemma slice_spec l lo hi : wf l → snapshot_index l < lo ≤ hi → hi < u64_modulus →
  ∃ es, slice l lo hi = Ok es ∧
        ∀ n, es !! n = if lo + N.of_nat n <? hi then view l (lo + N.of_nat n) else None.
Proof.
  intros Hwf [Hlo Hle] Hhi. unfold slice. rewrite (first_index_next l Hwf).
  pose proof (wf_bound l Hwf) as Hb.
  destruct (N.leb_spec lo (snapshot_index l)); [lia|]. rewrite !u64_sub_small by lia.
  assert (Hout : ∀ n, top l < lo + N.of_nat n → view l (lo + N.of_nat n) = None)
    by (intros; by apply view_None_above).
  destruct (N.ltb_spec (N.min (hi - (snapshot_index l + 1)) (vlen (entries l)))
                       (lo - (snapshot_index l + 1))) as [Hs|Hs].
  - exists []. split; [done|]. intros n. rewrite lookup_nil.
    destruct (N.ltb_spec (lo + N.of_nat n) hi); [|done].
    symmetry. apply Hout. unfold top. lia.
  - eexists. split; [done|]. intros n. unfold vslice.
    destruct (decide (N.of_nat n < N.min (hi - (snapshot_index l + 1)) (vlen (entries l))
                                   - (lo - (snapshot_index l + 1)))) as [Hn|Hn].
    + rewrite lookup_take_lt by lia. rewrite lookup_drop.
      case_N.
      rewrite <- view_lookup. f_equal. lia.
    + rewrite lookup_take_ge by lia.
      destruct (N.ltb_spec (lo + N.of_nat n) hi); [|done].
      symmetry. apply Hout. unfold top. lia.
Qed.

Lemma term_view l i e : wf l → i < u64_modulus → view l i = Some e → term l i = Ok (e_term e).
Proof.
  intros Hwf Hi He. destruct (view_Some _ _ _ He) as [Hr _]. unfold term.
  rewrite (entry_view l i Hwf Hi), He. by case_N.
Qed.

Lemma term_ok l i t : wf l → i < u64_modulus → term l i = Ok t →
  (i = snapshot_index l ∧ t = snapshot_term l) ∨ (∃ e, view l i = Some e ∧ e_term e = t).
Proof.
  intros Hwf Hi. unfold term. destruct (N.eqb_spec i (snapshot_index l)); [naive_solver|].
  rewrite (entry_view l i Hwf Hi). destruct (N.leb_spec i (snapshot_index l)); [done|].
  destruct (view l i) as [e|]; naive_solver.
Qed.

End MemLog.
