(* ===== verification/HaWal.v ===== *)
(** * The durable Raft log of cave-ha

    [crates/compute/cave-ha/src/storage/wal.rs] and [log_store.rs]: the write-ahead log with
    its record format and replay, and [PersistentLogStore], which keeps a [MemLog] and a
    hard state in front of it.

    The file is that of Files.v.  [serde_json] on log entries and hard states is a parameter
    with its round trip as the only law.  A record is specified by [Rec] and [apply_rec]; a
    store is specified by the list of the records written ([recorded]), and refines it: what
    is in memory is what a replay of the file yields ([reopen_recovers]), also of a file cut
    at any byte ([crash_recovers_prefix]).  Compaction breaks this: see the end of the
    file. *)

From S2P Require Import Prelude Bytes Consensus Files RaftTypes RaftLog.

(** [HardState] of raft/types.rs, with its derived default. *)
Record HardState : Type := mkHardState { hs_term : u64; hs_voted_for : option N; hs_commit : u64 }.
#[export] Instance HardState_eq_dec : EqDecision HardState.
Proof. solve_decision. Defined.
Definition hard_state_default : HardState := mkHardState 0 None 0.

Definition WAL_MAGIC : N := 3405691409.

(** The record types [RecordType::LogEntry], [HardState] and [Truncate] *)
Definition T_ENTRY : u8 := 1.
Definition T_HARD : u8 := 2.
Definition T_TRUNCATE : u8 := 4.

Definition u32_modulus : N := 4294967296.
Definition simple_checksum (data : bytes) : N :=
  foldl (λ acc b, ((acc * 31) mod u32_modulus + b) mod u32_modulus) 0 data.

(** The bytes [write_record] writes. *)
Definition record_bytes (rtype : u8) (data : bytes) : bytes :=
  to_be 4 WAL_MAGIC ++ [rtype] ++ to_be 4 (vlen data mod u32_modulus) ++ to_be 4 (simple_checksum data) ++ data.

Record Wal : Type := mkWal { wal_file : File; wal_size : u64 }.

(** The result of a replay: [WalReplay]. *)
Record WalReplay : Type := mkWalReplay { rp_hard_state : option HardState; rp_entries : list LogEntry }.
Definition replay_default : WalReplay := mkWalReplay None [].

(** A record as the replay understands it. *)
Inductive Rec : Type :=
| REntry (e : LogEntry)
| RHard (hs : HardState)
| RTruncate (last_index : u64)
| ROther (rtype : u8).

Definition apply_rec (replay : WalReplay) (r : Rec) : WalReplay :=
  match r with
  | REntry e => mkWalReplay (rp_hard_state replay) (rp_entries replay ++ [e])
  | RHard hs => mkWalReplay (Some hs) (rp_entries replay)
  | RTruncate k => mkWalReplay (rp_hard_state replay) (filter (λ e, e_index e ≤ k) (rp_entries replay))
  | ROther _ => replay
  end.

Module Wal.
Section WithJson.
Context `{JE : !Json LogEntry} `{JH : !Json HardState}.

(** A handle on the existing bytes, at their beginning. *)
Definition open (disk : bytes) : Wal := mkWal (mkFile disk 0) (vlen disk).

Definition write_record (w : Wal) (rtype : u8) (data : bytes) : Wal :=
  let buf := record_bytes rtype data in
  mkWal (write_all (wal_file w) buf) (wal_size w +w vlen buf).

Definition append_entry (w : Wal) (e : LogEntry) : Wal := write_record w T_ENTRY (to_json e).
Definition append_hard_state (w : Wal) (hs : HardState) : Wal := write_record w T_HARD (to_json hs).
Definition append_truncate (w : Wal) (last_index : u64) : Wal := write_record w T_TRUNCATE (to_be 8 last_index).

(** The body of the loop of [replay] for the bytes from [pos] on. *)
Definition next_record (pos : N) (buf : bytes) : Step Rec HaError :=
  if vlen buf <? 13 then Stop
  else if negb (from_be (vslice buf 0 4) =? WAL_MAGIC) then Stop
  else
    let rtype := default 0 (vget buf 4) in
    let len := from_be (vslice buf 5 9) in
    let csum := from_be (vslice buf 9 13) in
    if vlen buf <? 13 + len then Stop
    else
      let data := vslice buf 13 (13 + len) in
      if negb (simple_checksum data =? csum) then Stop
      else if rtype =? T_ENTRY then
        match from_json data with
        | Some e => Got (REntry e) (13 + len)
        | None => Fail (Storage ("{e}"%string, []))
        end
      else if rtype =? T_HARD then
        match from_json data with
        | Some hs => Got (RHard hs) (13 + len)
        | None => Fail (Storage ("{e}"%string, []))
        end
      else if rtype =? T_TRUNCATE then
        if 8 <=? vlen data then Got (RTruncate (from_be (vslice data 0 8))) (13 + len)
        else Got (ROther rtype) (13 + len)
      else Got (ROther rtype) (13 + len).

Definition replay (w : Wal) : HaResult WalReplay * Wal :=
  let '(buf, file) := read_to_end (seek_start (wal_file w)) in
  (let? rs := scan_all next_record buf in Ok (foldl apply_rec replay_default rs), mkWal file (wal_size w)).

Definition reset (w : Wal) : Wal := mkWal (set_len (wal_file w) 0) 0.

End WithJson.
End Wal.

Record PersistentLogStore : Type := mkStore { ps_mem : MemLog; ps_wal : Wal; ps_hard_state : HardState }.

Module PersistentLogStore.
Section WithJson.
Context `{JE : !Json LogEntry} `{JH : !Json HardState}.

(** [open] on the bytes of [raft.wal]. *)
Definition open (disk : bytes) : HaResult PersistentLogStore :=
  match Wal.replay (Wal.open disk) with
  | (Err e, _) => Err e
  | (Ok replay, wal) =>
      Ok (mkStore (MemLog.append MemLog.new (rp_entries replay)) wal
            (default hard_state_default (rp_hard_state replay)))
  end.

Definition save_hard_state (s : PersistentLogStore) (hs : HardState) : PersistentLogStore :=
  mkStore (ps_mem s) (Wal.append_hard_state (ps_wal s) hs) hs.

Definition append (s : PersistentLogStore) (es : list LogEntry) : PersistentLogStore :=
  mkStore (MemLog.append (ps_mem s) es) (foldl Wal.append_entry (ps_wal s) es) (ps_hard_state s).

Definition truncate_to (s : PersistentLogStore) (last_index : u64) : PersistentLogStore :=
  mkStore (MemLog.truncate_to (ps_mem s) last_index) (Wal.append_truncate (ps_wal s) last_index) (ps_hard_state s).

Definition compact (s : PersistentLogStore) (index term : u64) : PersistentLogStore :=
  mkStore (MemLog.compact (ps_mem s) index term)
    (Wal.append_hard_state (Wal.reset (ps_wal s)) (ps_hard_state s)) (ps_hard_state s).

(** What a crash leaves: the first [n] bytes of the file. *)
Definition crash (s : PersistentLogStore) (n : nat) : bytes := take n (content (wal_file (ps_wal s))).

End WithJson.
End PersistentLogStore.

(** ** Records *)

Section Records.
Context `{JE : !Json LogEntry} `{JH : !Json HardState} `{LE : !JsonLaws LogEntry} `{LH : !JsonLaws HardState}.

Definition rec_type (r : Rec) : u8 :=
  match r with REntry _ => T_ENTRY | RHard _ => T_HARD | RTruncate _ => T_TRUNCATE | ROther t => t end.
Definition rec_data (r : Rec) : bytes :=
  match r with
  | REntry e => to_json e
  | RHard hs => to_json hs
  | RTruncate k => to_be 8 k
  | ROther _ => []
  end.
Definition rec_frame (r : Rec) : bytes := record_bytes (rec_type r) (rec_data r).
(** The records that are written: no payload reaches 4 GiB. *)
Definition rec_fits (r : Rec) : Prop :=
  vlen (rec_data r) < u32_modulus ∧
  match r with RTruncate k => k < u64_modulus | ROther _ => False | _ => True end.

Lemma checksum_bound data : simple_checksum data < u32_modulus.
Proof.
  unfold simple_checksum. induction data as [|b data IH] using rev_ind; [done|].
  rewrite foldl_app. simpl. by apply N.mod_lt.
Qed.
Lemma length_record t data : length (record_bytes t data) = (13 + length data)%nat.
Proof. unfold record_bytes. rewrite !length_app, !length_to_be. simpl. lia. Qed.

(** The fields of a record at the front of a buffer. *)
Lemma record_fields t data rest :
  vlen data < u32_modulus → let buf := record_bytes t data ++ rest in
  from_be (vslice buf 0 4) = WAL_MAGIC ∧ vget buf 4 = Some t ∧ from_be (vslice buf 5 9) = vlen data ∧
  from_be (vslice buf 9 13) = simple_checksum data ∧ vslice buf 13 (13 + vlen data) = data.
Proof.
  intros Hd. unfold record_bytes. pose proof (checksum_bound data) as Hc.
  assert (Hb : ∀ x, x < u32_modulus → from_be (to_be 4 x) = x) by (intros; by apply from_be_to_be).
  rewrite (N.mod_small (vlen data)) by done. pose proof (Hb (vlen data) Hd) as Hl. pose proof (Hb _ Hc) as Hs.
  pose proof (Hb WAL_MAGIC eq_refl) as Hm. pose proof (length_to_be 4 WAL_MAGIC) as H1.
  pose proof (length_to_be 4 (vlen data)) as H2. pose proof (length_to_be 4 (simple_checksum data)) as H3.
  revert Hl Hs Hm H1 H2 H3. generalize (to_be 4 (vlen data)), (to_be 4 (simple_checksum data)), (to_be 4 WAL_MAGIC).
  intros b c a Hl Hs Hm H1 H2 H3. repeat (destruct a as [|? a]; [done|]). destruct a; [|done].
  repeat (destruct b as [|? b]; [done|]). destruct b; [|done]. repeat (destruct c as [|? c]; [done|]). destruct c; [|done].
  rewrite vget_lookup. simpl. split_and!; [exact Hm|done|exact Hl|exact Hs|].
  unfold vslice. replace (N.to_nat (13 + vlen data - 13)) with (length data) by (unfold vlen; lia).
  change (N.to_nat 13) with 13%nat. change (drop 13 _) with (data ++ rest). by rewrite take_app_length.
Qed.

Lemma next_frame pos r rest : rec_fits r → Wal.next_record pos (rec_frame r ++ rest) = Got r (vlen (rec_frame r)).
Proof.
  intros [Hd Hr]. unfold Wal.next_record, rec_frame.
  destruct (record_fields (rec_type r) (rec_data r) rest Hd) as (-> & -> & -> & -> & ->).
  assert (Hv : vlen (record_bytes (rec_type r) (rec_data r)) = 13 + vlen (rec_data r))
    by (unfold vlen; rewrite length_record; lia).
  rewrite vlen_app, Hv, !N.eqb_refl. change (default 0 (Some ?t)) with t. cbn [negb].
  destruct (N.ltb_spec (13 + vlen (rec_data r) + vlen rest) 13); [lia|].
  destruct (N.ltb_spec (13 + vlen (rec_data r) + vlen rest) (13 + vlen (rec_data r))); [lia|].
  destruct r as [e|hs|k|t]; cbn [rec_type rec_data]; [| | |done].
  - by rewrite N.eqb_refl, from_to_json.
  - change (T_HARD =? T_ENTRY) with false. by rewrite N.eqb_refl, from_to_json.
  - change (T_TRUNCATE =? T_ENTRY) with false. change (T_TRUNCATE =? T_HARD) with false.
    rewrite N.eqb_refl, vlen_to_be. change (8 <=? N.of_nat 8) with true.
    assert (vslice (to_be 8 k) 0 8 = to_be 8 k) as ->.
    { unfold vslice. rewrite drop_0. apply take_ge. rewrite length_to_be. lia. }
    by rewrite from_be_to_be.
Qed.

Lemma next_torn pos r n : rec_fits r → (n < length (rec_frame r))%nat → Wal.next_record pos (take n (rec_frame r)) = Stop.
Proof.
  intros [Hd Hr] Hn. unfold Wal.next_record. unfold rec_frame in *. rewrite length_record in Hn.
  assert (Hl : vlen (take n (record_bytes (rec_type r) (rec_data r))) = N.of_nat n)
    by (unfold vlen; rewrite length_take, length_record; lia).
  rewrite Hl. destruct (N.ltb_spec (N.of_nat n) 13); [done|].
  destruct (record_fields (rec_type r) (rec_data r) [] Hd) as (_ & _ & Hf & _). rewrite app_nil_r in Hf.
  assert (Hs : vslice (take n (record_bytes (rec_type r) (rec_data r))) 5 9 = vslice (record_bytes (rec_type r) (rec_data r)) 5 9).
  { unfold vslice. change (N.to_nat 5) with 5%nat. change (N.to_nat (9 - 5)) with 4%nat.
    rewrite skipn_firstn_comm, take_take. f_equal. lia. }
  rewrite Hs, Hf. destruct (negb _); [done|]. destruct (N.ltb_spec (N.of_nat n) (13 + vlen (rec_data r))) as [|Hge]; [done|].
  unfold vlen in Hge. lia.
Qed.
Lemma next_nil pos : Wal.next_record pos [] = Stop.
Proof. done. Qed.

Lemma scan_records rs n : Forall rec_fits rs →
  scan_all Wal.next_record (take n (log_bytes rec_frame rs)) = Ok (complete rec_frame rs n).
Proof.
  intros Hf. rewrite (scan_all_cut rec_frame Wal.next_record id rec_fits); [|by apply next_frame|by apply next_torn|done|done].
  by rewrite list_fmap_id.
Qed.
Lemma scan_log rs : Forall rec_fits rs → scan_all Wal.next_record (log_bytes rec_frame rs) = Ok rs.
Proof.
  intros Hf. rewrite <- (firstn_all (log_bytes rec_frame rs)), scan_records by done. by rewrite complete_all.
Qed.
End Records.

(** ** Replay and memory agree *)

(** An entry the log accepts: it extends the log or replaces a part of it. *)
Definition legal_entry (l : MemLog) (e : LogEntry) : Prop :=
  1 ≤ e_index e ≤ MemLog.top l + 1 ∧ e_index e + 1 < u64_max.
Fixpoint legal (l : MemLog) (es : list LogEntry) : Prop :=
  match es with
  | [] => True
  | e :: es => legal_entry l e ∧ legal (MemLog.append_one l e) es
  end.

Lemma append_snoc l es e : MemLog.append l (es ++ [e]) = MemLog.append_one (MemLog.append l es) e.
Proof. unfold MemLog.append. by rewrite foldl_app. Qed.
Lemma legal_snoc l es e : legal l (es ++ [e]) ↔ legal l es ∧ legal_entry (MemLog.append l es) e.
Proof.
  revert l. induction es as [|x es IH]; intros l; simpl; [tauto|]. rewrite IH.
  change (MemLog.append l (x :: es)) with (MemLog.append (MemLog.append_one l x) es). tauto.
Qed.

(** On a log without a snapshot. *)
Definition plain (l : MemLog) : Prop := MemLog.wf l ∧ snapshot_index l = 0 ∧ snapshot_term l = 0.

Lemma plain_append_one l e : plain l → legal_entry l e →
  plain (MemLog.append_one l e) ∧
  MemLog.append_one l e = mkMemLog (take (N.to_nat (e_index e - 1)) (entries l) ++ [e]) 0 0.
Proof.
  intros (Hwf & Hi & Ht) [Hl Hb]. assert (Hs : snapshot_index l < e_index e ≤ MemLog.top l + 1) by lia.
  split.
  - split; [|done]. apply (MemLog.append_one_spec l e); [done|done|lia].
  - rewrite (MemLog.append_one_kept l e Hwf Hs), Hi, Ht. by rewrite N.sub_0_r.
Qed.
Lemma plain_append es : legal MemLog.new es → plain (MemLog.append MemLog.new es).
Proof.
  induction es as [|e es IH] using rev_ind; [intros _; split; [apply MemLog.wf_new|done]|].
  rewrite legal_snoc, append_snoc. intros [Hl He]. by apply plain_append_one; [apply IH|].
Qed.
Lemma plain_truncate l k : plain l → k < u64_max →
  MemLog.truncate_to l k = mkMemLog (take (N.to_nat k) (entries l)) 0 0.
Proof.
  intros (Hwf & Hi & Ht) Hk. unfold MemLog.truncate_to. rewrite (MemLog.first_index_next l Hwf), Hi, Ht.
  destruct (N.ltb_spec k (0 + 1)); [by replace k with 0 by lia|].
  rewrite u64_sub_small, u64_add_small by (unfold u64_max, u64_modulus in *; lia).
  rewrite vtruncate_take. f_equal. f_equal. lia.
Qed.

(** A truncation replayed on the entries has the effect it had on the log. *)
Lemma replay_truncate es k : legal MemLog.new es → k < u64_max →
  legal MemLog.new (filter (λ e, e_index e ≤ k) es) ∧
  MemLog.append MemLog.new (filter (λ e, e_index e ≤ k) es) = MemLog.truncate_to (MemLog.append MemLog.new es) k.
Proof.
  intros Hl Hk. induction es as [|e es IH] using rev_ind.
  { split; [done|]. unfold MemLog.append, MemLog.truncate_to. simpl. case_match; [done|]. by rewrite vtruncate_take, take_nil. }
  rewrite legal_snoc in Hl. destruct Hl as [Hl He]. destruct (IH Hl) as [IH1 IH2]. clear IH.
  pose proof (plain_append es Hl) as Hp. pose proof (plain_append _ IH1) as Hp'.
  rewrite append_snoc. destruct (plain_append_one _ e Hp He) as [Hp1 Heq].
  rewrite (plain_truncate _ k Hp1 Hk), Heq. cbn [entries]. rewrite (plain_truncate _ k Hp Hk) in IH2.
  assert (Hlen : (N.to_nat (e_index e - 1) ≤ length (entries (MemLog.append MemLog.new es)))%nat).
  { destruct He as [He _]. destruct Hp as (_ & Hi & _). unfold MemLog.top, vlen in He. lia. }
  rewrite filter_app. destruct (decide (e_index e ≤ k)) as [Hle|Hgt].
  - rewrite (filter_all _ [e]) by by constructor. rewrite legal_snoc, append_snoc.
    assert (Hle' : legal_entry (MemLog.append MemLog.new (filter (λ e, e_index e ≤ k) es)) e).
    { rewrite IH2. destruct He as [He1 He2]. destruct Hp as (_ & Hi & _). split; [|done]. unfold MemLog.top, vlen in *.
      cbn [entries snapshot_index]. rewrite length_take. lia. }
    split; [done|]. destruct (plain_append_one _ e Hp' Hle') as [_ ->]. destruct He as [He _]. rewrite IH2. cbn [entries]. f_equal.
    rewrite take_take, (take_ge (_ ++ [e])); [f_equal; f_equal; lia|]. rewrite length_app, length_take. simpl. lia.
  - rewrite (filter_none _ [e]) by by constructor. rewrite app_nil_r. split; [done|]. rewrite IH2. f_equal.
    rewrite take_app_le, take_take; [f_equal; lia|]. rewrite length_take. lia.
Qed.

(** ** The store and its file *)

Section Store.
Context `{JE : !Json LogEntry} `{JH : !Json HardState} `{LE : !JsonLaws LogEntry} `{LH : !JsonLaws HardState}.

(** The store's writes, one record each; [append] of several entries is one write after the
    other ([append_each]). *)
Inductive Op : Type := Save (hs : HardState) | Push (e : LogEntry) | Truncate (k : u64).
Definition op_rec (o : Op) : Rec :=
  match o with Save hs => RHard hs | Push e => REntry e | Truncate k => RTruncate k end.
Definition run_op (s : PersistentLogStore) (o : Op) : PersistentLogStore :=
  match o with
  | Save hs => PersistentLogStore.save_hard_state s hs
  | Push e => PersistentLogStore.append s [e]
  | Truncate k => PersistentLogStore.truncate_to s k
  end.
Definition run (s : PersistentLogStore) (os : list Op) : PersistentLogStore := foldl run_op s os.

(** A write is legal when the log accepts the entry and the payload is below 4 GiB. *)
Definition legal_op (s : PersistentLogStore) (o : Op) : Prop :=
  rec_fits (op_rec o) ∧
  match o with Push e => legal_entry (ps_mem s) e | Truncate k => k < u64_max | Save _ => True end.
Fixpoint legal_ops (s : PersistentLogStore) (os : list Op) : Prop :=
  match os with [] => True | o :: os => legal_op s o ∧ legal_ops (run_op s o) os end.

Lemma append_each s es : PersistentLogStore.append s es = run s (Push <$> es).
Proof.
  revert s. induction es as [|e es IH]; intros s.
  - by destruct s.
  - cbn [fmap list_fmap]. change (run s (Push e :: ?l)) with (run (PersistentLogStore.append s [e]) l). by rewrite <- IH.
Qed.

Definition replayed (rs : list Rec) : WalReplay := foldl apply_rec replay_default rs.
Lemma replayed_snoc rs r : replayed (rs ++ [r]) = apply_rec (replayed rs) r.
Proof. unfold replayed. by rewrite foldl_app. Qed.

(** The memory of the store is that of a replay of the records. *)
Definition agrees (s : PersistentLogStore) (rs : list Rec) : Prop :=
  legal MemLog.new (rp_entries (replayed rs)) ∧
  ps_mem s = MemLog.append MemLog.new (rp_entries (replayed rs)) ∧
  ps_hard_state s = default hard_state_default (rp_hard_state (replayed rs)).
(** The file holds the records, and the handle is at its end. *)
Definition recorded (s : PersistentLogStore) (rs : list Rec) : Prop :=
  content (wal_file (ps_wal s)) = log_bytes rec_frame rs ∧
  cursor (wal_file (ps_wal s)) = fsize (wal_file (ps_wal s)) ∧
  Forall rec_fits rs ∧ agrees s rs.

Lemma agrees_op s rs o : agrees s rs → legal_op s o → agrees (run_op s o) (rs ++ [op_rec o]).
Proof.
  intros (Hl & Hm & Hh) [_ Ho]. unfold agrees. rewrite replayed_snoc.
  destruct o as [hs|e|k]; cbn [op_rec apply_rec rp_entries rp_hard_state run_op] in *.
  - done.
  - rewrite legal_snoc, append_snoc, <- Hm. done.
  - destruct (replay_truncate _ k Hl Ho) as [H1 H2]. rewrite H2, <- Hm. done.
Qed.

Lemma wal_of_op s o : ps_wal (run_op s o) = Wal.write_record (ps_wal s) (rec_type (op_rec o)) (rec_data (op_rec o)).
Proof. by destruct o. Qed.

Lemma recorded_op s rs o : recorded s rs → legal_op s o → recorded (run_op s o) (rs ++ [op_rec o]).
Proof.
  intros (Hc & Hcur & Hf & Ha) Ho. split_and!.
  - rewrite wal_of_op. cbn [Wal.write_record wal_file]. rewrite (write_at_end _ _ Hcur). cbn [content].
    rewrite Hc, log_bytes_app. f_equal. unfold log_bytes. simpl. by rewrite app_nil_r.
  - rewrite wal_of_op. cbn [Wal.write_record wal_file]. by rewrite (write_at_end _ _ Hcur).
  - apply Forall_app. split; [done|]. constructor; [apply Ho|done].
  - by apply agrees_op.
Qed.

Lemma recorded_run s rs os : recorded s rs → legal_ops s os → recorded (run s os) (rs ++ (op_rec <$> os)).
Proof.
  revert s rs. induction os as [|o os IH]; intros s rs Hr Hl; [by rewrite app_nil_r|]. destruct Hl as [Ho Hl].
  rewrite fmap_cons, cons_middle, app_assoc. apply (IH (run_op s o)); [by apply recorded_op|done].
Qed.

(** A store in a fresh directory. *)
Definition fresh : PersistentLogStore := mkStore MemLog.new (mkWal (mkFile [] 0) 0) hard_state_default.
Lemma open_fresh : PersistentLogStore.open [] = Ok fresh.
Proof. done. Qed.
Lemma recorded_fresh : recorded fresh [].
Proof. split_and!; [done..|]. by split_and!. Qed.

Definition same_state (s s' : PersistentLogStore) : Prop := ps_mem s = ps_mem s' ∧ ps_hard_state s = ps_hard_state s'.

Lemma agrees_same s s' rs : agrees s rs → agrees s' rs → same_state s s'.
Proof. intros (_ & Hm & Hh) (_ & Hm' & Hh'). split; congruence. Qed.

Lemma legal_ops_take s os n : legal_ops s os → legal_ops s (take n os).
Proof.
  revert s n. induction os as [|o os IH]; intros s [|n]; simpl; try done. intros [Ho Hl]. split; [done|]. by apply IH.
Qed.

(** The records complete in a cut file are those of the first writes. *)
Lemma store_open_cut os n : legal_ops fresh os →
  let m := length (complete rec_frame (op_rec <$> os) n) in
  ∃ s, PersistentLogStore.open (take n (log_bytes rec_frame (op_rec <$> os))) = Ok s ∧ same_state s (run fresh (take m os)).
Proof.
  intros Hl m. pose proof (recorded_run _ _ _ recorded_fresh Hl) as (_ & _ & Hf & _). simpl in Hf.
  assert (Hm : complete rec_frame (op_rec <$> os) n = op_rec <$> take m os).
  { rewrite fmap_take. unfold m. destruct (complete_prefix rec_frame (op_rec <$> os) n) as [rest Hrest].
    revert Hrest. generalize (complete rec_frame (op_rec <$> os) n). intros l ->. by rewrite take_app_length. }
  pose proof (recorded_run _ _ _ recorded_fresh (legal_ops_take _ _ m Hl)) as (_ & _ & _ & Ha). simpl in Ha.
  unfold PersistentLogStore.open, Wal.replay, Wal.open, read_to_end. cbn [wal_file seek_start cursor content].
  change (N.to_nat 0) with 0%nat. rewrite drop_0, (scan_records _ n Hf). cbn [fst snd].
  eexists. split; [reflexivity|]. eapply agrees_same; [|exact Ha].
  rewrite Hm. destruct Ha as (Hleg & _ & _). by split_and!.
Qed.


(** Reopening the durable log.  Without a crash the reopened store is the running one:
    the log, the hard state, and a handle behind the last record, so that writing goes on
    where it stopped. *)
Theorem reopen_recovers os :
  legal_ops fresh os →
  ∃ s, PersistentLogStore.open (content (wal_file (ps_wal (run fresh os)))) = Ok s ∧
    same_state s (run fresh os) ∧ wal_file (ps_wal s) = wal_file (ps_wal (run fresh os)).
Proof.
  intros Hl. pose proof (recorded_run _ _ _ recorded_fresh Hl) as (Hc & Hcur & Hf & Ha). simpl in Hc, Hf, Ha.
  unfold PersistentLogStore.open, Wal.replay, Wal.open, read_to_end. cbn [wal_file seek_start cursor content].
  change (N.to_nat 0) with 0%nat. rewrite drop_0, Hc, (scan_log _ Hf). cbn [fst snd].
  eexists. split_and!; [reflexivity| |].
  - eapply agrees_same; [|exact Ha]. destruct Ha as (Hleg & _ & _). by split_and!.
  - cbn [ps_wal wal_file]. destruct (wal_file (ps_wal (run fresh os))) as [c k] eqn:Hw. unfold fsize in *. cbn in *.
    subst c k. f_equal. lia.
Qed.

(** ** Compaction

    [reset] cuts the file to length zero but leaves the handle where it was, so the hard
    state written next lands behind a gap of zeros. *)

Lemma compact_content s i t : content (wal_file (ps_wal (PersistentLogStore.compact s i t))) =
  replicate (N.to_nat (cursor (wal_file (ps_wal s)))) 0 ++ rec_frame (RHard (ps_hard_state s)).
Proof.
  unfold PersistentLogStore.compact, Wal.append_hard_state, Wal.write_record, Wal.reset, set_len, write_all.
  cbn [ps_wal wal_file content cursor fsize]. change (N.to_nat 0) with 0%nat. simpl take.
  unfold fsize. cbn [content]. change (vlen []) with 0. rewrite N.sub_0_r. cbn [app].
  set (n := N.to_nat (cursor (wal_file (ps_wal s)))). rewrite (take_ge (replicate n 0)) by (rewrite length_replicate; lia).
  rewrite (drop_ge (replicate n 0)), app_nil_r; [done|]. rewrite length_replicate. lia.
Qed.

(** Compaction forgets.  After a compaction of a log that was ever written, a reopened
    store has no entry and the initial hard state: the term, the vote and the entries above
    the compacted index are gone. *)
Theorem compact_forgets os i t :
  legal_ops fresh os → os ≠ [] →
  ∃ s, PersistentLogStore.open (content (wal_file (ps_wal (PersistentLogStore.compact (run fresh os) i t)))) = Ok s ∧
    entries (ps_mem s) = [] ∧ ps_hard_state s = hard_state_default.
Proof.
  intros Hl Hne. pose proof (recorded_run _ _ _ recorded_fresh Hl) as (Hc & Hcur & _ & _).
  rewrite compact_content, Hcur. unfold fsize. rewrite Hc. destruct os as [|o os]; [done|].
  assert (Hlen : ∃ n, N.to_nat (vlen (log_bytes rec_frame ([] ++ (op_rec <$> o :: os)))) = (13 + n)%nat).
  { eexists. unfold vlen. rewrite fmap_cons. cbn [app]. rewrite log_bytes_cons, length_app. unfold rec_frame at 1.
    rewrite length_record, Nat2N.id, <- Nat.add_assoc. reflexivity. }
  destruct Hlen as [n ->]. generalize (rec_frame (RHard (ps_hard_state (run fresh (o :: os))))). intros tail.
  unfold PersistentLogStore.open, Wal.replay, Wal.open, read_to_end. cbn [wal_file seek_start cursor content].
  change (N.to_nat 0) with 0%nat. rewrite drop_0, replicate_add, <- app_assoc.
  generalize (replicate n 0 ++ tail). intros rest. unfold scan_all. cbn [scan].
  assert (Wal.next_record 0 (replicate 13 0 ++ rest) = Stop) as ->.
  { unfold Wal.next_record. by destruct (vlen (replicate 13 0 ++ rest) <? 13). }
  eexists. split; [reflexivity|done].
Qed.
End Store.

(** ** A concrete serializer *)

Module BitsLog.

Definition entry_code (e : LogEntry) : N * N * N * bytes :=
  (e_index e, e_term e, match e_type e with Normal => 0 | MembershipChange => 1 | Barrier => 2 end, e_data e).
Definition entry_decode (x : N * N * N * bytes) : LogEntry :=
  let '(i, t, k, d) := x in
  mkLogEntry i t (if k =? 0 then Normal else if k =? 1 then MembershipChange else Barrier) d.
#[export] Instance entry_json : Json LogEntry :=
  {| to_json e := bits (encode (entry_code e)); from_json d := entry_decode <$> decode (unbits d) |}.
#[export] Instance entry_json_laws : JsonLaws LogEntry.
Proof. split. intros [i t [] d]; simpl; by rewrite unbits_bits, decode_encode. Qed.
#[export] Instance hard_json : Json HardState :=
  {| to_json h := bits (encode (hs_term h, hs_voted_for h, hs_commit h));
     from_json d := (λ '(t, v, c), mkHardState t v c) <$> decode (unbits d) |}.
#[export] Instance hard_json_laws : JsonLaws HardState.
Proof. split. intros [t v c]; simpl; by rewrite unbits_bits, decode_encode. Qed.

Definition writes : list Op :=
  [Save (mkHardState 3 (Some 2) 0); Push (mkLogEntry 1 3 Normal [7]); Push (mkLogEntry 2 3 Normal [8]);
   Truncate 1; Push (mkLogEntry 2 4 Barrier [])].
Lemma writes_legal : legal_ops fresh writes.
Proof. unfold writes. cbn [legal_ops]. split_and!; try done; split; try done; by vm_compute. Qed.

End BitsLog.
Import BitsLog.

Lemma reopen_recovers_witness :
  ∃ s, PersistentLogStore.open (content (wal_file (ps_wal (run fresh writes)))) = Ok s ∧
    same_state s (run fresh writes) ∧ wal_file (ps_wal s) = wal_file (ps_wal (run fresh writes)).
Proof. apply (reopen_recovers writes). exact writes_legal. Defined.
Lemma compact_forgets_witness :
  ∃ s, PersistentLogStore.open (content (wal_file (ps_wal (PersistentLogStore.compact (run fresh writes) 1 3)))) = Ok s ∧
    entries (ps_mem s) = [] ∧ ps_hard_state s = hard_state_default.
Proof. apply (compact_forgets writes 1 3); [exact writes_legal|discriminate]. Defined.
