(* ===== verification/RaftSnapshot.v ===== *)
(** * Snapshot transfer

    [crates/compute/cave-ha/src/raft/snapshot.rs]: a snapshot is cut into chunks
    by the leader and reassembled by [SnapshotReceiver::feed] on the follower;
    [SnapshotTransfer] hands the same chunks out one at a time. *)

From S2P Require Import Prelude RaftTypes.

Record Snapshot : Type := mkSnapshot {
  snap_meta : SnapshotMeta;
  snap_data : bytes
}.

Record SnapshotChunk : Type := mkSnapshotChunk {
  ch_meta : SnapshotMeta;
  ch_offset : u64;
  ch_data : bytes;
  ch_done : bool
}.

Record SnapshotReceiver : Type := mkSnapshotReceiver {
  rc_meta : option SnapshotMeta;
  rc_buffer : bytes;
  rc_next_offset : u64
}.

Record SnapshotTransfer : Type := mkSnapshotTransfer {
  tr_to : N;
  tr_snapshot : Snapshot;
  tr_next_chunk : usize;
  tr_chunk_size : usize
}.

Module Snapshot.

Definition new (index term : N) (membership : MembershipConfig) (data : bytes) : Snapshot :=
  mkSnapshot (mkSnapshotMeta index term membership) data.

(** The [while offset < total] loop of [chunks].  [None]: the fuel ran out; with
    [chunk_size = 0] the loop does not advance, and no fuel is enough. *)
Fixpoint chunks_loop (fuel : nat) (s : Snapshot) (chunk_size offset : N) :
    option (list SnapshotChunk) :=
  let total := vlen (snap_data s) in
  if offset <? total then
    match fuel with
    | O => None
    | S fuel =>
        let stop := N.min (offset +w chunk_size) total in
        let chunk := mkSnapshotChunk (snap_meta s) offset
                       (vslice (snap_data s) offset stop) (stop =? total) in
        (chunk ::.) <$> chunks_loop fuel s chunk_size stop
    end
  else Some [].

Definition chunks (s : Snapshot) (chunk_size : N) : option (list SnapshotChunk) :=
  if bool_decide (snap_data s = []) then
    Some [mkSnapshotChunk (snap_meta s) 0 [] true]
  else chunks_loop (length (snap_data s)) s chunk_size 0.

End Snapshot.

Module SnapshotReceiver.

Definition new : SnapshotReceiver := mkSnapshotReceiver None [] 0.

Definition feed (r : SnapshotReceiver) (chunk : SnapshotChunk) :
    option Snapshot * SnapshotReceiver :=
  let meta1 := match rc_meta r with None => Some (ch_meta chunk) | m => m end in
  let r1 := mkSnapshotReceiver meta1 (rc_buffer r) (rc_next_offset r) in
  let r2 := if ch_offset chunk =? 0
            then mkSnapshotReceiver (Some (ch_meta chunk)) [] 0 else r1 in
  if negb (ch_offset chunk =? rc_next_offset r2) then
    (None, mkSnapshotReceiver (rc_meta r2) [] 0)
  else
    let next_offset := rc_next_offset r2 +w vlen (ch_data chunk) in
    let buffer := rc_buffer r2 ++ ch_data chunk in
    if ch_done chunk then
      (Some (mkSnapshot (default snapshot_meta_default (rc_meta r2)) buffer),
       mkSnapshotReceiver None [] 0)
    else (None, mkSnapshotReceiver (rc_meta r2) buffer next_offset).

(** The chunks of one transfer, fed in order: what each call returned. *)
Fixpoint feed_all (r : SnapshotReceiver) (l : list SnapshotChunk) :
    list (option Snapshot) * SnapshotReceiver :=
  match l with
  | [] => ([], r)
  | c :: l =>
      let '(o, r1) := feed r c in
      let '(os, r2) := feed_all r1 l in (o :: os, r2)
  end.

End SnapshotReceiver.

Module SnapshotTransfer.

Definition new (to : N) (s : Snapshot) (chunk_size : N) : SnapshotTransfer :=
  mkSnapshotTransfer to s 0 chunk_size.

(** [next] recomputes the chunks and returns the one at [next_chunk]. *)
Definition next (t : SnapshotTransfer) : option SnapshotChunk * SnapshotTransfer :=
  match Snapshot.chunks (tr_snapshot t) (tr_chunk_size t) with
  | None => (None, t)
  | Some cs =>
      match vget cs (tr_next_chunk t) with
      | None => (None, t)
      | Some c => (Some c, mkSnapshotTransfer (tr_to t) (tr_snapshot t)
                             (tr_next_chunk t +w 1) (tr_chunk_size t))
      end
  end.

Definition is_done (t : SnapshotTransfer) : bool :=
  let total_chunks :=
    if bool_decide (snap_data (tr_snapshot t) = []) then 1
    else ((vlen (snap_data (tr_snapshot t)) +w tr_chunk_size t) -w 1) / tr_chunk_size t in
  total_chunks <=? tr_next_chunk t.

End SnapshotTransfer.

(** ** The loop terminates, and cuts the data into consecutive pieces *)

Section Chunks.
Context (s : Snapshot) (chunk_size : N).
Hypothesis chunk_pos : 0 < chunk_size.
Hypothesis in_range : vlen (snap_data s) + chunk_size < u64_modulus.

Local Abbreviation total := (vlen (snap_data s)).

Lemma chunks_loop_total fuel offset :
  total - offset ≤ N.of_nat fuel → is_Some (Snapshot.chunks_loop fuel s chunk_size offset).
Proof.
  revert offset. induction fuel as [|fuel IH]; intros offset Hf; simpl;
    destruct (N.ltb_spec offset total) as [Hlt|]; try done; [lia|].
  apply fmap_is_Some, IH. rewrite u64_add_small; lia.
Qed.

Lemma vslice_prefix (o stop : N) : o ≤ stop →
  take (N.to_nat o) (snap_data s) ++ vslice (snap_data s) o stop = take (N.to_nat stop) (snap_data s).
Proof.
  intros H. unfold vslice. replace (N.to_nat stop) with (N.to_nat o + N.to_nat (stop - o))%nat by lia.
  by rewrite take_take_drop.
Qed.

Lemma vlen_vslice (o stop : N) : o ≤ stop ≤ total → vlen (vslice (snap_data s) o stop) = stop - o.
Proof. intros H. unfold vslice, vlen in *. rewrite length_take, length_drop. lia. Qed.

(** A receiver that holds the first [offset] bytes ends up with the whole snapshot. *)
Lemma feed_chunks_loop fuel offset cs m :
  offset < total →
  Snapshot.chunks_loop fuel s chunk_size offset = Some cs →
  offset = 0 ∨ m = Some (snap_meta s) →
  SnapshotReceiver.feed_all (mkSnapshotReceiver m (take (N.to_nat offset) (snap_data s)) offset) cs
  = (replicate (length cs - 1) None ++ [Some s], SnapshotReceiver.new).
Proof.
  revert offset cs m. induction fuel as [|fuel IH]; intros offset cs m Hlt; simpl;
    (destruct (N.ltb_spec offset total); [|lia]); [done|].
  rewrite u64_add_small by lia. set (stop := N.min (offset + chunk_size) total).
  intros (cs' & Hcs & ->)%fmap_Some_1 Hm. cbn [SnapshotReceiver.feed_all].
  assert (Hfeed : SnapshotReceiver.feed
      (mkSnapshotReceiver m (take (N.to_nat offset) (snap_data s)) offset)
      (mkSnapshotChunk (snap_meta s) offset (vslice (snap_data s) offset stop) (stop =? total))
    = if stop =? total then (Some s, SnapshotReceiver.new)
      else (None, mkSnapshotReceiver (Some (snap_meta s)) (take (N.to_nat stop) (snap_data s)) stop)).
  { unfold SnapshotReceiver.feed. simpl.
    assert (Hpre := vslice_prefix offset stop). rewrite vlen_vslice by lia.
    destruct (N.eqb_spec offset 0) as [->|Hne]; simpl.
    - simpl in Hpre. rewrite Hpre, u64_add_small by lia.
      replace (0 + (stop - 0)) with stop by lia.
      destruct (N.eqb_spec stop total) as [->|]; [|done].
      unfold vlen. rewrite take_ge by lia. by destruct s.
    - destruct Hm as [->| ->]; [done|]. rewrite N.eqb_refl. simpl.
      rewrite Hpre, u64_add_small by lia. replace (offset + (stop - offset)) with stop by lia.
      destruct (N.eqb_spec stop total) as [->|]; [|done].
      unfold vlen. rewrite take_ge by lia. by destruct s. }
  rewrite Hfeed. destruct (N.eqb_spec stop total) as [Heq|Hneq].
  - rewrite Heq in Hcs.
    assert (cs' = []) as ->; [|done].
    destruct fuel; simpl in Hcs; rewrite N.ltb_irrefl in Hcs; congruence.
  - assert (Hs : stop < total) by lia.
    rewrite (IH stop cs' (Some (snap_meta s)) Hs Hcs) by auto.
    destruct cs' as [|c cs']; [|simpl; by rewrite Nat.sub_0_r].
    destruct fuel; simpl in Hcs; destruct (N.ltb_spec stop total); try lia; try done.
    by apply fmap_Some in Hcs as (? & _ & ?).
Qed.

Lemma chunks_total : is_Some (Snapshot.chunks s chunk_size).
Proof.
  unfold Snapshot.chunks. case_bool_decide; [done|]. apply chunks_loop_total.
  unfold vlen. lia.
Qed.

Lemma feed_chunks r cs :
  Snapshot.chunks s chunk_size = Some cs →
  SnapshotReceiver.feed_all r cs
  = (replicate (length cs - 1) None ++ [Some s], SnapshotReceiver.new).
Proof.
  unfold Snapshot.chunks. case_bool_decide as Hnil.
  { intros [= <-]. destruct r as [[m|] b o], s as [m' d]. all: simpl in *; by subst. }
  intros Hcs. assert (Hpos : 0 < total) by (unfold vlen; destruct (snap_data s); simpl in *; [done|lia]).
  rewrite <- (feed_chunks_loop _ _ _ None Hpos Hcs) by auto.
  (* the first chunk has offset 0 and resets the receiver *)
  assert (∃ d b cs', cs = mkSnapshotChunk (snap_meta s) 0 d b :: cs') as (d & b & cs' & ->).
  { destruct (length (snap_data s)) eqn:Hlen; simpl in Hcs;
      (destruct (N.ltb_spec 0 total); [|lia]); [done|].
    apply fmap_Some in Hcs as (? & _ & ->). by eauto. }
  simpl. unfold SnapshotReceiver.feed. simpl. done.
Qed.

(** The number of chunks is the data length divided by the chunk size, rounded up. *)
Lemma chunks_loop_length fuel offset cs :
  offset ≤ total → Snapshot.chunks_loop fuel s chunk_size offset = Some cs →
  vlen cs = (total - offset + chunk_size - 1) / chunk_size.
Proof.
  revert offset cs. induction fuel as [|fuel IH]; intros offset cs Hle; simpl;
    destruct (N.ltb_spec offset total) as [Hlt|Hge]; try done.
  1, 3: intros [= <-]; rewrite N.div_small by lia; done.
  rewrite u64_add_small by lia. intros (cs' & Hcs & ->)%fmap_Some_1.
  apply IH in Hcs; [|lia]. rewrite vlen_cons, Hcs.
  destruct (N.min_spec (offset + chunk_size) total) as [[Hm ->]|[Hm ->]].
  - replace (total - offset + chunk_size - 1)
      with (total - (offset + chunk_size) + chunk_size - 1 + 1 * chunk_size) by lia.
    rewrite N.div_add by lia. lia.
  - rewrite N.sub_diag, N.div_small by lia.
    replace (total - offset + chunk_size - 1) with (total - offset - 1 + 1 * chunk_size) by lia.
    rewrite N.div_add, N.div_small by lia. lia.
Qed.

Lemma chunks_length cs : Snapshot.chunks s chunk_size = Some cs →
  vlen cs = if bool_decide (snap_data s = []) then 1 else (total + chunk_size - 1) / chunk_size.
Proof.
  unfold Snapshot.chunks. case_bool_decide; [by intros [= <-]|].
  intros H0%chunks_loop_length; [|lia]. by rewrite N.sub_0_r in H0.
Qed.
End Chunks.

(** ** Properties *)

(** Feeding, in order, the chunks a leader cuts a snapshot into makes the
    follower's receiver answer [None] until the last chunk and then return
    exactly the snapshot, whatever the receiver held before; the cutting loop
    terminates for every positive chunk size. *)
Theorem snapshot_transfer_roundtrip (s : Snapshot) (chunk_size : N) (r : SnapshotReceiver) :
  0 < chunk_size → vlen (snap_data s) + chunk_size < u64_modulus →
  ∃ cs, Snapshot.chunks s chunk_size = Some cs ∧
        SnapshotReceiver.feed_all r cs
        = (replicate (length cs - 1) None ++ [Some s], SnapshotReceiver.new).
Proof.
  intros Hpos Hr. destruct (chunks_total s chunk_size Hpos Hr) as [cs Hcs].
  exists cs. split; [done|]. by eapply feed_chunks.
Qed.

Lemma snapshot_transfer_roundtrip_witness :
  let s := mkSnapshot (mkSnapshotMeta 7 2 (Membership.single 1)) [10; 20; 30; 40; 50] in
  ∃ cs, Snapshot.chunks s 2 = Some cs ∧
        SnapshotReceiver.feed_all (mkSnapshotReceiver None [9; 9] 2) cs
        = (replicate (length cs - 1) None ++ [Some s], SnapshotReceiver.new).
Proof. apply snapshot_transfer_roundtrip; reflexivity. Defined.

(** [SnapshotTransfer::is_done] agrees with [next]: a transfer is done exactly
    when [next] has no chunk left to return. *)
Theorem transfer_is_done_iff (t : SnapshotTransfer) :
  0 < tr_chunk_size t →
  vlen (snap_data (tr_snapshot t)) + tr_chunk_size t < u64_modulus →
  SnapshotTransfer.is_done t = true ↔ (SnapshotTransfer.next t).1 = None.
Proof.
  intros Hpos Hr. unfold SnapshotTransfer.is_done, SnapshotTransfer.next.
  destruct (chunks_total _ _ Hpos Hr) as [cs Hcs]. rewrite Hcs.
  pose proof (chunks_length _ _ Hpos Hr cs Hcs) as Hlen.
  rewrite u64_add_small by lia. rewrite u64_sub_small by lia. rewrite <- Hlen.
  unfold vget. rewrite N.leb_le. destruct (N.ltb_spec (tr_next_chunk t) (vlen cs)) as [Hlt|Hge].
  - assert (is_Some (cs !! N.to_nat (tr_next_chunk t))) as [c ->]
      by (apply lookup_lt_is_Some; unfold vlen in Hlt; lia).
    simpl. split; [lia|done].
  - done.
Qed.

Lemma transfer_is_done_iff_witness :
  let t := mkSnapshotTransfer 3 (mkSnapshot snapshot_meta_default [1; 2; 3]) 1 2 in
  SnapshotTransfer.is_done t = true ↔ (SnapshotTransfer.next t).1 = None.
Proof. apply transfer_is_done_iff; reflexivity. Defined.
