(* ===== verification/HaRecovery.v ===== *)
(** * Snapshot files and point-in-time recovery of cave-ha

    [crates/compute/cave-ha/src/storage/snapshot_store.rs] and [dr/recovery.rs]: the
    directory of snapshot files, and [PitrManager], which replays the write-ahead log from
    the latest snapshot on.

    A directory is a finite map of file names to contents.  [save] is the sequence of the
    operations on it, so that a crash can be placed between any two of them.  [serde_json] on
    the snapshot envelope is a parameter; the order in which a directory is listed is that of
    the map. *)

From S2P Require Import Prelude Bytes Consensus Float Files RaftTypes RaftLog RaftSnapshot HaWal.

Abbreviation Dir := (gmap bytes bytes).
Definition read_dir (d : Dir) : list bytes := elements (dom d).

Inductive FsStep : Type :=
| FsWrite (name data : bytes)
| FsRename (from to : bytes)
| FsRemove (name : bytes).
Definition fs_step (d : Dir) (st : FsStep) : Dir :=
  match st with
  | FsWrite name data => <[name := data]> d
  | FsRename from to =>
      match d !! from with
      | Some data => <[to := data]> (delete from d)
      | None => d
      end
  | FsRemove name => delete name d
  end.
Definition fs_run (d : Dir) (steps : list FsStep) : Dir := foldl fs_step d steps.

Definition strip_prefix (p l : bytes) : option bytes :=
  if bool_decide (take (length p) l = p) then Some (drop (length p) l) else None.
Definition strip_suffix (p l : bytes) : option bytes :=
  if (length p <=? length l)%nat && bool_decide (drop (length l - length p) l = p)
  then Some (take (length l - length p) l) else None.
Definition parse_snap_index (name : bytes) : option u64 :=
  name ← strip_prefix (str "snapshot-") name;
  name ← strip_suffix (str ".snap") name;
  parse_u64 name.

Definition snap_name (index : u64) : bytes := str "snapshot-" ++ decimal index ++ str ".snap".
Definition tmp_name (index : u64) : bytes := str "snapshot-" ++ decimal index ++ str ".tmp".

Module SnapshotStore.
Section WithJson.
Context `{JS : !Json Snapshot}.

(** [cleanup]: the removals it makes in the directory [d]. *)
Definition older (keep_index : u64) (name : bytes) : bool :=
  match parse_snap_index name with Some idx => idx <? keep_index | None => false end.
Definition cleanup (d : Dir) (keep_index : u64) : list FsStep :=
  FsRemove <$> filter (λ name, older keep_index name = true) (read_dir d).

(** The operations of [save], in order. *)
Definition save_steps (d : Dir) (s : Snapshot) : list FsStep :=
  let tmp_path := tmp_name (sm_index (snap_meta s)) in
  let final_path := snap_name (sm_index (snap_meta s)) in
  let write := [FsWrite tmp_path (to_json s); FsRename tmp_path final_path] in
  write ++ cleanup (fs_run d write) (sm_index (snap_meta s)).
Definition save (d : Dir) (s : Snapshot) : Dir := fs_run d (save_steps d s).

Definition load (d : Dir) (index : u64) : HaResult Snapshot :=
  match d !! snap_name index with
  | None => Err (SnapshotErr ("read snapshot-{index}: {e}"%string, [index]))
  | Some data => ok_or (from_json data) (Serialization ("{e}"%string, []))
  end.

Definition find_latest_index (d : Dir) : option u64 :=
  foldl (λ latest name,
    match parse_snap_index name with
    | Some idx => Some (match latest with None => idx | Some l => N.max l idx end)
    | None => latest
    end) None (read_dir d).

Definition load_latest (d : Dir) : HaResult (option Snapshot) :=
  match find_latest_index d with
  | None => Ok None
  | Some index => let? s := load d index in Ok (Some s)
  end.
End WithJson.
End SnapshotStore.

(** ** Point-in-time recovery *)

Inductive RecoveryTarget : Type := TLogIndex (idx : u64) | TLatest | TTimestamp (ts : N).
Record RecoveryResult : Type := mkRecoveryResult {
  recovered_to_index : u64;
  rr_snapshot_index : u64;
  entries_replayed : u64;
  duration_ms : u64;
  success : bool;
  rr_error : option bytes
}.

Module PitrManager.
Section WithJson.
Context `{JS : !Json Snapshot} `{JE : !Json LogEntry} `{JH : !Json HardState}.
(** The data directory: the snapshots and the bytes of [raft.wal]. *)
Context (snapshots : Dir) (disk : bytes).

Definition wal_last_index : option u64 :=
  match Wal.replay (Wal.open disk) with
  | (Ok replay, _) => e_index <$> last (rp_entries replay)
  | (Err _, _) => None
  end.
Definition load_wal_entries (from to : u64) : HaResult (list LogEntry) :=
  let? replay := (Wal.replay (Wal.open disk)).1 in
  Ok (filter (λ e, from ≤ e_index e ∧ e_index e ≤ to) (rp_entries replay)).

(** The loop over the entries; [apply_fn] changes a state of the caller's. *)
Fixpoint apply_all {S} (apply_fn : S → LogEntry → HaResult S) (s : S) (es : list LogEntry) (replayed : u64) :
    HaResult (S * u64) :=
  match es with
  | [] => Ok (s, replayed)
  | e :: es => let? s := apply_fn s e in apply_all apply_fn s es (replayed +w 1)
  end.

Definition recover {S} (target : RecoveryTarget) (apply_fn : S → LogEntry → HaResult S) (s : S) (elapsed : u64) :
    HaResult (S * RecoveryResult) :=
  let? snapshot := SnapshotStore.load_latest snapshots in
  let base_index := default 0 ((λ s, sm_index (snap_meta s)) <$> snapshot) in
  let target_index :=
    match target with
    | TLatest => default base_index wal_last_index
    | TLogIndex idx => idx
    | TTimestamp _ => base_index
    end in
  let? entries := load_wal_entries (base_index +w 1) target_index in
  let? r := apply_all apply_fn s entries 0 in
  Ok (r.1, mkRecoveryResult target_index base_index r.2 elapsed true None).

Definition rpo_seconds (dr_lag_entries : u64) (entries_per_second : f64) : f64 :=
  if f64_le entries_per_second f64_zero then f64_zero
  else f64_div (f64_of_N dr_lag_entries) entries_per_second.
Definition rpo_ok (config_rpo_seconds : u64) (dr_lag_entries : u64) (entries_per_second : f64) : bool :=
  f64_le (rpo_seconds dr_lag_entries entries_per_second) (f64_of_N config_rpo_seconds).
End WithJson.
End PitrManager.

(** ** File names *)

Lemma strip_prefix_app p l : strip_prefix p (p ++ l) = Some l.
Proof. unfold strip_prefix. rewrite take_app_length, drop_app_length, bool_decide_eq_true_2; done. Qed.
Lemma strip_suffix_app p l : strip_suffix p (l ++ p) = Some l.
Proof.
  unfold strip_suffix. rewrite length_app, Nat.add_sub, drop_app_length, take_app_length.
  rewrite bool_decide_eq_true_2 by done. by destruct (Nat.leb_spec (length p) (length l + length p)); [|lia].
Qed.

Lemma parse_snap_name i : i < u64_modulus → parse_snap_index (snap_name i) = Some i.
Proof.
  intros Hi. unfold parse_snap_index, snap_name. rewrite strip_prefix_app. simpl. rewrite strip_suffix_app. simpl.
  by apply parse_u64_decimal.
Qed.
Lemma strip_suffix_inv p l k : strip_suffix p l = Some k → l = k ++ p.
Proof.
  unfold strip_suffix. destruct (_ && _) eqn:Hb; [|done]. apply andb_true_iff in Hb as [_ Hb%bool_decide_eq_true].
  intros [= <-]. rewrite <- Hb at 2. by rewrite take_drop.
Qed.
Lemma tmp_not_snap l k : l ++ str ".tmp" ≠ k ++ str ".snap".
Proof. intros He%(f_equal reverse). rewrite !reverse_app in He. vm_compute (reverse (str _)) in He. done. Qed.
Lemma parse_tmp_name i : parse_snap_index (tmp_name i) = None.
Proof.
  unfold parse_snap_index, tmp_name. rewrite strip_prefix_app. simpl.
  destruct (strip_suffix (str ".snap") (decimal i ++ str ".tmp")) eqn:Hs; [|done].
  by apply strip_suffix_inv, tmp_not_snap in Hs.
Qed.
Lemma tmp_ne_snap i j : tmp_name i ≠ snap_name j.
Proof. unfold tmp_name, snap_name. rewrite !app_assoc. apply tmp_not_snap. Qed.

(** ** Saving is atomic *)

Section Save.
Context `{JS : !Json Snapshot} `{LS : !JsonLaws Snapshot}.

(** The latest index is the greatest of those of the names listed. *)
Lemma latest_fold names (acc : option N) :
  let r := foldl (λ latest name,
    match parse_snap_index name with
    | Some idx => Some (match latest with None => idx | Some l => N.max l idx end)
    | None => latest
    end) acc names in
  let found j := acc = Some j ∨ ∃ name, name ∈ names ∧ parse_snap_index name = Some j in
  (∀ j, r = Some j → found j) ∧ (∀ j, found j → ∃ i, r = Some i ∧ j ≤ i).
Proof.
  revert acc. induction names as [|name names IH]; intros acc; cbn [foldl].
  { split; [tauto|]. intros j [->|(? & ?%elem_of_nil & _)]; [by exists j|done]. }
  set (acc' := match parse_snap_index name with Some idx => _ | None => acc end). specialize (IH acc') as [IH1 IH2].
  split.
  - intros j [Hj|(n & Hn & Hp)]%IH1; [|right; exists n; split; [by right|done]]. unfold acc' in Hj.
    destruct (parse_snap_index name) as [k|] eqn:Hk; [|by left]. destruct acc as [a|]; simplify_eq.
    + destruct (N.max_spec a k) as [[_ ->]|[_ ->]]; [right; exists name; split; [by left|done]|by left].
    + right. exists name. split; [by left|done].
  - assert (Hacc : ∀ j, acc' = Some j → ∃ i, foldl (λ latest name,
      match parse_snap_index name with
      | Some idx => Some (match latest with None => idx | Some l => N.max l idx end)
      | None => latest
      end) acc' names = Some i ∧ j ≤ i) by (intros j Hj; apply IH2; by left).
    intros j [->|(n & [->|Hn]%elem_of_cons & Hp)]; [| |apply IH2; right; eauto]; unfold acc' in Hacc.
    + destruct (parse_snap_index name) as [k|]; [|by apply Hacc].
      destruct (Hacc _ eq_refl) as (i & Hi & Hle). exists i. split; [done|lia].
    + rewrite Hp in Hacc. destruct (Hacc _ eq_refl) as (i & Hi & Hle). exists i.
      split; [unfold acc'; by rewrite Hp|]. destruct acc; lia.
Qed.
Lemma find_latest_ext d d' :
  (∀ name j, parse_snap_index name = Some j → name ∈ dom d ↔ name ∈ dom d') →
  SnapshotStore.find_latest_index d = SnapshotStore.find_latest_index d'.
Proof.
  intros Hd. unfold SnapshotStore.find_latest_index. destruct (latest_fold (read_dir d) None) as [H1 H2].
  destruct (latest_fold (read_dir d') None) as [H1' H2']. revert H1 H2 H1' H2'.
  set (r := foldl _ _ (read_dir d)). set (r' := foldl _ _ (read_dir d')). intros H1 H2 H1' H2'.
  assert (Hsame : ∀ j, (∃ name, name ∈ read_dir d ∧ parse_snap_index name = Some j) ↔
                       ∃ name, name ∈ read_dir d' ∧ parse_snap_index name = Some j).
  { intros j. unfold read_dir. split; intros (n & Hn & Hp); exists n; split; try done;
      apply elem_of_elements; apply elem_of_elements in Hn; by eapply Hd. }
  destruct r as [i|] eqn:Hr, r' as [i'|] eqn:Hr'; [|..|done].
  - destruct (H1 i eq_refl) as [|Hi]; [done|]. destruct (H1' i' eq_refl) as [|Hi']; [done|].
    destruct (H2 i') as (k & [= <-] & ?); [right; by apply Hsame|].
    destruct (H2' i) as (k & [= <-] & ?); [right; by apply Hsame|]. f_equal. lia.
  - destruct (H1 i eq_refl) as [|Hi]; [done|]. destruct (H2' i) as (k & ? & _); [right; by apply Hsame|done].
  - destruct (H1' i' eq_refl) as [|Hi]; [done|]. destruct (H2 i') as (k & ? & _); [right; by apply Hsame|done].
Qed.

(** Every snapshot file of [d] has an index of at most [i]. *)
Definition at_most (d : Dir) (i : u64) : Prop := ∀ name j, name ∈ dom d → parse_snap_index name = Some j → j ≤ i.
(** The latest snapshot of the directory is [s]. *)
Definition holds_latest (d : Dir) (s : Snapshot) : Prop :=
  at_most d (sm_index (snap_meta s)) ∧ d !! snap_name (sm_index (snap_meta s)) = Some (to_json s).

Lemma load_holds d s : holds_latest d s → sm_index (snap_meta s) < u64_modulus → SnapshotStore.load_latest d = Ok (Some s).
Proof.
  intros [Hm Hs] Hi. unfold SnapshotStore.load_latest.
  assert (SnapshotStore.find_latest_index d = Some (sm_index (snap_meta s))) as ->.
  { destruct (latest_fold (read_dir d) None) as [H1 H2]. unfold SnapshotStore.find_latest_index. revert H1 H2.
    set (r := foldl _ _ _). intros H1 H2. destruct (H2 (sm_index (snap_meta s))) as (j & Hj & Hle).
    { right. exists (snap_name (sm_index (snap_meta s))). rewrite parse_snap_name by done. split; [|done].
      unfold read_dir. apply elem_of_elements, elem_of_dom. by eexists. }
    destruct (H1 j Hj) as [|(n & Hn & Hp)]; [done|]. unfold read_dir in Hn. apply elem_of_elements in Hn.
    rewrite Hj. f_equal. specialize (Hm n j Hn Hp). lia. }
  unfold SnapshotStore.load. by rewrite Hs, from_to_json.
Qed.

(** A temporary file is not seen. *)
Lemma load_tmp d i data : SnapshotStore.load_latest (<[tmp_name i := data]> d) = SnapshotStore.load_latest d.
Proof.
  unfold SnapshotStore.load_latest. rewrite (find_latest_ext (<[tmp_name i := data]> d) d).
  - destruct (SnapshotStore.find_latest_index d) as [j|]; [|done]. unfold SnapshotStore.load.
    by rewrite lookup_insert_ne by apply tmp_ne_snap.
  - intros name j Hp. rewrite dom_insert. split; [|set_solver]. intros [->%elem_of_singleton|]%elem_of_union; [|done].
    by rewrite parse_tmp_name in Hp.
Qed.

(** The renamed file is the latest, and no removal touches it. *)
Lemma holds_renamed d s : at_most d (sm_index (snap_meta s)) → sm_index (snap_meta s) < u64_modulus →
  holds_latest (fs_run d (take 2 (SnapshotStore.save_steps d s))) s.
Proof.
  intros Hm Hi. unfold SnapshotStore.save_steps. rewrite take_app_length' by done. simpl.
  rewrite lookup_insert_eq. split.
  - intros name j. rewrite dom_insert, dom_delete, dom_insert. intros Hn Hp.
    destruct (decide (name = snap_name (sm_index (snap_meta s)))) as [->|Hne].
    { rewrite parse_snap_name in Hp by done. simplify_eq. lia. }
    apply (Hm name); [set_solver|done].
  - apply lookup_insert_eq.
Qed.
Lemma holds_remove d s name : holds_latest d s → sm_index (snap_meta s) < u64_modulus →
  SnapshotStore.older (sm_index (snap_meta s)) name = true → holds_latest (delete name d) s.
Proof.
  intros [Hm Hs] Hi Ho. split.
  - intros n j Hn. apply Hm. set_solver.
  - rewrite lookup_delete_ne; [done|]. intros ->. unfold SnapshotStore.older in Ho.
    rewrite parse_snap_name in Ho by done. apply N.ltb_lt in Ho. lia.
Qed.
Lemma holds_cleanup d s names : holds_latest d s → sm_index (snap_meta s) < u64_modulus →
  Forall (λ name, SnapshotStore.older (sm_index (snap_meta s)) name = true) names →
  holds_latest (fs_run d (FsRemove <$> names)) s.
Proof.
  intros Hd Hi Hn. revert d Hd. induction Hn as [|name names Ho _ IH]; intros d Hd; [done|].
  apply IH. by apply holds_remove.
Qed.

(** Snapshots are replaced atomically.  Saving a snapshot at least as recent as those on
    disk, and crashing between any two operations on the directory or in the middle of
    writing the temporary file, leaves either the previous latest snapshot or the new one to
    be loaded; from the rename on, and in the end, it is the new one. *)
Theorem save_atomic d s n :
  at_most d (sm_index (snap_meta s)) → sm_index (snap_meta s) < u64_modulus →
  let crashed := fs_run d (take n (SnapshotStore.save_steps d s)) in
  SnapshotStore.load_latest crashed = (if (n <? 2)%nat then SnapshotStore.load_latest d else Ok (Some s)) ∧
  (∀ torn, SnapshotStore.load_latest (<[tmp_name (sm_index (snap_meta s)) := torn]> d) = SnapshotStore.load_latest d) ∧
  SnapshotStore.load_latest (SnapshotStore.save d s) = Ok (Some s).
Proof.
  intros Hm Hi crashed. pose proof (holds_renamed d s Hm Hi) as Hr.
  assert (Hlate : ∀ k, SnapshotStore.load_latest (fs_run d (take (2 + k) (SnapshotStore.save_steps d s))) = Ok (Some s)).
  { intros k. apply load_holds; [|done]. unfold SnapshotStore.save_steps, SnapshotStore.cleanup in *.
    rewrite take_app_length' in Hr by done. rewrite take_app_add' by done. unfold fs_run in *.
    rewrite foldl_app, <- fmap_take. apply (holds_cleanup _ s _ Hr Hi). apply Forall_take, Forall_forall.
    by intros name [Ho _]%list_elem_of_filter. }
  split_and!.
  - unfold crashed. destruct n as [|[|n]]; [done| |apply (Hlate n)]. apply load_tmp.
  - intros torn. apply load_tmp.
  - specialize (Hlate (length (SnapshotStore.save_steps d s))). rewrite take_ge in Hlate by lia. exact Hlate.
Qed.
End Save.

(** ** Recovery replays the log *)

Section Recover.
Context `{JS : !Json Snapshot} `{JE : !Json LogEntry} `{JH : !Json HardState}.
Context `{LE : !JsonLaws LogEntry} `{LH : !JsonLaws HardState}.

(** Writes that never replace an entry: each one pushed is the next. *)
Definition extending_op (s : PersistentLogStore) (o : Op) : Prop :=
  match o with Push e => e_index e = MemLog.top (ps_mem s) + 1 | _ => True end.
Fixpoint extending (s : PersistentLogStore) (os : list Op) : Prop :=
  match os with [] => True | o :: os => extending_op s o ∧ extending (run_op s o) os end.

Lemma filter_consecutive_le c es k : MemLog.consecutive c es →
  filter (λ e, e_index e ≤ k) es = take (N.to_nat (k + 1 - c)) es.
Proof.
  revert c. induction es as [|e es IH]; intros c Hc; [by rewrite take_nil|].
  apply MemLog.consecutive_cons in Hc as [He Hc]. rewrite filter_cons, (IH _ Hc), He. case_decide.
  - replace (N.to_nat (k + 1 - c)) with (S (N.to_nat (k + 1 - (c + 1)))) by lia. done.
  - replace (N.to_nat (k + 1 - (c + 1))) with 0%nat by lia. by replace (N.to_nat (k + 1 - c)) with 0%nat by lia.
Qed.
Lemma filter_consecutive_ge c es k : MemLog.consecutive c es →
  filter (λ e, k ≤ e_index e) es = drop (N.to_nat (k - c)) es.
Proof.
  revert c. induction es as [|e es IH]; intros c Hc; [by rewrite drop_nil|].
  apply MemLog.consecutive_cons in Hc as [He Hc]. rewrite filter_cons, (IH _ Hc), He. case_decide.
  - replace (N.to_nat (k - (c + 1))) with 0%nat by lia. by replace (N.to_nat (k - c)) with 0%nat by lia.
  - replace (N.to_nat (k - c)) with (S (N.to_nat (k - (c + 1)))) by lia. done.
Qed.
Lemma filter_range es base idx : MemLog.consecutive 1 es →
  filter (λ e, base + 1 ≤ e_index e ∧ e_index e ≤ idx) es = take (N.to_nat (idx - base)) (drop (N.to_nat base) es).
Proof.
  intros Hc. transitivity (filter (λ e, e_index e ≤ idx) (filter (λ e, base + 1 ≤ e_index e) es)).
  { rewrite list_filter_filter. apply list_filter_iff. intros e. tauto. }
  rewrite (filter_consecutive_ge 1) by done. replace (base + 1 - 1) with base by lia.
  rewrite (filter_consecutive_le (1 + base)); [f_equal; lia|].
  intros n e. rewrite lookup_drop. intros He%Hc. lia.
Qed.

(** The entries a replay collects are then those of the log. *)
Lemma extending_entries s rs os :
  recorded s rs → rp_entries (replayed rs) = entries (ps_mem s) → legal_ops s os → extending s os →
  rp_entries (replayed (rs ++ (op_rec <$> os))) = entries (ps_mem (run s os)).
Proof.
  revert s rs. induction os as [|o os IH]; intros s rs Hr He Hl Hx; [by rewrite app_nil_r|].
  destruct Hl as [Ho Hl], Hx as [Hox Hx]. rewrite fmap_cons, cons_middle, app_assoc.
  apply (IH (run_op s o)); [by apply recorded_op| |done|done]. rewrite replayed_snoc.
  destruct Hr as (_ & _ & _ & Hleg & Hm & _). pose proof (plain_append _ Hleg) as Hp. rewrite <- Hm in Hp.
  destruct o as [hs|e|k]; cbn [op_rec apply_rec rp_entries run_op PersistentLogStore.append
    PersistentLogStore.truncate_to PersistentLogStore.save_hard_state ps_mem] in *; [done| |].
  - change (MemLog.append (ps_mem s) [e]) with (MemLog.append_one (ps_mem s) e).
    destruct (plain_append_one _ e Hp (proj2 Ho)) as [_ ->]. cbn [entries]. rewrite He, take_ge; [done|].
    simpl in Hox. destruct Hp as (_ & Hi & _). unfold MemLog.top, vlen in Hox. lia.
  - rewrite (plain_truncate _ k Hp (proj2 Ho)). cbn [entries]. rewrite He.
    destruct Hp as ((Hidx & _) & Hi & _). rewrite (filter_consecutive_le 1); [f_equal; lia|].
    intros n e Hn. rewrite (Hidx _ _ Hn), Hi. lia.
Qed.

(** Point-in-time recovery.  Over a log whose entries were only appended and truncated,
    recovery to an index applies exactly the entries of the log above the latest snapshot
    up to that index, once each and in order, and stops at the first error. *)
Theorem recover_replays_log {S} os snapshots o idx (apply_fn : S → LogEntry → HaResult S) st elapsed :
  legal_ops fresh os → extending fresh os → SnapshotStore.load_latest snapshots = Ok o →
  let base := default 0 ((λ s, sm_index (snap_meta s)) <$> o) in
  base < u64_max →
  PitrManager.recover snapshots (content (wal_file (ps_wal (run fresh os)))) (TLogIndex idx) apply_fn st elapsed =
  let? r := PitrManager.apply_all apply_fn st
    (take (N.to_nat (idx - base)) (drop (N.to_nat base) (entries (ps_mem (run fresh os))))) 0 in
  Ok (r.1, mkRecoveryResult idx base r.2 elapsed true None).
Proof.
  intros Hl Hx Ho base Hb. pose proof (recorded_run _ _ _ recorded_fresh Hl) as (Hc & _ & Hf & Hleg & Hm & _).
  simpl in Hc, Hf, Hleg, Hm. pose proof (extending_entries _ _ _ recorded_fresh eq_refl Hl Hx) as He. simpl in He.
  pose proof (plain_append _ Hleg) as ((Hidx & _) & Hi & _). rewrite <- Hm in Hidx, Hi.
  assert (Hcons : MemLog.consecutive 1 (entries (ps_mem (run fresh os)))).
  { intros n e Hn. rewrite (Hidx _ _ Hn), Hi. lia. }
  unfold PitrManager.recover. rewrite Ho. simpl. fold base. unfold PitrManager.load_wal_entries, Wal.replay, Wal.open, read_to_end.
  cbn [wal_file seek_start cursor content]. change (N.to_nat 0) with 0%nat. rewrite drop_0, Hc, (scan_log _ Hf). cbn [fst].
  fold (replayed (op_rec <$> os)). rewrite He, u64_add_1 by done.
  by rewrite filter_range.
Qed.
End Recover.

(** ** A concrete serializer of snapshots *)

Module BitsSnapshot.
Import BitsLog.

Definition set_code (s : gset N) : list N := elements s.
Definition snap_code (s : Snapshot) : N * N * (list N * list N * option (list N) * bool) * bytes :=
  let m := sm_membership (snap_meta s) in
  (sm_index (snap_meta s), sm_term (snap_meta s),
   (set_code (voters m), set_code (learners m), set_code <$> voters_outgoing m, auto_leave m), snap_data s).
Definition snap_decode (x : N * N * (list N * list N * option (list N) * bool) * bytes) : Snapshot :=
  let '(i, t, (v, l, o, a), d) := x in
  mkSnapshot (mkSnapshotMeta i t (mkMembershipConfig (list_to_set v) (list_to_set l) (list_to_set <$> o) a)) d.
Lemma snap_decode_code s : snap_decode (snap_code s) = s.
Proof.
  destruct s as [[i t [v l o a]] d]. unfold snap_code, snap_decode, set_code. simpl.
  rewrite !list_to_set_elements_L. destruct o as [o|]; simpl; [|done]. by rewrite list_to_set_elements_L.
Qed.
#[export] Instance snapshot_json : Json Snapshot :=
  {| to_json s := bits (encode (snap_code s)); from_json d := snap_decode <$> decode (unbits d) |}.
#[export] Instance snapshot_json_laws : JsonLaws Snapshot.
Proof. split. intros s. cbn [to_json from_json snapshot_json]. rewrite unbits_bits, decode_encode. cbn [fmap option_fmap option_map]. by rewrite snap_decode_code. Qed.

Definition snap (i : N) : Snapshot := mkSnapshot (mkSnapshotMeta i 1 membership_default) [i].
Definition dir : Dir := SnapshotStore.save ∅ (snap 3).
Lemma dir_at_most : at_most dir (sm_index (snap_meta (snap 7))).
Proof.
  intros name j Hn. assert (name = snap_name 3) as ->.
  { assert (Hd : dom dir = {[snap_name 3]}) by (refine (proj1 (bool_decide_eq_true _) _); vm_compute; reflexivity). rewrite Hd in Hn.
    by apply elem_of_singleton in Hn. }
  rewrite parse_snap_name by done. intros [= <-]. by vm_compute.
Qed.

(** Entries applied are collected. *)
Definition note (acc : list LogEntry) (e : LogEntry) : HaResult (list LogEntry) := Ok (acc ++ [e]).
Definition history : list Op :=
  [Push (mkLogEntry 1 1 Normal [1]); Push (mkLogEntry 2 1 Normal [2]); Push (mkLogEntry 3 1 Normal [3]);
   Push (mkLogEntry 4 1 Normal [4]); Push (mkLogEntry 5 1 Normal [5])].
End BitsSnapshot.
Import BitsLog BitsSnapshot.

Lemma save_atomic_witness :
  let crashed := fs_run dir (take 1 (SnapshotStore.save_steps dir (snap 7))) in
  SnapshotStore.load_latest crashed = SnapshotStore.load_latest dir ∧
  SnapshotStore.load_latest (SnapshotStore.save dir (snap 7)) = Ok (Some (snap 7)).
Proof.
  assert (Hi : sm_index (snap_meta (snap 7)) < u64_modulus) by (vm_compute; reflexivity).
  destruct (save_atomic dir (snap 7) 1 dir_at_most Hi) as (H1 & _ & H3). cbn [Nat.ltb Nat.leb] in H1. split; [exact H1|exact H3].
Defined.

(** A snapshot at 3 and a log of five entries: recovery to 4 applies the fourth. *)
Lemma recover_replays_log_witness :
  PitrManager.recover dir (content (wal_file (ps_wal (run fresh history)))) (TLogIndex 4) note [] 0 =
  Ok ([mkLogEntry 4 1 Normal [4]], mkRecoveryResult 4 3 1 0 true None).
Proof.
  rewrite (recover_replays_log history dir (Some (snap 3)) 4 note [] 0).
  - vm_compute. reflexivity.
  - unfold history. cbn [legal_ops]. split_and!; try done; split; try done; by vm_compute.
  - unfold history. cbn [extending]. split_and!; try done; by vm_compute.
  - vm_compute. reflexivity.
  - vm_compute. reflexivity.
Defined.

(** An entry that was replaced in the log is applied as well. *)
Lemma recover_applies_replaced :
  let os := [Push (mkLogEntry 1 1 Normal [1]); Push (mkLogEntry 2 1 Normal [2]); Push (mkLogEntry 2 3 Normal [9])] in
  entries (ps_mem (run fresh os)) = [mkLogEntry 1 1 Normal [1]; mkLogEntry 2 3 Normal [9]] ∧
  PitrManager.recover ∅ (content (wal_file (ps_wal (run fresh os)))) TLatest note [] 0 =
  Ok ([mkLogEntry 1 1 Normal [1]; mkLogEntry 2 1 Normal [2]; mkLogEntry 2 3 Normal [9]], mkRecoveryResult 2 0 3 0 true None).
Proof. split; vm_compute; reflexivity. Qed.
