(* ===== verification/RaftMembership.v ===== *)
(** * Membership changes by joint consensus

    [crates/compute/cave-ha/src/raft/membership.rs], with the quorum arithmetic of
    [types.rs]: the configurations of a change, their validation, and the
    intersection of quorums that makes the two-phase change safe. *)

From S2P Require Import Prelude RaftTypes.

Module MembershipChange.

Definition joint_for_add (current : MembershipConfig) (new_id : N) (is_learner : bool) :
    MembershipConfig :=
  let new_voters := if is_learner then voters current else voters current ∪ {[new_id]} in
  let new_learners := if is_learner then learners current ∪ {[new_id]}
                      else learners current ∖ {[new_id]} in
  mkMembershipConfig new_voters new_learners (Some (voters current)) true.

Definition joint_for_remove (current : MembershipConfig) (remove_id : N) : MembershipConfig :=
  mkMembershipConfig (voters current ∖ {[remove_id]}) (learners current ∖ {[remove_id]})
    (Some (voters current)) true.

Definition leave_joint (joint : MembershipConfig) : MembershipConfig :=
  mkMembershipConfig (voters joint) (learners joint) None false.

Inductive invalid : Set := NoVoters | Overlap (ids : gset N) | RemovesMany.

Definition validate (current proposed : MembershipConfig) : result invalid unit :=
  if bool_decide (voters proposed = ∅) then Err NoVoters
  else
    let overlap := voters proposed ∩ learners proposed in
    if bool_decide (overlap ≠ ∅) then Err (Overlap overlap)
    else
      let removed := voters current ∖ voters proposed in
      if (1 <? size removed)%nat then Err RemovesMany else Ok tt.

End MembershipChange.

Import Membership MembershipChange.

(** ** Quorums are strict majorities *)

Lemma votes_in_size (set votes : gset N) : votes_in set votes = size (set ∩ votes).
Proof.
  unfold votes_in. rewrite <- (size_list_to_set (C := gset N) (filter (λ id, id ∈ votes) (btree_iter set))).
  - apply (f_equal size). apply set_eq. intros x.
    rewrite elem_of_list_to_set, list_elem_of_filter, elem_of_btree_iter. set_solver.
  - apply NoDup_filter. unfold btree_iter. rewrite merge_sort_Permutation. apply NoDup_elements.
Qed.

Definition majority (set votes : gset N) : Prop := (size set < 2 * size (set ∩ votes))%nat.

Lemma quorum_majority (set votes : gset N) :
  (quorum (size set) ≤ votes_in set votes)%nat ↔ majority set votes.
Proof.
  rewrite votes_in_size. unfold quorum, majority.
  pose proof (Nat.div_mod_eq (size set) 2). pose proof (Nat.mod_upper_bound (size set) 2). lia.
Qed.

Lemma has_quorum_majority c votes :
  has_quorum c votes = true ↔
  majority (voters c) votes ∧ (∀ old, voters_outgoing c = Some old → majority old votes).
Proof.
  unfold has_quorum. rewrite <- quorum_majority.
  destruct (Nat.ltb_spec (votes_in (voters c) votes) (quorum (size (voters c)))).
  - split; [done|lia].
  - destruct (voters_outgoing c) as [old|]; [|naive_solver].
    rewrite negb_true_iff, Nat.ltb_ge, quorum_majority. naive_solver.
Qed.

Lemma majority_intersect (set v1 v2 : gset N) :
  majority set v1 → majority set v2 → ∃ x, x ∈ set ∧ x ∈ v1 ∧ x ∈ v2.
Proof.
  unfold majority. intros H1 H2.
  destruct (set_choose_or_empty ((set ∩ v1) ∩ (set ∩ v2))) as [[x Hx]|Hemp]; [set_solver|].
  assert (Hu : size ((set ∩ v1) ∪ (set ∩ v2)) = (size (set ∩ v1) + size (set ∩ v2))%nat)
    by (apply size_union; set_solver).
  assert (Hs : (size ((set ∩ v1) ∪ (set ∩ v2)) ≤ size set)%nat) by (apply subseteq_size; set_solver).
  lia.
Qed.

Lemma has_quorum_self c id :
  voters c = {[id]} → voters_outgoing c = None → has_quorum c {[id]} = true.
Proof.
  intros Hv Ho. apply has_quorum_majority. rewrite Hv, Ho. split; [|done].
  unfold majority. replace ({[id]} ∩ {[id]} : gset N) with ({[id]} : gset N) by set_solver.
  rewrite size_singleton. lia.
Qed.

Lemma has_quorum_mono c v1 v2 : v1 ⊆ v2 → has_quorum c v1 = true → has_quorum c v2 = true.
Proof.
  intros Hsub. rewrite !has_quorum_majority. unfold majority.
  assert (Hm : ∀ s : gset N, (size (s ∩ v1) ≤ size (s ∩ v2))%nat)
    by (intros s; apply subseteq_size; set_solver).
  intros [H1 H2]. split; [specialize (Hm (voters c)); lia|].
  intros old Ho. specialize (H2 old Ho). specialize (Hm old). lia.
Qed.

Lemma has_quorum_intersect c v1 v2 :
  has_quorum c v1 = true → has_quorum c v2 = true → ∃ x, x ∈ voters c ∧ x ∈ v1 ∧ x ∈ v2.
Proof.
  rewrite !has_quorum_majority. intros [H1 _] [H2 _]. by apply majority_intersect.
Qed.

(** ** Properties *)

(** Across a membership change, every quorum of the old configuration, of the
    joint configuration built by [joint_for_add] or [joint_for_remove], and of the
    configuration [leave_joint] ends in, shares a voter with every quorum of its
    neighbour: no two phases of a change can decide independently. *)
Theorem joint_consensus_quorums (c j : MembershipConfig) (v1 v2 : gset N) :
  voters_outgoing c = None →
  (∃ id l, j = joint_for_add c id l) ∨ (∃ id, j = joint_for_remove c id) →
  (has_quorum c v1 = true → has_quorum j v2 = true → ∃ x, x ∈ voters c ∧ x ∈ v1 ∧ x ∈ v2) ∧
  (has_quorum j v1 = true → has_quorum (leave_joint j) v2 = true →
     ∃ x, x ∈ voters j ∧ x ∈ v1 ∧ x ∈ v2).
Proof.
  intros Hc Hj.
  assert (Hout : voters_outgoing j = Some (voters c)) by naive_solver.
  rewrite !has_quorum_majority. split.
  - intros [H1 _] [_ H2]. apply majority_intersect; [done|]. by apply H2.
  - intros [H1 _] [H2 _]. by apply majority_intersect.
Qed.

Lemma joint_consensus_quorums_witness :
  let c := mkMembershipConfig {[1; 2; 3]} ∅ None false in
  let j := joint_for_add c 4 false in
  (has_quorum c {[1; 2]} = true → has_quorum j {[2; 3; 4]} = true →
     ∃ x, x ∈ voters c ∧ x ∈ ({[1; 2]} : gset N) ∧ x ∈ ({[2; 3; 4]} : gset N)) ∧
  (has_quorum j {[1; 2]} = true → has_quorum (leave_joint j) {[2; 3; 4]} = true →
     ∃ x, x ∈ voters j ∧ x ∈ ({[1; 2]} : gset N) ∧ x ∈ ({[2; 3; 4]} : gset N)).
Proof. apply joint_consensus_quorums; [reflexivity | left; by exists 4, false]. Defined.

(** [validate] accepts exactly the proposals with at least one voter, disjoint
    voters and learners, and at most one voter removed. *)
Theorem validate_ok_iff (current proposed : MembershipConfig) :
  validate current proposed = Ok tt ↔
  voters proposed ≠ ∅ ∧ voters proposed ∩ learners proposed = ∅ ∧
  (size (voters current ∖ voters proposed) ≤ 1)%nat.
Proof.
  unfold validate. repeat case_bool_decide; [naive_solver|naive_solver|].
  destruct (Nat.ltb_spec 1 (size (voters current ∖ voters proposed))).
  - split; [done|lia].
  - split; [|done]. intros _. split_and!; [done| |lia].
    by destruct (decide (voters proposed ∩ learners proposed = ∅)).
Qed.
