(* ===== verification/RaftStateMachine.v ===== *)
(** * The state machines of cave-ha

    [crates/compute/cave-ha/src/raft/state_machine.rs]: the two instances of the
    kernel trait [StateMachine].  [serde_json] on commands and on the key-value map
    is a parameter (class [KvJson]); what the snapshot theorem needs of it, that
    decoding undoes encoding, is the class [KvJsonLaws]. *)

From stdpp Require Import strings.
From S2P Require Import Prelude Consensus.

Inductive NoopStateMachine : Set := mkNoop.

#[export] Instance noop_state_machine : Kernel.StateMachine NoopStateMachine := {
  Kernel.sm_apply := λ _ s, (Ok [], s);
  Kernel.sm_snapshot := λ _, Ok [];
  Kernel.sm_restore := λ _ s, (Ok tt, s)
}.

Inductive KvCommand : Type :=
| KvSet (key value : string)
| KvDelete (key : string).

Class KvJson : Type := {
  command_from_slice : bytes → option KvCommand;
  map_to_vec : gmap string string → option bytes;
  map_from_slice : bytes → option (gmap string string)
}.
Class KvJsonLaws `{!KvJson} : Prop := {
  map_roundtrip m d : map_to_vec m = Some d → map_from_slice d = Some m;
  map_encodes m : is_Some (map_to_vec m)
}.

Record KvStateMachine : Type := mkKv { inner : gmap string string }.

Section Kv.
Context `{KJ : !KvJson}.

Definition kv_new : KvStateMachine := mkKv ∅.
Definition kv_get (key : string) (s : KvStateMachine) : option string := inner s !! key.

Definition kv_apply (e : Kernel.LogEntry) (s : KvStateMachine) :
    Kernel.ConsensusResult bytes * KvStateMachine :=
  if bool_decide (Kernel.data e = []) then (Ok [], s)
  else
    match command_from_slice (Kernel.data e) with
    | None => (Err (Kernel.Storage ("kv decode", [])), s)
    | Some (KvSet key value) => (Ok [], mkKv (<[key := value]> (inner s)))
    | Some (KvDelete key) => (Ok [], mkKv (delete key (inner s)))
    end.

Definition kv_snapshot (s : KvStateMachine) : Kernel.ConsensusResult bytes :=
  match map_to_vec (inner s) with
  | Some d => Ok d
  | None => Err (Kernel.Storage ("kv encode", []))
  end.

Definition kv_restore (data : bytes) (s : KvStateMachine) :
    Kernel.ConsensusResult unit * KvStateMachine :=
  match map_from_slice data with
  | Some m => (Ok tt, mkKv m)
  | None => (Err (Kernel.Storage ("kv restore", [])), s)
  end.

#[export] Instance kv_state_machine : Kernel.StateMachine KvStateMachine := {
  Kernel.sm_apply := kv_apply;
  Kernel.sm_snapshot := kv_snapshot;
  Kernel.sm_restore := kv_restore
}.

(** The state after a sequence of entries. *)
Definition kv_replay (es : list Kernel.LogEntry) (s : KvStateMachine) : KvStateMachine :=
  foldl (λ s e, (kv_apply e s).2) s es.

(** What an entry says about [key]: a new value, a removal, or nothing. *)
Definition writes (key : string) (e : Kernel.LogEntry) : option (option string) :=
  if bool_decide (Kernel.data e = []) then None
  else
    match command_from_slice (Kernel.data e) with
    | Some (KvSet k v) => if decide (k = key) then Some (Some v) else None
    | Some (KvDelete k) => if decide (k = key) then Some None else None
    | None => None
    end.

Lemma kv_apply_get key e s :
  kv_get key (kv_apply e s).2 = default (kv_get key s) (writes key e).
Proof.
  unfold kv_get, kv_apply, writes. case_bool_decide; [done|].
  destruct (command_from_slice _) as [[k v|k]|]; simpl; [| |done].
  - rewrite lookup_insert. by case_decide.
  - rewrite lookup_delete. by case_decide.
Qed.

Lemma kv_replay_get key es s :
  kv_get key (kv_replay es s) = default (kv_get key s) (last (omap (writes key) es)).
Proof.
  revert s. induction es as [|e es IH]; intros s; [done|].
  change (kv_replay (e :: es) s) with (kv_replay es (kv_apply e s).2).
  rewrite IH, kv_apply_get. simpl. destruct (writes key e) as [v|]; [|done].
  rewrite last_cons. by destruct (last _).
Qed.
End Kv.

(** Replaying a log prefix on the key-value machine and shipping the result as a
    snapshot gives any receiver, whatever it held, exactly the state in which each key
    has the value of the last entry that wrote it; the rest of the log then continues
    from there as on the sender. *)
Theorem kv_snapshot_restore `{!KvJson, !KvJsonLaws} (es es' : list Kernel.LogEntry) (s : KvStateMachine) :
  ∃ d, Kernel.sm_snapshot (kv_replay es kv_new) = Ok d ∧
       Kernel.sm_restore d s = (Ok tt, kv_replay es kv_new) ∧
       ∀ key, kv_get key (kv_replay es' (Kernel.sm_restore d s).2) =
              mjoin (last (omap (writes key) (es ++ es'))).
Proof.
  simpl. unfold kv_snapshot, kv_restore. destruct (map_encodes (inner (kv_replay es kv_new))) as [d Hd].
  exists d. rewrite Hd, (map_roundtrip _ _ Hd). split_and!; [done|by destruct (kv_replay es kv_new)|].
  intros key. simpl. destruct (kv_replay es kv_new) as [m] eqn:Hm. simpl. rewrite <- Hm.
  assert (Happ : kv_replay es' (kv_replay es kv_new) = kv_replay (es ++ es') kv_new)
    by (unfold kv_replay; by rewrite foldl_app).
  rewrite Happ, kv_replay_get. by destruct (last _).
Qed.

(** An encoding that satisfies the laws: the bits of stdpp's countable encoding, one
    per byte; every command is decoded as absent or as a deletion of its key. *)
Module BitJson.
Definition json : KvJson := {|
  command_from_slice d := decode (unbits d) ≫= λ '(k, v),
    Some (match v with Some v => KvSet k v | None => KvDelete k end);
  map_to_vec m := Some (bits (encode (map_to_list m)));
  map_from_slice d := list_to_map <$> decode (unbits d)
|}.

Definition command (k : string) (v : option string) : bytes := bits (encode (k, v)).

Lemma laws : @KvJsonLaws json.
Proof.
  split; [|by eexists].
  intros m d [= <-]. simpl. rewrite unbits_bits, decode_encode. simpl.
  by rewrite list_to_map_to_list.
Qed.
End BitJson.

Lemma kv_snapshot_restore_witness :
  let e i k v := Kernel.mkLogEntry i 1 (BitJson.command k v) in
  let es := [e 1 "a" (Some "1"); e 2 "b" (Some "2")]%string in
  let es' := [e 3 "a" (Some "3"); e 4 "b" None]%string in
  let m := @kv_replay BitJson.json es kv_new in
  ∃ d, @kv_snapshot BitJson.json m = Ok d ∧
       @kv_restore BitJson.json d kv_new = (Ok tt, m) ∧
       ∀ key, kv_get key (@kv_replay BitJson.json es' (@kv_restore BitJson.json d kv_new).2) =
              mjoin (last (omap (@writes BitJson.json key) (es ++ es'))).
Proof.
  intros e es es' m. apply (@kv_snapshot_restore BitJson.json BitJson.laws es es' kv_new).
Defined.
