(* ===== verification/RaftReadOnly.v ===== *)
(** * Read-only requests and the leader lease

    [crates/compute/cave-ha/src/raft/read_only.rs].  Response channels are
    identified by numbers, instants are nanoseconds on the monotonic clock. *)

From S2P Require Import Prelude RaftTypes.

Abbreviation Chan := N (only parsing).
Abbreviation Instant := N (only parsing).
Abbreviation Duration := N (only parsing).

Inductive ReadMode : Set := ReadIndex | LeaseRead.
#[export] Instance ReadMode_eq_dec : EqDecision ReadMode.
Proof. solve_decision. Defined.

Record ReadRequest : Type := mkReadRequest {
  rr_id : u64;
  rr_index : u64;
  rr_acks : gset N;
  rr_resp : N
}.

Record ReadOnlyQueue : Type := mkReadOnlyQueue {
  pending : list ReadRequest;
  next_id : u64;
  mode : ReadMode
}.

Module ReadOnlyQueue.

Definition new (m : ReadMode) : ReadOnlyQueue := mkReadOnlyQueue [] 1 m.

Definition add (q : ReadOnlyQueue) (index : N) (resp : N) : N * ReadOnlyQueue :=
  (next_id q,
   mkReadOnlyQueue (pending q ++ [mkReadRequest (next_id q) index ∅ resp]) (next_id q +w 1) (mode q)).

(** The index loop of [drain_ready]: [pending.remove(i)] or [i += 1]. *)
Fixpoint drain_loop (fuel : nat) (quorum : nat) (l : list ReadRequest) (i : nat)
    (ready : list ReadRequest) : option (list ReadRequest * list ReadRequest) :=
  match l !! i with
  | None => Some (ready, l)
  | Some r =>
      match fuel with
      | O => None
      | S fuel =>
          if (quorum <=? size (rr_acks r))%nat
          then drain_loop fuel quorum (delete i l) i (ready ++ [r])
          else drain_loop fuel quorum l (S i) ready
      end
  end.

Definition drain_ready (q : ReadOnlyQueue) (quorum : nat) : list ReadRequest * ReadOnlyQueue :=
  match drain_loop (length (pending q)) quorum (pending q) 0 [] with
  | Some (ready, rest) => (ready, mkReadOnlyQueue rest (next_id q) (mode q))
  | None => ([], q)
  end.

Definition ack_request (peer : N) (r : ReadRequest) : ReadRequest :=
  mkReadRequest (rr_id r) (rr_index r) (rr_acks r ∪ {[peer]}) (rr_resp r).

Definition ack (q : ReadOnlyQueue) (peer : N) (quorum : nat) : list ReadRequest * ReadOnlyQueue :=
  drain_ready (mkReadOnlyQueue (ack_request peer <$> pending q) (next_id q) (mode q)) quorum.

Definition lease_valid (q : ReadOnlyQueue) (now last_heartbeat timeout : N) : bool :=
  bool_decide (mode q = LeaseRead) && (now - last_heartbeat <? timeout).

Definition drain_all (q : ReadOnlyQueue) : list ReadRequest * ReadOnlyQueue :=
  (pending q, mkReadOnlyQueue [] (next_id q) (mode q)).

Definition is_empty (q : ReadOnlyQueue) : bool := bool_decide (pending q = []).

(** ** The loop computes a stable partition *)

Definition ready_req (quorum : nat) (r : ReadRequest) : Prop := (quorum ≤ size (rr_acks r))%nat.
#[export] Instance ready_req_dec quorum r : Decision (ready_req quorum r).
Proof. unfold ready_req. apply _. Defined.

Lemma drain_loop_partition fuel quorum done todo ready :
  (length todo ≤ fuel)%nat →
  drain_loop fuel quorum (done ++ todo) (length done) ready
  = Some (ready ++ filter (ready_req quorum) todo,
          done ++ filter (λ r, ¬ ready_req quorum r) todo).
Proof.
  revert done todo ready. induction fuel as [|fuel IH]; intros done [|r todo] ready Hf; simpl in *; try lia.
  1, 2: by rewrite !app_nil_r, (proj2 (lookup_ge_None _ _)).
  rewrite list_lookup_middle by done. rewrite !filter_cons.
  destruct (Nat.leb_spec quorum (size (rr_acks r))) as [Hq|Hq].
  - rewrite delete_middle, IH by lia. destruct (decide (ready_req quorum r)); [|done].
    destruct (decide (¬ ready_req quorum r)); [done|]. by rewrite <- app_assoc.
  - replace (done ++ r :: todo) with ((done ++ [r]) ++ todo) by (by rewrite <- app_assoc).
    replace (S (length done)) with (length (done ++ [r])) by (rewrite length_app; simpl; lia).
    rewrite IH by lia. unfold ready_req.
    destruct (decide (quorum ≤ size (rr_acks r))%nat); [lia|].
    destruct (decide (¬ (quorum ≤ size (rr_acks r))%nat)); [|lia]. by rewrite <- app_assoc.
Qed.

Lemma drain_ready_partition q quorum :
  drain_ready q quorum
  = (filter (ready_req quorum) (pending q),
     mkReadOnlyQueue (filter (λ r, ¬ ready_req quorum r) (pending q)) (next_id q) (mode q)).
Proof.
  unfold drain_ready.
  pose proof (drain_loop_partition (length (pending q)) quorum [] (pending q) []) as H.
  simpl in H. by rewrite H.
Qed.

End ReadOnlyQueue.

Record LeaderLease : Type := mkLeaderLease {
  granted_at : option N;
  duration : N
}.

Module LeaderLease.
Definition new (d : N) : LeaderLease := mkLeaderLease None d.
Definition renew (now : N) (l : LeaderLease) : LeaderLease := mkLeaderLease (Some now) (duration l).
Definition is_valid (now : N) (l : LeaderLease) : bool :=
  match granted_at l with
  | Some t => now - t <? duration l
  | None => false
  end.
Definition invalidate (l : LeaderLease) : LeaderLease := mkLeaderLease None (duration l).
End LeaderLease.

(** ** Properties *)

(** The in-place loop of [drain_ready] terminates and splits the queue into
    the requests with at least [quorum] acknowledgements, returned in arrival
    order, and the others, kept in arrival order; nothing is lost or duplicated. *)
Theorem drain_ready_spec (q : ReadOnlyQueue) (quorum : nat) :
  let '(ready, q') := ReadOnlyQueue.drain_ready q quorum in
  ready ++ pending q' ≡ₚ pending q ∧
  (∀ r, r ∈ ready ↔ r ∈ pending q ∧ (quorum ≤ size (rr_acks r))%nat) ∧
  ready `sublist_of` pending q ∧ pending q' `sublist_of` pending q.
Proof.
  rewrite ReadOnlyQueue.drain_ready_partition. simpl. split_and!.
  - apply filter_app_complement.
  - intros r. rewrite list_elem_of_filter. unfold ReadOnlyQueue.ready_req. tauto.
  - apply sublist_filter.
  - apply sublist_filter.
Qed.
