(* ===== verification/RaftNode.v ===== *)
(** * The Raft node

    [crates/compute/cave-ha/src/raft/node.rs]: the actor [RaftNode], one
    definition per method.  A method is a computation of the monad of [Effects.v]
    over the record [RaftNode]; its effects are the messages handed to the
    transport, the answers sent on response channels and the metric updates.

    What the actor gets from outside is a parameter: the replicated state machine
    (class [Kernel.StateMachine]), the random source behind [randomized_timeout]
    (class [GenRange]), [serde_json] on configurations (class [MembershipJson]) and
    the reading [now] of the monotonic clock, one per event.  [HashMap]s are finite
    maps and are iterated in the order of [map_to_list]. *)

From S2P Require Import Prelude Effects Consensus RaftTypes RaftLog RaftSnapshot.
From S2P Require Import RaftMembership RaftReadOnly.

(** [rand::Rng::gen_range(min..=max)] on an explicit generator. *)
Class GenRange (Rng : Type) : Type := gen_range : N → N → Rng → N * Rng.

Inductive NodeCmd : Type :=
| Propose (data : bytes) (resp : N)
| CmdReadIndex (resp : N)
| AddNode (node : NodeInfo) (resp : N)
| RemoveNode (id : N) (resp : N)
| TransferLeadership (to : N) (resp : N)
| TriggerSnapshot (resp : N)
| CmdStatus (resp : N)
| CmdShutdown.

Inductive Counter : Set :=
| elections_started | leader_changes | heartbeats_sent | append_entries_sent
| snapshots_sent | snapshots_received | membership_changes | entries_applied
| log_compactions | check_quorum_failures | proposals_failed | proposals_total
| read_index_requests.

Inductive Gauge : Set := g_is_leader | g_leader_id | g_commit_index | g_last_applied.

Inductive Reply : Type :=
| RIndex (r : HaResult N)
| RUnit (r : HaResult unit)
| RMeta (r : HaResult SnapshotMeta)
| RStatus (s : NodeStatus).

Inductive Effect : Type :=
| Send (to : N) (m : RaftMessage)
| Respond (resp : N) (r : Reply)
| Inc (c : Counter)
| SetGauge (g : Gauge) (v : N).

Record PeerState : Type := mkPeerState {
  next_index : u64;
  match_index : u64;
  inflight : u64;
  next_seq : u64;
  last_response : N;
  snapshot_in_progress : bool;
  recent_active : bool
}.

(** [PeerState::new] *)
Definition peer_new (now next : N) : PeerState := mkPeerState next 0 0 1 now false false.

Section State.
Context {SM Rng : Type}.

Record RaftNode : Type := mkRaftNode {
  node_id : N;
  config : NodeConfig;
  current_term : u64;
  voted_for : option N;
  role : Role;
  leader_id : option N;
  log : MemLog;
  commit_index : u64;
  last_applied : u64;
  membership : MembershipConfig;
  peers : gmap N PeerState;
  pending_proposals : gmap N N;
  election_elapsed : u64;
  election_timeout : u64;
  heartbeat_elapsed : u64;
  votes_received : gset N;
  votes_rejected : gset N;
  pre_votes_received : gset N;
  check_quorum_elapsed : u64;
  read_only : ReadOnlyQueue;
  lease : LeaderLease;
  snapshot_receiver : option SnapshotReceiver;
  pending_snapshot_resp : option N;
  transfer_to : option N;
  transfer_elapsed : u64;
  state_machine : SM;
  rng : Rng
}.

Definition node_eta (s : RaftNode) : RaftNode :=
  mkRaftNode (node_id s) (config s) (current_term s) (voted_for s) (role s) (leader_id s) (log s)
    (commit_index s) (last_applied s) (membership s) (peers s) (pending_proposals s)
    (election_elapsed s) (election_timeout s) (heartbeat_elapsed s) (votes_received s)
    (votes_rejected s) (pre_votes_received s) (check_quorum_elapsed s) (read_only s) (lease s)
    (snapshot_receiver s) (pending_snapshot_resp s) (transfer_to s) (transfer_elapsed s)
    (state_machine s) (rng s).

(** [field_update s f v]: the record [s] with field [f] replaced by [v]. *)
Ltac field_update s f v :=
  let t := eval cbv beta delta [node_eta] in (node_eta s) in
  match eval pattern (f s) in t with
  | ?g _ => let r := eval cbv beta in (g v) in exact r
  end.

Definition set_current_term v (s : RaftNode) : RaftNode := ltac:(field_update s (@current_term) v).
Definition set_voted_for v (s : RaftNode) : RaftNode := ltac:(field_update s (@voted_for) v).
Definition set_role v (s : RaftNode) : RaftNode := ltac:(field_update s (@role) v).
Definition set_leader_id v (s : RaftNode) : RaftNode := ltac:(field_update s (@leader_id) v).
Definition set_log v (s : RaftNode) : RaftNode := ltac:(field_update s (@log) v).
Definition set_commit_index v (s : RaftNode) : RaftNode := ltac:(field_update s (@commit_index) v).
Definition set_last_applied v (s : RaftNode) : RaftNode := ltac:(field_update s (@last_applied) v).
Definition set_membership v (s : RaftNode) : RaftNode := ltac:(field_update s (@membership) v).
Definition set_peers v (s : RaftNode) : RaftNode := ltac:(field_update s (@peers) v).
Definition set_pending_proposals v (s : RaftNode) : RaftNode := ltac:(field_update s (@pending_proposals) v).
Definition set_election_elapsed v (s : RaftNode) : RaftNode := ltac:(field_update s (@election_elapsed) v).
Definition set_election_timeout v (s : RaftNode) : RaftNode := ltac:(field_update s (@election_timeout) v).
Definition set_heartbeat_elapsed v (s : RaftNode) : RaftNode := ltac:(field_update s (@heartbeat_elapsed) v).
Definition set_votes_received v (s : RaftNode) : RaftNode := ltac:(field_update s (@votes_received) v).
Definition set_votes_rejected v (s : RaftNode) : RaftNode := ltac:(field_update s (@votes_rejected) v).
Definition set_pre_votes_received v (s : RaftNode) : RaftNode := ltac:(field_update s (@pre_votes_received) v).
Definition set_check_quorum_elapsed v (s : RaftNode) : RaftNode := ltac:(field_update s (@check_quorum_elapsed) v).
Definition set_read_only v (s : RaftNode) : RaftNode := ltac:(field_update s (@read_only) v).
Definition set_lease v (s : RaftNode) : RaftNode := ltac:(field_update s (@lease) v).
Definition set_snapshot_receiver v (s : RaftNode) : RaftNode := ltac:(field_update s (@snapshot_receiver) v).
Definition set_pending_snapshot_resp v (s : RaftNode) : RaftNode := ltac:(field_update s (@pending_snapshot_resp) v).
Definition set_transfer_to v (s : RaftNode) : RaftNode := ltac:(field_update s (@transfer_to) v).
Definition set_transfer_elapsed v (s : RaftNode) : RaftNode := ltac:(field_update s (@transfer_elapsed) v).
Definition set_state_machine v (s : RaftNode) : RaftNode := ltac:(field_update s (@state_machine) v).
Definition set_rng v (s : RaftNode) : RaftNode := ltac:(field_update s (@rng) v).

End State.
Arguments RaftNode : clear implicits.

(** The leader's search for the last entry of the follower's conflicting term:
    scan downwards, stop at the term, give up below it. *)
Fixpoint backtrack (l : MemLog) (ct : N) (ixs : list N) : option N :=
  match ixs with
  | [] => None
  | i :: ixs =>
      match MemLog.term l i with
      | Ok t => if t =? ct then Some i else if t <? ct then None else backtrack l ct ixs
      | Err _ => backtrack l ct ixs
      end
  end.

(** The per-peer bookkeeping of [handle_append_entries_reply]. *)
Definition peer_on_reply (now : N) (l : MemLog) (m : AppendEntriesReply) (p : PeerState) : PeerState :=
  let inflight' := saturating_sub (inflight p) 1 in
  if aer_success m then
    let mi := N.max (match_index p) (aer_last_log_index m) in
    mkPeerState (mi +w 1) mi inflight' (next_seq p) now (snapshot_in_progress p) true
  else
    let next :=
      match aer_conflict_term m with
      | Some ct =>
          let last_match := backtrack l ct (reverse (range_incl (MemLog.first_index l) (MemLog.last_index l))) in
          match last_match with Some i => i +w 1 | None => aer_conflict_index m end
      | None => N.max (aer_conflict_index m) 1
      end in
    mkPeerState (N.max next 1) (match_index p) inflight' (next_seq p) now (snapshot_in_progress p) true.

Definition mark_active (now : N) (p : PeerState) : PeerState :=
  mkPeerState (next_index p) (match_index p) (inflight p) (next_seq p) now
    (snapshot_in_progress p) true.

Definition clear_active (p : PeerState) : PeerState :=
  mkPeerState (next_index p) (match_index p) (inflight p) (next_seq p) (last_response p)
    (snapshot_in_progress p) false.

Definition set_in_progress (b : bool) (p : PeerState) : PeerState :=
  mkPeerState (next_index p) (match_index p) (inflight p) (next_seq p) (last_response p)
    b (recent_active p).

Definition set_indices (next mi : N) (p : PeerState) : PeerState :=
  mkPeerState next mi (inflight p) (next_seq p) (last_response p)
    (snapshot_in_progress p) (recent_active p).

(** [seq = next_seq; next_seq += 1; if !entries.is_empty() { inflight += 1 }] *)
Definition peer_sent (nonempty : bool) (p : PeerState) : PeerState :=
  mkPeerState (next_index p) (match_index p) (if nonempty then inflight p +w 1 else inflight p)
    (next_seq p +w 1) (last_response p) (snapshot_in_progress p) (recent_active p).

Section Handlers.
Context {SM Rng : Type} `{SMI : !Kernel.StateMachine SM} `{RngI : !GenRange Rng} `{Json : !MembershipJson}.
Context (now : N).

Local Abbreviation Node := (RaftNode SM Rng).
Local Abbreviation Proc := (M Node Effect).

Definition send (to : N) (m : RaftMessage) : Proc unit := emit (Send to m).

Definition randomized_timeout (min max : N) : Proc N := λ s,
  let '(v, r) := gen_range min max (rng s) in (v, set_rng r s, []).

Definition reset_election_timeout : Proc unit :=
  s ← get;
  t ← randomized_timeout (election_timeout_min (config s)) (election_timeout_max (config s));
  modify (set_election_timeout t).

(** ** Replication *)

Definition send_snapshot_to (peer_id : N) : Proc unit :=
  s ← get;
  match Kernel.sm_snapshot (state_machine s) with
  | Err _ => modify (λ s, set_peers (alter (set_in_progress false) peer_id (peers s)) s)
  | Ok data =>
      let snapshot := Snapshot.new (snapshot_index (log s)) (snapshot_term (log s)) (membership s) data in
      let chunks := default [] (Snapshot.chunks snapshot (snapshot_chunk_size (config s))) in
      emit (Inc snapshots_sent) ;;
      for_each chunks (λ c,
        send peer_id (MInstallSnapshot
          (mkInstallSnapshot (current_term s) (node_id s) (ch_meta c) (ch_offset c) (ch_data c) (ch_done c))))
  end.

Definition replicate_to (peer_id : N) : Proc unit :=
  s ← get;
  match peers s !! peer_id with
  | None => skip
  | Some peer =>
      if snapshot_in_progress peer then skip
      else if pipeline_depth (config s) <=? inflight peer then skip
      else
        let next := next_index peer in
        if next <=? snapshot_index (log s) then
          modify (λ s, set_peers (alter (set_in_progress true) peer_id (peers s)) s) ;;
          send_snapshot_to peer_id
        else
          let prev_index := next -w 1 in
          let prev_term := unwrap_or (MemLog.term (log s) prev_index) 0 in
          let last_index := MemLog.last_index (log s) in
          let hi := N.min (next +w max_append_entries (config s)) (last_index +w 1) in
          let entries := if next <=? last_index
                         then unwrap_or (MemLog.slice (log s) next hi) [] else [] in
          let seq := next_seq peer in
          let nonempty := negb (bool_decide (entries = [])) in
          modify (λ s, set_peers (alter (peer_sent nonempty) peer_id (peers s)) s) ;;
          emit (Inc append_entries_sent) ;;
          send peer_id (MAppendEntries
            (mkAppendEntries (current_term s) (node_id s) prev_index prev_term entries
               (commit_index s) seq))
  end.

Definition broadcast_append_entries : Proc unit :=
  s ← get;
  for_each (map_to_list (peers s)).*1 replicate_to.

Definition broadcast_heartbeat : Proc unit :=
  emit (Inc heartbeats_sent) ;;
  modify (λ s, set_lease (LeaderLease.renew now (lease s)) s) ;;
  broadcast_append_entries.

Definition append_membership_change (cfg : MembershipConfig) : Proc unit :=
  s ← get;
  let index := MemLog.last_index (log s) +w 1 in
  match new_membership index (current_term s) cfg with
  | Err _ => skip
  | Ok entry =>
      modify (λ s, set_log (MemLog.append (log s) [entry]) s) ;;
      broadcast_append_entries
  end.

(** ** Commit and apply *)

Definition compact_log : Proc unit :=
  s ← get;
  let compact_to := last_applied s in
  if compact_to <=? snapshot_index (log s) then skip
  else
    let term := unwrap_or (MemLog.term (log s) compact_to) (current_term s) in
    modify (λ s, set_log (MemLog.compact (log s) compact_to term) s) ;;
    emit (Inc log_compactions) ;;
    match pending_snapshot_resp s with
    | None => skip
    | Some tx =>
        modify (set_pending_snapshot_resp None) ;;
        emit (Respond tx (RMeta (Ok (mkSnapshotMeta compact_to term (membership s)))))
    end.

(** [kernel_bridge::to_kernel_entry] *)
Definition to_kernel_entry (e : LogEntry) : Kernel.LogEntry :=
  Kernel.mkLogEntry (e_index e) (e_term e) (e_data e).

Definition apply_entry (e : LogEntry) : Proc unit :=
  match e_type e with
  | Normal | Barrier =>
      modify (λ s, set_state_machine (Kernel.sm_apply (to_kernel_entry e) (state_machine s)).2 s)
  | MembershipChange =>
      match decode_membership e with
      | Err _ => skip
      | Ok new_cfg =>
          modify (set_membership new_cfg) ;;
          s ← get;
          when (auto_leave new_cfg && Membership.is_joint new_cfg && bool_decide (role s = Leader))
            (append_membership_change
               (mkMembershipConfig (voters new_cfg) (learners new_cfg) None false)) ;;
          emit (Inc membership_changes)
      end
  end.

(** The [while last_applied < commit_index] loop; [commit_index] is not written
    inside, so the difference at entry is enough fuel. *)
Fixpoint apply_loop (fuel : nat) : Proc unit :=
  match fuel with
  | O => skip
  | S fuel =>
      s ← get;
      if last_applied s <? commit_index s then
        modify (λ s, set_last_applied (last_applied s +w 1) s) ;;
        s ← get;
        match MemLog.entry (log s) (last_applied s) with
        | Err _ => skip
        | Ok e => apply_entry e ;; emit (Inc entries_applied) ;; apply_loop fuel
        end
      else skip
  end.

Definition apply_entries : Proc unit :=
  s ← get;
  apply_loop (N.to_nat (commit_index s - last_applied s)) ;;
  s ← get;
  emit (SetGauge g_last_applied (last_applied s)) ;;
  when (log_compaction_threshold (config s) <? MemLog.len (log s)) compact_log.

Definition resolve_proposal (idx : N) : Proc unit :=
  s ← get;
  match pending_proposals s !! idx with
  | None => skip
  | Some tx =>
      modify (λ s, set_pending_proposals (delete idx (pending_proposals s)) s) ;;
      emit (Respond tx (RIndex (Ok idx)))
  end.

Definition advance_commit (new_commit : N) : Proc unit :=
  modify (set_commit_index new_commit) ;;
  emit (SetGauge g_commit_index new_commit) ;;
  apply_entries ;;
  s ← get;
  let resolved := filter (λ idx, idx ≤ new_commit) (map_to_list (pending_proposals s)).*1 in
  for_each resolved resolve_proposal.

(** Peers whose [match_index] covers [idx], and the node itself. *)
Definition replicated_on (s : Node) (idx : N) : gset N :=
  {[node_id s]} ∪ dom (filter (λ '(_, p), idx ≤ match_index p) (peers s)).

(** One iteration of the commit scan. *)
Definition commit_scan (s : Node) (new_commit idx : N) : N :=
  match MemLog.term (log s) idx with
  | Ok term =>
      if negb (term =? current_term s) then new_commit
      else if Membership.has_quorum (membership s) (replicated_on s idx) then idx
      else new_commit
  | Err _ => new_commit
  end.

Definition maybe_advance_commit : Proc unit :=
  s ← get;
  if negb (bool_decide (role s = Leader)) then skip
  else
    let last := MemLog.last_index (log s) in
    let new_commit := foldl (commit_scan s) (commit_index s) (range_incl (commit_index s +w 1) last) in
    when (commit_index s <? new_commit) (advance_commit new_commit).

Definition active_count (s : Node) : nat :=
  S (size (filter (λ '(_, p), recent_active p = true) (peers s))).

Definition maybe_flush_reads : Proc unit :=
  s ← get;
  if ReadOnlyQueue.is_empty (read_only s) then skip
  else
    let quorum := Membership.quorum (size (voters (membership s))) in
    when (quorum <=? active_count s)%nat
      (let '(ready, q) := ReadOnlyQueue.ack (read_only s) (node_id s) quorum in
       modify (set_read_only q) ;;
       for_each ready (λ req, emit (Respond (rr_resp req) (RIndex (Ok (rr_index req)))))).

(** ** Role changes *)

Definition become_candidate (term : N) : Proc unit :=
  modify (set_current_term term) ;;
  modify (λ s, set_voted_for (Some (node_id s)) s) ;;
  modify (set_role Candidate) ;;
  modify (set_leader_id None) ;;
  modify (set_votes_rejected ∅) ;;
  modify (λ s, set_votes_received {[node_id s]} s) ;;
  modify (set_election_elapsed 0) ;;
  reset_election_timeout.

(** [peers.clear()] and one fresh [PeerState] per other node. *)
Definition fresh_peers (s : Node) : gmap N PeerState :=
  let next := MemLog.last_index (log s) +w 1 in
  foldl (λ m p, if p =? node_id s then m else <[p := peer_new now next]> m) ∅
    (btree_iter (Membership.all_nodes (membership s))).

Definition append_barrier (s : Node) : Node :=
  set_log (MemLog.append (log s)
             [new_barrier (MemLog.last_index (log s) +w 1) (current_term s)]) s.

Definition become_leader : Proc unit :=
  modify (set_role Leader) ;;
  modify (λ s, set_leader_id (Some (node_id s)) s) ;;
  modify (set_heartbeat_elapsed 0) ;;
  modify (set_check_quorum_elapsed 0) ;;
  modify (set_transfer_to None) ;;
  modify (set_transfer_elapsed 0) ;;
  modify (λ s, set_lease (LeaderLease.renew now (lease s)) s) ;;
  s ← get;
  emit (SetGauge g_is_leader 1) ;;
  emit (SetGauge g_leader_id (node_id s)) ;;
  emit (Inc leader_changes) ;;
  modify (λ s, set_peers (fresh_peers s) s) ;;
  modify append_barrier ;;
  broadcast_append_entries.

(** The [was_leader] block of [become_follower]: the lease goes, pending proposals
    and reads are answered with [NotLeader]. *)
Definition fail_pending (leader : option N) : Proc unit :=
  s ← get;
  emit (SetGauge g_is_leader 0) ;;
  modify (λ s, set_lease (LeaderLease.invalidate (lease s)) s) ;;
  for_each (map_to_list (pending_proposals s)).*2
    (λ tx, emit (Respond tx (RIndex (Err (NotLeader leader))))) ;;
  modify (set_pending_proposals ∅) ;;
  for_each (ReadOnlyQueue.drain_all (read_only s)).1
    (λ req, emit (Respond (rr_resp req) (RIndex (Err (NotLeader leader))))) ;;
  modify (λ s, set_read_only (ReadOnlyQueue.drain_all (read_only s)).2 s).

Definition adopt_term (term : N) (s : Node) : Node :=
  if current_term s <? term then set_voted_for None (set_current_term term s) else s.

Definition become_follower (term : N) (leader : option N) : Proc unit :=
  s ← get;
  when (bool_decide (role s = Leader)) (fail_pending leader) ;;
  modify (adopt_term term) ;;
  modify (set_role Follower) ;;
  modify (set_leader_id leader) ;;
  modify (set_election_elapsed 0) ;;
  reset_election_timeout ;;
  modify (set_votes_received ∅) ;;
  modify (set_pre_votes_received ∅).

(** ** Campaigns *)

Definition request_votes (term : N) (pre : bool) : Proc unit :=
  s ← get;
  let msg := MRequestVote (mkRequestVote term (node_id s) (MemLog.last_index (log s))
                             (MemLog.last_term (log s)) pre) in
  for_each (btree_iter (Membership.all_voters (membership s)))
    (λ peer_id, when (negb (peer_id =? node_id s)) (send peer_id msg)).

Definition is_learner (s : Node) : bool := bool_decide (node_id s ∈ learners (membership s)).

Definition campaign_real : Proc unit :=
  s ← get;
  if is_learner s then skip
  else
    let candidate_term := current_term s +w 1 in
    become_candidate candidate_term ;;
    request_votes candidate_term false ;;
    s ← get;
    when (size (voters (membership s)) =? 1)%nat become_leader.

Definition campaign_pre_vote : Proc unit :=
  s ← get;
  if is_learner s then skip
  else
    modify (set_role PreCandidate) ;;
    modify (λ s, set_pre_votes_received {[node_id s]} s) ;;
    emit (Inc elections_started) ;;
    request_votes (current_term s +w 1) true ;;
    s ← get;
    when (size (voters (membership s)) =? 1)%nat campaign_real.

Definition campaign (pre : bool) : Proc unit := if pre then campaign_pre_vote else campaign_real.

Definition do_check_quorum : Proc unit :=
  s ← get;
  if negb (bool_decide (role s = Leader)) then skip
  else
    let quorum := Membership.quorum (size (voters (membership s))) in
    let active := active_count s in
    modify (λ s, set_peers (clear_active <$> peers s) s) ;;
    when (active <? quorum)%nat
      (emit (Inc check_quorum_failures) ;; become_follower (current_term s) None).

(** ** The tick *)

Definition tick_leader : Proc unit :=
  s ← get;
  when (heartbeat_interval (config s) <=? heartbeat_elapsed s)
    (modify (set_heartbeat_elapsed 0) ;; broadcast_heartbeat) ;;
  when (check_quorum (config s))
    (modify (λ s, set_check_quorum_elapsed (check_quorum_elapsed s +w 1) s) ;;
     s ← get;
     when (check_quorum_interval (config s) <=? check_quorum_elapsed s)
       (modify (set_check_quorum_elapsed 0) ;; do_check_quorum)) ;;
  s ← get;
  when (bool_decide (is_Some (transfer_to s)))
    (modify (λ s, set_transfer_elapsed (transfer_elapsed s +w 1) s) ;;
     s ← get;
     when (leadership_transfer_timeout (config s) <=? transfer_elapsed s)
       (modify (set_transfer_to None) ;; modify (set_transfer_elapsed 0))).

Definition tick : Proc unit :=
  modify (λ s, set_election_elapsed (election_elapsed s +w 1) s) ;;
  modify (λ s, set_heartbeat_elapsed (heartbeat_elapsed s +w 1) s) ;;
  s ← get;
  match role s with
  | Follower | PreCandidate | Candidate =>
      when (election_timeout s <=? election_elapsed s)
        (modify (set_election_elapsed 0) ;; campaign (pre_vote (config s)))
  | Leader => tick_leader
  end.

(** ** Votes *)

Definition log_ok (s : Node) (m : RequestVote) : bool :=
  let last_log_index := MemLog.last_index (log s) in
  let last_log_term := MemLog.last_term (log s) in
  (last_log_term <? rv_last_log_term m)
  || ((rv_last_log_term m =? last_log_term) && (last_log_index <=? rv_last_log_index m)).

Definition grants (s : Node) (m : RequestVote) : bool :=
  if rv_pre_vote m then log_ok s m && (election_timeout s / 2 <=? election_elapsed s)
  else
    let can_vote := bool_decide (voted_for s = None)
                    || bool_decide (voted_for s = Some (rv_candidate_id m)) in
    log_ok s m && can_vote.

Definition handle_request_vote (from : N) (m : RequestVote) : Proc unit :=
  s ← get;
  let grant := grants s m in
  when (grant && negb (rv_pre_vote m))
    (modify (set_voted_for (Some (rv_candidate_id m))) ;; modify (set_election_elapsed 0)) ;;
  send from (MRequestVoteReply (mkRequestVoteReply (current_term s) grant (rv_pre_vote m))).

Definition handle_request_vote_reply (from : N) (m : RequestVoteReply) : Proc unit :=
  s ← get;
  if rvr_pre_vote m then
    if negb (bool_decide (role s = PreCandidate)) then skip
    else
      when (rvr_vote_granted m)
        (modify (λ s, set_pre_votes_received (pre_votes_received s ∪ {[from]}) s) ;;
         s ← get;
         when (Membership.has_quorum (membership s) (pre_votes_received s)) campaign_real)
  else if negb (bool_decide (role s = Candidate)) then skip
  else if rvr_vote_granted m then
    modify (λ s, set_votes_received (votes_received s ∪ {[from]}) s) ;;
    s ← get;
    when (Membership.has_quorum (membership s) (votes_received s)) become_leader
  else
    modify (λ s, set_votes_rejected (votes_rejected s ∪ {[from]}) s) ;;
    s ← get;
    let voters := size (voters (membership s)) in
    let rejections_needed := (N.of_nat voters -w N.of_nat (Membership.quorum voters)) +w 1 in
    when (rejections_needed <=? N.of_nat (size (votes_rejected s)))
      (become_follower (current_term s) None).

(** ** AppendEntries *)

Definition first_index_of_term (s : Node) (term : N) : option N :=
  snd <$> list_find (λ i, ok (MemLog.term (log s) i) = Some term)
            (range_incl (MemLog.first_index (log s)) (MemLog.last_index (log s))).

Definition check_log_consistency (s : Node) (m : AppendEntries) : bool * N * option N :=
  let prev := ae_prev_log_index m in
  if prev =? 0 then (true, 0, None)
  else
    match MemLog.term (log s) prev with
    | Ok t =>
        if t =? ae_prev_log_term m then (true, 0, None)
        else (false, default prev (first_index_of_term s t), Some t)
    | Err _ => (false, MemLog.last_index (log s) +w 1, None)
    end.

(** The head of [handle_append_entries]: the sender is the leader of this term. *)
Definition accept_leader (from : N) (m : AppendEntries) : Proc unit :=
  modify (set_election_elapsed 0) ;;
  modify (set_leader_id (Some from)) ;;
  s ← get;
  when (negb (bool_decide (role s = Follower))) (become_follower (ae_term m) (Some from)) ;;
  modify (λ s, set_peers (alter (mark_active now) from (peers s)) s).

Definition handle_append_entries (from : N) (m : AppendEntries) : Proc unit :=
  accept_leader from m ;;
  s ← get;
  let '(success, conflict_index, conflict_term) := check_log_consistency s m in
  if negb success then
    send from (MAppendEntriesReply (mkAppendEntriesReply (current_term s) false conflict_index
                 conflict_term (MemLog.last_index (log s)) (ae_seq m)))
  else
    when (negb (bool_decide (ae_entries m = [])))
      (modify (λ s, set_log (MemLog.append (log s) (ae_entries m)) s)) ;;
    s ← get;
    when (commit_index s <? ae_leader_commit m)
      (advance_commit (N.min (ae_leader_commit m) (MemLog.last_index (log s)))) ;;
    s ← get;
    send from (MAppendEntriesReply (mkAppendEntriesReply (current_term s) true 0 None
                 (MemLog.last_index (log s)) (ae_seq m))).

Definition handle_append_entries_reply (from : N) (m : AppendEntriesReply) : Proc unit :=
  s ← get;
  if negb (bool_decide (role s = Leader)) then skip
  else
    match peers s !! from with
    | None => skip
    | Some p =>
        modify (λ s, set_peers (<[from := peer_on_reply now (log s) m p]> (peers s)) s) ;;
        if aer_success m then
          maybe_advance_commit ;; replicate_to from ;; maybe_flush_reads
        else replicate_to from
    end.

(** ** Snapshots *)

Definition apply_snapshot (snapshot : Snapshot) : Proc unit :=
  s ← get;
  let meta := snap_meta snapshot in
  if sm_index meta <=? commit_index s then skip
  else
    let '(r, sm) := Kernel.sm_restore (snap_data snapshot) (state_machine s) in
    modify (set_state_machine sm) ;;
    match r with
    | Err _ => skip
    | Ok _ =>
        modify (λ s, set_log (MemLog.compact (log s) (sm_index meta) (sm_term meta)) s) ;;
        modify (set_commit_index (sm_index meta)) ;;
        modify (set_last_applied (sm_index meta)) ;;
        modify (set_membership (sm_membership meta)) ;;
        emit (SetGauge g_commit_index (sm_index meta)) ;;
        emit (SetGauge g_last_applied (sm_index meta))
    end.

Definition handle_install_snapshot (from : N) (m : InstallSnapshot) : Proc unit :=
  modify (set_election_elapsed 0) ;;
  modify (set_leader_id (Some from)) ;;
  s ← get;
  let recv := default SnapshotReceiver.new (snapshot_receiver s) in
  let chunk := mkSnapshotChunk (is_meta m) (is_offset m) (is_data m) (is_done m) in
  let bytes_stored := is_offset m +w vlen (is_data m) in
  let '(o, recv') := SnapshotReceiver.feed recv chunk in
  match o with
  | Some snapshot =>
      modify (set_snapshot_receiver None) ;;
      emit (Inc snapshots_received) ;;
      apply_snapshot snapshot
  | None => modify (set_snapshot_receiver (Some recv'))
  end ;;
  s ← get;
  send from (MInstallSnapshotReply (mkInstallSnapshotReply (current_term s) true bytes_stored)).

Definition handle_install_snapshot_reply (from : N) (m : InstallSnapshotReply) : Proc unit :=
  s ← get;
  if negb (bool_decide (role s = Leader)) then skip
  else
    let snap_idx := snapshot_index (log s) in
    modify (λ s, set_peers (alter (λ p,
      let p := set_in_progress false p in
      if isr_success m then set_indices (snap_idx +w 1) snap_idx p else p) from (peers s)) s) ;;
    maybe_advance_commit.

(** ** TimeoutNow and ReadIndex *)

Definition handle_timeout_now (from : N) (m : TimeoutNow) : Proc unit :=
  s ← get;
  if is_learner s then skip
  else
    modify (λ s, set_election_elapsed (election_timeout s) s) ;;
    campaign (pre_vote (config s)).

(** All three branches of the code: not leader, lease read, and the immediate
    answer used for requests from other nodes. *)
Definition handle_read_index_request (from : N) (m : ReadIndexRequest) : Proc unit :=
  s ← get;
  if negb (bool_decide (role s = Leader)) then
    send from (MReadIndexReply (mkReadIndexReply (current_term s) (rir_id m) 0 false))
  else if bool_decide (mode (read_only s) = LeaseRead) && LeaderLease.is_valid now (lease s) then
    send from (MReadIndexReply (mkReadIndexReply (current_term s) (rir_id m) (commit_index s) true))
  else
    send from (MReadIndexReply (mkReadIndexReply (current_term s) (rir_id m) (commit_index s) true)).

Definition handle_read_index_reply (from : N) (m : ReadIndexReply) : Proc unit := skip.

(** ** Step: dispatch of an incoming message *)

Definition claimed_leader (m : RaftMessage) : option N :=
  match m with
  | MAppendEntries m => Some (ae_leader_id m)
  | MInstallSnapshot m => Some (is_leader_id m)
  | _ => None
  end.

Definition is_pre_vote_request (m : RaftMessage) : bool :=
  match m with MRequestVote rv => rv_pre_vote rv | _ => false end.

Definition is_pre_vote_reply (m : RaftMessage) : bool :=
  match m with MRequestVoteReply rv => rvr_pre_vote rv | _ => false end.

Definition dispatch (from : N) (m : RaftMessage) : Proc unit :=
  match m with
  | MRequestVote m => handle_request_vote from m
  | MRequestVoteReply m => handle_request_vote_reply from m
  | MAppendEntries m => handle_append_entries from m
  | MAppendEntriesReply m => handle_append_entries_reply from m
  | MInstallSnapshot m => handle_install_snapshot from m
  | MInstallSnapshotReply m => handle_install_snapshot_reply from m
  | MTimeoutNow m => handle_timeout_now from m
  | MReadIndexRequest m => handle_read_index_request from m
  | MReadIndexReply m => handle_read_index_reply from m
  end.

Definition step (from : N) (m : RaftMessage) : Proc unit :=
  s ← get;
  when ((current_term s <? msg_term m) && negb (is_pre_vote_request m))
    (become_follower (msg_term m) (claimed_leader m)) ;;
  s ← get;
  if (msg_term m <? current_term s) && negb (is_pre_vote_reply m) then skip
  else dispatch from m.

(** ** Commands *)

Definition initiate_transfer (to : N) : Proc (HaResult unit) :=
  s ← get;
  if negb (bool_decide (role s = Leader)) then mret (Err (NotLeader (leader_id s)))
  else if negb (bool_decide (to ∈ voters (membership s))) then mret (Err (NodeNotFound to))
  else
    modify (set_transfer_to (Some to)) ;;
    modify (set_transfer_elapsed 0) ;;
    replicate_to to ;;
    s ← get;
    let target_match := from_option match_index 0 (peers s !! to) in
    when (MemLog.last_index (log s) <=? target_match)
      (send to (MTimeoutNow (mkTimeoutNow (current_term s) (node_id s)))) ;;
    mret (Ok tt).

Definition cmd_propose (data : bytes) (resp : N) : Proc unit :=
  s ← get;
  if negb (bool_decide (role s = Leader)) then
    emit (Respond resp (RIndex (Err (NotLeader (leader_id s))))) ;;
    emit (Inc proposals_failed)
  else if bool_decide (is_Some (transfer_to s)) then
    emit (Respond resp (RIndex (Err TransferInProgress)))
  else
    emit (Inc proposals_total) ;;
    let index := MemLog.last_index (log s) +w 1 in
    modify (λ s, set_log (MemLog.append (log s) [new_normal index (current_term s) data]) s) ;;
    modify (λ s, set_pending_proposals (<[index := resp]> (pending_proposals s)) s) ;;
    broadcast_append_entries ;;
    s ← get;
    when (size (voters (membership s)) =? 1)%nat (advance_commit index).

Definition cmd_read_index (resp : N) : Proc unit :=
  s ← get;
  if negb (bool_decide (role s = Leader)) then
    emit (Respond resp (RIndex (Err (NotLeader (leader_id s)))))
  else
    emit (Inc read_index_requests) ;;
    if bool_decide (mode (read_only s) = LeaseRead) && LeaderLease.is_valid now (lease s) then
      emit (Respond resp (RIndex (Ok (commit_index s))))
    else
      modify (λ s, set_read_only (ReadOnlyQueue.add (read_only s) (commit_index s) resp).2 s) ;;
      broadcast_heartbeat.

Definition cmd_add_node (node : NodeInfo) (resp : N) : Proc unit :=
  s ← get;
  if negb (bool_decide (role s = Leader)) then
    emit (Respond resp (RUnit (Err (NotLeader (leader_id s)))))
  else
    append_membership_change
      (MembershipChange.joint_for_add (membership s) (ni_id node) (ni_is_learner node)) ;;
    s ← get;
    let next := MemLog.last_index (log s) +w 1 in
    modify (λ s, set_peers (match peers s !! ni_id node with
                            | Some _ => peers s
                            | None => <[ni_id node := peer_new now next]> (peers s)
                            end) s) ;;
    emit (Respond resp (RUnit (Ok tt))).

(** Unlike [joint_for_remove], the command keeps the removed node among the learners. *)
Definition cmd_remove_node (id : N) (resp : N) : Proc unit :=
  s ← get;
  if negb (bool_decide (role s = Leader)) then
    emit (Respond resp (RUnit (Err (NotLeader (leader_id s)))))
  else
    append_membership_change
      (mkMembershipConfig (voters (membership s) ∖ {[id]}) (learners (membership s))
         (Some (voters (membership s))) true) ;;
    emit (Respond resp (RUnit (Ok tt))) ;;
    s ← get;
    when (id =? node_id s) (become_follower (current_term s) None).

Definition node_status (s : Node) : NodeStatus :=
  mkNodeStatus (node_id s) (role_to_string (role s)) (current_term s) (commit_index s)
    (last_applied s) (leader_id s) (membership s) (MemLog.last_index (log s))
    (MemLog.last_term (log s)).

(** [handle_cmd]; [true] means shut down. *)
Definition handle_cmd (cmd : NodeCmd) : Proc bool :=
  match cmd with
  | Propose data resp => cmd_propose data resp ;; mret false
  | CmdReadIndex resp => cmd_read_index resp ;; mret false
  | AddNode node resp => cmd_add_node node resp ;; mret false
  | RemoveNode id resp => cmd_remove_node id resp ;; mret false
  | TransferLeadership to resp =>
      r ← initiate_transfer to;
      emit (Respond resp (RUnit r)) ;; mret false
  | TriggerSnapshot resp =>
      modify (set_pending_snapshot_resp (Some resp)) ;;
      compact_log ;; mret false
  | CmdStatus resp =>
      s ← get;
      emit (Respond resp (RStatus (node_status s))) ;; mret false
  | CmdShutdown => mret true
  end.

(** ** The actor *)

(** The part of [run] before the loop. *)
Definition run_start : Proc unit :=
  s ← get;
  when ((size (voters (membership s)) =? 1)%nat && bool_decide (node_id s ∈ voters (membership s)))
    (campaign false).

Inductive Event : Type :=
| ETick
| EMsg (from : N) (m : RaftMessage)
| ECmd (c : NodeCmd).

(** One iteration of the [select!] loop; [true] leaves the loop. *)
Definition run_event (e : Event) : Proc bool :=
  match e with
  | ETick => tick ;; mret false
  | EMsg from m => step from m ;; mret false
  | ECmd c => handle_cmd c
  end.

End Handlers.

(** The node [spawn] starts.  The lease duration, which [spawn] computes in floating
    point from the configuration, is an argument. *)
Definition spawn {SM Rng : Type} `{!GenRange Rng} (cfg : NodeConfig) (initial_members : list NodeInfo)
    (lease_duration : N) (sm : SM) (r : Rng) : RaftNode SM Rng :=
  let '(timeout, r') := gen_range (election_timeout_min cfg) (election_timeout_max cfg) r in
  let voters := foldl (λ v n, if ni_is_learner n then v else v ∪ {[ni_id n]}) ∅ initial_members in
  let learners := foldl (λ v n, if ni_is_learner n then v ∪ {[ni_id n]} else v) ∅ initial_members in
  mkRaftNode (cfg_id cfg) cfg 0 None Follower None MemLog.new 0 0
    (mkMembershipConfig voters learners None false) ∅ ∅ 0 timeout 0 ∅ ∅ ∅ 0
    (ReadOnlyQueue.new ReadIndex) (LeaderLease.new lease_duration) None None None 0 sm r'.

Lemma reset_election_timeout_spec {SM Rng : Type} `{!GenRange Rng} (s : RaftNode SM Rng) :
  ∃ t r, final reset_election_timeout s = set_election_timeout t (set_rng r s) ∧
         outs reset_election_timeout s = [].
Proof.
  unfold reset_election_timeout. rewrite final_get_bind, outs_get_bind, final_bind, outs_bind.
  unfold final, outs, res, randomized_timeout. simpl.
  destruct (gen_range _ _ _) as [v r]. simpl. eauto.
Qed.

(** Replaces a reset of the election timeout by the fields it sets. *)
Ltac reset_timeout :=
  match goal with
  | |- context [final reset_election_timeout ?s] =>
      let Hf := fresh in let Ho := fresh in
      destruct (reset_election_timeout_spec s) as (? & ? & Hf & Ho);
      rewrite ?Hf, ?Ho; clear Hf Ho
  end.
