(* ===== verification/RaftExample.v ===== *)
(** * Concrete instances

    Instances of the parameters of [RaftNode.v], for executing the model: a random
    source that returns the lower bound, a serializer of configurations, and the
    nodes of a three-voter cluster.  The witnesses evaluate the handlers on them. *)

From S2P Require Import Prelude Effects Consensus RaftTypes RaftLog RaftStateMachine.
From S2P Require Import RaftSnapshot RaftMembership RaftReadOnly RaftNode.

Definition MinRng : Type := unit.
#[export] Instance min_gen_range : GenRange MinRng := λ min _ r, (min, r).

Definition cfg_code (c : MembershipConfig) : list N * list N * option (list N) * bool :=
  (elements (voters c), elements (learners c), elements <$> voters_outgoing c, auto_leave c).
Definition cfg_decode (x : list N * list N * option (list N) * bool) : MembershipConfig :=
  let '(v, l, o, a) := x in
  mkMembershipConfig (list_to_set v) (list_to_set l) (list_to_set <$> o) a.

#[export] Instance bit_membership_json : MembershipJson := {
  cfg_to_vec c := Ok (bits (encode (cfg_code c)));
  cfg_from_slice d :=
    match decode (unbits d) with Some x => Ok (cfg_decode x) | None => Err ("decode"%string, []) end
}.

Lemma cfg_json_roundtrip c : ∃ d, cfg_to_vec c = Ok d ∧ cfg_from_slice d = Ok c.
Proof.
  eexists. split; [done|]. simpl. rewrite unbits_bits, decode_encode.
  destruct c as [v l o a]. simpl. unfold cfg_decode. f_equal. f_equal.
  - apply list_to_set_elements_L.
  - apply list_to_set_elements_L.
  - destruct o; simpl; [|done]. by rewrite list_to_set_elements_L.
Qed.

Abbreviation ExNode := (RaftNode NoopStateMachine MinRng).

Definition ex_members (n : nat) : list NodeInfo :=
  (λ i, mkNodeInfo (N.of_nat i) ""%string false) <$> seq 1 n.

Definition ex_config (id : N) : NodeConfig :=
  mkNodeConfig id 3 5 2 64 4 true 10 true 10000 4 1000 10.

Definition ex_node (n : nat) (id : N) : ExNode :=
  spawn (ex_config id) (ex_members n) 5000000 mkNoop tt.

Definition ex_membership (n : nat) : MembershipConfig :=
  mkMembershipConfig (list_to_set (N.of_nat <$> seq 1 n)) ∅ None false.
