(* ===== verification/RaftBridge.v ===== *)
(** * The bridge from cave-ha to the kernel traits

    [crates/compute/cave-ha/src/raft/kernel_bridge.rs]: projections between the types
    of cave-ha and the kernel, the log store [KernelLogStore] over [MemLog] as an
    instance of the trait [LogStore], and the answers of [KernelRaftHandle].  The
    instance meets the contract [LogStoreLaws] of [Consensus.v], so what is proved for
    any lawful store holds of it. *)

From stdpp Require Import pretty strings.
From S2P Require Import Prelude Consensus RaftTypes RaftLog RaftSnapshot RaftMembership.
From S2P Require Import RaftReadOnly Effects RaftNode.

Definition from_kernel_entry (e : Kernel.LogEntry) : LogEntry :=
  mkLogEntry (Kernel.index e) (Kernel.term e) Normal (Kernel.data e).

(** [u64::to_string] *)
Definition to_kernel_node_id (id : N) : string := pretty id.

Definition map_ha_error (e : HaError) : Kernel.ConsensusError :=
  match e with
  | NotLeader leader_id => Kernel.NotLeader (to_kernel_node_id <$> leader_id)
  | LogCompacted requested _ => Kernel.LogNotFound requested
  | Storage s => Kernel.Storage s
  | Transport s => Kernel.Transport s
  | SnapshotErr (s, a) => Kernel.Storage (("snapshot: " ++ s)%string, a)
  | Serialization (s, a) => Kernel.Storage (("serde: " ++ s)%string, a)
  | Io (s, a) => Kernel.Storage (("io: " ++ s)%string, a)
  | Raft s => Kernel.Aborted s
  | Shutdown => Kernel.Aborted ("shutdown"%string, [])
  | Timeout => Kernel.Aborted ("timeout"%string, [])
  | ProposalDropped => Kernel.Aborted ("proposal dropped"%string, [])
  | TransferInProgress => Kernel.Aborted ("transfer in progress"%string, [])
  | IsLearner => Kernel.Aborted ("node is learner"%string, [])
  | MembershipChangePending => Kernel.Aborted ("membership change pending"%string, [])
  | NodeNotFound id => Kernel.Aborted ("node {id} not found"%string, [id])
  | NoQuorum => Kernel.Aborted ("no quorum"%string, [])
  | Dr (s, a) => Kernel.Aborted (("dr: " ++ s)%string, a)
  end.

Definition map_err {A} (r : HaResult A) : Kernel.ConsensusResult A :=
  match r with Ok a => Ok a | Err e => Err (map_ha_error e) end.

Definition to_kernel_role (r : Role) : Kernel.Role :=
  match r with
  | Follower => Kernel.Follower
  | PreCandidate | Candidate => Kernel.Candidate
  | Leader => Kernel.Leader
  end.

(** ** The log store *)

Record KernelLogStore : Type := mkKernelLogStore { kls_inner : MemLog }.

Module KernelLogStore.
Definition new : KernelLogStore := mkKernelLogStore MemLog.new.

Definition append (entries : list Kernel.LogEntry) (l : KernelLogStore) :
    Kernel.ConsensusResult unit * KernelLogStore :=
  (Ok tt, mkKernelLogStore (MemLog.append (kls_inner l) (from_kernel_entry <$> entries))).

Definition get (index : N) (l : KernelLogStore) : Kernel.ConsensusResult (option Kernel.LogEntry) :=
  match MemLog.entry (kls_inner l) index with
  | Ok e => Ok (Some (to_kernel_entry e))
  | Err (LogCompacted _ _) => Ok None
  | Err (Raft _) => Ok None
  | Err e => Err (map_ha_error e)
  end.

Definition last_index (l : KernelLogStore) : Kernel.ConsensusResult N :=
  Ok (MemLog.last_index (kls_inner l)).

Definition truncate_after (index : N) (l : KernelLogStore) :
    Kernel.ConsensusResult unit * KernelLogStore :=
  (Ok tt, mkKernelLogStore (MemLog.truncate_to (kls_inner l) index)).
End KernelLogStore.

#[export] Instance kernel_log_store : Kernel.LogStore KernelLogStore := {
  Kernel.ls_append := KernelLogStore.append;
  Kernel.ls_get := KernelLogStore.get;
  Kernel.ls_last_index := KernelLogStore.last_index;
  Kernel.ls_truncate_after := KernelLogStore.truncate_after
}.

(** ** The handle *)

(** [KernelRaftHandle::leader]: the role is parsed back from its name. *)
Definition kernel_role_of_name (role : string) : Kernel.Role :=
  if bool_decide (role = "Leader"%string) then Kernel.Leader
  else if bool_decide (role = "Candidate"%string) || bool_decide (role = "PreCandidate"%string)
  then Kernel.Candidate
  else Kernel.Follower.

Definition handle_leader (status : HaResult NodeStatus) : Kernel.ConsensusResult Kernel.LeaderInfo :=
  let? status := map_err status in
  Ok (Kernel.mkLeaderInfo (to_kernel_node_id <$> ns_leader_id status) (ns_term status)
        (kernel_role_of_name (ns_role status))).

Definition handle_propose (r : HaResult N) : Kernel.ConsensusResult N := map_err r.
Definition handle_read_index (r : HaResult N) : Kernel.ConsensusResult N := map_err r.

(** ** The store meets the contract *)

Definition kls_view (l : KernelLogStore) (i : N) : option Kernel.LogEntry :=
  to_kernel_entry <$> MemLog.view (kls_inner l) i.

Lemma kernel_entry_roundtrip e : to_kernel_entry (from_kernel_entry e) = e.
Proof. by destruct e. Qed.

Lemma kls_get_view l i : MemLog.wf (kls_inner l) → i < u64_modulus →
  KernelLogStore.get i l = Ok (kls_view l i).
Proof.
  intros Hwf Hi. unfold KernelLogStore.get, kls_view. rewrite (MemLog.entry_view _ _ Hwf Hi).
  destruct (N.leb_spec i (snapshot_index (kls_inner l))).
  - by rewrite MemLog.view_None_below.
  - by destruct (MemLog.view _ _).
Qed.

Lemma kls_append_next l e : MemLog.wf (kls_inner l) →
  Kernel.index e = MemLog.top (kls_inner l) + 1 → MemLog.top (kls_inner l) + 1 < u64_max →
  MemLog.wf (kls_inner (KernelLogStore.append [e] l).2) ∧
  MemLog.top (kls_inner (KernelLogStore.append [e] l).2) = MemLog.top (kls_inner l) + 1 ∧
  ∀ i, kls_view (KernelLogStore.append [e] l).2 i =
       if decide (i = MemLog.top (kls_inner l) + 1) then Some e else kls_view l i.
Proof.
  intros Hwf He Hmax. simpl. unfold kls_view, MemLog.append. simpl.
  destruct (MemLog.append_one_spec (kls_inner l) (from_kernel_entry e)) as (Hwf' & Htop & Hview);
    [done|simpl; unfold MemLog.top in *; lia|simpl; lia|].
  split_and!; [done|by rewrite Htop|]. intros i. rewrite Hview. simpl. rewrite He.
  case_decide as Hi.
  - subst i. rewrite N.ltb_irrefl, N.eqb_refl. simpl. by rewrite kernel_entry_roundtrip.
  - destruct (N.ltb_spec i (MemLog.top (kls_inner l) + 1)); [done|].
    destruct (N.eqb_spec i (MemLog.top (kls_inner l) + 1)); [done|]. simpl.
    rewrite MemLog.view_None_above; [done|lia].
Qed.

Lemma kls_truncate l k : MemLog.wf (kls_inner l) → k < u64_max →
  MemLog.wf (kls_inner (KernelLogStore.truncate_after k l).2) ∧
  ∀ i, kls_view (KernelLogStore.truncate_after k l).2 i = if decide (i ≤ k) then kls_view l i else None.
Proof.
  intros Hwf Hk. destruct (MemLog.truncate_to_spec _ k Hwf Hk) as (Hwf' & _ & Hview).
  split; [done|]. intros i. unfold kls_view. simpl. rewrite Hview.
  destruct (N.leb_spec i k); case_decide; (done || lia).
Qed.

#[export] Instance kernel_log_store_laws : LogStoreLaws KernelLogStore.
Proof.
  refine {| ls_wf l := MemLog.wf (kls_inner l); ls_view := kls_view;
            ls_last l := MemLog.top (kls_inner l) |}.
  - apply kls_get_view.
  - intros l Hwf. simpl. unfold KernelLogStore.last_index. by rewrite MemLog.last_index_top.
  - intros l i Hwf Hi. unfold kls_view. by rewrite MemLog.view_None_above.
  - intros l e Hwf He Hmax. destruct (kls_append_next l e Hwf He Hmax) as (? & ? & ?). by split_and!.
  - intros l k Hwf Hk. destruct (kls_truncate l k Hwf Hk) as [? ?]. by split_and!.
Defined.

(** The log store cave-ha exports through the kernel trait: entries appended one by
    one after its end are read back under their indices, and [truncate_after] with the
    old last index restores every earlier answer of [get], whatever was compacted
    before. *)
Theorem kernel_store_stage_rollback (l : KernelLogStore) (es : list Kernel.LogEntry) :
  MemLog.wf (kls_inner l) → numbered (MemLog.top (kls_inner l) + 1) es →
  MemLog.top (kls_inner l) + vlen es < u64_max →
  Kernel.ls_last_index l = Ok (MemLog.top (kls_inner l)) ∧
  (∀ n e, es !! n = Some e → Kernel.ls_get (Kernel.index e) (stage es l) = Ok (Some e)) ∧
  (∀ i, i < u64_modulus →
     Kernel.ls_get i (Kernel.ls_truncate_after (MemLog.top (kls_inner l)) (stage es l)).2
     = Kernel.ls_get i l).
Proof.
  intros Hwf Hn Hmax. split; [exact (ls_last_index_last l Hwf)|].
  exact (stage_get_rollback l es Hwf Hn Hmax).
Qed.

Lemma kernel_store_stage_rollback_witness :
  let l := mkKernelLogStore (MemLog.compact (MemLog.append MemLog.new
             [new_normal 1 1 [10]; new_normal 2 1 [20]; new_normal 3 2 [30]]) 2 1) in
  let es := [Kernel.mkLogEntry 4 2 [40]; Kernel.mkLogEntry 5 2 [50]] in
  Kernel.ls_last_index l = Ok 3 ∧
  Kernel.ls_get 5 (stage es l) = Ok (Some (Kernel.mkLogEntry 5 2 [50])) ∧
  Kernel.ls_get 3 (Kernel.ls_truncate_after 3 (stage es l)).2 = Kernel.ls_get 3 l.
Proof.
  intros l es. destruct (kernel_store_stage_rollback l es) as (H1 & H2 & H3).
  - split; [|done]. intros [|k] e; [by intros [= <-]|]. by destruct k.
  - intros [|[|n]] e; [by intros [= <-]..|done].
  - done.
  - split_and!; [exact H1|exact (H2 1%nat (Kernel.mkLogEntry 5 2 [50]) eq_refl)|exact (H3 3 eq_refl)].
Defined.

(** The status a node reports ([node_status]) reaches the kernel handle with its
    role intact: parsing the role name back gives [to_kernel_role] of the node's role,
    with the node's term and the decimal name of its leader. *)
Theorem handle_leader_of_status {SM Rng : Type} (s : RaftNode SM Rng) :
  handle_leader (Ok (node_status s)) =
  Ok (Kernel.mkLeaderInfo (to_kernel_node_id <$> leader_id s) (current_term s)
        (to_kernel_role (role s))).
Proof. unfold handle_leader, node_status. simpl. by destruct (role s). Qed.
