(* ===== verification/RaftApply.v ===== *)
(** * Commit and apply

    What [maybe_advance_commit], [advance_commit] and [apply_entries] of
    [crates/compute/cave-ha/src/raft/node.rs] compute: which index becomes committed,
    which proposals are answered, and that the state machine is the fold of the
    committed entries, in order. *)

From S2P Require Import Prelude Effects Consensus RaftTypes RaftLog RaftStateMachine.
From S2P Require Import RaftSnapshot RaftMembership RaftReadOnly RaftNode RaftExample.

Section Apply.
Context {SM Rng : Type} `{SMI : !Kernel.StateMachine SM} `{RngI : !GenRange Rng} `{Json : !MembershipJson}.
Local Abbreviation Node := (RaftNode SM Rng).
Local Abbreviation Proc := (M Node Effect).

(** The fields replication messages do not touch. *)
Record same_core (s s' : Node) : Prop := mk_same_core {
  sc_log : log s' = log s;
  sc_commit : commit_index s' = commit_index s;
  sc_applied : last_applied s' = last_applied s;
  sc_machine : state_machine s' = state_machine s;
  sc_role : role s' = role s;
  sc_pending : pending_proposals s' = pending_proposals s
}.
#[export] Instance same_core_preorder : PreOrder same_core.
Proof. split; [done|]. intros ??? [] []. split; congruence. Qed.

(** An effect that answers no proposal. *)
Definition no_index (e : Effect) : Prop :=
  match e with Respond _ (RIndex _) => False | _ => True end.

Definition core_frame (s s' : Node) (o : list Effect) : Prop := same_core s s' ∧ Forall no_index o.
#[export] Instance core_frame_frame : Frame core_frame.
Proof.
  split; [intros s; by split|]. intros s1 s2 s3 o1 o2 [] [].
  split; [by etrans|by apply Forall_app].
Qed.

Ltac core_step :=
  lazymatch goal with
  | |- core_frame ?S ?S [_] => split; [reflexivity|by repeat constructor]
  | |- core_frame ?S _ [] => try (generalize S; intro); split; [by split|by constructor]
  end.

Lemma core_send_snapshot_to p s : holds_at core_frame (send_snapshot_to (SM := SM) (Rng := Rng) p) s.
Proof. unfold send_snapshot_to, send. walk; core_step. Qed.
#[local] Hint Resolve core_send_snapshot_to : effects.

Lemma core_replicate_to p s : holds_at core_frame (replicate_to (SM := SM) (Rng := Rng) p) s.
Proof. unfold replicate_to, send. walk; core_step. Qed.
#[local] Hint Resolve core_replicate_to : effects.

Lemma core_broadcast s : holds_at core_frame (broadcast_append_entries (SM := SM) (Rng := Rng)) s.
Proof. unfold broadcast_append_entries. walk. Qed.
#[local] Hint Resolve core_broadcast : effects.

(** ** Applying committed entries *)

(** What one committed entry does to the state machine. *)
Definition machine_step (sm : SM) (e : LogEntry) : SM :=
  match e_type e with
  | Normal | Barrier => (Kernel.sm_apply (to_kernel_entry e) sm).2
  | MembershipChange => sm
  end.

(** Applying an entry leaves the log in place up to its end, and at most adds one
    entry there (the leader leaving a joint configuration). *)
Record extends (s s' : Node) : Prop := mk_extends {
  ex_wf : MemLog.wf (log s');
  ex_snap : snapshot_index (log s') = snapshot_index (log s);
  ex_top : MemLog.top (log s) ≤ MemLog.top (log s');
  ex_view i : i ≤ MemLog.top (log s) → MemLog.view (log s') i = MemLog.view (log s) i
}.

Lemma extends_refl s s' : MemLog.wf (log s) → log s' = log s → extends s s'.
Proof. intros Hwf Hl. split; rewrite ?Hl; (done || lia). Qed.

Lemma extends_trans s1 s2 s3 : extends s1 s2 → extends s2 s3 → extends s1 s3.
Proof.
  intros [? Hs Ht Hv] [? Hs' Ht' Hv']. split; [done|congruence|lia|].
  intros i Hi. rewrite Hv' by lia. by apply Hv.
Qed.

Ltac ext_done := finals; simpl; split_and!; first [done | by apply extends_refl | lia | by repeat constructor].

Lemma append_membership_change_spec cfg (s : Node) :
  MemLog.wf (log s) → MemLog.top (log s) + 1 < u64_max →
  let s' := final (append_membership_change cfg) s in
  extends s s' ∧ MemLog.top (log s') ≤ MemLog.top (log s) + 1 ∧
  commit_index s' = commit_index s ∧ last_applied s' = last_applied s ∧
  state_machine s' = state_machine s ∧ pending_proposals s' = pending_proposals s ∧
  Forall no_index (outs (append_membership_change cfg) s).
Proof.
  intros Hwf Hmax. unfold append_membership_change. rewrite final_get_bind, outs_get_bind.
  destruct (new_membership _ _ _) as [e|] eqn:He.
  2:{ ext_done. }
  rewrite final_bind, outs_bind. finals.
  set (s1 := set_log (MemLog.append (log s) [e]) s). destruct (core_broadcast s1) as [[Hl Hc Ha Hm _ Hp] Ho].
  assert (Hei : e_index e = MemLog.top (log s) + 1).
  { revert He. unfold new_membership. destruct (cfg_to_vec cfg); [|done]. intros [= <-]. simpl.
    rewrite MemLog.last_index_top by done. apply u64_add_small. unfold u64_max, u64_modulus in *. lia. }
  destruct (MemLog.append_one_spec (log s) e) as (Hwf' & Ht & Hv); [done|unfold MemLog.top in *; lia|lia|].
  assert (Hlog : log s1 = MemLog.append_one (log s) e) by done.
  split_and!; try done.
  - split; rewrite Hl, Hlog; [done|done|lia|]. intros i Hi. rewrite Hv.
    destruct (N.ltb_spec i (e_index e)); [done|lia].
  - rewrite Hl, Hlog, Ht. lia.
Qed.

Lemma apply_entry_spec e (s : Node) : MemLog.wf (log s) → MemLog.top (log s) + 1 < u64_max →
  let s' := final (apply_entry e) s in
  extends s s' ∧ MemLog.top (log s') ≤ MemLog.top (log s) + 1 ∧
  commit_index s' = commit_index s ∧ last_applied s' = last_applied s ∧
  state_machine s' = machine_step (state_machine s) e ∧
  pending_proposals s' = pending_proposals s ∧ Forall no_index (outs (apply_entry e) s).
Proof.
  intros Hwf Hmax. unfold apply_entry, machine_step. destruct (e_type e).
  1,3: ext_done.
  destruct (decode_membership e) as [cfg|]; [|ext_done].
  rewrite !final_bind, !outs_bind. finals. simpl.
  destruct (_ && _); rewrite ?when_true, ?when_false; [|ext_done].
  edestruct append_membership_change_spec with (s := set_membership cfg s)
    as ([] & ? & ? & ? & ? & ? & ?); [done..|].
  split_and!; try done. apply Forall_app. by split; [|repeat constructor].
Qed.

(** The next [n] entries after index [i]. *)
Definition entries_after (l : MemLog) (i : N) (es : list LogEntry) : Prop :=
  ∀ n e, es !! n = Some e → MemLog.view l (i + 1 + N.of_nat n) = Some e.

Record applied (es : list LogEntry) (s s' : Node) (o : list Effect) : Prop := mk_applied {
  ap_extends : extends s s';
  ap_commit : commit_index s' = commit_index s;
  ap_index : last_applied s' = last_applied s + vlen es;
  ap_machine : state_machine s' = foldl machine_step (state_machine s) es;
  ap_pending : pending_proposals s' = pending_proposals s;
  ap_effects : Forall no_index o
}.

Lemma apply_loop_spec es (s : Node) :
  MemLog.wf (log s) → commit_index s = last_applied s + vlen es →
  entries_after (log s) (last_applied s) es → snapshot_index (log s) ≤ last_applied s →
  MemLog.top (log s) + vlen es < u64_max →
  applied es s (final (apply_loop (length es)) s) (outs (apply_loop (length es)) s).
Proof.
  revert s. induction es as [|e es IH]; intros s Hwf Hc Hes Hsnap Hmax.
  { cbn [length apply_loop]. split; finals; first [done | by apply extends_refl | unfold vlen; simpl; lia | by constructor]. }
  rewrite vlen_cons in Hc, Hmax. pose proof (Hes 0%nat e eq_refl) as He.
  replace (last_applied s + 1 + N.of_nat 0) with (last_applied s + 1) in He by lia.
  assert (Hle : last_applied s + 1 ≤ MemLog.top (log s)) by (apply MemLog.view_Some in He; lia).
  assert (Hw : last_applied s +w 1 = last_applied s + 1)
    by (apply u64_add_small; unfold u64_max, u64_modulus in *; lia).
  cbn [length apply_loop]. rewrite final_get_bind, outs_get_bind.
  destruct (N.ltb_spec (last_applied s) (commit_index s)); [|lia].
  rewrite final_bind, outs_bind. finals. rewrite final_get_bind, outs_get_bind, Hw. simpl.
  set (s1 := set_last_applied (last_applied s + 1) s).
  rewrite (MemLog.entry_view (log s)) by (done || unfold u64_max, u64_modulus in *; lia).
  destruct (N.leb_spec (last_applied s + 1) (snapshot_index (log s))); [lia|]. rewrite He.
  rewrite !final_bind, !outs_bind. finals.
  destruct (apply_entry_spec e s1 Hwf) as (Hex & Htop & Hc2 & Ha2 & Hm2 & Hp2 & Ho2); [simpl; lia|].
  revert Hex Htop Hc2 Ha2 Hm2 Hp2. generalize (final (apply_entry e) s1). intros s2 Hex Htop Hc2 Ha2 Hm2 Hp2.
  destruct Hex as [Hwf2 Hs2 Ht2 Hv2]. simpl in *.
  destruct (IH s2) as [Hex' Hc' Ha' Hm' Hp' Ho'].
  { done. } { rewrite Hc2, Ha2. lia. }
  { intros n x Hx. rewrite Ha2. pose proof (Hes (S n) x Hx) as Hx'.
    replace (last_applied s + 1 + N.of_nat (S n)) with (last_applied s + 1 + 1 + N.of_nat n) in Hx' by lia.
    rewrite Hv2; [done|]. apply MemLog.view_Some in Hx'. lia. }
  { lia. } { lia. }
  split; [|congruence| |by rewrite Hm', Hm2|congruence|].
  - eapply extends_trans; [|done]. by split.
  - rewrite Ha', Ha2, vlen_cons. lia.
  - apply Forall_app. split; [done|]. by constructor.
Qed.

(** The committed entries not yet applied. *)
Definition unapplied (s : Node) : list LogEntry :=
  unwrap_or (MemLog.slice (log s) (last_applied s + 1) (commit_index s + 1)) [].

(** What apply needs: the log holds the entries between the two indices. *)
Record ready (s : Node) : Prop := mk_ready {
  rd_wf : MemLog.wf (log s);
  rd_snap : snapshot_index (log s) ≤ last_applied s;
  rd_applied : last_applied s ≤ commit_index s;
  rd_commit : commit_index s ≤ MemLog.top (log s);
  rd_room : MemLog.top (log s) + (commit_index s - last_applied s) < u64_max
}.

Lemma unapplied_spec s : ready s →
  vlen (unapplied s) = commit_index s - last_applied s ∧
  entries_after (log s) (last_applied s) (unapplied s).
Proof.
  intros [Hwf Hsn Hap Hc Hr]. unfold unapplied, vlen.
  destruct (MemLog.slice_spec (log s) (last_applied s + 1) (commit_index s + 1)) as (es & -> & Hes);
    [done|lia|unfold u64_max, u64_modulus in *; lia|]. simpl.
  assert (Hin : ∀ n, is_Some (es !! n) ↔ (n < N.to_nat (commit_index s - last_applied s))%nat).
  { intros n. rewrite Hes. destruct (N.ltb_spec (last_applied s + 1 + N.of_nat n) (commit_index s + 1)).
    - split; [lia|]. intros _. apply MemLog.view_in_range. lia.
    - split; [by intros []|lia]. }
  split.
  - assert (length es = N.to_nat (commit_index s - last_applied s)); [|lia].
    apply Nat.le_antisymm; apply Nat.nlt_ge; intros Hlt.
    + assert (Hs : is_Some (es !! N.to_nat (commit_index s - last_applied s)))
        by (by apply lookup_lt_is_Some). apply Hin in Hs. lia.
    + assert (Hs : is_Some (es !! length es)) by (apply Hin; lia).
      apply lookup_lt_is_Some in Hs. lia.
  - intros n e He. pose proof He as He'. rewrite Hes in He'. by destruct (_ <? _).
Qed.

(** Compaction keeps everything above the applied index. *)
Definition kept_above (i : N) (l l' : MemLog) : Prop :=
  ∀ j, i < j → j ≤ MemLog.top l → MemLog.view l' j = MemLog.view l j.

Lemma compact_log_spec (s : Node) : MemLog.wf (log s) → last_applied s < u64_max →
  let s' := final compact_log s in
  MemLog.wf (log s') ∧
  snapshot_index (log s') = N.max (snapshot_index (log s)) (last_applied s) ∧
  (∀ i, last_applied s < i → MemLog.view (log s') i = MemLog.view (log s) i) ∧
  commit_index s' = commit_index s ∧ last_applied s' = last_applied s ∧
  state_machine s' = state_machine s ∧ pending_proposals s' = pending_proposals s ∧
  Forall no_index (outs compact_log s).
Proof.
  intros Hwf Hb. unfold compact_log. rewrite final_get_bind, outs_get_bind.
  destruct (N.leb_spec (last_applied s) (snapshot_index (log s))).
  { finals. split_and!; first [done | lia | by constructor]. }
  set (t := unwrap_or _ _). rewrite !final_bind, !outs_bind. finals.
  destruct (MemLog.compact_spec (log s) (last_applied s) t Hwf Hb) as (Hwf' & Hsn & Hv).
  assert (Hv' : ∀ i, last_applied s < i →
    MemLog.view (MemLog.compact (log s) (last_applied s) t) i = MemLog.view (log s) i)
    by (intros i Hi; rewrite Hv; by destruct (N.leb_spec i (last_applied s)); [lia|]).
  destruct (pending_snapshot_resp s); rewrite ?final_bind, ?outs_bind; finals; simpl;
    split_and!; first [done | by repeat constructor].
Qed.

Record apply_result (s s' : Node) (o : list Effect) : Prop := mk_apply_result {
  ar_index : last_applied s' = commit_index s;
  ar_commit : commit_index s' = commit_index s;
  ar_machine : state_machine s' = foldl machine_step (state_machine s) (unapplied s);
  ar_pending : pending_proposals s' = pending_proposals s;
  ar_wf : MemLog.wf (log s');
  ar_snap : snapshot_index (log s') ≤ commit_index s;
  ar_log : kept_above (commit_index s) (log s) (log s');
  ar_effects : Forall no_index o
}.

Lemma apply_entries_spec (s : Node) : ready s →
  apply_result s (final apply_entries s) (outs apply_entries s).
Proof.
  intros Hr. destruct (unapplied_spec s Hr) as [Hlen Hes]. destruct Hr as [Hwf Hsn Hap Hc Hroom].
  unfold apply_entries. rewrite final_get_bind, outs_get_bind.
  replace (N.to_nat (commit_index s - last_applied s)) with (length (unapplied s))
    by (unfold vlen in Hlen; lia).
  rewrite final_bind, outs_bind.
  destruct (apply_loop_spec (unapplied s) s) as [[Hwf1 Hs1 Ht1 Hv1] Hc1 Ha1 Hm1 Hp1 Ho1]; [done|lia|done|lia|lia|].
  revert Hwf1 Hs1 Ht1 Hv1 Hc1 Ha1 Hm1 Hp1 Ho1.
  generalize (final (apply_loop (length (unapplied s))) s), (outs (apply_loop (length (unapplied s))) s).
  intros s1 o1 Hwf1 Hs1 Ht1 Hv1 Hc1 Ha1 Hm1 Hp1 Ho1.
  assert (Hidx : last_applied s1 = commit_index s) by lia.
  rewrite final_get_bind, outs_get_bind, final_bind, outs_bind. finals.
  destruct (_ <? MemLog.len _); rewrite ?when_true, ?when_false.
  - destruct (compact_log_spec s1 Hwf1) as (Hwf2 & Hs2 & Hv2 & Hc2 & Ha2 & Hm2 & Hp2 & Ho2);
      [unfold u64_max in *; lia|].
    split; try congruence; [lia|..].
    + intros j Hj1 Hj2. rewrite Hv2 by lia. by apply Hv1.
    + apply Forall_app. split; [done|]. by constructor.
  - finals. split; try congruence; [lia|..].
    + intros j Hj1 Hj2. by apply Hv1.
    + apply Forall_app. split; [done|]. by repeat constructor.
Qed.

(** ** Advancing the commit index *)

Definition answer (idx tx : N) : Effect := Respond tx (RIndex (Ok idx)).

Lemma resolve_proposal_spec x (s : Node) :
  final (resolve_proposal x) s =
    match pending_proposals s !! x with
    | Some _ => set_pending_proposals (delete x (pending_proposals s)) s
    | None => s
    end ∧
  outs (resolve_proposal x) s = option_list (answer x <$> pending_proposals s !! x).
Proof.
  unfold resolve_proposal. rewrite final_get_bind, outs_get_bind.
  by destruct (pending_proposals s !! x).
Qed.

Lemma resolve_proposals_spec l (s : Node) : NoDup l →
  let m := for_each l resolve_proposal in
  log (final m s) = log s ∧ commit_index (final m s) = commit_index s ∧
  last_applied (final m s) = last_applied s ∧ state_machine (final m s) = state_machine s ∧
  (∀ i, pending_proposals (final m s) !! i = if decide (i ∈ l) then None else pending_proposals s !! i) ∧
  outs m s = omap (λ i, answer i <$> pending_proposals s !! i) l.
Proof.
  revert s. induction l as [|x l IH]; intros s Hnd; [finals; by split_and!|].
  apply NoDup_cons in Hnd as [Hx Hnd]. cbn [for_each]. simpl. rewrite final_bind, outs_bind.
  destruct (resolve_proposal_spec x s) as [-> ->].
  destruct (pending_proposals s !! x) as [tx|] eqn:Hp; simpl.
  - set (s1 := set_pending_proposals _ s).
    destruct (IH s1 Hnd) as (-> & -> & -> & -> & Hpend & ->). split_and!; try done.
    + intros i. rewrite Hpend. unfold s1. simpl. rewrite lookup_delete.
      repeat case_decide; set_solver.
    + f_equal. apply list_omap_ext, Forall2_same_length_lookup. split; [done|].
      intros i y z Hy Hz. simplify_eq. unfold s1. simpl.
      rewrite lookup_delete_ne; [done|]. intros ->. by apply list_elem_of_lookup_2 in Hy.
  - destruct (IH s Hnd) as (? & ? & ? & ? & Hpend & ?). split_and!; try done.
    intros i. rewrite Hpend. repeat case_decide; try done; set_solver.
Qed.

(** The outcome of committing up to [n]. *)
Record committed (n : N) (s s' : Node) (o : list Effect) : Prop := mk_committed {
  cm_commit : commit_index s' = n;
  cm_applied : last_applied s' = n;
  cm_machine : state_machine s' =
    foldl machine_step (state_machine s) (unapplied (set_commit_index n s));
  cm_log : kept_above n (log s) (log s');
  cm_pending i : pending_proposals s' !! i = if decide (i ≤ n) then None else pending_proposals s !! i;
  cm_answers tx r : Respond tx (RIndex r) ∈ o ↔
    ∃ i, pending_proposals s !! i = Some tx ∧ i ≤ n ∧ r = Ok i
}.

Lemma no_index_not_elem tx r o : Forall no_index o → Respond tx (RIndex r) ∉ o.
Proof. intros Ho Hin. rewrite Forall_forall in Ho. by apply Ho in Hin. Qed.

Lemma advance_commit_spec n (s : Node) : ready (set_commit_index n s) →
  committed n s (final (advance_commit n) s) (outs (advance_commit n) s).
Proof.
  intros Hr. unfold advance_commit. rewrite !final_bind, !outs_bind. finals. simpl.
  set (s0 := set_commit_index n s) in *.
  destruct (apply_entries_spec s0 Hr) as [Ha Hc Hm Hp _ _ Hl Ho].
  revert Ha Hc Hm Hp Hl Ho. generalize (final apply_entries s0), (outs apply_entries s0).
  intros s1 o1 Ha Hc Hm Hp Hl Ho.
  set (l := filter _ _).
  assert (Hnd : NoDup l) by (apply NoDup_filter, NoDup_fst_map_to_list).
  assert (Hin : ∀ i, i ∈ l ↔ i ≤ n ∧ is_Some (pending_proposals s !! i)).
  { intros i. unfold l. rewrite list_elem_of_filter, Hp. unfold is_Some.
    rewrite list_elem_of_fmap. split.
    - intros [Hi ([k v] & -> & Hkv%elem_of_map_to_list)]. by split; [|exists v].
    - intros [Hi [v Hv]]. split; [done|]. exists (i, v). by rewrite elem_of_map_to_list. }
  destruct (resolve_proposals_spec l s1 Hnd) as (Hl' & Hc' & Ha' & Hm' & Hpend & Ho').
  split; [by rewrite Hc'|by rewrite Ha'|by rewrite Hm'|by rewrite Hl'|..].
  - intros i. rewrite Hpend, Hp. change (pending_proposals s0) with (pending_proposals s).
    repeat case_decide; try done; [naive_solver|].
    destruct (pending_proposals s !! i) eqn:Hs; [|done]. exfalso. apply H. apply Hin. eauto.
  - intros tx r. rewrite elem_of_cons, elem_of_app, Ho', Hp.
    change (pending_proposals s0) with (pending_proposals s). split.
    + intros [?|[Hx|Hx]]; [done|by apply no_index_not_elem in Hx|].
      apply list_elem_of_omap in Hx as (i & Hi & (t & Ht & Heq)%fmap_Some_1).
      injection Heq as -> ->. exists i. apply Hin in Hi. naive_solver.
    + intros (i & Hi & Hle & ->). right. right. apply list_elem_of_omap. exists i.
      split; [apply Hin; eauto|]. by rewrite Hi.
Qed.

(** [idx] carries the current term and is stored on a quorum. *)
Definition committable (s : Node) (idx : N) : bool :=
  match MemLog.term (log s) idx with
  | Ok t => (t =? current_term s) && Membership.has_quorum (membership s) (replicated_on s idx)
  | Err _ => false
  end.

Lemma commit_scan_committable (s : Node) c i : commit_scan s c i = if committable s i then i else c.
Proof.
  unfold commit_scan, committable. destruct (MemLog.term _ _); [|done].
  destruct (_ =? _); [|done]. by destruct (Membership.has_quorum _ _).
Qed.

Lemma commit_target (s : Node) : MemLog.wf (log s) → commit_index s < u64_max →
  let r := foldl (commit_scan s) (commit_index s)
             (range_incl (commit_index s +w 1) (MemLog.last_index (log s))) in
  (r = commit_index s ∨ (commit_index s < r ≤ MemLog.top (log s) ∧ committable s r = true)) ∧
  (∀ x, r < x ≤ MemLog.top (log s) → committable s x = false).
Proof.
  intros Hwf Hc. rewrite (MemLog.last_index_top _ Hwf), u64_add_1 by done.
  destruct (foldl_range_last (committable s) (commit_scan s) (commit_index s) (commit_index s + 1)
    (MemLog.top (log s)) (commit_scan_committable s)) as [[-> Hn]|(Hr & HP & Hn)]; simpl.
  - split; [by left|]. intros x Hx. apply Hn. lia.
  - split; [right; split; [lia|done]|]. intros x Hx. apply Hn. lia.
Qed.
End Apply.


Module CommitExample.
Definition stored : list LogEntry := [new_barrier 1 1; new_normal 2 1 [7]; new_normal 3 1 [8]].
Definition peer (m : N) : PeerState := mkPeerState (m + 1) m 0 1 0 false true.
(** A leader of term 1 whose peer 2 has stored two of three entries. *)
Definition node : ExNode :=
  set_role Leader (set_current_term 1 (set_log (MemLog.append MemLog.new stored)
    (set_pending_proposals {[2 := 20; 3 := 30]}
      (set_peers {[2 := peer 2; 3 := peer 0]} (ex_node 3 1))))).

Lemma commit_example_wf : MemLog.wf (log node).
Proof.
  split; [|done]. change (entries (log node)) with stored.
  intros [|[|[|k]]] e; [by intros [= <-]..|by destruct k].
Qed.
End CommitExample.

