(* ===== verification/RaftFollower.v ===== *)
(** * The follower: votes and log replication

    The rules a node of [crates/compute/cave-ha/src/raft/node.rs] follows towards other
    nodes: when it grants a vote ([handle_request_vote]), how its log takes over the
    leader's entries ([handle_append_entries]), and what a leader that steps down owes
    its clients ([become_follower]). *)

From S2P Require Import Prelude Effects Consensus RaftTypes RaftLog RaftStateMachine.
From S2P Require Import RaftSnapshot RaftMembership RaftReadOnly RaftNode RaftExample.
From S2P Require Import RaftApply.

Section Follower.
Context {SM Rng : Type} `{SMI : !Kernel.StateMachine SM} `{RngI : !GenRange Rng} `{Json : !MembershipJson}.
Local Abbreviation Node := (RaftNode SM Rng).
Local Abbreviation Proc := (M Node Effect).

(** ** Stepping down leaves the replicated state alone *)

Record same_data (s s' : Node) : Prop := mk_same_data {
  sd_log : log s' = log s;
  sd_commit : commit_index s' = commit_index s;
  sd_applied : last_applied s' = last_applied s;
  sd_machine : state_machine s' = state_machine s
}.
#[export] Instance same_data_preorder : PreOrder same_data.
Proof. split; [done|]. intros ??? [] []. split; congruence. Qed.

Ltac data_step :=
  lazymatch goal with
  | |- same_data ?S ?S => reflexivity
  | |- same_data ?S _ => try (generalize S; intro); by split
  end.

Lemma data_fail_pending ldr s :
  holds_at (λ s s' _, same_data s s') (fail_pending (SM := SM) (Rng := Rng) ldr) s.
Proof. unfold fail_pending. walk; data_step. Qed.
#[local] Hint Resolve data_fail_pending : effects.

Lemma data_become_follower t ldr s :
  holds_at (λ s s' _, same_data s s') (become_follower (SM := SM) (Rng := Rng) t ldr) s.
Proof.
  unfold become_follower. walk; try data_step.
  - generalize (final (when (bool_decide (role s = Leader)) (fail_pending ldr)) s). intros s1.
    unfold adopt_term. by destruct (_ <? _); split.
  - generalize (set_election_elapsed 0
      (set_leader_id ldr (set_role Follower (adopt_term t
        (final (when (bool_decide (role s = Leader)) (fail_pending ldr)) s))))).
    intros s1. unfold holds_at. reset_timeout. by split.
Qed.

Lemma become_follower_role t ldr (s : Node) : role (final (become_follower t ldr) s) = Follower.
Proof.
  unfold become_follower. rewrite final_get_bind, !final_bind. finals.
  by reset_timeout.
Qed.

(** ** A follower applies entries without touching its log, compaction aside *)

Definition follower_log (s s' : Node) (o : list Effect) : Prop :=
  role s ≠ Leader → log s' = log s ∧ role s' = role s.
#[export] Instance follower_log_frame : Frame follower_log.
Proof.
  split; [done|]. intros s1 s2 s3 o1 o2 H1 H2 Hr. destruct (H1 Hr) as [Hl Hr2].
  destruct H2 as [Hl' Hr']; [congruence|]. split; congruence.
Qed.

Lemma follower_apply_entry e s : holds_at follower_log (apply_entry (SM := SM) (Rng := Rng) e) s.
Proof.
  unfold apply_entry. walk; try done. intros Hr. simpl in *.
  apply andb_true_iff in H as [_ Hl]. by apply bool_decide_eq_true in Hl.
Qed.
#[local] Hint Resolve follower_apply_entry : effects.

Lemma follower_apply_loop fuel s : holds_at follower_log (apply_loop (SM := SM) (Rng := Rng) fuel) s.
Proof. revert s. induction fuel as [|fuel IH]; intros s; simpl; walk; done. Qed.

(** What is left of the log above its snapshot is what was there. *)
Definition trimmed (l l' : MemLog) : Prop :=
  MemLog.wf l' ∧ MemLog.top l' = MemLog.top l ∧ snapshot_index l ≤ snapshot_index l' ∧
  ∀ i, snapshot_index l' < i → MemLog.view l' i = MemLog.view l i.

Lemma trimmed_compact_log (s : Node) : MemLog.wf (log s) → last_applied s ≤ MemLog.top (log s) →
  trimmed (log s) (log (final compact_log s)).
Proof.
  intros Hwf Hle. pose proof (MemLog.wf_bound _ Hwf) as Hb.
  unfold compact_log. rewrite final_get_bind.
  destruct (N.leb_spec (last_applied s) (snapshot_index (log s))); [by split_and!|].
  set (t := unwrap_or _ _). rewrite !final_bind. finals.
  assert (Ht : trimmed (log s) (MemLog.compact (log s) (last_applied s) t)).
  { destruct (MemLog.compact_spec (log s) (last_applied s) t Hwf) as (Hwf' & Hsn & Hv); [lia|].
    split_and!; [done|by apply MemLog.top_compact|lia|]. intros i Hi. rewrite Hv.
    destruct (N.leb_spec i (last_applied s)); [lia|done]. }
  by destruct (pending_snapshot_resp s).
Qed.

Lemma trimmed_apply_entries (s : Node) : role s ≠ Leader → ready s →
  trimmed (log s) (log (final apply_entries s)).
Proof.
  intros Hr Hrd. destruct (unapplied_spec s Hrd) as [Hlen Hes]. destruct Hrd as [Hwf Hsn Hap Hc Hroom].
  unfold apply_entries. rewrite final_get_bind.
  replace (N.to_nat (commit_index s - last_applied s)) with (length (unapplied s))
    by (unfold vlen in Hlen; lia).
  rewrite final_bind.
  destruct (apply_loop_spec (unapplied s) s) as [_ _ Ha _ _ _]; [done|lia|done|lia|lia|].
  destruct (follower_apply_loop (length (unapplied s)) s Hr) as [Hl _].
  revert Ha Hl. generalize (final (apply_loop (length (unapplied s))) s). intros s1 Ha Hl.
  rewrite final_get_bind, final_bind. finals. rewrite <- Hl in *.
  destruct (_ <? _); rewrite ?when_true, ?when_false; [|by split_and!].
  apply trimmed_compact_log; [done|lia].
Qed.

Lemma resolve_proposals_log l (s : Node) : log (final (for_each l resolve_proposal) s) = log s.
Proof.
  assert (H : holds_at (λ s s' _, log s' = log s) (for_each l resolve_proposal) s); [|exact H].
  assert (HF : Frame (λ (s s' : Node) (_ : list Effect), log s' = log s)) by (split; congruence).
  apply holds_for_each; [done|]. intros x s1 _. unfold holds_at.
  destruct (resolve_proposal_spec x s1) as [-> _]. by destruct (pending_proposals s1 !! x).
Qed.

Lemma trimmed_advance_commit n (s : Node) : role s ≠ Leader → ready (set_commit_index n s) →
  trimmed (log s) (log (final (advance_commit n) s)).
Proof.
  intros Hr Hrd. unfold advance_commit. rewrite !final_bind. finals. simpl.
  rewrite resolve_proposals_log. by apply (trimmed_apply_entries (set_commit_index n s)).
Qed.

(** ** AppendEntries *)

Lemma accept_leader_spec now from m (s : Node) :
  same_data s (final (accept_leader now from m) s) ∧ role (final (accept_leader now from m) s) = Follower.
Proof.
  unfold accept_leader. rewrite !final_bind. finals. simpl.
  case_bool_decide as Hr; simpl; rewrite ?when_true, ?when_false; [by split; [split|]|].
  set (s1 := set_leader_id _ _). pose proof (data_become_follower (ae_term m) (Some from) s1) as Hd.
  pose proof (become_follower_role (ae_term m) (Some from) s1) as Hf. unfold holds_at in Hd.
  revert Hd Hf. generalize (final (become_follower (ae_term m) (Some from)) s1). intros s2 [] Hf.
  by split; [split|].
Qed.

(** The log after the entries of an accepted message. *)
Definition took_over (prev : N) (es : list LogEntry) (l l' : MemLog) : Prop :=
  MemLog.wf l' ∧
  MemLog.top l' = (if bool_decide (es = []) then MemLog.top l else prev + vlen es) ∧
  ∀ i, snapshot_index l' < i →
    MemLog.view l' i =
      if bool_decide (es = []) || (i <=? prev) then MemLog.view l i else es !! N.to_nat (i - prev - 1).

Lemma append_took_over prev es l : MemLog.wf l → MemLog.consecutive (prev + 1) es →
  snapshot_index l ≤ prev ≤ MemLog.top l → prev + vlen es + 1 < u64_max →
  took_over prev es l (if bool_decide (es = []) then l else MemLog.append l es) ∧
  snapshot_index (if bool_decide (es = []) then l else MemLog.append l es) = snapshot_index l.
Proof.
  intros Hwf Hc Hp Hmax. unfold took_over. case_bool_decide as Hes; [done|].
  destruct (MemLog.append_spec l (prev + 1) es) as (Hwf' & Ht & Hs & Hv); [done|done|lia|lia|done|].
  split_and!; [done|rewrite Ht; lia| |done]. intros i Hi. rewrite Hv. simpl.
  destruct (N.ltb_spec i (prev + 1)), (N.leb_spec i prev); try lia; [done|].
  f_equal. lia.
Qed.

Lemma took_over_trimmed prev es l l1 l2 : took_over prev es l l1 → trimmed l1 l2 → took_over prev es l l2.
Proof.
  intros (_ & Ht & Hv) (Hwf & Ht' & Hle & Hv'). split_and!; [done|congruence|].
  intros i Hi. rewrite Hv' by done. apply Hv. lia.
Qed.

Lemma check_log_consistency_data (s s' : Node) m : log s' = log s →
  check_log_consistency s' m = check_log_consistency s m.
Proof. intros Hl. unfold check_log_consistency, first_index_of_term. by rewrite Hl. Qed.

(** A consistent message leaves the log's part up to [prev] inside the log. *)
Lemma check_log_consistency_ok (s : Node) m : MemLog.wf (log s) → ae_prev_log_index m < u64_modulus →
  snapshot_index (log s) ≤ ae_prev_log_index m → (check_log_consistency s m).1.1 = true →
  ae_prev_log_index m ≤ MemLog.top (log s).
Proof.
  intros Hwf Hb Hsn. unfold check_log_consistency. destruct (N.eqb_spec (ae_prev_log_index m) 0); [lia|].
  destruct (MemLog.term _ _) as [t|] eqn:Ht; [|done]. intros _.
  apply MemLog.term_ok in Ht as [[-> _]|(e & He & _)]; [unfold MemLog.top; lia| |done..].
  apply MemLog.view_Some in He. lia.
Qed.

(** The scan for the first index of a term. *)
Lemma first_index_of_term_spec (s : Node) t : MemLog.wf (log s) →
  match first_index_of_term s t with
  | Some i => MemLog.term (log s) i = Ok t ∧
              ∀ j, snapshot_index (log s) < j < i → MemLog.term (log s) j ≠ Ok t
  | None => ∀ j, snapshot_index (log s) < j ≤ MemLog.top (log s) → MemLog.term (log s) j ≠ Ok t
  end.
Proof.
  intros Hwf. unfold first_index_of_term. rewrite (MemLog.first_index_next _ Hwf), (MemLog.last_index_top _ Hwf).
  destruct (list_find _ _) as [[k i]|] eqn:Hf; simpl.
  - apply list_find_Some in Hf as (Hk & Ht & Hlt). split.
    + by destruct (MemLog.term _ i); simplify_eq/=.
    + unfold range_incl in Hk. apply list_lookup_fmap_Some in Hk as (n & -> & Hk).
      apply lookup_seq in Hk as [-> Hkl]. intros j Hj Hjt.
      apply (Hlt (N.to_nat (j - snapshot_index (log s) - 1)) j); [|lia|by rewrite Hjt].
      unfold range_incl. apply list_lookup_fmap_Some.
      exists (N.to_nat (j - snapshot_index (log s) - 1)).
      split; [lia|]. apply lookup_seq. lia.
  - apply list_find_None in Hf. rewrite Forall_forall in Hf. intros j Hj Hjt.
    apply (Hf j); [apply elem_of_range_incl; lia|by rewrite Hjt].
Qed.

Lemma check_log_consistency_hint (s : Node) m ci ct : MemLog.wf (log s) →
  ae_prev_log_index m < u64_modulus → check_log_consistency s m = (false, ci, ct) →
  match ct with
  | Some t => t ≠ ae_prev_log_term m ∧ MemLog.term (log s) (ae_prev_log_index m) = Ok t ∧
              MemLog.term (log s) ci = Ok t ∧
              ∀ i, snapshot_index (log s) < i < ci → MemLog.term (log s) i ≠ Ok t
  | None => ci = MemLog.top (log s) + 1 ∧
            (ae_prev_log_index m < snapshot_index (log s) ∨ MemLog.top (log s) < ae_prev_log_index m)
  end.
Proof.
  intros Hwf Hb. unfold check_log_consistency. destruct (N.eqb_spec (ae_prev_log_index m) 0); [done|].
  destruct (MemLog.term (log s) (ae_prev_log_index m)) as [t|] eqn:Ht.
  - destruct (N.eqb_spec t (ae_prev_log_term m)); [done|]. intros [= <- <-].
    pose proof (first_index_of_term_spec s t Hwf) as Hf.
    destruct (first_index_of_term s t) as [i|]; simpl; [naive_solver|].
    split_and!; [done|done|done|]. intros i Hi. apply Hf.
    apply MemLog.term_ok in Ht as [[Hp _]|(e & He & _)]; [lia| |done..]. apply MemLog.view_Some in He. lia.
  - intros [= <- <-]. rewrite (MemLog.last_index_top _ Hwf). pose proof (MemLog.wf_bound _ Hwf).
    split; [apply u64_add_small; unfold u64_max, u64_modulus in *; lia|].
    destruct (decide (ae_prev_log_index m < snapshot_index (log s))) as [|Hge]; [by left|right].
    apply N.nle_gt. intros Hle. destruct (decide (ae_prev_log_index m = snapshot_index (log s))) as [Hs|Hs].
    + unfold MemLog.term in Ht. rewrite Hs, N.eqb_refl in Ht. done.
    + destruct (MemLog.view_in_range (log s) (ae_prev_log_index m)) as [x He]; [lia|].
      by rewrite (MemLog.term_view _ _ _ Hwf Hb He) in Ht.
Qed.

(** The part of [handle_append_entries] after a successful check. *)
Lemma accepted_spec m (s : Node) : role s ≠ Leader → MemLog.wf (log s) →
  MemLog.consecutive (ae_prev_log_index m + 1) (ae_entries m) →
  snapshot_index (log s) ≤ ae_prev_log_index m ≤ MemLog.top (log s) →
  snapshot_index (log s) ≤ last_applied s → last_applied s ≤ commit_index s →
  (ae_entries m ≠ [] → last_applied s ≤ ae_prev_log_index m + vlen (ae_entries m)) →
  last_applied s ≤ MemLog.top (log s) →
  2 * (MemLog.top (log s) + vlen (ae_entries m)) + 1 < u64_max →
  let p : Proc unit :=
    when (negb (bool_decide (ae_entries m = [])))
      (modify (λ s, set_log (MemLog.append (log s) (ae_entries m)) s)) ;;
    s ← get;
    when (commit_index s <? ae_leader_commit m)
      (advance_commit (N.min (ae_leader_commit m) (MemLog.last_index (log s)))) in
  took_over (ae_prev_log_index m) (ae_entries m) (log s) (log (final p s)) ∧
  commit_index (final p s) = (if commit_index s <? ae_leader_commit m
                              then N.min (ae_leader_commit m) (MemLog.top (log (final p s)))
                              else commit_index s).
Proof.
  intros Hr Hwf Hcons Hp Hsn Hac Hkeep Htop Hroom. simpl. rewrite final_bind, final_get_bind.
  destruct (append_took_over (ae_prev_log_index m) (ae_entries m) (log s)) as [Hto Hsi]; [done|done|lia|lia|].
  assert (Htop' : last_applied s ≤ MemLog.top (log s) + vlen (ae_entries m)) by lia.
  set (s1 := final (when _ _) s).
  assert (H1 : log s1 = (if bool_decide (ae_entries m = []) then log s else MemLog.append (log s) (ae_entries m))
    ∧ role s1 = role s ∧ commit_index s1 = commit_index s ∧ last_applied s1 = last_applied s)
    by (unfold s1; by case_bool_decide).
  revert H1. generalize s1. clear s1. intros s1 (Hl & Hr1 & Hc1 & Ha1).
  rewrite <- Hl in Hto, Hsi. rewrite Hc1.
  pose proof Hto as (Hwf1 & Ht1 & _). rewrite (MemLog.last_index_top _ Hwf1).
  destruct (N.ltb_spec (commit_index s) (ae_leader_commit m)); rewrite ?when_true, ?when_false.
  2:{ finals. by rewrite Hc1. }
  set (n := N.min _ _). assert (Hrd : ready (set_commit_index n s1)).
  { split; simpl; rewrite ?Ha1; [done|lia|..]; unfold n; rewrite ?Ht1; case_bool_decide; try lia; naive_solver lia. }
  pose proof (trimmed_advance_commit n s1 ltac:(congruence) Hrd) as Htr.
  destruct (advance_commit_spec n s1 Hrd) as [-> _ _ _ _ _]. split; [by eapply took_over_trimmed|].
  by destruct Htr as (_ & -> & _).
Qed.
End Follower.


Module AppendExample.
(** Two entries of term 1 stored, one of them applied; the leader of term 2 replaces
    the second and adds a third. *)
Definition node : ExNode :=
  set_current_term 2 (set_commit_index 1 (set_last_applied 1
    (set_log (MemLog.append MemLog.new [new_barrier 1 1; new_normal 2 1 [7]]) (ex_node 3 2)))).
Definition msg : AppendEntries :=
  mkAppendEntries 2 1 1 1 [new_barrier 2 2; new_normal 3 2 [9]] 2 5.

Lemma append_example_wf : MemLog.wf (log node).
Proof.
  split; [|done]. change (entries (log node)) with [new_barrier 1 1; new_normal 2 1 [7]].
  intros [|[|k]] e; [by intros [= <-]..|by destruct k].
Qed.
Lemma msg_consecutive : MemLog.consecutive 2 (ae_entries msg).
Proof. intros [|[|k]] e; [by intros [= <-]..|by destruct k]. Qed.
End AppendExample.


(** An AppendEntries that does not fit the log changes neither log, commit index
    nor state machine, and the rejection tells the leader where to continue: the first
    index of the follower's conflicting term at [prev_log_index], or the end of its log
    when it has no entry there. *)
Theorem append_entries_reject {SM Rng : Type} `{!Kernel.StateMachine SM} `{!GenRange Rng} `{!MembershipJson}
    (now from : N) (m : AppendEntries) (s : RaftNode SM Rng) :
  MemLog.wf (log s) → ae_prev_log_index m < u64_modulus →
  (check_log_consistency s m).1.1 = false →
  let s' := final (handle_append_entries now from m) s in
  same_data s s' ∧
  ∃ ci ct, last (outs (handle_append_entries now from m) s) =
    Some (Send from (MAppendEntriesReply
      (mkAppendEntriesReply (current_term s') false ci ct (MemLog.top (log s)) (ae_seq m)))) ∧
  match ct with
  | Some t => t ≠ ae_prev_log_term m ∧ MemLog.term (log s) (ae_prev_log_index m) = Ok t ∧
              MemLog.term (log s) ci = Ok t ∧
              ∀ i, snapshot_index (log s) < i < ci → MemLog.term (log s) i ≠ Ok t
  | None => ci = MemLog.top (log s) + 1 ∧
            (ae_prev_log_index m < snapshot_index (log s) ∨ MemLog.top (log s) < ae_prev_log_index m)
  end.
Proof.
  intros Hwf Hb Hbad. unfold handle_append_entries.
  rewrite final_bind, outs_bind, final_get_bind, outs_get_bind.
  destruct (accept_leader_spec now from m s) as [Hd Hr]. pose proof (sd_log _ _ Hd) as Hl.
  revert Hd Hl Hr. generalize (final (accept_leader now from m) s). intros s1 Hd Hl Hr.
  rewrite (check_log_consistency_data s s1 m Hl).
  destruct (check_log_consistency s m) as [[ok ci] ct] eqn:Hck. simpl in Hbad. subst ok.
  simpl. unfold send. finals. effs. split; [done|]. exists ci, ct.
  rewrite last_snoc, Hl, MemLog.last_index_top by done. split; [done|].
  by apply (check_log_consistency_hint s m).
Qed.

Lemma append_entries_reject_witness :
  let m := mkAppendEntries 2 1 2 2 [] 2 5 in
  let s' := final (handle_append_entries 0 1 m) AppendExample.node in
  same_data AppendExample.node s' ∧
  (check_log_consistency AppendExample.node m).1 = (false, 1).
Proof.
  intros m s'. split; [|by vm_compute].
  apply (append_entries_reject 0 1 m AppendExample.node); [apply AppendExample.append_example_wf|done|by vm_compute].
Defined.

(** ** Votes *)

Section Votes.
Context {SM Rng : Type} `{SMI : !Kernel.StateMachine SM} `{RngI : !GenRange Rng} `{Json : !MembershipJson}.
Local Abbreviation Node := (RaftNode SM Rng).

(** The candidate's log is at least as up to date as the voter's. *)
Definition up_to_date (s : Node) (m : RequestVote) : Prop :=
  MemLog.last_term (log s) < rv_last_log_term m ∨
  (rv_last_log_term m = MemLog.last_term (log s) ∧ MemLog.last_index (log s) ≤ rv_last_log_index m).

Lemma log_ok_up_to_date (s : Node) m : log_ok s m = true ↔ up_to_date s m.
Proof.
  unfold log_ok, up_to_date. rewrite orb_true_iff, andb_true_iff, N.ltb_lt, N.eqb_eq, N.leb_le. done.
Qed.

Lemma grants_iff (s : Node) m :
  grants s m = true ↔ up_to_date s m ∧
    if rv_pre_vote m then election_timeout s / 2 ≤ election_elapsed s
    else voted_for s = None ∨ voted_for s = Some (rv_candidate_id m).
Proof.
  unfold grants. rewrite <- log_ok_up_to_date. destruct (rv_pre_vote m);
    rewrite andb_true_iff; [by rewrite N.leb_le|].
  by rewrite orb_true_iff, !bool_decide_eq_true.
Qed.

Lemma handle_request_vote_spec from m (s : Node) :
  final (handle_request_vote from m) s =
    (if grants s m && negb (rv_pre_vote m)
     then set_election_elapsed 0 (set_voted_for (Some (rv_candidate_id m)) s) else s) ∧
  outs (handle_request_vote from m) s =
    [Send from (MRequestVoteReply (mkRequestVoteReply (current_term s) (grants s m) (rv_pre_vote m)))].
Proof.
  unfold handle_request_vote. rewrite final_get_bind, outs_get_bind, final_bind, outs_bind.
  by destruct (grants s m && negb (rv_pre_vote m)).
Qed.
End Votes.



(** ** Stepping down *)

Section StepDown.
Context {SM Rng : Type} `{SMI : !Kernel.StateMachine SM} `{RngI : !GenRange Rng} `{Json : !MembershipJson}.
Local Abbreviation Node := (RaftNode SM Rng).

Lemma for_each_emit {A} (l : list A) (f : A → Effect) (s : Node) :
  final (for_each l (λ x, emit (f x))) s = s ∧ outs (for_each l (λ x, emit (f x))) s = f <$> l.
Proof.
  induction l as [|x l [IH1 IH2]]; [done|]. cbn [for_each]. rewrite final_bind, outs_bind. finals.
  by rewrite IH1, IH2.
Qed.

Definition not_leader_answer (ldr : option N) (tx : N) : Effect :=
  Respond tx (RIndex (Err (NotLeader ldr))).

Lemma fail_pending_spec ldr (s : Node) :
  final (fail_pending ldr) s =
    set_read_only (mkReadOnlyQueue [] (next_id (read_only s)) (mode (read_only s)))
      (set_pending_proposals ∅ (set_lease (LeaderLease.invalidate (lease s)) s)) ∧
  outs (fail_pending ldr) s =
    SetGauge g_is_leader 0 :: (not_leader_answer ldr <$> (map_to_list (pending_proposals s)).*2) ++
    (not_leader_answer ldr <$> (rr_resp <$> pending (read_only s))).
Proof.
  unfold fail_pending. rewrite final_get_bind, outs_get_bind, !final_bind, !outs_bind. finals. effs.
  rewrite !(proj1 (for_each_emit _ _ _)), !(proj2 (for_each_emit _ _ _)). finals.
  rewrite ?(proj1 (for_each_emit _ _ _)), ?(proj2 (for_each_emit _ _ _)).
  split; [done|]. rewrite app_nil_r. simpl. by rewrite <- !list_fmap_compose.
Qed.
End StepDown.

(** A leader that steps down owes nothing: every proposal and every read still
    waiting is answered [NotLeader] with the new leader as hint, once each and in
    order, both queues are empty afterwards, the read lease is gone, and the node is a
    follower in a term that is not lower. *)
Theorem step_down_answers_all {SM Rng : Type} `{!Kernel.StateMachine SM} `{!GenRange Rng} `{!MembershipJson}
    (t : N) (ldr : option N) (s : RaftNode SM Rng) :
  role s = Leader →
  let s' := final (become_follower t ldr) s in
  outs (become_follower t ldr) s =
    SetGauge g_is_leader 0 :: (not_leader_answer ldr <$> (map_to_list (pending_proposals s)).*2) ++
    (not_leader_answer ldr <$> (rr_resp <$> pending (read_only s))) ∧
  pending_proposals s' = ∅ ∧ pending (read_only s') = [] ∧
  (∀ now, LeaderLease.is_valid now (lease s') = false) ∧
  role s' = Follower ∧ current_term s' = N.max (current_term s) t ∧ log s' = log s.
Proof.
  intros Hr. unfold become_follower. rewrite final_get_bind, outs_get_bind, final_bind, outs_bind, Hr.
  rewrite bool_decide_true by done. rewrite when_true. destruct (fail_pending_spec ldr s) as [-> ->].
  rewrite !final_bind, !outs_bind. finals. effs. reset_timeout.
  split; [by rewrite !app_nil_r|]. unfold adopt_term. simpl.
  destruct (N.ltb_spec (current_term s) t); simpl; split_and!; try done; lia.
Qed.

Lemma step_down_answers_all_witness :
  outs (become_follower 4 (Some 2)) CommitExample.node =
    [SetGauge g_is_leader 0; not_leader_answer (Some 2) 20; not_leader_answer (Some 2) 30] ∧
  pending_proposals (final (become_follower 4 (Some 2)) CommitExample.node) = ∅.
Proof.
  destruct (step_down_answers_all 4 (Some 2) CommitExample.node eq_refl) as (H1 & H2 & _).
  split; [etrans; [exact H1|by vm_compute]|exact H2].
Defined.
