(* ===== verification/RaftFindings.v ===== *)
(** * Where the node departs from Raft

    Theorems that pin down behaviour of [crates/compute/cave-ha/src/raft] that the Raft
    protocol or the code's own comments do not intend. *)

From S2P Require Import Prelude Effects Consensus RaftTypes RaftLog RaftStateMachine.
From S2P Require Import RaftSnapshot RaftMembership RaftReadOnly RaftNode RaftExample.
From S2P Require Import RaftApply RaftFollower.

(** [MemLog::append] truncates at every index it writes, also when the stored entry
    is the very entry being appended.  A repeated or delayed AppendEntries whose
    entries are all in the log already removes everything after them. *)
Theorem duplicate_append_drops_suffix (l : MemLog) (prev : N) (es : list LogEntry) :
  MemLog.wf l → es ≠ [] → snapshot_index l ≤ prev → prev + vlen es < MemLog.top l →
  (∀ n e, es !! n = Some e → MemLog.view l (prev + 1 + N.of_nat n) = Some e) →
  (∀ i, prev + vlen es < i → MemLog.view (MemLog.append l es) i = None) ∧
  MemLog.top (MemLog.append l es) = prev + vlen es ∧
  is_Some (MemLog.view l (MemLog.top l)).
Proof.
  intros Hwf Hne Hsn Htop Hin. pose proof (MemLog.wf_bound l Hwf).
  assert (Hc : MemLog.consecutive (prev + 1) es)
    by (intros n e He; by apply (MemLog.view_index l); [|apply Hin]).
  destruct (MemLog.append_spec l (prev + 1) es) as (_ & Ht & _ & Hv); [done|done|lia|lia|done|].
  split_and!; [|rewrite Ht; lia|apply MemLog.view_in_range; lia].
  intros i Hi. rewrite Hv. destruct (N.ltb_spec i (prev + 1)); [lia|].
  apply lookup_ge_None. unfold vlen in *. lia.
Qed.

Lemma duplicate_append_drops_suffix_witness :
  let e1 := new_normal 1 1 [1] in let e2 := new_normal 2 1 [2] in
  let l := MemLog.append MemLog.new [e1; e2] in
  MemLog.top l = 2 ∧ MemLog.top (MemLog.append l [e1]) = 1.
Proof.
  intros e1 e2 l. split; [by vm_compute|].
  apply (duplicate_append_drops_suffix l 0 [e1]); [|done..|].
  - split; [|done]. change (entries l) with [e1; e2].
    intros [|[|k]] e; [by intros [= <-]..|by destruct k].
  - intros [|n] e; [by intros [= <-]|done].
Defined.

(** The follower of the examples: three entries of term 1, two of them committed and
    applied, in term 1. *)
Definition ex_follower : ExNode :=
  set_current_term 1 (set_commit_index 2 (set_last_applied 2
    (set_log (MemLog.append MemLog.new
       [new_barrier 1 1; new_normal 2 1 [7]; new_normal 3 1 [8]]) (ex_node 3 2)))).


(** The single-voter shortcut of a campaign counts voters without asking whether the
    node is one: a node removed from a two-node cluster elects itself at its next
    timeout, next to the remaining voter. *)
Theorem removed_node_elects_itself :
  let cfg := mkMembershipConfig {[2]} ∅ None false in
  let s := set_election_elapsed 3 (set_membership cfg (ex_node 2 1)) in
  let s' := final (tick 0) s in
  (node_id s ∉ Membership.all_nodes cfg) ∧ role s' = Leader ∧ current_term s' = 1.
Proof.
  intros cfg s s'. split; [|by vm_compute].
  apply (bool_decide_unpack (1 ∉ Membership.all_nodes cfg)). by vm_compute.
Qed.

(** After an old-index write the numbering breaks: an AppendEntries with
    [prev_log_index = 0] is always taken as consistent, and an entry at or below the
    snapshot is pushed at the end of the log, under an index that is not its own. *)
Theorem compacted_index_appended_at_end :
  let l := MemLog.compact (MemLog.append MemLog.new
             [new_barrier 1 1; new_normal 2 1 [7]; new_normal 3 1 [8]]) 2 1 in
  let s := set_current_term 1 (set_log l (ex_node 3 2)) in
  let m := mkAppendEntries 1 1 0 0 [new_barrier 1 1] 0 9 in
  let s' := final (step 0 1 (MAppendEntries m)) s in
  MemLog.entry (log s') 4 = Ok (new_barrier 1 1) ∧ MemLog.last_index (log s') = 1.
Proof. by vm_compute. Qed.

(** Removing a learner has no effect: the configuration that [RemoveNode] proposes
    keeps the learners, while [joint_for_remove] drops the node from them. *)
Theorem remove_node_keeps_learner :
  let cfg := mkMembershipConfig {[1; 2]} {[3]} None false in
  let s := set_role Leader (set_current_term 1 (set_membership cfg (ex_node 3 1))) in
  let s' := final (cmd_remove_node 3 50) s in
  MemLog.last_membership (log s') = Some (mkMembershipConfig {[1; 2]} {[3]} (Some {[1; 2]}) true) ∧
  learners (MembershipChange.joint_for_remove cfg 3) = ∅.
Proof. by vm_compute. Qed.

(** An installed snapshot keeps the old entries above its index, also when the log
    disagreed with it: the log then mixes two histories. *)
Theorem snapshot_keeps_conflicting_suffix :
  let l := MemLog.append MemLog.new [new_barrier 1 1; new_normal 2 1 [7]; new_normal 3 1 [8]] in
  let s := set_current_term 3 (set_log l (ex_node 3 2)) in
  let meta := mkSnapshotMeta 2 3 (ex_membership 3) in
  let s' := final (step 0 1 (MInstallSnapshot (mkInstallSnapshot 3 1 meta 0 [] true))) s in
  snapshot_term (log s') = 3 ∧ MemLog.entry (log s') 3 = Ok (new_normal 3 1 [8]).
Proof. by vm_compute. Qed.

(** ** Linearizable reads *)

Section Reads.
Context {SM Rng : Type} `{SMI : !Kernel.StateMachine SM} `{RngI : !GenRange Rng} `{Json : !MembershipJson}.

(** Only the node itself has acknowledged the queued reads. *)
Definition self_acked (s : RaftNode SM Rng) : Prop :=
  Forall (λ r, rr_acks r ⊆ {[node_id s]}) (pending (read_only s)).

Lemma self_acked_not_ready (s : RaftNode SM Rng) q : (2 ≤ q)%nat → self_acked s →
  ReadOnlyQueue.ack (read_only s) (node_id s) q =
  ([], mkReadOnlyQueue (ReadOnlyQueue.ack_request (node_id s) <$> pending (read_only s))
         (next_id (read_only s)) (mode (read_only s))).
Proof.
  intros Hq Hs. unfold ReadOnlyQueue.ack. rewrite ReadOnlyQueue.drain_ready_partition. simpl.
  assert (Hn : Forall (λ r, ¬ ReadOnlyQueue.ready_req q r)
                 (ReadOnlyQueue.ack_request (node_id s) <$> pending (read_only s))).
  { apply Forall_fmap. eapply Forall_impl; [exact Hs|]. intros r Hr. simpl.
    unfold ReadOnlyQueue.ready_req, ReadOnlyQueue.ack_request. simpl.
    assert (size (rr_acks r ∪ {[node_id s]}) ≤ size ({[node_id s]} : gset N))%nat
      by (apply subseteq_size; set_solver).
    rewrite size_singleton in *. lia. }
  by rewrite filter_none, filter_all.
Qed.

(** The reads of the queue survive a heartbeat round unchanged. *)
Definition same_reads (s s' : RaftNode SM Rng) (o : list Effect) : Prop :=
  read_only s' = read_only s ∧ node_id s' = node_id s.
#[export] Instance same_reads_frame : Frame same_reads.
Proof. split; [done|]. intros ??? ?? [] []. split; congruence. Qed.

Lemma same_reads_heartbeat now s :
  holds_at same_reads (broadcast_heartbeat (SM := SM) (Rng := Rng) now) s.
Proof. unfold broadcast_heartbeat, broadcast_append_entries, replicate_to, send_snapshot_to, send. walk; done. Qed.
End Reads.

(** With two or more voters, ReadIndex requests are never served.  The leader only
    ever records its own acknowledgement ([maybe_flush_reads] passes [self.id]), so no
    request reaches the quorum: queueing a read keeps every queued request without
    foreign acknowledgements, and each flush answers nothing and keeps it so. *)
Theorem queued_reads_never_served {SM Rng : Type} `{!Kernel.StateMachine SM} `{!GenRange Rng} `{!MembershipJson}
    (now resp : N) (s : RaftNode SM Rng) :
  self_acked s → (2 ≤ size (voters (membership s)))%nat →
  (outs maybe_flush_reads s = [] ∧ self_acked (final maybe_flush_reads s) ∧
   length (pending (read_only (final maybe_flush_reads s))) = length (pending (read_only s))) ∧
  self_acked (final (cmd_read_index now resp) s).
Proof.
  intros Hs Hv. split.
  - unfold maybe_flush_reads. rewrite final_get_bind, outs_get_bind.
    destruct (ReadOnlyQueue.is_empty _); [done|]. destruct (_ <=? _)%nat; rewrite ?when_true, ?when_false; [|done].
    rewrite self_acked_not_ready; [|unfold Membership.quorum|done].
    + rewrite !final_bind, !outs_bind. finals. cbn [for_each]. finals. effs.
      split_and!; [done| |simpl; by rewrite length_fmap].
      unfold self_acked in *. simpl. apply Forall_fmap. eapply Forall_impl; [exact Hs|].
      intros r Hr. simpl. set_solver.
    + pose proof (Nat.div_mod_eq (size (voters (membership s))) 2).
      pose proof (Nat.mod_upper_bound (size (voters (membership s))) 2). lia.
  - unfold cmd_read_index. rewrite final_get_bind.
    destruct (negb _); [done|]. rewrite final_bind. finals. destruct (_ && _); [done|].
    rewrite final_bind. finals. match goal with |- context [final (broadcast_heartbeat now) ?x] => set (s1 := x) end.
    destruct (same_reads_heartbeat now s1) as [Hr Hi]. unfold self_acked. rewrite Hr, Hi. simpl.
    apply Forall_app. split; [done|]. repeat constructor. simpl. set_solver.
Qed.

Lemma queued_reads_never_served_witness :
  let s := final (cmd_read_index 0 77) CommitExample.node in
  length (pending (read_only s)) = 1%nat ∧ outs maybe_flush_reads s = [].
Proof.
  intros s. split; [by vm_compute|].
  apply (queued_reads_never_served 0 0 s); [|by apply (bool_decide_unpack _); vm_compute].
  by apply (bool_decide_unpack _); vm_compute.
Defined.
