(* ===== verification/RaftQuiet.v ===== *)
(** * What the replication methods leave alone

    Most methods of the node neither vote nor change role.  [quiet C] is the
    relation they satisfy over a run: identity, configuration, term, vote, role and
    collected votes are kept, no vote message is sent, and, in a cluster whose
    membership is the fixed configuration [C], no membership change enters the
    log, the messages or a partly received snapshot. *)

From S2P Require Import Prelude Effects Consensus RaftTypes RaftLog RaftSnapshot.
From S2P Require Import RaftMembership RaftReadOnly RaftNode.

Section QuietDef.
Context {SM Rng : Type} `{SMI : !Kernel.StateMachine SM} `{RngI : !GenRange Rng} `{Json : !MembershipJson}.
Context (C : MembershipConfig).
Local Abbreviation Node := (RaftNode SM Rng).

Definition entry_static (e : LogEntry) : Prop := e_type e ≠ MembershipChange.
Definition log_static (l : MemLog) : Prop := Forall entry_static (entries l).
Definition recv_static (r : SnapshotReceiver) : Prop :=
  ∀ m, rc_meta r = Some m → sm_membership m = C.

Definition msg_static (m : RaftMessage) : Prop :=
  match m with
  | MAppendEntries m => Forall entry_static (ae_entries m)
  | MInstallSnapshot m => sm_membership (is_meta m) = C
  | _ => True
  end.

Record static (s : Node) : Prop := mk_static {
  static_membership : membership s = C;
  static_log : log_static (log s);
  static_recv : ∀ r, snapshot_receiver s = Some r → recv_static r
}.

Record keeps (s s' : Node) : Prop := mk_keeps {
  keeps_id : node_id s' = node_id s;
  keeps_config : config s' = config s;
  keeps_term : current_term s' = current_term s;
  keeps_vote : voted_for s' = voted_for s;
  keeps_role : role s' = role s;
  keeps_votes : votes_received s' = votes_received s
}.

Definition vote_message (m : RaftMessage) : Prop :=
  match m with MRequestVote _ | MRequestVoteReply _ => True | _ => False end.

Definition quiet_effect (e : Effect) : Prop :=
  match e with Send _ m => msg_static m ∧ ¬ vote_message m | _ => True end.

Definition quiet (s s' : Node) (o : list Effect) : Prop :=
  static s → static s' ∧ keeps s s' ∧ Forall quiet_effect o.

#[export] Instance keeps_preorder : PreOrder keeps.
Proof.
  split; [done|]. intros s1 s2 s3 [] []. split; congruence.
Qed.

#[export] Instance quiet_frame : Frame quiet.
Proof.
  split.
  - intros s Hs. split_and!; [done|reflexivity|constructor].
  - intros s1 s2 s3 o1 o2 H1 H2 Hs. destruct (H1 Hs) as (Hs2 & Hk & Ho).
    destruct (H2 Hs2) as (Hs3 & Hk' & Ho'). split_and!; [done|by etrans|by apply Forall_app].
Qed.

(** ** Entries of the log *)

Lemma log_static_append l es : log_static l → Forall entry_static es → log_static (MemLog.append l es).
Proof.
  unfold MemLog.append, log_static. revert l.
  induction es as [|e es IH]; intros l Hl Hes; [done|]. apply Forall_cons in Hes as [He Hes].
  simpl. apply IH; [|done]. unfold MemLog.append_one. simpl.
  apply Forall_app. split; [|by repeat constructor].
  destruct (_ <? _); [|done]. rewrite vtruncate_take. by apply Forall_take.
Qed.

Lemma log_static_compact l i t : log_static l → log_static (MemLog.compact l i t).
Proof.
  unfold MemLog.compact, log_static. intros Hl. destruct (i <=? _); [done|]. simpl.
  destruct (_ <=? vlen _); [by apply Forall_drop | constructor].
Qed.

Lemma slice_static l lo hi : log_static l → Forall entry_static (unwrap_or (MemLog.slice l lo hi) []).
Proof.
  unfold MemLog.slice, log_static. intros Hl. destruct (lo <=? _); [constructor|].
  destruct (_ <? _); simpl; [constructor|]. by apply Forall_take, Forall_drop.
Qed.

Lemma entry_static_lookup l i e : log_static l → MemLog.entry l i = Ok e → entry_static e.
Proof.
  unfold MemLog.entry, log_static. intros Hl. destruct (i <=? _); [done|].
  rewrite vget_lookup. destruct (entries l !! _) as [e'|] eqn:He; simpl; [|done].
  intros [= <-]. by eapply Forall_lookup_1.
Qed.

(** ** The quiet methods *)

Lemma quiet_emit e s : quiet_effect e → quiet s s [e].
Proof. intros He Hs. split_and!; [done|reflexivity|by repeat constructor]. Qed.

End QuietDef.

(** Closes [quiet C s (f s) []] for an assignment [f] that touches neither votes nor
    membership, and [quiet C s s [e]] for an effect [e] that is not a vote. *)
Ltac quiet_set :=
  let Hs := fresh in intros Hs; destruct Hs; split_and!;
  [ by split | by split | repeat constructor; simpl; auto ].
Ltac quiet_step :=
  lazymatch goal with
  | |- quiet _ ?S ?S [_] => apply quiet_emit; simpl; tauto
  | |- quiet _ ?S _ [] => try (generalize S; intro); quiet_set
  end.

Section Quiet.
Context {SM Rng : Type} `{SMI : !Kernel.StateMachine SM} `{RngI : !GenRange Rng} `{Json : !MembershipJson}.
Context (C : MembershipConfig).
Local Abbreviation Node := (RaftNode SM Rng).
Local Abbreviation quiet := (quiet C).
Local Abbreviation static := (static C).
Local Abbreviation recv_static := (recv_static C).

Lemma quiet_intro {A} (m : M Node Effect A) s : (static s → holds_at quiet m s) → holds_at quiet m s.
Proof. intros H Hs. by apply H. Qed.

Lemma chunks_meta snap k cs c :
  Snapshot.chunks snap k = Some cs → c ∈ cs → ch_meta c = snap_meta snap.
Proof.
  unfold Snapshot.chunks. case_bool_decide; [intros [= <-] ->%list_elem_of_singleton; done|].
  generalize (length (snap_data snap)) 0. intros fuel. revert cs.
  induction fuel as [|fuel IH]; intros cs o; simpl; destruct (o <? _); try done;
    try (intros [= <-]; by rewrite elem_of_nil).
  intros (cs' & Hcs & ->)%fmap_Some_1 [->|Hc]%elem_of_cons; [done|]. by eapply IH.
Qed.

Lemma quiet_send_snapshot_to p s : holds_at quiet (send_snapshot_to (SM := SM) (Rng := Rng) p) s.
Proof.
  apply quiet_intro. intros Hs. unfold send_snapshot_to, send. walk.
  - quiet_step.
  - apply quiet_emit. split; [|auto]. simpl.
    destruct (Snapshot.chunks _ _) as [cs|] eqn:Hcs; simpl in *; [|by apply elem_of_nil in H].
    rewrite (chunks_meta _ _ _ _ Hcs) by done. by destruct Hs.
  - quiet_step.
Qed.

Lemma quiet_replicate_to p s : holds_at quiet (replicate_to (SM := SM) (Rng := Rng) p) s.
Proof.
  apply quiet_intro. intros Hs. unfold replicate_to, send. walk.
  - quiet_step.
  - apply quiet_send_snapshot_to.
  - quiet_step.
  - quiet_step.
  - apply quiet_emit. split; [|auto]. simpl.
    destruct (_ <=? MemLog.last_index _); [|constructor].
    apply slice_static. by destruct Hs.
Qed.
#[local] Hint Resolve quiet_send_snapshot_to quiet_replicate_to : effects.

Lemma quiet_broadcast s : holds_at quiet (broadcast_append_entries (SM := SM) (Rng := Rng)) s.
Proof. unfold broadcast_append_entries. walk. Qed.
#[local] Hint Resolve quiet_broadcast : effects.

Lemma quiet_append_barrier (s : Node) : quiet s (append_barrier s) [].
Proof.
  intros []. split_and!; [split; simpl; auto|by split|constructor].
  apply log_static_append; [done|]. by repeat constructor.
Qed.

Lemma quiet_heartbeat now s : holds_at quiet (broadcast_heartbeat (SM := SM) (Rng := Rng) now) s.
Proof. unfold broadcast_heartbeat. walk; quiet_step. Qed.

Lemma quiet_compact_log s : holds_at quiet (compact_log (SM := SM) (Rng := Rng)) s.
Proof.
  unfold compact_log. walk; try quiet_step.
  intros []. split_and!; [split; simpl; auto using log_static_compact|by split|constructor].
Qed.
#[local] Hint Resolve quiet_heartbeat quiet_compact_log : effects.

Lemma quiet_apply_entry e s : entry_static e → holds_at quiet (apply_entry (SM := SM) (Rng := Rng) e) s.
Proof. intros He. unfold apply_entry. destruct (e_type e) eqn:Ht; [|done|]; walk; quiet_step. Qed.

Lemma quiet_apply_loop fuel s : holds_at quiet (apply_loop (SM := SM) (Rng := Rng) fuel) s.
Proof.
  revert s. induction fuel as [|fuel IH]; intros s; apply quiet_intro; intros Hs; simpl; walk.
  - quiet_step.
  - apply quiet_apply_entry. eapply entry_static_lookup; [|done]. by destruct Hs.
  - quiet_step.
Qed.
#[local] Hint Resolve quiet_apply_loop : effects.

Lemma quiet_apply_entries s : holds_at quiet (apply_entries (SM := SM) (Rng := Rng)) s.
Proof. unfold apply_entries. walk. quiet_step. Qed.
#[local] Hint Resolve quiet_apply_entries : effects.

Lemma quiet_advance_commit i s : holds_at quiet (advance_commit (SM := SM) (Rng := Rng) i) s.
Proof.
  unfold advance_commit, resolve_proposal. walk; quiet_step.
Qed.
#[local] Hint Resolve quiet_advance_commit : effects.

Lemma quiet_maybe_advance_commit s : holds_at quiet (maybe_advance_commit (SM := SM) (Rng := Rng)) s.
Proof. unfold maybe_advance_commit. walk. Qed.

Lemma quiet_maybe_flush_reads s : holds_at quiet (maybe_flush_reads (SM := SM) (Rng := Rng)) s.
Proof. unfold maybe_flush_reads. walk; quiet_step. Qed.
#[local] Hint Resolve quiet_maybe_advance_commit quiet_maybe_flush_reads : effects.

Lemma quiet_fail_pending ldr s : holds_at quiet (fail_pending (SM := SM) (Rng := Rng) ldr) s.
Proof. unfold fail_pending. walk; quiet_step. Qed.

Lemma quiet_append_entries_reply now from m s :
  holds_at quiet (handle_append_entries_reply (SM := SM) (Rng := Rng) now from m) s.
Proof. unfold handle_append_entries_reply. walk; quiet_step. Qed.

Lemma quiet_install_snapshot_reply from m s :
  holds_at quiet (handle_install_snapshot_reply (SM := SM) (Rng := Rng) from m) s.
Proof. unfold handle_install_snapshot_reply. walk; quiet_step. Qed.

Lemma quiet_read_index_request now from m s :
  holds_at quiet (handle_read_index_request (SM := SM) (Rng := Rng) now from m) s.
Proof. unfold handle_read_index_request, send. walk; quiet_step. Qed.

Lemma feed_static r c o r' : recv_static r → sm_membership (ch_meta c) = C →
  SnapshotReceiver.feed r c = (o, r') →
  recv_static r' ∧ (∀ snap, o = Some snap → sm_membership (snap_meta snap) = C).
Proof.
  unfold SnapshotReceiver.feed, recv_static. intros Hr Hc.
  destruct (ch_offset c =? 0), (rc_meta r) as [m|] eqn:Hm; simpl;
    destruct (negb _); try destruct (ch_done c); intros [= <- <-]; naive_solver.
Qed.

Lemma quiet_apply_snapshot snap s : sm_membership (snap_meta snap) = C →
  holds_at quiet (apply_snapshot (SM := SM) (Rng := Rng) snap) s.
Proof.
  intros Hm. unfold apply_snapshot. walk; try quiet_step.
  intros []. split_and!; [split; simpl; auto using log_static_compact|by split|constructor].
Qed.

Lemma quiet_install_snapshot from m s : sm_membership (is_meta m) = C →
  holds_at quiet (handle_install_snapshot (SM := SM) (Rng := Rng) from m) s.
Proof.
  intros Hm. apply quiet_intro. intros [Hmem Hlog Hrecv].
  assert (Hr : recv_static (default SnapshotReceiver.new (snapshot_receiver s)))
    by (destruct (snapshot_receiver s); simpl; [by apply Hrecv | done]).
  unfold handle_install_snapshot, send. walk; try quiet_step.
  - apply quiet_apply_snapshot. by eapply feed_static in Heqp as [_ ?]; [apply H|..].
  - eapply feed_static in Heqp as [? _]; [|done|done]. intros [].
    split_and!; [split; simpl; naive_solver|by split|constructor].
Qed.
#[local] Hint Resolve quiet_append_entries_reply quiet_install_snapshot_reply
  quiet_read_index_request quiet_install_snapshot : effects.

Lemma quiet_initiate_transfer to s : holds_at quiet (initiate_transfer (SM := SM) (Rng := Rng) to) s.
Proof. unfold initiate_transfer, send. walk; quiet_step. Qed.

Lemma quiet_cmd_propose data resp s : holds_at quiet (cmd_propose (SM := SM) (Rng := Rng) data resp) s.
Proof.
  unfold cmd_propose. walk; try quiet_step.
  intros []. split_and!; [split; simpl; auto|by split|constructor].
  apply log_static_append; [done|]. by repeat constructor.
Qed.

Lemma quiet_cmd_read_index now resp s :
  holds_at quiet (cmd_read_index (SM := SM) (Rng := Rng) now resp) s.
Proof. unfold cmd_read_index. walk; quiet_step. Qed.
#[local] Hint Resolve quiet_initiate_transfer quiet_cmd_propose quiet_cmd_read_index : effects.

(** Every command except the two membership changes is quiet. *)
Lemma quiet_handle_cmd now c s :
  (∀ node resp, c ≠ AddNode node resp) → (∀ id resp, c ≠ RemoveNode id resp) →
  holds_at quiet (handle_cmd (SM := SM) (Rng := Rng) now c) s.
Proof.
  intros Ha Hr. unfold handle_cmd. destruct c; try naive_solver; walk; quiet_step.
Qed.
End Quiet.

#[export] Hint Resolve quiet_send_snapshot_to quiet_replicate_to quiet_broadcast quiet_heartbeat
  quiet_compact_log quiet_apply_entries quiet_advance_commit quiet_maybe_advance_commit
  quiet_maybe_flush_reads quiet_append_entries_reply quiet_install_snapshot_reply
  quiet_read_index_request quiet_install_snapshot quiet_initiate_transfer quiet_cmd_propose
  quiet_cmd_read_index quiet_fail_pending : effects.
