(* ===== verification/RaftVotes.v ===== *)
(** * Votes and roles over one event

    The methods that change term, vote or role ([become_*], [campaign_*],
    [handle_request_vote*], [step], [tick]) and what one event can do to a node:
    [vote_step] collects it in the form the cluster argument of [RaftCluster.v]
    uses. *)

From S2P Require Import Prelude Effects Consensus RaftTypes RaftLog RaftSnapshot.
From S2P Require Import RaftMembership RaftReadOnly RaftNode RaftQuiet.

Section Votes.
Context {SM Rng : Type} `{SMI : !Kernel.StateMachine SM} `{RngI : !GenRange Rng} `{Json : !MembershipJson}.
Context (C : MembershipConfig) (now : N).
Local Abbreviation Node := (RaftNode SM Rng).
Local Abbreviation Proc := (M Node Effect).

(** An effect that is not a vote message, or a vote request in the node's own name. *)
Definition own_request (id : N) (e : Effect) : Prop :=
  match e with
  | Send _ (MRequestVote m) => rv_candidate_id m = id
  | Send _ (MRequestVoteReply _) => False
  | Send _ m => msg_static C m
  | _ => True
  end.

Lemma quiet_own_request id e : quiet_effect C e → own_request id e.
Proof. destruct e as [to []| | |]; simpl; tauto. Qed.

Lemma quiet_own_requests id o : Forall (quiet_effect C) o → Forall (own_request id) o.
Proof. intros H. eapply Forall_impl; [done|]. intros e. apply quiet_own_request. Qed.

(** The outcome of a campaign: a new term with the node's own vote. *)
Record campaigned (s s' : Node) : Prop := mk_campaigned {
  cp_static : static C s';
  cp_id : node_id s' = node_id s;
  cp_config : config s' = config s;
  cp_not_learner : node_id s ∉ learners C;
  cp_term : current_term s' = current_term s + 1;
  cp_vote : voted_for s' = Some (node_id s);
  cp_votes : votes_received s' = {[node_id s]};
  cp_role : role s' = Candidate ∨ (role s' = Leader ∧ size (voters C) = 1%nat)
}.

Lemma become_candidate_spec t (s : Node) : static C s →
  let s' := final (become_candidate t) s in
  static C s' ∧ node_id s' = node_id s ∧ config s' = config s ∧ current_term s' = t ∧
  voted_for s' = Some (node_id s) ∧ role s' = Candidate ∧ votes_received s' = {[node_id s]} ∧
  outs (become_candidate t) s = [].
Proof.
  intros [Hm Hl Hr]. unfold become_candidate. rewrite !final_bind, !outs_bind. finals. simpl.
  reset_timeout. simpl. by repeat split.
Qed.

Lemma become_leader_spec (s : Node) : static C s →
  let s' := final (become_leader now) s in
  static C s' ∧ node_id s' = node_id s ∧ config s' = config s ∧
  current_term s' = current_term s ∧ voted_for s' = voted_for s ∧
  role s' = Leader ∧ votes_received s' = votes_received s ∧
  Forall (quiet_effect C) (outs (become_leader now) s).
Proof.
  intros Hs. unfold become_leader. rewrite final_bind, outs_bind. finals.
  match goal with |- context [final ?m ?s1] => assert (Hq : holds_at (quiet C) m s1) end.
  { walk; first [quiet_step | apply quiet_append_barrier]. }
  destruct Hq as (Hs' & [] & Ho); [by destruct Hs|]. by split_and!.
Qed.

Lemma become_follower_spec t ldr (s : Node) : static C s →
  let s' := final (become_follower t ldr) s in
  static C s' ∧ node_id s' = node_id s ∧ config s' = config s ∧
  current_term s' = N.max (current_term s) t ∧
  voted_for s' = (if current_term s <? t then None else voted_for s) ∧
  role s' = Follower ∧ votes_received s' = ∅ ∧
  Forall (quiet_effect C) (outs (become_follower t ldr) s).
Proof.
  intros Hs. unfold become_follower. rewrite final_get_bind, outs_get_bind, final_bind, outs_bind.
  set (m1 := when _ _). assert (Hq : holds_at (quiet C) m1 s) by (subst m1; walk).
  destruct Hq as (Hs1 & [Hid Hcfg Ht Hv _ _] & Ho); [done|].
  revert Hs1 Hid Hcfg Ht Hv Ho. generalize (final m1 s), (outs m1 s). intros s1 o1 [Hm Hl Hr] <- <- <- <- Ho.
  rewrite !final_bind, !outs_bind. finals. simpl.
  reset_timeout. simpl.
  unfold adopt_term. destruct (N.ltb_spec (current_term s1) t); simpl;
    (split_and!; [by split|done|done|lia|done|done|done|]); rewrite app_nil_r; done.
Qed.

Lemma request_votes_spec t pre (s : Node) :
  final (request_votes t pre) s = s ∧ Forall (own_request (node_id s)) (outs (request_votes t pre) s).
Proof.
  unfold request_votes. rewrite final_get_bind, outs_get_bind. generalize (btree_iter (Membership.all_voters (membership s))).
  intros l. induction l as [|p l [IH1 IH2]]; simpl; [by split; [|constructor]|].
  rewrite final_bind, outs_bind.
  destruct (negb (p =? node_id s)); simpl; [|done].
  split; [done|]. constructor; [done|]. exact IH2.
Qed.

Lemma campaign_real_spec (s : Node) : static C s → current_term s < u64_max →
  (final (campaign_real now) s = s ∧ outs (campaign_real now) s = []) ∨
  (campaigned s (final (campaign_real now) s) ∧
   Forall (own_request (node_id s)) (outs (campaign_real now) s)).
Proof.
  intros Hs Hmax. unfold campaign_real. rewrite final_get_bind, outs_get_bind.
  unfold is_learner. case_bool_decide as Hl; [by left|right].
  rewrite !(static_membership _ _ Hs) in Hl.
  rewrite final_bind, outs_bind.
  destruct (become_candidate_spec (current_term s +w 1) s Hs) as (Hs1 & Hid & Hcfg & Ht & Hv & Hr & Hvs & ->).
  revert Hs1 Hid Hcfg Ht Hv Hr Hvs. generalize (final (become_candidate (current_term s +w 1)) s).
  intros s1 Hs1 Hid Hcfg Ht Hv Hr Hvs. rewrite u64_add_1 in * by done.
  rewrite final_bind, outs_bind. destruct (request_votes_spec (current_term s + 1) false s1) as [-> Ho].
  rewrite final_get_bind, outs_get_bind, (static_membership _ _ Hs1). rewrite Hid in Ho.
  destruct (size (voters C) =? 1)%nat eqn:Hsz.
  - destruct (become_leader_spec s1 Hs1) as (Hs2 & Hid2 & Hcfg2 & Ht2 & Hv2 & Hr2 & Hvs2 & Ho2).
    apply Nat.eqb_eq in Hsz. rewrite when_true. split; [split; try congruence; auto|].
    rewrite app_nil_l. apply Forall_app. split; [done|]. by apply quiet_own_requests.
  - rewrite when_false. simpl. split; [split; auto; congruence|]. by rewrite app_nil_r.
Qed.

(** The outcome of a pre-vote campaign that does not turn into a real one. *)
Record pre_campaigned (s s' : Node) : Prop := mk_pre_campaigned {
  pc_static : static C s';
  pc_id : node_id s' = node_id s;
  pc_config : config s' = config s;
  pc_term : current_term s' = current_term s;
  pc_vote : voted_for s' = voted_for s;
  pc_role : role s' = PreCandidate
}.

Lemma campaign_spec pre (s : Node) : static C s → current_term s < u64_max →
  ((final (campaign now pre) s = s ∧ outs (campaign now pre) s = []) ∨
   pre_campaigned s (final (campaign now pre) s) ∨ campaigned s (final (campaign now pre) s)) ∧
  Forall (own_request (node_id s)) (outs (campaign now pre) s).
Proof.
  intros Hs Hmax. unfold campaign. destruct pre.
  2:{ destruct (campaign_real_spec s Hs Hmax) as [[-> ->]|[]]; split; auto. }
  unfold campaign_pre_vote. rewrite final_get_bind, outs_get_bind.
  unfold is_learner. case_bool_decide as Hl; [split; [by left|constructor]|].
  rewrite !final_bind, !outs_bind. finals. simpl.
  edestruct request_votes_spec as [-> Ho]. simpl in Ho.
  simpl. rewrite (static_membership _ _ Hs).
  set (s1 := set_pre_votes_received _ _).
  assert (Hs1 : static C s1) by (by destruct Hs).
  destruct (size (voters C) =? 1)%nat; rewrite ?when_true, ?when_false; simpl; rewrite ?app_nil_r.
  - destruct (campaign_real_spec s1 Hs1 Hmax) as [[-> ->]|[[] Ho1]].
    + rewrite ?app_nil_r. split; [right; left; by split|]. by constructor.
    + split; [right; right; by split|]. constructor; [done|]. by apply Forall_app.
  - split; [right; left; by split|]. by constructor.
Qed.
End Votes.

(** ** What one event does to votes and roles *)

Section Moves.
Context {SM Rng : Type} `{SMI : !Kernel.StateMachine SM} `{RngI : !GenRange Rng} `{Json : !MembershipJson}.
Context (C : MembershipConfig).
Context (granted : N → N → Prop).
Local Abbreviation Node := (RaftNode SM Rng).

Definition member (s : Node) : Prop := node_id s ∈ voters C ∪ learners C.
Definition collecting (s : Node) : Prop := role s = Candidate ∨ role s = Leader.

(** Where a collected vote of [j] comes from: the node's own vote, the collection
    before, or a vote granted by [j] in the present term. *)
Definition vote_source (s s' : Node) (j : N) : Prop :=
  (j = node_id s ∧ voted_for s' = Some (node_id s)) ∨
  (collecting s ∧ current_term s' = current_term s ∧ j ∈ votes_received s) ∨
  granted j (current_term s').

Record moves (s s' : Node) : Prop := mk_moves {
  mv_id : node_id s' = node_id s;
  mv_config : config s' = config s;
  mv_term : current_term s ≤ current_term s';
  mv_vote c : current_term s' = current_term s → voted_for s = Some c → voted_for s' = Some c;
  mv_votes j : collecting s' → j ∈ votes_received s' → vote_source s s' j;
  mv_leader : role s' = Leader →
    (role s = Leader ∧ current_term s' = current_term s ∧ votes_received s ⊆ votes_received s') ∨
    Membership.has_quorum C (votes_received s') = true
}.

#[export] Instance moves_preorder : PreOrder moves.
Proof.
  split.
  - intros s. split; try done; [|set_solver]. intros j Hc Hj. right; left. done.
  - intros s1 s2 s3 [Hi Hc Ht Hv Hs Hl] [Hi' Hc' Ht' Hv' Hs' Hl'].
    split; try congruence; try lia.
    + intros c Heq H1. apply Hv'; [lia|]. apply Hv; [lia|done].
    + intros j Hcol Hj. destruct (Hs' j Hcol Hj) as [[-> ?]|[(? & ? & ?)|?]].
      * left. by rewrite <- Hi.
      * destruct (Hs j) as [[-> ?]|[(? & ? & ?)|?]]; [done..| | |].
        -- left. split; [done|]. apply Hv'; congruence.
        -- right; left. split_and!; [done|congruence|done].
        -- right; right. congruence.
      * by right; right.
    + intros Hr. destruct (Hl' Hr) as [(Hr2 & ? & Hsub)|?]; [|by right].
      destruct (Hl Hr2) as [(? & ? & ?)|?].
      * left. split_and!; [done|congruence|set_solver].
      * right. by eapply has_quorum_mono.
Qed.

Definition advances (s s' : Node) (o : list Effect) : Prop :=
  static C s → member s → static C s' ∧ moves s s' ∧ Forall (own_request C (node_id s)) o.

#[export] Instance advances_frame : Frame advances.
Proof.
  split.
  - intros s Hs Hm. split_and!; [done|reflexivity|constructor].
  - intros s1 s2 s3 o1 o2 H1 H2 Hs Hm. destruct (H1 Hs Hm) as (Hs2 & Hk & Ho).
    assert (Hm2 : member s2) by (unfold member; by rewrite (mv_id _ _ Hk)).
    destruct (H2 Hs2 Hm2) as (Hs3 & Hk' & Ho').
    rewrite (mv_id _ _ Hk) in Ho'. split_and!; [done|by etrans|by apply Forall_app].
Qed.

Lemma keeps_moves s s' : keeps s s' → moves s s'.
Proof.
  intros []. split; try congruence; try lia.
  - intros j Hc Hj. right; left. unfold collecting in *. split_and!; congruence.
  - intros Hr. left. split_and!; [congruence|done|set_solver].
Qed.

Lemma quiet_advances s s' o : quiet C s s' o → advances s s' o.
Proof.
  intros Hq Hs Hm. destruct (Hq Hs) as (? & ? & ?).
  split_and!; [done|by apply keeps_moves|by apply quiet_own_requests].
Qed.

Context (Hsimple : voters_outgoing C = None).

Lemma campaigned_moves s s' : member s → campaigned C s s' → moves s s'.
Proof.
  intros Hm [Hs Hi Hc Hl Ht Hv Hvs Hr]. split; try done; try lia.
  - intros j _ Hj. rewrite Hvs in Hj. left. split; [set_solver|done].
  - intros Hr'. destruct Hr as [?|[_ Hsz]]; [congruence|]. right. rewrite Hvs.
    apply has_quorum_self; [|done]. apply size_1_elem_of in Hsz as [x Hx].
    apply leibniz_equiv in Hx. apply elem_of_union in Hm as [Hm|Hm]; [|done].
    rewrite Hx in *. apply elem_of_singleton in Hm. by rewrite Hm.
Qed.

Lemma pre_campaigned_moves s s' : pre_campaigned C s s' → moves s s'.
Proof.
  intros [Hs Hi Hc Ht Hv Hr]. split; try congruence; try lia.
  intros j [|]; congruence.
Qed.

Lemma advances_campaign_real now s : current_term s < u64_max →
  holds_at advances (campaign_real (SM := SM) (Rng := Rng) now) s.
Proof.
  intros Hmax Hs Hm.
  destruct (campaign_real_spec C now s Hs Hmax) as [[-> ->]|[Hc Ho]]; [by apply (frame_refl (R := advances))|].
  split_and!; [apply Hc|by apply campaigned_moves|done].
Qed.

Lemma advances_campaign now pre s : current_term s < u64_max →
  holds_at advances (campaign (SM := SM) (Rng := Rng) now pre) s.
Proof.
  intros Hmax Hs Hm.
  destruct (campaign_spec C now pre s Hs Hmax) as [[[-> ->]|[Hc|Hc]] Ho]; [by apply (frame_refl (R := advances))|..].
  - split_and!; [apply Hc|by apply pre_campaigned_moves|done].
  - split_and!; [apply Hc|by apply campaigned_moves|done].
Qed.

Lemma advances_become_follower t ldr s :
  holds_at advances (become_follower (SM := SM) (Rng := Rng) t ldr) s.
Proof.
  intros Hs Hm. destruct (become_follower_spec C t ldr s Hs) as (Hs' & Hi & Hc & Ht & Hv & Hr & Hvs & Ho).
  revert Hs' Hi Hc Ht Hv Hr Hvs. generalize (final (become_follower t ldr) s). intros s' Hs' Hi Hc Ht Hv Hr Hvs.
  split_and!; [done| |by apply quiet_own_requests].
  split; try done; [lia|..].
  - intros c Heq Hvf. rewrite Hv. destruct (N.ltb_spec (current_term s) t); [lia|done].
  - intros j [|]; congruence.
  - congruence.
Qed.
#[local] Hint Resolve advances_become_follower : effects.

Lemma advances_check_quorum s : holds_at advances (do_check_quorum (SM := SM) (Rng := Rng)) s.
Proof. unfold do_check_quorum. walk; apply quiet_advances; quiet_step. Qed.
#[local] Hint Resolve advances_check_quorum : effects.

Lemma advances_tick_leader now s : holds_at advances (tick_leader (SM := SM) (Rng := Rng) now) s.
Proof.
  unfold tick_leader. walk; apply quiet_advances; first [quiet_step | apply quiet_heartbeat].
Qed.

(** An assignment that is [quiet] before a method that [advances]. *)
Lemma advances_set {A} (f : Node → Node) (k : unit → M Node Effect A) s :
  quiet C s (f s) [] → holds_at advances (k tt) (f s) → holds_at advances (modify f ≫= k) s.
Proof.
  intros Hf Hk. apply holds_bind; [apply _| |done].
  apply (quiet_advances s (f s) []). done.
Qed.

Lemma advances_tick now s : current_term s < u64_max →
  holds_at advances (tick (SM := SM) (Rng := Rng) now) s.
Proof.
  intros Hmax. unfold tick. do 2 (apply advances_set; [quiet_step|]).
  apply holds_get_bind; [apply _|].
  destruct (role _); try apply advances_tick_leader;
    (apply holds_when; [apply _|intros _; apply advances_set; [quiet_step|]];
     by apply advances_campaign).
Qed.

Lemma advances_timeout_now now from m s : current_term s < u64_max →
  holds_at advances (handle_timeout_now (SM := SM) (Rng := Rng) now from m) s.
Proof.
  intros Hmax. unfold handle_timeout_now. apply holds_get_bind; [apply _|].
  destruct (is_learner s); [by apply holds_skip; apply _|].
  apply advances_set; [quiet_step|]. by apply advances_campaign.
Qed.

Lemma advances_append_entries now from m s : Forall entry_static (ae_entries m) →
  holds_at advances (handle_append_entries (SM := SM) (Rng := Rng) now from m) s.
Proof.
  intros Hes. unfold handle_append_entries, accept_leader, send. walk; apply quiet_advances;
    first [quiet_step | apply quiet_advance_commit |idtac].
  intros []. split_and!; [split; simpl; auto using log_static_append|by split|constructor].
Qed.

(** A vote is counted when it was granted in the present term. *)
Lemma advances_vote_reply now from m s : current_term s < u64_max →
  (rvr_pre_vote m = false → rvr_vote_granted m = true → granted from (current_term s)) →
  holds_at advances (handle_request_vote_reply (SM := SM) (Rng := Rng) now from m) s.
Proof.
  intros Hmax Hg. unfold handle_request_vote_reply. apply holds_get_bind; [apply _|].
  destruct (rvr_pre_vote m).
  { case_bool_decide; [|by apply holds_skip; apply _]. simpl. apply holds_when; [apply _|intros _].
    apply advances_set; [quiet_step|]. apply holds_get_bind; [apply _|].
    apply holds_when; [apply _|intros _]. by apply advances_campaign_real. }
  case_bool_decide as Hr; [|by apply holds_skip; apply _]. simpl.
  destruct (rvr_vote_granted m).
  2:{ walk; apply quiet_advances; quiet_step. }
  intros Hs Hm. rewrite final_bind, outs_bind. finals. rewrite final_get_bind, outs_get_bind. simpl.
  set (s1 := set_votes_received _ s).
  assert (Hs1 : static C s1) by (by destruct Hs).
  assert (Hv : ∀ j, j ∈ votes_received s1 → vote_source s s1 j).
  { intros j. simpl. intros [Hj| ->%elem_of_singleton]%elem_of_union; [|right; right; by apply Hg].
    right; left. split_and!; [by left|done|done]. }
  rewrite (static_membership _ _ Hs). destruct (Membership.has_quorum _ _) eqn:Hq.
  - rewrite when_true. destruct (become_leader_spec C now s1 Hs1) as (Hs2 & Hi & Hc & Ht & Hvf & Hr2 & Hvs & Ho).
    split_and!; [done| |by apply quiet_own_requests].
    revert Hi Hc Ht Hvf Hr2 Hvs. generalize (final (become_leader now) s1). intros s2 Hi Hc Ht Hvf Hr2 Hvs.
    split; [done|done|by rewrite Ht|intros c _; by rewrite Hvf| |intros _; right; by rewrite Hvs].
    intros j _ Hj. rewrite Hvs in Hj. specialize (Hv j Hj). unfold vote_source in *. by rewrite Hvf, Ht.
  - rewrite when_false. split_and!; [done| |constructor].
    split; [done|done|simpl; lia|done|by intros j _; apply Hv|].
    intros Hl. simpl in Hl. congruence.
Qed.

(** ** Granting a vote *)

Definition vote_effect (s' : Node) (e : Effect) : Prop :=
  match e with
  | Send to (MRequestVoteReply r) =>
      rvr_vote_granted r = true → rvr_pre_vote r = false →
      rvr_term r = current_term s' ∧ voted_for s' = Some to
  | _ => own_request C (node_id s') e
  end.

Definition vote_step (s s' : Node) (o : list Effect) : Prop :=
  static C s → member s → static C s' ∧ moves s s' ∧ Forall (vote_effect s') o.

Lemma advances_vote_step s s' o : advances s s' o → vote_step s s' o.
Proof.
  intros Ha Hs Hm. destruct (Ha Hs Hm) as (? & Hmv & Ho). split_and!; [done|done|].
  eapply Forall_impl; [done|]. rewrite <- (mv_id _ _ Hmv). by intros [to []| | |].
Qed.

(** A first part that only [advances] keeps the promise of the second. *)
Lemma vote_step_bind {A B} (m : M Node Effect A) (k : A → M Node Effect B) s :
  holds_at advances m s → holds_at vote_step (k (res m s)) (final m s) →
  holds_at vote_step (m ≫= k) s.
Proof.
  intros H1 H2 Hs Hm. destruct (H1 Hs Hm) as (Hs1 & Hm1 & Ho1).
  assert (Hmem : member (final m s)) by (unfold member; by rewrite (mv_id _ _ Hm1)).
  destruct (H2 Hs1 Hmem) as (Hs2 & Hm2 & Ho2). rewrite final_bind, outs_bind.
  split_and!; [done|by etrans|]. apply Forall_app. split; [|done].
  eapply Forall_impl; [done|]. rewrite <- (mv_id _ _ Hm1), <- (mv_id _ _ Hm2). by intros [to []| | |].
Qed.

Lemma vote_step_request from m s : rv_candidate_id m = from →
  holds_at vote_step (handle_request_vote (SM := SM) (Rng := Rng) from m) s.
Proof.
  intros <- Hs Hm. unfold handle_request_vote. rewrite final_get_bind, outs_get_bind, final_bind, outs_bind.
  destruct (grants s m) eqn:Hg, (rv_pre_vote m) eqn:Hp; simpl;
    (split_and!; [done||by destruct Hs| |repeat constructor; simpl; auto; done]);
    [apply keeps_moves; by split| |apply keeps_moves; by split..].
  unfold grants in Hg. rewrite Hp in Hg. apply andb_true_iff in Hg as [_ Hcan].
  apply orb_true_iff in Hcan. rewrite !bool_decide_eq_true in Hcan.
  split; try done; simpl.
  - intros c _ Hc. destruct Hcan; congruence.
  - intros j Hcol Hj. right; left. done.
  - intros Hr. by left.
Qed.
End Moves.

(** ** One iteration of the actor loop *)

Section Event.
Context {SM Rng : Type} `{SMI : !Kernel.StateMachine SM} `{RngI : !GenRange Rng} `{Json : !MembershipJson}.
Context (C : MembershipConfig) (Hsimple : voters_outgoing C = None) (now : N).
Local Abbreviation Node := (RaftNode SM Rng).

(** The vote an event reports: voter [j] granted its vote in term [t]. *)
Definition reports_vote (e : Event) (j t : N) : Prop :=
  match e with
  | EMsg from (MRequestVoteReply r) =>
      j = from ∧ t = rvr_term r ∧ rvr_vote_granted r = true ∧ rvr_pre_vote r = false
  | _ => False
  end.

(** Messages of a cluster with the fixed membership [C], and commands that keep it;
    terms stay below the point where [current_term + 1] wraps. *)
Definition message_ok (from : N) (m : RaftMessage) : Prop :=
  msg_static C m ∧ msg_term m < u64_max ∧
  match m with MRequestVote m => rv_candidate_id m = from | _ => True end.

Definition event_ok (e : Event) : Prop :=
  match e with
  | ETick => True
  | EMsg from m => message_ok from m
  | ECmd (AddNode _ _) | ECmd (RemoveNode _ _) => False
  | ECmd _ => True
  end.

Lemma quiet_advances_at {A} granted (m : M Node Effect A) s :
  holds_at (quiet C) m s → holds_at (advances C granted) m s.
Proof. apply quiet_advances. Qed.

Lemma dispatch_vote_step from m (s : Node) : current_term s < u64_max → message_ok from m →
  (∀ r, m = MRequestVoteReply r → rvr_pre_vote r = false → rvr_term r = current_term s) →
  holds_at (vote_step C (reports_vote (EMsg from m))) (dispatch now from m) s.
Proof.
  intros Hmax (Hst & _ & Hown) Hrep.
  destruct m as [m|m|m|m|m|m|m|m|m]; unfold dispatch; [by apply vote_step_request|..];
    apply advances_vote_step;
    try (apply quiet_advances_at; solve [auto with effects]).
  - apply advances_vote_reply; [done..|]. intros Hp Hg. by rewrite <- (Hrep m eq_refl Hp).
  - by apply advances_append_entries.
  - by apply advances_timeout_now.
  - apply (frame_refl (R := advances _ _)).
Qed.

(** The second half of [step], after the term of the message has been adopted. *)
Lemma gated_vote_step from m (s : Node) : current_term s < u64_max → message_ok from m →
  msg_term m ≤ current_term s ∨ is_pre_vote_request m = true →
  holds_at (vote_step C (reports_vote (EMsg from m)))
    (s ← get; if (msg_term m <? current_term s) && negb (is_pre_vote_reply m) then skip
              else dispatch now from m) s.
Proof.
  intros Hmax Hok Hle. unfold holds_at. rewrite final_get_bind, outs_get_bind.
  destruct (_ && _) eqn:Hgate.
  { apply advances_vote_step, (frame_refl (R := advances _ _)). }
  apply dispatch_vote_step; [done..|]. intros r -> Hp. simpl in *. rewrite Hp, andb_true_r in Hgate.
  apply N.ltb_ge in Hgate. destruct Hle; [lia|done].
Qed.

Lemma step_vote_step from m (s : Node) : current_term s < u64_max → message_ok from m →
  holds_at (vote_step C (reports_vote (EMsg from m))) (step now from m) s.
Proof.
  intros Hmax Hok Hs Hmem. pose proof Hok as (_ & Hm & _).
  unfold step. rewrite final_get_bind, outs_get_bind. revert Hs Hmem. intros Hs.
  set (p := when _ _).
  assert (Hp : current_term (final p s) < u64_max ∧
               (msg_term m ≤ current_term (final p s) ∨ is_pre_vote_request m = true)).
  { subst p. destruct (_ && _) eqn:Hb; rewrite ?when_true, ?when_false.
    - destruct (become_follower_spec C (msg_term m) (claimed_leader m) s Hs) as (_ & _ & _ & -> & _). lia.
    - simpl. split; [done|]. apply andb_false_iff in Hb as [Hb|Hb].
      + apply N.ltb_ge in Hb. by left.
      + right. by apply negb_false_iff. }
  destruct Hp as [Hp1 Hp2]. revert Hs. apply vote_step_bind.
  - subst p. apply holds_when; [apply _|intros _; apply advances_become_follower].
  - by apply gated_vote_step.
Qed.

Lemma run_event_vote_step e (s : Node) : current_term s < u64_max → event_ok e →
  holds_at (vote_step C (reports_vote e)) (run_event now e) s.
Proof.
  intros Hmax Hok. unfold run_event. destruct e as [|from m|c].
  - apply vote_step_bind; [by apply advances_tick|].
    apply advances_vote_step, (frame_refl (R := advances _ _)).
  - intros Hs Hmem. rewrite final_bind, outs_bind. simpl. rewrite app_nil_r. by apply step_vote_step.
  - apply advances_vote_step, quiet_advances, quiet_handle_cmd; intros ? ? ->; done.
Qed.

Lemma run_start_vote_step (s : Node) granted : current_term s < u64_max →
  holds_at (vote_step C granted) (run_start now) s.
Proof.
  intros Hmax. apply advances_vote_step. unfold run_start. 
  apply holds_get_bind; [apply _|]. apply holds_when; [apply _|intros _]. by apply advances_campaign.
Qed.
End Event.
