(* ===== verification/RaftCluster.v ===== *)
(** * A cluster of Raft nodes: election safety

    The nodes of [RaftNode.v] over the network of [transport]: a message that was
    sent may be delivered at any later time, any number of times, or never.  A node
    may stop for good (the [Shutdown] command, or by taking no further steps); it
    does not come back under its identifier, since [RaftNode] keeps term and vote in
    memory only.  The membership is a fixed configuration [C].

    [apply_action] executes one action; the theorem speaks of all sequences of
    actions whose terms stay below [u64::MAX], where [current_term + 1] wraps. *)

From S2P Require Import Prelude Effects Consensus RaftTypes RaftLog RaftSnapshot.
From S2P Require Import RaftMembership RaftStateMachine RaftReadOnly RaftNode RaftExample.
From S2P Require Import RaftQuiet RaftVotes.

Section Cluster.
Context {SM Rng : Type} `{SMI : !Kernel.StateMachine SM} `{RngI : !GenRange Rng} `{Json : !MembershipJson}.
Local Abbreviation Node := (RaftNode SM Rng).

Record packet : Type := mkPacket { pk_from : N; pk_to : N; pk_msg : RaftMessage }.

Record cluster : Type := mkCluster {
  nodes : gmap N Node;
  running : gset N;
  net : list packet
}.

Definition packets (from : N) (o : list Effect) : list packet :=
  omap (λ e, match e with Send to m => Some (mkPacket from to m) | _ => None end) o.

Inductive action : Type :=
| Start (now i : N)
| Ticks (now i : N)
| Deliver (now : N) (k : nat)
| Command (now i : N) (cmd : NodeCmd).

Definition changes_membership (c : NodeCmd) : bool :=
  match c with AddNode _ _ | RemoveNode _ _ => true | _ => false end.

(** Node [i] handles [e]; a node that leaves its loop leaves the cluster. *)
Definition handle (now i : N) (e : Event) (c : cluster) : option cluster :=
  s ← nodes c !! i;
  if negb (bool_decide (i ∈ running c)) then None
  else
    let '(stop, s', o) := run_event now e s in
    Some (mkCluster (if stop then delete i (nodes c) else <[i := s']> (nodes c))
            (running c) (net c ++ packets i o)).

Definition apply_action (a : action) (c : cluster) : option cluster :=
  match a with
  | Start now i =>
      s ← nodes c !! i;
      if bool_decide (i ∈ running c) then None
      else
        let '(_, s', o) := run_start now s in
        Some (mkCluster (<[i := s']> (nodes c)) ({[i]} ∪ running c) (net c ++ packets i o))
  | Ticks now i => handle now i ETick c
  | Deliver now k => p ← net c !! k; handle now (pk_to p) (EMsg (pk_from p) (pk_msg p)) c
  | Command now i cmd => if changes_membership cmd then None else handle now i (ECmd cmd) c
  end.

(** No term has reached [u64::MAX]. *)
Definition bounded (c : cluster) : Prop :=
  map_Forall (λ _ s, current_term s < u64_max) (nodes c) ∧
  Forall (λ p, msg_term (pk_msg p) < u64_max) (net c).
#[export] Instance bounded_dec c : Decision (bounded c).
Proof. apply _. Defined.

Definition bounded_step (c c' : cluster) : Prop := bounded c ∧ ∃ a, apply_action a c = Some c'.

Fixpoint run_actions (l : list action) (c : cluster) : option cluster :=
  match l with
  | [] => Some c
  | a :: l => if bool_decide (bounded c) then c' ← apply_action a c; run_actions l c' else None
  end.

Lemma run_actions_steps l c c' : run_actions l c = Some c' → rtc bounded_step c c'.
Proof.
  revert c. induction l as [|a l IH]; intros c; simpl; [by intros [= ->]|].
  case_bool_decide; [|done]. intros (c1 & Ha & Hl)%bind_Some.
  eapply rtc_l; [|by apply IH]. split; [done|by exists a].
Qed.

(** Every node starts from [spawn], with the configuration [C] it is a member of. *)
Definition initial (C : MembershipConfig) (c : cluster) : Prop :=
  net c = [] ∧ running c = ∅ ∧
  ∀ i s, nodes c !! i = Some s →
    i ∈ voters C ∪ learners C ∧ membership s = C ∧
    ∃ cfg members lease_duration sm r, cfg_id cfg = i ∧ s = spawn cfg members lease_duration sm r.

Definition leads (c : cluster) (T i : N) : Prop :=
  ∃ s, nodes c !! i = Some s ∧ role s = Leader ∧ current_term s = T.

(** ** The invariant

    [H j T k]: node [j] has voted for [k] in term [T]. *)

Section Invariant.
Context (C : MembershipConfig) (Hsimple : voters_outgoing C = None).
Implicit Types H : N → N → N → Prop.

Record node_inv H (i : N) (s : Node) : Prop := mk_node_inv {
  nv_id : node_id s = i;
  nv_member : member C s;
  nv_static : static C s;
  nv_voted k : voted_for s = Some k → H i (current_term s) k;
  nv_hist T k : H i T k → T ≤ current_term s ∧ (T = current_term s → voted_for s = Some k);
  nv_votes j : collecting s → j ∈ votes_received s → H j (current_term s) i;
  nv_leader : role s = Leader → Membership.has_quorum C (votes_received s) = true
}.

Definition packet_inv H (p : packet) : Prop :=
  msg_static C (pk_msg p) ∧
  match pk_msg p with
  | MRequestVote m => rv_candidate_id m = pk_from p
  | MRequestVoteReply r =>
      rvr_vote_granted r = true → rvr_pre_vote r = false → H (pk_from p) (rvr_term r) (pk_to p)
  | _ => True
  end.

Record inv H (c : cluster) : Prop := mk_inv {
  inv_node i s : nodes c !! i = Some s → node_inv H i s;
  inv_once j T a b : H j T a → H j T b → a = b;
  inv_net : Forall (packet_inv H) (net c)
}.

(** The history after node [i] has reached [s']. *)
Definition record_vote H (i : N) (s' : Node) : N → N → N → Prop :=
  λ j T k, H j T k ∨ (j = i ∧ T = current_term s' ∧ voted_for s' = Some k).

Lemma record_vote_mono H i s' j T k : H j T k → record_vote H i s' j T k.
Proof. by left. Qed.

Lemma packet_inv_mono H H' p : (∀ j T k, H j T k → H' j T k) → packet_inv H p → packet_inv H' p.
Proof. intros Hs [? Hp]. split; [done|]. destruct (pk_msg p); auto. Qed.

Lemma packets_inv H i (s' : Node) o : node_id s' = i → Forall (vote_effect C s') o →
  Forall (packet_inv (record_vote H i s')) (packets i o).
Proof.
  intros Hi Ho. apply Forall_forall. intros p Hp.
  apply list_elem_of_omap in Hp as (e & He & Hp). rewrite Forall_forall in Ho. specialize (Ho e He).
  destruct e as [to m| | |]; [|done..]. injection Hp as <-.
  destruct m; simpl in *; (split; [done|]); simpl; try done; [congruence|].
  intros Hg Hp. destruct (Ho Hg Hp) as [-> Hv]. by right.
Qed.

Lemma node_inv_step H i s s' granted :
  (∀ j T a b, H j T a → H j T b → a = b) →
  node_inv H i s → static C s' → moves C granted s s' → (∀ j t, granted j t → H j t i) →
  node_inv (record_vote H i s') i s'.
Proof.
  intros Hf [Hi Hm Hs Hv Hh Hvs Hl] Hs' [Hid _ Ht Hvt Hsrc Hld] Hg. split; try done.
  - congruence.
  - unfold member. by rewrite Hid.
  - intros k Hk. by right.
  - intros T k [HT|(_ & -> & ->)]; [|done]. destruct (Hh T k HT) as [Hle Heq].
    split; [lia|]. intros ->. apply Hvt; [lia|]. apply Heq. lia.
  - intros j Hc Hj. destruct (Hsrc j Hc Hj) as [[-> Hself]|[(? & Heq & ?)|?]].
    + right. by rewrite Hi in *.
    + left. rewrite Heq. by apply Hvs.
    + left. by apply Hg.
  - intros Hr. destruct (Hld Hr) as [(? & ? & Hsub)|?]; [|done].
    eapply has_quorum_mono; [done|]. by apply Hl.
Qed.

Lemma node_inv_other H i i' s s' : i' ≠ i → node_inv H i' s → node_inv (record_vote H i s') i' s.
Proof.
  intros Hne [Hi Hm Hs Hv Hh Hvs Hl]. split; try done.
  - intros k Hk. left. by apply Hv.
  - intros T k [HT|(-> & _)]; [by apply Hh|done].
  - intros j Hc Hj. left. by apply Hvs.
Qed.

Lemma record_vote_once H i s s' granted : node_inv H i s → moves C granted s s' →
  (∀ j T a b, H j T a → H j T b → a = b) →
  ∀ j T a b, record_vote H i s' j T a → record_vote H i s' j T b → a = b.
Proof.
  intros Hn [_ _ Ht Hvt _ _] Hf.
  assert (Hnew : ∀ k, H i (current_term s') k → voted_for s' = Some k).
  { intros k Hk. destruct (nv_hist _ _ _ Hn _ _ Hk) as [Hle Heq]. apply Hvt; [lia|]. apply Heq. lia. }
  intros j T a b [Ha|(-> & -> & Ha)] [Hb|(Ej & ET & Hb)]; [by eapply Hf|..]; subst;
    repeat match goal with Hk : H _ _ _ |- _ => apply Hnew in Hk end; congruence.
Qed.

(** One node takes a step; its messages enter the network. *)
Lemma inv_node_step H c i s s' o granted run' :
  inv H c → nodes c !! i = Some s → vote_step C granted s s' o → (∀ j t, granted j t → H j t i) →
  inv (record_vote H i s') (mkCluster (<[i := s']> (nodes c)) run' (net c ++ packets i o)).
Proof.
  intros [Hn Hf Hnet] Hs Hstep Hg. pose proof (Hn i s Hs) as Hi.
  destruct (Hstep (nv_static _ _ _ Hi) (nv_member _ _ _ Hi)) as (Hs' & Hm & Ho).
  split; simpl.
  - intros i' s'' [[<- <-]|[Hne Hl]]%lookup_insert_Some; [by eapply node_inv_step|].
    apply node_inv_other; [done|]. by apply Hn.
  - by eapply record_vote_once.
  - apply Forall_app. split.
    + eapply Forall_impl; [done|]. intros p. apply packet_inv_mono, record_vote_mono.
    + apply packets_inv; [|done]. rewrite (mv_id _ _ _ _ Hm). apply Hi.
Qed.

Lemma inv_delete H c i : inv H c → inv H (mkCluster (delete i (nodes c)) (running c) (net c)).
Proof.
  intros [Hn Hf Hnet]. split; simpl; [|done..].
  intros i' s [_ Hl]%lookup_delete_Some. by apply Hn.
Qed.

Lemma inv_handle H now i e c c' : inv H c → bounded c → event_ok C e →
  (∀ j t, reports_vote e j t → H j t i) → handle now i e c = Some c' →
  ∃ H', (∀ j T k, H j T k → H' j T k) ∧ inv H' c'.
Proof.
  intros Hinv [Hb _] Hok Hrep. unfold handle. intros (s & Hs & Hc)%bind_Some.
  destruct (negb _); [done|].
  pose proof (run_event_vote_step C Hsimple now e s (Hb i s Hs) Hok) as Hstep. unfold holds_at, final, outs in Hstep.
  destruct (run_event now e s) as [[stop s'] o]. simpl in Hstep. injection Hc as <-.
  exists (record_vote H i s'). split; [intros; by apply record_vote_mono|].
  pose proof (inv_node_step H c i s s' o _ (running c) Hinv Hs Hstep Hrep) as Hnew.
  destruct stop; [|done]. apply (inv_delete _ _ i) in Hnew. simpl in Hnew.
  by rewrite delete_insert_eq in Hnew.
Qed.

Lemma inv_action H a c c' : inv H c → bounded c → apply_action a c = Some c' →
  ∃ H', (∀ j T k, H j T k → H' j T k) ∧ inv H' c'.
Proof.
  intros Hinv Hb. pose proof Hb as [Hbn Hbm]. destruct a as [now i|now i|now k|now i cmd]; simpl.
  - intros (s & Hs & Hc)%bind_Some. destruct (bool_decide _); [done|].
    pose proof (run_start_vote_step C Hsimple now s (λ _ _, False) (Hbn i s Hs)) as Hstep.
    unfold holds_at, final, outs in Hstep.
    destruct (run_start now s) as [[[] s'] o]. injection Hc as <-.
    exists (record_vote H i s'). split; [intros; by apply record_vote_mono|].
    by eapply inv_node_step.
  - by apply inv_handle.
  - intros (p & Hp & Hc)%bind_Some. eapply inv_handle in Hc; [done..| |].
    + rewrite Forall_lookup in Hbm. apply (Hbm k) in Hp as Hlt.
      pose proof (Forall_lookup_1 _ _ _ _ (inv_net _ _ Hinv) Hp) as [Hst Hpk].
      split_and!; [done|done|]. by destruct (pk_msg p).
    + intros j t. pose proof (Forall_lookup_1 _ _ _ _ (inv_net _ _ Hinv) Hp) as [_ Hpk].
      unfold reports_vote. destruct (pk_msg p); try done. intros (-> & -> & Hg & Hpre). by apply Hpk.
  - destruct (changes_membership cmd) eqn:Hcm; [done|]. apply inv_handle; [done..| |done].
    by destruct cmd.
Qed.

Lemma inv_steps H c c' : inv H c → rtc bounded_step c c' →
  ∃ H', (∀ j T k, H j T k → H' j T k) ∧ inv H' c'.
Proof.
  intros Hinv Hr. revert H Hinv. induction Hr as [c|c1 c2 c3 [Hb [a Ha]] _ IH]; intros H Hinv.
  - by exists H.
  - destruct (inv_action H a c1 c2 Hinv Hb Ha) as (H2 & Hsub & Hinv2).
    destruct (IH H2 Hinv2) as (H3 & Hsub3 & Hinv3). exists H3. auto.
Qed.

Lemma inv_initial c : initial C c → inv (λ _ _ _, False) c.
Proof.
  intros (Hnet & _ & Hn). split; [|done|by rewrite Hnet].
  intros i s Hs. destruct (Hn i s Hs) as (Hi & Hm & cfg & members & ld & sm & r & <- & ->).
  revert Hm. unfold spawn. destruct (gen_range _ _ _) as [t r']. simpl. intros Hm.
  split; try done; simpl. split; [done|constructor|done].
Qed.

(** Two leaders of one term, at any two times, are the same node. *)
Lemma inv_leaders H1 H2 c1 c2 T i j : inv H1 c1 → inv H2 c2 →
  (∀ j T k, H1 j T k → H2 j T k) → leads c1 T i → leads c2 T j → i = j.
Proof.
  intros I1 I2 Hsub (s1 & Hs1 & Hr1 & <-) (s2 & Hs2 & Hr2 & Ht).
  pose proof (inv_node _ _ I1 _ _ Hs1) as N1. pose proof (inv_node _ _ I2 _ _ Hs2) as N2.
  destruct (has_quorum_intersect C (votes_received s1) (votes_received s2)) as (x & _ & Hx1 & Hx2);
    [by apply N1|by apply N2|].
  apply (inv_once _ _ I2 x (current_term s1)).
  - apply Hsub. eapply nv_votes; [done|by right|done].
  - rewrite <- Ht. eapply nv_votes; [done|by right|done].
Qed.
End Invariant.
End Cluster.

(** C1: election safety.  In a cluster whose nodes start from [spawn] with one fixed
    non-joint configuration, whatever the order of ticks, commands and message
    deliveries (lost, duplicated, reordered), two nodes that lead in the same term,
    at the same time or at different times, are the same node. *)
Theorem election_safety {SM Rng : Type} `{!Kernel.StateMachine SM} `{!GenRange Rng} `{!MembershipJson}
    (C : MembershipConfig) (c0 c1 c2 : cluster (SM := SM) (Rng := Rng)) (T i j : N) :
  voters_outgoing C = None → initial C c0 →
  rtc bounded_step c0 c1 → rtc bounded_step c1 c2 →
  leads c1 T i → leads c2 T j → i = j.
Proof.
  intros Hsimple Hinit H1 H2. apply inv_initial in Hinit.
  destruct (inv_steps C Hsimple _ _ _ Hinit H1) as (h1 & _ & I1).
  destruct (inv_steps C Hsimple _ _ _ I1 H2) as (h2 & Hsub & I2).
  by apply (inv_leaders C h1 h2).
Qed.

Definition ex_cluster : cluster (SM := NoopStateMachine) (Rng := MinRng) :=
  mkCluster (list_to_map ((λ i, (i, ex_node 3 i)) <$> [1; 2; 3])) ∅ [].

(** Node 1 times out, collects a pre-vote and a vote of node 2, and leads term 1. *)
Definition ex_election : list action :=
  [Start 0 1; Start 0 2; Ticks 1 2; Ticks 2 2] ++
  [Ticks 1 1; Ticks 2 1; Ticks 3 1; Deliver 4 0; Deliver 5 2; Deliver 6 3; Deliver 7 5].

(** The new leader heartbeats and node 2 acknowledges. *)
Definition ex_followup : list action := [Deliver 8 6; Deliver 9 8; Ticks 10 1; Ticks 11 1].

Definition ex_run (l : list action) (c : cluster) : cluster := default c (run_actions l c).

Lemma ex_initial : initial (ex_membership 3) ex_cluster.
Proof.
  split_and!; [done..|]. intros i s Hs.
  apply elem_of_list_to_map_2, list_elem_of_fmap in Hs as (k & [= -> ->] & Hk).
  split_and!.
  - apply list_elem_of_In in Hk. destruct Hk as [<-|[<-|[<-|[]]]]; by apply (bool_decide_unpack _); vm_compute.
  - by vm_compute.
  - by eexists (ex_config k), (ex_members 3), 5000000, mkNoop, tt.
Qed.

Lemma election_safety_witness :
  let c1 := ex_run ex_election ex_cluster in
  let c2 := ex_run ex_followup c1 in
  leads c1 1 1 ∧ leads c2 1 1 ∧ ∀ j, leads c2 1 j → 1 = j.
Proof.
  intros c1 c2.
  assert (H1 : rtc bounded_step ex_cluster c1)
    by (apply (run_actions_steps ex_election); by vm_compute).
  assert (H2 : rtc bounded_step c1 c2) by (apply (run_actions_steps ex_followup); by vm_compute).
  assert (L1 : leads c1 1 1)
    by (exists (default (ex_node 3 1) (nodes c1 !! 1)); by split_and!; vm_compute).
  split_and!; [done| |].
  - exists (default (ex_node 3 1) (nodes c2 !! 1)). by split_and!; vm_compute.
  - intros j Hj. apply (election_safety (ex_membership 3) ex_cluster c1 c2 1 1 j); try done.
    apply ex_initial.
Defined.
