(* ===== verification/EtcdQuorum.v ===== *)
(** * Joint quorums and membership changes of cave-etcd

    [crates/compute/cave-etcd/src/raft_joint_quorum.rs], the committed index of a joint
    configuration, and [membership_v2.rs], the changes of configuration [ConfChangeV2] and the
    machine that applies them.

    An index is committed exactly when both configurations have a majority for it
    ([joint_committed_iff]); voters and learners stay apart; a change that does not enter a
    joint configuration moves at most one voter, so that majorities before and after it meet
    ([simple_change_overlaps]), which fails for the larger changes that leave the joint
    configuration at once ([auto_change_disjoint]); a difference applied to the configuration
    it was computed from gives the other one ([diff_patches]). *)

From S2P Require Import Prelude RaftMembership.

(** ** Committed indexes *)

Definition acked (match_idx : gmap u64 u64) (id : u64) : u64 := default 0 (match_idx !! id).

(** [b.cmp(a)]: the larger index first *)
Definition descending (a b : N) : Prop := b ≤ a.
#[export] Instance descending_dec : RelDecision descending := λ a b, N.le_dec b a.
#[export] Instance descending_total : Total descending.
Proof. intros a b. unfold descending. lia. Qed.
#[export] Instance descending_trans : Transitive descending.
Proof. intros a b c. unfold descending. lia. Qed.

Definition majority_committed_index (voters : list u64) (match_idx : gmap u64 u64) : u64 :=
  match voters with
  | [] => u64_max
  | _ :: _ =>
      let indices := merge_sort descending (acked match_idx <$> voters) in
      let quorum := vlen voters / 2 + 1 in
      default 0 (vget indices (quorum - 1))
  end.
Definition joint_committed_index (c_old c_new : list u64) (match_idx : gmap u64 u64) : u64 :=
  N.min (majority_committed_index c_old match_idx) (majority_committed_index c_new match_idx).

(** ** Changes of configuration *)

Inductive ConfChangeType : Set := AddNode | AddLearnerNode | RemoveNode | UpdateNode.
Inductive ConfChangeTransition : Set := Auto | Implicit | Explicit.
#[export] Instance ConfChangeTransition_eq_dec : EqDecision ConfChangeTransition.
Proof. solve_decision. Defined.
Record ConfChangeSingle : Set := mkConfChangeSingle { change_type : ConfChangeType; node_id : u64 }.
Record ConfChangeV2 : Type := mkConfChangeV2 {
  transition : ConfChangeTransition;
  changes : list ConfChangeSingle;
  cc_context : bytes
}.

Module ConfChangeV2.
Definition new (t : ConfChangeTransition) : ConfChangeV2 := mkConfChangeV2 t [] [].
Definition add (c : ConfChangeV2) (kind : ConfChangeType) (id : u64) : ConfChangeV2 :=
  mkConfChangeV2 (transition c) (changes c ++ [mkConfChangeSingle kind id]) (cc_context c).
Definition with_context (c : ConfChangeV2) (ctx : bytes) : ConfChangeV2 := mkConfChangeV2 (transition c) (changes c) ctx.
Definition voter_change (c : ConfChangeSingle) : bool :=
  match change_type c with AddNode | RemoveNode => true | _ => false end.
Definition enters_joint (c : ConfChangeV2) : bool :=
  (1 <? vlen (filter (λ x, voter_change x = true) (changes c))) || bool_decide (transition c = Explicit).
Definition leave_joint : ConfChangeV2 := new Auto.
Definition is_leave_joint (c : ConfChangeV2) : bool := match changes c with [] => true | _ => false end.
End ConfChangeV2.

Record MemberConfig : Type := mkMemberConfig {
  mc_voters : gset u64;
  mc_learners : gset u64;
  mc_outgoing : gset u64
}.

Module MemberConfig.
Definition new : MemberConfig := mkMemberConfig ∅ ∅ ∅.
Definition from_voters (ids : list u64) : MemberConfig := mkMemberConfig (list_to_set ids) ∅ ∅.
Definition voter_count (c : MemberConfig) : usize := N.of_nat (size (mc_voters c)).
Definition learner_count (c : MemberConfig) : usize := N.of_nat (size (mc_learners c)).
Definition is_joint (c : MemberConfig) : bool := bool_decide (mc_outgoing c ≠ ∅).
Definition quorum (c : MemberConfig) : usize := if is_joint c then voter_count c / 2 + 1 else voter_count c / 2 + 1.
Definition is_voter (c : MemberConfig) (id : u64) : bool := bool_decide (id ∈ mc_voters c).
Definition is_learner (c : MemberConfig) (id : u64) : bool := bool_decide (id ∈ mc_learners c).
Definition all_ids (c : MemberConfig) : gset u64 := mc_voters c ∪ mc_learners c ∪ mc_outgoing c.
End MemberConfig.

Inductive MembershipError : Set :=
| AlreadyVoter (id : u64)
| AlreadyMember (id : u64)
| UnknownMember (id : u64)
| NotInJoint
| NotALearner (id : u64)
| ClusterIdMismatch (expected got : u64)
| InvalidClusterId.

Module MembershipMachine.
(** One change of a batch *)
Definition apply_single (c : ConfChangeSingle) (s : MemberConfig) : result MembershipError unit * MemberConfig :=
  let id := node_id c in
  match change_type c with
  | AddNode =>
      if decide (id ∈ mc_voters s) then (Err (AlreadyVoter id), s)
      else (Ok tt, mkMemberConfig (mc_voters s ∪ {[id]}) (mc_learners s ∖ {[id]}) (mc_outgoing s))
  | AddLearnerNode =>
      if decide ((id ∈ mc_voters s) ∨ (id ∈ mc_learners s)) then (Err (AlreadyMember id), s)
      else (Ok tt, mkMemberConfig (mc_voters s) (mc_learners s ∪ {[id]}) (mc_outgoing s))
  | RemoveNode =>
      let s' := mkMemberConfig (mc_voters s ∖ {[id]}) (mc_learners s ∖ {[id]}) (mc_outgoing s) in
      if decide ((id ∉ mc_voters s) ∧ (id ∉ mc_learners s)) then (Err (UnknownMember id), s') else (Ok tt, s')
  | UpdateNode => (Ok tt, s)
  end.
(** The first error ends the batch, with the changes made so far in place. *)
Fixpoint apply_changes (cs : list ConfChangeSingle) (s : MemberConfig) : result MembershipError unit * MemberConfig :=
  match cs with
  | [] => (Ok tt, s)
  | c :: cs =>
      match apply_single c s with
      | (Ok _, s) => apply_changes cs s
      | (Err e, s) => (Err e, s)
      end
  end.
Definition set_outgoing (o : gset u64) (s : MemberConfig) : MemberConfig := mkMemberConfig (mc_voters s) (mc_learners s) o.
Definition apply (change : ConfChangeV2) (s : MemberConfig) : result MembershipError unit * MemberConfig :=
  if ConfChangeV2.is_leave_joint change then
    if MemberConfig.is_joint s then (Ok tt, set_outgoing ∅ s) else (Err NotInJoint, s)
  else
    let enters_joint := ConfChangeV2.enters_joint change in
    let outgoing := mc_voters s in
    match apply_changes (changes change) s with
    | (Err e, s) => (Err e, s)
    | (Ok _, s) =>
        if enters_joint then
          let s := set_outgoing outgoing s in
          (Ok tt, if decide (transition change = Explicit) then s else set_outgoing ∅ s)
        else (Ok tt, s)
    end.
Definition promote_learner (id : u64) (s : MemberConfig) : result MembershipError unit * MemberConfig :=
  if decide (id ∈ mc_learners s) then
    (Ok tt, mkMemberConfig (mc_voters s ∪ {[id]}) (mc_learners s ∖ {[id]}) (mc_outgoing s))
  else (Err (if decide (id ∈ mc_voters s) then AlreadyVoter id else NotALearner id), s).
End MembershipMachine.

Definition validate_cluster_id (local remote : u64) : result MembershipError unit :=
  if local =? 0 then Err InvalidClusterId
  else if negb (local =? remote) then Err (ClusterIdMismatch local remote)
  else Ok tt.

Record MemberDiff : Type := mkMemberDiff {
  voters_added : gset u64;
  voters_removed : gset u64;
  learners_added : gset u64;
  learners_removed : gset u64;
  md_promoted : gset u64
}.
Definition diff_configs (before after : MemberConfig) : MemberDiff :=
  let promoted := mc_learners before ∩ mc_voters after in
  mkMemberDiff ((mc_voters after ∖ mc_voters before) ∖ promoted) (mc_voters before ∖ mc_voters after)
    (mc_learners after ∖ mc_learners before) (mc_learners before ∖ mc_learners after) promoted.

Definition cluster_id_from_token (s : bytes) : u64 :=
  foldl (λ h b, u64_mul h 1099511628211 +w b) 14695981039346656037 s.

(** ** An index is committed when both configurations have a majority for it *)

Lemma descending_nth (l : list N) i c n : StronglySorted descending l → l !! i = Some c →
  n ≤ c ↔ (i < length (filter (λ x, n ≤ x)%N l))%nat.
Proof.
  intros Hs. revert i. induction Hs as [|x l Hs IH Hf]; intros i Hi; [done|]. rewrite filter_cons. destruct i as [|i]; simpl in Hi.
  - injection Hi as ->. case_decide; [simpl; lia|]. split; [done|]. rewrite filter_none; [simpl; lia|].
    eapply Forall_impl; [exact Hf|]. unfold descending. intros; lia.
  - rewrite (IH _ Hi). case_decide as Hx; [simpl; lia|]. rewrite filter_none; [simpl; lia|].
    eapply Forall_impl; [exact Hf|]. unfold descending. intros; lia.
Qed.

(** The voters that acknowledged index [n] *)
Definition acks (voters : list u64) (match_idx : gmap u64 u64) (n : u64) : list u64 :=
  filter (λ id, n ≤ acked match_idx id) voters.

Lemma majority_committed_iff voters match_idx n : n ≤ u64_max →
  n ≤ majority_committed_index voters match_idx ↔ voters = [] ∨ vlen voters < 2 * vlen (acks voters match_idx n).
Proof.
  intros Hn. destruct voters as [|v vs] eqn:Ev; [split; [by left|done]|]. unfold majority_committed_index. rewrite <- Ev.
  set (l := merge_sort descending (acked match_idx <$> voters)).
  assert (Hp : l ≡ₚ acked match_idx <$> voters) by apply merge_sort_Permutation.
  assert (Hlen : length l = length voters) by (by rewrite Hp, length_fmap).
  assert (Hc : length (filter (λ x, n ≤ x)%N l) = length (acks voters match_idx n)).
  { rewrite Hp. unfold acks. clear. induction voters as [|x vs IH]; [done|]. rewrite fmap_cons, !filter_cons. case_decide; simpl; [by f_equal|done]. }
  assert (Hpos : (0 < length voters)%nat) by (rewrite Ev; simpl; lia).
  assert (Hd : ∃ d r, vlen voters = 2 * d + r ∧ r < 2 ∧ vlen voters / 2 = d).
  { exists (vlen voters / 2), (vlen voters mod 2). pose proof (N.div_mod (vlen voters) 2 ltac:(lia)). pose proof (N.mod_lt (vlen voters) 2 ltac:(lia)). lia. }
  destruct Hd as (d & r & Hv & Hr & ->). rewrite vget_lookup. unfold vlen in *.
  destruct (lookup_lt_is_Some_2 l (N.to_nat (d + 1 - 1))) as [c Hlk]; [lia|]. rewrite Hlk. simpl.
  rewrite (descending_nth l _ c n (StronglySorted_merge_sort _ _) Hlk), Hc. split; [right; lia|]. intros [->|H]; [done|lia].
Qed.

(** Joint commitment.  An index counts as committed in a joint configuration exactly when
    a strict majority of the outgoing voters and a strict majority of the incoming voters have
    acknowledged it; an empty configuration asks for nothing. *)
Theorem joint_committed_iff c_old c_new match_idx n :
  n ≤ u64_max →
  n ≤ joint_committed_index c_old c_new match_idx ↔
  (c_old = [] ∨ vlen c_old < 2 * vlen (acks c_old match_idx n)) ∧
  (c_new = [] ∨ vlen c_new < 2 * vlen (acks c_new match_idx n)).
Proof. intros Hn. unfold joint_committed_index. rewrite <- !majority_committed_iff by done. lia. Qed.
Lemma joint_committed_iff_witness :
  let m : gmap u64 u64 := <[1 := 30]> (<[2 := 20]> (<[3 := 10]> {[4 := 25]})) in
  20 ≤ joint_committed_index [1; 2; 3] [2; 4] m ∧ ¬ 21 ≤ joint_committed_index [1; 2; 3] [2; 4] m.
Proof.
  intros m. split.
  - apply (joint_committed_iff [1; 2; 3] [2; 4] m 20); [vm_compute; discriminate|]. split; right; vm_compute; reflexivity.
  - rewrite (joint_committed_iff [1; 2; 3] [2; 4] m 21) by (vm_compute; discriminate). intros [[H|H] _]; vm_compute in H; discriminate H.
Defined.

(** ** Voters and learners stay apart *)

Definition disjoint_roles (s : MemberConfig) : Prop := mc_voters s ∩ mc_learners s = ∅.

Lemma apply_single_disjoint c s : disjoint_roles s → disjoint_roles (MembershipMachine.apply_single c s).2.
Proof.
  unfold disjoint_roles, MembershipMachine.apply_single. intros H. destruct (change_type c); [| | |done]; case_decide; simpl; set_solver.
Qed.
Lemma apply_changes_disjoint cs s : disjoint_roles s → disjoint_roles (MembershipMachine.apply_changes cs s).2.
Proof.
  revert s. induction cs as [|c cs IH]; intros s H; [done|]. simpl. apply (apply_single_disjoint c) in H.
  destruct (MembershipMachine.apply_single c s) as [[]]; [by apply IH|done].
Qed.

(** No node is both a voter and a learner, after any batch of changes, failed ones
    included, and any promotion. *)
Theorem roles_disjoint s :
  disjoint_roles s →
  (∀ change, disjoint_roles (MembershipMachine.apply change s).2) ∧
  (∀ id, disjoint_roles (MembershipMachine.promote_learner id s).2).
Proof.
  intros H. split; [intros change|intros id].
  - unfold MembershipMachine.apply. destruct (ConfChangeV2.is_leave_joint change); [by destruct (MemberConfig.is_joint s)|].
    apply (apply_changes_disjoint (changes change)) in H. destruct (MembershipMachine.apply_changes _ s) as [[] s']; [|done].
    destruct (ConfChangeV2.enters_joint change); [|done]. simpl. by case_decide.
  - unfold MembershipMachine.promote_learner, disjoint_roles in *. case_decide; simpl; set_solver.
Qed.
Lemma roles_disjoint_witness :
  disjoint_roles (MembershipMachine.apply (ConfChangeV2.add (ConfChangeV2.new Auto) AddNode 4) (mkMemberConfig {[1; 2; 3]} {[4]} ∅)).2.
Proof. apply (roles_disjoint (mkMemberConfig {[1; 2; 3]} {[4]} ∅)). refine (proj1 (bool_decide_eq_true _) _). vm_compute. reflexivity. Defined.

(** ** Simple changes keep majorities overlapping *)

Definition moved (v v' : gset u64) : gset u64 := (v ∖ v') ∪ (v' ∖ v).
Definition voter_ids (cs : list ConfChangeSingle) : list u64 := node_id <$> filter (λ c, ConfChangeV2.voter_change c = true) cs.

Lemma moved_refl v : size (moved v v) = 0%nat.
Proof. apply size_empty_iff. unfold moved. set_solver. Qed.
Lemma apply_single_moves c s s' : MembershipMachine.apply_single c s = (Ok tt, s') →
  moved (mc_voters s) (mc_voters s') ⊆ list_to_set (voter_ids [c]).
Proof.
  unfold MembershipMachine.apply_single, voter_ids, moved. rewrite filter_cons. unfold ConfChangeV2.voter_change.
  destruct (change_type c); simpl; repeat case_decide; intros; simplify_eq/=;
    intros x; destruct (decide (x = node_id c)); set_solver.
Qed.
Lemma apply_changes_moves cs s s' : MembershipMachine.apply_changes cs s = (Ok tt, s') →
  moved (mc_voters s) (mc_voters s') ⊆ list_to_set (voter_ids cs).
Proof.
  revert s. induction cs as [|c cs IH]; intros s; simpl; [intros [= ->]; unfold moved; set_solver|].
  destruct (MembershipMachine.apply_single c s) as [[[]|e] s1] eqn:E1; [|done]. intros H.
  apply apply_single_moves in E1. apply IH in H. unfold voter_ids, moved in *. rewrite filter_cons in *.
  intros x Hx. destruct (decide (x ∈ mc_voters s1)); case_decide; simpl in *; set_solver.
Qed.

Lemma size_list_to_set_le (l : list N) : (size (list_to_set l : gset N) ≤ length l)%nat.
Proof.
  induction l as [|x l IH]; simpl; [done|].
  rewrite size_union_alt. pose proof (subseteq_size (list_to_set l ∖ {[x]}) (list_to_set l : gset N) ltac:(set_solver)). rewrite size_singleton. lia.
Qed.
(** Majorities of sets that differ in at most one element meet. *)
Lemma majority_overlap (a b v1 v2 : gset N) : (size (moved a b) ≤ 1)%nat →
  majority a v1 → majority b v2 → ∃ x, x ∈ v1 ∧ x ∈ v2.
Proof.
  unfold majority, moved. intros Hm H1 H2. rewrite size_union in Hm by set_solver.
  assert (Ha : size a = (size (a ∖ b) + size (a ∩ b))%nat) by (rewrite <- size_union by set_solver; f_equal; apply set_eq; intros x; destruct (decide (x ∈ b)); set_solver).
  assert (Hb : size b = (size (b ∖ a) + size (a ∩ b))%nat) by (rewrite <- size_union by set_solver; f_equal; apply set_eq; intros x; destruct (decide (x ∈ a)); set_solver).
  destruct (set_choose_or_empty ((a ∩ v1) ∩ (b ∩ v2))) as [[x Hx]|Hemp]; [exists x; set_solver|].
  assert (Hu : size ((a ∩ v1) ∪ (b ∩ v2)) = (size (a ∩ v1) + size (b ∩ v2))%nat) by (apply size_union; set_solver).
  assert (Hs : (size ((a ∩ v1) ∪ (b ∩ v2)) ≤ size (a ∪ b))%nat) by (apply subseteq_size; set_solver).
  assert (Hab : size (a ∪ b) = (size (a ∖ b) + size (a ∩ b) + size (b ∖ a))%nat).
  { rewrite <- !size_union by set_solver. f_equal. apply set_eq. intros x. destruct (decide (x ∈ a)), (decide (x ∈ b)); set_solver. }
  lia.
Qed.

(** Simple changes are safe.  When a batch that does not enter a joint configuration is
    applied, every majority of the voters before it shares a node with every majority of the
    voters after it. *)
Theorem simple_change_overlaps change s s' v1 v2 :
  ConfChangeV2.enters_joint change = false → MembershipMachine.apply change s = (Ok tt, s') →
  majority (mc_voters s) v1 → majority (mc_voters s') v2 → ∃ x, x ∈ v1 ∧ x ∈ v2.
Proof.
  intros He Ha H1 H2. apply (majority_overlap (mc_voters s) (mc_voters s')); [|done|done]. unfold MembershipMachine.apply in Ha.
  destruct (ConfChangeV2.is_leave_joint change); [destruct (MemberConfig.is_joint s); simplify_eq/=; rewrite moved_refl; lia|].
  rewrite He in Ha. destruct (MembershipMachine.apply_changes _ s) as [[[]|] s1] eqn:E; [|done]. injection Ha as <-.
  apply apply_changes_moves, subseteq_size in E. unfold ConfChangeV2.enters_joint in He. apply orb_false_iff in He as [He%N.ltb_ge _].
  unfold voter_ids, vlen in *. etrans; [exact E|]. etrans; [apply size_list_to_set_le|]. rewrite length_fmap. lia.
Qed.
Lemma simple_change_overlaps_witness :
  let s := mkMemberConfig {[1; 2; 3]} {[4]} ∅ in
  let change := ConfChangeV2.add (ConfChangeV2.new Auto) AddNode 4 in
  ∃ x, x ∈ ({[1; 2]} : gset N) ∧ x ∈ ({[2; 3; 4]} : gset N).
Proof.
  intros s change. apply (simple_change_overlaps change s (MembershipMachine.apply change s).2); vm_compute; try reflexivity; lia.
Defined.

(** A batch with two voters, [Auto]: a joint configuration is entered and left within one
    call.  A majority before it and a majority after it need not meet. *)
Lemma auto_change_disjoint :
  let s := MemberConfig.from_voters [1; 2; 3] in
  let change := ConfChangeV2.add (ConfChangeV2.add (ConfChangeV2.new Auto) AddNode 4) AddNode 5 in
  let s' := (MembershipMachine.apply change s).2 in
  MemberConfig.is_joint s' = false ∧ majority (mc_voters s) {[1; 2]} ∧ majority (mc_voters s') {[3; 4; 5]}.
Proof. split_and!; vm_compute; try reflexivity; lia. Qed.
(** A batch that fails leaves its first changes in place. *)
Lemma failed_batch_half_applied :
  let s := MemberConfig.from_voters [1; 2; 3] in
  let change := ConfChangeV2.add (ConfChangeV2.add (ConfChangeV2.new Auto) RemoveNode 3) RemoveNode 9 in
  let '(r, s') := MembershipMachine.apply change s in r = Err (UnknownMember 9) ∧ MemberConfig.is_voter s' 3 = false.
Proof. split; vm_compute; reflexivity. Qed.

(** ** Differences *)

Definition patch (d : MemberDiff) (c : MemberConfig) : MemberConfig :=
  mkMemberConfig ((mc_voters c ∖ voters_removed d) ∪ voters_added d ∪ md_promoted d)
    ((mc_learners c ∖ learners_removed d) ∪ learners_added d) (mc_outgoing c).

(** Differences are complete.  The difference of two configurations, applied to the first,
    gives the voters and the learners of the second. *)
Theorem diff_patches before after :
  let c := patch (diff_configs before after) before in
  mc_voters c = mc_voters after ∧ mc_learners c = mc_learners after.
Proof.
  simpl. split; apply set_eq; intros x.
  - destruct (decide (x ∈ mc_voters before)), (decide (x ∈ mc_voters after)), (decide (x ∈ mc_learners before)); set_solver.
  - destruct (decide (x ∈ mc_learners before)), (decide (x ∈ mc_learners after)); set_solver.
Qed.
