(* ===== verification/EtcdTypes.v ===== *)
(** * Data of the etcd-compatible store

    [crates/compute/cave-etcd/src/models.rs] and [error.rs]: key-value pairs, requests and
    responses, leases, watch events, users and roles, members, snapshot chunks, errors.
    [i64] values are integers, with the wrapping operations written out; a [DateTime<Utc>] is
    a count of nanoseconds since the epoch. *)

From S2P Require Import Prelude Bytes.

(** ** Signed integers and time *)

(** [x as i64] for an unsigned [x] *)
Definition as_i64 (n : N) : Z := wrap_i64 (Z.of_N n).

(** [TimeDelta::num_seconds] of the difference of two instants *)
Definition num_seconds_since (now t : Z) : Z := Z.quot (now - t) 1000000000.
(** [DateTime::timestamp_millis] *)
Definition timestamp_millis (t : Z) : Z := (t / 1000000)%Z.

(** ** Key-value pairs and their requests *)

Record KeyValue : Type := mkKeyValue {
  kv_key : bytes;
  kv_value : bytes;
  kv_create_revision : u64;
  kv_mod_revision : u64;
  kv_version : u64;
  kv_lease : option Z
}.
#[export] Instance KeyValue_eq_dec : EqDecision KeyValue.
Proof. solve_decision. Defined.

Definition key_str (kv : KeyValue) : bytes := from_utf8_lossy (kv_key kv).
Definition value_str (kv : KeyValue) : bytes := from_utf8_lossy (kv_value kv).
(** [kv.value.clear()] *)
Definition clear_value (kv : KeyValue) : KeyValue :=
  mkKeyValue (kv_key kv) [] (kv_create_revision kv) (kv_mod_revision kv) (kv_version kv) (kv_lease kv).

Record ResponseHeader : Type := mkHeader {
  cluster_id : u64;
  member_id : u64;
  h_revision : u64;
  raft_term : u64
}.
#[export] Instance ResponseHeader_eq_dec : EqDecision ResponseHeader.
Proof. solve_decision. Defined.

Record RangeRequest : Type := mkRangeRequest {
  rq_key : bytes;
  rq_range_end : option bytes;
  rq_limit : option u64;
  rq_revision : option u64;
  rq_keys_only : bool;
  rq_count_only : bool
}.

Record RangeResponse : Type := mkRangeResponse {
  rs_header : ResponseHeader;
  rs_kvs : list KeyValue;
  rs_count : u64;
  rs_more : bool
}.

Record PutRequest : Type := mkPutRequest {
  pq_key : bytes;
  pq_value : bytes;
  pq_lease : option Z;
  pq_prev_kv : bool
}.

Record PutResponse : Type := mkPutResponse {
  ps_header : ResponseHeader;
  ps_prev_kv : option KeyValue
}.

Record DeleteRangeRequest : Type := mkDeleteRangeRequest {
  dq_key : bytes;
  dq_range_end : option bytes;
  dq_prev_kv : bool
}.

Record DeleteRangeResponse : Type := mkDeleteRangeResponse {
  ds_header : ResponseHeader;
  ds_deleted : u64;
  ds_prev_kvs : list KeyValue
}.

Inductive CompareTarget : Set := TVersion | TCreate | TMod | TValue.
Inductive CompareResult : Set := CEqual | CGreater | CLess | CNotEqual.

Record Compare : Type := mkCompare {
  c_key : bytes;
  c_target : CompareTarget;
  c_result : CompareResult;
  c_value : option bytes;
  c_version : option u64;
  c_mod_revision : option u64
}.

Inductive RequestOp : Type :=
| OpRange (r : RangeRequest)
| OpPut (p : PutRequest)
| OpDeleteRange (d : DeleteRangeRequest).

Record TxnRequest : Type := mkTxnRequest {
  t_compare : list Compare;
  t_success : list RequestOp;
  t_failure : list RequestOp
}.

Record TxnResponse : Type := mkTxnResponse {
  ts_header : ResponseHeader;
  ts_succeeded : bool
}.

(** ** Leases *)

Record LeaseGrantRequest : Type := mkLeaseGrantRequest { lq_ttl : Z; lq_id : option Z }.
Record LeaseGrantResponse : Type := mkLeaseGrantResponse {
  ls_header : ResponseHeader;
  ls_id : Z;
  ls_ttl : Z
}.

Record Lease : Type := mkLease {
  l_id : Z;
  l_ttl : Z;
  l_granted_at : Z;
  l_keys : list bytes
}.
#[export] Instance Lease_eq_dec : EqDecision Lease.
Proof. solve_decision. Defined.

Record LeaseKeepAliveResponse : Type := mkLeaseKeepAliveResponse {
  lk_header : ResponseHeader;
  lk_id : Z;
  lk_ttl : Z
}.

Record LeaseTTLResponse : Type := mkLeaseTTLResponse {
  lt_header : ResponseHeader;
  lt_id : Z;
  lt_ttl : Z;
  lt_granted_ttl : Z;
  lt_keys : list bytes
}.

Record LeaseLeasesResponse : Type := mkLeaseLeasesResponse {
  ll_header : ResponseHeader;
  ll_leases : list Z
}.

(** ** Watches *)

Inductive EventType : Set := EPut | EDelete.
#[export] Instance EventType_eq_dec : EqDecision EventType.
Proof. solve_decision. Defined.

Record WatchEvent : Type := mkWatchEvent {
  ev_type : EventType;
  ev_kv : KeyValue;
  ev_prev_kv : option KeyValue
}.
#[export] Instance WatchEvent_eq_dec : EqDecision WatchEvent.
Proof. solve_decision. Defined.

Record WatchCreateRequest : Type := mkWatchCreateRequest {
  wq_key : bytes;
  wq_range_end : option bytes;
  wq_start_revision : option u64;
  wq_progress_notify : bool;
  wq_prev_kv : bool
}.

Record WatchResponse : Type := mkWatchResponse {
  ws_header : ResponseHeader;
  ws_watch_id : Z;
  ws_created : bool;
  ws_events : list WatchEvent
}.

Record WatchConfig : Type := mkWatchConfig {
  w_watch_id : Z;
  w_key : bytes;
  w_range_end : option bytes;
  w_start_revision : option u64;
  w_prev_kv : bool
}.

Record WatchProgressEvent : Type := mkWatchProgressEvent {
  wp_header : ResponseHeader;
  wp_watch_id : Z
}.

(** ** Users, roles, alarms *)

Inductive PermType : Set := PRead | PWrite | PReadwrite.
#[export] Instance PermType_eq_dec : EqDecision PermType.
Proof. solve_decision. Defined.

Record Permission : Type := mkPermission {
  p_type : PermType;
  p_key : bytes;
  p_range_end : option bytes
}.
#[export] Instance Permission_eq_dec : EqDecision Permission.
Proof. solve_decision. Defined.

Record AuthUser : Type := mkAuthUser {
  u_name : bytes;
  u_password : bytes;
  u_roles : list bytes
}.

Record AuthRole : Type := mkAuthRole {
  r_name : bytes;
  r_key_permission : list Permission
}.

Inductive AlarmType : Set := ANone | ANospace | ACorrupt.
#[export] Instance AlarmType_eq_dec : EqDecision AlarmType.
Proof. solve_decision. Defined.
Inductive AlarmAction : Set := AGet | AActivate | ADeactivate.

Record AlarmMember : Type := mkAlarmMember { am_member_id : u64; am_alarm : AlarmType }.
#[export] Instance AlarmMember_eq_dec : EqDecision AlarmMember.
Proof. solve_decision. Defined.

Record AlarmRequest : Type := mkAlarmRequest {
  aq_action : AlarmAction;
  aq_member_id : u64;
  aq_alarm : AlarmType
}.

Record AlarmResponse : Type := mkAlarmResponse {
  as_header : ResponseHeader;
  as_alarms : list AlarmMember
}.

Record HashResponse : Type := mkHashResponse {
  hs_header : ResponseHeader;
  hs_hash : N;
  hs_compact_revision : u64;
  hs_hash_revision : u64
}.

(** ** Members *)

Record Member : Type := mkMember {
  m_id : u64;
  m_name : bytes;
  m_peer_urls : list bytes;
  m_client_urls : list bytes;
  m_is_learner : bool
}.
#[export] Instance Member_eq_dec : EqDecision Member.
Proof. solve_decision. Defined.

Record MemberAddRequest : Type := mkMemberAddRequest {
  ma_peer_urls : list bytes;
  ma_is_learner : bool
}.

(** Responses of the member operations: the header and the member list. *)
Record MembersResponse : Type := mkMembersResponse {
  mr_header : ResponseHeader;
  mr_members : list Member
}.

Record MemberAddResponse : Type := mkMemberAddResponse {
  mar_header : ResponseHeader;
  mar_member : Member;
  mar_members : list Member
}.

Record JointConfig : Type := mkJointConfig {
  j_outgoing : list u64;
  j_incoming : list u64;
  j_learners : list u64
}.
#[export] Instance JointConfig_eq_dec : EqDecision JointConfig.
Proof. solve_decision. Defined.

Record EnterJointRequest : Type := mkEnterJointRequest {
  ej_adds : list MemberAddRequest;
  ej_removes : list u64
}.

Record EnterJointResponse : Type := mkEnterJointResponse {
  ejr_header : ResponseHeader;
  ejr_joint : JointConfig;
  ejr_members : list Member
}.

(** ** Snapshots, raft, maintenance *)

Record SnapshotChunk : Type := mkSnapshotChunk {
  sc_header : ResponseHeader;
  sc_remaining_bytes : u64;
  sc_blob : bytes;
  sc_checksum : bytes
}.

Record SnapshotMeta : Type := mkSnapshotMeta {
  sm_revision : u64;
  sm_compact_revision : u64;
  sm_size_bytes : u64;
  sm_checksum : bytes;
  sm_member_count : usize;
  sm_lease_count : usize
}.

Record SnapshotSenderState : Type := mkSenderState {
  ss_revision : u64;
  ss_total_bytes : u64;
  ss_sent_bytes : u64;
  ss_checksum : bytes;
  ss_chunks_sent : u64;
  ss_completed : bool
}.

Inductive RaftRole : Set := RLeader | RFollower | RCandidate | RPreCandidate | RLearner.
#[export] Instance RaftRole_eq_dec : EqDecision RaftRole.
Proof. solve_decision. Defined.

Record PreVoteResult : Type := mkPreVoteResult {
  pv_granted : bool;
  pv_term : u64;
  pv_reason : bytes
}.

Record ReadIndexResult : Type := mkReadIndexResult {
  ri_read_index : u64;
  ri_applied_index : u64;
  ri_via_leader_lease : bool
}.

Record LearnerReadiness : Type := mkLearnerReadiness {
  lr_member_id : u64;
  lr_leader_index : u64;
  lr_learner_index : u64;
  lr_ready_lag : u64;
  lr_ready : bool
}.

Record DefragmentStatus : Type := mkDefragmentStatus {
  df_bytes_before : u64;
  df_bytes_after : u64;
  df_bytes_freed : u64;
  df_fragmented_pages : u64
}.

(** ** Errors *)

Inductive EtcdError : Type :=
| KeyNotFound (k : bytes)
| RevisionCompacted (requested compacted : u64)
| LeaseNotFound (id : Z)
| LeaseExpired (id : Z)
| CompareFailed (k : bytes)
| WatchCancelled (m : bytes)
| Internal (m : bytes)
| AuthNotEnabled
| AuthAlreadyEnabled
| UserAlreadyExists (n : bytes)
| UserNotFound (n : bytes)
| RoleAlreadyExists (n : bytes)
| RoleNotFound (n : bytes)
| InvalidPassword
| PermissionDenied
| MemberNotFound (id : u64)
| InvalidToken
| PermissionAlreadyGranted
| RoleNotGranted
| TooManyTxnOps (ops max : usize)
| MemberNotLearner (id : u64)
| LearnerNotReady (id : u64)
| JointConfigInProgress
| NoJointConfig
| WouldBreakQuorum
| InvalidLeaseTtl (ttl : Z)
| LeaseAlreadyExists (id : Z)
| CompactionFutureRevision (requested current : u64)
| SnapshotChecksumMismatch (expected actual : bytes)
| SnapshotDecode (m : bytes)
| WatchNotFound (id : Z)
| NotLeader (term : u64) (leader : option u64)
| LeaderLeaseExpired (granted_at : Z) (ttl_ms : u64)
| ReadIndexTimeout (index applied : u64)
| QuorumLost (required healthy : usize)
| PreVoteRejected (m : bytes).

Abbreviation EtcdResult := (result EtcdError).

(** The ordering by key that [sort_by(|a, b| a.key.cmp(&b.key))] uses. *)
Definition kv_le (a b : KeyValue) : Prop := bytes_le (kv_key a) (kv_key b).
#[export] Instance kv_le_dec a b : Decision (kv_le a b).
Proof. unfold kv_le. apply _. Defined.
#[export] Instance kv_le_trans : Transitive kv_le.
Proof. intros a b c. unfold kv_le. apply bytes_le_trans. Qed.
#[export] Instance kv_le_total : Total kv_le.
Proof. intros a b. unfold kv_le. apply bytes_le_total. Qed.
