(* ===== verification/EtcdStore.v ===== *)
(** * The key-value store

    [crates/compute/cave-etcd/src/store.rs]: the state of [KvStore] and its key-value,
    transaction, watch, lease and compaction methods.  A method is a computation of the
    monad of [Effects.v]; its effects are the events handed to the broadcast channel and to
    the inboxes of the watches.  A method runs without interference from other threads,
    except that [txn] is given by its two halves, which a [put] of another thread can
    separate.

    [DashMap]s are finite maps and are iterated in the order of [map_to_list]; the two
    fields without content, the sender of the broadcast channel and the transaction lock,
    have no counterpart, and [channels] counts the channels created so far, so that each
    has a name of its own.  [now] is the reading of [Utc::now]. *)

From S2P Require Import Prelude Bytes Effects EtcdTypes.

Definition MAX_LEASE_TTL_SECS : Z := 9000.
Definition MAX_TXN_OPS : usize := 128.
Definition DEFAULT_LEADER_LEASE_TTL_MS : u64 := 5000.

(** [mpsc::UnboundedSender]: sending fails once the receiver is gone. *)
Record Sender : Type := mkSender { tx_chan : N; tx_open : bool }.

Record KvStore : Type := mkKvStore {
  current : gmap bytes KeyValue;
  history : gmap N (bytes * EventType * KeyValue);
  key_index : gmap bytes (list u64);
  revision : u64;
  watch_configs : gmap Z WatchConfig;
  watch_inboxes : gmap Z Sender;
  leases : gmap Z Lease;
  lease_counter : u64;
  compacted_revision : u64;
  auth_enabled : bool;
  users : gmap bytes AuthUser;
  roles : gmap bytes AuthRole;
  auth_tokens : gmap bytes bytes;
  alarms : list AlarmMember;
  members : list Member;
  joint : option JointConfig;
  watch_counter : u64;
  role : RaftRole;
  term : u64;
  applied_index : u64;
  commit_index : u64;
  match_index : gmap N N;
  leader_lease_granted_at : Z;
  leader_lease_ttl_ms : u64;
  member_health : gmap N Z;
  learner_index : gmap N N;
  snapshot_senders : gmap bytes SnapshotSenderState;
  snapshot_blobs : gmap bytes bytes;
  auto_leave_joint_at_index : u64;
  defrag_history : list DefragmentStatus;
  compaction_watermark : u64;
  bg_cancel : bool;
  channels : N
}.

Definition store_eta (s : KvStore) : KvStore :=
  mkKvStore (current s) (history s) (key_index s) (revision s) (watch_configs s) (watch_inboxes s)
    (leases s) (lease_counter s) (compacted_revision s) (auth_enabled s) (users s)
    (roles s) (auth_tokens s) (alarms s) (members s) (joint s) (watch_counter s) (role s)
    (term s) (applied_index s) (commit_index s) (match_index s)
    (leader_lease_granted_at s) (leader_lease_ttl_ms s) (member_health s)
    (learner_index s) (snapshot_senders s) (snapshot_blobs s)
    (auto_leave_joint_at_index s) (defrag_history s) (compaction_watermark s)
    (bg_cancel s) (channels s).

Ltac store_update s f v :=
  let t := eval cbv beta delta [store_eta] in (store_eta s) in
  match eval pattern (f s) in t with
  | ?g _ => let r := eval cbv beta in (g v) in exact r
  end.

Definition set_current v (s : KvStore) : KvStore := ltac:(store_update s current v).
Definition set_history v (s : KvStore) : KvStore := ltac:(store_update s history v).
Definition set_key_index v (s : KvStore) : KvStore := ltac:(store_update s key_index v).
Definition set_revision v (s : KvStore) : KvStore := ltac:(store_update s revision v).
Definition set_watch_configs v (s : KvStore) : KvStore := ltac:(store_update s watch_configs v).
Definition set_watch_inboxes v (s : KvStore) : KvStore := ltac:(store_update s watch_inboxes v).
Definition set_leases v (s : KvStore) : KvStore := ltac:(store_update s leases v).
Definition set_lease_counter v (s : KvStore) : KvStore := ltac:(store_update s lease_counter v).
Definition set_compacted_revision v (s : KvStore) : KvStore := ltac:(store_update s compacted_revision v).
Definition set_auth_enabled v (s : KvStore) : KvStore := ltac:(store_update s auth_enabled v).
Definition set_users v (s : KvStore) : KvStore := ltac:(store_update s users v).
Definition set_roles v (s : KvStore) : KvStore := ltac:(store_update s roles v).
Definition set_auth_tokens v (s : KvStore) : KvStore := ltac:(store_update s auth_tokens v).
Definition set_alarms v (s : KvStore) : KvStore := ltac:(store_update s alarms v).
Definition set_members v (s : KvStore) : KvStore := ltac:(store_update s members v).
Definition set_joint v (s : KvStore) : KvStore := ltac:(store_update s joint v).
Definition set_watch_counter v (s : KvStore) : KvStore := ltac:(store_update s watch_counter v).
Definition set_role v (s : KvStore) : KvStore := ltac:(store_update s role v).
Definition set_term v (s : KvStore) : KvStore := ltac:(store_update s term v).
Definition set_applied_index v (s : KvStore) : KvStore := ltac:(store_update s applied_index v).
Definition set_commit_index v (s : KvStore) : KvStore := ltac:(store_update s commit_index v).
Definition set_match_index v (s : KvStore) : KvStore := ltac:(store_update s match_index v).
Definition set_leader_lease_granted_at v (s : KvStore) : KvStore := ltac:(store_update s leader_lease_granted_at v).
Definition set_leader_lease_ttl_ms v (s : KvStore) : KvStore := ltac:(store_update s leader_lease_ttl_ms v).
Definition set_member_health v (s : KvStore) : KvStore := ltac:(store_update s member_health v).
Definition set_learner_index v (s : KvStore) : KvStore := ltac:(store_update s learner_index v).
Definition set_snapshot_senders v (s : KvStore) : KvStore := ltac:(store_update s snapshot_senders v).
Definition set_snapshot_blobs v (s : KvStore) : KvStore := ltac:(store_update s snapshot_blobs v).
Definition set_auto_leave_joint_at_index v (s : KvStore) : KvStore := ltac:(store_update s auto_leave_joint_at_index v).
Definition set_defrag_history v (s : KvStore) : KvStore := ltac:(store_update s defrag_history v).
Definition set_compaction_watermark v (s : KvStore) : KvStore := ltac:(store_update s compaction_watermark v).
Definition set_bg_cancel v (s : KvStore) : KvStore := ltac:(store_update s bg_cancel v).
Definition set_channels v (s : KvStore) : KvStore := ltac:(store_update s channels v).

Inductive Output : Type :=
| Broadcast (e : WatchEvent)
| Deliver (chan : N) (e : WatchEvent).

Abbreviation Store := (M KvStore Output).

(** [KvStore::new] *)
Definition new (now : Z) : KvStore :=
  mkKvStore ∅ ∅ ∅ 1 ∅ ∅ ∅ 1 0 false ∅ ∅ ∅ []
    [mkMember 1 (str "default") [str "http://localhost:2380"] [str "http://localhost:2379"] false]
    None 0 RLeader 1 0 0 ∅ (timestamp_millis now) DEFAULT_LEADER_LEASE_TTL_MS ∅ ∅ ∅ ∅ 0 [] 0 false 0.

(** ** Revisions and the MVCC index *)

Definition current_revision : Store u64 := gets revision.

(** [fetch_add] wraps. *)
Definition next_revision : Store u64 :=
  r ← gets revision; modify (set_revision (r +w 1));; mret (r +w 1).

Definition header_of (s : KvStore) : ResponseHeader := mkHeader 1 1 (revision s) 1.
Definition header : Store ResponseHeader := gets header_of.

Definition index_of (s : KvStore) (key : bytes) : list u64 := default [] (key_index s !! key).

Definition index_push (key : bytes) (rev : u64) : Store unit :=
  modify (λ s, set_key_index (<[key := index_of s key ++ [rev]]> (key_index s)) s).

Definition history_insert (rev : u64) (e : bytes * EventType * KeyValue) : Store unit :=
  modify (λ s, set_history (<[rev := e]> (history s)) s).

(** [revs.iter().rev().find(|r| r <= target)] *)
Definition last_at (target : u64) (revs : list u64) : option u64 :=
  head (filter (λ r, r ≤ target) (reverse revs)).

Definition get_at_revision (s : KvStore) (key : bytes) (target_rev : u64) : option KeyValue :=
  match key_index s !! key with
  | None => None
  | Some revs =>
      match last_at target_rev revs with
      | None => None
      | Some rev =>
          match history s !! rev with
          | Some (_, EPut, kv) => Some kv
          | Some (_, EDelete, _) => None
          | None => None
          end
      end
  end.

(** ** Watches *)

Definition key_matches_watch (key : bytes) (c : WatchConfig) : bool :=
  match w_range_end c with
  | Some range_end => in_range (w_key c) range_end key
  | None => bool_decide (key = w_key c)
  end.

(** [BTreeMap::range(start..)]: the entries from [start] on, by revision *)
Definition history_from (s : KvStore) (start : u64) : list (bytes * EventType * KeyValue) :=
  omap (λ r, history s !! r)
    (filter (λ r, start ≤ r) (btree_iter (dom (history s)))).

Definition get_historical_events (s : KvStore) (c : WatchConfig) (from_rev : u64) : list WatchEvent :=
  let start := from_rev `max` (compacted_revision s +w 1) in
  omap (λ '(key, ty, kv),
    if key_matches_watch key c then Some (mkWatchEvent ty kv None) else None) (history_from s start).

Definition get_watch_config (s : KvStore) (id : Z) : option WatchConfig := watch_configs s !! id.

(** The event as one watch sees it. *)
Definition local_event (c : WatchConfig) (e : WatchEvent) : WatchEvent :=
  if w_prev_kv c then e else mkWatchEvent (ev_type e) (ev_kv e) None.

(** One inbox of the fan-out; [true] when it is to be pruned. *)
Definition offer (event : WatchEvent) (id : Z) (tx : Sender) : Store bool :=
  s ← get;
  match watch_configs s !! id with
  | None => mret true
  | Some cfg =>
      if negb (key_matches_watch (kv_key (ev_kv event)) cfg) then mret false
      else if tx_open tx then emit (Deliver (tx_chan tx) (local_event cfg event));; mret false
      else mret true
  end.

Fixpoint fan_out (event : WatchEvent) (entries : list (Z * Sender)) : Store (list Z) :=
  match entries with
  | [] => mret []
  | (id, tx) :: entries =>
      dead ← offer event id tx;
      closed ← fan_out event entries;
      mret (if (dead : bool) then id :: closed else closed)
  end.

Definition prune_inbox (id : Z) : Store unit :=
  modify (λ s, set_watch_inboxes (delete id (watch_inboxes s)) s).

Definition dispatch_event (event : WatchEvent) : Store unit :=
  emit (Broadcast event);;
  s ← get;
  closed ← fan_out event (map_to_list (watch_inboxes s));
  for_each closed prune_inbox.

(** ** Key-value operations *)

(** [lease.keys.retain(|k| k.as_bytes() != key)] *)
Definition detach (key : bytes) (l : Lease) : Lease :=
  mkLease (l_id l) (l_ttl l) (l_granted_at l) (filter (.≠ key) (l_keys l)).

(** [if !lease.keys.contains(&key_str) { lease.keys.push(key_str) }] *)
Definition attach (key_str : bytes) (l : Lease) : Lease :=
  if decide (key_str ∈ l_keys l) then l
  else mkLease (l_id l) (l_ttl l) (l_granted_at l) (l_keys l ++ [key_str]).

Definition detach_at (key : bytes) (lease_id : option Z) (ls : gmap Z Lease) : gmap Z Lease :=
  match lease_id with Some id => alter (detach key) id ls | None => ls end.
Definition attach_at (key : bytes) (lease_id : option Z) (ls : gmap Z Lease) : gmap Z Lease :=
  match lease_id with Some id => alter (attach (from_utf8_lossy key)) id ls | None => ls end.

Definition remove_key_from_lease (key : bytes) (lease_id : option Z) : Store unit :=
  modify (λ s, set_leases (detach_at key lease_id (leases s)) s).

(** If the key had a different lease, remove it from that one. *)
Definition release_old_lease (key : bytes) (prev_kv : option KeyValue) (lease : option Z) : Store unit :=
  modify (λ s, set_leases
    (match prev_kv with
     | Some old => if bool_decide (kv_lease old = lease) then leases s
                   else detach_at key (kv_lease old) (leases s)
     | None => leases s
     end) s).

Definition associate_lease (key : bytes) (lease : option Z) : Store unit :=
  modify (λ s, set_leases (attach_at key lease (leases s)) s).

Definition put (req : PutRequest) : Store PutResponse :=
  let key := pq_key req in
  rev ← next_revision;
  s ← get;
  let prev_kv := current s !! key in
  release_old_lease key prev_kv (pq_lease req);;
  let version := match prev_kv with Some p => kv_version p +w 1 | None => 1 end in
  let create_rev := match prev_kv with Some p => kv_create_revision p | None => rev end in
  let kv := mkKeyValue key (pq_value req) create_rev rev version (pq_lease req) in
  modify (λ s, set_current (<[key := kv]> (current s)) s);;
  index_push key rev;;
  history_insert rev (key, EPut, kv);;
  associate_lease key (pq_lease req);;
  dispatch_event (mkWatchEvent EPut kv prev_kv);;
  h ← header;
  mret (mkPutResponse h (if pq_prev_kv req then prev_kv else None)).

(** Sorting and trimming a range, the same in [range] and [range_at_revision]. *)
Definition respond (req : RangeRequest) (kvs : list KeyValue) : Store RangeResponse :=
  h ← header;
  let count := vlen kvs in
  if rq_count_only req then mret (mkRangeResponse h [] count false)
  else
    let more := match rq_limit req with Some limit => limit <? vlen kvs | None => false end in
    let kvs := match rq_limit req with
               | Some limit => if limit <? vlen kvs then vtruncate kvs limit else kvs
               | None => kvs
               end in
    let kvs := if rq_keys_only req then clear_value <$> kvs else kvs in
    mret (mkRangeResponse h kvs count more).

Definition range_at_revision (req : RangeRequest) (target_rev : u64) : Store RangeResponse :=
  s ← get;
  let kvs :=
    match rq_range_end req with
    | Some range_end =>
        merge_sort kv_le (omap (λ e : bytes * list u64,
          if in_range (rq_key req) range_end e.1 then get_at_revision s e.1 target_rev else None)
          (map_to_list (key_index s)))
    | None => option_list (get_at_revision s (rq_key req) target_rev)
    end in
  respond req kvs.

Definition range (req : RangeRequest) : Store (EtcdResult RangeResponse) :=
  s ← get;
  let compacted := compacted_revision s in
  match rq_revision req with
  | Some target_rev =>
      if (target_rev <? compacted) && (0 <? compacted) then
        mret (Err (RevisionCompacted target_rev compacted))
      else r ← range_at_revision req target_rev; mret (Ok r)
  | None =>
      let kvs :=
        match rq_range_end req with
        | Some range_end =>
            merge_sort kv_le (snd <$> filter (λ e, in_range (rq_key req) range_end e.1)
              (map_to_list (current s)))
        | None => option_list (current s !! rq_key req)
        end in
      r ← respond req kvs; mret (Ok r)
  end.

Definition make_delete_kv (kv : KeyValue) (rev : u64) : KeyValue :=
  mkKeyValue (kv_key kv) [] (kv_create_revision kv) rev 0 None.

(** What follows the removal of [key] from [current]. *)
Definition record_delete (key : bytes) (kv : KeyValue) (rev : u64) : Store unit :=
  let delete_kv := make_delete_kv kv rev in
  index_push key rev;;
  history_insert rev (key, EDelete, delete_kv);;
  dispatch_event (mkWatchEvent EDelete delete_kv (Some kv)).

(** The body of the deletion loop: the pair removed, if the key was there. *)
Definition delete_key (key : bytes) (rev : u64) : Store (option KeyValue) :=
  s ← get;
  match current s !! key with
  | None => mret None
  | Some kv =>
      modify (λ s, set_current (delete key (current s)) s);;
      remove_key_from_lease key (kv_lease kv);;
      record_delete key kv rev;;
      mret (Some kv)
  end.

Fixpoint delete_keys (keys : list bytes) (rev : u64) : Store (list KeyValue) :=
  match keys with
  | [] => mret []
  | key :: keys =>
      o ← delete_key key rev;
      kvs ← delete_keys keys rev;
      mret (option_list o ++ kvs)
  end.

Definition delete_range (req : DeleteRangeRequest) : Store DeleteRangeResponse :=
  rev ← next_revision;
  s ← get;
  let keys_to_delete :=
    match dq_range_end req with
    | Some range_end =>
        filter (λ k, in_range (dq_key req) range_end k) (fst <$> map_to_list (current s))
    | None => [dq_key req]
    end in
  kvs ← delete_keys keys_to_delete rev;
  h ← header;
  mret (mkDeleteRangeResponse h (vlen kvs) (if dq_prev_kv req then kvs else [])).

(** ** Transactions *)

Definition get_request (key : bytes) : RangeRequest := mkRangeRequest key None None None false false.

(** The comparison of one condition with the pair found, if any. *)
Definition compare_kv (cmp : Compare) (kv : option KeyValue) : bool :=
  let num (x y : N) :=
    match c_result cmp with
    | CEqual => x =? y | CGreater => y <? x | CLess => x <? y | CNotEqual => negb (x =? y)
    end in
  let field (f : KeyValue → N) := match kv with Some k => f k | None => 0 end in
  match c_target cmp with
  | TVersion => num (field kv_version) (default 0 (c_version cmp))
  | TCreate => num (field kv_create_revision) (default 0 (c_mod_revision cmp))
  | TMod => num (field kv_mod_revision) (default 0 (c_mod_revision cmp))
  | TValue =>
      match c_result cmp with
      | CEqual => bool_decide (value_str <$> kv = c_value cmp)
      | CNotEqual => bool_decide (value_str <$> kv ≠ c_value cmp)
      | _ => true
      end
  end.

(** The comparison loop, up to the first condition that fails. *)
Fixpoint txn_compare (cmps : list Compare) : Store bool :=
  match cmps with
  | [] => mret true
  | cmp :: cmps =>
      r ← range (get_request (c_key cmp));
      let kv := match r with Ok r => head (rs_kvs r) | Err _ => None end in
      if compare_kv cmp kv then txn_compare cmps else mret false
  end.

Definition exec_op (op : RequestOp) : Store unit :=
  match op with
  | OpPut p => put p;; skip
  | OpDeleteRange d => delete_range d;; skip
  | OpRange _ => skip
  end.

Definition txn_execute (req : TxnRequest) (succeeded : bool) : Store TxnResponse :=
  for_each (if succeeded then t_success req else t_failure req) exec_op;;
  h ← header;
  mret (mkTxnResponse h succeeded).

Definition txn (req : TxnRequest) : Store TxnResponse :=
  succeeded ← txn_compare (t_compare req);
  txn_execute req succeeded.

Definition txn_checked (req : TxnRequest) : Store (EtcdResult TxnResponse) :=
  let ops := vlen (t_compare req) +w vlen (t_success req) +w vlen (t_failure req) in
  if MAX_TXN_OPS <? ops then mret (Err (TooManyTxnOps ops MAX_TXN_OPS))
  else r ← txn req; mret (Ok r).

(** ** Watch registration *)

Definition watch_create (req : WatchCreateRequest) : Store WatchResponse :=
  n ← gets watch_counter;
  modify (set_watch_counter (n +w 1));;
  let watch_id := wrap_i64 (as_i64 n + 1) in
  let config := mkWatchConfig watch_id (wq_key req) (wq_range_end req)
                  (wq_start_revision req) (wq_prev_kv req) in
  s ← get;
  let events := match wq_start_revision req with
                | Some start_rev => get_historical_events s config start_rev
                | None => []
                end in
  modify (λ s, set_watch_configs (<[watch_id := config]> (watch_configs s)) s);;
  h ← header;
  mret (mkWatchResponse h watch_id true events).

(** The receiver handed out is named by its channel. *)
Definition watch_subscribe (watch_id : Z) : Store (EtcdResult N) :=
  s ← get;
  match watch_configs s !! watch_id with
  | None => mret (Err (WatchNotFound watch_id))
  | Some _ =>
      let chan := channels s in
      modify (set_channels (chan + 1));;
      modify (λ s, set_watch_inboxes (<[watch_id := mkSender chan true]> (watch_inboxes s)) s);;
      mret (Ok chan)
  end.

(** The client drops the receiver of a channel. *)
Definition drop_receiver (chan : N) : Store unit :=
  modify (λ s, set_watch_inboxes
    ((λ tx, if tx_chan tx =? chan then mkSender chan false else tx) <$> watch_inboxes s) s).

Definition watch_cancel (watch_id : Z) : Store (EtcdResult unit) :=
  s ← get;
  let removed_cfg := bool_decide (is_Some (watch_configs s !! watch_id)) in
  let removed_inbox := bool_decide (is_Some (watch_inboxes s !! watch_id)) in
  modify (λ s, set_watch_configs (delete watch_id (watch_configs s)) s);;
  modify (λ s, set_watch_inboxes (delete watch_id (watch_inboxes s)) s);;
  mret (if negb removed_cfg && negb removed_inbox then Err (WatchNotFound watch_id) else Ok tt).

Definition watch_progress (watch_id : Z) : Store (EtcdResult WatchProgressEvent) :=
  s ← get;
  match watch_configs s !! watch_id with
  | None => mret (Err (WatchNotFound watch_id))
  | Some _ => h ← header; mret (Ok (mkWatchProgressEvent h watch_id))
  end.

Definition active_watch_count (s : KvStore) : usize := N.of_nat (size (watch_inboxes s)).

(** ** Leases *)

(** [self.lease_counter.fetch_add(1) as i64 + 1] *)
Definition fresh_lease_id : Store Z :=
  n ← gets lease_counter; modify (set_lease_counter (n +w 1));; mret (wrap_i64 (as_i64 n + 1)).

Definition lease_insert (id : Z) (l : Lease) : Store unit :=
  modify (λ s, set_leases (<[id := l]> (leases s)) s).

Definition lease_grant (now : Z) (req : LeaseGrantRequest) : Store LeaseGrantResponse :=
  id ← match lq_id req with Some id => mret id | None => fresh_lease_id end;
  lease_insert id (mkLease id (lq_ttl req) now []);;
  h ← header;
  mret (mkLeaseGrantResponse h id (lq_ttl req)).

Definition lease_grant_v2 (now : Z) (req : LeaseGrantRequest) : Store (EtcdResult LeaseGrantResponse) :=
  if (lq_ttl req <? 0)%Z then mret (Err (InvalidLeaseTtl (lq_ttl req)))
  else
    s ← get;
    let taken := match lq_id req with
                 | Some id => if negb (id =? 0)%Z && bool_decide (is_Some (leases s !! id))
                              then Some id else None
                 | None => None
                 end in
    match taken with
    | Some id => mret (Err (LeaseAlreadyExists id))
    | None =>
        let ttl := (lq_ttl req `min` MAX_LEASE_TTL_SECS)%Z in
        id ← match lq_id req with
             | Some id => if (id =? 0)%Z then fresh_lease_id else mret id
             | None => fresh_lease_id
             end;
        lease_insert id (mkLease id ttl now []);;
        h ← header;
        mret (Ok (mkLeaseGrantResponse h id ttl))
    end.

(** The body of the loop over the keys of a revoked lease. *)
Definition revoke_key (key : bytes) : Store unit :=
  s ← get;
  match current s !! key with
  | None => skip
  | Some kv =>
      modify (λ s, set_current (delete key (current s)) s);;
      rev ← next_revision;
      record_delete key kv rev
  end.

Definition lease_revoke (lease_id : Z) : Store (EtcdResult unit) :=
  s ← get;
  match leases s !! lease_id with
  | None => mret (Err (LeaseNotFound lease_id))
  | Some lease =>
      modify (λ s, set_leases (delete lease_id (leases s)) s);;
      for_each (l_keys lease) revoke_key;;
      mret (Ok tt)
  end.

Definition lease_keepalive (now : Z) (id : Z) : Store (EtcdResult LeaseKeepAliveResponse) :=
  s ← get;
  match leases s !! id with
  | None => mret (Err (LeaseNotFound id))
  | Some l =>
      lease_insert id (mkLease (l_id l) (l_ttl l) now (l_keys l));;
      h ← header;
      mret (Ok (mkLeaseKeepAliveResponse h id (l_ttl l)))
  end.

Definition lease_timetolive (now : Z) (id : Z) (keys : bool) : Store (EtcdResult LeaseTTLResponse) :=
  s ← get;
  match leases s !! id with
  | None => mret (Err (LeaseNotFound id))
  | Some l =>
      let elapsed := num_seconds_since now (l_granted_at l) in
      let remaining := (wrap_i64 (l_ttl l - elapsed) `max` 0)%Z in
      h ← header;
      mret (Ok (mkLeaseTTLResponse h id remaining (l_ttl l) (if keys then l_keys l else [])))
  end.

Definition lease_leases : Store LeaseLeasesResponse :=
  s ← get; h ← header; mret (mkLeaseLeasesResponse h (fst <$> map_to_list (leases s))).

Definition lease_attached_keys (id : Z) : Store (EtcdResult usize) :=
  s ← get;
  mret (match leases s !! id with Some l => Ok (vlen (l_keys l)) | None => Err (LeaseNotFound id) end).

Definition expired (now : Z) (l : Lease) : bool :=
  (l_ttl l <=? num_seconds_since now (l_granted_at l))%Z.

Definition expire_leases (now : Z) : Store unit :=
  s ← get;
  let expired_ids := fst <$> filter (λ e, expired now e.2) (map_to_list (leases s)) in
  for_each expired_ids (λ id, lease_revoke id;; skip).

(** ** Compaction *)

Definition drop_history_below (rev : u64) : Store unit :=
  modify (λ s, set_history (filter (λ e, rev ≤ e.1) (history s)) s).

Definition compact (rev : u64) : Store unit :=
  modify (set_compacted_revision rev);;
  drop_history_below rev.

Definition compaction (rev : u64) : Store ResponseHeader :=
  compact rev;; header.

(** [revs.partition_point(|r| r <= revision)], on a sorted vector *)
Definition partition_point (rev : u64) (revs : list u64) : nat :=
  length (filter (λ r, r ≤ rev) revs).

Definition prune (rev : u64) (revs : list u64) : list u64 :=
  let split := partition_point rev revs in
  if (split <=? 1)%nat then revs else drop (split - 1) revs.

Definition compact_v2 (rev : u64) : Store (EtcdResult unit) :=
  if rev =? 0 then mret (Ok tt)
  else
    cur ← current_revision;
    if cur <? rev then mret (Err (CompactionFutureRevision rev cur))
    else
      prev ← gets compacted_revision;
      if rev <=? prev then mret (Ok tt)
      else
        modify (set_compacted_revision rev);;
        drop_history_below rev;;
        modify (λ s, set_key_index (prune rev <$> key_index s) s);;
        mret (Ok tt).

(** *** The compaction watermark *)

Definition set_watermark (rev : u64) : Store (EtcdResult unit) :=
  cur ← current_revision;
  if cur <? rev then mret (Err (CompactionFutureRevision rev cur))
  else
    modify (λ s, set_compaction_watermark (compaction_watermark s `max` rev) s);;
    mret (Ok tt).

Definition apply_compaction_watermark : Store (EtcdResult u64) :=
  wm ← gets compaction_watermark;
  c ← gets compacted_revision;
  if (wm =? 0) || (wm <=? c) then mret (Ok c)
  else
    r ← compact_v2 wm;
    c ← gets compacted_revision;
    mret (match r with Ok _ => Ok c | Err e => Err e end).
