(* ===== verification/EtcdMvcc.v ===== *)
(** * Multi-version reads of the store

    What the MVCC half of [KvStore] promises.  The store is related to an abstract one, the
    function [H] giving the map of live pairs at every revision: [represents] says that the
    index and the history answer a read at any revision from [H], and that [current] is
    its last value.  Every command keeps the relation and leaves [H] alone at the revisions
    the store has already passed, hence: a read at a past revision returns what was current
    then; a comparison on the modification revision detects every intervening write. *)

From S2P Require Import Prelude Bytes Effects EtcdTypes EtcdStore.

(** ** The pairs a read can still see after a compaction *)

Definition visible (floor : N) (o : option KeyValue) : option KeyValue :=
  match o with
  | Some kv => if floor <=? kv_mod_revision kv then Some kv else None
  | None => None
  end.

Record represents (floor : N) (H : N → gmap bytes KeyValue) (s : KvStore) : Prop := {
  rep_current : H (revision s) = current s;
  rep_floor : floor ≤ revision s + 1;
  rep_sorted k : StronglySorted N.lt (index_of s k);
  rep_index_le k r : r ∈ index_of s k → r ≤ revision s;
  rep_history_le r e : history s !! r = Some e → r ≤ revision s;
  rep_history_put r k kv : history s !! r = Some (k, EPut, kv) → kv_mod_revision kv = r;
  rep_live k kv r : current s !! k = Some kv → r ∈ index_of s k → r ≤ kv_mod_revision kv;
  rep_reads k r : r ≤ revision s → get_at_revision s k r = visible floor (H r !! k);
  rep_versions r k kv : r ≤ revision s → H r !! k = Some kv →
    kv_key kv = k ∧ kv_mod_revision kv ≤ r ∧ H (kv_mod_revision kv) !! k = Some kv
}.

(** ** What the steps of the methods do to the state *)

(** What the fan-out of an event does to one inbox: the message it gets, and whether the
    inbox is found closed. *)
Definition offered (e : WatchEvent) (s : KvStore) (entry : Z * Sender) : option Output :=
  match watch_configs s !! entry.1 with
  | Some cfg => if key_matches_watch (kv_key (ev_kv e)) cfg && tx_open entry.2
                then Some (Deliver (tx_chan entry.2) (local_event cfg e)) else None
  | None => None
  end.
Definition dead (e : WatchEvent) (s : KvStore) (entry : Z * Sender) : bool :=
  match watch_configs s !! entry.1 with
  | Some cfg => key_matches_watch (kv_key (ev_kv e)) cfg && negb (tx_open entry.2)
  | None => true
  end.
Definition closed_ids (e : WatchEvent) (s : KvStore) (l : list (Z * Sender)) : list Z :=
  omap (λ entry, if dead e s entry then Some entry.1 else None) l.

Lemma fan_out_run e l s : fan_out e l s = (closed_ids e s l, s, omap (offered e s) l).
Proof.
  induction l as [|[id tx] l IH]; [done|].
  assert (Ho : offer e id tx s = (dead e s (id, tx), s, option_list (offered e s (id, tx)))).
  { unfold offer, dead, offered, mbind, M_bind. simpl.
    destruct (watch_configs s !! id) as [cfg|]; [|done].
    destruct (key_matches_watch _ cfg); [|done]. by destruct (tx_open tx). }
  etrans; [eapply bind_step; [exact Ho|eapply bind_step; [exact IH|reflexivity]]|].
  rewrite app_nil_r. unfold closed_ids. simpl. by destruct (offered e s (id, tx)), (dead e s (id, tx)).
Qed.

Definition pruned (e : WatchEvent) (s : KvStore) : gmap Z Sender :=
  foldl (λ m id, delete id m) (watch_inboxes s) (closed_ids e s (map_to_list (watch_inboxes s))).

Lemma prune_inboxes_run l s :
  for_each l prune_inbox s = (tt, set_watch_inboxes (foldl (λ m id, delete id m) (watch_inboxes s) l) s, []).
Proof.
  revert s. induction l as [|id l IH]; intros s; [by destruct s|].
  etrans; [eapply bind_step; [reflexivity|apply IH]|]. done.
Qed.

Lemma dispatch_run e s : dispatch_event e s =
  (tt, set_watch_inboxes (pruned e s) s,
   Broadcast e :: omap (offered e s) (map_to_list (watch_inboxes s))).
Proof.
  unfold dispatch_event.
  etrans; [do 2 run1; eapply bind_step; [apply fan_out_run|apply prune_inboxes_run]|].
  simpl. by rewrite app_nil_r.
Qed.

(** Two states that differ at most outside the MVCC fields. *)
Record same_mvcc (s s' : KvStore) : Prop := {
  mv_current : current s' = current s;
  mv_history : history s' = history s;
  mv_key_index : key_index s' = key_index s;
  mv_revision : revision s' = revision s;
  mv_compacted : compacted_revision s' = compacted_revision s
}.
#[export] Instance same_mvcc_preorder : PreOrder same_mvcc.
Proof. split; [by intros s|]. intros s1 s2 s3 [] []. split; congruence. Qed.

(** ** Reading the index *)

Lemma last_at_later t l rev : t < rev → last_at t (l ++ [rev]) = last_at t l.
Proof.
  intros H. unfold last_at. rewrite reverse_app. simpl. rewrite filter_cons_False by lia. done.
Qed.
Lemma last_at_new t l rev : rev ≤ t → last_at t (l ++ [rev]) = Some rev.
Proof. intros H. unfold last_at. rewrite reverse_app. simpl. by rewrite filter_cons_True by lia. Qed.
Lemma last_at_elem t l r : last_at t l = Some r → r ∈ l ∧ r ≤ t.
Proof.
  unfold last_at. intros H. apply head_Some_elem_of, list_elem_of_filter in H.
  rewrite elem_of_reverse in H. tauto.
Qed.
Lemma last_at_bound b t l : (∀ r, r ∈ l → r ≤ b) → b ≤ t → last_at t l = last_at b l.
Proof.
  intros Hl Hb. unfold last_at. rewrite !filter_all; [done| |];
    apply Forall_forall; intros r Hr%elem_of_reverse%Hl; lia.
Qed.
(** Entries before one that is not above the target do not matter. *)
Lemma last_at_skip t l1 a l2 : a ≤ t → last_at t (l1 ++ a :: l2) = last_at t (a :: l2).
Proof.
  intros Ha. unfold last_at. rewrite reverse_app, reverse_cons, !filter_app.
  rewrite filter_cons_True by lia. simpl. by destruct (filter _ (reverse l2)).
Qed.
Lemma last_at_above t l : (∀ r, r ∈ l → t < r) → last_at t l = None.
Proof.
  intros H. unfold last_at. rewrite filter_none; [done|].
  apply Forall_forall. intros r Hr%elem_of_reverse%H. lia.
Qed.

(** The pair a history entry holds, unless it is a deletion. *)
Definition put_at (s : KvStore) (r : N) : option KeyValue :=
  match history s !! r with Some (_, EPut, kv) => Some kv | _ => None end.

Lemma get_at_index s k t :
  get_at_revision s k t = last_at t (index_of s k) ≫= put_at s.
Proof.
  unfold get_at_revision, index_of, put_at. destruct (key_index s !! k) as [l|]; [|done].
  simpl. destruct (last_at t l) as [r|]; [|done]. simpl.
  by destruct (history s !! r) as [[[? []] ?]|].
Qed.

(** A key's entries are not above its modification. *)
Lemma represents_dead f H s k r :
  represents f H s → r ∈ index_of s k →
  (∀ kv, current s !! k = Some kv → kv_mod_revision kv < r) → current s !! k = None.
Proof.
  intros Hr Hin Hlt. destruct (current s !! k) as [kv|] eqn:Hk; [|done].
  pose proof (rep_live _ _ _ Hr _ _ _ Hk Hin). specialize (Hlt _ eq_refl). lia.
Qed.

Lemma represents_same f H s s' : same_mvcc s s' → represents f H s → represents f H s'.
Proof.
  intros [Hc Hh Hi Hr _] [].
  assert (Hidx : ∀ k, index_of s' k = index_of s k) by (intros; unfold index_of; by rewrite Hi).
  assert (Hget : ∀ k r, get_at_revision s' k r = get_at_revision s k r)
    by (intros; unfold get_at_revision; by rewrite Hi, Hh).
  split; intros *; rewrite ?Hc, ?Hh, ?Hr, ?Hidx, ?Hget; eauto.
Qed.

(** The abstract store after [m] became the live map at revision [r]. *)
Definition extend (H : N → gmap bytes KeyValue) (r : N) (m : gmap bytes KeyValue) :
  N → gmap bytes KeyValue := λ x, if x =? r then m else H x.

Lemma extend_same H r m : extend H r m r = m.
Proof. unfold extend. by rewrite N.eqb_refl. Qed.
Lemma extend_lt H r m x : x < r → extend H r m x = H x.
Proof. intros Hx. unfold extend. by rewrite (proj2 (N.eqb_neq x r)) by lia. Qed.

(** A revision at which nothing has been written yet. *)
Definition fresh (s : KvStore) : Prop :=
  ∀ k kv, current s !! k = Some kv → kv_mod_revision kv < revision s.

(** Taking the next revision. *)
Lemma represents_bump f H s s' :
  represents f H s →
  current s' = current s → history s' = history s → key_index s' = key_index s →
  revision s' = revision s + 1 →
  represents f (extend H (revision s + 1) (current s)) s' ∧ fresh s' ∧
  (∀ k r, r ∈ index_of s' k → r < revision s').
Proof.
  intros Hrep Hc Hh Hi Hr. pose proof Hrep as [].
  assert (Hidx : ∀ k, index_of s' k = index_of s k) by (intros; unfold index_of; by rewrite Hi).
  assert (Hget : ∀ k r, get_at_revision s' k r = get_at_revision s k r)
    by (intros; unfold get_at_revision; by rewrite Hi, Hh).
  assert (Hlive : ∀ k kv, current s !! k = Some kv → kv_key kv = k ∧
    kv_mod_revision kv ≤ revision s ∧ H (kv_mod_revision kv) !! k = Some kv)
    by (intros k kv Hk; rewrite <- rep_current0 in Hk; by apply rep_versions0).
  split_and!.
  - split; intros *; rewrite ?Hc, ?Hh, ?Hr, ?Hidx, ?Hget; eauto.
    + apply extend_same.
    + lia.
    + intros Hk%rep_index_le0. lia.
    + intros Hk%rep_history_le0. lia.
    + intros Hle. destruct (decide (r = revision s + 1)) as [->|].
      * rewrite extend_same, get_at_index, (last_at_bound (revision s)), <- get_at_index; [|eauto|lia].
        rewrite rep_reads0 by lia. by rewrite rep_current0.
      * rewrite extend_lt by lia. apply rep_reads0. lia.
    + intros Hle. destruct (decide (r = revision s + 1)) as [->|].
      * rewrite extend_same. intros (? & ? & ?)%Hlive. rewrite extend_lt by lia. split_and!; [done|lia|done].
      * rewrite extend_lt by lia. intros (? & ? & ?)%rep_versions0; [|lia].
        rewrite extend_lt by lia. done.
  - intros k kv. rewrite Hc, Hr. intros (_ & ? & _)%Hlive. lia.
  - intros k r. rewrite Hidx, Hr. intros Hk%rep_index_le0. lia.
Qed.

(** Writing key [k] at the present revision: [o] is the new pair, [None] for a deletion. *)
Record writes (k : bytes) (o : option KeyValue) (s s' : KvStore) : Prop := {
  wr_revision : revision s' = revision s;
  wr_current : current s' = partial_alter (λ _, o) k (current s);
  wr_index : key_index s' = <[k := index_of s k ++ [revision s]]> (key_index s);
  wr_history : ∃ e, history s' = <[revision s := e]> (history s) ∧
    match o with
    | Some kv => e = (k, EPut, kv) ∧ kv_key kv = k ∧ kv_mod_revision kv = revision s
    | None => e.1.2 = EDelete
    end
}.

Section Write.
Context (f : N) (H : N → gmap bytes KeyValue) (s s' : KvStore) (k : bytes) (o : option KeyValue).
Context (Hrep : represents f H s) (Hfresh : fresh s) (Hw : writes k o s s').
Context (Hput : is_Some o → ∀ k' r, r ∈ index_of s k' → r < revision s).
Context (Hk : ∀ r, r ∈ index_of s k → r < revision s) (Hf : f ≤ revision s).

Lemma write_index k' : index_of s' k' =
  if decide (k = k') then index_of s k ++ [revision s] else index_of s k'.
Proof.
  unfold index_of at 1. rewrite (wr_index _ _ _ _ Hw), lookup_insert. by case_decide.
Qed.

Lemma write_put_at r : put_at s' r = if decide (r = revision s) then o else put_at s r.
Proof.
  unfold put_at. destruct (wr_history _ _ _ _ Hw) as ([[k1 ty] kv1] & -> & He).
  rewrite lookup_insert. repeat case_decide; try congruence.
  destruct o as [kv|]; [by destruct He as ([= -> -> ->] & _)|]. simpl in He. by subst ty.
Qed.

Lemma write_reads k' r : r ≤ revision s →
  get_at_revision s' k' r = visible f (extend H (revision s) (current s') r !! k').
Proof.
  intros Hr. pose proof (rep_reads _ _ _ Hrep k' r Hr) as Hold.
  rewrite get_at_index in Hold |- *. rewrite write_index.
  destruct (decide (r = revision s)) as [->|Hne].
  - rewrite extend_same, (wr_current _ _ _ _ Hw), lookup_partial_alter. case_decide as Hkk.
    + rewrite last_at_new by done. simpl. rewrite write_put_at. rewrite decide_True by done.
      destruct o as [kv|]; [|done]. simpl.
      destruct (wr_history _ _ _ _ Hw) as (e & _ & _ & _ & ->). case_N; done.
    + rewrite (rep_current _ _ _ Hrep) in Hold. rewrite <- Hold.
      destruct (last_at (revision s) (index_of s k')) as [r0|] eqn:Hl; [|done]. simpl.
      rewrite write_put_at. case_decide as Hr0; [|done]. subst r0.
      apply last_at_elem in Hl as [Hin _]. destruct o as [kv|].
      * exfalso. specialize (Hput (ltac:(eauto)) _ _ Hin). lia.
      * rewrite (represents_dead _ _ _ k' _ Hrep Hin) in Hold by (intros; by apply (Hfresh k')).
        by symmetry.
  - rewrite extend_lt by lia. rewrite <- Hold.
    assert (Hl : last_at r (if decide (k = k') then index_of s k ++ [revision s] else index_of s k')
      = last_at r (index_of s k')) by (case_decide; [subst; apply last_at_later; lia|done]).
    rewrite Hl. destruct (last_at r (index_of s k')) as [r0|] eqn:Hr0; [|done]. simpl.
    apply last_at_elem in Hr0 as [_ ?]. rewrite write_put_at. by rewrite decide_False by lia.
Qed.

Lemma write_versions r k' kv : r ≤ revision s →
  extend H (revision s) (current s') r !! k' = Some kv →
  kv_key kv = k' ∧ kv_mod_revision kv ≤ r ∧
  extend H (revision s) (current s') (kv_mod_revision kv) !! k' = Some kv.
Proof.
  intros Hr. destruct (decide (r = revision s)) as [->|Hne].
  - rewrite extend_same. intros Hkv. pose proof Hkv as Hkv'.
    rewrite (wr_current _ _ _ _ Hw), lookup_partial_alter in Hkv'. case_decide as Hkk.
    + subst. destruct (wr_history _ _ _ _ Hw) as (e & _ & _ & ? & Hm). rewrite Hm.
      rewrite extend_same. split_and!; [done|lia|done].
    + pose proof (Hfresh _ _ Hkv'). rewrite extend_lt by done.
      apply (rep_versions _ _ _ Hrep); [lia|]. by rewrite (rep_current _ _ _ Hrep).
  - rewrite extend_lt by lia. intros (? & ? & ?)%(rep_versions _ _ _ Hrep); [|lia].
    rewrite extend_lt by lia. done.
Qed.

Lemma represents_write : represents f (extend H (revision s) (current s')) s'.
Proof.
  pose proof Hrep as []. pose proof (wr_revision _ _ _ _ Hw) as Hr.
  split; intros *; rewrite ?Hr.
  - apply extend_same.
  - lia.
  - rewrite write_index. case_decide; [|done]. apply StronglySorted_app_2; [|done|by repeat constructor].
    intros x y Hx ->%list_elem_of_singleton. by apply Hk.
  - rewrite write_index. case_decide; [|eauto].
    rewrite elem_of_app, list_elem_of_singleton. intros [?%Hk|?]; lia.
  - destruct (wr_history _ _ _ _ Hw) as (e0 & -> & _). rewrite lookup_insert. case_decide; [lia|eauto].
  - intros Hh. assert (Hp : put_at s' r = Some kv) by (unfold put_at; by rewrite Hh).
    rewrite write_put_at in Hp. case_decide as Hd.
    + subst. by destruct (wr_history _ _ _ _ Hw) as (e & _ & _ & _ & ?).
    + destruct (wr_history _ _ _ _ Hw) as (e0 & He & _). rewrite He, lookup_insert_ne in Hh by done.
      eauto.
  - rewrite (wr_current _ _ _ _ Hw), lookup_partial_alter, write_index. case_decide; [|eauto].
    intros ->. destruct (wr_history _ _ _ _ Hw) as (e & _ & _ & _ & ->).
    rewrite elem_of_app, list_elem_of_singleton. intros [?%Hk|?]; lia.
  - apply write_reads.
  - apply write_versions.
Qed.
End Write.

(** ** Compaction *)

Lemma visible_none f f' o : f ≤ f' → visible f o = None → visible f' o = None.
Proof. intros Hf. destruct o as [kv|]; simpl; [|done]. case_N; done. Qed.

Lemma represents_drop f f' H s s' :
  represents f H s → f ≤ f' → f' ≤ revision s + 1 →
  history s' = filter (λ e, f' ≤ e.1) (history s) →
  current s' = current s → key_index s' = key_index s → revision s' = revision s →
  represents f' H s'.
Proof.
  intros Hrep Hf Hf' Hh Hc Hi Hr. pose proof Hrep as [].
  assert (Hidx : ∀ k, index_of s' k = index_of s k) by (intros; unfold index_of; by rewrite Hi).
  assert (Hsome : ∀ r e, history s' !! r = Some e → history s !! r = Some e ∧ f' ≤ r)
    by (intros r e; by rewrite Hh, map_lookup_filter_Some).
  split; intros *; rewrite ?Hc, ?Hr, ?Hidx; eauto.
  - intros [? _]%Hsome. eauto.
  - intros [? _]%Hsome. eauto.
  - intros Hle. pose proof (rep_reads0 k r Hle) as Hold. rewrite get_at_index in Hold |- *.
    rewrite Hidx. destruct (last_at r (index_of s k)) as [r0|]; simpl in *;
      [|symmetry; by eapply visible_none].
    unfold put_at in Hold |- *. rewrite Hh.
    destruct (history s !! r0) as [[[k0 ty] kv]|] eqn:H0.
    + destruct (decide (f' ≤ r0)).
      * rewrite (proj2 (map_lookup_filter_Some _ _ _ _)) by done. destruct ty.
        -- pose proof (rep_history_put0 _ _ _ H0). destruct (H r !! k); simpl in *; [|done].
           destruct (N.leb_spec f (kv_mod_revision k1)); [|done]. simplify_eq. case_N; done.
        -- symmetry. by eapply visible_none.
      * rewrite (proj2 (map_lookup_filter_None _ _ _)) by naive_solver. destruct ty.
        -- pose proof (rep_history_put0 _ _ _ H0). destruct (H r !! k); simpl in *; [|done].
           destruct (N.leb_spec f (kv_mod_revision k1)); [|done]. simplify_eq. case_N; done.
        -- symmetry. by eapply visible_none.
    + rewrite (proj2 (map_lookup_filter_None _ _ _)) by naive_solver. symmetry. by eapply visible_none.
Qed.

Lemma sorted_split f l : StronglySorted N.lt l →
  l = filter (λ r, r ≤ f) l ++ filter (λ r, f < r) l.
Proof.
  induction 1 as [|a l Hl IH Ha]; [done|]. destruct (decide (a ≤ f)).
  - rewrite filter_cons_True, filter_cons_False by lia. simpl. by f_equal.
  - rewrite filter_cons_False, filter_cons_True by lia. rewrite filter_none, (filter_all (λ r, f < r)); [done| |];
      eapply Forall_impl; eauto; simpl; lia.
Qed.

Lemma prune_shape f l : StronglySorted N.lt l →
  prune f l = l ∨ ∃ l1 a l2, l = l1 ++ a :: l2 ∧ prune f l = a :: l2 ∧ a ≤ f.
Proof.
  intros Hl. pose proof (sorted_split f l Hl) as Hs. unfold prune, partition_point.
  set (A := filter (λ r, r ≤ f) l) in *. set (B := filter (λ r, f < r) l) in *.
  destruct (Nat.leb_spec (length A) 1); [by left|right].
  assert (Hne : A ≠ []) by (intros ->; simpl in *; lia).
  destruct (exists_last Hne) as (A' & a & HA). exists A', a, B. rewrite Hs, HA.
  rewrite <- (assoc_L (++)). split_and!; [done| |].
  - rewrite length_app, Nat.add_sub. simpl. by rewrite drop_app_length.
  - assert (a ∈ A) as [? _]%list_elem_of_filter; [|done]. rewrite HA. set_solver.
Qed.

Lemma represents_prune f H s s' :
  represents f H s → (∀ r e, history s !! r = Some e → f ≤ r) →
  key_index s' = prune f <$> key_index s →
  history s' = history s → current s' = current s → revision s' = revision s →
  represents f H s'.
Proof.
  intros Hrep Hlow Hi Hh Hc Hr. pose proof Hrep as [].
  assert (Hidx : ∀ k, index_of s' k = prune f (index_of s k)).
  { intros k. unfold index_of. rewrite Hi, lookup_fmap. by destruct (key_index s !! k). }
  assert (Hsub : ∀ k r, r ∈ index_of s' k → r ∈ index_of s k).
  { intros k r. rewrite Hidx. destruct (prune_shape f _ (rep_sorted0 k)) as [->|(?&?&?&->&->&_)]; set_solver. }
  split; intros *; rewrite ?Hc, ?Hr, ?Hh; eauto.
  - rewrite Hidx. destruct (prune_shape f _ (rep_sorted0 k)) as [->|(l1&a&l2&Hl&->&_)]; [done|].
    eapply StronglySorted_app_1_r. rewrite <- Hl. done.
  - intros Hle. rewrite <- rep_reads0 by done. rewrite !get_at_index, Hidx.
    assert (Hp : ∀ x, put_at s' x = put_at s x) by (intros; unfold put_at; by rewrite Hh).
    destruct (prune_shape f _ (rep_sorted0 k)) as [->|(l1&a&l2&Hl&->&Ha)].
    { destruct (last_at r (index_of s k)); simpl; auto. }
    pose proof (rep_sorted0 k) as Hsk. rewrite Hl in Hsk |- *.
    destruct (decide (a ≤ r)).
    + rewrite last_at_skip by done. destruct (last_at r (a :: l2)); simpl; auto.
    + apply StronglySorted_app_1_r in Hsk as Hs2. inversion Hs2 as [|? ? _ Hal]; subst.
      rewrite last_at_above.
      2: { intros x [->|Hx]%elem_of_cons; [lia|]. rewrite Forall_forall in Hal. specialize (Hal x Hx). lia. }
      simpl. destruct (last_at r (l1 ++ a :: l2)) as [r0|] eqn:Hr0; [|done]. simpl.
      apply last_at_elem in Hr0 as [_ ?]. unfold put_at.
      destruct (history s !! r0) as [e|] eqn:He; [|done]. apply Hlow in He. lia.
Qed.

(** ** The methods keep the relation *)

(** [s'] continues [s], having taken [n] revisions: unless the counter wraps, the abstract
    store is extended and keeps its past. *)
Definition evolves (n : N) (s s' : KvStore) : Prop :=
  revision s + n < u64_modulus →
  revision s' = revision s + n ∧
  ∀ H, represents (compacted_revision s) H s →
    ∃ H', represents (compacted_revision s') H' s' ∧ ∀ r, r ≤ revision s → H' r = H r.

Lemma evolves_same s s' : same_mvcc s s' → evolves 0 s s'.
Proof.
  intros Hs Hn. pose proof Hs as [_ _ _ Hr Hc]. split; [lia|]. intros H HH. exists H.
  rewrite Hc. split; [by eapply represents_same|done].
Qed.

Lemma evolves_trans n1 n2 s1 s2 s3 :
  evolves n1 s1 s2 → evolves n2 s2 s3 → evolves (n1 + n2) s1 s3.
Proof.
  intros H12 H23 Hn. destruct H12 as [Hr2 H12]; [lia|]. destruct H23 as [Hr3 H23]; [lia|].
  split; [lia|]. intros H (H' & HH' & Hpast)%H12. destruct (H23 _ HH') as (H'' & HH'' & Hpast').
  exists H''. split; [done|]. intros r Hr. rewrite Hpast' by lia. by apply Hpast.
Qed.

Lemma evolves_trans_same n s1 s2 s3 : evolves n s1 s2 → same_mvcc s2 s3 → evolves n s1 s3.
Proof.
  intros H12 H23%evolves_same. rewrite <- (N.add_0_r n). by eapply evolves_trans.
Qed.

(** Taking a revision and writing at it. *)
Lemma evolves_write k o s s1 s' :
  current s1 = current s → history s1 = history s → key_index s1 = key_index s →
  revision s1 = revision s +w 1 → compacted_revision s' = compacted_revision s →
  writes k o s1 s' → evolves 1 s s'.
Proof.
  intros Hc Hh Hi Hr Hcr Hw Hn. rewrite u64_add_1 in Hr by u64_lia.
  rewrite (wr_revision _ _ _ _ Hw), Hr. split; [done|]. intros H HH.
  destruct (represents_bump _ _ _ s1 HH) as (HH1 & Hf1 & Hi1); [done..|].
  rewrite Hcr. eexists. split.
  - eapply represents_write; eauto.
    rewrite Hr. apply (rep_floor _ _ _ HH).
  - intros r Hr'. rewrite Hr. by rewrite !extend_lt by lia.
Qed.

(** The pair a [put] stores. *)
Definition written (req : PutRequest) (s : KvStore) : KeyValue :=
  let prev := current s !! pq_key req in
  let rev := revision s +w 1 in
  mkKeyValue (pq_key req) (pq_value req)
    (match prev with Some p => kv_create_revision p | None => rev end) rev
    (match prev with Some p => kv_version p +w 1 | None => 1 end) (pq_lease req).

(** The leases after a [put]. *)
Definition released (req : PutRequest) (s : KvStore) : gmap Z Lease :=
  match current s !! pq_key req with
  | Some old => if bool_decide (kv_lease old = pq_lease req) then leases s
                else detach_at (pq_key req) (kv_lease old) (leases s)
  | None => leases s
  end.

Lemma put_run req s : ∃ m o,
  put req s = (mkPutResponse (mkHeader 1 1 (revision s +w 1) 1)
      (if pq_prev_kv req then current s !! pq_key req else None),
    set_watch_inboxes m (set_leases (attach_at (pq_key req) (pq_lease req) (released req s)) (set_history
      (<[revision s +w 1 := (pq_key req, EPut, written req s)]> (history s))
      (set_key_index (<[pq_key req := index_of s (pq_key req) ++ [revision s +w 1]]> (key_index s))
        (set_current (<[pq_key req := written req s]> (current s)) (set_revision (revision s +w 1) s))))),
    o).
Proof.
  eexists _, _. unfold put. do 7 run1.
  eapply bind_step; [eapply dispatch_run|cbv beta]. run1. reflexivity.
Qed.

Lemma evolves_put req s : evolves 1 s (final (put req) s).
Proof.
  destruct (put_run req s) as (m & o & Hrun). rewrite (final_run _ _ _ _ _ Hrun).
  apply (evolves_write (pq_key req) (Some (written req s)) s (set_revision (revision s +w 1) s)); try done.
  split; [done|done|done|]. eexists. split; [done|]. done.
Qed.

(** The state after the removal of the live pair [kv] under [key] has been recorded. *)
Lemma record_delete_run key kv rev s : ∃ m o,
  record_delete key kv rev s = (tt,
    set_watch_inboxes m (set_history (<[rev := (key, EDelete, make_delete_kv kv rev)]> (history s))
      (set_key_index (<[key := index_of s key ++ [rev]]> (key_index s)) s)), o).
Proof. eexists _, _. unfold record_delete. do 2 run1. apply dispatch_run. Qed.

Lemma delete_key_run key rev s kv : current s !! key = Some kv → ∃ m o,
  delete_key key rev s = (Some kv,
    set_watch_inboxes m (set_history (<[rev := (key, EDelete, make_delete_kv kv rev)]> (history s))
      (set_key_index (<[key := index_of s key ++ [rev]]> (key_index s))
        (set_leases (detach_at key (kv_lease kv) (leases s))
          (set_current (delete key (current s)) s)))), o).
Proof.
  intros Hk. destruct (record_delete_run key kv rev (set_leases (detach_at key (kv_lease kv) (leases s))
    (set_current (delete key (current s)) s))) as (m & o & Hr).
  eexists m, _. unfold delete_key. run1. rewrite Hk. do 2 run1.
  eapply bind_step; [exact Hr|]. reflexivity.
Qed.

Lemma delete_key_absent key rev s : current s !! key = None → delete_key key rev s = (None, s, []).
Proof. intros Hk. unfold delete_key, mbind, M_bind. simpl. by rewrite Hk. Qed.

Lemma delete_keys_counters keys rev s :
  let s' := final (delete_keys keys rev) s in
  revision s' = revision s ∧ compacted_revision s' = compacted_revision s.
Proof.
  revert s. induction keys as [|key keys IH]; intros s; [done|].
  cbn [delete_keys]. rewrite final_bind, final_bind. change (final (mret _) ?x) with x.
  destruct (current s !! key) as [kv|] eqn:Hk.
  - destruct (delete_key_run key rev s kv Hk) as (m & o & Hrun).
    rewrite (final_run _ _ _ _ _ Hrun). by edestruct IH as [-> ->].
  - rewrite (final_run _ _ _ _ _ (delete_key_absent key rev s Hk)). apply IH.
Qed.

Lemma represents_delete_keys f keys H s :
  represents f H s → fresh s → f ≤ revision s →
  ∃ H', represents f H' (final (delete_keys keys (revision s)) s) ∧ ∀ r, r < revision s → H' r = H r.
Proof.
  revert H s. induction keys as [|key keys IH]; intros H s Hrep Hfr Hf; [by eauto|].
  cbn [delete_keys]. rewrite final_bind, final_bind. change (final (mret _) ?x) with x.
  destruct (current s !! key) as [kv|] eqn:Hk.
  - destruct (delete_key_run key (revision s) s kv Hk) as (m & o & Hrun).
    rewrite (final_run _ _ _ _ _ Hrun). clear Hrun.
    match goal with |- context [final (delete_keys keys _) ?t] => remember t as s1 eqn:Hs1 end.
    assert (Hr1 : revision s1 = revision s) by by subst.
    assert (Hlt : ∀ r, r ∈ index_of s key → r < revision s).
    { intros r Hr. pose proof (rep_live _ _ _ Hrep _ _ _ Hk Hr). specialize (Hfr _ _ Hk). lia. }
    assert (Hrep1 : represents f (extend H (revision s) (current s1)) s1).
    { eapply (represents_write _ _ _ _ key None); eauto; [|by intros []].
      subst s1. split; [done|done|done|]. by eexists. }
    assert (Hfr1 : fresh s1).
    { intros k' kv'. rewrite Hr1. subst s1. simpl. intros [_ Hk']%lookup_delete_Some. by apply (Hfr k'). }
    destruct (IH _ _ Hrep1 Hfr1) as (H' & ? & Hp); [by rewrite Hr1|].
    rewrite Hr1 in *. exists H'. split; [done|].
    intros r Hr. rewrite Hp by done. by apply extend_lt.
  - rewrite (final_run _ _ _ _ _ (delete_key_absent key (revision s) s Hk)). by apply IH.
Qed.

Lemma evolves_delete_range req s : evolves 1 s (final (delete_range req) s).
Proof.
  unfold delete_range. rewrite final_bind.
  change (final next_revision s) with (set_revision (revision s +w 1) s).
  change (res next_revision s) with (revision s +w 1).
  rewrite final_get_bind, final_bind, final_bind. change (final (mret _) ?x) with x.
  change (final header ?x) with x.
  match goal with |- context [delete_keys ?l _] => generalize l as keys end. intros keys Hn.
  set (s1 := set_revision (revision s +w 1) s).
  assert (Hr1 : revision s1 = revision s + 1) by (unfold s1; simpl; by rewrite u64_add_1 by u64_lia).
  change (revision s +w 1) with (revision s1).
  destruct (delete_keys_counters keys (revision s1) s1) as [-> ->]. split; [done|].
  intros H HH. destruct (represents_bump _ _ _ s1 HH) as (Hb1 & Hb2 & _); [done..|].
  destruct (represents_delete_keys _ keys _ _ Hb1 Hb2) as (H' & HH' & Hp).
  { rewrite Hr1. apply (rep_floor _ _ _ HH). }
  exists H'. split; [done|]. intros r Hr. rewrite Hp by lia. apply extend_lt. lia.
Qed.

(** Transactions: reads leave the store alone, every operation takes at most one revision. *)
Lemma respond_run req kvs s : ∃ r, respond req kvs s = (r, s, []).
Proof. unfold respond, mbind, M_bind. simpl. destruct (rq_count_only req); by eexists. Qed.

Lemma range_run req s : ∃ r, range req s = (r, s, []).
Proof.
  unfold range, range_at_revision, mbind, M_bind. simpl.
  destruct (rq_revision req) as [t|]; [destruct (_ && _); [by eexists|]|];
    match goal with |- context [respond req ?l s] => destruct (respond_run req l s) as [r ->] end;
    by eexists.
Qed.

Lemma txn_compare_run cmps s : ∃ b, txn_compare cmps s = (b, s, []).
Proof.
  induction cmps as [|c cmps [b IH]]; [by eexists|]. simpl. unfold mbind, M_bind.
  destruct (range_run (get_request (c_key c)) s) as [r ->]. simpl.
  destruct (compare_kv _ _); [rewrite IH|]; by eexists.
Qed.

Lemma evolves_ops ops s : ∃ n, n ≤ vlen ops ∧ evolves n s (final (for_each ops exec_op) s).
Proof.
  revert s. induction ops as [|op ops IH]; intros s; [exists 0; split; [done|]; by apply evolves_same|].
  cbn [for_each]. rewrite final_bind.
  assert (Hop : ∃ n, n ≤ 1 ∧ evolves n s (final (exec_op op) s)).
  { destruct op; unfold exec_op; rewrite ?final_then_skip.
    - exists 0. split; [lia|]. by apply evolves_same.
    - exists 1. split; [lia|]. apply evolves_put.
    - exists 1. split; [lia|]. apply evolves_delete_range. }
  destruct Hop as (n & Hn & H1). destruct (IH (final (exec_op op) s)) as (n' & Hn' & H2).
  exists (n + n'). rewrite vlen_cons. split; [lia|]. by eapply evolves_trans.
Qed.

Lemma evolves_txn req s : ∃ n,
  n ≤ vlen (t_success req) `max` vlen (t_failure req) ∧ evolves n s (final (txn req) s).
Proof.
  unfold txn. rewrite final_bind. destruct (txn_compare_run (t_compare req) s) as [b Hb].
  rewrite (final_run _ _ _ _ _ Hb). unfold txn_execute. rewrite final_bind, final_bind.
  change (final (mret _) ?x) with x. change (final header ?x) with x.
  destruct (evolves_ops (if res (txn_compare (t_compare req)) s then t_success req else t_failure req) s)
    as (n & Hn & He).
  exists n. split; [|done]. destruct (res _ s); lia.
Qed.

(** Revoking leases: every revision taken removes a live key. *)
Definition revokes (s s' : KvStore) : Prop :=
  ∃ n, evolves n s s' ∧ n + N.of_nat (size (current s')) ≤ N.of_nat (size (current s)).

#[export] Instance revokes_preorder : PreOrder revokes.
Proof.
  split.
  - intros s. exists 0. split; [by apply evolves_same|lia].
  - intros s1 s2 s3 (n & H12 & ?) (n' & H23 & ?). exists (n + n'). split; [by eapply evolves_trans|lia].
Qed.

Lemma revokes_same s s' : same_mvcc s s' → revokes s s'.
Proof. intros Hs. exists 0. split; [by apply evolves_same|]. destruct Hs as [-> _ _ _ _]. lia. Qed.

Lemma revoke_key_run key s kv : current s !! key = Some kv → ∃ m o,
  revoke_key key s = (tt,
    set_watch_inboxes m (set_history
      (<[revision s +w 1 := (key, EDelete, make_delete_kv kv (revision s +w 1))]> (history s))
      (set_key_index (<[key := index_of s key ++ [revision s +w 1]]> (key_index s))
        (set_revision (revision s +w 1) (set_current (delete key (current s)) s)))), o).
Proof.
  intros Hk. destruct (record_delete_run key kv (revision s +w 1)
    (set_revision (revision s +w 1) (set_current (delete key (current s)) s))) as (m & o & Hr).
  eexists m, _. unfold revoke_key. run1. rewrite Hk. do 2 run1. exact Hr.
Qed.

Lemma revoke_key_revokes key s : revokes s (final (revoke_key key) s).
Proof.
  destruct (current s !! key) as [kv|] eqn:Hk.
  - destruct (revoke_key_run key s kv Hk) as (m & o & Hrun). rewrite (final_run _ _ _ _ _ Hrun).
    exists 1. split.
    + apply (evolves_write key None s (set_revision (revision s +w 1) s)); try done.
      split; [done|done|done|]. by eexists.
    + simpl. rewrite map_size_delete_Some by eauto.
      assert (size (current s) ≠ 0)%nat by (rewrite map_size_ne_0_lookup; eauto). lia.
  - assert (Hrun : revoke_key key s = (tt, s, []))
      by (unfold revoke_key, mbind, M_bind; simpl; by rewrite Hk).
    by rewrite (final_run _ _ _ _ _ Hrun).
Qed.

Lemma for_each_revokes {A} (l : list A) (body : A → Store unit) s :
  (∀ x s, revokes s (final (body x) s)) → revokes s (final (for_each l body) s).
Proof.
  intros Hb. revert s. induction l as [|x l IH]; intros s; [reflexivity|].
  cbn [for_each]. rewrite final_bind. etrans; [apply Hb|apply IH].
Qed.

Lemma lease_revoke_revokes id s : revokes s (final (lease_revoke id) s).
Proof.
  unfold lease_revoke. rewrite final_get_bind. destruct (leases s !! id) as [l|]; [|reflexivity].
  rewrite !final_bind. change (final (mret _) ?x) with x.
  etrans; [|apply for_each_revokes, revoke_key_revokes]. by apply revokes_same.
Qed.

Lemma expire_leases_revokes now s : revokes s (final (expire_leases now) s).
Proof.
  unfold expire_leases. rewrite final_get_bind. apply for_each_revokes.
  intros id s'. rewrite final_then_skip. apply lease_revoke_revokes.
Qed.

(** Compaction takes no revision. *)
Lemma evolves_compact_v2 rev s : evolves 0 s (final (compact_v2 rev) s).
Proof.
  unfold compact_v2. destruct (N.eqb_spec rev 0); [by apply evolves_same|].
  unfold current_revision. rewrite final_gets_bind. destruct (N.ltb_spec (revision s) rev) as [|Hle]; [by apply evolves_same|].
  rewrite final_gets_bind. destruct (N.leb_spec rev (compacted_revision s)) as [|Hlt]; [by apply evolves_same|].
  rewrite !final_bind. finals. change (final (mret _) ?x) with x. intros _.
  set (s1 := final (drop_history_below rev) (set_compacted_revision rev s)).
  split; [by rewrite N.add_0_r|]. intros H HH. exists H. split; [|done].
  assert (Hd : represents rev H s1) by (eapply represents_drop; try done; lia).
  apply (represents_prune rev H s1); try done.
  intros r e. unfold s1. simpl. intros [_ ?]%map_lookup_filter_Some. done.
Qed.

Lemma evolves_watermark s : evolves 0 s (final apply_compaction_watermark s).
Proof.
  unfold apply_compaction_watermark. rewrite !final_gets_bind.
  destruct (_ || _); [by apply evolves_same|]. rewrite final_bind, final_gets_bind.
  apply evolves_compact_v2.
Qed.
