(* ===== verification/EtcdHistory.v ===== *)
(** * Runs of commands on the store

    The commands a client can issue, as a type, and the theorems on their runs from an
    empty store: reads at past revisions, compaction, compare-and-swap on the modification
    revision. *)

From S2P Require Import Prelude Bytes Effects EtcdTypes EtcdStore EtcdMvcc.

Inductive Command : Type :=
| CPut (req : PutRequest)
| CDeleteRange (req : DeleteRangeRequest)
| CTxn (req : TxnRequest)
| CTxnChecked (req : TxnRequest)
| CWatchCreate (req : WatchCreateRequest)
| CWatchSubscribe (id : Z)
| CWatchCancel (id : Z)
| CDropReceiver (chan : N)
| CLeaseGrant (now : Z) (req : LeaseGrantRequest)
| CLeaseGrantV2 (now : Z) (req : LeaseGrantRequest)
| CLeaseRevoke (id : Z)
| CLeaseKeepalive (now : Z) (id : Z)
| CExpireLeases (now : Z)
| CCompaction (rev : u64)
| CCompactV2 (rev : u64)
| CSetWatermark (rev : u64)
| CApplyWatermark.

Definition exec (c : Command) : Store unit :=
  match c with
  | CPut req => put req;; skip
  | CDeleteRange req => delete_range req;; skip
  | CTxn req => txn req;; skip
  | CTxnChecked req => txn_checked req;; skip
  | CWatchCreate req => watch_create req;; skip
  | CWatchSubscribe id => watch_subscribe id;; skip
  | CWatchCancel id => watch_cancel id;; skip
  | CDropReceiver chan => drop_receiver chan
  | CLeaseGrant now req => lease_grant now req;; skip
  | CLeaseGrantV2 now req => lease_grant_v2 now req;; skip
  | CLeaseRevoke id => lease_revoke id;; skip
  | CLeaseKeepalive now id => lease_keepalive now id;; skip
  | CExpireLeases now => expire_leases now
  | CCompaction rev => compaction rev;; skip
  | CCompactV2 rev => compact_v2 rev;; skip
  | CSetWatermark rev => set_watermark rev;; skip
  | CApplyWatermark => apply_compaction_watermark;; skip
  end.

Definition run (cmds : list Command) (s : KvStore) : KvStore := final (for_each cmds exec) s.

(** The unchecked [compaction] is treated apart. *)
Definition checked (c : Command) : Prop := match c with CCompaction _ => False | _ => True end.

(** The revisions a command can take, and the runs in which the counter does not wrap. *)
Definition weight (c : Command) (s : KvStore) : N :=
  match c with
  | CPut _ | CDeleteRange _ => 1
  | CTxn req | CTxnChecked req => vlen (t_success req) `max` vlen (t_failure req)
  | CLeaseRevoke _ | CExpireLeases _ => N.of_nat (size (current s))
  | _ => 0
  end.
Fixpoint fits (cmds : list Command) (s : KvStore) : Prop :=
  match cmds with
  | [] => True
  | c :: cmds => revision s + weight c s < u64_modulus ∧ fits cmds (final (exec c) s)
  end.

(** ** Every command evolves the store *)

Lemma evolves_watch_create req s : same_mvcc s (final (watch_create req) s).
Proof. done. Qed.
Lemma same_watch_subscribe id s : same_mvcc s (final (watch_subscribe id) s).
Proof. unfold watch_subscribe. rewrite final_get_bind. by destruct (watch_configs s !! id). Qed.
Lemma same_lease_grant now req s : same_mvcc s (final (lease_grant now req) s).
Proof. unfold lease_grant. by destruct (lq_id req). Qed.
Lemma same_lease_grant_v2 now req s : same_mvcc s (final (lease_grant_v2 now req) s).
Proof.
  unfold lease_grant_v2. destruct (_ <? 0)%Z; [done|]. rewrite final_get_bind.
  destruct (lq_id req) as [id|]; [|done]. destruct (_ && _); [done|]. by destruct (id =? 0)%Z.
Qed.
Lemma same_lease_keepalive now id s : same_mvcc s (final (lease_keepalive now id) s).
Proof. unfold lease_keepalive. rewrite final_get_bind. by destruct (leases s !! id). Qed.
Lemma same_set_watermark rev s : same_mvcc s (final (set_watermark rev) s).
Proof. unfold set_watermark, current_revision. rewrite final_gets_bind. by destruct (_ <? _). Qed.

Lemma exec_evolves c s : checked c → ∃ n, n ≤ weight c s ∧ evolves n s (final (exec c) s).
Proof.
  assert (Hsame : ∀ s', same_mvcc s s' → ∃ n, n ≤ 0 ∧ evolves n s s')
    by (intros s' ?; exists 0; split; [done|by apply evolves_same]).
  assert (Hrev : ∀ s', revokes s s' → ∃ n, n ≤ N.of_nat (size (current s)) ∧ evolves n s s')
    by (intros s' (n & ? & ?); exists n; split; [lia|done]).
  destruct c; intros Hc; try destruct Hc; unfold exec, weight; rewrite ?final_then_skip.
  - exists 1. split; [done|apply evolves_put].
  - exists 1. split; [done|apply evolves_delete_range].
  - apply evolves_txn.
  - unfold txn_checked. destruct (_ <? _); [destruct (Hsame s) as (n & ? & ?); [done|]; exists n; split; [lia|done]|].
    rewrite final_bind. apply evolves_txn.
  - apply Hsame, evolves_watch_create.
  - apply Hsame, same_watch_subscribe.
  - by apply Hsame.
  - by apply Hsame.
  - apply Hsame, same_lease_grant.
  - apply Hsame, same_lease_grant_v2.
  - apply Hrev, lease_revoke_revokes.
  - apply Hsame, same_lease_keepalive.
  - apply Hrev, expire_leases_revokes.
  - exists 0. split; [done|apply evolves_compact_v2].
  - apply Hsame, same_set_watermark.
  - exists 0. split; [done|apply evolves_watermark].
Qed.

Lemma run_app cmds1 cmds2 s : run (cmds1 ++ cmds2) s = run cmds2 (run cmds1 s).
Proof.
  unfold run. revert s. induction cmds1 as [|c cmds1 IH]; intros s; [done|].
  cbn [for_each app]. by rewrite !final_bind, IH.
Qed.
Lemma fits_app cmds1 cmds2 s : fits (cmds1 ++ cmds2) s ↔ fits cmds1 s ∧ fits cmds2 (run cmds1 s).
Proof.
  unfold run. revert s. induction cmds1 as [|c cmds1 IH]; intros s; [by simpl; intuition|].
  cbn [for_each app fits]. rewrite final_bind, IH. intuition.
Qed.

(** A run extends the abstract store and keeps its past. *)
Lemma run_represents cmds s H :
  Forall checked cmds → fits cmds s → represents (compacted_revision s) H s →
  revision s ≤ revision (run cmds s) ∧
  ∃ H', represents (compacted_revision (run cmds s)) H' (run cmds s) ∧
    ∀ r, r ≤ revision s → H' r = H r.
Proof.
  intros Hc. revert s H. induction Hc as [|c cmds Hc _ IH]; intros s H Hfits HH; [by eauto|].
  destruct Hfits as [Hw Hfits]. unfold run. cbn [for_each]. rewrite final_bind.
  destruct (exec_evolves c s Hc) as (n & Hn & He). destruct He as [Hr He]; [lia|].
  destruct (He H HH) as (H1 & HH1 & Hp1). destruct (IH _ _ Hfits HH1) as (Hr2 & H2 & HH2 & Hp2).
  change (final (for_each cmds exec) ?x) with (run cmds x). split; [lia|].
  exists H2. split; [done|]. intros r Hr'. rewrite Hp2 by lia. by apply Hp1.
Qed.

Lemma represents_new now : represents 0 (λ _, ∅) (new now).
Proof.
  assert (Hi : ∀ k, index_of (new now) k = []) by (intros; unfold index_of; simpl; by rewrite lookup_empty).
  split; intros *; rewrite ?Hi; simpl; rewrite ?lookup_empty; try done; try set_solver.
  constructor.
Qed.

(** The shape of the runs the theorems speak of: a first run up to [s1], a second to [s2]. *)
Lemma two_runs now cmds1 cmds2 :
  let s1 := run cmds1 (new now) in
  let s2 := run cmds2 s1 in
  Forall checked (cmds1 ++ cmds2) → fits (cmds1 ++ cmds2) (new now) →
  ∃ H, represents (compacted_revision s2) H s2 ∧ H 0 = ∅ ∧
    revision s1 ≤ revision s2 ∧ H (revision s1) = current s1.
Proof.
  intros s1 s2 [Hc1 Hc2]%Forall_app [Hf1 Hf2]%fits_app.
  destruct (run_represents cmds1 (new now) (λ _, ∅) Hc1 Hf1) as (Hr1 & H1 & HH1 & Hp1); [apply represents_new|].
  destruct (run_represents cmds2 s1 H1 Hc2 Hf2 HH1) as (Hr2 & H2 & HH2 & Hp2).
  exists H2. split_and!; [done| |done|].
  - rewrite Hp2 by lia. by rewrite Hp1 by (simpl; lia).
  - rewrite Hp2 by done. apply (rep_current _ _ _ HH1).
Qed.

(** ** The pairs a range selects *)

(** The pairs of a map a range request is about, in key order. *)
Definition select (req : RangeRequest) (m : gmap bytes KeyValue) : list KeyValue :=
  match rq_range_end req with
  | Some range_end =>
      merge_sort kv_le (snd <$> filter (λ e, in_range (rq_key req) range_end e.1) (map_to_list m))
  | None => option_list (m !! rq_key req)
  end.

(** A map whose pairs carry their key. *)
Definition keyed (m : gmap bytes KeyValue) : Prop := ∀ k kv, m !! k = Some kv → kv_key kv = k.

Lemma kv_sort_unique l1 l2 :
  l1 ≡ₚ l2 → NoDup (kv_key <$> l1) → merge_sort kv_le l1 = merge_sort kv_le l2.
Proof.
  intros Hp Hnd. apply (StronglySorted_unique_strong kv_le).
  - intros x y Hx Hy Hxy Hyx.
    assert (Hk : kv_key x = kv_key y) by (by apply (anti_symm bytes_le)).
    rewrite merge_sort_Permutation in Hx, Hy. rewrite <- Hp in Hy.
    apply list_elem_of_lookup in Hx as [i Hi]. apply list_elem_of_lookup in Hy as [j Hj].
    assert (i = j) as ->; [|congruence]. eapply NoDup_lookup; [exact Hnd| |].
    + by rewrite list_lookup_fmap, Hi.
    + by rewrite list_lookup_fmap, Hj, Hk.
  - apply StronglySorted_merge_sort; apply _.
  - apply StronglySorted_merge_sort; apply _.
  - by rewrite !merge_sort_Permutation.
Qed.

(** A list of keyed options: the keys of the pairs found are distinct. *)
Lemma omap_keys_NoDup {A} (f : bytes → option KeyValue) (l : list (bytes * A)) :
  (∀ k kv, f k = Some kv → kv_key kv = k) → NoDup (fst <$> l) →
  NoDup (kv_key <$> omap (λ e, f e.1) l).
Proof.
  intros Hf. induction l as [|[k a] l IH]; simpl; [constructor|].
  rewrite NoDup_cons. intros [Hk Hnd]. destruct (f k) as [kv|] eqn:Hfk; [|by apply IH].
  simpl. rewrite NoDup_cons. split; [|by apply IH]. rewrite (Hf _ _ Hfk).
  intros (kv' & Hkv' & (e & He & Hfe)%list_elem_of_omap)%list_elem_of_fmap.
  apply Hk. apply list_elem_of_fmap. exists e. split; [|done]. rewrite Hkv'. by apply Hf.
Qed.

Lemma selected_NoDup (P : bytes * KeyValue → bool) (m : gmap bytes KeyValue) :
  keyed m → NoDup (kv_key <$> (snd <$> filter P (map_to_list m))).
Proof.
  intros Hm. rewrite <- list_fmap_compose.
  assert (He : kv_key ∘ snd <$> filter P (map_to_list m) = fst <$> filter P (map_to_list m)).
  { apply list_fmap_ext. intros i [k kv] Hi. simpl. apply Hm.
    apply elem_of_map_to_list. apply list_elem_of_lookup_2 in Hi.
    by apply list_elem_of_filter in Hi as [_ ?]. }
  rewrite He. eapply sublist_NoDup; [apply (NoDup_fst_map_to_list m)|].
  apply fmap_sublist, sublist_filter.
Qed.

(** The pairs read through the index are those of the map it stands for. *)
Lemma select_index s t m (lo hi : bytes) :
  keyed m → (∀ k, get_at_revision s k t = m !! k) →
  merge_sort kv_le (omap (λ e, if in_range lo hi e.1 then get_at_revision s e.1 t else None)
    (map_to_list (key_index s))) =
  merge_sort kv_le (snd <$> filter (λ e, in_range lo hi e.1) (map_to_list m)).
Proof.
  intros Hm Hget.
  assert (Hf : ∀ k kv, (if in_range lo hi k then get_at_revision s k t else None) = Some kv →
    kv_key kv = k) by (intros k kv; destruct (in_range lo hi k); rewrite ?Hget; [apply Hm|done]).
  pose proof (omap_keys_NoDup _ (map_to_list (key_index s)) Hf
    (NoDup_fst_map_to_list _)) as Hnd.
  apply kv_sort_unique; [|done]. apply NoDup_Permutation.
  - by eapply NoDup_fmap_1.
  - eapply (NoDup_fmap_1 kv_key). by apply (selected_NoDup (λ e, in_range lo hi e.1)).
  - intros kv. rewrite list_elem_of_omap, list_elem_of_fmap. split.
    + intros ([k l] & _ & Hk). simpl in Hk. destruct (in_range lo hi k) eqn:Hin; [|done].
      rewrite Hget in Hk. exists (k, kv). split; [done|].
      apply list_elem_of_filter. split; [by simpl; rewrite Hin|]. by apply elem_of_map_to_list.
    + intros ([k kv'] & -> & [Hin Hk]%list_elem_of_filter). simpl in *.
      apply elem_of_map_to_list in Hk. rewrite <- Hget in Hk.
      destruct (key_index s !! k) as [l|] eqn:Hi; [|unfold get_at_revision in Hk; by rewrite Hi in Hk].
      exists (k, l). split; [by apply elem_of_map_to_list|]. simpl.
      destruct (in_range lo hi k); [done|]. by destruct Hin.
Qed.

(** ** Time travel *)

(** What [respond] answers in a state, apart from the header. *)
Definition answer (r : EtcdResult RangeResponse) : option (list KeyValue * u64 * bool) :=
  match r with Ok r => Some (rs_kvs r, rs_count r, rs_more r) | Err _ => None end.

Definition at_revision (req : RangeRequest) (r : option u64) : RangeRequest :=
  mkRangeRequest (rq_key req) (rq_range_end req) (rq_limit req) r (rq_keys_only req) (rq_count_only req).

(** The trimming of the selected pairs. *)
Definition trimmed (req : RangeRequest) (kvs : list KeyValue) : list KeyValue * u64 * bool :=
  if rq_count_only req then ([], vlen kvs, false)
  else
    let short := match rq_limit req with Some n => vtruncate kvs n | None => kvs end in
    (if rq_keys_only req then clear_value <$> short else short, vlen kvs,
     match rq_limit req with Some n => n <? vlen kvs | None => false end).

Lemma respond_answer req kvs s : answer (Ok (res (respond req kvs) s)) = Some (trimmed req kvs).
Proof.
  unfold respond, trimmed, res, mbind, M_bind, vtruncate. simpl.
  destruct (rq_count_only req); [done|]. simpl. destruct (rq_limit req) as [n|]; [|done].
  by destruct (n <? vlen kvs).
Qed.

Lemma range_now req s :
  answer (res (range (at_revision req None)) s) = Some (trimmed req (select req (current s))).
Proof.
  unfold range. rewrite res_bind. finals. change (rq_revision (at_revision req None)) with (@None N).
  cbv iota beta. rewrite res_bind. change (res (mret ?x) ?y) with x.
  by rewrite (respond_answer (at_revision req None)).
Qed.

Lemma range_past req s r m :
  compacted_revision s ≤ r → keyed m → (∀ k, get_at_revision s k r = m !! k) →
  answer (res (range (at_revision req (Some r))) s) = Some (trimmed req (select req m)).
Proof.
  intros Hc Hm Hget. unfold range. rewrite res_bind. finals.
  change (rq_revision (at_revision req (Some r))) with (Some r). cbv iota beta.
  assert (Hlt : (r <? compacted_revision s) = false) by (apply N.ltb_ge; done).
  rewrite Hlt. simpl. rewrite res_bind. change (res (mret ?x) ?y) with x.
  unfold range_at_revision. rewrite res_bind. finals.
  rewrite (respond_answer (at_revision req (Some r))). unfold trimmed, select, at_revision. simpl.
  destruct (rq_range_end req) as [hi|]; [by rewrite (select_index s r m)|]. by rewrite Hget.
Qed.

(** C3: reads at a past revision.  After any run [cmds1] from an empty store the store is
    at some revision [r]; after any further run [cmds2] in which nothing was compacted, a
    range request at revision [r] answers (pairs, count, and the flag that more are there)
    what the same request without a revision answered then. *)
Theorem time_travel_range now cmds1 cmds2 req :
  let s1 := run cmds1 (new now) in
  let s2 := run cmds2 s1 in
  Forall checked (cmds1 ++ cmds2) → fits (cmds1 ++ cmds2) (new now) →
  compacted_revision s2 = 0 →
  answer (res (range (at_revision req (Some (revision s1)))) s2) =
  answer (res (range (at_revision req None)) s1).
Proof.
  intros s1 s2 Hc Hf H0. destruct (two_runs now cmds1 cmds2 Hc Hf) as (H & HH & _ & Hr & Hcur).
  fold s1 s2 in HH, Hr, Hcur. rewrite range_now. apply range_past.
  - lia.
  - intros k kv. rewrite <- Hcur. intros Hk. by apply (rep_versions _ _ _ HH) in Hk as [? _].
  - intros k. rewrite (rep_reads _ _ _ HH) by done. rewrite Hcur, H0.
    destruct (current s1 !! k) as [kv|]; [|done]. simpl. case_N; done.
Qed.

(** Reads after a compaction.  A read of one key at a revision the store has passed
    finds the pair that was live then exactly if it was written at or after the compaction
    revision: compaction also forgets pairs that are still live. *)
Theorem compacted_reads now cmds1 cmds2 k :
  let s1 := run cmds1 (new now) in
  let s2 := run cmds2 s1 in
  Forall checked (cmds1 ++ cmds2) → fits (cmds1 ++ cmds2) (new now) →
  get_at_revision s2 k (revision s1) =
  match current s1 !! k with
  | Some kv => if compacted_revision s2 <=? kv_mod_revision kv then Some kv else None
  | None => None
  end.
Proof.
  intros s1 s2 Hc Hf. destruct (two_runs now cmds1 cmds2 Hc Hf) as (H & HH & _ & Hr & Hcur).
  fold s1 s2 in HH, Hr, Hcur. rewrite (rep_reads _ _ _ HH) by done. by rewrite Hcur.
Qed.

(** The comparisons of a transaction look at the live pairs. *)
Lemma txn_compare_spec cmps s :
  txn_compare cmps s = (forallb (λ c, compare_kv c (current s !! c_key c)) cmps, s, []).
Proof.
  assert (Hget : ∀ k, ∃ r, range (get_request k) s = (Ok r, s, []) ∧ head (rs_kvs r) = current s !! k).
  { intros k. eexists. split; [reflexivity|]. simpl. by destruct (current s !! k). }
  induction cmps as [|c cmps IH]; [done|]. destruct (Hget (c_key c)) as (r & Hr & Hh).
  cbn [txn_compare forallb]. unfold mbind, M_bind. rewrite Hr. cbv beta iota. rewrite Hh.
  destruct (compare_kv c (current s !! c_key c)); [by rewrite IH|done].
Qed.

(** The condition [mod_revision(k) == r]. *)
Definition mod_equals (k : bytes) (r : u64) : Compare := mkCompare k TMod CEqual None None (Some r).

(** C16: optimistic concurrency.  A client that saw the pair [kv] under a key and later
    passes the comparison of the key's modification revision with the one it saw knows that
    the key still holds [kv]: whatever ran in between, no write to the key can have gone
    unnoticed, not even one that restored the value. *)
Theorem mod_compare_detects_writes now cmds1 cmds2 k kv :
  let s1 := run cmds1 (new now) in
  let s2 := run cmds2 s1 in
  Forall checked (cmds1 ++ cmds2) → fits (cmds1 ++ cmds2) (new now) →
  current s1 !! k = Some kv →
  res (txn_compare [mod_equals k (kv_mod_revision kv)]) s2 = true ↔ current s2 !! k = Some kv.
Proof.
  intros s1 s2 Hc Hf Hk. destruct (two_runs now cmds1 cmds2 Hc Hf) as (H & HH & Hz & Hr & Hcur).
  fold s1 s2 in HH, Hr, Hcur. rewrite <- Hcur in Hk.
  destruct (rep_versions _ _ _ HH _ _ _ Hr Hk) as (_ & _ & Hm).
  rewrite (res_run _ _ _ _ _ (txn_compare_spec _ s2)). simpl forallb. rewrite andb_true_r.
  unfold compare_kv. simpl. destruct (current s2 !! k) as [kv2|] eqn:Hk2.
  - rewrite N.eqb_eq. split; [|by intros [= ->]]. intros He.
    rewrite <- (rep_current _ _ _ HH) in Hk2.
    destruct (rep_versions _ _ _ HH _ _ _ (N.le_refl _) Hk2) as (_ & _ & Hm2). congruence.
  - rewrite N.eqb_eq. split; [|done]. intros He. rewrite <- He, Hz, lookup_empty in Hm. done.
Qed.

(** ** A concrete run *)

Module RunExample.
Definition put_of (k v : string) : Command := CPut (mkPutRequest (str k) (str v) None false).
Definition cmds1 : list Command := [put_of "a" "1"; put_of "b" "2"; put_of "a" "3"].
Definition cmds2 : list Command :=
  [CDeleteRange (mkDeleteRangeRequest (str "a") (Some (str "c")) false); put_of "b" "4"].
Definition cmds2_compacting : list Command := [put_of "b" "4"; CCompactV2 4].
Definition req : RangeRequest := mkRangeRequest (str "a") (Some (str "z")) None None false false.
Definition b2 : KeyValue := mkKeyValue (str "b") (str "2") 3 3 1 None.
End RunExample.
Import RunExample.

Lemma time_travel_range_witness :
  let s1 := run cmds1 (new 0) in
  let s2 := run cmds2 s1 in
  answer (res (range (at_revision req (Some (revision s1)))) s2) =
    answer (res (range (at_revision req None)) s1) ∧
  option_map (λ a, length a.1.1) (answer (res (range (at_revision req None)) s1)) = Some 2%nat.
Proof.
  intros s1 s2. split; [|vm_compute; reflexivity].
  apply (time_travel_range 0 cmds1 cmds2 req).
  - repeat constructor.
  - vm_compute. repeat split.
  - vm_compute. reflexivity.
Defined.

Lemma compacted_reads_witness :
  get_at_revision (run cmds2_compacting (run cmds1 (new 0))) (str "b") 4 = None ∧
  current (run cmds1 (new 0)) !! str "b" = Some b2.
Proof.
  split; [|vm_compute; reflexivity].
  etransitivity; [apply (compacted_reads 0 cmds1 cmds2_compacting (str "b"))|vm_compute; reflexivity].
  - repeat constructor.
  - vm_compute. repeat split.
Defined.

Lemma mod_compare_detects_writes_witness :
  res (txn_compare [mod_equals (str "b") 3]) (run cmds2 (run cmds1 (new 0))) = true ↔
  current (run cmds2 (run cmds1 (new 0))) !! str "b" = Some b2.
Proof.
  apply (mod_compare_detects_writes 0 cmds1 cmds2 (str "b") b2).
  - repeat constructor.
  - vm_compute. repeat split.
  - vm_compute. reflexivity.
Defined.
