(* ===== verification/EtcdKv.v ===== *)
(** * Functional behaviour of the key-value operations

    What [range], [put], [delete_range] and [txn] of [store.rs] return and store, for every
    request. *)

From S2P Require Import Prelude Bytes Effects EtcdTypes EtcdStore EtcdMvcc EtcdHistory.

(** The keys a request with [key] and [range_end] is about. *)
Definition wanted (lo : bytes) (hi : option bytes) (k : bytes) : bool :=
  match hi with Some hi => in_range lo hi k | None => bool_decide (k = lo) end.

(** Strictly increasing by key. *)
Definition key_lt (a b : KeyValue) : Prop := bytes_ltb (kv_key a) (kv_key b) = true.

Lemma bytes_le_ne_lt a b : bytes_le a b → a ≠ b → bytes_ltb a b = true.
Proof.
  unfold bytes_le, bytes_leb, bytes_ltb. destruct (bytes_cmp a b) eqn:Hc; try done.
  intros _ Hne. by apply bytes_cmp_eq in Hc.
Qed.

Lemma kv_sorted_strict l :
  StronglySorted kv_le l → NoDup (kv_key <$> l) → StronglySorted key_lt l.
Proof.
  induction 1 as [|a l Hl IH Ha]; intros Hnd; [constructor|].
  apply NoDup_cons in Hnd as [Hni Hnd]. constructor; [by apply IH|].
  rewrite Forall_forall in Ha |- *. intros x Hx. apply bytes_le_ne_lt; [by apply Ha|].
  intros He. apply Hni. rewrite He. by apply list_elem_of_fmap_2.
Qed.

Lemma select_elem req m kv : keyed m →
  kv ∈ select req m ↔ m !! kv_key kv = Some kv ∧ wanted (rq_key req) (rq_range_end req) (kv_key kv) = true.
Proof.
  intros Hm. unfold select, wanted. destruct (rq_range_end req) as [hi|].
  - rewrite merge_sort_Permutation, list_elem_of_fmap. split.
    + intros ([k kv'] & -> & [Hin Hk]%list_elem_of_filter). simpl in *.
      apply elem_of_map_to_list in Hk. rewrite (Hm _ _ Hk). split; [done|]. by apply Is_true_true.
    + intros [Hk Hin]. exists (kv_key kv, kv). split; [done|]. apply list_elem_of_filter.
      split; [by apply Is_true_true|]. by apply elem_of_map_to_list.
  - rewrite bool_decide_eq_true. destruct (m !! rq_key req) as [kv'|] eqn:Hk; simpl.
    + rewrite list_elem_of_singleton. split.
      * intros ->. rewrite (Hm _ _ Hk). done.
      * intros [Hk' He]. rewrite He in Hk'. congruence.
    + split; [set_solver|]. intros [Hk' He]. rewrite He in Hk'. congruence.
Qed.

Lemma select_sorted req m : keyed m → StronglySorted key_lt (select req m).
Proof.
  intros Hm. unfold select. destruct (rq_range_end req) as [hi|].
  - apply kv_sorted_strict; [apply StronglySorted_merge_sort; apply _|].
    rewrite merge_sort_Permutation. by apply (selected_NoDup (λ e, in_range (rq_key req) hi e.1)).
  - destruct (m !! rq_key req); repeat constructor.
Qed.

Lemma run_keyed now cmds : Forall checked cmds → fits cmds (new now) → keyed (current (run cmds (new now))).
Proof.
  intros Hc Hf. destruct (two_runs now cmds [] ) as (H & HH & _ & _ & Hcur); [by rewrite app_nil_r..|].
  intros k kv. rewrite <- Hcur. intros Hk. by apply (rep_versions _ _ _ HH) in Hk as [? _].
Qed.

(** Ranges.  On every store reached from the empty one, [range] without a revision
    looks at exactly the live pairs whose key the request covers, in strictly increasing
    key order; the answer is that list cut to the limit, with the full count and the flag
    telling whether the limit cut anything, values dropped for [keys_only], everything but
    the count dropped for [count_only]. *)
Theorem range_exact now cmds req :
  Forall checked cmds → fits cmds (new now) →
  let s := run cmds (new now) in
  ∃ kvs,
    StronglySorted key_lt kvs ∧
    (∀ kv, kv ∈ kvs ↔ current s !! kv_key kv = Some kv ∧
                     wanted (rq_key req) (rq_range_end req) (kv_key kv) = true) ∧
    answer (res (range (at_revision req None)) s) = Some (
      if rq_count_only req then ([], vlen kvs, false)
      else
        let cut := match rq_limit req with Some n => take (N.to_nat n) kvs | None => kvs end in
        (if rq_keys_only req then clear_value <$> cut else cut, vlen kvs,
         match rq_limit req with Some n => n <? vlen kvs | None => false end)).
Proof.
  intros Hc Hf s. pose proof (run_keyed now cmds Hc Hf) as Hm. exists (select req (current s)).
  split_and!; [by apply select_sorted|intros kv; by apply select_elem|].
  rewrite range_now. unfold trimmed. destruct (rq_count_only req); [done|].
  destruct (rq_limit req); [by rewrite vtruncate_take|done].
Qed.

Lemma range_exact_witness :
  ∃ kvs, answer (res (range (at_revision RunExample.req None)) (run RunExample.cmds1 (new 0))) =
    Some (kvs, 2, false).
Proof.
  destruct (range_exact 0 RunExample.cmds1 RunExample.req) as (kvs & _ & _ & Ha).
  - repeat constructor.
  - vm_compute. repeat split.
  - exists kvs. rewrite Ha. f_equal. f_equal. f_equal. apply (f_equal (option_map (λ a, a.1.2))) in Ha.
    vm_compute in Ha. by injection Ha.
Defined.

(** [put].  The new pair has the next revision as its modification revision, a version
    one above the previous one (1 for a new key) and the creation revision of the previous
    pair (the new revision for a new key); a read of the key returns it, no other key
    changes, and the response carries the new revision and, on demand, the previous pair. *)
Theorem put_spec req s :
  let s' := final (put req) s in
  let prev := current s !! pq_key req in
  let kv := mkKeyValue (pq_key req) (pq_value req)
              (from_option kv_create_revision (revision s +w 1) prev) (revision s +w 1)
              (from_option (λ p, kv_version p +w 1) 1 prev) (pq_lease req) in
  answer (res (range (get_request (pq_key req))) s') = Some ([kv], 1, false) ∧
  (∀ k, k ≠ pq_key req → current s' !! k = current s !! k) ∧
  revision s' = revision s +w 1 ∧
  res (put req) s = mkPutResponse (mkHeader 1 1 (revision s') 1)
    (if pq_prev_kv req then prev else None).
Proof.
  destruct (put_run req s) as (m & o & Hrun).
  rewrite (final_run _ _ _ _ _ Hrun), (res_run _ _ _ _ _ Hrun). split_and!; [|..|done|done].
  - etrans; [apply (range_now (get_request (pq_key req)))|].
    unfold trimmed, select. simpl. rewrite lookup_insert_eq. simpl. unfold written.
    by destruct (current s !! pq_key req).
  - intros k Hk. simpl. by rewrite lookup_insert_ne.
Qed.

Lemma delete_keys_spec keys rev s : NoDup keys →
  res (delete_keys keys rev) s = omap (λ k, current s !! k) keys ∧
  ∀ k, current (final (delete_keys keys rev) s) !! k =
       if decide (k ∈ keys) then None else current s !! k.
Proof.
  revert s. induction keys as [|key keys IH]; intros s Hnd.
  { split; [done|]. intros k. rewrite decide_False by set_solver. done. }
  apply NoDup_cons in Hnd as [Hni Hnd]. cbn [delete_keys]. rewrite !res_bind, !final_bind.
  change (final (mret ?a) ?x) with x. change (res (mret ?a) ?x) with a.
  assert (Hone : res (delete_key key rev) s = current s !! key ∧
    current (final (delete_key key rev) s) = delete key (current s)).
  { destruct (current s !! key) as [kv|] eqn:Hk.
    - destruct (delete_key_run key rev s kv Hk) as (m & o & Hrun).
      by rewrite (final_run _ _ _ _ _ Hrun), (res_run _ _ _ _ _ Hrun).
    - pose proof (delete_key_absent key rev s Hk) as Hrun.
      rewrite (final_run _ _ _ _ _ Hrun), (res_run _ _ _ _ _ Hrun).
      split; [done|]. by rewrite delete_id. }
  destruct Hone as [-> Hcur]. destruct (IH (final (delete_key key rev) s) Hnd) as [-> Hk].
  rewrite Hcur in *. split.
  - simpl. assert (He : omap (λ k, delete key (current s) !! k) keys = omap (λ k, current s !! k) keys).
    { apply omap_ext_in. intros k Hk'. apply lookup_delete_ne. by intros ->. }
    rewrite He. by destruct (current s !! key).
  - intros k. rewrite Hk, lookup_delete. repeat case_decide; set_solver.
Qed.

Lemma deleted_pairs req s :
  omap (λ k, current s !! k)
    match dq_range_end req with
    | Some range_end =>
        filter (λ k, in_range (dq_key req) range_end k) (fst <$> map_to_list (current s))
    | None => [dq_key req]
    end ≡ₚ snd <$> filter (λ e, wanted (dq_key req) (dq_range_end req) e.1) (map_to_list (current s)).
Proof.
  unfold wanted. destruct (dq_range_end req) as [hi|].
  - assert (Hl : ∀ l : list (bytes * KeyValue), (∀ e, e ∈ l → current s !! e.1 = Some e.2) →
      omap (λ k, current s !! k) (filter (λ k, in_range (dq_key req) hi k) (fst <$> l)) =
      snd <$> filter (λ e, in_range (dq_key req) hi e.1) l).
    { induction l as [|[k kv] l IH]; intros Hin; [done|]. rewrite fmap_cons, !filter_cons.
      assert (Hk : current s !! k = Some kv) by (apply (Hin (k, kv)); set_solver).
      assert (IH' : omap (λ k, current s !! k) (filter (λ k, in_range (dq_key req) hi k) (fst <$> l)) =
        snd <$> filter (λ e, in_range (dq_key req) hi e.1) l) by (apply IH; set_solver).
      simpl. case_decide; [|done]. rewrite fmap_cons. simpl. rewrite Hk. by f_equal. }
    rewrite Hl; [done|]. intros [k kv] Hk. by apply elem_of_map_to_list.
  - simpl. destruct (current s !! dq_key req) as [kv|] eqn:Hk; simpl.
    + rewrite <- (insert_delete_id _ _ _ Hk) at 1.
      rewrite map_to_list_insert by apply lookup_delete_eq.
      rewrite filter_cons_True by (simpl; by rewrite bool_decide_true).
      rewrite filter_none; [done|]. apply Forall_forall. intros [k kv'] Hin. simpl.
      apply elem_of_map_to_list in Hin. apply lookup_delete_Some in Hin as [Hne _].
      rewrite bool_decide_false; [tauto|congruence].
    + rewrite filter_none; [done|]. apply Forall_forall. intros [k kv'] Hin. simpl.
      apply elem_of_map_to_list in Hin. rewrite bool_decide_false; [tauto|]. intros ->. congruence.
Qed.

(** [delete_range] removes exactly the live keys the request covers and no other,
    takes one revision, and reports the number of pairs it removed and, on demand, the
    pairs. *)
Theorem delete_range_exact req s :
  let s' := final (delete_range req) s in
  let r := res (delete_range req) s in
  let gone := snd <$> filter (λ e, wanted (dq_key req) (dq_range_end req) e.1)
                (map_to_list (current s)) in
  (∀ k, current s' !! k =
        if wanted (dq_key req) (dq_range_end req) k then None else current s !! k) ∧
  revision s' = revision s +w 1 ∧ h_revision (ds_header r) = revision s' ∧
  ds_deleted r = vlen gone ∧
  (if dq_prev_kv req then ds_prev_kvs r ≡ₚ gone else ds_prev_kvs r = []).
Proof.
  unfold delete_range. rewrite !res_bind, !final_bind.
  change (final next_revision s) with (set_revision (revision s +w 1) s).
  change (res next_revision s) with (revision s +w 1). finals. cbv beta.
  change (current (set_revision (revision s +w 1) s)) with (current s).
  change (final (mret ?a) ?x) with x. change (res (mret ?a) ?x) with a.
  change (final header ?x) with x. pose proof (deleted_pairs req s) as Hp.
  set (keys := match dq_range_end req with Some _ => _ | None => _ end) in *.
  set (s1 := set_revision (revision s +w 1) s).
  assert (Hnd : NoDup keys).
  { unfold keys. destruct (dq_range_end req); [apply NoDup_filter, NoDup_fst_map_to_list|].
    apply NoDup_singleton. }
  destruct (delete_keys_spec keys (revision s +w 1) s1 Hnd) as [-> Hcur].
  change (current s1) with (current s) in *.
  destruct (delete_keys_counters keys (revision s +w 1) s1) as [Hr _].
  split_and!; [|by rewrite Hr|done|simpl; unfold vlen; by rewrite Hp|simpl; by destruct (dq_prev_kv req)].
  intros k. rewrite Hcur. unfold keys, wanted. destruct (dq_range_end req) as [hi|].
  - destruct (in_range (dq_key req) hi k) eqn:Hin; case_decide as Hk; try done.
    + destruct (current s !! k) as [kv|] eqn:Hl; [|done]. destruct Hk. apply list_elem_of_filter.
      split; [by rewrite Hin|]. apply list_elem_of_fmap. exists (k, kv). split; [done|].
      by apply elem_of_map_to_list.
    + apply list_elem_of_filter in Hk as [Hk _]. by rewrite Hin in Hk.
  - case_decide as Hk; rewrite list_elem_of_singleton in Hk; case_bool_decide; done.
Qed.
