(* ===== verification/EtcdWatch.v ===== *)
(** * The watch multiplexer

    [dispatch_event], [watch_subscribe] and [watch_cancel] of [store.rs]: what the receiver
    of a watch gets is the sequence of broadcast events its filter accepts, in order,
    each exactly once, for as long as the subscription is left alone. *)

From S2P Require Import Prelude Bytes Effects EtcdTypes EtcdStore EtcdMvcc EtcdHistory.

(** The events sent on a channel, and those broadcast, among the effects of a run. *)
Definition delivered (ch : N) (o : list Output) : list WatchEvent :=
  omap (λ x, match x with Deliver c e => if c =? ch then Some e else None | Broadcast _ => None end) o.
#[export] Instance delivered_perm ch : Proper ((≡ₚ) ==> (≡ₚ)) (delivered ch).
Proof. intros o1 o2 Ho. unfold delivered. by rewrite Ho. Qed.
Lemma delivered_app ch o1 o2 : delivered ch (o1 ++ o2) = delivered ch o1 ++ delivered ch o2.
Proof. apply omap_app. Qed.
Definition broadcasts (o : list Output) : list WatchEvent :=
  omap (λ x, match x with Broadcast e => Some e | Deliver _ _ => None end) o.
(** An event as the watch [cfg] sees it, if it does. *)
Definition seen (cfg : WatchConfig) (e : WatchEvent) : option WatchEvent :=
  if key_matches_watch (kv_key (ev_kv e)) cfg then Some (local_event cfg e) else None.

(** Watch [w] has filter [cfg] and an open inbox on channel [ch], which is its own. *)
Record watched (w : Z) (cfg : WatchConfig) (ch : N) (s : KvStore) : Prop := {
  wd_config : watch_configs s !! w = Some cfg;
  wd_inbox : watch_inboxes s !! w = Some (mkSender ch true);
  wd_own w' tx : watch_inboxes s !! w' = Some tx → tx_chan tx = ch → w' = w
}.

(** Channel names are below the counter. *)
Definition chans_ok (s : KvStore) : Prop :=
  ∀ w tx, watch_inboxes s !! w = Some tx → tx_chan tx < channels s.

Definition streams (w : Z) (cfg : WatchConfig) (ch : N) (s s' : KvStore) (o : list Output) : Prop :=
  watch_counter s' = watch_counter s ∧ watch_configs s' = watch_configs s ∧
  (chans_ok s → chans_ok s') ∧
  (watched w cfg ch s → watched w cfg ch s' ∧ delivered ch o = omap (seen cfg) (broadcasts o)).

#[export] Instance streams_frame w cfg ch : Frame (streams w cfg ch).
Proof.
  split; [by intros s|]. intros s1 s2 s3 o1 o2 (Hn1 & Hg1 & Hc1 & H1) (Hn2 & Hg2 & Hc2 & H2).
  split_and!; [congruence..|auto|]. intros Hw. destruct (H1 Hw) as [Hw2 Ho1]. destruct (H2 Hw2) as [Hw3 Ho2].
  split; [done|]. unfold delivered, broadcasts in *. by rewrite !omap_app, Ho1, Ho2.
Qed.

Section Stream.
Context (w : Z) (cfg : WatchConfig) (ch : N).

(** An assignment that leaves the watch fields alone. *)
Lemma streams_modify (s s' : KvStore) :
  watch_configs s' = watch_configs s → watch_inboxes s' = watch_inboxes s →
  watch_counter s' = watch_counter s → channels s' = channels s → streams w cfg ch s s' [].
Proof.
  intros Hc Hi Hn Hch. split_and!; [done|done| |].
  - unfold chans_ok. by rewrite Hi, Hch.
  - intros []. split; [|done]. split; rewrite ?Hc, ?Hi; done.
Qed.

Lemma pruned_lookup e s id :
  pruned e s !! id =
  if decide (id ∈ closed_ids e s (map_to_list (watch_inboxes s))) then None else watch_inboxes s !! id.
Proof.
  unfold pruned. generalize (closed_ids e s (map_to_list (watch_inboxes s))) as l. intros l.
  generalize (watch_inboxes s) as m. induction l as [|x l IH]; intros m; cbn [foldl].
  - rewrite decide_False by set_solver. done.
  - rewrite IH, lookup_delete. repeat case_decide; set_solver.
Qed.

Lemma pruned_open e s : watched w cfg ch s → pruned e s !! w = Some (mkSender ch true).
Proof.
  intros []. rewrite pruned_lookup. case_decide as Hin; [|done]. exfalso.
  apply list_elem_of_omap in Hin as ([id tx] & Hl & Hd). apply elem_of_map_to_list in Hl.
  destruct (dead e s (id, tx)) eqn:Hdead; [|done]. injection Hd as ->.
  rewrite wd_inbox0 in Hl. injection Hl as <-. unfold dead in Hdead. simpl in Hdead.
  rewrite wd_config0 in Hdead. by rewrite andb_false_r in Hdead.
Qed.

(** Of the messages of a fan-out, those on [ch] are the event as seen by [cfg]. *)
Lemma offered_delivered e s : watched w cfg ch s →
  delivered ch (omap (offered e s) (map_to_list (watch_inboxes s))) = option_list (seen cfg e).
Proof.
  intros []. assert (Hp : delivered ch (omap (offered e s) (map_to_list (watch_inboxes s)))
    ≡ₚ option_list (seen cfg e)).
  { rewrite <- (insert_delete_id _ _ _ wd_inbox0).
    rewrite map_to_list_insert by apply lookup_delete_eq. rewrite omap_cons_app, delivered_app.
    assert (Hrest : delivered ch (omap (offered e s) (map_to_list (delete w (watch_inboxes s)))) = []).
    { destruct (delivered _ _) as [|ev l] eqn:Hl; [done|]. exfalso.
      assert (Hin : ev ∈ ev :: l) by set_solver. rewrite <- Hl in Hin.
      apply list_elem_of_omap in Hin as (x & Hx & Hev).
      apply list_elem_of_omap in Hx as ([id tx] & Hid & Hoff).
      apply elem_of_map_to_list in Hid. apply lookup_delete_Some in Hid as [Hne Hid].
      unfold offered in Hoff. simpl in Hoff. destruct (watch_configs s !! id); [|done].
      destruct (_ && _); [|done]. injection Hoff as <-. destruct (N.eqb_spec (tx_chan tx) ch); [|done].
      apply Hne. symmetry. by eapply wd_own0. }
    rewrite Hrest, app_nil_r. unfold offered. simpl. rewrite wd_config0. unfold seen.
    rewrite andb_true_r. destruct (key_matches_watch _ cfg); [|done].
    unfold delivered. simpl. by rewrite N.eqb_refl. }
  unfold seen in *. destruct (key_matches_watch _ cfg); simpl in *.
  - by apply Permutation_singleton_r in Hp.
  - by apply Permutation_nil_r in Hp.
Qed.

Lemma dispatch_streams e s : holds_at (streams w cfg ch) (dispatch_event e) s.
Proof.
  unfold holds_at. rewrite (final_run _ _ _ _ _ (dispatch_run e s)), (outs_run _ _ _ _ _ (dispatch_run e s)).
  split_and!; [done|done| |].
  - intros Hc id tx. simpl. rewrite pruned_lookup. case_decide; [done|]. apply Hc.
  - intros Hw. split.
    + split; simpl; [apply Hw|by apply pruned_open|]. intros id tx. rewrite pruned_lookup.
      case_decide; [done|]. apply (wd_own _ _ _ _ Hw).
    + change (delivered ch (Broadcast e :: ?l)) with (delivered ch l). rewrite offered_delivered by done.
      assert (Hb : broadcasts (omap (offered e s) (map_to_list (watch_inboxes s))) = []).
      { unfold broadcasts. generalize (map_to_list (watch_inboxes s)) as l. intros l.
        induction l as [|x l IH]; [done|]. rewrite omap_cons_app, omap_app, IH. unfold offered.
        destruct (watch_configs s !! x.1); [destruct (_ && _)|]; done. }
      change (broadcasts (Broadcast e :: ?l)) with (e :: broadcasts l). rewrite Hb, omap_cons_app.
      by rewrite app_nil_r.
Qed.
End Stream.
#[export] Hint Resolve dispatch_streams : effects.

Ltac stream_step := walk; try (by apply streams_modify); try (apply streams_modify; by case_match).

Section Methods.
Context (w : Z) (cfg : WatchConfig) (ch : N).
Abbreviation ok := (holds_at (streams w cfg ch)).

Lemma next_revision_streams s : ok next_revision s.
Proof. unfold next_revision. stream_step. Qed.
Lemma put_streams req s : ok (put req) s.
Proof.
  unfold put. apply holds_bind; [apply _|apply next_revision_streams|]. stream_step.
Qed.
Lemma record_delete_streams key kv rev s : ok (record_delete key kv rev) s.
Proof. unfold record_delete. stream_step. Qed.
Hint Resolve next_revision_streams put_streams record_delete_streams : effects.
Lemma delete_key_streams key rev s : ok (delete_key key rev) s.
Proof. unfold delete_key. stream_step. Qed.
Hint Resolve delete_key_streams : effects.
Lemma delete_keys_streams keys rev s : ok (delete_keys keys rev) s.
Proof.
  revert s. induction keys as [|key keys IH]; intros s; cbn [delete_keys]; [apply holds_ret; apply _|].
  stream_step.
Qed.
Hint Resolve delete_keys_streams : effects.
Lemma delete_range_streams req s : ok (delete_range req) s.
Proof. unfold delete_range, header. stream_step. Qed.
Hint Resolve delete_range_streams : effects.
Lemma reads_stream {A} (m : Store A) s : (∃ a, m s = (a, s, [])) → ok m s.
Proof.
  intros [a Ha]. unfold holds_at. rewrite (final_run _ _ _ _ _ Ha), (outs_run _ _ _ _ _ Ha).
  apply frame_refl.
Qed.
Lemma exec_op_streams op s : ok (exec_op op) s.
Proof. destruct op; unfold exec_op; stream_step. Qed.
Hint Resolve exec_op_streams : effects.
Lemma txn_streams req s : ok (txn req) s.
Proof.
  unfold txn, txn_execute. apply holds_bind; [apply _| |stream_step].
  apply reads_stream. eexists. apply txn_compare_spec.
Qed.
Hint Resolve txn_streams : effects.
Lemma txn_checked_streams req s : ok (txn_checked req) s.
Proof. unfold txn_checked. stream_step. Qed.
Lemma revoke_key_streams key s : ok (revoke_key key) s.
Proof. unfold revoke_key. stream_step. Qed.
Hint Resolve revoke_key_streams : effects.
Lemma lease_revoke_streams id s : ok (lease_revoke id) s.
Proof. unfold lease_revoke. stream_step. Qed.
Hint Resolve lease_revoke_streams : effects.
Lemma expire_leases_streams now s : ok (expire_leases now) s.
Proof. unfold expire_leases. stream_step. Qed.
Lemma fresh_lease_id_streams s : ok fresh_lease_id s.
Proof. unfold fresh_lease_id. stream_step. Qed.
Hint Resolve fresh_lease_id_streams : effects.
Lemma lease_grant_streams now req s : ok (lease_grant now req) s.
Proof. unfold lease_grant, lease_insert. stream_step. Qed.
Lemma lease_grant_v2_streams now req s : ok (lease_grant_v2 now req) s.
Proof. unfold lease_grant_v2, lease_insert. stream_step. Qed.
Lemma lease_keepalive_streams now id s : ok (lease_keepalive now id) s.
Proof. unfold lease_keepalive, lease_insert. stream_step. Qed.
Lemma compaction_streams rev s : ok (compaction rev) s.
Proof. unfold compaction, compact, drop_history_below. stream_step. Qed.
Lemma compact_v2_streams rev s : ok (compact_v2 rev) s.
Proof. unfold compact_v2, current_revision, drop_history_below. stream_step. Qed.
Hint Resolve compact_v2_streams : effects.
Lemma set_watermark_streams rev s : ok (set_watermark rev) s.
Proof. unfold set_watermark, current_revision. stream_step. Qed.
Lemma apply_watermark_streams s : ok apply_compaction_watermark s.
Proof. unfold apply_compaction_watermark. stream_step. Qed.
Hint Resolve txn_checked_streams expire_leases_streams lease_grant_streams lease_grant_v2_streams
  lease_keepalive_streams compaction_streams set_watermark_streams apply_watermark_streams : effects.

(** The commands that are about watches are treated apart. *)
Definition watch_command (c : Command) : Prop :=
  match c with
  | CWatchCreate _ | CWatchSubscribe _ | CWatchCancel _ | CDropReceiver _ => True
  | _ => False
  end.
Lemma exec_streams c s : ¬ watch_command c → ok (exec c) s.
Proof. intros Hc. destruct c; try (by destruct Hc); unfold exec; stream_step. Qed.
End Methods.

(** ** Runs of commands *)

Definition ids_ok (s : KvStore) : Prop :=
  ∀ w cfg, watch_configs s !! w = Some cfg → (0 < w ≤ Z.of_N (watch_counter s))%Z.
Definition half : N := 9223372036854775808.

(** The commands that leave the subscription of watch [w] on channel [ch] alone. *)
Definition leaves (w : Z) (ch : N) (c : Command) : Prop :=
  match c with
  | CWatchSubscribe id | CWatchCancel id => id ≠ w
  | CDropReceiver c => c ≠ ch
  | _ => True
  end.

(** What a command does to the watches: [watch_create] is the only one to take an id. *)
Definition steps_to (s s' : KvStore) : Prop :=
  watch_counter s' ≤ watch_counter s + 1 ∧ (chans_ok s → chans_ok s') ∧ (ids_ok s → ids_ok s').

Lemma fresh_watch_id n : n + 1 < half → wrap_i64 (as_i64 n + 1) = (Z.of_N n + 1)%Z.
Proof.
  unfold half. intros Hn.
  assert (as_i64 n = Z.of_N n) as -> by (unfold as_i64, wrap_i64; rewrite Z.mod_small; lia).
  unfold wrap_i64. rewrite Z.mod_small; lia.
Qed.

Lemma exec_steps c s : watch_counter s + 1 < half → steps_to s (final (exec c) s).
Proof.
  intros Hn. assert (Hw : u64_add (watch_counter s) 1 = watch_counter s + 1) by (apply u64_add_small; unfold half, u64_modulus in *; lia).
  assert (Hplain : ¬ watch_command c → steps_to s (final (exec c) s)).
  { intros Hc. destruct (exec_streams 0 (mkWatchConfig 0 [] None None false) 0 c s Hc) as (Hn' & Hg & Hc' & _).
    split_and!; [lia|done|]. unfold ids_ok. by rewrite Hg, Hn'. }
  destruct c; try (apply Hplain; by intros []); clear Hplain; unfold exec; rewrite ?final_then_skip.
  - split_and!; [simpl; lia|done|]. intros Hids w cfg. simpl. rewrite fresh_watch_id by done.
    rewrite Hw. intros [[<- _]|[_ Hl%Hids]]%lookup_insert_Some; lia.
  - unfold watch_subscribe. rewrite final_get_bind. destruct (watch_configs s !! id) as [cfg|];
      [|change (final (mret ?a) ?x) with x; split_and!; [lia|done..]].
    split_and!; [simpl; lia| |done]. intros Hch w tx. simpl.
    intros [[_ <-]|[_ Hl%Hch]]%lookup_insert_Some; simpl; lia.
  - split_and!; [simpl; lia| |].
    + intros Hch w tx. simpl. intros [_ Hl%Hch]%lookup_delete_Some. done.
    + intros Hids w cfg. simpl. intros [_ Hl%Hids]%lookup_delete_Some. done.
  - split_and!; [simpl; lia| |done]. intros Hch w tx. simpl. rewrite lookup_fmap.
    destruct (watch_inboxes s !! w) as [tx0|] eqn:Hl; [|done]. simpl. intros [= <-].
    specialize (Hch _ _ Hl). case_N; simpl; lia.
Qed.

Section Run.
Context (w : Z) (cfg : WatchConfig) (ch : N).

Lemma exec_watched c s :
  watch_counter s + 1 < half → ids_ok s → chans_ok s → leaves w ch c → watched w cfg ch s →
  watched w cfg ch (final (exec c) s) ∧
  delivered ch (outs (exec c) s) = omap (seen cfg) (broadcasts (outs (exec c) s)).
Proof.
  intros Hn Hids Hch Hl Hw.
  assert (Hplain : ¬ watch_command c → watched w cfg ch (final (exec c) s) ∧
    delivered ch (outs (exec c) s) = omap (seen cfg) (broadcasts (outs (exec c) s)))
    by (intros Hc; by apply (exec_streams w cfg ch c s Hc)).
  destruct c; try (apply Hplain; by intros []); clear Hplain; unfold exec;
    rewrite ?final_then_skip, ?outs_then_skip; pose proof Hw as [Hcfg Hin Hown].
  - split; [|done]. split; simpl; [|done..]. rewrite fresh_watch_id by done.
    rewrite lookup_insert_ne; [done|]. specialize (Hids _ _ Hcfg). lia.
  - unfold watch_subscribe. rewrite final_get_bind, outs_get_bind.
    destruct (watch_configs s !! id) as [cfg'|]; [|done]. split; [|done].
    pose proof (Hch _ _ Hin) as Hlt. simpl in Hlt. split; simpl; [done|by rewrite lookup_insert_ne|].
    intros w' tx [[_ <-]|[_ Hl']]%lookup_insert_Some; simpl; [lia|by eapply Hown].
  - split; [|done]. split; simpl; [by rewrite lookup_delete_ne..|].
    intros w' tx [_ Hl']%lookup_delete_Some. by eapply Hown.
  - split; [|done]. split; simpl; [done| |].
    + rewrite lookup_fmap, Hin. simpl. case_N; congruence.
    + intros w' tx. rewrite lookup_fmap. destruct (watch_inboxes s !! w') as [tx0|] eqn:Hl'; [|done].
      simpl. intros [= <-]. destruct (N.eqb_spec (tx_chan tx0) chan); simpl; [by intros ->|by eapply Hown].
Qed.

Lemma run_watched cmds s :
  watch_counter s + vlen cmds < half → ids_ok s → chans_ok s → Forall (leaves w ch) cmds →
  watched w cfg ch s →
  let o := outs (for_each cmds exec) s in delivered ch o = omap (seen cfg) (broadcasts o).
Proof.
  intros Hn Hids Hch Hl. revert s Hn Hids Hch.
  induction Hl as [|c cmds Hc _ IH]; intros s Hn Hids Hch Hw; [done|].
  rewrite vlen_cons in Hn. cbn [for_each]. rewrite outs_bind.
  destruct (exec_steps c s) as (Hn' & Hch' & Hids'); [lia|].
  destruct (exec_watched c s) as [Hw' Hd]; [lia|done..|].
  rewrite delivered_app, Hd. simpl. rewrite IH; [|lia|auto..].
  unfold broadcasts. by rewrite !omap_app.
Qed.
End Run.

Lemma run_steps cmds s :
  watch_counter s + vlen cmds < half → ids_ok s → chans_ok s →
  let s' := run cmds s in
  watch_counter s' ≤ watch_counter s + vlen cmds ∧ ids_ok s' ∧ chans_ok s'.
Proof.
  unfold run. revert s. induction cmds as [|c cmds IH]; intros s Hn Hids Hch.
  { change (final (for_each [] exec) s) with s. split_and!; [lia|done..]. }
  rewrite vlen_cons in Hn |- *. cbn [for_each]. rewrite final_bind.
  destruct (exec_steps c s) as (Hn' & Hch' & Hids'); [lia|].
  destruct (IH (final (exec c) s)) as (? & ? & ?); [lia|auto..|]. split_and!; [lia|done..].
Qed.

(** C5: watch streams.  Whatever ran before, once a client has subscribed to watch [w]
    and as long as nobody cancels or re-subscribes the watch or drops the receiver, the
    events sent on its channel are exactly the broadcast events whose key the filter
    covers, in the order of the broadcasts, none lost, none twice, without the previous
    pair unless the watch asked for it. *)
Theorem watch_stream now cmds0 cmds w ch :
  let s0 := run cmds0 (new now) in
  let s1 := final (watch_subscribe w) s0 in
  let o := outs (for_each cmds exec) s1 in
  vlen cmds0 + vlen cmds < half →
  res (watch_subscribe w) s0 = Ok ch → Forall (leaves w ch) cmds →
  ∃ cfg, get_watch_config s0 w = Some cfg ∧
    delivered ch o = omap (λ e, if key_matches_watch (kv_key (ev_kv e)) cfg
                                then Some (local_event cfg e) else None) (broadcasts o).
Proof.
  intros s0 s1 o Hlen Hsub Hl. unfold get_watch_config.
  destruct (run_steps cmds0 (new now)) as (Hn & Hids & Hch); [simpl; lia|done|done|].
  fold s0 in Hn, Hids, Hch. change (watch_counter (new now)) with 0 in Hn.
  destruct (watch_configs s0 !! w) as [cfg|] eqn:Hcfg.
  - exists cfg. split; [done|].
    assert (Hrun : watch_subscribe w s0 = (Ok (channels s0),
      set_watch_inboxes (<[w := mkSender (channels s0) true]> (watch_inboxes s0))
        (set_channels (channels s0 + 1) s0), [])).
    { unfold watch_subscribe, mbind, M_bind. simpl. by rewrite Hcfg. }
    rewrite (res_run _ _ _ _ _ Hrun) in Hsub. injection Hsub as <-.
    unfold o, s1. rewrite (final_run _ _ _ _ _ Hrun).
    apply (run_watched w cfg (channels s0)); simpl; [lia|done| |done|].
    + intros w' tx. simpl. intros [[_ <-]|[_ Hx%Hch]]%lookup_insert_Some; simpl; lia.
    + split; simpl; [done|by rewrite lookup_insert_eq|].
      intros w' tx [[? _]|[_ Hx%Hch]]%lookup_insert_Some; [done|lia].
  - exfalso. unfold watch_subscribe, res, mbind, M_bind in Hsub. simpl in Hsub. by rewrite Hcfg in Hsub.
Qed.

Lemma watch_stream_witness :
  let s0 := run [CWatchCreate (mkWatchCreateRequest (str "a") None None false true)] (new 0) in
  let s1 := final (watch_subscribe 1) s0 in
  let o := outs (for_each (RunExample.cmds1 ++ RunExample.cmds2) exec) s1 in
  length (delivered 0 o) = 3%nat.
Proof.
  intros s0 s1 o.
  destruct (watch_stream 0 [CWatchCreate (mkWatchCreateRequest (str "a") None None false true)]
    (RunExample.cmds1 ++ RunExample.cmds2) 1 0) as (cfg & Hc & Hd).
  - vm_compute. reflexivity.
  - vm_compute. reflexivity.
  - repeat constructor.
  - vm_compute in Hc. injection Hc as <-. unfold o, s1, s0. rewrite Hd. vm_compute. reflexivity.
Defined.
