(* ===== verification/EtcdLease.v ===== *)
(** * Leases

    The lease methods of [store.rs].  In a run in which leases are granted under ids not in
    use and puts name leases that exist, the key list of every lease is the set of live
    keys attached to it ([lease_inv]); hence revocation and expiry delete exactly the keys
    attached to the leases concerned. *)

From S2P Require Import Prelude Bytes Effects EtcdTypes EtcdStore EtcdMvcc EtcdHistory.

Definition lease_of (s : KvStore) (k : bytes) : option Z := current s !! k ≫= kv_lease.

Record lease_inv (s : KvStore) : Prop := {
  li_keys id l k : leases s !! id = Some l → k ∈ l_keys l ↔ lease_of s k = Some id;
  li_exists k id : lease_of s k = Some id → is_Some (leases s !! id)
}.

(** ** The lease maps *)

Lemma attach_at_lookup key o ls id :
  attach_at key o ls !! id =
  (λ l, if decide (o = Some id) then attach (from_utf8_lossy key) l else l) <$> ls !! id.
Proof.
  destruct o as [i|]; simpl.
  - rewrite lookup_alter. case_decide as H1; case_decide as H2; subst; try congruence;
      by destruct (ls !! id).
  - by destruct (ls !! id).
Qed.
Lemma detach_at_lookup key o ls id :
  detach_at key o ls !! id = (λ l, if decide (o = Some id) then detach key l else l) <$> ls !! id.
Proof.
  destruct o as [i|]; simpl.
  - rewrite lookup_alter. case_decide as H1; case_decide as H2; subst; try congruence;
      by destruct (ls !! id).
  - by destruct (ls !! id).
Qed.
Lemma elem_of_attach key k l : k ∈ l_keys (attach key l) ↔ k = key ∨ k ∈ l_keys l.
Proof. unfold attach. case_decide; simpl; [set_solver|]. rewrite elem_of_app. set_solver. Qed.
Lemma elem_of_detach key k l : k ∈ l_keys (detach key l) ↔ k ≠ key ∧ k ∈ l_keys l.
Proof. simpl. by rewrite list_elem_of_filter. Qed.

(** A state with the same pairs and leases. *)
Lemma lease_inv_same s s' :
  current s' = current s → leases s' = leases s → lease_inv s → lease_inv s'.
Proof. intros Hc Hl []. split; unfold lease_of in *; rewrite ?Hc, ?Hl; eauto. Qed.

(** ** Puts and deletions *)

Lemma released_lookup req s id l : lease_inv s →
  released req s !! id = Some l →
  ∃ l0, leases s !! id = Some l0 ∧
    ∀ k, k ∈ l_keys l ↔ k ∈ l_keys l0 ∧ (k = pq_key req → pq_lease req = Some id).
Proof.
  intros Hinv. unfold released. destruct (current s !! pq_key req) as [old|] eqn:Hold.
  - assert (Hlo : lease_of s (pq_key req) = kv_lease old) by (unfold lease_of; by rewrite Hold).
    case_bool_decide as Hsame.
    + intros Hl. exists l. split; [done|]. intros k. split; [|tauto]. intros Hk. split; [done|].
      intros ->. apply (li_keys _ Hinv _ _ _ Hl) in Hk. congruence.
    + rewrite detach_at_lookup. destruct (leases s !! id) as [l0|] eqn:Hl; [|done].
      simpl. intros [= <-]. exists l0. split; [done|]. intros k. case_decide as Hd.
      * rewrite elem_of_detach. split; [intros [? ?]; split; [done|by intros]|].
        intros [? Hk]. split; [|done]. intros ->. specialize (Hk eq_refl). congruence.
      * split; [|tauto]. intros Hk. split; [done|]. intros ->.
        apply (li_keys _ Hinv _ _ _ Hl) in Hk. congruence.
  - intros Hl. exists l. split; [done|]. intros k. split; [|tauto]. intros Hk. split; [done|].
    intros ->. apply (li_keys _ Hinv _ _ _ Hl) in Hk. unfold lease_of in Hk. by rewrite Hold in Hk.
Qed.

Lemma released_dom req s : dom (released req s) = dom (leases s).
Proof.
  unfold released. destruct (current s !! pq_key req) as [old|]; [|done].
  case_bool_decide; [done|]. destruct (kv_lease old); simpl; [apply dom_alter_L|done].
Qed.
Lemma attach_at_dom key o ls : dom (attach_at key o ls) = dom ls.
Proof. destruct o; simpl; [apply dom_alter_L|done]. Qed.
Lemma detach_at_dom key o ls : dom (detach_at key o ls) = dom ls.
Proof. destruct o; simpl; [apply dom_alter_L|done]. Qed.

Definition put_ok (s : KvStore) (req : PutRequest) : Prop :=
  valid_utf8 (pq_key req) = true ∧ ∀ id, pq_lease req = Some id → id ∈ dom (leases s).

Lemma put_lease_inv req s : put_ok s req → lease_inv s →
  lease_inv (final (put req) s) ∧ dom (leases (final (put req) s)) = dom (leases s).
Proof.
  intros [Hv Hex] Hinv. destruct (put_run req s) as (m & o & Hrun).
  rewrite (final_run _ _ _ _ _ Hrun). clear Hrun o. simpl.
  rewrite attach_at_dom, released_dom. split; [|done].
  assert (Hlo : ∀ k, lease_of (set_watch_inboxes m (set_leases (attach_at (pq_key req) (pq_lease req) (released req s))
    (set_history (<[revision s +w 1:=(pq_key req, EPut, written req s)]> (history s))
    (set_key_index (<[pq_key req:=index_of s (pq_key req) ++ [revision s +w 1]]> (key_index s))
    (set_current (<[pq_key req:=written req s]> (current s)) (set_revision (revision s +w 1) s)))))) k
    = if decide (k = pq_key req) then pq_lease req else lease_of s k).
  { intros k. unfold lease_of. simpl. rewrite lookup_insert. repeat case_decide; congruence || done. }
  split.
  - intros id l k. rewrite Hlo. simpl. rewrite attach_at_lookup.
    destruct (released req s !! id) as [l1|] eqn:Hl1; [|done]. simpl. intros [= <-].
    destruct (released_lookup req s id l1 Hinv Hl1) as (l0 & Hl0 & Hk).
    pose proof (li_keys _ Hinv _ _ k Hl0) as Hold. case_decide as Ho.
    + rewrite elem_of_attach, from_utf8_lossy_valid by done. case_decide; naive_solver.
    + case_decide; naive_solver.
  - intros k id. rewrite Hlo. simpl. intros Hk. apply elem_of_dom.
    rewrite attach_at_dom, released_dom. case_decide; [by apply Hex|].
    apply elem_of_dom. by eapply li_exists.
Qed.

Lemma delete_key_lease_inv key rev s : lease_inv s →
  lease_inv (final (delete_key key rev) s) ∧ dom (leases (final (delete_key key rev) s)) = dom (leases s).
Proof.
  intros Hinv. destruct (current s !! key) as [kv|] eqn:Hk.
  2: by rewrite (final_run _ _ _ _ _ (delete_key_absent key rev s Hk)).
  destruct (delete_key_run key rev s kv Hk) as (m & o & Hrun). rewrite (final_run _ _ _ _ _ Hrun).
  simpl. rewrite detach_at_dom. split; [|done]. split; simpl; unfold lease_of; simpl.
  - intros id l k. rewrite detach_at_lookup, lookup_delete.
    destruct (leases s !! id) as [l0|] eqn:Hl; [|done]. simpl. intros [= <-].
    pose proof (li_keys _ Hinv _ _ k Hl) as Hold. unfold lease_of in Hold.
    case_decide as Ho; [rewrite elem_of_detach|]; case_decide as Hd; subst; simpl;
      rewrite ?Hk in Hold; naive_solver.
  - intros k id Hl. apply elem_of_dom. rewrite detach_at_dom. apply elem_of_dom.
    apply (li_exists _ Hinv k). unfold lease_of. revert Hl. rewrite lookup_delete. by case_decide.
Qed.

Lemma delete_range_lease_inv req s : lease_inv s →
  lease_inv (final (delete_range req) s) ∧ dom (leases (final (delete_range req) s)) = dom (leases s).
Proof.
  intros Hinv. unfold delete_range. rewrite final_bind, final_get_bind, !final_bind.
  change (final (mret ?a) ?x) with x. change (final header ?x) with x.
  change (final next_revision s) with (set_revision (revision s +w 1) s).
  change (res next_revision s) with (revision s +w 1).
  match goal with |- context [delete_keys ?l _] => generalize l as keys end. intros keys.
  generalize (revision s +w 1) as rev. intros rev.
  assert (Hs : lease_inv (set_revision rev s)) by (by apply (lease_inv_same s)).
  change (leases s) with (leases (set_revision rev s)). revert Hs.
  generalize (set_revision rev s) as s1. clear. induction keys as [|key keys IH]; intros s1 Hs1; [done|].
  cbn [delete_keys]. rewrite !final_bind. change (final (mret ?a) ?x) with x.
  destruct (delete_key_lease_inv key rev s1 Hs1) as [H1 Hd1].
  destruct (IH _ H1) as [H2 Hd2]. split; [done|congruence].
Qed.

Definition op_ok (s : KvStore) (op : RequestOp) : Prop :=
  match op with OpPut p => put_ok s p | _ => True end.

Lemma ops_lease_inv ops s : Forall (op_ok s) ops → lease_inv s →
  lease_inv (final (for_each ops exec_op) s) ∧ dom (leases (final (for_each ops exec_op) s)) = dom (leases s).
Proof.
  revert s. induction ops as [|op ops IH]; intros s Hok Hinv; [done|].
  apply Forall_cons in Hok as [Hop Hops]. cbn [for_each]. rewrite final_bind.
  assert (H1 : lease_inv (final (exec_op op) s) ∧ dom (leases (final (exec_op op) s)) = dom (leases s)).
  { destruct op; unfold exec_op; rewrite ?final_then_skip; [done|by apply put_lease_inv|by apply delete_range_lease_inv]. }
  destruct H1 as [H1 Hd1]. destruct (IH (final (exec_op op) s)) as [H2 Hd2]; [|done|].
  - eapply Forall_impl; [exact Hops|]. intros [| |]; try done. simpl. unfold put_ok. by rewrite Hd1.
  - split; [done|congruence].
Qed.

Lemma txn_lease_inv req s :
  Forall (op_ok s) (t_success req) → Forall (op_ok s) (t_failure req) → lease_inv s →
  lease_inv (final (txn req) s).
Proof.
  intros Hsu Hfa Hinv. unfold txn. rewrite final_bind.
  rewrite (final_run _ _ _ _ _ (txn_compare_spec (t_compare req) s)). unfold txn_execute.
  rewrite !final_bind. change (final (mret ?a) ?x) with x. change (final header ?x) with x.
  by apply ops_lease_inv; [destruct (res _ s)|].
Qed.

(** ** Revocation *)

Lemma revoke_keys_spec keys s :
  let s' := final (for_each keys revoke_key) s in
  leases s' = leases s ∧ ∀ k, current s' !! k = if decide (k ∈ keys) then None else current s !! k.
Proof.
  revert s. induction keys as [|key keys IH]; intros s.
  { split; [done|]. intros k. by rewrite decide_False by set_solver. }
  cbn [for_each]. rewrite final_bind.
  assert (H1 : leases (final (revoke_key key) s) = leases s ∧
    current (final (revoke_key key) s) = delete key (current s)).
  { destruct (current s !! key) as [kv|] eqn:Hk.
    - destruct (revoke_key_run key s kv Hk) as (m & o & Hrun). by rewrite (final_run _ _ _ _ _ Hrun).
    - assert (Hrun : revoke_key key s = (tt, s, []))
        by (unfold revoke_key, mbind, M_bind; simpl; by rewrite Hk).
      rewrite (final_run _ _ _ _ _ Hrun). split; [done|]. by rewrite delete_id. }
  destruct H1 as [Hl1 Hc1]. destruct (IH (final (revoke_key key) s)) as [Hl2 Hc2].
  split; [congruence|]. intros k. rewrite Hc2, Hc1, lookup_delete. repeat case_decide; set_solver.
Qed.

(** The pairs not attached to one of the leases [ids]. *)
Definition unattached (ids : list Z) (kv : KeyValue) : bool :=
  match kv_lease kv with Some id => negb (bool_decide (id ∈ ids)) | None => true end.

Lemma lease_revoke_spec id s : lease_inv s →
  let s' := final (lease_revoke id) s in
  lease_inv s' ∧ leases s' = delete id (leases s) ∧
  ∀ k, current s' !! k = (current s !! k ≫= λ kv, if unattached [id] kv then Some kv else None).
Proof.
  intros Hinv. unfold lease_revoke. rewrite final_get_bind. destruct (leases s !! id) as [l|] eqn:Hl.
  - rewrite !final_bind. change (final (mret ?a) ?x) with x. finals.
    destruct (revoke_keys_spec (l_keys l) (set_leases (delete id (leases s)) s)) as [Hl' Hc'].
    set (s' := final _ _) in *. simpl in Hl', Hc'.
    assert (Hcur : ∀ k, current s' !! k = (current s !! k ≫= λ kv, if unattached [id] kv then Some kv else None)).
    { intros k. rewrite Hc'. pose proof (li_keys _ Hinv _ _ k Hl) as Hk. unfold lease_of in Hk.
      destruct (current s !! k) as [kv|]; simpl in *; [|by case_decide].
      unfold unattached. case_decide as Hd.
      - rewrite (proj1 Hk Hd). by rewrite bool_decide_true by set_solver.
      - destruct (kv_lease kv) as [id'|]; [|done]. rewrite bool_decide_false; [done|].
        intros ->%list_elem_of_singleton. tauto. }
    split_and!; [|done|done]. split; unfold lease_of.
    + intros id' l' k. rewrite Hl'. intros [Hne Hl'']%lookup_delete_Some. rewrite Hcur.
      rewrite (li_keys _ Hinv _ _ k Hl''). unfold lease_of. destruct (current s !! k) as [kv|]; [|done].
      simpl. unfold unattached. destruct (kv_lease kv) as [i|] eqn:Hi; simpl; [|by rewrite Hi].
      case_bool_decide as Hd; simpl; [|by rewrite Hi]. apply list_elem_of_singleton in Hd. naive_solver.
    + intros k id'. rewrite Hcur, Hl'. destruct (current s !! k) as [kv|] eqn:Hk; [|done]. simpl.
      unfold unattached. destruct (kv_lease kv) as [i|] eqn:Hi; simpl; [|by rewrite Hi].
      case_bool_decide as Hd; simpl; [done|]. rewrite Hi. intros [= <-].
      rewrite lookup_delete_ne by set_solver. apply (li_exists _ Hinv k). unfold lease_of. by rewrite Hk.
  - change (final (mret ?a) ?x) with x. split_and!; [done|by rewrite delete_id|].
    intros k. destruct (current s !! k) as [kv|] eqn:Hk; [|done]. simpl. unfold unattached.
    destruct (kv_lease kv) as [i|] eqn:Hi; [|done]. case_bool_decide as Hd; [|done].
    apply list_elem_of_singleton in Hd as ->. exfalso.
    destruct (li_exists _ Hinv k id) as [? ?]; [unfold lease_of; by rewrite Hk|]. congruence.
Qed.

Lemma unattached_cons id ids kv :
  unattached (id :: ids) kv = unattached [id] kv && unattached ids kv.
Proof.
  unfold unattached. destruct (kv_lease kv) as [i|]; [|done]. rewrite <- negb_orb. f_equal.
  rewrite <- bool_decide_or. apply bool_decide_ext. rewrite elem_of_cons, list_elem_of_singleton. done.
Qed.

Lemma revoke_all_spec ids s : lease_inv s →
  let s' := final (for_each ids (λ id, lease_revoke id;; skip)) s in
  lease_inv s' ∧ (∀ i, leases s' !! i = if decide (i ∈ ids) then None else leases s !! i) ∧
  ∀ k, current s' !! k = (current s !! k ≫= λ kv, if unattached ids kv then Some kv else None).
Proof.
  revert s. induction ids as [|id ids IH]; intros s Hinv.
  { split_and!; [done| |].
    - intros i. by rewrite decide_False by set_solver.
    - intros k. change (final (for_each [] _) s) with s. destruct (current s !! k) as [kv|]; [|done]. simpl.
      unfold unattached. destruct (kv_lease kv); [|done]. by rewrite bool_decide_false by set_solver. }
  cbn [for_each]. rewrite final_bind, final_then_skip.
  destruct (lease_revoke_spec id s Hinv) as (Hinv1 & Hl1 & Hc1).
  destruct (IH _ Hinv1) as (Hinv2 & Hl2 & Hc2). split_and!; [done| |].
  - intros i. rewrite Hl2, Hl1, lookup_delete. repeat case_decide; set_solver.
  - intros k. rewrite Hc2, Hc1. destruct (current s !! k) as [kv|]; [|done]. simpl.
    rewrite (unattached_cons id ids). by destruct (unattached [id] kv).
Qed.

(** ** Runs *)

Definition fresh_id (s : KvStore) : Z := wrap_i64 (as_i64 (lease_counter s) + 1).

(** The commands that name leases properly. *)
Definition disciplined (c : Command) (s : KvStore) : Prop :=
  match c with
  | CPut req => put_ok s req
  | CTxn req | CTxnChecked req => Forall (op_ok s) (t_success req) ∧ Forall (op_ok s) (t_failure req)
  | CLeaseGrant _ req => leases s !! default (fresh_id s) (lq_id req) = None
  | CLeaseGrantV2 _ req =>
      if decide (lq_id req = None ∨ lq_id req = Some 0%Z) then leases s !! fresh_id s = None else True
  | _ => True
  end.
Fixpoint disciplined_run (cmds : list Command) (s : KvStore) : Prop :=
  match cmds with
  | [] => True
  | c :: cmds => disciplined c s ∧ disciplined_run cmds (final (exec c) s)
  end.

(** A new lease, without keys. *)
Lemma lease_inv_insert id l s s' : lease_inv s → leases s !! id = None → l_keys l = [] →
  current s' = current s → leases s' = <[id := l]> (leases s) → lease_inv s'.
Proof.
  intros Hinv Hnone Hl Hc Hls. split; unfold lease_of; rewrite ?Hc, ?Hls.
  - intros i l' k. intros [[<- <-]|[_ Hl']]%lookup_insert_Some; [|by apply Hinv].
    rewrite Hl. split; [set_solver|]. intros Hk. destruct (li_exists _ Hinv k id Hk). congruence.
  - intros k i Hk. rewrite lookup_insert. case_decide; [done|]. by apply (li_exists _ Hinv k).
Qed.

Lemma exec_lease_inv c s : disciplined c s → lease_inv s → lease_inv (final (exec c) s).
Proof.
  intros Hd Hinv. destruct c; unfold exec; simpl in Hd; rewrite ?final_then_skip;
    try (by apply (lease_inv_same s)).
  - by apply put_lease_inv.
  - by apply delete_range_lease_inv.
  - by apply txn_lease_inv; destruct Hd.
  - unfold txn_checked. destruct (_ <? _); [done|]. rewrite final_bind. by apply txn_lease_inv; destruct Hd.
  - unfold watch_subscribe. rewrite final_get_bind. destruct (watch_configs s !! id); [|done].
    by apply (lease_inv_same s).
  - unfold lease_grant. destruct (lq_id req) as [id|]; simpl in Hd.
    + by apply (lease_inv_insert id (mkLease id (lq_ttl req) now []) s).
    + by apply (lease_inv_insert (fresh_id s) (mkLease (fresh_id s) (lq_ttl req) now []) s).
  - unfold lease_grant_v2. destruct (_ <? 0)%Z; [done|]. rewrite final_get_bind.
    set (ttl := (lq_ttl req `min` MAX_LEASE_TTL_SECS)%Z).
    destruct (lq_id req) as [id|].
    + destruct (Z.eqb_spec id 0) as [->|Hne]; simpl.
      * rewrite decide_True in Hd by tauto. by apply (lease_inv_insert (fresh_id s) (mkLease (fresh_id s) ttl now []) s).
      * case_bool_decide as Hs; [done|]. apply eq_None_not_Some in Hs.
        by apply (lease_inv_insert id (mkLease id ttl now []) s).
    + rewrite decide_True in Hd by tauto. by apply (lease_inv_insert (fresh_id s) (mkLease (fresh_id s) ttl now []) s).
  - by apply lease_revoke_spec.
  - unfold lease_keepalive. rewrite final_get_bind. destruct (leases s !! id) as [l|] eqn:Hl; [|done].
    split; unfold lease_of; simpl.
    + intros i l' k [[<- <-]|[_ Hl']]%lookup_insert_Some; simpl; by apply (li_keys _ Hinv).
    + intros k i Hk. rewrite lookup_insert. case_decide; [done|]. by apply (li_exists _ Hinv k).
  - unfold expire_leases. rewrite final_get_bind. by apply revoke_all_spec.
  - unfold compact_v2, current_revision. destruct (_ =? _); [done|]. rewrite final_gets_bind.
    destruct (_ <? _); [done|]. rewrite final_gets_bind. destruct (_ <=? _); [done|].
    by apply (lease_inv_same s).
  - unfold set_watermark, current_revision. rewrite final_gets_bind. destruct (_ <? _); [done|].
    by apply (lease_inv_same s).
  - unfold apply_compaction_watermark. rewrite !final_gets_bind. destruct (_ || _); [done|].
    rewrite final_bind, final_gets_bind. change (final (mret ?a) ?x) with x.
    unfold compact_v2, current_revision. destruct (_ =? _); [done|]. rewrite final_gets_bind.
    destruct (_ <? _); [done|]. rewrite final_gets_bind. destruct (_ <=? _); [done|].
    by apply (lease_inv_same s).
Qed.

Lemma run_lease_inv cmds s : disciplined_run cmds s → lease_inv s → lease_inv (run cmds s).
Proof.
  unfold run. revert s. induction cmds as [|c cmds IH]; intros s Hd Hinv; [done|].
  destruct Hd as [Hc Hd]. cbn [for_each]. rewrite final_bind. apply IH; [done|]. by apply exec_lease_inv.
Qed.

Lemma lease_inv_new now : lease_inv (new now).
Proof.
  split; unfold lease_of; simpl; intros *; by rewrite ?lookup_empty.
Qed.

(** Revocation.  After any disciplined run, [lease_revoke] removes the lease and
    exactly the live keys attached to it. *)
Theorem lease_revoke_exact now cmds id :
  disciplined_run cmds (new now) →
  let s := run cmds (new now) in
  let s' := final (lease_revoke id) s in
  leases s' = delete id (leases s) ∧
  ∀ k, current s' !! k =
       match current s !! k with
       | Some kv => if decide (kv_lease kv = Some id) then None else Some kv
       | None => None
       end.
Proof.
  intros Hd s s'. destruct (lease_revoke_spec id s) as (_ & Hl & Hc).
  { apply run_lease_inv; [done|apply lease_inv_new]. }
  split; [done|]. intros k. unfold s'. rewrite Hc. destruct (current s !! k) as [kv|]; [|done]. simpl.
  unfold unattached. destruct (kv_lease kv) as [i|]; [|done].
  case_decide as Hi; case_bool_decide as Hb; try done; set_solver.
Qed.

(** The lease of a pair has run out. *)
Definition due (s : KvStore) (now : Z) (kv : KeyValue) : bool :=
  match kv_lease kv ≫= (leases s !!.) with Some l => expired now l | None => false end.

(** Expiry.  After any disciplined run, [expire_leases] removes exactly the leases
    whose time to live has elapsed and exactly the keys attached to them. *)
Theorem expire_leases_exact now0 cmds now :
  disciplined_run cmds (new now0) →
  let s := run cmds (new now0) in
  let s' := final (expire_leases now) s in
  (∀ id, leases s' !! id =
         match leases s !! id with
         | Some l => if expired now l then None else Some l
         | None => None
         end) ∧
  ∀ k, current s' !! k =
       match current s !! k with
       | Some kv => if due s now kv then None else Some kv
       | None => None
       end.
Proof.
  intros Hd s s'. assert (Hinv : lease_inv s) by (apply run_lease_inv; [done|apply lease_inv_new]).
  unfold s', expire_leases. rewrite final_get_bind.
  set (ids := fst <$> filter (λ e, expired now e.2) (map_to_list (leases s))).
  assert (Hids : ∀ id, id ∈ ids ↔ ∃ l, leases s !! id = Some l ∧ expired now l = true).
  { intros id. unfold ids. rewrite list_elem_of_fmap. split.
    - intros ([i l] & -> & [He Hl]%list_elem_of_filter). exists l.
      split; [by apply elem_of_map_to_list|by apply Is_true_true].
    - intros (l & Hl & He). exists (id, l). split; [done|]. apply list_elem_of_filter.
      split; [by apply Is_true_true|by apply elem_of_map_to_list]. }
  destruct (revoke_all_spec ids s Hinv) as (_ & Hl & Hc). split.
  - intros id. rewrite Hl. case_decide as Hi; rewrite Hids in Hi.
    + destruct Hi as (l & -> & ->). done.
    + destruct (leases s !! id) as [l|] eqn:Hl'; [|done].
      destruct (expired now l) eqn:He; [|done]. destruct Hi. eauto.
  - intros k. rewrite Hc. destruct (current s !! k) as [kv|] eqn:Hk; [|done]. simpl.
    unfold unattached, due. destruct (kv_lease kv) as [i|] eqn:Hi; [|done]. simpl.
    case_bool_decide as Hb; rewrite Hids in Hb.
    + destruct Hb as (l & -> & ->). done.
    + destruct (leases s !! i) as [l|]; [|done]. destruct (expired now l) eqn:He; [|done].
      destruct Hb. eauto.
Qed.

(** Time to live.  For a lease with a time to live in the range [lease_grant_v2] grants
    and a clock reading within 2^62 seconds of the grant, [lease_timetolive] reports a
    remaining time that is zero exactly when the expirer would revoke the lease, and that
    never exceeds the time granted once the clock has passed the grant. *)
Theorem lease_ttl_zero_iff_expired now id l keys s :
  leases s !! id = Some l → (0 ≤ l_ttl l ≤ MAX_LEASE_TTL_SECS)%Z →
  (Z.abs (num_seconds_since now (l_granted_at l)) < 2 ^ 62)%Z →
  ∃ r, res (lease_timetolive now id keys) s = Ok r ∧
    (0 ≤ lt_ttl r)%Z ∧ (lt_ttl r = 0%Z ↔ expired now l = true) ∧
    ((l_granted_at l ≤ now)%Z → (lt_ttl r ≤ l_ttl l)%Z) ∧ lt_granted_ttl r = l_ttl l.
Proof.
  intros Hl Httl Hel. unfold lease_timetolive, res, mbind, M_bind. simpl. rewrite Hl. simpl.
  eexists. split; [done|]. simpl. unfold expired, MAX_LEASE_TTL_SECS in *.
  set (e := num_seconds_since now (l_granted_at l)) in *.
  assert (Hw : wrap_i64 (l_ttl l - e) = (l_ttl l - e)%Z).
  { unfold wrap_i64. rewrite Z.mod_small; lia. }
  rewrite Hw. split_and!; [lia| | |done].
  - rewrite Z.leb_le. lia.
  - intros Hn. assert (0 ≤ e)%Z; [|lia]. unfold e, num_seconds_since. apply Z.quot_pos; lia.
Qed.

Module LeaseExample.
Definition cmds : list Command :=
  [CLeaseGrantV2 0 (mkLeaseGrantRequest 10 (Some 7%Z)); CLeaseGrant 0 (mkLeaseGrantRequest 60 None);
   CPut (mkPutRequest (str "a") (str "1") (Some 7%Z) false);
   CPut (mkPutRequest (str "b") (str "2") (Some 2%Z) false);
   CPut (mkPutRequest (str "c") (str "3") None false)].
Definition later : Z := 30000000000.

Lemma cmds_disciplined : disciplined_run cmds (new 0).
Proof.
  repeat split; try (vm_compute; reflexivity); intros id [= <-]; apply elem_of_dom;
    vm_compute; eexists; reflexivity.
Qed.
End LeaseExample.

Lemma lease_revoke_exact_witness :
  let s := run LeaseExample.cmds (new 0) in
  current (final (lease_revoke 7) s) !! str "a" = None ∧
  is_Some (current (final (lease_revoke 7) s) !! str "b").
Proof.
  destruct (lease_revoke_exact 0 LeaseExample.cmds 7 LeaseExample.cmds_disciplined) as [_ Hc].
  cbv zeta. rewrite !Hc. split; vm_compute; [reflexivity|eexists; reflexivity].
Defined.

Lemma expire_leases_exact_witness :
  let s := run LeaseExample.cmds (new 0) in
  current (final (expire_leases LeaseExample.later) s) !! str "a" = None ∧
  is_Some (current (final (expire_leases LeaseExample.later) s) !! str "b").
Proof.
  destruct (expire_leases_exact 0 LeaseExample.cmds LeaseExample.later LeaseExample.cmds_disciplined) as [_ Hc].
  cbv zeta. rewrite !Hc. split; vm_compute; [reflexivity|eexists; reflexivity].
Defined.

Lemma lease_ttl_zero_iff_expired_witness :
  ∃ r, res (lease_timetolive LeaseExample.later 7 true) (run LeaseExample.cmds (new 0)) = Ok r ∧ lt_ttl r = 0%Z.
Proof.
  destruct (lease_ttl_zero_iff_expired LeaseExample.later 7 (mkLease 7 10 0 [str "a"]) true
    (run LeaseExample.cmds (new 0))) as (r & Hr & _ & Hz & _).
  - vm_compute. reflexivity.
  - vm_compute. split; discriminate.
  - vm_compute. reflexivity.
  - exists r. split; [exact Hr|]. apply Hz. vm_compute. reflexivity.
Defined.
