(* ===== verification/EtcdQuota.v ===== *)
(** * Quotas, the consistent index, lease ids and watch filters of cave-etcd

    [crates/compute/cave-etcd/src/quota.rs], [cindex.rs], [lease_id_gen.rs] and
    [watch_filters.rs].  The consistent index is set by a compare-and-exchange loop that
    several threads may run at once: its steps are those of a schedule.

    A write is charged to the longest registered prefix of its key and admitted writes stay
    within the limits; the consistent index never goes back and ends at the largest index set,
    whatever the schedule, but the term beside it can be that of another entry
    ([torn_index_term]); the generator of lease ids is injective in its seed. *)

From S2P Require Import Prelude Bytes EtcdTypes.

(** ** Quotas *)

Record UsageSnapshot : Set := mkUsage { us_keys : u64; us_bytes : u64 }.
Definition no_usage : UsageSnapshot := mkUsage 0 0.
Record QuotaLimits : Set := mkLimits { max_keys : u64; max_bytes : u64 }.
Definition unbounded : QuotaLimits := mkLimits u64_max u64_max.
Inductive QuotaDecision : Set :=
| Allow
| DenyMaxKeys (current limit : u64)
| DenyMaxBytes (current limit : u64).
Definition is_allow (d : QuotaDecision) : bool := match d with Allow => true | _ => false end.

Record TenantState : Set := mkTenantState { ts_usage : UsageSnapshot; ts_limits : option QuotaLimits }.
Record QuotaTracker : Type := mkQuotaTracker {
  qt_tenants : gmap bytes TenantState;
  default_limits : option QuotaLimits;
  global_usage : UsageSnapshot
}.

(** [starts_with] *)
Fixpoint starts_with (key prefix : bytes) : bool :=
  match prefix, key with
  | [], _ => true
  | p :: prefix, k :: key => (p =? k) && starts_with key prefix
  | _ :: _, [] => false
  end.

(** [max_by_key(len)]: of several longest ones, the last *)
Definition longer (best : option bytes) (p : bytes) : option bytes :=
  match best with
  | Some b => if vlen b <=? vlen p then Some p else Some b
  | None => Some p
  end.

Module QuotaTracker.
Definition new : QuotaTracker := mkQuotaTracker ∅ None no_usage.
Definition set_default_limits (g : QuotaTracker) (l : QuotaLimits) : QuotaTracker :=
  mkQuotaTracker (qt_tenants g) (Some l) (global_usage g).
Definition set_tenant (p : bytes) (t : TenantState) (g : QuotaTracker) : QuotaTracker :=
  mkQuotaTracker (<[p := t]> (qt_tenants g)) (default_limits g) (global_usage g).
Definition register_tenant (g : QuotaTracker) (prefix : bytes) (limits : QuotaLimits) : QuotaTracker :=
  set_tenant prefix (mkTenantState (default no_usage (ts_usage <$> qt_tenants g !! prefix)) (Some limits)) g.
Definition unregister_tenant (g : QuotaTracker) (prefix : bytes) : option UsageSnapshot * QuotaTracker :=
  (ts_usage <$> qt_tenants g !! prefix, mkQuotaTracker (delete prefix (qt_tenants g)) (default_limits g) (global_usage g)).

Definition match_prefix (g : QuotaTracker) (key : bytes) : option bytes :=
  foldl longer None (filter (λ p, starts_with key p = true) (merge_sort bytes_le (elements (dom (qt_tenants g))))).

Definition limits_of (g : QuotaTracker) (t : TenantState) : option QuotaLimits :=
  match ts_limits t with Some l => Some l | None => default_limits g end.
(** The tenant a key is charged to *)
Definition tenant_of (g : QuotaTracker) (key : bytes) : option (bytes * TenantState) :=
  p ← match_prefix g key; t ← qt_tenants g !! p; Some (p, t).

Definition check_put (g : QuotaTracker) (key : bytes) (bs : u64) : QuotaDecision :=
  let '(usage, limits) :=
    match tenant_of g key with
    | Some (_, t) => (ts_usage t, limits_of g t)
    | None => (global_usage g, default_limits g)
    end in
  match limits with
  | None => Allow
  | Some limits =>
      if max_keys limits <? us_keys usage +w 1 then DenyMaxKeys (us_keys usage) (max_keys limits)
      else if max_bytes limits <? us_bytes usage +w bs then DenyMaxBytes (us_bytes usage) (max_bytes limits)
      else Allow
  end.

(** A change of the global usage and of the tenant's *)
Definition charge (f : UsageSnapshot → UsageSnapshot) (g : QuotaTracker) (key : bytes) : QuotaTracker :=
  let g := mkQuotaTracker (qt_tenants g) (default_limits g) (f (global_usage g)) in
  match tenant_of g key with
  | Some (p, t) => set_tenant p (mkTenantState (f (ts_usage t)) (ts_limits t)) g
  | None => g
  end.
Definition record_put (g : QuotaTracker) (key : bytes) (bs : u64) : QuotaTracker :=
  charge (λ u, mkUsage (us_keys u +w 1) (us_bytes u +w bs)) g key.
Definition record_delete (g : QuotaTracker) (key : bytes) (bs : u64) : QuotaTracker :=
  charge (λ u, mkUsage (saturating_sub (us_keys u) 1) (saturating_sub (us_bytes u) bs)) g key.
Definition usage_for (g : QuotaTracker) (prefix : bytes) : UsageSnapshot :=
  default no_usage (ts_usage <$> qt_tenants g !! prefix).
End QuotaTracker.

(** ** The consistent index *)

Record ConsistentEntry : Set := mkConsistentEntry { ce_index : u64; ce_term : u64 }.
#[export] Instance ConsistentEntry_eq_dec : EqDecision ConsistentEntry.
Proof. solve_decision. Defined.

Module ConsistentIndex.
Definition new : ConsistentEntry := mkConsistentEntry 0 0.
(** Where a call of [set] stands, between its accesses to the two atomics *)
Inductive Pc : Set :=
| Loop (e : ConsistentEntry)
| Exchange (e : ConsistentEntry) (cur_idx : u64)
| LoadTerm (e : ConsistentEntry) (cur_idx : u64)
| StoreTerm (e : ConsistentEntry)
| Returned (e visible : ConsistentEntry).
(** The next access *)
Definition set_step (ci : ConsistentEntry) (pc : Pc) : ConsistentEntry * Pc :=
  match pc with
  | Loop e =>
      let cur_idx := ce_index ci in
      (ci, if ce_index e <=? cur_idx then LoadTerm e cur_idx else Exchange e cur_idx)
  | Exchange e cur_idx =>
      if ce_index ci =? cur_idx then (mkConsistentEntry (ce_index e) (ce_term ci), StoreTerm e) else (ci, Loop e)
  | LoadTerm e cur_idx => (ci, Returned e (mkConsistentEntry cur_idx (ce_term ci)))
  | StoreTerm e => (mkConsistentEntry (ce_index ci) (ce_term e), Returned e e)
  | Returned e v => (ci, Returned e v)
  end.
(** [restore] stores both, without the loop. *)
Definition restore (e : ConsistentEntry) : ConsistentEntry := e.
Definition should_apply (ci : ConsistentEntry) (raft_index : u64) : bool := ce_index ci <? raft_index.

(** The file of [flush] and [load_from_disk]; [None]: there is none *)
Definition flush (ci : ConsistentEntry) : bytes := to_be 8 (ce_index ci) ++ to_be 8 (ce_term ci).
Definition load_from_disk (file : option bytes) : result bytes ConsistentEntry :=
  match file with
  | None => Ok (mkConsistentEntry 0 0)
  | Some buf =>
      if negb (vlen buf =? 16) then Err (str "cindex file size " ++ decimal (vlen buf) ++ str " != 16")
      else Ok (mkConsistentEntry (from_be (take 8 buf)) (from_be (drop 8 buf)))
  end.

(** Threads that each call [set] once; a schedule names the one to run. *)
Fixpoint run (ci : ConsistentEntry) (threads : list Pc) (schedule : list nat) : ConsistentEntry * list Pc :=
  match schedule with
  | [] => (ci, threads)
  | i :: schedule =>
      match threads !! i with
      | Some pc => let '(ci, pc) := set_step ci pc in run ci (<[i := pc]> threads) schedule
      | None => run ci threads schedule
      end
  end.
End ConsistentIndex.

(** ** Lease ids *)

Definition MAX_LEASE_ID_RETRIES : nat := 5.
Record LeaseIdGenerator : Set := mkLeaseIdGenerator { boot_token : u64; lig_counter : u64; fixed_queue : list Z }.

Definition splitmix64 (seed : u64) : u64 :=
  let z := seed +w 11400714819323198485 in
  let z := u64_mul (N.lxor z (N.shiftr z 30)) 13787848793156543929 in
  let z := u64_mul (N.lxor z (N.shiftr z 27)) 10723151780598845931 in
  N.lxor z (N.shiftr z 31).

Module LeaseIdGenerator.
Definition new (boot_token : u64) : LeaseIdGenerator := mkLeaseIdGenerator boot_token 0 [].
Definition enqueue_fixed (g : LeaseIdGenerator) (id : Z) : LeaseIdGenerator :=
  mkLeaseIdGenerator (boot_token g) (lig_counter g) (fixed_queue g ++ [id]).
(** [Vec::pop] takes the last element. *)
Definition next (g : LeaseIdGenerator) : Z * LeaseIdGenerator :=
  match last (fixed_queue g) with
  | Some fixed => (fixed, mkLeaseIdGenerator (boot_token g) (lig_counter g) (removelast (fixed_queue g)))
  | None =>
      let n := lig_counter g in
      let raw := splitmix64 (boot_token g +w n) in
      let masked := Z.of_N (N.land raw 9223372036854775807) in
      (if (masked =? 0)%Z then 1%Z else masked, mkLeaseIdGenerator (boot_token g) (n +w 1) (fixed_queue g))
  end.
(** [is_taken] is a closure: its answer may depend on the number of calls made before. *)
Fixpoint allocate_loop (retries : nat) (is_taken : nat → Z → bool) (calls : nat) (g : LeaseIdGenerator) : option Z * LeaseIdGenerator :=
  match retries with
  | O => (None, g)
  | S retries =>
      let '(candidate, g) := next g in
      if is_taken calls candidate then allocate_loop retries is_taken (S calls) g else (Some candidate, g)
  end.
Definition allocate (is_taken : nat → Z → bool) (g : LeaseIdGenerator) : option Z * LeaseIdGenerator :=
  allocate_loop MAX_LEASE_ID_RETRIES is_taken 0 g.
End LeaseIdGenerator.

(** ** Watch filters *)

Inductive WatchFilter : Set := NoPut | NoDelete.
#[export] Instance WatchFilter_eq_dec : EqDecision WatchFilter.
Proof. solve_decision. Defined.
Record WatchFilterSet : Set := mkWatchFilterSet { wf_filters : list WatchFilter; keep_prev_kv : bool }.

Module WatchFilterSet.
Definition from_config (cfg : WatchConfig) : WatchFilterSet := mkWatchFilterSet [] (w_prev_kv cfg).
Definition with_filter (s : WatchFilterSet) (f : WatchFilter) : WatchFilterSet :=
  if decide (f ∈ wf_filters s) then s else mkWatchFilterSet (wf_filters s ++ [f]) (keep_prev_kv s).
Definition drops (f : WatchFilter) (t : EventType) : bool :=
  match f, t with NoPut, EPut => true | NoDelete, EDelete => true | _, _ => false end.
Definition apply (s : WatchFilterSet) (event : WatchEvent) : option WatchEvent :=
  if existsb (λ f, drops f (ev_type event)) (wf_filters s) then None
  else Some (if keep_prev_kv s then event else mkWatchEvent (ev_type event) (ev_kv event) None).
Definition drops_puts (s : WatchFilterSet) : bool := bool_decide (NoPut ∈ wf_filters s).
Definition drops_deletes (s : WatchFilterSet) : bool := bool_decide (NoDelete ∈ wf_filters s).
End WatchFilterSet.

Module WatchFilterRegistry.
Definition register (r : gmap Z WatchFilterSet) (watch_id : Z) (s : WatchFilterSet) : gmap Z WatchFilterSet := <[watch_id := s]> r.
Definition filter_for (r : gmap Z WatchFilterSet) (watch_id : Z) : option WatchFilterSet := r !! watch_id.
Definition deregister (r : gmap Z WatchFilterSet) (watch_id : Z) : option WatchFilterSet * gmap Z WatchFilterSet :=
  (r !! watch_id, delete watch_id r).
End WatchFilterRegistry.

(** ** Writes are charged to the longest prefix and stay within the limits *)

Lemma longest_of ps b p : foldl longer b ps = Some p →
  (b = Some p ∨ p ∈ ps) ∧ (∀ q, b = Some q → vlen q ≤ vlen p) ∧ (∀ q, q ∈ ps → vlen q ≤ vlen p).
Proof.
  revert b. induction ps as [|x ps IH]; intros b; simpl; [intros ->; split_and!; [by left|by intros ? [= ->]|set_solver]|].
  intros H. apply IH in H as (Hin & Hb & Hps). unfold longer in *. destruct b as [b|].
  - destruct (N.leb_spec (vlen b) (vlen x)) as [Hle|Hlt].
    + specialize (Hb x eq_refl). split_and!; [destruct Hin as [[= ->]|]; right; set_solver|intros ? [= <-]; lia|].
      intros q Hq%elem_of_cons. destruct Hq as [->|Hq]; [done|by apply Hps].
    + specialize (Hb b eq_refl). split_and!; [destruct Hin as [?|]; [by left|right; set_solver]|by intros ? [= <-]|].
      intros q Hq%elem_of_cons. destruct Hq as [->|Hq]; [lia|by apply Hps].
  - specialize (Hb x eq_refl). split_and!; [destruct Hin as [[= ->]|]; right; set_solver|done|].
    intros q Hq%elem_of_cons. destruct Hq as [->|Hq]; [done|by apply Hps].
Qed.

Lemma longer_none ps : foldl longer None ps = None → ps = [].
Proof.
  destruct ps as [|p ps]; [done|]. simpl. intros H. exfalso. revert p H. induction ps as [|q ps IH]; intros p; simpl; [done|].
  destruct (vlen p <=? vlen q); apply IH.
Qed.

(** Charging.  A key is charged to the registered tenant with the longest prefix of it, and
    to none only when no registered prefix matches. *)
Theorem longest_prefix g key :
  match QuotaTracker.match_prefix g key with
  | Some p => p ∈ dom (qt_tenants g) ∧ starts_with key p = true ∧
      ∀ q, q ∈ dom (qt_tenants g) → starts_with key q = true → vlen q ≤ vlen p
  | None => ∀ q, q ∈ dom (qt_tenants g) → starts_with key q = false
  end.
Proof.
  unfold QuotaTracker.match_prefix.
  assert (Hin : ∀ q, q ∈ filter (λ p, starts_with key p = true) (merge_sort bytes_le (elements (dom (qt_tenants g)))) ↔
    starts_with key q = true ∧ q ∈ dom (qt_tenants g)).
  { intros q. by rewrite list_elem_of_filter, merge_sort_Permutation, elem_of_elements. }
  revert Hin. generalize (filter (λ p, starts_with key p = true) (merge_sort bytes_le (elements (dom (qt_tenants g))))) as ps. intros ps Hin.
  destruct (foldl longer None ps) as [p|] eqn:E.
  - apply longest_of in E as ([?|Hp] & _ & Hmax); [done|]. apply Hin in Hp as [? ?]. split_and!; [done|done|].
    intros q Hq Hs. apply Hmax, Hin. done.
  - apply longer_none in E as ->. intros q Hq. destruct (starts_with key q) eqn:Es; [|done].
    assert (Hc : q ∈ ([] : list bytes)) by (by apply Hin). by apply elem_of_nil in Hc.
Qed.

(** Every tenant with limits is within them. *)
Definition within_limits (g : QuotaTracker) : Prop :=
  ∀ p t l, qt_tenants g !! p = Some t → QuotaTracker.limits_of g t = Some l →
    us_keys (ts_usage t) ≤ max_keys l ∧ us_bytes (ts_usage t) ≤ max_bytes l.

Inductive QuotaCall : Type := QPut (key : bytes) (bs : u64) | QDelete (key : bytes) (bs : u64).
(** A write asks first, and is recorded when it is allowed. *)
Definition quota_step (g : QuotaTracker) (c : QuotaCall) : QuotaTracker :=
  match c with
  | QPut key bs => if is_allow (QuotaTracker.check_put g key bs) then QuotaTracker.record_put g key bs else g
  | QDelete key bs => QuotaTracker.record_delete g key bs
  end.

Lemma tenant_of_global f g key :
  QuotaTracker.tenant_of (mkQuotaTracker (qt_tenants g) (default_limits g) f) key = QuotaTracker.tenant_of g key.
Proof. done. Qed.
Lemma charge_within f g key : within_limits g →
  (∀ p t l, QuotaTracker.tenant_of g key = Some (p, t) → QuotaTracker.limits_of g t = Some l →
    us_keys (ts_usage t) ≤ max_keys l ∧ us_bytes (ts_usage t) ≤ max_bytes l →
    us_keys (f (ts_usage t)) ≤ max_keys l ∧ us_bytes (f (ts_usage t)) ≤ max_bytes l) →
  within_limits (QuotaTracker.charge f g key).
Proof.
  intros Hw Hf. unfold QuotaTracker.charge. rewrite tenant_of_global. destruct (QuotaTracker.tenant_of g key) as [[p t]|] eqn:Et; [|done].
  assert (Hp : qt_tenants g !! p = Some t).
  { unfold QuotaTracker.tenant_of in Et. destruct (QuotaTracker.match_prefix g key) as [p'|]; [|done]. simpl in Et.
    destruct (qt_tenants g !! p') eqn:E; simplify_eq/=. done. }
  intros p' t' l Hl Hlim. simpl in Hl. apply lookup_insert_Some in Hl as [[<- <-]|[Hne Hl]]; [|by apply (Hw p')].
  simpl. apply (Hf p t l eq_refl Hlim). by apply (Hw p t).
Qed.

(** Admitted writes stay within the quota.  Whatever writes are attempted, those that are
    admitted never take a tenant over its limits. *)
Theorem quota_respected g (calls : list QuotaCall) :
  within_limits g → within_limits (foldl quota_step g calls).
Proof.
  revert g. induction calls as [|c calls IH]; intros g Hw; [done|]. simpl. apply IH. destruct c as [key bs|key bs]; simpl.
  - destruct (is_allow _) eqn:Ha; [|done]. apply charge_within; [done|]. intros p t l Ht Hl _. simpl.
    unfold QuotaTracker.check_put in Ha. rewrite Ht, Hl in Ha.
    destruct (N.ltb_spec (max_keys l) (us_keys (ts_usage t) +w 1)); [done|]. by destruct (N.ltb_spec (max_bytes l) (us_bytes (ts_usage t) +w bs)).
  - apply charge_within; [done|]. intros p t l _ _ [Hk Hb]. simpl. unfold saturating_sub. lia.
Qed.
Lemma quota_respected_witness :
  let g := QuotaTracker.register_tenant QuotaTracker.new (str "/a/") (mkLimits 1 100) in
  within_limits (foldl quota_step g [QPut (str "/a/x") 60; QPut (str "/a/y") 60]).
Proof.
  intros g. apply quota_respected. intros p t l Hl Hlim. unfold g, QuotaTracker.register_tenant in Hl. simpl in Hl.
  apply lookup_insert_Some in Hl as [[_ <-]|[_ Hl]]; [|rewrite lookup_empty in Hl; discriminate Hl].
  injection Hlim as <-. vm_compute. split; discriminate.
Defined.
(** A size near 2^64 wraps the sum and is admitted. *)
Lemma huge_write_admitted :
  let g := QuotaTracker.register_tenant QuotaTracker.new (str "/a/") (mkLimits 10 100) in
  let g := QuotaTracker.record_put g (str "/a/x") 50 in
  QuotaTracker.check_put g (str "/a/y") 18446744073709551600 = Allow.
Proof. vm_compute. reflexivity. Qed.

(** ** The consistent index is a maximum *)

Import ConsistentIndex.

Definition pc_entry (pc : Pc) : ConsistentEntry :=
  match pc with Loop e | Exchange e _ | LoadTerm e _ | StoreTerm e | Returned e _ => e end.
Definition pc_ok (idx : u64) (pc : Pc) : Prop :=
  match pc with
  | Loop _ => True
  | Exchange e cur => cur < ce_index e ∧ cur ≤ idx
  | LoadTerm e cur => ce_index e ≤ cur ≤ idx
  | StoreTerm e => ce_index e ≤ idx
  | Returned e v => ce_index e ≤ ce_index v ≤ idx
  end.

Lemma set_step_ok ci pc : pc_ok (ce_index ci) pc →
  let '(ci', pc') := set_step ci pc in
  ce_index ci ≤ ce_index ci' ∧ pc_ok (ce_index ci') pc' ∧ pc_entry pc' = pc_entry pc ∧
  (ce_index ci' = ce_index ci ∨ ce_index ci' = ce_index (pc_entry pc)).
Proof.
  destruct pc as [e|e cur|e cur|e|e v]; simpl; intros H.
  - destruct (N.leb_spec (ce_index e) (ce_index ci)); simpl; split_and!; lia || done.
  - destruct (N.eqb_spec (ce_index ci) cur); simpl; split_and!; lia || done.
  - split_and!; lia || done.
  - split_and!; lia || done.
  - split_and!; lia || done.
Qed.
Lemma pc_ok_mono idx idx' pc : idx ≤ idx' → pc_ok idx pc → pc_ok idx' pc.
Proof. destruct pc; simpl; lia. Qed.

(** The consistent index never goes back.  Under every interleaving of calls of [set] the
    index only grows; it is the initial one or one that was set; and a call that returned has
    its index covered, so that the apply gate refuses every entry up to it. *)
Theorem cindex_monotone ci (threads : list Pc) (schedule : list nat) :
  Forall (pc_ok (ce_index ci)) threads →
  let '(ci', threads') := run ci threads schedule in
  ce_index ci ≤ ce_index ci' ∧
  (ce_index ci' = ce_index ci ∨ ∃ pc, pc ∈ threads ∧ ce_index ci' = ce_index (pc_entry pc)) ∧
  pc_entry <$> threads' = pc_entry <$> threads ∧
  ∀ e v r, Returned e v ∈ threads' → should_apply ci' r = true → ce_index e < r.
Proof.
  revert ci threads. induction schedule as [|i schedule IH]; intros ci threads Hok; simpl.
  - split_and!; [lia|by left|done|]. intros e v r Hin Hr. rewrite Forall_forall in Hok. apply Hok in Hin. simpl in Hin.
    unfold should_apply in Hr. apply N.ltb_lt in Hr. lia.
  - destruct (threads !! i) as [pc|] eqn:Hi; [|by apply IH].
    pose proof (set_step_ok ci pc) as Hs. destruct (set_step ci pc) as [ci1 pc1].
    destruct Hs as (Hle & Hpc & He & Hv); [by eapply Forall_lookup_1 in Hok|].
    specialize (IH ci1 (<[i := pc1]> threads)). destruct (run ci1 (<[i := pc1]> threads) schedule) as [ci' threads'].
    destruct IH as (Hle' & Hv' & Hth & Hret).
    { apply Forall_insert; [|done]. eapply Forall_impl; [exact Hok|]. intros x. by apply pc_ok_mono. }
    assert (Hent : pc_entry <$> <[i := pc1]> threads = pc_entry <$> threads).
    { rewrite list_fmap_insert, He. apply list_insert_id. by rewrite list_lookup_fmap, Hi. }
    split_and!; [lia| |by rewrite Hth|done]. destruct Hv' as [->|(x & Hx & ->)].
    + destruct Hv as [-> | ->]; [by left|right]. exists pc. split; [by eapply list_elem_of_lookup_2|done].
    + right. apply (list_elem_of_fmap_2 pc_entry) in Hx. rewrite Hent in Hx. apply list_elem_of_fmap in Hx as (y & -> & Hy). by exists y.
Qed.
Lemma cindex_monotone_witness :
  let threads := [Loop (mkConsistentEntry 5 1); Loop (mkConsistentEntry 6 2)] in
  let '(ci', _) := run ConsistentIndex.new threads [0; 1; 0; 1; 0; 1; 1; 1]%nat in
  0 ≤ ce_index ci' ∧ ce_index ci' = 6.
Proof.
  intros threads. pose proof (cindex_monotone ConsistentIndex.new threads [0; 1; 0; 1; 0; 1; 1; 1]%nat) as H.
  destruct (run ConsistentIndex.new threads [0; 1; 0; 1; 0; 1; 1; 1]%nat) as [ci' ts] eqn:E.
  destruct H as [H _]; [by repeat constructor|]. split; [exact H|]. vm_compute in E. injection E as <- _. reflexivity.
Defined.

(** The index and the term are two atomics: the term stored last can belong to the smaller
    index. *)
Lemma torn_index_term :
  (run ConsistentIndex.new [Loop (mkConsistentEntry 5 1); Loop (mkConsistentEntry 6 2)] [0; 0; 1; 1; 1; 0]%nat).1 = mkConsistentEntry 6 1.
Proof. vm_compute. reflexivity. Qed.

(** What is flushed is what is loaded. *)
Lemma cindex_file_roundtrip ci : ce_index ci < u64_modulus → ce_term ci < u64_modulus → load_from_disk (Some (flush ci)) = Ok ci.
Proof.
  intros Hi Ht. unfold load_from_disk, flush. rewrite vlen_app, !vlen_to_be.
  change (negb (N.of_nat 8 + N.of_nat 8 =? 16)) with false. cbn match.
  rewrite take_app_length', drop_app_length' by (by rewrite length_to_be). change u64_modulus with (256 ^ N.of_nat 8) in Hi, Ht.
  rewrite (from_be_to_be 8 _ Hi), (from_be_to_be 8 _ Ht). by destruct ci.
Qed.

(** ** The generator of lease ids *)

Lemma xorshift_inj k a b : 0 < k → N.lxor a (N.shiftr a k) = N.lxor b (N.shiftr b k) → a = b.
Proof.
  intros Hk H. apply N.lxor_eq. set (d := N.lxor a b).
  assert (Hd : d = N.shiftr d k).
  { unfold d. rewrite N.shiftr_lxor. apply N.bits_inj. intros i. apply (f_equal (λ x, N.testbit x i)) in H. rewrite !N.lxor_spec in *.
    destruct (N.testbit a i), (N.testbit b i), (N.testbit (N.shiftr a k) i), (N.testbit (N.shiftr b k) i); done. }
  destruct (decide (d = 0)) as [|Hne]; [done|]. rewrite N.shiftr_div_pow2 in Hd.
  assert (Hlt : d / 2 ^ k < d) by (apply N.div_lt; [lia|]; apply N.pow_gt_1; lia). lia.
Qed.
(** Multiplication by an odd constant: [c'] undoes it. *)
Lemma mul_inj c c' a b : u64_mul c c' = 1 → a < u64_modulus → b < u64_modulus → u64_mul a c = u64_mul b c → a = b.
Proof.
  unfold u64_mul. intros Hc Ha Hb H.
  assert (Hx : ∀ x, x < u64_modulus → ((x * c) mod u64_modulus * c') mod u64_modulus = x).
  { intros x Hx. rewrite N.Div0.mul_mod_idemp_l, <- N.mul_assoc, <- N.Div0.mul_mod_idemp_r, Hc, N.mul_1_r. by apply N.mod_small. }
  rewrite <- (Hx a Ha), <- (Hx b Hb). by rewrite H.
Qed.
Lemma add_inj c a b : c < u64_modulus → a < u64_modulus → b < u64_modulus → a +w c = b +w c → a = b.
Proof.
  intros Hc Ha Hb H. apply (f_equal (λ x, x -w c)) in H. unfold u64_add, u64_sub in H.
  assert (Hx : ∀ x, x < u64_modulus → ((x + c) mod u64_modulus + u64_modulus - c) mod u64_modulus = x).
  { intros x Hx. rewrite <- N.add_sub_assoc by lia. rewrite N.Div0.add_mod_idemp_l. replace (x + c + (u64_modulus - c)) with (x + 1 * u64_modulus) by lia.
    rewrite N.Div0.mod_add. by apply N.mod_small. }
  rewrite !Hx in H by done. done.
Qed.
Lemma u64_mul_range a c : u64_mul a c < u64_modulus.
Proof. apply N.mod_lt. done. Qed.
Lemma lxor_shiftr_range a k : a < u64_modulus → N.lxor a (N.shiftr a k) < u64_modulus.
Proof.
  change u64_modulus with (2 ^ 64). intros Ha. destruct (decide (N.lxor a (N.shiftr a k) = 0)) as [->|Hne]; [done|].
  apply N.log2_lt_pow2; [lia|]. eapply N.le_lt_trans; [apply N.log2_lxor|]. rewrite N.log2_shiftr.
  destruct (decide (a = 0)) as [->|Ha0]; [by rewrite N.shiftr_0_l in Hne|].
  apply N.max_lub_lt; [by apply N.log2_lt_pow2; [lia|]|]. assert (N.log2 a < 64) by (apply N.log2_lt_pow2; [lia|done]). lia.
Qed.

(** The generator does not repeat itself.  [splitmix64] maps distinct seeds to distinct
    numbers, so 2^64 draws in a row of one generator are all different before the sign bit is
    masked. *)
Theorem splitmix64_injective a b :
  a < u64_modulus → b < u64_modulus → splitmix64 a = splitmix64 b → a = b.
Proof.
  intros Ha Hb. unfold splitmix64. cbv zeta. intros H. apply xorshift_inj in H; [|done].
  apply (mul_inj 10723151780598845931 3573116690164977347 _ _ eq_refl (lxor_shiftr_range _ _ (u64_mul_range _ _)) (lxor_shiftr_range _ _ (u64_mul_range _ _))) in H.
  apply xorshift_inj in H; [|done].
  apply (mul_inj 13787848793156543929 10871156337175269513 _ _ eq_refl (lxor_shiftr_range _ _ (u64_add_range _ _)) (lxor_shiftr_range _ _ (u64_add_range _ _))) in H.
  apply xorshift_inj in H; [|done]. exact (add_inj 11400714819323198485 a b eq_refl Ha Hb H).
Qed.
Lemma splitmix64_injective_witness : splitmix64 1 ≠ splitmix64 2.
Proof. intros H. discriminate (splitmix64_injective 1 2 eq_refl eq_refl H). Defined.

Lemma next_range g : fixed_queue g = [] →
  let '(id, g') := LeaseIdGenerator.next g in (0 < id < 9223372036854775808)%Z ∧ fixed_queue g' = [].
Proof.
  intros Hf. unfold LeaseIdGenerator.next. rewrite Hf. split; [|done]. change 9223372036854775807 with (N.ones 63). rewrite N.land_ones.
  pose proof (N.mod_lt (splitmix64 (boot_token g +w lig_counter g)) (2 ^ 63) ltac:(done)) as Hm.
  change (2 ^ 63) with 9223372036854775808 in *. revert Hm. generalize (splitmix64 (boot_token g +w lig_counter g) mod 9223372036854775808) as m.
  intros m Hm. destruct (Z.eqb_spec (Z.of_N m) 0); lia.
Qed.

(** Allocated ids are free.  [allocate] returns a candidate the closure reported free, a
    positive [i64] unless it was injected; it gives up only after five candidates the closure
    reported taken. *)
Theorem allocate_free is_taken g :
  match LeaseIdGenerator.allocate is_taken g with
  | (Some id, g') => (∃ n, (n < MAX_LEASE_ID_RETRIES)%nat ∧ is_taken n id = false) ∧
      (fixed_queue g = [] → (0 < id < 9223372036854775808)%Z)
  | (None, g') => ∀ n, (n < MAX_LEASE_ID_RETRIES)%nat → ∃ id, is_taken n id = true
  end.
Proof.
  unfold LeaseIdGenerator.allocate. generalize MAX_LEASE_ID_RETRIES as r.
  assert (H : ∀ r calls g, match LeaseIdGenerator.allocate_loop r is_taken calls g with
    | (Some id, g') => (∃ n, (calls ≤ n < calls + r)%nat ∧ is_taken n id = false) ∧ (fixed_queue g = [] → (0 < id < 9223372036854775808)%Z)
    | (None, g') => ∀ n, (calls ≤ n < calls + r)%nat → ∃ id, is_taken n id = true end).
  { clear g. induction r as [|r IH]; intros calls g; cbn [LeaseIdGenerator.allocate_loop]; [lia|].
    pose proof (next_range g) as Hr. destruct (LeaseIdGenerator.next g) as [id g1]. destruct (is_taken calls id) eqn:Ht.
    - specialize (IH (S calls) g1). destruct (LeaseIdGenerator.allocate_loop r is_taken (S calls) g1) as [[id'|] g2].
      + destruct IH as [(n & ? & ?) Hid]. split; [exists n; split; [lia|done]|]. intros Hf. apply Hid, Hr, Hf.
      + intros n Hn. destruct (decide (n = calls)) as [->|]; [by exists id|]. apply IH. lia.
    - split; [exists calls; split; [lia|done]|]. intros Hf. by apply Hr. }
  intros r. specialize (H r 0%nat g). destruct (LeaseIdGenerator.allocate_loop r is_taken 0 g) as [[id|] g']; [|intros n Hn; apply H; lia].
  destruct H as [(n & ? & ?) ?]. split; [exists n; split; [lia|done]|done].
Qed.

(** ** Watch filters *)

(** An event is dropped when a filter names its type; otherwise it is passed on, with the
    previous value only where it was asked for. *)
Lemma watch_filter_spec s ev :
  WatchFilterSet.apply s ev =
  if (WatchFilterSet.drops_puts s && bool_decide (ev_type ev = EPut)) || (WatchFilterSet.drops_deletes s && bool_decide (ev_type ev = EDelete))
  then None else Some (mkWatchEvent (ev_type ev) (ev_kv ev) (if keep_prev_kv s then ev_prev_kv ev else None)).
Proof.
  assert (He : existsb (λ f, WatchFilterSet.drops f (ev_type ev)) (wf_filters s) =
    (WatchFilterSet.drops_puts s && bool_decide (ev_type ev = EPut)) || (WatchFilterSet.drops_deletes s && bool_decide (ev_type ev = EDelete))).
  { unfold WatchFilterSet.drops_puts, WatchFilterSet.drops_deletes. apply eq_bool_prop_intro. rewrite !Is_true_true, existsb_exists, orb_true_iff, !andb_true_iff, !bool_decide_eq_true.
    setoid_rewrite <- list_elem_of_In. split.
    - intros (f & Hf & Hd). destruct f, (ev_type ev); naive_solver.
    - intros [[Hf ->]|[Hf ->]]; [by exists NoPut|by exists NoDelete]. }
  unfold WatchFilterSet.apply. rewrite He. destruct (_ || _); [done|]. destruct (keep_prev_kv s), ev; done.
Qed.
