(* ===== verification/EtcdWal.v ===== *)
(** * The write-ahead log of cave-etcd

    [crates/compute/cave-etcd/src/wal.rs]: the framed log file, its recovery on opening, and
    the replay of its entries into the store of EtcdStore.v.

    The directory holds one file, the [File] of Files.v with the handle's position.
    [serde_json] on records and [crc32fast::hash] are parameters; the law of the first is its
    round trip, of the second that it is a 32 bit number.  The clock read while an entry is
    replayed is an argument. *)

From S2P Require Import Prelude Effects Bytes Files EtcdTypes EtcdStore.

Definition RECORD_HEADER_LEN : usize := 8.
Definition MAX_PAYLOAD_LEN : N := 8388608.

Inductive WalError : Type :=
| PayloadTooLarge (size : N)
| Corrupt (offset : u64) (expected got : N)
| Decode (offset : u64).

Inductive WalOp : Type :=
| WPut (key value : bytes) (lease : option Z)
| WDelete (key : bytes) (range_end : option bytes)
| WTxn (ops : list WalOp)
| WCompact (revision : Z)
| WLeaseGrant (lease_id ttl_seconds : Z)
| WLeaseRevoke (lease_id : Z).
Record EntryRecord : Type := mkEntryRecord { er_index : u64; er_term : u64; er_op : WalOp }.
Inductive WalRecord : Type :=
| WMetadata (cluster_id node_id : u64)
| WEntry (e : EntryRecord)
| WState (commit_index term : u64) (voted_for : option u64)
| WSnapshot (snapshot_index snapshot_term : u64).

Record Wal : Type := mkWal { file : File; last_entry_index : u64; record_count : u64 }.

(** [crc32fast::hash] *)
Class Crc32 : Type := crc32 (payload : bytes) : N.
Class Crc32Laws `{!Crc32} : Prop := crc32_bound payload : crc32 payload < 4294967296.

Module Wal.
Section WithJson.
Context `{JR : !Json WalRecord} `{CR : !Crc32}.

(** The bytes of a record. *)
Definition frame (payload : bytes) : bytes :=
  to_le 4 (vlen payload) ++ to_le 4 (crc32 payload) ++ payload.

Definition write_record (out : File) (record : WalRecord) : result WalError File :=
  let payload := to_json record in
  if MAX_PAYLOAD_LEN <? vlen payload then Err (PayloadTooLarge (vlen payload mod 4294967296))
  else Ok (write_all out (frame payload)).

(** The reading part of both loops: a header, its length, the payload, its checksum. *)
Definition read_frame (offset : N) (buf : bytes) : Step bytes WalError :=
  if vlen buf <? RECORD_HEADER_LEN then Stop
  else
    let len := from_le (vslice buf 0 4) in
    let crc_expected := from_le (vslice buf 4 8) in
    if MAX_PAYLOAD_LEN <? len then Stop
    else if vlen buf <? RECORD_HEADER_LEN + len then Stop
    else
      let payload := vslice buf 8 (8 + len) in
      let crc_got := crc32 payload in
      if negb (crc_got =? crc_expected) then Fail (Corrupt offset crc_expected crc_got)
      else Got payload (RECORD_HEADER_LEN + len).

(** The body of the loop of [replay_file]. *)
Definition read_record (offset : N) (buf : bytes) : Step WalRecord WalError :=
  match read_frame offset buf with
  | Got payload size =>
      match from_json payload with
      | Some record => Got record size
      | None => Fail (Decode offset)
      end
  | Stop => Stop
  | Fail e => Fail e
  end.
Definition replay_file (disk : bytes) : result WalError (list WalRecord) := scan_all read_record disk.

(** One round of [scan_for_valid_end] behind the reading. *)
Definition scan_payload (acc : u64 * u64 * u64) (payload : bytes) : u64 * u64 * u64 :=
  let '(last_entry_index, record_count, last_good_end) := acc in
  (match from_json payload with
   | Some (WEntry e) => if last_entry_index <? er_index e then er_index e else last_entry_index
   | _ => last_entry_index
   end,
   record_count +w 1,
   last_good_end +w (RECORD_HEADER_LEN + vlen payload)).
Definition scan_for_valid_end (disk : bytes) : result WalError (u64 * u64 * u64) :=
  let? payloads := scan_all read_frame disk in Ok (foldl scan_payload (0, 0, 0) payloads).

Definition open (disk : bytes) : result WalError Wal :=
  let? r := scan_for_valid_end disk in
  let '(last_entry_index, record_count, valid_end) := r in
  let f := mkFile disk 0 in
  let f := if valid_end <? fsize f then set_len f valid_end else f in
  Ok (mkWal (seek_end f) last_entry_index record_count).

Definition append (w : Wal) (record : WalRecord) : result WalError Wal :=
  let? f := write_record (file w) record in
  Ok (mkWal f (last_entry_index w) (record_count w +w 1)).

Definition append_entry (w : Wal) (term : u64) (op : WalOp) : result WalError (Wal * u64) :=
  let index := last_entry_index w +w 1 in
  let? f := write_record (file w) (WEntry (mkEntryRecord index term op)) in
  Ok (mkWal f index (record_count w +w 1), index).

Definition next_entry_index (w : Wal) : u64 := last_entry_index w +w 1.
Definition replay (w : Wal) : result WalError (list WalRecord) := replay_file (content (file w)).

(** The records [truncate_through] keeps. *)
Definition keeps (index : u64) (r : WalRecord) : bool :=
  match r with WEntry e => index <? er_index e | _ => true end.
Fixpoint write_records (out : File) (rs : list WalRecord) : result WalError File :=
  match rs with
  | [] => Ok out
  | r :: rs => let? out := write_record out r in write_records out rs
  end.
Definition truncate_through (w : Wal) (index : u64) : result WalError Wal :=
  let? records := replay_file (content (file w)) in
  let kept := filter (λ r, keeps index r = true) records in
  let? out := write_records (mkFile [] 0) kept in
  let? r := scan_for_valid_end (content out) in
  let '(last_entry_index, record_count, _) := r in
  Ok (mkWal (seek_end (mkFile (content out) 0)) last_entry_index record_count).
End WithJson.
End Wal.

(** ** Replay into the store *)

Fixpoint apply_op (now : Z) (op : WalOp) : Store unit :=
  match op with
  | WPut key value lease =>
      put (mkPutRequest (from_utf8_lossy key) (from_utf8_lossy value) lease false);; skip
  | WDelete key range_end =>
      delete_range (mkDeleteRangeRequest (from_utf8_lossy key) (from_utf8_lossy <$> range_end) false);; skip
  | WTxn ops =>
      (fix each (ops : list WalOp) : Store unit :=
         match ops with [] => skip | op :: ops => apply_op now op;; each ops end) ops
  | WCompact revision => compaction (Z.to_N (revision mod Z.of_N u64_modulus));; skip
  | WLeaseGrant lease_id ttl_seconds => lease_grant now (mkLeaseGrantRequest ttl_seconds (Some lease_id));; skip
  | WLeaseRevoke lease_id => lease_revoke lease_id;; skip
  end.

Section Replay.
Context `{JR : !Json WalRecord} `{CR : !Crc32}.
(** The clock while the entry of an index is replayed. *)
Context (clock : u64 → Z).

Definition apply_record (r : WalRecord) : Store unit :=
  match r with WEntry e => apply_op (clock (er_index e)) (er_op e) | _ => skip end.
Definition apply_records (rs : list WalRecord) : Store unit := for_each rs apply_record.
(** An error of the replay leaves the store as it is. *)
Definition replay_into_store (w : Wal) : Store unit :=
  match Wal.replay w with
  | Ok records => apply_records records
  | Err _ => skip
  end.
End Replay.

Lemma apply_txn now ops : apply_op now (WTxn ops) = for_each ops (apply_op now).
Proof. simpl. induction ops as [|op ops IH]; [done|]. cbn [for_each]. by rewrite IH. Qed.

(** ** Frames *)

Section Frames.
Context `{JR : !Json WalRecord} `{LR : !JsonLaws WalRecord} `{CR : !Crc32} `{LC : !Crc32Laws}.

Definition wal_frame (r : WalRecord) : bytes := Wal.frame (to_json r).
(** The records [write_record] accepts. *)
Definition wal_fits (r : WalRecord) : Prop := vlen (to_json r) ≤ MAX_PAYLOAD_LEN.

Lemma length_frame payload : length (Wal.frame payload) = (8 + length payload)%nat.
Proof. unfold Wal.frame. rewrite !length_app, !length_to_le. lia. Qed.

Lemma frame_fields payload rest :
  vlen payload ≤ MAX_PAYLOAD_LEN → let buf := Wal.frame payload ++ rest in
  from_le (vslice buf 0 4) = vlen payload ∧ from_le (vslice buf 4 8) = crc32 payload ∧
  vslice buf 8 (8 + vlen payload) = payload.
Proof.
  intros Hp. unfold Wal.frame. pose proof (crc32_bound payload) as Hc.
  assert (Hb : ∀ x, x < 4294967296 → from_le (to_le 4 x) = x) by (intros; by apply from_le_to_le).
  assert (Hl : from_le (to_le 4 (vlen payload)) = vlen payload) by (apply Hb; unfold MAX_PAYLOAD_LEN in Hp; lia).
  pose proof (Hb _ Hc) as Hs. pose proof (length_to_le 4 (vlen payload)) as H1. pose proof (length_to_le 4 (crc32 payload)) as H2.
  revert Hl Hs H1 H2. generalize (to_le 4 (vlen payload)), (to_le 4 (crc32 payload)). intros a b Hl Hs H1 H2.
  repeat (destruct a as [|? a]; [done|]). destruct a; [|done]. repeat (destruct b as [|? b]; [done|]). destruct b; [|done].
  simpl. split_and!; [exact Hl|exact Hs|]. unfold vslice.
  replace (N.to_nat (8 + vlen payload - 8)) with (length payload) by (unfold vlen; lia).
  change (N.to_nat 8) with 8%nat. change (drop 8 _) with (payload ++ rest). by rewrite take_app_length.
Qed.

Lemma read_frame_whole off r rest : wal_fits r →
  Wal.read_frame off (wal_frame r ++ rest) = Got (to_json r) (vlen (wal_frame r)).
Proof.
  intros Hf. unfold Wal.read_frame, wal_frame. destruct (frame_fields (to_json r) rest Hf) as (-> & -> & ->).
  assert (Hv : vlen (Wal.frame (to_json r)) = 8 + vlen (to_json r)) by (unfold vlen; rewrite length_frame; lia).
  rewrite vlen_app, Hv, N.eqb_refl. cbn [negb]. unfold RECORD_HEADER_LEN, wal_fits in *.
  destruct (N.ltb_spec (8 + vlen (to_json r) + vlen rest) 8); [lia|].
  destruct (N.ltb_spec MAX_PAYLOAD_LEN (vlen (to_json r))); [lia|].
  by destruct (N.ltb_spec (8 + vlen (to_json r) + vlen rest) (8 + vlen (to_json r))); [lia|].
Qed.
Lemma read_frame_torn off r n : wal_fits r → (n < length (wal_frame r))%nat →
  Wal.read_frame off (take n (wal_frame r)) = Stop.
Proof.
  intros Hf Hn. unfold Wal.read_frame, wal_frame, RECORD_HEADER_LEN in *. rewrite length_frame in Hn.
  assert (Hl : vlen (take n (Wal.frame (to_json r))) = N.of_nat n)
    by (unfold vlen; rewrite length_take, length_frame; lia).
  rewrite Hl. destruct (N.ltb_spec (N.of_nat n) 8); [done|].
  destruct (frame_fields (to_json r) [] Hf) as (Hlen & _). rewrite app_nil_r in Hlen.
  assert (Hs : vslice (take n (Wal.frame (to_json r))) 0 4 = vslice (Wal.frame (to_json r)) 0 4).
  { unfold vslice. change (N.to_nat 0) with 0%nat. change (N.to_nat (4 - 0)) with 4%nat. rewrite !drop_0, take_take. f_equal. lia. }
  rewrite Hs, Hlen. destruct (MAX_PAYLOAD_LEN <? _); [done|].
  destruct (N.ltb_spec (N.of_nat n) (8 + vlen (to_json r))) as [|Hge]; [done|]. unfold vlen in Hge. lia.
Qed.

Lemma read_record_whole off r rest : wal_fits r → Wal.read_record off (wal_frame r ++ rest) = Got r (vlen (wal_frame r)).
Proof. intros Hf. unfold Wal.read_record. by rewrite read_frame_whole, from_to_json. Qed.
Lemma read_record_torn off r n : wal_fits r → (n < length (wal_frame r))%nat →
  Wal.read_record off (take n (wal_frame r)) = Stop.
Proof. intros Hf Hn. unfold Wal.read_record. by rewrite read_frame_torn. Qed.

(** The log of some records, cut at a byte. *)
Abbreviation wal_log rs := (log_bytes wal_frame rs).
Abbreviation whole rs n := (complete wal_frame rs n).

Lemma replay_cut rs n : Forall wal_fits rs → Wal.replay_file (take n (wal_log rs)) = Ok (whole rs n).
Proof.
  intros Hf. unfold Wal.replay_file.
  rewrite (scan_all_cut wal_frame Wal.read_record id wal_fits); [|by apply read_record_whole|by apply read_record_torn|done|done].
  by rewrite list_fmap_id.
Qed.
Lemma replay_log rs : Forall wal_fits rs → Wal.replay_file (wal_log rs) = Ok rs.
Proof. intros Hf. rewrite <- (firstn_all (wal_log rs)), replay_cut by done. by rewrite complete_all. Qed.

(** The counters found by the scan. *)
Definition top_index (rs : list WalRecord) : u64 :=
  foldl (λ m r, match r with WEntry e => if m <? er_index e then er_index e else m | _ => m end) 0 rs.

Lemma scan_counters rs : vlen (wal_log rs) < u64_modulus → Forall wal_fits rs →
  foldl Wal.scan_payload (0, 0, 0) (to_json <$> rs) = (top_index rs, vlen rs, vlen (wal_log rs)).
Proof.
  intros Hsz Hf. induction rs as [|r rs IH] using rev_ind; [done|].
  rewrite log_bytes_app, vlen_app in Hsz. apply Forall_app in Hf as [Hf _].
  rewrite fmap_app, foldl_app, IH by (done || lia). simpl. unfold top_index. rewrite foldl_app. simpl.
  rewrite from_to_json. rewrite vlen_app, log_bytes_app, (vlen_app (wal_log rs)).
  assert (Hw : vlen (wal_log [r]) = 8 + vlen (to_json r)).
  { rewrite log_bytes_cons, app_nil_r. unfold wal_frame, vlen. rewrite length_frame. lia. }
  rewrite Hw in *. assert (vlen rs ≤ vlen (wal_log rs)).
  { clear. induction rs as [|x rs IH]; [done|]. rewrite log_bytes_cons, vlen_app, vlen_cons.
    unfold wal_frame, vlen in *. rewrite length_frame. lia. }
  f_equal; [f_equal|].
  - rewrite u64_add_small by lia. done.
  - unfold RECORD_HEADER_LEN. rewrite u64_add_small by lia. done.
Qed.

(** ** Opening recovers *)

(** A handle at the end of a file that holds exactly the records [rs], with its counters. *)
Definition holds (w : Wal) (rs : list WalRecord) : Prop :=
  file w = mkFile (wal_log rs) (vlen (wal_log rs)) ∧ Forall wal_fits rs ∧
  last_entry_index w = top_index rs ∧ record_count w = vlen rs.

Lemma wal_open_cut rs n : Forall wal_fits rs → vlen (wal_log rs) < u64_modulus →
  ∃ w, Wal.open (take n (wal_log rs)) = Ok w ∧ holds w (whole rs n).
Proof.
  intros Hf Hsz. assert (Hf' : Forall wal_fits (whole rs n)).
  { destruct (complete_prefix wal_frame rs n) as [k Hk]. rewrite Hk in Hf. by apply Forall_app in Hf as [? _]. }
  pose proof (complete_bytes wal_frame rs n) as Hb. pose proof (complete_take wal_frame rs n) as Ht.
  assert (Hsz' : vlen (wal_log (whole rs n)) < u64_modulus).
  { assert (Hl := f_equal length Ht). rewrite !length_take in Hl. unfold vlen in *. lia. }
  unfold Wal.open, Wal.scan_for_valid_end.
  rewrite (scan_all_cut wal_frame Wal.read_frame to_json wal_fits);
    [|intros; by apply read_frame_whole|by apply read_frame_torn|done|done]. simpl.
  rewrite scan_counters by done. eexists. split; [reflexivity|]. split_and!; [|done..].
  cbn [file]. unfold seek_end, fsize, set_len. cbn [content cursor]. unfold fsize. cbn [content].
  destruct (N.ltb_spec (vlen (wal_log (whole rs n))) (vlen (take n (wal_log rs)))) as [Hlt|Hge].
  - cbn [content]. replace (N.to_nat (vlen (wal_log (whole rs n)) - vlen (take n (wal_log rs)))) with 0%nat by lia.
    simpl replicate. rewrite app_nil_r. unfold vlen. rewrite Nat2N.id, Ht. done.
  - cbn [content]. assert (take n (wal_log rs) = wal_log (whole rs n)) as ->; [|done].
    rewrite <- Ht. symmetry. apply take_ge. unfold vlen in *. lia.
Qed.

Lemma write_holds w rs r : holds w rs → wal_fits r →
  Wal.write_record (file w) r = Ok (mkFile (wal_log (rs ++ [r])) (vlen (wal_log (rs ++ [r])))).
Proof.
  intros (Hw & _) Hr. unfold Wal.write_record, wal_fits in *. destruct (N.ltb_spec MAX_PAYLOAD_LEN (vlen (to_json r))); [lia|].
  rewrite Hw, write_at_end by done. cbn [content]. rewrite log_bytes_app, (log_bytes_cons _ r), app_nil_r. done.
Qed.

Lemma top_index_snoc rs r :
  top_index (rs ++ [r]) = match r with WEntry e => N.max (top_index rs) (er_index e) | _ => top_index rs end.
Proof.
  unfold top_index. rewrite foldl_app. cbn [foldl]. destruct r; try done. by case_N1; lia.
Qed.
Lemma vlen_records rs : vlen rs ≤ vlen (wal_log rs).
Proof.
  induction rs as [|x rs IH]; [done|]. rewrite log_bytes_cons, vlen_app, vlen_cons.
  unfold wal_frame, vlen in *. rewrite length_frame. lia.
Qed.
Lemma write_fits f r f' : Wal.write_record f r = Ok f' → wal_fits r.
Proof. unfold Wal.write_record, wal_fits. by destruct (N.ltb_spec MAX_PAYLOAD_LEN (vlen (to_json r))). Qed.

Lemma append_holds w rs r w' : holds w rs → (∀ e, r ≠ WEntry e) → Wal.append w r = Ok w' →
  fsize (file w') < u64_max → holds w' (rs ++ [r]).
Proof.
  intros Hw Hne. unfold Wal.append. destruct (Wal.write_record (file w) r) as [f|] eqn:Hwr; [|done]. simpl.
  intros [= <-] Hsz. pose proof (write_fits _ _ _ Hwr) as Hr. rewrite (write_holds w rs r Hw Hr) in Hwr. simplify_eq.
  cbn in Hsz. pose proof (vlen_records (rs ++ [r])) as Hv. rewrite vlen_app in Hv.
  destruct Hw as (_ & Hf & Hi & Hc). split_and!; [done|by apply Forall_app; split; [|constructor]| |].
  - cbn [last_entry_index]. rewrite Hi, top_index_snoc. destruct r; try done. by destruct (Hne e).
  - cbn [record_count]. unfold fsize in Hsz. cbn [content] in Hsz. rewrite Hc, u64_add_1, vlen_app by lia. done.
Qed.

(** The indices of the entries. *)
Definition indices (rs : list WalRecord) : list u64 :=
  omap (λ r, match r with WEntry e => Some (er_index e) | _ => None end) rs.
(** They are 1, 2, ... in the order of the log. *)
Definition numbered (rs : list WalRecord) : Prop := ∀ k i, indices rs !! k = Some i → i = N.of_nat k + 1.

Lemma indices_app rs rs' : indices (rs ++ rs') = indices rs ++ indices rs'.
Proof. apply omap_app. Qed.
Lemma numbered_prefix rs rs' : numbered (rs ++ rs') → numbered rs.
Proof. intros Hn k i Hk. apply Hn. rewrite indices_app. by apply lookup_app_l_Some. Qed.
Lemma numbered_top rs : numbered rs → top_index rs = vlen (indices rs).
Proof.
  induction rs as [|r rs IH] using rev_ind; [done|]. intros Hn. rewrite top_index_snoc, indices_app, vlen_app.
  rewrite IH by by eapply numbered_prefix. destruct r as [| e | |]; try (change (vlen (indices [_])) with 0; lia).
  change (vlen (indices [WEntry e])) with 1. specialize (Hn (length (indices rs)) (er_index e)).
  rewrite indices_app, lookup_app_r, Nat.sub_diag in Hn by lia. specialize (Hn eq_refl). unfold vlen. lia.
Qed.
Lemma vlen_indices rs : vlen (indices rs) ≤ vlen rs.
Proof.
  induction rs as [|r rs IH]; [done|]. change (r :: rs) with ([r] ++ rs). rewrite indices_app, !vlen_app.
  assert (vlen (indices [r]) ≤ 1) by by destruct r. change (vlen [r]) with 1. lia.
Qed.

Lemma append_entry_holds w rs term op w' i : holds w rs → numbered rs → Wal.append_entry w term op = Ok (w', i) →
  fsize (file w') < u64_max →
  let r := WEntry (mkEntryRecord i term op) in
  i = vlen (indices rs) + 1 ∧ holds w' (rs ++ [r]) ∧ numbered (rs ++ [r]).
Proof.
  intros Hw Hn. unfold Wal.append_entry. pose proof (numbered_top rs Hn) as Ht.
  set (index := last_entry_index w +w 1). destruct (Wal.write_record (file w) _) as [f|] eqn:Hwr; [|done]. simpl.
  intros [= <- <-] Hsz. pose proof (write_fits _ _ _ Hwr) as Hr. rewrite (write_holds w rs _ Hw Hr) in Hwr. simplify_eq.
  unfold fsize in Hsz. cbn [file content] in Hsz. destruct Hw as (_ & Hf & Hi & Hc).
  pose proof (vlen_records (rs ++ [WEntry (mkEntryRecord index term op)])) as Hv. rewrite vlen_app in Hv.
  change (vlen [_]) with 1 in Hv. pose proof (vlen_indices rs).
  assert (Hidx : index = vlen (indices rs) + 1) by (unfold index; rewrite Hi, Ht, u64_add_1; lia).
  split_and!; [done|split_and!; [done|by apply Forall_app; split; [|constructor]| |]|].
  - cbn [last_entry_index]. rewrite top_index_snoc. cbn [er_index]. lia.
  - cbn [record_count]. rewrite Hc, u64_add_1, vlen_app by lia. done.
  - intros k j. rewrite indices_app. intros [Hk|[Hlen Hk]]%lookup_app_Some; [by apply Hn|].
    destruct (k - length (indices rs))%nat eqn:Hd; [|done]. cbn in Hk. simplify_eq. rewrite Hidx. unfold vlen. lia.
Qed.

(** ** The life of a log, crashes included *)

(** [written w rs]: the handle [w] has come about by opening an empty directory, appending,
    and any number of crashes after which the log was opened again; [rs] are the records
    that were appended and not lost. *)
Inductive written : Wal → list WalRecord → Prop :=
| written_new w : Wal.open [] = Ok w → written w []
| written_append w rs r w' :
    written w rs → (∀ e, r ≠ WEntry e) → Wal.append w r = Ok w' → fsize (file w') < u64_max → written w' (rs ++ [r])
| written_entry w rs term op w' i :
    written w rs → Wal.append_entry w term op = Ok (w', i) → fsize (file w') < u64_max →
    written w' (rs ++ [WEntry (mkEntryRecord i term op)])
| written_crash w rs n w' :
    written w rs → Wal.open (take n (content (file w))) = Ok w' → written w' (whole rs n).

Lemma written_holds w rs : written w rs → holds w rs ∧ numbered rs ∧ fsize (file w) < u64_max.
Proof.
  induction 1 as [w Hw|w rs r w' _ (IH & Hn & _) Hne Ha Hsz|w rs t op w' i _ (IH & Hn & _) Ha Hsz|w rs n w' _ (IH & Hn & Hsz) Ho].
  - vm_compute in Hw. simplify_eq. split_and!; [split_and!; done|by intros [] ?|done].
  - split_and!; [by eapply append_holds| |done]. intros k i. rewrite indices_app.
    assert (indices [r] = []) as -> by (destruct r; try done; by destruct (Hne e)). rewrite app_nil_r. apply Hn.
  - by destruct (append_entry_holds _ _ _ _ _ _ IH Hn Ha Hsz) as (_ & ? & ?).
  - pose proof IH as (Hf & Hfits & _). unfold fsize in Hsz. rewrite Hf in Ho, Hsz. cbn [content] in Ho, Hsz.
    destruct (wal_open_cut rs n Hfits) as (w'' & Hw & Hh); [unfold u64_max, u64_modulus in *; lia|].
    rewrite Hw in Ho. injection Ho as ->.
    destruct (complete_prefix wal_frame rs n) as [k Hk]. split_and!; [exact Hh|rewrite Hk in Hn; by eapply numbered_prefix|].
    destruct Hh as (Hf' & _). unfold fsize. rewrite Hf'. cbn [content]. pose proof (f_equal (length ∘ log_bytes wal_frame) Hk) as Hl.
    cbn in Hl. rewrite log_bytes_app, length_app in Hl. unfold vlen in *. lia.
Qed.

(** The log of cave-etcd through crashes.  Whatever was appended and however often the
    process crashed in between, the log holds exactly the records not lost: a replay returns
    them in order, the counters agree with them, and the entries are numbered 1, 2, ...
    without gaps or repetitions, so the next entry never reuses an index. *)
Theorem wal_consistent w rs :
  written w rs →
  Wal.replay w = Ok rs ∧ numbered rs ∧ last_entry_index w = vlen (indices rs) ∧ record_count w = vlen rs.
Proof.
  intros (Hh & Hn & Hsz)%written_holds. pose proof Hh as (Hf & Hfits & Hi & Hc). split_and!; [|done| |done].
  - unfold Wal.replay. rewrite Hf. cbn [content]. by apply replay_log.
  - by rewrite Hi, numbered_top.
Qed.

(** C24: recovery of the store from the log.  After a crash that leaves any number of bytes,
    the log opens, and replaying it into a store applies the operations of exactly the
    records that are complete on disk, in order; records that were on disk before the last
    write are among them. *)
Theorem wal_recovers_store clock w rs n rs0 :
  written w rs → rs0 `prefix_of` rs → vlen (wal_log rs0) ≤ N.of_nat n →
  ∃ w' kept, Wal.open (take n (content (file w))) = Ok w' ∧ written w' kept ∧
    rs0 `prefix_of` kept ∧ kept `prefix_of` rs ∧
    replay_into_store clock w' = apply_records clock kept.
Proof.
  intros Hw [rs1 ->] Hn. pose proof (written_holds _ _ Hw) as (Hh & _ & Hsz). pose proof Hh as (Hf & Hfits & _).
  unfold fsize in Hsz. rewrite Hf in Hsz. cbn [content] in Hsz.
  destruct (wal_open_cut (rs0 ++ rs1) n Hfits) as (w' & Ho & Hh'); [unfold u64_max, u64_modulus in *; lia|].
  exists w', (whole (rs0 ++ rs1) n). rewrite Hf. cbn [content]. split_and!.
  - done.
  - eapply written_crash; [done|]. by rewrite Hf.
  - apply complete_keeps. unfold vlen in Hn. lia.
  - apply complete_prefix.
  - unfold replay_into_store, Wal.replay. destruct Hh' as (Hf' & Hfits' & _). rewrite Hf'. cbn [content].
    by rewrite replay_log.
Qed.

(** ** Truncation behind a snapshot *)

Lemma write_records_holds w0 rs0 rs : holds w0 rs0 → Forall wal_fits rs →
  Wal.write_records (file w0) rs = Ok (mkFile (wal_log (rs0 ++ rs)) (vlen (wal_log (rs0 ++ rs)))).
Proof.
  intros Hh Hf. revert w0 rs0 Hh. induction Hf as [|r rs Hr Hf IH]; intros w0 rs0 Hh; cbn [Wal.write_records].
  - rewrite app_nil_r. f_equal. apply Hh.
  - rewrite (write_holds w0 rs0 r Hh Hr). simpl. destruct Hh as (_ & Hf0 & _).
    replace (rs0 ++ r :: rs) with ((rs0 ++ [r]) ++ rs) by by rewrite <- app_assoc.
    apply (IH (mkWal (mkFile (wal_log (rs0 ++ [r])) (vlen (wal_log (rs0 ++ [r])))) (top_index (rs0 ++ [r])) (vlen (rs0 ++ [r])))).
    split_and!; [done|by apply Forall_app; split; [|constructor]|done..].
Qed.

Lemma top_index_none rs : (∀ e, WEntry e ∉ rs) → top_index rs = 0.
Proof.
  induction rs as [|r rs IH] using rev_ind; [done|]. intros Hn. rewrite top_index_snoc, IH.
  - destruct r; try done. destruct (Hn e). apply elem_of_app. right. by apply list_elem_of_singleton.
  - intros e He. apply (Hn e), elem_of_app. by left.
Qed.
Lemma truncate_holds w rs i : holds w rs → vlen (wal_log rs) < u64_max →
  ∃ w', Wal.truncate_through w i = Ok w' ∧ holds w' (filter (λ r, Wal.keeps i r = true) rs).
Proof.
  intros (Hf & Hfits & _) Hsz. unfold Wal.truncate_through. rewrite Hf. cbn [content]. rewrite replay_log by done. simpl.
  set (kept := filter _ rs). assert (Hk : Forall wal_fits kept).
  { apply Forall_forall. intros r [_ Hr]%list_elem_of_filter. rewrite Forall_forall in Hfits. auto. }
  assert (Hlen : vlen (wal_log kept) ≤ vlen (wal_log rs)).
  { unfold kept. clear. induction rs as [|r rs IH]; [done|]. rewrite filter_cons, log_bytes_cons, vlen_app.
    case_decide; [rewrite log_bytes_cons, vlen_app; lia|lia]. }
  assert (Hempty : holds (mkWal (mkFile [] 0) 0 0) []) by by split_and!.
  pose proof (write_records_holds _ _ kept Hempty Hk) as Hw. cbn [file app] in Hw. rewrite Hw. simpl.
  unfold Wal.scan_for_valid_end. rewrite (scan_all_log wal_frame Wal.read_frame to_json wal_fits);
    [|intros; by apply read_frame_whole|by apply read_frame_torn|done|done]. simpl.
  rewrite scan_counters by (done || unfold u64_max, u64_modulus in *; lia). eexists. split; [reflexivity|].
  by split_and!.
Qed.

(** Numbering restarts.  Truncating the log through its last entry, as is done once a
    snapshot covers it, makes the next entry number 1 again. *)
Theorem truncation_restarts_numbering w rs :
  written w rs → ∃ w', Wal.truncate_through w (last_entry_index w) = Ok w' ∧ Wal.next_entry_index w' = 1.
Proof.
  intros (Hh & Hn & Hsz)%written_holds. pose proof Hh as (Hf & _ & Hi & _). unfold fsize in Hsz. rewrite Hf in Hsz.
  destruct (truncate_holds w rs (last_entry_index w) Hh Hsz) as (w' & Hw' & Hh'). exists w'. split; [done|].
  unfold Wal.next_entry_index. destruct Hh' as (_ & _ & -> & _).
  rewrite top_index_none; [done|]. intros e [Hk Hin]%list_elem_of_filter. unfold Wal.keeps in Hk. apply N.ltb_lt in Hk.
  rewrite Hi, (numbered_top rs Hn) in Hk. assert (Hall : ∀ e, WEntry e ∈ rs → er_index e ≤ vlen (indices rs)).
  { intros e' He. assert (Hix : er_index e' ∈ indices rs).
    { apply list_elem_of_omap. by exists (WEntry e'). }
    apply list_elem_of_lookup in Hix as [k Hx]. pose proof (Hn _ _ Hx). apply lookup_lt_Some in Hx. unfold vlen. lia. }
  specialize (Hall e Hin). lia.
Qed.
End Frames.

(** ** A concrete serializer and checksum *)

Module BitsWal.

Abbreviation leaf := (N * bytes * bytes * option bytes * option Z * Z * Z)%type.
Fixpoint op_tree (op : WalOp) : gen_tree leaf :=
  match op with
  | WPut k v l => GenLeaf (0, k, v, None, l, 0%Z, 0%Z)
  | WDelete k r => GenLeaf (1, k, [], r, None, 0%Z, 0%Z)
  | WTxn ops => GenNode 0 (op_tree <$> ops)
  | WCompact r => GenLeaf (2, [], [], None, None, r, 0%Z)
  | WLeaseGrant i t => GenLeaf (3, [], [], None, None, i, t)
  | WLeaseRevoke i => GenLeaf (4, [], [], None, None, i, 0%Z)
  end.
Fixpoint tree_op (t : gen_tree leaf) : WalOp :=
  match t with
  | GenLeaf (k, a, b, r, l, x, y) =>
      if k =? 0 then WPut a b l else if k =? 1 then WDelete a r else if k =? 2 then WCompact x
      else if k =? 3 then WLeaseGrant x y else WLeaseRevoke x
  | GenNode _ ts => WTxn (tree_op <$> ts)
  end.
Fixpoint tree_op_tree (op : WalOp) : tree_op (op_tree op) = op.
Proof.
  destruct op as [k v l|k r|ops|r|i t|i]; [reflexivity|reflexivity| |reflexivity..].
  simpl. f_equal. induction ops as [|op ops IH]; [reflexivity|].
  rewrite !fmap_cons, tree_op_tree, IH. reflexivity.
Qed.

Definition record_code (r : WalRecord) : N * N * N * option N * option (gen_tree leaf) :=
  match r with
  | WMetadata c n => (0, c, n, None, None)
  | WEntry e => (1, er_index e, er_term e, None, Some (op_tree (er_op e)))
  | WState c t v => (2, c, t, v, None)
  | WSnapshot i t => (3, i, t, None, None)
  end.
Definition record_decode (x : N * N * N * option N * option (gen_tree leaf)) : option WalRecord :=
  let '(k, a, b, v, t) := x in
  match t with
  | Some t => Some (WEntry (mkEntryRecord a b (tree_op t)))
  | None => Some (if k =? 0 then WMetadata a b else if k =? 2 then WState a b v else WSnapshot a b)
  end.
#[export] Instance record_json : Json WalRecord :=
  {| to_json r := bits (encode (record_code r)); from_json d := decode (unbits d) ≫= record_decode |}.
#[export] Instance record_json_laws : JsonLaws WalRecord.
Proof.
  split. intros r. cbn [to_json from_json record_json]. rewrite unbits_bits, decode_encode. cbn [mbind option_bind].
  destruct r as [|[i t op]| |]; try done. cbn. by rewrite tree_op_tree.
Qed.
(** A checksum: the sum of the bytes. *)
#[export] Instance sum_crc : Crc32 := λ payload, foldr N.add 0 payload mod 4294967296.
#[export] Instance sum_crc_laws : Crc32Laws.
Proof. intros payload. by apply N.mod_lt. Qed.

Definition get {E A} (d : A) (r : result E A) : A := match r with Ok a => a | Err _ => d end.
Definition w0 : Wal := get (mkWal (mkFile [] 0) 0 0) (Wal.open []).
Definition w1 : Wal := get w0 (Wal.append w0 (WMetadata 7 1)).
Definition w2 : Wal := (get (w1, 0) (Wal.append_entry w1 1 (WPut (str "k") (str "v") None))).1.
Definition w3 : Wal := (get (w2, 0) (Wal.append_entry w2 1 (WTxn [WDelete (str "k") None; WCompact 1]))).1.
Definition records : list WalRecord :=
  [WMetadata 7 1; WEntry (mkEntryRecord 1 1 (WPut (str "k") (str "v") None));
   WEntry (mkEntryRecord 2 1 (WTxn [WDelete (str "k") None; WCompact 1]))].
Lemma w3_written : written w3 records.
Proof.
  assert (H1 : written w1 [WMetadata 7 1]).
  { apply (written_append w0 []); [by apply written_new; vm_compute|done|by vm_compute|by vm_compute]. }
  assert (H2 : written w2 [WMetadata 7 1; WEntry (mkEntryRecord 1 1 (WPut (str "k") (str "v") None))]).
  { apply (written_entry w1 [_]); [done|by vm_compute|by vm_compute]. }
  apply (written_entry w2 [_; _]); [done|by vm_compute|by vm_compute].
Qed.

End BitsWal.
Import BitsWal.

Lemma wal_consistent_witness :
  Wal.replay w3 = Ok records ∧ numbered records ∧ last_entry_index w3 = vlen (indices records) ∧ record_count w3 = vlen records.
Proof. apply (wal_consistent w3 records). exact w3_written. Defined.

(** The third record is torn: the store is rebuilt from the first two. *)
Lemma wal_recovers_store_witness :
  ∃ w' kept, Wal.open (take (length (log_bytes wal_frame (take 2 records)) + 5) (content (file w3))) = Ok w' ∧ written w' kept ∧
    take 2 records `prefix_of` kept ∧ kept `prefix_of` records ∧
    replay_into_store (λ _, 0%Z) w' = apply_records (λ _, 0%Z) kept.
Proof.
  apply (wal_recovers_store (λ _, 0%Z) w3 records _ (take 2 records)).
  - exact w3_written.
  - exists (drop 2 records). reflexivity.
  - vm_compute. discriminate.
Defined.
Lemma truncation_restarts_numbering_witness :
  ∃ w', Wal.truncate_through w3 (last_entry_index w3) = Ok w' ∧ Wal.next_entry_index w' = 1.
Proof. apply (truncation_restarts_numbering w3 records). exact w3_written. Defined.
