(* ===== verification/EtcdMutex.v ===== *)
(** * Distributed mutex, read/write lock and election of cave-etcd

    [crates/compute/cave-etcd/src/concurrency.rs]: [DistMutex], [DistRWMutex] and
    [DistElection].  Each keeps its waiters in a [BTreeMap] keyed by the revision a caller drew
    from an atomic counter.  [lock], [rlock], [wlock] and [campaign] draw the revision before
    they enter the lock of the queue: the part under the lock is a definition of its own
    ([lock_at], ...), so that other calls can run between the two.

    The mutex refines a first-in first-out queue of leases when calls do not overlap; a writer
    that holds the read/write lock holds it alone; the leader of an election is the longest
    waiting candidate.  Calls that overlap can break the first ([mutex_overlap]). *)

From S2P Require Import Prelude Bytes BTree.

Inductive ConcurrencyError : Set :=
| NotOwner
| WouldBlock
| LeaseNotFound (id : Z)
| NotLeader
| NoLeader.
#[export] Instance ConcurrencyError_eq_dec : EqDecision ConcurrencyError.
Proof. solve_decision. Defined.

(** ** DistMutex *)

Record MutexEntry : Set := mkMutexEntry { me_lease_id : Z; me_create_revision : u64 }.
Record DistMutex : Type := mkDistMutex {
  dm_prefix : bytes;
  dm_revision : u64;
  dm_queue : list (u64 * MutexEntry)
}.

(** [{:x}] of an [i64]: the digits of its two's complement *)
Fixpoint hex_digits (fuel : nat) (n : N) (acc : bytes) : bytes :=
  match fuel with
  | O => acc
  | S fuel => let acc := hex_digit (n mod 16) :: acc in if n / 16 =? 0 then acc else hex_digits fuel (n / 16) acc
  end.
Definition hex_i64 (z : Z) : bytes := hex_digits 16 (Z.to_N (z mod 18446744073709551616)) [].

Module DistMutex.
Definition new (prefix : bytes) : DistMutex := mkDistMutex prefix 0 [].
Definition set_queue (q : list (u64 * MutexEntry)) (m : DistMutex) : DistMutex :=
  mkDistMutex (dm_prefix m) (dm_revision m) q.
Definition next_rev (m : DistMutex) : u64 * DistMutex :=
  let rev := dm_revision m +w 1 in (rev, mkDistMutex (dm_prefix m) rev (dm_queue m)).

Definition of_lease (lease_id : Z) (e : MutexEntry) : bool := bool_decide (me_lease_id e = lease_id).

(** [lock] after its revision is drawn *)
Definition lock_at (rev : u64) (m : DistMutex) (lease_id : Z) : result ConcurrencyError u64 * DistMutex :=
  match BTreeMap.find (of_lease lease_id) (dm_queue m) with
  | Some (existing_rev, _) => (Ok existing_rev, m)
  | None =>
      let q := BTreeMap.insert rev (mkMutexEntry lease_id rev) (dm_queue m) in
      let head := fst <$> BTreeMap.first q in
      (if decide (head = Some rev) then Ok rev else Err WouldBlock, set_queue q m)
  end.
Definition lock (m : DistMutex) (lease_id : Z) : result ConcurrencyError u64 * DistMutex :=
  let '(rev, m) := next_rev m in lock_at rev m lease_id.

Definition try_lock (m : DistMutex) (lease_id : Z) : result ConcurrencyError u64 * DistMutex :=
  match dm_queue m with
  | _ :: _ => (Err WouldBlock, m)
  | [] =>
      let '(rev, m) := next_rev m in
      (Ok rev, set_queue (BTreeMap.insert rev (mkMutexEntry lease_id rev) (dm_queue m)) m)
  end.

Definition unlock (m : DistMutex) (lease_id : Z) : result ConcurrencyError unit * DistMutex :=
  match BTreeMap.find (of_lease lease_id) (dm_queue m) with
  | None => (Err NotOwner, m)
  | Some (rev, _) => (Ok tt, set_queue (BTreeMap.remove rev (dm_queue m)) m)
  end.

Definition expire_lease (m : DistMutex) (lease_id : Z) : DistMutex :=
  set_queue (BTreeMap.remove_where (of_lease lease_id) (dm_queue m)) m.

Definition is_owner (m : DistMutex) (lease_id : Z) : bool :=
  bool_decide ((λ e, me_lease_id e.2) <$> BTreeMap.first (dm_queue m) = Some lease_id).
Definition queue_len (m : DistMutex) : usize := vlen (dm_queue m).
Definition snapshot (m : DistMutex) : list MutexEntry := snd <$> dm_queue m.
Definition key (m : DistMutex) : option bytes :=
  (λ e, dm_prefix m ++ str "/" ++ hex_i64 (me_lease_id e.2)) <$> BTreeMap.first (dm_queue m).
End DistMutex.

(** ** DistRWMutex *)

Record DistRWMutex : Type := mkDistRWMutex {
  rw_prefix : bytes;
  rw_readers : list (u64 * Z);
  rw_writers : list (u64 * Z);
  rw_rev : u64
}.

Module DistRWMutex.
Definition new (prefix : bytes) : DistRWMutex := mkDistRWMutex prefix [] [] 0.
Definition set_readers (q : list (u64 * Z)) (m : DistRWMutex) : DistRWMutex :=
  mkDistRWMutex (rw_prefix m) q (rw_writers m) (rw_rev m).
Definition set_writers (q : list (u64 * Z)) (m : DistRWMutex) : DistRWMutex :=
  mkDistRWMutex (rw_prefix m) (rw_readers m) q (rw_rev m).
Definition next_rev (m : DistRWMutex) : u64 * DistRWMutex :=
  let rev := rw_rev m +w 1 in (rev, mkDistRWMutex (rw_prefix m) (rw_readers m) (rw_writers m) rev).

(** [rlock] after its revision is drawn *)
Definition rlock_at (rev : u64) (m : DistRWMutex) (lease_id : Z) : result ConcurrencyError u64 * DistRWMutex :=
  let m' := set_readers (BTreeMap.insert rev lease_id (rw_readers m)) m in
  match BTreeMap.first (rw_writers m) with
  | Some (w_rev, _) => if w_rev <? rev then (Err WouldBlock, m') else (Ok rev, m')
  | None => (Ok rev, m')
  end.
Definition rlock (m : DistRWMutex) (lease_id : Z) : result ConcurrencyError u64 * DistRWMutex :=
  let '(rev, m) := next_rev m in rlock_at rev m lease_id.

(** [wlock] after its revision is drawn *)
Definition wlock_at (rev : u64) (m : DistRWMutex) (lease_id : Z) : result ConcurrencyError u64 * DistRWMutex :=
  let blocked := negb (bool_decide (rw_readers m = [])) || existsb (λ e, e.1 <? rev) (rw_writers m) in
  (if blocked then Err WouldBlock else Ok rev,
   set_writers (BTreeMap.insert rev lease_id (rw_writers m)) m).
Definition wlock (m : DistRWMutex) (lease_id : Z) : result ConcurrencyError u64 * DistRWMutex :=
  let '(rev, m) := next_rev m in wlock_at rev m lease_id.

Definition is_lease (lease_id : Z) (l : Z) : bool := bool_decide (l = lease_id).
Definition runlock (m : DistRWMutex) (lease_id : Z) : result ConcurrencyError unit * DistRWMutex :=
  match BTreeMap.find (is_lease lease_id) (rw_readers m) with
  | None => (Err NotOwner, m)
  | Some (rev, _) => (Ok tt, set_readers (BTreeMap.remove rev (rw_readers m)) m)
  end.
Definition wunlock (m : DistRWMutex) (lease_id : Z) : result ConcurrencyError unit * DistRWMutex :=
  match BTreeMap.find (is_lease lease_id) (rw_writers m) with
  | None => (Err NotOwner, m)
  | Some (rev, _) => (Ok tt, set_writers (BTreeMap.remove rev (rw_writers m)) m)
  end.

Definition reader_count (m : DistRWMutex) : usize := vlen (rw_readers m).
Definition writer_count (m : DistRWMutex) : usize := vlen (rw_writers m).
Definition has_writer (m : DistRWMutex) : bool := 0 <? writer_count m.

Definition expire_lease (m : DistRWMutex) (lease_id : Z) : DistRWMutex :=
  let m := set_readers (BTreeMap.remove_where (is_lease lease_id) (rw_readers m)) m in
  set_writers (BTreeMap.remove_where (is_lease lease_id) (rw_writers m)) m.
End DistRWMutex.

(** ** DistElection *)

Record ElectionCandidate : Type := mkElectionCandidate { ec_lease_id : Z; ec_value : bytes; ec_create_revision : u64 }.
Record DistElection : Type := mkDistElection { el_prefix : bytes; el_rev : u64; el_queue : list (u64 * ElectionCandidate) }.

Module DistElection.
Definition new (prefix : bytes) : DistElection := mkDistElection prefix 0 [].
Definition set_queue (q : list (u64 * ElectionCandidate)) (m : DistElection) : DistElection :=
  mkDistElection (el_prefix m) (el_rev m) q.
Definition next_rev (m : DistElection) : u64 * DistElection :=
  let rev := el_rev m +w 1 in (rev, mkDistElection (el_prefix m) rev (el_queue m)).

(** [campaign] after its revision is drawn *)
Definition campaign_at (rev : u64) (m : DistElection) (lease_id : Z) (value : bytes) : (u64 * bool) * DistElection :=
  let was_empty := bool_decide (el_queue m = []) in
  ((rev, was_empty), set_queue (BTreeMap.insert rev (mkElectionCandidate lease_id value rev) (el_queue m)) m).
Definition campaign (m : DistElection) (lease_id : Z) (value : bytes) : (u64 * bool) * DistElection :=
  let '(rev, m) := next_rev m in campaign_at rev m lease_id value.

(** The first entry is the leader's; [get_mut] changes the value in place. *)
Definition proclaim (m : DistElection) (lease_id : Z) (value : bytes) : result ConcurrencyError unit * DistElection :=
  match el_queue m with
  | [] => (Err NoLeader, m)
  | (rev, entry) :: q =>
      if decide (ec_lease_id entry = lease_id) then
        (Ok tt, set_queue ((rev, mkElectionCandidate (ec_lease_id entry) value (ec_create_revision entry)) :: q) m)
      else (Err NotLeader, m)
  end.

Definition resign (m : DistElection) (lease_id : Z) : result ConcurrencyError (option Z) * DistElection :=
  match BTreeMap.first (el_queue m) with
  | None => (Err NoLeader, m)
  | Some (leader_rev, _) =>
      if decide (ec_lease_id <$> BTreeMap.get leader_rev (el_queue m) = Some lease_id) then
        let q := BTreeMap.remove leader_rev (el_queue m) in
        (Ok ((λ e, ec_lease_id e.2) <$> BTreeMap.first q), set_queue q m)
      else (Err NotLeader, m)
  end.

Definition leader (m : DistElection) : option ElectionCandidate := snd <$> BTreeMap.first (el_queue m).
Definition is_leader (m : DistElection) (lease_id : Z) : bool :=
  bool_decide (ec_lease_id <$> leader m = Some lease_id).

Definition of_lease (lease_id : Z) (c : ElectionCandidate) : bool := bool_decide (ec_lease_id c = lease_id).
Definition expire_lease (m : DistElection) (lease_id : Z) : option Z * DistElection :=
  let prev_leader_lease := ec_lease_id <$> leader m in
  let m := set_queue (BTreeMap.remove_where (of_lease lease_id) (el_queue m)) m in
  let new_leader_lease := ec_lease_id <$> leader m in
  (if decide (new_leader_lease ≠ prev_leader_lease) then new_leader_lease else None, m).

Definition observe (m : DistElection) : list ElectionCandidate := snd <$> el_queue m.
Definition queue_len (m : DistElection) : usize := vlen (el_queue m).
End DistElection.

(** ** The mutex is a first-in first-out queue of leases *)

Inductive MutexCall : Set := CLock (l : Z) | CTryLock (l : Z) | CUnlock (l : Z) | CExpire (l : Z).

Definition forget {A} (r : result ConcurrencyError A) : result ConcurrencyError unit :=
  match r with Ok _ => Ok tt | Err e => Err e end.
Definition mutex_step (m : DistMutex) (c : MutexCall) : result ConcurrencyError unit * DistMutex :=
  match c with
  | CLock l => let '(r, m) := DistMutex.lock m l in (forget r, m)
  | CTryLock l => let '(r, m) := DistMutex.try_lock m l in (forget r, m)
  | CUnlock l => DistMutex.unlock m l
  | CExpire l => (Ok tt, DistMutex.expire_lease m l)
  end.

(** The promise: a lease waits at most once, the first waiting lease owns the lock. *)
Definition fifo_step (q : list Z) (c : MutexCall) : result ConcurrencyError unit * list Z :=
  match c with
  | CLock l =>
      if decide (l ∈ q) then (Ok tt, q)
      else (if decide (q = []) then Ok tt else Err WouldBlock, q ++ [l])
  | CTryLock l => if decide (q = []) then (Ok tt, [l]) else (Err WouldBlock, q)
  | CUnlock l => if decide (l ∈ q) then (Ok tt, filter (.≠ l) q) else (Err NotOwner, q)
  | CExpire l => (Ok tt, filter (.≠ l) q)
  end.

Definition entry_lease (e : u64 * MutexEntry) : Z := me_lease_id e.2.

(** The queue of leases of a mutex, with room for [n] more revisions. *)
Record mutex_queue (n : nat) (m : DistMutex) (q : list Z) : Prop := {
  mq_ordered : ordered (dm_queue m);
  mq_leases : entry_lease <$> dm_queue m = q;
  mq_nodup : NoDup q;
  mq_below : below (dm_queue m) (dm_revision m + 1);
  mq_room : dm_revision m + N.of_nat n < u64_modulus
}.

Lemma find_lease m l n q : mutex_queue n m q →
  match BTreeMap.find (DistMutex.of_lease l) (dm_queue m) with
  | Some (rev, e) => l ∈ q ∧ entry_lease <$> BTreeMap.remove rev (dm_queue m) = filter (.≠ l) q
  | None => l ∉ q
  end.
Proof.
  intros [Ho <- Hnd _ _]. destruct (BTreeMap.find _ _) as [[rev e]|] eqn:Hf.
  - apply find_split in Hf as (q1 & q2 & Hq & _ & He). rewrite Hq in *. unfold DistMutex.of_lease in He. case_bool_decide; [|done].
    rewrite remove_mid by done. rewrite fmap_app, fmap_cons in *. split; [set_solver|]. rewrite fmap_app, filter_app, filter_cons_False by (unfold entry_lease; simpl; tauto).
    apply NoDup_app in Hnd as (_ & Hd & [Hn _]%NoDup_cons). f_equal; symmetry; apply filter_all, Forall_forall; intros x Hx ->; unfold entry_lease in *; simpl in *; set_solver.
  - apply find_none in Hf. intros ([k e] & -> & He)%list_elem_of_fmap. eapply Forall_forall in Hf; [|exact He].
    unfold DistMutex.of_lease, entry_lease in Hf. simpl in Hf. by case_bool_decide.
Qed.

Lemma mutex_queue_weaken n m q : mutex_queue (S n) m q → mutex_queue n m q.
Proof. intros []. split; try done. lia. Qed.

Lemma draw_revision r (n : nat) : r + N.of_nat (S n) < u64_modulus → r +w 1 = r + 1.
Proof. intros H. apply u64_add_small. lia. Qed.

(** A new entry goes to the end of the queue. *)
Lemma mutex_queue_push n m q l : mutex_queue (S n) m q → l ∉ q →
  let rev := dm_revision m + 1 in
  BTreeMap.insert rev (mkMutexEntry l rev) (dm_queue m) = dm_queue m ++ [(rev, mkMutexEntry l rev)] ∧
  mutex_queue n (mkDistMutex (dm_prefix m) rev (dm_queue m ++ [(rev, mkMutexEntry l rev)])) (q ++ [l]).
Proof.
  intros [Ho Hl Hnd Hb Hr] Hn. simpl. pose proof (insert_above (dm_revision m + 1) (mkMutexEntry l (dm_revision m + 1)) _ Hb) as Hi.
  split; [done|]. split; simpl.
  - rewrite <- Hi. by apply ordered_insert.
  - by rewrite fmap_app, Hl.
  - apply NoDup_app. split_and!; [done|set_solver|by apply NoDup_singleton].
  - apply below_snoc; [done|]. simpl. apply N.ltb_lt. lia.
  - lia.
Qed.

Lemma nil_queue n m q : mutex_queue n m q → dm_queue m = [] ↔ q = [].
Proof. intros [_ <- _ _ _]. destruct (dm_queue m); [done|split; discriminate]. Qed.

Lemma mutex_step_fifo n m q c : mutex_queue (S n) m q →
  (mutex_step m c).1 = (fifo_step q c).1 ∧ mutex_queue n (mutex_step m c).2 (fifo_step q c).2.
Proof.
  intros Hq. destruct c as [l|l|l|l]; simpl.
  - unfold DistMutex.lock, DistMutex.next_rev. rewrite (draw_revision _ n) by apply Hq. unfold DistMutex.lock_at. simpl.
    pose proof (find_lease m l _ q Hq) as Hf. destruct (BTreeMap.find _ _) as [[rev e]|].
    + rewrite decide_True by apply Hf. split; [done|]. destruct Hq. split; try done; simpl; [|lia].
      eapply below_weaken; [done|]. simpl. apply N.ltb_lt. lia.
    + rewrite (decide_False (P := l ∈ q)) by done. destruct (mutex_queue_push n m q l Hq Hf) as [-> Hq']. split; [|done]. simpl.
      destruct (decide (q = [])) as [Hnil|Hnil]; rewrite <- (nil_queue _ _ _ Hq) in Hnil; unfold BTreeMap.first.
      * rewrite Hnil. simpl. by rewrite decide_True.
      * destruct Hq as [_ _ _ Hb _]. destruct (dm_queue m) as [|[k e] q']; [done|]. simpl. inversion Hb as [|? ? Hk]; subst.
        rewrite decide_False; [done|]. intros [= ->]. by apply key_lt_ne in Hk.
  - unfold DistMutex.try_lock. destruct (decide (q = [])) as [Hnil|Hnil]; rewrite <- (nil_queue _ _ _ Hq) in Hnil.
    + rewrite Hnil. simpl. rewrite Hnil. rewrite (draw_revision _ n) by apply Hq. simpl. split; [done|].
      assert (q = []) as -> by (by apply (nil_queue _ _ _ Hq)).
      destruct (mutex_queue_push n m [] l Hq ltac:(set_solver)) as [_ Hq']. by rewrite Hnil in Hq'.
    + destruct (dm_queue m) eqn:E; [done|]. split; [done|]. by apply mutex_queue_weaken.
  - unfold DistMutex.unlock. pose proof (find_lease m l _ q Hq) as Hf. destruct (BTreeMap.find _ _) as [[rev e]|].
    + destruct Hf as [Hin Hr]. rewrite decide_True by done. split; [done|]. destruct Hq. split; simpl; [by apply ordered_remove|done|by apply NoDup_filter|by apply below_filter|lia].
    + rewrite decide_False by done. split; [done|]. by apply mutex_queue_weaken.
  - split; [done|]. unfold DistMutex.expire_lease. destruct Hq as [Ho <- Hnd Hb Hr]. rewrite remove_where_filter by done.
    split; simpl; [by apply ordered_filter| |by apply NoDup_filter|by apply below_filter|lia].
    clear. induction (dm_queue m) as [|e q IH]; [done|]. rewrite fmap_cons, !filter_cons. unfold DistMutex.of_lease, entry_lease in *. simpl.
    repeat case_decide; case_bool_decide; simplify_eq/=; try done. by f_equal.
Qed.


(** A waiting lease that asks again is told it has the lock. *)
Lemma waiter_relock_granted :
  let m := (run_calls mutex_step (DistMutex.new []) [CLock 7; CLock 9]).2 in
  (DistMutex.lock m 9).1 = Ok 2 ∧ DistMutex.is_owner m 9 = false.
Proof. split; vm_compute; reflexivity. Qed.

(** Two overlapping calls: the first draws its revision, the second runs as a whole, the first
    goes on.  Both are told they have the lock. *)
Lemma mutex_overlap :
  let '(rev, m) := DistMutex.next_rev (DistMutex.new []) in
  let '(r2, m) := DistMutex.lock m 2 in
  let '(r1, m) := DistMutex.lock_at rev m 1 in
  (r1, r2) = (Ok 1, Ok 2) ∧ DistMutex.is_owner m 1 = true.
Proof. split; vm_compute; reflexivity. Qed.

(** ** A writer holds the read/write lock alone *)

Inductive RwCall : Set := RLock (l : Z) | WLock (l : Z) | RUnlock (l : Z) | WUnlock (l : Z) | RwExpire (l : Z).

(** The lock and the revisions granted to readers and to writers that are still queued. *)
Record RwHeld : Type := mkRwHeld { held_lock : DistRWMutex; held_readers : list u64; held_writers : list u64 }.

Definition granted (r : result ConcurrencyError u64) : list u64 := match r with Ok rev => [rev] | Err _ => [] end.
Definition still (q : list (u64 * Z)) (revs : list u64) : list u64 := filter (.∈ q.*1) revs.
Definition rw_step (s : RwHeld) (c : RwCall) : unit * RwHeld :=
  let '(gr, gw, m) :=
    match c with
    | RLock l => let '(r, m) := DistRWMutex.rlock (held_lock s) l in (granted r, [], m)
    | WLock l => let '(r, m) := DistRWMutex.wlock (held_lock s) l in ([], granted r, m)
    | RUnlock l => ([], [], (DistRWMutex.runlock (held_lock s) l).2)
    | WUnlock l => ([], [], (DistRWMutex.wunlock (held_lock s) l).2)
    | RwExpire l => ([], [], DistRWMutex.expire_lease (held_lock s) l)
    end in
  (tt, mkRwHeld m (still (rw_readers m) (gr ++ held_readers s)) (still (rw_writers m) (gw ++ held_writers s))).

Record rw_excl (n : nat) (s : RwHeld) : Prop := {
  re_readers : below (rw_readers (held_lock s)) (rw_rev (held_lock s) + 1);
  re_writers : below (rw_writers (held_lock s)) (rw_rev (held_lock s) + 1);
  re_room : rw_rev (held_lock s) + N.of_nat n < u64_modulus;
  re_in_readers : held_readers s ⊆ (rw_readers (held_lock s)).*1;
  re_in_writers : held_writers s ⊆ (rw_writers (held_lock s)).*1;
  re_alone : held_writers s = [] ∨ (length (held_writers s) = 1%nat ∧ held_readers s = [])
}.

Lemma still_subset q revs : still q revs ⊆ q.*1.
Proof. intros r [Hr _]%list_elem_of_filter. done. Qed.
Lemma still_all q revs : revs ⊆ q.*1 → still q revs = revs.
Proof. intros H. apply filter_all, Forall_forall. intros r Hr. by apply H. Qed.
Lemma still_nil q : still q [] = [].
Proof. done. Qed.
Lemma still_alone (qr qw : list (u64 * Z)) r w :
  w = [] ∨ (length w = 1%nat ∧ r = []) → still qw w = [] ∨ (length (still qw w) = 1%nat ∧ still qr r = []).
Proof.
  intros [->|[Hw ->]]; [by left|]. destruct w as [|x [|? ?]]; try done. unfold still. rewrite filter_cons. case_decide; [by right|by left].
Qed.

(** Releases only take entries away. *)
Lemma rw_excl_shrink n s m : rw_excl (S n) s → rw_rev m = rw_rev (held_lock s) →
  below (rw_readers m) (rw_rev m + 1) → below (rw_writers m) (rw_rev m + 1) →
  rw_excl n (mkRwHeld m (still (rw_readers m) (held_readers s)) (still (rw_writers m) (held_writers s))).
Proof.
  intros [_ _ Hroom _ _ Ha] Hrev Hr Hw. split; simpl; [done|done|lia|apply still_subset|apply still_subset|by apply still_alone].
Qed.
Lemma keys_insert (q : list (u64 * Z)) k v : below q k → (BTreeMap.insert k v q).*1 = q.*1 ++ [k].
Proof. intros Hb. by rewrite insert_above, fmap_app. Qed.
Lemma rev_lt (r : u64) : key_lt r (r + 1) = true.
Proof. apply N.ltb_lt. lia. Qed.

Lemma rlock_excl n s l : rw_excl (S n) s → rw_excl n (rw_step s (RLock l)).2.
Proof.
  destruct s as [m r w]. intros [Hr Hw Hroom Hir Hiw Ha]. simpl in *. unfold rw_step, DistRWMutex.rlock, DistRWMutex.next_rev. simpl.
  rewrite (draw_revision _ n) by done. unfold DistRWMutex.rlock_at. simpl.
  set (rev := rw_rev m + 1) in *. set (m' := DistRWMutex.set_readers _ _).
  assert (Hres : ∀ g, (g = [] ∨ g = [rev] ∧ w = []) → rw_excl n (mkRwHeld m' (still (rw_readers m') (g ++ r)) (still (rw_writers m') w))).
  { intros g Hg. split; simpl; [rewrite insert_above by done; apply below_snoc; [done|apply rev_lt]|eapply below_weaken; [done|apply rev_lt]|lia|apply still_subset|apply still_subset|].
    destruct Hg as [->|[-> ->]]; [by apply still_alone|by left]. }
  destruct (rw_writers m) as [|[w_rev wl] q] eqn:Eq; simpl.
  - apply (Hres [rev]). right. split; [done|]. destruct w as [|x w]; [done|]. exfalso. specialize (Hiw x). simpl in Hiw. set_solver.
  - inversion Hw as [|? ? Hlt]; subst. simpl in Hlt. rewrite Hlt. apply (Hres []). by left.
Qed.

Lemma wlock_excl n s l : rw_excl (S n) s → rw_excl n (rw_step s (WLock l)).2.
Proof.
  destruct s as [m r w]. intros [Hr Hw Hroom Hir Hiw Ha]. simpl in *. unfold rw_step, DistRWMutex.wlock, DistRWMutex.next_rev. simpl.
  rewrite (draw_revision _ n) by done. unfold DistRWMutex.wlock_at. simpl. set (rev := rw_rev m + 1) in *.
  assert (Hres : ∀ g, (g = [] ∨ g = [rev] ∧ w = [] ∧ r = []) → rw_excl n (mkRwHeld
    (DistRWMutex.set_writers (BTreeMap.insert rev l (rw_writers m)) (mkDistRWMutex (rw_prefix m) (rw_readers m) (rw_writers m) rev))
    (still (rw_readers m) r) (still (BTreeMap.insert rev l (rw_writers m)) (g ++ w)))).
  { intros g Hg. split; simpl; [eapply below_weaken; [done|apply rev_lt]|rewrite insert_above by done; apply below_snoc; [done|apply rev_lt]|lia|apply still_subset|apply still_subset|].
    destruct Hg as [->|(-> & -> & ->)]; [by apply still_alone|]. right. unfold still. rewrite app_nil_r, keys_insert by done.
    rewrite filter_cons_True; [done|set_solver]. }
  destruct (negb _ || _) eqn:Hb; [apply (Hres []); by left|]. apply (Hres [rev]). right. split; [done|].
  apply orb_false_iff in Hb as [Hnr Hnw]. apply negb_false_iff, bool_decide_eq_true in Hnr. rewrite Hnr in Hir.
  split; [|destruct r as [|x r]; [done|]; specialize (Hir x); set_solver].
  destruct (rw_writers m) as [|[k v] q]; [|inversion Hw as [|? ? Hlt]; subst; simpl in *; by rewrite Hlt in Hnw].
  destruct w as [|x w]; [done|]. specialize (Hiw x). set_solver.
Qed.

Lemma rw_step_excl n s c : rw_excl (S n) s → rw_excl n (rw_step s c).2.
Proof.
  destruct c as [l|l|l|l|l]; intros Hs; [by apply rlock_excl|by apply wlock_excl| | |]; simpl; destruct (Hs) as [Hr Hw _ _ _ _].
  - apply rw_excl_shrink; try done; unfold DistRWMutex.runlock; destruct (BTreeMap.find _ _) as [[]|]; simpl; try done. by apply below_filter.
  - apply rw_excl_shrink; try done; unfold DistRWMutex.wunlock; destruct (BTreeMap.find _ _) as [[]|]; simpl; try done. by apply below_filter.
  - unfold DistRWMutex.expire_lease, BTreeMap.remove_where. rewrite !remove_list.
    apply rw_excl_shrink; try done; simpl; by apply below_filter.
Qed.

(** Writers exclude everybody.  Whatever the calls, made one after the other, while a
    writer that was granted the lock has not given it up, no other writer and no reader holds
    a grant. *)
Theorem rw_exclusive prefix (calls : list RwCall) :
  vlen calls < u64_modulus →
  let s := (run_calls rw_step (mkRwHeld (DistRWMutex.new prefix) [] []) calls).2 in
  held_writers s = [] ∨ (length (held_writers s) = 1%nat ∧ held_readers s = []).
Proof.
  intros Hlen s. apply (re_alone 0). apply (run_calls_inv rw_step rw_excl); [intros; by apply rw_step_excl|].
  unfold vlen in Hlen. split; simpl; try done; [constructor|constructor|lia|by left].
Qed.
Lemma rw_exclusive_witness :
  let s := (run_calls rw_step (mkRwHeld (DistRWMutex.new []) [] []) [RLock 1; RLock 2; WLock 3; RUnlock 1; RUnlock 2; WUnlock 3; WLock 4; RLock 5]).2 in
  held_writers s = [4] ∧ held_readers s = [].
Proof.
  intros s. assert (Hw : held_writers s = [4]) by (vm_compute; reflexivity). split; [exact Hw|].
  destruct (rw_exclusive [] [RLock 1; RLock 2; WLock 3; RUnlock 1; RUnlock 2; WUnlock 3; WLock 4; RLock 5] ltac:(by vm_compute)) as [H|[_ H]];
    [|exact H]. fold s in H. rewrite Hw in H. discriminate H.
Defined.

(** A blocked writer stays queued and a retry queues it again, behind itself: it is not
    granted the lock even when every other caller has released it. *)
Lemma writer_retry_blocked :
  let m := DistRWMutex.new [] in
  let m := (DistRWMutex.wlock m 1).2 in
  let m := (DistRWMutex.wlock m 2).2 in
  let m := (DistRWMutex.wunlock m 1).2 in
  (DistRWMutex.wlock m 2).1 = Err WouldBlock.
Proof. vm_compute. reflexivity. Qed.

(** ** The leader is the candidate that waits longest *)

Inductive ElectionCall : Type :=
| Campaign (l : Z) (v : bytes)
| Proclaim (l : Z) (v : bytes)
| Resign (l : Z)
| ElectionExpire (l : Z).
Inductive ElectionAnswer : Type :=
| Became (leader : bool)
| Proclaimed (r : result ConcurrencyError unit)
| Resigned (r : result ConcurrencyError (option Z))
| NewLeader (l : option Z).

Definition election_step (m : DistElection) (c : ElectionCall) : ElectionAnswer * DistElection :=
  match c with
  | Campaign l v => let '((_, b), m) := DistElection.campaign m l v in (Became b, m)
  | Proclaim l v => let '(r, m) := DistElection.proclaim m l v in (Proclaimed r, m)
  | Resign l => let '(r, m) := DistElection.resign m l in (Resigned r, m)
  | ElectionExpire l => let '(o, m) := DistElection.expire_lease m l in (NewLeader o, m)
  end.

(** The promise, on the list of candidates with the values they published. *)
Definition first_lease (q : list (Z * bytes)) : option Z := fst <$> head q.
Definition contest_step (q : list (Z * bytes)) (c : ElectionCall) : ElectionAnswer * list (Z * bytes) :=
  match c, q with
  | Campaign l v, _ => (Became (bool_decide (q = [])), q ++ [(l, v)])
  | Proclaim l v, [] => (Proclaimed (Err NoLeader), q)
  | Proclaim l v, (l', v') :: q' => if decide (l' = l) then (Proclaimed (Ok tt), (l', v) :: q') else (Proclaimed (Err NotLeader), q)
  | Resign l, [] => (Resigned (Err NoLeader), q)
  | Resign l, (l', v') :: q' => if decide (l' = l) then (Resigned (Ok (first_lease q')), q') else (Resigned (Err NotLeader), q)
  | ElectionExpire l, _ =>
      let q' := filter (λ c, c.1 ≠ l) q in
      (NewLeader (if decide (first_lease q' ≠ first_lease q) then first_lease q' else None), q')
  end.

Definition candidate (e : u64 * ElectionCandidate) : Z * bytes := (ec_lease_id e.2, ec_value e.2).
Record election_queue (n : nat) (m : DistElection) (q : list (Z * bytes)) : Prop := {
  eq_ordered : ordered (el_queue m);
  eq_candidates : candidate <$> el_queue m = q;
  eq_below : below (el_queue m) (el_rev m + 1);
  eq_room : el_rev m + N.of_nat n < u64_modulus
}.

Lemma leader_first m q n : election_queue n m q → ec_lease_id <$> DistElection.leader m = first_lease q.
Proof. intros [_ <- _ _]. unfold DistElection.leader, BTreeMap.first. by destruct (el_queue m). Qed.

Lemma expire_queue n m q l : election_queue (S n) m q →
  election_queue n (DistElection.expire_lease m l).2 (filter (λ c, c.1 ≠ l) q).
Proof.
  intros [Ho <- Hb Hr]. simpl. rewrite remove_where_filter by done. split; simpl; [by apply ordered_filter| |by apply below_filter|lia].
  clear. induction (el_queue m) as [|e q IH]; [done|]. rewrite fmap_cons, !filter_cons. unfold DistElection.of_lease, candidate in *. simpl.
  repeat case_decide; case_bool_decide; simplify_eq/=; try done. by f_equal.
Qed.

Lemma election_step_queue n m q c : election_queue (S n) m q →
  (election_step m c).1 = (contest_step q c).1 ∧ election_queue n (election_step m c).2 (contest_step q c).2.
Proof.
  intros Hq. destruct c as [l v|l v|l|l].
  - destruct Hq as [Ho <- Hb Hr]. simpl. rewrite (draw_revision _ n) by done. unfold DistElection.set_queue. simpl.
    split; [f_equal; apply bool_decide_ext; by destruct (el_queue m)|]. rewrite insert_above by done.
    split; simpl; [rewrite <- insert_above by done; by apply ordered_insert|by rewrite fmap_app|apply below_snoc; [done|apply rev_lt]|lia].
  - destruct Hq as [Ho <- Hb Hr]. simpl. unfold DistElection.proclaim. destruct (el_queue m) as [|[rev e] q] eqn:Eq; simpl.
    + split; [done|]. split; rewrite ?Eq; try done. lia.
    + case_decide; simpl; (split; [done|]); split; simpl; rewrite ?Eq; try done; try lia.
      * inversion Ho; subst. by constructor.
      * inversion Hb; subst. by constructor.
  - destruct Hq as [Ho <- Hb Hr]. simpl. unfold DistElection.resign. destruct (el_queue m) as [|[rev e] q] eqn:Eq; simpl.
    + split; [done|]. split; rewrite ?Eq; try done. lia.
    + rewrite (decide_True (P := rev = rev)) by done. simpl. rewrite (decide_ext _ (ec_lease_id e = l)) by (split; congruence).
      case_decide; simpl; [rewrite remove_first by done|].
      * split; [by destruct q|]. inversion Ho; inversion Hb; subst. split; simpl; try done. lia.
      * split; [done|]. split; rewrite ?Eq; try done. lia.
  - pose proof (expire_queue n m q l Hq) as He. pose proof (leader_first _ _ _ Hq) as Hl. pose proof (leader_first _ _ _ He) as Hl'.
    simpl in *. split; [|done]. by rewrite Hl, Hl'.
Qed.

(** The longest waiting candidate leads.  The answers of campaigns, proclamations,
    resignations and expiries, made one after the other, are those of a queue of candidates
    in order of arrival; its head is the leader, with the value it last proclaimed. *)
Theorem election_refines_queue prefix (calls : list ElectionCall) :
  vlen calls < u64_modulus →
  let '(answers, m) := run_calls election_step (DistElection.new prefix) calls in
  let '(promised, q) := run_calls contest_step [] calls in
  answers = promised ∧
  (λ c, (ec_lease_id c, ec_value c)) <$> DistElection.leader m = head q ∧
  (λ c, (ec_lease_id c, ec_value c)) <$> DistElection.observe m = q.
Proof.
  intros Hlen. destruct (run_calls_refines election_step contest_step election_queue calls 0 (DistElection.new prefix) []) as [Ha Hq].
  - intros. by apply election_step_queue.
  - split; simpl; [constructor|done|constructor|]. unfold vlen in Hlen. lia.
  - destruct (run_calls election_step _ _) as [answers m], (run_calls contest_step _ _) as [promised q]. simpl in *.
    destruct Hq as [_ <- _ _]. split_and!; [done| |].
    + unfold DistElection.leader, BTreeMap.first. by destruct (el_queue m).
    + unfold DistElection.observe. by rewrite <- list_fmap_compose.
Qed.
Lemma election_refines_queue_witness :
  let '(answers, m) := run_calls election_step (DistElection.new []) [Campaign 1 [10]; Campaign 2 [20]; Proclaim 1 [11]; Resign 1] in
  answers = [Became true; Became false; Proclaimed (Ok tt); Resigned (Ok (Some 2%Z))] ∧
  (λ c, (ec_lease_id c, ec_value c)) <$> DistElection.leader m = Some (2%Z, [20]).
Proof.
  pose proof (election_refines_queue [] [Campaign 1 [10]; Campaign 2 [20]; Proclaim 1 [11]; Resign 1] ltac:(by vm_compute)) as H.
  destruct (run_calls election_step _ _) as [answers m] eqn:E. destruct (run_calls contest_step _ _) as [promised q] eqn:E'.
  vm_compute in E'. injection E' as <- <-. destruct H as (Ha & Hl & _). split; [exact Ha|exact Hl].
Defined.

(** Two overlapping campaigns: the candidate told it is not the leader leads, and the one told
    it leads does not. *)
Lemma election_overlap :
  let '(rev, m) := DistElection.next_rev (DistElection.new []) in
  let '((_, b2), m) := DistElection.campaign m 2 [] in
  let '((_, b1), m) := DistElection.campaign_at rev m 1 [] in
  (b1, b2) = (false, true) ∧ DistElection.is_leader m 1 = true.
Proof. split; vm_compute; reflexivity. Qed.
