(* ===== verification/EtcdLockManager.v ===== *)
(** * Lock manager of cave-etcd

    [crates/compute/cave-etcd/src/lock_manager.rs]: mutexes that keep the header of their
    holder, the acquisition of several locks at once, the registry of named locks, and the
    election with epochs and observers.  The locks of a [HashMap] are shared references with a
    lock inside: a call on one of them is a change of the map.  [Instant::now()] is an argument
    of the calls that read it (one instant for all the locks of [acquire_all]).

    The holder's header is the head of the queue; the locks [acquire_all] returns are held by
    the caller; epochs increase with every change of leader and the observers see the last of
    them in order. *)

From S2P Require Import Prelude Bytes BTree EtcdMutex.

Inductive LockManagerError : Type :=
| LDeadlineExceeded
| LDuplicateKey (k : bytes)
| LNotOwner
| LNoLeader
| LNotLeader
| LUnknownLock (k : bytes).

Record LockHeader : Type := mkLockHeader {
  acquired_revision : u64;
  lh_lease_id : Z;
  lh_key : bytes;
  acquired_at : N
}.

(** [self.acquired_at.elapsed()] *)
Definition age (h : LockHeader) (now : N) : N := now - acquired_at h.

(** ** HeaderedMutex *)

Record HeaderedMutex : Type := mkHeaderedMutex {
  hm_key : bytes;
  hm_revision : u64;
  hm_queue : list (u64 * Z);
  holder_header : option LockHeader
}.

Module HeaderedMutex.
Definition new (key : bytes) : HeaderedMutex := mkHeaderedMutex key 0 [] None.
Definition next_rev (m : HeaderedMutex) : u64 * HeaderedMutex :=
  let rev := hm_revision m +w 1 in (rev, mkHeaderedMutex (hm_key m) rev (hm_queue m) (holder_header m)).
Definition set_state (q : list (u64 * Z)) (h : option LockHeader) (m : HeaderedMutex) : HeaderedMutex :=
  mkHeaderedMutex (hm_key m) (hm_revision m) q h.

(** The header, when it is that of [lease_id] *)
Definition held_by (m : HeaderedMutex) (lease_id : Z) : option LockHeader :=
  match holder_header m with
  | Some h => if decide (lh_lease_id h = lease_id) then Some h else None
  | None => None
  end.

(** [lock] after its revision is drawn *)
Definition lock_at (now : N) (rev : u64) (m : HeaderedMutex) (lease_id : Z) : result ConcurrencyError LockHeader * HeaderedMutex :=
  match held_by m lease_id with
  | Some h => (Ok h, m)
  | None =>
      let q := BTreeMap.insert rev lease_id (hm_queue m) in
      if decide (fst <$> BTreeMap.first q = Some rev) then
        let header := mkLockHeader rev lease_id (hm_key m) now in
        (Ok header, set_state q (Some header) m)
      else (Err WouldBlock, set_state q (holder_header m) m)
  end.
Definition lock (now : N) (m : HeaderedMutex) (lease_id : Z) : result ConcurrencyError LockHeader * HeaderedMutex :=
  let '(rev, m) := next_rev m in lock_at now rev m lease_id.

(** One round of the loop of [try_lock_until]; [None]: sleep and go round again.  Before the
    loop the call runs [lock] and drops its answer. *)
Definition poll (now : N) (m : HeaderedMutex) (lease_id : Z) (deadline : N) : option (result LockManagerError LockHeader) :=
  if deadline <=? now then Some (Err LDeadlineExceeded)
  else Ok <$> held_by m lease_id.

(** [try_lock_until], given the instant and the mutex that every round of its loop finds. *)
Fixpoint poll_rounds (rounds : list (N * HeaderedMutex)) (lease_id : Z) (deadline : N) : option (result LockManagerError LockHeader) :=
  match rounds with
  | [] => None
  | (now, m) :: rounds =>
      match poll now m lease_id deadline with
      | Some r => Some r
      | None => poll_rounds rounds lease_id deadline
      end
  end.

Definition unlock (now : N) (m : HeaderedMutex) (lease_id : Z) : result LockManagerError unit * HeaderedMutex :=
  match BTreeMap.first (hm_queue m) with
  | Some (rev, l) =>
      if decide (l = lease_id) then
        let q := BTreeMap.remove rev (hm_queue m) in
        let header :=
          match BTreeMap.first q with
          | Some (rev, next_lease) => Some (mkLockHeader rev next_lease (hm_key m) now)
          | None => None
          end in
        (Ok tt, set_state q header m)
      else (Err LNotOwner, m)
  | None => (Err LNotOwner, m)
  end.

Definition header (m : HeaderedMutex) : option LockHeader := holder_header m.
Definition queue_len (m : HeaderedMutex) : usize := vlen (hm_queue m).
End HeaderedMutex.

(** ** Several locks at once *)

Abbreviation Locks := (gmap bytes HeaderedMutex).

(** The first key that repeats an earlier one *)
Fixpoint first_duplicate (seen : list bytes) (keys : list bytes) : option bytes :=
  match keys with
  | [] => None
  | k :: keys => if decide (k ∈ seen) then Some k else first_duplicate (k :: seen) keys
  end.

(** Undo: release the locks acquired so far, the last one first. *)
Definition roll_back (now : N) (locks : Locks) (acquired : list (bytes * LockHeader)) (lease_id : Z) : Locks :=
  foldl (λ locks a,
      match locks !! a.1 with
      | Some lock => <[a.1 := (HeaderedMutex.unlock now lock lease_id).2]> locks
      | None => locks
      end) locks (reverse acquired).

Fixpoint acquire_loop (now : N) (locks : Locks) (sorted : list bytes) (acquired : list (bytes * LockHeader)) (lease_id : Z)
    : result LockManagerError (list (bytes * LockHeader)) * Locks :=
  match sorted with
  | [] => (Ok acquired, locks)
  | k :: sorted =>
      match locks !! k with
      | None => (Err (LUnknownLock k), locks)
      | Some lock =>
          let '(r, lock) := HeaderedMutex.lock now lock lease_id in
          let locks := <[k := lock]> locks in
          match r with
          | Ok h => acquire_loop now locks sorted (acquired ++ [(k, h)]) lease_id
          | Err _ => (Err LDeadlineExceeded, roll_back now locks acquired lease_id)
          end
      end
  end.

(** [keys.iter().map(|k| by_key.remove(k).unwrap())]; [None]: the [unwrap] panics *)
Fixpoint take_headers (by_key : gmap bytes LockHeader) (keys : list bytes) : option (list LockHeader) :=
  match keys with
  | [] => Some []
  | k :: keys => h ← by_key !! k; hs ← take_headers (delete k by_key) keys; Some (h :: hs)
  end.

Definition acquire_all (now : N) (locks : Locks) (keys : list bytes) (lease_id : Z)
    : option (result LockManagerError (list LockHeader)) * Locks :=
  match first_duplicate [] keys with
  | Some k => (Some (Err (LDuplicateKey k)), locks)
  | None =>
      match acquire_loop now locks (merge_sort bytes_le keys) [] lease_id with
      | (Err e, locks) => (Some (Err e), locks)
      | (Ok acquired, locks) => (Ok <$> take_headers (list_to_map (reverse acquired)) keys, locks)
      end
  end.

Fixpoint release_all (now : N) (locks : Locks) (keys : list bytes) (lease_id : Z) : result LockManagerError unit * Locks :=
  match keys with
  | [] => (Ok tt, locks)
  | k :: keys =>
      match locks !! k with
      | None => (Err (LUnknownLock k), locks)
      | Some lock =>
          let '(r, lock) := HeaderedMutex.unlock now lock lease_id in
          let locks := <[k := lock]> locks in
          match r with
          | Ok _ => release_all now locks keys lease_id
          | Err e => (Err e, locks)
          end
      end
  end.

(** ** LockManager *)

Module LockManager.
Definition new : Locks := ∅.
Definition get_or_create (g : Locks) (name : bytes) : bytes * Locks :=
  (name, match g !! name with Some _ => g | None => <[name := HeaderedMutex.new name]> g end).
Definition lock (now : N) (g : Locks) (name : bytes) (lease_id : Z) : result LockManagerError LockHeader * Locks :=
  match g !! name with
  | None => (Err (LUnknownLock name), g)
  | Some l =>
      let '(r, l) := HeaderedMutex.lock now l lease_id in
      (match r with Ok h => Ok h | Err _ => Err LNotOwner end, <[name := l]> g)
  end.
Definition unlock (now : N) (g : Locks) (name : bytes) (lease_id : Z) : result LockManagerError unit * Locks :=
  match g !! name with
  | None => (Err (LUnknownLock name), g)
  | Some l => let '(r, l) := HeaderedMutex.unlock now l lease_id in (r, <[name := l]> g)
  end.
Definition header (g : Locks) (name : bytes) : option LockHeader := g !! name ≫= HeaderedMutex.header.
Definition names (g : Locks) : list bytes := merge_sort bytes_le (elements (dom g)).
Definition drop_lock (g : Locks) (name : bytes) : bool * Locks := (bool_decide (is_Some (g !! name)), delete name g).
Definition len (g : Locks) : usize := N.of_nat (size g).
Definition is_empty (g : Locks) : bool := len g =? 0.
End LockManager.

(** ** EpochElection *)

Record LeaderEpoch : Type := mkLeaderEpoch { le_epoch : u64; le_lease_id : Z; le_value : bytes; elected_at : N }.

Record EpochElection : Type := mkEpochElection {
  ee_queue : list (u64 * (Z * bytes));
  rev_counter : u64;
  ee_current : option LeaderEpoch;
  epoch_counter : u64;
  observer_buffer_cap : usize;
  observer_buffer : list LeaderEpoch
}.

Module EpochElection.
Definition new : EpochElection := mkEpochElection [] 0 None 0 32 [].
Definition with_observer_cap (e : EpochElection) (cap : usize) : EpochElection :=
  mkEpochElection (ee_queue e) (rev_counter e) (ee_current e) (epoch_counter e) cap (observer_buffer e).
Definition current_epoch (e : EpochElection) : option u64 := le_epoch <$> ee_current e.
Definition current_leader (e : EpochElection) : option LeaderEpoch := ee_current e.
Definition observer_history (e : EpochElection) : list LeaderEpoch := observer_buffer e.

Definition record_epoch (e : EpochElection) (ep : LeaderEpoch) : EpochElection :=
  let buf := if observer_buffer_cap e <=? vlen (observer_buffer e) then tail (observer_buffer e) else observer_buffer e in
  mkEpochElection (ee_queue e) (rev_counter e) (ee_current e) (epoch_counter e) (observer_buffer_cap e) (buf ++ [ep]).

Definition set_inner (q : list (u64 * (Z * bytes))) (c : option LeaderEpoch) (e : EpochElection) : EpochElection :=
  mkEpochElection q (rev_counter e) c (epoch_counter e) (observer_buffer_cap e) (observer_buffer e).
(** A new epoch: the counter advances and the leader is set, under the lock of the state. *)
Definition elect (now : N) (lease_id : Z) (value : bytes) (e : EpochElection) : LeaderEpoch * EpochElection :=
  let ep := mkLeaderEpoch (epoch_counter e +w 1) lease_id value now in
  (ep, mkEpochElection (ee_queue e) (rev_counter e) (Some ep) (epoch_counter e +w 1) (observer_buffer_cap e) (observer_buffer e)).

(** The part of a call under the lock of the state, and the epoch to record after it. *)
Definition campaign_locked (now : N) (e : EpochElection) (lease_id : Z) (value : bytes) : (u64 * bool) * option LeaderEpoch * EpochElection :=
  let rev := rev_counter e +w 1 in
  let was_empty := bool_decide (ee_queue e = []) in
  let e := mkEpochElection (BTreeMap.insert rev (lease_id, value) (ee_queue e)) rev (ee_current e)
    (epoch_counter e) (observer_buffer_cap e) (observer_buffer e) in
  if was_empty then let '(ep, e) := elect now lease_id value e in ((rev, true), Some ep, e)
  else ((rev, false), None, e).
Definition campaign (now : N) (e : EpochElection) (lease_id : Z) (value : bytes) : (u64 * bool) * EpochElection :=
  match campaign_locked now e lease_id value with
  | (r, Some ep, e) => (r, record_epoch e ep)
  | (r, None, e) => (r, e)
  end.

(** The head of the queue becomes the leader. *)
Definition promote (now : N) (e : EpochElection) : option (u64 * Z) * EpochElection :=
  match BTreeMap.first (ee_queue e) with
  | Some (_, (next_lease, value)) =>
      let '(ep, e) := elect now next_lease value e in
      (Some (le_epoch ep, le_lease_id ep), record_epoch e ep)
  | None => (None, e)
  end.

(** [None]: the [unwrap] of the head of an empty queue panics. *)
Definition resign (now : N) (e : EpochElection) (lease_id : Z) : option (result LockManagerError (option (u64 * Z)) * EpochElection) :=
  match ee_current e with
  | None => Some (Err LNoLeader, e)
  | Some cur =>
      if decide (le_lease_id cur = lease_id) then
        '(leader_rev, _) ← BTreeMap.first (ee_queue e);
        let '(o, e) := promote now (set_inner (BTreeMap.remove leader_rev (ee_queue e)) None e) in
        Some (Ok o, e)
      else Some (Err LNotLeader, e)
  end.

Definition proclaim (e : EpochElection) (lease_id : Z) (value : bytes) : result LockManagerError unit * EpochElection :=
  match ee_current e with
  | None => (Err LNoLeader, e)
  | Some cur =>
      if decide (le_lease_id cur = lease_id) then
        (Ok tt, set_inner (ee_queue e) (Some (mkLeaderEpoch (le_epoch cur) (le_lease_id cur) value (elected_at cur))) e)
      else (Err LNotLeader, e)
  end.

Definition of_lease (lease_id : Z) (c : Z * bytes) : bool := bool_decide (c.1 = lease_id).
Definition expire_lease (now : N) (e : EpochElection) (lease_id : Z) : option (u64 * Z) * EpochElection :=
  let q := BTreeMap.remove_where (of_lease lease_id) (ee_queue e) in
  if decide (le_lease_id <$> ee_current e = Some lease_id) then promote now (set_inner q None e)
  else (None, set_inner q (ee_current e) e).

Definition queue_len (e : EpochElection) : usize := vlen (ee_queue e).
End EpochElection.

(** ** The header is that of the head of the queue *)

Definition head_header (m : HeaderedMutex) : Prop :=
  match holder_header m, hm_queue m with
  | Some h, (rev, l) :: _ => acquired_revision h = rev ∧ lh_lease_id h = l ∧ lh_key h = hm_key m
  | None, [] => True
  | _, _ => False
  end.
(** With room for [n] more revisions *)
Record headered (n : nat) (m : HeaderedMutex) : Prop := {
  hd_ordered : ordered (hm_queue m);
  hd_below : below (hm_queue m) (hm_revision m + 1);
  hd_head : head_header m;
  hd_room : hm_revision m + N.of_nat n < u64_modulus
}.

Lemma headered_new n key : N.of_nat n < u64_modulus → headered n (HeaderedMutex.new key).
Proof. intros H. split; simpl; [constructor|constructor|done|lia]. Qed.
Lemma headered_weaken n m : headered (S n) m → headered n m.
Proof. intros []. split; try done. lia. Qed.
Lemma headered_unlock n m now l : headered n m → headered n (HeaderedMutex.unlock now m l).2.
Proof.
  intros [Ho Hb Hh Hr]. unfold HeaderedMutex.unlock. destruct (hm_queue m) as [|[rev l'] q] eqn:Eq; simpl; [by split; rewrite ?Eq|].
  case_decide; simpl; [|by split; rewrite ?Eq]. rewrite remove_first by done. inversion Ho; inversion Hb; subst.
  split; simpl; try done. unfold head_header. simpl. by destruct q as [|[]].
Qed.

(** The lock of a mutex that another lease holds blocks; otherwise the caller is the holder. *)
Lemma lock_spec n m now l : headered (S n) m →
  let '(r, m') := HeaderedMutex.lock now m l in
  headered n m' ∧
  match r with
  | Ok h => holder_header m' = Some h ∧ lh_lease_id h = l ∧ lh_key h = hm_key m
  | Err e => e = WouldBlock ∧ holder_header m' = holder_header m ∧ ∃ h, holder_header m = Some h ∧ lh_lease_id h ≠ l
  end.
Proof.
  intros [Ho Hb Hh Hr]. unfold HeaderedMutex.lock, HeaderedMutex.next_rev. rewrite (draw_revision _ n) by done.
  unfold HeaderedMutex.lock_at, HeaderedMutex.held_by, head_header in *. simpl.
  destruct (holder_header m) as [h|] eqn:Eh.
  - destruct (hm_queue m) as [|[rev l'] q] eqn:Eq; [done|]. destruct Hh as (H1 & H2 & H3). case_decide as Hl.
    + split; [|done]. split; simpl; rewrite ?Eq; [done|eapply below_weaken; [done|apply rev_lt]|unfold head_header; simpl; by rewrite ?Eh, ?Eq|lia].
    + rewrite insert_above by done. simpl. inversion Hb as [|? ? Hk]; subst. rewrite decide_False by (intros [= E]; rewrite E in Hk; by apply key_lt_ne in Hk).
      split; [|eauto]. rewrite app_comm_cons, <- insert_above by done.
      split; [by apply ordered_insert|rewrite insert_above by done|unfold head_header; cbn [holder_header hm_queue HeaderedMutex.set_state]; rewrite insert_above by done|simpl; lia]; simpl; [apply (below_snoc (_ :: _)); [done|apply rev_lt]|done].
  - destruct (hm_queue m) as [|] eqn:Eq; [|done]. simpl. rewrite decide_True by done. split; [|done].
    split; simpl; [by repeat constructor|repeat constructor; apply rev_lt|done|lia].
Qed.

(** ** What [acquire_all] returns *)

Definition held (locks : Locks) (l : Z) (k : bytes) (h : LockHeader) : Prop :=
  locks !! k ≫= HeaderedMutex.header = Some h ∧ lh_lease_id h = l.
Definition all_headered (n : nat) (locks : Locks) : Prop := map_Forall (λ k, headered n) locks.

Lemma all_headered_insert n locks k m : all_headered (S n) locks → headered n m → ∀ k' m', <[k := m]> locks !! k' = Some m' → headered n m'.
Proof. intros Ha Hm k' m' [[<- <-]|[_ Hl]]%lookup_insert_Some; [done|]. by apply headered_weaken, (Ha k'). Qed.

Lemma acquire_loop_spec now l sorted n locks acquired :
  all_headered (length sorted + n) locks → NoDup (acquired.*1 ++ sorted) →
  Forall (λ a, held locks l a.1 a.2) acquired →
  let '(r, locks') := acquire_loop now locks sorted acquired l in
  match r with
  | Ok acquired' => acquired'.*1 = acquired.*1 ++ sorted ∧ Forall (λ a, held locks' l a.1 a.2) acquired'
  | Err (LUnknownLock k) => k ∈ sorted ∧ locks !! k = None
  | Err LDeadlineExceeded => ∃ k h, k ∈ sorted ∧ locks !! k ≫= HeaderedMutex.header = Some h ∧ lh_lease_id h ≠ l
  | Err _ => False
  end.
Proof.
  revert locks acquired. induction sorted as [|k sorted IH]; intros locks acquired Ha Hnd Hacq; [by rewrite app_nil_r|].
  cbn [acquire_loop length Nat.add] in *. destruct (locks !! k) as [m|] eqn:Hk; [|split; [left|done]].
  pose proof (lock_spec _ m now l (Ha _ _ Hk)) as Hl. destruct (HeaderedMutex.lock now m l) as [[h|e] m'].
  - destruct Hl as [Hm' (Hh & Hlease & _)].
    assert (Hne : ∀ a, a ∈ acquired.*1 ++ sorted → a ≠ k).
    { intros a Hin ->. rewrite NoDup_app in Hnd. destruct Hnd as (_ & Hd & Hnd). apply NoDup_cons in Hnd as [Hn _].
      apply elem_of_app in Hin as [Hin|]; [|done]. apply (Hd k Hin). left. }
    specialize (IH (<[k := m']> locks) (acquired ++ [(k, h)])). rewrite fmap_app, <- app_assoc in IH. ospecialize (IH _ _ _).
    + intros k' m'' Hl. by eapply all_headered_insert.
    + done.
    + apply Forall_app. split.
      * rewrite Forall_forall in Hacq |- *. intros a Hin. unfold held. rewrite lookup_insert_ne; [by apply Hacq|].
        intros E. eapply (Hne a.1); [|done]. apply elem_of_app. left. by apply list_elem_of_fmap_2.
      * constructor; [|done]. unfold held. simpl. by rewrite lookup_insert_eq.
    + destruct (acquire_loop _ _ _ _ _) as [[acq|[]] locks']; try done.
      * destruct IH as (k' & h' & Hin & Hl & ?). exists k', h'. split; [by right|].
        rewrite lookup_insert_ne in Hl; [done|]. intros ->. apply (Hne k'); set_solver.
      * destruct IH as [Hin Hl]. split; [by right|]. rewrite lookup_insert_ne in Hl; [done|]. intros ->. by apply lookup_insert_None in Hl as [? ?].
  - destruct Hl as (_ & _ & _ & h & Hh & Hne). exists k, h. split; [left|]. by rewrite Hk.
Qed.

Lemma first_duplicate_spec seen keys : NoDup seen →
  match first_duplicate seen keys with
  | Some k => k ∈ keys ∧ ¬ NoDup (reverse seen ++ keys)
  | None => NoDup (reverse seen ++ keys)
  end.
Proof.
  revert seen. induction keys as [|k keys IH]; intros seen Hs; simpl; [by rewrite app_nil_r, reverse_Permutation|]. case_decide as Hin.
  - split; [left|]. rewrite NoDup_app. intros (_ & Hd & _). apply (Hd k); [by apply elem_of_reverse|left].
  - specialize (IH (k :: seen)). rewrite reverse_cons, <- app_assoc in IH. ospecialize (IH _); [by constructor|].
    destruct (first_duplicate (k :: seen) keys); [|done]. destruct IH. split; [by right|done].
Qed.

Lemma take_headers_spec (keys : list bytes) (by_key : gmap bytes LockHeader) : NoDup keys → (∀ k, k ∈ keys → is_Some (by_key !! k)) →
  ∃ hs, take_headers by_key keys = Some hs ∧ Forall2 (λ k h, by_key !! k = Some h) keys hs.
Proof.
  intros Hnd. revert by_key. induction Hnd as [|k keys Hn _ IH]; intros by_key Hall; [by exists []|]. simpl.
  destruct (Hall k) as [h Hh]; [left|]. rewrite Hh. simpl. destruct (IH (delete k by_key)) as (hs & -> & Hf).
  - intros k' Hk'. rewrite lookup_delete_ne by (intros ->; done). apply Hall. by right.
  - exists (h :: hs). split; [done|]. constructor; [done|]. eapply Forall2_impl; [exact Hf|]. intros k' h' [_ ?]%lookup_delete_Some. done.
Qed.

(** What [acquire_all] answers is true.  It does not panic; on success the caller holds
    every lock of the request, and the headers are returned in the order of the request;
    [DeadlineExceeded] means another lease holds one of the locks, [UnknownLock] and
    [DuplicateKey] name a key of the request that has no lock, or that occurs twice, and a
    request with a duplicate changes nothing. *)
Theorem acquire_all_spec now locks keys l :
  all_headered (length keys) locks →
  match acquire_all now locks keys l with
  | (None, _) => False
  | (Some (Ok hs), locks') => Forall2 (held locks' l) keys hs
  | (Some (Err LDeadlineExceeded), _) => ∃ k h, k ∈ keys ∧ locks !! k ≫= HeaderedMutex.header = Some h ∧ lh_lease_id h ≠ l
  | (Some (Err (LUnknownLock k)), _) => k ∈ keys ∧ locks !! k = None
  | (Some (Err (LDuplicateKey k)), locks') => k ∈ keys ∧ ¬ NoDup keys ∧ locks' = locks
  | (Some (Err _), _) => False
  end.
Proof.
  intros Ha. unfold acquire_all. pose proof (first_duplicate_spec [] keys (NoDup_nil_2)) as Hd. simpl in Hd.
  destruct (first_duplicate [] keys) as [k|]; [naive_solver|].
  pose proof (acquire_loop_spec now l (merge_sort bytes_le keys) 0 locks []) as Hl.
  ospecialize (Hl _ _ _); [by rewrite merge_sort_Permutation, Nat.add_0_r|simpl; by rewrite merge_sort_Permutation|constructor|].
  destruct (acquire_loop _ _ _ _ _) as [[acq|e] locks'].
  - simpl in Hl. destruct Hl as [Hk Hh]. rewrite Forall_forall in Hh.
    assert (Hnd : NoDup (reverse acq).*1) by (by rewrite reverse_Permutation, Hk, merge_sort_Permutation).
    destruct (take_headers_spec keys (list_to_map (reverse acq))) as (hs & -> & Hf); [done| |].
    + intros k Hin. rewrite <- (merge_sort_Permutation bytes_le keys), <- Hk in Hin. apply list_elem_of_fmap in Hin as ([k' h] & -> & Hin).
      exists h. apply elem_of_list_to_map; [done|]. by apply elem_of_reverse.
    + simpl. eapply Forall2_impl; [exact Hf|]. intros k h Hkh%elem_of_list_to_map_2. apply (Hh (k, h)). by apply elem_of_reverse.
  - destruct e; try done.
    + destruct Hl as (k & h & Hin & ?). exists k, h. by rewrite merge_sort_Permutation in Hin.
    + by rewrite merge_sort_Permutation in Hl.
Qed.
Lemma acquire_all_spec_witness :
  let a := str "/a" in let b := str "/b" in
  let locks : Locks := <[a := HeaderedMutex.new a]> {[b := HeaderedMutex.new b]} in
  ∃ hs locks', acquire_all 0 locks [b; a] 7 = (Some (Ok hs), locks') ∧ Forall2 (held locks' 7) [b; a] hs.
Proof.
  intros a b locks. pose proof (acquire_all_spec 0 locks [b; a] 7) as H. ospecialize (H _).
  { intros k m [[_ <-]|[_ [_ <-]%lookup_singleton_Some]]%lookup_insert_Some; apply headered_new; vm_compute; reflexivity. }
  destruct (acquire_all 0 locks [b; a] 7) as [[[hs|e]|] locks'] eqn:E; [by exists hs, locks'| |done].
  exfalso. vm_compute in E. discriminate E.
Defined.

(** A refused request leaves the caller in the queue of the lock that was taken: when the
    holder releases it, it is the caller's, who was told it has nothing. *)
Lemma refused_request_gets_lock :
  let a := str "/a" in let b := str "/b" in
  let locks : Locks := <[a := HeaderedMutex.new a]> {[b := (HeaderedMutex.lock 0 (HeaderedMutex.new b) 9).2]} in
  let '(r, locks) := acquire_all 1 locks [a; b] 7 in
  r = Some (Err LDeadlineExceeded) ∧
  lh_lease_id <$> (LockManager.header (LockManager.unlock 2 locks b 9).2 b) = Some 7%Z.
Proof. split; vm_compute; reflexivity. Qed.
(** An unknown key ends the request without the release of the locks it had taken. *)
Lemma unknown_key_keeps_locks :
  let a := str "/a" in
  let '(r, locks) := acquire_all 0 {[a := HeaderedMutex.new a]} [a; str "/z"] 7 in
  r = Some (Err (LUnknownLock (str "/z"))) ∧ lh_lease_id <$> (LockManager.header locks a) = Some 7%Z.
Proof. split; vm_compute; reflexivity. Qed.
(** A lease that waits and asks again waits twice. *)
Lemma waiter_queued_twice :
  let m := (HeaderedMutex.lock 0 (HeaderedMutex.new []) 1).2 in
  let m := (HeaderedMutex.lock 0 (HeaderedMutex.lock 0 m 2).2 2).2 in
  HeaderedMutex.queue_len m = 3.
Proof. vm_compute. reflexivity. Qed.

(** ** Epochs *)

Inductive EpochCall : Type :=
| EpCampaign (now : N) (l : Z) (v : bytes)
| EpResign (now : N) (l : Z)
| EpProclaim (l : Z) (v : bytes)
| EpExpire (now : N) (l : Z).

(** [None]: the call panics. *)
Definition epoch_step (e : EpochElection) (c : EpochCall) : option EpochElection :=
  match c with
  | EpCampaign now l v => Some (EpochElection.campaign now e l v).2
  | EpResign now l => snd <$> EpochElection.resign now e l
  | EpProclaim l v => Some (EpochElection.proclaim e l v).2
  | EpExpire now l => Some (EpochElection.expire_lease now e l).2
  end.
Fixpoint epoch_run (e : EpochElection) (cs : list EpochCall) : option EpochElection :=
  match cs with
  | [] => Some e
  | c :: cs => e ← epoch_step e c; epoch_run e cs
  end.

(** The observers' epochs are consecutive and end with the last one given. *)
Definition consecutive (last : u64) (buf : list LeaderEpoch) : Prop :=
  ∀ i ep, buf !! i = Some ep → le_epoch ep + vlen buf = last + 1 + N.of_nat i.

Record epochs_ok (n : nat) (e : EpochElection) : Prop := {
  ep_ordered : ordered (ee_queue e);
  ep_below : below (ee_queue e) (rev_counter e + 1);
  ep_room : rev_counter e + N.of_nat n < u64_modulus ∧ epoch_counter e + N.of_nat n < u64_modulus;
  ep_leader : le_lease_id <$> ee_current e = (λ c, c.2.1) <$> head (ee_queue e);
  ep_epoch cur : ee_current e = Some cur → le_epoch cur = epoch_counter e;
  ep_observers : consecutive (epoch_counter e) (observer_buffer e);
  ep_bounded : vlen (observer_buffer e) ≤ N.max 1 (observer_buffer_cap e);
  ep_seen : epoch_counter e ≠ 0 → observer_buffer e ≠ []
}.

(** [e'] is a later state: an epoch that did not end has the same leader. *)
Definition fences (e e' : EpochElection) : Prop :=
  epoch_counter e ≤ epoch_counter e' ∧ observer_buffer_cap e' = observer_buffer_cap e ∧
  (epoch_counter e = epoch_counter e' → ∀ cur', ee_current e' = Some cur' →
    ∃ cur, ee_current e = Some cur ∧ le_lease_id cur = le_lease_id cur').

Lemma fences_trans e1 e2 e3 : fences e1 e2 → fences e2 e3 → fences e1 e3.
Proof.
  intros (H1 & C1 & F1) (H2 & C2 & F2). split_and!; [lia|congruence|]. intros Heq cur3 H3. destruct (F2 ltac:(lia) cur3 H3) as (cur2 & H & E).
  destruct (F1 ltac:(lia) cur2 H) as (cur1 & ? & ?). exists cur1. by split; [|congruence].
Qed.

Lemma consecutive_tail last buf : consecutive last buf → consecutive last (tail buf).
Proof.
  destruct buf as [|x buf]; [done|]. intros H i ep Hi. specialize (H (S i) ep Hi). rewrite vlen_cons in H. simpl. lia.
Qed.
Lemma consecutive_push last buf ep : consecutive last buf → le_epoch ep = last + 1 → consecutive (last + 1) (buf ++ [ep]).
Proof.
  intros H He i ep' Hi. rewrite vlen_app. change (vlen [ep]) with 1.
  apply lookup_app_Some in Hi as [Hi|[Hle Hi]]; [specialize (H _ _ Hi); lia|].
  apply list_lookup_singleton_Some in Hi as [Hi <-]. unfold vlen. lia.
Qed.

(** A new epoch for the head of the queue *)
Lemma elected n q rev c ec cap buf now l v :
  ordered q → below q (rev + 1) → rev + N.of_nat n < u64_modulus → ec + N.of_nat (S n) < u64_modulus →
  consecutive ec buf → vlen buf ≤ N.max 1 cap → (λ c, c.2.1) <$> head q = Some l →
  let '(ep, e) := EpochElection.elect now l v (mkEpochElection q rev c ec cap buf) in
  epochs_ok n (EpochElection.record_epoch e ep).
Proof.
  intros Ho Hb Hr He Hc Hv Hl. simpl. rewrite (draw_revision ec n) by done. unfold EpochElection.record_epoch. simpl.
  split; simpl; [done|done|lia|by rewrite Hl|by intros ? [= <-]| | |by intros _ [_ ?]%app_eq_nil].
  - apply consecutive_push; [|done]. destruct (cap <=? vlen buf); [by apply consecutive_tail|done].
  - rewrite vlen_app. change (vlen [_]) with 1. destruct (N.leb_spec cap (vlen buf)); [|lia].
    destruct buf as [|x buf]; simpl; [change (vlen []) with 0; lia|]. rewrite vlen_cons in Hv. lia.
Qed.
Lemma promoted n q rev ec cap buf now :
  ordered q → below q (rev + 1) → rev + N.of_nat n < u64_modulus → ec + N.of_nat (S n) < u64_modulus →
  consecutive ec buf → vlen buf ≤ N.max 1 cap → (ec ≠ 0 → buf ≠ []) →
  epochs_ok n (EpochElection.promote now (mkEpochElection q rev None ec cap buf)).2.
Proof.
  intros Ho Hb Hr He Hc Hv Hs. unfold EpochElection.promote. destruct q as [|[r [l v]] q]; simpl; [split; simpl; try done; lia|].
  by apply (elected n ((r, (l, v)) :: q) rev None ec cap buf now l v).
Qed.
Lemma promote_counter now e : ee_current e = None →
  let e' := (EpochElection.promote now e).2 in
  observer_buffer_cap e' = observer_buffer_cap e ∧
  ((ee_current e' = None ∧ epoch_counter e' = epoch_counter e) ∨ epoch_counter e' = epoch_counter e +w 1).
Proof. intros Hc. unfold EpochElection.promote. destruct (ee_queue e) as [|[r [l v]] q]; simpl; split; try done; [by left|by right]. Qed.
Lemma fences_promote n now e e0 : epoch_counter e = epoch_counter e0 → observer_buffer_cap e = observer_buffer_cap e0 → ee_current e = None →
  epoch_counter e + N.of_nat (S n) < u64_modulus → fences e0 (EpochElection.promote now e).2.
Proof.
  intros He Hcap Hc Hr. destruct (promote_counter now e Hc) as [Hcap' [[Hc' He']|He']].
  - split_and!; [lia|congruence|]. intros _ cur Hcur. congruence.
  - rewrite (draw_revision _ n) in He' by done. split_and!; [lia|congruence|lia].
Qed.

Lemma head_filter_ne {A} (P : A → Prop) `{∀ x, Decision (P x)} (x : A) l : P x → head (filter P (x :: l)) = Some x.
Proof. intros Hx. by rewrite filter_cons_True. Qed.

Lemma epoch_step_ok n e c : epochs_ok (S n) e → ∃ e', epoch_step e c = Some e' ∧ epochs_ok n e' ∧ fences e e'.
Proof.
  destruct e as [q rev cur ec cap buf]. intros [Ho Hb [Hr He] Hl Hep Hc Hv Hs]. simpl in *. destruct c as [now l v|now l|l v|now l]; simpl.
  - eexists. split; [done|]. unfold EpochElection.campaign, EpochElection.campaign_locked. simpl. rewrite (draw_revision _ n) by done.
    rewrite insert_above by done. destruct q as [|x q]; simpl.
    + split; [apply (elected n [(rev + 1, (l, v))] (rev + 1) cur); try done; [by repeat constructor|repeat constructor; apply rev_lt|lia]|].
      rewrite (draw_revision ec n) by done. split_and!; simpl; lia.
    + split; [|split_and!; simpl; [lia|done|eauto]]. rewrite app_comm_cons. split; simpl; try done; [|by apply (below_snoc (x :: q)); [|apply rev_lt]|lia].
      rewrite app_comm_cons, <- insert_above by done. by apply ordered_insert.
  - unfold EpochElection.resign. simpl. destruct cur as [cur|]; simpl; [|eexists; split; [done|]; split; [split; simpl; try done; lia|split_and!; simpl; [lia|done|eauto]]].
    case_decide; simpl; [|eexists; split; [done|]; split; [split; simpl; try done; lia|split_and!; simpl; [lia|done|eauto]]].
    destruct q as [|[r x] q]; [done|]. simpl. rewrite remove_first by done.
    destruct (EpochElection.promote now _) as [o e'] eqn:E. eexists. split; [done|]. simpl.
    change e' with (o, e').2. rewrite <- E. inversion Ho; inversion Hb; subst. split; [apply promoted; try done; simpl; lia|].
    by apply (fences_promote n).
  - eexists. split; [done|]. unfold EpochElection.proclaim. simpl. destruct cur as [cur|]; simpl; [|split; [split; simpl; try done; lia|split_and!; simpl; [lia|done|eauto]]].
    case_decide; simpl; (split; [|split_and!; simpl; [lia|done|intros _ cur' [= <-]; eauto]]).
    + split; simpl; try done; [lia|]. intros ? [= <-]. simpl. by apply Hep.
    + split; simpl; try done. lia.
  - eexists. split; [done|]. unfold EpochElection.expire_lease. simpl. rewrite remove_where_filter by done. case_decide as Hd; simpl.
    + split; [apply promoted; try done; [by apply ordered_filter|by apply below_filter|simpl; lia]|]. by apply (fences_promote n).
    + split; [|split_and!; simpl; [lia|done|eauto]]. split; simpl; try done; [by apply ordered_filter|by apply below_filter|lia|].
      rewrite Hl. destruct q as [|[r [l' v]] q]; [done|]. rewrite head_filter_ne; [done|]. unfold EpochElection.of_lease. simpl in *.
      apply bool_decide_eq_false. intros ->. by rewrite Hl in Hd.
Qed.

Lemma epoch_run_ok n cs e : epochs_ok (length cs + n) e → ∃ e', epoch_run e cs = Some e' ∧ epochs_ok n e' ∧ fences e e'.
Proof.
  revert e. induction cs as [|c cs IH]; intros e He; simpl.
  - exists e. split_and!; [done|done|]. split_and!; [lia|done|eauto].
  - destruct (epoch_step_ok _ e c He) as (e1 & -> & H1 & F1). simpl. destruct (IH e1 H1) as (e2 & -> & H2 & F2).
    exists e2. split_and!; [done|done|by eapply fences_trans].
Qed.

(** Epochs fence leaders.  No sequence of calls panics; the leader is the candidate at the
    head of the queue, in the last epoch given; the observers see the last epochs without a
    gap, in order, in a buffer within its capacity; and two states of a run with the same
    epoch have the same leader. *)
Theorem epochs_fence cap (cs1 cs2 : list EpochCall) :
  vlen (cs1 ++ cs2) < u64_modulus →
  ∃ e1 e2, epoch_run (EpochElection.with_observer_cap EpochElection.new cap) cs1 = Some e1 ∧ epoch_run e1 cs2 = Some e2 ∧
  le_lease_id <$> EpochElection.current_leader e2 = (λ c, c.2.1) <$> head (ee_queue e2) ∧
  consecutive (epoch_counter e2) (EpochElection.observer_history e2) ∧
  vlen (EpochElection.observer_history e2) ≤ N.max 1 cap ∧
  ∀ ep1 ep2, EpochElection.current_leader e1 = Some ep1 → EpochElection.current_leader e2 = Some ep2 →
    le_epoch ep1 ≤ le_epoch ep2 ∧ (le_epoch ep1 = le_epoch ep2 → le_lease_id ep1 = le_lease_id ep2).
Proof.
  intros Hlen. rewrite vlen_app in Hlen. unfold vlen in Hlen.
  destruct (epoch_run_ok (length cs2) cs1 (EpochElection.with_observer_cap EpochElection.new cap)) as (e1 & H1 & O1 & F1).
  { split; simpl; try done; [constructor|constructor|lia|unfold vlen; simpl; lia]. }
  destruct (epoch_run_ok 0 cs2 e1) as (e2 & H2 & O2 & Hle & Hcap & F2); [by rewrite Nat.add_0_r|]. exists e1, e2.
  destruct F1 as (_ & Hcap1 & _). destruct (O2) as [_ _ _ Hl Hep Hc Hv _]. split_and!; [done|done|done|done|by rewrite Hcap, Hcap1 in Hv|].
  intros ep1 ep2 E1 E2. pose proof (ep_epoch _ _ O1 _ E1) as Hep1. rewrite (Hep _ E2), Hep1.
  split; [done|]. intros Heq. destruct (F2 Heq ep2 E2) as (cur & Hcur & <-). unfold EpochElection.current_leader in E1. congruence.
Qed.
Lemma epochs_fence_witness :
  ∃ e1 e2, epoch_run (EpochElection.with_observer_cap EpochElection.new 2) [EpCampaign 0 1 [10]; EpCampaign 1 2 [20]] = Some e1 ∧
  epoch_run e1 [EpExpire 2 1] = Some e2 ∧ le_lease_id <$> EpochElection.current_leader e2 = Some 2%Z.
Proof.
  destruct (epochs_fence 2 [EpCampaign 0 1 [10]; EpCampaign 1 2 [20]] [EpExpire 2 1]) as (e1 & e2 & H1 & H2 & Hl & _).
  { vm_compute. reflexivity. }
  exists e1, e2. split; [exact H1|split; [exact H2|]]. rewrite Hl. vm_compute in H1. injection H1 as <-. vm_compute in H2. injection H2 as <-. reflexivity.
Defined.

(** The observers are told after the lock of the state is released: two calls can tell them in
    the wrong order. *)
Lemma observers_out_of_order :
  let '(_, ep1, e) := EpochElection.campaign_locked 0 EpochElection.new 1 [] in
  let '(_, e) := EpochElection.campaign 1 e 2 [] in
  let '(_, e) := EpochElection.expire_lease 2 e 1 in
  le_epoch <$> EpochElection.observer_history (from_option (EpochElection.record_epoch e) e ep1) = [2; 1].
Proof. vm_compute. reflexivity. Qed.
