(* ===== verification/EtcdStm.v ===== *)
(** * Sessions, barriers, priority queues and transactional memory of cave-etcd

    [crates/compute/cave-etcd/src/concurrency_extras.rs]: [Session], [Barrier],
    [PriorityQueue], and the optimistic transactions of [StmStore] and [StmTxn].  A
    transaction runs between other writers: its reads happen at different states of the store,
    and [commit] checks the versions it read.

    Main results: a session fires its hooks once ([session_fires_once]), the queue delivers in
    order of priority and then of arrival ([pq_in_order]), and a transaction that commits
    could have run alone at the moment of its commit ([stm_serializable]), provided it read no
    absent key and read the same value each time it read a key; without these it need not
    ([absent_read_unnoticed], [reread_unnoticed]). *)

From S2P Require Import Prelude Bytes BTree.

Inductive SessionError : Set :=
| SessionDone
| LeaseInvalid
| BarrierAlreadyHeld
| BarrierNotHeld
| QueueEmpty
| StmConflict.

(** ** Session *)

(** [H]: the closures registered as hooks *)
Record Session (H : Type) : Type := mkSession {
  ss_lease_id : Z;
  ss_ttl_secs : Z;
  ss_done : bool;
  expire_hooks : list H
}.
Arguments mkSession {H} _ _ _ _.
Arguments ss_lease_id {H} _.
Arguments ss_ttl_secs {H} _.
Arguments ss_done {H} _.
Arguments expire_hooks {H} _.

Module Session.
Section Hooks.
Context {H : Type}.
Definition new (lease_id ttl_secs : Z) : Session H := mkSession lease_id ttl_secs false [].
Definition on_expire (s : Session H) (hook : H) : Session H :=
  mkSession (ss_lease_id s) (ss_ttl_secs s) (ss_done s) (expire_hooks s ++ [hook]).
(** The hooks it calls, each with the lease, in order *)
Definition done (s : Session H) : result SessionError unit * list (H * Z) * Session H :=
  if ss_done s then (Err SessionDone, [], s)
  else (Ok tt, (λ h, (h, ss_lease_id s)) <$> expire_hooks s, mkSession (ss_lease_id s) (ss_ttl_secs s) true []).
End Hooks.
End Session.

(** ** Barrier *)

Record Barrier : Set := mkBarrier { ba_target : usize; ba_waiters : usize; ba_held : bool }.
Module Barrier.
Definition new (target : usize) : Barrier := mkBarrier target 0 false.
Definition hold (b : Barrier) : result SessionError unit * Barrier :=
  if ba_held b then (Err BarrierAlreadyHeld, b) else (Ok tt, mkBarrier (ba_target b) (ba_waiters b) true).
Definition release (b : Barrier) : result SessionError unit * Barrier :=
  if ba_held b then (Ok tt, mkBarrier (ba_target b) (ba_waiters b) false) else (Err BarrierNotHeld, b).
Definition wait (b : Barrier) : bool * Barrier :=
  let b := mkBarrier (ba_target b) (ba_waiters b +w 1) (ba_held b) in
  (negb (ba_held b) && (ba_target b <=? ba_waiters b), b).
End Barrier.

(** ** PriorityQueue *)

Record PqItem : Set := mkPqItem { pq_priority : u64; pq_enqueued_at : u64; pq_value : bytes }.
Record PriorityQueue : Set := mkPriorityQueue { pq_next : u64; pq_inner : list ((u64 * u64) * bytes) }.

Module PriorityQueue.
Definition new : PriorityQueue := mkPriorityQueue 0 [].
Definition enqueue (q : PriorityQueue) (priority : u64) (value : bytes) : u64 * PriorityQueue :=
  let seq := pq_next q in
  (seq, mkPriorityQueue (seq +w 1) (BTreeMap.insert (priority, seq) value (pq_inner q))).
Definition dequeue (q : PriorityQueue) : result SessionError PqItem * PriorityQueue :=
  match BTreeMap.first (pq_inner q) with
  | None => (Err QueueEmpty, q)
  | Some ((p, e), value) => (Ok (mkPqItem p e value), mkPriorityQueue (pq_next q) (BTreeMap.remove (p, e) (pq_inner q)))
  end.
Definition peek (q : PriorityQueue) : option PqItem :=
  (λ x : (u64 * u64) * bytes, mkPqItem x.1.1 x.1.2 x.2) <$> BTreeMap.first (pq_inner q).
Definition len (q : PriorityQueue) : usize := vlen (pq_inner q).
Definition is_empty (q : PriorityQueue) : bool := len q =? 0.
End PriorityQueue.

(** ** StmStore *)

Record VersionedValue : Set := mkVersionedValue { vv_value : bytes; vv_version : u64 }.
Record StmStore : Type := mkStmStore { stm_state : gmap bytes VersionedValue; stm_commits : u64; stm_conflicts : u64 }.
Record StmTxn : Type := mkStmTxn { tx_reads : gmap bytes u64; tx_writes : gmap bytes bytes }.

(** [entry(k).or_insert(version 0)], then the value is set and the version incremented *)
Definition write_entry (s : gmap bytes VersionedValue) (k v : bytes) : gmap bytes VersionedValue :=
  <[k := mkVersionedValue v (default 0 (vv_version <$> s !! k) +w 1)]> s.

Module StmStore.
Definition new : StmStore := mkStmStore ∅ 0 0.
Definition put_unchecked (s : StmStore) (k v : bytes) : StmStore :=
  mkStmStore (write_entry (stm_state s) k v) (stm_commits s) (stm_conflicts s).
Definition get_versioned (s : StmStore) (k : bytes) : option VersionedValue := stm_state s !! k.
Definition begin : StmTxn := mkStmTxn ∅ ∅.
End StmStore.

Module StmTxn.
Definition get (s : StmStore) (t : StmTxn) (k : bytes) : option bytes * StmTxn :=
  match tx_writes t !! k with
  | Some buf => (Some buf, t)
  | None =>
      match stm_state s !! k with
      | None => (None, t)
      | Some entry => (Some (vv_value entry), mkStmTxn (<[k := vv_version entry]> (tx_reads t)) (tx_writes t))
      end
  end.
Definition put (t : StmTxn) (k v : bytes) : StmTxn := mkStmTxn (tx_reads t) (<[k := v]> (tx_writes t)).

(** A key whose version is not the one that was read *)
Definition stale (s : StmStore) (r : bytes * u64) : bool :=
  negb (default 0 (vv_version <$> stm_state s !! r.1) =? r.2).
Definition commit (s : StmStore) (t : StmTxn) : result SessionError unit * StmStore :=
  if existsb (stale s) (map_to_list (tx_reads t)) then
    (Err StmConflict, mkStmStore (stm_state s) (stm_commits s) (stm_conflicts s +w 1))
  else
    (Ok tt, mkStmStore (foldl (λ m w, write_entry m w.1 w.2) (stm_state s) (map_to_list (tx_writes t)))
      (stm_commits s +w 1) (stm_conflicts s)).
End StmTxn.

(** ** Hooks fire once *)

Inductive SessionCall (H : Type) : Type := OnExpire (h : H) | Done.
Arguments OnExpire {H} h.
Arguments Done {H}.
Definition session_step {H} (s : Session H) (c : SessionCall H) : list (H * Z) * Session H :=
  match c with
  | OnExpire h => ([], Session.on_expire s h)
  | Done => let '(_, fired, s) := Session.done s in (fired, s)
  end.
(** The hooks registered before the first end of the session *)
Fixpoint before_done {H} (cs : list (SessionCall H)) : list H :=
  match cs with
  | OnExpire h :: cs => h :: before_done cs
  | _ => []
  end.

(** What is left to fire: nothing, once the session is done *)
Lemma session_fires_from {H} (cs : list (SessionCall H)) s :
  mjoin (run_calls session_step s cs).1 =
  (if ss_done s then []
   else if existsb (λ c, match c with Done => true | _ => false end) cs
   then (λ h, (h, ss_lease_id s)) <$> (expire_hooks s ++ before_done cs) else []).
Proof.
  revert s. induction cs as [|[h|] cs IH]; intros s; [by destruct (ss_done s)| |].
  - cbn [run_calls session_step before_done existsb]. specialize (IH (Session.on_expire s h)).
    destruct (run_calls _ _ _) as [fs s']. simpl in *. rewrite IH. by rewrite <- app_assoc.
  - cbn [run_calls session_step before_done existsb]. unfold Session.done. destruct (ss_done s) eqn:Hd.
    + specialize (IH s). rewrite Hd in IH. by destruct (run_calls _ _ _).
    + specialize (IH (mkSession (ss_lease_id s) (ss_ttl_secs s) true [])). destruct (run_calls _ _ _) as [fs s']. simpl in *.
      rewrite IH, app_nil_r. by rewrite app_nil_r.
Qed.

(** Hooks fire exactly once.  Whatever the calls on a session, the hooks that ran are those
    registered before its first end, in order of registration, each with the session's lease. *)
Theorem session_fires_once {H} lease ttl (cs : list (SessionCall H)) :
  mjoin (run_calls session_step (Session.new lease ttl) cs).1 =
  if existsb (λ c, match c with Done => true | _ => false end) cs then (λ h, (h, lease)) <$> before_done cs else [].
Proof. by rewrite session_fires_from. Qed.

(** Nothing tells participants apart: one that waits twice passes a barrier of two. *)
Lemma barrier_counts_calls : (Barrier.wait (Barrier.wait (Barrier.new 2)).2).1 = true.
Proof. vm_compute. reflexivity. Qed.

(** ** The priority queue *)

Inductive PqCall : Set := Enqueue (p : u64) (v : bytes) | Dequeue.
Definition pq_step (q : PriorityQueue) (c : PqCall) : option (result SessionError (u64 * bytes)) * PriorityQueue :=
  match c with
  | Enqueue p v => (None, (PriorityQueue.enqueue q p v).2)
  | Dequeue =>
      let '(r, q) := PriorityQueue.dequeue q in
      (Some match r with Ok i => Ok (pq_priority i, pq_value i) | Err e => Err e end, q)
  end.

(** The promise: an item goes behind every item of its priority or a smaller one. *)
Fixpoint place (p : u64) (v : bytes) (q : list (u64 * bytes)) : list (u64 * bytes) :=
  match q with
  | [] => [(p, v)]
  | x :: q' => if x.1 <=? p then x :: place p v q' else (p, v) :: q
  end.
Definition line_step (q : list (u64 * bytes)) (c : PqCall) : option (result SessionError (u64 * bytes)) * list (u64 * bytes) :=
  match c, q with
  | Enqueue p v, _ => (None, place p v q)
  | Dequeue, [] => (Some (Err QueueEmpty), [])
  | Dequeue, x :: q => (Some (Ok x), q)
  end.

Definition pq_entry (e : (u64 * u64) * bytes) : u64 * bytes := (e.1.1, e.2).
Record in_line (n : nat) (q : PriorityQueue) (l : list (u64 * bytes)) : Prop := {
  il_ordered : ordered (pq_inner q);
  il_entries : pq_entry <$> pq_inner q = l;
  il_seq : Forall (λ e, e.1.2 < pq_next q) (pq_inner q);
  il_room : pq_next q + N.of_nat n < u64_modulus
}.

Lemma insert_place p seq v (m : list ((u64 * u64) * bytes)) : Forall (λ e, e.1.2 < seq) m →
  pq_entry <$> BTreeMap.insert (p, seq) v m = place p v (pq_entry <$> m).
Proof.
  induction 1 as [|[[p' s'] v'] m Hs _ IH]; [done|]. simpl in *. destruct (N.leb_spec p' p).
  - assert ((p <? p') || (p =? p') && (seq <? s') = false) as ->.
    { apply orb_false_iff. split; [apply N.ltb_ge; lia|]. apply andb_false_iff. right. apply N.ltb_ge. lia. }
    rewrite decide_False by (intros [= -> ->]; lia). by rewrite fmap_cons, IH.
  - assert ((p <? p') = true) as -> by (apply N.ltb_lt; lia). done.
Qed.

Lemma pq_step_line n q l c : in_line (S n) q l →
  (pq_step q c).1 = (line_step l c).1 ∧ in_line n (pq_step q c).2 (line_step l c).2.
Proof.
  intros [Ho <- Hs Hr]. destruct c as [p v|]; simpl.
  - split; [done|]. rewrite (u64_add_small (pq_next q) 1) by lia. split; simpl; [by apply ordered_insert|by apply insert_place| |lia].
    apply Forall_forall. intros e He. apply elem_of_insert in He as [->|He]; [simpl; lia|]. eapply Forall_forall in Hs; [|exact He]. simpl in Hs. lia.
  - unfold PriorityQueue.dequeue. destruct (pq_inner q) as [|[[p e] v] m] eqn:E; simpl.
    + split; [done|]. split; rewrite ?E; try done. lia.
    + rewrite remove_first by done. inversion Ho; inversion Hs; subst. split; [done|]. split; simpl; try done. lia.
Qed.

(** The queue delivers in order.  The items come out by priority, the smallest first, and
    those of one priority in the order in which they went in. *)
Theorem pq_in_order (calls : list PqCall) :
  vlen calls < u64_modulus →
  (run_calls pq_step PriorityQueue.new calls).1 = (run_calls line_step [] calls).1.
Proof.
  intros Hlen. apply (run_calls_refines pq_step line_step in_line calls 0); [intros; by apply pq_step_line|].
  split; simpl; try done; [constructor|]. unfold vlen in Hlen. lia.
Qed.
Lemma pq_in_order_witness :
  (run_calls pq_step PriorityQueue.new [Enqueue 5 [1]; Enqueue 2 [2]; Enqueue 5 [3]; Dequeue; Dequeue; Dequeue; Dequeue]).1 =
  [None; None; None; Some (Ok (2, [2])); Some (Ok (5, [1])); Some (Ok (5, [3])); Some (Err QueueEmpty)].
Proof.
  rewrite (pq_in_order [Enqueue 5 [1]; Enqueue 2 [2]; Enqueue 5 [3]; Dequeue; Dequeue; Dequeue; Dequeue]); vm_compute; reflexivity.
Defined.

(** ** Transactions are serializable *)

(** A transaction between the writes of others: [seen] are its reads of the store, [answers]
    what its reads returned. *)
Inductive TxEvent : Type :=
| Get (k : bytes)
| Put (k v : bytes)
| OtherPut (k v : bytes)
| OtherCommit (t : StmTxn).
Record TxRun : Type := mkTxRun {
  tr_store : StmStore;
  tr_txn : StmTxn;
  tr_answers : list (option bytes);
  tr_seen : list (bytes * option bytes)
}.

Definition own (e : TxEvent) : bool := match e with Get _ | Put _ _ => true | _ => false end.
Definition tx_step (c : TxRun) (e : TxEvent) : TxRun :=
  match c, e with
  | mkTxRun s t ans seen, Get k =>
      let '(a, t') := StmTxn.get s t k in
      mkTxRun s t' (ans ++ [a]) (if decide (is_Some (tx_writes t !! k)) then seen else seen ++ [(k, a)])
  | mkTxRun s t ans seen, Put k v => mkTxRun s (StmTxn.put t k v) ans seen
  | mkTxRun s t ans seen, OtherPut k v => mkTxRun (StmStore.put_unchecked s k v) t ans seen
  | mkTxRun s t ans seen, OtherCommit t' => mkTxRun (StmTxn.commit s t').2 t ans seen
  end.
Definition tx_start (s : StmStore) : TxRun := mkTxRun s StmStore.begin [] [].
Definition tx_run (s : StmStore) (es : list TxEvent) : TxRun := foldl tx_step (tx_start s) es.

(** Every key can be written [n] more times before its version wraps. *)
Definition version_room (n : nat) (m : gmap bytes VersionedValue) : Prop :=
  N.of_nat n < u64_modulus ∧ ∀ k vv, m !! k = Some vv → vv_version vv + N.of_nat n < u64_modulus.

(** A version at which [k] once had the value [v] *)
Definition dated (m : gmap bytes VersionedValue) (k : bytes) (ver : u64) (v : bytes) : Prop :=
  ∃ vv, m !! k = Some vv ∧ ver ≤ vv_version vv ∧ (ver = vv_version vv → vv_value vv = v).

Lemma lookup_writes (ws : list (bytes * bytes)) (m : gmap bytes VersionedValue) k : NoDup ws.*1 →
  foldl (λ m w, write_entry m w.1 w.2) m ws !! k =
  match (list_to_map ws : gmap bytes bytes) !! k with
  | Some v => Some (mkVersionedValue v (default 0 (vv_version <$> m !! k) +w 1))
  | None => m !! k
  end.
Proof.
  revert m. induction ws as [|[k' v'] ws IH]; intros m Hnd; [done|]. simpl in *. apply NoDup_cons in Hnd as [Hn Hnd].
  rewrite IH by done. unfold write_entry. destruct (decide (k = k')) as [->|Hne].
  - rewrite (not_elem_of_list_to_map_1 _ k') by done. by rewrite !lookup_insert_eq.
  - by rewrite !lookup_insert_ne by done.
Qed.

(** A write of others: every key keeps its entry or gets the next version. *)
Definition overwrites (m m' : gmap bytes VersionedValue) : Prop :=
  ∀ k, m' !! k = m !! k ∨ ∃ v, m' !! k = Some (mkVersionedValue v (default 0 (vv_version <$> m !! k) +w 1)).

Lemma overwrites_step c e : overwrites (stm_state (tr_store c)) (stm_state (tr_store (tx_step c e))).
Proof.
  destruct c as [s t ans seen], e as [k|k v|k v|t']; simpl; intros k'.
  - destruct (StmTxn.get s t k). by left.
  - by left.
  - unfold write_entry. destruct (decide (k' = k)) as [->|Hne]; [right; exists v; by rewrite lookup_insert_eq|left; by rewrite lookup_insert_ne].
  - unfold StmTxn.commit. destruct (existsb _ _); simpl; [by left|]. rewrite lookup_writes by apply NoDup_fst_map_to_list.
    rewrite list_to_map_to_list. destruct (tx_writes t' !! k') as [v|]; [right; by exists v|by left].
Qed.

Lemma overwrites_room n m m' : overwrites m m' → version_room (S n) m → version_room n m'.
Proof.
  intros Ho [Hn Hr]. split; [lia|]. intros k vv' Hk. destruct (Ho k) as [E|[v E]]; rewrite E in Hk.
  - specialize (Hr _ _ Hk). lia.
  - injection Hk as <-. simpl. destruct (m !! k) as [vv|] eqn:Hm; simpl; [specialize (Hr _ _ Hm)|]; rewrite u64_add_small by lia; lia.
Qed.
Lemma overwrites_dated n m m' k ver v : overwrites m m' → version_room (S n) m → dated m k ver v → dated m' k ver v.
Proof.
  intros Ho [_ Hr] (vv & Hk & Hle & Hv). specialize (Hr _ _ Hk). destruct (Ho k) as [E|[v' E]]; [exists vv; by rewrite E|].
  rewrite Hk in E. simpl in E. rewrite u64_add_small in E by lia. eexists. split; [exact E|]. simpl. split; lia.
Qed.

(** The reads recorded are those of the last time a key was seen. *)
Record reads_ok (n : nat) (c : TxRun) : Prop := {
  ro_room : version_room n (stm_state (tr_store c));
  ro_read k ver : tx_reads (tr_txn c) !! k = Some ver → ∃ v, (k, Some v) ∈ tr_seen c ∧ dated (stm_state (tr_store c)) k ver v;
  ro_seen k v : (k, Some v) ∈ tr_seen c → is_Some (tx_reads (tr_txn c) !! k)
}.

Lemma tx_step_reads n c e : reads_ok (S n) c → reads_ok n (tx_step c e).
Proof.
  intros [Hroom Hread Hseen]. pose proof (overwrites_step c e) as Ho. split; [by eapply overwrites_room| |].
  - assert (Hd : ∀ k ver, tx_reads (tr_txn c) !! k = Some ver → ∃ v, (k, Some v) ∈ tr_seen c ∧ dated (stm_state (tr_store (tx_step c e))) k ver v).
    { intros k ver Hk. destruct (Hread _ _ Hk) as (v & Hin & Hdt). exists v. split; [done|]. by eapply overwrites_dated. }
    intros k ver. destruct c as [s t ans seen], e as [k0|k0 v0|k0 v0|t']; simpl in *; [|by apply Hd|by apply Hd|by apply Hd].
    unfold StmTxn.get in *. destruct (tx_writes t !! k0) as [buf|] eqn:Hw; simpl in *; [by apply Hd|].
    destruct (stm_state s !! k0) as [vv|] eqn:Hs; simpl in *.
    + intros [[<- <-]|[Hne Hk]]%lookup_insert_Some.
      * exists (vv_value vv). split; [set_solver|]. by exists vv.
      * destruct (Hd _ _ Hk) as (v & ? & ?). exists v. split; [set_solver|done].
    + intros Hk. destruct (Hd _ _ Hk) as (v & ? & ?). exists v. split; [set_solver|done].
  - intros k v. destruct c as [s t ans seen], e as [k0|k0 v0|k0 v0|t']; simpl in *; [|by apply Hseen|by apply Hseen|by apply Hseen].
    unfold StmTxn.get. destruct (tx_writes t !! k0) as [buf|] eqn:Hw; simpl; [by apply Hseen|].
    destruct (stm_state s !! k0) as [vv|] eqn:Hs; simpl; rewrite elem_of_app, list_elem_of_singleton.
    + destruct (decide (k = k0)) as [->|Hne]; [by rewrite lookup_insert_eq|]. rewrite lookup_insert_ne by done. intros [Hin|[= -> _]]; [by eapply Hseen|done].
    + intros [Hin|[=]]. by eapply Hseen.
Qed.

Lemma tx_run_reads n s es : version_room (length es + n) (stm_state s) → reads_ok n (tx_run s es).
Proof.
  unfold tx_run. intros Hr. assert (H : reads_ok (length es + n) (tx_start s)) by (split; simpl; [done|done|set_solver]).
  clear Hr. revert H. generalize (tx_start s) as c. induction es as [|e es IH]; intros c H; [done|]. simpl in *. by apply IH, tx_step_reads.
Qed.

Lemma commit_valid s t s' k ver : StmTxn.commit s t = (Ok tt, s') → tx_reads t !! k = Some ver →
  default 0 (vv_version <$> stm_state s !! k) = ver.
Proof.
  unfold StmTxn.commit. destruct (existsb _ _) eqn:Hb; [done|]. intros _ Hk.
  destruct (decide (default 0 (vv_version <$> stm_state s !! k) = ver)) as [|Hne]; [done|].
  apply not_true_iff_false in Hb. destruct Hb. apply existsb_exists. exists (k, ver). split; [by apply list_elem_of_In, elem_of_map_to_list|].
  unfold StmTxn.stale. simpl. by apply negb_true_iff, N.eqb_neq.
Qed.

(** The store [m] has, for every key seen, the value that was seen. *)
Definition agrees (seen : list (bytes * option bytes)) (m : gmap bytes VersionedValue) : Prop :=
  ∀ k a, (k, a) ∈ seen → ∃ vv, m !! k = Some vv ∧ a = Some (vv_value vv).

(** Alone on such a store, the transaction does what it did. *)
Record replayed (sf : StmStore) (c r : TxRun) : Prop := {
  rp_store : tr_store r = sf;
  rp_answers : tr_answers r = tr_answers c;
  rp_writes : tx_writes (tr_txn r) = tx_writes (tr_txn c);
  rp_reads k : tx_reads (tr_txn r) !! k = if decide (k ∈ (tr_seen c).*1) then vv_version <$> stm_state sf !! k else None
}.
Lemma replay_step sf c r e : replayed sf c r → agrees (tr_seen (tx_step c e)) (stm_state sf) →
  replayed sf (tx_step c e) (if own e then tx_step r e else r).
Proof.
  destruct c as [s t ans seen], r as [s' t' ans' seen']. intros [Hs Ha Hw Hr]. simpl in *. subst s' ans'.
  destruct e as [k|k v|k v|tx]; simpl; intros Hag; [|split; simpl; try done; by rewrite Hw|by split|by split].
  unfold StmTxn.get in *. rewrite Hw. destruct (tx_writes t !! k) as [buf|] eqn:Hk; simpl in *; [by split|].
  destruct (Hag k (match stm_state s !! k with Some vv => Some (vv_value vv) | None => None end)) as (vv & Hvv & Hval).
  { destruct (stm_state s !! k); set_solver. }
  rewrite Hvv. destruct (stm_state s !! k) as [vs|]; [|done]. injection Hval as Hval. simpl.
  split; simpl; [done|by rewrite Hval|done|]. intros k'. rewrite fmap_app. simpl.
  destruct (decide (k' = k)) as [->|Hne]; [rewrite lookup_insert_eq, Hvv, decide_True by set_solver; done|].
  rewrite lookup_insert_ne by done. rewrite Hr. apply decide_ext. set_solver.
Qed.

Lemma seen_step c e : tr_seen c ⊆ tr_seen (tx_step c e).
Proof. destruct c as [s t ans seen], e; simpl; try done. destruct (StmTxn.get s t k). simpl. case_decide; set_solver. Qed.

Lemma replay_run sf s es : agrees (tr_seen (tx_run s es)) (stm_state sf) → replayed sf (tx_run s es) (tx_run sf (filter own es)).
Proof.
  unfold tx_run. induction es as [|e es IH] using rev_ind; intros Hag; [by split|]. rewrite foldl_app in *. simpl in *.
  assert (Hr := IH ltac:(intros k a Hin; apply Hag, seen_step, Hin)). pose proof (replay_step _ _ _ e Hr Hag) as H.
  rewrite filter_app, foldl_app. rewrite filter_cons. destruct (own e); simpl; [|done]. done.
Qed.

(** C6: committed transactions are serializable.  If a transaction, run between any writes and
    commits of others, commits, and it read no absent key and the same value each time it read
    a key, then alone on the store as it was when it committed it would have read the same
    answers and committed the same state. *)
Theorem stm_serializable s0 es s' :
  version_room (length es) (stm_state s0) →
  let c := tx_run s0 es in
  StmTxn.commit (tr_store c) (tr_txn c) = (Ok tt, s') →
  (∀ k a, (k, a) ∈ tr_seen c → is_Some a) →
  (∀ k a b, (k, a) ∈ tr_seen c → (k, b) ∈ tr_seen c → a = b) →
  let r := tx_run (tr_store c) (filter own es) in
  tr_answers r = tr_answers c ∧ tr_store r = tr_store c ∧ StmTxn.commit (tr_store c) (tr_txn r) = (Ok tt, s').
Proof.
  intros Hroom c Hc Hsome Hsame r. rewrite <- (Nat.add_0_r (length es)) in Hroom. apply tx_run_reads in Hroom as [_ Hread Hseen]. fold c in Hread, Hseen.
  assert (Hag : agrees (tr_seen c) (stm_state (tr_store c))).
  { intros k a Hin. destruct (Hsome _ _ Hin) as [v ->]. destruct (Hseen _ _ Hin) as [ver Hver].
    destruct (Hread _ _ Hver) as (v' & Hin' & vv & Hk & _ & Hv). pose proof (commit_valid _ _ _ _ _ Hc Hver) as Hval.
    rewrite Hk in Hval. exists vv. split; [done|]. rewrite (Hv (eq_sym Hval)). by eapply Hsame. }
  destruct (replay_run (tr_store c) s0 es Hag) as [Hs Ha Hw Hr]. fold c r in Hs, Ha, Hw, Hr.
  split_and!; [done|done|]. rewrite <- Hc. f_equal. destruct (tr_txn r) as [rr wr] eqn:Er, (tr_txn c) as [rc wc] eqn:Ec. simpl in *. f_equal; [|done].
  apply map_eq. intros k. rewrite Hr. case_decide as Hin.
  - apply list_elem_of_fmap in Hin as ([k' a] & -> & Hin). destruct (Hsome _ _ Hin) as [v ->]. destruct (Hseen _ _ Hin) as [ver Hver].
    destruct (Hag _ _ Hin) as (vv & Hk & _). pose proof (commit_valid _ _ _ k' ver Hc Hver) as Hval. simpl in *. rewrite Hk in *. simpl in *. congruence.
  - destruct (rc !! k) as [ver|] eqn:E; [|done]. destruct (Hread _ _ E) as (v & Hin' & _). destruct Hin. by apply (list_elem_of_fmap_2 fst) in Hin'.
Qed.
Lemma stm_serializable_witness :
  let a := str "a" in let b := str "b" in
  let s0 := StmStore.put_unchecked StmStore.new a [1] in
  let es := [Get a; OtherPut b [9]; Put a [2]; Get a] in
  let c := tx_run s0 es in
  ∃ s', StmTxn.commit (tr_store c) (tr_txn c) = (Ok tt, s') ∧
  tr_answers (tx_run (tr_store c) (filter own es)) = [Some [1]; Some [2]].
Proof.
  intros a b s0 es c. destruct (StmTxn.commit (tr_store c) (tr_txn c)) as [[[]|e] s'] eqn:E; [|vm_compute in E; discriminate E].
  exists s'. split; [reflexivity|].
  assert (Hseen : tr_seen c = [(a, Some [1])]) by (vm_compute; reflexivity).
  destruct (stm_serializable s0 es s') as [H _].
  - split; [vm_compute; reflexivity|]. intros k vv Hk. unfold s0, StmStore.put_unchecked, write_entry in Hk. simpl in Hk.
    apply lookup_insert_Some in Hk as [[_ <-]|[_ Hk]]; [vm_compute; reflexivity|]. rewrite lookup_empty in Hk. discriminate Hk.
  - exact E.
  - fold c. rewrite Hseen. intros k x Hin%list_elem_of_singleton. injection Hin as -> ->. by exists [1].
  - fold c. rewrite Hseen. intros k x y Hx%list_elem_of_singleton Hy%list_elem_of_singleton. congruence.
  - fold c in H. rewrite H. vm_compute. reflexivity.
Defined.

(** An absent key is not among the reads: it can be written meanwhile, and the transaction
    that found it absent commits. *)
Lemma absent_read_unnoticed :
  let c := tx_run StmStore.new [Get (str "a"); OtherPut (str "a") [1]; Put (str "b") [2]] in
  tr_answers c = [None] ∧ is_ok (StmTxn.commit (tr_store c) (tr_txn c)).1 = true.
Proof. split; vm_compute; reflexivity. Qed.
(** A second read of a key replaces the version of the first: the transaction saw two values
    and commits. *)
Lemma reread_unnoticed :
  let c := tx_run (StmStore.put_unchecked StmStore.new (str "a") [1]) [Get (str "a"); OtherPut (str "a") [2]; Get (str "a")] in
  tr_answers c = [Some [1]; Some [2]] ∧ is_ok (StmTxn.commit (tr_store c) (tr_txn c)).1 = true.
Proof. split; vm_compute; reflexivity. Qed.
