(* ===== verification/EtcdAuth.v ===== *)
(** * Users, roles and tokens

    The authentication methods of [store.rs].  [bcrypt] is a parameter: [hash] takes the
    random salt explicitly and [verify] is only known to accept the password a hash was
    made from.  The token of [authenticate], a fresh UUID, is an argument. *)

From S2P Require Import Prelude Bytes Effects EtcdTypes EtcdStore.

Class Bcrypt : Type := {
  bcrypt_hash (salt : N) (password : bytes) (cost : N) : result bytes bytes;
  bcrypt_verify (password hash : bytes) : result bytes bool
}.
Class BcryptLaws `{Bcrypt} : Prop := {
  bcrypt_verify_hash salt password cost h :
    bcrypt_hash salt password cost = Ok h → bcrypt_verify password h = Ok true
}.

Definition BCRYPT_COST : N := 12.

Definition auth_enable : Store (EtcdResult ResponseHeader) :=
  was ← gets auth_enabled;
  modify (set_auth_enabled true);;
  if (was : bool) then mret (Err AuthAlreadyEnabled) else h ← header; mret (Ok h).

Definition auth_disable : Store (EtcdResult ResponseHeader) :=
  was ← gets auth_enabled;
  modify (set_auth_enabled false);;
  if negb was then mret (Err AuthNotEnabled) else h ← header; mret (Ok h).

Definition put_user (n : bytes) (u : AuthUser) : Store unit :=
  modify (λ s, set_users (<[n := u]> (users s)) s).
Definition put_role (n : bytes) (r : AuthRole) : Store unit :=
  modify (λ s, set_roles (<[n := r]> (roles s)) s).

Section Auth.
Context `{Bcrypt}.

(** The password check of [authenticate]. *)
Definition check_password (s : KvStore) (name password : bytes) : EtcdResult unit :=
  if auth_enabled s then
    let? user := ok_or (users s !! name) (UserNotFound name) in
    match bcrypt_verify password (u_password user) with
    | Err e => Err (Internal e)
    | Ok valid => if valid then Ok tt else Err InvalidPassword
    end
  else Ok tt.

Definition authenticate (uuid : bytes) (name password : bytes) :
    Store (EtcdResult (ResponseHeader * bytes)) :=
  s ← get;
  match check_password s name password with
  | Err e => mret (Err e)
  | Ok _ =>
      modify (λ s, set_auth_tokens (<[uuid := name]> (auth_tokens s)) s);;
      h ← header;
      mret (Ok (h, uuid))
  end.

Definition user_add (salt : N) (name password : bytes) : Store (EtcdResult ResponseHeader) :=
  s ← get;
  match users s !! name with
  | Some _ => mret (Err (UserAlreadyExists name))
  | None =>
      match bcrypt_hash salt password BCRYPT_COST with
      | Err e => mret (Err (Internal e))
      | Ok hashed => put_user name (mkAuthUser name hashed []);; h ← header; mret (Ok h)
      end
  end.

Definition user_change_password (salt : N) (name password : bytes) : Store (EtcdResult ResponseHeader) :=
  s ← get;
  match users s !! name with
  | None => mret (Err (UserNotFound name))
  | Some user =>
      match bcrypt_hash salt password BCRYPT_COST with
      | Err e => mret (Err (Internal e))
      | Ok hashed =>
          put_user name (mkAuthUser (u_name user) hashed (u_roles user));; h ← header; mret (Ok h)
      end
  end.
End Auth.

Definition user_delete (name : bytes) : Store (EtcdResult ResponseHeader) :=
  s ← get;
  match users s !! name with
  | None => mret (Err (UserNotFound name))
  | Some _ => modify (λ s, set_users (delete name (users s)) s);; h ← header; mret (Ok h)
  end.

Definition user_get (name : bytes) : Store (EtcdResult (ResponseHeader * list bytes)) :=
  s ← get;
  match users s !! name with
  | None => mret (Err (UserNotFound name))
  | Some user => h ← header; mret (Ok (h, u_roles user))
  end.

Definition user_list : Store (ResponseHeader * list bytes) :=
  s ← get; h ← header; mret (h, merge_sort bytes_le (fst <$> map_to_list (users s))).

Definition user_grant_role (user_name role : bytes) : Store (EtcdResult ResponseHeader) :=
  s ← get;
  match roles s !! role with
  | None => mret (Err (RoleNotFound role))
  | Some _ =>
      match users s !! user_name with
      | None => mret (Err (UserNotFound user_name))
      | Some user =>
          (if decide (role ∈ u_roles user) then skip
           else put_user user_name (mkAuthUser (u_name user) (u_password user) (u_roles user ++ [role])));;
          h ← header; mret (Ok h)
      end
  end.

Definition user_revoke_role (name role : bytes) : Store (EtcdResult ResponseHeader) :=
  s ← get;
  match users s !! name with
  | None => mret (Err (UserNotFound name))
  | Some user =>
      if decide (role ∈ u_roles user) then
        put_user name (mkAuthUser (u_name user) (u_password user) (filter (.≠ role) (u_roles user)));;
        h ← header; mret (Ok h)
      else mret (Err RoleNotGranted)
  end.

Definition role_add (name : bytes) : Store (EtcdResult ResponseHeader) :=
  s ← get;
  match roles s !! name with
  | Some _ => mret (Err (RoleAlreadyExists name))
  | None => put_role name (mkAuthRole name []);; h ← header; mret (Ok h)
  end.

Definition role_delete (role : bytes) : Store (EtcdResult ResponseHeader) :=
  s ← get;
  match roles s !! role with
  | None => mret (Err (RoleNotFound role))
  | Some _ => modify (λ s, set_roles (delete role (roles s)) s);; h ← header; mret (Ok h)
  end.

Definition role_get (role : bytes) : Store (EtcdResult (ResponseHeader * bytes * list Permission)) :=
  s ← get;
  match roles s !! role with
  | None => mret (Err (RoleNotFound role))
  | Some r => h ← header; mret (Ok (h, r_name r, r_key_permission r))
  end.

Definition role_list : Store (ResponseHeader * list bytes) :=
  s ← get; h ← header; mret (h, merge_sort bytes_le (fst <$> map_to_list (roles s))).

(** [p.key == key && p.range_end == range_end] *)
Definition same_range (key : bytes) (range_end : option bytes) (p : Permission) : Prop :=
  p_key p = key ∧ p_range_end p = range_end.
#[export] Instance same_range_dec key range_end p : Decision (same_range key range_end p).
Proof. unfold same_range. apply _. Defined.

Definition role_grant_permission (name : bytes) (perm : Permission) : Store (EtcdResult ResponseHeader) :=
  s ← get;
  match roles s !! name with
  | None => mret (Err (RoleNotFound name))
  | Some r =>
      let kept := filter (λ p, ¬ same_range (p_key perm) (p_range_end perm) p) (r_key_permission r) in
      put_role name (mkAuthRole (r_name r) (kept ++ [perm]));; h ← header; mret (Ok h)
  end.

Definition role_revoke_permission (role key : bytes) (range_end : option bytes) :
    Store (EtcdResult ResponseHeader) :=
  s ← get;
  match roles s !! role with
  | None => mret (Err (RoleNotFound role))
  | Some r =>
      let kept := filter (λ p, ¬ same_range key range_end p) (r_key_permission r) in
      put_role role (mkAuthRole (r_name r) kept);;
      if vlen kept =? vlen (r_key_permission r) then mret (Err PermissionAlreadyGranted)
      else h ← header; mret (Ok h)
  end.

Definition covers (perm : PermType) (key : bytes) (p : Permission) : bool :=
  (bool_decide (p_type p = perm) || bool_decide (p_type p = PReadwrite)) &&
  match p_range_end p with
  | Some range_end => in_range (p_key p) range_end key
  | None => bool_decide (key = p_key p)
  end.

(** The loops over the roles of a user and their permissions. *)
Definition role_allows (s : KvStore) (perm : PermType) (key : bytes) (role : bytes) : bool :=
  match roles s !! role with
  | Some r => existsb (covers perm key) (r_key_permission r)
  | None => false
  end.

Definition check_auth_token (token : option bytes) (key : bytes) (perm : PermType) : Store (EtcdResult unit) :=
  s ← get;
  mret (
    if negb (auth_enabled s) then Ok tt
    else
      let? token := ok_or token InvalidToken in
      let? username := ok_or (auth_tokens s !! token) InvalidToken in
      if bool_decide (username = str "root") then Ok tt
      else
        let? user := ok_or (users s !! username) (UserNotFound username) in
        if existsb (role_allows s perm key) (u_roles user) then Ok tt else Err PermissionDenied).

(** ** Access *)

(** Access control.  With authentication on, [check_auth_token] accepts exactly the
    tokens that belong to [root] or to a user one of whose roles has a permission of the
    requested kind (or read-write) whose key or range covers the key; with authentication
    off it accepts everything. *)
Theorem check_auth_token_iff token key perm s :
  res (check_auth_token token key perm) s = Ok tt ↔
  auth_enabled s = false ∨
  ∃ t username, token = Some t ∧ auth_tokens s !! t = Some username ∧
    (username = str "root" ∨
     ∃ user role r p, users s !! username = Some user ∧ role ∈ u_roles user ∧
       roles s !! role = Some r ∧ p ∈ r_key_permission r ∧
       (p_type p = perm ∨ p_type p = PReadwrite) ∧
       match p_range_end p with
       | Some hi => in_range (p_key p) hi key = true
       | None => key = p_key p
       end).
Proof.
  assert (Hcov : ∀ p, covers perm key p = true ↔ (p_type p = perm ∨ p_type p = PReadwrite) ∧
    match p_range_end p with Some hi => in_range (p_key p) hi key = true | None => key = p_key p end).
  { intros p. unfold covers. rewrite andb_true_iff, orb_true_iff, !bool_decide_eq_true.
    destruct (p_range_end p); [done|]. by rewrite bool_decide_eq_true. }
  unfold check_auth_token, res, mbind, M_bind. simpl. destruct (auth_enabled s); simpl; [|naive_solver].
  destruct token as [t|]; simpl; [|naive_solver].
  destruct (auth_tokens s !! t) as [username|] eqn:Ht; simpl; [|naive_solver].
  case_bool_decide as Hroot; [naive_solver|].
  destruct (users s !! username) as [user|] eqn:Hu; simpl; [|naive_solver].
  destruct (existsb (role_allows s perm key) (u_roles user)) eqn:Hex.
  - split; [|done]. intros _. right. exists t, username. split_and!; [done..|]. right.
    apply existsb_exists in Hex as (role & Hin & Hal). unfold role_allows in Hal.
    destruct (roles s !! role) as [r|] eqn:Hr; [|done]. apply existsb_exists in Hal as (p & Hp & [Hc1 Hc2]%Hcov).
    exists user, role, r, p. rewrite !list_elem_of_In. done.
  - split; [done|]. intros [?|(t' & u' & [= <-] & ? & [?|(user' & role & r & p & Hu' & Hin & Hr & Hp & Hc1 & Hc2)])];
      simplify_eq. exfalso. apply not_true_iff_false in Hex. apply Hex, existsb_exists. exists role.
    split; [by apply list_elem_of_In|]. unfold role_allows. rewrite Hr. apply existsb_exists.
    exists p. split; [by apply list_elem_of_In|]. by apply Hcov.
Qed.

Section AuthTheorems.
Context `{BcryptLaws}.

(** Passwords.  With authentication on, [authenticate] hands out a token exactly to
    callers whose password the stored hash verifies; otherwise it changes nothing and says
    why. *)
Theorem authenticate_iff uuid name password s :
  auth_enabled s = true →
  let r := res (authenticate uuid name password) s in
  let s' := final (authenticate uuid name password) s in
  match users s !! name with
  | None => r = Err (UserNotFound name) ∧ s' = s
  | Some user =>
      match bcrypt_verify password (u_password user) with
      | Ok true => r = Ok (header_of s, uuid) ∧ auth_tokens s' = <[uuid := name]> (auth_tokens s)
      | Ok false => r = Err InvalidPassword ∧ s' = s
      | Err e => r = Err (Internal e) ∧ s' = s
      end
  end.
Proof.
  intros Hon. unfold authenticate, check_password, res, final, mbind, M_bind. simpl. rewrite Hon.
  destruct (users s !! name) as [user|]; simpl; [|done].
  destruct (bcrypt_verify password (u_password user)) as [[]|e]; done.
Qed.

(** A password round trip.  A user added with a password, or given a new one, can
    authenticate with it. *)
Theorem password_roundtrip salt uuid name password s hdr :
  (res (user_add salt name password) s = Ok hdr →
   ∃ hdr', res (authenticate uuid name password) (final (user_add salt name password) s) = Ok (hdr', uuid)) ∧
  (res (user_change_password salt name password) s = Ok hdr →
   ∃ hdr', res (authenticate uuid name password) (final (user_change_password salt name password) s)
           = Ok (hdr', uuid)).
Proof.
  unfold user_add, user_change_password, authenticate, check_password, res, final, mbind, M_bind. simpl.
  split.
  - destruct (users s !! name); simpl; [done|].
    destruct (bcrypt_hash salt password BCRYPT_COST) as [h|] eqn:Hh; simpl; [|done]. intros _.
    destruct (auth_enabled s); simpl; [|by eexists]. rewrite lookup_insert_eq. simpl.
    rewrite (bcrypt_verify_hash _ _ _ _ Hh). by eexists.
  - destruct (users s !! name) as [user|]; simpl; [|done].
    destruct (bcrypt_hash salt password BCRYPT_COST) as [h|] eqn:Hh; simpl; [|done]. intros _.
    destruct (auth_enabled s); simpl; [|by eexists]. rewrite lookup_insert_eq. simpl.
    rewrite (bcrypt_verify_hash _ _ _ _ Hh). by eexists.
Qed.

(** Tokens issued while authentication is off.  Anyone can then obtain a token for any
    name with any password; once authentication is switched on the token obtained for
    [root] opens every key. *)
Theorem root_token_before_enable uuid password key perm s :
  auth_enabled s = false →
  let s1 := final (authenticate uuid (str "root") password) s in
  let s2 := final auth_enable s1 in
  auth_enabled s2 = true ∧ res (check_auth_token (Some uuid) key perm) s2 = Ok tt.
Proof.
  intros Hoff. unfold authenticate, check_password, auth_enable, check_auth_token, res, final, mbind, M_bind.
  simpl. rewrite Hoff. simpl. rewrite Hoff. simpl. by rewrite lookup_insert_eq.
Qed.
End AuthTheorems.

(** ** Well-formed users and roles *)

(** Names agree with the keys, a user has a role at most once, and a role has at most one
    permission for a key range. *)
Record auth_wf (s : KvStore) : Prop := {
  aw_users n u : users s !! n = Some u → u_name u = n ∧ NoDup (u_roles u);
  aw_roles n r : roles s !! n = Some r →
    r_name r = n ∧ NoDup ((λ p, (p_key p, p_range_end p)) <$> r_key_permission r)
}.

Inductive AuthCommand : Type :=
| AEnable | ADisable
| AAuthenticate (uuid name password : bytes)
| AUserAdd (salt : N) (name password : bytes)
| AUserDelete (name : bytes)
| AUserChangePassword (salt : N) (name password : bytes)
| AUserGrantRole (name role : bytes)
| AUserRevokeRole (name role : bytes)
| ARoleAdd (name : bytes)
| ARoleDelete (name : bytes)
| ARoleGrant (name : bytes) (perm : Permission)
| ARoleRevoke (name key : bytes) (range_end : option bytes).

Definition auth_exec `{Bcrypt} (c : AuthCommand) : Store unit :=
  match c with
  | AEnable => auth_enable;; skip
  | ADisable => auth_disable;; skip
  | AAuthenticate uuid name password => authenticate uuid name password;; skip
  | AUserAdd salt name password => user_add salt name password;; skip
  | AUserDelete name => user_delete name;; skip
  | AUserChangePassword salt name password => user_change_password salt name password;; skip
  | AUserGrantRole name role => user_grant_role name role;; skip
  | AUserRevokeRole name role => user_revoke_role name role;; skip
  | ARoleAdd name => role_add name;; skip
  | ARoleDelete name => role_delete name;; skip
  | ARoleGrant name perm => role_grant_permission name perm;; skip
  | ARoleRevoke name key range_end => role_revoke_permission name key range_end;; skip
  end.

Lemma put_user_wf n u s : auth_wf s → u_name u = n → NoDup (u_roles u) → auth_wf (final (put_user n u) s).
Proof.
  intros [Hu Hr] Hn Hnd. split; simpl; [|done].
  intros n' u' [[<- <-]|[_ Hl]]%lookup_insert_Some; [done|by apply Hu].
Qed.
Lemma put_role_wf n r s : auth_wf s → r_name r = n →
  NoDup ((λ p, (p_key p, p_range_end p)) <$> r_key_permission r) → auth_wf (final (put_role n r) s).
Proof.
  intros [Hu Hr] Hn Hnd. split; simpl; [done|].
  intros n' r' [[<- <-]|[_ Hl]]%lookup_insert_Some; [done|by apply Hr].
Qed.

Lemma permissions_filter_NoDup (P : Permission → Prop) `{∀ p, Decision (P p)} l :
  NoDup ((λ p, (p_key p, p_range_end p)) <$> l) → NoDup ((λ p, (p_key p, p_range_end p)) <$> filter P l).
Proof. intros Hl. eapply sublist_NoDup; [exact Hl|]. apply fmap_sublist, sublist_filter. Qed.

Lemma auth_exec_wf `{Bcrypt} c s : auth_wf s → auth_wf (final (auth_exec c) s).
Proof.
  intros Hwf. pose proof Hwf as [Hu Hr]. destruct c; unfold auth_exec; rewrite final_then_skip.
  - unfold auth_enable. rewrite final_gets_bind. by destruct (auth_enabled s).
  - unfold auth_disable. rewrite final_gets_bind. by destruct (auth_enabled s).
  - unfold authenticate. rewrite final_get_bind. by destruct (check_password s name password).
  - unfold user_add. rewrite final_get_bind. destruct (users s !! name); [done|].
    destruct (bcrypt_hash _ _ _); [|done]. rewrite final_bind. apply put_user_wf; [done|done|constructor].
  - unfold user_delete. rewrite final_get_bind. destruct (users s !! name); [|done]. split; simpl; [|done].
    intros n u [_ Hl]%lookup_delete_Some. by apply Hu.
  - unfold user_change_password. rewrite final_get_bind. destruct (users s !! name) as [u|] eqn:Hl; [|done].
    destruct (bcrypt_hash _ _ _); [|done]. rewrite final_bind. destruct (Hu _ _ Hl). by apply put_user_wf.
  - unfold user_grant_role. rewrite final_get_bind. destruct (roles s !! role); [|done].
    destruct (users s !! name) as [u|] eqn:Hl; [|done]. rewrite final_bind. destruct (Hu _ _ Hl).
    case_decide as Hin; [done|]. apply put_user_wf; [done|done|]. simpl. apply NoDup_app.
    split_and!; [done|set_solver|apply NoDup_singleton].
  - unfold user_revoke_role. rewrite final_get_bind. destruct (users s !! name) as [u|] eqn:Hl; [|done].
    case_decide; [|done]. rewrite final_bind. destruct (Hu _ _ Hl). apply put_user_wf; [done|done|].
    by apply NoDup_filter.
  - unfold role_add. rewrite final_get_bind. destruct (roles s !! name); [done|].
    rewrite final_bind. apply put_role_wf; [done|done|constructor].
  - unfold role_delete. rewrite final_get_bind. destruct (roles s !! name); [|done]. split; simpl; [done|].
    intros n u [_ Hl]%lookup_delete_Some. by apply Hr.
  - unfold role_grant_permission. rewrite final_get_bind. destruct (roles s !! name) as [r|] eqn:Hl; [|done].
    rewrite final_bind. destruct (Hr _ _ Hl). apply put_role_wf; [done|done|]. simpl.
    rewrite fmap_app. apply NoDup_app. split_and!; [by apply permissions_filter_NoDup| |apply NoDup_singleton].
    intros x (p & -> & [Hp _]%list_elem_of_filter)%list_elem_of_fmap. simpl.
    rewrite list_elem_of_singleton. intros [= Hk He]. by apply Hp.
  - unfold role_revoke_permission. rewrite final_get_bind. destruct (roles s !! name) as [r|] eqn:Hl; [|done].
    rewrite final_bind. destruct (Hr _ _ Hl). destruct (_ =? _); apply put_role_wf; try done;
      by apply permissions_filter_NoDup.
Qed.

(** Well-formedness of the access tables is kept by every authentication command, so
    it holds in every state reached from the initial one by such commands. *)
Theorem auth_wf_reachable `{Bcrypt} now cmds : auth_wf (final (for_each cmds auth_exec) (new now)).
Proof.
  assert (Hrun : ∀ s, auth_wf s → auth_wf (final (for_each cmds auth_exec) s)).
  { induction cmds as [|c cmds IH]; intros s Hs; [done|]. cbn [for_each]. rewrite final_bind.
    by apply IH, auth_exec_wf. }
  apply Hrun. split; intros *; simpl; by rewrite lookup_empty.
Qed.

(** ** A concrete password hash *)

Module AuthExample.
#[local] Instance PlainBcrypt : Bcrypt := {
  bcrypt_hash salt password cost := Ok (salt :: password);
  bcrypt_verify password h := Ok (bool_decide (tail h = password))
}.
#[local] Instance PlainBcryptLaws : BcryptLaws.
Proof. split. intros salt password cost h [= <-]. simpl. by rewrite bool_decide_true. Qed.

Definition alice : KvStore := final (user_add 5 (str "alice") (str "secret")) (final auth_enable (new 0)).

Lemma authenticate_iff_witness :
  res (authenticate (str "t1") (str "alice") (str "secret")) alice = Ok (header_of alice, str "t1") ∧
  res (authenticate (str "t1") (str "alice") (str "guess")) alice = Err InvalidPassword.
Proof.
  assert (Hon : auth_enabled alice = true) by (vm_compute; reflexivity).
  assert (Hu : users alice !! str "alice" = Some (mkAuthUser (str "alice") (5 :: str "secret") []))
    by (vm_compute; reflexivity).
  pose proof (authenticate_iff (str "t1") (str "alice") (str "secret") alice Hon) as H1.
  pose proof (authenticate_iff (str "t1") (str "alice") (str "guess") alice Hon) as H2.
  rewrite Hu in H1, H2. split; [apply H1|apply H2].
Defined.

Lemma password_roundtrip_witness :
  ∃ hdr, res (authenticate (str "t1") (str "alice") (str "secret")) alice = Ok (hdr, str "t1").
Proof.
  apply (password_roundtrip 5 (str "t1") (str "alice") (str "secret") (final auth_enable (new 0)) (mkHeader 1 1 1 1)).
  vm_compute. reflexivity.
Defined.

Lemma root_token_before_enable_witness :
  res (check_auth_token (Some (str "t0")) (str "any") PWrite)
    (final auth_enable (final (authenticate (str "t0") (str "root") (str "guess")) (new 0))) = Ok tt.
Proof. apply (root_token_before_enable (str "t0") (str "guess") (str "any") PWrite (new 0)). vm_compute. reflexivity. Defined.
End AuthExample.
