(* ===== verification/EtcdRbac.v ===== *)
(** * Introspection of permissions in cave-etcd

    [crates/compute/cave-etcd/src/rbac_deeper.rs]: the creation of the root user and role, the
    permissions a user has through its roles, and the question whether a user may access a key.

    [user_can_access] answers what [check_auth_token] of the store decides
    ([introspection_agrees]), for users whose roles all exist and whose permissions have no
    range that ends in the zero byte; such a range is a prefix here and a range there
    ([prefix_permission_disagrees]). *)

From S2P Require Import Prelude Bytes Effects EtcdTypes EtcdStore EtcdAuth EtcdQuota.

Definition ROOT_USER : bytes := str "root".
Definition ROOT_ROLE : bytes := str "root".

Section Root.
Context `{Bcrypt}.
Definition auto_create_root_user_role (salt : N) (password : bytes) : Store (EtcdResult bool) :=
  role ← role_add ROOT_ROLE;
  match (match role with Ok _ => Ok true | Err (RoleAlreadyExists _) => Ok false | Err e => Err e end : EtcdResult bool) with
  | Err e => mret (Err e)
  | Ok created_role =>
      user ← user_add salt ROOT_USER password;
      match (match user with Ok _ => Ok true | Err (UserAlreadyExists _) => Ok false | Err e => Err e end : EtcdResult bool) with
      | Err e => mret (Err e)
      | Ok created_user =>
          _ ← user_grant_role ROOT_USER ROOT_ROLE;
          mret (Ok (created_role || created_user))
      end
  end.
End Root.

(** The triple the permissions are ordered and made unique by: [{:?}] of the type is its name. *)
Definition perm_name (t : PermType) : bytes :=
  match t with PRead => str "Read" | PWrite => str "Write" | PReadwrite => str "Readwrite" end.
Definition option_cmp (a b : option bytes) : comparison :=
  match a, b with
  | None, None => Eq
  | None, Some _ => Lt
  | Some _, None => Gt
  | Some a, Some b => bytes_cmp a b
  end.
Definition perm_cmp (a b : Permission) : comparison :=
  match bytes_cmp (p_key a) (p_key b) with
  | Eq =>
      match option_cmp (p_range_end a) (p_range_end b) with
      | Eq => bytes_cmp (perm_name (p_type a)) (perm_name (p_type b))
      | c => c
      end
  | c => c
  end.
Definition perm_le (a b : Permission) : Prop := perm_cmp a b ≠ Gt.
#[export] Instance perm_le_dec a b : Decision (perm_le a b).
Proof. unfold perm_le. apply _. Defined.

(** The permissions of the roles; the first role that is not there is an error. *)
Fixpoint permissions_of (s : KvStore) (role_names : list bytes) : EtcdResult (list Permission) :=
  match role_names with
  | [] => Ok []
  | name :: role_names =>
      let? role := res (role_get name) s in
      let? rest := permissions_of s role_names in
      Ok (role.2 ++ rest)
  end.
Definition effective_permissions (s : KvStore) (username : bytes) : EtcdResult (list Permission) :=
  let? user := res (user_get username) s in
  let? perms := permissions_of s user.2 in
  Ok (merge_sort perm_le (remove_dups perms)).

Definition permission_matches_key (perm : Permission) (key : bytes) (desired : PermType) : bool :=
  if bool_decide (p_type perm = desired) || bool_decide (p_type perm = PReadwrite) then
    match p_range_end perm with
    | None => bool_decide (key = p_key perm)
    | Some e => if decide (e = [0]) then starts_with key (p_key perm) else bytes_leb (p_key perm) key && bytes_ltb key e
    end
  else false.

Definition user_can_access (s : KvStore) (username key : bytes) (desired : PermType) : EtcdResult bool :=
  if decide (username = ROOT_USER) then Ok true
  else
    let? perms := effective_permissions s username in
    Ok (existsb (λ p, permission_matches_key p key desired) perms).

Definition grant_role_permission (role : bytes) (perm_type : PermType) (key : bytes) (range_end : option bytes) : Store (EtcdResult unit) :=
  r ← role_grant_permission role (mkPermission perm_type key range_end);
  mret (match r with Ok _ => Ok tt | Err e => Err e end).

(** ** Introspection and enforcement agree *)

(** Every role the user has exists, and none of its permissions is a prefix permission. *)
Definition plain_roles (s : KvStore) (user : AuthUser) : Prop :=
  ∀ name, name ∈ u_roles user → ∃ r, roles s !! name = Some r ∧ Forall (λ p, p_range_end p ≠ Some [0]) (r_key_permission r).

Lemma matches_covers p key desired : p_range_end p ≠ Some [0] → permission_matches_key p key desired = covers desired key p.
Proof.
  intros Hp. unfold permission_matches_key, covers. destruct (_ || _); [|done]. destruct (p_range_end p) as [e|]; [|done].
  by rewrite decide_False by congruence.
Qed.
Lemma existsb_elem {A} (f : A → bool) l l' : (∀ x, x ∈ l ↔ x ∈ l') → existsb f l = existsb f l'.
Proof.
  intros Hl. apply eq_bool_prop_intro. rewrite !Is_true_true, !existsb_exists. setoid_rewrite <- list_elem_of_In. by setoid_rewrite Hl.
Qed.
Lemma permissions_of_roles s names perm key :
  (∀ name, name ∈ names → ∃ r, roles s !! name = Some r ∧ Forall (λ p, p_range_end p ≠ Some [0]) (r_key_permission r)) →
  ∃ perms, permissions_of s names = Ok perms ∧
    existsb (λ p, permission_matches_key p key perm) perms = existsb (role_allows s perm key) names.
Proof.
  induction names as [|name names IH]; intros Hall; [by exists []|]. destruct (Hall name) as (r & Hr & Hp); [left|].
  destruct IH as (perms & Hps & He); [intros n Hn; apply Hall; by right|]. exists (r_key_permission r ++ perms). cbn [permissions_of].
  unfold role_get, res, mbind, M_bind. simpl. rewrite Hr. simpl. rewrite Hps. split; [done|]. rewrite existsb_app, He. f_equal.
  unfold role_allows. rewrite Hr. clear -Hp. induction Hp as [|p ps Hp _ IH]; [done|]. simpl. by rewrite matches_covers, IH.
Qed.

(** Introspection is enforcement.  For a user whose roles exist and have no prefix
    permissions, [user_can_access] says yes exactly when the store lets a request with a token
    of that user through, and with authentication on. *)
Theorem introspection_agrees s token username user key perm :
  auth_enabled s = true → auth_tokens s !! token = Some username → users s !! username = Some user → plain_roles s user →
  (user_can_access s username key perm = Ok true ↔ res (check_auth_token (Some token) key perm) s = Ok tt).
Proof.
  intros He Ht Hu Hr. unfold check_auth_token, res at 1, mbind, M_bind. simpl. rewrite He. simpl. rewrite Ht. simpl.
  unfold user_can_access. change ROOT_USER with (str "root"). case_bool_decide as Hroot; [by rewrite decide_True|]. rewrite decide_False by done.
  rewrite Hu. simpl. unfold effective_permissions, user_get, res, mbind, M_bind. simpl. rewrite Hu. simpl.
  destruct (permissions_of_roles s (u_roles user) perm key Hr) as (perms & -> & Hex).
  rewrite (existsb_elem _ _ perms), Hex; [destruct (existsb (role_allows s perm key) (u_roles user)); split; intros; done|].
  intros p. by rewrite merge_sort_Permutation, elem_of_remove_dups.
Qed.

Module RbacExample.
(** [bob] holds a token; his role may read the key [a] and, as a prefix, what is below [p/]. *)
Definition token : bytes := str "t".
Definition with_role (ps : list Permission) : KvStore :=
  let s := set_users {[str "bob" := mkAuthUser (str "bob") [] [str "reader"]]} (new 0) in
  let s := set_roles {[str "reader" := mkAuthRole (str "reader") ps]} s in
  set_auth_tokens {[token := str "bob"]} (set_auth_enabled true s).
End RbacExample.
Import RbacExample.

Lemma introspection_agrees_witness :
  let s := with_role [mkPermission PRead (str "a") None] in
  user_can_access s (str "bob") (str "a") PRead = Ok true ↔ res (check_auth_token (Some token) (str "a") PRead) s = Ok tt.
Proof.
  intros s. apply (introspection_agrees s token (str "bob") (mkAuthUser (str "bob") [] [str "reader"])); try (vm_compute; reflexivity).
  intros name Hn. apply list_elem_of_singleton in Hn as ->. eexists. split; [vm_compute; reflexivity|]. constructor; [discriminate|constructor].
Defined.

(** A prefix permission: introspection says yes, the store says no. *)
Lemma prefix_permission_disagrees :
  let s := with_role [mkPermission PRead (str "p/") (Some [0])] in
  user_can_access s (str "bob") (str "p/x") PRead = Ok true ∧
  res (check_auth_token (Some token) (str "p/x") PRead) s = Err PermissionDenied.
Proof. split; vm_compute; reflexivity. Qed.
