(* ===== verification/EtcdCluster.v ===== *)
(** * Members, quorums and the raft surface of the store

    The cluster and maintenance methods of [store.rs]: member changes, the joint
    configuration, quorums, the commit index from the match indexes, pre-vote, leader lease,
    read index and linearizable reads, learners, alarms, hashing, defragmentation. *)

From S2P Require Import Prelude Bytes Effects EtcdTypes EtcdStore.

Definition LEARNER_READY_LAG_THRESHOLD : u64 := 10.

(** ** Members *)

Definition members_response : Store MembersResponse :=
  h ← header; ms ← gets members; mret (mkMembersResponse h ms).

(** [self.lease_counter.fetch_add(1) + 100] *)
Definition fresh_member_id : Store u64 :=
  n ← gets lease_counter; modify (set_lease_counter (n +w 1));; mret (n +w 100).

Definition new_member (id : u64) (req : MemberAddRequest) : Member :=
  mkMember id (str "member-" ++ decimal id) (ma_peer_urls req) [] (ma_is_learner req).

Definition push_member (m : Member) : Store unit := modify (λ s, set_members (members s ++ [m]) s).

Definition member_add (req : MemberAddRequest) : Store MemberAddResponse :=
  new_id ← fresh_member_id;
  let member := new_member new_id req in
  push_member member;;
  h ← header;
  ms ← gets members;
  mret (mkMemberAddResponse h member ms).

Definition member_remove (id : u64) : Store (EtcdResult MembersResponse) :=
  ms ← gets members;
  let kept := filter (λ m, m_id m ≠ id) ms in
  modify (set_members kept);;
  if vlen kept =? vlen ms then mret (Err (MemberNotFound id))
  else r ← members_response; mret (Ok r).

(** [iter_mut().find(|m| m.id == id)], then an update of the member found *)
Fixpoint update_first (id : u64) (f : Member → Member) (ms : list Member) : list Member :=
  match ms with
  | [] => []
  | m :: ms => if m_id m =? id then f m :: ms else m :: update_first id f ms
  end.
Definition find_member (id : u64) (ms : list Member) : option Member :=
  List.find (λ m, m_id m =? id) ms.

Definition with_peer_urls (urls : list bytes) (m : Member) : Member :=
  mkMember (m_id m) (m_name m) urls (m_client_urls m) (m_is_learner m).
Definition as_voter (m : Member) : Member :=
  mkMember (m_id m) (m_name m) (m_peer_urls m) (m_client_urls m) false.

Definition member_update (id : u64) (peer_urls : list bytes) : Store (EtcdResult MembersResponse) :=
  ms ← gets members;
  match find_member id ms with
  | None => mret (Err (MemberNotFound id))
  | Some _ =>
      modify (set_members (update_first id (with_peer_urls peer_urls) ms));;
      r ← members_response; mret (Ok r)
  end.

Definition member_list : Store MembersResponse := members_response.

Definition member_promote (id : u64) : Store (EtcdResult MembersResponse) :=
  ms ← gets members;
  match find_member id ms with
  | None => mret (Err (MemberNotFound id))
  | Some m =>
      if negb (m_is_learner m) then mret (Err (MemberNotLearner id))
      else
        modify (set_members (update_first id as_voter ms));;
        r ← members_response; mret (Ok r)
  end.

(** ** Joint consensus *)

Definition voters (ms : list Member) : list u64 := m_id <$> filter (λ m, m_is_learner m = false) ms.
Definition learners (ms : list Member) : list u64 := m_id <$> filter (λ m, m_is_learner m = true) ms.

(** The loop over the additions: the ids handed out. *)
Fixpoint add_members (adds : list MemberAddRequest) : Store (list u64) :=
  match adds with
  | [] => mret []
  | add :: adds =>
      id ← fresh_member_id;
      push_member (new_member id add);;
      ids ← add_members adds;
      mret (id :: ids)
  end.

Definition incoming_of (outgoing : list u64) (req : EnterJointRequest) (added_ids : list u64) : list u64 :=
  filter (λ id, id ∉ ej_removes req)
    (outgoing ++ omap (λ e : MemberAddRequest * u64, if ma_is_learner e.1 then None else Some e.2)
       (zip (ej_adds req) added_ids)).

Definition enter_joint (req : EnterJointRequest) : Store (EtcdResult EnterJointResponse) :=
  j ← gets joint;
  match j with
  | Some _ => mret (Err JointConfigInProgress)
  | None =>
      ms ← gets members;
      let outgoing := voters ms in
      added_ids ← add_members (ej_adds req);
      let incoming := incoming_of outgoing req added_ids in
      match incoming with
      | [] => mret (Err WouldBreakQuorum)
      | _ :: _ =>
          ms ← gets members;
          let new_joint := mkJointConfig outgoing incoming (learners ms) in
          modify (set_joint (Some new_joint));;
          h ← header;
          mret (Ok (mkEnterJointResponse h new_joint ms))
      end
  end.

Definition leave_joint : Store (EtcdResult MembersResponse) :=
  j ← gets joint;
  match j with
  | None => mret (Err NoJointConfig)
  | Some cfg =>
      modify (set_joint None);;
      modify (λ s, set_members (filter (λ m, m_id m ∈ j_incoming cfg ++ j_learners cfg) (members s)) s);;
      r ← members_response; mret (Ok r)
  end.

Definition current_joint (s : KvStore) : option JointConfig := joint s.

Definition quorum_size_for (n : usize) : usize := if n =? 0 then 1 else n / 2 + 1.

Definition voting_member_count (s : KvStore) : usize := vlen (voters (members s)).

Definition quorum_size (s : KvStore) : usize :=
  match current_joint s with
  | Some cfg => quorum_size_for (vlen (j_outgoing cfg)) `max` quorum_size_for (vlen (j_incoming cfg))
  | None => quorum_size_for (voting_member_count s)
  end.

(** ** Role, term, indexes *)

Definition set_raft_role (r : RaftRole) : Store unit := modify (set_role r).
Definition bump_term : Store u64 := t ← gets term; modify (set_term (t +w 1));; mret (t +w 1).
Definition write_applied_index (idx : u64) : Store unit := modify (set_applied_index idx).

Definition advance_commit_index (idx : u64) : Store unit :=
  prev ← gets commit_index;
  let new := idx `max` prev in
  modify (set_commit_index new);;
  trigger ← gets auto_leave_joint_at_index;
  j ← gets current_joint;
  when ((0 <? trigger) && (trigger <=? new) && bool_decide (is_Some j))
    (leave_joint;; modify (set_auto_leave_joint_at_index 0)).

Definition record_match_index (id : u64) (idx : u64) : Store unit :=
  modify (λ s, set_match_index (<[id := idx]> (match_index s)) s).

(** The value at position [len - quorum] of the sorted match indexes of the voters. *)
Definition commit_via_match_index (s : KvStore) : option u64 :=
  let vs := voters (members s) in
  match vs with
  | [] => None
  | _ :: _ =>
      let indexes := merge_sort (≤) ((λ id, default 0 (match_index s !! id)) <$> vs) in
      vget indexes (vlen indexes - quorum_size_for (vlen vs))
  end.

(** ** Pre-vote and leader lease *)

Definition leader_lease_active (now : Z) (s : KvStore) : bool :=
  match role s with
  | RLeader =>
      (wrap_i64 (timestamp_millis now - leader_lease_granted_at s) <=? as_i64 (leader_lease_ttl_ms s))%Z
  | _ => false
  end.

Definition refresh_leader_lease (now : Z) : Store unit :=
  modify (set_leader_lease_granted_at (timestamp_millis now)).
Definition write_leader_lease_ttl_ms (ttl : u64) : Store unit := modify (set_leader_lease_ttl_ms ttl).

Definition pre_vote (now : Z) (s : KvStore) (candidate_term : u64) : PreVoteResult :=
  let cur := term s in
  if candidate_term <? cur then
    mkPreVoteResult false cur (str "candidate term " ++ decimal candidate_term ++
      str " below local term " ++ decimal cur)
  else if leader_lease_active now s then mkPreVoteResult false cur (str "leader lease still valid")
  else mkPreVoteResult true cur (str "leader unreachable; pre-vote granted").

Definition local_member_id : u64 := 1.

(** The votes of the peers: [peer_pre_vote] is a closure, so the answer may depend on the
    number of calls made before. *)
Fixpoint count_grants (peer_pre_vote : nat → u64 → PreVoteResult) (calls : nat) (candidate_term : u64)
    (ms : list Member) : usize :=
  match ms with
  | [] => 0
  | m :: ms =>
      if m_is_learner m || (m_id m =? local_member_id) then
        count_grants peer_pre_vote calls candidate_term ms
      else
        (if pv_granted (peer_pre_vote calls candidate_term) then 1 else 0) +
        count_grants peer_pre_vote (S calls) candidate_term ms
  end.

Definition step_pre_candidate (peer_pre_vote : nat → u64 → PreVoteResult) : Store bool :=
  set_raft_role RPreCandidate;;
  s ← get;
  let q := quorum_size_for (voting_member_count s) in
  let grants := 1 + count_grants peer_pre_vote 0 (term s +w 1) (members s) in
  if q <=? grants then bump_term;; set_raft_role RCandidate;; mret true
  else set_raft_role RFollower;; mret false.

(** ** Reads *)

Definition read_index (now : Z) (s : KvStore) : EtcdResult ReadIndexResult :=
  match role s with
  | RLeader => Ok (mkReadIndexResult (commit_index s) (applied_index s) (leader_lease_active now s))
  | _ => Err (NotLeader (term s) None)
  end.

Definition mark_member_healthy (id : u64) (now_ms : Z) : Store unit :=
  modify (λ s, set_member_health (<[id := now_ms]> (member_health s)) s).

Definition healthy_member_count (now : Z) (s : KvStore) : usize :=
  let ttl := as_i64 (leader_lease_ttl_ms s) in
  let others := filter (λ e : N * Z,
    e.1 ≠ local_member_id ∧ (wrap_i64 (timestamp_millis now - e.2) ≤ ttl)%Z) (map_to_list (member_health s)) in
  (1 + vlen others) `min` vlen (members s).

Definition quorum_healthy (now : Z) (s : KvStore) : bool := quorum_size s <=? healthy_member_count now s.

(** The waiting loop; [clock] gives the successive readings of the time. *)
Fixpoint wait_applied (fuel : nat) (clock : nat → Z) (index : u64) (deadline : Z) :
    Store (option (EtcdResult unit)) :=
  match fuel with
  | O => mret None
  | S fuel =>
      applied ← gets applied_index;
      if index <=? applied then mret (Some (Ok tt))
      else if (deadline <? timestamp_millis (clock O))%Z then
        mret (Some (Err (ReadIndexTimeout index applied)))
      else
        write_applied_index index;;
        wait_applied fuel (λ n, clock (S n)) index deadline
  end.

(** [None] when the loop has not ended within [fuel] iterations. *)
Definition linearizable_read (fuel : nat) (clock : nat → Z) (req : RangeRequest) (timeout_ms : u64) :
    Store (option (EtcdResult RangeResponse)) :=
  s ← get;
  match read_index (clock 0%nat) s with
  | Err e => mret (Some (Err e))
  | Ok r =>
      if negb (quorum_healthy (clock 1%nat) s) then
        mret (Some (Err (QuorumLost (quorum_size s) (healthy_member_count (clock 1%nat) s))))
      else
        let deadline := wrap_i64 (timestamp_millis (clock 2%nat) + as_i64 timeout_ms) in
        w ← wait_applied fuel (λ n, clock (3 + n)%nat) (ri_read_index r) deadline;
        match w with
        | None => mret None
        | Some (Err e) => mret (Some (Err e))
        | Some (Ok _) => resp ← range req; mret (Some resp)
        end
  end.

(** ** Learners *)

Definition record_learner_index (id : u64) (idx : u64) : Store unit :=
  modify (λ s, set_learner_index (<[id := idx]> (learner_index s)) s).

Definition check_learner_promotion (s : KvStore) (id : u64) : EtcdResult LearnerReadiness :=
  match find_member id (members s) with
  | None => Err (MemberNotFound id)
  | Some m =>
      if negb (m_is_learner m) then Err (MemberNotLearner id)
      else
        let leader_index := commit_index s in
        let idx := default 0 (learner_index s !! id) in
        let ready_lag := saturating_sub leader_index idx in
        Ok (mkLearnerReadiness id leader_index idx ready_lag (ready_lag <=? LEARNER_READY_LAG_THRESHOLD))
  end.

Definition ready_learners (s : KvStore) : list LearnerReadiness :=
  filter (λ r, lr_ready r = true)
    (omap (λ id, ok (check_learner_promotion s id)) (learners (members s))).

(** ** Joint auto-leave, alarms, hash, defragmentation *)

Definition arm_auto_leave_joint (trigger : u64) : Store unit := modify (set_auto_leave_joint_at_index trigger).
Definition pending_auto_leave_joint (s : KvStore) : option u64 :=
  if auto_leave_joint_at_index s =? 0 then None else Some (auto_leave_joint_at_index s).

Definition alarm (req : AlarmRequest) : Store AlarmResponse :=
  let a := mkAlarmMember (aq_member_id req) (aq_alarm req) in
  match aq_action req with
  | AGet => skip
  | AActivate => modify (λ s, set_alarms (if decide (a ∈ alarms s) then alarms s else alarms s ++ [a]) s)
  | ADeactivate => modify (λ s, set_alarms (filter (.≠ a) (alarms s)) s)
  end;;
  h ← header;
  al ← gets alarms;
  mret (mkAlarmResponse h al).

(** [h.wrapping_mul(33).wrapping_add(b as u32)] over the sorted keys and values *)
Definition hash_step (h b : N) : N := (h * 33 + b) mod 4294967296.
Definition pair_le (a b : bytes * bytes) : Prop := bytes_le a.1 b.1.
#[export] Instance pair_le_dec a b : Decision (pair_le a b).
Proof. unfold pair_le. apply _. Defined.
Definition hash : Store HashResponse :=
  s ← get;
  let pairs := merge_sort pair_le
    ((λ e : bytes * KeyValue, (e.1, kv_value e.2)) <$> map_to_list (current s)) in
  let h := foldl hash_step 5381 (mjoin ((λ p, p.1 ++ p.2) <$> pairs)) in
  hd ← header;
  mret (mkHashResponse hd h (compacted_revision s) (revision s)).

Definition estimated_db_bytes (s : KvStore) : u64 :=
  foldl (λ acc (e : bytes * list u64), acc +w u64_mul (vlen e.2) 8)
    (foldl (λ acc (e : bytes * KeyValue), acc +w (vlen e.1 +w vlen (kv_value e.2))) 0
      (map_to_list (current s)))
    (map_to_list (key_index s)).

Definition defragment_with_status : Store DefragmentStatus :=
  bytes_before ← gets estimated_db_bytes;
  compacted ← gets compacted_revision;
  modify (λ s, set_key_index (filter (λ r, compacted ≤ r) <$> key_index s) s);;
  bytes_after ← gets estimated_db_bytes;
  let bytes_freed := saturating_sub bytes_before bytes_after in
  let status := mkDefragmentStatus bytes_before bytes_after bytes_freed ((bytes_freed +w 4095) / 4096) in
  modify (λ s, set_defrag_history (defrag_history s ++ [status]) s);;
  mret status.

Definition last_defragment_status (s : KvStore) : option DefragmentStatus := last (defrag_history s).

Definition shutdown_background_tasks : Store unit := modify (set_bg_cancel true).

(** One tick of the lease expirer; [true] when the task ends. *)
Definition lease_expirer_tick (now : Z) : Store bool :=
  cancelled ← gets bg_cancel;
  if (cancelled : bool) then mret true else expire_leases now;; mret false.

(** ** The commit index is the highest one a majority of the voters holds *)

Definition holders (s : KvStore) (c : u64) : list u64 :=
  filter (λ id, c ≤ default 0 (match_index s !! id)) (voters (members s)).

Lemma sorted_ge_suffix (l : list N) i c : StronglySorted N.le l → l !! i = Some c →
  (length l - i ≤ length (filter (λ x, c ≤ x)%N l))%nat.
Proof.
  intros Hs Hi. rewrite <- (take_drop i l) at 2. rewrite filter_app, length_app.
  rewrite (filter_all _ (drop i l)); [rewrite length_drop; lia|].
  rewrite <- (take_drop_middle _ _ _ Hi) in Hs. apply StronglySorted_app_1_r in Hs.
  inversion Hs as [|? ? _ Hc]; subst. rewrite (drop_S _ _ _ Hi). constructor; [lia|done].
Qed.
Lemma sorted_gt_suffix (l : list N) i c c' : StronglySorted N.le l → l !! i = Some c → c < c' →
  (length (filter (λ x, c' ≤ x)%N l) < length l - i)%nat.
Proof.
  intros Hs Hi Hc. pose proof (lookup_lt_Some _ _ _ Hi) as Hlt.
  rewrite <- (take_drop_middle _ _ _ Hi) in Hs. rewrite <- (take_drop_middle _ _ _ Hi) at 1.
  rewrite filter_app, filter_cons_False by lia.
  rewrite (filter_none _ (take i l)).
  - simpl. pose proof (length_filter (λ x, c' ≤ x)%N (drop (S i) l)). rewrite length_drop in *. lia.
  - apply Forall_forall. intros x Hx Hle.
    assert (x ≤ c) by (eapply (StronglySorted_app_1_elem_of N.le); [exact Hs|done|set_solver]). lia.
Qed.

Lemma quorum_size_for_bounds n : 0 < n → 1 ≤ quorum_size_for n ≤ n ∧ n < 2 * quorum_size_for n.
Proof.
  intros Hn. unfold quorum_size_for. rewrite (proj2 (N.eqb_neq n 0)) by lia.
  pose proof (N.div_mod n 2 ltac:(lia)) as Hd. pose proof (N.mod_lt n 2 ltac:(lia)) as Hm.
  revert Hd Hm. generalize (n / 2) as d, (n mod 2) as m. lia.
Qed.
(** Fewer than a quorum is not a strict majority. *)
Lemma below_quorum n k : 0 < n → k < quorum_size_for n → ¬ n < 2 * k.
Proof.
  intros Hn. unfold quorum_size_for. rewrite (proj2 (N.eqb_neq n 0)) by lia.
  pose proof (N.div_mod n 2 ltac:(lia)) as Hd. revert Hd. generalize (n / 2) as d, (n mod 2) as m. lia.
Qed.

(** Commit index.  Whenever there are voters, [commit_via_match_index] returns an index
    that a strict majority of them has reached, and no higher index has been reached by a
    majority. *)
Theorem commit_via_match_index_majority s :
  match commit_via_match_index s with
  | None => voters (members s) = []
  | Some c =>
      vlen (voters (members s)) < 2 * vlen (holders s c) ∧
      ∀ c', c < c' → ¬ vlen (voters (members s)) < 2 * vlen (holders s c')
  end.
Proof.
  unfold commit_via_match_index. set (vs := voters (members s)). destruct vs as [|v0 vs0] eqn:Hvs; [done|].
  rewrite <- Hvs. set (ix := (λ id, default 0 (match_index s !! id)) <$> vs).
  set (l := merge_sort (≤) ix).
  assert (Hp : l ≡ₚ ix) by apply merge_sort_Permutation.
  assert (Hlen : length l = length vs) by (rewrite Hp; unfold ix; apply length_fmap).
  assert (Hs : StronglySorted N.le l) by (apply (StronglySorted_merge_sort N.le); apply _).
  assert (Hcount : ∀ c, length (filter (λ x, c ≤ x)%N l) = length (holders s c)).
  { intros c. rewrite Hp. unfold ix, holders. fold vs.
    clear. induction vs as [|v vs IH]; [done|]. rewrite fmap_cons, !filter_cons. simpl.
    repeat case_decide; simpl; lia. }
  assert (Hpos : 0 < vlen vs) by (rewrite Hvs; unfold vlen; simpl; lia).
  destruct (quorum_size_for_bounds (vlen vs) Hpos) as [[Hq1 Hq2] Hq3].
  set (q := quorum_size_for (vlen vs)) in *. rewrite vget_lookup.
  assert (Hl : vlen l = vlen vs) by (unfold vlen; by rewrite Hlen).
  destruct (l !! N.to_nat (vlen l - q)) as [c|] eqn:Hc.
  - split.
    + pose proof (sorted_ge_suffix _ _ _ Hs Hc) as Hge. rewrite Hcount in Hge. unfold vlen in *. lia.
    + intros c' Hc'. pose proof (sorted_gt_suffix _ _ _ _ Hs Hc Hc') as Hgt. rewrite Hcount in Hgt.
      apply below_quorum; [done|]. fold q. unfold vlen in *. lia.
  - apply lookup_ge_None in Hc. unfold vlen in *. lia.
Qed.

(** ** Entering and leaving a joint configuration *)

(** Distinct ids, all below the next one to be handed out. *)
Definition members_wf (s : KvStore) : Prop :=
  NoDup (m_id <$> members s) ∧ ∀ m, m ∈ members s → m_id m < lease_counter s + 100.

Lemma fresh_member_run s : lease_counter s + 100 < u64_modulus →
  fresh_member_id s = (lease_counter s + 100, set_lease_counter (lease_counter s + 1) s, []).
Proof.
  intros Hc. unfold fresh_member_id, mbind, M_bind. simpl.
  by rewrite !u64_add_small by (unfold u64_modulus in *; lia).
Qed.

Lemma add_members_run adds s : lease_counter s + 100 + vlen adds < u64_modulus → ∃ ids s',
  add_members adds s = (ids, s', []) ∧ joint s' = joint s ∧
  members s' = members s ++ zip_with new_member ids adds ∧ length ids = length adds ∧
  NoDup ids ∧ ∀ id, id ∈ ids → lease_counter s + 100 ≤ id.
Proof.
  revert s. induction adds as [|add adds IH]; intros s Hc.
  { exists [], s. split_and!; [done|done|by rewrite app_nil_r|done|constructor|set_solver]. }
  rewrite vlen_cons in Hc. set (id := lease_counter s + 100).
  set (s1 := set_members (members s ++ [new_member id add]) (set_lease_counter (lease_counter s + 1) s)).
  destruct (IH s1) as (ids & s' & Hrun & Hj & Hm & Hlen & Hnd & Hge); [simpl; lia|].
  exists (id :: ids), s'. split_and!.
  - cbn [add_members]. etrans; [eapply bind_step; [by apply fresh_member_run; lia|cbv beta]|].
    + eapply bind_step; [reflexivity|cbv beta]. eapply bind_step; [exact Hrun|reflexivity].
    + done.
  - done.
  - rewrite Hm. simpl. by rewrite <- (assoc_L (++)).
  - simpl. by rewrite Hlen.
  - constructor; [|done]. intros Hin%Hge. simpl in Hin. unfold id in Hin. lia.
  - intros x [->|Hx%Hge]%elem_of_cons; [unfold id; lia|]. simpl in Hx. lia.
Qed.

Lemma voters_app l1 l2 : voters (l1 ++ l2) = voters l1 ++ voters l2.
Proof. unfold voters. by rewrite filter_app, fmap_app. Qed.

Lemma voters_added ids adds : length ids = length adds →
  voters (zip_with new_member ids adds) =
  omap (λ e : MemberAddRequest * u64, if ma_is_learner e.1 then None else Some e.2) (zip adds ids).
Proof.
  revert adds. induction ids as [|id ids IH]; intros [|add adds] Hlen; try done.
  cbn [zip_with zip]. unfold voters in *. rewrite filter_cons, omap_cons_app. simpl.
  injection Hlen as Hlen. destruct (ma_is_learner add); simpl; by rewrite IH.
Qed.

Lemma added_ids ids adds : length ids = length adds → m_id <$> zip_with new_member ids adds = ids.
Proof.
  revert adds. induction ids as [|id ids IH]; intros [|add adds] Hlen; try done.
  cbn [zip_with]. rewrite fmap_cons, IH; [done|]. by injection Hlen.
Qed.

(** Which members survive: learners, and voters that were not removed. *)
Lemma survivors (ms : list Member) (removes : list u64) :
  NoDup (m_id <$> ms) →
  let incoming := filter (λ id, id ∉ removes) (voters ms) in
  let kept := filter (λ m, m_id m ∈ incoming ++ learners ms) ms in
  kept = filter (λ m, m_is_learner m = true ∨ m_id m ∉ removes) ms ∧ voters kept = incoming.
Proof.
  intros Hnd incoming kept.
  assert (Hkept : kept = filter (λ m, m_is_learner m = true ∨ m_id m ∉ removes) ms).
  { apply list_filter_iff_in. intros m Hm. rewrite elem_of_app. unfold incoming, voters, learners.
    rewrite list_elem_of_filter, !list_elem_of_fmap. split.
    - intros [[Hr _]|(m' & Hid & [Hl Hm']%list_elem_of_filter)]; [by right|left].
      assert (m = m') as ->; [|done]. by apply (NoDup_fmap_inj_elem m_id ms).
    - intros Hor. destruct (m_is_learner m) eqn:Hl.
      + right. exists m. rewrite list_elem_of_filter. done.
      + left. split; [naive_solver|]. exists m. rewrite list_elem_of_filter. done. }
  split; [done|]. rewrite Hkept. unfold incoming, voters. clear. induction ms as [|m ms IH]; [done|].
  rewrite (filter_cons (λ m, m_is_learner m = true ∨ m_id m ∉ removes)).
  rewrite (filter_cons (λ m, m_is_learner m = false) m ms).
  destruct (decide (m_is_learner m = false)) as [Hv|Hv].
  - rewrite fmap_cons, filter_cons.
    destruct (decide (m_is_learner m = true ∨ m_id m ∉ removes)) as [Ha|]; destruct (decide (m_id m ∉ removes));
      [|exfalso; destruct Ha; [congruence|tauto]|tauto|done]. rewrite filter_cons_True by done. rewrite fmap_cons. by f_equal.
  - rewrite decide_True by (left; by destruct (m_is_learner m)). by rewrite filter_cons_False.
Qed.

Lemma leave_joint_run cfg s : joint s = Some cfg → ∃ r, leave_joint s =
  (Ok r, set_members (filter (λ m, m_id m ∈ j_incoming cfg ++ j_learners cfg) (members s)) (set_joint None s), []).
Proof. intros Hj. unfold leave_joint, mbind, M_bind. simpl. rewrite Hj. simpl. by eexists. Qed.

(** Joint configurations.  When [enter_joint] succeeds on a well-formed member list,
    the joint configuration has the present voters as its outgoing half; once
    [leave_joint] has committed it, the voters are exactly its incoming half, in order, and
    every learner, old or new, is still a member. *)
Theorem joint_roundtrip req s resp :
  members_wf s → lease_counter s + 100 + vlen (ej_adds req) < u64_modulus →
  res (enter_joint req) s = Ok resp →
  let s1 := final (enter_joint req) s in
  let s2 := final leave_joint s1 in
  j_outgoing (ejr_joint resp) = voters (members s) ∧
  joint s1 = Some (ejr_joint resp) ∧ joint s2 = None ∧
  voters (members s2) = j_incoming (ejr_joint resp) ∧
  (∀ m, m ∈ members s1 → m_is_learner m = true → m ∈ members s2) ∧
  (∀ m, m ∈ members s2 → m ∈ members s1).
Proof.
  intros [Hnd Hlt] Hc Hres. destruct (add_members_run (ej_adds req) s Hc)
    as (ids & s' & Hrun & Hj' & Hm' & Hlen & Hndi & Hge).
  assert (Hinc : incoming_of (voters (members s)) req ids =
    filter (λ id, id ∉ ej_removes req) (voters (members s'))).
  { unfold incoming_of. by rewrite Hm', voters_app, voters_added. }
  destruct (joint s) as [j|] eqn:Hj.
  { unfold enter_joint, res, mbind, M_bind in Hres. simpl in Hres. by rewrite Hj in Hres. }
  assert (Hrun1 : ∃ v vs, incoming_of (voters (members s)) req ids = v :: vs ∧
    let jc := mkJointConfig (voters (members s)) (v :: vs) (learners (members s')) in
    enter_joint req s = (Ok (mkEnterJointResponse (header_of (set_joint (Some jc) s')) jc (members s')),
      set_joint (Some jc) s', [])).
  { revert Hres. unfold enter_joint, res, mbind, M_bind. simpl. rewrite Hj, Hrun. simpl.
    destruct (incoming_of (voters (members s)) req ids) as [|v vs]; simpl; [done|]. eauto. }
  destruct Hrun1 as (v & vs & Hv & Hrun1). cbv zeta in Hrun1.
  rewrite (res_run _ _ _ _ _ Hrun1) in Hres. injection Hres as <-.
  cbv zeta. rewrite (final_run _ _ _ _ _ Hrun1). clear Hrun1.
  set (jc := mkJointConfig (voters (members s)) (v :: vs) (learners (members s'))).
  destruct (leave_joint_run jc (set_joint (Some jc) s') eq_refl) as [r Hrun2].
  rewrite (final_run _ _ _ _ _ Hrun2). unfold jc. simpl.
  destruct (survivors (members s') (ej_removes req)) as [Hkept Hvot].
  { rewrite Hm', fmap_app, added_ids by done. apply NoDup_app. split_and!; [done| |done].
    intros id (m & -> & Hm%Hlt)%list_elem_of_fmap Hin%Hge. lia. }
  rewrite <- Hinc, Hv in Hkept, Hvot. split_and!; [done..|exact Hvot| |].
  - intros m Hm Hl. simpl in Hkept. rewrite Hkept. apply list_elem_of_filter. tauto.
  - intros m [_ Hm]%list_elem_of_filter. done.
Qed.

Lemma joint_roundtrip_witness :
  let req := mkEnterJointRequest [mkMemberAddRequest [] false; mkMemberAddRequest [] true] [1] in
  let s2 := final leave_joint (final (enter_joint req) (new 0)) in
  voters (members s2) = [101].
Proof.
  intros req s2.
  destruct (joint_roundtrip req (new 0) (mkEnterJointResponse (mkHeader 1 1 1 1)
    (mkJointConfig [1] [101] [102]) (members (final (enter_joint req) (new 0))))) as (_ & _ & _ & Hv & _).
  - split; [repeat constructor; set_solver|]. intros m ->%list_elem_of_singleton. reflexivity.
  - vm_compute. reflexivity.
  - vm_compute. reflexivity.
  - exact Hv.
Defined.

(** ** Linearizable reads *)

Lemma wait_applied_run fuel clock index deadline s : (2 ≤ fuel)%nat → ∃ i x,
  wait_applied fuel clock index deadline s = (Some x, set_applied_index i s, []) ∧
  (x = Ok tt → index ≤ i).
Proof.
  intros Hf. destruct fuel as [|[|fuel]]; [lia|lia|]. cbn [wait_applied]. unfold mbind, M_bind. simpl.
  destruct (N.leb_spec index (applied_index s)) as [Hle|Hgt].
  { exists (applied_index s), (Ok tt). split; [by destruct s|done]. }
  destruct (deadline <? timestamp_millis (clock 0%nat))%Z.
  { exists (applied_index s), (Err (ReadIndexTimeout index (applied_index s))). split; [by destruct s|done]. }
  rewrite N.leb_refl. exists index, (Ok tt). done.
Qed.

(** Linearizable reads.  The waiting loop ends within two iterations, so
    [linearizable_read] always returns; when it returns data, the node is the leader, the
    quorum is healthy, the applied index has reached the commit index seen at the start and
    the data are those of [range]. *)
Theorem linearizable_read_caught_up fuel clock req timeout_ms s :
  (2 ≤ fuel)%nat →
  ∃ x, res (linearizable_read fuel clock req timeout_ms) s = Some x ∧
    ∀ resp, x = Ok resp →
      role s = RLeader ∧ quorum_healthy (clock 1%nat) s = true ∧
      commit_index s ≤ applied_index (final (linearizable_read fuel clock req timeout_ms) s) ∧
      res (range req) s = Ok resp.
Proof.
  intros Hf. unfold linearizable_read. rewrite res_bind, final_bind. finals. cbv beta.
  unfold read_index. destruct (role s) eqn:Hrole; try (eexists; by split).
  cbv iota. destruct (quorum_healthy (clock 1%nat) s) eqn:Hq; simpl negb; cbv iota; [|eexists; by split].
  destruct (wait_applied_run fuel (λ n, clock (3 + n)%nat) (commit_index s)
    (wrap_i64 (timestamp_millis (clock 2%nat) + as_i64 timeout_ms)) s Hf) as (i & x & Hw & Hi).
  cbv zeta. rewrite res_bind, final_bind. cbn [ri_read_index].
  rewrite (res_run _ _ _ _ _ Hw), (final_run _ _ _ _ _ Hw). destruct x as [[]|e]; [|eexists; by split].
  rewrite res_bind, final_bind. change (final (mret ?a) ?y) with y. change (res (mret ?a) ?y) with a.
  assert (Hr : ∃ v, range req (set_applied_index i s) = (v, set_applied_index i s, []) ∧ res (range req) s = v).
  { assert (He : res (range req) (set_applied_index i s) = res (range req) s).
    { unfold range, range_at_revision, respond, res, mbind, M_bind. simpl.
      destruct (rq_revision req); [destruct (_ && _); [done|]|]; by destruct (rq_count_only req). }
    assert (Hfin : final (range req) (set_applied_index i s) = set_applied_index i s ∧
      outs (range req) (set_applied_index i s) = []).
    { unfold range, range_at_revision, respond, final, outs, mbind, M_bind. simpl.
      destruct (rq_revision req); [destruct (_ && _); [done|]|]; by destruct (rq_count_only req). }
    exists (res (range req) s). split; [|done]. rewrite run_eq, He. by destruct Hfin as [-> ->]. }
  destruct Hr as (v & Hv & Hvs). rewrite (res_run _ _ _ _ _ Hv), (final_run _ _ _ _ _ Hv).
  eexists. split; [done|]. intros resp ->. split_and!; [done|done|by apply Hi|done].
Qed.

Lemma linearizable_read_caught_up_witness :
  ∃ resp, res (linearizable_read 2 (λ _, 0%Z) (get_request (str "a")) 5) (new 0) = Some (Ok resp).
Proof.
  destruct (linearizable_read_caught_up 2 (λ _, 0%Z) (get_request (str "a")) 5 (new 0)) as (x & Hx & _).
  - lia.
  - rewrite Hx. vm_compute in Hx. injection Hx as <-. eexists. reflexivity.
Defined.
