(* ===== verification/EtcdSha256.v ===== *)
(** * SHA-256

    The in-tree SHA-256 of [store.rs] ([Sha256::new], [update], [finalize], [compress],
    [sha256_hex]) on 32-bit words.  The streaming loops are shown to compute the digest FIPS
    180-4 defines: the compression function folded over the 64-byte blocks of the padded
    message. *)

From stdpp Require Import pretty.
From S2P Require Import Prelude Bytes EtcdTypes.

Definition u32_modulus : N := 4294967296.
Definition add32 (a b : N) : N := (a + b) mod u32_modulus.
Definition rotate_right (x n : N) : N :=
  N.lor (N.shiftr x n) (N.shiftl x (32 - n) mod u32_modulus).
Definition not32 (x : N) : N := N.lxor x 4294967295.

Definition sha_init : list N :=
  [0x6a09e667; 0xbb67ae85; 0x3c6ef372; 0xa54ff53a; 0x510e527f; 0x9b05688c; 0x1f83d9ab; 0x5be0cd19].

Definition sha_k : list N :=
  [
   (* 428a2f98 71374491 b5c0fbcf e9b5dba5 3956c25b 59f111f1 923f82a4 *)
   1116352408; 1899447441; 3049323471; 3921009573; 961987163; 1508970993; 2453635748;
   (* ab1c5ed5 d807aa98 12835b01 243185be 550c7dc3 72be5d74 80deb1fe *)
   2870763221; 3624381080; 310598401; 607225278; 1426881987; 1925078388; 2162078206;
   (* 9bdc06a7 c19bf174 e49b69c1 efbe4786 0fc19dc6 240ca1cc 2de92c6f *)
   2614888103; 3248222580; 3835390401; 4022224774; 264347078; 604807628; 770255983;
   (* 4a7484aa 5cb0a9dc 76f988da 983e5152 a831c66d b00327c8 bf597fc7 *)
   1249150122; 1555081692; 1996064986; 2554220882; 2821834349; 2952996808; 3210313671;
   (* c6e00bf3 d5a79147 06ca6351 14292967 27b70a85 2e1b2138 4d2c6dfc *)
   3336571891; 3584528711; 113926993; 338241895; 666307205; 773529912; 1294757372;
   (* 53380d13 650a7354 766a0abb 81c2c92e 92722c85 a2bfe8a1 a81a664b *)
   1396182291; 1695183700; 1986661051; 2177026350; 2456956037; 2730485921; 2820302411;
   (* c24b8b70 c76c51a3 d192e819 d6990624 f40e3585 106aa070 19a4c116 *)
   3259730800; 3345764771; 3516065817; 3600352804; 4094571909; 275423344; 430227734;
   (* 1e376c08 2748774c 34b0bcb5 391c0cb3 4ed8aa4a 5b9cca4f 682e6ff3 *)
   506948616; 659060556; 883997877; 958139571; 1322822218; 1537002063; 1747873779;
   (* 748f82ee 78a5636f 84c87814 8cc70208 90befffa a4506ceb bef9a3f7 *)
   1955562222; 2024104815; 2227730452; 2361852424; 2428436474; 2756734187; 3204031479;
   (* c67178f2 *)
   3329325298].

Definition at_ (w : list N) (i : nat) : N := default 0 (w !! i).

(** The message schedule [w], filled from index 16 on. *)
Definition schedule_step (w : list N) (i : nat) : list N :=
  let s0 := N.lxor (N.lxor (rotate_right (at_ w (i - 15)) 7) (rotate_right (at_ w (i - 15)) 18))
              (N.shiftr (at_ w (i - 15)) 3) in
  let s1 := N.lxor (N.lxor (rotate_right (at_ w (i - 2)) 17) (rotate_right (at_ w (i - 2)) 19))
              (N.shiftr (at_ w (i - 2)) 10) in
  w ++ [add32 (add32 (add32 (at_ w (i - 16)) s0) (at_ w (i - 7))) s1].
Definition schedule (block : bytes) : list N :=
  foldl schedule_step ((λ i, from_be (take 4 (drop (i * 4) block))) <$> seq 0 16) (seq 16 48).

Record Regs : Type := mkRegs { ra : N; rb : N; rc : N; rd : N; re : N; rf : N; rg : N; rh : N }.

Definition round (w : list N) (r : Regs) (i : nat) : Regs :=
  let s1 := N.lxor (N.lxor (rotate_right (re r) 6) (rotate_right (re r) 11)) (rotate_right (re r) 25) in
  let ch := N.lxor (N.land (re r) (rf r)) (N.land (not32 (re r)) (rg r)) in
  let t1 := add32 (add32 (add32 (add32 (rh r) s1) ch) (at_ sha_k i)) (at_ w i) in
  let s0 := N.lxor (N.lxor (rotate_right (ra r) 2) (rotate_right (ra r) 13)) (rotate_right (ra r) 22) in
  let mj := N.lxor (N.lxor (N.land (ra r) (rb r)) (N.land (ra r) (rc r))) (N.land (rb r) (rc r)) in
  let t2 := add32 s0 mj in
  mkRegs (add32 t1 t2) (ra r) (rb r) (rc r) (add32 (rd r) t1) (re r) (rf r) (rg r).

Definition compress (state : list N) (block : bytes) : list N :=
  let w := schedule block in
  let r := foldl (round w) (mkRegs (at_ state 0) (at_ state 1) (at_ state 2) (at_ state 3)
             (at_ state 4) (at_ state 5) (at_ state 6) (at_ state 7)) (seq 0 64) in
  zip_with add32 state [ra r; rb r; rc r; rd r; re r; rf r; rg r; rh r].

Record Sha256 : Type := mkSha256 { sha_state : list N; sha_buffer : bytes; sha_total_len : u64 }.
Definition sha_new : Sha256 := mkSha256 sha_init [] 0.

(** [while self.buffer.len() >= 64 { compress; drain }]; every iteration removes bytes, so
    the length of the buffer is fuel enough. *)
Fixpoint absorb (fuel : nat) (state : list N) (buffer : bytes) : list N * bytes :=
  match fuel with
  | O => (state, buffer)
  | S fuel =>
      if (64 <=? length buffer)%nat then absorb fuel (compress state (take 64 buffer)) (drop 64 buffer)
      else (state, buffer)
  end.

Definition sha_update (h : Sha256) (data : bytes) : Sha256 :=
  let buffer := sha_buffer h ++ data in
  let '(state, buffer) := absorb (length buffer) (sha_state h) buffer in
  mkSha256 state buffer (sha_total_len h +w vlen data).

(** [while self.buffer.len() % 64 != 56 { push(0) }], at most 63 iterations *)
Fixpoint pad_zeros (fuel : nat) (buffer : bytes) : bytes :=
  match fuel with
  | O => buffer
  | S fuel => if (length buffer mod 64 =? 56)%nat then buffer else pad_zeros fuel (buffer ++ [0])
  end.

Definition sha_finalize (h : Sha256) : bytes :=
  let bit_len := u64_mul (sha_total_len h) 8 in
  let buffer := pad_zeros 64 (sha_buffer h ++ [0x80]) ++ to_be 8 bit_len in
  mjoin (to_be 4 <$> (absorb (length buffer) (sha_state h) buffer).1).

Definition sha256_hex (data : bytes) : bytes :=
  mjoin (hex_byte <$> sha_finalize (sha_update sha_new data)).

#[global] Arguments sha256_hex : simpl never.

Example sha256_empty :
  sha256_hex [] = str "e3b0c44298fc1c149afbf4c8996fb92427ae41e4649b934ca495991b7852b855".
Proof. vm_compute. reflexivity. Qed.
Example sha256_abc :
  sha256_hex (str "abc") = str "ba7816bf8f01cfea414140de5dae2223b00361a396177a9cb410ff61f20015ad".
Proof. vm_compute. reflexivity. Qed.

(** ** The digest of FIPS 180-4 *)

(** The first [n] blocks of 64 bytes. *)
Definition blocks (n : nat) (p : bytes) : list bytes := (λ i, take 64 (drop (64 * i) p)) <$> seq 0 n.

(** The padded message: a one bit, as few zeros as needed, the length in bits. *)
Definition padded (m : bytes) : bytes :=
  m ++ [0x80] ++ replicate ((119 - length m mod 64) mod 64) 0 ++ to_be 8 (8 * vlen m).

Lemma blocks_S n p : blocks (S n) p = take 64 p :: blocks n (drop 64 p).
Proof.
  unfold blocks. cbn [seq]. rewrite fmap_cons, Nat.mul_0_r, drop_0. f_equal.
  rewrite <- seq_shift, <- list_fmap_compose. apply list_fmap_ext. intros i x _. unfold compose.
  rewrite drop_drop. do 2 f_equal. lia.
Qed.

Lemma absorb_blocks n fuel state buffer :
  (64 * n ≤ length buffer < 64 * S n)%nat → (n ≤ fuel)%nat →
  absorb fuel state buffer = (foldl compress state (blocks n buffer), drop (64 * n) buffer).
Proof.
  revert fuel state buffer. induction n as [|n IH]; intros fuel state buffer Hl Hf.
  - rewrite Nat.mul_0_r, drop_0. destruct fuel as [|fuel]; [done|]. cbn [absorb].
    destruct (Nat.leb_spec 64 (length buffer)); [lia|done].
  - destruct fuel as [|fuel]; [lia|]. cbn [absorb].
    destruct (Nat.leb_spec 64 (length buffer)); [|lia].
    rewrite blocks_S, IH; [|rewrite length_drop; lia|lia]. simpl foldl. f_equal.
    rewrite drop_drop. f_equal. lia.
Qed.

Lemma pad_zeros_spec k fuel buffer :
  ((length buffer + k) mod 64 = 56)%nat → (∀ j, j < k → (length buffer + j) mod 64 ≠ 56)%nat →
  (k < fuel)%nat → pad_zeros fuel buffer = buffer ++ replicate k 0.
Proof.
  revert fuel buffer. induction k as [|k IH]; intros fuel buffer Hk Hj Hf; (destruct fuel as [|fuel]; [lia|]); cbn [pad_zeros].
  - rewrite Nat.add_0_r in Hk. rewrite Hk. cbn [replicate]. by rewrite app_nil_r.
  - rewrite (proj2 (Nat.eqb_neq _ _)).
    2: { specialize (Hj 0%nat ltac:(lia)). by rewrite Nat.add_0_r in Hj. }
    rewrite IH; [by rewrite <- (assoc_L (++))| | |lia]; rewrite length_app; cbn [length].
    + by replace (length buffer + 1 + k)%nat with (length buffer + S k)%nat by lia.
    + intros j Hlt. specialize (Hj (S j) ltac:(lia)). by replace (length buffer + 1 + j)%nat with (length buffer + S j)%nat by lia.
Qed.

Lemma pad_zeros_count l : let k := ((119 - l mod 64) mod 64)%nat in
  ((l + 1 + k) mod 64 = 56 ∧ (∀ j, j < k → (l + 1 + j) mod 64 ≠ 56) ∧ k < 64)%nat.
Proof.
  pose proof (Nat.div_mod_eq l 64) as Hd. pose proof (Nat.mod_upper_bound l 64 ltac:(lia)) as Hb.
  revert Hd Hb. generalize (l / 64)%nat as d, (l mod 64)%nat as r. intros d r -> Hr k.
  assert (Hmod : ∀ x, ((64 * d + r + 1 + x) mod 64 = (r + 1 + x) mod 64)%nat).
  { intros x. replace (64 * d + r + 1 + x)%nat with (r + 1 + x + d * 64)%nat by lia. apply Nat.Div0.mod_add. }
  assert (Hk : k = if decide (r ≤ 55)%nat then (55 - r)%nat else (119 - r)%nat).
  { unfold k. case_decide.
    - replace (119 - r)%nat with (55 - r + 1 * 64)%nat by lia. rewrite Nat.Div0.mod_add. apply Nat.mod_small. lia.
    - apply Nat.mod_small. lia. }
  split_and!.
  - rewrite Hmod, Hk. case_decide.
    + rewrite Nat.mod_small; lia.
    + replace (r + 1 + (119 - r))%nat with (56 + 1 * 64)%nat by lia. rewrite Nat.Div0.mod_add. reflexivity.
  - intros j Hj. rewrite Hmod. rewrite Hk in Hj. case_decide.
    + rewrite Nat.mod_small; lia.
    + destruct (decide (r + 1 + j < 64)%nat); [rewrite Nat.mod_small; lia|].
      replace (r + 1 + j)%nat with (r + 1 + j - 64 + 1 * 64)%nat by lia. rewrite Nat.Div0.mod_add.
      rewrite Nat.mod_small; lia.
  - unfold k. apply Nat.mod_upper_bound. lia.
Qed.

Lemma blocks_app n k p1 p2 : length p1 = (64 * n)%nat →
  blocks (n + k) (p1 ++ p2) = blocks n p1 ++ blocks k p2.
Proof.
  revert p1. induction n as [|n IH]; intros p1 Hl.
  - destruct p1; [done|simpl in Hl; lia].
  - rewrite Nat.add_succ_l, !blocks_S. rewrite take_app_le, drop_app_le by lia. rewrite IH; [done|].
    rewrite length_drop. lia.
Qed.

Lemma blocks_prefix n p1 p2 : length p1 = (64 * n)%nat → blocks n (p1 ++ p2) = blocks n p1.
Proof. intros Hl. rewrite <- (Nat.add_0_r n) at 1. rewrite blocks_app by done. apply app_nil_r. Qed.

(** SHA-256.  For every message shorter than 2^61 bytes, the streaming implementation
    (a buffer drained in blocks by [update], the padding loop and the second drain of
    [finalize]) returns the words of the compression function folded over the blocks of
    the padded message, whose length is a multiple of 64. *)
Theorem sha256_fips m :
  vlen m < 2 ^ 61 →
  let n := (length (padded m) / 64)%nat in
  length (padded m) = (64 * n)%nat ∧
  sha_finalize (sha_update sha_new m) = mjoin (to_be 4 <$> foldl compress sha_init (blocks n (padded m))).
Proof.
  intros Hm n. destruct (pad_zeros_count (length m)) as (Hk1 & Hk2 & Hk3).
  set (k := ((119 - length m mod 64) mod 64)%nat) in *.
  set (q := (length m / 64)%nat). set (rest := drop (64 * q) m).
  assert (Hlm : (64 * q ≤ length m < 64 * S q)%nat).
  { pose proof (Nat.div_mod_eq (length m) 64). pose proof (Nat.mod_upper_bound (length m) 64 ltac:(lia)). unfold q. lia. }
  assert (Hrest : length rest = (length m - 64 * q)%nat) by apply length_drop.
  set (tail := rest ++ [0x80] ++ replicate k 0 ++ to_be 8 (8 * vlen m)).
  assert (Hpad : padded m = take (64 * q) m ++ tail).
  { unfold padded, tail, rest. fold k. by rewrite (assoc_L (++) (take _ _)), take_drop. }
  assert (Htail : length tail = (64 * ((length m + 1 + k + 8) / 64 - q))%nat ∧ (q ≤ (length m + 1 + k + 8) / 64)%nat).
  { unfold tail. rewrite !length_app, length_replicate, length_to_be, Hrest. simpl length.
    pose proof (Nat.div_mod_eq (length m + 1 + k + 8) 64) as Hd.
    pose proof (Nat.div_mod_eq (length m + 1 + k) 64) as Hd1. rewrite Hk1 in Hd1.
    assert (Hz : ((length m + 1 + k + 8) mod 64 = 0)%nat).
    { rewrite Hd1. replace (64 * ((length m + 1 + k) / 64) + 56 + 8)%nat with (0 + (S ((length m + 1 + k) / 64)) * 64)%nat by lia.
      rewrite Nat.Div0.mod_add. done. }
    assert (q ≤ (length m + 1 + k + 8) / 64)%nat by (apply Nat.Div0.div_le_mono; lia). lia. }
  destruct Htail as [Htl Hq]. set (t := ((length m + 1 + k + 8) / 64 - q)%nat) in *.
  assert (Htake : length (take (64 * q) m) = (64 * q)%nat) by (rewrite length_take; lia).
  assert (Hlen : length (padded m) = (64 * (q + t))%nat) by (rewrite Hpad, length_app, Htake, Htl; lia).
  assert (Hn : n = (q + t)%nat) by (unfold n; rewrite Hlen, Nat.mul_comm; apply Nat.div_mul; lia).
  split; [by rewrite Hn|]. rewrite Hn, Hpad, blocks_app by done.
  unfold sha_update. cbn [sha_new sha_buffer sha_state sha_total_len app].
  rewrite (absorb_blocks q) by lia. fold rest. unfold sha_finalize. cbn [sha_buffer sha_state sha_total_len].
  assert (Hbits : u64_mul (0 +w vlen m) 8 = 8 * vlen m).
  { unfold u64_mul. rewrite u64_add_small by (unfold u64_modulus; lia).
    rewrite N.mod_small by (unfold u64_modulus; lia). lia. }
  rewrite Hbits, (pad_zeros_spec k).
  - rewrite <- !(assoc_L (++)). fold tail. rewrite (absorb_blocks t) by lia. simpl fst.
    rewrite foldl_app. do 3 f_equal. rewrite <- (take_drop (64 * q) m) at 1. by rewrite blocks_prefix.
  - rewrite length_app, Hrest. cbn [length]. etrans; [|exact Hk1].
    replace (length m + 1 + k)%nat with (length m - 64 * q + 1 + k + q * 64)%nat by lia.
    by rewrite Nat.Div0.mod_add.
  - intros j Hj. specialize (Hk2 j Hj). rewrite length_app, Hrest. cbn [length].
    replace (length m + 1 + j)%nat with (length m - 64 * q + 1 + j + q * 64)%nat in Hk2 by lia.
    by rewrite Nat.Div0.mod_add in Hk2.
  - done.
Qed.

Lemma sha256_fips_witness :
  sha_finalize (sha_update sha_new (str "abc")) =
  mjoin (to_be 4 <$> foldl compress sha_init (blocks 1 (padded (str "abc")))).
Proof. apply (sha256_fips (str "abc")). vm_compute. reflexivity. Defined.
