(* ===== verification/EtcdSnapshot.v ===== *)
(** * Snapshots of the store

    The snapshot methods of [store.rs]: building the blob, streaming it in chunks,
    reassembling and restoring it, and the chunk-by-chunk sender.  [serde_json] is the class
    [SnapshotJson]: [render] serializes the payload, [parse] reads a value back as the
    results of the field accesses [restore_snapshot] makes. *)

From stdpp Require Import pretty.
From S2P Require Import Prelude Bytes Effects EtcdTypes EtcdStore EtcdMvcc EtcdHistory EtcdKv EtcdSha256.

Definition SNAPSHOT_CHUNK_SIZE : usize := 32768.
Definition SNAPSHOT_SENDER_CHUNK_SIZE : usize := SNAPSHOT_CHUNK_SIZE.

Record Payload : Type := mkPayload {
  pl_revision : u64;
  pl_compact_revision : u64;
  pl_kvs : list KeyValue;
  pl_leases : list Lease;
  pl_members : list Member
}.

(** [v.get(name).and_then(..)] for the five fields *)
Record Parsed : Type := mkParsed {
  pv_revision : option u64;
  pv_compact_revision : option u64;
  pv_kvs : option (list KeyValue);
  pv_leases : option (list Lease);
  pv_members : option (list Member)
}.

Class SnapshotJson : Type := {
  render : Payload → bytes;
  parse : bytes → result bytes Parsed
}.
(** What the code relies on: the JSON text of a payload reads back as the payload. *)
Class SnapshotJsonLaws `{SnapshotJson} : Prop := {
  parse_render p : parse (render p) =
    Ok (mkParsed (Some (pl_revision p)) (Some (pl_compact_revision p)) (Some (pl_kvs p))
          (Some (pl_leases p)) (Some (pl_members p)))
}.

Definition lease_le (a b : Lease) : Prop := (l_id a ≤ l_id b)%Z.
#[export] Instance lease_le_dec a b : Decision (lease_le a b).
Proof. unfold lease_le. apply _. Defined.

(** [slice::chunks(size)] *)
Fixpoint chunks_of (fuel : nat) (size : usize) (l : bytes) : list bytes :=
  match fuel, l with
  | S fuel, _ :: _ => take (N.to_nat size) l :: chunks_of fuel size (drop (N.to_nat size) l)
  | _, _ => []
  end.

(** [(i + 1) * SIZE] bytes are consumed after chunk [i]. *)
Fixpoint number_chunks (h : ResponseHeader) (total : usize) (checksum : bytes) (i : usize)
    (slices : list bytes) : list SnapshotChunk :=
  match slices with
  | [] => []
  | slice :: slices =>
      mkSnapshotChunk h (saturating_sub total (u64_mul (i +w 1) SNAPSHOT_CHUNK_SIZE)) slice checksum
      :: number_chunks h total checksum (i +w 1) slices
  end.

(** The loop of [assemble_chunks]: the concatenation, or the first foreign checksum. *)
Fixpoint collect (expected : bytes) (blob : bytes) (chunks : list SnapshotChunk) : EtcdResult bytes :=
  match chunks with
  | [] => Ok blob
  | c :: chunks =>
      if decide (sc_checksum c = expected) then collect expected (blob ++ sc_blob c) chunks
      else Err (SnapshotChecksumMismatch expected (sc_checksum c))
  end.

Definition assemble_chunks (chunks : list SnapshotChunk) : EtcdResult (bytes * bytes) :=
  match chunks with
  | [] => Err (SnapshotDecode (str "no chunks"))
  | c0 :: _ =>
      let expected := sc_checksum c0 in
      let? blob := collect expected [] chunks in
      let actual := sha256_hex blob in
      if decide (actual = expected) then Ok (blob, expected)
      else Err (SnapshotChecksumMismatch expected actual)
  end.

(** The loops that refill the store. *)
Definition restore_kv (s : KvStore) (kv : KeyValue) : KvStore :=
  set_current (<[kv_key kv := kv]> (current s))
    (set_key_index (<[kv_key kv := index_of s (kv_key kv) ++ [kv_mod_revision kv]]> (key_index s)) s).
Definition restore_lease (s : KvStore) (l : Lease) : KvStore := set_leases (<[l_id l := l]> (leases s)) s.

Section Snapshot.
Context `{SnapshotJson}.

Definition payload (s : KvStore) : Payload :=
  mkPayload (revision s) (compacted_revision s)
    (merge_sort kv_le (snd <$> map_to_list (current s)))
    (merge_sort lease_le (snd <$> map_to_list (leases s)))
    (members s).

Definition snapshot_blob (s : KvStore) : bytes * bytes * SnapshotMeta :=
  let blob := render (payload s) in
  let checksum := sha256_hex blob in
  (blob, checksum,
   mkSnapshotMeta (revision s) (compacted_revision s) (vlen blob) checksum
     (vlen (members s)) (vlen (pl_leases (payload s)))).

Definition snapshot_meta (s : KvStore) : SnapshotMeta := (snapshot_blob s).2.

Definition snapshot_stream (s : KvStore) : list SnapshotChunk :=
  let '(blob, checksum, _) := snapshot_blob s in
  match blob with
  | [] => [mkSnapshotChunk (header_of s) 0 [] checksum]
  | _ :: _ => number_chunks (header_of s) (vlen blob) checksum 0
                (chunks_of (length blob) SNAPSHOT_CHUNK_SIZE blob)
  end.

Definition restore_snapshot (blob checksum : bytes) : Store (EtcdResult unit) :=
  let actual := sha256_hex blob in
  if decide (actual = checksum) then
    match parse blob with
    | Err e => mret (Err (SnapshotDecode e))
    | Ok v =>
        match pv_revision v with
        | None => mret (Err (SnapshotDecode (str "missing revision")))
        | Some rev =>
            modify (λ s, set_leases ∅ (set_history ∅ (set_key_index ∅ (set_current ∅ s))));;
            modify (λ s, foldl restore_kv s (default [] (pv_kvs v)));;
            modify (λ s, foldl restore_lease s (default [] (pv_leases v)));;
            modify (set_members (default [] (pv_members v)));;
            modify (set_revision rev);;
            modify (set_compacted_revision (default 0 (pv_compact_revision v)));;
            mret (Ok tt)
        end
    end
  else mret (Err (SnapshotChecksumMismatch checksum actual)).

(** ** The sender *)

Definition snapshot_sender_open (client_id : bytes) : Store (bytes * SnapshotMeta * SnapshotSenderState) :=
  s ← get;
  let '(blob, checksum, meta) := snapshot_blob s in
  let id := decimal (sm_revision meta) ++ str "-" ++ client_id in
  let state := mkSenderState (sm_revision meta) (vlen blob) 0 checksum 0 (vlen blob =? 0) in
  modify (λ s, set_snapshot_senders (<[id := state]> (snapshot_senders s)) s);;
  modify (λ s, set_snapshot_blobs (<[id := blob]> (snapshot_blobs s)) s);;
  mret (id, meta, state).
End Snapshot.

Definition snapshot_sender_next_chunk (id : bytes) : Store (EtcdResult (option SnapshotChunk)) :=
  s ← get;
  match snapshot_senders s !! id with
  | None => mret (Err (SnapshotDecode (str "unknown snapshot id " ++ id)))
  | Some state =>
      if ss_completed state then mret (Ok None)
      else
        match snapshot_blobs s !! id with
        | None => mret (Err (SnapshotDecode (str "snapshot blob missing for " ++ id)))
        | Some blob =>
            let start := ss_sent_bytes state in
            let stop := (start +w SNAPSHOT_SENDER_CHUNK_SIZE) `min` vlen blob in
            let chunk := mkSnapshotChunk (header_of s) (saturating_sub (vlen blob) stop)
                           (vslice blob start stop) (ss_checksum state) in
            let state' := mkSenderState (ss_revision state) (ss_total_bytes state) stop
                            (ss_checksum state) (ss_chunks_sent state +w 1)
                            (ss_completed state || (stop =? vlen blob)) in
            modify (λ s, set_snapshot_senders (<[id := state']> (snapshot_senders s)) s);;
            mret (Ok (Some chunk))
        end
  end.

Definition snapshot_sender_state (s : KvStore) (id : bytes) : option SnapshotSenderState := snapshot_senders s !! id.

Definition snapshot_sender_close (id : bytes) : Store unit :=
  modify (λ s, set_snapshot_senders (delete id (snapshot_senders s)) s);;
  modify (λ s, set_snapshot_blobs (delete id (snapshot_blobs s)) s).

Definition snapshot_sender_iter_keys (s : KvStore) : list bytes :=
  merge_sort bytes_le (fst <$> map_to_list (current s)).

(** ** Streaming and reassembling *)

Lemma chunks_of_join fuel size l : 0 < size → (length l ≤ fuel)%nat → mjoin (chunks_of fuel size l) = l.
Proof.
  intros Hs. revert l. induction fuel as [|fuel IH]; intros [|b l] Hl; simpl in Hl; try done; [lia|].
  cbn [chunks_of mjoin list_join]. fold (mjoin (M:=list) (A:=N)).
  change (list_join ?x) with (mjoin x). rewrite IH; [apply take_drop|].
  rewrite length_drop. simpl. lia.
Qed.

Lemma collect_numbered h total ck i slices acc :
  collect ck acc (number_chunks h total ck i slices) = Ok (acc ++ mjoin slices).
Proof.
  revert i acc. induction slices as [|x slices IH]; intros i acc; simpl; [by rewrite app_nil_r|].
  rewrite decide_True by done. rewrite IH. by rewrite <- (assoc_L (++)).
Qed.

Section Theorems.
Context `{SnapshotJsonLaws}.

Lemma stream_assemble s :
  assemble_chunks (snapshot_stream s) = Ok (render (payload s), sha256_hex (render (payload s))).
Proof.
  unfold snapshot_stream, snapshot_blob. generalize (render (payload s)) as blob. intros blob.
  generalize (header_of s) as h. intros h. destruct blob as [|b l].
  - cbn [assemble_chunks collect sc_checksum sc_blob app]. rewrite decide_True by done.
    by rewrite decide_True by done.
  - remember (b :: l) as blob eqn:Hb.
    set (slices := chunks_of (length blob) SNAPSHOT_CHUNK_SIZE blob).
    assert (Hj : mjoin slices = blob) by (apply chunks_of_join; [done|lia]).
    pose proof (collect_numbered h (vlen blob) (sha256_hex blob) 0 slices []) as Hc.
    destruct slices as [|x slices']; [simpl in Hj; congruence|].
    unfold assemble_chunks. cbn [number_chunks sc_checksum] in *. rewrite Hc, app_nil_l, Hj.
    by rewrite decide_True by done.
Qed.

(** *** Refilling the maps *)

Lemma restore_kvs_fields kvs s :
  let s' := foldl restore_kv s kvs in
  history s' = history s ∧ leases s' = leases s.
Proof.
  revert s. induction kvs as [|kv kvs IH]; intros s; [done|]. simpl.
  destruct (IH (restore_kv s kv)) as [-> ->]. done.
Qed.

Lemma restore_kvs_current kvs s k :
  NoDup (kv_key <$> kvs) →
  current (foldl restore_kv s kvs) !! k =
  match List.find (λ kv, bool_decide (kv_key kv = k)) kvs with
  | Some kv => Some kv
  | None => current s !! k
  end.
Proof.
  revert s. induction kvs as [|kv kvs IH]; intros s Hnd; [done|].
  apply NoDup_cons in Hnd as [Hni Hnd]. cbn [foldl List.find]. rewrite IH by done.
  simpl. case_bool_decide as Hk.
  - subst k. destruct (List.find _ kvs) as [kv'|] eqn:Hf; [|by rewrite lookup_insert_eq].
    apply List.find_some in Hf as [Hin Hk']. apply bool_decide_eq_true in Hk'.
    destruct Hni. rewrite <- Hk'. apply list_elem_of_fmap_2. by apply list_elem_of_In.
  - destruct (List.find _ kvs); [done|]. by rewrite lookup_insert_ne.
Qed.

Lemma restore_leases_lookup ls s :
  NoDup (l_id <$> ls) →
  current (foldl restore_lease s ls) = current s ∧
  history (foldl restore_lease s ls) = history s ∧
  ∀ id, leases (foldl restore_lease s ls) !! id =
  match List.find (λ l, bool_decide (l_id l = id)) ls with
  | Some l => Some l
  | None => leases s !! id
  end.
Proof.
  revert s. induction ls as [|l ls IH]; intros s Hnd; [done|].
  apply NoDup_cons in Hnd as [Hni Hnd]. cbn [foldl List.find].
  destruct (IH (restore_lease s l) Hnd) as (-> & -> & Hl). split_and!; [done|done|]. intros id. rewrite Hl.
  simpl. case_bool_decide as Hk.
  - subst id. destruct (List.find _ ls) as [l'|] eqn:Hf; [|by rewrite lookup_insert_eq].
    apply List.find_some in Hf as [Hin Hk']. apply bool_decide_eq_true in Hk'.
    destruct Hni. rewrite <- Hk'. apply list_elem_of_fmap_2. by apply list_elem_of_In.
  - destruct (List.find _ ls); [done|]. by rewrite lookup_insert_ne.
Qed.

(** The values of a map whose values carry their key, listed and looked up. *)
Lemma find_values {K V} `{Countable K} (key : V → K) (m : gmap K V) (l : list V) (k : K) :
  (∀ k v, m !! k = Some v → key v = k) → l ≡ₚ snd <$> map_to_list m →
  NoDup (key <$> l) ∧ List.find (λ v, bool_decide (key v = k)) l = m !! k.
Proof.
  intros Hm Hp.
  assert (Hkeys : key <$> l ≡ₚ fst <$> map_to_list m).
  { rewrite Hp, <- list_fmap_compose. apply reflexive_eq, list_fmap_ext. intros i [k' v] Hi.
    simpl. apply Hm. apply elem_of_map_to_list. by apply list_elem_of_lookup_2 in Hi. }
  assert (Hnd : NoDup (key <$> l)) by (rewrite Hkeys; apply NoDup_fst_map_to_list).
  split; [done|].
  assert (Hin : ∀ v, v ∈ l ↔ m !! key v = Some v).
  { intros v. rewrite Hp, list_elem_of_fmap. split.
    - intros ([k' v'] & -> & Hv%elem_of_map_to_list). simpl. by rewrite (Hm _ _ Hv).
    - intros Hv. exists (key v, v). split; [done|]. by apply elem_of_map_to_list. }
  destruct (List.find _ l) as [v|] eqn:Hf.
  - apply List.find_some in Hf as [Hv Hk]. apply bool_decide_eq_true in Hk.
    apply list_elem_of_In, Hin in Hv. by rewrite <- Hk, Hv.
  - destruct (m !! k) as [v|] eqn:Hv; [|done]. exfalso.
    pose proof (Hm _ _ Hv) as Hk. rewrite <- Hk in Hv. apply Hin, list_elem_of_In in Hv.
    apply (List.find_none _ _ Hf) in Hv. by apply bool_decide_eq_false in Hv.
Qed.

Lemma restore_payload_run p s0 :
  NoDup (kv_key <$> pl_kvs p) → NoDup (l_id <$> pl_leases p) →
  ∃ s', restore_snapshot (render p) (sha256_hex (render p)) s0 = (Ok tt, s', []) ∧
    (∀ k, current s' !! k = List.find (λ kv, bool_decide (kv_key kv = k)) (pl_kvs p)) ∧
    (∀ id, leases s' !! id = List.find (λ l, bool_decide (l_id l = id)) (pl_leases p)) ∧
    history s' = ∅ ∧ members s' = pl_members p ∧ revision s' = pl_revision p ∧
    compacted_revision s' = pl_compact_revision p.
Proof.
  intros Hk Hl. unfold restore_snapshot. rewrite decide_True by done. rewrite parse_render.
  cbn [pv_revision pv_kvs pv_leases pv_members pv_compact_revision default from_option].
  eexists. split; [etrans; [do 6 run1; reflexivity|reflexivity]|]. cbv beta delta [id].
  set (s1 := set_leases ∅ (set_history ∅ (set_key_index ∅ (set_current ∅ s0)))).
  destruct (restore_kvs_fields (pl_kvs p) s1) as [Hh1 Hl1].
  pose proof (λ k, restore_kvs_current (pl_kvs p) s1 k Hk) as Hc1.
  remember (foldl restore_kv s1 (pl_kvs p)) as s2 eqn:Hs2. clear Hs2.
  destruct (restore_leases_lookup (pl_leases p) s2 Hl) as (Hc2 & Hh2 & Hl2).
  cbn [current leases history members revision compacted_revision set_compacted_revision set_revision set_members].
  split_and!; [..|done|done|done].
  - intros k. rewrite Hc2, Hc1. change (current s1) with (∅ : gmap bytes KeyValue). rewrite lookup_empty.
    by destruct (List.find _ _).
  - intros id. rewrite Hl2, Hl1. change (leases s1) with (∅ : gmap Z Lease). rewrite lookup_empty.
    by destruct (List.find _ _).
  - by rewrite Hh2, Hh1.
Qed.

(** Snapshots.  The chunks a store streams reassemble to its snapshot and checksum;
    restoring them into any other store gives it the same live pairs, leases, members,
    revision and compaction revision. *)
Theorem snapshot_restore_roundtrip s s0 :
  keyed (current s) → (∀ id l, leases s !! id = Some l → l_id l = id) →
  ∃ blob checksum,
    assemble_chunks (snapshot_stream s) = Ok (blob, checksum) ∧
    res (restore_snapshot blob checksum) s0 = Ok tt ∧
    let s' := final (restore_snapshot blob checksum) s0 in
    current s' = current s ∧ leases s' = leases s ∧ members s' = members s ∧
    revision s' = revision s ∧ compacted_revision s' = compacted_revision s.
Proof.
  intros Hk Hl. eexists _, _. split; [apply stream_assemble|].
  assert (Hkv : ∀ k, NoDup (kv_key <$> pl_kvs (payload s)) ∧
    List.find (λ kv, bool_decide (kv_key kv = k)) (pl_kvs (payload s)) = current s !! k).
  { intros k. apply find_values; [exact Hk|apply merge_sort_Permutation]. }
  assert (Hls : ∀ id, NoDup (l_id <$> pl_leases (payload s)) ∧
    List.find (λ l, bool_decide (l_id l = id)) (pl_leases (payload s)) = leases s !! id).
  { intros id. apply find_values; [exact Hl|apply merge_sort_Permutation]. }
  destruct (restore_payload_run (payload s) s0) as (s' & Hrun & Hc' & Hl' & _ & Hm & Hr & Hcr);
    [apply (Hkv [])|apply (Hls 0%Z)|].
  rewrite (res_run _ _ _ _ _ Hrun), (final_run _ _ _ _ _ Hrun). split; [done|]. cbv zeta.
  split_and!; [| |done..].
  - apply map_eq. intros k. rewrite Hc'. apply Hkv.
  - apply map_eq. intros id. rewrite Hl'. apply Hls.
Qed.

(** Time travel after a restore.  A store just restored from a snapshot answers every
    read at a revision, also at its present one, with nothing, because the history is
    empty; plain reads see the restored pairs. *)
Theorem restored_time_travel_empty s s0 k r :
  keyed (current s) → (∀ id l, leases s !! id = Some l → l_id l = id) →
  let s' := final (restore_snapshot (render (payload s)) (sha256_hex (render (payload s)))) s0 in
  current s' !! k = current s !! k ∧ get_at_revision s' k r = None.
Proof.
  intros Hk Hl.
  assert (Hkv : NoDup (kv_key <$> pl_kvs (payload s)) ∧
    List.find (λ kv, bool_decide (kv_key kv = k)) (pl_kvs (payload s)) = current s !! k).
  { apply find_values; [exact Hk|apply merge_sort_Permutation]. }
  destruct (find_values l_id (leases s) (pl_leases (payload s)) 0%Z Hl) as [Hnd _];
    [apply merge_sort_Permutation|].
  destruct (restore_payload_run (payload s) s0 (proj1 Hkv) Hnd) as (s' & Hrun & Hc' & _ & Hh & _).
  rewrite (final_run _ _ _ _ _ Hrun). cbv zeta. split; [rewrite Hc'; apply Hkv|].
  rewrite get_at_index. destruct (last_at r (index_of s' k)) as [r0|]; [|done]. simpl.
  unfold put_at. by rewrite Hh, lookup_empty.
Qed.
End Theorems.

(** ** Pulling a snapshot from a sender *)

(** A client that pulls chunks until the sender says there are no more. *)
Fixpoint pull (fuel : nat) (id : bytes) : Store (option bytes) :=
  match fuel with
  | O => mret None
  | S fuel =>
      r ← snapshot_sender_next_chunk id;
      match r with
      | Ok None => mret (Some [])
      | Ok (Some c) => rest ← pull fuel id; mret ((sc_blob c ++.) <$> rest)
      | Err _ => mret None
      end
  end.

Lemma next_chunk_run id s st blob :
  snapshot_senders s !! id = Some st → snapshot_blobs s !! id = Some blob → ss_completed st = false →
  ∃ c st', snapshot_sender_next_chunk id s =
      (Ok (Some c), set_snapshot_senders (<[id := st']> (snapshot_senders s)) s, []) ∧
    let stop := (ss_sent_bytes st +w SNAPSHOT_SENDER_CHUNK_SIZE) `min` vlen blob in
    sc_blob c = vslice blob (ss_sent_bytes st) stop ∧ ss_sent_bytes st' = stop ∧
    ss_completed st' = (stop =? vlen blob).
Proof.
  intros Hst Hb Hc. unfold snapshot_sender_next_chunk, mbind, M_bind. simpl.
  rewrite Hst, Hc, Hb. simpl. eexists _, _. split; [reflexivity|]. done.
Qed.

Lemma pull_rest fuel id blob s st :
  snapshot_senders s !! id = Some st → snapshot_blobs s !! id = Some blob →
  ss_sent_bytes st ≤ vlen blob → vlen blob < 2 ^ 63 → ss_completed st = (ss_sent_bytes st =? vlen blob) →
  (N.to_nat (vlen blob - ss_sent_bytes st) < fuel)%nat →
  res (pull fuel id) s = Some (drop (N.to_nat (ss_sent_bytes st)) blob).
Proof.
  intros Hst Hb Hle Hbig Hc Hf. revert s st Hst Hb Hle Hc Hf. induction fuel as [|fuel IH]; intros; [lia|].
  cbn [pull]. rewrite res_bind. destruct (N.eqb_spec (ss_sent_bytes st) (vlen blob)) as [He|Hne].
  - assert (Hrun : snapshot_sender_next_chunk id s = (Ok None, s, [])).
    { unfold snapshot_sender_next_chunk, mbind, M_bind. simpl. by rewrite Hst, Hc. }
    rewrite (res_run _ _ _ _ _ Hrun). change (res (mret ?a) ?x) with a. f_equal.
    rewrite He. unfold vlen. rewrite Nat2N.id, drop_ge; done.
  - destruct (next_chunk_run id s st blob Hst Hb Hc) as (c & st' & Hrun & Hcb & Hs' & Hc').
    rewrite (res_run _ _ _ _ _ Hrun), (final_run _ _ _ _ _ Hrun). rewrite res_bind.
    change (res (mret ?a) ?x) with a. rewrite u64_add_small in * by (unfold u64_modulus, SNAPSHOT_SENDER_CHUNK_SIZE, SNAPSHOT_CHUNK_SIZE; lia).
    set (stop := (ss_sent_bytes st + SNAPSHOT_SENDER_CHUNK_SIZE) `min` vlen blob) in *.
    assert (Hstop : ss_sent_bytes st < stop ≤ vlen blob)
      by (unfold stop, SNAPSHOT_SENDER_CHUNK_SIZE, SNAPSHOT_CHUNK_SIZE; lia).
    erewrite (IH _ st').
    + simpl. rewrite Hcb, Hs'. f_equal. unfold vslice.
      rewrite <- (take_drop (N.to_nat (stop - ss_sent_bytes st)) (drop (N.to_nat (ss_sent_bytes st)) blob)) at 2.
      f_equal. rewrite drop_drop. f_equal. lia.
    + apply lookup_insert_eq.
    + done.
    + rewrite Hs'. lia.
    + by rewrite Hc', Hs'.
    + rewrite Hs'. lia.
Qed.

(** The snapshot sender.  A client that opens a sender and pulls until the stream ends
    has received, in order, exactly the bytes of the snapshot at the moment of opening, and
    the stream does end. *)
Theorem sender_reproduces_blob `{SnapshotJson} client fuel s :
  let blob := (snapshot_blob s).1.1 in
  let s1 := final (snapshot_sender_open client) s in
  let id := (res (snapshot_sender_open client) s).1.1 in
  vlen blob < 2 ^ 63 → (length blob < fuel)%nat → res (pull fuel id) s1 = Some blob.
Proof.
  cbv zeta. intros Hbig Hf. unfold snapshot_sender_open. rewrite final_get_bind, res_bind. finals.
  destruct (snapshot_blob s) as [[blob ck] meta] eqn:Hsb. cbn [fst] in Hbig, Hf.
  set (id := decimal (sm_revision meta) ++ str "-" ++ client).
  set (st := mkSenderState (sm_revision meta) (vlen blob) 0 ck 0 (vlen blob =? 0)).
  set (s1 := set_snapshot_blobs (<[id := blob]> (snapshot_blobs s))
    (set_snapshot_senders (<[id := st]> (snapshot_senders s)) s)).
  transitivity (res (pull fuel id) s1); [done|].
  rewrite (pull_rest fuel id blob s1 st).
  - done.
  - apply lookup_insert_eq.
  - apply lookup_insert_eq.
  - simpl. lia.
  - done.
  - simpl. by rewrite N.eqb_sym.
  - simpl. unfold vlen. lia.
Qed.

(** ** A concrete serializer *)

Module SnapshotExample.
Definition kv_tuple (kv : KeyValue) : bytes * bytes * N * N * N * option Z :=
  (kv_key kv, kv_value kv, kv_create_revision kv, kv_mod_revision kv, kv_version kv, kv_lease kv).
Definition tuple_kv (t : bytes * bytes * N * N * N * option Z) : KeyValue :=
  let '(k, v, c, m, n, l) := t in mkKeyValue k v c m n l.
Definition lease_tuple (l : Lease) : Z * Z * Z * list bytes := (l_id l, l_ttl l, l_granted_at l, l_keys l).
Definition tuple_lease (t : Z * Z * Z * list bytes) : Lease :=
  let '(i, ttl, g, ks) := t in mkLease i ttl g ks.
Definition member_tuple (m : Member) : N * bytes * list bytes * list bytes * bool :=
  (m_id m, m_name m, m_peer_urls m, m_client_urls m, m_is_learner m).
Definition tuple_member (t : N * bytes * list bytes * list bytes * bool) : Member :=
  let '(i, n, p, c, b) := t in mkMember i n p c b.

Lemma fmap_retract {A B} (f : A → B) (g : B → A) (l : list A) :
  (∀ x, g (f x) = x) → g <$> (f <$> l) = l.
Proof. intros Hg. induction l as [|x l IH]; [done|]. by rewrite !fmap_cons, Hg, IH. Qed.

Definition encoding : Type :=
  N * N * list (bytes * bytes * N * N * N * option Z) * list (Z * Z * Z * list bytes) *
  list (N * bytes * list bytes * list bytes * bool).

#[local] Instance BitsJson : SnapshotJson := {
  render p := bits (encode ((pl_revision p, pl_compact_revision p, kv_tuple <$> pl_kvs p,
                             lease_tuple <$> pl_leases p, member_tuple <$> pl_members p) : encoding));
  parse b :=
    match decode (unbits b) : option encoding with
    | Some (r, c, kvs, ls, ms) =>
        Ok (mkParsed (Some r) (Some c) (Some (tuple_kv <$> kvs)) (Some (tuple_lease <$> ls))
              (Some (tuple_member <$> ms)))
    | None => Err []
    end
}.
#[local] Instance BitsJsonLaws : SnapshotJsonLaws.
Proof.
  split. intros [r c kvs ls ms]. cbn [render parse BitsJson]. rewrite unbits_bits, decode_encode.
  cbn [pl_revision pl_compact_revision pl_kvs pl_leases pl_members].
  by rewrite (fmap_retract kv_tuple), (fmap_retract lease_tuple), (fmap_retract member_tuple) by by intros [].
Qed.

Definition source : KvStore := run RunExample.cmds1 (new 0).
Lemma source_keyed : keyed (current source).
Proof. apply run_keyed; [repeat constructor|vm_compute; repeat split]. Qed.
Lemma source_leases id l : leases source !! id = Some l → l_id l = id.
Proof. intros Hl. vm_compute in Hl. discriminate. Qed.

Lemma snapshot_restore_roundtrip_witness :
  ∃ blob checksum, assemble_chunks (snapshot_stream source) = Ok (blob, checksum) ∧
    current (final (restore_snapshot blob checksum) (new 0)) = current source.
Proof.
  destruct (snapshot_restore_roundtrip source (new 0) source_keyed source_leases)
    as (blob & checksum & Ha & _ & Hc & _).
  exists blob, checksum. exact (conj Ha Hc).
Defined.

Lemma restored_time_travel_empty_witness :
  let s' := final (restore_snapshot (render (payload source)) (sha256_hex (render (payload source)))) (new 0) in
  current s' !! str "b" = Some RunExample.b2 ∧ get_at_revision s' (str "b") (revision source) = None.
Proof.
  destruct (restored_time_travel_empty source (new 0) (str "b") (revision source) source_keyed source_leases)
    as [Hc Hg].
  split; [|exact Hg]. rewrite Hc. vm_compute. reflexivity.
Defined.

#[local] Instance FixedJson : SnapshotJson := { render _ := str "{}"; parse _ := Err [] }.
Lemma sender_reproduces_blob_witness :
  let id := (res (snapshot_sender_open (H := FixedJson) (str "c1")) source).1.1 in
  res (pull 3 id) (final (snapshot_sender_open (H := FixedJson) (str "c1")) source) = Some (str "{}").
Proof.
  apply (sender_reproduces_blob (H := FixedJson) (str "c1") 3 source).
  - vm_compute. reflexivity.
  - vm_compute. lia.
Defined.
End SnapshotExample.
