(* ===== verification/EtcdWire.v ===== *)
(** * Snapshots on the wire and on disk

    [crates/compute/cave-etcd/src/snapshot_wire.rs], the frames in which the chunks of a
    snapshot travel, and [snap_db.rs], the file format of a snapshot and the two ways between
    it and a store.  The SHA-256 of [snapshot_wire.rs] is a copy of that of [store.rs]
    (EtcdSha256.v).  [None] stands for a panic.

    A frame is decoded as it was encoded and a shorter prefix of it is reported as partial; the
    frames of [snapshot_stream] assemble to the snapshot; a [snap.db] parses back to what was
    written; a store restored from its own [snap.db] has the keys and values of the original
    that the save covers. *)

From S2P Require Import Prelude Effects Bytes EtcdTypes EtcdStore EtcdMvcc EtcdHistory EtcdKv EtcdSha256 EtcdSnapshot.

(** ** Frames *)

Definition FRAME_MAGIC : N := 1163150148.
Definition FRAME_VERSION : N := 1.
Definition FRAME_HEADER_LEN : usize := 88.

Record SnapshotFrame : Type := mkSnapshotFrame {
  sf_sequence : u64;
  sf_payload_sha256 : bytes;
  sf_total_sha256 : bytes;
  sf_payload : bytes
}.

Definition sha256_bytes (data : bytes) : bytes := sha_finalize (sha_update sha_new data).
#[global] Arguments sha256_bytes : simpl never.
Definition hex_string (l : bytes) : bytes := mjoin (hex_byte <$> l).

Definition hex_nibble (c : u8) : EtcdResult u8 :=
  if (48 <=? c) && (c <=? 57) then Ok (c - 48)
  else if (97 <=? c) && (c <=? 102) then Ok (c - 97 + 10)
  else if (65 <=? c) && (c <=? 70) then Ok (c - 65 + 10)
  else Err (SnapshotDecode (str "non-hex char 0x" ++ hex_byte c)).
(** The loop over the pairs of digits *)
Fixpoint hex_pairs (s : bytes) : EtcdResult bytes :=
  match s with
  | h :: l :: s =>
      let? hi := hex_nibble h in
      let? lo := hex_nibble l in
      let? rest := hex_pairs s in
      Ok (N.lor (N.shiftl hi 4) lo :: rest)
  | _ => Ok []
  end.
Definition parse_hex32 (s : bytes) : EtcdResult bytes :=
  if negb (vlen s =? 64) then Err (SnapshotDecode (str "hex must be 64 chars, got " ++ decimal (vlen s)))
  else hex_pairs s.

Definition encode_frame (seq : u64) (chunk : SnapshotChunk) : EtcdResult bytes :=
  let? total := parse_hex32 (sc_checksum chunk) in
  let payload_hash := sha256_bytes (sc_blob chunk) in
  Ok (to_be 4 FRAME_MAGIC ++ to_be 4 FRAME_VERSION ++ to_be 8 seq ++ to_be 8 (vlen (sc_blob chunk)) ++
      payload_hash ++ total ++ sc_blob chunk).

Definition partial (have need : usize) : EtcdError :=
  SnapshotDecode (str "partial: have " ++ decimal have ++ str " need " ++ decimal need).
(** [{:08x}] *)
Definition hex32 (n : N) : bytes := hex_string (to_be 4 n).

Definition decode_frame (bs : bytes) : option (EtcdResult (SnapshotFrame * usize)) :=
  if vlen bs <? FRAME_HEADER_LEN then Some (Err (partial (vlen bs) FRAME_HEADER_LEN))
  else
    let magic := from_be (vslice bs 0 4) in
    if negb (magic =? FRAME_MAGIC) then Some (Err (SnapshotDecode (str "bad magic 0x" ++ hex32 magic)))
    else
      let version := from_be (vslice bs 4 8) in
      if negb (version =? FRAME_VERSION) then Some (Err (SnapshotDecode (str "unsupported version " ++ decimal version)))
      else
        let sequence := from_be (vslice bs 8 16) in
        let payload_len := from_be (vslice bs 16 24) in
        let payload_sha256 := vslice bs 24 56 in
        let total_sha256 := vslice bs 56 88 in
        let frame_total := FRAME_HEADER_LEN +w payload_len in
        if vlen bs <? frame_total then Some (Err (partial (vlen bs) frame_total))
        else if frame_total <? FRAME_HEADER_LEN then None
        else
          let payload := vslice bs FRAME_HEADER_LEN frame_total in
          let actual := sha256_bytes payload in
          if decide (actual = payload_sha256) then
            Some (Ok (mkSnapshotFrame sequence payload_sha256 total_sha256 payload, frame_total))
          else Some (Err (SnapshotChecksumMismatch (hex_string payload_sha256) (hex_string actual))).

(** The first loop of [assemble_frames] *)
Fixpoint check_frames (total_hash : bytes) (i : u64) (frames : list SnapshotFrame) : EtcdResult unit :=
  match frames with
  | [] => Ok tt
  | f :: frames =>
      if decide (sf_total_sha256 f = total_hash) then
        if sf_sequence f =? i then check_frames total_hash (i + 1) frames
        else Err (SnapshotDecode (str "out-of-order: frame " ++ decimal i ++ str " declared sequence " ++ decimal (sf_sequence f)))
      else Err (SnapshotChecksumMismatch (hex_string total_hash) (hex_string (sf_total_sha256 f)))
  end.
Definition assemble_frames (frames : list SnapshotFrame) : EtcdResult (bytes * bytes) :=
  match frames with
  | [] => Err (SnapshotDecode (str "no frames"))
  | f0 :: _ =>
      let total_hash := sf_total_sha256 f0 in
      let? _ := check_frames total_hash 0 frames in
      let blob := mjoin (sf_payload <$> frames) in
      let actual := sha256_bytes blob in
      if decide (actual = total_hash) then Ok (blob, total_hash)
      else Err (SnapshotChecksumMismatch (hex_string total_hash) (hex_string actual))
  end.

(** ** snap.db *)

Definition SNAP_MAGIC : N := 1397637456.
Definition SNAP_VERSION : N := 1.
Definition HASH_LEN : usize := 32.

Record SnapHeader : Type := mkSnapHeader {
  sh_version : N;
  sh_created_at : Z;
  sh_cluster_id : u64;
  sh_member_id : u64;
  sh_raft_term : u64;
  sh_raft_index : u64;
  sh_revision : u64;
  sh_entry_count : u64
}.
Record ParsedSnap : Type := mkParsedSnap { ps_header : SnapHeader; ps_entries : list KeyValue }.

Definition rotate_right64 (x n : N) : N := N.lor (N.shiftr x n) (N.shiftl x (64 - n) mod u64_modulus).
Definition snap_hash (data : bytes) : bytes :=
  (λ i : nat,
    let h := N.lxor 14695981039346656037 (u64_mul (N.of_nat i) 1099511628211) in
    let h := foldl (λ h b, u64_mul h 1099511628211 +w b) h data in
    N.lxor h (rotate_right64 h 31) mod 256) <$> seq 0 32.
#[global] Arguments snap_hash : simpl never.

(** [SnapBuilder]: a header and the entries added *)
Module SnapBuilder.
Definition new (unix_secs : Z) (cluster_id member_id : u64) : ParsedSnap :=
  mkParsedSnap (mkSnapHeader SNAP_VERSION unix_secs cluster_id member_id 0 0 0 0) [].
Definition with_raft (b : ParsedSnap) (term index : u64) : ParsedSnap :=
  let h := ps_header b in
  mkParsedSnap (mkSnapHeader (sh_version h) (sh_created_at h) (sh_cluster_id h) (sh_member_id h) term index (sh_revision h) (sh_entry_count h)) (ps_entries b).
Definition with_revision (b : ParsedSnap) (revision : u64) : ParsedSnap :=
  let h := ps_header b in
  mkParsedSnap (mkSnapHeader (sh_version h) (sh_created_at h) (sh_cluster_id h) (sh_member_id h) (sh_raft_term h) (sh_raft_index h) revision (sh_entry_count h)) (ps_entries b).
Definition extend_entries (b : ParsedSnap) (kvs : list KeyValue) : ParsedSnap := mkParsedSnap (ps_header b) (ps_entries b ++ kvs).

(** [len as u32] keeps the low 32 bits. *)
Definition encode_entry (kv : KeyValue) : bytes :=
  to_be 4 (vlen (kv_key kv)) ++ to_be 4 (vlen (kv_value kv)) ++ kv_key kv ++ kv_value kv ++
  to_be 8 (kv_mod_revision kv) ++ to_be 8 (kv_create_revision kv) ++ to_be 8 (kv_version kv).
Definition encode_body (b : ParsedSnap) : bytes :=
  let h := ps_header b in
  to_be 4 SNAP_MAGIC ++ to_be 2 (sh_version h) ++ to_be 8 (Z.to_N (sh_created_at h mod 18446744073709551616)) ++
  to_be 8 (sh_cluster_id h) ++ to_be 8 (sh_member_id h) ++ to_be 8 (sh_raft_term h) ++ to_be 8 (sh_raft_index h) ++
  to_be 8 (sh_revision h) ++ to_be 8 (vlen (ps_entries b)) ++ mjoin (encode_entry <$> ps_entries b).
Definition encode (b : ParsedSnap) : bytes := encode_body b ++ snap_hash (encode_body b).
End SnapBuilder.

(** [u64::from_be_bytes(body[p..p + n])], [p += n]: the value and what is left of the body *)
Definition be (n : nat) (rest : bytes) : N * bytes := (from_be (take n rest), drop n rest).

(** The loop over the entries; [rest] is [body[p..]]. *)
Fixpoint parse_entries (n : nat) (i : u64) (rest : bytes) : EtcdResult (list KeyValue * bytes) :=
  match n with
  | O => Ok ([], rest)
  | S n =>
      if vlen rest <? 8 then Err (SnapshotDecode (str "entry " ++ decimal i ++ str " header truncated"))
      else
        let '(key_len, rest) := be 4 rest in
        let '(val_len, rest) := be 4 rest in
        if vlen rest <? key_len + val_len + 24 then Err (SnapshotDecode (str "entry " ++ decimal i ++ str " body truncated"))
        else
          let key := take (N.to_nat key_len) rest in
          let rest := drop (N.to_nat key_len) rest in
          let value := take (N.to_nat val_len) rest in
          let rest := drop (N.to_nat val_len) rest in
          let '(mod_rev, rest) := be 8 rest in
          let '(create_rev, rest) := be 8 rest in
          let '(version_n, rest) := be 8 rest in
          let? r := parse_entries n (i + 1) rest in
          Ok (mkKeyValue key value create_rev mod_rev version_n None :: r.1, r.2)
  end.

Definition parse_body (body : bytes) : EtcdResult ParsedSnap :=
  let '(magic, rest) := be 4 body in
  if negb (magic =? SNAP_MAGIC) then Err (SnapshotDecode (str "bad magic 0x" ++ hex32 magic))
  else
    let '(version, rest) := be 2 rest in
    if negb (version =? SNAP_VERSION) then Err (SnapshotDecode (str "unsupported version " ++ decimal version))
    else
      let '(created_at, rest) := be 8 rest in
      let '(cluster_id, rest) := be 8 rest in
      let '(member_id, rest) := be 8 rest in
      let '(raft_term, rest) := be 8 rest in
      let '(raft_index, rest) := be 8 rest in
      let '(revision, rest) := be 8 rest in
      let '(entry_count, rest) := be 8 rest in
      let? r := parse_entries (N.to_nat entry_count) 0 rest in
      if negb (vlen r.2 =? 0) then Err (SnapshotDecode (str "trailing " ++ decimal (vlen r.2) ++ str " bytes after entries"))
      else
        Ok (mkParsedSnap (mkSnapHeader version (as_i64 created_at) cluster_id member_id raft_term raft_index revision entry_count) r.1).

Definition parse_snap (buf : bytes) : EtcdResult ParsedSnap :=
  if vlen buf <? 4 + 2 + 8 * 7 + HASH_LEN then Err (SnapshotDecode (str "snap.db truncated"))
  else
    let body := vslice buf 0 (vlen buf - HASH_LEN) in
    let trailer := vslice buf (vlen buf - HASH_LEN) (vlen buf) in
    let want_hash := snap_hash body in
    if decide (trailer = want_hash) then parse_body body
    else Err (SnapshotChecksumMismatch (hex_string want_hash) (hex_string trailer)).

(** [save_from_store] and [restore_into_store]; the clock is an argument. *)
Definition all_keys_request : RangeRequest := mkRangeRequest [] (Some [239; 191; 191]) None None false false.
Definition save_from_store (unix_secs : Z) (s : KvStore) (cluster_id : u64) : bytes :=
  let entries := match res (range all_keys_request) s with Ok r => rs_kvs r | Err _ => [] end in
  let b := SnapBuilder.with_revision (SnapBuilder.with_raft (SnapBuilder.new unix_secs cluster_id 1) (term s) (revision s)) (revision s) in
  SnapBuilder.encode (SnapBuilder.extend_entries b entries).

Definition mod_le (a b : KeyValue) : Prop := kv_mod_revision a ≤ kv_mod_revision b.
#[export] Instance mod_le_dec a b : Decision (mod_le a b) := N.le_dec _ _.
Definition restore_put (kv : KeyValue) : Store PutResponse :=
  put (mkPutRequest (from_utf8_lossy (kv_key kv)) (from_utf8_lossy (kv_value kv)) None false).
Definition restore_into_store (now : Z) (buf : bytes) : EtcdResult (KvStore * SnapHeader) :=
  let? parsed := parse_snap buf in
  let entries := merge_sort mod_le (ps_entries parsed) in
  Ok (final (for_each entries (λ kv, restore_put kv;; skip)) (new now), ps_header parsed).

(** ** Frames survive the wire *)

Lemma vslice_app {A} (a b c : list A) x y : vlen a = x → vlen a + vlen b = y → vslice (a ++ b ++ c) x y = b.
Proof.
  unfold vslice, vlen. intros <- <-. rewrite drop_app_length' by lia. apply take_app_length'. lia.
Qed.

Lemma length_absorb fuel state buffer : length state = 8%nat → length (absorb fuel state buffer).1 = 8%nat.
Proof.
  revert state buffer. induction fuel as [|fuel IH]; intros state buffer Hl; cbn [absorb]; [done|].
  destruct (64 <=? length buffer)%nat; [|done]. apply IH. unfold compress. by rewrite length_zip_with, Hl.
Qed.
Lemma length_words l : length (mjoin (to_be 4 <$> l)) = (4 * length l)%nat.
Proof.
  induction l as [|x l IH]; [done|]. rewrite fmap_cons. change (mjoin (?x :: ?l)) with (x ++ mjoin l).
  rewrite length_app, length_to_be, IH. simpl. lia.
Qed.
Lemma is_bytes_words l : is_bytes (mjoin (to_be 4 <$> l)).
Proof.
  induction l as [|x l IH]; [constructor|]. rewrite fmap_cons. change (mjoin (?x :: ?l)) with (x ++ mjoin l).
  apply Forall_app. split; [apply is_bytes_to_be|done].
Qed.
Lemma length_state_update h data : length (sha_state h) = 8%nat → length (sha_state (sha_update h data)) = 8%nat.
Proof.
  intros Hl. unfold sha_update. pose proof (length_absorb (length (sha_buffer h ++ data)) (sha_state h) (sha_buffer h ++ data) Hl) as Ha.
  by destruct (absorb _ _ _).
Qed.
Lemma length_finalize h : length (sha_state h) = 8%nat → length (sha_finalize h) = 32%nat.
Proof. intros Hl. unfold sha_finalize. by rewrite length_words, length_absorb. Qed.
Lemma vlen_sha256 data : vlen (sha256_bytes data) = 32.
Proof. unfold vlen, sha256_bytes. rewrite length_finalize; [done|]. by apply length_state_update. Qed.
Lemma is_bytes_sha256 data : is_bytes (sha256_bytes data).
Proof. apply is_bytes_words. Qed.

Lemma hex_pair b : b < 256 →
  hex_nibble (hex_digit (b / 16)) = Ok (b / 16) ∧ hex_nibble (hex_digit (b mod 16)) = Ok (b mod 16) ∧
  N.lor (N.shiftl (b / 16) 4) (b mod 16) = b.
Proof.
  intros Hb. assert (Hall : forallb (λ k, let b := N.of_nat k in
    match hex_nibble (hex_digit (b / 16)), hex_nibble (hex_digit (b mod 16)) with
    | Ok x, Ok y => (x =? b / 16) && (y =? b mod 16) && (N.lor (N.shiftl (b / 16) 4) (b mod 16) =? b)
    | _, _ => false
    end) (seq 0 256) = true) by (vm_compute; reflexivity).
  rewrite forallb_forall in Hall. specialize (Hall (N.to_nat b)). rewrite N2Nat.id in Hall.
  ospecialize (Hall _); [apply in_seq; lia|]. cbv zeta in Hall.
  destruct (hex_nibble (hex_digit (b / 16))), (hex_nibble (hex_digit (b mod 16))); try done.
  apply andb_true_iff in Hall as [[->%N.eqb_eq ->%N.eqb_eq]%andb_true_iff ?%N.eqb_eq]. done.
Qed.
Lemma hex_roundtrip l : is_bytes l → hex_pairs (hex_string l) = Ok l.
Proof.
  unfold hex_string. induction 1 as [|b l Hb _ IH]; [done|]. rewrite fmap_cons. change (mjoin (?x :: ?l)) with (x ++ mjoin l).
  destruct (hex_pair b Hb) as (H1 & H2 & H3). cbn [hex_byte app hex_pairs]. by rewrite H1, H2, IH, H3.
Qed.
Lemma parse_digest data : parse_hex32 (sha256_hex data) = Ok (sha256_bytes data).
Proof.
  change (sha256_hex data) with (hex_string (sha256_bytes data)). unfold parse_hex32.
  assert (Hl : vlen (hex_string (sha256_bytes data)) = 64).
  { assert (H : ∀ l, vlen (hex_string l) = 2 * vlen l).
    { unfold hex_string. induction l as [|b l IH]; [done|]. rewrite fmap_cons. change (mjoin (?x :: ?l)) with (x ++ mjoin l).
      rewrite vlen_app, IH, vlen_cons. change (vlen (hex_byte b)) with 2. lia. }
    rewrite H. by rewrite vlen_sha256. }
  rewrite Hl. change (negb (64 =? 64)) with false. cbn match. apply hex_roundtrip, is_bytes_sha256.
Qed.

(** The frame of a payload *)
Definition frame_bytes (seq : u64) (total payload : bytes) : bytes :=
  to_be 4 FRAME_MAGIC ++ to_be 4 FRAME_VERSION ++ to_be 8 seq ++ to_be 8 (vlen payload) ++ sha256_bytes payload ++ total ++ payload.

Lemma vlen_frame seq total payload : vlen total = 32 → vlen (frame_bytes seq total payload) = 88 + vlen payload.
Proof. intros Ht. unfold frame_bytes. rewrite !vlen_app, !vlen_to_be, vlen_sha256, Ht. lia. Qed.

Lemma be_u64 n : n < u64_modulus → from_be (to_be 8 n) = n.
Proof. intros Hn. apply from_be_to_be. exact Hn. Qed.
Lemma magic_be : from_be (to_be 4 FRAME_MAGIC) = FRAME_MAGIC.
Proof. vm_compute. reflexivity. Qed.
Lemma version_be : from_be (to_be 4 FRAME_VERSION) = FRAME_VERSION.
Proof. vm_compute. reflexivity. Qed.
(** The fields of the header, read from a buffer that starts with a frame *)
Lemma wire_frame_fields seq total payload rest : vlen total = 32 →
  let bs := frame_bytes seq total payload ++ rest in
  vslice bs 0 4 = to_be 4 FRAME_MAGIC ∧ vslice bs 4 8 = to_be 4 FRAME_VERSION ∧ vslice bs 8 16 = to_be 8 seq ∧
  vslice bs 16 24 = to_be 8 (vlen payload) ∧ vslice bs 24 56 = sha256_bytes payload ∧ vslice bs 56 88 = total.
Proof.
  intros Ht bs. unfold bs, frame_bytes. rewrite <- !app_assoc.
  set (m := to_be 4 FRAME_MAGIC). set (v := to_be 4 FRAME_VERSION). set (q := to_be 8 seq). set (n := to_be 8 (vlen payload)). set (h := sha256_bytes payload).
  assert (Hm : vlen m = 4) by apply vlen_to_be. assert (Hv : vlen v = 4) by apply vlen_to_be. assert (Hq : vlen q = 8) by apply vlen_to_be.
  assert (Hn : vlen n = 8) by apply vlen_to_be. assert (Hh : vlen h = 32) by apply vlen_sha256.
  split_and!.
  - apply (vslice_app []); [done|]. change (vlen []) with 0. lia.
  - apply vslice_app; lia.
  - rewrite (app_assoc m). apply vslice_app; rewrite ?vlen_app; lia.
  - rewrite (app_assoc m), (app_assoc (m ++ v)). apply vslice_app; rewrite ?vlen_app; lia.
  - rewrite (app_assoc m), (app_assoc (m ++ v)), (app_assoc ((m ++ v) ++ q)). apply vslice_app; rewrite ?vlen_app; lia.
  - rewrite (app_assoc m), (app_assoc (m ++ v)), (app_assoc ((m ++ v) ++ q)), (app_assoc (((m ++ v) ++ q) ++ n)). apply vslice_app; rewrite ?vlen_app; lia.
Qed.

Lemma frame_payload seq total payload rest : vlen total = 32 →
  vslice (frame_bytes seq total payload ++ rest) 88 (88 + vlen payload) = payload.
Proof.
  intros Ht. unfold frame_bytes. rewrite !(app_assoc (to_be 4 FRAME_MAGIC)), !(app_assoc (_ ++ to_be 4 FRAME_VERSION)), !(app_assoc (_ ++ to_be 8 seq)),
    !(app_assoc (_ ++ to_be 8 (vlen payload))), !(app_assoc (_ ++ sha256_bytes payload)), <- (app_assoc _ payload).
  apply vslice_app; rewrite !vlen_app, !vlen_to_be, vlen_sha256, Ht; lia.
Qed.

(** A complete frame is decoded as it was encoded, whatever follows it. *)
Lemma decode_whole seq total payload rest : vlen total = 32 → seq < u64_modulus → 88 + vlen payload < u64_modulus →
  decode_frame (frame_bytes seq total payload ++ rest) =
  Some (Ok (mkSnapshotFrame seq (sha256_bytes payload) total payload, 88 + vlen payload)).
Proof.
  intros Ht Hs Hp. destruct (wire_frame_fields seq total payload rest Ht) as (F1 & F2 & F3 & F4 & F5 & F6).
  unfold decode_frame. rewrite F1, F2, F3, F4, F5, F6, vlen_app, vlen_frame by done. unfold FRAME_HEADER_LEN.
  rewrite (proj2 (N.ltb_ge _ 88)) by lia. rewrite (be_u64 seq), (be_u64 (vlen payload)), magic_be, version_be by lia.
  change (negb (FRAME_MAGIC =? FRAME_MAGIC)) with false. change (negb (FRAME_VERSION =? FRAME_VERSION)) with false. cbn match.
  rewrite u64_add_small by done. rewrite (proj2 (N.ltb_ge _ (88 + vlen payload))) by lia. rewrite (proj2 (N.ltb_ge _ 88)) by lia.
  rewrite frame_payload by done. by rewrite decide_True.
Qed.

(** A strict prefix of a frame is reported as partial. *)
Lemma decode_partial seq total payload n : vlen total = 32 → seq < u64_modulus → 88 + vlen payload < u64_modulus →
  N.of_nat n < 88 + vlen payload →
  ∃ need, decode_frame (take n (frame_bytes seq total payload)) = Some (Err (partial (N.of_nat n) need)) ∧ N.of_nat n < need ≤ 88 + vlen payload.
Proof.
  intros Ht Hs Hp Hn. pose proof (vlen_frame seq total payload Ht) as Hl.
  assert (Htk : vlen (take n (frame_bytes seq total payload)) = N.of_nat n) by (unfold vlen in *; rewrite length_take; lia).
  unfold decode_frame. rewrite Htk. unfold FRAME_HEADER_LEN. destruct (N.ltb_spec (N.of_nat n) 88) as [Hlt|Hge]; [exists 88; split; [done|lia]|].
  assert (Hsl : ∀ a b, b ≤ N.of_nat n → vslice (take n (frame_bytes seq total payload)) a b = vslice (frame_bytes seq total payload ++ []) a b).
  { intros a b Hb. unfold vslice. rewrite app_nil_r, skipn_firstn_comm, take_take. f_equal. lia. }
  destruct (wire_frame_fields seq total payload [] Ht) as (F1 & F2 & F3 & F4 & F5 & F6).
  rewrite !Hsl by lia. rewrite F1, F2, F4. rewrite (be_u64 (vlen payload)), magic_be, version_be by lia.
  change (negb (FRAME_MAGIC =? FRAME_MAGIC)) with false. change (negb (FRAME_VERSION =? FRAME_VERSION)) with false. cbn match.
  rewrite u64_add_small by done. rewrite (proj2 (N.ltb_lt _ (88 + vlen payload))) by lia. exists (88 + vlen payload). split; [done|lia].
Qed.

(** ** A snapshot survives the wire *)

(** The bytes of the frames of a list of chunks, numbered from [i] *)
Fixpoint send (i : u64) (chunks : list SnapshotChunk) : EtcdResult bytes :=
  match chunks with
  | [] => Ok []
  | c :: chunks =>
      let? frame := encode_frame i c in
      let? rest := send (i + 1) chunks in
      Ok (frame ++ rest)
  end.
(** Decode frames until the bytes are used up; [None]: a frame is refused. *)
Fixpoint receive (fuel : nat) (bs : bytes) : option (list SnapshotFrame) :=
  match fuel, bs with
  | _, [] => Some []
  | O, _ :: _ => None
  | S fuel, _ :: _ =>
      match decode_frame bs with
      | Some (Ok (f, n)) => fs ← receive fuel (drop (N.to_nat n) bs); Some (f :: fs)
      | _ => None
      end
  end.

(** The frames of a list of payloads *)
Fixpoint frames_from (i : u64) (total : bytes) (payloads : list bytes) : list SnapshotFrame :=
  match payloads with
  | [] => []
  | p :: payloads => mkSnapshotFrame i (sha256_bytes p) total p :: frames_from (i + 1) total payloads
  end.
Fixpoint wire_from (i : u64) (total : bytes) (payloads : list bytes) : bytes :=
  match payloads with
  | [] => []
  | p :: payloads => frame_bytes i total p ++ wire_from (i + 1) total payloads
  end.

Lemma send_numbered i blob chunks : Forall (λ c, sc_checksum c = sha256_hex blob) chunks →
  send i chunks = Ok (wire_from i (sha256_bytes blob) (sc_blob <$> chunks)).
Proof.
  intros Hc. revert i. induction Hc as [|c chunks Hc _ IH]; intros i; [done|]. cbn [send]. unfold encode_frame.
  rewrite Hc, parse_digest. rewrite IH. done.
Qed.

Lemma receive_wire i total payloads fuel : vlen total = 32 → (length payloads ≤ fuel)%nat → i + vlen payloads < u64_modulus →
  Forall (λ p, 88 + vlen p < u64_modulus) payloads →
  receive fuel (wire_from i total payloads) = Some (frames_from i total payloads).
Proof.
  intros Ht. revert i fuel. induction payloads as [|p payloads IH]; intros i fuel Hf Hi Hp; [by destruct fuel|].
  apply Forall_cons in Hp as [Hp Hps]. rewrite vlen_cons in Hi. destruct fuel as [|fuel]; [simpl in Hf; lia|]. cbn [wire_from frames_from].
  pose proof (decode_whole i total p (wire_from (i + 1) total payloads) Ht ltac:(lia) Hp) as Hd.
  pose proof (vlen_frame i total p Ht) as Hl. destruct (frame_bytes i total p ++ wire_from (i + 1) total payloads) as [|b bs] eqn:E.
  { apply app_eq_nil in E as [E _]. rewrite E in Hl. change (vlen []) with 0 in Hl. lia. }
  cbn [receive]. rewrite Hd. cbn [mbind option_bind]. rewrite <- E, drop_app_length' by (rewrite <- Hl; unfold vlen; lia).
  rewrite IH; [done|simpl in Hf; lia|lia|done].
Qed.

Lemma check_numbered i total payloads : check_frames total i (frames_from i total payloads) = Ok tt.
Proof.
  revert i. induction payloads as [|p payloads IH]; intros i; [done|]. cbn [frames_from check_frames sf_total_sha256 sf_sequence].
  rewrite decide_True by done. by rewrite N.eqb_refl.
Qed.
Lemma frames_payloads i total payloads : sf_payload <$> frames_from i total payloads = payloads.
Proof. revert i. induction payloads as [|p payloads IH]; intros i; [done|]. cbn [frames_from]. by rewrite fmap_cons, IH. Qed.

Lemma number_chunks_blobs h total ck i slices : sc_blob <$> number_chunks h total ck i slices = slices.
Proof. revert i. induction slices as [|x slices IH]; intros i; [done|]. cbn [number_chunks]. by rewrite fmap_cons, IH. Qed.
Lemma number_chunks_checksum h total ck i slices : Forall (λ c, sc_checksum c = ck) (number_chunks h total ck i slices).
Proof. revert i. induction slices as [|x slices IH]; intros i; [constructor|]. by constructor. Qed.

Lemma chunks_of_bounds fuel size l : (length (chunks_of fuel size l) ≤ fuel)%nat ∧ Forall (λ p, vlen p ≤ vlen l) (chunks_of fuel size l).
Proof.
  revert l. induction fuel as [|fuel IH]; intros [|b l]; cbn [chunks_of]; try (split; [simpl; lia|constructor]).
  destruct (IH (drop (N.to_nat size) (b :: l))) as [Hn Hf]. split; [simpl; lia|]. constructor.
  - unfold vlen. rewrite length_take. lia.
  - eapply Forall_impl; [exact Hf|]. intros p Hp. cbv beta in *. unfold vlen in *. rewrite length_drop in Hp. lia.
Qed.

Section Stream.
Context `{SnapshotJson}.

(** The chunks of a stream: non-empty, with the digest of the snapshot, no chunk and no number of
    chunks beyond its size *)
Lemma stream_chunks s : let blob := render (payload s) in
  Forall (λ c, sc_checksum c = sha256_hex blob) (snapshot_stream s) ∧ mjoin (sc_blob <$> snapshot_stream s) = blob ∧
  snapshot_stream s ≠ [] ∧ vlen (snapshot_stream s) ≤ N.max 1 (vlen blob) ∧ Forall (λ p, vlen p ≤ vlen blob) (sc_blob <$> snapshot_stream s).
Proof.
  unfold snapshot_stream, snapshot_blob. generalize (render (payload s)) as blob. generalize (header_of s) as h. intros h blob. cbv zeta.
  destruct blob as [|b l]; [split_and!; [by repeat constructor|done|done|by vm_compute|by repeat constructor]|].
  destruct (chunks_of_bounds (length (b :: l)) SNAPSHOT_CHUNK_SIZE (b :: l)) as [Hn Hf].
  assert (Hj := chunks_of_join (length (b :: l)) SNAPSHOT_CHUNK_SIZE (b :: l) ltac:(done) ltac:(lia)).
  revert Hn Hf Hj. generalize (chunks_of (length (b :: l)) SNAPSHOT_CHUNK_SIZE (b :: l)) as slices. intros slices Hn Hf Hj.
  split_and!; [apply number_chunks_checksum|by rewrite number_chunks_blobs|by destruct slices| |by rewrite number_chunks_blobs].
  unfold vlen. rewrite <- (length_fmap sc_blob), number_chunks_blobs. lia.
Qed.

(** Snapshots survive the wire.  The frames of the chunks of a snapshot, sent as one stream
    of bytes, are received and assembled to exactly the snapshot and its digest. *)
Theorem snapshot_wire_roundtrip s :
  88 + vlen (render (payload s)) < u64_modulus →
  ∃ wire frames, send 0 (snapshot_stream s) = Ok wire ∧ receive (length (snapshot_stream s)) wire = Some frames ∧
  assemble_frames frames = Ok (render (payload s), sha256_bytes (render (payload s))).
Proof.
  intros Hsz. destruct (stream_chunks s) as (Hc & Hj & Hne & Hn & Hp). set (blob := render (payload s)) in *.
  rewrite (send_numbered 0 blob _ Hc). eexists _, _. split_and!; [done| |].
  - apply receive_wire; [apply vlen_sha256|by rewrite length_fmap| |].
    + unfold vlen in *. rewrite length_fmap. lia.
    + eapply Forall_impl; [exact Hp|]. simpl. intros. lia.
  - destruct (snapshot_stream s) as [|c chunks]; [done|]. rewrite fmap_cons in *. unfold assemble_frames. cbn [frames_from sf_total_sha256].
    pose proof (frames_payloads 0 (sha256_bytes blob) (sc_blob c :: (sc_blob <$> chunks))) as Hf. cbn [frames_from] in Hf.
    pose proof (check_numbered 0 (sha256_bytes blob) (sc_blob c :: (sc_blob <$> chunks))) as Hk. cbn [frames_from] in Hk. rewrite Hk, Hf, Hj. by rewrite decide_True.
Qed.
End Stream.

Lemma snapshot_wire_roundtrip_witness :
  ∃ wire frames, send 0 (snapshot_stream (H := SnapshotExample.FixedJson) (new 0)) = Ok wire ∧
  receive (length (snapshot_stream (H := SnapshotExample.FixedJson) (new 0))) wire = Some frames ∧
  assemble_frames frames = Ok (str "{}", sha256_bytes (str "{}")).
Proof. apply (snapshot_wire_roundtrip (H := SnapshotExample.FixedJson) (new 0)). vm_compute. reflexivity. Defined.

(** A length near 2^64 makes the end of the frame wrap in front of its header: a panic. *)
Lemma hostile_length_panics :
  decode_frame (to_be 4 FRAME_MAGIC ++ to_be 4 FRAME_VERSION ++ to_be 8 0 ++ to_be 8 18446744073709551528 ++ replicate 64 0) = None.
Proof. vm_compute. reflexivity. Qed.

(** ** snap.db *)

Lemma be_app n x rest : x < 256 ^ N.of_nat n → be n (to_be n x ++ rest) = (x, rest).
Proof.
  intros Hx. unfold be. rewrite take_app_length', drop_app_length' by (by rewrite length_to_be). by rewrite from_be_to_be.
Qed.

(** What fits the fields of an entry *)
Definition entry_fits (kv : KeyValue) : Prop :=
  vlen (kv_key kv) < 256 ^ N.of_nat 4 ∧ vlen (kv_value kv) < 256 ^ N.of_nat 4 ∧ kv_mod_revision kv < 256 ^ N.of_nat 8 ∧
  kv_create_revision kv < 256 ^ N.of_nat 8 ∧ kv_version kv < 256 ^ N.of_nat 8.
Definition without_lease (kv : KeyValue) : KeyValue :=
  mkKeyValue (kv_key kv) (kv_value kv) (kv_create_revision kv) (kv_mod_revision kv) (kv_version kv) None.

Lemma parse_entry n i kv rest : entry_fits kv →
  parse_entries (S n) i (SnapBuilder.encode_entry kv ++ rest) =
  (let? r := parse_entries n (i + 1) rest in Ok (without_lease kv :: r.1, r.2)).
Proof.
  intros (Hk & Hv & Hm & Hc & Hn). cbn [parse_entries]. unfold SnapBuilder.encode_entry. rewrite <- !app_assoc.
  rewrite (proj2 (N.ltb_ge _ 8)) by (rewrite !vlen_app, !vlen_to_be; lia). rewrite !be_app by done. cbn beta iota zeta.
  rewrite (proj2 (N.ltb_ge _ _)) by (rewrite !vlen_app, !vlen_to_be; lia).
  rewrite take_app_length', drop_app_length' by (unfold vlen; lia). rewrite take_app_length', drop_app_length' by (unfold vlen; lia).
  by rewrite !be_app by done.
Qed.
Lemma parse_entries_encoded i kvs : Forall entry_fits kvs →
  parse_entries (length kvs) i (mjoin (SnapBuilder.encode_entry <$> kvs)) = Ok (without_lease <$> kvs, []).
Proof.
  intros Hf. revert i. induction Hf as [|kv kvs Hkv _ IH]; intros i; [done|]. rewrite fmap_cons. change (mjoin (?x :: ?l)) with (x ++ mjoin l).
  cbn [length]. rewrite parse_entry by done. by rewrite IH.
Qed.

(** What fits the fields of the header; the version is the one this code writes. *)
Definition snap_fits (b : ParsedSnap) : Prop :=
  let h := ps_header b in
  sh_version h = SNAP_VERSION ∧ (-9223372036854775808 ≤ sh_created_at h < 9223372036854775808)%Z ∧
  sh_cluster_id h < 256 ^ N.of_nat 8 ∧ sh_member_id h < 256 ^ N.of_nat 8 ∧ sh_raft_term h < 256 ^ N.of_nat 8 ∧
  sh_raft_index h < 256 ^ N.of_nat 8 ∧ sh_revision h < 256 ^ N.of_nat 8 ∧ vlen (ps_entries b) < 256 ^ N.of_nat 8 ∧
  Forall entry_fits (ps_entries b).
Definition with_count (h : SnapHeader) (n : u64) : SnapHeader :=
  mkSnapHeader (sh_version h) (sh_created_at h) (sh_cluster_id h) (sh_member_id h) (sh_raft_term h) (sh_raft_index h) (sh_revision h) n.

Lemma as_i64_wrapped z : (-9223372036854775808 ≤ z < 9223372036854775808)%Z → as_i64 (Z.to_N (z mod 18446744073709551616)) = z.
Proof.
  intros Hz. unfold as_i64, wrap_i64. rewrite Z2N.id by (apply Z.mod_pos_bound; lia). rewrite Zplus_mod_idemp_l, Z.mod_small by lia. lia.
Qed.

Lemma parse_body_encoded b : snap_fits b →
  parse_body (SnapBuilder.encode_body b) = Ok (mkParsedSnap (with_count (ps_header b) (vlen (ps_entries b))) (without_lease <$> ps_entries b)).
Proof.
  intros (Hver & Hcr & Hc & Hm & Ht & Hi & Hr & Hn & He). unfold parse_body, SnapBuilder.encode_body. rewrite Hver.
  rewrite (be_app 4 SNAP_MAGIC) by (vm_compute; reflexivity). cbn beta iota zeta. change (negb (SNAP_MAGIC =? SNAP_MAGIC)) with false. cbn match.
  rewrite (be_app 2 SNAP_VERSION) by (vm_compute; reflexivity). cbn beta iota zeta. change (negb (SNAP_VERSION =? SNAP_VERSION)) with false. cbn match.
  rewrite be_app. 2:{ change (256 ^ N.of_nat 8) with (Z.to_N 18446744073709551616). apply Z2N.inj_lt; try apply Z.mod_pos_bound; lia. }
  cbn beta iota zeta. rewrite !be_app by done. cbn beta iota zeta. unfold vlen at 1. rewrite Nat2N.id, parse_entries_encoded by done.
  cbn [snd fst]. change (negb (vlen [] =? 0)) with false. cbn match. rewrite as_i64_wrapped by done. unfold with_count. by rewrite Hver.
Qed.

Lemma vlen_snap_hash data : vlen (snap_hash data) = 32.
Proof. unfold vlen, snap_hash. by rewrite length_fmap, length_seq. Qed.

(** A [snap.db] reads back.  Parsing the file of a snapshot gives the header that was
    written, with the number of entries, and the entries, in order, without their leases. *)
Theorem snap_db_roundtrip b :
  snap_fits b →
  parse_snap (SnapBuilder.encode b) = Ok (mkParsedSnap (with_count (ps_header b) (vlen (ps_entries b))) (without_lease <$> ps_entries b)).
Proof.
  intros Hf. rewrite <- (parse_body_encoded b Hf). unfold parse_snap, SnapBuilder.encode. set (body := SnapBuilder.encode_body b).
  assert (Hb : 62 ≤ vlen body) by (unfold body, SnapBuilder.encode_body; rewrite !vlen_app, !vlen_to_be; lia).
  rewrite vlen_app, vlen_snap_hash. unfold HASH_LEN. rewrite (proj2 (N.ltb_ge _ _)) by lia. rewrite N.add_sub.
  assert (Hbody : vslice (body ++ snap_hash body) 0 (vlen body) = body).
  { apply (vslice_app [] body (snap_hash body)); [done|]. change (vlen []) with 0. lia. }
  assert (Htr : vslice (body ++ snap_hash body) (vlen body) (vlen body + 32) = snap_hash body).
  { rewrite <- (app_nil_r (snap_hash body)) at 1. apply vslice_app; [done|]. by rewrite vlen_snap_hash. }
  rewrite Hbody, Htr. by rewrite decide_True.
Qed.
Lemma snap_db_roundtrip_witness :
  let b := SnapBuilder.extend_entries (SnapBuilder.new 1700000000 7 1) [mkKeyValue (str "k") (str "v") 2 3 1 (Some 9%Z)] in
  parse_snap (SnapBuilder.encode b) = Ok (mkParsedSnap (with_count (ps_header b) 1) [mkKeyValue (str "k") (str "v") 2 3 1 None]).
Proof.
  intros b. assert (Hf : snap_fits b).
  { unfold snap_fits. cbv zeta. split; [reflexivity|]. split; [cbn; lia|]. do 6 (split; [vm_compute; reflexivity|]).
    constructor; [|constructor]. split_and!; vm_compute; reflexivity. }
  exact (snap_db_roundtrip b Hf).
Defined.

(** ** Restoring a store from its snap.db *)

Lemma restore_put_current kv s : valid_utf8 (kv_key kv) = true → valid_utf8 (kv_value kv) = true →
  ∃ kv', kv_value kv' = kv_value kv ∧ current (final (restore_put kv;; skip) s) = <[kv_key kv := kv']> (current s).
Proof.
  intros Hk Hv. rewrite final_then_skip. unfold restore_put. rewrite !from_utf8_lossy_valid by done.
  destruct (put_run (mkPutRequest (kv_key kv) (kv_value kv) None false) s) as (m & o & Hrun).
  rewrite (final_run _ _ _ _ _ Hrun).
  exists (EtcdMvcc.written (mkPutRequest (kv_key kv) (kv_value kv) None false) s). done.
Qed.

Lemma restored_current kvs s : NoDup (kv_key <$> kvs) →
  Forall (λ kv, valid_utf8 (kv_key kv) = true ∧ valid_utf8 (kv_value kv) = true) kvs →
  let s' := final (for_each kvs (λ kv, restore_put kv;; skip)) s in
  (∀ kv, kv ∈ kvs → kv_value <$> current s' !! kv_key kv = Some (kv_value kv)) ∧
  (∀ k, k ∉ kv_key <$> kvs → current s' !! k = current s !! k).
Proof.
  intros Hnd Hu. revert s. induction Hu as [|kv kvs [Hk Hv] _ IH]; intros s; [split; [set_solver|done]|].
  rewrite fmap_cons, NoDup_cons in Hnd. destruct Hnd as [Hn Hnd]. cbn [for_each]. rewrite final_bind.
  destruct (restore_put_current kv s Hk Hv) as (kv' & Hval & Hcur).
  destruct (IH Hnd (final (restore_put kv;; skip) s)) as [Hin Hout]. split.
  - intros kv0 [->|Hkv0]%elem_of_cons; [|by apply Hin]. rewrite Hout by done. rewrite Hcur, lookup_insert_eq. simpl. by rewrite Hval.
  - intros k Hk'. rewrite Hout by set_solver. rewrite Hcur. apply lookup_insert_ne. set_solver.
Qed.

(** What a store must be for its file to hold it. *)
Record saveable (s : KvStore) : Prop := {
  sv_keyed : keyed (current s);
  sv_fits k kv : current s !! k = Some kv → entry_fits kv ∧ valid_utf8 k = true ∧ valid_utf8 (kv_value kv) = true;
  sv_term : term s < 256 ^ N.of_nat 8;
  sv_revision : revision s < 256 ^ N.of_nat 8;
  sv_size : N.of_nat (size (current s)) < 256 ^ N.of_nat 8
}.

Definition covered (m : gmap bytes KeyValue) : list KeyValue := select all_keys_request m.
Lemma saved_entries s :
  match res (range all_keys_request) s with Ok r => rs_kvs r | Err _ => [] end = covered (current s).
Proof.
  pose proof (range_now all_keys_request s) as H. change (at_revision all_keys_request None) with all_keys_request in H.
  destruct (res (range all_keys_request) s); [|done]. by injection H.
Qed.
Lemma covered_elem s kv : keyed (current s) → kv ∈ covered (current s) ↔ current s !! kv_key kv = Some kv ∧ bytes_ltb (kv_key kv) [239; 191; 191] = true.
Proof. intros Hk. unfold covered. rewrite select_elem by done. by destruct (kv_key kv). Qed.
Lemma covered_NoDup s : keyed (current s) → NoDup (kv_key <$> covered (current s)).
Proof. intros Hk. unfold covered, select. simpl. rewrite merge_sort_Permutation. by apply (selected_NoDup (λ e, in_range [] [239; 191; 191] e.1)). Qed.
Lemma covered_length s : (length (covered (current s)) ≤ size (current s))%nat.
Proof.
  unfold covered, select. simpl. rewrite merge_sort_Permutation, length_fmap. etrans; [apply length_filter|]. by rewrite length_map_to_list.
Qed.

(** A store survives its [snap.db].  A store restored from the file of another has, for
    every key below U+FFFF, the value the other had, and no other key. *)
Theorem snap_db_restores unix now s cluster_id :
  saveable s → (-9223372036854775808 ≤ unix < 9223372036854775808)%Z → cluster_id < 256 ^ N.of_nat 8 →
  ∃ s' h, restore_into_store now (save_from_store unix s cluster_id) = Ok (s', h) ∧ sh_revision h = revision s ∧
  ∀ k, kv_value <$> current s' !! k = if bytes_ltb k [239; 191; 191] then kv_value <$> current s !! k else None.
Proof.
  intros [Hkeyed Hfits Hterm Hrev Hsize] Hunix Hcid. unfold save_from_store, restore_into_store. rewrite saved_entries.
  set (b := SnapBuilder.extend_entries _ _).
  assert (Hent : Forall (λ kv, entry_fits kv ∧ valid_utf8 (kv_key kv) = true ∧ valid_utf8 (kv_value kv) = true) (covered (current s))).
  { apply Forall_forall. intros kv [Hk _]%covered_elem; [|done]. by apply Hfits. }
  assert (Hb : snap_fits b).
  { split; [done|]. split; [exact Hunix|]. split; [exact Hcid|]. split; [done|]. split; [exact Hterm|]. split; [exact Hrev|]. split; [exact Hrev|].
    split; [|eapply Forall_impl; [exact Hent|]; by intros kv [? _]].
    pose proof (covered_length s) as Hlen. change (ps_entries b) with (covered (current s)). unfold vlen. lia. }
  rewrite (snap_db_roundtrip b Hb). cbn match. eexists _, _. split; [reflexivity|]. split; [done|].
  set (kvs := merge_sort mod_le _).
  assert (Hp : kvs ≡ₚ without_lease <$> covered (current s)) by apply merge_sort_Permutation.
  assert (Hkeys : kv_key <$> kvs ≡ₚ kv_key <$> covered (current s)).
  { rewrite Hp. rewrite <- list_fmap_compose. done. }
  destruct (restored_current kvs (new now)) as [Hin Hout].
  - rewrite Hkeys. by apply covered_NoDup.
  - rewrite Hp. apply Forall_fmap. eapply Forall_impl; [exact Hent|]. by intros kv [_ ?].
  - intros k. destruct (decide (k ∈ kv_key <$> kvs)) as [Hk|Hk].
    + rewrite Hkeys in Hk. apply list_elem_of_fmap in Hk as (kv & -> & Hkv). pose proof Hkv as [Hc Hlt]%covered_elem; [|done].
      rewrite Hlt, Hc. apply (Hin (without_lease kv)). rewrite Hp. by apply list_elem_of_fmap_2.
    + rewrite Hout by done. destruct (bytes_ltb k [239; 191; 191]) eqn:Hlt; [|done].
      destruct (current s !! k) as [kv|] eqn:Hc; [|done]. exfalso. apply Hk. rewrite Hkeys. rewrite <- (Hkeyed _ _ Hc).
      apply list_elem_of_fmap_2, covered_elem; [done|]. by rewrite (Hkeyed _ _ Hc).
Qed.

Module WireExample.
(** A key below U+FFFF and one above: U+10000 *)
Definition put_of (k v : bytes) : Store unit := put (mkPutRequest k v None false);; skip.
Definition store : KvStore := final (put_of (str "a") (str "1");; put_of [240; 144; 128; 128] (str "2")) (new 0).
Lemma store_saveable : saveable store.
Proof.
  assert (Hall : map_Forall (λ k kv, kv_key kv = k ∧ entry_fits kv ∧ valid_utf8 k = true ∧ valid_utf8 (kv_value kv) = true) (current store)).
  { unfold map_Forall. intros k kv Hk. apply elem_of_map_to_list in Hk. vm_compute in Hk.
    apply elem_of_cons in Hk as [E|Hk]; [|apply elem_of_cons in Hk as [E|Hk]; [|by apply elem_of_nil in Hk]]; injection E as -> ->; unfold entry_fits; split_and!; vm_compute; reflexivity. }
  split; [intros k kv Hk; by apply Hall in Hk as [? _]|intros k kv Hk; by apply Hall in Hk as [_ ?]|vm_compute; reflexivity..].
Qed.
End WireExample.

Lemma snap_db_restores_witness :
  ∃ s' h, restore_into_store 0 (save_from_store 1700000000 WireExample.store 7) = Ok (s', h) ∧
  kv_value <$> current s' !! str "a" = Some (str "1").
Proof.
  destruct (snap_db_restores 1700000000 0 WireExample.store 7) as (s' & h & H1 & _ & Hk).
  - exact WireExample.store_saveable.
  - lia.
  - vm_compute. reflexivity.
  - exists s', h. split; [exact H1|]. rewrite Hk. vm_compute. reflexivity.
Defined.
(** The other key of the same store is not in its file. *)
Lemma high_key_not_saved :
  let k := [240; 144; 128; 128] in
  kv_value <$> current WireExample.store !! k = Some (str "2") ∧
  (match restore_into_store 0 (save_from_store 1700000000 WireExample.store 7) with Ok (s', _) => current s' !! k | Err _ => None end) = None.
Proof. split; vm_compute; reflexivity. Qed.
