(* ===== verification/EtcdFindings.v ===== *)
(** * Behaviours of the store that its documentation does not announce

    Concrete runs of the model, each evaluated by the kernel, of places where [store.rs]
    and its comments or the etcd semantics it mirrors part ways. *)

From S2P Require Import Prelude Bytes Effects EtcdTypes EtcdStore EtcdMvcc EtcdHistory EtcdWatch EtcdCluster.

Definition put_kv (k v : string) (lease : option Z) : Command := CPut (mkPutRequest (str k) (str v) lease false).

(** ** Deletions of several keys share one history entry *)

Module ReplayExample.
Definition deletion : Command := CDeleteRange (mkDeleteRangeRequest (str "a") (Some (str "c")) false).
Definition before : KvStore := run [put_kv "a" "1" None; put_kv "b" "2" None] (new 0).
Definition all_keys : WatchConfig := mkWatchConfig 1 (str "a") (Some (str "z")) (Some 4) false.
End ReplayExample.

(** Replay of a range deletion.  Deleting the keys [a] and [b] in one request broadcasts
    two deletions at revision 4, but the history keeps one entry per revision: a watch
    created afterwards with start revision 4 replays only one of them. *)
Theorem range_deletion_replayed_once :
  let s := final (exec ReplayExample.deletion) ReplayExample.before in
  ev_type <$> broadcasts (outs (exec ReplayExample.deletion) ReplayExample.before) = [EDelete; EDelete] ∧
  ev_type <$> get_historical_events s ReplayExample.all_keys 4 = [EDelete].
Proof. vm_compute. split; reflexivity. Qed.

(** ** Transactions do not exclude puts *)

Module TxnExample.
Definition s0 : KvStore := run [put_kv "a" "1" None] (new 0).
Definition other : PutRequest := mkPutRequest (str "a") (str "theirs") None false.
Definition cas : TxnRequest :=
  mkTxnRequest [mod_equals (str "a") 2] [OpPut (mkPutRequest (str "a") (str "mine") None false)] [].
Definition value_of (s : KvStore) : option bytes := kv_value <$> current s !! str "a".
Definition interleaved : KvStore :=
  final (txn_execute cas (res (txn_compare (t_compare cas)) s0)) (final (put other) (final (txn_compare (t_compare cas)) s0)).
End TxnExample.
Import TxnExample.

(** Transactions and puts.  [put] does not take the transaction lock, so it can run
    between the comparison and the execution of a transaction.  The transaction then
    overwrites a value it never compared: the outcome, two writes with the transaction's
    value last, is that of neither serial order. *)
Theorem txn_not_atomic_with_put :
  (value_of interleaved, revision interleaved) = (Some (str "mine"), 4) ∧
  (let s := final (txn cas) (final (put other) s0) in (value_of s, revision s)) = (Some (str "theirs"), 3) ∧
  (let s := final (put other) (final (txn cas) s0) in (value_of s, revision s)) = (Some (str "theirs"), 4).
Proof. vm_compute. repeat split; reflexivity. Qed.

(** ** Leases granted twice *)

(** Granting an id in use replaces the lease, with an empty key list: the keys attached
    before are no longer removed with it. *)
Theorem regrant_orphans_keys :
  let s := run [CLeaseGrant 0 (mkLeaseGrantRequest 10 (Some 7%Z)); put_kv "a" "1" (Some 7%Z);
                CLeaseGrant 0 (mkLeaseGrantRequest 10 (Some 7%Z)); CLeaseRevoke 7] (new 0) in
  leases s !! 7%Z = None ∧ kv_lease <$> current s !! str "a" = Some (Some 7%Z).
Proof. vm_compute. split; reflexivity. Qed.

(** The ids the counter hands out collide with ids chosen by clients, also in
    [lease_grant_v2]. *)
Theorem fresh_lease_id_collides :
  let s := run [CLeaseGrantV2 0 (mkLeaseGrantRequest 10 (Some 2%Z)); put_kv "a" "1" (Some 2%Z);
                CLeaseGrantV2 0 (mkLeaseGrantRequest 10 None)] (new 0) in
  l_keys <$> leases s !! 2%Z = Some [] ∧ kv_lease <$> current s !! str "a" = Some (Some 2%Z).
Proof. vm_compute. split; reflexivity. Qed.

(** ** Compaction *)

(** The unchecked [compact] accepts a lower revision than the one already compacted; a read
    at a revision whose history is gone is then answered, with nothing. *)
Theorem compaction_can_regress :
  let s := run [put_kv "a" "1" None; put_kv "b" "2" None; CCompaction 3; CCompaction 1] (new 0) in
  compacted_revision s = 1 ∧
  answer (res (range (mkRangeRequest (str "a") None None (Some 2) false false)) s) = Some ([], 0, false).
Proof. vm_compute. split; reflexivity. Qed.

(** ** Order comparisons of values *)

(** A transaction condition that a value is greater or less than another always holds. *)
Theorem value_order_always_holds k r v kv :
  r = CGreater ∨ r = CLess → compare_kv (mkCompare k TValue r v None None) kv = true.
Proof. by intros [-> | ->]. Qed.

(** ** Joint configurations *)

(** A refused [enter_joint] has already added its members. *)
Theorem refused_joint_adds_members :
  let req := mkEnterJointRequest [mkMemberAddRequest [] true] [1] in
  is_ok (res (enter_joint req) (new 0)) = false ∧
  m_id <$> members (final (enter_joint req) (new 0)) = [1; 101].
Proof. vm_compute. split; reflexivity. Qed.

(** [quorum_size] in joint mode is no bound for both halves: as many members as it asks for
    may contain nobody of the outgoing half. *)
Theorem joint_quorum_not_conservative :
  let cfg := mkJointConfig [1; 2; 3] [4; 5; 6] [] in
  let s := set_joint (Some cfg) (new 0) in
  quorum_size s = vlen [4; 5] ∧ filter (.∈ [4; 5]) (j_outgoing cfg) = [].
Proof. vm_compute. split; reflexivity. Qed.
